(* ===== verification/_CoqProject ===== *)
-Q . S2P
Prelude.v
Utf8.v
AbsolutePath.v
PathUris.v
PathUriProps.v
PathUriExample.v
ConfigPaths.v
FsPolicy.v
FsPolicyProps.v
FsDenyProps.v
FsHost.v
PolicyIntersection.v
PolicyTransforms.v
PolicyTransformsProps.v
PolicyIntersectionProps.v
FsExamples.v
PatchParser.v
PatchParserProps.v
PatchGrammar.v
PatchReparse.v
FileUpdate.v
FileUpdateProps.v
SpliceProps.v
ApplyPatch.v
ApplyPatchProps.v
ApplyPatchSpec.v
TurnDiff.v
TurnDiffRender.v
Invocation.v
ExecPolicy.v
ExecPolicyProps.v
PolicyFile.v
PolicyFileProps.v
PolicyAmend.v
DangerousCommand.v
ExecApproval.v
PatchSafety.v
ExecApprovalProps.v
ApprovalUpdateProps.v
ApprovalExamples.v
PolicyLoad.v
InlineTag.v
InlineTagProps.v
Utf8Stream.v
TaggedLine.v
TaggedLineProps.v
HeadTailBuffer.v
Truncation.v
OutputTruncation.v
History.v
HistoryNormalize.v
HistoryPromptProps.v
CoreItems.v
ThreadItems.v
ThreadHistory.v
ThreadHistoryProps.v
ThreadChangesProps.v
ThreadHistorySpec.v
IpAddr.v
NetworkPolicy.v
AuthorizationPath.v
MitmHook.v
NetworkConfig.v
NetworkState.v
NetworkRuntime.v
NetworkSpec.v
NetworkStateProps.v
NetworkRuntimeProps.v
NetworkPolicyProps.v
HostNormalProps.v
NetworkDecisionProps.v
NetworkSpecProps.v
NetworkExamples.v
MitmHookProps.v
HistoryStore.v
HistoryStoreProps.v
HistoryStoreSpec.v
HistoryPaging.v
HistoryPagingProps.v
HistoryPagingSpec.v
