(* ===== verification/Prelude.v ===== *)
(** * Verification of the patch engine, the command and network policies, the text
    pipeline and the thread history of the Codex agent

    The program under [src/codex-main/codex-rs] is a coding agent: a model
    proposes patches and shell commands, and the agent decides whether they may
    run, runs them, and tells the user what changed.  What the model writes and
    what commands print passes through stream parsers, bounded buffers and the
    prompt history; what commands send over the network passes through a proxy
    with a policy of its own; what happened is kept as a history of turns and items
    that clients follow and page through.  This library models the code that carries
    those decisions and effects, in eleven groups.

    ** Patches ([apply-patch/src])

    A patch is text with [*** Begin Patch] markers.  [PatchParser.v] is
    [streaming_parser.rs] and [parser.rs]: the parser is a state machine fed
    character by character ([push_delta], [process_line], [finish]) behind the
    strict and lenient boundary checks of [parse_patch_text].  [FileUpdate.v] is
    [text_file.rs] (lines with their own endings), [seek_sequence.rs] and
    [file_update.rs]: finding the old lines of a chunk,
    computing replacements and applying them in both update modes.
    [ApplyPatch.v] is the engine of [lib.rs]: hunks applied one after another to
    an [ExecutorFileSystem], with the record of what was really changed
    ([AppliedPatchDelta]) and the retry, rollback and reporting paths.  The file
    system, the path values and the output streams are the classes
    [ExecutorFileSystem], [PathUri] and [IoWrite], with the laws of
    [FileSystemLaws], under which distinct paths are distinct files (no symbolic or
    hard links); [ApplyPatchSpec.v] begins with an instance.  [Invocation.v] is
    [invocation.rs]: recognising [apply_patch] in a command line and verifying it,
    i.e. predicting its changes.

    - [PatchParserProps.v], [PatchGrammar.v], [PatchReparse.v]: streaming in any
      pieces is parsing at once, reported hunks are stable, accepted patches are
      well formed, printing a document of the grammar and parsing gives its hunks
      back, or an error when an update or a context of it is empty, and the kept text
      parses again.
    - [FileUpdate.v], [FileUpdateProps.v], [SpliceProps.v]: lossless splitting,
      what [seek_sequence] finds, that replacements are ordered and disjoint,
      that the two ways to apply them agree, and what a chunk does to a file.
    - [ApplyPatchProps.v], [ApplyPatchSpec.v]: an abstract patch on finite maps,
      the refinement of it by the engine, the prefix property of failures, that
      exact deltas replay and revert, and the absence of panics.
    - [Invocation.v]: what the user is shown is what is applied, under the
      condition that no two hunks share a target, and a counterexample without.

    ** The diff of a turn ([core/src/turn_diff_tracker.rs])

    [TurnDiff.v] models the tracker that folds deltas into a baseline and a
    current view and renders a unified diff with a cache, and relates it to the disk
    across runs of the engine.  How far each diff gets before its deadline is an input
    ([DiffProgress]), and the revision counter wraps around at 64 bits.
    [TurnDiffRender.v] shows that the published diff consists of renderings of the
    current contents, that the cache is invisible, and that each path is rendered once.

    ** Paths and file-system permissions ([utils/path-uri], [protocol], [sandboxing])

    [PathUris.v] is [utils/path-uri/src/lib.rs]: paths as [file:] URLs of a POSIX
    or Windows convention, with their native forms, containment, parents and
    joins; [ConfigPaths.v] is [config_path.rs] and [api_path_string.rs], the paths
    of configuration files and of clients.  [FsPolicy.v] is [permissions.rs] with
    [target.rs] and [deny_read_validator.rs]: entries that grant or deny paths,
    globs and symbolic places, their resolution for the paths of an executor, the
    protection of metadata directories, deny-read rules and the permission
    profiles of [models.rs].  [FsHost.v] is the part of the same file about the
    local host (canonical paths, writable roots, gitdir pointers) and the legacy
    policies of [protocol.rs].  [PolicyTransforms.v] is
    [sandboxing/src/policy_transforms.rs]: what a command asks for on top of its
    profile, what it is granted, and the effective profile.
    [PolicyIntersection.v] is [permission_profile_intersection.rs]: the profile of
    a child agent, from its owner's and its own.  [PatchSafety.v] is
    [core/src/safety.rs]: whether a patch is applied without asking.

    - [PathUriProps.v]: for POSIX paths, containment is the prefix order on decoded
      names, and parents and joins act on the names as on a list;
      [PathUriExample.v] is a concrete URL type with percent encoding.
    - [FsPolicyProps.v]: the entry with the longest prefix decides and ambiguity
      denies, whole-disk access is what it says, read-only intersections, and writes to
      metadata directories are explicit.
    - [FsDenyProps.v]: denials survive the replacement of a policy and the binding of
      workspace roots; after the validation against required denials only symbolic
      grants can open a denied directory.
    - [FsHost.v]: legacy policies come back from their profiles.
    - [PolicyTransformsProps.v]: the intersection of a request and a grant stays
      within both, and an effective profile adds what was granted and no more.
    - [PolicyIntersectionProps.v]: a child agent gets nothing that its owner does not
      hold or that it did not ask for.
    - [PatchSafety.v]: a patch approved without asking changes the file system only by
      calls at paths that the policy lets be written, and at their parent directories;
      with the laws of the file system, other files stay as they are.
    - [FsExamples.v]: concrete policies, requests and grants.

    ** Command rules ([execpolicy/src])

    [ExecPolicy.v] is [decision.rs], [rule.rs], [policy.rs], [error.rs] and
    [executable_name.rs]; [PolicyFile.v] the builtins and example checks of
    [parser.rs]; [PolicyAmend.v] is [amend.rs].  [ExecPolicyProps.v]: what a
    rule matches, that the strictest match wins whatever the order, what
    overlays can do, and what network rules compile to.  [PolicyFileProps.v]:
    what a [prefix_rule] call adds and that a loaded file's examples hold.
    [PolicyAmend.v]: appending a rule keeps the file and is idempotent.

    ** Approvals ([core/src/exec_policy.rs], [shell-command], [protocol])

    [DangerousCommand.v] is the classifier of [is_dangerous_command.rs] and the
    exact set of wrapped commands that it flags.  [ExecApproval.v] decides whether a
    command needs approval, derives amendments and updates the policy, with the
    sandbox choices of [tools/sandboxing.rs].  [ExecApprovalProps.v] and
    [ApprovalUpdateProps.v]: forbidding rules win, skipping approval means that everything matched
    allows, flagged commands never run unasked, unwanted prompts are not shown,
    accepted prefixes take effect, and unfamiliar executables are not trusted;
    [ApprovalExamples.v] runs them on a small Unix host.  [PolicyLoad.v] loads
    the policy files of the configuration layers and shows which rules of the
    requirements are enforced, and what can take the place of the others.

    ** Streamed text ([utils/stream-parser])

    [InlineTag.v] has the parser trait ([StreamTextParser]), the class
    [StreamTextLaws] of what a parser owes its callers, and
    [inline_hidden_tag.rs] and [citation.rs]; [TaggedLine.v] is
    [tagged_line_parser.rs], [proposed_plan.rs] and [assistant_text.rs];
    [Utf8.v] is [str::from_utf8] and [Utf8Stream.v] is [utf8_stream.rs], proved
    for every parser with the laws.  [InlineTagProps.v] and [TaggedLineProps.v]:
    however a text is cut, the outputs add up to those of one scan of the whole
    text (when no opening delimiter contains another), every push returns, and bytes cut inside characters are the text they
    encode or a reported error.

    ** Output ([core/src/unified_exec], [utils/string], [utils/output-truncation])

    [HeadTailBuffer.v] has the saturating 64-bit counters and the buffer of process
    output, shown to be the summary of all output (first bytes,
    last bytes, count in between) and to stay within its budget.  [Truncation.v]
    is [truncate.rs]; [OutputTruncation.v] truncates lists of output items and accounts
    for every item.

    ** Prompt history ([core/src/context_manager])

    [History.v] has the items of [protocol/src/models.rs] with their annotations;
    [HistoryNormalize.v] is [normalize.rs] with [normalize_history] and
    [remove_first_item] of [history.rs].  There and in
    [HistoryPromptProps.v]: normalization succeeds, afterwards calls and outputs
    are paired and unaccepted media are gone, nothing else is lost, when a debug build
    panics instead, and normalizing again, also in a debug build, changes nothing.

    ** Thread history ([app-server-protocol/src/protocol], [protocol], [ext/items])

    [CoreItems.v] has the items and events of the core protocol and the records of a
    rollout file; [ThreadItems.v] the items that clients see, the conversions and
    [item_builders.rs], [review_format.rs] and the hook prompts of [items.rs].
    [ThreadHistory.v] is [thread_history.rs]: the builder ([ThreadHistoryBuilder])
    with one definition per handler, the lazy item index of a turn, change tracking
    and the accumulator that coalesces change sets.

    - [ThreadHistoryProps.v]: [sound], the invariant of a builder, kept by every
      handler; [reachable], the builders that events lead to; and that handlers do
      not depend on whether changes are tracked.
    - [ThreadChangesProps.v]: a replica of rows and how change sets act on it.
    - [ThreadHistorySpec.v]: no batch panics, tracking changes nothing, a reader that
      applies the coalesced change sets has the rows of the builder, an indexed update
      is a scan, a rollback removes the last turns, a late completion changes its own
      turn.

    ** The store of histories ([thread-store/src/local])

    [HistoryStore.v] is [thread_history_projection.rs],
    [thread_history_materialization.rs], [read_session_meta_line] of the crate
    [rollout] and the writes of [thread_history.rs]: reading the session metadata and
    the complete lines of a rollout file after a checkpoint, projecting them, and one
    transaction that writes turns, items, realtime items and the checkpoint.  SQL
    statements are functions on maps of rows, the unique indexes of the migrations
    included.  [HistoryPaging.v] is [rollout_lineage.rs], [segment_paging.rs],
    [read.rs] and [turn_lookup.rs]: the chain of rollouts behind a fork, and pages of
    items and turns with cursors.

    - [HistoryStoreProps.v]: the steps of a line follow its ordinal, lines can be read
      in pieces, every write keeps the rows well formed ([tables_ok]) and what was
      there ([extends]), and no step fails.
    - [HistoryStoreSpec.v]: [project_file], one pass over all lines, is the
      specification; [store_step] is a step relation with appends, workers that load a
      checkpoint, read and commit, failures and deletions, and in every run the rows are
      the projection of a prefix; a materialization catches up once the file has its
      session metadata.
    - [HistoryPagingProps.v]: a query is a restriction of one strictly ordered listing;
      a client that follows the cursors ([read_pages]) reads that listing.
    - [HistoryPagingSpec.v]: resolving a lineage terminates in a chain; items, changed
      items (of threads that are not forked) and visible turns are listed once and in
      order; a concrete fork.

    ** The network proxy ([network-proxy/src], [utils/absolute-path])

    [IpAddr.v] is the parser and the classification of the standard library;
    [NetworkPolicy.v] is [policy.rs] (hosts, ranges, domain patterns);
    [NetworkConfig.v] and [NetworkState.v] are [config.rs] and [state.rs]
    (permissions, managed constraints, compiled state); [MitmHook.v] and
    [AuthorizationPath.v] are [mitm_hook.rs] and [authorization_path.rs];
    [AbsolutePath.v] is the resolution of paths on Unix; [NetworkRuntime.v] is
    the shared state of [runtime.rs] with the decisions of [connect_policy.rs]
    and [network_policy.rs], and the choice of an upstream proxy of [upstream.rs].  [NetworkSpec.v] is
    [core/src/config/network_proxy_spec.rs] with [environment_policy.rs] and the
    requirements of [config]: how requirements, the user's configuration, the
    network rules of [ExecPolicy.v] and the policy of an environment are put
    together, and which decider a proxy is started with.

    The runtime is a step relation, [NetworkRuntimeProps.step_from]: a world is the
    shared state and the updates that have released the read lock and not yet
    taken the write lock; each step is one critical section (reload, replace,
    read or commit an update, record or drain blocked requests), and the states
    that are brought in come from a given source: any [trusted] state, validated
    and compiled from its lists, or those of the specifications that a session
    derives from its requirements ([NetworkSpecProps.session_state]).

    - [NetworkStateProps.v], [NetworkRuntimeProps.v]: validation and every
      interleaving of steps keep a state within its managed constraints; a list
      update can lose a blocked request.
    - [NetworkPolicyProps.v], [IpAddr.v], [HostNormalProps.v]: which addresses
      are non-public, what normalizing a host does, and that the order on patterns
      is inclusion of the hosts that their globs match.
    - [NetworkDecisionProps.v]: managed denials cannot be evaded, what an allowed
      request means, and that connections stay public unless an upstream proxy is
      configured.
    - [HostNormalProps.v], [NetworkSpecProps.v]: followed from the requirements
      into the decisions of the running proxy, required denials cannot be evaded
      and a managed allowlist is a ceiling; network rules take effect; an
      environment can only restrict.
    - [MitmHookProps.v], [AuthorizationPath.v]: hooks act as a scan in order, on
      unambiguous paths only.
    - [NetworkExamples.v]: instances of the interfaces and concrete runs.

    ** Conventions

    A string is the list of its Unicode scalar values, and its UTF-8 bytes where
    the code counts bytes.  [Result] is [result]; a panic is a separate outcome
    ([None] or a constructor), and the theorems say when it cannot happen.
    Mutated objects are records passed through.  Indices and lengths are [nat]
    where they are positions in vectors that fit the address space, and [N] with
    saturation or masks where the width matters (counters, budgets, addresses).
    Recursion is structural with four exceptions.  The ancestors of a URL have as
    much fuel as it has segments, which reaches the root
    ([PathUriProps.last_successors]).  The wrapper depth of the
    classifier runs on the remaining budget, nine minus the depth, and
    [with_depth_unfold] shows that it satisfies the equation of the source.  The
    loop of the inline tag parser has one unit of fuel more than the text it
    holds has characters, which is enough because delimiters are not empty
    ([inline_push_terminates]).  The loop over a lineage has two units more than
    there are rollout files, which is enough because it stops at a rollout that it has
    seen ([lineage_loop_total]).  The locks around policy updates make them one
    step; those of the network proxy are steps of their own.

    ** Interfaces

    Code outside the repository, and parts of it that are not modelled, are type
    classes: the file system and path values of the engine, the diff algorithm
    and SHA-1 ([DiffTools]), the tree-sitter queries ([InvocationTools]), paths,
    [shlex] and [Debug] output ([PolicyTools]), the Starlark evaluator
    ([Evaluator]), JSON quoting ([JsonText]), directories ([PolicyDirs]), shell
    and PowerShell parsing with the Windows checks ([ShellTools],
    [CommandParsers]), the URLs of the crate [url] ([FileUrls], with
    [FileUrlLaws]), globs of policies ([GlobTools]), the file system that policies
    of the host look at ([HostFs]), the crates [globset], [url] and [http] in the
    proxy ([HostTools], [HookTools], [UrlTools]), the environment of paths and secrets ([PathEnv],
    [SecretEnv]), secret redaction, shell joining and XML of the item builders
    ([HistoryTools]), JSON and timestamps of the store ([StoreTools], with
    [SerializerLaws]) and its cursors ([CursorCodec], with [CursorLaws]); name
    resolution, the process environment, the
    parsing of proxy addresses, name-based UUIDs and the estimate for recordings are
    arguments.  Where a theorem needs a law of one of them it is a
    hypothesis, and a witness shows an instance for which it holds.

    ** Not modelled

    Session orchestration, the terminal interface, the app server, network
    clients and servers, sandboxes and the trading application around the agent
    are I/O, async runtimes and platform APIs.  Of the modelled components, the
    following is left out: the HTTP and SOCKS listeners and the scopes of executions
    in the proxy, rollback and token estimates of the prompt history, the serialised
    forms of permissions and the Windows host, the timeline, the search and the
    preparation of files for a reference in the thread store, notifications of the
    app-server protocol, metrics, and SQLite failures other than constraints. *)

From Stdlib Require Export Ascii.
From stdpp Require Export base list strings gmap pretty sorting.

(** ** Fallible code *)

(** [Result<A, E>]: the error type comes first so that [result E] is a monad
    and the [x ← m; k] notation reads like the [?] operator. *)
Inductive result (E A : Type) : Type :=
| Ok (a : A)
| Err (e : E).
Arguments Ok {E A} a.
Arguments Err {E A} e.

#[global] Instance result_ret {E} : MRet (result E) := λ A a, Ok a.
#[global] Instance result_bind {E} : MBind (result E) := λ A B k m,
  match m with Ok a => k a | Err e => Err e end.
#[global] Instance result_fmap {E} : FMap (result E) := λ A B f m,
  match m with Ok a => Ok (f a) | Err e => Err e end.
#[global] Instance result_eq_dec {E A} `{EqDecision E, EqDecision A} :
  EqDecision (result E A).
Proof. solve_decision. Defined.

(** [Result::map_err] *)
Definition map_err {E F A} (f : E → F) (m : result E A) : result F A :=
  match m with Ok a => Ok a | Err e => Err (f e) end.

(** [Result::ok] *)
Definition result_ok {E A} (m : result E A) : option A :=
  match m with Ok a => Some a | Err _ => None end.

(** [Result::is_ok] *)
Definition is_ok {E A} (m : result E A) : bool :=
  match m with Ok _ => true | Err _ => false end.

(** [Option::ok_or] *)
Definition ok_or {E A} (m : option A) (e : E) : result E A :=
  match m with Some a => Ok a | None => Err e end.

Lemma map_err_Ok {E F A} (f : E → F) (m : result E A) a : map_err f m = Ok a ↔ m = Ok a.
Proof. destruct m; simpl; naive_solver. Qed.
Lemma result_bind_Ok {E A B} (m : result E A) (k : A → result E B) b :
  (m ≫= k) = Ok b ↔ ∃ a, m = Ok a ∧ k a = Ok b.
Proof. destruct m; naive_solver. Qed.

Lemma result_bind_Err {E A B} (m : result E A) (k : A → result E B) e :
  (m ≫= k) = Err e ↔ m = Err e ∨ ∃ a, m = Ok a ∧ k a = Err e.
Proof. destruct m; naive_solver. Qed.

(** ** Characters and strings

    A Rust [char] is its Unicode scalar value; a [String] or [&str] is the list
    of its characters.  Where the code counts or slices bytes, [byte_len] and
    the [utf8] functions below give the encoded view. *)
Abbreviation rchar := N (only parsing).
Abbreviation rstr := (list N) (only parsing).

(** A string literal of the source, all of whose characters are ASCII. *)
Fixpoint str (s : string) : rstr :=
  match s with
  | EmptyString => []
  | String a s' => N_of_ascii a :: str s'
  end.
Arguments str s%_string : simpl never.

Definition ch_nl : rchar := 10%N.
Definition ch_cr : rchar := 13%N.

(** [char::is_whitespace]: the Unicode property White_Space. *)
Definition is_whitespace (c : rchar) : bool :=
  ((9 <=? c) && (c <=? 13) || (c =? 32) || (c =? 133) || (c =? 160)
   || (c =? 5760) || (8192 <=? c) && (c <=? 8202) || (c =? 8232) || (c =? 8233)
   || (c =? 8239) || (c =? 8287) || (c =? 12288))%N.

(** [char::is_ascii_digit] *)
Definition is_ascii_alphabetic (c : rchar) : bool :=
  ((65 <=? c) && (c <=? 90) || (97 <=? c) && (c <=? 122))%N.
Definition is_ascii_digit (c : rchar) : bool := ((48 <=? c) && (c <=? 57))%N.

(** [char::to_ascii_lowercase] *)
Definition ascii_lower (c : rchar) : rchar :=
  if ((65 <=? c) && (c <=? 90))%N then (c + 32)%N else c.
Definition to_ascii_lowercase (s : rstr) : rstr := ascii_lower <$> s.
(** [str::eq_ignore_ascii_case] *)
Definition eq_ignore_ascii_case (s t : rstr) : bool :=
  bool_decide (to_ascii_lowercase s = to_ascii_lowercase t).

Definition str_eqb (s t : rstr) : bool := bool_decide (s = t).
Definition is_empty {A} (l : list A) : bool :=
  match l with [] => true | _ => false end.

(** [trim_start_matches] for a predicate. *)
Fixpoint trim_start_by (p : rchar → bool) (s : rstr) : rstr :=
  match s with
  | [] => []
  | c :: s' => if p c then trim_start_by p s' else s
  end.
Definition trim_end_by (p : rchar → bool) (s : rstr) : rstr :=
  reverse (trim_start_by p (reverse s)).
(** [str::trim_start], [str::trim_end], [str::trim] *)
Definition trim_start : rstr → rstr := trim_start_by is_whitespace.
Definition trim_end : rstr → rstr := trim_end_by is_whitespace.
Definition trim (s : rstr) : rstr := trim_end (trim_start s).

(** [str::strip_prefix] *)
Fixpoint strip_prefix (p s : rstr) : option rstr :=
  match p, s with
  | [], _ => Some s
  | a :: p', b :: s' => if (a =? b)%N then strip_prefix p' s' else None
  | _ :: _, [] => None
  end.
Definition starts_with (s p : rstr) : bool :=
  match strip_prefix p s with Some _ => true | None => false end.
(** [str::strip_suffix], [str::ends_with] *)
Definition strip_suffix (p s : rstr) : option rstr :=
  reverse <$> strip_prefix (reverse p) (reverse s).
Definition ends_with (s p : rstr) : bool :=
  match strip_suffix p s with Some _ => true | None => false end.

(** [str::split(c)]: at least one piece. *)
Fixpoint split_char (c : rchar) (s : rstr) : list rstr :=
  match s with
  | [] => [[]]
  | d :: s' =>
      if (d =? c)%N then [] :: split_char c s'
      else match split_char c s' with
           | [] => [[d]]
           | w :: ws => (d :: w) :: ws
           end
  end.

(** [str::split] with a predicate *)
Fixpoint split_by (sep : rchar → bool) (s : rstr) : list rstr :=
  match s with
  | [] => [[]]
  | d :: s' =>
      if sep d then [] :: split_by sep s'
      else match split_by sep s' with
           | [] => [[d]]
           | w :: ws => (d :: w) :: ws
           end
  end.

(** [slice::join] *)
Fixpoint join (sep : rstr) (ls : list rstr) : rstr :=
  match ls with
  | [] => []
  | [l] => l
  | l :: ls' => l ++ sep ++ join sep ls'
  end.

(** [line.strip_suffix('\r').unwrap_or(line)] *)
Definition strip_cr (l : rstr) : rstr := default l (strip_suffix [ch_cr] l).

(** [str::lines]: the pieces between newlines, each without the carriage return
    that precedes its newline; no line after a final newline. *)
Fixpoint lines_of (pieces : list rstr) : list rstr :=
  match pieces with
  | [] => []
  | [last] => if is_empty last then [] else [last]
  | l :: ls => strip_cr l :: lines_of ls
  end.
Definition lines (s : rstr) : list rstr := lines_of (split_char ch_nl s).

(** [str::find] on lists of characters (or of bytes): the first position at
    which the needle occurs. *)
Fixpoint find_sub (needle s : list N) : option nat :=
  if starts_with s needle then Some 0
  else match s with
       | [] => None
       | _ :: s' => S <$> find_sub needle s'
       end.
Definition contains_sub (needle s : list N) : bool :=
  match find_sub needle s with Some _ => true | None => false end.
Definition contains_char (c : rchar) (s : rstr) : bool := bool_decide (c ∈ s).

(** [str::split_once(c)] and [str::rsplit_once(c)] *)
Fixpoint split_once (c : rchar) (s : rstr) : option (rstr * rstr) :=
  match s with
  | [] => None
  | d :: s' =>
      if (d =? c)%N then Some ([], s')
      else prod_map (cons d) id <$> split_once c s'
  end.
Definition rsplit_once (c : rchar) (s : rstr) : option (rstr * rstr) :=
  match split_once c (reverse s) with
  | Some (b, a) => Some (reverse a, reverse b)
  | None => None
  end.

(** The UTF-8 encoding of a character and of a string: [str::as_bytes]. *)
Definition utf8_char (c : rchar) : list N :=
  (if c <? 128 then [c]
   else if c <? 2048 then [192 + c / 64; 128 + c mod 64]
   else if c <? 65536 then [224 + c / 4096; 128 + (c / 64) mod 64; 128 + c mod 64]
   else [240 + c / 262144; 128 + (c / 4096) mod 64; 128 + (c / 64) mod 64; 128 + c mod 64])%N.
Definition utf8 (s : rstr) : list N := s ≫= utf8_char.
(** [str::len] *)
Definition byte_len (s : rstr) : nat := length (utf8 s).

(** [str::replace] of a character *)
Definition replace_char (a b : rchar) (s : rstr) : rstr :=
  (λ c, if (c =? a)%N then b else c) <$> s.

(** [Ord] on strings: lexicographic in the scalar values, which is the order of
    the UTF-8 encodings. *)
Fixpoint str_leb (s t : rstr) : bool :=
  match s, t with
  | [], _ => true
  | _ :: _, [] => false
  | a :: s', b :: t' => if (a =? b)%N then str_leb s' t' else (a <? b)%N
  end.

(** [slice::sort_by_key] on a string key: stable. *)
Fixpoint insert_by_key {A} (key : A → rstr) (x : A) (l : list A) : list A :=
  match l with
  | [] => [x]
  | y :: l' => if str_leb (key y) (key x) then y :: insert_by_key key x l' else x :: l
  end.
Definition sort_by_key {A} (key : A → rstr) (l : list A) : list A :=
  foldl (λ acc x, insert_by_key key x acc) [] l.

(** [Vec::dedup]: consecutive equal elements become one. *)
Fixpoint dedup {A} `{EqDecision A} (l : list A) : list A :=
  match l with
  | [] => []
  | x :: l' =>
      match l' with
      | y :: _ => if decide (x = y) then dedup l' else x :: dedup l'
      | [] => [x]
      end
  end.

(** [format!("{n}")] for an unsigned integer. *)
Definition display_nat (n : nat) : rstr := str (pretty (N.of_nat n)).

(** ** Automation

    [rust] collects the lemmas that most proofs about the modelled string and
    list operations need; [rust_simpl] rewrites with the equations. *)
Create HintDb rust.
Create HintDb rust_rw.

(** Destructs the scrutinee of a [match] or [if] of the goal or of a hypothesis. *)
Ltac case_goal :=
  match goal with
  | |- context [match ?x with _ => _ end] => destruct x eqn:?
  end.
Ltac case_hyp :=
  match goal with
  | H : context [match ?x with _ => _ end] |- _ => destruct x eqn:?
  end.
(** Inverts a successful run of fallible code. *)
Ltac inv_ok :=
  repeat match goal with
  | H : (_ ≫= _) = Ok _ |- _ => apply result_bind_Ok in H as (? & ? & H)
  | H : Ok _ = Ok _ |- _ => inversion H; clear H; try subst
  | H : Some _ = Some _ |- _ => inversion H; clear H; try subst
  | H : Err _ = Ok _ |- _ => discriminate H
  | H : None = Some _ |- _ => discriminate H
  | H : Some _ = None |- _ => discriminate H
  end.
(** Turns boolean tests of the model into propositions. *)
Ltac reflect_bools :=
  repeat match goal with
  | H : bool_decide _ = true |- _ => apply bool_decide_eq_true_1 in H
  | H : bool_decide _ = false |- _ => apply bool_decide_eq_false_1 in H
  | H : str_eqb _ _ = true |- _ => unfold str_eqb in H
  | H : str_eqb _ _ = false |- _ => unfold str_eqb in H
  | H : andb _ _ = true |- _ => apply andb_true_iff in H; destruct H
  | H : orb _ _ = false |- _ => apply orb_false_iff in H; destruct H
  | H : negb _ = true |- _ => apply negb_true_iff in H
  | H : negb _ = false |- _ => apply negb_false_iff in H
  end.

(** ** Facts about strings *)

Lemma is_empty_true {A} (l : list A) : is_empty l = true ↔ l = [].
Proof. by destruct l. Qed.

Lemma str_eqb_refl s : str_eqb s s = true.
Proof. by apply bool_decide_eq_true_2. Qed.

Lemma strip_prefix_Some p s t : strip_prefix p s = Some t ↔ s = p ++ t.
Proof.
  revert s; induction p as [|a p IH]; intros [|b s]; simpl; try naive_solver.
  destruct (N.eqb_spec a b) as [->|]; [rewrite IH|]; naive_solver.
Qed.

Lemma strip_prefix_app p t : strip_prefix p (p ++ t) = Some t.
Proof. by apply strip_prefix_Some. Qed.

Lemma starts_with_true s p : starts_with s p = true ↔ ∃ t, s = p ++ t.
Proof.
  unfold starts_with. destruct (strip_prefix p s) eqn:E.
  - apply strip_prefix_Some in E. naive_solver.
  - split; [done|]. intros [t ->]. by rewrite strip_prefix_app in E.
Qed.

Lemma strip_suffix_Some p s t : strip_suffix p s = Some t ↔ s = t ++ p.
Proof.
  unfold strip_suffix. rewrite fmap_Some. setoid_rewrite strip_prefix_Some. split.
  - intros (x & Hs & ->). apply (f_equal reverse) in Hs.
    by rewrite reverse_app, !reverse_involutive in Hs.
  - intros ->. exists (reverse t). by rewrite reverse_app, reverse_involutive.
Qed.

Lemma ends_with_true s p : ends_with s p = true ↔ ∃ t, s = t ++ p.
Proof.
  unfold ends_with. destruct (strip_suffix p s) eqn:E.
  - apply strip_suffix_Some in E. naive_solver.
  - split; [done|]. intros [t Ht]. apply strip_suffix_Some in Ht. congruence.
Qed.

Lemma strip_cr_id l : last l ≠ Some ch_cr → strip_cr l = l.
Proof.
  intros H. unfold strip_cr. destruct (strip_suffix [ch_cr] l) eqn:E; [|done].
  apply strip_suffix_Some in E as ->. by rewrite last_snoc in H.
Qed.

(** *** Trimming *)

Lemma trim_start_by_head p s :
  (∀ c, head s = Some c → p c = false) → trim_start_by p s = s.
Proof. destruct s as [|c s]; [done|]. simpl. intros H. by rewrite (H c). Qed.

Lemma trim_end_by_last p s :
  (∀ c, last s = Some c → p c = false) → trim_end_by p s = s.
Proof.
  intros H. unfold trim_end_by. rewrite trim_start_by_head, reverse_involutive; [done|].
  intros c. rewrite head_reverse. apply H.
Qed.

Lemma trim_start_by_suffix p s : trim_start_by p s `suffix_of` s.
Proof.
  induction s as [|c s IH]; simpl; [done|].
  destruct (p c); [by apply suffix_cons_r | done].
Qed.

Lemma trim_start_by_all p s : Forall (λ c, p c = true) s → trim_start_by p s = [].
Proof. induction 1 as [|c s Hc _ IH]; simpl; [done|]. by rewrite Hc. Qed.

(** A string starts and ends with visible characters. *)
Definition trimmed_start (s : rstr) : Prop := ∀ c, head s = Some c → is_whitespace c = false.
Definition trimmed_end (s : rstr) : Prop := ∀ c, last s = Some c → is_whitespace c = false.

Lemma trim_id s : trimmed_start s → trimmed_end s → trim s = s.
Proof.
  intros Hs He. unfold trim, trim_start, trim_end.
  rewrite trim_start_by_head by done. by apply trim_end_by_last.
Qed.

Lemma trim_end_id s : trimmed_end s → trim_end s = s.
Proof. apply trim_end_by_last. Qed.

Lemma last_app_ne {A} (l k : list A) : k ≠ [] → last (l ++ k) = last k.
Proof.
  intros Hk. induction k as [|x k _] using rev_ind; [done|].
  by rewrite (assoc_L app), !last_snoc.
Qed.

Lemma trimmed_end_app l k : k ≠ [] → trimmed_end k → trimmed_end (l ++ k).
Proof. intros Hk H c. rewrite last_app_ne by done. apply H. Qed.

(** *** Splitting and joining lines *)

Lemma split_char_cons c s : ∃ w ws, split_char c s = w :: ws.
Proof. destruct s as [|d s]; simpl; [eauto|]. case_match; [eauto|]. case_match; eauto. Qed.

Lemma split_char_app_sep c l s : c ∉ l → split_char c (l ++ c :: s) = l :: split_char c s.
Proof.
  induction l as [|d l IH]; intros Hc; simpl; [by rewrite N.eqb_refl|].
  apply not_elem_of_cons in Hc as [Hd Hc].
  destruct (N.eqb_spec d c) as [->|_]; [done|]. by rewrite IH.
Qed.

Lemma split_char_none c l : c ∉ l → split_char c l = [l].
Proof.
  induction l as [|d l IH]; intros Hc; simpl; [done|].
  apply not_elem_of_cons in Hc as [Hd Hc].
  destruct (N.eqb_spec d c) as [->|_]; [done|]. by rewrite IH.
Qed.

Lemma split_char_pieces c s : Forall (λ p, c ∉ p) (split_char c s).
Proof.
  induction s as [|x s IH]; simpl; [by repeat constructor; apply not_elem_of_nil|].
  destruct (x =? c)%N eqn:E; [constructor; [apply not_elem_of_nil|done]|].
  apply N.eqb_neq in E. destruct (split_char_cons c s) as (w & ws & Ew). rewrite Ew in *.
  apply Forall_cons in IH as [Hw Hws]. constructor; [|done].
  apply not_elem_of_cons. split; [congruence|done].
Qed.

Lemma join_cons sep l ls : ls ≠ [] → join sep (l :: ls) = l ++ sep ++ join sep ls.
Proof. by destruct ls. Qed.

Lemma split_join c ls :
  ls ≠ [] → Forall (λ l, c ∉ l) ls → split_char c (join [c] ls) = ls.
Proof.
  induction ls as [|l ls IH]; intros Hne H; [done|].
  apply Forall_cons in H as [Hl H]. destruct (decide (ls = [])) as [->|Hls].
  - by apply split_char_none.
  - rewrite join_cons by done. simpl. rewrite split_char_app_sep by done. by rewrite IH.
Qed.

Lemma join_split c s : join [c] (split_char c s) = s.
Proof.
  induction s as [|d s IH]; simpl; [done|].
  destruct (split_char_cons c s) as (w & ws & E). rewrite E in IH |- *.
  destruct (N.eqb_spec d c) as [->|_].
  - rewrite join_cons by done. by rewrite IH.
  - destruct ws as [|w' ws]; simpl in *; congruence.
Qed.

(** A line as [str::lines] yields it from a text with LF endings. *)
Definition plain_line (l : rstr) : Prop := ch_nl ∉ l ∧ last l ≠ Some ch_cr.

Lemma lines_join ls :
  ls ≠ [] → last ls ≠ Some [] → Forall plain_line ls → lines (join [ch_nl] ls) = ls.
Proof.
  intros Hne Hlast H. unfold lines. rewrite split_join; [|done|].
  2: { eapply Forall_impl; [done|]. by intros ? []. }
  clear Hne. induction ls as [|l ls IH]; [done|].
  apply Forall_cons in H as [[_ Hl] H]. destruct ls as [|l' ls].
  - simpl in *. by destruct l.
  - change (strip_cr l :: lines_of (l' :: ls) = l :: l' :: ls).
    rewrite strip_cr_id by done. f_equal. by apply IH.
Qed.

Lemma strip_prefix_head_ne p a t :
  head p = Some a → head t ≠ Some a → strip_prefix p t = None.
Proof.
  destruct p as [|b p]; [done|]. simpl. intros [= ->] H. destruct t as [|c t]; [done|].
  destruct (N.eqb_spec a c) as [->|]; [done|done].
Qed.

Lemma str_eqb_head_ne p a t : head p = Some a → head t ≠ Some a → str_eqb t p = false.
Proof. intros Hp Ht. apply bool_decide_eq_false_2. intros ->. done. Qed.

Lemma trim_start_by_app_nil p s t :
  trim_start_by p s = [] → trim_start_by p (s ++ t) = trim_start_by p t.
Proof. induction s as [|c s IH]; simpl; [done|]. case_match; [apply IH | done]. Qed.

Lemma trim_start_by_snoc p l c :
  p c = false → trim_start_by p (l ++ [c]) = trim_start_by p l ++ [c].
Proof.
  intros Hc. induction l as [|d l IH]; simpl; [by rewrite Hc|]. by destruct (p d).
Qed.

Lemma trim_end_by_cons p c l : p c = false → trim_end_by p (c :: l) = c :: trim_end_by p l.
Proof.
  intros Hc. unfold trim_end_by.
  by rewrite reverse_cons, trim_start_by_snoc, reverse_snoc.
Qed.

Lemma trim_end_by_prefix p l : trim_end_by p l `prefix_of` l.
Proof.
  unfold trim_end_by. destruct (trim_start_by_suffix p (reverse l)) as [k Hk].
  exists (reverse k). rewrite <- (reverse_involutive l) at 1. rewrite Hk at 1.
  by rewrite reverse_app.
Qed.

Lemma head_prefix_of {A} (l k : list A) : l `prefix_of` k → l = [] ∨ head l = head k.
Proof. intros [r ->]. destruct l; auto. Qed.

Lemma elem_of_insert_by_key {A} (key : A → rstr) x l y :
  y ∈ insert_by_key key x l ↔ y = x ∨ y ∈ l.
Proof. induction l as [|z l IH]; simpl; [set_solver|]. case_match; set_solver. Qed.

Lemma elem_of_sort_by_key {A} (key : A → rstr) l y : y ∈ sort_by_key key l ↔ y ∈ l.
Proof.
  unfold sort_by_key. induction l as [|x l IH] using rev_ind; [done|].
  rewrite foldl_snoc, elem_of_insert_by_key, IH. set_solver.
Qed.

Lemma elem_of_dedup {A} `{EqDecision A} (l : list A) y : y ∈ dedup l ↔ y ∈ l.
Proof.
  induction l as [|x l IH]; [done|]. simpl. destruct l as [|z l]; [set_solver|].
  case_decide; set_solver.
Qed.

Lemma join_snoc_ne sep ls e : e ≠ [] → join sep (ls ++ [e]) ≠ [].
Proof.
  intros He. induction ls as [|l ls IH]; [done|]. simpl.
  destruct (ls ++ [e]) eqn:E; [by destruct ls|]. rewrite <- E in *.
  intros [_ [_ ?]%app_nil]%app_nil. done.
Qed.
