(* ===== verification/Utf8.v ===== *)
(** [std::str::from_utf8]: decoding bytes as the Rust standard library
    documents and implements it ([core::str::validations]), with the facts about
    the encoding [utf8] that streamed decoding relies on. *)

From S2P Require Import Prelude.
#[local] Open Scope N_scope.

(** A Unicode scalar value: what [char] holds. *)
Definition scalar (c : rchar) : bool :=
  (c <? 55296) || ((57344 <=? c) && (c <? 1114112)).

Definition between (lo hi b : N) : bool := (lo <=? b) && (b <=? hi).
Definition continuation (b : N) : bool := between 128 191 b.
(** The second byte of three and of four, which excludes overlong forms,
    surrogates and values beyond the last scalar. *)
Definition second_of_3 (b0 b1 : N) : bool :=
  if b0 =? 224 then between 160 191 b1
  else if b0 =? 237 then between 128 159 b1
  else continuation b1.
Definition second_of_4 (b0 b1 : N) : bool :=
  if b0 =? 240 then between 144 191 b1
  else if b0 =? 244 then between 128 143 b1
  else continuation b1.

Definition char_of_2 (b0 b1 : N) : rchar := (b0 - 192) * 64 + (b1 - 128).
Definition char_of_3 (b0 b1 b2 : N) : rchar := (b0 - 224) * 4096 + (b1 - 128) * 64 + (b2 - 128).
Definition char_of_4 (b0 b1 b2 b3 : N) : rchar :=
  (b0 - 240) * 262144 + (b1 - 128) * 4096 + (b2 - 128) * 64 + (b3 - 128).

(** The text that was verified and what stopped the decoder: nothing, the end
    of the bytes inside a character ([Some None], [error_len] is [None]) or an
    invalid sequence of one to three bytes. *)
Definition utf8_cons (c : rchar) (r : rstr * option (option nat)) : rstr * option (option nat) :=
  (c :: r.1, r.2).
Definition utf8_stop (error_len : option nat) : rstr * option (option nat) := ([], Some error_len).

Fixpoint utf8_scan (bs : list N) : rstr * option (option nat) :=
  match bs with
  | [] => ([], None)
  | b0 :: bs1 =>
      if b0 <? 128 then utf8_cons b0 (utf8_scan bs1)
      else if between 194 223 b0 then
        match bs1 with
        | [] => utf8_stop None
        | b1 :: bs2 =>
            if continuation b1 then utf8_cons (char_of_2 b0 b1) (utf8_scan bs2)
            else utf8_stop (Some 1%nat)
        end
      else if between 224 239 b0 then
        match bs1 with
        | [] => utf8_stop None
        | b1 :: bs2 =>
            if second_of_3 b0 b1 then
              match bs2 with
              | [] => utf8_stop None
              | b2 :: bs3 =>
                  if continuation b2 then utf8_cons (char_of_3 b0 b1 b2) (utf8_scan bs3)
                  else utf8_stop (Some 2%nat)
              end
            else utf8_stop (Some 1%nat)
        end
      else if between 240 244 b0 then
        match bs1 with
        | [] => utf8_stop None
        | b1 :: bs2 =>
            if second_of_4 b0 b1 then
              match bs2 with
              | [] => utf8_stop None
              | b2 :: bs3 =>
                  if continuation b2 then
                    match bs3 with
                    | [] => utf8_stop None
                    | b3 :: bs4 =>
                        if continuation b3 then utf8_cons (char_of_4 b0 b1 b2 b3) (utf8_scan bs4)
                        else utf8_stop (Some 3%nat)
                    end
                  else utf8_stop (Some 2%nat)
              end
            else utf8_stop (Some 1%nat)
        end
      else utf8_stop (Some 1%nat)
  end.

(** [Utf8Error] *)
Record Utf8Error := mkUtf8Error { valid_up_to : nat; error_len : option nat }.
Definition from_utf8 (bs : list N) : result Utf8Error rstr :=
  match utf8_scan bs with
  | (t, None) => Ok t
  | (t, Some e) => Err (mkUtf8Error (byte_len t) e)
  end.

Example from_utf8_ok : from_utf8 [104; 195; 169; 240; 159; 152; 128] = Ok [104; 233; 128512].
Proof. reflexivity. Qed.
Example from_utf8_surrogate : from_utf8 [104; 237; 160; 128] = Err (mkUtf8Error 1 (Some 1%nat)).
Proof. reflexivity. Qed.
Example from_utf8_partial : from_utf8 [104; 240; 159; 152] = Err (mkUtf8Error 1 None).
Proof. reflexivity. Qed.

(** ** The encoding *)

Lemma utf8_nil : utf8 [] = [].
Proof. done. Qed.
Lemma utf8_cons_eq c t : utf8 (c :: t) = utf8_char c ++ utf8 t.
Proof. done. Qed.
Lemma utf8_app s t : utf8 (s ++ t) = utf8 s ++ utf8 t.
Proof. apply bind_app. Qed.

(** Turns the tests of a hypothesis into inequalities. *)
Ltac byte_cases :=
  unfold scalar, second_of_3, second_of_4, continuation, between in *;
  repeat match goal with
  | H : (_ && _)%bool = true |- _ => apply andb_true_iff in H; destruct H
  | H : (_ || _)%bool = true |- _ => apply orb_true_iff in H; destruct H
  | H : (_ <=? _) = true |- _ => apply N.leb_le in H
  | H : (_ <? _) = true |- _ => apply N.ltb_lt in H
  | H : (_ <? _) = false |- _ => apply N.ltb_ge in H
  | H : (_ =? _) = true |- _ => apply N.eqb_eq in H
  | H : (_ =? _) = false |- _ => apply N.eqb_neq in H
  | H : (if ?x then _ else _) = true |- _ => destruct x eqn:?; cbv iota in H
  end.
(** Evaluates the tests of the goal, which the context decides. *)
Ltac byte_tests :=
  unfold scalar, second_of_3, second_of_4, continuation, between;
  repeat match goal with
  | |- context [?a <? ?b] => destruct (N.ltb_spec a b); try (exfalso; lia); cbn [andb orb]
  | |- context [?a <=? ?b] => destruct (N.leb_spec a b); try (exfalso; lia); cbn [andb orb]
  | |- context [?a =? ?b] => destruct (N.eqb_spec a b); try (exfalso; lia); cbn [andb orb]
  end.

(** Base 64. *)
Lemma digit64 x y : y < 64 → (x * 64 + y) / 64 = x ∧ (x * 64 + y) mod 64 = y.
Proof.
  intros H. split; symmetry;
    [apply (N.div_unique _ _ _ y) | apply (N.mod_unique _ _ x)]; lia.
Qed.
Lemma div64 c : ∃ x y, y < 64 ∧ c = x * 64 + y ∧ c / 64 = x ∧ c mod 64 = y.
Proof.
  exists (c / 64), (c mod 64). split_and!; try done; [by apply N.mod_lt|].
  pose proof (N.div_mod c 64). lia.
Qed.
Lemma div4096 c : c / 4096 = c / 64 / 64.
Proof. by rewrite N.Div0.div_div. Qed.
Lemma div262144 c : c / 262144 = c / 64 / 64 / 64.
Proof. by rewrite !N.Div0.div_div. Qed.

(** The decoder's characters are scalar values and encode to what was read. *)
Lemma encode_1 b0 : b0 < 128 → scalar b0 = true ∧ utf8_char b0 = [b0].
Proof. intros H. unfold utf8_char. by byte_tests. Qed.

Lemma encode_2 b0 b1 :
  between 194 223 b0 = true → continuation b1 = true →
  scalar (char_of_2 b0 b1) = true ∧ utf8_char (char_of_2 b0 b1) = [b0; b1].
Proof.
  intros H0 H1. byte_cases. unfold char_of_2, utf8_char.
  destruct (digit64 (b0 - 192) (b1 - 128)) as [-> ->]; [lia|].
  byte_tests. split; [done|]. repeat f_equal; lia.
Qed.

Lemma encode_3 b0 b1 b2 :
  between 224 239 b0 = true → second_of_3 b0 b1 = true → continuation b2 = true →
  scalar (char_of_3 b0 b1 b2) = true ∧ utf8_char (char_of_3 b0 b1 b2) = [b0; b1; b2].
Proof.
  intros H0 H1 H2. unfold char_of_3, utf8_char. rewrite div4096.
  replace ((b0 - 224) * 4096 + (b1 - 128) * 64 + (b2 - 128))
    with (((b0 - 224) * 64 + (b1 - 128)) * 64 + (b2 - 128)) by lia.
  destruct (digit64 ((b0 - 224) * 64 + (b1 - 128)) (b2 - 128)) as [-> ->]; [byte_cases; lia|].
  destruct (digit64 (b0 - 224) (b1 - 128)) as [-> ->]; [byte_cases; lia|].
  byte_cases; (split; [byte_tests; done|]); byte_tests; repeat f_equal; lia.
Qed.

Lemma encode_4 b0 b1 b2 b3 :
  between 240 244 b0 = true → second_of_4 b0 b1 = true →
  continuation b2 = true → continuation b3 = true →
  scalar (char_of_4 b0 b1 b2 b3) = true ∧ utf8_char (char_of_4 b0 b1 b2 b3) = [b0; b1; b2; b3].
Proof.
  intros H0 H1 H2 H3. unfold char_of_4, utf8_char. rewrite div262144, div4096.
  replace ((b0 - 240) * 262144 + (b1 - 128) * 4096 + (b2 - 128) * 64 + (b3 - 128))
    with ((((b0 - 240) * 64 + (b1 - 128)) * 64 + (b2 - 128)) * 64 + (b3 - 128)) by lia.
  destruct (digit64 (((b0 - 240) * 64 + (b1 - 128)) * 64 + (b2 - 128)) (b3 - 128))
    as [-> ->]; [byte_cases; lia|].
  destruct (digit64 ((b0 - 240) * 64 + (b1 - 128)) (b2 - 128)) as [-> ->]; [byte_cases; lia|].
  destruct (digit64 (b0 - 240) (b1 - 128)) as [-> ->]; [byte_cases; lia|].
  byte_cases; (split; [byte_tests; done|]); byte_tests; repeat f_equal; lia.
Qed.

(** ** Characters and their bytes *)

(** The four forms of an encoded character. *)
Inductive encoded : rchar → list N → Prop :=
| encoded_1 b0 : b0 < 128 → encoded b0 [b0]
| encoded_2 b0 b1 :
    between 194 223 b0 = true → continuation b1 = true → encoded (char_of_2 b0 b1) [b0; b1]
| encoded_3 b0 b1 b2 :
    between 224 239 b0 = true → second_of_3 b0 b1 = true → continuation b2 = true →
    encoded (char_of_3 b0 b1 b2) [b0; b1; b2]
| encoded_4 b0 b1 b2 b3 :
    between 240 244 b0 = true → second_of_4 b0 b1 = true →
    continuation b2 = true → continuation b3 = true →
    encoded (char_of_4 b0 b1 b2 b3) [b0; b1; b2; b3].

Lemma encoded_sound c bs : encoded c bs → scalar c = true ∧ utf8_char c = bs.
Proof. destruct 1; [by apply encode_1 | by apply encode_2 | by apply encode_3 | by apply encode_4]. Qed.

Lemma encoded_complete c : scalar c = true → encoded c (utf8_char c).
Proof.
  intros Hc. unfold utf8_char. rewrite div262144, div4096.
  destruct (div64 c) as (x & y & Hy & Ec & -> & ->).
  destruct (div64 x) as (x' & y' & Hy' & Ex & -> & ->).
  destruct (div64 x') as (x'' & y'' & Hy'' & Ex' & -> & ->).
  destruct (N.ltb_spec c 128); [by constructor|].
  destruct (N.ltb_spec c 2048).
  { replace c with (char_of_2 (192 + x) (128 + y)) by (unfold char_of_2; lia).
    constructor; byte_tests; done. }
  destruct (N.ltb_spec c 65536).
  { replace c with (char_of_3 (224 + x') (128 + y') (128 + y)) by (unfold char_of_3; lia).
    byte_cases; constructor; byte_tests; done. }
  replace c with (char_of_4 (240 + x'') (128 + y'') (128 + y') (128 + y))
    by (unfold char_of_4; lia).
  byte_cases; [lia|]. constructor; byte_tests; done.
Qed.

Lemma encoded_first b0 :
  (b0 <? 128) = false → between 194 223 b0 = true →
  between 224 239 b0 = false ∧ between 240 244 b0 = false.
Proof. intros ??. byte_cases. by byte_tests. Qed.

Lemma scan_encoded c bs rest :
  encoded c bs → utf8_scan (bs ++ rest) = utf8_cons c (utf8_scan rest).
Proof.
  destruct 1 as [b0 H|b0 b1 H H1|b0 b1 b2 H H1 H2|b0 b1 b2 b3 H H1 H2 H3]; cbn [app utf8_scan].
  - by replace (b0 <? 128) with true by (symmetry; by apply N.ltb_lt).
  - rewrite H, H1. by replace (b0 <? 128) with false by (byte_cases; byte_tests; done).
  - rewrite H, H1, H2. replace (b0 <? 128) with false by (byte_cases; byte_tests; done).
    by replace (between 194 223 b0) with false by (byte_cases; byte_tests; done).
  - rewrite H, H1, H2, H3. replace (b0 <? 128) with false by (byte_cases; byte_tests; done).
    replace (between 194 223 b0) with false by (byte_cases; byte_tests; done).
    by replace (between 224 239 b0) with false by (byte_cases; byte_tests; done).
Qed.

(** A character cut short is incomplete, not invalid. *)
Lemma scan_cut c bs k :
  encoded c bs → (0 < k < length bs)%nat → utf8_scan (take k bs) = utf8_stop None.
Proof.
  destruct 1 as [b0 H|b0 b1 H H1|b0 b1 b2 H H1 H2|b0 b1 b2 b3 H H1 H2 H3]; intros Hk;
    simpl in Hk; destruct k as [|[|[|[|k]]]]; try lia; cbn [take utf8_scan];
    rewrite ?H, ?H1, ?H2;
    (replace (b0 <? 128) with false by (byte_cases; byte_tests; done)); try done;
    (replace (between 194 223 b0) with false by (byte_cases; byte_tests; done)); try done;
    by replace (between 224 239 b0) with false by (byte_cases; byte_tests; done).
Qed.

(** Bytes begin with a character or stop the decoder. *)
Lemma scan_step bs :
  bs ≠ [] →
  (∃ c cs rest, encoded c cs ∧ bs = cs ++ rest) ∨ ∃ e, utf8_scan bs = utf8_stop e.
Proof.
  destruct bs as [|b0 bs]; [done|]. intros _. cbn [utf8_scan].
  destruct (b0 <? 128) eqn:H0; [apply N.ltb_lt in H0; left; by exists b0, [b0], bs; split; [constructor|]|].
  repeat case_match; subst; try (by right; eexists); left;
  first [ eexists _, [_; _], _; split; [|reflexivity]; by apply encoded_2
        | eexists _, [_; _; _], _; split; [|reflexivity]; by apply encoded_3
        | eexists _, [_; _; _; _], _; split; [|reflexivity]; by apply encoded_4 ].
Qed.

(** ** Texts *)

Definition is_text (t : rstr) : Prop := Forall (λ c, scalar c = true) t.

(** ASCII bytes come from ASCII characters only. *)
Lemma encoded_ascii c bs b : encoded c bs → b < 128 → b ∈ bs ↔ c = b.
Proof.
  assert (∀ b1, continuation b1 = true → 128 ≤ b1) as Hcont.
  { unfold continuation, between. intros b1. rewrite andb_true_iff, N.leb_le. lia. }
  assert (∀ lo hi b1, between lo hi b1 = true → lo ≤ b1 ≤ hi) as Hbet.
  { unfold between. intros ???. rewrite andb_true_iff, !N.leb_le. lia. }
  assert (∀ b0 b1, second_of_3 b0 b1 = true → 128 ≤ b1 ∧ (b0 = 224 → 160 ≤ b1)) as H3.
  { unfold second_of_3. intros b0 b1. destruct (N.eqb_spec b0 224); [intros [??]%Hbet; lia|].
    destruct (_ =? _); [intros [??]%Hbet|intros ?%Hcont]; lia. }
  assert (∀ b0 b1, second_of_4 b0 b1 = true → 128 ≤ b1 ∧ (b0 = 240 → 144 ≤ b1)) as H4.
  { unfold second_of_4. intros b0 b1. destruct (N.eqb_spec b0 240); [intros [??]%Hbet; lia|].
    destruct (_ =? _); [intros [??]%Hbet|intros ?%Hcont]; lia. }
  destruct 1 as [|b0 b1 B0%Hbet B1%Hcont|b0 b1 b2 B0%Hbet B1%H3 B2%Hcont|b0 b1 b2 b3 B0%Hbet B1%H4 B2%Hcont B3%Hcont];
    intros Hb; rewrite !elem_of_cons, elem_of_nil; [lia| | |].
  - unfold char_of_2. lia.
  - unfold char_of_3. destruct B1, (decide (b0 = 224)); lia.
  - unfold char_of_4. destruct B1, (decide (b0 = 240)); lia.
Qed.
Lemma utf8_ascii t b : is_text t → b < 128 → b ∈ utf8 t ↔ b ∈ t.
Proof.
  intros Ht Hb. induction Ht as [|c t Hc Ht IH]; [done|].
  rewrite utf8_cons_eq, elem_of_app, elem_of_cons, IH.
  rewrite (encoded_ascii c _ b (encoded_complete c Hc) Hb). naive_solver.
Qed.

Lemma scan_utf8_app t rest :
  is_text t → utf8_scan (utf8 t ++ rest) = (t ++ (utf8_scan rest).1, (utf8_scan rest).2).
Proof.
  induction 1 as [|c t Hc Ht IH]; [simpl; by destruct (utf8_scan rest)|].
  rewrite utf8_cons_eq, <- (assoc_L app), (scan_encoded c) by (by apply encoded_complete).
  by rewrite IH.
Qed.

Lemma from_utf8_utf8 t : is_text t → from_utf8 (utf8 t) = Ok t.
Proof.
  intros Ht. pose proof (scan_utf8_app t [] Ht) as H. rewrite !app_nil_r in H.
  unfold from_utf8. by rewrite H.
Qed.

(** What the decoder accepts is the encoding of the text it returns; what is
    left stops it at once, for the same reason. *)
Lemma scan_sound bs :
  let '(t, e) := utf8_scan bs in
  is_text t ∧ ∃ rest, bs = utf8 t ++ rest ∧ utf8_scan rest = ([], e) ∧ (e = None → rest = []).
Proof.
  remember (length bs) as n eqn:Hn. revert bs Hn.
  induction (lt_wf n) as [n _ IH]. intros bs ->.
  destruct (decide (bs = [])) as [->|Hne]; [split; [constructor | by exists []]|].
  destruct (scan_step bs Hne) as [(c & cs & rest & He & ->)|[e He]].
  - rewrite (scan_encoded _ _ _ He). specialize (IH (length rest)).
    apply encoded_sound in He as Hs. destruct Hs as [Hc Hb].
    destruct (utf8_scan rest) as [t e] eqn:Hr. unfold utf8_cons. cbn [fst snd].
    pose proof (IH ltac:(rewrite length_app; destruct He; simpl; lia) rest eq_refl) as IH'.
    rewrite Hr in IH'. destruct IH' as (Ht & r & -> & Hscan & Hnone).
    split; [by constructor|]. exists r. rewrite utf8_cons_eq, Hb. by rewrite <- (assoc_L app).
  - rewrite He. simpl. split; [constructor|]. exists bs. by rewrite He.
Qed.

(** A prefix of an encoded text is the encoding of a prefix, then a cut
    character. *)
Lemma scan_prefix t p q :
  is_text t → p ++ q = utf8 t →
  ∃ t1 t2 r, t = t1 ++ t2 ∧ p = utf8 t1 ++ r ∧ r ++ q = utf8 t2 ∧
    utf8_scan p = (t1, if is_empty r then None else Some None).
Proof.
  intros Ht. revert p. induction Ht as [|c t Hc Ht IH]; intros p Hp.
  { apply app_eq_nil in Hp as [-> ->]. by exists [], [], []. }
  apply encoded_complete in Hc as He. rewrite utf8_cons_eq in Hp.
  destruct (decide (length (utf8_char c) ≤ length p)%nat) as [Hl|Hl].
  - assert (Hd : p = utf8_char c ++ drop (length (utf8_char c)) p).
    { rewrite <- (take_drop (length (utf8_char c)) p) at 1. f_equal.
      apply (f_equal (take (length (utf8_char c)))) in Hp.
      by rewrite take_app_le, take_app_length in Hp. }
    set (p' := drop _ p) in Hd. rewrite Hd, <- (assoc_L app) in Hp. simplify_list_eq.
    apply IH in Hp as (t1 & t2 & r & -> & Hp' & Hr & Hs). exists (c :: t1), t2, r.
    split_and!; [done | by rewrite Hd, Hp', utf8_cons_eq, <- (assoc_L app) | done |].
    by rewrite Hd, (scan_encoded c), Hs.
  - exists [], (c :: t), p. rewrite utf8_cons_eq. split_and!; [done..|].
    destruct p as [|b p]; [done|]. cbn [is_empty].
    assert (Hcut : b :: p = take (length (b :: p)) (utf8_char c)).
    { apply (f_equal (take (length (b :: p)))) in Hp.
      by rewrite take_app_length, take_app_le in Hp by lia. }
    rewrite Hcut. apply (scan_cut c); [done|]. simpl in *. lia.
Qed.
Lemma from_utf8_sound bs t : from_utf8 bs = Ok t → bs = utf8 t.
Proof.
  unfold from_utf8. pose proof (scan_sound bs) as Hs. destruct (utf8_scan bs) as [t' [e|]]; [done|].
  intros [= ->]. destruct Hs as (_ & rest & -> & _ & Hr). by rewrite Hr, app_nil_r.
Qed.
