(* ===== verification/AbsolutePath.v ===== *)
(** Absolute paths on Unix: [AbsolutePathBuf] of [utils/absolute-path].

    Components, [PathBuf::push] and [PathBuf::pop] are those of the standard
    library; the home and the current directory are the environment's. *)

From S2P Require Import Prelude.
#[local] Opaque str.

(** ** Paths of the standard library *)

Definition ch_slash : rchar := 47%N.
Definition path_is_absolute (p : rstr) : bool := starts_with p [ch_slash].

Inductive Component := RootDir | CurDir | ParentDir | Normal (name : rstr).
#[global] Instance component_eq_dec : EqDecision Component.
Proof. solve_decision. Defined.

Definition component (piece : rstr) : Component :=
  if str_eqb piece (str ".") then CurDir
  else if str_eqb piece (str "..") then ParentDir
  else Normal piece.
(** Empty pieces are skipped, and [.] except at the start of a relative path. *)
Definition component_list (pieces : list rstr) : list Component :=
  component <$> filter (λ p, is_empty p = false) pieces.
Definition components (p : rstr) : list Component :=
  let pieces := split_char ch_slash p in
  if path_is_absolute p then RootDir :: filter (λ c, c ≠ CurDir) (component_list pieces)
  else match pieces with
       | first :: rest =>
           component_list [first] ++ filter (λ c, c ≠ CurDir) (component_list rest)
       | [] => []
       end.

(** A [PathBuf] built from a root and names *)
Record PathBuf := mkPath { rooted : bool; names : list rstr }.
Definition path_push (p : PathBuf) (c : Component) : PathBuf :=
  match c with
  | RootDir => mkPath true []
  | CurDir => mkPath (rooted p) (names p ++ [str "."])
  | ParentDir => mkPath (rooted p) (names p ++ [str ".."])
  | Normal name => mkPath (rooted p) (names p ++ [name])
  end.
Definition path_pop (p : PathBuf) : PathBuf := mkPath (rooted p) (take (length (names p) - 1) (names p)).
Definition path_text (p : PathBuf) : rstr :=
  (if rooted p then [ch_slash] else []) ++ join [ch_slash] (names p).

(** [Path::join] *)
Definition path_join (base path : rstr) : rstr :=
  if path_is_absolute path then path
  else if is_empty base || ends_with base [ch_slash] then base ++ path
  else base ++ [ch_slash] ++ path.

(** ** [absolutize.rs] *)

Definition normalize_step (normalized : PathBuf) (c : Component) : PathBuf :=
  match c with
  | CurDir => normalized
  | ParentDir => path_pop normalized
  | RootDir | Normal _ => path_push normalized c
  end.
Definition normalize_path (p : rstr) : rstr :=
  let normalized := path_text (foldl normalize_step (mkPath false []) (components p)) in
  if is_empty normalized then str "." else normalized.

Definition path_with_base (path base : rstr) : rstr :=
  if path_is_absolute path then path else path_join base path.
Definition absolutize_from (path base : rstr) : rstr := normalize_path (path_with_base path base).

Class PathEnv := {
  home_directory : option rstr;
  current_dir : option rstr;
}.

Section absolute.
Context `{PathEnv}.

Definition absolutize (path : rstr) : option rstr :=
  if path_is_absolute path then Some (normalize_path path)
  else absolutize_from path <$> current_dir.

(** ** [lib.rs] *)

Definition maybe_expand_home_directory (path : rstr) : rstr :=
  match strip_prefix (str "~") path, home_directory with
  | Some rest, Some home =>
      if is_empty rest then home
      else match strip_prefix [ch_slash] rest with
           | Some rest => path_join home (trim_start_by (λ c, (c =? ch_slash)%N) rest)
           | None => path
           end
  | _, _ => path
  end.
Definition from_absolute_path (path : rstr) : option rstr := absolutize (maybe_expand_home_directory path).
Definition from_absolute_path_checked (path : rstr) : option rstr :=
  let expanded := maybe_expand_home_directory path in
  if path_is_absolute expanded then Some (absolutize_from expanded [ch_slash]) else None.
Definition resolve_path_against_base (path base : rstr) : rstr :=
  absolutize_from (maybe_expand_home_directory path) base.
End absolute.

Example normalize_dots : normalize_path (str "/path/to/./123/../456") = str "/path/to/456".
Proof. vm_compute. reflexivity. Qed.
Example normalize_above_root : normalize_path (str "/../..//a/") = str "/a".
Proof. vm_compute. reflexivity. Qed.

(** ** Properties *)

(** A name that a normalized path can have *)
Definition clean_name (n : rstr) : Prop := n ≠ [] ∧ ch_slash ∉ n ∧ n ≠ str "." ∧ n ≠ str "..".
Definition clean (p : PathBuf) : Prop := rooted p = true ∧ Forall clean_name (names p).

(** The components of an absolute path: the root, then names and [..] *)
Definition body (c : Component) : Prop :=
  match c with Normal n => clean_name n | ParentDir => True | _ => False end.

Lemma component_list_body pieces :
  Forall (λ p, ch_slash ∉ p) pieces → Forall body (filter (λ c, c ≠ CurDir) (component_list pieces)).
Proof.
  intros Hp. apply Forall_forall. intros c [Hc [p [-> [He Hin]%list_elem_of_filter]]%list_elem_of_fmap]%list_elem_of_filter.
  rewrite Forall_forall in Hp. specialize (Hp _ Hin).
  unfold component, str_eqb in *. repeat case_bool_decide; simpl; try done.
  split; [by intros ->|done].
Qed.
Lemma components_absolute p :
  path_is_absolute p = true → ∃ cs, components p = RootDir :: cs ∧ Forall body cs.
Proof.
  intros Ha. unfold components. rewrite Ha. eexists. split; [done|].
  apply component_list_body, split_char_pieces.
Qed.

Lemma normalize_steps_clean cs p : Forall body cs → clean p → clean (foldl normalize_step p cs).
Proof.
  intros Hcs. revert p. induction Hcs as [|c cs Hc _ IH]; intros p Hp; simpl; [done|]. apply IH.
  destruct Hp as [Hr Hn]. destruct c; simpl in *; try done.
  - split; [done|]. simpl. by apply Forall_take.
  - split; [done|]. simpl. apply Forall_app. by rewrite Forall_singleton.
Qed.

(** A normalized absolute path is the text of a clean path. *)
Lemma normalize_path_clean p :
  path_is_absolute p = true → ∃ q, clean q ∧ normalize_path p = path_text q.
Proof.
  intros (cs & E & Hcs)%components_absolute. unfold normalize_path. rewrite E.
  set (q := foldl _ _ _).
  assert (clean q) as Hq. { apply (normalize_steps_clean cs (mkPath true [])); [done|]. by split. }
  exists q. split; [done|]. destruct Hq as [Hr _]. unfold path_text. by rewrite Hr.
Qed.

Lemma clean_name_component n : clean_name n → component n = Normal n.
Proof.
  intros (_ & _ & H1 & H2). unfold component, str_eqb. by rewrite !bool_decide_eq_false_2.
Qed.
Lemma clean_components q : clean q → components (path_text q) = RootDir :: (Normal <$> names q).
Proof.
  destruct q as [r ns]. intros [Hr Hn]. simpl in *. subst r.
  unfold components, path_text. cbn [rooted names app].
  assert (path_is_absolute (ch_slash :: join [ch_slash] ns) = true) as ->.
  { apply starts_with_true. by eexists. }
  f_equal. simpl. unfold component_list.
  destruct (decide (ns = [])) as [->|Hne]; [done|].
  rewrite split_join; [|done|eapply Forall_impl; [done|by intros ? (_ & ? & _)]].
  clear Hne. cbn [filter]. induction Hn as [|n ns Hn _ IH]; [done|].
  assert (is_empty n = false) as He by (destruct Hn, n; done).
  rewrite filter_cons_False in * by done. rewrite filter_cons_True by done.
  rewrite fmap_cons, filter_cons_True; [|by rewrite clean_name_component].
  rewrite clean_name_component by done. simpl. f_equal. done.
Qed.

Lemma normalize_names ns p :
  foldl normalize_step p (Normal <$> ns) = mkPath (rooted p) (names p ++ ns).
Proof.
  revert p. induction ns as [|n ns IH]; intros [r ms]; simpl; [by rewrite app_nil_r|].
  rewrite IH. simpl. by rewrite <-(assoc_L app).
Qed.
Lemma normalize_clean q : clean q → normalize_path (path_text q) = path_text q.
Proof.
  intros Hq. unfold normalize_path. rewrite clean_components by done. cbn [foldl normalize_step path_push].
  rewrite normalize_names. simpl. destruct Hq as [Hr _].
  unfold path_text. cbn [rooted names]. by rewrite Hr.
Qed.

(** A resolved path is absolute, has no empty, [.] or [..] component, and
    resolving it again changes nothing. *)
Theorem resolved_path_is_normal `{PathEnv} path resolved :
  (∀ cwd, current_dir = Some cwd → path_is_absolute cwd = true) →
  from_absolute_path path = Some resolved →
  path_is_absolute resolved = true
  ∧ (∃ ns, Forall clean_name ns ∧ components resolved = RootDir :: (Normal <$> ns))
  ∧ from_absolute_path resolved = Some resolved.
Proof.
  unfold from_absolute_path at 1. intros Hcwd Hres.
  assert (∃ q, clean q ∧ resolved = path_text q) as (q & Hq & ->).
  { unfold absolutize, absolutize_from, path_with_base, path_join in Hres.
    destruct (path_is_absolute (maybe_expand_home_directory path)) eqn:Ea.
    - injection Hres as <-. by apply normalize_path_clean.
    - apply fmap_Some in Hres as (cwd & Hc & ->). specialize (Hcwd _ Hc).
      apply normalize_path_clean. apply starts_with_true in Hcwd as [t ->].
      apply starts_with_true. case_match; [|rewrite <-(assoc_L app)]; by eexists. }
  assert (path_is_absolute (path_text q) = true) as Ha.
  { apply starts_with_true. destruct Hq as [Hr _]. unfold path_text. rewrite Hr. by eexists. }
  split; [done|]. split; [exists (names q); split; [apply Hq|by apply clean_components]|].
  unfold from_absolute_path, maybe_expand_home_directory.
  assert (strip_prefix (str "~") (path_text q) = None) as ->.
  { destruct Hq as [Hr _]. unfold path_text. by rewrite Hr. }
  unfold absolutize. rewrite Ha. f_equal. by apply normalize_clean.
Qed.
Definition example_env : PathEnv := {| home_directory := Some (str "/home/u"); current_dir := Some (str "/w") |}.
Lemma resolved_path_is_normal_witness :
  path_is_absolute (str "/home/u/b") = true
  ∧ @from_absolute_path example_env (str "/home/u/b") = Some (str "/home/u/b").
Proof.
  destruct (@resolved_path_is_normal example_env (str "~//a/.././b/") (str "/home/u/b")) as (?&_&?);
    [|vm_compute; reflexivity|done].
  intros cwd [= <-]. vm_compute. reflexivity.
Defined.
