(* ===== verification/PathUris.v ===== *)
(** Paths as [file:] URIs: [utils/path-uri/src/lib.rs] with the segment
    normalization of [absolute_path_normalization.rs] and the rendering of
    [api_path_string.rs].

    A [PathUri] is a validated [Url]. URLs are those of the crate [url], percent
    decoding and base64 those of [urlencoding] and [base64]: an interface. Native
    paths are Unicode texts. *)

From S2P Require Import Prelude Utf8 AbsolutePath.
#[local] Opaque str.

(** ** Path conventions *)

Inductive PathConvention := Posix | Windows.
#[global] Instance PathConvention_eq_dec : EqDecision PathConvention.
Proof. solve_decision. Defined.

Definition is_path_separator (convention : PathConvention) (c : rchar) : bool :=
  match convention with
  | Posix => (c =? 47)%N
  | Windows => (c =? 47)%N || (c =? 92)%N
  end.
Definition path_segments (convention : PathConvention) (path : rstr) : list rstr :=
  split_by (is_path_separator convention) path.
Definition home_relative_suffix (convention : PathConvention) (path : rstr) : option rstr :=
  suffix ← strip_prefix (str "~") path;
  if is_empty suffix || starts_with suffix [47%N]
     || bool_decide (convention = Windows) && starts_with suffix [92%N]
  then Some suffix else None.

(** ** URLs *)

Class FileUrls := {
  Url : Type;
  url_eq_dec :: EqDecision Url;
  url_parse : rstr → option Url;
  url_as_str : Url → rstr;
  url_scheme : Url → rstr;
  url_username : Url → rstr;
  url_password : Url → option rstr;
  url_port : Url → option N;
  url_query : Url → option rstr;
  url_fragment : Url → option rstr;
  host_str : Url → option rstr;
  url_path : Url → rstr;
  set_host : rstr → Url → option Url;
  (** [set_host(None)], which cannot fail for a [file:] URL *)
  clear_host : Url → Url;
  set_path : rstr → Url → Url;
  (** [path_segments_mut] *)
  pop_if_empty : Url → Url;
  pop_segment : Url → Url;
  push_segment : rstr → Url → Url;
  clear_segments : Url → Url;
  from_file_path : rstr → option Url;
  to_file_path : Url → option rstr;
  (** [Url::parse] of the spelling of a fallback URI, which cannot fail *)
  fallback_url : rstr → Url;
  (** [urlencoding::decode_binary] and [String::from_utf8_lossy] *)
  decode_binary : rstr → list N;
  utf8_lossy : list N → rstr;
  utf16_lossy : list N → rstr;
  base64_encode : list N → rstr;
  base64_decode : rstr → option (list N);
}.

Inductive PathUriParseError :=
| InvalidUri
| UnsupportedScheme (scheme : rstr)
| InvalidFileUriPath (path : rstr)
| CredentialsNotAllowed
| PortNotAllowed
| QueryNotAllowed
| FragmentNotAllowed
| JoinPathMustBeDescendant (path : rstr).

Definition FILE_SCHEME : rstr := str "file".
Definition BAD_PATH_URI_PREFIX : rstr := str "file:///%00/bad/path/".

Definition is_windows_drive_uri_segment (segment : rstr) : bool :=
  match segment with
  | [drive; c] => (c =? 58)%N && is_ascii_alphabetic drive
  | [drive; c; d; e] => (c =? 37)%N && (d =? 51)%N && ((e =? 65) || (e =? 97))%N && is_ascii_alphabetic drive
  | _ => false
  end.
(** The first two UTF-16LE units tell a drive or a UNC path. *)
Definition infer_opaque_path_convention (path_bytes : list N) : option PathConvention :=
  if starts_with path_bytes [47%N] then Some Posix
  else if negb (Nat.even (length path_bytes)) then None
  else match path_bytes with
       | a :: b :: c :: d :: _ =>
           let has_drive := (b =? 0)%N && is_ascii_alphabetic a && (c =? 58)%N && (d =? 0)%N in
           let has_unc_prefix := (a =? 92)%N && (b =? 0)%N && (c =? 92)%N && (d =? 0)%N in
           if has_drive || has_unc_prefix then Some Windows else None
       | _ => None
       end.

Section uris.
Context `{FileUrls}.
Implicit Types (u base : Url).

(** [Url::path_segments] *)
Definition url_segments u : option (list rstr) := split_char 47%N <$> strip_prefix [47%N] (url_path u).
Definition non_empty (segments : list rstr) : list rstr := filter (λ s, is_empty s = false) segments.

(** The original bytes of a fallback URI *)
Definition decode_bad_path_uri u : option (list N) :=
  encoded_path ← strip_prefix BAD_PATH_URI_PREFIX (url_as_str u);
  if is_empty encoded_path || contains_char 47%N encoded_path then None
  else path_bytes ← base64_decode encoded_path;
       if str_eqb (base64_encode path_bytes) encoded_path then Some path_bytes else None.
Definition is_opaque u : bool := match decode_bad_path_uri u with Some _ => true | None => false end.

Definition uri_convention u : option PathConvention :=
  match decode_bad_path_uri u with
  | Some path_bytes => infer_opaque_path_convention path_bytes
  | None =>
      match host_str u with
      | Some _ => Some Windows
      | None =>
          match url_segments u ≫= (λ segments, head (non_empty segments)) with
          | Some segment => if is_windows_drive_uri_segment segment then Some Windows else Some Posix
          | None => Some Posix
          end
      end
  end.

(** ** Construction *)

Definition validate_common_known_uri u : result PathUriParseError unit :=
  if negb (is_empty (url_username u)) || match url_password u with Some _ => true | None => false end
  then Err CredentialsNotAllowed
  else if match url_port u with Some _ => true | None => false end then Err PortNotAllowed
  else if match url_query u with Some _ => true | None => false end then Err QueryNotAllowed
  else if match url_fragment u with Some _ => true | None => false end then Err FragmentNotAllowed
  else Ok ().
Definition validate_file_url u : result PathUriParseError unit :=
  _ ← validate_common_known_uri u;
  if bool_decide (0%N ∈ decode_binary (url_path u)) && negb (is_opaque u)
  then Err (InvalidFileUriPath (url_as_str u)) else Ok ().

Definition without_localhost_authority u : Url :=
  if bool_decide (host_str u = Some (str "localhost")) then clear_host u else u.
Definition with_normalized_windows_drive_letter u : Url :=
  match host_str u with
  | Some _ => u
  | None =>
      let path := url_path u in
      let rest := trim_start_by (λ c, (c =? 47)%N) path in
      let slashes := take (length path - length rest) path in
      if is_empty rest then u
      else match head (split_char 47%N rest), rest with
           | Some drive, letter :: rest' =>
               if negb (is_windows_drive_uri_segment drive) || ((65 <=? letter) && (letter <=? 90))%N then u
               else set_path (slashes ++ [(letter - 32)%N] ++ rest') u
           | _, _ => u
           end
  end.
Definition uri_try_from u : result PathUriParseError Url :=
  if negb (str_eqb (url_scheme u) FILE_SCHEME) then Err (UnsupportedScheme (url_scheme u))
  else _ ← validate_file_url u;
       Ok (with_normalized_windows_drive_letter (without_localhost_authority u)).
Definition uri_parse (uri : rstr) : result PathUriParseError Url :=
  u ← ok_or (url_parse uri) InvalidUri; uri_try_from u.

Definition from_opaque_path_bytes (path_bytes : list N) : Url :=
  fallback_url (BAD_PATH_URI_PREFIX ++ base64_encode path_bytes).

(** ** Identity and containment *)

Definition decode_uri_path (path : rstr) : rstr :=
  match from_utf8 (decode_binary path) with Ok s => s | Err _ => path end.

(** Whether the decoded segment has a native separator *)
Definition has_separator (convention : PathConvention) (segment : rstr) : bool :=
  existsb (is_path_separator convention) (decode_binary segment).
Definition windows_identity_path_bytes u : option (list N) :=
  if negb (bool_decide (uri_convention u = Some Windows)) || is_opaque u then None
  else segments ← url_segments u;
       if existsb (has_separator Windows) segments then None else Some (decode_binary (url_path u)).
(** [PartialEq] *)
Definition uri_eqb u (v : Url) : bool :=
  if bool_decide (u = v) then true
  else match windows_identity_path_bytes u, windows_identity_path_bytes v with
       | Some path, Some other_path =>
           bool_decide (host_str u = host_str v) && eq_ignore_ascii_case path other_path
       | _, _ => false
       end.

Definition containment_path_segments u (convention : PathConvention) : option (list rstr) :=
  segments ← url_segments u;
  let segments := non_empty segments in
  if existsb (has_separator convention) segments then None else Some segments.
Definition same_segment (convention : PathConvention) (path base : rstr) : bool :=
  match convention with
  | Posix => str_eqb (decode_binary path) (decode_binary base)
  | Windows => eq_ignore_ascii_case path base
               || eq_ignore_ascii_case (decode_uri_path path) (decode_uri_path base)
  end.
Definition native_path_segments_start_with (path_segments base_segments : list rstr) (convention : PathConvention)
    : bool :=
  (length base_segments <=? length path_segments)
  && forallb (λ '(path, base), same_segment convention path base) (zip path_segments base_segments).

Definition uri_lexical_depth u : option nat :=
  if is_opaque u then None
  else convention ← uri_convention u; length <$> containment_path_segments u convention.

Definition uri_starts_with u base : bool :=
  if uri_eqb u base then true
  else if is_opaque u || is_opaque base then false
  else if negb (bool_decide (host_str u = host_str base)) then false
  else if negb (bool_decide (uri_convention u = uri_convention base)) then false
  else
    let convention := default Posix (uri_convention u) in
    match containment_path_segments u convention, containment_path_segments base convention with
    | Some path_segments, Some base_segments =>
        native_path_segments_start_with path_segments base_segments convention
    | _, _ => false
    end.

Definition uri_overlaps u (v : Url) : option bool :=
  if uri_eqb u v then Some true
  else _ ← uri_lexical_depth u; _ ← uri_lexical_depth v;
       Some (uri_starts_with u v || uri_starts_with v u).

Definition relative_path_from u base : option rstr :=
  if uri_eqb u base then Some []
  else if is_opaque u || is_opaque base || negb (bool_decide (host_str u = host_str base))
          || negb (bool_decide (uri_convention u = uri_convention base))
  then None
  else
    convention ← uri_convention u;
    path_segments ← containment_path_segments u convention;
    base_segments ← containment_path_segments base convention;
    if negb (native_path_segments_start_with path_segments base_segments convention) then None
    else Some (join [match convention with Posix => 47%N | Windows => 92%N end]
                 (decode_uri_path <$> drop (length base_segments) path_segments)).

(** ** Parents *)

Definition anchor_depth (convention : PathConvention) : nat := match convention with Posix => 0 | Windows => 1 end.
Definition uri_basename u : option rstr :=
  if is_opaque u then None
  else segments ← url_segments u; decode_uri_path <$> last (non_empty segments).
Definition uri_parent_of u : option Url :=
  if is_opaque u then None
  else
    convention ← uri_convention u;
    segments ← url_segments u;
    if length (non_empty segments) <=? anchor_depth convention then None
    else Some (pop_segment (pop_if_empty u)).
(** [successors(Some(self), parent)]; every parent has fewer segments. *)
Fixpoint successors (fuel : nat) u : list Url :=
  match fuel with
  | 0 => [u]
  | S fuel => u :: match uri_parent_of u with Some v => successors fuel v | None => [] end
  end.
Definition uri_ancestors u : list Url := successors (length (default [] (url_segments u))) u.

(** ** Native paths *)

(** The loop of [path_uri_from_segments]: the depth is the number of segments. *)
Definition normalize_segment (convention : PathConvention) (st : list rstr * bool) (segment : rstr)
    : list rstr * bool :=
  let '(normalized, _) := st in
  if is_empty segment then (normalized, true)
  else if str_eqb segment (str ".") then (normalized, false)
  else if str_eqb segment (str "..")
  then (if anchor_depth convention <? length normalized then take (length normalized - 1) normalized else normalized,
        false)
  else (normalized ++ [segment], false).
Definition path_uri_from_segments (convention : PathConvention) (host : option rstr) (segments : list rstr)
    : option Url :=
  url ← url_parse (str "file:///");
  url ← match host with Some host => set_host host url | None => Some url end;
  let '(normalized, has_trailing_separator) := foldl (normalize_segment convention) ([], false) segments in
  let normalized :=
    if has_trailing_separator
       || (bool_decide (convention = Windows) && bool_decide (host = None)
           && (length normalized =? anchor_depth convention))
    then normalized ++ [[]] else normalized in
  result_ok (uri_try_from (foldl (λ u s, push_segment s u) (clear_segments url) normalized)).

Definition parse_posix_path (path : rstr) : option Url :=
  rest ← strip_prefix [47%N] path;
  if contains_char 0%N rest then Some (from_opaque_path_bytes (utf8 (47%N :: rest)))
  else path_uri_from_segments Posix None (split_char 47%N rest).

(** [str::encode_utf16] as little-endian bytes *)
Definition utf16_units (c : rchar) : list N :=
  if (c <? 65536)%N then [c]
  else [55296 + (c - 65536) / 1024; 56320 + (c - 65536) mod 1024]%N.
Definition utf16_le (s : rstr) : list N := s ≫= λ c, utf16_units c ≫= λ unit, [unit mod 256; unit / 256]%N.
Definition windows_opaque_path_uri (path : rstr) : Url := from_opaque_path_bytes (utf16_le path).

Definition is_windows_separator (c : rchar) : bool := is_path_separator Windows c.
Definition is_windows_drive_absolute_path (path : rstr) : bool :=
  match path with
  | drive :: colon :: sep :: _ => is_ascii_alphabetic drive && (colon =? 58)%N && is_windows_separator sep
  | _ => false
  end.
Definition normalize_windows_device_path (path : rstr) : option rstr :=
  match strip_prefix (str "\\?\UNC\") path with
  | Some unc => Some (str "\\" ++ unc)
  | None =>
      match strip_prefix (str "\\.\UNC\") path with
      | Some unc => Some (str "\\" ++ unc)
      | None =>
          let drive prefix := rest ← strip_prefix prefix path;
                              if is_windows_drive_absolute_path rest then Some rest else None in
          match drive (str "\\?\") with
          | Some rest => Some rest
          | None => drive (str "\\.\")
          end
      end
  end.

Definition is_dot_segment (s : rstr) : bool := str_eqb s (str ".") || str_eqb s (str "..").
Definition uses_namespace (path : rstr) : bool :=
  match path with
  | a :: b :: c :: d :: _ =>
      is_windows_separator a && is_windows_separator b && ((c =? 46) || (c =? 63))%N && is_windows_separator d
  | _ => false
  end.
Definition parse_unc_path (path rest : rstr) : option Url :=
  match path_segments Windows rest with
  | host :: share :: components =>
      if is_empty host || is_empty share then None
      else if is_dot_segment host || is_dot_segment share then Some (windows_opaque_path_uri path)
      else match path_uri_from_segments Windows (Some host) (share :: components) with
           | Some uri =>
               match host_str uri with
               | Some parsed => if eq_ignore_ascii_case parsed host then Some uri
                                else Some (windows_opaque_path_uri path)
               | None => Some (windows_opaque_path_uri path)
               end
           | None => Some (windows_opaque_path_uri path)
           end
  | _ => None
  end.
Definition parse_unnormalized_windows_path (path : rstr) : option Url :=
  if uses_namespace path || contains_char 0%N path then Some (windows_opaque_path_uri path)
  else if is_windows_drive_absolute_path path
  then path_uri_from_segments Windows None (take 2 path :: path_segments Windows (drop 3 path))
  else match path with
       | a :: b :: rest => if is_windows_separator a && is_windows_separator b then parse_unc_path path rest else None
       | _ => None
       end.
(** A UNC path whose host or share is missing or a dot segment *)
Definition bad_unc_root (normalized_path : rstr) : bool :=
  match strip_prefix (str "\\") normalized_path with
  | Some unc_path =>
      let bad s := match s with None => true | Some s => is_empty s || is_dot_segment s end in
      let components := path_segments Windows unc_path in
      bad (components !! 0) || bad (components !! 1)
  | None => false
  end.
Definition parse_windows_path (path : rstr) : option Url :=
  match normalize_windows_device_path path with
  | Some normalized_path =>
      if bad_unc_root normalized_path then Some (windows_opaque_path_uri path)
      else Some
        match parse_unnormalized_windows_path normalized_path with
        | Some uri =>
            if bool_decide (uri_convention uri = Some Windows) && negb (is_opaque uri)
               && (negb (starts_with normalized_path (str "\\"))
                   || match host_str uri with Some host => negb (is_empty host) | None => false end)
            then uri else windows_opaque_path_uri path
        | None => windows_opaque_path_uri path
        end
  | None => parse_unnormalized_windows_path path
  end.

Definition from_absolute_native_path (path : rstr) (convention : PathConvention) : option Url :=
  uri ← match convention with Posix => parse_posix_path path | Windows => parse_windows_path path end;
  if negb (bool_decide (host_str uri = Some [])) && bool_decide (uri_convention uri = Some convention)
  then Some uri
  else Some match convention with
            | Posix => from_opaque_path_bytes (utf8 path)
            | Windows => windows_opaque_path_uri path
            end.

(** The drive of a relative path must be that of the base. *)
Definition drive_relative u (convention : PathConvention) (path : rstr) : result PathUriParseError rstr :=
  match path with
  | drive :: colon :: rest =>
      if bool_decide (convention = Windows) && is_ascii_alphabetic drive && (colon =? 58)%N then
        let same_drive :=
          match url_segments u ≫= (λ segments, head (non_empty segments)) with
          | Some (letter :: segment) =>
              is_windows_drive_uri_segment (letter :: segment) && eq_ignore_ascii_case [letter] [drive]
          | _ => false
          end in
        if same_drive then Ok rest else Err (InvalidFileUriPath path)
      else Ok path
  | _ => Ok path
  end.
Definition root_relative (convention : PathConvention) (path : rstr) : bool :=
  bool_decide (convention = Windows)
  && match path with
     | a :: b :: _ => is_windows_separator a && negb (is_windows_separator b)
     | [a] => is_windows_separator a
     | [] => false
     end.
(** [while depth > anchor_depth] *)
Fixpoint pop_to_anchor (anchor depth : nat) u : Url * nat :=
  if anchor <? depth
  then match depth with 0 => (u, depth) | S depth => pop_to_anchor anchor depth (pop_segment u) end
  else (u, depth).
Definition join_component (anchor : nat) (st : Url * nat) (component : rstr) : Url * nat :=
  let '(url, depth) := st in
  if is_empty component || str_eqb component (str ".") then st
  else if str_eqb component (str "..")
  then if anchor <? depth then (pop_segment url, depth - 1) else st
  else (push_segment component url, S depth).

Definition uri_join_path u (path : rstr) : result PathUriParseError Url :=
  if contains_char 0%N path then Err (InvalidFileUriPath path)
  else if is_empty path then Ok u
  else
    convention ← ok_or (uri_convention u) (InvalidFileUriPath (url_as_str u));
    match from_absolute_native_path path convention with
    | Some absolute => Ok absolute
    | None =>
        path ← drive_relative u convention path;
        if is_opaque u then Err (InvalidFileUriPath (url_as_str u))
        else
          let depth := length (non_empty (default [] (url_segments u))) in
          let st := (pop_if_empty u, depth) in
          let st := if root_relative convention path then pop_to_anchor (anchor_depth convention) depth st.1 else st in
          let path := match convention with Posix => path | Windows => replace_char 92%N 47%N path end in
          uri_try_from (foldl (join_component (anchor_depth convention)) st (split_char 47%N path)).1
    end.
Definition join_descendant u (path : rstr) : result PathUriParseError Url :=
  descendant ← uri_join_path u path;
  let windows := bool_decide (uri_convention u = Some Windows) in
  if starts_with path [47%N]
     || windows && (starts_with path [92%N] || existsb (contains_char 58%N) (path_segments Windows path))
     || negb (uri_starts_with descendant u)
  then Err (JoinPathMustBeDescendant path) else Ok descendant.

(** ** Rendering *)

Definition decode_native_segment (segment : rstr) : rstr := utf8_lossy (decode_binary segment).
Definition render_posix_path u : option rstr :=
  match host_str u with
  | Some _ => None
  | None => Some (default [] (url_segments u) ≫= λ s, 47%N :: decode_native_segment s)
  end.
Definition render_rest (segments : list rstr) : rstr := segments ≫= λ s, 92%N :: decode_native_segment s.
Definition render_windows_path u : option rstr :=
  let segments := default [] (url_segments u) in
  match host_str u, segments with
  | Some host, share :: segments =>
      let share := decode_native_segment share in
      if is_empty share then None
      else Some (str "\\" ++ host ++ [92%N] ++ share ++ render_rest segments)
  | Some _, [] => None
  | None, drive :: segments =>
      match decode_native_segment drive with
      | [letter; colon] =>
          if is_ascii_alphabetic letter && (colon =? 58)%N
          then Some (if is_empty segments then [letter; colon; 92%N] else [letter; colon] ++ render_rest segments)
          else None
      | _ => None
      end
  | None, [] => None
  end.
(** [chunks_exact(2)] *)
Fixpoint utf16_of_bytes (bytes : list N) : list N :=
  match bytes with a :: b :: bytes => (a + 256 * b)%N :: utf16_of_bytes bytes | _ => [] end.
Definition render_windows_opaque_fallback (path_bytes : list N) : option rstr :=
  if negb (Nat.even (length path_bytes)) then None
  else
    let path_wide := utf16_of_bytes path_bytes in
    let has_namespace_or_unc_root :=
      match path_wide with a :: b :: _ => is_windows_separator a && is_windows_separator b | _ => false end in
    if is_windows_drive_absolute_path path_wide || has_namespace_or_unc_root
    then Some (utf16_lossy path_wide) else None.
Definition render_opaque_fallback (path_bytes : list N) (convention : PathConvention) : option rstr :=
  match convention with
  | Posix => if starts_with path_bytes [47%N] then Some (utf8_lossy path_bytes) else None
  | Windows => render_windows_opaque_fallback path_bytes
  end.
(** [LegacyAppPathString::from_path_uri] *)
Definition from_path_uri u (convention : PathConvention) : option rstr :=
  match decode_bad_path_uri u with
  | Some path_bytes => render_opaque_fallback path_bytes convention
  | None => match convention with Posix => render_posix_path u | Windows => render_windows_path u end
  end.
Definition native_path_string u : rstr := default (url_as_str u) (uri_convention u ≫= from_path_uri u).

(** ** Paths of a Unix host *)

Context `{PathEnv}.

Definition from_abs_path (path : rstr) : Url :=
  let fallback := from_opaque_path_bytes (utf8 path) in
  match from_file_path path with
  | Some url =>
      match uri_try_from url with
      | Ok uri =>
          if negb (bool_decide (host_str uri = Some [])) && bool_decide (uri_convention uri = Some Posix)
          then uri else fallback
      | Err _ => fallback
      end
  | None => fallback
  end.
Definition from_host_native_path (path : rstr) : option Url := from_abs_path <$> from_absolute_path_checked path.
Definition to_abs_path u : option rstr :=
  if negb (bool_decide (uri_convention u = Some Posix)) then None
  else match decode_bad_path_uri u with
       | Some path_bytes =>
           decoded_path ← result_ok (from_utf8 path_bytes);
           path ← from_absolute_path_checked decoded_path;
           if uri_eqb (from_abs_path path) u then Some path else None
       | None => path ← to_file_path u; from_absolute_path_checked path
       end.
End uris.
