(* ===== verification/PathUriProps.v ===== *)
(** POSIX path URIs as lists of names: containment is the prefix order, parents
    and joins act on the names, and the last ancestor is the root. *)

From S2P Require Import Prelude Utf8 AbsolutePath PathUris.
#[local] Opaque str.

(** ** What the code relies on of the crates *)

Section laws.
Context `{FileUrls}.

(** Editing the segments of a path leaves the rest of a URL alone. *)
Definition same_but_path (u v : Url) : Prop :=
  url_scheme v = url_scheme u ∧ url_username v = url_username u ∧ url_password v = url_password u
  ∧ url_port v = url_port u ∧ url_query v = url_query u ∧ url_fragment v = url_fragment u ∧ host_str v = host_str u.
(** A segment that the parser of [file:] URLs does not rewrite *)
Definition ordinary (s : rstr) : Prop :=
  is_text s ∧ s ≠ [] ∧ s ≠ str "." ∧ s ≠ str ".." ∧ ¬ ∃ c d, s = [c; d] ∧ is_ascii_alphabetic c = true ∧ (d = 58 ∨ d = 124)%N.
End laws.

Class FileUrlLaws `{FileUrls} := {
  encode_segment : rstr → rstr;
  (** Paths of [file:] URLs start with a slash. *)
  law_path u : url_scheme u = FILE_SCHEME → ∃ rest, url_path u = 47%N :: rest;
  law_as_str u :
    url_scheme u = FILE_SCHEME → validate_common_known_uri u = Ok () →
    url_as_str u = str "file://" ++ default [] (host_str u) ++ url_path u;
  law_pop u segments :
    url_segments u = Some segments →
    same_but_path u (pop_segment u)
    ∧ url_segments (pop_segment u)
      = Some (if length segments <=? 1 then [[]] else take (length segments - 1) segments);
  law_pop_if_empty u segments :
    url_segments u = Some segments →
    same_but_path u (pop_if_empty u)
    ∧ url_segments (pop_if_empty u)
      = Some (if bool_decide (last segments = Some []) && (1 <? length segments)
              then take (length segments - 1) segments else segments);
  law_push u segments s :
    url_segments u = Some segments → ordinary s →
    same_but_path u (push_segment s u)
    ∧ url_segments (push_segment s u)
      = Some ((if bool_decide (segments = [[]]) then [] else segments) ++ [encode_segment s]);
  law_encode s : is_text s → decode_binary (encode_segment s) = utf8 s;
  law_encode_drive s : ordinary s → is_windows_drive_uri_segment (encode_segment s) = false;
  law_empty :
    ∃ u, url_parse (str "file:///") = Some u ∧ url_scheme u = FILE_SCHEME ∧ validate_common_known_uri u = Ok ()
         ∧ host_str u = None ∧ url_segments u = Some [[]];
  law_clear u segments :
    url_segments u = Some segments →
    same_but_path u (clear_segments u) ∧ url_segments (clear_segments u) = Some [[]];
  (** A slash is no part of an escape. *)
  law_decode_slash a b : decode_binary (a ++ 47%N :: b) = decode_binary a ++ 47%N :: decode_binary b;
  law_decode_nil : decode_binary [] = [];
  law_decode_plain s : Forall (λ c, c < 128 ∧ c ≠ 37)%N s → decode_binary s = s;
  law_decode_nul : decode_binary (str "%00") = [0%N];
}.

(** ** Names *)

Section names.
Context `{FileUrls}.
Implicit Types (u : Url).

Definition names u : list (list N) := decode_binary <$> non_empty (default [] (url_segments u)).
(** A POSIX URI whose components are unambiguous *)
Definition lexical u : Prop := uri_convention u = Some Posix ∧ uri_lexical_depth u ≠ None.

Lemma lexical_inv u :
  lexical u →
  is_opaque u = false ∧ host_str u = None
  ∧ ∃ segments, url_segments u = Some segments
    ∧ containment_path_segments u Posix = Some (non_empty segments).
Proof.
  intros [Hc Hd]. unfold uri_lexical_depth in Hd. destruct (is_opaque u) eqn:Ho; [done|].
  rewrite Hc in Hd. simpl in Hd. split; [done|].
  assert (host_str u = None) as Hh.
  { unfold uri_convention, is_opaque in *. destruct (decode_bad_path_uri u); [done|].
    by destruct (host_str u). }
  split; [done|]. unfold containment_path_segments in *.
  destruct (url_segments u) as [segments|]; simpl in *; [|done]. exists segments. split; [done|].
  by destruct (existsb _ _).
Qed.
Lemma lexical_depth_names u : lexical u → uri_lexical_depth u = Some (length (names u)).
Proof.
  intros Hl. destruct (lexical_inv u Hl) as (Ho & _ & segments & Es & Ec). destruct Hl as [Hc _].
  unfold uri_lexical_depth, names. rewrite Ho, Hc. simpl. rewrite Ec, Es. simpl. by rewrite length_fmap.
Qed.

Lemma start_with_prefix (path base : list rstr) :
  native_path_segments_start_with path base Posix = true
  ↔ (decode_binary <$> base) `prefix_of` (decode_binary <$> path).
Proof.
  unfold native_path_segments_start_with. rewrite andb_true_iff, Nat.leb_le, forallb_forall.
  revert path. induction base as [|b base IH]; intros path; simpl.
  { rewrite zip_with_nil_r. split; [intros _; apply prefix_nil|]. intros _. split; [lia|done]. }
  destruct path as [|p path]; simpl; [split; [lia|by intros ?%prefix_nil_not]|]. split.
  - intros [Hl Ha]. pose proof (Ha (p, b) (or_introl eq_refl)) as Hpb. apply bool_decide_eq_true in Hpb.
    rewrite Hpb. apply prefix_cons, IH. split; [lia|]. intros x Hx. apply Ha. by right.
  - intros Hp. pose proof (prefix_cons_inv_1 _ _ _ _ Hp) as E. apply prefix_cons_inv_2, IH in Hp as [Hl Ha].
    split; [lia|]. intros x [<-|Hx]; [|by apply Ha]. by apply bool_decide_eq_true.
Qed.

Lemma posix_eqb u (v : Url) : uri_convention u = Some Posix → uri_eqb u v = true ↔ u = v.
Proof.
  intros Hc. unfold uri_eqb, windows_identity_path_bytes. rewrite Hc.
  case_bool_decide as E; [done|]. by split.
Qed.

(** Containment of POSIX paths is the prefix order on their names. *)
Lemma starts_with_names u (base : Url) :
  lexical u → lexical base → uri_starts_with u base = true ↔ names base `prefix_of` names u.
Proof.
  intros Hu Hb. destruct (lexical_inv u Hu) as (Ho & Hh & su & Eu & Cu).
  destruct (lexical_inv base Hb) as (Ho' & Hh' & sb & Eb & Cb). destruct Hu as [Hc _], Hb as [Hc' _].
  unfold uri_starts_with. destruct (uri_eqb u base) eqn:E.
  { apply posix_eqb in E as ->; [|done]. done. }
  rewrite Ho, Ho', Hh, Hh', Hc, Hc'. simpl. rewrite Cu, Cb, start_with_prefix. unfold names. by rewrite Eu, Eb.
Qed.
End names.

(** ** Editing segments *)

Section edits.
Context `{FileUrlLaws}.
Implicit Types (u v : Url).

(** A URI as the constructors make it, without null bytes *)
Definition sound u : Prop :=
  url_scheme u = FILE_SCHEME ∧ validate_common_known_uri u = Ok ()
  ∧ ∃ segments, url_segments u = Some segments ∧ Forall (λ s, 0%N ∉ decode_binary s) segments.

Lemma url_path_segments u segments : url_segments u = Some segments → url_path u = 47%N :: join [47%N] segments.
Proof.
  unfold url_segments. intros (rest & Hr & ->)%fmap_Some. apply strip_prefix_Some in Hr.
  by rewrite Hr, join_split.
Qed.
Lemma same_but_path_common u v :
  same_but_path u v → validate_common_known_uri v = validate_common_known_uri u.
Proof. intros (_ & Eu & Ep & Eo & Eq & Ef & _). unfold validate_common_known_uri. by rewrite Eu, Ep, Eo, Eq, Ef. Qed.

(** A null segment is what marks a fallback URI. *)
Lemma sound_not_opaque u : sound u → host_str u = None → is_opaque u = false.
Proof.
  intros (Hs & Hv & segments & Es & Hn) Hh. unfold is_opaque, decode_bad_path_uri.
  rewrite (law_as_str u Hs Hv), Hh. simpl.
  destruct (strip_prefix BAD_PATH_URI_PREFIX _) as [rest|] eqn:Ep; [|done]. exfalso.
  apply strip_prefix_Some in Ep.
  change BAD_PATH_URI_PREFIX with (str "file://" ++ 47%N :: str "%00" ++ 47%N :: str "bad/path/") in Ep.
  rewrite <-!(assoc_L (++)) in Ep. apply app_inv_head in Ep. simpl in Ep.
  unfold url_segments in Es. rewrite Ep in Es. simpl in Es. injection Es as <-.
  rewrite <-(assoc_L (++)) in Hn. simpl in Hn.
  rewrite split_char_app_sep in Hn by (vm_compute; set_solver).
  apply Forall_cons in Hn as [Hn _]. apply Hn. rewrite law_decode_nul. set_solver.
Qed.

Definition no_drive (segments : list rstr) : Prop :=
  ∀ s, head (non_empty segments) = Some s → is_windows_drive_uri_segment s = false.
Lemma lexical_segments u segments :
  lexical u → url_segments u = Some segments →
  no_drive segments ∧ Forall (λ s, has_separator Posix s = false) (non_empty segments).
Proof.
  intros Hl Es. pose proof (lexical_inv u Hl) as (Ho & Hh & s' & Es' & Hc). destruct Hl as [Hp _].
  rewrite Es in Es'. injection Es' as <-. split.
  - intros s Hs. unfold uri_convention, is_opaque in *. destruct (decode_bad_path_uri u); [done|].
    rewrite Hh, Es in Hp. simpl in Hp. rewrite Hs in Hp. by destruct (is_windows_drive_uri_segment s).
  - unfold containment_path_segments in Hc. rewrite Es in Hc. simpl in Hc.
    destruct (existsb _ _) eqn:E; [done|]. apply Forall_forall. intros s Hin. apply not_true_iff_false. intros Ht.
    apply not_true_iff_false in E. apply E, existsb_exists. exists s. by rewrite <-list_elem_of_In.
Qed.
Lemma segments_lexical u segments :
  sound u → host_str u = None → url_segments u = Some segments → no_drive segments →
  Forall (λ s, has_separator Posix s = false) (non_empty segments) → lexical u.
Proof.
  intros Hs Hh Es Hd Hsep. pose proof (sound_not_opaque u Hs Hh) as Ho.
  assert (uri_convention u = Some Posix) as Hc.
  { unfold uri_convention, is_opaque in *. destruct (decode_bad_path_uri u); [done|].
    rewrite Hh, Es. simpl. destruct (head (non_empty segments)) as [s|] eqn:E; [|done]. by rewrite (Hd s E). }
  split; [done|]. unfold uri_lexical_depth, containment_path_segments. rewrite Ho, Hc. simpl. rewrite Es. simpl.
  destruct (existsb _ _) eqn:E; [|done]. apply existsb_exists in E as (s & Hin & Ht).
  rewrite <-list_elem_of_In in Hin. rewrite Forall_forall in Hsep. by rewrite (Hsep s Hin) in Ht.
Qed.

(** A URI with other segments *)
Lemma edited u v segments :
  sound u → host_str u = None → same_but_path u v → url_segments v = Some segments →
  Forall (λ s, 0%N ∉ decode_binary s) segments → no_drive segments →
  Forall (λ s, has_separator Posix s = false) (non_empty segments) →
  sound v ∧ lexical v ∧ names v = decode_binary <$> non_empty segments.
Proof.
  intros (Hs & Hv & _) Hh Hsame Es Hn Hd Hsep.
  assert (sound v) as Hsv.
  { split_and!; [destruct Hsame as (-> & _); done|by rewrite (same_but_path_common u v Hsame)|by eexists]. }
  assert (host_str v = None) by (destruct Hsame as (_ & _ & _ & _ & _ & _ & ->); done).
  split; [done|]. split; [by eapply segments_lexical|]. unfold names. by rewrite Es.
Qed.
Lemma edited_prefix u v segments segments' :
  sound u → lexical u → url_segments u = Some segments →
  same_but_path u v → url_segments v = Some segments' → segments' `prefix_of` segments ∨ segments' = [[]] →
  sound v ∧ lexical v ∧ names v = decode_binary <$> non_empty segments'.
Proof.
  intros Hs Hl Es Hsame Es' Hp. pose proof (lexical_segments u segments Hl Es) as [Hd Hsep].
  pose proof (lexical_inv u Hl) as (_ & Hh & _). pose proof Hs as (_ & _ & ? & Es2 & Hn).
  rewrite Es in Es2. injection Es2 as <-.
  destruct Hp as [[k ->]| ->].
  - unfold non_empty in *. rewrite filter_app in Hsep. apply Forall_app in Hn as [Hn _], Hsep as [Hsep _].
    eapply edited; try done. intros s E. apply Hd. unfold non_empty in *. rewrite filter_app. by destruct (filter _ segments').
  - eapply edited; try done. repeat constructor. rewrite law_decode_nil. apply not_elem_of_nil.
Qed.

(** ** Parents *)

Lemma non_empty_app (a b : list rstr) : non_empty (a ++ b) = non_empty a ++ non_empty b.
Proof. apply filter_app. Qed.
Lemma pop_if_empty_names u :
  sound u → lexical u →
  sound (pop_if_empty u) ∧ lexical (pop_if_empty u) ∧ names (pop_if_empty u) = names u.
Proof.
  intros Hs Hl. pose proof (lexical_inv u Hl) as (_ & _ & segments & Es & _).
  pose proof (law_pop_if_empty u segments Es) as [Hsame Es'].
  destruct (bool_decide _ && _) eqn:E.
  - apply andb_true_iff in E as [E%bool_decide_eq_true _]. apply last_Some in E as [l ->].
    rewrite length_app in Es'. simpl in Es'. rewrite Nat.add_sub, take_app_length in Es'.
    edestruct (edited_prefix u) as (Hs' & Hl' & Hn); try done; [left; apply prefix_app_r; done|].
    split_and!; try done. rewrite Hn. unfold names. rewrite Es. simpl. by rewrite non_empty_app, app_nil_r.
  - edestruct (edited_prefix u) as (Hs' & Hl' & Hn); try done; [by left|].
    split_and!; try done. rewrite Hn. unfold names. by rewrite Es.
Qed.

Lemma parent_of u v :
  sound u → lexical u → uri_parent_of u = Some v →
  sound v ∧ lexical v ∧
  (names v = [] ∧ uri_parent_of v = None
   ∨ length (default [] (url_segments v)) < length (default [] (url_segments u))).
Proof.
  intros Hs Hl Hp. pose proof (lexical_inv u Hl) as (Ho & _ & segments & Es & _).
  unfold uri_parent_of in Hp. rewrite Ho, (proj1 Hl), Es in Hp. simpl in Hp.
  destruct (Nat.leb_spec (length (non_empty segments)) 0) as [_|Hlen]; [done|]. injection Hp as <-.
  pose proof (pop_if_empty_names u Hs Hl) as (Hs1 & Hl1 & _).
  pose proof (law_pop_if_empty u segments Es) as [_ Es1].
  match type of Es1 with _ = Some ?s => set (s1 := s) in Es1 end.
  assert (length s1 ≤ length segments) as Hle by (unfold s1; destruct (_ && _); rewrite ?length_take; lia).
  pose proof (law_pop _ s1 Es1) as [Hsame2 Es2].
  edestruct (edited_prefix (pop_if_empty u)) as (Hs2 & Hl2 & Hn2); try done.
  { destruct (length s1 <=? 1); [by right|left; apply prefix_take]. }
  split_and!; [done..|]. rewrite Es2, Es. simpl. destruct (Nat.leb_spec (length s1) 1) as [H1|H1].
  - left. split; [done|]. unfold uri_parent_of. rewrite (proj1 (lexical_inv _ Hl2)), (proj1 Hl2), Es2. done.
  - right. rewrite length_take. lia.
Qed.
Lemma no_parent u : lexical u → uri_parent_of u = None ↔ names u = [].
Proof.
  intros Hl. pose proof (lexical_inv u Hl) as (Ho & _ & segments & Es & _).
  unfold uri_parent_of, names. rewrite Ho, (proj1 Hl), Es. simpl.
  destruct (Nat.leb_spec (length (non_empty segments)) 0) as [E|E]; split; try done.
  - intros _. by rewrite (nil_length_inv (non_empty segments)) by lia.
  - intros Hn. apply fmap_nil_inv in Hn. rewrite Hn in E. simpl in E. lia.
Qed.

Lemma last_successors fuel u :
  sound u → lexical u → length (default [] (url_segments u)) ≤ fuel →
  ∃ r, last (successors fuel u) = Some r ∧ sound r ∧ lexical r ∧ names r = [].
Proof.
  revert u. induction fuel as [|fuel IH]; intros u Hs Hl Hf.
  { pose proof (lexical_inv u Hl) as (_ & _ & segments & Es & _). rewrite Es in Hf. simpl in Hf.
    unfold url_segments in Es. apply fmap_Some in Es as (rest & _ & ->).
    destruct (split_char_cons 47 rest) as (w & ws & E). rewrite E in Hf. simpl in Hf. lia. }
  simpl. destruct (uri_parent_of u) as [v|] eqn:Hp.
  - destruct (parent_of u v Hs Hl Hp) as (Hsv & Hlv & [[Hn Hnp]|Hlt]).
    + exists v. split; [|done]. destruct fuel; simpl; [done|]. by rewrite Hnp.
    + destruct (IH v) as (r & Hr & ?); [done..|lia|]. exists r. split; [|done].
      rewrite last_cons. by rewrite Hr.
  - exists u. split; [done|]. split; [done|]. split; [done|]. by apply no_parent.
Qed.
(** The last ancestor is the root. *)
Lemma last_ancestor u :
  sound u → lexical u → ∃ r, last (uri_ancestors u) = Some r ∧ sound r ∧ lexical r ∧ names r = [].
Proof. intros. by apply last_successors. Qed.
End edits.

(** ** Joins *)

Lemma path_segments_posix (s : rstr) : path_segments Posix s = split_char 47%N s.
Proof. unfold path_segments. induction s as [|c s IH]; [done|]. simpl. by rewrite IH. Qed.
(** A name that is one component of a path *)
Definition component_name (s : rstr) : Prop := ordinary s ∧ 47%N ∉ s ∧ 0%N ∉ s.

Section joins.
Context `{FileUrlLaws}.
Implicit Types (u v : Url).

Lemma decode_join_nul (segments : list rstr) :
  Forall (λ s, 0%N ∉ decode_binary s) segments → 0%N ∉ decode_binary (47%N :: join [47%N] segments).
Proof.
  intros Hn. pose proof (law_decode_slash [] (join [47%N] segments)) as E. simpl in E. rewrite E, law_decode_nil. clear E.
  apply not_elem_of_cons. split; [done|].
  induction Hn as [|s segments Hs Hn IH]; [rewrite law_decode_nil; apply not_elem_of_nil|].
  destruct segments as [|t segments]; [done|]. rewrite join_cons by done. simpl.
  rewrite law_decode_slash. apply not_elem_of_app. split; [done|]. apply not_elem_of_cons. split; [done|]. apply IH.
Qed.
Lemma trim_segments rest :
  let trimmed := trim_start_by (λ c, (c =? 47)%N) rest in
  trimmed ≠ [] → head (split_char 47%N trimmed) = head (non_empty (split_char 47%N rest)).
Proof.
  simpl. induction rest as [|c rest IH]; simpl; [done|]. destruct (N.eqb_spec c 47) as [->|Hc]; [done|].
  intros _. destruct (split_char_cons 47 rest) as (w & ws & E).
  simpl. rewrite (proj2 (N.eqb_neq c 47) Hc), E. done.
Qed.
Lemma not_drive_unchanged u segments :
  url_segments u = Some segments → no_drive segments → with_normalized_windows_drive_letter u = u.
Proof.
  intros Es Hd. unfold with_normalized_windows_drive_letter. destruct (host_str u); [done|].
  unfold url_segments in Es. apply fmap_Some in Es as (rest & Er & ->). apply strip_prefix_Some in Er as ->.
  simpl. destruct (is_empty _) eqn:E; [done|].
  assert (trim_start_by (λ c, (c =? 47)%N) rest ≠ []) as Hne by (intros E'; by rewrite E' in E).
  pose proof (trim_segments rest Hne) as Hh. simpl in Hh. rewrite Hh.
  destruct (head (non_empty _)) as [drive|] eqn:Ed; [|done].
  destruct (trim_start_by _ rest) as [|letter rest']; [done|]. by rewrite (Hd drive Ed).
Qed.
(** The constructors accept a sound URI as it is. *)
Lemma try_from_sound u : sound u → lexical u → uri_try_from u = Ok u.
Proof.
  intros Hs Hl. pose proof Hs as (Hf & Hv & segments & Es & Hn).
  pose proof (lexical_segments u segments Hl Es) as [Hd _]. pose proof (lexical_inv u Hl) as (Ho & Hh & _).
  unfold uri_try_from, str_eqb. rewrite Hf, bool_decide_eq_true_2 by done. simpl.
  unfold validate_file_url. rewrite Hv. simpl.
  rewrite (url_path_segments u segments Es), bool_decide_eq_false_2 by (by apply decode_join_nul). simpl.
  unfold without_localhost_authority. rewrite Hh. simpl. by rewrite (not_drive_unchanged u segments).
Qed.


(** Pushing a name appends it. *)
Lemma push_name u s :
  sound u → lexical u → component_name s →
  sound (push_segment s u) ∧ lexical (push_segment s u) ∧ names (push_segment s u) = names u ++ [utf8 s].
Proof.
  intros Hs Hl (Hord & Hsl & Hnul). pose proof Hord as (Ht & Hne & _).
  pose proof Hs as (_ & _ & segments & Es & Hn).
  pose proof (lexical_segments u segments Hl Es) as [Hd Hsep].
  destruct (law_push u segments s Es) as [Hsame Es']; [done|].
  match type of Es' with _ = Some (?b ++ _) => set (base := b) in Es' end.
  assert (non_empty base = non_empty segments) as Hb.
  { unfold base. case_bool_decide; [by subst|done]. }
  assert (is_empty (encode_segment s) = false) as Henc.
  { destruct (encode_segment s) eqn:E; [|done]. pose proof (law_encode s Ht) as Hd'. rewrite E, law_decode_nil in Hd'.
    destruct s as [|c s]; [done|]. apply Forall_cons in Ht as [Hc%encoded_complete _].
    rewrite utf8_cons_eq in Hd'. destruct Hc; discriminate Hd'. }
  assert (non_empty (base ++ [encode_segment s]) = non_empty segments ++ [encode_segment s]) as Hne'.
  { rewrite non_empty_app, Hb. unfold non_empty at 2. by rewrite filter_cons_True. }
  edestruct (edited u) as (Hs' & Hl' & Hn'); [done|by apply lexical_inv|exact Hsame|exact Es'|..].
  - apply Forall_app. split; [unfold base; case_bool_decide; [constructor|done]|].
    constructor; [|constructor]. rewrite law_encode, utf8_ascii by done. done.
  - intros x Hx. rewrite Hne' in Hx. destruct (non_empty segments) as [|y ys] eqn:E; simpl in Hx; injection Hx as <-.
    + by apply law_encode_drive.
    + apply Hd. by rewrite E.
  - rewrite Hne'. apply Forall_app. split; [done|]. constructor; [|constructor].
    unfold has_separator. apply not_true_iff_false. intros (b & Hin & Hb')%existsb_exists.
    apply list_elem_of_In in Hin. rewrite law_encode in Hin by done. simpl in Hb'. apply N.eqb_eq in Hb' as ->.
    rewrite utf8_ascii in Hin by done. done.
  - split_and!; [done..|]. rewrite Hn', Hne', fmap_app. simpl. rewrite law_encode by done.
    unfold names. by rewrite Es.
Qed.

(** Joining a relative path of such names, empty pieces and single dots appends the names. *)
Definition plain_piece (s : rstr) : Prop := s = [] ∨ s = str "." ∨ component_name s.
Definition piece_names (pieces : list rstr) : list (list N) :=
  utf8 <$> filter (λ s, s ≠ [] ∧ s ≠ str ".") pieces.
Lemma join_pieces pieces u depth :
  sound u → lexical u → Forall plain_piece pieces →
  let v := (foldl (join_component 0) (u, depth) pieces).1 in
  sound v ∧ lexical v ∧ names v = names u ++ piece_names pieces.
Proof.
  intros Hs Hl Hp. revert u depth Hs Hl. unfold piece_names.
  induction Hp as [|s pieces Hpiece Hp IH]; intros u depth Hs Hl; simpl; [by rewrite app_nil_r|].
  destruct Hpiece as [->|[->|Hc]].
  - rewrite filter_cons_False by naive_solver. by apply IH.
  - rewrite filter_cons_False by naive_solver. by apply IH.
  - pose proof Hc as ((Ht & Hne & Hdot & Hdd & _) & _). rewrite filter_cons_True by done.
    destruct s as [|c s]; [done|]. simpl. unfold str_eqb. rewrite !bool_decide_eq_false_2 by done.
    destruct (push_name u (c :: s)) as (Hs' & Hl' & Hn'); [done..|].
    destruct (IH _ (S depth) Hs' Hl') as (? & ? & Hn''). split_and!; [done..|].
    rewrite Hn'', Hn', <-(assoc_L (++)). done.
Qed.
#[local] Opaque split_char.
Lemma join_relative u (path : rstr) :
  sound u → lexical u → path ≠ [] → 0%N ∉ path → starts_with path [47%N] = false →
  Forall plain_piece (split_char 47%N path) →
  ∃ v, uri_join_path u path = Ok v ∧ sound v ∧ lexical v ∧ names v = names u ++ piece_names (split_char 47%N path).
Proof.
  intros Hs Hl Hne Hnul Habs Hp. pose proof (lexical_inv u Hl) as (Ho & _ & _).
  pose proof (pop_if_empty_names u Hs Hl) as (Hs1 & Hl1 & Hn1).
  unfold uri_join_path, contains_char. rewrite bool_decide_eq_false_2 by done.
  destruct path as [|c path]; [done|]. simpl is_empty. rewrite (proj1 Hl). simpl.
  unfold from_absolute_native_path, parse_posix_path. unfold starts_with in Habs.
  destruct (strip_prefix [47%N] (c :: path)); [done|]. clear Habs. simpl mbind. cbv iota.
  replace (match path with [] | _ => Ok (c :: path) end) with (Ok (c :: path) : result PathUriParseError rstr)
    by (by destruct path).
  simpl. rewrite Ho.
  destruct (join_pieces _ (pop_if_empty u) (length (non_empty (default [] (url_segments u)))) Hs1 Hl1 Hp)
    as (Hs2 & Hl2 & Hn2).
  eexists. split; [by apply try_from_sound|]. split_and!; [done..|]. by rewrite Hn2, Hn1.
Qed.

Lemma push_names (pieces : list rstr) u :
  sound u → lexical u → Forall component_name pieces →
  let v := foldl (λ u s, push_segment s u) u pieces in
  sound v ∧ lexical v ∧ names v = names u ++ (utf8 <$> pieces).
Proof.
  intros Hs Hl Hp. revert u Hs Hl. induction Hp as [|s pieces Hc Hp IH]; intros u Hs Hl; simpl; [by rewrite app_nil_r|].
  destruct (push_name u s) as (Hs' & Hl' & Hn'); [done..|]. destruct (IH _ Hs' Hl') as (? & ? & Hn).
  split_and!; [done..|]. by rewrite Hn, Hn', <-(assoc_L (++)).
Qed.
Lemma normalize_piece_names (pieces normalized : list rstr) :
  Forall component_name pieces →
  foldl (normalize_segment Posix) (normalized, false) pieces = (normalized ++ pieces, false).
Proof.
  intros Hp. revert normalized. induction Hp as [|s pieces Hc Hp IH]; intros normalized; simpl; [by rewrite app_nil_r|].
  pose proof Hc as ((_ & Hne & Hdot & Hdd & _) & _). destruct s as [|c s]; [done|]. simpl. unfold str_eqb.
  rewrite !bool_decide_eq_false_2 by done. rewrite IH. by rewrite <-(assoc_L (++)).
Qed.
(** The empty path *)
Lemma root_url :
  ∃ u, url_parse (str "file:///") = Some u ∧ sound (clear_segments u) ∧ lexical (clear_segments u)
       ∧ names (clear_segments u) = [].
Proof.
  destruct law_empty as (u & Hu & Hf & Hv & Hh & Es). exists u. split; [done|].
  assert (Forall (λ s, 0%N ∉ decode_binary s) [[]]) as Hn.
  { constructor; [|constructor]. rewrite law_decode_nil. apply not_elem_of_nil. }
  destruct (law_clear u _ Es) as [Hsame Es'].
  edestruct (edited u) as (? & ? & ->); [by split_and!; [..|eexists]|done|exact Hsame|exact Es'|done|done|constructor|done].
Qed.
(** An absolute path of plain names *)
Lemma join_absolute u (rest : rstr) :
  uri_convention u = Some Posix → 0%N ∉ rest → Forall component_name (split_char 47%N rest) →
  ∃ v, uri_join_path u (47%N :: rest) = Ok v ∧ sound v ∧ lexical v ∧ names v = utf8 <$> split_char 47%N rest.
Proof.
  intros Hc Hnul Hp. unfold uri_join_path. unfold contains_char at 1.
  rewrite bool_decide_eq_false_2 by (apply not_elem_of_cons; done). simpl is_empty. cbv iota. rewrite Hc. simpl ok_or.
  unfold from_absolute_native_path, parse_posix_path. simpl strip_prefix. cbn [mbind option_bind result_bind].
  unfold contains_char at 1. rewrite bool_decide_eq_false_2 by done.
  unfold path_uri_from_segments. destruct root_url as (r & -> & Hs & Hl & Hn). cbn [mbind option_bind].
  rewrite normalize_piece_names by done. simpl app. simpl orb. cbv iota.
  destruct (push_names _ _ Hs Hl Hp) as (Hs' & Hl' & Hn'). rewrite try_from_sound by done.
  exists (foldl (λ u s, push_segment s u) (clear_segments r) (split_char 47 rest)).
  split; [|by rewrite Hn', Hn]. cbn. pose proof (lexical_inv _ Hl') as (_ & Hh & _). rewrite Hh, (proj1 Hl'). done.
Qed.

Lemma join_descendant_name u s :
  sound u → lexical u → component_name s →
  ∃ v, join_descendant u s = Ok v ∧ sound v ∧ lexical v ∧ names v = names u ++ [utf8 s].
Proof.
  intros Hs Hl Hc. pose proof Hc as ((_ & Hne & Hdot & _) & Hsl & Hnul).
  assert (starts_with s [47%N] = false) as Habs.
  { unfold starts_with. destruct (strip_prefix [47%N] s) as [t|] eqn:E; [|done].
    apply strip_prefix_Some in E as ->. set_solver. }
  destruct (join_relative u s) as (v & Hv & Hsv & Hlv & Hn); [done..| |].
  { rewrite split_char_none by done. constructor; [by right; right|constructor]. }
  rewrite split_char_none in Hn by done. unfold piece_names in Hn. rewrite filter_cons_True in Hn by done.
  exists v. split; [|done]. unfold join_descendant. rewrite Hv. cbn [mbind result_bind]. rewrite Habs, (proj1 Hl).
  assert (uri_starts_with v u = true) as ->; [|done].
  apply starts_with_names; [done..|]. rewrite Hn. by apply prefix_app_r.
Qed.
End joins.
