(* ===== verification/PathUriExample.v ===== *)
(** An executable instance of the URL interface: a URL is a host and the text of
    its path, with percent encoding, and hexadecimal digits for base64. *)

From S2P Require Import Prelude Utf8 PathUris PathUriProps.
#[local] Open Scope N_scope.

Definition hex_digit (v : N) : rchar := if v <? 10 then 48 + v else 55 + v.
Definition hex_value (c : rchar) : option N :=
  if (48 <=? c) && (c <=? 57) then Some (c - 48)
  else if (65 <=? c) && (c <=? 70) then Some (c - 55)
  else if (97 <=? c) && (c <=? 102) then Some (c - 87)
  else None.
Definition unreserved (b : N) : bool :=
  ((48 <=? b) && (b <=? 57)) || ((65 <=? b) && (b <=? 90)) || ((97 <=? b) && (b <=? 122))
  || (b =? 45) || (b =? 46) || (b =? 95).
Definition encode_byte (b : N) : rstr :=
  if unreserved b then [b] else [37; hex_digit (b / 16); hex_digit (b mod 16)].
Definition percent_encode (s : rstr) : rstr := utf8 s ≫= encode_byte.
Fixpoint percent_decode (s : rstr) : list N :=
  match s with
  | [] => []
  | c :: t =>
      match t with
      | h :: l :: rest =>
          match (if c =? 37 then hex_value h else None), hex_value l with
          | Some a, Some b => (16 * a + b) :: percent_decode rest
          | _, _ => c :: percent_decode t
          end
      | _ => c :: percent_decode t
      end
  end.
Fixpoint unhex (s : rstr) : option (list N) :=
  match s with
  | [] => Some []
  | h :: l :: rest => a ← hex_value h; b ← hex_value l; r ← unhex rest; Some ((16 * a + b) :: r)
  | _ => None
  end.

Record example_url := mkUrl { ex_host : option rstr; ex_rest : rstr }.
#[global] Instance example_url_eq_dec : EqDecision example_url.
Proof. solve_decision. Defined.
Definition with_segments (u : example_url) (segments : list rstr) : example_url := mkUrl (ex_host u) (join [47] segments).
Definition ex_segments (u : example_url) : list rstr := split_char 47 (ex_rest u).
Definition ex_parse (s : rstr) : option example_url :=
  rest ← strip_prefix (str "file://") s;
  '(host, path) ← split_once 47 rest;
  Some (mkUrl (if is_empty host then None else Some host) path).
Definition ex_pop (segments : list rstr) : list rstr :=
  if (length segments <=? 1)%nat then [[]] else take (length segments - 1) segments.

#[global] Instance example_urls : FileUrls := {|
  Url := example_url;
  url_parse := ex_parse;
  url_as_str u := str "file://" ++ default [] (ex_host u) ++ 47 :: ex_rest u;
  url_scheme _ := str "file";
  url_username _ := [];
  url_password _ := None;
  url_port _ := None;
  url_query _ := None;
  url_fragment _ := None;
  host_str := ex_host;
  url_path u := 47 :: ex_rest u;
  set_host h u := Some (mkUrl (Some h) (ex_rest u));
  clear_host u := mkUrl None (ex_rest u);
  set_path p u := mkUrl (ex_host u) (default p (strip_prefix [47] p));
  pop_if_empty u :=
    with_segments u (if bool_decide (last (ex_segments u) = Some []) && (1 <? length (ex_segments u))%nat
                     then take (length (ex_segments u) - 1) (ex_segments u) else ex_segments u);
  pop_segment u := with_segments u (ex_pop (ex_segments u));
  push_segment s u :=
    with_segments u ((if bool_decide (ex_segments u = [[]]) then [] else ex_segments u) ++ [percent_encode s]);
  clear_segments u := mkUrl (ex_host u) [];
  from_file_path p := (λ rest, mkUrl None (join [47] (percent_encode <$> split_char 47 rest))) <$> strip_prefix [47] p;
  to_file_path u := result_ok (from_utf8 (percent_decode (47 :: ex_rest u)));
  fallback_url s := default (mkUrl None []) (ex_parse s);
  decode_binary := percent_decode;
  utf8_lossy bytes := default [] (result_ok (from_utf8 bytes));
  utf16_lossy units := units;
  base64_encode bytes := bytes ≫= λ b, [hex_digit (b / 16); hex_digit (b mod 16)];
  base64_decode := unhex;
|}.

(** ** The laws *)

Lemma hex_digit_value v : v < 16 → hex_value (hex_digit v) = Some v.
Proof.
  intros Hv. unfold hex_digit, hex_value. destruct (N.ltb_spec v 10) as [Hl|Hl].
  - rewrite (proj2 (N.leb_le 48 _)), (proj2 (N.leb_le _ 57)) by lia. simpl. f_equal. lia.
  - rewrite (proj2 (N.leb_gt (55 + v) 57)), andb_false_r by lia.
    rewrite (proj2 (N.leb_le 65 _)), (proj2 (N.leb_le _ 70)) by lia. simpl. f_equal. lia.
Qed.
Lemma unreserved_not_special b : unreserved b = true → b ≠ 37 ∧ b ≠ 47.
Proof. intros Hu. split; intros ->; by vm_compute in Hu. Qed.
Lemma percent_decode_cons b s : b ≠ 37 → percent_decode (b :: s) = b :: percent_decode s.
Proof. intros Hb. simpl. rewrite (proj2 (N.eqb_neq b 37) Hb). by destruct s as [|h [|l s]]. Qed.
Lemma percent_decode_byte b s : b < 256 → percent_decode (encode_byte b ++ s) = b :: percent_decode s.
Proof.
  intros Hb. unfold encode_byte. destruct (unreserved b) eqn:E.
  - apply percent_decode_cons. by apply unreserved_not_special.
  - simpl. rewrite !hex_digit_value; [|by apply N.mod_lt|by apply N.Div0.div_lt_upper_bound].
    f_equal. by rewrite <-N.div_mod'.
Qed.
Lemma encoded_bytes c bs : encoded c bs → Forall (λ b, b < 256) bs.
Proof.
  assert (∀ lo hi b, between lo hi b = true → hi < 256 → b < 256) as Hb.
  { unfold between. intros lo hi b. rewrite andb_true_iff, !N.leb_le. lia. }
  destruct 1; repeat (constructor; [|]); try constructor; try (by eapply Hb); try lia;
    unfold second_of_3, second_of_4 in *; repeat case_match; by eapply Hb.
Qed.
Lemma utf8_bytes s : is_text s → Forall (λ b, b < 256) (utf8 s).
Proof.
  induction 1 as [|c s Hc Hs IH]; [constructor|]. rewrite utf8_cons_eq. apply Forall_app. split; [|done].
  by eapply encoded_bytes, encoded_complete.
Qed.
Lemma percent_round_trip bs : Forall (λ b, b < 256) bs → percent_decode (bs ≫= encode_byte) = bs.
Proof. induction 1 as [|b bs Hb Hbs IH]; [done|]. by rewrite bind_cons, percent_decode_byte, IH. Qed.
Lemma encoded_no_slash bs : Forall (λ b, b < 256) bs → 47 ∉ (bs ≫= encode_byte).
Proof.
  induction 1 as [|b bs Hb Hbs IH]; [apply not_elem_of_nil|]. rewrite bind_cons. apply not_elem_of_app. split; [|done].
  unfold encode_byte. destruct (unreserved b) eqn:E.
  - apply unreserved_not_special in E. set_solver.
  - assert (∀ v, hex_digit v ≠ 47) as Hd.
    { intros v. unfold hex_digit. destruct (v <? 10); lia. }
    rewrite !not_elem_of_cons. split_and!; [done|by apply not_eq_sym..|apply not_elem_of_nil].
Qed.
Lemma percent_decode_escape h l s :
  percent_decode (37 :: h :: l :: s)
  = match hex_value h, hex_value l with
    | Some a, Some b => (16 * a + b) :: percent_decode s
    | _, _ => 37 :: percent_decode (h :: l :: s)
    end.
Proof. done. Qed.
Lemma decode_slash a b : percent_decode (a ++ 47 :: b) = percent_decode a ++ 47 :: percent_decode b.
Proof.
  remember (length a) as n eqn:En. revert a En. induction (lt_wf n) as [n _ IH]. intros [|c a] ->.
  { change ([] ++ 47 :: b) with (47 :: b). by rewrite percent_decode_cons. }
  destruct (N.eqb_spec c 37) as [->|Hc].
  2: { rewrite <-app_comm_cons, !percent_decode_cons by done. rewrite (IH (length a)) by (simpl; lia || done). done. }
  destruct a as [|h a].
  { simpl. destruct b as [|x b]; [done|]. by destruct b. }
  destruct a as [|l a].
  { pose proof (IH 1%nat ltac:(simpl; lia) [h] eq_refl) as E. simpl in E |- *. rewrite E. by destruct (hex_value h). }
  rewrite <-!app_comm_cons, !percent_decode_escape.
  pose proof (IH (length (h :: l :: a)) ltac:(simpl; lia) (h :: l :: a) eq_refl) as E.
  rewrite <-!app_comm_cons in E. rewrite E. rewrite (IH (length a)) by (simpl; lia || done).
  by destruct (hex_value h), (hex_value l).
Qed.

Lemma ex_url_segments (u : example_url) : url_segments u = Some (ex_segments u).
Proof. done. Qed.
Lemma with_segments_segments u segments :
  segments ≠ [] → Forall (λ s, 47 ∉ s) segments → url_segments (with_segments u segments) = Some segments.
Proof. intros. unfold with_segments. rewrite ex_url_segments. unfold ex_segments. simpl. by rewrite split_join. Qed.
Lemma ex_same_but_path u segments : same_but_path u (with_segments u segments).
Proof. done. Qed.
Lemma ex_segments_ok u : ex_segments u ≠ [] ∧ Forall (λ s, 47 ∉ s) (ex_segments u).
Proof.
  split; [|apply split_char_pieces]. unfold ex_segments.
  by destruct (split_char_cons 47 (ex_rest u)) as (w & ws & ->).
Qed.
Lemma take_ok n (segments : list rstr) :
  (0 < n)%nat → segments ≠ [] ∧ Forall (λ s, 47 ∉ s) segments →
  take n segments ≠ [] ∧ Forall (λ s, 47 ∉ s) (take n segments).
Proof. intros Hn [Hne Hs]. split; [by destruct n, segments; try lia|by apply Forall_take]. Qed.

Lemma utf8_drive s c : is_text s → is_ascii_alphabetic c = true → utf8 s = [c; 58] → s = [c; 58].
Proof.
  intros Ht Hc E. assert (c < 128) as Hlt.
  { unfold is_ascii_alphabetic in Hc. repeat (rewrite orb_true_iff in Hc || rewrite andb_true_iff in Hc).
    rewrite !N.leb_le in Hc. lia. }
  destruct (encode_1 c Hlt) as [Hs Eu]. pose proof (from_utf8_utf8 s Ht) as H1.
  pose proof (from_utf8_utf8 [c; 58]) as H2. rewrite utf8_cons_eq, Eu in H2.
  change ([c] ++ utf8 [58]) with [c; 58] in H2. rewrite E, H2 in H1; [by injection H1 as <-|by repeat constructor].
Qed.

#[global] Program Instance example_laws : FileUrlLaws := {| encode_segment := percent_encode |}.
Next Obligation. intros u _. by eexists. Qed.
Next Obligation. done. Qed.
Next Obligation.
  intros u segments E. rewrite ex_url_segments in E. injection E as <-. split; [done|].
  simpl pop_segment. unfold ex_pop. destruct (ex_segments_ok u) as [Hne Hs].
  destruct (Nat.leb_spec (length (ex_segments u)) 1) as [Hl|Hl]; apply with_segments_segments; try done.
  - repeat constructor. apply not_elem_of_nil.
  - apply take_ok; [lia|done].
  - apply take_ok; [lia|done].
Qed.
Next Obligation.
  intros u segments E. rewrite ex_url_segments in E. injection E as <-. split; [done|].
  simpl pop_if_empty. destruct (ex_segments_ok u) as [Hne Hs]. destruct (_ && _) eqn:Hc.
  - apply andb_true_iff in Hc as [_ Hl%Nat.ltb_lt]. apply with_segments_segments; apply take_ok; lia || done.
  - by apply with_segments_segments.
Qed.
Next Obligation.
  intros u segments s E (Ht & _). rewrite ex_url_segments in E. injection E as <-. split; [done|].
  simpl push_segment. destruct (ex_segments_ok u) as [Hne Hs]. apply with_segments_segments.
  - by destruct (bool_decide _), (ex_segments u).
  - apply Forall_app. split; [by case_bool_decide|]. constructor; [|constructor].
    by apply encoded_no_slash, utf8_bytes.
Qed.
Next Obligation. intros s Ht. by apply percent_round_trip, utf8_bytes. Qed.
Next Obligation.
  intros s (Ht & _ & _ & _ & Hd). apply not_true_iff_false. intros E. apply Hd.
  pose proof (percent_round_trip (utf8 s) (utf8_bytes s Ht)) as Hr. fold (percent_encode s) in Hr.
  unfold is_windows_drive_uri_segment in E.
  destruct (percent_encode s) as [|c [|d [|x [|y [|? ?]]]]] eqn:Es; try done.
  all: rewrite ?andb_true_iff, ?orb_true_iff in E.
  - destruct E as [->%N.eqb_eq Hc]. exists c, 58. split_and!; [|done|by left]. apply utf8_drive; [done..|].
    rewrite <-Hr, percent_decode_cons; [done|]. by intros ->.
  - destruct E as [[[->%N.eqb_eq ->%N.eqb_eq] Hy] Hc]. exists c, 58. split_and!; [|done|by left].
    apply utf8_drive; [done..|]. rewrite <-Hr, percent_decode_cons by (by intros ->).
    by destruct Hy as [->%N.eqb_eq| ->%N.eqb_eq].
Qed.
Next Obligation. by eexists. Qed.
Next Obligation. done. Qed.
Next Obligation. apply decode_slash. Qed.
Next Obligation. done. Qed.
Next Obligation. induction 1 as [|c s [_ Hc] _ IH]; [done|]. rewrite percent_decode_cons by done. f_equal. exact IH. Qed.
Next Obligation. done. Qed.
