(* ===== verification/ConfigPaths.v ===== *)
(** Path texts of configurations and of the app-server API:
    [utils/path-uri/src/config_path.rs] and [api_path_string.rs]. *)

From S2P Require Import Prelude Utf8 AbsolutePath PathUris.
#[local] Opaque str.

Inductive LegacyAppPathStringError :=
| OpaqueFallback (path : rstr)
| IncompatibleConvention (path : rstr) (convention : PathConvention)
| InvalidNativePath (path : rstr) (convention : option PathConvention)
| MissingBaseConvention (cwd : rstr)
| MissingHomeDirectory (path : rstr)
| MismatchedConvention (path : rstr) (path_convention : PathConvention) (cwd : rstr) (convention : PathConvention)
| UnsupportedConfigPath (path : rstr) (convention : PathConvention)
| InvalidPathUri (error : PathUriParseError).

Definition contains_glob_metacharacter (path : rstr) : bool :=
  existsb (λ c, bool_decide (c ∈ [42; 63; 91; 93; 123; 125]%N)) path.

(** The colons after the drive of the first segment *)
Definition has_windows_component_colon (native_input : rstr) : bool :=
  match path_segments Windows native_input with
  | [] => false
  | segment :: segments =>
      let segment := match segment with
                     | drive :: colon :: rest =>
                         if is_ascii_alphabetic drive && (colon =? 58)%N then rest else segment
                     | _ => segment
                     end in
      contains_char 58%N segment || existsb (contains_char 58%N) segments
  end.
Definition mixed_home_separators (input : rstr) : bool :=
  match home_relative_suffix Windows input with
  | Some suffix =>
      starts_with suffix [47%N] && starts_with (trim_start_by (λ c, (c =? 47)%N) suffix) [92%N]
      || starts_with suffix [92%N] && starts_with (trim_start_by (λ c, (c =? 92)%N) suffix) [47%N]
  | None => false
  end.
Definition bare_windows_drive (native_input : rstr) : bool :=
  match native_input with [drive; colon] => (colon =? 58)%N && is_ascii_alphabetic drive | _ => false end.
Definition validate_config_path_text (input : rstr) (convention : PathConvention)
    : result LegacyAppPathStringError unit :=
  let native_input := default input (normalize_windows_device_path input) in
  let windows := bool_decide (convention = Windows) in
  if contains_char 0%N input || windows && has_windows_component_colon native_input
     || windows && mixed_home_separators input || windows && bare_windows_drive native_input
  then Err (UnsupportedConfigPath input convention) else Ok ().

(** The convention of an absolute path, from its spelling *)
Definition infer_absolute_path_convention (path : rstr) : option PathConvention :=
  if is_windows_drive_absolute_path path || starts_with path (str "\\") then Some Windows
  else if starts_with path [47%N] then Some Posix
  else None.

Section config_paths.
Context `{FileUrls}.
Implicit Types (u home base cwd : Url).

Definition uri_error {A} (r : result PathUriParseError A) : result LegacyAppPathStringError A :=
  map_err InvalidPathUri r.

Definition to_path_uri (path : rstr) (convention : PathConvention) : result LegacyAppPathStringError Url :=
  ok_or (from_absolute_native_path path convention) (InvalidNativePath path (Some convention)).
(** [TryFrom<LegacyAppPathString> for PathUri] *)
Definition to_inferred_path_uri (path : rstr) : result LegacyAppPathStringError Url :=
  match infer_absolute_path_convention path with
  | None => Err (InvalidNativePath path None)
  | Some convention => to_path_uri path convention
  end.
(** [LegacyAppPathString::from_path_uri]; a fallback URI and a URI of the other
    convention fail in different ways. *)
Definition render_path_uri u (convention : PathConvention) : result LegacyAppPathStringError rstr :=
  ok_or (from_path_uri u convention)
    (if is_opaque u then OpaqueFallback (url_as_str u) else IncompatibleConvention (url_as_str u) convention).
Definition render_for_ui (path : rstr) : rstr :=
  match to_inferred_path_uri path with Ok u => native_path_string u | Err _ => path end.

(** Separators of a home-relative suffix *)
Definition trim_separators (windows : bool) (suffix : rstr) : rstr :=
  trim_start_by (λ c, (c =? 47)%N || windows && (c =? 92)%N) suffix.
Definition resolve_against (path : rstr) cwd (user_home_dir : option Url) : result LegacyAppPathStringError Url :=
  convention ← ok_or (uri_convention cwd) (MissingBaseConvention (url_as_str cwd));
  let is_windows := bool_decide (convention = Windows) in
  match home_relative_suffix convention path with
  | Some suffix =>
      home ← ok_or user_home_dir (MissingHomeDirectory path);
      uri_error (uri_join_path home (trim_separators is_windows suffix))
  | None =>
      if is_windows && (starts_with path (str "//") || starts_with path (str "\\")) then to_path_uri path Windows
      else match infer_absolute_path_convention path with
           | Some path_convention =>
               if bool_decide (path_convention = convention) then to_path_uri path convention
               else if bool_decide (path_convention = Posix) && is_windows then uri_error (uri_join_path cwd path)
               else Err (MismatchedConvention path path_convention (url_as_str cwd) convention)
           | None => uri_error (uri_join_path cwd path)
           end
  end.

(** ** Configuration paths *)

Definition validate_config_path u (convention : PathConvention) : result LegacyAppPathStringError unit :=
  if negb (bool_decide (uri_convention u = Some convention))
  then Err (IncompatibleConvention (url_as_str u) convention)
  else
    let bytes := decode_binary (url_path u) in
    if bool_decide (uri_lexical_depth u = None) || bool_decide (0%N ∈ bytes)
       || match from_utf8 bytes with Ok _ => false | Err _ => true end
    then Err (InvalidPathUri (InvalidFileUriPath (url_as_str u)))
    else rendered ← render_path_uri u convention; validate_config_path_text rendered convention.
Definition validate_glob_directory u (convention : PathConvention) : result LegacyAppPathStringError unit :=
  _ ← validate_config_path u convention;
  path ← render_path_uri u convention;
  if contains_glob_metacharacter path || bool_decide (convention = Posix) && contains_char 92%N path
  then Err (UnsupportedConfigPath path convention) else Ok ().

(** A directory that a relative pattern is resolved against *)
Definition validate_base base (input : rstr) (convention : PathConvention) : result LegacyAppPathStringError unit :=
  _ ← validate_config_path base convention;
  if contains_glob_metacharacter input then validate_glob_directory base convention else Ok ().
Definition resolve_config_path_uri (input : rstr) (convention : PathConvention) (base user_home_dir : option Url)
    : result LegacyAppPathStringError Url :=
  _ ← validate_config_path_text input convention;
  resolved ←
    match home_relative_suffix convention input with
    | Some _ =>
        home ← ok_or user_home_dir (MissingHomeDirectory input);
        _ ← validate_base home input convention;
        resolve_against input home (Some home)
    | None =>
        match to_path_uri input convention with
        | Ok absolute => Ok absolute
        | Err error =>
            base ← ok_or base error;
            _ ← validate_base base input convention;
            resolve_against input base None
        end
    end;
  _ ← validate_config_path resolved convention;
  uri_error (uri_join_path resolved (str ".")).
Definition to_config_path_string u (convention : PathConvention) : result LegacyAppPathStringError rstr :=
  rendered ← render_path_uri u convention;
  Ok (if bool_decide (host_str u ≠ None) && bool_decide (uri_parent_of u = None) then rendered ++ [92%N] else rendered).
Definition resolve_config_path (input : rstr) (convention : PathConvention) (base user_home_dir : option Url)
    : result LegacyAppPathStringError rstr :=
  u ← resolve_config_path_uri input convention base user_home_dir; to_config_path_string u convention.
End config_paths.
