(* ===== verification/FsPolicy.v ===== *)
(** File-system permissions: [protocol/src/permissions.rs] with
    [permissions/target.rs] and [permissions/deny_read_validator.rs], for the
    paths of an executor.

    Globs are those of the crate [globset]: an interface. The operations on paths
    of this host are in [FsHost.v]. *)

From S2P Require Import Prelude Utf8 PathUris ConfigPaths.
#[local] Opaque str.

(** ** Data *)

Inductive FileSystemAccessMode := AccessRead | AccessWrite | AccessDeny.
#[global] Instance FileSystemAccessMode_eq_dec : EqDecision FileSystemAccessMode.
Proof. solve_decision. Defined.
Definition can_read (m : FileSystemAccessMode) : bool := negb (bool_decide (m = AccessDeny)).
Definition can_write (m : FileSystemAccessMode) : bool := bool_decide (m = AccessWrite).
(** The derived order is that of precedence, not of capability. *)
Definition access_rank (m : FileSystemAccessMode) : nat :=
  match m with AccessRead => 0 | AccessWrite => 1 | AccessDeny => 2 end.

Inductive FileSystemSpecialPath :=
| SpecialRoot
| SpecialMinimal
| ProjectRoots (subpath : option rstr)
| Tmpdir
| SlashTmp
| SpecialUnknown (path : rstr) (subpath : option rstr).
#[global] Instance FileSystemSpecialPath_eq_dec : EqDecision FileSystemSpecialPath.
Proof. solve_decision. Defined.

Inductive FileSystemSandboxEntryMissingPathBehavior := SkipMissing.
#[global] Instance MissingPathBehavior_eq_dec : EqDecision FileSystemSandboxEntryMissingPathBehavior.
Proof. solve_decision. Defined.
Inductive FileSystemSandboxKind := Restricted | Unrestricted | ExternalSandbox.
#[global] Instance FileSystemSandboxKind_eq_dec : EqDecision FileSystemSandboxKind.
Proof. solve_decision. Defined.
Inductive NetworkSandboxPolicy := NetRestricted | NetEnabled.
#[global] Instance NetworkSandboxPolicy_eq_dec : EqDecision NetworkSandboxPolicy.
Proof. solve_decision. Defined.

Definition PROTECTED_METADATA_PATH_NAMES : list rstr := [str ".git"; str ".agents"; str ".codex"].
Definition is_protected_metadata_name (name : rstr) : bool := bool_decide (name ∈ PROTECTED_METADATA_PATH_NAMES).
Definition PROJECT_ROOTS_GLOB_PATTERN_PREFIX : rstr := str "codex-project-roots://".
Definition project_roots_glob_pattern (subpath : rstr) : rstr := PROJECT_ROOTS_GLOB_PATTERN_PREFIX ++ subpath.

(** [build_glob_matcher]: the pattern, whether it is one of Windows, and the bytes
    of a path *)
Class GlobTools := {
  GlobMatcher : Type;
  glob_build : rstr → PathConvention → option GlobMatcher;
  glob_is_match : GlobMatcher → list N → bool;
}.

(** [Iterator::max_by_key]: the last of the greatest elements *)
Definition max_by_key {A} (le : A → A → bool) (l : list A) : option A :=
  foldl (λ best x, match best with
                   | None => Some x
                   | Some b => if le b x then Some x else Some b
                   end) None l.

Section policies.
Context `{FileUrls}.
Implicit Types (u path root : Url).

Inductive FileSystemPath :=
| FsPath (path : Url)
| GlobPattern (pattern : rstr)
| SpecialPath (value : FileSystemSpecialPath).
Record FileSystemSandboxEntry := mkFsEntry {
  entry_path : FileSystemPath;
  entry_access : FileSystemAccessMode;
  missing_path_behavior : option FileSystemSandboxEntryMissingPathBehavior;
}.
Definition new_entry (path : FileSystemPath) (access : FileSystemAccessMode) : FileSystemSandboxEntry :=
  mkFsEntry path access None.
Definition skip_missing_path (path : FileSystemPath) (access : FileSystemAccessMode) : FileSystemSandboxEntry :=
  mkFsEntry path access (Some SkipMissing).
Definition skips_missing_path (e : FileSystemSandboxEntry) : bool :=
  bool_decide (missing_path_behavior e = Some SkipMissing).

(** [PartialEq] of paths and entries, which is that of [PathUri] *)
Definition fs_path_eqb (p q : FileSystemPath) : bool :=
  match p, q with
  | FsPath u, FsPath v => uri_eqb u v
  | GlobPattern a, GlobPattern b => str_eqb a b
  | SpecialPath a, SpecialPath b => bool_decide (a = b)
  | _, _ => false
  end.
Definition entry_eqb (a b : FileSystemSandboxEntry) : bool :=
  fs_path_eqb (entry_path a) (entry_path b) && bool_decide (entry_access a = entry_access b)
  && bool_decide (missing_path_behavior a = missing_path_behavior b).
Definition contains_entry (entries : list FileSystemSandboxEntry) (e : FileSystemSandboxEntry) : bool :=
  existsb (λ x, entry_eqb x e) entries.

Record FileSystemSandboxPolicy := mkFsPolicy {
  fs_kind : FileSystemSandboxKind;
  glob_scan_max_depth : option nat;
  fs_entries : list FileSystemSandboxEntry;
}.
Definition fs_unrestricted : FileSystemSandboxPolicy := mkFsPolicy Unrestricted None [].
Definition fs_external_sandbox : FileSystemSandboxPolicy := mkFsPolicy ExternalSandbox None [].
Definition fs_restricted (entries : list FileSystemSandboxEntry) : FileSystemSandboxPolicy :=
  mkFsPolicy Restricted None entries.
Definition read_only_file_system_entries : list FileSystemSandboxEntry :=
  [new_entry (SpecialPath SpecialRoot) AccessRead].
Definition fs_read_only : FileSystemSandboxPolicy := fs_restricted read_only_file_system_entries.
Definition remove_skip_missing_path_entries (p : FileSystemSandboxPolicy) : FileSystemSandboxPolicy :=
  mkFsPolicy (fs_kind p) (glob_scan_max_depth p) (filter (λ e, skips_missing_path e = false) (fs_entries p)).

Record FileSystemSandboxPolicyContext := mkFsContext {
  ctx_cwd : Url;
  ctx_workspace_roots : list Url;
  ctx_user_home_dir : option Url;
  ctx_temporary_directories : option (list Url);
}.
Implicit Types (p : FileSystemSandboxPolicy) (context : FileSystemSandboxPolicyContext).

(** ** Whole-disk access *)

Definition is_restricted p : bool := bool_decide (fs_kind p = Restricted).
Definition is_root_entry (e : FileSystemSandboxEntry) : bool :=
  match entry_path e with SpecialPath SpecialRoot => true | _ => false end.
Definition has_root_access (predicate : FileSystemAccessMode → bool) p : bool :=
  is_restricted p && existsb (λ e, is_root_entry e && predicate (entry_access e)) (fs_entries p).

(** On Unix, where [/tmp] is a path like the others *)
Definition has_denied_read_restrictions p : bool :=
  is_restricted p && existsb (λ e, bool_decide (entry_access e = AccessDeny)) (fs_entries p).

Definition special_paths_share_target (lhs rhs : FileSystemSpecialPath) : bool :=
  match lhs, rhs with
  | SpecialRoot, SpecialRoot | SpecialMinimal, SpecialMinimal | Tmpdir, Tmpdir | SlashTmp, SlashTmp => true
  | ProjectRoots lhs, ProjectRoots rhs => bool_decide (lhs = rhs)
  | SpecialUnknown lhs lhs_subpath, SpecialUnknown rhs rhs_subpath =>
      str_eqb lhs rhs && bool_decide (lhs_subpath = rhs_subpath)
  | _, _ => false
  end.
Definition special_path_matches_path_uri (value : FileSystemSpecialPath) path : bool :=
  match value with
  | SpecialRoot => bool_decide (uri_lexical_depth path ≠ None) && bool_decide (uri_parent_of path = None)
  | SlashTmp =>
      bool_decide (uri_convention path = Some Posix) && bool_decide (uri_lexical_depth path = Some 1)
      && bool_decide (uri_basename path = Some (str "tmp"))
  | _ => false
  end.
Definition file_system_paths_share_target (lhs rhs : FileSystemPath) (convention : PathConvention) : bool :=
  match lhs, rhs with
  | FsPath lhs, FsPath rhs => uri_eqb lhs rhs
  | SpecialPath lhs, SpecialPath rhs => special_paths_share_target lhs rhs
  | FsPath path, SpecialPath value | SpecialPath value, FsPath path =>
      bool_decide (uri_convention path = Some convention) && special_path_matches_path_uri value path
  | GlobPattern lhs, GlobPattern rhs => str_eqb lhs rhs
  | GlobPattern _, _ | _, GlobPattern _ => false
  end.

Definition has_same_target_write_override p (e : FileSystemSandboxEntry) (convention : PathConvention) : bool :=
  existsb (λ candidate,
    can_write (entry_access candidate) && (access_rank (entry_access e) <? access_rank (entry_access candidate))
    && file_system_paths_share_target (entry_path candidate) (entry_path e) convention) (fs_entries p).
Definition narrows_write p (convention : PathConvention) (e : FileSystemSandboxEntry) : bool :=
  if can_write (entry_access e) then false
  else match entry_path e with
       | FsPath _ => negb (has_same_target_write_override p e convention)
       | GlobPattern _ => true
       | SpecialPath SpecialRoot => bool_decide (entry_access e = AccessDeny)
       | SpecialPath SlashTmp =>
           if bool_decide (convention = Windows) then false else negb (has_same_target_write_override p e convention)
       | SpecialPath (SpecialMinimal | SpecialUnknown _ _) => false
       | SpecialPath (ProjectRoots _ | Tmpdir) => negb (has_same_target_write_override p e convention)
       end.
Definition has_write_narrowing_entries p (convention : PathConvention) : bool :=
  is_restricted p && existsb (narrows_write p convention) (fs_entries p).

Definition has_full_disk_read_access p : bool :=
  match fs_kind p with
  | Unrestricted | ExternalSandbox => true
  | Restricted => has_root_access can_read p && negb (has_denied_read_restrictions p)
  end.
Definition has_full_disk_write_access_for_convention p (convention : option PathConvention) : bool :=
  match fs_kind p with
  | Unrestricted | ExternalSandbox => true
  | Restricted =>
      match convention with
      | Some convention => has_root_access can_write p && negb (has_write_narrowing_entries p convention)
      | None => false
      end
  end.
(** [PathConvention::native()] of a Unix host *)
Definition has_full_disk_write_access p : bool := has_full_disk_write_access_for_convention p (Some Posix).
Definition has_full_disk_write_access_with_context p context : bool :=
  has_full_disk_write_access_for_convention p (uri_convention (ctx_cwd context)).
Definition include_platform_defaults p : bool :=
  negb (has_full_disk_read_access p) && is_restricted p
  && existsb (λ e, match entry_path e with SpecialPath SpecialMinimal => can_read (entry_access e) | _ => false end)
       (fs_entries p).

(** ** Resolution *)

Definition file_system_root context : option Url :=
  _ ← uri_lexical_depth (ctx_cwd context); last (uri_ancestors (ctx_cwd context)).
Definition entry_paths context (e : FileSystemSandboxEntry) : list Url :=
  match entry_path e with
  | FsPath path => [path]
  | GlobPattern _ => []
  | SpecialPath SpecialRoot => option_list (file_system_root context)
  | SpecialPath (ProjectRoots subpath) =>
      omap (λ root, match subpath with
                    | Some subpath => result_ok (uri_join_path root subpath)
                    | None => Some root
                    end) (ctx_workspace_roots context)
  | SpecialPath Tmpdir => default [] (ctx_temporary_directories context)
  | SpecialPath SlashTmp =>
      if bool_decide (uri_convention (ctx_cwd context) = Some Posix)
      then option_list (result_ok (uri_join_path (ctx_cwd context) (str "/tmp"))) else []
  | SpecialPath (SpecialMinimal | SpecialUnknown _ _) => []
  end.
Definition resolved_entries p context : list (Url * FileSystemAccessMode) :=
  fs_entries p ≫= λ e,
    (λ path, (path, entry_access e)) <$>
      filter (λ path, uri_convention path = uri_convention (ctx_cwd context)) (entry_paths context e).

(** The fold over the resolved entries: opaque paths are left out, ambiguous ones
    deny everything. *)
Definition lexical_entry (e : Url * FileSystemAccessMode) : option (option (Url * FileSystemAccessMode * nat)) :=
  match uri_lexical_depth e.1 with
  | Some depth => Some (Some (e, depth))
  | None => if is_opaque e.1 then Some None else None
  end.
Definition lexical_entries (entries : list (Url * FileSystemAccessMode))
    : option (list (Url * FileSystemAccessMode * nat)) :=
  omap id <$> mapM lexical_entry entries.
Definition precedes (a b : Url * FileSystemAccessMode * nat) : bool :=
  (a.2 <? b.2) || (a.2 =? b.2) && (access_rank a.1.2 <=? access_rank b.1.2).
(** Whether the path and the working directory can be compared at all *)
Definition comparable_path path context : bool :=
  bool_decide (uri_convention (ctx_cwd context) ≠ None)
  && bool_decide (uri_convention path = uri_convention (ctx_cwd context))
  && bool_decide (uri_lexical_depth path ≠ None) && bool_decide (uri_lexical_depth (ctx_cwd context) ≠ None).
Definition resolve_access p path context : FileSystemAccessMode :=
  match fs_kind p with
  | Unrestricted | ExternalSandbox => AccessWrite
  | Restricted =>
      if negb (comparable_path path context) then AccessDeny
      else match lexical_entries (resolved_entries p context) with
           | None => AccessDeny
           | Some entries =>
               default AccessDeny
                 ((λ e, e.1.2) <$> max_by_key precedes (filter (λ e, uri_starts_with path e.1.1 = true) entries))
           end
  end.
Definition can_read_path p path context : bool := can_read (resolve_access p path context).

(** The first protected directory that contains the path, for one root *)
Fixpoint protected_directory root path (names : list rstr) : option (Url * rstr) :=
  match names with
  | [] => None
  | name :: names =>
      match result_ok (join_descendant root name) with
      | Some protected => if uri_starts_with path protected then Some (protected, name)
                          else protected_directory root path names
      | None => protected_directory root path names
      end
  end.
Definition metadata_write_denial p path context : option rstr :=
  if negb (is_restricted p) then None
  else
    let entries := resolved_entries p context in
    '(protected, metadata_name) ←
      head (omap (λ e : Url * FileSystemAccessMode, protected_directory e.1 path PROTECTED_METADATA_PATH_NAMES)
              (filter (λ e, can_write e.2 = true) entries));
    if existsb (λ e : Url * FileSystemAccessMode,
                  can_write e.2 && uri_starts_with path e.1 && uri_starts_with e.1 protected) entries
    then None else Some metadata_name.
Definition can_write_path p path context : bool :=
  if negb (can_write (resolve_access p path context)) then false
  else has_full_disk_write_access_with_context p context
       || bool_decide (metadata_write_denial p path context = None).
Definition has_configured_writable_roots p context : bool :=
  negb (has_full_disk_write_access_with_context p context)
  && existsb (λ e : Url * FileSystemAccessMode, can_write e.2 && can_write_path p e.1 context)
       (resolved_entries p context).

(** ** Changing policies *)

(** Entries that are not there yet, in order *)
Definition push_missing (entries : list FileSystemSandboxEntry) (e : FileSystemSandboxEntry)
    : list FileSystemSandboxEntry :=
  if contains_entry entries e then entries else entries ++ [e].
Definition deny_entries p : list FileSystemSandboxEntry := filter (λ e, entry_access e = AccessDeny) (fs_entries p).
Definition preserve_deny_read_restrictions_from p (existing : FileSystemSandboxPolicy) : FileSystemSandboxPolicy :=
  let has_deny_read_entries := existsb (λ e, bool_decide (entry_access e = AccessDeny)) (fs_entries existing) in
  let p := if bool_decide (fs_kind p = Unrestricted) && has_deny_read_entries
           then fs_restricted [new_entry (SpecialPath SpecialRoot) AccessWrite] else p in
  if negb (is_restricted p) then p
  else mkFsPolicy (fs_kind p)
         (match glob_scan_max_depth p with None => glob_scan_max_depth existing | Some depth => Some depth end)
         (foldl push_missing (fs_entries p) (deny_entries existing)).

Definition resolve_scoped_workspace_path root (subpath : rstr) : option Url :=
  convention ← uri_convention root;
  let windows := bool_decide (convention = Windows) in
  if starts_with subpath [47%N] || windows && starts_with subpath [92%N]
     || existsb is_dot_segment (path_segments convention subpath)
     || windows && existsb (contains_char 58%N) (path_segments convention subpath)
  then None
  else path ← result_ok (uri_join_path root subpath);
       if uri_starts_with path root then Some path else None.

(** The subpath of a workspace entry, and whether it is a pattern *)
Definition workspace_subpath (path : FileSystemPath) : option (option rstr * bool) :=
  match path with
  | SpecialPath (ProjectRoots subpath) => Some (subpath, false)
  | GlobPattern pattern =>
      match strip_prefix PROJECT_ROOTS_GLOB_PATTERN_PREFIX pattern with
      | Some subpath => Some (Some subpath, true)
      | None => None
      end
  | _ => None
  end.
Definition is_home_relative_for (workspace_roots : list Url) (subpath : rstr) : bool :=
  existsb (λ root, match uri_convention root with
                   | Some convention => bool_decide (home_relative_suffix convention subpath ≠ None)
                   | None => false
                   end) workspace_roots.
Definition unsafe_glob_directory root : bool :=
  match uri_convention root with
  | None => true
  | Some convention => match validate_glob_directory root convention with Ok _ => false | Err _ => true end
  end.
Definition materialize_entry (e : FileSystemSandboxEntry) (subpath : option rstr) (is_glob : bool) root
    : option FileSystemSandboxEntry :=
  let path := if is_glob && unsafe_glob_directory root then None
              else match subpath with
                   | None => Some root
                   | Some subpath => resolve_scoped_workspace_path root subpath
                   end in
  match path with
  | Some path =>
      Some (mkFsEntry (if is_glob then GlobPattern (native_path_string path) else FsPath path) (entry_access e)
              (missing_path_behavior e))
  | None => if can_write (entry_access e) then None
            else Some (mkFsEntry (FsPath root) AccessDeny (missing_path_behavior e))
  end.
(** The entries of one, or [None] when a denial cannot be kept *)
Definition materialized_entries (workspace_roots : list Url) (e : FileSystemSandboxEntry)
    : option (list FileSystemSandboxEntry) :=
  match workspace_subpath (entry_path e) with
  | None => Some [e]
  | Some (subpath, is_glob) =>
      if bool_decide (entry_access e = AccessDeny)
         && match subpath with Some subpath => is_home_relative_for workspace_roots subpath | None => false end
      then None
      else Some (omap (materialize_entry e subpath is_glob) workspace_roots)
  end.
Definition try_materialize_project_roots_with_path_uris p (workspace_roots : list Url)
    : option FileSystemSandboxPolicy :=
  entries ← mapM (materialized_entries workspace_roots) (fs_entries p);
  Some (mkFsPolicy (fs_kind p) (glob_scan_max_depth p) (concat entries)).
Definition materialize_project_roots_with_path_uris p (workspace_roots : list Url) : FileSystemSandboxPolicy :=
  default (fs_restricted []) (try_materialize_project_roots_with_path_uris p workspace_roots).
Definition with_materialized_project_roots_for_path_uris p (roots : list Url) : FileSystemSandboxPolicy :=
  match try_materialize_project_roots_with_path_uris p roots with
  | None => fs_restricted []
  | Some materialized =>
      mkFsPolicy (fs_kind p) (glob_scan_max_depth p) (foldl push_missing (fs_entries p) (fs_entries materialized))
  end.

(** ** Deny-read rules *)

Inductive DenyReadError :=
| MissingHome (pattern : rstr)
| BadGlobDirectory (error : LegacyAppPathStringError)
| UnresolvedGlob (pattern : rstr)
| InvalidGlob (pattern : rstr)
| UnsafePath
| TemporaryDirectoriesUnavailable
| UnsafeTemporaryDirectory
| InvalidCwd.
Inductive InvalidDenyReadGlobBehavior := FailClosed | ReturnError.

Definition deny_read_glob context (pattern : rstr) : result DenyReadError rstr :=
  let is_windows := bool_decide (uri_convention (ctx_cwd context) = Some Windows) in
  let convention := if is_windows then Windows else Posix in
  let home_relative :=
    match strip_prefix (str "~/") pattern with
    | Some suffix => Some suffix
    | None => if is_windows then strip_prefix (str "~\") pattern else None
    end in
  '(root, pattern) ← match home_relative with
                     | Some suffix =>
                         home ← ok_or (ctx_user_home_dir context) (MissingHome pattern);
                         Ok (home, trim_separators is_windows suffix)
                     | None => Ok (ctx_cwd context, pattern)
                     end;
  _ ← match to_path_uri pattern convention with
      | Ok _ => Ok ()
      | Err _ => map_err BadGlobDirectory (validate_glob_directory root convention)
      end;
  map_err (λ _, UnresolvedGlob pattern) (fmap native_path_string (uri_join_path root pattern)).
Definition deny_read_patterns p : list rstr :=
  omap (λ e, match entry_path e with GlobPattern pattern => Some pattern | _ => None end) (deny_entries p).
Fixpoint collect_results {E A} (l : list (result E A)) : result E (list A) :=
  match l with [] => Ok [] | r :: l => x ← r; xs ← collect_results l; Ok (x :: xs) end.
Definition deny_read_globs p context : result DenyReadError (list rstr) :=
  collect_results (deny_read_glob context <$> deny_read_patterns p).

Section matchers.
Context `{GlobTools}.

Definition build_glob_matcher (pattern : rstr) (convention : PathConvention) : option GlobMatcher :=
  glob_build (match convention with Windows => replace_char 92%N 47%N pattern | Posix => pattern end) convention.

Record PreparedReadDenyMatcher := mkPrepared {
  denied_roots : list Url;
  deny_read_matchers : list GlobMatcher;
  invalid_pattern : bool;
}.
Fixpoint build_matchers (behavior : InvalidDenyReadGlobBehavior) (convention : PathConvention) (patterns : list rstr)
    : result DenyReadError (list GlobMatcher * bool) :=
  match patterns with
  | [] => Ok ([], false)
  | pattern :: patterns =>
      match build_glob_matcher pattern convention, behavior with
      | None, ReturnError => Err (InvalidGlob pattern)
      | None, FailClosed =>
          '(matchers, _) ← build_matchers behavior convention patterns; Ok (matchers, true)
      | Some matcher, _ =>
          '(matchers, invalid) ← build_matchers behavior convention patterns; Ok (matcher :: matchers, invalid)
      end
  end.
Definition is_file_system_root context root : bool :=
  match file_system_root context with
  | Some file_system_root => uri_starts_with root file_system_root && uri_starts_with file_system_root root
  | None => false
  end.
Definition resolved_denied_roots p context : list Url :=
  omap (λ e : Url * FileSystemAccessMode,
          if bool_decide (e.2 = AccessDeny) && negb (is_file_system_root context e.1) then Some e.1 else None)
    (resolved_entries p context).
Definition prepare_deny_read_matcher p context (behavior : InvalidDenyReadGlobBehavior)
    : result DenyReadError PreparedReadDenyMatcher :=
  let roots := resolved_denied_roots p context in
  match uri_convention (ctx_cwd context) with
  | None => Ok (mkPrepared roots [] true)
  | Some convention =>
      match deny_read_globs p context, behavior with
      | Err _, FailClosed => Ok (mkPrepared roots [] true)
      | Err error, ReturnError => Err error
      | Ok patterns, _ =>
          '(matchers, invalid) ← build_matchers behavior convention patterns;
          Ok (mkPrepared roots matchers invalid)
      end
  end.
Definition glob_candidate path (convention : PathConvention) : list N :=
  match convention with
  | Posix => decode_binary (url_path path)
  | Windows => utf8 (replace_char 92%N 47%N (native_path_string path))
  end.
Definition matches_prepared_read_deny path context (prepared : PreparedReadDenyMatcher) : bool :=
  match uri_convention (ctx_cwd context) with
  | None => true
  | Some convention =>
      negb (comparable_path path context) || invalid_pattern prepared
      || existsb (uri_starts_with path) (denied_roots prepared)
      || existsb (λ matcher, glob_is_match matcher (glob_candidate path convention)) (deny_read_matchers prepared)
  end.
(** [ReadDenyMatcher::from_context] *)
Definition read_deny_matcher_from_context p context : option PreparedReadDenyMatcher :=
  if existsb (λ e, bool_decide (entry_access e = AccessDeny)) (fs_entries p)
  then result_ok (prepare_deny_read_matcher p context FailClosed) else None.

(** *** Required denials *)

Definition has_context_read_denials p context : bool :=
  is_restricted p
  && existsb (λ e, bool_decide (entry_access e = AccessDeny)
                   && negb match entry_path e with
                           | SpecialPath SlashTmp => negb (bool_decide (uri_convention (ctx_cwd context) = Some Posix))
                           | _ => false
                           end) (fs_entries p).
Record DenyReadValidator := mkValidator {
  required_entries : list FileSystemSandboxEntry;
  validator_matcher : option PreparedReadDenyMatcher;
}.
Inductive DenyReadViolation := MissingRequiredDeny | ReadablePath (path : Url).
Definition validator_new (required : FileSystemSandboxPolicy) context : result DenyReadError DenyReadValidator :=
  if has_context_read_denials required context
  then matcher ← prepare_deny_read_matcher required context ReturnError;
       Ok (mkValidator (fs_entries required) (Some matcher))
  else Ok (mkValidator (fs_entries required) None).
Definition violating_path (v : DenyReadValidator) context (e : FileSystemSandboxEntry) : option Url :=
  if negb (can_read (entry_access e)) then None
  else match entry_path e with
       | FsPath path =>
           if negb (bool_decide (uri_convention path = uri_convention (ctx_cwd context))) then None
           else match validator_matcher v with
                | Some matcher => if matches_prepared_read_deny path context matcher then Some path else None
                | None => None
                end
       | _ => None
       end.
Definition validate (v : DenyReadValidator) (selected : FileSystemSandboxPolicy) context
    : result DenyReadViolation unit :=
  match head (omap (violating_path v context) (fs_entries selected)) with
  | Some path => Err (ReadablePath path)
  | None => if existsb (λ e, negb (contains_entry (fs_entries selected) e)) (required_entries v)
            then Err MissingRequiredDeny else Ok ()
  end.
Inductive ManagedDenyError := Unprepared (error : DenyReadError) | Shadowed.
Definition validate_managed_deny_read (selected required : FileSystemSandboxPolicy) context
    : result ManagedDenyError unit :=
  v ← map_err Unprepared (validator_new required context);
  map_err (λ _, Shadowed) (validate v selected context).

Definition valid_path (convention : PathConvention) path : bool :=
  bool_decide (uri_convention path = Some convention) && bool_decide (uri_lexical_depth path ≠ None).
Definition validate_context_entry context (convention : PathConvention) (e : FileSystemSandboxEntry)
    : result DenyReadError unit :=
  match entry_path e with
  | FsPath path => if valid_path convention path then Ok () else Err UnsafePath
  | SpecialPath Tmpdir =>
      directories ← ok_or (ctx_temporary_directories context) TemporaryDirectoriesUnavailable;
      if forallb (valid_path convention) directories then Ok () else Err UnsafeTemporaryDirectory
  | SpecialPath (ProjectRoots (Some subpath)) =>
      if existsb (λ root, match uri_join_path root subpath with Ok _ => false | Err _ => true end)
           (ctx_workspace_roots context)
      then Err UnsafePath else Ok ()
  | GlobPattern pattern =>
      if (starts_with pattern (str "~/") || bool_decide (convention = Windows) && starts_with pattern (str "~\"))
         && negb match ctx_user_home_dir context with Some home => valid_path convention home | None => false end
      then Err UnsafePath else Ok ()
  | _ => Ok ()
  end.
Fixpoint try_for_each {E A} (f : A → result E unit) (l : list A) : result E unit :=
  match l with [] => Ok () | x :: l => _ ← f x; try_for_each f l end.
Definition validate_context_paths p context : result DenyReadError unit :=
  convention ← ok_or (uri_convention (ctx_cwd context)) UnsafePath;
  if negb (valid_path convention (ctx_cwd context))
     || existsb (λ path, negb (valid_path convention path)) (ctx_workspace_roots context)
  then Err UnsafePath
  else try_for_each (validate_context_entry context convention) (fs_entries p).
(** [ReadDenyMatcher::try_new_with_context] *)
Definition read_deny_matcher_try_new p context : result DenyReadError (option PreparedReadDenyMatcher) :=
  if negb (has_context_read_denials p context) then Ok None
  else _ ← validate_context_paths p context;
       prepared ← prepare_deny_read_matcher p context ReturnError; Ok (Some prepared).
End matchers.

(** ** Permission profiles ([protocol/src/models.rs]) *)

Inductive ManagedFileSystemPermissions :=
| ManagedRestricted (entries : list FileSystemSandboxEntry) (glob_depth : option nat)
| ManagedUnrestricted.
Definition to_sandbox_policy (m : ManagedFileSystemPermissions) : FileSystemSandboxPolicy :=
  match m with
  | ManagedRestricted entries glob_depth => mkFsPolicy Restricted glob_depth entries
  | ManagedUnrestricted => fs_unrestricted
  end.
(** [None] is the [unreachable!] of the external sandbox. *)
Definition from_sandbox_policy p : option ManagedFileSystemPermissions :=
  match fs_kind p with
  | Restricted =>
      Some (ManagedRestricted (fs_entries p)
              (match glob_scan_max_depth p with Some (S n) => Some (S n) | _ => None end))
  | Unrestricted => Some ManagedUnrestricted
  | ExternalSandbox => None
  end.

Inductive PermissionProfile :=
| Managed (file_system : ManagedFileSystemPermissions) (network : NetworkSandboxPolicy)
| ProfileDisabled
| ProfileExternal (network : NetworkSandboxPolicy).
Definition file_system_sandbox_policy (profile : PermissionProfile) : FileSystemSandboxPolicy :=
  match profile with
  | Managed file_system _ => to_sandbox_policy file_system
  | ProfileDisabled => fs_unrestricted
  | ProfileExternal _ => fs_external_sandbox
  end.
Definition network_sandbox_policy (profile : PermissionProfile) : NetworkSandboxPolicy :=
  match profile with
  | Managed _ network | ProfileExternal network => network
  | ProfileDisabled => NetEnabled
  end.
Inductive SandboxEnforcement := EnforcementManaged | EnforcementDisabled | EnforcementExternal.
#[global] Instance SandboxEnforcement_eq_dec : EqDecision SandboxEnforcement.
Proof. solve_decision. Defined.
Definition enforcement (profile : PermissionProfile) : SandboxEnforcement :=
  match profile with
  | Managed _ _ => EnforcementManaged
  | ProfileDisabled => EnforcementDisabled
  | ProfileExternal _ => EnforcementExternal
  end.
Definition from_runtime_permissions_with_enforcement (enforcement : SandboxEnforcement) p
    (network : NetworkSandboxPolicy) : option PermissionProfile :=
  match fs_kind p with
  | ExternalSandbox => Some (ProfileExternal network)
  | Unrestricted =>
      if bool_decide (enforcement = EnforcementDisabled) then Some ProfileDisabled
      else file_system ← from_sandbox_policy p; Some (Managed file_system network)
  | Restricted => file_system ← from_sandbox_policy p; Some (Managed file_system network)
  end.
Definition from_runtime_permissions p (network : NetworkSandboxPolicy) : option PermissionProfile :=
  let enforcement := match fs_kind p with
                     | Restricted | Unrestricted => EnforcementManaged
                     | ExternalSandbox => EnforcementExternal
                     end in
  from_runtime_permissions_with_enforcement enforcement p network.
Definition read_only_entry (e : FileSystemSandboxEntry) : FileSystemSandboxEntry :=
  mkFsEntry (entry_path e) (match entry_access e with AccessDeny => AccessDeny | _ => AccessRead end)
    (missing_path_behavior e).
(** The outer [option] is [None] for external enforcement; the profile is that of
    [from_runtime_permissions]. *)
Definition intersect_with_read_only (profile : PermissionProfile) : option (option PermissionProfile) :=
  let p := file_system_sandbox_policy profile in
  match fs_kind p with
  | Restricted =>
      Some (from_runtime_permissions
              (mkFsPolicy (fs_kind p) (glob_scan_max_depth p) (read_only_entry <$> fs_entries p)) NetRestricted)
  | Unrestricted => Some (from_runtime_permissions fs_read_only NetRestricted)
  | ExternalSandbox => None
  end.
Definition materialize_profile_roots (profile : PermissionProfile) (workspace_roots : list Url)
    : option PermissionProfile :=
  match profile with
  | Managed file_system network =>
      file_system ← from_sandbox_policy
        (materialize_project_roots_with_path_uris (to_sandbox_policy file_system) workspace_roots);
      Some (Managed file_system network)
  | _ => Some profile
  end.
End policies.
