(* ===== verification/FsPolicyProps.v ===== *)
(** What a file-system policy grants: the most specific entry decides, and whole-disk
    access means what it says. *)

From S2P Require Import Prelude Utf8 PathUris PathUriProps ConfigPaths FsPolicy.
#[local] Opaque str.

(** ** The greatest element *)

Section max_by_key.
Context {A : Type} (le : A → A → bool).
Context (le_total : ∀ x y, le x y = true ∨ le y x = true).
Context (le_trans : ∀ x y z, le x y = true → le y z = true → le x z = true).

Definition max_step (best : option A) (x : A) : option A :=
  match best with None => Some x | Some b => if le b x then Some x else Some b end.
Lemma max_by_key_foldl l : max_by_key le l = foldl max_step None l.
Proof. done. Qed.
Lemma max_step_spec l (b : A) :
  ∃ m, foldl max_step (Some b) l = Some m ∧ m ∈ b :: l ∧ ∀ x, x ∈ b :: l → le x m = true.
Proof.
  revert b. induction l as [|y l IH]; intros b.
  { exists b. split_and!; [done|set_solver|]. intros x ->%list_elem_of_singleton. by destruct (le_total b b). }
  simpl. destruct (le b y) eqn:E.
  - destruct (IH y) as (m & -> & Hin & Hmax). exists m. split_and!; [done|set_solver|].
    intros x [->|Hx]%elem_of_cons; [|by apply Hmax]. eapply le_trans; [done|]. apply Hmax. set_solver.
  - destruct (IH b) as (m & -> & Hin & Hmax). exists m. split_and!; [done|set_solver|].
    intros x [->|[->|Hx]%elem_of_cons]%elem_of_cons; [apply Hmax; set_solver| |apply Hmax; set_solver].
    destruct (le_total b y) as [|Hyb]; [congruence|]. eapply le_trans; [done|]. apply Hmax. set_solver.
Qed.
Lemma max_by_key_Some l m : max_by_key le l = Some m → m ∈ l ∧ ∀ x, x ∈ l → le x m = true.
Proof.
  destruct l as [|b l]; [done|]. rewrite max_by_key_foldl. simpl.
  destruct (max_step_spec l b) as (m' & -> & Hin & Hmax). intros [= <-]. done.
Qed.
Lemma max_by_key_None l : max_by_key le l = None ↔ l = [].
Proof.
  destruct l as [|b l]; [done|]. rewrite max_by_key_foldl. simpl.
  destruct (max_step_spec l b) as (m' & -> & _). done.
Qed.
End max_by_key.

(** The greatest element of a mapped list, for a map that keeps the order *)
Lemma max_by_key_map {A B} (le : A → A → bool) (le' : B → B → bool) (f : A → B) l :
  (∀ x y, le x y = true → le' (f x) (f y) = true) → (∀ x y, le' x y = true ∨ le' y x = true) →
  (∀ x y z, le' x y = true → le' y z = true → le' x z = true) →
  (∀ x y, le x y = true ∨ le y x = true) → (∀ x y z, le x y = true → le y z = true → le x z = true) →
  match max_by_key le l, max_by_key le' (f <$> l) with
  | Some m, Some m' => le' m' (f m) = true ∧ le' (f m) m' = true
  | None, None => True
  | _, _ => False
  end.
Proof.
  intros Hf Htot' Htr' Htot Htr.
  destruct (max_by_key le l) as [m|] eqn:E, (max_by_key le' (f <$> l)) as [m'|] eqn:E'.
  - apply max_by_key_Some in E as [Hin Hmax], E' as [Hin' Hmax']; try done.
    apply list_elem_of_fmap in Hin' as (x & -> & Hx). split; [by apply Hf, Hmax|].
    apply Hmax'. by apply list_elem_of_fmap_2.
  - apply max_by_key_None in E'; [|done..]. apply fmap_nil_inv in E' as ->. done.
  - apply max_by_key_None in E; [|done..]. by subst.
  - done.
Qed.

Section props.
Context `{FileUrls}.
Implicit Types (p : FileSystemSandboxPolicy) (context : FileSystemSandboxPolicyContext) (path root : Url).

Lemma precedes_total a b : precedes a b = true ∨ precedes b a = true.
Proof.
  unfold precedes. rewrite !orb_true_iff, !andb_true_iff, !Nat.ltb_lt, !Nat.eqb_eq, !Nat.leb_le. lia.
Qed.
Lemma precedes_trans a b c : precedes a b = true → precedes b c = true → precedes a c = true.
Proof.
  unfold precedes. rewrite !orb_true_iff, !andb_true_iff, !Nat.ltb_lt, !Nat.eqb_eq, !Nat.leb_le. lia.
Qed.
Lemma access_rank_inj a b : access_rank a = access_rank b → a = b.
Proof. by destruct a, b. Qed.

(** ** The reference *)

(** Every entry is a path whose components are known, or opaque. *)
Definition clear_entries (entries : list (Url * FileSystemAccessMode)) : Prop :=
  Forall (λ e, lexical e.1 ∨ is_opaque e.1 = true) entries.
(** What the entries say of the names of a path, and how specific they are *)
Definition grant_covers (entries : list (Url * FileSystemAccessMode)) (target base : list (list N))
    (m : FileSystemAccessMode) : Prop :=
  base `prefix_of` target ∧ ∃ root, (root, m) ∈ entries ∧ is_opaque root = false ∧ names root = base.
(** The longest prefix decides; at equal length a denial is above a write, and a
    write above a read. A path that nothing covers is denied. *)
Definition governs (entries : list (Url * FileSystemAccessMode)) (target : list (list N)) (m : FileSystemAccessMode)
    : Prop :=
  (∃ base, grant_covers entries target base m ∧
           ∀ base' m', grant_covers entries target base' m' →
             length base' < length base ∨ base' = base ∧ access_rank m' ≤ access_rank m)
  ∨ m = AccessDeny ∧ ∀ base m', ¬ grant_covers entries target base m'.

Lemma lexical_entry_Some (e : Url * FileSystemAccessMode) :
  lexical e.1 ∨ is_opaque e.1 = true →
  lexical_entry e = Some (if is_opaque e.1 then None else Some (e, length (names e.1))).
Proof.
  intros He. unfold lexical_entry. destruct (is_opaque e.1) eqn:Ho.
  - unfold uri_lexical_depth. by rewrite Ho.
  - destruct He as [Hl|]; [|done]. by rewrite (lexical_depth_names _ Hl).
Qed.
Lemma lexical_entries_Some entries :
  clear_entries entries →
  lexical_entries entries
  = Some ((λ e, (e, length (names e.1))) <$> filter (λ e : Url * FileSystemAccessMode, is_opaque e.1 = false) entries).
Proof.
  unfold lexical_entries. induction 1 as [|e entries He Hs IH]; [done|]. simpl.
  rewrite (lexical_entry_Some e He). simpl.
  destruct (mapM lexical_entry entries) as [l|] eqn:E; simpl in IH; [|done]. injection IH as IH. simpl.
  destruct (is_opaque e.1) eqn:Ho.
  - rewrite filter_cons_False by (simpl; congruence). by f_equal.
  - rewrite filter_cons_True by done. simpl. by do 2 f_equal.
Qed.

(** The entries that the code compares *)
Lemma covering_spec entries path root (m : FileSystemAccessMode) depth :
  clear_entries entries → lexical path →
  (root, m, depth) ∈ filter (λ e, uri_starts_with path e.1.1 = true)
                       ((λ e, (e, length (names e.1)))
                          <$> filter (λ e : Url * FileSystemAccessMode, is_opaque e.1 = false) entries)
  ↔ (root, m) ∈ entries ∧ is_opaque root = false ∧ depth = length (names root) ∧ names root `prefix_of` names path.
Proof.
  intros Hc Hp. rewrite list_elem_of_filter. simpl. rewrite list_elem_of_fmap. split.
  - intros [Hs ([root' m'] & [= <- <- ->] & [Ho Hin]%list_elem_of_filter)]. simpl in *.
    assert (lexical root) as Hl.
    { unfold clear_entries in Hc. rewrite Forall_forall in Hc. destruct (Hc _ Hin) as [|Ho']; simpl in *; congruence. }
    split_and!; [done..|]. by apply starts_with_names.
  - intros (Hin & Ho & -> & Hpre).
    assert (lexical root) as Hl.
    { unfold clear_entries in Hc. rewrite Forall_forall in Hc. destruct (Hc _ Hin) as [|Ho']; simpl in *; congruence. }
    split; [by apply starts_with_names|]. exists (root, m). split; [done|]. by apply list_elem_of_filter.
Qed.

Lemma comparable_lexical path context :
  lexical path → lexical (ctx_cwd context) → comparable_path path context = true.
Proof.
  intros [Hp Hd] [Hc Hd']. unfold comparable_path. rewrite Hp, Hc, !bool_decide_eq_true_2 by done. done.
Qed.
Lemma prefix_same_length {A} (a b t : list A) : a `prefix_of` t → b `prefix_of` t → length a = length b → a = b.
Proof.
  intros [k ->] [k' E] Hl. by apply app_inj_1 in E as [-> _].
Qed.

Lemma governs_unique entries target m m' : governs entries target m → governs entries target m' → m = m'.
Proof.
  intros [(b & Hb & Hmax)|[-> Hno]] [(b' & Hb' & Hmax')|[-> Hno']]; [|by destruct (Hno' _ _ Hb)|by destruct (Hno _ _ Hb')|done].
  destruct (Hmax _ _ Hb') as [|[E ?]], (Hmax' _ _ Hb) as [|[E' ?]]; subst; try lia. apply access_rank_inj. lia.
Qed.
Lemma resolve_access_governs p path context :
  fs_kind p = Restricted → lexical path → lexical (ctx_cwd context) → clear_entries (resolved_entries p context) →
  governs (resolved_entries p context) (names path) (resolve_access p path context).
Proof.
  intros Hk Hp Hcwd Hc. unfold resolve_access. rewrite Hk, comparable_lexical by done. simpl.
  rewrite lexical_entries_Some by done.
  destruct (max_by_key precedes _) as [[[root m] depth]|] eqn:E; simpl.
  - apply max_by_key_Some in E as [Hin Hmax]; [|apply precedes_total|apply precedes_trans].
    apply covering_spec in Hin as (Hin & Ho & -> & Hpre); [|done..]. left. exists (names root). split.
    { split; [done|]. by exists root. }
    intros base' m' (Hpre' & root' & Hin' & Ho' & <-).
    specialize (Hmax (root', m', length (names root'))).
    ospecialize (Hmax _); [by apply covering_spec|].
    unfold precedes in Hmax. simpl in Hmax.
    rewrite orb_true_iff, andb_true_iff, Nat.ltb_lt, Nat.eqb_eq, Nat.leb_le in Hmax.
    destruct Hmax as [|[Hl Hr]]; [by left|right]. split; [|done]. by eapply prefix_same_length.
  - apply max_by_key_None in E; [|apply precedes_total|apply precedes_trans]. right. split; [done|].
    intros base m' (Hpre & root & Hin & Ho & <-).
    assert ((root, m', length (names root)) ∈ ([] : list (Url * FileSystemAccessMode * nat))) as Habs.
    { rewrite <-E. by apply covering_spec. }
    set_solver.
Qed.

Lemma comparable_inv path context :
  uri_convention (ctx_cwd context) = Some Posix → comparable_path path context = true →
  lexical path ∧ lexical (ctx_cwd context).
Proof.
  intros Hcwd. unfold comparable_path. rewrite !andb_true_iff, !bool_decide_eq_true. intros [[[_ Hp] Hd] Hd'].
  split; split; congruence.
Qed.
Lemma resolved_entries_convention p context root m :
  (root, m) ∈ resolved_entries p context → uri_convention root = uri_convention (ctx_cwd context).
Proof.
  unfold resolved_entries. intros (e & Hr & _)%list_elem_of_bind.
  by apply list_elem_of_fmap in Hr as (path & [= -> ->] & [? _]%list_elem_of_filter).
Qed.
Lemma lexical_entries_inv p context l :
  uri_convention (ctx_cwd context) = Some Posix → lexical_entries (resolved_entries p context) = Some l →
  clear_entries (resolved_entries p context).
Proof.
  intros Hcwd Hl. unfold lexical_entries in Hl. apply fmap_Some in Hl as (l' & Hl & _).
  apply Forall_forall. intros [root m] Hin. pose proof (resolved_entries_convention _ _ _ _ Hin) as Hc.
  apply mapM_Some in Hl. apply list_elem_of_lookup in Hin as [i Hi].
  destruct (Forall2_lookup_l _ _ _ _ _ Hl Hi) as (y & _ & Hy). unfold lexical_entry in Hy. simpl in *.
  destruct (uri_lexical_depth root) eqn:Ed; [left; split; congruence|]. right. by destruct (is_opaque root).
Qed.
(** What the policy says is unambiguous. *)
Definition unambiguous p path context : Prop :=
  lexical path ∧ lexical (ctx_cwd context) ∧ clear_entries (resolved_entries p context).

Lemma most_specific_split p path context :
  fs_kind p = Restricted → uri_convention (ctx_cwd context) = Some Posix →
  unambiguous p path context ∨ ¬ unambiguous p path context ∧ resolve_access p path context = AccessDeny.
Proof.
  intros Hk Hcwd. unfold resolve_access. rewrite Hk. destruct (comparable_path path context) eqn:Hcomp; simpl.
  - apply comparable_inv in Hcomp as [Hp Hc]; [|done].
    destruct (lexical_entries (resolved_entries p context)) as [l|] eqn:El.
    + left. split_and!; [done..|]. by eapply lexical_entries_inv.
    + right. split; [|done]. intros (_ & _ & Hclear). by rewrite lexical_entries_Some in El.
  - right. split; [|done]. intros (Hp & Hc & _). by rewrite comparable_lexical in Hcomp.
Qed.

(** C10: For a POSIX working directory, access under a restricted policy is what the
    entry with the longest matching prefix says; between entries of the same directory
    a denial wins over a write and a write over a read, and a path that no entry covers
    is denied.  When the path, the working directory or any entry is ambiguous, as with
    an encoded separator, everything is denied.  Policies of the other kinds let
    everything be written. *)
Theorem most_specific_entry_wins p path context m :
  uri_convention (ctx_cwd context) = Some Posix →
  resolve_access p path context = m ↔
  match fs_kind p with
  | Restricted =>
      unambiguous p path context ∧ governs (resolved_entries p context) (names path) m
      ∨ ¬ unambiguous p path context ∧ m = AccessDeny
  | Unrestricted | ExternalSandbox => m = AccessWrite
  end.
Proof.
  intros Hcwd. destruct (fs_kind p) eqn:Hk; [|unfold resolve_access; rewrite Hk; naive_solver..].
  pose proof (most_specific_split p path context Hk Hcwd) as Hcases. split.
  - intros <-. destruct Hcases as [Hu|[Hn ->]]; [left|by right]. split; [done|].
    destruct Hu as (? & ? & ?). by apply resolve_access_governs.
  - intros [[Hu Hg]|[Hn ->]]; [|by destruct Hcases as [?|[_ ?]]].
    destruct Hu as (? & ? & ?). eapply governs_unique; [by apply resolve_access_governs|done].
Qed.

(** ** Read-only intersections *)

Definition read_only_mode (m : FileSystemAccessMode) : FileSystemAccessMode :=
  match m with AccessDeny => AccessDeny | _ => AccessRead end.
Definition read_only_grant (e : Url * FileSystemAccessMode * nat) : Url * FileSystemAccessMode * nat :=
  (e.1.1, read_only_mode e.1.2, e.2).
Definition read_only_policy p : FileSystemSandboxPolicy :=
  mkFsPolicy (fs_kind p) (glob_scan_max_depth p) (read_only_entry <$> fs_entries p).

Lemma read_only_resolved p context :
  resolved_entries (read_only_policy p) context
  = prod_map id read_only_mode <$> resolved_entries p context.
Proof.
  unfold resolved_entries. simpl. induction (fs_entries p) as [|e entries IH]; [done|].
  rewrite fmap_cons, !bind_cons, fmap_app, IH. f_equal. by rewrite <-list_fmap_compose.
Qed.
Lemma read_only_lexical (entries : list (Url * FileSystemAccessMode)) :
  lexical_entries (prod_map id read_only_mode <$> entries)
  = (λ l : list _, read_only_grant <$> l) <$> lexical_entries entries.
Proof.
  assert (∀ e : Url * FileSystemAccessMode, lexical_entry (prod_map id read_only_mode e)
             = (λ o : option _, read_only_grant <$> o) <$> lexical_entry e) as He.
  { intros e. unfold lexical_entry. simpl. destruct (uri_lexical_depth e.1); [done|]. by destruct (is_opaque e.1). }
  unfold lexical_entries. induction entries as [|e entries IH]; [done|]. rewrite fmap_cons. simpl. rewrite He.
  destruct (lexical_entry e) as [o|]; simpl; [|done].
  destruct (mapM lexical_entry (_ <$> entries)) as [l|], (mapM lexical_entry entries) as [l'|]; simpl in *; try done.
  injection IH as IH. destruct o as [g|]; simpl; [|by f_equal]. f_equal. by apply (f_equal (cons (read_only_grant g))).
Qed.
Lemma read_only_filter path (l : list (Url * FileSystemAccessMode * nat)) :
  filter (λ e, uri_starts_with path e.1.1 = true) (read_only_grant <$> l)
  = read_only_grant <$> filter (λ e : Url * FileSystemAccessMode * nat, uri_starts_with path e.1.1 = true) l.
Proof. induction l as [|e l IH]; [done|]. rewrite fmap_cons, !filter_cons. simpl. case_decide; by rewrite IH. Qed.
Lemma read_only_precedes a b : precedes a b = true → precedes (read_only_grant a) (read_only_grant b) = true.
Proof.
  unfold precedes, read_only_grant. simpl.
  rewrite !orb_true_iff, !andb_true_iff, !Nat.ltb_lt, !Nat.eqb_eq, !Nat.leb_le.
  intros [|[? Hr]]; [by left|right]. split; [done|]. destruct (a.1.2), (b.1.2); simpl in *; lia.
Qed.
Lemma read_only_access p path context :
  fs_kind p = Restricted →
  resolve_access (read_only_policy p) path context = read_only_mode (resolve_access p path context).
Proof.
  intros Hk. unfold resolve_access. simpl. rewrite Hk. destruct (negb _); [done|].
  rewrite read_only_resolved, read_only_lexical.
  destruct (lexical_entries (resolved_entries p context)) as [l|]; simpl; [|done]. rewrite read_only_filter.
  set (l' := filter _ l).
  pose proof (max_by_key_map precedes precedes read_only_grant l' read_only_precedes precedes_total precedes_trans
                precedes_total precedes_trans) as Hm.
  destruct (max_by_key precedes l') as [m|], (max_by_key precedes (read_only_grant <$> l')) as [m'|]; simpl; try done.
  destruct Hm as [H1 H2]. unfold precedes, read_only_grant in H1, H2. simpl in H1, H2.
  rewrite orb_true_iff, andb_true_iff, Nat.ltb_lt, Nat.eqb_eq, Nat.leb_le in H1, H2.
  apply access_rank_inj. lia.
Qed.

(** Intersecting a profile with read-only access never fails for a managed one,
    allows no write and no network, keeps every deny pattern, and changes the
    access to a path only from write to read. *)
Theorem read_only_intersection (profile : PermissionProfile) path context :
  match intersect_with_read_only profile with
  | None => enforcement profile = EnforcementExternal
  | Some None => False
  | Some (Some q) =>
      network_sandbox_policy q = NetRestricted
      ∧ can_write_path (file_system_sandbox_policy q) path context = false
      ∧ (is_restricted (file_system_sandbox_policy profile) = true →
         deny_read_patterns (file_system_sandbox_policy q) = deny_read_patterns (file_system_sandbox_policy profile)
         ∧ resolve_access (file_system_sandbox_policy q) path context
           = read_only_mode (resolve_access (file_system_sandbox_policy profile) path context))
  end.
Proof.
  assert (∀ p, fs_kind p = Restricted → can_write_path (read_only_policy p) path context = false) as Hw.
  { intros p Hk. unfold can_write_path. rewrite read_only_access by done. by destruct (resolve_access p path context). }
  destruct profile as [[entries depth|] network| |network]; simpl; [| | |done].
  - set (depth' := match depth with Some (S n) => Some (S n) | _ => None end).
    split; [done|]. split; [|intros _; split].
    + exact (Hw (mkFsPolicy Restricted depth' entries) eq_refl).
    + unfold deny_read_patterns, deny_entries. simpl. induction entries as [|e entries IH]; [done|].
      rewrite fmap_cons, !filter_cons. unfold read_only_entry at 1. simpl.
      destruct e as [path' [] b]; simpl; [apply IH..|]. unfold read_only_entry at 1. simpl.
      destruct path'; simpl; [exact IH|by f_equal|exact IH].
    + exact (read_only_access (mkFsPolicy Restricted depth' entries) path context eq_refl).
  - split; [done|]. split; [|done]. exact (Hw fs_read_only eq_refl).
  - split; [done|]. split; [|done]. exact (Hw fs_read_only eq_refl).
Qed.
End props.

(** ** Whole-disk access *)

Section whole_disk.
Context `{FileUrlLaws}.
Implicit Types (p : FileSystemSandboxPolicy) (context : FileSystemSandboxPolicyContext) (path root : Url).

(** The working directory is an ordinary POSIX path. *)
Definition posix_context context : Prop := sound (ctx_cwd context) ∧ lexical (ctx_cwd context).

Lemma elem_of_resolved p context root m :
  (root, m) ∈ resolved_entries p context
  ↔ uri_convention root = uri_convention (ctx_cwd context)
    ∧ ∃ e, e ∈ fs_entries p ∧ entry_access e = m ∧ root ∈ entry_paths context e.
Proof.
  unfold resolved_entries. rewrite list_elem_of_bind. split.
  - intros (e & (root' & [= -> ->] & [Hc Hin]%list_elem_of_filter)%list_elem_of_fmap & He). eauto.
  - intros (Hc & e & He & <- & Hin). exists e. split; [|done]. apply list_elem_of_fmap. exists root. split; [done|].
    by apply list_elem_of_filter.
Qed.

Lemma root_paths context e :
  posix_context context → entry_path e = SpecialPath SpecialRoot →
  ∃ r, entry_paths context e = [r] ∧ lexical r ∧ names r = [].
Proof.
  intros [Hs Hl] He. unfold entry_paths, file_system_root. rewrite He, (lexical_depth_names _ Hl). simpl.
  destruct (last_ancestor _ Hs Hl) as (r & -> & _ & Hr & Hn). by exists r.
Qed.
Lemma slash_tmp_paths context e :
  posix_context context → entry_path e = SpecialPath SlashTmp →
  ∃ r, entry_paths context e = [r] ∧ lexical r ∧ names r = [utf8 (str "tmp")].
Proof.
  intros [Hs Hl] He. unfold entry_paths. rewrite He, (proj1 Hl). simpl.
  destruct (join_absolute (ctx_cwd context) (str "tmp") (proj1 Hl)) as (r & Hj & _ & Hr & Hn).
  - by apply (bool_decide_unpack _).
  - constructor; [|constructor]. split_and!; [|by apply (bool_decide_unpack _)..].
    split_and!; try done; [repeat constructor|]. by intros (c & d & E & _).
  - change (str "/tmp") with (47%N :: str "tmp"). rewrite Hj. by exists r.
Qed.
Lemma matches_root path :
  lexical path → special_path_matches_path_uri SpecialRoot path = true → names path = [].
Proof.
  intros Hl. simpl. rewrite andb_true_iff, !bool_decide_eq_true. intros [_ Hp]. by apply no_parent in Hp.
Qed.
Lemma matches_slash_tmp path :
  lexical path → special_path_matches_path_uri SlashTmp path = true → names path = [utf8 (str "tmp")].
Proof.
  intros Hl. simpl. rewrite !andb_true_iff, !bool_decide_eq_true. intros [[_ Hd] Hb].
  rewrite (lexical_depth_names _ Hl) in Hd. injection Hd as Hd.
  pose proof (lexical_inv path Hl) as (Ho & _ & segments & Es & _).
  unfold uri_basename in Hb. rewrite Ho, Es in Hb. simpl in Hb. unfold names in *. rewrite Es in *. simpl in *.
  destruct (non_empty segments) as [|s [|]]; simpl in *; try done. injection Hb as Hb. f_equal.
  unfold decode_uri_path in Hb. destruct (from_utf8 (decode_binary s)) as [t|] eqn:E.
  - subst t. by apply from_utf8_sound in E.
  - subst s. rewrite law_decode_plain in E; [done|]. by apply (bool_decide_unpack _).
Qed.

Lemma posix_eqb_r (u v : Url) : uri_convention v = Some Posix → uri_eqb u v = true → u = v.
Proof.
  intros Hc. unfold uri_eqb, windows_identity_path_bytes. rewrite Hc. simpl. case_bool_decide; [done|].
  by destruct (if _ || _ then _ else _).
Qed.
Lemma special_share_eq a b : special_paths_share_target a b = true → a = b.
Proof.
  destruct a, b; simpl; try done; rewrite ?andb_true_iff, ?bool_decide_eq_true; [by intros ->|].
  intros [E ->]. unfold str_eqb in E. by apply bool_decide_eq_true in E as ->.
Qed.
Lemma elem_singleton_paths context e r root :
  entry_paths context e = [r] → root ∈ entry_paths context e → root = r.
Proof. intros ->. by rewrite list_elem_of_singleton. Qed.

(** Entries of the same target resolve to the same names. *)
Lemma share_target_resolved context (c e : FileSystemSandboxEntry) root :
  posix_context context → root ∈ entry_paths context e → lexical root →
  file_system_paths_share_target (entry_path c) (entry_path e) Posix = true →
  ∃ root', root' ∈ entry_paths context c ∧ lexical root' ∧ names root' = names root.
Proof.
  intros Hctx Hin Hl Hsh.
  destruct (entry_path c) as [a|a|a] eqn:Ec, (entry_path e) as [b|b|b] eqn:Ee; simpl in Hsh; try done.
  - unfold entry_paths in Hin |- *. rewrite Ec. rewrite Ee in Hin. apply list_elem_of_singleton in Hin as ->.
    apply posix_eqb_r in Hsh as ->; [|apply Hl]. exists b. set_solver.
  - apply andb_true_iff in Hsh as [Hc%bool_decide_eq_true Hm]. assert (lexical a) as Hcl.
    { split; [done|]. destruct b; simpl in Hm; try done; rewrite !andb_true_iff, !bool_decide_eq_true in Hm; naive_solver. }
    exists a. unfold entry_paths at 1. rewrite Ec.
    split; [set_solver|]. split; [done|]. destruct b; try done.
    + rewrite (matches_root _ Hcl Hm). destruct (root_paths context e Hctx Ee) as (r & Hr & _ & Hn).
      by rewrite (elem_singleton_paths _ _ _ _ Hr Hin), Hn.
    + rewrite (matches_slash_tmp _ Hcl Hm). destruct (slash_tmp_paths context e Hctx Ee) as (r & Hr & _ & Hn).
      by rewrite (elem_singleton_paths _ _ _ _ Hr Hin), Hn.
  - unfold entry_paths in Hin. rewrite Ee in Hin. set_solver.
  - apply andb_true_iff in Hsh as [_ Hm]. unfold entry_paths in Hin. rewrite Ee in Hin.
    apply list_elem_of_singleton in Hin as ->. destruct a; try done.
    + destruct (root_paths context c Hctx Ec) as (r & Hr & Hlr & Hn). exists r. rewrite Hr.
      split; [set_solver|]. split; [done|]. by rewrite Hn, (matches_root _ Hl Hm).
    + destruct (slash_tmp_paths context c Hctx Ec) as (r & Hr & Hlr & Hn). exists r. rewrite Hr.
      split; [set_solver|]. split; [done|]. by rewrite Hn, (matches_slash_tmp _ Hl Hm).
  - apply special_share_eq in Hsh as ->. exists root. split; [|done].
    unfold entry_paths in *. by rewrite Ec; rewrite Ee in Hin.
Qed.

Lemma resolved_intro p context e root :
  posix_context context → e ∈ fs_entries p → root ∈ entry_paths context e → lexical root →
  (root, entry_access e) ∈ resolved_entries p context.
Proof.
  intros [_ [Hc _]] He Hin [Hp _]. apply elem_of_resolved. split; [congruence|]. by exists e.
Qed.
Lemma lexical_not_opaque (u : Url) : lexical u → is_opaque u = false.
Proof. apply lexical_inv. Qed.
Lemma covers_intro p context e root target :
  posix_context context → e ∈ fs_entries p → root ∈ entry_paths context e → lexical root →
  names root `prefix_of` target →
  grant_covers (resolved_entries p context) target (names root) (entry_access e).
Proof.
  intros. split; [done|]. exists root. split_and!; [by apply resolved_intro|by apply lexical_not_opaque|done].
Qed.
Lemma has_root_access_inv predicate p context target :
  posix_context context → has_root_access predicate p = true →
  ∃ m, predicate m = true ∧ grant_covers (resolved_entries p context) target [] m.
Proof.
  intros Hctx. unfold has_root_access. rewrite andb_true_iff, existsb_exists.
  intros [_ (e & Hin%list_elem_of_In & [He Hp]%andb_true_iff)]. exists (entry_access e). split; [done|].
  assert (entry_path e = SpecialPath SpecialRoot) as Ep.
  { unfold is_root_entry in He. destruct (entry_path e) as [| |[]]; done. }
  destruct (root_paths context e Hctx Ep) as (r & Hr & Hl & Hn). rewrite <-Hn.
  apply covers_intro; try done; [rewrite Hr; set_solver|]. rewrite Hn. apply prefix_nil.
Qed.

Lemma access_not_covered p context path m :
  fs_kind p = Restricted → posix_context context → lexical path → clear_entries (resolved_entries p context) →
  (∃ base m', grant_covers (resolved_entries p context) (names path) base m') →
  resolve_access p path context = m →
  ∃ e root, e ∈ fs_entries p ∧ entry_access e = m ∧ root ∈ entry_paths context e ∧ lexical root
    ∧ names root `prefix_of` names path
    ∧ ∀ base' m', grant_covers (resolved_entries p context) (names path) base' m' →
        length base' < length (names root) ∨ base' = names root ∧ access_rank m' ≤ access_rank m.
Proof.
  intros Hk [Hs Hl] Hp Hc (b & m' & Hcov) <-.
  destruct (resolve_access_governs p path context Hk Hp Hl Hc) as [(base & (Hpre & root & Hin & Ho & <-) & Hmax)|[_ Hno]];
    [|by destruct (Hno _ _ Hcov)].
  assert (lexical root) as Hlr.
  { unfold clear_entries in Hc. rewrite Forall_forall in Hc. destruct (Hc _ Hin) as [|Ho']; simpl in *; congruence. }
  apply elem_of_resolved in Hin as (_ & e & He & Ha & Hr). exists e, root. by split_and!.
Qed.

Lemma override_wins p context e root path :
  posix_context context → root ∈ entry_paths context e → lexical root → names root `prefix_of` names path →
  has_same_target_write_override p e Posix = true →
  grant_covers (resolved_entries p context) (names path) (names root) AccessWrite ∧ access_rank (entry_access e) < 1.
Proof.
  intros Hctx Hin Hl Hpre. unfold has_same_target_write_override. rewrite existsb_exists.
  intros (c & Hc%list_elem_of_In & Hs). rewrite !andb_true_iff in Hs. destruct Hs as [[Hw Hr] Hsh].
  destruct (share_target_resolved context c e root Hctx Hin Hl Hsh) as (root' & Hin' & Hl' & Hn).
  unfold can_write in Hw. apply bool_decide_eq_true in Hw. rewrite Hw in Hr. apply Nat.ltb_lt in Hr. split; [|done].
  rewrite <-Hn, <-Hw. apply covers_intro; try done. by rewrite Hn.
Qed.

(** An entry that does not narrow write access and decides about a path grants a write. *)
Lemma no_narrowing_writes p context e root path :
  posix_context context → root ∈ entry_paths context e → lexical root → names root `prefix_of` names path →
  narrows_write p Posix e = false → grant_covers (resolved_entries p context) (names path) [] AccessWrite →
  (∀ base' m', grant_covers (resolved_entries p context) (names path) base' m' →
     length base' < length (names root) ∨ base' = names root ∧ access_rank m' ≤ access_rank (entry_access e)) →
  entry_access e = AccessWrite.
Proof.
  intros Hctx Hin Hl Hpre Hnar Hroot Hmax. destruct (can_write (entry_access e)) eqn:Hw.
  { unfold can_write in Hw. by apply bool_decide_eq_true in Hw. }
  exfalso. assert (has_same_target_write_override p e Posix = true → False) as Hno.
  { intros Ho. destruct (override_wins p context e root path Hctx Hin Hl Hpre Ho) as [Hcov Hr].
    destruct (Hmax _ _ Hcov) as [|[_ ?]]; simpl in *; lia. }
  unfold narrows_write in Hnar. rewrite Hw in Hnar.
  destruct (entry_path e) as [|pattern|[| | | | |]] eqn:Ep; simpl in Hnar;
    try (by apply Hno, negb_false_iff); try done;
    try (unfold entry_paths in Hin; rewrite Ep in Hin; by apply not_elem_of_nil in Hin).
  (* the root itself, which is not denied *)
  destruct (root_paths context e Hctx Ep) as (r & Hr & _ & Hn).
  rewrite (elem_singleton_paths _ _ _ _ Hr Hin), Hn in Hmax. destruct (Hmax _ _ Hroot) as [|[_ Hrank]]; simpl in *; [lia|].
  apply bool_decide_eq_false in Hnar. unfold can_write in Hw. apply bool_decide_eq_false in Hw.
  destruct (entry_access e); simpl in Hrank; [lia|done|done].
Qed.

(** A policy that reports unrestricted writes for an executor lets every path of
    that executor be written, however its entries shadow each other. *)
Theorem full_disk_write_is_write p context path :
  posix_context context → lexical path → clear_entries (resolved_entries p context) →
  has_full_disk_write_access_with_context p context = true →
  resolve_access p path context = AccessWrite ∧ can_write_path p path context = true.
Proof.
  intros Hctx Hp Hc Hfull. assert (resolve_access p path context = AccessWrite) as Ha.
  2: { split; [done|]. unfold can_write_path. by rewrite Ha, Hfull. }
  unfold has_full_disk_write_access_with_context, has_full_disk_write_access_for_convention in Hfull.
  destruct (fs_kind p) eqn:Hk; [|unfold resolve_access; by rewrite Hk..].
  rewrite (proj1 (proj2 Hctx)), andb_true_iff, negb_true_iff in Hfull. destruct Hfull as [Hroot Hnar].
  unfold has_write_narrowing_entries, is_restricted in Hnar. rewrite Hk in Hnar. simpl in Hnar.
  destruct (has_root_access_inv can_write p context (names path) Hctx Hroot) as (m & Hm & Hcov).
  unfold can_write in Hm. apply bool_decide_eq_true in Hm as ->.
  destruct (access_not_covered p context path _ Hk Hctx Hp Hc (ex_intro _ _ (ex_intro _ _ Hcov)) eq_refl)
    as (e & root & He & Hacc & Hin & Hl & Hpre & Hmax).
  rewrite <-Hacc. eapply no_narrowing_writes; try done; [|by rewrite Hacc].
  destruct (narrows_write p Posix e) eqn:E; [|done]. rewrite <-Hnar. symmetry. apply existsb_exists. exists e.
  by rewrite <-list_elem_of_In.
Qed.
Lemma full_disk_read_is_read p context path :
  posix_context context → lexical path → clear_entries (resolved_entries p context) →
  has_full_disk_read_access p = true → can_read_path p path context = true.
Proof.
  intros Hctx Hp Hc Hfull. unfold has_full_disk_read_access in Hfull. unfold can_read_path.
  destruct (fs_kind p) eqn:Hk; [|unfold resolve_access; by rewrite Hk..].
  rewrite andb_true_iff, negb_true_iff in Hfull. destruct Hfull as [Hroot Hden].
  unfold has_denied_read_restrictions, is_restricted in Hden. rewrite Hk in Hden. simpl in Hden.
  destruct (has_root_access_inv can_read p context (names path) Hctx Hroot) as (m & _ & Hcov).
  destruct (access_not_covered p context path _ Hk Hctx Hp Hc (ex_intro _ _ (ex_intro _ _ Hcov)) eq_refl)
    as (e & root & He & Hacc & _).
  rewrite <-Hacc. unfold can_read. rewrite negb_true_iff. apply bool_decide_eq_false. intros E.
  assert (existsb (λ e, bool_decide (entry_access e = AccessDeny)) (fs_entries p) = true) as Hex; [|congruence].
  apply existsb_exists. exists e. rewrite <-list_elem_of_In. split; [done|]. by apply bool_decide_eq_true.
Qed.
End whole_disk.

(** ** Protected metadata *)

Section metadata.
Context `{FileUrlLaws}.
Implicit Types (p : FileSystemSandboxPolicy) (context : FileSystemSandboxPolicyContext) (path root : Url).

Definition sound_entries (entries : list (Url * FileSystemAccessMode)) : Prop :=
  Forall (λ e, sound e.1 ∧ lexical e.1) entries.
(** The names of a protected directory *)
Definition protected_names (entries : list (Url * FileSystemAccessMode)) (target : list (list N)) : Prop :=
  ∃ root name, (root, AccessWrite) ∈ entries ∧ name ∈ PROTECTED_METADATA_PATH_NAMES ∧ names root ++ [utf8 name] = target.

Lemma protected_component name : name ∈ PROTECTED_METADATA_PATH_NAMES → component_name name.
Proof.
  assert (Forall component_name PROTECTED_METADATA_PATH_NAMES) as Hall.
  { repeat constructor; try done; try (by apply (bool_decide_unpack _)); by intros (c & d & E & _). }
  by apply Forall_forall.
Qed.
Lemma protected_directory_inv root path (l : list rstr) v name :
  protected_directory root path l = Some (v, name) →
  name ∈ l ∧ join_descendant root name = Ok v ∧ uri_starts_with path v = true.
Proof.
  induction l as [|n l IH]; simpl; [done|]. destruct (join_descendant root n) as [v'|] eqn:Ej; simpl.
  - destruct (uri_starts_with path v') eqn:Es; [|intros ?%IH; set_solver]. intros [= -> ->]. set_solver.
  - intros ?%IH. set_solver.
Qed.
Lemma protected_directory_Some root path (l : list rstr) name v :
  name ∈ l → join_descendant root name = Ok v → uri_starts_with path v = true →
  protected_directory root path l ≠ None.
Proof.
  intros Hin Hj Hs. induction l as [|n l IH]; [set_solver|]. simpl.
  apply elem_of_cons in Hin as [->|Hin]; [rewrite Hj; simpl; by rewrite Hs|].
  destruct (join_descendant root n) as [v'|]; simpl; [destruct (uri_starts_with path v'); [done|]|]; by apply IH.
Qed.
Lemma protected_path root name v :
  sound root → lexical root → name ∈ PROTECTED_METADATA_PATH_NAMES → join_descendant root name = Ok v →
  lexical v ∧ names v = names root ++ [utf8 name].
Proof.
  intros Hs Hl Hn Hj. destruct (join_descendant_name root name Hs Hl (protected_component name Hn)) as (v' & Hv & _ & ? & ?).
  rewrite Hj in Hv. by injection Hv as ->.
Qed.

#[local] Opaque PROTECTED_METADATA_PATH_NAMES.
(** C31: Without full disk write access, writing below [.git], [.agents] or [.codex]
    of a writable root takes an entry that grants writes inside such a directory
    around the path: that one, or when protected directories are nested possibly
    another.  Paths and entries are unambiguous POSIX paths. *)
Theorem metadata_writes_are_explicit p context path target :
  lexical path → sound_entries (resolved_entries p context) →
  can_write_path p path context = true →
  protected_names (resolved_entries p context) target → target `prefix_of` names path →
  has_full_disk_write_access_with_context p context = true
  ∨ ∃ granted protected, (granted, AccessWrite) ∈ resolved_entries p context
      ∧ protected_names (resolved_entries p context) protected
      ∧ protected `prefix_of` names granted ∧ names granted `prefix_of` names path.
Proof.
  intros Hp Hsound Hw (root & name & Hin & Hname & <-) Hpre.
  destruct (has_full_disk_write_access_with_context p context) eqn:Hfull; [by left|right].
  assert (is_restricted p = true) as Hr.
  { unfold has_full_disk_write_access_with_context, has_full_disk_write_access_for_convention in Hfull.
    unfold is_restricted. by destruct (fs_kind p). }
  unfold can_write_path in Hw. destruct (negb _); [done|]. rewrite Hfull in Hw. simpl in Hw.
  apply bool_decide_eq_true in Hw. unfold metadata_write_denial in Hw. rewrite Hr in Hw. simpl in Hw.
  set (entries := resolved_entries p context) in *. unfold sound_entries in Hsound. rewrite Forall_forall in Hsound.
  match type of Hw with context [head ?l] => set (found := l) in Hw end.
  destruct (head found) as [[v n]|] eqn:Eh; simpl in Hw.
  - destruct (existsb _ entries) eqn:Ex in Hw; [|done]. apply existsb_exists in Ex as ([granted m] & Hg & Hc).
    rewrite !andb_true_iff in Hc. simpl in Hc. destruct Hc as [[Hm Hs1] Hs2]. apply list_elem_of_In in Hg.
    unfold can_write in Hm. apply bool_decide_eq_true in Hm as ->.
    assert ((v, n) ∈ found) as Hf by (apply head_Some in Eh as [l ->]; set_solver).
    apply list_elem_of_omap in Hf as ([root' m'] & [Hm' Hin']%list_elem_of_filter & Hpd). simpl in *.
    unfold can_write in Hm'. apply bool_decide_eq_true in Hm' as ->.
    apply protected_directory_inv in Hpd as (Hn & Hj & _).
    destruct (Hsound _ Hin') as [Hs' Hl']. destruct (protected_path root' n v Hs' Hl' Hn Hj) as [Hlv Hnv].
    destruct (Hsound _ Hg) as [_ Hlg]. exists granted, (names v). split_and!; [done| | |].
    + exists root', n. by split_and!.
    + by apply starts_with_names.
    + by apply starts_with_names.
  - exfalso. destruct (Hsound _ Hin) as [Hs Hl].
    destruct (join_descendant_name root name Hs Hl (protected_component name Hname)) as (v & Hj & _ & Hlv & Hnv).
    assert (protected_directory root path PROTECTED_METADATA_PATH_NAMES ≠ None) as Hne.
    { eapply protected_directory_Some; [done..|]. apply starts_with_names; [done..|]. by rewrite Hnv. }
    destruct (protected_directory root path _) as [x|] eqn:Ep; [|done].
    assert (x ∈ found) as Hf; [|destruct found; [set_solver|done]].
    apply list_elem_of_omap. exists (root, AccessWrite). split; [by apply list_elem_of_filter|done].
Qed.
End metadata.
