(* ===== verification/FsDenyProps.v ===== *)
(** Denials survive: those a policy must keep, those an administrator requires, and
    those of a workspace when its roots become concrete. *)

From S2P Require Import Prelude Utf8 PathUris PathUriProps ConfigPaths FsPolicy FsPolicyProps.
#[local] Opaque str.

Section denials.
Context `{FileUrlLaws}.
Implicit Types (p : FileSystemSandboxPolicy) (context : FileSystemSandboxPolicyContext) (path root : Url).

(** ** Equal entries *)

Lemma uri_eqb_refl (u : Url) : uri_eqb u u = true.
Proof. unfold uri_eqb. by rewrite bool_decide_eq_true_2. Qed.
Lemma entry_eqb_refl e : entry_eqb e e = true.
Proof.
  unfold entry_eqb. rewrite !bool_decide_eq_true_2, !andb_true_r by done.
  destruct (entry_path e); simpl; [apply uri_eqb_refl|by apply bool_decide_eq_true|by apply bool_decide_eq_true].
Qed.
Lemma contains_entry_in entries e : e ∈ entries → contains_entry entries e = true.
Proof. intros Hin. apply existsb_exists. exists e. rewrite <-list_elem_of_In. split; [done|]. apply entry_eqb_refl. Qed.
(** An equal entry resolves to the same paths. *)
Lemma contains_entry_resolves context entries e root :
  contains_entry entries e = true → root ∈ entry_paths context e → uri_convention root = Some Posix →
  ∃ x, x ∈ entries ∧ entry_access x = entry_access e ∧ root ∈ entry_paths context x.
Proof.
  intros (x & Hx%list_elem_of_In & He)%existsb_exists Hin Hc. unfold entry_eqb in He.
  rewrite !andb_true_iff, !bool_decide_eq_true in He. destruct He as [[Hp Ha] _].
  exists x. split_and!; [done..|]. unfold entry_paths in *.
  destruct (entry_path x) as [u|a|a], (entry_path e) as [v|b|b]; simpl in Hp; try done.
  - apply list_elem_of_singleton in Hin as ->. apply posix_eqb_r in Hp as ->; [set_solver|done].
  - by apply bool_decide_eq_true in Hp as ->.
Qed.

Lemma push_missing_in entries e x : x ∈ entries → x ∈ push_missing entries e.
Proof. unfold push_missing. destruct (contains_entry _ _); set_solver. Qed.
Lemma push_missing_inv entries e x : x ∈ push_missing entries e → x ∈ entries ∨ x = e.
Proof. unfold push_missing. destruct (contains_entry _ _); set_solver. Qed.
Lemma push_all_in l entries x : x ∈ entries → x ∈ foldl push_missing entries l.
Proof. revert entries. induction l as [|e l IH]; intros entries Hx; [done|]. by apply IH, push_missing_in. Qed.
Lemma push_all_inv l entries x : x ∈ foldl push_missing entries l → x ∈ entries ∨ x ∈ l.
Proof.
  revert entries. induction l as [|e l IH]; intros entries; simpl; [by left|].
  intros [[Hx| ->]%push_missing_inv|Hx]%IH; set_solver.
Qed.
Lemma contains_mono (entries entries' : list FileSystemSandboxEntry) e :
  (∀ x, x ∈ entries → x ∈ entries') → contains_entry entries e = true → contains_entry entries' e = true.
Proof.
  intros Hsub (x & Hx%list_elem_of_In & He)%existsb_exists. apply existsb_exists. exists x.
  rewrite <-list_elem_of_In. auto.
Qed.
Lemma push_all_contains l entries e : e ∈ l → contains_entry (foldl push_missing entries l) e = true.
Proof.
  revert entries. induction l as [|x l IH]; intros entries Hin; [set_solver|]. simpl.
  apply elem_of_cons in Hin as [->|Hin]; [|by apply IH].
  eapply contains_mono; [intros y; apply push_all_in|].
  unfold push_missing. destruct (contains_entry entries x) eqn:E; [done|]. apply contains_entry_in. set_solver.
Qed.

(** ** A denial that is among the entries *)

(** Only an entry strictly below a denied root can allow a path inside it. *)
Lemma denied_unless_below p context (d : FileSystemSandboxEntry) root path :
  is_restricted p = true → posix_context context → lexical path → clear_entries (resolved_entries p context) →
  contains_entry (fs_entries p) d = true → entry_access d = AccessDeny →
  root ∈ entry_paths context d → lexical root → names root `prefix_of` names path →
  can_read_path p path context = true →
  ∃ e below, e ∈ fs_entries p ∧ can_read (entry_access e) = true ∧ below ∈ entry_paths context e ∧ lexical below
    ∧ names root `prefix_of` names below ∧ names below ≠ names root ∧ names below `prefix_of` names path.
Proof.
  intros Hr Hctx Hp Hc Hd Ha Hin Hl Hpre Hread. unfold is_restricted in Hr. apply bool_decide_eq_true in Hr.
  destruct (contains_entry_resolves context _ _ root Hd Hin (proj1 Hl)) as (x & Hx & Hxa & Hxin).
  assert (grant_covers (resolved_entries p context) (names path) (names root) AccessDeny) as Hcov.
  { rewrite <-Ha, <-Hxa. by apply covers_intro. }
  destruct (access_not_covered p context path _ Hr Hctx Hp Hc (ex_intro _ _ (ex_intro _ _ Hcov)) eq_refl)
    as (e & below & He & Hea & Hbin & Hbl & Hbpre & Hmax).
  exists e, below. rewrite Hea. unfold can_read_path in Hread. split_and!; [done..| | |done].
  - destruct (Hmax _ _ Hcov) as [Hlt|[-> _]]; [|done].
    destruct (prefix_weak_total (names root) (names below) (names path) Hpre Hbpre) as [|Hpr]; [done|].
    apply prefix_length in Hpr. lia.
  - intros E. destruct (Hmax _ _ Hcov) as [Hlt|[_ Hrank]]; [rewrite E in Hlt; lia|].
    destruct (resolve_access p path context); simpl in *; [lia|lia|done].
Qed.

(** When the allow side of a policy is replaced, a path below one of the old
    denials is readable only through an entry of the new policy that lies
    strictly below that denial. *)
Theorem preserved_denials_hold p existing context (d : FileSystemSandboxEntry) root path :
  let p' := preserve_deny_read_restrictions_from p existing in
  is_restricted p' = true → posix_context context → lexical path → clear_entries (resolved_entries p' context) →
  d ∈ fs_entries existing → entry_access d = AccessDeny →
  root ∈ entry_paths context d → lexical root → names root `prefix_of` names path →
  can_read_path p' path context = true →
  ∃ e below, e ∈ fs_entries p ∧ can_read (entry_access e) = true ∧ below ∈ entry_paths context e ∧ lexical below
    ∧ names root `prefix_of` names below ∧ names below ≠ names root ∧ names below `prefix_of` names path.
Proof.
  intros p' Hr Hctx Hp Hc Hd Ha Hin Hl Hpre Hread.
  set (p0 := if bool_decide (fs_kind p = Unrestricted)
                && existsb (λ e, bool_decide (entry_access e = AccessDeny)) (fs_entries existing)
             then fs_restricted [new_entry (SpecialPath SpecialRoot) AccessWrite] else p).
  assert (is_restricted p0 = true) as Hr0.
  { unfold p', preserve_deny_read_restrictions_from in Hr. fold p0 in Hr.
    destruct (is_restricted p0) eqn:E; [done|]. simpl in Hr. congruence. }
  assert (fs_entries p' = foldl push_missing (fs_entries p0) (deny_entries existing)) as Hent.
  { unfold p', preserve_deny_read_restrictions_from. fold p0. by rewrite Hr0. }
  destruct (denied_unless_below p' context d root path) as (e & below & He & Hrd & Hbin & Hbl & H1 & H2 & H3); try done.
  { rewrite Hent. apply push_all_contains. by apply list_elem_of_filter. }
  exists e, below. split_and!; try done. rewrite Hent in He. apply push_all_inv in He as [He|[Hda _]%list_elem_of_filter].
  - unfold p0 in He. destruct (_ && _); [|done]. exfalso. apply list_elem_of_singleton in He as ->.
    destruct (root_paths context (new_entry (SpecialPath SpecialRoot) AccessWrite) Hctx eq_refl) as (r & Er & _ & Hn).
    rewrite (elem_singleton_paths _ _ _ _ Er Hbin) in *. rewrite Hn in *. apply H2. symmetry.
    destruct (names root); [done|]. by apply prefix_nil_not in H1.
  - exfalso. by rewrite Hda in Hrd.
Qed.

(** ** Required denials *)

Context `{Globs : GlobTools}.

Lemma prepared_roots p context prepared :
  prepare_deny_read_matcher p context ReturnError = Ok prepared → denied_roots prepared = resolved_denied_roots p context.
Proof.
  unfold prepare_deny_read_matcher. destruct (uri_convention _); [|by intros [= <-]].
  destruct (deny_read_globs p context); simpl; [|done]. destruct (build_matchers _ _ _) as [[matchers invalid]|]; simpl; [|done].
  by intros [= <-].
Qed.
Lemma denied_root_prepared p context (d : FileSystemSandboxEntry) root :
  posix_context context → d ∈ fs_entries p → entry_access d = AccessDeny → root ∈ entry_paths context d → lexical root →
  names root ≠ [] → root ∈ resolved_denied_roots p context.
Proof.
  intros Hctx Hd Ha Hin Hl Hne. apply list_elem_of_omap. exists (root, AccessDeny).
  split; [rewrite <-Ha; by apply resolved_intro|]. simpl.
  assert (is_file_system_root context root = false) as ->; [|done]. unfold is_file_system_root, file_system_root.
  destruct Hctx as [Hs Hlc]. rewrite (lexical_depth_names _ Hlc). simpl.
  destruct (last_ancestor _ Hs Hlc) as (r & -> & _ & Hlr & Hn). apply andb_false_iff. right. apply not_true_iff_false.
  rewrite starts_with_names by done. rewrite Hn. intros E. apply Hne. destruct (names root); [done|by apply prefix_nil_not in E].
Qed.
Lemma validate_inv v selected context :
  validate v selected context = Ok () →
  (∀ e, e ∈ fs_entries selected → violating_path v context e = None)
  ∧ ∀ e, e ∈ required_entries v → contains_entry (fs_entries selected) e = true.
Proof.
  unfold validate. destruct (head _) as [u|] eqn:Eh; [done|]. destruct (existsb _ _) eqn:Ex; [done|]. intros _. split.
  - intros e He. destruct (violating_path v context e) as [u|] eqn:E; [|done]. exfalso.
    assert (u ∈ omap (violating_path v context) (fs_entries selected)) as Hu by (apply list_elem_of_omap; by exists e).
    destruct (omap _ _); [set_solver|done].
  - intros e He. destruct (contains_entry _ e) eqn:E; [done|]. rewrite <-Ex. apply existsb_exists.
    exists e. rewrite <-list_elem_of_In, E. done.
Qed.

(** A restricted policy lets a path be read only when nothing in it is ambiguous. *)
Lemma readable_unambiguous p context path :
  is_restricted p = true → uri_convention (ctx_cwd context) = Some Posix → can_read_path p path context = true →
  unambiguous p path context.
Proof.
  unfold is_restricted. intros Hr%bool_decide_eq_true Hcwd Hread.
  pose proof (most_specific_split p path context Hr Hcwd) as [Hu|[_ E]]; [done|].
  unfold can_read_path in Hread. by rewrite E in Hread.
Qed.

(** C30: Let a restricted profile pass the validation of the administrator's
    denials, for a POSIX working directory.  A path below a denied directory can
    be read only through an entry of the profile that grants a directory strictly
    below the denied one, and that entry is symbolic, such as a workspace root,
    which the validation does not expand, unless the denied directory is the
    root of the file system, which the validation leaves out.  So no grant that
    names a concrete path opens anything below another denied directory. *)
Theorem managed_deny_read_enforced selected required context (d : FileSystemSandboxEntry) root path :
  validate_managed_deny_read selected required context = Ok () →
  is_restricted selected = true → is_restricted required = true →
  sound (ctx_cwd context) → uri_convention (ctx_cwd context) = Some Posix →
  d ∈ fs_entries required → entry_access d = AccessDeny →
  root ∈ entry_paths context d → lexical root → names root `prefix_of` names path →
  can_read_path selected path context = true →
  ∃ e below, e ∈ fs_entries selected ∧ can_read (entry_access e) = true
    ∧ (names root ≠ [] → ∀ u, entry_path e ≠ FsPath u)
    ∧ below ∈ entry_paths context e ∧ lexical below
    ∧ names root `prefix_of` names below ∧ names below ≠ names root ∧ names below `prefix_of` names path.
Proof.
  intros Hv Hr Hrr Hs Hcwd Hd Ha Hin Hl Hpre Hread.
  destruct (readable_unambiguous selected context path Hr Hcwd Hread) as (Hp & Hlc & Hc).
  assert (posix_context context) as Hctx by done.
  unfold validate_managed_deny_read, validator_new in Hv.
  assert (has_context_read_denials required context = true) as Hden.
  { unfold has_context_read_denials. rewrite Hrr. simpl. apply existsb_exists. exists d. rewrite <-list_elem_of_In.
    split; [done|]. rewrite Ha, Hcwd. simpl. by destruct (entry_path d) as [| |[]]. }
  rewrite Hden in Hv. destruct (prepare_deny_read_matcher required context ReturnError) as [prepared|] eqn:Epr; simpl in Hv; [|done].
  destruct (validate _ selected context) as [[]|] eqn:Eval; simpl in Hv; [|done].
  apply validate_inv in Eval as [Hviol Hreq]. simpl in Hreq.
  destruct (denied_unless_below selected context d root path) as (e & below & He & Hrd & Hbin & Hbl & H1 & H2 & H3); try done.
  { by apply Hreq. }
  exists e, below. split_and!; try done. intros Hne u Ep.
  unfold entry_paths in Hbin. rewrite Ep in Hbin. apply list_elem_of_singleton in Hbin as ->.
  specialize (Hviol e He). unfold violating_path in Hviol. rewrite Hrd, Ep in Hviol. simpl in Hviol.
  rewrite (proj1 Hbl), Hcwd in Hviol. simpl in Hviol.
  assert (matches_prepared_read_deny u context prepared = true) as Hm; [|by rewrite Hm in Hviol].
  unfold matches_prepared_read_deny. rewrite Hcwd. rewrite !orb_true_iff. left. right.
  apply existsb_exists. exists root. rewrite <-list_elem_of_In, (prepared_roots _ _ _ Epr).
  split; [by eapply denied_root_prepared|]. by apply starts_with_names.
Qed.
End denials.

(** ** Concrete workspace roots *)

Section materialize.
Context `{FileUrlLaws}.
Implicit Types (p : FileSystemSandboxPolicy) (context : FileSystemSandboxPolicyContext) (path root : Url).

(** A subpath of plain names that does not start at the home directory *)
Definition plain_subpath (subpath : rstr) : Prop :=
  subpath ≠ [] ∧ 0%N ∉ subpath ∧ starts_with subpath [47%N] = false ∧ starts_with subpath (str "~") = false
  ∧ Forall (λ s, s = [] ∨ component_name s) (split_char 47%N subpath).
Definition plain_entry (e : FileSystemSandboxEntry) : Prop :=
  match entry_path e with
  | SpecialPath (ProjectRoots (Some subpath)) => plain_subpath subpath
  | GlobPattern pattern => starts_with pattern PROJECT_ROOTS_GLOB_PATTERN_PREFIX = false
  | _ => True
  end.

Lemma plain_scoped root (subpath : rstr) :
  sound root → lexical root → plain_subpath subpath →
  ∃ v, uri_join_path root subpath = Ok v ∧ resolve_scoped_workspace_path root subpath = Some v.
Proof.
  intros Hs Hl (Hne & Hnul & Habs & _ & Hp).
  destruct (join_relative root subpath) as (v & Hj & _ & Hlv & Hn); [done..| |].
  { eapply Forall_impl; [done|]. intros s [->|Hc]; [by left|by right; right]. }
  exists v. split; [done|]. unfold resolve_scoped_workspace_path. rewrite (proj1 Hl). simpl. rewrite Habs, Hj. simpl.
  assert (existsb is_dot_segment (path_segments Posix subpath) = false) as ->.
  { apply not_true_iff_false. intros (s & Hin%list_elem_of_In & Hd)%existsb_exists.
    rewrite path_segments_posix in Hin. rewrite Forall_forall in Hp. unfold is_dot_segment, str_eqb in Hd.
    rewrite orb_true_iff, !bool_decide_eq_true in Hd.
    destruct (Hp s Hin) as [->|((_ & _ & ? & ? & _) & _)]; naive_solver. }
  assert (uri_starts_with v root = true) as ->; [|done].
  apply starts_with_names; [done..|]. rewrite Hn. by apply prefix_app_r.
Qed.
Lemma plain_not_home (roots : list Url) (subpath : rstr) :
  Forall lexical roots → plain_subpath subpath → is_home_relative_for roots subpath = false.
Proof.
  intros Hl (_ & _ & _ & Hh & _). apply not_true_iff_false. intros (root & Hin%list_elem_of_In & Hr)%existsb_exists.
  rewrite Forall_forall in Hl. rewrite (proj1 (Hl _ Hin)) in Hr. apply bool_decide_eq_true in Hr. apply Hr.
  unfold home_relative_suffix. unfold starts_with in Hh. by destruct (strip_prefix (str "~") subpath).
Qed.

(** One entry and what it becomes *)
Lemma materialized_entry context e roots :
  ctx_workspace_roots context = roots → Forall (λ r, sound r ∧ lexical r) roots → plain_entry e →
  ∃ es, materialized_entries roots e = Some es ∧
    (es ≫= λ e', (λ path, (path, entry_access e')) <$>
        filter (λ path, uri_convention path = uri_convention (ctx_cwd context)) (entry_paths context e'))
    = (λ path, (path, entry_access e)) <$>
        filter (λ path, uri_convention path = uri_convention (ctx_cwd context)) (entry_paths context e).
Proof.
  intros Hroots Hl He. unfold materialized_entries.
  destruct (workspace_subpath (entry_path e)) as [[subpath is_glob]|] eqn:Ew.
  2: { eexists. split; [done|]. by rewrite bind_cons, app_nil_r. }
  assert (entry_path e = SpecialPath (ProjectRoots subpath) ∧ is_glob = false) as [Ep ->].
  { destruct (entry_path e) as [u|g|[]] eqn:Ep; simpl in Ew; try done.
    - unfold plain_entry in He. rewrite Ep in He. unfold starts_with in He. by destruct (strip_prefix _ g).
    - by injection Ew as <- <-. }
  assert (Forall lexical roots) as Hl'.
  { eapply Forall_impl; [done|]. by intros ? []. }
  assert (match subpath with Some subpath => is_home_relative_for roots subpath | None => false end = false) as ->.
  { destruct subpath as [s|]; [|done]. unfold plain_entry in He. rewrite Ep in He. by apply plain_not_home. }
  rewrite andb_false_r. eexists. split; [done|]. unfold entry_paths at 2. rewrite Ep, Hroots. clear Hroots Hl' Ew.
  induction Hl as [|root roots [Hs Hlr] Hl IH]; [done|]. simpl.
  assert (∃ v, materialize_entry e subpath false root = Some (mkFsEntry (FsPath v) (entry_access e) (missing_path_behavior e))
               ∧ match subpath with Some subpath => result_ok (uri_join_path root subpath) | None => Some root end = Some v)
    as (v & -> & ->).
  { unfold materialize_entry. simpl. destruct subpath as [s|]; [|by exists root]. unfold plain_entry in He. rewrite Ep in He.
    destruct (plain_scoped root s Hs Hlr He) as (v & Hj & ->). exists v. by rewrite Hj. }
  rewrite bind_cons. unfold entry_paths at 1. simpl.
  rewrite !filter_cons. case_decide; simpl; [f_equal|]; exact IH.
Qed.
Lemma materialized_resolved p context roots :
  ctx_workspace_roots context = roots → Forall (λ r, sound r ∧ lexical r) roots → Forall plain_entry (fs_entries p) →
  resolved_entries (materialize_project_roots_with_path_uris p roots) context = resolved_entries p context
  ∧ fs_kind (materialize_project_roots_with_path_uris p roots) = fs_kind p.
Proof.
  intros Hroots Hl Hp. unfold materialize_project_roots_with_path_uris, try_materialize_project_roots_with_path_uris.
  assert (∃ ess, mapM (materialized_entries roots) (fs_entries p) = Some ess
    ∧ ∀ d, resolved_entries (mkFsPolicy (fs_kind p) d (concat ess)) context = resolved_entries p context)
    as (ess & -> & He); [|by split; [apply He|]].
  unfold resolved_entries. simpl. induction Hp as [|e entries He Hp IH]; [by exists []|].
  destruct IH as (ess & Em & IH). destruct (materialized_entry context e roots Hroots Hl He) as (es & Ee & Hes).
  exists (es :: ess). split; [simpl; rewrite Ee; simpl; by rewrite Em|]. intros d.
  change (concat (es :: ess)) with (es ++ concat ess). rewrite bind_app, bind_cons, Hes. f_equal. exact (IH None).
Qed.

(** Making the workspace roots concrete leaves the access to every path as it
    was. *)
Theorem materialized_access_unchanged p context path :
  Forall (λ r, sound r ∧ lexical r) (ctx_workspace_roots context) → Forall plain_entry (fs_entries p) →
  resolve_access (materialize_project_roots_with_path_uris p (ctx_workspace_roots context)) path context
  = resolve_access p path context.
Proof.
  intros Hl Hp. destruct (materialized_resolved p context _ eq_refl Hl Hp) as [He Hk].
  unfold resolve_access. by rewrite He, Hk.
Qed.
(** Whatever the subpaths are, concrete entries stay inside the roots and grant no more. *)
Lemma materialized_stays_inside p (roots : list Url) e :
  e ∈ fs_entries (materialize_project_roots_with_path_uris p roots) →
  e ∈ fs_entries p
  ∨ ∃ e0 root, e0 ∈ fs_entries p ∧ root ∈ roots ∧ (entry_access e = entry_access e0 ∨ entry_access e = AccessDeny)
      ∧ ∀ u, entry_path e = FsPath u → uri_starts_with u root = true.
Proof.
  unfold materialize_project_roots_with_path_uris, try_materialize_project_roots_with_path_uris.
  destruct (mapM _ _) as [ess|] eqn:Em; simpl; [|set_solver]. apply mapM_Some in Em.
  intros (es & Hes%list_elem_of_In & He%list_elem_of_In)%list_elem_of_In%in_concat.
  apply list_elem_of_lookup_1 in Hes as [i Hes]. destruct (Forall2_lookup_r _ _ _ _ _ Em Hes) as (e0 & He0%list_elem_of_lookup_2 & Hm). unfold materialized_entries in Hm.
  destruct (workspace_subpath (entry_path e0)) as [[subpath is_glob]|];
    [|injection Hm as <-; apply list_elem_of_singleton in He as ->; by left].
  destruct (_ && _); [done|]. injection Hm as <-. apply list_elem_of_omap in He as (root & Hroot & Hm).
  right. exists e0, root. split_and!; [done..| |]; unfold materialize_entry in Hm.
  - destruct (if _ && _ then _ else _) as [v|]; [injection Hm as <-; by left|]. destruct (can_write _); [done|].
    injection Hm as <-. by right.
  - intros u Hu. destruct (_ && unsafe_glob_directory root) eqn:Eg.
    { destruct (can_write _); [done|]. injection Hm as <-. simpl in Hu. injection Hu as <-.
      unfold uri_starts_with. by rewrite uri_eqb_refl. }
    destruct subpath as [s|].
    + destruct (resolve_scoped_workspace_path root s) as [v|] eqn:Er.
      * injection Hm as <-. destruct is_glob; simpl in Hu; [done|]. injection Hu as <-.
        unfold resolve_scoped_workspace_path in Er. destruct (uri_convention root); simpl in Er; [|done].
        destruct (_ || _); [done|]. destruct (result_ok _) as [v'|]; simpl in Er; [|done].
        destruct (uri_starts_with v' root) eqn:Es; [|done]. by injection Er as <-.
      * destruct (can_write _); [done|]. injection Hm as <-. simpl in Hu. injection Hu as <-.
        unfold uri_starts_with. by rewrite uri_eqb_refl.
    + injection Hm as <-. destruct is_glob; simpl in Hu; [done|]. injection Hu as <-.
      unfold uri_starts_with. by rewrite uri_eqb_refl.
Qed.
End materialize.
