(* ===== verification/FsHost.v ===== *)
(** File-system permissions on this host: the part of [protocol/src/permissions.rs]
    that asks the host about paths, and the legacy policies of
    [protocol/src/protocol.rs].

    The host is a Unix host. Absolute paths are the normalized texts that
    [AbsolutePathBuf] holds; what the file system and the environment say is an
    interface. *)

From stdpp Require Import sorting.
From S2P Require Import Prelude Utf8 AbsolutePath PathUris PathUriExample ConfigPaths FsPolicy.
#[local] Opaque str.

(** ** The host *)

Class HostFs := {
  (** [std::env::var_os("TMPDIR")] *)
  tmpdir_var : option rstr;
  is_file_at : rstr → bool;
  is_dir_at : rstr → bool;
  exists_at : rstr → bool;
  read_to_string : rstr → option rstr;
  (** [symlink_metadata]: whether it is a link *)
  symlink_at : rstr → option bool;
  (** [dunce::canonicalize], [Path::canonicalize] *)
  fs_canonicalize : rstr → option rstr;
}.

(** Of [std::path], on normalized absolute paths *)
Definition path_names (p : rstr) : list rstr :=
  omap (λ c, match c with Normal n => Some n | _ => None end) (components p).
Definition path_of (names : list rstr) : rstr := path_text (mkPath true names).
Definition path_ancestors (p : rstr) : list rstr :=
  (λ k, path_of (take k (path_names p))) <$> reverse (seq 0 (S (length (path_names p)))).
Definition path_starts_with (p base : rstr) : bool := bool_decide (components base `prefix_of` components p).
Definition path_strip_prefix (p base : rstr) : option rstr :=
  if path_starts_with p base then Some (join [47%N] (drop (length (path_names base)) (path_names p))) else None.
Definition parent_path (p : rstr) : option rstr :=
  if is_empty (path_names p) then None else Some (path_of (take (length (path_names p) - 1) (path_names p))).

(** ** Legacy policies *)

Inductive NetworkAccess := NetworkAccessRestricted | NetworkAccessEnabled.
Inductive SandboxPolicy :=
| DangerFullAccess
| ReadOnly (network_access : bool)
| LegacyExternalSandbox (network_access : NetworkAccess)
| WorkspaceWrite (writable_roots : list rstr) (network_access exclude_tmpdir_env_var exclude_slash_tmp : bool).
Record WritableRoot := mkWritableRoot {
  wr_root : rstr;
  wr_read_only_subpaths : list rstr;
  wr_protected_metadata_names : list rstr;
}.
#[global] Instance WritableRoot_eq_dec : EqDecision WritableRoot.
Proof. solve_decision. Defined.

Definition path_contains_protected_metadata_name (w : WritableRoot) (path : rstr) : bool :=
  match path_strip_prefix path (wr_root w) with
  | Some relative_path =>
      match components relative_path with
      | Normal first :: _ => bool_decide (first ∈ wr_protected_metadata_names w)
      | _ => false
      end
  | None => false
  end.
Definition is_path_writable (w : WritableRoot) (path : rstr) : bool :=
  path_starts_with path (wr_root w)
  && negb (existsb (path_starts_with path) (wr_read_only_subpaths w))
  && negb (path_contains_protected_metadata_name w path).

Definition legacy_has_full_disk_write_access (s : SandboxPolicy) : bool :=
  match s with DangerFullAccess | LegacyExternalSandbox _ => true | _ => false end.
Definition has_full_network_access (s : SandboxPolicy) : bool :=
  match s with
  | DangerFullAccess => true
  | LegacyExternalSandbox NetworkAccessEnabled => true
  | LegacyExternalSandbox NetworkAccessRestricted => false
  | ReadOnly network_access | WorkspaceWrite _ network_access _ _ => network_access
  end.
Definition network_from_legacy (s : SandboxPolicy) : NetworkSandboxPolicy :=
  if has_full_network_access s then NetEnabled else NetRestricted.
Definition net_is_enabled (n : NetworkSandboxPolicy) : bool := bool_decide (n = NetEnabled).

(** The first occurrences, in order *)
Definition dedup_paths (paths : list rstr) : list rstr :=
  foldl (λ deduped path, if bool_decide (path ∈ deduped) then deduped else deduped ++ [path]) [] paths.

(** [Path]'s order: components, and names by their bytes *)
Fixpoint bytes_le (a b : list N) : bool :=
  match a, b with
  | [], _ => true
  | _, [] => false
  | x :: a, y :: b => (x <? y)%N || (x =? y)%N && bytes_le a b
  end.
Fixpoint names_le (a b : list rstr) : bool :=
  match a, b with
  | [], _ => true
  | _, [] => false
  | x :: a, y :: b => if str_eqb x y then names_le a b else bytes_le (utf8 x) (utf8 y)
  end.
Definition path_le (a b : rstr) : Prop := names_le (path_names a) (path_names b) = true.
#[global] Instance path_le_dec : RelDecision path_le := λ a b, bool_eq_dec _ _.
Definition text_le (a b : rstr) : Prop := bytes_le (utf8 a) (utf8 b) = true.
#[global] Instance text_le_dec : RelDecision text_le := λ a b, bool_eq_dec _ _.
Definition root_le (a b : WritableRoot) : Prop := path_le (wr_root a) (wr_root b).
#[global] Instance root_le_dec : RelDecision root_le := λ a b, path_le_dec _ _.
(** [Vec::dedup] *)
Fixpoint dedup_adjacent (l : list rstr) : list rstr :=
  match l with
  | x :: ((y :: _) as l') => if str_eqb x y then dedup_adjacent l' else x :: dedup_adjacent l'
  | _ => l
  end.
Definition sorted_absolute_paths (paths : list rstr) : list rstr := merge_sort path_le paths.
Definition sorted_writable_roots (roots : list WritableRoot) : list WritableRoot :=
  merge_sort root_le
    ((λ w, mkWritableRoot (wr_root w) (sorted_absolute_paths (wr_read_only_subpaths w))
             (dedup_adjacent (merge_sort text_le (wr_protected_metadata_names w)))) <$> roots).

Section host.
Context `{FileUrls} `{PathEnv} `{HostFs}.
Implicit Types (p : FileSystemSandboxPolicy) (cwd path root : rstr).

Definition abs_join (base path : rstr) : rstr := resolve_path_against_base path base.

(** ** Effective paths *)

Definition should_preserve_logical_path (logical : rstr) : bool :=
  existsb (λ ancestor, bool_decide (symlink_at ancestor = Some true) && (1 <? length (path_names ancestor)))
    (path_ancestors logical).
Definition canonicalize_preserving_symlinks path : option rstr :=
  logical ← from_absolute_path path;
  match fs_canonicalize path with
  | Some canonical => if should_preserve_logical_path logical && negb (str_eqb canonical logical)
                      then Some logical else Some canonical
  | None => Some logical
  end.
Definition effective_from path (ancestor : rstr) : option rstr :=
  _ ← symlink_at ancestor;
  normalized_ancestor ← canonicalize_preserving_symlinks ancestor;
  suffix ← path_strip_prefix path ancestor;
  from_absolute_path (path_join normalized_ancestor suffix).
Definition normalize_effective_absolute_path path : rstr :=
  default path (head (omap (effective_from path) (path_ancestors path))).
Definition normalize_trusted_top_level_alias path : rstr :=
  default path
    (top_level ← head (filter (λ a, length (path_names a) = 1) (path_ancestors path));
     is_symlink ← symlink_at top_level;
     if negb is_symlink then None
     else canonical_top_level ← fs_canonicalize top_level;
          suffix ← path_strip_prefix path top_level;
          from_absolute_path (path_join canonical_top_level suffix)).
Inductive WritableRootPathResolution := Effective | PreserveMutableComponents.
Definition resolve_root (r : WritableRootPathResolution) path : rstr :=
  match r with
  | Effective => normalize_effective_absolute_path path
  | PreserveMutableComponents => normalize_trusted_top_level_alias path
  end.
Definition dedup_absolute_paths (paths : list rstr) (normalize_effective_paths : bool) : list rstr :=
  dedup_paths (if normalize_effective_paths then normalize_effective_absolute_path <$> paths else paths).

(** ** Protected subpaths *)

Definition is_git_pointer_file path : bool :=
  is_file_at path && bool_decide (last (path_names path) = Some (str ".git")).
Definition resolve_gitdir_from_file (dot_git : rstr) : option rstr :=
  contents ← read_to_string dot_git;
  '(prefix, gitdir_raw) ← split_once 58%N (trim contents);
  if negb (str_eqb (trim prefix) (str "gitdir")) then None
  else
    let gitdir_raw := trim gitdir_raw in
    if is_empty gitdir_raw then None
    else base ← parent_path dot_git;
         let gitdir_path := resolve_path_against_base gitdir_raw base in
         if exists_at gitdir_path then Some gitdir_path else None.
Definition default_read_only_subpaths_for_writable_root (writable_root : rstr) (protect_missing_dot_codex : bool)
    : list rstr :=
  let top_level_git := abs_join writable_root (str ".git") in
  let git :=
    if is_dir_at top_level_git || is_file_at top_level_git
    then (if is_file_at top_level_git && is_git_pointer_file top_level_git
          then option_list (resolve_gitdir_from_file top_level_git) else []) ++ [top_level_git]
    else [] in
  let top_level_agents := abs_join writable_root (str ".agents") in
  let top_level_codex := abs_join writable_root (str ".codex") in
  dedup_paths
    (git ++ (if is_dir_at top_level_agents then [top_level_agents] else [])
     ++ (if protect_missing_dot_codex || is_dir_at top_level_codex then [top_level_codex] else [])).

Definition append_default_read_only_entry_if_no_explicit_rule (entries : list FileSystemSandboxEntry)
    (path : FileSystemPath) : list FileSystemSandboxEntry :=
  if existsb (λ e, file_system_paths_share_target (entry_path e) path Posix) entries then entries
  else entries ++ [skip_missing_path path AccessRead].
Definition append_project_root_subpath (entries : list FileSystemSandboxEntry) (subpath : rstr)
    : list FileSystemSandboxEntry :=
  append_default_read_only_entry_if_no_explicit_rule entries (SpecialPath (ProjectRoots (Some subpath))).
Definition append_default_read_only_path (entries : list FileSystemSandboxEntry) path : list FileSystemSandboxEntry :=
  append_default_read_only_entry_if_no_explicit_rule entries (FsPath (from_abs_path path)).
Definition protect_root (protect_missing_dot_codex : bool) (entries : list FileSystemSandboxEntry) root
    : list FileSystemSandboxEntry :=
  foldl append_default_read_only_path entries (default_read_only_subpaths_for_writable_root root protect_missing_dot_codex).

(** ** Legacy policies *)

Definition write_entry path : FileSystemSandboxEntry := new_entry (FsPath (from_abs_path path)) AccessWrite.
Definition workspace_entries (writable_roots : list rstr) (exclude_tmpdir_env_var exclude_slash_tmp : bool)
    : list FileSystemSandboxEntry :=
  [new_entry (SpecialPath SpecialRoot) AccessRead; new_entry (SpecialPath (ProjectRoots None)) AccessWrite]
  ++ (if exclude_slash_tmp then [] else [new_entry (SpecialPath SlashTmp) AccessWrite])
  ++ (if exclude_tmpdir_env_var then [] else [new_entry (SpecialPath Tmpdir) AccessWrite])
  ++ (write_entry <$> writable_roots).
Definition workspace_write (writable_roots : list rstr) (exclude_tmpdir_env_var exclude_slash_tmp : bool)
    : FileSystemSandboxPolicy :=
  let entries := foldl append_project_root_subpath (workspace_entries writable_roots exclude_tmpdir_env_var exclude_slash_tmp)
                   [str ".git"; str ".agents"; str ".codex"] in
  fs_restricted (foldl (protect_root false) entries writable_roots).
Definition workspace_write_with_path_uris (roots : list Url) (exclude_tmpdir_env_var exclude_slash_tmp : bool)
    : FileSystemSandboxPolicy :=
  with_materialized_project_roots_for_path_uris (workspace_write [] exclude_tmpdir_env_var exclude_slash_tmp) roots.
(** [From<&SandboxPolicy> for FileSystemSandboxPolicy] *)
Definition from_legacy (s : SandboxPolicy) : FileSystemSandboxPolicy :=
  match s with
  | DangerFullAccess => fs_unrestricted
  | LegacyExternalSandbox _ => fs_external_sandbox
  | ReadOnly _ => fs_restricted [new_entry (SpecialPath SpecialRoot) AccessRead]
  | WorkspaceWrite writable_roots _ exclude_tmpdir_env_var exclude_slash_tmp =>
      workspace_write writable_roots exclude_tmpdir_env_var exclude_slash_tmp
  end.
Definition with_entries p (entries : list FileSystemSandboxEntry) : FileSystemSandboxPolicy :=
  mkFsPolicy (fs_kind p) (glob_scan_max_depth p) entries.
(** The protected paths of the working directory and of the roots *)
Definition protect_roots cwd (writable_roots : list rstr) (entries : list FileSystemSandboxEntry)
    : list FileSystemSandboxEntry :=
  let entries := match from_absolute_path cwd with Some cwd_root => protect_root true entries cwd_root | None => entries end in
  foldl (protect_root false) entries writable_roots.
Definition from_legacy_sandbox_policy_for_cwd (s : SandboxPolicy) cwd : FileSystemSandboxPolicy :=
  let p := from_legacy s in
  match s with
  | WorkspaceWrite writable_roots _ _ _ => with_entries p (protect_roots cwd writable_roots (fs_entries p))
  | _ => p
  end.
Definition from_legacy_sandbox_policy_preserving_deny_entries (s : SandboxPolicy) cwd
    (existing : FileSystemSandboxPolicy) : FileSystemSandboxPolicy :=
  let rebuilt := from_legacy_sandbox_policy_for_cwd s cwd in
  if negb (is_restricted rebuilt) then rebuilt
  else mkFsPolicy (fs_kind rebuilt) (glob_scan_max_depth existing)
         (foldl push_missing (fs_entries rebuilt) (deny_entries existing)).
Definition legacy_runtime_file_system_policy_for_cwd (s : SandboxPolicy) cwd : FileSystemSandboxPolicy :=
  match s with
  | WorkspaceWrite writable_roots _ exclude_tmpdir_env_var exclude_slash_tmp =>
      fs_restricted (protect_roots cwd writable_roots (workspace_entries writable_roots exclude_tmpdir_env_var exclude_slash_tmp))
  | _ => from_legacy s
  end.

Definition tmpdir_path : option rstr :=
  tmpdir ← tmpdir_var; if is_empty tmpdir then None else from_absolute_path tmpdir.
Definition slash_tmp_path : option rstr :=
  slash_tmp ← from_absolute_path (str "/tmp"); if is_dir_at slash_tmp then Some slash_tmp else None.
Definition legacy_get_writable_roots_with_cwd (s : SandboxPolicy) cwd : list WritableRoot :=
  match s with
  | WorkspaceWrite writable_roots _ exclude_tmpdir_env_var exclude_slash_tmp =>
      let cwd_root := from_absolute_path cwd in
      let roots :=
        writable_roots ++ option_list cwd_root ++ (if exclude_slash_tmp then [] else option_list slash_tmp_path)
        ++ (if exclude_tmpdir_env_var then [] else option_list tmpdir_path) in
      (λ root, mkWritableRoot root
                 (default_read_only_subpaths_for_writable_root root (bool_decide (cwd_root = Some root))) []) <$> roots
  | _ => []
  end.

(** ** Resolution *)

(** An absolute path has a root, which is absolute. *)
Definition absolute_root_path_for_cwd cwd : rstr := default cwd (last (path_ancestors cwd) ≫= from_absolute_path).
Definition resolve_file_system_special_path (value : FileSystemSpecialPath) (cwd : option rstr) : option rstr :=
  match value with
  | SpecialRoot | SpecialMinimal | SpecialUnknown _ _ => None
  | ProjectRoots subpath =>
      cwd ← cwd; Some match subpath with Some subpath => resolve_path_against_base subpath cwd | None => cwd end
  | Tmpdir => tmpdir_path
  | SlashTmp => slash_tmp_path
  end.
Definition resolve_file_system_path (path : FileSystemPath) (cwd : option rstr) : option rstr :=
  match path with
  | FsPath path => to_abs_path path
  | GlobPattern _ => None
  | SpecialPath value => resolve_file_system_special_path value cwd
  end.
Definition resolve_entry_path (path : FileSystemPath) (cwd : option rstr) : option rstr :=
  match path with
  | SpecialPath SpecialRoot => absolute_root_path_for_cwd <$> cwd
  | _ => resolve_file_system_path path cwd
  end.
Definition resolve_candidate_path path cwd : option rstr :=
  if path_is_absolute path then from_absolute_path path
  else base ← from_absolute_path cwd; Some (abs_join base path).
Definition local_temporary_directories : list Url := from_abs_path <$> option_list tmpdir_path.
Definition local_context (cwd : Url) : FileSystemSandboxPolicyContext :=
  mkFsContext cwd [cwd] (from_host_native_path (str "~")) (Some local_temporary_directories).
Definition with_local_policy_context {T} path cwd (evaluate : Url → FileSystemSandboxPolicyContext → T) : option T :=
  cwd ← from_absolute_path cwd;
  path ← resolve_candidate_path path cwd;
  Some (evaluate (from_abs_path path) (local_context (from_abs_path cwd))).
Definition resolve_access_for_local_path_with_cwd p path cwd : FileSystemAccessMode :=
  default AccessDeny (with_local_policy_context path cwd (resolve_access p)).
Definition can_read_local_path_with_cwd p path cwd : bool := can_read (resolve_access_for_local_path_with_cwd p path cwd).
Definition can_write_local_path_with_cwd p path cwd : bool :=
  default false (with_local_policy_context path cwd (can_write_path p)).
Definition has_configured_writable_roots_with_cwd p cwd : bool :=
  default false (with_local_policy_context cwd cwd (λ _, has_configured_writable_roots p)).
Definition forbidden_agent_metadata_write path cwd p : option rstr :=
  if negb (is_restricted p) then None
  else name ← with_local_policy_context path cwd (λ (path : Url) context,
                if can_write_path p path context then None else metadata_write_denial p path context);
       name.
Definition has_explicit_non_write_entry_for_local_path_with_cwd p path cwd : bool :=
  match resolve_candidate_path path cwd with
  | Some path =>
      let cwd := from_absolute_path cwd in
      existsb (λ e, negb (skips_missing_path e) && negb (can_write (entry_access e))
                    && bool_decide (resolve_entry_path (entry_path e) cwd = Some path)) (fs_entries p)
  | None => false
  end.

(** ** More roots *)

Definition with_additional_readable_roots p cwd (additional : list rstr) : FileSystemSandboxPolicy :=
  if has_full_disk_read_access p then p
  else foldl (λ p path, if can_read_local_path_with_cwd p path cwd then p
                        else with_entries p (fs_entries p ++ [new_entry (FsPath (from_abs_path path)) AccessRead]))
         p additional.
Definition with_additional_writable_roots p cwd (additional : list rstr) : FileSystemSandboxPolicy :=
  foldl (λ p path, if can_write_local_path_with_cwd p path cwd then p
                   else with_entries p (fs_entries p ++ [write_entry path])) p additional.
Definition has_write_entry_for (entries : list FileSystemSandboxEntry) path : bool :=
  existsb (λ e, can_write (entry_access e)
                && match entry_path e with FsPath existing => uri_eqb existing (from_abs_path path) | _ => false end) entries.
Definition with_additional_legacy_workspace_writable_roots p (additional : list rstr) : FileSystemSandboxPolicy :=
  if negb (is_restricted p) then p
  else with_entries p
         (foldl (λ entries path,
                   let entries := if has_write_entry_for entries path then entries else entries ++ [write_entry path] in
                   protect_root false entries path) (fs_entries p) additional).
Definition materialize_project_roots_with_workspace_roots p (workspace_roots : list rstr) : FileSystemSandboxPolicy :=
  materialize_project_roots_with_path_uris p (from_abs_path <$> workspace_roots).
Definition with_materialized_project_roots_for_workspace_roots p (workspace_roots : list rstr) : FileSystemSandboxPolicy :=
  with_materialized_project_roots_for_path_uris p (from_abs_path <$> workspace_roots).

(** ** Roots for the sandboxes *)

Record ResolvedFileSystemEntry := mkResolved { resolved_path : rstr; resolved_access : FileSystemAccessMode }.
Definition resolved_entries_with_cwd p cwd : list ResolvedFileSystemEntry :=
  let cwd_absolute := from_absolute_path cwd in
  omap (λ e, path ← resolve_entry_path (entry_path e) cwd_absolute; Some (mkResolved path (entry_access e))) (fs_entries p).
Definition get_readable_roots_with_cwd p cwd : list rstr :=
  if has_full_disk_read_access p then []
  else dedup_absolute_paths
         (omap (λ e, if can_read (resolved_access e) && can_read_local_path_with_cwd p (resolved_path e) cwd
                     then Some (resolved_path e) else None) (resolved_entries_with_cwd p cwd)) true.
Definition get_unreadable_roots_with_cwd p cwd : list rstr :=
  if negb (is_restricted p) then []
  else
    let root := absolute_root_path_for_cwd <$> from_absolute_path cwd in
    dedup_absolute_paths
      (omap (λ e, if bool_decide (resolved_access e = AccessDeny)
                     && negb (can_read_local_path_with_cwd p (resolved_path e) cwd)
                     && negb (bool_decide (root = Some (resolved_path e)))
                  then Some (resolved_path e) else None) (resolved_entries_with_cwd p cwd)) true.

Definition has_explicit_resolved_path_entry (entries : list ResolvedFileSystemEntry) path : bool :=
  existsb (λ e, str_eqb (resolved_path e) path) entries.
Definition protected_metadata_names_for_writable_root p root (raw_writable_roots : list rstr) cwd : list rstr :=
  filter (λ metadata_name,
            forallb (λ metadata_path, negb (can_write_local_path_with_cwd p metadata_path cwd))
              (abs_join root metadata_name :: ((λ raw_root, abs_join raw_root metadata_name) <$> raw_writable_roots))
            = true) PROTECTED_METADATA_PATH_NAMES.

Record PreparedFileSystemEntry := mkPreparedEntry { prepared_entry : ResolvedFileSystemEntry; effective_path : rstr }.
(** The path of a carveout as it is written, below the root *)
Definition raw_carveout_path root (raw_writable_roots : list rstr) (e : ResolvedFileSystemEntry) : option rstr :=
  match parent_path root with
  | None => None
  | Some _ =>
      if str_eqb (resolved_path e) root then None
      else if path_starts_with (resolved_path e) root then Some (resolved_path e)
      else head (omap (λ raw_root,
                         suffix ← path_strip_prefix (resolved_path e) raw_root;
                         if is_empty suffix then None else Some (abs_join root suffix)) raw_writable_roots)
  end.
Definition carveout root (raw_writable_roots : list rstr) (prepared : PreparedFileSystemEntry) : option rstr :=
  if can_write (resolved_access (prepared_entry prepared)) then None
  else match raw_carveout_path root raw_writable_roots (prepared_entry prepared) with
       | Some path => Some path
       | None =>
           if str_eqb (effective_path prepared) root || negb (path_starts_with (effective_path prepared) root)
           then None else Some (effective_path prepared)
       end.
Definition writable_root_of p cwd (resolved : list ResolvedFileSystemEntry) (prepared : list PreparedFileSystemEntry)
    (effective_cwd : option rstr) root : WritableRoot :=
  let raw_writable_roots :=
    omap (λ e, if can_write (resolved_access (prepared_entry e)) && str_eqb (effective_path e) root
               then Some (resolved_path (prepared_entry e)) else None) prepared in
  let defaults :=
    filter (λ path, has_explicit_resolved_path_entry resolved path = false)
      (default_read_only_subpaths_for_writable_root root (bool_decide (effective_cwd = Some root))) in
  mkWritableRoot root (dedup_absolute_paths (defaults ++ omap (carveout root raw_writable_roots) prepared) false)
    (protected_metadata_names_for_writable_root p root raw_writable_roots cwd).
Definition get_writable_roots_with_cwd_impl p cwd (path_resolution : WritableRootPathResolution) : list WritableRoot :=
  if has_full_disk_write_access p then []
  else
    let resolved := resolved_entries_with_cwd p cwd in
    let effective :=
      filter (λ e, can_write (resolved_access e) = can_write_local_path_with_cwd p (resolved_path e) cwd) resolved in
    if negb (existsb (λ e, can_write (resolved_access e)) effective) then []
    else
      let prepared := (λ e, mkPreparedEntry e (resolve_root path_resolution (resolved_path e))) <$> effective in
      let effective_cwd := resolve_root path_resolution <$> from_absolute_path cwd in
      writable_root_of p cwd resolved prepared effective_cwd <$>
        dedup_absolute_paths (effective_path <$> filter (λ e, can_write (resolved_access (prepared_entry e)) = true) prepared)
          false.
Definition get_writable_roots_with_cwd p cwd : list WritableRoot := get_writable_roots_with_cwd_impl p cwd Effective.
Definition get_writable_roots_with_cwd_preserving_mutable_paths p cwd : list WritableRoot :=
  get_writable_roots_with_cwd_impl p cwd PreserveMutableComponents.

(** ** To legacy policies *)

Inductive LegacyError := PathNotNative | WritesOutsideWorkspace.
Record LegacyGrants := mkLegacyGrants {
  workspace_root_writable : bool;
  legacy_writable_roots : list rstr;
  tmpdir_writable : bool;
  slash_tmp_writable : bool;
  unbridgeable_root_write : bool;
}.
Definition legacy_grants_start : LegacyGrants := mkLegacyGrants false [] false false false.
Definition legacy_step (cwd_absolute : option rstr) (g : LegacyGrants) (e : FileSystemSandboxEntry)
    : result LegacyError LegacyGrants :=
  let '(mkLegacyGrants workspace roots tmpdir slash_tmp unbridgeable) := g in
  if negb (can_write (entry_access e)) then Ok g
  else match entry_path e with
       | GlobPattern _ => Ok g
       | FsPath path =>
           path ← ok_or (to_abs_path path) PathNotNative;
           Ok (if bool_decide (cwd_absolute = Some path)
               then mkLegacyGrants true roots tmpdir slash_tmp unbridgeable
               else mkLegacyGrants workspace (roots ++ [path]) tmpdir slash_tmp unbridgeable)
       | SpecialPath SpecialRoot => Ok (mkLegacyGrants workspace roots tmpdir slash_tmp true)
       | SpecialPath (SpecialMinimal | SpecialUnknown _ _) => Ok g
       | SpecialPath (ProjectRoots None) => Ok (mkLegacyGrants true roots tmpdir slash_tmp unbridgeable)
       | SpecialPath (ProjectRoots (Some _) as value) =>
           Ok match resolve_file_system_special_path value cwd_absolute with
              | Some path => mkLegacyGrants workspace (roots ++ [path]) tmpdir slash_tmp unbridgeable
              | None => g
              end
       | SpecialPath Tmpdir => Ok (mkLegacyGrants workspace roots true slash_tmp unbridgeable)
       | SpecialPath SlashTmp => Ok (mkLegacyGrants workspace roots tmpdir true unbridgeable)
       end.
Fixpoint legacy_grants (cwd_absolute : option rstr) (g : LegacyGrants) (entries : list FileSystemSandboxEntry)
    : result LegacyError LegacyGrants :=
  match entries with
  | [] => Ok g
  | e :: entries => g ← legacy_step cwd_absolute g e; legacy_grants cwd_absolute g entries
  end.
Definition unrestricted_legacy (network : NetworkSandboxPolicy) : SandboxPolicy :=
  if net_is_enabled network then DangerFullAccess else LegacyExternalSandbox NetworkAccessRestricted.
Definition to_legacy_sandbox_policy p (network : NetworkSandboxPolicy) cwd : result LegacyError SandboxPolicy :=
  match fs_kind p with
  | ExternalSandbox =>
      Ok (LegacyExternalSandbox (if net_is_enabled network then NetworkAccessEnabled else NetworkAccessRestricted))
  | Unrestricted => Ok (unrestricted_legacy network)
  | Restricted =>
      g ← legacy_grants (from_absolute_path cwd) legacy_grants_start (fs_entries p);
      if has_full_disk_write_access p then Ok (unrestricted_legacy network)
      else if workspace_root_writable g
      then Ok (WorkspaceWrite (dedup_absolute_paths (legacy_writable_roots g) false) (net_is_enabled network)
                 (negb (tmpdir_writable g)) (negb (slash_tmp_writable g)))
      else if unbridgeable_root_write g || negb (is_empty (legacy_writable_roots g)) || tmpdir_writable g
              || slash_tmp_writable g
      then Err WritesOutsideWorkspace
      else Ok (ReadOnly (net_is_enabled network))
  end.

(** ** Comparing policies *)

Definition get_unreadable_globs_with_cwd p cwd : list rstr :=
  if negb (is_restricted p) then []
  else dedup_adjacent (merge_sort text_le
         ((λ pattern, resolve_path_against_base pattern cwd) <$> deny_read_patterns p)).
Record FileSystemSemanticSignature := mkSignature {
  sig_full_disk_read : bool;
  sig_full_disk_write : bool;
  sig_platform_defaults : bool;
  sig_readable_roots : list rstr;
  sig_writable_roots : list WritableRoot;
  sig_unreadable_roots : list rstr;
  sig_unreadable_globs : list rstr;
}.
#[local] Instance signature_eq_dec : EqDecision FileSystemSemanticSignature.
Proof. solve_decision. Defined.
Definition semantic_signature p cwd : FileSystemSemanticSignature :=
  mkSignature (has_full_disk_read_access p) (has_full_disk_write_access p) (include_platform_defaults p)
    (sorted_absolute_paths (get_readable_roots_with_cwd p cwd))
    (sorted_writable_roots (get_writable_roots_with_cwd p cwd))
    (sorted_absolute_paths (get_unreadable_roots_with_cwd p cwd))
    (get_unreadable_globs_with_cwd p cwd).
Definition is_semantically_equivalent_to p (other : FileSystemSandboxPolicy) cwd : bool :=
  bool_decide (semantic_signature p cwd = semantic_signature other cwd).
Definition protected_metadata_names_need_direct_runtime_enforcement p (legacy_policy : SandboxPolicy) cwd : bool :=
  let legacy_roots := legacy_get_writable_roots_with_cwd legacy_policy cwd in
  existsb (λ w,
    match find (λ candidate, str_eqb (wr_root candidate) (wr_root w)) legacy_roots with
    | None => negb (is_empty (wr_protected_metadata_names w))
    | Some legacy_root =>
        existsb (λ metadata_name,
                   negb (bool_decide (abs_join (wr_root w) metadata_name ∈ wr_read_only_subpaths legacy_root)))
          (wr_protected_metadata_names w)
    end) (get_writable_roots_with_cwd p cwd).
Definition needs_direct_runtime_enforcement p (network : NetworkSandboxPolicy) cwd : bool :=
  if negb (is_restricted p) then false
  else match to_legacy_sandbox_policy p network cwd with
       | Err _ => true
       | Ok legacy_policy =>
           protected_metadata_names_need_direct_runtime_enforcement p legacy_policy cwd
           || negb (is_semantically_equivalent_to p (legacy_runtime_file_system_policy_for_cwd legacy_policy cwd) cwd)
       end.

(** ** Deny-read rules for paths of this host *)

Section local_matcher.
Context `{GlobTools}.

(** [ReadDenyMatcher::build]; the matcher keeps its directory. *)
Definition read_deny_matcher_build p cwd (behavior : InvalidDenyReadGlobBehavior)
    : result DenyReadError (option (rstr * PreparedReadDenyMatcher)) :=
  if negb (has_denied_read_restrictions p) then Ok None
  else cwd ← ok_or (from_absolute_path cwd) InvalidCwd;
       prepared ← prepare_deny_read_matcher p (local_context (from_abs_path cwd)) behavior;
       Ok (Some (cwd, prepared)).
Definition is_local_path_read_denied (cwd : rstr) (prepared : PreparedReadDenyMatcher) path : bool :=
  match resolve_candidate_path path cwd with
  | None => true
  | Some path => matches_prepared_read_deny (from_abs_path path) (local_context (from_abs_path cwd)) prepared
  end.
Definition is_local_path_read_denied_with_canonical_path (cwd : rstr) (prepared : PreparedReadDenyMatcher)
    path (canonical_path : rstr) : bool :=
  is_local_path_read_denied cwd prepared path || is_local_path_read_denied cwd prepared canonical_path.
End local_matcher.

(** ** Profiles *)

Definition enforcement_from_legacy (s : SandboxPolicy) : SandboxEnforcement :=
  match s with
  | DangerFullAccess => EnforcementDisabled
  | LegacyExternalSandbox _ => EnforcementExternal
  | ReadOnly _ | WorkspaceWrite _ _ _ _ => EnforcementManaged
  end.
Definition profile_from_legacy (s : SandboxPolicy) : option PermissionProfile :=
  from_runtime_permissions_with_enforcement (enforcement_from_legacy s) (from_legacy s) (network_from_legacy s).
Definition profile_from_legacy_for_cwd (s : SandboxPolicy) cwd : option PermissionProfile :=
  from_runtime_permissions_with_enforcement (enforcement_from_legacy s) (from_legacy_sandbox_policy_for_cwd s cwd)
    (network_from_legacy s).
Definition profile_workspace_write_with (writable_roots : list rstr) (network : NetworkSandboxPolicy)
    (exclude_tmpdir_env_var exclude_slash_tmp : bool) : option PermissionProfile :=
  file_system ← from_sandbox_policy (workspace_write writable_roots exclude_tmpdir_env_var exclude_slash_tmp);
  Some (Managed file_system network).
Definition profile_to_legacy (profile : PermissionProfile) cwd : result LegacyError SandboxPolicy :=
  match profile with
  | Managed file_system network => to_legacy_sandbox_policy (to_sandbox_policy file_system) network cwd
  | ProfileDisabled => Ok DangerFullAccess
  | ProfileExternal network =>
      Ok (LegacyExternalSandbox (if net_is_enabled network then NetworkAccessEnabled else NetworkAccessRestricted))
  end.
End host.

(** ** Legacy policies survive the translation to profiles and back *)

Section legacy.
Context `{FileUrls} `{PathEnv} `{HostFs}.
Implicit Types (entries tail : list FileSystemSandboxEntry) (cwd : rstr).

Definition no_writes entries : Prop := Forall (λ e, can_write (entry_access e) = false) entries.
(** Entries followed by some that grant no write *)
Definition extends entries entries' : Prop := ∃ tail, entries' = entries ++ tail ∧ no_writes tail.

Lemma extends_refl entries : extends entries entries.
Proof. exists []. rewrite app_nil_r. split; [done|constructor]. Qed.
Lemma extends_trans a b c : extends a b → extends b c → extends a c.
Proof.
  intros (t & -> & Ht) (t' & -> & Ht'). exists (t ++ t'). rewrite (assoc_L (++)). split; [done|]. by apply Forall_app.
Qed.
Lemma append_extends entries path : extends entries (append_default_read_only_entry_if_no_explicit_rule entries path).
Proof.
  unfold append_default_read_only_entry_if_no_explicit_rule. destruct (existsb _ _); [apply extends_refl|].
  eexists. split; [done|]. by repeat constructor.
Qed.
Lemma foldl_extends {A} (f : list FileSystemSandboxEntry → A → list FileSystemSandboxEntry) l entries :
  (∀ es x, extends es (f es x)) → extends entries (foldl f entries l).
Proof.
  intros Hf. revert entries. induction l as [|x l IH]; intros entries; [apply extends_refl|]. simpl.
  eapply extends_trans; [apply Hf|apply IH].
Qed.
Lemma protect_root_extends b entries root : extends entries (protect_root b entries root).
Proof. apply foldl_extends. intros. apply append_extends. Qed.
Lemma protect_roots_extends cwd roots entries : extends entries (protect_roots cwd roots entries).
Proof.
  unfold protect_roots. destruct (from_absolute_path cwd).
  - eapply extends_trans; [apply protect_root_extends|]. apply foldl_extends. intros. apply protect_root_extends.
  - apply foldl_extends. intros. apply protect_root_extends.
Qed.
Lemma workspace_write_extends roots t s :
  extends (workspace_entries roots t s) (fs_entries (workspace_write roots t s)).
Proof.
  unfold workspace_write. simpl fs_entries. eapply extends_trans; [|apply foldl_extends; intros; apply protect_root_extends].
  do 3 (eapply extends_trans; [|apply append_extends]). apply extends_refl.
Qed.

(** What the entries grant *)
Lemma legacy_grants_app (c : option rstr) g a b :
  legacy_grants c g (a ++ b) = g' ← legacy_grants c g a; legacy_grants c g' b.
Proof.
  revert g. induction a as [|e a IH]; intros g; [done|]. simpl. destruct (legacy_step c g e); simpl; [apply IH|done].
Qed.
Lemma legacy_grants_no_writes (c : option rstr) g tail : no_writes tail → legacy_grants c g tail = Ok g.
Proof.
  induction 1 as [|e tail He _ IH]; [done|]. simpl. unfold legacy_step. destruct g. rewrite He. simpl. apply IH.
Qed.
Lemma legacy_grants_roots (c : option rstr) (roots : list rstr) w rs t s u :
  (∀ r, r ∈ roots → to_abs_path (from_abs_path r) = Some r ∧ c ≠ Some r) →
  legacy_grants c (mkLegacyGrants w rs t s u) (write_entry <$> roots) = Ok (mkLegacyGrants w (rs ++ roots) t s u).
Proof.
  revert rs. induction roots as [|r roots IH]; intros rs Hr; [by rewrite app_nil_r|]. rewrite fmap_cons. simpl.
  destruct (Hr r) as [-> Hc]; [set_solver|]. simpl. rewrite bool_decide_eq_false_2 by done.
  rewrite IH by set_solver. by rewrite <-(assoc_L (++)).
Qed.
Lemma legacy_grants_workspace (c : option rstr) (roots : list rstr) t s :
  (∀ r, r ∈ roots → to_abs_path (from_abs_path r) = Some r ∧ c ≠ Some r) →
  legacy_grants c legacy_grants_start (workspace_entries roots t s)
  = Ok (mkLegacyGrants true roots (negb t) (negb s) false).
Proof.
  intros Hr. unfold workspace_entries. rewrite !legacy_grants_app. simpl. destruct s, t; simpl; by rewrite legacy_grants_roots.
Qed.

Lemma no_root_write_app a b :
  existsb (λ e, is_root_entry e && can_write (entry_access e)) a = false → no_writes b →
  existsb (λ e, is_root_entry e && can_write (entry_access e)) (a ++ b) = false.
Proof.
  intros Ha Hb. rewrite existsb_app, Ha. simpl. induction Hb as [|e b He _ IH]; [done|]. simpl. by rewrite He, andb_false_r.
Qed.
Lemma workspace_no_root_write roots t s :
  existsb (λ e, is_root_entry e && can_write (entry_access e)) (workspace_entries roots t s) = false.
Proof. unfold workspace_entries. destruct s, t; simpl; induction roots; done. Qed.

Lemma dedup_paths_nodup (l : list rstr) : NoDup l → dedup_paths l = l.
Proof.
  unfold dedup_paths. assert (∀ acc, NoDup (acc ++ l) → foldl (λ deduped path, if bool_decide (path ∈ deduped) then deduped else deduped ++ [path]) acc l = acc ++ l) as Hg.
  { induction l as [|x l IH]; intros acc Hn; simpl; [by rewrite app_nil_r|].
    rewrite bool_decide_eq_false_2.
    - rewrite IH by (by rewrite <-(assoc_L (++))). by rewrite <-(assoc_L (++)).
    - apply NoDup_app in Hn as (_ & Hd & _). intros Hin. apply (Hd x Hin). set_solver. }
  intros Hn. by apply (Hg []).
Qed.

(** The roots of a legacy policy, which are paths of this host other than the working
    directory *)
Definition legacy_roots_ok (s : SandboxPolicy) cwd : Prop :=
  match s with
  | WorkspaceWrite roots _ _ _ =>
      NoDup roots ∧ ∀ r, r ∈ roots → to_abs_path (from_abs_path r) = Some r ∧ from_absolute_path cwd ≠ Some r
  | _ => True
  end.

(** A legacy sandbox policy is translated to a profile without a panic, and the
    profile translates back to the same policy. *)
Theorem legacy_policy_round_trip (s : SandboxPolicy) cwd :
  legacy_roots_ok s cwd →
  ∃ profile, profile_from_legacy_for_cwd s cwd = Some profile ∧ profile_to_legacy profile cwd = Ok s.
Proof.
  intros Hok. destruct s as [|net|net|roots net t st].
  - eexists. split; reflexivity.
  - eexists. split; [reflexivity|]. unfold network_from_legacy. by destruct net.
  - eexists. split; [reflexivity|]. unfold network_from_legacy. by destruct net.
  - destruct Hok as [Hnd Hr]. unfold profile_from_legacy_for_cwd, from_legacy_sandbox_policy_for_cwd.
    set (entries := protect_roots cwd roots (fs_entries (from_legacy (WorkspaceWrite roots net t st)))).
    assert (extends (workspace_entries roots t st) entries) as (tail & He & Hw).
    { eapply extends_trans; [apply workspace_write_extends|apply protect_roots_extends]. }
    exists (Managed (ManagedRestricted entries None) (network_from_legacy (WorkspaceWrite roots net t st))).
    split; [done|]. unfold profile_to_legacy, to_legacy_sandbox_policy. simpl.
    rewrite He, legacy_grants_app, legacy_grants_workspace by done. simpl. rewrite legacy_grants_no_writes by done. simpl.
    unfold has_full_disk_write_access, has_full_disk_write_access_for_convention, has_root_access. simpl.
    rewrite no_root_write_app by (done || apply workspace_no_root_write). simpl.
    unfold dedup_absolute_paths. rewrite dedup_paths_nodup by done. unfold network_from_legacy. by destruct net, t, st.
Qed.
End legacy.

(** ** On a host *)

(** [/w] is a worktree whose [.git] points into the repository [/repo]. *)
Definition worktree_host : HostFs := {|
  tmpdir_var := Some (str "/var/tmp");
  is_file_at p := str_eqb p (str "/w/.git");
  is_dir_at p := bool_decide (p ∈ [str "/w"; str "/repo"; str "/tmp"; str "/data/.agents"]);
  exists_at p := str_eqb p (str "/repo/.git/worktrees/w");
  read_to_string p := if str_eqb p (str "/w/.git") then Some (str "gitdir: /repo/.git/worktrees/w") else None;
  symlink_at _ := Some false;
  fs_canonicalize p := Some p;
|}.
#[local] Existing Instances example_env worktree_host.
Definition legacy_example : SandboxPolicy := WorkspaceWrite [str "/data"; str "/srv"] true false true.

Lemma legacy_policy_round_trip_witness :
  length (fs_entries (from_legacy_sandbox_policy_for_cwd legacy_example (str "/w"))) = 12
  ∧ ∃ profile, profile_from_legacy_for_cwd legacy_example (str "/w") = Some profile
      ∧ profile_to_legacy profile (str "/w") = Ok legacy_example.
Proof.
  split; [vm_compute; reflexivity|].
  apply (legacy_policy_round_trip legacy_example (str "/w")). split.
  - apply (bool_decide_unpack _). vm_compute. exact I.
  - intros r [->|[->|Hr%not_elem_of_nil]%elem_of_cons]%elem_of_cons;
      [split; [vm_compute; reflexivity|vm_compute; discriminate]..|destruct Hr].
Defined.

(** The read-only paths of a writable root are not always below it. *)
Lemma read_only_subpaths_leave_the_root :
  let w := mkWritableRoot (str "/w") (default_read_only_subpaths_for_writable_root (str "/w") false) [] in
  wr_read_only_subpaths w = [str "/repo/.git/worktrees/w"; str "/w/.git"]
  ∧ path_starts_with (str "/repo/.git/worktrees/w") (wr_root w) = false.
Proof. split; vm_compute; reflexivity. Qed.

(** A grant inside the workspace keeps its own metadata, which the outer root does not
    see: the path is writable below the outer root, and not writable by the policy. *)
Definition nested_policy : FileSystemSandboxPolicy :=
  fs_restricted [new_entry (SpecialPath SpecialRoot) AccessRead; write_entry (str "/w"); write_entry (str "/w/sub")].
Lemma outer_root_ignores_inner_metadata :
  wr_root <$> get_writable_roots_with_cwd nested_policy (str "/w") = [str "/w"; str "/w/sub"]
  ∧ (λ w, is_path_writable w (str "/w/sub/.git/config")) <$> get_writable_roots_with_cwd nested_policy (str "/w")
    = [true; false]
  ∧ can_write_local_path_with_cwd nested_policy (str "/w/sub/.git/config") (str "/w") = false.
Proof. split_and!; vm_compute; reflexivity. Qed.
