(* ===== verification/PolicyIntersection.v ===== *)
(** The permissions of a child agent: [protocol/src/permission_profile_intersection.rs],
    the intersection of the profile that its owner holds with the one it asks for.

    The order of denials in the result follows the [Debug] text of their paths, which
    is an argument: part of it is printed by the crate [url]. *)

From stdpp Require Import sorting.
From S2P Require Import Prelude Utf8 AbsolutePath PathUris ConfigPaths FsPolicy FsHost.
#[local] Opaque str.

Inductive UnsupportedReason :=
| NotNative
| NotMaterialized
| ProjectRootsGlob (pattern : rstr)
| TmpdirRestriction
| InvalidDenials (error : DenyReadError)
| OptionalPermission
| NotCanonical (path : rstr)
| SymlinkedRestriction (path : rstr)
| GlobGrant (pattern : rstr)
| UnsupportedSpecial (value : FileSystemSpecialPath)
| RootlessCwd (cwd : rstr).
Inductive PermissionIntersectionError :=
| IntersectExternal
| PlatformDefaults
| UnsupportedPath (reason : UnsupportedReason).

Definition intersect_access (a b : FileSystemAccessMode) : FileSystemAccessMode :=
  match a, b with
  | AccessDeny, _ | _, AccessDeny => AccessDeny
  | AccessWrite, AccessWrite => AccessWrite
  | (AccessRead | AccessWrite), _ => AccessRead
  end.

(** [sort_by] on the number of components, then on the paths *)
Definition depth_le (a b : rstr) : Prop :=
  length (path_names a) < length (path_names b)
  ∨ length (path_names a) = length (path_names b) ∧ path_le a b.
#[global] Instance depth_le_dec : RelDecision depth_le := λ a b, or_dec _ _.

Section intersection.
Context `{FileUrls} `{PathEnv} `{HostFs} `{GlobTools} (fs_path_debug : FileSystemPath → rstr).
Implicit Types (p : FileSystemSandboxPolicy) (e : FileSystemSandboxEntry) (cwd path root : rstr).

#[local] Notation outcome := (result PermissionIntersectionError).
Definition unsupported {A} (m : option A) (reason : UnsupportedReason) : outcome A := ok_or m (UnsupportedPath reason).

(** [PartialEq] of policies *)
Fixpoint entries_eqb (a b : list FileSystemSandboxEntry) : bool :=
  match a, b with
  | [], [] => true
  | x :: a, y :: b => entry_eqb x y && entries_eqb a b
  | _, _ => false
  end.
Definition policy_eqb p (q : FileSystemSandboxPolicy) : bool :=
  bool_decide (fs_kind p = fs_kind q) && bool_decide (glob_scan_max_depth p = glob_scan_max_depth q)
  && entries_eqb (fs_entries p) (fs_entries q).

(** ** Shapes that are refused *)

Definition check_entry e : outcome unit :=
  match entry_path e with
  | FsPath path => _ ← unsupported (to_abs_path path) NotNative; Ok ()
  | SpecialPath (ProjectRoots _) => Err (UnsupportedPath NotMaterialized)
  | GlobPattern pattern =>
      if starts_with pattern (project_roots_glob_pattern []) then Err (UnsupportedPath (ProjectRootsGlob pattern)) else Ok ()
  | SpecialPath _ => Ok ()
  end.

Definition physical_from path (ancestor : rstr) : option rstr :=
  physical ← fs_canonicalize ancestor;
  suffix ← path_strip_prefix path ancestor;
  Some (abs_join physical suffix).
Definition physical_path path : outcome rstr :=
  unsupported (head (omap (physical_from path) (path_ancestors path))) (NotCanonical path).
Definition logical_from path (ancestor : rstr) : option rstr :=
  _ ← symlink_at ancestor;
  preserved ← canonicalize_preserving_symlinks ancestor;
  suffix ← path_strip_prefix path ancestor;
  preserved ← from_absolute_path_checked preserved;
  Some (abs_join preserved suffix).
Definition with_path e (path : FileSystemPath) : FileSystemSandboxEntry :=
  mkFsEntry path (entry_access e) (missing_path_behavior e).
Definition normalize_entry e : outcome FileSystemSandboxEntry :=
  match entry_path e with
  | FsPath u =>
      path ← unsupported (to_abs_path u) NotNative;
      physical ←
        (if can_write (entry_access e) || bool_decide (entry_access e = AccessRead) && negb (skips_missing_path e)
         then unsupported (fs_canonicalize path) (NotCanonical path) else physical_path path);
      let logical := head (omap (logical_from path) (path_ancestors path)) in
      if negb (can_write (entry_access e)) && negb (bool_decide (logical = Some physical))
      then Err (UnsupportedPath (SymlinkedRestriction path))
      else Ok (with_path e (FsPath (from_abs_path physical)))
  | GlobPattern pattern =>
      if negb (bool_decide (entry_access e = AccessDeny)) || skips_missing_path e
      then Err (UnsupportedPath (GlobGrant pattern)) else Ok e
  | SpecialPath (SpecialRoot | Tmpdir) => Ok e
  | SpecialPath SlashTmp =>
      tmp ← unsupported (from_absolute_path_checked (str "/tmp")) NotNative;
      physical ← physical_path tmp;
      Ok (with_path e (FsPath (from_abs_path physical)))
  | SpecialPath SpecialMinimal => Err PlatformDefaults
  | SpecialPath value => Err (UnsupportedPath (UnsupportedSpecial value))
  end.
Definition normalize_policy p : outcome FileSystemSandboxPolicy :=
  if include_platform_defaults p then Err PlatformDefaults
  else entries ← collect_results (normalize_entry <$> fs_entries p); Ok (with_entries p entries).

(** ** The temporary directory *)

Definition is_tmpdir e : bool := fs_path_eqb (entry_path e) (SpecialPath Tmpdir).
Definition plain_write e : bool := can_write (entry_access e) && negb (skips_missing_path e).
Definition common_temp p (q : FileSystemSandboxPolicy) : outcome (option FileSystemSandboxEntry) :=
  match filter (λ e, is_tmpdir e = true) (fs_entries p), filter (λ e, is_tmpdir e = true) (fs_entries q) with
  | [l], [r] => if plain_write l && plain_write r then Ok (Some (new_entry (SpecialPath Tmpdir) (entry_access l)))
                else Err (UnsupportedPath TmpdirRestriction)
  | [], [] => Ok None
  | [e], [] | [], [e] => if plain_write e then Ok None else Err (UnsupportedPath TmpdirRestriction)
  | _, _ => Err (UnsupportedPath TmpdirRestriction)
  end.
Definition without_tmpdir p : FileSystemSandboxPolicy :=
  with_entries p (filter (λ e, is_tmpdir e = false) (fs_entries p)).

(** ** Access to a path *)

Definition LocalMatcher : Type := option (rstr * PreparedReadDenyMatcher).
Definition try_new_for_local_paths p cwd : outcome LocalMatcher :=
  map_err (λ error, UnsupportedPath (InvalidDenials error)) (read_deny_matcher_build p cwd ReturnError).
Definition local_read_denied (denies : LocalMatcher) path : bool :=
  match denies with Some (cwd, prepared) => is_local_path_read_denied cwd prepared path | None => false end.
Definition effective_access p (denies : LocalMatcher) path cwd : FileSystemAccessMode :=
  if local_read_denied denies path then AccessDeny
  else if can_write_local_path_with_cwd p path cwd then AccessWrite
  else if can_read_local_path_with_cwd p path cwd then AccessRead
  else AccessDeny.

(** ** The paths at which access changes *)

(** The root of a working directory that is absolute as it is written *)
Definition entry_local_path e cwd : outcome (option rstr) :=
  match entry_path e with
  | FsPath path => path ← unsupported (to_abs_path path) NotNative; Ok (Some path)
  | SpecialPath SpecialRoot =>
      root ← unsupported (if path_is_absolute cwd then last (path_ancestors cwd) ≫= from_absolute_path_checked else None)
               (RootlessCwd cwd);
      Ok (Some root)
  | SpecialPath (Tmpdir | SlashTmp) => Ok None
  | SpecialPath value => Err (UnsupportedPath (UnsupportedSpecial value))
  | GlobPattern _ => Ok None
  end.
(** The [.ok().flatten()] of it *)
Definition entry_is_at e cwd path : bool :=
  match entry_local_path e cwd with Ok (Some found) => str_eqb found path | _ => false end.
Definition is_metadata_of (w : WritableRoot) path : bool :=
  bool_decide (path ∈ wr_read_only_subpaths w)
  || bool_decide (path ∈ default_read_only_subpaths_for_writable_root (wr_root w) false)
  || bool_decide (parent_path path = Some (wr_root w))
     && existsb (λ name, bool_decide (last (path_names path) = Some name)) PROTECTED_METADATA_PATH_NAMES.

Record Collected := mkCollected {
  col_paths : list rstr;
  col_denies : list FileSystemSandboxEntry;
  col_glob_depth : option (option nat);
}.
Definition collect_entry p cwd (writable_roots : list WritableRoot) (c : Collected) e : outcome Collected :=
  let denies := if bool_decide (entry_access e = AccessDeny) then push_missing (col_denies c) e else col_denies c in
  let glob_depth :=
    match entry_path e with
    | GlobPattern _ =>
        Some match col_glob_depth c with
             | None => glob_scan_max_depth p
             | Some (Some previous) => (λ depth, previous `max` depth) <$> glob_scan_max_depth p
             | Some None => None
             end
    | _ => col_glob_depth c
    end in
  found ← entry_local_path e cwd;
  match found with
  | None => Ok (mkCollected (col_paths c) denies glob_depth)
  | Some path =>
      if skips_missing_path e
         && (negb (bool_decide (entry_access e = AccessRead)) || negb (existsb (λ w, is_metadata_of w path) writable_roots))
      then Err (UnsupportedPath OptionalPermission)
      else Ok (mkCollected (col_paths c ++ [path]) denies glob_depth)
  end.
Fixpoint collect_source_entries p cwd (writable_roots : list WritableRoot) (c : Collected) (entries : list FileSystemSandboxEntry)
    : outcome Collected :=
  match entries with
  | [] => Ok c
  | e :: entries => c ← collect_entry p cwd writable_roots c e; collect_source_entries p cwd writable_roots c entries
  end.
Definition writable_root_paths (w : WritableRoot) : list rstr :=
  wr_root w :: (abs_join (wr_root w) <$> PROTECTED_METADATA_PATH_NAMES) ++ wr_read_only_subpaths w.
Definition collect_source cwd (c : Collected) p : outcome Collected :=
  let writable_roots := get_writable_roots_with_cwd p cwd in
  c ← collect_source_entries p cwd writable_roots c (fs_entries p);
  Ok (mkCollected (col_paths c ++ get_readable_roots_with_cwd p cwd ++ (writable_roots ≫= writable_root_paths))
        (col_denies c) (col_glob_depth c)).
Definition debug_le (a b : FileSystemSandboxEntry) : Prop := text_le (fs_path_debug (entry_path a)) (fs_path_debug (entry_path b)).
#[local] Instance debug_le_dec : RelDecision debug_le := λ a b, text_le_dec _ _.
Definition sorted_paths (paths : list rstr) : list rstr := dedup_adjacent (merge_sort depth_le paths).

(** ** The intersection *)

Definition Source : Type := FileSystemSandboxPolicy * LocalMatcher.
Definition intersected_path (sources : list Source) path cwd : FileSystemPath :=
  if bool_decide (parent_path path = None) && path_starts_with cwd path
     && forallb (λ s : Source, existsb (λ e, fs_path_eqb (entry_path e) (SpecialPath SpecialRoot)) (fs_entries s.1)) sources
  then SpecialPath SpecialRoot else FsPath (from_abs_path path).
Definition intersect_step (authority requested : Source) cwd (denies : LocalMatcher) p path : FileSystemSandboxPolicy :=
  let sources := [authority; requested] in
  let access := intersect_access (effective_access authority.1 authority.2 path cwd)
                  (effective_access requested.1 requested.2 path cwd) in
  let current := effective_access p denies path cwd in
  let optional_metadata :=
    existsb (λ s : Source, existsb (λ e, skips_missing_path e && entry_is_at e cwd path) (fs_entries s.1)) sources in
  let required_restriction :=
    existsb (λ s : Source, existsb (λ e, negb (skips_missing_path e) && negb (can_write (entry_access e))
                                         && entry_is_at e cwd path) (fs_entries s.1)) sources in
  if bool_decide (access = current) && negb optional_metadata && negb required_restriction then p
  else
    let entry := if optional_metadata && negb required_restriction && bool_decide (access = AccessRead)
                 then skip_missing_path (intersected_path sources path cwd) access
                 else new_entry (intersected_path sources path cwd) access in
    with_entries p (push_missing (fs_entries p) entry).
(** On canonical policies without their temporary directories *)
Definition intersect_canonical (authority requested : FileSystemSandboxPolicy) cwd : outcome FileSystemSandboxPolicy :=
  authority_denies ← try_new_for_local_paths authority cwd;
  requested_denies ← try_new_for_local_paths requested cwd;
  c ← collect_source cwd (mkCollected [] [] None) authority;
  c ← collect_source cwd c requested;
  let start := mkFsPolicy Restricted (default None (col_glob_depth c)) (merge_sort debug_le (col_denies c)) in
  denies ← try_new_for_local_paths start cwd;
  Ok (foldl (intersect_step (authority, authority_denies) (requested, requested_denies) cwd denies) start
        (sorted_paths (col_paths c))).
Definition intersect_restricted (authority requested : FileSystemSandboxPolicy) cwd : outcome FileSystemSandboxPolicy :=
  authority ← normalize_policy authority;
  requested ← normalize_policy requested;
  temp ← common_temp authority requested;
  intersection ← intersect_canonical (without_tmpdir authority) (without_tmpdir requested) cwd;
  Ok (match temp with
      | Some temp => with_entries intersection (fs_entries intersection ++ [temp])
      | None => intersection
      end).
(** [Ok None] is a panic of [from_runtime_permissions]. *)
Definition intersect_effective_permission_profiles (authority requested : PermissionProfile) cwd
    : outcome (option PermissionProfile) :=
  if bool_decide (enforcement authority = EnforcementExternal) || bool_decide (enforcement requested = EnforcementExternal)
  then Err IntersectExternal
  else
    _ ← unsupported (from_absolute_path_checked cwd) NotNative;
    _ ← try_for_each check_entry (fs_entries (file_system_sandbox_policy authority));
    _ ← try_for_each check_entry (fs_entries (file_system_sandbox_policy requested));
    let authority_policy := file_system_sandbox_policy authority in
    let requested_policy := file_system_sandbox_policy requested in
    let network := if net_is_enabled (network_sandbox_policy authority) && net_is_enabled (network_sandbox_policy requested)
                   then NetEnabled else NetRestricted in
    if bool_decide (enforcement authority = EnforcementDisabled) && bool_decide (enforcement requested = EnforcementDisabled)
    then Ok (Some ProfileDisabled)
    else if policy_eqb authority_policy requested_policy then Ok (from_runtime_permissions authority_policy network)
    else if bool_decide (fs_kind authority_policy = Unrestricted) then Ok (from_runtime_permissions requested_policy network)
    else if bool_decide (fs_kind requested_policy = Unrestricted) then Ok (from_runtime_permissions authority_policy network)
    else intersection ← intersect_restricted authority_policy requested_policy cwd;
         Ok (from_runtime_permissions intersection network).
End intersection.
