(* ===== verification/PolicyTransforms.v ===== *)
(** Permissions that a command asks for and is granted on top of its profile:
    [sandboxing/src/policy_transforms.rs] with the overlay types of
    [protocol/src/models.rs]. *)

From S2P Require Import Prelude Utf8 AbsolutePath PathUris ConfigPaths FsPolicy FsHost.
#[local] Opaque str.

(** ** Data *)

Record NetworkPermissions := mkNetPermissions { net_enabled : option bool }.
Definition net_permissions_is_empty (n : NetworkPermissions) : bool := bool_decide (net_enabled n = None).
(** [NonZeroUsize] is [positive]; [NonZeroUsize::new] *)
Definition non_zero (n : nat) : option positive := match n with 0 => None | S _ => Some (Pos.of_nat n) end.

Inductive GlobScanDepth := Bounded (depth : nat) | Unbounded.

(** The messages of the code *)
Inductive PermissionError {T : Type} :=
| GlobPermission
| PathOfOtherExecutor (path cwd : T)
| UnresolvedPermission (cwd : T).
Arguments PermissionError : clear implicits.

Section transforms.
Context `{FileUrls}.
Implicit Types (p : FileSystemSandboxPolicy) (context : FileSystemSandboxPolicyContext)
  (e : FileSystemSandboxEntry) (entries : list FileSystemSandboxEntry).

Record FileSystemPermissions := mkFsPermissions {
  perm_entries : list FileSystemSandboxEntry;
  perm_glob_depth : option positive;
}.
Definition no_permissions : FileSystemPermissions := mkFsPermissions [] None.
Definition permissions_is_empty (f : FileSystemPermissions) : bool :=
  match perm_entries f with [] => true | _ => false end.
Definition perm_depth (f : FileSystemPermissions) : option nat := Pos.to_nat <$> perm_glob_depth f.
Definition from_read_write_path_uris (read write : option (list Url)) : FileSystemPermissions :=
  mkFsPermissions
    (((λ path, new_entry (FsPath path) AccessRead) <$> default [] read)
     ++ ((λ path, new_entry (FsPath path) AccessWrite) <$> default [] write)) None.

Record AdditionalPermissionProfile := mkAdditional {
  add_network : option NetworkPermissions;
  add_file_system : option FileSystemPermissions;
}.
Implicit Types (base permissions requested granted : AdditionalPermissionProfile).
Definition additional_is_empty permissions : bool :=
  bool_decide (add_network permissions = None)
  && match add_file_system permissions with None => true | Some _ => false end.

(** [Option::filter] *)
Definition keep_if {A} (f : A → bool) (o : option A) : option A := x ← o; if f x then Some x else None.

(** ** Normalization *)

Definition is_glob_path (path : FileSystemPath) : bool := match path with GlobPattern _ => true | _ => false end.
Fixpoint normalize_entries (seen : list FileSystemSandboxEntry) entries
    : result (PermissionError Url) (list FileSystemSandboxEntry) :=
  match entries with
  | [] => Ok seen
  | e :: entries =>
      if is_glob_path (entry_path e) && negb (bool_decide (entry_access e = AccessDeny)) then Err GlobPermission
      else normalize_entries (push_missing seen e) entries
  end.
Definition normalize_additional_permissions permissions
    : result (PermissionError Url) AdditionalPermissionProfile :=
  let network := keep_if (λ n, negb (net_permissions_is_empty n)) (add_network permissions) in
  file_system ← match add_file_system permissions with
                | Some file_system =>
                    entries ← normalize_entries [] (perm_entries file_system);
                    Ok (keep_if (λ f, negb (permissions_is_empty f))
                          (Some (mkFsPermissions entries (perm_glob_depth file_system))))
                | None => Ok None
                end;
  Ok (mkAdditional network file_system).
Definition path_of_executor context (path : Url) : bool :=
  bool_decide (uri_convention path ≠ None)
  && bool_decide (uri_convention path = uri_convention (ctx_cwd context))
  && match uri_join_path path (str ".") with Ok _ => true | Err _ => false end.
Definition check_executor_path context e : result (PermissionError Url) unit :=
  match entry_path e with
  | FsPath path => if path_of_executor context path then Ok () else Err (PathOfOtherExecutor path (ctx_cwd context))
  | _ => Ok ()
  end.
Definition normalize_additional_permissions_with_context permissions context
    : result (PermissionError Url) AdditionalPermissionProfile :=
  normalized ← normalize_additional_permissions permissions;
  _ ← match add_file_system normalized with
      | Some file_system => try_for_each (check_executor_path context) (perm_entries file_system)
      | None => Ok ()
      end;
  Ok normalized.

(** ** Paths of an entry *)

Definition resolve_permission_path (path : FileSystemPath) context : option Url :=
  match path with
  | FsPath path => Some path
  | GlobPattern _ => None
  | SpecialPath SpecialRoot => file_system_root context
  | SpecialPath (ProjectRoots subpath) =>
      root ← head (ctx_workspace_roots context);
      match subpath with
      | Some subpath => result_ok (uri_join_path root subpath)
      | None => Some root
      end
  | SpecialPath Tmpdir => directories ← ctx_temporary_directories context; head directories
  | SpecialPath SlashTmp =>
      if bool_decide (uri_convention (ctx_cwd context) = Some Posix)
      then result_ok (uri_join_path (ctx_cwd context) (str "/tmp")) else None
  | SpecialPath (SpecialMinimal | SpecialUnknown _ _) => None
  end.
Definition materialized_path_entry e (path : Url) : FileSystemSandboxEntry :=
  mkFsEntry (FsPath path) (entry_access e) (missing_path_behavior e).
Definition first_some {A} (a b : option A) : option A := match a with Some _ => a | None => b end.
Definition materialize_cwd_dependent_entry e context : option FileSystemSandboxEntry :=
  match entry_path e with
  | GlobPattern pattern =>
      let is_windows := bool_decide (uri_convention (ctx_cwd context) = Some Windows) in
      let home_relative :=
        first_some (strip_prefix (str "~/") pattern)
          (first_some (if str_eqb pattern (str "~") then Some [] else None)
             (if is_windows then strip_prefix (str "~\") pattern else None)) in
      '(root, pattern) ← match home_relative with
                         | Some suffix => home ← ctx_user_home_dir context; Some (home, trim_separators is_windows suffix)
                         | None => Some (ctx_cwd context, pattern)
                         end;
      path ← result_ok (uri_join_path root pattern);
      Some (mkFsEntry (GlobPattern (native_path_string path)) (entry_access e) (missing_path_behavior e))
  | FsPath _ | SpecialPath _ => Some e
  end.

(** The entries of one, [None] when its denial would be lost *)
Definition is_deny e : bool := bool_decide (entry_access e = AccessDeny).
Definition with_root context (root : Url) : FileSystemSandboxPolicyContext :=
  mkFsContext (ctx_cwd context) [root] (ctx_user_home_dir context) (ctx_temporary_directories context).
Fixpoint materialize_for_roots e context (roots : list Url) : option (list FileSystemSandboxEntry) :=
  match roots with
  | [] => Some []
  | root :: roots =>
      match resolve_permission_path (entry_path e) (with_root context root) with
      | None => if is_deny e then None else materialize_for_roots e context roots
      | Some path => resolved ← materialize_for_roots e context roots; Some (materialized_path_entry e path :: resolved)
      end
  end.
Definition materialize_context_entry context e : option (list FileSystemSandboxEntry) :=
  match entry_path e with
  | SpecialPath (ProjectRoots _) =>
      resolved ← materialize_for_roots e context (ctx_workspace_roots context);
      if is_deny e && match resolved with [] => true | _ => false end then None else Some resolved
  | SpecialPath Tmpdir =>
      match ctx_temporary_directories context with
      | None => if is_deny e then None else Some [e]
      | Some directories => Some (materialized_path_entry e <$> directories)
      end
  | SpecialPath SpecialRoot => _ ← resolve_permission_path (entry_path e) context; Some [e]
  | _ => match materialize_cwd_dependent_entry e context with
         | None => if is_deny e then None else Some []
         | Some e => Some [e]
         end
  end.
Definition materialize_context_dependent_entries entries context : option (list FileSystemSandboxEntry) :=
  List.concat (A:=FileSystemSandboxEntry) <$> mapM (materialize_context_entry context) entries.
Definition materialize_additional_permissions_with_context permissions context
    : result (PermissionError Url) AdditionalPermissionProfile :=
  permissions ← match add_file_system permissions with
                | Some file_system =>
                    entries ← ok_or (materialize_context_dependent_entries (perm_entries file_system) context)
                                (UnresolvedPermission (ctx_cwd context));
                    Ok (mkAdditional (add_network permissions)
                          (Some (mkFsPermissions entries (perm_glob_depth file_system))))
                | None => Ok permissions
                end;
  normalize_additional_permissions_with_context permissions context.

(** ** Depth of glob scans *)

Definition effective_glob_scan_depth entries (depth : option nat) : option GlobScanDepth :=
  if existsb (λ e, is_deny e && is_glob_path (entry_path e)) entries
  then Some match depth with Some depth => Bounded depth | None => Unbounded end else None.
Definition merge_glob_scan_max_depth left_entries (left_depth : option nat) right_entries (right_depth : option nat) : option nat :=
  match effective_glob_scan_depth left_entries left_depth, effective_glob_scan_depth right_entries right_depth with
  | Some Unbounded, _ | _, Some Unbounded => None
  | Some (Bounded l), Some (Bounded r) => Some (l `max` r)
  | Some (Bounded depth), None | None, Some (Bounded depth) => Some depth
  | None, None => None
  end.

(** ** Merging *)

Definition net_is_true (n : option NetworkPermissions) : bool :=
  match n with Some (mkNetPermissions (Some true)) => true | _ => false end.
Definition enabled_permission : NetworkPermissions := mkNetPermissions (Some true).
Definition merge_permission_entries (base permissions : list FileSystemSandboxEntry) : list FileSystemSandboxEntry :=
  foldl push_missing [] (base ++ permissions).
Definition merge_permission_profiles (base permissions : option AdditionalPermissionProfile)
    : option AdditionalPermissionProfile :=
  match permissions with
  | None => base
  | Some permissions =>
      match base with
      | Some base =>
          let network := if net_is_true (add_network base) || net_is_true (add_network permissions)
                         then Some enabled_permission else None in
          let file_system :=
            match add_file_system base, add_file_system permissions with
            | Some base, Some permissions =>
                keep_if (λ f, negb (permissions_is_empty f))
                  (Some (mkFsPermissions (merge_permission_entries (perm_entries base) (perm_entries permissions))
                     (merge_glob_scan_max_depth (perm_entries base) (perm_depth base) (perm_entries permissions)
                        (perm_depth permissions) ≫= non_zero)))
            | Some base, None => Some base
            | None, Some permissions => Some permissions
            | None, None => None
            end in
          keep_if (λ a, negb (additional_is_empty a)) (Some (mkAdditional network file_system))
      | None => keep_if (λ a, negb (additional_is_empty a)) (Some permissions)
      end
  end.

(** ** The effective profile *)

Definition merge_file_system_policy_with_additional_permissions p (additional : FileSystemPermissions)
    : FileSystemSandboxPolicy :=
  match fs_kind p with
  | Restricted =>
      mkFsPolicy (fs_kind p)
        (merge_glob_scan_max_depth (fs_entries p) (glob_scan_max_depth p) (perm_entries additional) (perm_depth additional))
        (foldl push_missing (fs_entries p) (perm_entries additional))
  | Unrestricted | ExternalSandbox => p
  end.
Definition effective_file_system_sandbox_policy p (additional : option AdditionalPermissionProfile)
    : FileSystemSandboxPolicy :=
  match additional ≫= add_file_system with
  | None => p
  | Some file_system =>
      if permissions_is_empty file_system then p
      else merge_file_system_policy_with_additional_permissions p file_system
  end.
Definition merge_network_access (base_network_access : bool) permissions : bool :=
  base_network_access || default false (add_network permissions ≫= net_enabled).
Definition effective_network_sandbox_policy (network : NetworkSandboxPolicy)
    (additional : option AdditionalPermissionProfile) : NetworkSandboxPolicy :=
  match additional with
  | Some permissions => if merge_network_access (net_is_enabled network) permissions then NetEnabled else NetRestricted
  | None => network
  end.
Definition effective_permission_profile (profile : PermissionProfile)
    (additional : option AdditionalPermissionProfile) : option PermissionProfile :=
  from_runtime_permissions_with_enforcement (enforcement profile)
    (effective_file_system_sandbox_policy (file_system_sandbox_policy profile) additional)
    (effective_network_sandbox_policy (network_sandbox_policy profile) additional).
Definition should_require_platform_sandbox p (network : NetworkSandboxPolicy) (has_managed_network_requirements : bool)
    : bool :=
  if has_managed_network_requirements then true
  else if negb (net_is_enabled network) then negb (bool_decide (fs_kind p = ExternalSandbox))
  else match fs_kind p with
       | Restricted => negb (has_full_disk_write_access p)
       | Unrestricted | ExternalSandbox => false
       end.

(** ** Intersection *)

Definition access_covers (requested granted : FileSystemAccessMode) : bool :=
  match granted with
  | AccessRead => can_read requested
  | AccessWrite => can_write requested
  | AccessDeny => false
  end.
Definition paths_overlap (u v : Url) : bool := default true (uri_overlaps u v).
Definition is_glob_char (c : rchar) : bool := bool_decide (c ∈ str "*?[]").
Definition glob_static_prefix_path (pattern : rstr) context : option Url :=
  let is_windows := bool_decide (uri_convention (ctx_cwd context) = Some Windows) in
  '(prefix, wildcard_in_segment) ←
    match list_find (λ c, is_glob_char c = true) pattern with
    | Some (0, _) => None
    | Some (index, _) =>
        let prefix := take index pattern in
        Some (prefix, negb (ends_with prefix [47%N] || is_windows && ends_with prefix [92%N]))
    | None => Some (pattern, false)
    end;
  prefix ← result_ok (uri_join_path (ctx_cwd context) prefix);
  if (wildcard_in_segment : bool) then uri_parent_of prefix else Some prefix.
Definition deny_constrains_grant (deny_entry : FileSystemSandboxEntry) context e : bool :=
  if is_root_entry e then true
  else match resolve_permission_path (entry_path e) context with
       | None => true
       | Some grant_path =>
           match match entry_path deny_entry with
                 | GlobPattern pattern => glob_static_prefix_path pattern context
                 | path => resolve_permission_path path context
                 end with
           | None => true
           | Some deny_path => paths_overlap deny_path grant_path
           end
       end.
Definition deny_entry_constrains_accepted_grant (deny_entry : FileSystemSandboxEntry) (accepted : list FileSystemSandboxEntry)
    context : bool :=
  existsb (deny_constrains_grant deny_entry context) (filter (λ e, can_read (entry_access e) = true) accepted).
(** The denials of a source that matter, which the code also pushes to the output *)
Definition retained_deny_entries (source accepted : list FileSystemSandboxEntry) context : list FileSystemSandboxEntry :=
  filter (λ e, deny_entry_constrains_accepted_grant e accepted context = true)
    (filter (λ e, entry_access e = AccessDeny) source).
Definition retain_constraining_deny_entries (source accepted : list FileSystemSandboxEntry) context
    (output : list FileSystemSandboxEntry) : list FileSystemSandboxEntry * list FileSystemSandboxEntry :=
  let retained := retained_deny_entries source accepted context in
  (foldl push_missing output retained, retained).

Context `{GlobTools}.

Definition granted_file_system_entry_within_request (requested : FileSystemPermissions)
    (requested_policy : FileSystemSandboxPolicy) (matcher : option PreparedReadDenyMatcher)
    context (granted_entry : FileSystemSandboxEntry) : bool :=
  let convention := uri_convention (ctx_cwd context) in
  if negb (can_read (entry_access granted_entry))
     || match entry_path granted_entry with
        | SpecialPath SlashTmp => negb (bool_decide (convention = Some Posix))
        | _ => false
        end
  then false
  else if bool_decide (convention = Some Windows) && is_root_entry granted_entry
          && negb (existsb (λ e, is_root_entry e && access_covers (entry_access e) (entry_access granted_entry))
                     (perm_entries requested))
  then false
  else match resolve_permission_path (entry_path granted_entry) context with
       | Some path =>
           if negb (bool_decide (uri_convention path = convention))
              || match matcher with Some matcher => matches_prepared_read_deny path context matcher | None => false end
           then false
           else access_covers (resolve_access requested_policy path context) (entry_access granted_entry)
       | None =>
           existsb (λ e, access_covers (entry_access e) (entry_access granted_entry)
                         && fs_path_eqb (entry_path e) (entry_path granted_entry)) (perm_entries requested)
       end.
(** The grants that the request covers, without repetitions *)
Definition accepted_entries (requested : FileSystemPermissions)
    (requested_entries granted_entries : list FileSystemSandboxEntry) context : list FileSystemSandboxEntry :=
  let requested_policy := fs_restricted requested_entries in
  let matcher := read_deny_matcher_from_context requested_policy context in
  foldl push_missing []
    (filter (λ e, granted_file_system_entry_within_request requested requested_policy matcher context e = true)
       granted_entries).
Definition intersect_file_systems (requested granted : FileSystemPermissions) context : option FileSystemPermissions :=
  requested_entries ← materialize_context_dependent_entries (perm_entries requested) context;
  granted_entries ← materialize_context_dependent_entries (perm_entries granted) context;
  let accepted := accepted_entries requested requested_entries granted_entries context in
  let '(entries, requested_retained) := retain_constraining_deny_entries requested_entries accepted context accepted in
  let '(entries, granted_retained) := retain_constraining_deny_entries granted_entries accepted context entries in
  Some (mkFsPermissions entries
          (merge_glob_scan_max_depth requested_retained (perm_depth requested) granted_retained (perm_depth granted)
             ≫= non_zero)).
Definition intersect_permission_profiles_with_context requested granted context : AdditionalPermissionProfile :=
  let file_system :=
    keep_if (λ f, negb (permissions_is_empty f))
      (requested ← add_file_system requested;
       intersect_file_systems requested (default no_permissions (add_file_system granted)) context) in
  let network := if net_is_true (add_network requested) && net_is_true (add_network granted)
                 then Some enabled_permission else None in
  mkAdditional network file_system.

(** ** The form of earlier versions *)

Context `{PathEnv}.

Definition from_read_write_roots (read write : option (list rstr)) : FileSystemPermissions :=
  from_read_write_path_uris (option_map (map from_abs_path) read) (option_map (map from_abs_path) write).
Record LegacyReadWriteRoots := mkLegacyRoots { legacy_read : option (list rstr); legacy_write : option (list rstr) }.
Fixpoint legacy_paths entries (read write : list rstr) : option (list rstr * list rstr) :=
  match entries with
  | [] => Some (read, write)
  | e :: entries =>
      match entry_path e with
      | FsPath path =>
          path ← to_abs_path path;
          match entry_access e with
          | AccessRead => legacy_paths entries (read ++ [path]) write
          | AccessWrite => legacy_paths entries read (write ++ [path])
          | AccessDeny => None
          end
      | _ => None
      end
  end.
Definition some_unless_empty (paths : list rstr) : option (list rstr) :=
  match paths with [] => None | _ => Some paths end.
Definition as_legacy_permissions (f : FileSystemPermissions) : option LegacyReadWriteRoots :=
  match perm_glob_depth f with
  | Some _ => None
  | None => '(read, write) ← legacy_paths (perm_entries f) [] [];
            Some (mkLegacyRoots (some_unless_empty read) (some_unless_empty write))
  end.
End transforms.
