(* ===== verification/PolicyTransformsProps.v ===== *)
(** What a grant on top of a profile can do: the intersection of a request and a
    grant stays within both, and the effective profile adds only what was granted. *)

From S2P Require Import Prelude Utf8 AbsolutePath PathUris PathUriProps ConfigPaths FsPolicy FsPolicyProps FsDenyProps FsHost PolicyTransforms.
#[local] Opaque str.

(** ** Entries made concrete *)

Section materialize.
Context `{FileUrls}.
Implicit Types (context : FileSystemSandboxPolicyContext) (e : FileSystemSandboxEntry) (root : Url).

(** What one entry adds to the resolved ones *)
Definition resolved_entry context e : list (Url * FileSystemAccessMode) :=
  (λ path, (path, entry_access e)) <$>
    filter (λ path, uri_convention path = uri_convention (ctx_cwd context)) (entry_paths context e).
Lemma resolved_entries_bind p context : resolved_entries p context = fs_entries p ≫= resolved_entry context.
Proof. done. Qed.

(** An entry that stands for at most one path, which is the one that the code takes *)
Definition concrete context e : Prop :=
  ∀ root, root ∈ entry_paths context e → resolve_permission_path (entry_path e) context = Some root.
Lemma concrete_path context e path : concrete context (materialized_path_entry e path).
Proof. intros root. simpl. by intros ->%list_elem_of_singleton. Qed.

Lemma materialized_roots context e subpath roots l :
  entry_path e = SpecialPath (ProjectRoots subpath) → materialize_for_roots e context roots = Some l →
  (l ≫= resolved_entry context)
  = (λ path, (path, entry_access e)) <$>
      filter (λ path, uri_convention path = uri_convention (ctx_cwd context))
        (omap (λ root, match subpath with
                       | Some subpath => result_ok (uri_join_path root subpath)
                       | None => Some root
                       end) roots)
  ∧ Forall (concrete context) l.
Proof.
  intros He. revert l. induction roots as [|root roots IH]; intros l; simpl; [by intros [= <-]|].
  rewrite He. simpl. destruct (match subpath with Some _ => _ | None => _ end) as [path|]; simpl.
  - destruct (materialize_for_roots e context roots) as [l'|]; simpl; [|done]. intros [= <-].
    destruct (IH l' eq_refl) as [IH1 IH2]. split; [|constructor; [apply concrete_path|done]].
    rewrite bind_cons, IH1. unfold resolved_entry, entry_paths. simpl.
    destruct (decide (uri_convention path = uri_convention (ctx_cwd context))).
    + by rewrite !filter_cons_True by done.
    + by rewrite !filter_cons_False by done.
  - destruct (is_deny e); [done|]. apply IH.
Qed.
Lemma materialized_directories context e (directories : list Url) :
  ((materialized_path_entry e <$> directories) ≫= resolved_entry context)
  = (λ path, (path, entry_access e)) <$>
      filter (λ path, uri_convention path = uri_convention (ctx_cwd context)) directories.
Proof.
  induction directories as [|d l IH]; [done|]. rewrite fmap_cons, bind_cons, IH. unfold resolved_entry, entry_paths. simpl.
  destruct (decide (uri_convention d = uri_convention (ctx_cwd context))).
  - by rewrite !filter_cons_True by done.
  - by rewrite !filter_cons_False by done.
Qed.
Lemma concrete_directories context e (directories : list Url) :
  Forall (concrete context) (materialized_path_entry e <$> directories).
Proof. apply Forall_fmap, Forall_true. intros d. apply concrete_path. Qed.

Lemma materialized_one context e l :
  materialize_context_entry context e = Some l →
  (l ≫= resolved_entry context) = resolved_entry context e ∧ Forall (concrete context) l.
Proof.
  unfold materialize_context_entry, materialize_cwd_dependent_entry.
  destruct (entry_path e) as [path|pattern|[| |subpath| | |]] eqn:He.
  - intros [= <-]. rewrite bind_singleton. split; [done|]. repeat constructor. intros root.
    unfold entry_paths, resolve_permission_path. rewrite He. by intros ->%list_elem_of_singleton.
  - intros Hl. assert (resolved_entry context e = []) as ->. { unfold resolved_entry, entry_paths. by rewrite He. }
    destruct (_ ≫= _) as [x|] eqn:E; [injection Hl as <-|destruct (is_deny e); [done|by injection Hl as <-]].
    apply bind_Some in E as ([root pattern'] & _ & E). apply bind_Some in E as (path & _ & [= <-]).
    split; [done|]. repeat constructor. intros r. simpl. by rewrite elem_of_nil.
  - destruct (resolve_permission_path (SpecialPath SpecialRoot) context) as [root|] eqn:E; [|done]. intros [= <-].
    rewrite bind_singleton. split; [done|]. repeat constructor. intros r. simpl in E.
    unfold entry_paths. rewrite He, E. simpl. rewrite E. by intros ->%list_elem_of_singleton.
  - intros [= <-]. rewrite bind_singleton. split; [done|]. repeat constructor. intros r.
    unfold entry_paths. rewrite He. by rewrite elem_of_nil.
  - intros Hl. apply bind_Some in Hl as (resolved & Hm & Hl). destruct (_ && _); [done|]. injection Hl as <-.
    unfold resolved_entry at 2. unfold entry_paths. rewrite He. by eapply materialized_roots.
  - unfold resolved_entry at 2. unfold entry_paths. rewrite He.
    destruct (ctx_temporary_directories context) as [directories|] eqn:Ed; simpl.
    + intros [= <-]. split; [apply materialized_directories|apply concrete_directories].
    + destruct (is_deny e); [done|]. intros [= <-]. simpl. unfold resolved_entry, entry_paths. rewrite He, Ed. simpl.
      split; [done|]. repeat constructor. intros r. unfold entry_paths. by rewrite He, Ed, elem_of_nil.
  - intros [= <-]. rewrite bind_singleton. split; [done|]. repeat constructor. intros r.
    unfold entry_paths, resolve_permission_path. rewrite He. case_bool_decide; [|by rewrite elem_of_nil].
    destruct (result_ok _); simpl; [by intros ->%list_elem_of_singleton|by rewrite elem_of_nil].
  - intros [= <-]. rewrite bind_singleton. split; [done|]. repeat constructor. intros r.
    unfold entry_paths. rewrite He. by rewrite elem_of_nil.
Qed.

(** Making entries concrete changes nothing in what they resolve to. *)
Lemma materialized_entries_resolved context (entries l : list FileSystemSandboxEntry) :
  materialize_context_dependent_entries entries context = Some l →
  resolved_entries (fs_restricted l) context = resolved_entries (fs_restricted entries) context
  ∧ Forall (concrete context) l.
Proof.
  unfold materialize_context_dependent_entries. rewrite !resolved_entries_bind. simpl.
  intros (ls & Hls & ->)%fmap_Some. apply mapM_Some in Hls.
  induction Hls as [|e l es ls He Hs [IH1 IH2]]; [done|]. simpl.
  destruct (materialized_one context e l He) as [H1 H2]. rewrite bind_app, H1, IH1. split; [done|].
  by apply Forall_app.
Qed.
Lemma materialized_access context (entries l : list FileSystemSandboxEntry) (path : Url) :
  materialize_context_dependent_entries entries context = Some l →
  resolve_access (fs_restricted l) path context = resolve_access (fs_restricted entries) path context.
Proof. intros [Hr _]%materialized_entries_resolved. unfold resolve_access. simpl. by rewrite Hr. Qed.

(** Only a glob becomes a glob, with the same access. *)
Lemma materialized_for_roots_path context e roots l x :
  materialize_for_roots e context roots = Some l → x ∈ l → is_glob_path (entry_path x) = false.
Proof.
  revert l. induction roots as [|root roots IH]; intros l; simpl; [by intros [= <-]; rewrite elem_of_nil|].
  destruct (resolve_permission_path _ _); [|destruct (is_deny e); [done|apply IH]].
  destruct (materialize_for_roots e context roots) as [l'|]; simpl; [|done]. intros [= <-] [->|Hx]%elem_of_cons; [done|].
  by eapply IH.
Qed.
Lemma materialized_glob context e l x :
  materialize_context_entry context e = Some l → x ∈ l → is_glob_path (entry_path x) = true →
  is_glob_path (entry_path e) = true ∧ entry_access x = entry_access e.
Proof.
  unfold materialize_context_entry, materialize_cwd_dependent_entry.
  destruct (entry_path e) as [path|pattern|[| |subpath| | |]] eqn:He; intros Hl Hx Hg;
    try (injection Hl as <-; apply list_elem_of_singleton in Hx as ->; by rewrite He in Hg).
  - destruct (_ ≫= _) as [y|] eqn:E; [injection Hl as <-|destruct (is_deny e); [done|]; injection Hl as <-; by apply elem_of_nil in Hx].
    apply bind_Some in E as ([root pattern'] & _ & E). apply bind_Some in E as (path & _ & [= <-]).
    by apply list_elem_of_singleton in Hx as ->.
  - apply bind_Some in Hl as (? & _ & [= <-]). apply list_elem_of_singleton in Hx as ->. by rewrite He in Hg.
  - apply bind_Some in Hl as (resolved & Hm & Hl). destruct (_ && _); [done|]. injection Hl as <-.
    by rewrite (materialized_for_roots_path _ _ _ _ _ Hm Hx) in Hg.
  - destruct (ctx_temporary_directories context).
    + injection Hl as <-. apply list_elem_of_fmap in Hx as (? & -> & _). done.
    + destruct (is_deny e); [done|]. injection Hl as <-. apply list_elem_of_singleton in Hx as ->. by rewrite He in Hg.
Qed.
Lemma no_patterns_iff (entries : list FileSystemSandboxEntry) :
  deny_read_patterns (fs_restricted entries) = []
  ↔ ∀ e, e ∈ entries → entry_access e = AccessDeny → is_glob_path (entry_path e) = false.
Proof.
  unfold deny_read_patterns, deny_entries. simpl. split.
  - intros E e He Ha. destruct (entry_path e) as [|pattern|] eqn:Ep; [done| |done]. exfalso.
    apply (not_elem_of_nil pattern). rewrite <-E. apply list_elem_of_omap. exists e. rewrite list_elem_of_filter, Ep. done.
  - intros Hno. destruct (omap _ _) as [|pattern l] eqn:E; [done|]. exfalso.
    assert (pattern ∈ pattern :: l) as Hin by left. rewrite <-E in Hin.
    apply list_elem_of_omap in Hin as (e & [Ha He]%list_elem_of_filter & Hp). specialize (Hno e He Ha).
    by destruct (entry_path e).
Qed.
Lemma materialized_no_patterns context (entries l : list FileSystemSandboxEntry) :
  materialize_context_dependent_entries entries context = Some l →
  deny_read_patterns (fs_restricted entries) = [] → deny_read_patterns (fs_restricted l) = [].
Proof.
  unfold materialize_context_dependent_entries. intros (ls & Hls & ->)%fmap_Some. apply mapM_Some in Hls.
  rewrite !no_patterns_iff. induction Hls as [|e l es ls He Hs IH]; intros Hno x Hx Ha; simpl in Hx; [by apply elem_of_nil in Hx|].
  apply elem_of_app in Hx as [Hx|Hx]; [|by apply IH; [intros y Hy; apply Hno; by right|..]].
  apply not_true_iff_false. intros Hg. destruct (materialized_glob context e l x He Hx Hg) as [Hge Hea].
  rewrite Hno in Hge; [done|by left|congruence].
Qed.
End materialize.

(** ** The intersection of a request and a grant *)

Section intersection.
Context `{FileUrlLaws} `{Globs : GlobTools}.
Implicit Types (context : FileSystemSandboxPolicyContext) (e : FileSystemSandboxEntry) (path root : Url).

Lemma overlap_below root (below : Url) :
  lexical root → lexical below → names root `prefix_of` names below → paths_overlap below root = true.
Proof.
  intros Hr Hb Hpre. unfold paths_overlap, uri_overlaps. destruct (uri_eqb below root); [done|].
  rewrite (lexical_depth_names _ Hr), (lexical_depth_names _ Hb). simpl.
  by rewrite (proj2 (starts_with_names below root Hb Hr) Hpre).
Qed.
(** A denial inside an accepted grant is kept. *)
Lemma inner_denial_retained context (source accepted : list FileSystemSandboxEntry) (d e : FileSystemSandboxEntry) root below :
  d ∈ source → entry_access d = AccessDeny → concrete context d → below ∈ entry_paths context d → lexical below →
  e ∈ accepted → can_read (entry_access e) = true → concrete context e → root ∈ entry_paths context e → lexical root →
  names root `prefix_of` names below →
  d ∈ retained_deny_entries source accepted context.
Proof.
  intros Hd Ha Hcd Hin Hl He Hr Hce Hroot Hlr Hpre. unfold retained_deny_entries.
  rewrite !list_elem_of_filter. split_and!; [|done..].
  apply existsb_exists. exists e. rewrite <-list_elem_of_In, list_elem_of_filter. split; [done|].
  unfold deny_constrains_grant. destruct (is_root_entry e); [done|]. rewrite (Hce _ Hroot).
  assert (match entry_path d with
          | GlobPattern pattern => glob_static_prefix_path pattern context
          | path => resolve_permission_path path context
          end = Some below) as ->.
  { pose proof (Hcd _ Hin). destruct (entry_path d) eqn:E; try done. }
  by apply overlap_below.
Qed.

(** A path that is denied although a directory above it is not lies below a denial
    inside that directory. *)
Lemma denied_below p context root path :
  fs_kind p = Restricted → posix_context context → clear_entries (resolved_entries p context) →
  lexical root → lexical path → names root `prefix_of` names path →
  can_read_path p root context = true → can_read_path p path context = false →
  ∃ d below, d ∈ fs_entries p ∧ entry_access d = AccessDeny ∧ below ∈ entry_paths context d ∧ lexical below
    ∧ names below `prefix_of` names path ∧ names root `prefix_of` names below.
Proof.
  intros Hk Hctx Hc Hlr Hp Hpre Hroot Hpath. unfold can_read_path in *.
  destruct (resolve_access_governs p root context Hk Hlr (proj2 Hctx) Hc) as [(b & Hcov & Hmax)|[E _]];
    [|by rewrite E in Hroot].
  assert (grant_covers (resolved_entries p context) (names path) b (resolve_access p root context)) as Hcov'.
  { destruct Hcov as [Hb Hx]. split; [by etrans|done]. }
  destruct (access_not_covered p context path _ Hk Hctx Hp Hc (ex_intro _ _ (ex_intro _ _ Hcov')) eq_refl)
    as (d & below & Hd & Ha & Hin & Hl & Hpb & Hmax').
  assert (entry_access d = AccessDeny) as Hda.
  { rewrite Ha. unfold can_read in Hpath. by apply negb_false_iff, bool_decide_eq_true in Hpath. }
  exists d, below. split_and!; [done..|].
  destruct (prefix_weak_total _ _ _ Hpre Hpb) as [|Hbr]; [done|]. exfalso.
  destruct (Hmax (names below) AccessDeny) as [Hlt|[E Hrank]].
  - rewrite <-Hda. by apply covers_intro.
  - destruct (Hmax' _ _ Hcov') as [|[-> _]]; lia.
  - destruct (resolve_access p root context); simpl in *; [lia|lia|done].
Qed.

(** Without glob denials only denied directories count. *)
Lemma plain_matcher p context path :
  posix_context context → lexical path → deny_read_patterns p = [] →
  (match read_deny_matcher_from_context p context with
   | Some matcher => matches_prepared_read_deny path context matcher
   | None => false
   end = true ↔ ∃ root, root ∈ resolved_denied_roots p context ∧ uri_starts_with path root = true).
Proof.
  intros Hctx Hp Hno. unfold read_deny_matcher_from_context, prepare_deny_read_matcher, deny_read_globs.
  rewrite Hno, (proj1 (proj2 Hctx)). simpl. destruct (existsb _ (fs_entries p)) eqn:Ed; simpl.
  - unfold matches_prepared_read_deny. rewrite (proj1 (proj2 Hctx)), comparable_lexical by (done || apply Hctx). simpl.
    rewrite orb_false_r, existsb_exists. by setoid_rewrite <-list_elem_of_In.
  - split; [done|]. intros (root & Hin & _). exfalso. apply list_elem_of_omap in Hin as ([u m] & Hin & Hm). simpl in Hm.
    apply elem_of_resolved in Hin as (_ & e & He & <- & _). case_bool_decide as Ha; [|done].
    apply not_true_iff_false in Ed. apply Ed, existsb_exists. exists e. rewrite <-list_elem_of_In, Ha. done.
Qed.

Section result.
Context (requested granted : FileSystemPermissions) (context : FileSystemSandboxPolicyContext).
Context (re ge : list FileSystemSandboxEntry).
Context (Hre : materialize_context_dependent_entries (perm_entries requested) context = Some re).
Context (Hge : materialize_context_dependent_entries (perm_entries granted) context = Some ge).
Context (Hctx : posix_context context).
Context (Hclear_re : clear_entries (resolved_entries (fs_restricted re) context)).
Context (Hclear_ge : clear_entries (resolved_entries (fs_restricted ge) context)).

Let accepted := accepted_entries requested re ge context.
Let result_entries :=
  foldl push_missing (foldl push_missing accepted (retained_deny_entries re accepted context))
    (retained_deny_entries ge accepted context).
Let result := fs_restricted result_entries.

Lemma accepted_inv e :
  e ∈ accepted →
  e ∈ ge ∧ granted_file_system_entry_within_request requested (fs_restricted re)
             (read_deny_matcher_from_context (fs_restricted re) context) context e = true.
Proof.
  unfold accepted, accepted_entries. intros [Hin|Hin]%push_all_inv; [by apply elem_of_nil in Hin|].
  by apply list_elem_of_filter in Hin as [? ?].
Qed.
Lemma within_can_read e :
  e ∈ accepted → can_read (entry_access e) = true.
Proof.
  intros [_ Hw]%accepted_inv. unfold granted_file_system_entry_within_request in Hw.
  by destruct (can_read (entry_access e)).
Qed.
Lemma result_inv e :
  e ∈ result_entries → e ∈ accepted ∨ entry_access e = AccessDeny ∧ (e ∈ re ∨ e ∈ ge).
Proof.
  intros [[Hin|Hin]%push_all_inv|Hin]%push_all_inv; [by left|right..];
    unfold retained_deny_entries in Hin; rewrite !list_elem_of_filter in Hin; naive_solver.
Qed.
Lemma result_denial d :
  d ∈ retained_deny_entries re accepted context ∨ d ∈ retained_deny_entries ge accepted context →
  contains_entry result_entries d = true.
Proof.
  intros [Hd|Hd]; [|by apply push_all_contains].
  eapply contains_mono; [intros x; apply push_all_in|]. by apply push_all_contains.
Qed.
Lemma result_clear : clear_entries (resolved_entries result context).
Proof.
  unfold clear_entries in *. rewrite Forall_forall in *. intros [root m] (Hc & e & He & Hm & Hin)%elem_of_resolved.
  assert (e ∈ re ∨ e ∈ ge) as [Hs|Hs].
  { apply result_inv in He as [He%accepted_inv|[_ ?]]; naive_solver. }
  - apply (Hclear_re (root, m)), elem_of_resolved. split; [done|]. by exists e.
  - apply (Hclear_ge (root, m)), elem_of_resolved. split; [done|]. by exists e.
Qed.

(** The grant that decides about a path that the result lets be read *)
Lemma deciding_grant path :
  lexical path → can_read_path result path context = true →
  ∃ e root, e ∈ accepted ∧ entry_access e = resolve_access result path context ∧ root ∈ entry_paths context e
    ∧ lexical root ∧ names root `prefix_of` names path
    ∧ (∀ source d below, source = re ∨ source = ge → d ∈ source → entry_access d = AccessDeny →
         below ∈ entry_paths context d → lexical below → names below `prefix_of` names path →
         ¬ names root `prefix_of` names below)
    ∧ (∀ x below, x ∈ result_entries → below ∈ entry_paths context x → lexical below →
         names below `prefix_of` names path →
         length (names below) < length (names root)
         ∨ names below = names root ∧ access_rank (entry_access x) ≤ access_rank (entry_access e)).
Proof.
  intros Hp Hread. unfold can_read_path in Hread.
  destruct (resolve_access_governs result path context eq_refl Hp (proj2 Hctx) result_clear) as [(b & Hcov & _)|[E _]];
    [|by rewrite E in Hread].
  destruct (access_not_covered result context path _ eq_refl Hctx Hp result_clear (ex_intro _ _ (ex_intro _ _ Hcov)) eq_refl)
    as (e & root & He & Ha & Hin & Hl & Hpre & Hmax).
  assert (e ∈ accepted) as Hacc.
  { apply result_inv in He as [|[Hd _]]; [done|]. rewrite <-Ha, Hd in Hread. done. }
  assert (∀ x below, x ∈ result_entries → below ∈ entry_paths context x → lexical below →
         names below `prefix_of` names path →
         length (names below) < length (names root)
         ∨ names below = names root ∧ access_rank (entry_access x) ≤ access_rank (entry_access e)) as Hmax'.
  { intros x below Hx Hb Hlb Hpb. rewrite Ha. apply Hmax, covers_intro; done. }
  exists e, root. split_and!; [done..| |done].
  intros source d below Hs Hd Hda Hb Hlb Hpb Hrb.
  assert (Forall (concrete context) re ∧ Forall (concrete context) ge) as [Hcr Hcg].
  { by destruct (materialized_entries_resolved _ _ _ Hre), (materialized_entries_resolved _ _ _ Hge). }
  rewrite Forall_forall in Hcr, Hcg.
  assert (d ∈ retained_deny_entries source accepted context) as Hret.
  { eapply inner_denial_retained; try done.
    - destruct Hs as [->| ->]; auto.
    - by apply within_can_read.
    - apply Hcg. by apply accepted_inv. }
  destruct (contains_entry_resolves context result_entries d below) as (x & Hx & Hxa & Hxb); [|done|apply Hlb|].
  { apply result_denial. destruct Hs as [->| ->]; auto. }
  destruct (Hmax' x below Hx Hxb Hlb Hpb) as [Hlt|[_ Hrank]].
  - apply prefix_length in Hrb. lia.
  - rewrite Hxa, Hda in Hrank. apply within_can_read in Hacc. by destruct (entry_access e); simpl in *; try lia.
Qed.

Lemma accepted_covered e root :
  e ∈ accepted → root ∈ entry_paths context e →
  access_covers (resolve_access (fs_restricted re) root context) (entry_access e) = true
  ∧ match read_deny_matcher_from_context (fs_restricted re) context with
    | Some matcher => matches_prepared_read_deny root context matcher
    | None => false
    end = false.
Proof.
  intros [Hg Hw]%accepted_inv Hin. destruct (materialized_entries_resolved _ _ _ Hge) as [_ Hc].
  rewrite Forall_forall in Hc. unfold granted_file_system_entry_within_request in Hw.
  destruct (_ || _) in Hw; [done|]. destruct (_ && _) in Hw; [done|]. rewrite (Hc e Hg root Hin) in Hw.
  destruct (_ || _) eqn:E in Hw; [done|]. apply orb_false_iff in E as [_ E]. done.
Qed.
Lemma result_read_requested path :
  lexical path → can_read_path result path context = true → can_read_path (fs_restricted re) path context = true.
Proof.
  intros Hp Hread. destruct (deciding_grant path Hp Hread) as (e & root & He & Ha & Hin & Hl & Hpre & Hno & _).
  apply not_false_iff_true. intros Hd.
  destruct (denied_below (fs_restricted re) context root path) as (d & below & Hin' & Hda & Hb & Hlb & Hpb & Hrb); try done.
  - destruct (accepted_covered e root He Hin) as [Hcov _]. unfold can_read_path.
    destruct (entry_access e), (resolve_access _ root _); done.
  - by apply (Hno re d below (or_introl eq_refl)).
Qed.
(** The entries of the grant that decide about the path *)
Lemma grant_decides path e root :
  lexical path → e ∈ ge → root ∈ entry_paths context e → lexical root → names root `prefix_of` names path →
  ∃ f below, f ∈ ge ∧ entry_access f = resolve_access (fs_restricted ge) path context ∧ below ∈ entry_paths context f
    ∧ lexical below ∧ names below `prefix_of` names path ∧ names root `prefix_of` names below
    ∧ (names below = names root → access_rank (entry_access e) ≤ access_rank (entry_access f)).
Proof.
  intros Hp Hg Hin Hl Hpre.
  assert (grant_covers (resolved_entries (fs_restricted ge) context) (names path) (names root) (entry_access e)) as Hcov
    by by apply covers_intro.
  destruct (access_not_covered (fs_restricted ge) context path _ eq_refl Hctx Hp Hclear_ge
    (ex_intro _ _ (ex_intro _ _ Hcov)) eq_refl) as (f & below & Hf & Ha & Hb & Hlb & Hpb & Hmax).
  exists f, below. split_and!; [done..| |].
  - destruct (prefix_weak_total _ _ _ Hpre Hpb) as [|Hbr]; [done|].
    destruct (Hmax _ _ Hcov) as [Hlt|[-> _]]; [|done]. apply prefix_length in Hbr. lia.
  - intros E. rewrite Ha. destruct (Hmax _ _ Hcov) as [Hlt|[_ ?]]; [rewrite E in Hlt; lia|done].
Qed.
Lemma result_read_granted path :
  lexical path → can_read_path result path context = true → can_read_path (fs_restricted ge) path context = true.
Proof.
  intros Hp Hread. destruct (deciding_grant path Hp Hread) as (e & root & He & Ha & Hin & Hl & Hpre & Hno & _).
  destruct (grant_decides path e root) as (f & below & Hf & Hfa & Hb & Hlb & Hpb & Hrb & _);
    try done; [by apply accepted_inv|].
  unfold can_read_path. rewrite <-Hfa. destruct (entry_access f) eqn:E; [done..|].
  exfalso. by apply (Hno ge f below (or_intror eq_refl)).
Qed.
Lemma result_write_requested path :
  lexical path → resolve_access result path context = AccessWrite →
  ∃ root, lexical root ∧ names root `prefix_of` names path
    ∧ resolve_access (fs_restricted re) root context = AccessWrite.
Proof.
  intros Hp Hw. destruct (deciding_grant path Hp) as (e & root & He & Ha & Hin & Hl & Hpre & _).
  { unfold can_read_path. by rewrite Hw. }
  exists root. split_and!; [done..|]. destruct (accepted_covered e root He Hin) as [Hcov _].
  rewrite Ha, Hw in Hcov. simpl in Hcov. unfold can_write in Hcov. by apply bool_decide_eq_true in Hcov.
Qed.

(** A grant that the request does not cover is below a denial inside the accepted
    grant around it. *)
Lemma rejected_below_denial e root f below path :
  deny_read_patterns (fs_restricted re) = [] → lexical path →
  e ∈ accepted → root ∈ entry_paths context e → lexical root →
  f ∈ ge → entry_access f = AccessRead → below ∈ entry_paths context f → lexical below →
  names root `prefix_of` names below → names below `prefix_of` names path →
  granted_file_system_entry_within_request requested (fs_restricted re)
    (read_deny_matcher_from_context (fs_restricted re) context) context f = false →
  ∃ d inner, d ∈ re ∧ entry_access d = AccessDeny ∧ inner ∈ entry_paths context d ∧ lexical inner
    ∧ names inner `prefix_of` names path ∧ names root `prefix_of` names inner.
Proof.
  intros Hno Hp He Hin Hl Hf Hfa Hb Hlb Hrb Hbp Hw. destruct (accepted_covered e root He Hin) as [Hcov Hroot].
  destruct (materialized_entries_resolved _ _ _ Hge) as [_ Hc]. rewrite Forall_forall in Hc.
  unfold granted_file_system_entry_within_request in Hw.
  rewrite (Hc f Hf below Hb), Hfa, (proj1 (proj2 Hctx)), (proj1 Hlb) in Hw. simpl in Hw.
  assert (match entry_path f with SpecialPath SlashTmp => false | _ => false end = false) as E
    by by destruct (entry_path f) as [| |[]].
  rewrite E in Hw. simpl in Hw.
  destruct (match read_deny_matcher_from_context _ _ with Some _ => _ | None => _ end) eqn:Em in Hw.
  - apply plain_matcher in Em as (inner & Hir & Hs); [|done..].
    apply list_elem_of_omap in Hir as ([u m] & Hir & Hm). simpl in Hm.
    destruct (bool_decide (m = AccessDeny)) eqn:Hmd; [|done]. apply bool_decide_eq_true in Hmd as ->.
    destruct (is_file_system_root context u) eqn:Hfr; [done|]. injection Hm as ->.
    assert (lexical inner) as Hli.
    { unfold clear_entries in Hclear_re. rewrite Forall_forall in Hclear_re.
      destruct (Hclear_re _ Hir) as [|Ho]; [done|]. simpl in Ho. exfalso. unfold uri_starts_with in Hs.
      destruct (uri_eqb below inner) eqn:Eq; [apply posix_eqb in Eq as ->; [|apply Hlb]|].
      - rewrite (lexical_not_opaque _ Hlb) in Ho. done.
      - by rewrite Ho, orb_true_r in Hs. }
    apply starts_with_names in Hs; [|done..]. pose proof Hir as Hir'.
    apply elem_of_resolved in Hir as (_ & d & Hd & Hda & Hdin). exists d, inner. split_and!; try done; [by etrans|].
    destruct (prefix_weak_total _ _ _ Hrb Hs) as [|Hir]; [done|]. exfalso. apply not_true_iff_false in Hroot.
    apply Hroot, plain_matcher; [done..|]. exists inner. split; [|by apply starts_with_names].
    apply list_elem_of_omap. exists (inner, AccessDeny). split; [done|]. simpl. by rewrite Hfr.
  - destruct (denied_below (fs_restricted re) context root below) as (d & inner & Hd & Hda & Hdin & Hli & Hpi & Hri); try done.
    + unfold can_read_path. by destruct (entry_access e), (resolve_access _ root _).
    + exists d, inner. split_and!; try done. by etrans.
Qed.
Lemma result_write_granted path :
  deny_read_patterns (fs_restricted re) = [] → lexical path → resolve_access result path context = AccessWrite →
  resolve_access (fs_restricted ge) path context = AccessWrite.
Proof.
  intros Hno Hp Hw. assert (can_read_path result path context = true) as Hread by (unfold can_read_path; by rewrite Hw).
  destruct (deciding_grant path Hp Hread) as (e & root & He & Ha & Hin & Hl & Hpre & Hden & Hmax).
  destruct (grant_decides path e root) as (f & below & Hf & Hfa & Hb & Hlb & Hpb & Hrb & Heq); try done;
    [by apply accepted_inv|].
  rewrite <-Hfa. destruct (entry_access f) eqn:E; [exfalso|done|exfalso; by apply (Hden ge f below (or_intror eq_refl))].
  rewrite Ha, Hw in Heq. simpl in Heq.
  assert (∀ x, x ∈ result_entries → below ∈ entry_paths context x → False) as Hnot.
  { intros x Hx Hxb. destruct (Hmax x below Hx Hxb Hlb Hpb) as [Hlt|[Hn _]].
    - apply prefix_length in Hrb. lia.
    - specialize (Heq Hn). lia. }
  destruct (granted_file_system_entry_within_request requested (fs_restricted re)
    (read_deny_matcher_from_context (fs_restricted re) context) context f) eqn:Hwith.
  - destruct (contains_entry_resolves context accepted f below) as (x & Hx & _ & Hxb); [|done|apply Hlb|].
    + unfold accepted, accepted_entries. apply push_all_contains, list_elem_of_filter. done.
    + apply (Hnot x); [|done]. by do 2 apply push_all_in.
  - destruct (rejected_below_denial e root f below path) as (d & inner & Hd & Hda & Hdin & Hli & Hpi & Hri); try done.
    by apply (Hden re d inner (or_introl eq_refl)).
Qed.
End result.

(** C12: For a POSIX working directory, an unambiguous path, and a request and a
    grant whose entries are all unambiguous, the intersection of the two stays within
    both.  A path that it lets be read is readable under the request and under the
    grant.  A path that it lets be written lies in a directory that the request
    writes; it is writable under the grant when the request has no glob denials.
    Network access needs both. *)
Theorem intersection_stays_within (requested granted : AdditionalPermissionProfile) rf f context path :
  add_file_system requested = Some rf →
  add_file_system (intersect_permission_profiles_with_context requested granted context) = Some f →
  posix_context context → lexical path →
  let gf := default no_permissions (add_file_system granted) in
  clear_entries (resolved_entries (fs_restricted (perm_entries rf)) context) →
  clear_entries (resolved_entries (fs_restricted (perm_entries gf)) context) →
  let access (p : FileSystemPermissions) u := resolve_access (fs_restricted (perm_entries p)) u context in
  (can_read (access f path) = true → can_read (access rf path) = true ∧ can_read (access gf path) = true)
  ∧ (access f path = AccessWrite →
       (∃ root, lexical root ∧ names root `prefix_of` names path ∧ access rf root = AccessWrite)
       ∧ (deny_read_patterns (fs_restricted (perm_entries rf)) = [] → access gf path = AccessWrite))
  ∧ net_is_true (add_network (intersect_permission_profiles_with_context requested granted context))
    = net_is_true (add_network requested) && net_is_true (add_network granted).
Proof.
  intros Hr Hf Hctx Hp gf Hcr Hcg access. unfold intersect_permission_profiles_with_context in *. simpl in *.
  rewrite Hr in Hf. simpl in Hf. fold gf in Hf.
  apply bind_Some in Hf as (f' & Hi & Hf). destruct (negb _) in Hf; [injection Hf as ->|done].
  unfold intersect_file_systems in Hi. apply bind_Some in Hi as (re & Hre & Hi). apply bind_Some in Hi as (ge & Hge & [= <-]).
  destruct (materialized_entries_resolved _ _ _ Hre) as [Er _], (materialized_entries_resolved _ _ _ Hge) as [Eg _].
  unfold access. rewrite <-(materialized_access _ _ _ path Hre), <-(materialized_access _ _ _ path Hge).
  setoid_rewrite <-(materialized_access context _ _ _ Hre). rewrite <-Er in Hcr. rewrite <-Eg in Hcg.
  split; [|split].
  - intros Hread.
    split; [by apply (result_read_requested rf gf context re ge)|by apply (result_read_granted rf gf context re ge)].
  - intros Hw. split; [by apply (result_write_requested rf gf context re ge)|]. intros Hno.
    eapply (result_write_granted rf gf context re ge); try done. by eapply materialized_no_patterns.
  - by destruct (_ && _).
Qed.
End intersection.

(** ** The effective profile *)

Section effective.
Context `{FileUrlLaws}.
Implicit Types (p : FileSystemSandboxPolicy) (context : FileSystemSandboxPolicyContext) (path : Url).

(** The grants that are added to a profile *)
Definition added_entries (additional : option AdditionalPermissionProfile) : list FileSystemSandboxEntry :=
  default [] (perm_entries <$> (additional ≫= add_file_system)).

Lemma effective_kind p additional : fs_kind (effective_file_system_sandbox_policy p additional) = fs_kind p.
Proof.
  unfold effective_file_system_sandbox_policy, merge_file_system_policy_with_additional_permissions.
  destruct (_ ≫= _); [|done]. destruct (permissions_is_empty _); [done|]. by destruct (fs_kind p) eqn:E.
Qed.
Lemma effective_entries p additional :
  fs_kind p = Restricted →
  fs_entries (effective_file_system_sandbox_policy p additional) = foldl push_missing (fs_entries p) (added_entries additional).
Proof.
  intros Hk. unfold effective_file_system_sandbox_policy, added_entries, merge_file_system_policy_with_additional_permissions.
  destruct (_ ≫= _) as [[entries depth]|]; [|done]. unfold permissions_is_empty. simpl. destruct entries; [done|]. by rewrite Hk.
Qed.
(** Building the profile never panics, and gives back the effective policies. *)
Lemma effective_profile_total (profile : PermissionProfile) additional :
  ∃ profile', effective_permission_profile profile additional = Some profile'
    ∧ enforcement profile' = enforcement profile
    ∧ fs_kind (file_system_sandbox_policy profile') = fs_kind (file_system_sandbox_policy profile)
    ∧ fs_entries (file_system_sandbox_policy profile')
      = fs_entries (effective_file_system_sandbox_policy (file_system_sandbox_policy profile) additional)
    ∧ network_sandbox_policy profile' = effective_network_sandbox_policy (network_sandbox_policy profile) additional.
Proof.
  unfold effective_permission_profile, from_runtime_permissions_with_enforcement, from_sandbox_policy.
  pose proof (effective_kind (file_system_sandbox_policy profile) additional) as Hk. rewrite Hk.
  destruct profile as [[entries depth|] network| |network]; simpl in *; rewrite ?Hk; simpl; eexists;
    (split; [reflexivity|]); simpl; split_and!; try done;
    unfold effective_file_system_sandbox_policy, merge_file_system_policy_with_additional_permissions;
    try (by destruct (additional ≫= add_file_system); [destruct (permissions_is_empty _)|]).
  unfold effective_network_sandbox_policy, merge_network_access. by destruct additional.
Qed.

Lemma effective_resolved p additional context root m :
  fs_kind p = Restricted →
  (root, m) ∈ resolved_entries (effective_file_system_sandbox_policy p additional) context →
  (root, m) ∈ resolved_entries p context ∨ (root, m) ∈ resolved_entries (fs_restricted (added_entries additional)) context.
Proof.
  intros Hk. rewrite !elem_of_resolved, effective_entries by done. simpl.
  intros (Hc & e & [He|He]%push_all_inv & Hm & Hin); [left|right]; (split; [done|]); by exists e.
Qed.
Lemma effective_clear p additional context :
  fs_kind p = Restricted → clear_entries (resolved_entries p context) →
  clear_entries (resolved_entries (fs_restricted (added_entries additional)) context) →
  clear_entries (resolved_entries (effective_file_system_sandbox_policy p additional) context).
Proof.
  intros Hk. unfold clear_entries. rewrite !Forall_forall. intros Hc Ha [root m] [Hin|Hin]%effective_resolved;
    [by apply (Hc (root, m))|by apply (Ha (root, m))|done].
Qed.
(** Access is what it was, or that of an added entry which covers the path. *)
Lemma effective_access p additional context path :
  posix_context context → lexical path → clear_entries (resolved_entries p context) →
  clear_entries (resolved_entries (fs_restricted (added_entries additional)) context) →
  let m := resolve_access (effective_file_system_sandbox_policy p additional) path context in
  resolve_access p path context = m
  ∨ ∃ e root, e ∈ added_entries additional ∧ entry_access e = m ∧ root ∈ entry_paths context e ∧ lexical root
      ∧ names root `prefix_of` names path.
Proof.
  intros Hctx Hp Hc Ha m. destruct (fs_kind p) eqn:Hk;
    [|left; unfold m, resolve_access; by rewrite effective_kind, Hk..].
  pose proof (effective_kind p additional) as Hk'. rewrite Hk in Hk'.
  assert (∀ base m', grant_covers (resolved_entries p context) (names path) base m' →
    grant_covers (resolved_entries (effective_file_system_sandbox_policy p additional) context) (names path) base m') as Hmono.
  { intros base m' (Hpre & root & Hin & Ho). split; [done|]. exists root. split; [|done].
    revert Hin. rewrite !elem_of_resolved, effective_entries by done. intros (? & e & He & ?). split; [done|].
    exists e. split; [by apply push_all_in|done]. }
  pose proof (effective_clear p additional context Hk Hc Ha) as Hce.
  destruct (resolve_access_governs _ path context Hk' Hp (proj2 Hctx) Hce) as [(base & (Hpre & root & Hin & Ho & Hn) & Hmax)|[E Hno]].
  - apply effective_resolved in Hin as [Hin|Hin]; [|right|done].
    + left. eapply governs_unique; [by apply resolve_access_governs; [..|apply Hctx|]|]. left. exists base.
      split; [by split; [|exists root]|]. intros base' m' Hcov. by apply Hmax, Hmono.
    + assert (lexical root) as Hl.
      { unfold clear_entries in Ha. rewrite Forall_forall in Ha. destruct (Ha _ Hin) as [|Ho']; simpl in *; congruence. }
      apply elem_of_resolved in Hin as (_ & e & He & Hm & Hin). exists e, root. rewrite Hn. by split_and!.
  - left. unfold m. rewrite E. destruct (resolve_access_governs p path context Hk Hp (proj2 Hctx) Hc) as [(b & Hcov & _)|[-> _]]; [|done].
    by destruct (Hno _ _ (Hmono _ _ Hcov)).
Qed.

(** Additional permissions add what they say and nothing else: building the
    effective profile succeeds; access to a path is that of the profile or that
    of an added entry around the path; without added denials nothing that was
    readable is lost; a denial of the profile gives way only to entries strictly
    below it; and the network is on when the profile or the permissions turn it
    on. *)
Theorem effective_profile_adds_grants (profile : PermissionProfile) additional context path :
  posix_context context → lexical path →
  clear_entries (resolved_entries (file_system_sandbox_policy profile) context) →
  clear_entries (resolved_entries (fs_restricted (added_entries additional)) context) →
  ∃ profile', effective_permission_profile profile additional = Some profile' ∧
  let base := file_system_sandbox_policy profile in
  let now := file_system_sandbox_policy profile' in
  (resolve_access base path context = resolve_access now path context
   ∨ ∃ e root, e ∈ added_entries additional ∧ entry_access e = resolve_access now path context
       ∧ root ∈ entry_paths context e ∧ lexical root ∧ names root `prefix_of` names path)
  ∧ (Forall (λ e, entry_access e ≠ AccessDeny) (added_entries additional) →
     can_read_path base path context = true → can_read_path now path context = true)
  ∧ (∀ d root, is_restricted base = true → d ∈ fs_entries base → entry_access d = AccessDeny →
     root ∈ entry_paths context d → lexical root → names root `prefix_of` names path →
     can_read_path now path context = true →
     ∃ e below, e ∈ fs_entries base ++ added_entries additional ∧ can_read (entry_access e) = true
       ∧ below ∈ entry_paths context e ∧ lexical below
       ∧ names root `prefix_of` names below ∧ names below ≠ names root ∧ names below `prefix_of` names path)
  ∧ (network_sandbox_policy profile' = NetEnabled ↔
     network_sandbox_policy profile = NetEnabled
     ∨ ∃ permissions, additional = Some permissions ∧ net_is_true (add_network permissions) = true).
Proof.
  intros Hctx Hp Hc Ha. destruct (effective_profile_total profile additional) as (profile' & E & _ & Hk & He & Hn).
  exists profile'. split; [done|]. intros base now.
  assert (resolve_access now path context
          = resolve_access (effective_file_system_sandbox_policy base additional) path context) as Hr.
  { unfold resolve_access, resolved_entries. fold now in He, Hk. fold base in He, Hk.
    by rewrite He, Hk, effective_kind. }
  pose proof (effective_access base additional context path Hctx Hp Hc Ha) as Hacc. simpl in Hacc.
  rewrite <-Hr in Hacc. split_and!.
  - done.
  - intros Hno Hread. unfold can_read_path in *. destruct Hacc as [Heq|(e & root & Hin & Hm & _)]; [by rewrite <-Heq|].
    rewrite Forall_forall in Hno. unfold can_read. rewrite <-Hm. by rewrite bool_decide_eq_false_2 by (by apply Hno).
  - intros d root Hre Hd Hda Hin Hl Hpre Hread. unfold is_restricted in Hre. apply bool_decide_eq_true in Hre.
    destruct (denied_unless_below (effective_file_system_sandbox_policy base additional) context d root path)
      as (e & below & Hin' & Hrest); try done.
    + unfold is_restricted. by rewrite effective_kind, Hre.
    + by apply effective_clear.
    + rewrite effective_entries by done. apply contains_entry_in. by apply push_all_in.
    + unfold can_read_path in *. by rewrite <-Hr.
    + exists e, below. split; [|done]. rewrite effective_entries in Hin' by done. apply elem_of_app. by apply push_all_inv.
  - rewrite Hn. unfold effective_network_sandbox_policy, merge_network_access, net_is_enabled.
    destruct additional as [[[[[[|]|]]|] fs]|]; simpl; rewrite ?orb_true_r, ?orb_false_r;
      destruct (network_sandbox_policy profile); simpl; naive_solver.
Qed.
End effective.

(** ** Merged permissions, and the form of earlier versions *)

Section merged.
Context `{FileUrlLaws} `{PathEnv}.

(** Merging keeps every entry of both sides and adds none. *)
Lemma merged_entries (base permissions : list FileSystemSandboxEntry) :
  (∀ e, e ∈ base ++ permissions → contains_entry (merge_permission_entries base permissions) e = true)
  ∧ ∀ e, e ∈ merge_permission_entries base permissions → e ∈ base ++ permissions.
Proof.
  unfold merge_permission_entries. split; intros e He; [by apply push_all_contains|].
  apply push_all_inv in He as [He|He]; [by apply elem_of_nil in He|done].
Qed.

Lemma legacy_paths_roots (read write : list rstr) (access : FileSystemAccessMode) (roots : list rstr) rest :
  Forall (λ root, to_abs_path (from_abs_path root) = Some root) roots → access ≠ AccessDeny →
  legacy_paths (((λ path, new_entry (FsPath path) access) <$> (from_abs_path <$> roots)) ++ rest) read write
  = if can_write access then legacy_paths rest read (write ++ roots) else legacy_paths rest (read ++ roots) write.
Proof.
  intros Hr Ha. revert read write. induction Hr as [|root roots Hr Hs IH]; intros read write; simpl.
  { rewrite !app_nil_r. by destruct (can_write access). }
  rewrite Hr. simpl. destruct access; [| |done]; rewrite IH; simpl; by rewrite <-app_assoc.
Qed.
(** Roots that survive the conversion to URIs come back from the permissions made of them. *)
Lemma legacy_roots_round_trip (read write : list rstr) :
  Forall (λ root, to_abs_path (from_abs_path root) = Some root) (read ++ write) →
  as_legacy_permissions (from_read_write_roots (Some read) (Some write))
  = Some (mkLegacyRoots (some_unless_empty read) (some_unless_empty write)).
Proof.
  intros [Hr Hw]%Forall_app. unfold as_legacy_permissions, from_read_write_roots, from_read_write_path_uris. simpl.
  rewrite legacy_paths_roots by done. simpl.
  rewrite <-(app_nil_r ((λ path, new_entry (FsPath path) AccessWrite) <$> _)), legacy_paths_roots by done. done.
Qed.
End merged.
