(* ===== verification/PolicyIntersectionProps.v ===== *)
(** A child agent never gets more than its owner holds and than it asked for. *)

From stdpp Require Import sorting.
From S2P Require Import Prelude Utf8 AbsolutePath PathUris PathUriProps ConfigPaths FsPolicy FsPolicyProps FsDenyProps FsHost PolicyTransforms PolicyTransformsProps PolicyIntersection.
#[local] Opaque str.

(** ** A policy within another *)

Section within.
Context `{FileUrlLaws}.
Implicit Types (p res s : FileSystemSandboxPolicy) (context : FileSystemSandboxPolicyContext)
  (e d x : FileSystemSandboxEntry) (root path u : Url).

(** Access depends on the names of a path only. *)
Lemma resolve_access_names p context u path :
  posix_context context → clear_entries (resolved_entries p context) → lexical u → lexical path → names u = names path →
  resolve_access p u context = resolve_access p path context.
Proof.
  intros Hctx Hc Hu Hp Hn. destruct (fs_kind p) eqn:Hk; [|unfold resolve_access; by rewrite Hk..].
  eapply governs_unique; [by apply resolve_access_governs; [..|apply Hctx|]|].
  rewrite Hn. by apply resolve_access_governs; [..|apply Hctx|].
Qed.

(** The entry that decides about a path, in terms of the entries themselves *)
Lemma deciding_entry p context path :
  fs_kind p = Restricted → posix_context context → clear_entries (resolved_entries p context) → lexical path →
  can_read_path p path context = true →
  ∃ e root, e ∈ fs_entries p ∧ entry_access e = resolve_access p path context ∧ root ∈ entry_paths context e
    ∧ lexical root ∧ names root `prefix_of` names path
    ∧ ∀ x u, x ∈ fs_entries p → u ∈ entry_paths context x → lexical u → names u `prefix_of` names path →
        length (names u) < length (names root)
        ∨ names u = names root ∧ access_rank (entry_access x) ≤ access_rank (entry_access e).
Proof.
  intros Hk Hctx Hc Hp Hread. unfold can_read_path in Hread.
  destruct (resolve_access_governs p path context Hk Hp (proj2 Hctx) Hc) as [(b & Hcov & _)|[E _]];
    [|by rewrite E in Hread].
  destruct (access_not_covered p context path _ Hk Hctx Hp Hc (ex_intro _ _ (ex_intro _ _ Hcov)) eq_refl)
    as (e & root & He & Ha & Hin & Hl & Hpre & Hmax).
  exists e, root. split_and!; [done..|]. intros x u Hx Hu Hlu Hpu. rewrite Ha. by apply Hmax, covers_intro.
Qed.

(** Adding writes never takes access away. *)
Lemma write_added p (q : FileSystemSandboxPolicy) context path (m : FileSystemAccessMode) :
  fs_kind p = Restricted → fs_kind q = Restricted → posix_context context →
  clear_entries (resolved_entries p context) → clear_entries (resolved_entries q context) → lexical path →
  (∀ e, e ∈ fs_entries p → e ∈ fs_entries q) →
  (∀ e, e ∈ fs_entries q → e ∈ fs_entries p ∨ entry_access e = AccessWrite) →
  access_covers (resolve_access p path context) m = true → access_covers (resolve_access q path context) m = true.
Proof.
  intros Hp Hq Hctx Hcp Hcq Hl Hsub Hinv Hcov.
  destruct (deciding_entry p context path) as (e & root & He & Ha & Hin & Hlr & Hpre & Hmax); try done.
  { unfold can_read_path. by destruct m, (resolve_access p path context). }
  assert (grant_covers (resolved_entries q context) (names path) (names root) (entry_access e)) as Hc
    by (apply covers_intro; auto).
  destruct (access_not_covered q context path _ Hq Hctx Hl Hcq (ex_intro _ _ (ex_intro _ _ Hc)) eq_refl)
    as (f & below & Hf & Hfa & Hb & Hlb & Hpb & Hmax').
  destruct (Hinv f Hf) as [Hfp|Hw]; [|rewrite <-Hfa, Hw; by destruct m, (resolve_access p path context)].
  rewrite Ha in Hc. destruct (Hmax f below Hfp Hb Hlb Hpb) as [Hlt|[Hn Hr]], (Hmax' _ _ Hc) as [Hlt'|[Hn' Hr']];
    [lia|rewrite Hn' in Hlt; lia|rewrite Hn in Hlt'; lia|].
  assert (resolve_access q path context = resolve_access p path context) as ->; [|done].
  apply access_rank_inj. rewrite Hfa, Ha in Hr. lia.
Qed.

Section pointwise.
Context (res s : FileSystemSandboxPolicy) (context : FileSystemSandboxPolicyContext).
Context (Hres : fs_kind res = Restricted) (Hs : fs_kind s = Restricted) (Hctx : posix_context context).
Context (Hcr : clear_entries (resolved_entries res context)) (Hcs : clear_entries (resolved_entries s context)).
(** The denials are kept, *)
Context (Hdeny : ∀ d, d ∈ fs_entries s → entry_access d = AccessDeny → contains_entry (fs_entries res) d = true).
(** entries that make a directory read-only have a counterpart, *)
Context (Hro : ∀ e u, e ∈ fs_entries s → entry_access e = AccessRead → u ∈ entry_paths context e → lexical u →
  ∃ x v, x ∈ fs_entries res ∧ v ∈ entry_paths context x ∧ lexical v ∧ names v = names u).
(** and what decides about a directory is covered there. *)
Context (Hgrant : ∀ e root, e ∈ fs_entries res → can_read (entry_access e) = true → root ∈ entry_paths context e →
  lexical root →
  (∀ x v, x ∈ fs_entries res → v ∈ entry_paths context x → lexical v → names v = names root →
     access_rank (entry_access x) ≤ access_rank (entry_access e)) →
  access_covers (resolve_access s root context) (entry_access e) = true).

Lemma deciding_covered path e root :
  e ∈ fs_entries res → can_read (entry_access e) = true → root ∈ entry_paths context e → lexical root →
  names root `prefix_of` names path →
  (∀ x u, x ∈ fs_entries res → u ∈ entry_paths context x → lexical u → names u `prefix_of` names path →
     length (names u) < length (names root)
     ∨ names u = names root ∧ access_rank (entry_access x) ≤ access_rank (entry_access e)) →
  access_covers (resolve_access s root context) (entry_access e) = true.
Proof.
  intros He Hr Hin Hl Hpre Hmax. apply Hgrant; try done. intros x v Hx Hv Hlv Hn.
  destruct (Hmax x v Hx Hv Hlv) as [Hlt|[_ ?]]; [by rewrite Hn|rewrite Hn in Hlt; lia|done].
Qed.
(** No denial of the other policy lies between a deciding entry and the path. *)
Lemma no_inner_denial path e root d below :
  can_read (entry_access e) = true → names root `prefix_of` names path →
  (∀ x u, x ∈ fs_entries res → u ∈ entry_paths context x → lexical u → names u `prefix_of` names path →
     length (names u) < length (names root)
     ∨ names u = names root ∧ access_rank (entry_access x) ≤ access_rank (entry_access e)) →
  d ∈ fs_entries s → entry_access d = AccessDeny → below ∈ entry_paths context d → lexical below →
  names below `prefix_of` names path → ¬ names root `prefix_of` names below.
Proof.
  intros Hr Hpre Hmax Hd Hda Hb Hlb Hpb Hrb.
  destruct (contains_entry_resolves context (fs_entries res) d below) as (x & Hx & Hxa & Hxb); [by apply Hdeny|done|apply Hlb|].
  destruct (Hmax x below Hx Hxb Hlb Hpb) as [Hlt|[_ Hrank]].
  - apply prefix_length in Hrb. lia.
  - rewrite Hxa, Hda in Hrank. by destruct (entry_access e); simpl in *; try lia.
Qed.
Lemma within_read path :
  lexical path → can_read_path res path context = true → can_read_path s path context = true.
Proof.
  intros Hp Hread. destruct (deciding_entry res context path) as (e & root & He & Ha & Hin & Hl & Hpre & Hmax); try done.
  assert (can_read (entry_access e) = true) as Hr by by rewrite Ha.
  pose proof (deciding_covered path e root He Hr Hin Hl Hpre Hmax) as Hcov.
  apply not_false_iff_true. intros Hno.
  destruct (denied_below s context root path) as (d & below & Hd & Hda & Hb & Hlb & Hpb & Hrb); try done.
  - unfold can_read_path. by destruct (entry_access e), (resolve_access s root context).
  - by apply (no_inner_denial path e root d below).
Qed.
Lemma within_write path :
  lexical path → resolve_access res path context = AccessWrite → resolve_access s path context = AccessWrite.
Proof.
  intros Hp Hw. assert (can_read_path res path context = true) as Hread by (unfold can_read_path; by rewrite Hw).
  pose proof (within_read path Hp Hread) as Hsr.
  destruct (deciding_entry res context path) as (e & root & He & Ha & Hin & Hl & Hpre & Hmax); try done.
  rewrite Hw in Ha. assert (can_read (entry_access e) = true) as Hr by by rewrite Ha.
  pose proof (deciding_covered path e root He Hr Hin Hl Hpre Hmax) as Hcov. rewrite Ha in Hcov. simpl in Hcov.
  unfold can_write in Hcov. apply bool_decide_eq_true in Hcov.
  destruct (deciding_entry s context path) as (f & below & Hf & Hfa & Hb & Hlb & Hpb & Hmax'); try done.
  destruct (resolve_access s path context) eqn:E; [exfalso|done|by unfold can_read_path in Hsr; rewrite E in Hsr].
  destruct (deciding_entry s context root) as (g & inner & Hg & Hga & Hi & Hli & Hpi & Hmaxg); try done.
  { unfold can_read_path. by rewrite Hcov. }
  rewrite Hcov in Hga.
  destruct (Hmax' g inner Hg Hi Hli) as [Hlt|[_ Hrank]]; [by etrans| |rewrite Hga, Hfa in Hrank; simpl in Hrank; lia].
  destruct (prefix_weak_total _ _ _ Hpre Hpb) as [Hrb|Hbr].
  2: { destruct (Hmaxg f below Hf Hb Hlb Hbr) as [|[Hn _]]; [lia|rewrite Hn in Hlt; lia]. }
  destruct (Hro f below Hf Hfa Hb Hlb) as (x & v & Hx & Hv & Hlv & Hn).
  apply prefix_length in Hrb as Hlen.
  destruct (Hmax x v Hx Hv Hlv) as [Hlt'|[Hn' _]]; [by rewrite Hn|rewrite Hn in Hlt'; lia|].
  rewrite Hn in Hn'. destruct (Hmaxg f below Hf Hb Hlb) as [|[E' _]]; [by rewrite Hn'|lia|rewrite E' in Hlt; lia].
Qed.
End pointwise.
End within.

(** ** The paths of an intersection *)

Section paths.
Lemma dedup_adjacent_elem (l : list rstr) x : x ∈ dedup_adjacent l ↔ x ∈ l.
Proof.
  induction l as [|a [|b l] IH]; [done..|]. change (dedup_adjacent (a :: b :: l)) with
    (if str_eqb a b then dedup_adjacent (b :: l) else a :: dedup_adjacent (b :: l)).
  destruct (str_eqb a b) eqn:E.
  - unfold str_eqb in E. apply bool_decide_eq_true in E as ->. rewrite IH, !elem_of_cons. tauto.
  - by rewrite elem_of_cons, IH, (elem_of_cons (b :: l)).
Qed.
Lemma sorted_paths_elem (l : list rstr) x : x ∈ sorted_paths l ↔ x ∈ l.
Proof. unfold sorted_paths. by rewrite dedup_adjacent_elem, (merge_sort_Permutation depth_le l). Qed.
Lemma collect_results_Forall2 {A B} (f : A → result PermissionIntersectionError B) (l : list A) (k : list B) :
  collect_results (f <$> l) = Ok k → Forall2 (λ (x : A) y, f x = Ok y) l k.
Proof.
  revert k. induction l as [|x l IH]; intros k; simpl; [by intros [= <-]; constructor|].
  destruct (f x) as [y|] eqn:E; simpl; [|done]. destruct (collect_results _) as [k'|]; simpl; [|done]. intros [= <-].
  constructor; [done|by apply IH].
Qed.
Lemma intersect_access_covers a b (r : FileSystemAccessMode) :
  can_read (intersect_access a b) = true →
  (access_covers r a = true ∨ access_covers r b = true) → access_covers r (intersect_access a b) = true.
Proof. by destruct a, b, r; simpl; intros ? [|]. Qed.
Lemma intersect_access_read a b :
  can_read (intersect_access a b) = true → can_read a = true ∧ can_read b = true.
Proof. by destruct a, b. Qed.
End paths.

Section kinds.
Context `{FileUrls} `{PathEnv} `{HostFs} `{Globs : GlobTools} (fs_path_debug : FileSystemPath → rstr).
Lemma canonical_restricted (authority requested res : FileSystemSandboxPolicy) (cwd : rstr) :
  intersect_canonical fs_path_debug authority requested cwd = Ok res → fs_kind res = Restricted.
Proof.
  assert (∀ a r denies paths p, fs_kind (foldl (intersect_step a r cwd denies) p paths) = fs_kind p) as Hfold.
  { intros a r denies paths. induction paths as [|path paths IH]; intros p; [done|]. simpl. rewrite IH.
    unfold intersect_step. by destruct (_ && _ && _). }
  unfold intersect_canonical. destruct (try_new_for_local_paths authority cwd); simpl; [|done].
  destruct (try_new_for_local_paths requested cwd); simpl; [|done].
  destruct (collect_source cwd _ authority); simpl; [|done]. destruct (collect_source cwd _ requested); simpl; [|done].
  destruct (try_new_for_local_paths _ cwd); simpl; [|done]. intros [= <-]. by rewrite Hfold.
Qed.
End kinds.

Section host.
Context `{FileUrlLaws} `{PathEnv} `{HostFs} `{Globs : GlobTools} (fs_path_debug : FileSystemPath → rstr).
Context (cwd cwd_absolute : rstr) (Hcwd : from_absolute_path cwd = Some cwd_absolute).
Implicit Types (p s : FileSystemSandboxPolicy) (e d x : FileSystemSandboxEntry) (path : rstr).

Definition cwd_context : FileSystemSandboxPolicyContext := local_context (from_abs_path cwd_absolute).
Context (Hctx : posix_context cwd_context).

(** An absolute path of the host whose URL has its names *)
Definition native path : Prop :=
  path_is_absolute path = true ∧ from_absolute_path path = Some path ∧ lexical (from_abs_path path)
  ∧ (path_names path = [] → names (from_abs_path path) = []).

Lemma effective_covered p (denies : LocalMatcher) path :
  native path → can_read (effective_access p denies path cwd) = true →
  access_covers (resolve_access p (from_abs_path path) cwd_context) (effective_access p denies path cwd) = true.
Proof.
  intros (Habs & Hpath & _). unfold effective_access, can_write_local_path_with_cwd, can_read_local_path_with_cwd,
    resolve_access_for_local_path_with_cwd, with_local_policy_context, resolve_candidate_path.
  rewrite Hcwd. simpl. rewrite Habs, Hpath. simpl. fold cwd_context.
  destruct (local_read_denied denies path); [done|].
  destruct (can_write_path p (from_abs_path path) cwd_context) eqn:Ew.
  - intros _. unfold can_write_path in Ew. by destruct (resolve_access p _ _).
  - by destruct (resolve_access p (from_abs_path path) cwd_context).
Qed.

Section fold.
Context (authority requested : Source) (denies : LocalMatcher).
Let step := intersect_step authority requested cwd denies.
Definition intersected_access path : FileSystemAccessMode :=
  intersect_access (effective_access authority.1 authority.2 path cwd) (effective_access requested.1 requested.2 path cwd).
Definition entry_for path e : Prop :=
  entry_path e = intersected_path [authority; requested] path cwd ∧ entry_access e = intersected_access path.

Lemma step_inv p path e : e ∈ fs_entries (step p path) → e ∈ fs_entries p ∨ entry_for path e.
Proof.
  unfold step, intersect_step. destruct (_ && _ && _); [by left|]. simpl.
  intros [Hin| ->]%push_missing_inv; [by left|right]. unfold entry_for, intersected_access. by destruct (_ && _).
Qed.
Lemma step_keeps p path e : e ∈ fs_entries p → e ∈ fs_entries (step p path).
Proof. intros He. unfold step, intersect_step. destruct (_ && _ && _); [done|]. simpl. by apply push_missing_in. Qed.
Lemma step_kind p path : fs_kind (step p path) = fs_kind p.
Proof. unfold step, intersect_step. by destruct (_ && _ && _). Qed.
(** A path with a read-only entry always gets one. *)
Lemma step_forced p path e :
  e ∈ fs_entries authority.1 ∨ e ∈ fs_entries requested.1 → entry_access e = AccessRead → entry_is_at e cwd path = true →
  ∃ x, contains_entry (fs_entries (step p path)) x = true ∧ entry_for path x.
Proof.
  intros He Ha Hat. unfold step, intersect_step.
  destruct (existsb (λ s : Source, existsb (λ e, skips_missing_path e && _) _) _) eqn:Eo;
    destruct (existsb (λ s : Source, existsb (λ e, negb _ && _ && _) _) _) eqn:Er.
  4: { exfalso. destruct (skips_missing_path e) eqn:Es.
       - apply not_true_iff_false in Eo. apply Eo. apply existsb_exists.
         destruct He as [He|He]; [exists authority|exists requested]; (split; [simpl; auto|]);
           apply existsb_exists; exists e; rewrite <-list_elem_of_In, Es, Hat; done.
       - apply not_true_iff_false in Er. apply Er. apply existsb_exists.
         destruct He as [He|He]; [exists authority|exists requested]; (split; [simpl; auto|]);
           apply existsb_exists; exists e; rewrite <-list_elem_of_In, Es, Hat, Ha; done. }
  all: rewrite ?andb_false_r; simpl; eexists; (split; [by apply push_all_contains with (l := [_]); left|]);
    unfold entry_for, intersected_access; simpl; try done; by destruct (bool_decide _).
Qed.
Lemma fold_facts paths p :
  fs_kind (foldl step p paths) = fs_kind p
  ∧ (∀ e, e ∈ fs_entries p → e ∈ fs_entries (foldl step p paths))
  ∧ (∀ e, e ∈ fs_entries (foldl step p paths) → e ∈ fs_entries p ∨ ∃ path, path ∈ paths ∧ entry_for path e).
Proof.
  revert p. induction paths as [|path paths IH]; intros p; [by split_and!; [|auto|auto]|]. simpl.
  destruct (IH (step p path)) as (Hk & Hkeep & Hinv). split_and!.
  - by rewrite Hk, step_kind.
  - intros e He. by apply Hkeep, step_keeps.
  - intros e [[He|He]%step_inv|(q & Hq & He)]%Hinv; [by left|right; exists path|right; exists q];
      (split; [|done]); set_solver.
Qed.
Lemma fold_forced paths p path e :
  path ∈ paths → e ∈ fs_entries authority.1 ∨ e ∈ fs_entries requested.1 → entry_access e = AccessRead →
  entry_is_at e cwd path = true →
  ∃ x, contains_entry (fs_entries (foldl step p paths)) x = true ∧ entry_for path x.
Proof.
  intros Hin He Ha Hat. revert p. induction paths as [|q paths IH]; intros p; [by apply elem_of_nil in Hin|]. simpl.
  apply elem_of_cons in Hin as [<-|Hin]; [|by apply IH].
  destruct (step_forced p path e He Ha Hat) as (x & Hx & Hfor). exists x. split; [|done].
  eapply contains_mono; [|done]. intros y. apply fold_facts.
Qed.
End fold.

Lemma entry_for_paths authority requested path e :
  native path → entry_for authority requested path e →
  ∃ r, entry_paths cwd_context e = [r] ∧ lexical r ∧ names r = names (from_abs_path path).
Proof.
  intros (_ & _ & Hl & Hroot) [Hp _]. unfold intersected_path in Hp. destruct (_ && _) eqn:E in Hp.
  - destruct (root_paths cwd_context e Hctx Hp) as (r & Hr & Hlr & Hn). exists r. split_and!; [done..|].
    rewrite !andb_true_iff, bool_decide_eq_true in E. destruct E as [[E _] _]. unfold parent_path in E.
    rewrite Hroot, Hn; [done|]. by destruct (path_names path).
  - exists (from_abs_path path). split_and!; [|done..]. unfold entry_paths. by rewrite Hp.
Qed.

(** ** What is collected *)

Definition reached (c : Collected) (entries : list FileSystemSandboxEntry) : Prop :=
  (∀ d, d ∈ entries → entry_access d = AccessDeny → contains_entry (col_denies c) d = true)
  ∧ ∀ e, e ∈ entries → ∃ o, entry_local_path e cwd = Ok o ∧ ∀ path, o = Some path → path ∈ col_paths c.
Definition grows (c c' : Collected) (entries : list FileSystemSandboxEntry) : Prop :=
  (∀ path, path ∈ col_paths c → path ∈ col_paths c')
  ∧ (∀ d, contains_entry (col_denies c) d = true → contains_entry (col_denies c') d = true)
  ∧ ∀ d, d ∈ col_denies c' → d ∈ col_denies c ∨ d ∈ entries ∧ entry_access d = AccessDeny.
Lemma reached_grows c c' entries entries' : reached c entries → grows c c' entries' → reached c' entries.
Proof.
  intros [Hd Hp] (G1 & G2 & _). split; [auto|]. intros e He. destruct (Hp e He) as (o & Ho & Hpath). eauto.
Qed.
Lemma collected_grows_trans a b c entries entries' : grows a b entries → grows b c entries' → grows a c (entries ++ entries').
Proof.
  intros (A1 & A2 & A3) (B1 & B2 & B3). split_and!; [auto..|].
  intros d [[Hd|[Hd Ha]]%A3|[Hd Ha]]%B3; [by left|right..]; rewrite elem_of_app; auto.
Qed.
Lemma collect_entry_facts p roots c e c' :
  collect_entry p cwd roots c e = Ok c' → reached c' [e] ∧ grows c c' [e].
Proof.
  unfold collect_entry. destruct (entry_local_path e cwd) as [o|] eqn:Eo; simpl; [|done]. intros Hc.
  assert (col_denies c' = (if bool_decide (entry_access e = AccessDeny) then push_missing (col_denies c) e else col_denies c)
          ∧ col_paths c' = col_paths c ++ option_list o) as [Hd Hp].
  { destruct o as [path|]; [destruct (_ && _) in Hc; [done|]|]; injection Hc as <-; simpl; by rewrite ?app_nil_r. }
  clear Hc. split; split.
  - intros d ->%list_elem_of_singleton Ha. rewrite Hd, Ha, bool_decide_eq_true_2 by done.
    by apply (push_all_contains [e]); left.
  - intros x ->%list_elem_of_singleton. exists o. split; [done|]. intros path ->. rewrite Hp. simpl. set_solver.
  - intros path. rewrite Hp. set_solver.
  - split; [intros d; rewrite Hd; case_bool_decide; [|done]; apply contains_mono; intros x; apply push_missing_in|].
    intros d. rewrite Hd. case_bool_decide as Ha; [|by left]. intros [| -> ]%push_missing_inv; [by left|right].
    split; [by left|done].
Qed.
Lemma collect_source_entries_facts p roots entries c c' :
  collect_source_entries p cwd roots c entries = Ok c' → reached c' entries ∧ grows c c' entries.
Proof.
  revert c. induction entries as [|e entries IH]; intros c; simpl.
  { intros [= ->]. split; [by split; intros ? Hx%elem_of_nil|]. by split_and!; [..|left]. }
  destruct (collect_entry p cwd roots c e) as [c1|] eqn:E; simpl; [|done]. intros Hc.
  destruct (collect_entry_facts _ _ _ _ _ E) as [R1 G1], (IH c1 Hc) as [R2 G2]. split.
  - destruct (reached_grows _ _ _ _ R1 G2) as [D1 P1], R2 as [D2 P2].
    split; intros x [->|Hx]%elem_of_cons; [apply D1; by left|by apply D2|apply P1; by left|by apply P2].
  - by apply (collected_grows_trans c c1 c' [e] entries).
Qed.
Lemma collect_source_facts p c c' :
  collect_source cwd c p = Ok c' → reached c' (fs_entries p) ∧ grows c c' (fs_entries p).
Proof.
  unfold collect_source. destruct (collect_source_entries _ _ _ _ _) as [c1|] eqn:E; simpl; [|done]. intros [= <-].
  destruct (collect_source_entries_facts _ _ _ _ _ E) as [[D P] (G1 & G2 & G3)]. split; split; simpl; auto.
  - intros e He. destruct (P e He) as (o & Ho & Hp). exists o. split; [done|]. intros path Hpath. set_solver.
  - intros path Hpath. apply elem_of_app. auto.
Qed.

(** ** Canonical policies *)

(** The paths that an intersection looks at *)
Definition candidate_paths (authority requested : FileSystemSandboxPolicy) : list rstr :=
  match (c ← collect_source cwd (mkCollected [] [] None) authority; collect_source cwd c requested) with
  | Ok c => col_paths c
  | Err _ => []
  end.
(** The URL of an entry is that of its path. *)
Definition faithful_entry e : Prop :=
  match entry_path e with
  | FsPath u => ∀ path, to_abs_path u = Some path → from_abs_path path = u
  | _ => True
  end.
Definition bound_entry e : Prop := ∀ value, entry_path e = SpecialPath value → value ≠ Tmpdir ∧ value ≠ SlashTmp.

Lemma local_root_names path :
  (if path_is_absolute cwd then last (path_ancestors cwd) ≫= from_absolute_path_checked else None) = Some path →
  path_names path = [].
Proof.
  destruct (path_is_absolute cwd); [|done]. unfold path_ancestors. rewrite fmap_reverse, last_reverse. simpl.
  rewrite take_0. by intros [= <-].
Qed.
Lemma local_path_names e u o :
  faithful_entry e → bound_entry e → u ∈ entry_paths cwd_context e → entry_local_path e cwd = Ok o →
  ∃ path, o = Some path ∧ (native path → names (from_abs_path path) = names u).
Proof.
  intros Hf Hb Hin Ho. unfold entry_local_path in Ho. unfold faithful_entry in Hf. unfold bound_entry in Hb.
  destruct (entry_path e) as [v|pattern|value] eqn:Ep.
  - unfold entry_paths in Hin. rewrite Ep in Hin. apply list_elem_of_singleton in Hin as ->.
    destruct (to_abs_path v) as [path|] eqn:Et; simpl in Ho; [|done]. injection Ho as <-. exists path. split; [done|].
    intros _. by rewrite Hf.
  - unfold entry_paths in Hin. rewrite Ep in Hin. by apply elem_of_nil in Hin.
  - destruct (Hb value eq_refl) as [Hb1 Hb2]. destruct value; try done.
    destruct (root_paths cwd_context e Hctx Ep) as (r & Hr & _ & Hn).
    destruct (if path_is_absolute cwd then _ else _) as [path|] eqn:Er; simpl in Ho; [|done]. injection Ho as <-.
    exists path. split; [done|]. intros (_ & _ & _ & Hroot).
    rewrite (elem_singleton_paths _ _ _ _ Hr Hin), Hn. by apply Hroot, local_root_names.
Qed.

Section canonical.
Context (authority requested res : FileSystemSandboxPolicy).
Context (Hok : intersect_canonical fs_path_debug authority requested cwd = Ok res).
Context (Hnative : ∀ path, path ∈ candidate_paths authority requested → native path).
Context (Hf : Forall (λ e, faithful_entry e ∧ bound_entry e) (fs_entries authority ++ fs_entries requested)).
Context (Hca : clear_entries (resolved_entries authority cwd_context)).
Context (Hcr : clear_entries (resolved_entries requested cwd_context)).

Lemma canonical_inv :
  ∃ authority_denies requested_denies denies c start,
    collect_source cwd (mkCollected [] [] None) authority ≫= (λ c, collect_source cwd c requested) = Ok c
    ∧ fs_kind start = Restricted ∧ (∀ d, d ∈ fs_entries start ↔ d ∈ col_denies c)
    ∧ res = foldl (intersect_step (authority, authority_denies) (requested, requested_denies) cwd denies) start
              (sorted_paths (col_paths c)).
Proof.
  unfold intersect_canonical in Hok.
  destruct (try_new_for_local_paths authority cwd) as [ad|]; simpl in Hok; [|done].
  destruct (try_new_for_local_paths requested cwd) as [rd|]; simpl in Hok; [|done].
  destruct (collect_source cwd _ authority) as [c1|]; simpl in Hok; [|done].
  destruct (collect_source cwd c1 requested) as [c|] eqn:E; simpl in Hok; [|done].
  destruct (try_new_for_local_paths _ cwd) as [denies|]; simpl in Hok; [|done]. injection Hok as <-.
  eexists ad, rd, denies, c, _. split_and!; [done| | |done]; [done|]. intros d. simpl.
  by rewrite (merge_sort_Permutation (debug_le fs_path_debug)).
Qed.
Lemma canonical_collected c :
  collect_source cwd (mkCollected [] [] None) authority ≫= (λ c, collect_source cwd c requested) = Ok c →
  reached c (fs_entries authority) ∧ reached c (fs_entries requested)
  ∧ (∀ d, d ∈ col_denies c → d ∈ fs_entries authority ++ fs_entries requested ∧ entry_access d = AccessDeny)
  ∧ col_paths c = candidate_paths authority requested.
Proof.
  intros Hc. assert (col_paths c = candidate_paths authority requested) as Hp by (unfold candidate_paths; by rewrite Hc).
  destruct (collect_source cwd _ authority) as [c1|] eqn:E; simpl in Hc; [|done].
  apply collect_source_facts in E as [R1 G1], Hc as [R2 G2]. split_and!; [by eapply reached_grows|done| |done].
  intros d Hd. destruct (collected_grows_trans _ _ _ _ _ G1 G2) as (_ & _ & G3).
  apply G3 in Hd as [Hd|?]; [by apply elem_of_nil in Hd|done].
Qed.

(** What the intersection owes each of its sources *)
Definition bounded_by s : Prop :=
  (∀ d, d ∈ fs_entries s → entry_access d = AccessDeny → contains_entry (fs_entries res) d = true)
  ∧ (∀ e u, e ∈ fs_entries s → entry_access e = AccessRead → u ∈ entry_paths cwd_context e → lexical u →
       ∃ x v, x ∈ fs_entries res ∧ v ∈ entry_paths cwd_context x ∧ lexical v ∧ names v = names u)
  ∧ (∀ e root, e ∈ fs_entries res → can_read (entry_access e) = true → root ∈ entry_paths cwd_context e →
       access_covers (resolve_access s root cwd_context) (entry_access e) = true).

Lemma canonical_bounded s : s = authority ∨ s = requested → bounded_by s.
Proof.
  intros Hs. unfold bounded_by. destruct canonical_inv as (ad & rd & denies & c & start & Hc & Hk & Hstart & ->).
  destruct (canonical_collected c Hc) as (Ra & Rr & Hden & Hpaths).
  assert (reached c (fs_entries s)) as [Hd Hp] by by destruct Hs as [->| ->].
  destruct (fold_facts (authority, ad) (requested, rd) denies (sorted_paths (col_paths c)) start) as (_ & Hkeep & Hinv).
  assert (∀ path, path ∈ sorted_paths (col_paths c) → native path) as Hnat.
  { intros path Hin. apply Hnative. rewrite <-Hpaths. by apply sorted_paths_elem. }
  split_and!.
  - intros d Hin Ha. eapply contains_mono; [|by apply (Hd d)]. intros x Hx. by apply Hkeep, Hstart.
  - intros e u He Ha Hu Hl. destruct (Hp e He) as (o & Ho & Hpath).
    rewrite Forall_forall in Hf. destruct (Hf e) as [Hfe Hbe].
    { apply elem_of_app. destruct Hs as [->| ->]; auto. }
    destruct (local_path_names e u o Hfe Hbe Hu Ho) as (path & -> & Hn). specialize (Hpath path eq_refl).
    destruct (fold_forced (authority, ad) (requested, rd) denies (sorted_paths (col_paths c)) start path e)
      as (x & Hx & Hfor); [by apply sorted_paths_elem|destruct Hs as [->| ->]; auto|done| |].
    { unfold entry_is_at. rewrite Ho. by apply bool_decide_eq_true. }
    assert (native path) as Hnp by by apply Hnat, sorted_paths_elem.
    destruct (entry_for_paths _ _ _ _ Hnp Hfor) as (r & Hr & Hlr & Hnr).
    destruct (contains_entry_resolves cwd_context _ x r Hx) as (y & Hy & _ & Hyr); [rewrite Hr; by left|apply Hlr|].
    exists y, r. split_and!; [done..|]. by rewrite Hnr, Hn.
  - intros e root He Hr Hin. apply Hinv in He as [He|(path & Hpath & Hfor)].
    { exfalso. apply Hstart, Hden in He as [_ Ha]. by rewrite Ha in Hr. }
    pose proof (Hnat path Hpath) as Hnp. destruct (entry_for_paths _ _ _ _ Hnp Hfor) as (r & Hr' & Hlr & Hnr).
    rewrite (elem_singleton_paths _ _ _ _ Hr' Hin). destruct Hfor as [_ Ha]. rewrite Ha in Hr |- *.
    unfold intersected_access in *. destruct (intersect_access_read _ _ Hr) as [Hr1 Hr2].
    apply intersect_access_covers; [done|]. destruct Hnp as (N1 & N2 & N3 & N4).
    destruct Hs as [->| ->]; [left|right];
      (rewrite (resolve_access_names _ _ r (from_abs_path path)) by done); by apply effective_covered.
Qed.
Lemma canonical_clear : clear_entries (resolved_entries res cwd_context).
Proof.
  destruct canonical_inv as (ad & rd & denies & c & start & Hc & Hk & Hstart & ->).
  destruct (canonical_collected c Hc) as (_ & _ & Hden & Hpaths).
  destruct (fold_facts (authority, ad) (requested, rd) denies (sorted_paths (col_paths c)) start) as (_ & _ & Hinv).
  unfold clear_entries in *. rewrite Forall_forall in *. intros [root m] (Hconv & e & He & Hm & Hin)%elem_of_resolved.
  apply Hinv in He as [He|(path & Hpath & Hfor)].
  - apply Hstart, Hden in He as [[He|He]%elem_of_app _]; [apply (Hca (root, m))|apply (Hcr (root, m))];
      apply elem_of_resolved; (split; [done|]); by exists e.
  - left. assert (native path) as Hn by (apply Hnative; rewrite <-Hpaths; by apply sorted_paths_elem).
    destruct (entry_for_paths _ _ _ _ Hn Hfor) as (r & Hr & Hlr & _).
    simpl. by rewrite (elem_singleton_paths _ _ _ _ Hr Hin).
Qed.
End canonical.

(** ** Canonical forms and the temporary directory *)

Lemma normalize_entry_shape e x : normalize_entry e = Ok x → entry_path x ≠ SpecialPath SlashTmp.
Proof.
  unfold normalize_entry. destruct (entry_path e) as [u|pattern|[]] eqn:Ep; try done; simpl.
  - destruct (to_abs_path u); simpl; [|done]. destruct (if _ || _ then _ else _); simpl; [|done].
    destruct (_ && _); [done|]. by intros [= <-].
  - destruct (_ || _); [done|]. intros [= <-]. by rewrite Ep.
  - intros [= <-]. by rewrite Ep.
  - intros [= <-]. by rewrite Ep.
  - destruct (unsupported (from_absolute_path_checked _) _); simpl; [|done]. destruct (physical_path _); simpl; [|done].
    by intros [= <-].
Qed.
Lemma normalize_policy_shape p a :
  normalize_policy p = Ok a →
  fs_kind a = fs_kind p ∧ ∀ e, e ∈ fs_entries a → entry_path e ≠ SpecialPath SlashTmp.
Proof.
  unfold normalize_policy. destruct (include_platform_defaults p); [done|].
  destruct (collect_results _) as [entries|] eqn:E; simpl; [|done]. intros [= <-]. split; [done|]. simpl.
  intros e He. apply collect_results_Forall2 in E. apply list_elem_of_lookup in He as [i Hi].
  destruct (Forall2_lookup_r _ _ _ _ _ E Hi) as (y & _ & Hy). by eapply normalize_entry_shape.
Qed.
Lemma is_tmpdir_true e : is_tmpdir e = true ↔ entry_path e = SpecialPath Tmpdir.
Proof.
  unfold is_tmpdir. destruct (entry_path e); simpl; [done..|]. rewrite bool_decide_eq_true. split; [by intros ->|by intros [= ->]].
Qed.
Lemma without_tmpdir_elem p e : e ∈ fs_entries (without_tmpdir p) ↔ e ∈ fs_entries p ∧ is_tmpdir e = false.
Proof. simpl. rewrite list_elem_of_filter. tauto. Qed.
Lemma without_tmpdir_clear p :
  clear_entries (resolved_entries p cwd_context) → clear_entries (resolved_entries (without_tmpdir p) cwd_context).
Proof.
  unfold clear_entries. rewrite !Forall_forall. intros Hc [root m] (Hconv & e & [He _]%without_tmpdir_elem & Hm & Hin)%elem_of_resolved.
  apply (Hc (root, m)), elem_of_resolved. split; [done|]. by exists e.
Qed.
Lemma without_tmpdir_bound p e :
  (∀ e, e ∈ fs_entries p → entry_path e ≠ SpecialPath SlashTmp) → e ∈ fs_entries (without_tmpdir p) → bound_entry e.
Proof.
  intros Hs [He Ht]%without_tmpdir_elem value Hv. split; intros ->; [|by apply (Hs e)].
  apply is_tmpdir_true in Hv. congruence.
Qed.
Lemma common_temp_facts p (q : FileSystemSandboxPolicy) temp :
  common_temp p q = Ok temp →
  (∀ e, e ∈ fs_entries p ++ fs_entries q → is_tmpdir e = true → entry_access e = AccessWrite)
  ∧ ∀ t, temp = Some t → entry_path t = SpecialPath Tmpdir ∧ entry_access t = AccessWrite
      ∧ (∃ e, e ∈ fs_entries p ∧ is_tmpdir e = true) ∧ ∃ e, e ∈ fs_entries q ∧ is_tmpdir e = true.
Proof.
  assert (∀ e, plain_write e = true → entry_access e = AccessWrite) as Hpw.
  { intros e [Hw _]%andb_true_iff. unfold can_write in Hw. by apply bool_decide_eq_true in Hw. }
  intros Hc. assert (∀ (s : FileSystemSandboxPolicy) e,
    e ∈ filter (λ e, is_tmpdir e = true) (fs_entries s) ↔ is_tmpdir e = true ∧ e ∈ fs_entries s) as Hfil
    by (intros s e; by rewrite list_elem_of_filter).
  unfold common_temp in Hc. pose proof (Hfil p) as Hfp. pose proof (Hfil q) as Hfq. clear Hfil.
  destruct (filter _ (fs_entries p)) as [|l [|]], (filter _ (fs_entries q)) as [|r [|]]; try done;
    try (destruct (plain_write _ && plain_write _) eqn:E; [apply andb_true_iff in E as [E1%Hpw E2%Hpw]|done]);
    try (destruct (plain_write _) eqn:E; [apply Hpw in E|done]);
    injection Hc as <-; (split; [|try done]).
  - intros e [He|He]%elem_of_app Ht; exfalso;
      [apply (not_elem_of_nil e), Hfp|apply (not_elem_of_nil e), Hfq]; done.
  - intros e [He|He]%elem_of_app Ht; [exfalso; by apply (not_elem_of_nil e), Hfp|].
    assert (e ∈ [r]) as ->%list_elem_of_singleton by by apply Hfq. done.
  - intros e [He|He]%elem_of_app Ht; [|exfalso; by apply (not_elem_of_nil e), Hfq].
    assert (e ∈ [l]) as ->%list_elem_of_singleton by by apply Hfp. done.
  - intros e [He|He]%elem_of_app Ht.
    + assert (e ∈ [l]) as ->%list_elem_of_singleton by by apply Hfp. done.
    + assert (e ∈ [r]) as ->%list_elem_of_singleton by by apply Hfq. done.
  - intros t [= <-]. split_and!; [done|done|exists l|exists r].
    + destruct (proj1 (Hfp l)); [by left|done].
    + destruct (proj1 (Hfq r)); [by left|done].
Qed.

(** What is assumed of the host's paths: the working directory and the paths that
    the intersection looks at are native, entries have the URLs of their paths, and
    each entry's path is known or opaque. *)
Definition local_policies (a r : FileSystemSandboxPolicy) : Prop :=
  (∀ path, path ∈ candidate_paths (without_tmpdir a) (without_tmpdir r) → native path)
  ∧ Forall faithful_entry (fs_entries a ++ fs_entries r)
  ∧ clear_entries (resolved_entries a cwd_context) ∧ clear_entries (resolved_entries r cwd_context).
(** Access at a path under one policy is at most that under another. *)
Definition within_at (res s : FileSystemSandboxPolicy) (u : Url) : Prop :=
  (can_read_path res u cwd_context = true → can_read_path s u cwd_context = true)
  ∧ (resolve_access res u cwd_context = AccessWrite → resolve_access s u cwd_context = AccessWrite).

Section with_temp.
Context (a r core : FileSystemSandboxPolicy) (temp : option FileSystemSandboxEntry).
Context (Ha : fs_kind a = Restricted) (Hr : fs_kind r = Restricted).
Context (Hsa : ∀ e, e ∈ fs_entries a → entry_path e ≠ SpecialPath SlashTmp).
Context (Hsr : ∀ e, e ∈ fs_entries r → entry_path e ≠ SpecialPath SlashTmp).
Context (Htemp : common_temp a r = Ok temp).
Context (Hcore : intersect_canonical fs_path_debug (without_tmpdir a) (without_tmpdir r) cwd = Ok core).
Context (Hlocal : local_policies a r).

Let final := match temp with Some t => with_entries core (fs_entries core ++ [t]) | None => core end.

Lemma sources_ok :
  Forall (λ e, faithful_entry e ∧ bound_entry e) (fs_entries (without_tmpdir a) ++ fs_entries (without_tmpdir r)).
Proof.
  destruct Hlocal as (_ & Hf & _). rewrite Forall_forall in Hf |- *. intros e [He|He]%elem_of_app.
  - split; [apply Hf, elem_of_app; left; by apply without_tmpdir_elem in He as [? _]|by apply (without_tmpdir_bound a)].
  - split; [apply Hf, elem_of_app; right; by apply without_tmpdir_elem in He as [? _]|by apply (without_tmpdir_bound r)].
Qed.
Lemma core_bounded s : s = a ∨ s = r → bounded_by core (without_tmpdir s).
Proof.
  destruct Hlocal as (Hn & _ & Hca & Hcr). intros Hs.
  apply (canonical_bounded (without_tmpdir a) (without_tmpdir r) core); try done.
  - apply sources_ok.
  - by apply without_tmpdir_clear.
  - by apply without_tmpdir_clear.
  - destruct Hs as [->| ->]; auto.
Qed.
Lemma final_inv e :
  e ∈ fs_entries final → e ∈ fs_entries core ∨ temp = Some e.
Proof. unfold final. destruct temp as [t|]; [|by left]. intros [He|He%list_elem_of_singleton]%elem_of_app; subst; auto. Qed.
Lemma final_keeps e : e ∈ fs_entries core → e ∈ fs_entries final.
Proof. unfold final. destruct temp as [t|]; [|done]. intros He. apply elem_of_app. by left. Qed.
Lemma final_restricted : fs_kind final = Restricted.
Proof. unfold final. rewrite <-(canonical_restricted _ _ _ _ _ Hcore). by destruct temp. Qed.
Lemma tmpdir_paths (e t : FileSystemSandboxEntry) :
  entry_path e = SpecialPath Tmpdir → entry_path t = SpecialPath Tmpdir → entry_paths cwd_context e = entry_paths cwd_context t.
Proof. intros He Ht. unfold entry_paths. by rewrite He, Ht. Qed.
Lemma final_clear : clear_entries (resolved_entries final cwd_context).
Proof.
  destruct Hlocal as (Hn & _ & Hca & Hcr).
  pose proof (canonical_clear (without_tmpdir a) (without_tmpdir r) core Hcore Hn
    (without_tmpdir_clear _ Hca) (without_tmpdir_clear _ Hcr)) as Hcc.
  unfold clear_entries in *. rewrite Forall_forall in *. intros [root m] (Hconv & e & He & Hm & Hin)%elem_of_resolved.
  apply final_inv in He as [He|Ht].
  - apply (Hcc (root, m)), elem_of_resolved. split; [done|]. by exists e.
  - destruct (common_temp_facts _ _ _ Htemp) as [Hw Hfacts].
    destruct (Hfacts e Ht) as (Hp & Hwe & (x & Hx & Hxt) & _). apply (Hca (root, m)), elem_of_resolved.
    split; [done|]. exists x. split_and!; [done| |].
    + rewrite <-Hm, Hwe. apply Hw; [by apply elem_of_app; left|done].
    + rewrite (tmpdir_paths x e); [done|by apply is_tmpdir_true|done].
Qed.
Lemma final_within s u : s = a ∨ s = r → lexical u → within_at final s u.
Proof.
  intros Hs Hu. destruct (core_bounded s Hs) as (Hd & Hro & Hg). destruct (common_temp_facts _ _ _ Htemp) as [Hw Hfacts].
  assert (fs_kind s = Restricted) as Hk by by destruct Hs as [->| ->].
  assert (clear_entries (resolved_entries s cwd_context)) as Hcs.
  { destruct Hlocal as (_ & _ & Hca & Hcr). by destruct Hs as [->| ->]. }
  assert (∀ e, e ∈ fs_entries s → is_tmpdir e = true → entry_access e = AccessWrite) as Hws.
  { intros e He. apply Hw, elem_of_app. destruct Hs as [->| ->]; auto. }
  assert (∀ e, e ∈ fs_entries s → entry_access e ≠ AccessWrite → e ∈ fs_entries (without_tmpdir s)) as Hplain.
  { intros e He Hne. apply without_tmpdir_elem. split; [done|]. apply not_true_iff_false. intros Ht. by apply Hne, Hws. }
  assert (∀ d, d ∈ fs_entries s → entry_access d = AccessDeny → contains_entry (fs_entries final) d = true) as Hdeny.
  { intros d Hin Hda. eapply contains_mono; [apply final_keeps|]. apply Hd; [|done]. apply Hplain; congruence. }
  assert (∀ e root, e ∈ fs_entries final → can_read (entry_access e) = true → root ∈ entry_paths cwd_context e →
    lexical root →
    (∀ x v, x ∈ fs_entries final → v ∈ entry_paths cwd_context x → lexical v → names v = names root →
       access_rank (entry_access x) ≤ access_rank (entry_access e)) →
    access_covers (resolve_access s root cwd_context) (entry_access e) = true) as Hgrant.
  { intros e root [He|Ht]%final_inv Hread Hin Hl Hmax.
    - eapply (write_added (without_tmpdir s) s); try done.
      + by apply without_tmpdir_clear.
      + intros x. by intros [? _]%without_tmpdir_elem.
      + intros x Hx. destruct (is_tmpdir x) eqn:E; [right; by apply Hws|left; by apply without_tmpdir_elem].
      + by apply Hg.
    - destruct (Hfacts e Ht) as (Hp & Hwe & Hta & Htr).
      assert (∃ x, x ∈ fs_entries s ∧ is_tmpdir x = true) as (x & Hx & Hxt) by by destruct Hs as [->| ->].
      assert (root ∈ entry_paths cwd_context x) as Hxin by (rewrite (tmpdir_paths x e); [done|by apply is_tmpdir_true|done]).
      assert (grant_covers (resolved_entries s cwd_context) (names root) (names root) AccessWrite) as Hc.
      { rewrite <-(Hws x Hx Hxt). by apply covers_intro. }
      destruct (access_not_covered s cwd_context root _ Hk Hctx Hl Hcs (ex_intro _ _ (ex_intro _ _ Hc)) eq_refl)
        as (f & below & Hf & Hfa & Hb & Hlb & Hpb & Hmax').
      destruct (Hmax' _ _ Hc) as [Hlt|[Hn Hrank]]; [apply prefix_length in Hpb; lia|].
      rewrite Hwe. simpl. destruct (resolve_access s root cwd_context) eqn:E; simpl in *; [lia|done|exfalso].
      destruct (contains_entry_resolves cwd_context (fs_entries final) f below) as (y & Hy & Hya & Hyb);
        [by apply Hdeny|done|apply Hlb|].
      specialize (Hmax y below Hy Hyb Hlb (eq_sym Hn)). rewrite Hya, Hfa, Hwe in Hmax. simpl in Hmax. lia. }
  assert (∀ e v, e ∈ fs_entries s → entry_access e = AccessRead → v ∈ entry_paths cwd_context e → lexical v →
    ∃ x w, x ∈ fs_entries final ∧ w ∈ entry_paths cwd_context x ∧ lexical w ∧ names w = names v) as Hread.
  { intros e v He Hea Hv Hlv. destruct (Hro e v) as (x & w & Hx & Hw'); [apply Hplain; congruence|done..|].
    exists x, w. split; [by apply final_keeps|done]. }
  split.
  - intros Hcan. by eapply (within_read final s cwd_context final_restricted Hk Hctx final_clear Hcs Hdeny Hgrant).
  - intros Hwr. by eapply (within_write final s cwd_context final_restricted Hk Hctx final_clear Hcs Hdeny Hread Hgrant).
Qed.
End with_temp.
End host.

(** ** Profiles *)

Section profiles.
Context `{FileUrlLaws} `{PathEnv} `{HostFs} `{Globs : GlobTools} (fs_path_debug : FileSystemPath → rstr).

(** The same entries; the depth of glob scans is no matter of access. *)
Definition same_policy (p q : FileSystemSandboxPolicy) : Prop := fs_kind p = fs_kind q ∧ fs_entries p = fs_entries q.
Lemma same_policy_within (cwd_absolute : rstr) p q s u :
  same_policy p q → within_at cwd_absolute q s u → within_at cwd_absolute p s u.
Proof.
  intros [Hk He]. assert (∀ context, resolve_access p u context = resolve_access q u context) as Hr.
  { intros context. unfold resolve_access, resolved_entries. by rewrite Hk, He. }
  unfold within_at, can_read_path. by rewrite !Hr.
Qed.
Lemma profile_kinds (profile : PermissionProfile) :
  enforcement profile ≠ EnforcementExternal →
  fs_kind (file_system_sandbox_policy profile) ≠ ExternalSandbox
  ∧ (fs_kind (file_system_sandbox_policy profile) = Unrestricted → fs_entries (file_system_sandbox_policy profile) = []).
Proof. by destruct profile as [[]| |]. Qed.
Lemma restricted_profile (profile : PermissionProfile) :
  enforcement profile ≠ EnforcementExternal → fs_kind (file_system_sandbox_policy profile) ≠ Unrestricted →
  fs_kind (file_system_sandbox_policy profile) = Restricted.
Proof. by destruct profile as [[]| |]. Qed.
Lemma profile_from_runtime p network :
  fs_kind p ≠ ExternalSandbox → (fs_kind p = Unrestricted → fs_entries p = []) →
  ∃ profile, from_runtime_permissions p network = Some profile
    ∧ network_sandbox_policy profile = network ∧ same_policy (file_system_sandbox_policy profile) p.
Proof.
  intros Hk He. unfold from_runtime_permissions, from_runtime_permissions_with_enforcement, from_sandbox_policy.
  destruct p as [[] depth entries]; simpl in *; [..|done]; eexists; (split; [done|]); (split; [done|]); split; [done..|].
  by rewrite He.
Qed.
Lemma restricted_within (authority requested final : FileSystemSandboxPolicy) cwd :
  fs_kind authority = Restricted → fs_kind requested = Restricted →
  intersect_restricted fs_path_debug authority requested cwd = Ok final →
  fs_kind final = Restricted
  ∧ ∃ a r, normalize_policy authority = Ok a ∧ normalize_policy requested = Ok r ∧
    ∀ cwd_absolute u, from_absolute_path cwd = Some cwd_absolute → posix_context (cwd_context cwd_absolute) →
      local_policies cwd cwd_absolute a r → lexical u →
      within_at cwd_absolute final a u ∧ within_at cwd_absolute final r u.
Proof.
  intros Hka Hkr. unfold intersect_restricted.
  destruct (normalize_policy authority) as [a|] eqn:Ea; simpl; [|done].
  destruct (normalize_policy requested) as [r|] eqn:Er; simpl; [|done].
  destruct (common_temp a r) as [temp|] eqn:Et; simpl; [|done].
  destruct (intersect_canonical _ _ _ cwd) as [core|] eqn:Ec; simpl; [|done]. intros [= <-].
  apply normalize_policy_shape in Ea as [Hak Has]. apply normalize_policy_shape in Er as [Hrk Hrs].
  rewrite Hka in Hak. rewrite Hkr in Hrk. split.
  - rewrite <-(canonical_restricted _ _ _ _ _ Ec). by destruct temp.
  - exists a, r. split_and!; [done..|]. intros cwd_absolute u Hcwd Hctx Hl Hu.
    split; eapply (final_within fs_path_debug cwd cwd_absolute Hcwd Hctx a r core temp); try done; auto.
Qed.

(** C11: The permissions of a child agent are those of its owner and its request
    together: intersecting two profiles never panics, the network is on only
    when both have it, and when both are restricted a path is readable or
    writable only if it is so under the canonical form of each of them;
    otherwise the result is one of the two policies and the other is
    unrestricted or equal. *)
Theorem child_permissions_bounded (authority requested : PermissionProfile) cwd result :
  intersect_effective_permission_profiles fs_path_debug authority requested cwd = Ok result →
  ∃ profile, result = Some profile
    ∧ (network_sandbox_policy profile = NetEnabled ↔
       network_sandbox_policy authority = NetEnabled ∧ network_sandbox_policy requested = NetEnabled)
    ∧ let final := file_system_sandbox_policy profile in
      let authority := file_system_sandbox_policy authority in
      let requested := file_system_sandbox_policy requested in
      (same_policy final authority ∧ (fs_kind requested = Unrestricted ∨ policy_eqb authority requested = true))
      ∨ (same_policy final requested ∧ fs_kind authority = Unrestricted)
      ∨ ∃ a r, normalize_policy authority = Ok a ∧ normalize_policy requested = Ok r ∧
          ∀ cwd_absolute u, from_absolute_path cwd = Some cwd_absolute → posix_context (cwd_context cwd_absolute) →
            local_policies cwd cwd_absolute a r → lexical u →
            within_at cwd_absolute final a u ∧ within_at cwd_absolute final r u.
Proof.
  unfold intersect_effective_permission_profiles. set (network := if _ && _ then NetEnabled else NetRestricted).
  assert (network = NetEnabled ↔
    network_sandbox_policy authority = NetEnabled ∧ network_sandbox_policy requested = NetEnabled) as Hnet.
  { unfold network, net_is_enabled. by destruct (network_sandbox_policy authority), (network_sandbox_policy requested); naive_solver. }
  destruct (bool_decide (enforcement authority = EnforcementExternal)) eqn:Ea; [done|].
  destruct (bool_decide (enforcement requested = EnforcementExternal)) eqn:Er; [done|]. simpl.
  apply bool_decide_eq_false in Ea, Er.
  destruct (profile_kinds _ Ea) as [Hka Hua], (profile_kinds _ Er) as [Hkr Hur].
  destruct (unsupported _ _); simpl; [|done].
  destruct (try_for_each _ (fs_entries (file_system_sandbox_policy authority))) as [[]|]; simpl; [|done].
  destruct (try_for_each _ (fs_entries (file_system_sandbox_policy requested))) as [[]|]; simpl; [|done].
  destruct (bool_decide (enforcement authority = EnforcementDisabled) && _) eqn:Ed.
  { apply andb_true_iff in Ed as [Ha%bool_decide_eq_true Hr%bool_decide_eq_true].
    destruct authority; try done. destruct requested; try done. intros [= <-].
    eexists. split_and!; [done..|].
    left. split; [done|]. by left. }
  destruct (policy_eqb _ _) eqn:Ee.
  { intros [= <-]. destruct (profile_from_runtime _ network Hka Hua) as (profile & -> & <- & Hs). exists profile.
    split_and!; [done..|]. left. split; [done|]. by right. }
  destruct (bool_decide (fs_kind (file_system_sandbox_policy authority) = Unrestricted)) eqn:Hau;
    [apply bool_decide_eq_true in Hau|apply bool_decide_eq_false in Hau].
  { intros [= <-]. destruct (profile_from_runtime _ network Hkr Hur) as (profile & -> & <- & Hs). exists profile.
    split_and!; [done..|]. right. left. done. }
  destruct (bool_decide (fs_kind (file_system_sandbox_policy requested) = Unrestricted)) eqn:Hru;
    [apply bool_decide_eq_true in Hru|apply bool_decide_eq_false in Hru].
  { intros [= <-]. destruct (profile_from_runtime _ network Hka Hua) as (profile & -> & <- & Hs). exists profile.
    split_and!; [done..|]. left. split; [done|]. by left. }
  destruct (intersect_restricted _ _ _ cwd) as [final|] eqn:Ef; simpl; [|done]. intros [= <-].
  destruct (restricted_within _ _ _ _ (restricted_profile _ Ea Hau) (restricted_profile _ Er Hru) Ef)
    as (Hk & canonical_a & canonical_r & Hna & Hnr & Hwithin).
  destruct (profile_from_runtime final network) as (profile & -> & <- & Hs); [congruence..|]. exists profile.
  split_and!; [done..|]. right. right. exists canonical_a, canonical_r.
  split_and!; [done..|]. intros cwd_absolute u H1' H2' H3' H4'.
  destruct (Hwithin cwd_absolute u H1' H2' H3' H4') as [Wa Wr]. split; by eapply same_policy_within.
Qed.
End profiles.
