(* ===== verification/FsExamples.v ===== *)
(** Policies, requests and grants on concrete paths. *)

From S2P Require Import Prelude Utf8 AbsolutePath PathUris PathUriProps PathUriExample ConfigPaths FsPolicy FsPolicyProps FsDenyProps FsHost PolicyTransforms PolicyTransformsProps PolicyIntersection PolicyIntersectionProps.
#[local] Opaque str.

Definition at_path (s : string) : example_url := mkUrl None (str s).
Definition grant (s : string) (access : FileSystemAccessMode) : FileSystemSandboxEntry := new_entry (FsPath (at_path s)) access.
Definition example_context : FileSystemSandboxPolicyContext :=
  mkFsContext (at_path "home/me/work") [at_path "home/me/work"] (Some (at_path "home/me")) (Some []).

Ltac solve_lexical := split; [vm_compute; reflexivity|vm_compute; discriminate].
Ltac solve_sound :=
  split; [vm_compute; reflexivity|]; split; [vm_compute; reflexivity|];
  eexists; split; [vm_compute; reflexivity|]; apply (bool_decide_unpack _); vm_compute; exact I.
Ltac solve_clear := repeat (apply Forall_cons; split; [left; solve_lexical|]); apply Forall_nil; exact I.
Ltac solve_sounds := repeat (apply Forall_cons; split; [split; [solve_sound|solve_lexical]|]); apply Forall_nil; exact I.

Lemma example_context_posix : posix_context example_context.
Proof. split; [solve_sound|solve_lexical]. Qed.

(** The workspace is writable, but for one file and a readable directory in it. *)
Definition example_policy : FileSystemSandboxPolicy :=
  fs_restricted
    [new_entry (SpecialPath SpecialRoot) AccessRead; new_entry (SpecialPath (ProjectRoots None)) AccessWrite;
     grant "home/me/work/notes" AccessRead; grant "home/me/work/notes/secret" AccessDeny;
     grant "home/me/work/notes/secret" AccessWrite].
Lemma example_resolved :
  resolved_entries example_policy example_context
  = [(at_path "", AccessRead); (at_path "home/me/work", AccessWrite); (at_path "home/me/work/notes", AccessRead);
     (at_path "home/me/work/notes/secret", AccessDeny); (at_path "home/me/work/notes/secret", AccessWrite)].
Proof. vm_compute. reflexivity. Qed.
Lemma example_clear : clear_entries (resolved_entries example_policy example_context).
Proof. rewrite example_resolved. solve_clear. Qed.

Lemma most_specific_entry_wins_witness :
  resolve_access example_policy (at_path "home/me/work/notes/secret/key") example_context = AccessDeny
  ∧ governs (resolved_entries example_policy example_context) (names (at_path "home/me/work/notes/secret/key")) AccessDeny.
Proof.
  assert (resolve_access example_policy (at_path "home/me/work/notes/secret/key") example_context = AccessDeny) as Hr
    by (vm_compute; reflexivity).
  split; [exact Hr|].
  destruct (proj1 (most_specific_entry_wins example_policy (at_path "home/me/work/notes/secret/key") example_context
    AccessDeny eq_refl) Hr) as [[_ Hg]|[Hn _]]; [exact Hg|].
  destruct Hn. split; [solve_lexical|exact (conj (proj2 example_context_posix) example_clear)].
Defined.

(** [/] is writable; the read of [/tmp] is shadowed by a write to the same directory. *)
Definition shadowed_policy : FileSystemSandboxPolicy :=
  fs_restricted [new_entry (SpecialPath SpecialRoot) AccessWrite; grant "tmp" AccessRead;
                 new_entry (SpecialPath SlashTmp) AccessWrite].
Lemma full_disk_write_is_write_witness :
  has_full_disk_write_access_with_context shadowed_policy example_context = true
  ∧ resolve_access shadowed_policy (at_path "tmp/x") example_context = AccessWrite.
Proof.
  assert (has_full_disk_write_access_with_context shadowed_policy example_context = true) as Hf by (vm_compute; reflexivity).
  split; [exact Hf|].
  refine (proj1 (full_disk_write_is_write shadowed_policy example_context (at_path "tmp/x") example_context_posix
    ltac:(solve_lexical) _ Hf)).
  assert (resolved_entries shadowed_policy example_context
          = [(at_path "", AccessWrite); (at_path "tmp", AccessRead); (at_path "tmp", AccessWrite)]) as ->
    by (vm_compute; reflexivity).
  solve_clear.
Defined.

(** [.git/hooks] of the workspace is writable by name. *)
Definition hooks_policy : FileSystemSandboxPolicy :=
  fs_restricted [new_entry (SpecialPath SpecialRoot) AccessRead; grant "home/me/work" AccessWrite;
                 grant "home/me/work/.git/hooks" AccessWrite].
Lemma hooks_resolved :
  resolved_entries hooks_policy example_context
  = [(at_path "", AccessRead); (at_path "home/me/work", AccessWrite); (at_path "home/me/work/.git/hooks", AccessWrite)].
Proof. vm_compute. reflexivity. Qed.
Lemma metadata_writes_are_explicit_witness :
  can_write_path hooks_policy (at_path "home/me/work/.git/hooks/x") example_context = true
  ∧ can_write_path hooks_policy (at_path "home/me/work/.git/config") example_context = false
  ∧ ∃ granted protected, (granted, AccessWrite) ∈ resolved_entries hooks_policy example_context
      ∧ protected_names (resolved_entries hooks_policy example_context) protected
      ∧ protected `prefix_of` names granted ∧ names granted `prefix_of` names (at_path "home/me/work/.git/hooks/x").
Proof.
  assert (can_write_path hooks_policy (at_path "home/me/work/.git/hooks/x") example_context = true) as Hw
    by (vm_compute; reflexivity).
  split; [exact Hw|]. split; [vm_compute; reflexivity|].
  assert (sound_entries (resolved_entries hooks_policy example_context)) as Hs by (rewrite hooks_resolved; solve_sounds).
  assert (protected_names (resolved_entries hooks_policy example_context)
            (names (at_path "home/me/work") ++ [utf8 (str ".git")])) as Ht.
  { exists (at_path "home/me/work"), (str ".git"). rewrite hooks_resolved. split; [right; left|]. split; [left|]. reflexivity. }
  assert (names (at_path "home/me/work") ++ [utf8 (str ".git")] `prefix_of` names (at_path "home/me/work/.git/hooks/x")) as Hp
    by (apply (bool_decide_unpack _); vm_compute; exact I).
  assert (lexical (at_path "home/me/work/.git/hooks/x")) as Hl by solve_lexical.
  pose proof (metadata_writes_are_explicit hooks_policy example_context _ _ Hl Hs Hw Ht Hp) as [Hf|He].
  - vm_compute in Hf. discriminate.
  - exact He.
Defined.

Definition workspace_grants : FileSystemSandboxPolicy :=
  fs_restricted [new_entry (SpecialPath (ProjectRoots None)) AccessWrite; grant "home/me/work/private/shared" AccessRead].
Definition private_denied : FileSystemSandboxPolicy := fs_restricted [grant "home/me/work/private" AccessDeny].
Lemma preserved_denials_hold_witness :
  let p' := preserve_deny_read_restrictions_from workspace_grants private_denied in
  can_read_path p' (at_path "home/me/work/private/key") example_context = false
  ∧ can_read_path p' (at_path "home/me/work/private/shared/x") example_context = true
  ∧ ∃ e below, e ∈ fs_entries workspace_grants ∧ can_read (entry_access e) = true ∧ below ∈ entry_paths example_context e
      ∧ lexical below ∧ names (at_path "home/me/work/private") `prefix_of` names below
      ∧ names below ≠ names (at_path "home/me/work/private")
      ∧ names below `prefix_of` names (at_path "home/me/work/private/shared/x").
Proof.
  intros p'.
  assert (can_read_path p' (at_path "home/me/work/private/shared/x") example_context = true) as Hr by (vm_compute; reflexivity).
  split; [vm_compute; reflexivity|]. split; [exact Hr|].
  refine (preserved_denials_hold workspace_grants private_denied example_context (grant "home/me/work/private" AccessDeny)
    (at_path "home/me/work/private") (at_path "home/me/work/private/shared/x") eq_refl example_context_posix
    ltac:(solve_lexical) _ _ eq_refl _ ltac:(solve_lexical) _ Hr).
  - assert (resolved_entries p' example_context
            = [(at_path "home/me/work", AccessWrite); (at_path "home/me/work/private/shared", AccessRead);
               (at_path "home/me/work/private", AccessDeny)]) as E by (vm_compute; reflexivity).
    unfold p' in E. rewrite E. solve_clear.
  - left.
  - left.
  - apply (bool_decide_unpack _). vm_compute. exact I.
Defined.

(** Globs that match nothing *)
Definition no_globs : GlobTools := {|
  GlobMatcher := unit; glob_build _ _ := Some (); glob_is_match _ _ := false;
|}.
#[local] Existing Instance no_globs.
(** The administrator denies a directory; a profile grants a workspace root inside
    it.  A concrete grant there would be refused. *)
Definition secrets_denied : FileSystemSandboxPolicy := fs_restricted [grant "home/me" AccessDeny].
Definition selected_profile : FileSystemSandboxPolicy :=
  fs_restricted [new_entry (SpecialPath SpecialRoot) AccessRead; new_entry (SpecialPath (ProjectRoots None)) AccessWrite;
                 grant "home/me" AccessDeny].
Lemma managed_deny_read_enforced_witness :
  validate_managed_deny_read selected_profile secrets_denied example_context = Ok ()
  ∧ validate_managed_deny_read (mkFsPolicy Restricted None (grant "home/me/a" AccessRead :: fs_entries selected_profile))
      secrets_denied example_context = Err Shadowed
  ∧ can_read_path selected_profile (at_path "home/me/key") example_context = false
  ∧ can_read_path selected_profile (at_path "home/me/work/key") example_context = true
  ∧ ∃ e below, e ∈ fs_entries selected_profile ∧ can_read (entry_access e) = true
      ∧ (names (at_path "home/me") ≠ [] → ∀ u, entry_path e ≠ FsPath u)
      ∧ below ∈ entry_paths example_context e ∧ lexical below
      ∧ names (at_path "home/me") `prefix_of` names below ∧ names below ≠ names (at_path "home/me")
      ∧ names below `prefix_of` names (at_path "home/me/work/key").
Proof.
  assert (validate_managed_deny_read selected_profile secrets_denied example_context = Ok ()) as Hv by (vm_compute; reflexivity).
  assert (can_read_path selected_profile (at_path "home/me/work/key") example_context = true) as Hr by (vm_compute; reflexivity).
  split; [exact Hv|]. split; [vm_compute; reflexivity|]. split; [vm_compute; reflexivity|]. split; [exact Hr|].
  refine (managed_deny_read_enforced selected_profile secrets_denied example_context (grant "home/me" AccessDeny)
    (at_path "home/me") (at_path "home/me/work/key") Hv eq_refl eq_refl (proj1 example_context_posix)
    (proj1 (proj2 example_context_posix)) _ eq_refl _ ltac:(solve_lexical) _ Hr).
  - left.
  - left.
  - apply (bool_decide_unpack _). vm_compute. exact I.
Defined.

Lemma materialized_access_unchanged_witness :
  let p := fs_restricted [new_entry (SpecialPath (ProjectRoots None)) AccessWrite;
                          new_entry (SpecialPath (ProjectRoots (Some (str ".git/objects")))) AccessRead] in
  resolved_entries (materialize_project_roots_with_path_uris p (ctx_workspace_roots example_context)) example_context
    = [(at_path "home/me/work", AccessWrite); (at_path "home/me/work/.git/objects", AccessRead)]
  ∧ resolve_access (materialize_project_roots_with_path_uris p (ctx_workspace_roots example_context))
      (at_path "home/me/work/.git/objects/1") example_context
    = resolve_access p (at_path "home/me/work/.git/objects/1") example_context.
Proof.
  intros p. split; [vm_compute; reflexivity|].
  apply (materialized_access_unchanged p example_context (at_path "home/me/work/.git/objects/1")).
  - solve_sounds.
  - apply Forall_cons. split; [exact I|]. apply Forall_cons. split; [|apply Forall_nil; exact I].
    split; [vm_compute; discriminate|]. split; [apply (bool_decide_unpack _); vm_compute; exact I|].
    split; [vm_compute; reflexivity|]. split; [vm_compute; reflexivity|].
    assert (split_char 47%N (str ".git/objects") = [str ".git"; str "objects"]) as -> by (vm_compute; reflexivity).
    repeat (apply Forall_cons; split; [right|]); [..|apply Forall_nil; exact I].
    all: split; [split; [apply (bool_decide_unpack _); vm_compute; exact I|]|].
    all: split_and?; try (apply (bool_decide_unpack _); vm_compute; exact I); try (vm_compute; discriminate).
    all: intros (c & d & E & _); vm_compute in E; discriminate.
Defined.

(** ** The order of the entries *)

(** Which protected directory is found first depends on the order of the entries,
    and only that one is checked. *)
Lemma metadata_denial_depends_on_order :
  let outer := grant "home/me/work" AccessWrite in
  let inner := grant "home/me/work/.git/sub" AccessWrite in
  let path := at_path "home/me/work/.git/sub/.codex/config" in
  can_write_path (fs_restricted [outer; inner]) path example_context = true
  ∧ can_write_path (fs_restricted [inner; outer]) path example_context = false.
Proof. split; vm_compute; reflexivity. Qed.

(** ** Requests and grants *)

#[local] Existing Instance no_globs.

(** A command asks for its workspace but for a directory; it is granted the
    workspace and a directory that it did not ask for. *)
Definition example_request : AdditionalPermissionProfile :=
  mkAdditional (Some enabled_permission)
    (Some (mkFsPermissions [new_entry (SpecialPath (ProjectRoots None)) AccessWrite; grant "home/me/work/private" AccessDeny] None)).
Definition example_grant : AdditionalPermissionProfile :=
  mkAdditional None (Some (mkFsPermissions [grant "home/me/work" AccessWrite; grant "etc" AccessRead] None)).
Definition example_result : AdditionalPermissionProfile :=
  intersect_permission_profiles_with_context example_request example_grant example_context.
Definition fs_of (a : AdditionalPermissionProfile) : FileSystemPermissions := default no_permissions (add_file_system a).
Lemma fs_of_some (a : AdditionalPermissionProfile) :
  match add_file_system a with Some _ => true | None => false end = true → add_file_system a = Some (fs_of a).
Proof. unfold fs_of. by destruct (add_file_system a). Qed.

Lemma intersection_stays_within_witness :
  let access (a : AdditionalPermissionProfile) s :=
    resolve_access (fs_restricted (perm_entries (fs_of a))) (at_path s) example_context in
  access example_result "home/me/work/private/key" = AccessDeny
  ∧ access example_result "etc/passwd" = AccessDeny
  ∧ access example_result "home/me/work/src" = AccessWrite
  ∧ access example_grant "home/me/work/src" = AccessWrite
  ∧ net_is_true (add_network example_result) = false.
Proof.
  intros access. assert (access example_result "home/me/work/src" = AccessWrite) as Hw by (vm_compute; reflexivity).
  destruct (intersection_stays_within example_request example_grant (fs_of example_request) (fs_of example_result)
    example_context (at_path "home/me/work/src") eq_refl
    (fs_of_some example_result ltac:(vm_compute; reflexivity)) example_context_posix ltac:(solve_lexical))
    as (_ & Hwrite & Hnet).
  - assert (resolved_entries (fs_restricted (perm_entries (fs_of example_request))) example_context
            = [(at_path "home/me/work", AccessWrite); (at_path "home/me/work/private", AccessDeny)]) as E
      by (vm_compute; reflexivity).
    rewrite E. solve_clear.
  - assert (resolved_entries (fs_restricted (perm_entries (fs_of example_grant))) example_context
            = [(at_path "home/me/work", AccessWrite); (at_path "etc", AccessRead)]) as E by (vm_compute; reflexivity).
    change (clear_entries (resolved_entries (fs_restricted (perm_entries (fs_of example_grant))) example_context)).
    rewrite E. solve_clear.
  - split; [vm_compute; reflexivity|]. split; [vm_compute; reflexivity|]. split; [exact Hw|]. split; [|exact Hnet].
    exact (proj2 (Hwrite Hw) eq_refl).
Defined.

(** The profile reads everything but a directory, of which a part is granted. *)
Definition example_profile : PermissionProfile :=
  Managed (ManagedRestricted [new_entry (SpecialPath SpecialRoot) AccessRead; grant "home/me/work/private" AccessDeny] None)
    NetRestricted.
Definition example_addition : AdditionalPermissionProfile :=
  mkAdditional (Some enabled_permission) (Some (mkFsPermissions [grant "home/me/work/private/shared" AccessWrite] None)).
Lemma effective_profile_adds_grants_witness :
  ∃ profile', effective_permission_profile example_profile (Some example_addition) = Some profile'
  ∧ network_sandbox_policy profile' = NetEnabled
  ∧ (can_read_path (file_system_sandbox_policy profile') (at_path "home/me/work/private/shared/x") example_context = true →
     ∃ e below, e ∈ fs_entries (file_system_sandbox_policy example_profile) ++ added_entries (Some example_addition)
       ∧ can_read (entry_access e) = true ∧ below ∈ entry_paths example_context e
       ∧ names below ≠ names (at_path "home/me/work/private")).
Proof.
  destruct (effective_profile_adds_grants example_profile (Some example_addition) example_context
    (at_path "home/me/work/private/shared/x") example_context_posix ltac:(solve_lexical))
    as (profile' & E & _ & _ & Hden & Hnet).
  - assert (resolved_entries (file_system_sandbox_policy example_profile) example_context
            = [(at_path "", AccessRead); (at_path "home/me/work/private", AccessDeny)]) as E by (vm_compute; reflexivity).
    rewrite E. solve_clear.
  - assert (resolved_entries (fs_restricted (added_entries (Some example_addition))) example_context
            = [(at_path "home/me/work/private/shared", AccessWrite)]) as E by (vm_compute; reflexivity).
    rewrite E. solve_clear.
  - exists profile'. split; [exact E|]. split.
    + apply Hnet. right. exists example_addition. split; reflexivity.
    + intros Hread. destruct (Hden (grant "home/me/work/private" AccessDeny) (at_path "home/me/work/private"))
        as (e & below & He & Hr & Hin & _ & _ & Hne & _); [reflexivity|right; left|reflexivity|left|solve_lexical| |exact Hread|].
      * apply (bool_decide_unpack _). vm_compute. exact I.
      * exists e, below. exact (conj He (conj Hr (conj Hin Hne))).
Defined.

(** A request that is read-only inside a directory it writes loses that
    restriction: only denials are kept, so the grant of the directory lets the
    inner one be written. *)
Definition narrowed_request : AdditionalPermissionProfile :=
  mkAdditional None (Some (mkFsPermissions [grant "home/me/work" AccessWrite; grant "home/me/work/vendor" AccessRead] None)).
Definition wide_grant : AdditionalPermissionProfile :=
  mkAdditional None (Some (mkFsPermissions [grant "home/me/work" AccessWrite] None)).
Lemma intersection_forgets_read_only :
  let access (a : AdditionalPermissionProfile) :=
    resolve_access (fs_restricted (perm_entries (fs_of a))) (at_path "home/me/work/vendor/x") example_context in
  access narrowed_request = AccessRead
  ∧ access (intersect_permission_profiles_with_context narrowed_request wide_grant example_context) = AccessWrite.
Proof. split; vm_compute; reflexivity. Qed.

(** A glob denial of the request can drop an entry of the grant that is narrower than
    another one, here a read-only directory, so that the intersection writes where
    the grant only reads.  The denial itself stays in the intersection. *)
Definition vendor_globs : GlobTools := {|
  GlobMatcher := rstr; glob_build pattern _ := Some pattern;
  glob_is_match _ path := bool_decide (path = utf8 (str "/home/me/work/vendor"));
|}.
Definition glob_request : AdditionalPermissionProfile :=
  mkAdditional None (Some (mkFsPermissions
    [grant "home/me/work" AccessWrite; new_entry (GlobPattern (str "/home/me/work/v*")) AccessDeny] None)).
Definition vendor_read_only : AdditionalPermissionProfile :=
  mkAdditional None (Some (mkFsPermissions [grant "home/me/work" AccessWrite; grant "home/me/work/vendor" AccessRead] None)).
Example glob_denial_drops_narrower_grant :
  let access (a : AdditionalPermissionProfile) :=
    resolve_access (fs_restricted (perm_entries (fs_of a))) (at_path "home/me/work/vendor/x") example_context in
  let both := intersect_permission_profiles_with_context (H0 := vendor_globs) glob_request vendor_read_only example_context in
  access vendor_read_only = AccessRead ∧ access both = AccessWrite
  ∧ deny_read_patterns (fs_restricted (perm_entries (fs_of both))) = [str "/home/me/work/v*"].
Proof. split_and!; vm_compute; reflexivity. Qed.

(** ** A child agent *)

#[local] Existing Instances example_env worktree_host.

(** The owner writes the workspace but for one directory; the child asks for the
    workspace with another directory read-only, and for the network. *)
Definition owner_profile : PermissionProfile :=
  Managed (ManagedRestricted
    [new_entry (SpecialPath SpecialRoot) AccessRead; write_entry (str "/w"); grant "w/private" AccessDeny;
     new_entry (SpecialPath Tmpdir) AccessWrite] None) NetRestricted.
Definition child_request : PermissionProfile :=
  Managed (ManagedRestricted
    [new_entry (SpecialPath SpecialRoot) AccessRead; write_entry (str "/w"); grant "w/vendor" AccessRead;
     new_entry (SpecialPath Tmpdir) AccessWrite] None) NetEnabled.
Definition no_debug (path : FileSystemPath) : rstr := [].
Definition child_result : result PermissionIntersectionError (option PermissionProfile) :=
  intersect_effective_permission_profiles no_debug owner_profile child_request (str "/w").
Definition canonical_of (profile : PermissionProfile) : FileSystemSandboxPolicy :=
  default (fs_restricted []) (result_ok (normalize_policy (file_system_sandbox_policy profile))).
Definition nativeb (path : rstr) : bool :=
  path_is_absolute path && bool_decide (from_absolute_path path = Some path)
  && bool_decide (uri_convention (from_abs_path path) = Some Posix)
  && bool_decide (uri_lexical_depth (from_abs_path path) ≠ None)
  && (negb (is_empty (path_names path)) || is_empty (names (from_abs_path path))).
Lemma nativeb_native (paths : list rstr) path : forallb nativeb paths = true → path ∈ paths → native path.
Proof.
  intros Hall Hin. rewrite forallb_forall in Hall. apply list_elem_of_In, Hall in Hin. unfold nativeb in Hin.
  rewrite !andb_true_iff, orb_true_iff, !bool_decide_eq_true in Hin. destruct Hin as [[[[H1 H2] H3] H4] H5].
  split_and!; [done..|]. intros E. rewrite E in H5. destruct H5 as [|H5]; [done|]. by destruct (names _).
Qed.
Lemma child_local : local_policies (str "/w") (str "/w") (canonical_of owner_profile) (canonical_of child_request).
Proof.
  split_and!.
  - intros path. apply nativeb_native. vm_compute. reflexivity.
  - repeat (constructor; [try exact I; intros path E; vm_compute in E; injection E as <-; vm_compute; reflexivity|]).
    constructor.
  - assert (resolved_entries (canonical_of owner_profile) (cwd_context (str "/w"))
            = [(at_path "", AccessRead); (at_path "w", AccessWrite); (at_path "w/private", AccessDeny);
               (at_path "var/tmp", AccessWrite)]) as -> by (vm_compute; reflexivity).
    solve_clear.
  - assert (resolved_entries (canonical_of child_request) (cwd_context (str "/w"))
            = [(at_path "", AccessRead); (at_path "w", AccessWrite); (at_path "w/vendor", AccessRead);
               (at_path "var/tmp", AccessWrite)]) as -> by (vm_compute; reflexivity).
    solve_clear.
Qed.
Lemma child_permissions_bounded_witness :
  ∃ profile, child_result = Ok (Some profile) ∧ network_sandbox_policy profile ≠ NetEnabled
  ∧ resolve_access (file_system_sandbox_policy profile) (at_path "w/private/key") (cwd_context (str "/w")) ≠ AccessWrite
  ∧ resolve_access (file_system_sandbox_policy profile) (at_path "w/vendor/x") (cwd_context (str "/w")) ≠ AccessWrite
  ∧ resolve_access (file_system_sandbox_policy profile) (at_path "w/src") (cwd_context (str "/w")) = AccessWrite.
Proof.
  assert (match child_result with Ok _ => true | Err _ => false end = true) as Hok by (vm_compute; reflexivity).
  destruct child_result as [o|] eqn:E; [clear Hok|discriminate Hok].
  destruct (child_permissions_bounded no_debug owner_profile child_request (str "/w") o E)
    as (profile & -> & Hnet & [[_ [Hu|He]]|[[_ Hu]|(a & r & Ha & Hr & Hwithin)]]).
  - discriminate Hu.
  - vm_compute in He. discriminate He.
  - discriminate Hu.
  - exists profile. split; [reflexivity|].
    assert (a = canonical_of owner_profile) as -> by (unfold canonical_of; rewrite Ha; reflexivity).
    assert (r = canonical_of child_request) as -> by (unfold canonical_of; rewrite Hr; reflexivity).
    assert (∀ u, lexical u → within_at (str "/w") (file_system_sandbox_policy profile) (canonical_of owner_profile) u
              ∧ within_at (str "/w") (file_system_sandbox_policy profile) (canonical_of child_request) u) as Hw.
    { intros u Hu. apply (Hwithin (str "/w") u); [vm_compute; reflexivity| |exact child_local|exact Hu].
      split; [solve_sound|solve_lexical]. }
    split; [intros En; apply Hnet in En as [En _]; discriminate En|]. split; [|split].
    + intros Hx. destruct (Hw (at_path "w/private/key") ltac:(solve_lexical)) as [[_ Hx'] _]. specialize (Hx' Hx).
      vm_compute in Hx'. discriminate Hx'.
    + intros Hx. destruct (Hw (at_path "w/vendor/x") ltac:(solve_lexical)) as [_ [_ Hx']]. specialize (Hx' Hx).
      vm_compute in Hx'. discriminate Hx'.
    + assert (match child_result with
              | Ok (Some profile) =>
                  resolve_access (file_system_sandbox_policy profile) (at_path "w/src") (cwd_context (str "/w"))
              | _ => AccessDeny
              end = AccessWrite) as Hs by (vm_compute; reflexivity).
      rewrite E in Hs. exact Hs.
Defined.
