(* ===== verification/PatchParser.v ===== *)
(** The apply-patch parser: [apply-patch/src/parser.rs] and
    [apply-patch/src/streaming_parser.rs]. *)

From S2P Require Import Prelude.

(** ** Data *)

Definition BEGIN_PATCH_MARKER : rstr := str "*** Begin Patch".
Definition END_PATCH_MARKER : rstr := str "*** End Patch".
Definition ADD_FILE_MARKER : rstr := str "*** Add File: ".
Definition DELETE_FILE_MARKER : rstr := str "*** Delete File: ".
Definition UPDATE_FILE_MARKER : rstr := str "*** Update File: ".
Definition MOVE_TO_MARKER : rstr := str "*** Move to: ".
Definition EOF_MARKER : rstr := str "*** End of File".
Definition CHANGE_CONTEXT_MARKER : rstr := str "@@ ".
Definition EMPTY_CHANGE_CONTEXT_MARKER : rstr := str "@@".
Definition ENVIRONMENT_ID_MARKER : rstr := str "*** Environment ID:".
Definition PARSE_IN_STRICT_MODE : bool := false.

Inductive ParseError :=
| InvalidPatchError (message : rstr)
| InvalidHunkError (message : rstr) (line_number : nat).

Record UpdateFileChunk := mkChunk {
  change_context : option rstr;
  old_lines : list rstr;
  new_lines : list rstr;
  context_line_indices : list (nat * nat);
  is_end_of_file : bool;
}.

(** [UpdateFileChunk::default()] *)
Definition default_chunk : UpdateFileChunk := mkChunk None [] [] [] false.

(** A path is the text it has in the patch. *)
Inductive Hunk :=
| AddFile (path contents : rstr)
| DeleteFile (path : rstr)
| UpdateFile (path : rstr) (move_path : option rstr) (chunks : list UpdateFileChunk).

#[global] Instance ParseError_eq_dec : EqDecision ParseError.
Proof. solve_decision. Defined.
#[global] Instance UpdateFileChunk_eq_dec : EqDecision UpdateFileChunk.
Proof. solve_decision. Defined.
#[global] Instance Hunk_eq_dec : EqDecision Hunk.
Proof. solve_decision. Defined.

(** [Hunk::path] *)
Definition hunk_path (h : Hunk) : rstr :=
  match h with
  | AddFile path _ => path
  | DeleteFile path => path
  | UpdateFile _ (Some path) _ => path
  | UpdateFile path None _ => path
  end.

(** [UpdateFileChunk::push_context_line] *)
Definition push_context_line (c : UpdateFileChunk) (line : rstr) : UpdateFileChunk :=
  mkChunk (change_context c) (old_lines c ++ [line]) (new_lines c ++ [line])
    (context_line_indices c ++ [(length (old_lines c), length (new_lines c))])
    (is_end_of_file c).
(** [chunk.new_lines.push] and [chunk.old_lines.push] *)
Definition push_new_line (c : UpdateFileChunk) (line : rstr) : UpdateFileChunk :=
  mkChunk (change_context c) (old_lines c) (new_lines c ++ [line])
    (context_line_indices c) (is_end_of_file c).
Definition push_old_line (c : UpdateFileChunk) (line : rstr) : UpdateFileChunk :=
  mkChunk (change_context c) (old_lines c ++ [line]) (new_lines c)
    (context_line_indices c) (is_end_of_file c).
Definition mark_end_of_file (c : UpdateFileChunk) : UpdateFileChunk :=
  mkChunk (change_context c) (old_lines c) (new_lines c)
    (context_line_indices c) true.

Inductive StreamingParserMode :=
| ModeNotStarted
| ModeStartedPatch
| ModeAddFile
| ModeDeleteFile
| ModeUpdateFile (hunk_line_number : nat)
| ModeEndedPatch.

Record StreamingParserState := mkState {
  mode : StreamingParserMode;
  hunks : list Hunk;
  environment_id : option rstr;
}.

Record StreamingPatchParser := mkParser {
  line_buffer : rstr;
  state : StreamingParserState;
  line_number : nat;
}.

Definition default_state : StreamingParserState := mkState ModeNotStarted [] None.
(** [StreamingPatchParser::default()] *)
Definition default_parser : StreamingPatchParser := mkParser [] default_state 0.

(** ** The line-by-line state machine *)

Definition msg_first_line : rstr :=
  str "The first line of the patch must be '*** Begin Patch'".
Definition msg_last_line : rstr :=
  str "The last line of the patch must be '*** End Patch'".
Definition msg_no_lines : rstr := str "Update hunk does not contain any lines".
Definition msg_empty_update (path : rstr) : rstr :=
  str "Update file hunk for path '" ++ path ++ str "' is empty".
Definition msg_unexpected (line : rstr) : rstr :=
  str "Unexpected line found in update hunk: '" ++ line ++
  str "'. Every line should start with ' ' (context line), '+' (added line), or '-' (removed line)".
Definition msg_expected_context (line : rstr) : rstr :=
  str "Expected update hunk to start with a @@ context marker, got: '" ++ line ++ str "'".
Definition msg_bad_header (trimmed : rstr) : rstr :=
  str "'" ++ trimmed ++
  str "' is not a valid hunk header. Valid hunk headers: '*** Add File: {path}', '*** Delete File: {path}', '*** Update File: {path}'".

(** [chunk.old_lines.is_empty() && chunk.new_lines.is_empty()] *)
Definition chunk_is_empty (c : UpdateFileChunk) : bool :=
  is_empty (old_lines c) && is_empty (new_lines c).
(** [chunks.last().is_some_and(p)] *)
Definition last_is {A} (p : A → bool) (l : list A) : bool :=
  match last l with Some a => p a | None => false end.
(** mutation through [last_mut()] *)
Fixpoint alter_last {A} (f : A → A) (l : list A) : list A :=
  match l with
  | [] => []
  | [a] => [f a]
  | a :: l' => a :: alter_last f l'
  end.

Definition ensure_update_hunk_is_not_empty (s : StreamingParserState) (n : nat)
    (line : rstr) : result ParseError unit :=
  match last (hunks s) with
  | Some (UpdateFile path _ chunks) =>
      match is_empty chunks, mode s with
      | true, ModeUpdateFile hunk_line_number =>
          Err (InvalidHunkError (msg_empty_update path) hunk_line_number)
      | _, _ =>
          if last_is chunk_is_empty chunks then
            if str_eqb line END_PATCH_MARKER
            then Err (InvalidHunkError msg_no_lines n)
            else Err (InvalidHunkError (msg_unexpected line) n)
          else Ok tt
      end
  | _ => Ok tt
  end.

(** [Some] of the new state when the line was a header ([Ok(true)] in the
    source), [None] when it was not. *)
Definition handle_hunk_headers_and_end_patch (s : StreamingParserState) (n : nat)
    (trimmed : rstr) : result ParseError (option StreamingParserState) :=
  match mode s, strip_prefix ENVIRONMENT_ID_MARKER trimmed with
  | ModeStartedPatch, Some environment_id_text =>
      match environment_id s with
      | Some _ => Err (InvalidPatchError
          (str "apply_patch environment_id cannot be specified more than once"))
      | None =>
          let id := trim environment_id_text in
          if is_empty id
          then Err (InvalidPatchError (str "apply_patch environment_id cannot be empty"))
          else Ok (Some (mkState (mode s) (hunks s) (Some id)))
      end
  | _, _ =>
  if str_eqb trimmed END_PATCH_MARKER then
    _ ← ensure_update_hunk_is_not_empty s n trimmed;
    Ok (Some (mkState ModeEndedPatch (hunks s) (environment_id s)))
  else
  match strip_prefix ADD_FILE_MARKER trimmed with
  | Some path =>
      _ ← ensure_update_hunk_is_not_empty s n trimmed;
      Ok (Some (mkState ModeAddFile (hunks s ++ [AddFile path []]) (environment_id s)))
  | None =>
  match strip_prefix DELETE_FILE_MARKER trimmed with
  | Some path =>
      _ ← ensure_update_hunk_is_not_empty s n trimmed;
      Ok (Some (mkState ModeDeleteFile (hunks s ++ [DeleteFile path]) (environment_id s)))
  | None =>
  match strip_prefix UPDATE_FILE_MARKER trimmed with
  | Some path =>
      _ ← ensure_update_hunk_is_not_empty s n trimmed;
      Ok (Some (mkState (ModeUpdateFile n) (hunks s ++ [UpdateFile path None []])
                  (environment_id s)))
  | None => Ok None
  end end end end.

(** [if chunks.is_empty() { push default }; chunks.last_mut()...] *)
Definition add_to_last_chunk (f : UpdateFileChunk → UpdateFileChunk)
    (chunks : list UpdateFileChunk) : list UpdateFileChunk :=
  alter_last f (if is_empty chunks then [default_chunk] else chunks).

(** The body of the [UpdateFile] arm of [process_line] once the line is known
    not to be a header: the new move path and chunks of the open hunk. *)
Definition process_update_line (move_path : option rstr) (chunks : list UpdateFileChunk)
    (n : nat) (line update_line : rstr)
    : result ParseError (option rstr * list UpdateFileChunk) :=
  let is_context := str_eqb update_line EMPTY_CHANGE_CONTEXT_MARKER
                    || starts_with update_line CHANGE_CONTEXT_MARKER in
  if last_is is_end_of_file chunks && is_empty update_line then Ok (move_path, chunks)
  else if last_is is_end_of_file chunks && negb is_context then
    Err (InvalidHunkError (msg_expected_context line) n)
  else
  match (if is_empty chunks && bool_decide (move_path = None)
         then strip_prefix MOVE_TO_MARKER update_line else None) with
  | Some move_to_path => Ok (Some move_to_path, chunks)
  | None =>
  if is_context && last_is chunk_is_empty chunks then
    Err (InvalidHunkError (msg_unexpected line) n)
  else if str_eqb update_line EMPTY_CHANGE_CONTEXT_MARKER then
    Ok (move_path, chunks ++ [default_chunk])
  else
  match strip_prefix CHANGE_CONTEXT_MARKER update_line with
  | Some ctx => Ok (move_path, chunks ++ [mkChunk (Some ctx) [] [] [] false])
  | None =>
  if str_eqb update_line EOF_MARKER then
    if last_is chunk_is_empty chunks then Err (InvalidHunkError msg_no_lines n)
    else Ok (move_path, alter_last mark_end_of_file chunks)
  else if is_empty line then
    Ok (move_path, add_to_last_chunk (λ c, push_context_line c []) chunks)
  else
  match strip_prefix (str " ") line with
  | Some l => Ok (move_path, add_to_last_chunk (λ c, push_context_line c l) chunks)
  | None =>
  match strip_prefix (str "+") line with
  | Some l => Ok (move_path, add_to_last_chunk (λ c, push_new_line c l) chunks)
  | None =>
  match strip_prefix (str "-") line with
  | Some l => Ok (move_path, add_to_last_chunk (λ c, push_old_line c l) chunks)
  | None =>
  if last_is (λ c, negb (chunk_is_empty c)) chunks
  then Err (InvalidHunkError (msg_expected_context line) n)
  else Err (InvalidHunkError (msg_unexpected line) n)
  end end end end end.

(** [contents.push_str(line_to_add); contents.push('\n')] on the last hunk *)
Definition push_added_line (hs : list Hunk) (line_to_add : rstr) : option (list Hunk) :=
  match last hs with
  | Some (AddFile _ _) =>
      Some (alter_last (λ h, match h with
                             | AddFile p c => AddFile p (c ++ line_to_add ++ [ch_nl])
                             | _ => h
                             end) hs)
  | _ => None
  end.

Definition process_line (s : StreamingParserState) (n : nat) (line : rstr)
    : result ParseError StreamingParserState :=
  let trimmed := trim line in
  match mode s with
  | ModeNotStarted =>
      if str_eqb trimmed BEGIN_PATCH_MARKER
      then Ok (mkState ModeStartedPatch (hunks s) (environment_id s))
      else Err (InvalidPatchError msg_first_line)
  | ModeStartedPatch | ModeDeleteFile =>
      handled ← handle_hunk_headers_and_end_patch s n trimmed;
      match handled with
      | Some s' => Ok s'
      | None => Err (InvalidHunkError (msg_bad_header trimmed) n)
      end
  | ModeAddFile =>
      handled ← handle_hunk_headers_and_end_patch s n trimmed;
      match handled with
      | Some s' => Ok s'
      | None =>
          match strip_prefix (str "+") line ≫= push_added_line (hunks s) with
          | Some hs => Ok (mkState (mode s) hs (environment_id s))
          | None => Err (InvalidHunkError (msg_bad_header trimmed) n)
          end
      end
  | ModeUpdateFile hunk_line_number =>
      let update_line := trim_end line in
      handled ← handle_hunk_headers_and_end_patch s n update_line;
      match handled with
      | Some s' => Ok s'
      | None =>
          match last (hunks s) with
          | Some (UpdateFile path move_path chunks) =>
              '(move_path', chunks') ← process_update_line move_path chunks n line update_line;
              Ok (mkState (ModeUpdateFile hunk_line_number)
                    (alter_last (λ _, UpdateFile path move_path' chunks') (hunks s))
                    (environment_id s))
          | _ => Err (InvalidHunkError (msg_unexpected line) n)
          end
      end
  | ModeEndedPatch =>
      if is_empty trimmed then Ok s else Err (InvalidPatchError msg_last_line)
  end.

(** ** Streaming interface *)

(** One iteration of the loop of [push_delta].  An error leaves the parser with
    the offending line taken out of the buffer and counted. *)
Definition push_char (p : StreamingPatchParser) (ch : rchar)
    : StreamingPatchParser * result ParseError unit :=
  if (ch =? ch_nl)%N then
    let line := strip_cr (line_buffer p) in
    let n := S (line_number p) in
    match process_line (state p) n line with
    | Ok s' => (mkParser [] s' n, Ok tt)
    | Err e => (mkParser [] (state p) n, Err e)
    end
  else (mkParser (line_buffer p ++ [ch]) (state p) (line_number p), Ok tt).

Fixpoint push_chars (p : StreamingPatchParser) (delta : rstr)
    : StreamingPatchParser * result ParseError unit :=
  match delta with
  | [] => (p, Ok tt)
  | ch :: delta' =>
      match push_char p ch with
      | (p', Ok _) => push_chars p' delta'
      | (p', Err e) => (p', Err e)
      end
  end.

Definition push_delta (p : StreamingPatchParser) (delta : rstr)
    : StreamingPatchParser * result ParseError (list Hunk) :=
  match push_chars p delta with
  | (p', Ok _) => (p', Ok (hunks (state p')))
  | (p', Err e) => (p', Err e)
  end.

Definition finish (p : StreamingPatchParser)
    : StreamingPatchParser * result ParseError (list Hunk) :=
  let '(p', r) :=
    if is_empty (line_buffer p) then (p, Ok tt)
    else
      let line := line_buffer p in
      let n := S (line_number p) in
      let s := state p in
      if str_eqb (trim line) END_PATCH_MARKER then
        match ensure_update_hunk_is_not_empty s n (trim line) with
        | Ok _ => (mkParser [] (mkState ModeEndedPatch (hunks s) (environment_id s)) n, Ok tt)
        | Err e => (mkParser [] s n, Err e)
        end
      else
        match process_line s n line with
        | Ok s' => (mkParser [] s' n, Ok tt)
        | Err e => (mkParser [] s n, Err e)
        end in
  match r with
  | Err e => (p', Err e)
  | Ok _ =>
      match mode (state p') with
      | ModeEndedPatch => (p', Ok (hunks (state p')))
      | _ => (p', Err (InvalidPatchError msg_last_line))
      end
  end.

(** ** Whole-patch interface *)

Record ApplyPatchArgs := mkArgs {
  args_patch : rstr;
  args_hunks : list Hunk;
  args_workdir : option rstr;
  args_environment_id : option rstr;
}.

Inductive ParseMode := Strict | Lenient.

Definition check_start_and_end_lines_strict (first_line last_line : option rstr)
    : result ParseError unit :=
  match trim <$> first_line, trim <$> last_line with
  | Some first, Some last_ =>
      if str_eqb first BEGIN_PATCH_MARKER && str_eqb last_ END_PATCH_MARKER then Ok tt
      else if negb (str_eqb first BEGIN_PATCH_MARKER)
      then Err (InvalidPatchError msg_first_line)
      else Err (InvalidPatchError msg_last_line)
  | Some first, None =>
      if negb (str_eqb first BEGIN_PATCH_MARKER)
      then Err (InvalidPatchError msg_first_line)
      else Err (InvalidPatchError msg_last_line)
  | None, _ => Err (InvalidPatchError msg_last_line)
  end.

Definition check_patch_boundaries_strict (ls : list rstr) : result ParseError (list rstr) :=
  _ ← check_start_and_end_lines_strict (head ls) (last ls);
  Ok ls.

(** [<<EOF], [<<'EOF'] or [<<"EOF"] (34 is the double quote) *)
Definition is_heredoc_start (first : rstr) : bool :=
  str_eqb first (str "<<EOF") || str_eqb first (str "<<'EOF'")
  || str_eqb first (str "<<" ++ [34%N] ++ str "EOF" ++ [34%N]).

Definition check_patch_boundaries_lenient (original_lines : list rstr)
    : result ParseError (list rstr) :=
  match check_patch_boundaries_strict original_lines with
  | Ok ls => Ok ls
  | Err original_parse_error =>
      match original_lines, last original_lines with
      | first :: _ :: _, Some last_ =>
          if is_heredoc_start first && ends_with last_ (str "EOF")
             && (4 <=? length original_lines)
          then check_patch_boundaries_strict
                 (take (length original_lines - 2) (drop 1 original_lines))
          else Err original_parse_error
      | _, _ => Err original_parse_error
      end
  end.

Definition parse_patch_text (patch : rstr) (m : ParseMode) : result ParseError ApplyPatchArgs :=
  let ls := lines (trim patch) in
  patch_lines ← match m with
                | Strict => check_patch_boundaries_strict ls
                | Lenient => check_patch_boundaries_lenient ls
                end;
  let patch := join [ch_nl] patch_lines in
  match push_delta default_parser patch with
  | (_, Err e) => Err e
  | (parser, Ok _) =>
      match finish parser with
      | (_, Err e) => Err e
      | (parser', Ok hs) =>
          Ok (mkArgs patch hs None (environment_id (state parser')))
      end
  end.

Definition parse_patch (patch : rstr) : result ParseError ApplyPatchArgs :=
  parse_patch_text patch (if PARSE_IN_STRICT_MODE then Strict else Lenient).

(** Concrete runs, taken from the tests of [parser.rs]. *)
Example parse_bad : parse_patch_text (str "bad") Strict = Err (InvalidPatchError msg_first_line).
Proof. vm_compute. reflexivity. Qed.

Definition nl (ls : list string) : rstr := join [ch_nl] (str <$> ls).

Example parse_three_hunks :
  args_hunks <$> parse_patch_text (nl ["*** Begin Patch"; "*** Add File: path/add.py"; "+abc";
    "+def"; "*** Delete File: path/delete.py"; "*** Update File: path/update.py";
    "*** Move to: path/update2.py"; "@@ def f():"; "-    pass"; "+    return 123";
    "*** End Patch"]%string) Strict
  = Ok [AddFile (str "path/add.py") (nl ["abc"; "def"; ""]%string);
        DeleteFile (str "path/delete.py");
        UpdateFile (str "path/update.py") (Some (str "path/update2.py"))
          [mkChunk (Some (str "def f():")) [str "    pass"] [str "    return 123"] [] false]].
Proof. vm_compute. reflexivity. Qed.

Example parse_empty_update :
  parse_patch_text (nl ["*** Begin Patch"; "*** Update File: test.py"; "*** End Patch"]%string) Strict
  = Err (InvalidHunkError (msg_empty_update (str "test.py")) 2).
Proof. vm_compute. reflexivity. Qed.
