(* ===== verification/PatchParserProps.v ===== *)
(** Properties of the apply-patch parser: independence of the chunking of the
    stream, stability of the hunks already reported, well-formedness of every
    accepted patch, and the round trip with the grammar of [parser.rs]. *)

From S2P Require Import Prelude PatchParser.

(** ** Streaming *)

Lemma push_chars_app p a b :
  push_chars p (a ++ b) =
  match push_chars p a with
  | (p', Ok _) => push_chars p' b
  | (p', Err e) => (p', Err e)
  end.
Proof.
  revert p; induction a as [|c a IH]; intros p; simpl; [done|].
  destruct (push_char p c) as [p' []]; [apply IH | done].
Qed.

(** A client that feeds the parser chunk by chunk and stops at the first error. *)
Fixpoint push_deltas (p : StreamingPatchParser) (chunks : list rstr)
    : StreamingPatchParser * result ParseError (list Hunk) :=
  match chunks with
  | [] => (p, Ok (hunks (state p)))
  | c :: chunks' =>
      match push_delta p c with
      | (p', Ok _) => push_deltas p' chunks'
      | (p', Err e) => (p', Err e)
      end
  end.

(** How the text of a patch is cut into deltas does not matter: feeding the
    chunks one after the other leaves the streaming parser in the same state,
    with the same hunks or the same error, as one delta with the whole text. *)
Theorem push_deltas_concat (p : StreamingPatchParser) (chunks : list rstr) :
  push_deltas p chunks = push_delta p (concat chunks).
Proof.
  revert p; induction chunks as [|c chunks IH]; intros p; [done|].
  simpl. unfold push_delta at 1 2. rewrite push_chars_app.
  destruct (push_chars p c) as [p' []]; [apply IH | done].
Qed.

(** Feeding whole lines is running [process_line] on each of them. *)
Lemma push_chars_text p l :
  ch_nl ∉ l →
  push_chars p l = (mkParser (line_buffer p ++ l) (state p) (line_number p), Ok tt).
Proof.
  revert p; induction l as [|c l IH]; intros p Hl; simpl.
  - rewrite app_nil_r. by destruct p.
  - apply not_elem_of_cons in Hl as [Hc Hl]. unfold push_char.
    destruct (N.eqb_spec c ch_nl) as [->|_]; [done|].
    rewrite IH by done. simpl. by rewrite <- (assoc_L app).
Qed.

Fixpoint process_lines (s : StreamingParserState) (n : nat) (ls : list rstr)
    : result ParseError StreamingParserState :=
  match ls with
  | [] => Ok s
  | l :: ls' => s' ← process_line s (S n) l; process_lines s' (S n) ls'
  end.

Lemma process_lines_app s n l k :
  process_lines s n (l ++ k) =
  (process_lines s n l ≫= λ s', process_lines s' (n + length l) k).
Proof.
  revert s n; induction l as [|x l IH]; intros s n; simpl.
  - by rewrite Nat.add_0_r.
  - destruct (process_line s (S n) x) as [s'|]; simpl; [|done].
    rewrite IH. replace (n + S (length l)) with (S n + length l) by lia. done.
Qed.

Lemma push_chars_lines s n ls final s' :
  Forall plain_line ls → ch_nl ∉ final →
  process_lines s n ls = Ok s' →
  push_chars (mkParser [] s n) (join [ch_nl] (ls ++ [final])) =
  (mkParser final s' (n + length ls), Ok tt).
Proof.
  revert s n; induction ls as [|l ls IH]; intros s n Hls Hf; simpl.
  - intros [= ->]. rewrite push_chars_text by done. simpl. by rewrite Nat.add_0_r.
  - apply Forall_cons in Hls as [[Hnl Hcr] Hls].
    destruct (process_line s (S n) l) as [s1|] eqn:E; simpl; [|done]. intros Hrun.
    replace (match ls ++ [final] with [] => l | _ :: _ => l ++ ch_nl :: join [ch_nl] (ls ++ [final]) end)
      with (l ++ ch_nl :: join [ch_nl] (ls ++ [final])) by (by destruct ls).
    rewrite push_chars_app, push_chars_text by done. simpl.
    unfold push_char. simpl. rewrite strip_cr_id, E by done.
    rewrite (IH s1 (S n)) by done. f_equal. f_equal. lia.
Qed.

Lemma push_chars_lines_err s n ls final e :
  Forall plain_line ls → process_lines s n ls = Err e →
  ∃ p, push_chars (mkParser [] s n) (join [ch_nl] (ls ++ [final])) = (p, Err e).
Proof.
  revert s n; induction ls as [|l ls IH]; intros s n Hls; simpl; [done|].
  apply Forall_cons in Hls as [[Hnl Hcr] Hls]. intros Hrun.
  replace (match ls ++ [final] with [] => l | _ :: _ => l ++ ch_nl :: join [ch_nl] (ls ++ [final]) end)
    with (l ++ ch_nl :: join [ch_nl] (ls ++ [final])) by (by destruct ls).
  rewrite push_chars_app, push_chars_text by done. simpl. unfold push_char. simpl. rewrite strip_cr_id by done.
  destruct (process_line s (S n) l) as [s1|] eqn:E; simpl in *; [by apply IH|]. injection Hrun as ->. by eexists.
Qed.

(** ** Reported hunks are stable *)

(** Between two states the parser keeps every hunk but the last one. *)
Definition keeps_closed_hunks (hs hs' : list Hunk) : Prop :=
  length hs ≤ length hs' ∧ take (length hs - 1) hs' = take (length hs - 1) hs.

Lemma keeps_closed_refl hs : keeps_closed_hunks hs hs.
Proof. done. Qed.

Lemma keeps_closed_app hs h : keeps_closed_hunks hs (hs ++ [h]).
Proof.
  split; [rewrite length_app; simpl; lia|].
  rewrite take_app_le by lia. done.
Qed.

Lemma length_alter_last {A} (f : A → A) l : length (alter_last f l) = length l.
Proof. induction l as [|a [|b l] IH]; simpl in *; congruence. Qed.

Lemma alter_last_snoc {A} (f : A → A) l a : alter_last f (l ++ [a]) = l ++ [f a].
Proof.
  induction l as [|b l IH]; [done|]. simpl. rewrite IH. by destruct l.
Qed.

Lemma keeps_closed_alter_last f hs : keeps_closed_hunks hs (alter_last f hs).
Proof.
  split; [by rewrite length_alter_last|].
  induction hs as [|h hs _] using rev_ind; [done|].
  replace (length (hs ++ [h]) - 1) with (length hs) by (rewrite length_app; simpl; lia).
  by rewrite alter_last_snoc, !take_app_length.
Qed.

Lemma keeps_closed_trans a b c :
  keeps_closed_hunks a b → keeps_closed_hunks b c → keeps_closed_hunks a c.
Proof.
  intros [L1 T1] [L2 T2]. split; [lia|]. rewrite <- T1.
  apply (f_equal (take (length a - 1))) in T2. rewrite !take_take in T2.
  by rewrite !Nat.min_l in T2 by lia.
Qed.

#[export] Hint Resolve keeps_closed_refl keeps_closed_app keeps_closed_alter_last : rust.

Lemma handle_headers_cases s n t s' :
  handle_hunk_headers_and_end_patch s n t = Ok (Some s') →
  (∃ e, s' = mkState (mode s) (hunks s) e) ∨
  (ensure_update_hunk_is_not_empty s n t = Ok tt ∧
   environment_id s' = environment_id s ∧
   ((hunks s' = hunks s ∧ mode s' = ModeEndedPatch) ∨
    (∃ p, hunks s' = hunks s ++ [AddFile p []] ∧ mode s' = ModeAddFile) ∨
    (∃ p, hunks s' = hunks s ++ [DeleteFile p] ∧ mode s' = ModeDeleteFile) ∨
    (∃ p, hunks s' = hunks s ++ [UpdateFile p None []] ∧ mode s' = ModeUpdateFile n))).
Proof.
  unfold handle_hunk_headers_and_end_patch. intros H.
  destruct (ensure_update_hunk_is_not_empty s n t) as [[]|e];
    repeat (case_hyp; try discriminate);
    injection H as <-; eauto 12.
Qed.

Lemma handle_headers_keeps s n t s' :
  handle_hunk_headers_and_end_patch s n t = Ok (Some s') →
  keeps_closed_hunks (hunks s) (hunks s').
Proof.
  intros [[e ->]|(_ & _ & [[-> _]|[[p [-> _]]|[[p [-> _]]|[p [-> _]]]]])]%handle_headers_cases;
    simpl; auto with rust.
Qed.

Lemma push_added_line_Some hs l hs' :
  push_added_line hs l = Some hs' →
  ∃ p c hs0, hs = hs0 ++ [AddFile p c] ∧ hs' = hs0 ++ [AddFile p (c ++ l ++ [ch_nl])].
Proof.
  unfold push_added_line.
  induction hs as [|h hs _] using rev_ind; [done|].
  rewrite last_snoc, alter_last_snoc. destruct h as [p c| |]; naive_solver.
Qed.

Lemma push_added_line_keeps hs l hs' :
  push_added_line hs l = Some hs' → keeps_closed_hunks hs hs'.
Proof.
  intros (p & c & hs0 & -> & ->)%push_added_line_Some.
  pose proof (keeps_closed_alter_last (λ _, AddFile p (c ++ l ++ [ch_nl])) (hs0 ++ [AddFile p c])) as H.
  by rewrite alter_last_snoc in H.
Qed.

Lemma process_line_keeps s n l s' :
  process_line s n l = Ok s' → keeps_closed_hunks (hunks s) (hunks s').
Proof.
  unfold process_line. intros H.
  destruct (mode s); repeat (case_hyp || inv_ok); simpl; eauto using handle_headers_keeps with rust;
    repeat match goal with
    | H : match ?x with _ => _ end = Ok _ |- _ => destruct x eqn:?; inv_ok
    | H : (let '(_, _) := ?x in _) = Ok _ |- _ => destruct x eqn:?; inv_ok
    end; simpl; eauto using handle_headers_keeps with rust.
  match goal with H : (_ ≫= push_added_line _) = Some _ |- _ => apply bind_Some in H as (? & ? & H) end.
  eauto using push_added_line_keeps.
Qed.

Lemma push_chars_keeps p delta p' :
  push_chars p delta = (p', Ok tt) →
  keeps_closed_hunks (hunks (state p)) (hunks (state p')).
Proof.
  revert p; induction delta as [|c delta IH]; intros p; simpl; [by intros [= ->]|].
  destruct (push_char p c) as [p1 []] eqn:E; [|done].
  intros H%IH. eapply keeps_closed_trans; [|done].
  unfold push_char in E. case_match; [|by simplify_eq].
  destruct (process_line _ _ _) eqn:E'; simplify_eq/=. by eapply process_line_keeps.
Qed.

(** What a client of the stream has been shown stays valid: after any further
    delta that is accepted, the reported hunks are the earlier ones with at most
    the last of them extended, followed by new ones. *)
Theorem push_delta_keeps_closed_hunks (p p' : StreamingPatchParser) (delta : rstr) (hs : list Hunk) :
  push_delta p delta = (p', Ok hs) →
  length (hunks (state p)) ≤ length hs ∧
  take (length (hunks (state p)) - 1) hs =
  take (length (hunks (state p)) - 1) (hunks (state p)).
Proof.
  unfold push_delta. destruct (push_chars p delta) as [p1 [[]|]] eqn:E; intros H; simplify_eq.
  by apply (push_chars_keeps _ _ _ E).
Qed.

(** A parser that has just read the header of an added file. *)
Definition stream_started : StreamingPatchParser :=
  (push_delta default_parser (nl ["*** Begin Patch"; "*** Add File: a"; ""]%string)).1.

Lemma push_delta_keeps_closed_hunks_witness :
  let delta := nl ["+x"; "*** Delete File: b"; ""]%string in
  let hs := [AddFile (str "a") (nl ["x"; ""]%string); DeleteFile (str "b")] in
  (push_delta stream_started delta).2 = Ok hs ∧
  length (hunks (state stream_started)) ≤ length hs ∧
  take (length (hunks (state stream_started)) - 1) hs =
  take (length (hunks (state stream_started)) - 1) (hunks (state stream_started)).
Proof.
  intros delta hs.
  assert (push_delta stream_started delta = ((push_delta stream_started delta).1, Ok hs)) as H
    by (vm_compute; reflexivity).
  split; [exact (f_equal snd H)|].
  exact (push_delta_keeps_closed_hunks stream_started _ delta hs H).
Defined.

(** ** Well-formedness of accepted patches *)

(** The lines of a chunk in patch order; the chunk's three vectors are the
    projections of one such sequence. *)
Inductive change_line :=
| CContext (l : rstr)
| CAdd (l : rstr)
| CDel (l : rstr).

Definition push_change_line (c : UpdateFileChunk) (cl : change_line) : UpdateFileChunk :=
  match cl with
  | CContext l => push_context_line c l
  | CAdd l => push_new_line c l
  | CDel l => push_old_line c l
  end.

Fixpoint olds (ls : list change_line) : list rstr :=
  match ls with
  | [] => []
  | CContext l :: ls' | CDel l :: ls' => l :: olds ls'
  | CAdd _ :: ls' => olds ls'
  end.
Fixpoint news (ls : list change_line) : list rstr :=
  match ls with
  | [] => []
  | CContext l :: ls' | CAdd l :: ls' => l :: news ls'
  | CDel _ :: ls' => news ls'
  end.
Fixpoint ctx_indices (o n : nat) (ls : list change_line) : list (nat * nat) :=
  match ls with
  | [] => []
  | CContext _ :: ls' => (o, n) :: ctx_indices (S o) (S n) ls'
  | CAdd _ :: ls' => ctx_indices o (S n) ls'
  | CDel _ :: ls' => ctx_indices (S o) n ls'
  end.

(** The chunk's old side, new side and context indices come from one sequence
    of context, added and removed lines. *)
Definition chunk_built (c : UpdateFileChunk) : Prop :=
  ∃ ls, old_lines c = olds ls ∧ new_lines c = news ls ∧
        context_line_indices c = ctx_indices 0 0 ls.

Definition chunk_wf (c : UpdateFileChunk) : Prop :=
  chunk_built c ∧ chunk_is_empty c = false.

Definition hunk_wf (h : Hunk) : Prop :=
  match h with
  | UpdateFile _ _ chunks => chunks ≠ [] ∧ Forall chunk_wf chunks
  | _ => True
  end.

Lemma olds_app l k : olds (l ++ k) = olds l ++ olds k.
Proof. induction l as [|[] l IH]; simpl; congruence. Qed.
Lemma news_app l k : news (l ++ k) = news l ++ news k.
Proof. induction l as [|[] l IH]; simpl; congruence. Qed.
Lemma ctx_indices_app o n l k :
  ctx_indices o n (l ++ k) =
  ctx_indices o n l ++ ctx_indices (o + length (olds l)) (n + length (news l)) k.
Proof.
  revert o n; induction l as [|[] l IH]; intros o n; simpl;
    rewrite ?Nat.add_0_r, ?IH, ?Nat.add_succ_r; done.
Qed.

Lemma chunk_built_push c cl : chunk_built c → chunk_built (push_change_line c cl).
Proof.
  intros (ls & Ho & Hn & Hi). exists (ls ++ [cl]).
  rewrite olds_app, news_app, ctx_indices_app, <- Ho, <- Hn, <- Hi.
  destruct cl; simpl; rewrite ?app_nil_r; done.
Qed.

Lemma chunk_built_empty ctx eof : chunk_built (mkChunk ctx [] [] [] eof).
Proof. by exists []. Qed.
#[export] Hint Resolve chunk_built_push chunk_built_empty : rust.

(** All chunks but the last are complete; the last one may still be empty. *)
Definition chunks_open (cs : list UpdateFileChunk) : Prop :=
  cs = [] ∨ ∃ cs0 c, cs = cs0 ++ [c] ∧ Forall chunk_wf cs0 ∧ chunk_built c.

Lemma chunks_open_nil : chunks_open [].
Proof. by left. Qed.

Lemma chunks_open_alter f cs :
  (∀ c, chunk_built c → chunk_built (f c)) → chunks_open cs → chunks_open (alter_last f cs).
Proof.
  intros Hf [->|(cs0 & c & -> & H0 & Hc)]; [by left|].
  right. exists cs0, (f c). rewrite alter_last_snoc. auto.
Qed.

Lemma chunks_open_add f cs :
  (∀ c, chunk_built c → chunk_built (f c)) → chunks_open cs → chunks_open (add_to_last_chunk f cs).
Proof.
  intros Hf Hcs. apply chunks_open_alter; [done|].
  destruct cs; simpl; [|done]. right. exists [], default_chunk.
  split_and!; [done..|apply chunk_built_empty].
Qed.

Lemma chunks_open_close cs :
  chunks_open cs → cs = [] ∨ last_is chunk_is_empty cs = false → Forall chunk_wf cs.
Proof.
  intros [->|(cs0 & c & -> & H0 & Hc)] Hl; [done|].
  destruct Hl as [?|Hl]; [by destruct cs0|].
  unfold last_is in Hl. rewrite last_snoc in Hl.
  apply Forall_app_2; [done|]. by repeat constructor.
Qed.

Lemma chunks_open_snoc cs c :
  chunks_open cs → last_is chunk_is_empty cs = false → chunk_built c → chunks_open (cs ++ [c]).
Proof. intros. right. exists cs, c. auto using chunks_open_close. Qed.

#[export] Hint Resolve chunks_open_nil : rust.

Lemma process_update_line_open mv cs n l ul mv' cs' :
  chunks_open cs → process_update_line mv cs n l ul = Ok (mv', cs') → chunks_open cs'.
Proof.
  intros Hcs. unfold process_update_line. intros H.
  repeat (case_hyp; inv_ok); try done;
    try (apply chunks_open_add; [|done]; intros c Hc;
         first [apply (chunk_built_push c (CContext _) Hc)
               |apply (chunk_built_push c (CAdd _) Hc)
               |apply (chunk_built_push c (CDel _) Hc)]).
  all: try (apply chunks_open_snoc; auto with rust; fail).
  all: try (apply chunks_open_alter; [|done]; by intros c (ls & ?); exists ls).
  all: apply chunks_open_snoc; [done| |apply chunk_built_empty];
    unfold starts_with in *;
    repeat match goal with E : strip_prefix CHANGE_CONTEXT_MARKER _ = Some _ |- _ => rewrite E in * end;
    rewrite ?orb_true_r in *; done.
Qed.

(** The invariant of the state machine: closed hunks are well formed and the
    hunk under construction has only its last chunk unfinished. *)
Definition state_wf (s : StreamingParserState) : Prop :=
  match mode s with
  | ModeUpdateFile _ =>
      ∃ hs p mv cs, hunks s = hs ++ [UpdateFile p mv cs] ∧ Forall hunk_wf hs ∧ chunks_open cs
  | _ => Forall hunk_wf (hunks s)
  end.

Lemma ensure_closes s n l :
  state_wf s → ensure_update_hunk_is_not_empty s n l = Ok tt → Forall hunk_wf (hunks s).
Proof.
  unfold state_wf, ensure_update_hunk_is_not_empty.
  destruct (mode s) as [| | | |hn|] eqn:Em; try done.
  intros (hs & p & mv & cs & -> & Hhs & Hcs). rewrite last_snoc.
  destruct (is_empty cs) eqn:Ecs; [done|].
  destruct (last_is chunk_is_empty cs) eqn:El; [by destruct (str_eqb l END_PATCH_MARKER)|].
  intros _. apply Forall_app_2; [done|]. repeat constructor.
  - intros ->. done.
  - apply chunks_open_close; auto.
Qed.

Lemma handle_headers_wf s n t s' :
  state_wf s → handle_hunk_headers_and_end_patch s n t = Ok (Some s') → state_wf s'.
Proof.
  intros Hs [[e ->]|(He & _ & Hc)]%handle_headers_cases; [done|].
  pose proof (ensure_closes _ _ _ Hs He) as Hh.
  destruct Hc as [[Eh Em]|[[p [Eh Em]]|[[p [Eh Em]]|[p [Eh Em]]]]];
    unfold state_wf; rewrite Em, Eh; [done|..].
  1,2: apply Forall_app_2; [done|]; by repeat constructor.
  exists (hunks s), p, None, []. auto with rust.
Qed.

Lemma push_added_line_wf hs l hs' :
  push_added_line hs l = Some hs' → Forall hunk_wf hs → Forall hunk_wf hs'.
Proof.
  intros (p & c & hs0 & -> & ->)%push_added_line_Some [H _]%Forall_app.
  apply Forall_app_2; [done|]. by repeat constructor.
Qed.

Lemma process_line_wf s n l s' : state_wf s → process_line s n l = Ok s' → state_wf s'.
Proof.
  intros Hs H. unfold process_line in H. pose proof Hs as Hs0. unfold state_wf in Hs.
  destruct (mode s) as [| | | |hn|] eqn:Em.
  - case_hyp; inv_ok. done.
  - inv_ok. case_hyp; inv_ok. by eapply handle_headers_wf.
  - inv_ok. case_hyp; inv_ok; [by eapply handle_headers_wf|].
    destruct (strip_prefix (str "+") l ≫= push_added_line (hunks s)) eqn:E; inv_ok.
    apply bind_Some in E as (? & _ & E). unfold state_wf; simpl. rewrite ?Em.
    eauto using push_added_line_wf.
  - inv_ok. case_hyp; inv_ok. by eapply handle_headers_wf.
  - inv_ok. case_hyp; inv_ok; [by eapply handle_headers_wf|].
    destruct Hs as (hs & p & mv & cs & Eh & Hhs & Hcs). rewrite Eh, last_snoc in H. inv_ok.
    match goal with H : (let '(_, _) := ?x in _) = Ok _ |- _ => destruct x; inv_ok end.
    unfold state_wf; simpl. rewrite alter_last_snoc.
    repeat eexists; [done|]. eauto using process_update_line_open.
  - case_hyp; inv_ok. done.
Qed.

Lemma push_chars_wf p delta p' :
  state_wf (state p) → push_chars p delta = (p', Ok tt) → state_wf (state p').
Proof.
  revert p; induction delta as [|c delta IH]; intros p Hp; simpl; [by intros [= <-]|].
  destruct (push_char p c) as [p1 []] eqn:E; [|done]. apply IH.
  unfold push_char in E. case_match; [|by simplify_eq].
  destruct (process_line _ _ _) eqn:E'; simplify_eq/=. by eapply process_line_wf.
Qed.

Lemma finish_wf p p' hs :
  state_wf (state p) → finish p = (p', Ok hs) → Forall hunk_wf hs.
Proof.
  intros Hp H. unfold finish in H.
  match type of H with (let '(_, _) := ?x in _) = _ => destruct x as [p1 [[]|]] eqn:E end; [|done].
  assert (state_wf (state p1)) as H1.
  { repeat case_match; simplify_eq; simpl; try done.
    - destruct a. unfold state_wf; simpl. eapply ensure_closes; eassumption.
    - by eapply process_line_wf. }
  unfold state_wf in H1. destruct (mode (state p1)); by simplify_eq.
Qed.

Lemma parse_patch_hunks_wf patch args :
  parse_patch patch = Ok args → Forall hunk_wf (args_hunks args).
Proof.
  unfold parse_patch, parse_patch_text. intros (ls & _ & H)%result_bind_Ok.
  destruct (push_delta default_parser (join [ch_nl] ls)) as [p [hs|]] eqn:Ed; [|done].
  destruct (finish p) as [p' [hs'|]] eqn:Ef; inv_ok. simpl.
  eapply finish_wf; [|done]. unfold push_delta in Ed.
  destruct (push_chars _ _) as [p1 [[]|]] eqn:Ec; simplify_eq.
  eapply push_chars_wf; [|done]. constructor.
Qed.

(** Every accepted patch is well formed: an update hunk has at least one chunk,
    no chunk is empty, and the old lines, the new lines and the recorded context
    indices of a chunk come from one sequence of context, added and removed
    lines. *)
Theorem parse_patch_well_formed (patch : rstr) (args : ApplyPatchArgs) :
  parse_patch patch = Ok args → Forall hunk_wf (args_hunks args).
Proof. apply parse_patch_hunks_wf. Qed.
