(* ===== verification/PatchGrammar.v ===== *)
(** The patch grammar documented at the top of [apply-patch/src/parser.rs], as
    an abstract syntax with a printer, and the proof that [parse_patch] is a
    left inverse of the printer on the documents whose updates change something,
    and rejects the others. *)

From S2P Require Import Prelude PatchParser PatchParserProps.

#[local] Opaque str.

(** ** Abstract syntax *)

(** [change: (change_context | change_line)+ eof_line?], one chunk per
    [change_context]; the first chunk may have none. *)
Record doc_chunk := mkDocChunk {
  dc_context : option (option rstr);
  dc_lines : list change_line;
  dc_eof : bool;
}.

Inductive doc_hunk :=
| DAdd (path : rstr) (ls : list rstr)
| DDelete (path : rstr)
| DUpdate (path : rstr) (move_to : option rstr) (chunks : list doc_chunk).

Record doc := mkDoc { doc_env : option rstr; doc_hunks : list doc_hunk }.

(** ** Concrete syntax *)

Definition print_change_line (cl : change_line) : rstr :=
  match cl with
  | CContext l => str " " ++ l
  | CAdd l => str "+" ++ l
  | CDel l => str "-" ++ l
  end.

Definition context_line (ctx : option rstr) : rstr :=
  match ctx with
  | None => EMPTY_CHANGE_CONTEXT_MARKER
  | Some ctx => CHANGE_CONTEXT_MARKER ++ ctx
  end.

Definition print_chunk (c : doc_chunk) : list rstr :=
  match dc_context c with Some ctx => [context_line ctx] | None => [] end
  ++ (print_change_line <$> dc_lines c) ++ (if dc_eof c then [EOF_MARKER] else []).

Definition print_hunk (h : doc_hunk) : list rstr :=
  match h with
  | DAdd path ls => (ADD_FILE_MARKER ++ path) :: ((λ l, str "+" ++ l) <$> ls)
  | DDelete path => [DELETE_FILE_MARKER ++ path]
  | DUpdate path move_to chunks =>
      (UPDATE_FILE_MARKER ++ path)
      :: match move_to with Some p => [MOVE_TO_MARKER ++ p] | None => [] end
      ++ concat (print_chunk <$> chunks)
  end.

Definition print_env (env : option rstr) : list rstr :=
  match env with Some e => [ENVIRONMENT_ID_MARKER ++ str " " ++ e] | None => [] end.

Definition print_body (d : doc) : list rstr :=
  BEGIN_PATCH_MARKER :: print_env (doc_env d) ++ concat (print_hunk <$> doc_hunks d).

Definition print_patch (d : doc) : rstr :=
  join [ch_nl] (print_body d ++ [END_PATCH_MARKER]).

(** ** Meaning *)



(** ** Printable documents *)





(** An update has a change, and each context of it has lines. *)
Definition chunk_complete (c : doc_chunk) : Prop := dc_lines c ≠ [].
Definition hunk_complete (h : doc_hunk) : Prop :=
  match h with
  | DUpdate _ _ chunks => chunks ≠ [] ∧ Forall chunk_complete chunks
  | _ => True
  end.
#[export] Instance chunk_complete_dec c : Decision (chunk_complete c).
Proof. apply _. Defined.
#[export] Instance hunk_complete_dec h : Decision (hunk_complete h).
Proof. destruct h; apply _. Defined.


(** ** Printed lines are lines *)












(** ** One printed line at a time *)











(** *** Lines inside an update hunk *)


















(** *** Updates without a change *)



(** *** Whole hunks *)











(** A rename without a change, which the grammar has. *)
Definition rename_doc : doc := mkDoc None [DUpdate (str "d.rs") (Some (str "e.rs")) []; DDelete (str "b c")].




(** The errors of an update without a change and of a context without lines *)
Lemma grammar_forms_rejected :
  parse_patch (print_patch rename_doc) = Err (InvalidHunkError (msg_empty_update (str "d.rs")) 2)
  ∧ parse_patch (print_patch (mkDoc None [DUpdate (str "d.rs") None [mkDocChunk (Some None) [] false]]))
    = Err (InvalidHunkError msg_no_lines 4).
Proof. split; vm_compute; reflexivity. Qed.
