(* ===== verification/PatchReparse.v ===== *)
(** The patch text kept with a parsed patch parses to the same hunks: it is the
    text that is handed to [apply_patch] after verification. *)

From S2P Require Import Prelude PatchParser PatchParserProps.

#[local] Opaque str.

(** Feeding lines succeeds only if every complete line is accepted. *)
Lemma push_chars_lines_ok s n ls final p :
  Forall plain_line ls → ch_nl ∉ final →
  push_chars (mkParser [] s n) (join [ch_nl] (ls ++ [final])) = (p, Ok tt) →
  ∃ s', process_lines s n ls = Ok s'.
Proof.
  revert s n; induction ls as [|l ls IH]; intros s n Hls Hf; simpl; [eauto|].
  apply Forall_cons in Hls as [[Hnl Hcr] Hls].
  replace (match ls ++ [final] with [] => l | _ :: _ => l ++ ch_nl :: join [ch_nl] (ls ++ [final]) end)
    with (l ++ ch_nl :: join [ch_nl] (ls ++ [final])) by (by destruct ls).
  rewrite push_chars_app, push_chars_text by done. simpl.
  unfold push_char. simpl. rewrite strip_cr_id by done.
  destruct (process_line s (S n) l) as [s1|]; [|done]. apply IH; done.
Qed.

(** The result of a whole patch, from its lines. *)
Definition run_lines (ls : list rstr) (final : rstr) : result ParseError (list Hunk * option rstr) :=
  s ← process_lines default_state 0 ls;
  match finish (mkParser final s (length ls)) with
  | (p, Ok hs) => Ok (hs, environment_id (state p))
  | (_, Err e) => Err e
  end.

(** Only the trimmed first and last lines matter. *)
Lemma run_lines_trim f f' ls l l' :
  trim f = trim f' → trim l = END_PATCH_MARKER → trim l' = END_PATCH_MARKER →
  run_lines (f :: ls) l = run_lines (f' :: ls) l'.
Proof.
  intros Hf Hl Hl'. unfold run_lines. simpl. unfold process_line. simpl. rewrite Hf.
  case_match; simpl; [|done]. destruct (process_lines _ 1 ls) as [s|]; simpl; [|done].
  unfold finish. simpl. rewrite Hl, Hl', !str_eqb_refl.
  assert (∀ x, trim x = END_PATCH_MARKER → is_empty x = false) as He.
  { intros [|c x] Hx; [|done]. vm_compute in Hx. discriminate. }
  by rewrite !He.
Qed.

(** [parse_patch_text] once the boundaries are checked. *)
Definition parse_lines (ls : list rstr) : result ParseError (list Hunk * option rstr) :=
  match push_delta default_parser (join [ch_nl] ls) with
  | (_, Err e) => Err e
  | (parser, Ok _) =>
      match finish parser with
      | (_, Err e) => Err e
      | (parser', Ok hs) => Ok (hs, environment_id (state parser'))
      end
  end.

Lemma parse_lines_run ls l r :
  Forall plain_line ls → ch_nl ∉ l → parse_lines (ls ++ [l]) = Ok r ↔ run_lines ls l = Ok r.
Proof.
  intros Hls Hl. unfold parse_lines, run_lines, push_delta, default_parser. split.
  - destruct (push_chars _ _) as [p [[]|]] eqn:E; [|done].
    destruct (push_chars_lines_ok _ _ _ _ _ Hls Hl E) as [s' Hs].
    rewrite (push_chars_lines _ _ _ _ s') in E by done. simplify_eq. rewrite Hs. simpl.
    destruct (finish _) as [p' [hs|]]; naive_solver.
  - intros (s & Hs & Hf)%result_bind_Ok. rewrite (push_chars_lines _ _ _ _ s) by done. simpl.
    destruct (finish _) as [p' [hs|]]; naive_solver.
Qed.

(** ** Trimming a patch text *)

Definition blank (s : rstr) : Prop := Forall (λ c, is_whitespace c = true) s.

Lemma trim_start_by_app_all p w s : Forall (λ c, p c = true) w → trim_start_by p (w ++ s) = trim_start_by p s.
Proof. induction 1 as [|c w Hc _ IH]; simpl; [done|]. by rewrite Hc. Qed.

Lemma trim_end_by_app_all p w s : Forall (λ c, p c = true) w → trim_end_by p (s ++ w) = trim_end_by p s.
Proof.
  intros Hw. unfold trim_end_by. rewrite reverse_app, trim_start_by_app_all; [done|].
  by apply Forall_reverse.
Qed.

Lemma trim_start_by_split p s :
  ∃ w, s = w ++ trim_start_by p s ∧ Forall (λ c, p c = true) w ∧
    ∀ c, head (trim_start_by p s) = Some c → p c = false.
Proof.
  induction s as [|d s (w & Hs & Hw & Hh)]; simpl; [by exists []|].
  destruct (p d) eqn:Ed; [|by exists []; split_and!; [done..|]; intros c [= <-]].
  exists (d :: w). split_and!; [simpl; by f_equal|by constructor|done].
Qed.

Lemma trim_core w1 core w2 :
  blank w1 → blank w2 → core ≠ [] → trimmed_start core → trimmed_end core →
  trim (w1 ++ core ++ w2) = core.
Proof.
  intros H1 H2 Hne Hs He. unfold trim, trim_start, trim_end.
  rewrite trim_start_by_app_all by done.
  rewrite trim_start_by_head by (intros c Hc; apply Hs; by destruct core).
  rewrite trim_end_by_app_all by done. by apply trim_end_by_last.
Qed.

Lemma trim_split s : ∃ w1 w2, s = w1 ++ trim s ++ w2 ∧ blank w1 ∧ blank w2.
Proof.
  destruct (trim_start_by_split is_whitespace s) as (w1 & Hs & Hw1 & _).
  destruct (trim_start_by_split is_whitespace (reverse (trim_start s))) as (w2 & Hr & Hw2 & _).
  exists w1, (reverse w2). split_and!; [|done|by apply Forall_reverse].
  unfold trim, trim_end, trim_end_by. unfold trim_start in *.
  apply (f_equal reverse) in Hr. rewrite reverse_involutive, reverse_app in Hr.
  rewrite <- Hr. done.
Qed.

Lemma join_snoc_suffix sep ls a w : join sep (ls ++ [a ++ w]) = join sep (ls ++ [a]) ++ w.
Proof.
  induction ls as [|l ls IH]; simpl; [done|].
  destruct (ls ++ [a ++ w]) eqn:E1; [by destruct ls|].
  destruct (ls ++ [a]) eqn:E2; [by destruct ls|]. rewrite IH.
  by rewrite <- !(assoc_L app).
Qed.

Lemma trimmed_end_join sep ls a : a ≠ [] → trimmed_end a → trimmed_end (join sep (ls ++ [a])).
Proof.
  intros Hne Ha. change a with ([] ++ a). rewrite join_snoc_suffix.
  by apply trimmed_end_app.
Qed.

(** A text all of whose lines end with a plain newline. *)
Definition clean_line (l : rstr) : Prop := ch_nl ∉ l ∧ ch_cr ∉ l.

Lemma clean_plain l : clean_line l → plain_line l.
Proof.
  intros [Hn Hc]. split; [done|]. intros Hl. apply Hc. by apply last_Some_elem_of.
Qed.

Lemma clean_app l k : clean_line (l ++ k) ↔ clean_line l ∧ clean_line k.
Proof. unfold clean_line. set_solver. Qed.

Lemma split_char_elem c s w x : w ∈ split_char c s → x ∈ w → x ∈ s ∧ x ≠ c.
Proof.
  revert w. induction s as [|d s IH]; simpl; intros w Hw Hx.
  { apply list_elem_of_singleton in Hw as ->. by apply elem_of_nil in Hx. }
  destruct (N.eqb_spec d c) as [->|Hne].
  - apply elem_of_cons in Hw as [->|Hw]; [by apply elem_of_nil in Hx|].
    destruct (IH w Hw Hx). split; [by right|done].
  - destruct (split_char c s) as [|v vs].
    { apply list_elem_of_singleton in Hw as ->. apply list_elem_of_singleton in Hx as ->.
      split; [by left|done]. }
    apply elem_of_cons in Hw as [->|Hw].
    + apply elem_of_cons in Hx as [->|Hx]; [split; [by left|done]|].
      destruct (IH v ltac:(by left) Hx). split; [by right|done].
    + destruct (IH w ltac:(by right) Hx). split; [by right|done].
Qed.

Lemma strip_cr_elem l x : x ∈ strip_cr l → x ∈ l.
Proof.
  unfold strip_cr. destruct (strip_suffix [ch_cr] l) eqn:E; [|done].
  apply strip_suffix_Some in E as ->. intros ?. apply elem_of_app. by left.
Qed.

Lemma lines_of_elem ps l x : l ∈ lines_of ps → x ∈ l → ∃ w, w ∈ ps ∧ x ∈ w.
Proof.
  induction ps as [|p ps IH]; simpl; intros Hl Hx; [by apply elem_of_nil in Hl|].
  destruct ps as [|q ps].
  - destruct (is_empty p); [by apply elem_of_nil in Hl|].
    apply list_elem_of_singleton in Hl as ->. exists p. split; [by left|done].
  - apply elem_of_cons in Hl as [->|Hl].
    + apply strip_cr_elem in Hx. exists p. split; [by left|done].
    + destruct (IH Hl Hx) as (w & ? & ?). exists w. split; [by right|done].
Qed.

Lemma lines_clean s : ch_cr ∉ s → Forall clean_line (lines s).
Proof.
  intros Hcr. apply Forall_forall. intros l Hl. unfold lines in Hl.
  assert (∀ x, x ∈ l → x ∈ s ∧ x ≠ ch_nl) as Hx.
  { intros x Hx. destruct (lines_of_elem _ _ _ Hl Hx) as (w & Hw & Hxw).
    by apply (split_char_elem ch_nl s w). }
  split; intros Hin; destruct (Hx _ Hin); done.
Qed.

(** ** The kept text *)

Lemma check_strict_inv ls r :
  check_patch_boundaries_strict ls = Ok r →
  r = ls ∧ ∃ f mid l, ls = f :: mid ++ [l] ∧
    trim f = BEGIN_PATCH_MARKER ∧ trim l = END_PATCH_MARKER.
Proof.
  unfold check_patch_boundaries_strict, check_start_and_end_lines_strict. intros Hc.
  destruct ls as [|f ls]; simpl in Hc; [done|].
  destruct (last (f :: ls)) as [l|] eqn:El; [|by apply last_None in El].
  simpl in Hc.
  destruct (str_eqb (trim f) BEGIN_PATCH_MARKER) eqn:Ef; [|done]. simpl in Hc.
  destruct (str_eqb (trim l) END_PATCH_MARKER) eqn:Ee; [|done].
  simpl in Hc. inv_ok. reflect_bools. split; [done|].
  destruct ls as [|l' mid _] using rev_ind.
  - simpl in El. simplify_eq. rewrite Ef in Ee. vm_compute in Ee. discriminate.
  - rewrite app_comm_cons, last_snoc in El. simplify_eq. by exists f, mid, l.
Qed.

Lemma check_strict_ok f mid l :
  trim f = BEGIN_PATCH_MARKER → trim l = END_PATCH_MARKER →
  check_patch_boundaries_strict (f :: mid ++ [l]) = Ok (f :: mid ++ [l]).
Proof.
  intros Hf Hl. unfold check_patch_boundaries_strict, check_start_and_end_lines_strict.
  rewrite app_comm_cons, last_snoc. simpl. by rewrite Hf, Hl, !str_eqb_refl.
Qed.

Lemma check_lenient_inv ls r :
  check_patch_boundaries_lenient ls = Ok r →
  r ⊆ ls ∧ check_patch_boundaries_strict r = Ok r.
Proof.
  unfold check_patch_boundaries_lenient.
  destruct (check_patch_boundaries_strict ls) as [r0|e] eqn:E.
  - intros [= <-]. pose proof E as [-> _]%check_strict_inv. done.
  - repeat case_match; try done. intros Hr. pose proof Hr as [-> _]%check_strict_inv.
    split; [|done]. by rewrite subseteq_take, subseteq_drop.
Qed.

Lemma parse_patch_inv patch args :
  parse_patch patch = Ok args ↔
  ∃ ls, check_patch_boundaries_lenient (lines (trim patch)) = Ok ls ∧
    parse_lines ls = Ok (args_hunks args, args_environment_id args) ∧
    args_patch args = join [ch_nl] ls ∧ args_workdir args = None.
Proof.
  unfold parse_patch, parse_patch_text, parse_lines. simpl. rewrite result_bind_Ok. split.
  - intros (ls & Hc & Hp). exists ls. split; [done|].
    destruct (push_delta _ _) as [p [hs|]]; [|done]. by destruct (finish p) as [p' [hs'|]]; simplify_eq/=.
  - intros (ls & Hc & Hp & Ha & Hw). exists ls. split; [done|].
    destruct (push_delta _ _) as [p [hs|]]; [|done]. destruct (finish p) as [p' [hs'|]]; [|done].
    destruct args; by simplify_eq/=.
Qed.

(** The lines of the text kept for an accepted patch. *)
Lemma lines_of_kept f mid l :
  Forall clean_line (f :: mid ++ [l]) → trim f = BEGIN_PATCH_MARKER → trim l = END_PATCH_MARKER →
  ∃ f' l', lines (trim (join [ch_nl] (f :: mid ++ [l]))) = f' :: mid ++ [l'] ∧
    trim f' = BEGIN_PATCH_MARKER ∧ trim l' = END_PATCH_MARKER ∧ clean_line f' ∧ clean_line l'.
Proof.
  intros Hcl Hf Hl. apply Forall_cons in Hcl as [Hcf Hcl].
  apply Forall_app in Hcl as [Hcm [Hcl _]%Forall_cons].
  destruct (trim_split f) as (w1 & w2 & Ef & Hw1 & Hw2). rewrite Hf in Ef.
  destruct (trim_split l) as (w3 & w4 & El & Hw3 & Hw4). rewrite Hl in El.
  assert (BEGIN_PATCH_MARKER ≠ [] ∧ trimmed_start BEGIN_PATCH_MARKER ∧
          trimmed_end BEGIN_PATCH_MARKER) as (Hb1 & Hb2 & Hb3).
  { split_and!; [done|..]; intros c Hc; vm_compute in Hc; injection Hc as <-; reflexivity. }
  assert (END_PATCH_MARKER ≠ [] ∧ trimmed_start END_PATCH_MARKER ∧
          trimmed_end END_PATCH_MARKER) as (He1 & He2 & He3).
  { split_and!; [done|..]; intros c Hc; vm_compute in Hc; injection Hc as <-; reflexivity. }
  set (f' := BEGIN_PATCH_MARKER ++ w2). set (l' := w3 ++ END_PATCH_MARKER).
  assert (clean_line f' ∧ clean_line l') as [Hcf' Hcl'].
  { subst f l. rewrite !clean_app in Hcf, Hcl. unfold f', l'. rewrite !clean_app. tauto. }
  exists f', l'. split_and!; [|..|done|done].
  - assert (join [ch_nl] (f :: mid ++ [l]) = w1 ++ join [ch_nl] (f' :: mid ++ [l']) ++ w4) as ->.
    { rewrite El, (assoc_L app w3). fold l'.
      rewrite app_comm_cons, join_snoc_suffix, <- app_comm_cons.
      rewrite Ef. fold f'. simpl. destruct (mid ++ [l']) eqn:E; [by destruct mid|].
      by rewrite <- !(assoc_L app). }
    rewrite trim_core; [|done|done|..].
    + apply lines_join; [done|rewrite app_comm_cons, last_snoc; by intros [= [_ ?]%app_nil]|].
      apply Forall_cons. split; [by apply clean_plain|]. apply Forall_app.
      split; [eapply Forall_impl; [exact Hcm|apply clean_plain]|].
      apply Forall_singleton. by apply clean_plain.
    + rewrite app_comm_cons. apply join_snoc_ne. by intros [_ ?]%app_nil.
    + intros c Hc. apply Hb2. simpl in Hc. by destruct (mid ++ [l']).
    + rewrite app_comm_cons. apply trimmed_end_join; [by intros [_ ?]%app_nil|].
      by apply trimmed_end_app.
  - unfold f'. apply (trim_core []); done || constructor.
  - unfold l'. rewrite <- (app_nil_r (w3 ++ _)), <- (assoc_L app). apply trim_core; done || constructor.
Qed.

(** The text kept for an accepted patch, without the heredoc wrapper, is itself
    accepted and parses to the same hunks and environment: what is applied after
    verification is what was verified. The text has no carriage returns. *)
Theorem kept_patch_reparses (patch : rstr) (args : ApplyPatchArgs) :
  ch_cr ∉ patch → parse_patch patch = Ok args →
  ∃ args', parse_patch (args_patch args) = Ok args' ∧
    args_hunks args' = args_hunks args ∧ args_environment_id args' = args_environment_id args.
Proof.
  intros Hcr (ls & Hc & Hp & -> & _)%parse_patch_inv.
  apply check_lenient_inv in Hc as [Hsub Hs].
  assert (Forall clean_line ls) as Hcl.
  { apply Forall_forall. intros l Hl. apply Hsub in Hl.
    assert (ch_cr ∉ trim patch) as Hcr'.
    { destruct (trim_split patch) as (w1 & w2 & Hpt & _). rewrite Hpt in Hcr. set_solver. }
    by apply (proj1 (Forall_forall _ _) (lines_clean _ Hcr')). }
  apply check_strict_inv in Hs as (_ & f & mid & l & -> & Hf & Hl).
  destruct (lines_of_kept f mid l Hcl Hf Hl) as (f' & l' & Hlines & Hf' & Hl' & Hcf & Hcl').
  apply Forall_cons in Hcl as [Hcf0 Hcl]. apply Forall_app in Hcl as [Hcm [Hcl0 _]%Forall_cons].
  exists (mkArgs (join [ch_nl] (f' :: mid ++ [l'])) (args_hunks args) None (args_environment_id args)).
  split; [|done]. apply parse_patch_inv. exists (f' :: mid ++ [l']). split_and!; [|..|done|done].
  - rewrite Hlines. unfold check_patch_boundaries_lenient. by rewrite check_strict_ok.
  - rewrite app_comm_cons in *. apply parse_lines_run in Hp.
    + apply parse_lines_run; [|apply Hcl'|].
      * apply Forall_cons. split; [by apply clean_plain|]. eapply Forall_impl; [exact Hcm|apply clean_plain].
      * cbn [args_hunks args_environment_id]. rewrite <- Hp. apply run_lines_trim; congruence.
    + apply Forall_cons. split; [by apply clean_plain|]. eapply Forall_impl; [exact Hcm|apply clean_plain].
    + apply Hcl0.
Qed.

(** A patch wrapped in a heredoc, with an indented first line. *)
Definition heredoc_patch : rstr :=
  nl ["<<'EOF'"; "  *** Begin Patch"; "*** Delete File: a"; "*** End Patch "; "EOF"]%string.

Lemma kept_patch_reparses_witness :
  ∃ args, parse_patch heredoc_patch = Ok args ∧ args_hunks args = [DeleteFile (str "a")] ∧
  ∃ args', parse_patch (args_patch args) = Ok args' ∧
    args_hunks args' = args_hunks args ∧ args_environment_id args' = args_environment_id args.
Proof.
  exists (mkArgs (nl ["  *** Begin Patch"; "*** Delete File: a"; "*** End Patch "]%string)
            [DeleteFile (str "a")] None None).
  assert (parse_patch heredoc_patch = Ok (mkArgs
    (nl ["  *** Begin Patch"; "*** Delete File: a"; "*** End Patch "]%string)
    [DeleteFile (str "a")] None None)) as H by (vm_compute; reflexivity).
  assert (bool_decide (ch_cr ∈ heredoc_patch) = false) as Hcr by (vm_compute; reflexivity).
  apply bool_decide_eq_false_1 in Hcr.
  split; [exact H|]. split; [reflexivity|]. exact (kept_patch_reparses heredoc_patch _ Hcr H).
Defined.
