(* ===== verification/FileUpdate.v ===== *)
(** Line endings of an updated file, [apply-patch/src/text_file.rs], and locating
    and applying the chunks of an update hunk: [apply-patch/src/seek_sequence.rs]
    and [apply-patch/src/file_update.rs]. *)

From S2P Require Import Prelude PatchParser.

(** [(start_index, old_len, new_lines)] *)
Abbreviation Replacement := (nat * nat * list rstr)%type.

Inductive LineEnding := Lf | CrLf | Cr.
#[global] Instance LineEnding_eq_dec : EqDecision LineEnding.
Proof. solve_decision. Defined.

(** [LineEnding::as_str] *)
Definition ending_str (e : LineEnding) : rstr :=
  match e with
  | Lf => [ch_nl]
  | CrLf => [ch_cr; ch_nl]
  | Cr => [ch_cr]
  end.

Record SourceLine := mkLine { text : rstr; ending : option LineEnding }.
Record SourceFile := mkSource { sf_lines : list SourceLine; preferred_ending : LineEnding }.

(** The scanning loop of [SourceFile::parse]: [line] is the slice
    [contents[line_start..cursor]], [s] the rest of the contents. *)
Fixpoint parse_loop (s line : rstr) (ls : list SourceLine) (preferred : option LineEnding)
    : list SourceLine * option LineEnding :=
  let close e := (ls ++ [mkLine line (Some e)]) in
  let prefer e := Some (default e preferred) in
  match s with
  | [] => (if is_empty line then ls else ls ++ [mkLine line None], preferred)
  | c :: s' =>
      if (c =? ch_cr)%N then
        match s' with
        | d :: s'' =>
            if (d =? ch_nl)%N then parse_loop s'' [] (close CrLf) (prefer CrLf)
            else parse_loop s' [] (close Cr) (prefer Cr)
        | [] => parse_loop s' [] (close Cr) (prefer Cr)
        end
      else if (c =? ch_nl)%N then parse_loop s' [] (close Lf) (prefer Lf)
      else parse_loop s' (line ++ [c]) ls preferred
  end.

Definition parse (contents : rstr) : SourceFile :=
  let '(ls, preferred) := parse_loop contents [] [] None in
  mkSource ls (default Lf preferred).

Definition line_texts (f : SourceFile) : list rstr := text <$> sf_lines f.

(** The loop of [SourceFile::apply_replacements]: [source_lines] is what the
    iterator has not yielded yet, [source_index] how far it has advanced.
    [None] is the underflow of [*start_idx - source_index]. *)
Fixpoint apply_loop (preferred : LineEnding) (source_lines new_lines : list SourceLine)
    (source_index : nat) (replacements : list Replacement) : option (list SourceLine) :=
  match replacements with
  | [] => Some (new_lines ++ source_lines)
  | (start_idx, old_len, new_segment) :: replacements' =>
      if start_idx <? source_index then None
      else
        let kept := take (start_idx - source_index) source_lines in
        let rest := drop old_len (drop (start_idx - source_index) source_lines) in
        let inserted := (λ t, mkLine t (Some preferred)) <$> new_segment in
        apply_loop preferred rest (new_lines ++ kept ++ inserted)
          (start_idx + old_len) replacements'
  end.

(** [line.ending.get_or_insert(preferred)] *)
Definition terminate_line (preferred : LineEnding) (l : SourceLine) : SourceLine :=
  mkLine (text l) (Some (default preferred (ending l))).

Definition apply_replacements (f : SourceFile) (replacements : list Replacement)
    : option SourceFile :=
  ls ← apply_loop (preferred_ending f) (sf_lines f) [] 0 replacements;
  Some (mkSource (terminate_line (preferred_ending f) <$> ls) (preferred_ending f)).

Definition line_contents (l : SourceLine) : rstr :=
  text l ++ match ending l with Some e => ending_str e | None => [] end.

Definition into_contents (f : SourceFile) : rstr := concat (line_contents <$> sf_lines f).

(** ** Reading and writing back *)

Lemma parse_loop_contents s line ls pref ls' pref' :
  parse_loop s line ls pref = (ls', pref') →
  concat (line_contents <$> ls') = concat (line_contents <$> ls) ++ line ++ s.
Proof.
  assert (∀ ls line e, concat (line_contents <$> ls ++ [mkLine line (Some e)]) =
    concat (line_contents <$> ls) ++ line ++ ending_str e) as Hclose.
  { intros. rewrite fmap_app, concat_app. simpl. by rewrite app_nil_r. }
  remember (length s) as n eqn:Hn. assert (length s ≤ n) as Hle by lia. clear Hn.
  revert s Hle line ls pref. induction n as [|n IH]; intros [|c s] Hle line ls pref; simpl in *; try lia.
  1,2: intros [= <- <-]; destruct line; simpl;
    rewrite ?fmap_app, ?concat_app; simpl; unfold line_contents; simpl; by rewrite ?app_nil_r.
  destruct (N.eqb_spec c ch_cr) as [->|]; [destruct s as [|d s]|destruct (N.eqb_spec c ch_nl) as [->|]];
    [|destruct (N.eqb_spec d ch_nl) as [->|]|..];
    intros H; apply IH in H as ->; simpl in *; try lia;
    rewrite ?Hclose, <- ?(assoc_L app); simpl; done.
Qed.

(** No byte of a file is lost or added by splitting it into lines and endings:
    writing back the parsed file gives the original contents, for every mix of
    LF, CRLF and CR endings, with or without a final one. *)
Theorem source_file_roundtrip (contents : rstr) : into_contents (parse contents) = contents.
Proof.
  unfold into_contents, parse. destruct (parse_loop contents [] [] None) as [ls p] eqn:E.
  simpl. by rewrite (parse_loop_contents _ _ _ _ _ _ E).
Qed.

(** No line text of a parsed file holds a line terminator. *)
Definition no_terminator (t : rstr) : Prop := ch_nl ∉ t ∧ ch_cr ∉ t.

Lemma parse_loop_texts s line ls pref ls' pref' :
  parse_loop s line ls pref = (ls', pref') →
  no_terminator line → Forall (no_terminator ∘ text) ls → Forall (no_terminator ∘ text) ls'.
Proof.
  assert (∀ ls line e, no_terminator line → Forall (no_terminator ∘ text) ls →
    Forall (no_terminator ∘ text) (ls ++ [mkLine line e])) as Hsnoc.
  { intros. apply Forall_app; split; [done|]. by apply Forall_singleton. }
  assert (no_terminator []) as Hnil by (split; apply not_elem_of_nil).
  remember (length s) as n eqn:Hn. assert (length s ≤ n) as Hle by lia. clear Hn.
  revert s Hle line ls pref. induction n as [|n IH]; intros [|c s] Hle line ls pref; simpl in *; try lia.
  1,2: intros [= <- <-]; destruct line; simpl; auto.
  destruct (N.eqb_spec c ch_cr) as [->|Hcr]; [destruct s as [|d s]|destruct (N.eqb_spec c ch_nl) as [->|Hnl]];
    [|destruct (N.eqb_spec d ch_nl) as [->|]|..];
    intros H Hl Hls; (eapply IH in H; [exact H|simpl in *; lia|..]); auto.
  destruct Hl. split; rewrite elem_of_app, list_elem_of_singleton; naive_solver.
Qed.

(** ** Locating and applying chunks *)

(** ** Shared types of [apply-patch/src/lib.rs] *)

Inductive ApplyPatchFileUpdateMode := NormalizeToLf | PreserveLineEndings.
#[global] Instance ApplyPatchFileUpdateMode_eq_dec : EqDecision ApplyPatchFileUpdateMode.
Proof. solve_decision. Defined.

(** [std::io::ErrorKind], the kinds the code distinguishes. *)
Inductive ErrorKind := NotFound | InvalidInput | OtherKind.
#[global] Instance ErrorKind_eq_dec : EqDecision ErrorKind.
Proof. solve_decision. Defined.

(** [std::io::Error] *)
Record io_error := mkIo { io_kind : ErrorKind; io_message : rstr }.
#[global] Instance io_error_eq_dec : EqDecision io_error.
Proof. solve_decision. Defined.

Inductive ApplyPatchError :=
| ApParseError (e : ParseError)
| ApIoError (context : rstr) (source : io_error)
| ApComputeReplacements (message : rstr)
| ApPathUri (message : rstr)
| ApImplicitInvocation.
#[global] Instance ApplyPatchError_eq_dec : EqDecision ApplyPatchError.
Proof. solve_decision. Defined.

(** ** [seek_sequence] *)

(** The typographic characters of [normalise]. *)
Definition normalise_char (c : rchar) : rchar :=
  (if (0x2010 <=? c) && (c <=? 0x2015) || (c =? 0x2212) then 45
   else if (0x2018 <=? c) && (c <=? 0x201B) then 39
   else if (0x201C <=? c) && (c <=? 0x201F) then 34
   else if (c =? 0x00A0) || (0x2002 <=? c) && (c <=? 0x200A) || (c =? 0x202F)
           || (c =? 0x205F) || (c =? 0x3000) then 32
   else c)%N.
Definition normalise (s : rstr) : rstr := normalise_char <$> trim s.

(** All lines of the pattern equal those at [i] after [f]. *)
Definition lines_match (f : rstr → rstr) (ls pattern : list rstr) (i : nat) : bool :=
  bool_decide (f <$> take (length pattern) (drop i ls) = f <$> pattern).

(** [for i in lo..hi { if p(i) { return Some(i) } }] with [hi = lo + n] *)
Fixpoint find_range (p : nat → bool) (lo n : nat) : option nat :=
  match n with
  | 0 => None
  | S n' => if p lo then Some lo else find_range p (S lo) n'
  end.

(** The first result of two passes. *)
Definition or_else {A} (x y : option A) : option A :=
  match x with Some _ => x | None => y end.

Definition seek_start (ls pattern : list rstr) (start : nat) (eof : bool)
    (m : ApplyPatchFileUpdateMode) : nat :=
  if eof && (length pattern <=? length ls) then
    let eof_start := length ls - length pattern in
    match m with
    | NormalizeToLf => eof_start
    | PreserveLineEndings => eof_start `max` start
    end
  else start.

Definition seek_sequence (ls pattern : list rstr) (start : nat) (eof : bool)
    (m : ApplyPatchFileUpdateMode) : option nat :=
  if is_empty pattern then Some start
  else if length ls <? length pattern then None
  else
    let search_start := seek_start ls pattern start eof m in
    let search f := find_range (lines_match f ls pattern) search_start
                      (S (length ls - length pattern) - search_start) in
    or_else (search id) (or_else (search trim_end) (or_else (search trim) (search normalise))).

(** ** [compute_replacements] *)

(** [v.last().is_some_and(String::is_empty)] *)
Definition ends_with_empty (v : list rstr) : bool := last_is is_empty v.
(** [&v[..v.len() - 1]] *)
Definition drop_last {A} (v : list A) : list A := take (length v - 1) v.

(** The loop over [context_line_indices] in the [PreserveLineEndings] arm. *)
Fixpoint context_replacements (start_idx : nat) (pattern_len : nat) (new_slice : list rstr)
    (old_start new_start : nat) (indices : list (nat * nat)) : list Replacement :=
  let finish :=
    if negb (old_start =? pattern_len) || negb (new_start =? length new_slice)
    then [(start_idx + old_start, pattern_len - old_start, drop new_start new_slice)]
    else [] in
  match indices with
  | [] => finish
  | (old_context, new_context) :: indices' =>
      if (pattern_len <=? old_context) || (length new_slice <=? new_context) then finish
      else
        (if negb (old_start =? old_context) || negb (new_start =? new_context)
         then [(start_idx + old_start, old_context - old_start,
                take (new_context - new_start) (drop new_start new_slice))]
         else [])
        ++ context_replacements start_idx pattern_len new_slice
             (S old_context) (S new_context) indices'
  end.

Definition msg_context_not_found (ctx_line path : rstr) : rstr :=
  str "Failed to find context '" ++ ctx_line ++ str "' in " ++ path.
Definition msg_lines_not_found (path : rstr) (old : list rstr) : rstr :=
  str "Failed to find expected lines in " ++ path ++ str ":" ++ [ch_nl] ++ join [ch_nl] old.

(** Where an insertion-only chunk goes. *)
Definition insertion_index (original_lines : list rstr) (m : ApplyPatchFileUpdateMode) : nat :=
  match m with
  | NormalizeToLf =>
      if ends_with_empty original_lines then length original_lines - 1
      else length original_lines
  | PreserveLineEndings => length original_lines
  end.

(** [found], [pattern] and [new_slice] after the retry without the trailing
    empty line. *)
Definition locate_chunk (original_lines : list rstr) (chunk : UpdateFileChunk)
    (line_index : nat) (m : ApplyPatchFileUpdateMode)
    : option nat * list rstr * list rstr :=
  let seek pattern := seek_sequence original_lines pattern line_index (is_end_of_file chunk) m in
  let pattern := old_lines chunk in
  let new_slice := new_lines chunk in
  match seek pattern with
  | Some i => (Some i, pattern, new_slice)
  | None =>
      if ends_with_empty pattern then
        let pattern' := drop_last pattern in
        let new_slice' := if ends_with_empty new_slice then drop_last new_slice else new_slice in
        (seek pattern', pattern', new_slice')
      else (None, pattern, new_slice)
  end.

(** One iteration of the loop over the chunks: the replacements it adds and the
    new [line_index]. *)
Definition chunk_replacements (original_lines : list rstr) (path : rstr)
    (m : ApplyPatchFileUpdateMode) (line_index : nat) (chunk : UpdateFileChunk)
    : result ApplyPatchError (list Replacement * nat) :=
  line_index ←
    match change_context chunk with
    | None => Ok line_index
    | Some ctx_line =>
        match seek_sequence original_lines [ctx_line] line_index false m with
        | Some idx => Ok (S idx)
        | None => Err (ApComputeReplacements (msg_context_not_found ctx_line path))
        end
    end;
  if is_empty (old_lines chunk) then
    Ok ([(insertion_index original_lines m, 0, new_lines chunk)], line_index)
  else
    match locate_chunk original_lines chunk line_index m with
    | (Some start_idx, pattern, new_slice) =>
        let reps :=
          match m with
          | NormalizeToLf => [(start_idx, length pattern, new_slice)]
          | PreserveLineEndings =>
              context_replacements start_idx (length pattern) new_slice 0 0
                (context_line_indices chunk)
          end in
        Ok (reps, start_idx + length pattern)
    | (None, _, _) =>
        Err (ApComputeReplacements (msg_lines_not_found path (old_lines chunk)))
    end.

Fixpoint replacements_loop (original_lines : list rstr) (path : rstr)
    (m : ApplyPatchFileUpdateMode) (line_index : nat) (chunks : list UpdateFileChunk)
    : result ApplyPatchError (list Replacement) :=
  match chunks with
  | [] => Ok []
  | chunk :: chunks' =>
      '(reps, line_index') ← chunk_replacements original_lines path m line_index chunk;
      rest ← replacements_loop original_lines path m line_index' chunks';
      Ok (reps ++ rest)
  end.

(** [sort_by_key(|(index, _, _)| *index)]: stable. *)
Definition rep_start (r : Replacement) : nat := r.1.1.
Definition rep_len (r : Replacement) : nat := r.1.2.
Definition rep_end (r : Replacement) : nat := rep_start r + rep_len r.
Fixpoint insert_by_start (r : Replacement) (l : list Replacement) : list Replacement :=
  match l with
  | [] => [r]
  | x :: l' => if rep_start x <=? rep_start r then x :: insert_by_start r l' else r :: x :: l'
  end.
Definition sort_by_start (l : list Replacement) : list Replacement :=
  foldl (λ acc r, insert_by_start r acc) [] l.

Definition compute_replacements (original_lines : list rstr) (path : rstr)
    (chunks : list UpdateFileChunk) (m : ApplyPatchFileUpdateMode)
    : result ApplyPatchError (list Replacement) :=
  reps ← replacements_loop original_lines path m 0 chunks;
  Ok (sort_by_start reps).

(** ** [apply_replacements] on plain lines *)

(** [for _ in 0..old_len { if start_idx < lines.len() { lines.remove(start_idx) } }] *)
Fixpoint remove_lines (start_idx old_len : nat) (ls : list rstr) : list rstr :=
  match old_len with
  | 0 => ls
  | S n => remove_lines start_idx n
             (if start_idx <? length ls then delete start_idx ls else ls)
  end.

(** [Vec::insert]; [None] is the panic for an index past the end. *)
Definition vec_insert {A} (i : nat) (x : A) (l : list A) : option (list A) :=
  if i <=? length l then Some (take i l ++ x :: drop i l) else None.

(** [for (offset, new_line) in new_segment.iter().enumerate() { lines.insert(start_idx + offset, ..) }] *)
Fixpoint insert_lines (idx : nat) (new_segment : list rstr) (ls : list rstr) : option (list rstr) :=
  match new_segment with
  | [] => Some ls
  | l :: seg => ls' ← vec_insert idx l ls; insert_lines (S idx) seg ls'
  end.

(** [replacements.iter().rev()] *)
Fixpoint apply_line_replacements (ls : list rstr) (replacements : list Replacement)
    : option (list rstr) :=
  match replacements with
  | [] => Some ls
  | (start_idx, old_len, new_segment) :: replacements' =>
      ls' ← apply_line_replacements ls replacements';
      insert_lines start_idx new_segment (remove_lines start_idx old_len ls')
  end.

(** ** [derive_new_contents_from_chunks], once the file is read *)

Definition split_original_lines (original_contents : rstr) : list rstr :=
  let original_lines := split_char ch_nl original_contents in
  if ends_with_empty original_lines then drop_last original_lines else original_lines.

(** The outer option is the panic of the index arithmetic. *)
Definition derive_new_contents (path_text original_contents : rstr)
    (chunks : list UpdateFileChunk) (m : ApplyPatchFileUpdateMode)
    : result ApplyPatchError (option rstr) :=
  match m with
  | NormalizeToLf =>
      let original_lines := split_original_lines original_contents in
      replacements ← compute_replacements original_lines path_text chunks m;
      Ok (new_lines ← apply_line_replacements original_lines replacements;
          let new_lines := if ends_with_empty new_lines then new_lines else new_lines ++ [[]] in
          Some (join [ch_nl] new_lines))
  | PreserveLineEndings =>
      let source_file := parse original_contents in
      let original_lines := line_texts source_file in
      replacements ← compute_replacements original_lines path_text chunks m;
      Ok (into_contents <$> apply_replacements source_file replacements)
  end.

Example seek_trim : seek_sequence [str "a"; str "  b  "; str "c"] [str "b"] 0 false NormalizeToLf = Some 1.
Proof. by vm_compute. Qed.
Example seek_eof : seek_sequence [str "a"; str "b"; str "a"] [str "a"] 0 true NormalizeToLf = Some 2.
Proof. by vm_compute. Qed.
Example derive_lf :
  derive_new_contents (str "f") (nl ["a"; "b"; "c"; ""]%string)
    [mkChunk None [str "b"] [str "x"; str "y"] [] false] NormalizeToLf
  = Ok (Some (nl ["a"; "x"; "y"; "c"; ""]%string)).
Proof. by vm_compute. Qed.
Example derive_crlf :
  derive_new_contents (str "f") (str "a" ++ [13; 10]%N ++ str "b" ++ [10]%N ++ str "c")
    [mkChunk None [str "a"; str "b"] [str "a"; str "x"] [(0, 0)] false] PreserveLineEndings
  = Ok (Some (str "a" ++ [13; 10]%N ++ str "x" ++ [13; 10]%N ++ str "c" ++ [13; 10]%N)).
Proof. by vm_compute. Qed.
