(* ===== verification/FileUpdateProps.v ===== *)
(** Correctness of locating and applying update chunks. *)

From S2P Require Import Prelude PatchParser PatchParserProps FileUpdate.

#[local] Opaque str.

(** ** [seek_sequence] *)

(** The comparisons of the four passes, strictest first. *)
Definition passes : list (rstr → rstr) := [id; trim_end; trim; normalise].

Definition matches_at (f : rstr → rstr) (ls pattern : list rstr) (i : nat) : Prop :=
  f <$> take (length pattern) (drop i ls) = f <$> pattern.

Lemma lines_match_true f ls pattern i : lines_match f ls pattern i = true ↔ matches_at f ls pattern i.
Proof. apply bool_decide_eq_true. Qed.

Lemma find_range_Some p lo n i :
  find_range p lo n = Some i ↔
  lo ≤ i < lo + n ∧ p i = true ∧ ∀ j, lo ≤ j < i → p j = false.
Proof.
  revert lo; induction n as [|n IH]; intros lo; simpl; [naive_solver lia|].
  destruct (p lo) eqn:E.
  - split; [intros [= <-]; split_and!; auto with lia|].
    intros (Hr & Hp & Hm). destruct (decide (i = lo)) as [->|]; [done|].
    rewrite Hm in E by lia. done.
  - rewrite IH. split.
    + intros (Hr & Hp & Hm). split_and!; auto with lia. intros j Hj.
      destruct (decide (j = lo)) as [->|]; [done|]. apply Hm. lia.
    + intros (Hr & Hp & Hm). assert (i ≠ lo) by (intros ->; congruence).
      split_and!; auto with lia.
Qed.

Lemma find_range_None p lo n :
  find_range p lo n = None ↔ ∀ j, lo ≤ j < lo + n → p j = false.
Proof.
  revert lo; induction n as [|n IH]; intros lo; simpl; [naive_solver lia|].
  destruct (p lo) eqn:E.
  - split; [done|]. intros H. by rewrite H in E by lia.
  - rewrite IH. split; intros H j Hj; [|apply H; lia].
    destruct (decide (j = lo)) as [->|]; [done|]. apply H. lia.
Qed.

Definition search_pass (ls pattern : list rstr) (lo : nat) (f : rstr → rstr) : option nat :=
  find_range (lines_match f ls pattern) lo (S (length ls - length pattern) - lo).

Fixpoint first_pass (ls pattern : list rstr) (lo : nat) (fs : list (rstr → rstr)) : option nat :=
  match fs with
  | [] => None
  | f :: fs' => or_else (search_pass ls pattern lo f) (first_pass ls pattern lo fs')
  end.

Lemma seek_sequence_passes ls pattern start eof m :
  pattern ≠ [] → length pattern ≤ length ls →
  seek_sequence ls pattern start eof m =
  first_pass ls pattern (seek_start ls pattern start eof m) passes.
Proof.
  intros Hp Hl. unfold seek_sequence. destruct pattern as [|x p]; [done|].
  destruct (Nat.ltb_spec (length ls) (length (x :: p))) as [|_]; [lia|].
  unfold first_pass, passes, search_pass. simpl is_empty. cbv zeta.
  by destruct (find_range _ _ _), (find_range _ _ _), (find_range _ _ _), (find_range _ _ _).
Qed.

Lemma search_pass_Some ls pattern lo f i :
  length pattern ≤ length ls →
  search_pass ls pattern lo f = Some i →
  lo ≤ i ∧ i + length pattern ≤ length ls ∧ matches_at f ls pattern i ∧
  ∀ j, lo ≤ j < i → ¬ matches_at f ls pattern j.
Proof.
  intros Hl (Hr & Hp & Hm)%find_range_Some. apply lines_match_true in Hp.
  split_and!; [lia|lia|done|]. intros j Hj Hj'%lines_match_true. rewrite Hm in Hj' by lia. done.
Qed.

Lemma search_pass_None ls pattern lo f :
  search_pass ls pattern lo f = None →
  ∀ j, lo ≤ j → j + length pattern ≤ length ls → ¬ matches_at f ls pattern j.
Proof.
  intros H j Hj Hl Hm%lines_match_true. unfold search_pass in H.
  rewrite find_range_None in H. rewrite H in Hm by lia. done.
Qed.

Lemma first_pass_Some ls pattern lo fs i :
  length pattern ≤ length ls →
  first_pass ls pattern lo fs = Some i →
  ∃ k f, fs !! k = Some f ∧ lo ≤ i ∧ i + length pattern ≤ length ls ∧
    matches_at f ls pattern i ∧
    (∀ j, lo ≤ j < i → ¬ matches_at f ls pattern j) ∧
    (∀ k' g j, k' < k → fs !! k' = Some g → lo ≤ j → j + length pattern ≤ length ls →
       ¬ matches_at g ls pattern j).
Proof.
  intros Hl. induction fs as [|f fs IH]; simpl; [done|].
  destruct (search_pass ls pattern lo f) as [i'|] eqn:E; simpl.
  - intros [= ->]. apply search_pass_Some in E as (? & ? & ? & ?); [|done].
    exists 0, f. split_and!; auto. intros; lia.
  - intros (k & g & ? & ? & ? & ? & ? & Hk)%IH. exists (S k), g.
    split_and!; auto. intros [|k'] g' j Hlt Hg; simplify_eq/=.
    + intros. by eapply search_pass_None.
    + intros. apply (Hk k' g' j); auto with lia.
Qed.

Lemma first_pass_None ls pattern lo fs f j :
  first_pass ls pattern lo fs = None → f ∈ fs → lo ≤ j → j + length pattern ≤ length ls →
  ¬ matches_at f ls pattern j.
Proof.
  induction fs as [|g fs IH]; simpl; [by intros _ ?%elem_of_nil|].
  destruct (search_pass ls pattern lo g) eqn:E; [done|]. simpl.
  intros H [->|?]%elem_of_cons; [by apply search_pass_None|auto].
Qed.

(** [seek_sequence] returns the first position, at or after the search start and
    inside the file, where the pattern matches under the strictest of the four
    comparisons that matches anywhere there; it fails exactly when even the
    comparison of normalised lines matches nowhere. *)
Theorem seek_sequence_spec (ls pattern : list rstr) (start : nat) (eof : bool)
    (m : ApplyPatchFileUpdateMode) :
  pattern ≠ [] → length pattern ≤ length ls →
  let lo := seek_start ls pattern start eof m in
  let in_range j := lo ≤ j ∧ j + length pattern ≤ length ls in
  match seek_sequence ls pattern start eof m with
  | Some i =>
      in_range i ∧
      ∃ k f, passes !! k = Some f ∧ matches_at f ls pattern i ∧
        (∀ j, in_range j → j < i → ¬ matches_at f ls pattern j) ∧
        (∀ k' g j, k' < k → passes !! k' = Some g → in_range j → ¬ matches_at g ls pattern j)
  | None => ∀ f j, f ∈ passes → in_range j → ¬ matches_at f ls pattern j
  end.
Proof.
  intros Hp Hl lo in_range. rewrite seek_sequence_passes by done.
  destruct (first_pass _ _ _ _) as [i|] eqn:E.
  - apply first_pass_Some in E as (k & f & Hk & ? & ? & Hm & Hf & Hg); [|done].
    split; [done|]. exists k, f. split_and!; auto.
    + intros j [? ?] ?. apply Hf. done.
    + intros k' g j ? ? [? ?]. by apply (Hg k').
  - intros f j Hf [? ?]. by eapply first_pass_None.
Qed.

Lemma seek_sequence_spec_witness :
  let ls := [str "a"; str " b "; str "b"] in
  seek_sequence ls [str "b"] 0 false NormalizeToLf = Some 2 ∧
  ∃ k f, passes !! k = Some f ∧ matches_at f ls [str "b"] 2.
Proof.
  intros ls.
  assert (seek_sequence ls [str "b"] 0 false NormalizeToLf = Some 2) as H by (vm_compute; reflexivity).
  split; [exact H|].
  pose proof (seek_sequence_spec ls [str "b"] 0 false NormalizeToLf ltac:(done) ltac:(simpl; lia)) as T.
  cbv zeta in T. rewrite H in T. destruct T as (_ & k & f & Hk & Hm & _). exists k, f. done.
Defined.

(** What the callers use. *)
Lemma seek_sequence_bounds ls pattern start eof m i :
  seek_sequence ls pattern start eof m = Some i →
  (pattern = [] ∧ i = start) ∨
  (pattern ≠ [] ∧ seek_start ls pattern start eof m ≤ i ∧ i + length pattern ≤ length ls).
Proof.
  intros H. destruct (decide (pattern = [])) as [->|Hp]; [left; by injection H as <-|right].
  destruct (decide (length pattern ≤ length ls)) as [Hl|Hl].
  - rewrite seek_sequence_passes in H by done.
    by apply first_pass_Some in H as (k & f & _ & ? & ? & _).
  - unfold seek_sequence in H. destruct pattern; [done|]. simpl is_empty in H. cbv iota in H.
    destruct (Nat.ltb_spec (length ls) (length (l :: pattern))); [done|lia].
Qed.

(** ** Replacements are ordered and disjoint *)

(** [a] lies entirely before [b]. *)
Definition before (a b : Replacement) : Prop := rep_end a ≤ rep_start b.

(** Source-ordered, non-overlapping replacements inside a file of [len] lines. *)
Definition replacements_ok (len : nat) (reps : list Replacement) : Prop :=
  StronglySorted before reps ∧ Forall (λ r, rep_end r ≤ len) reps.

(** How two replacements of the unsorted list are related: only an insertion at
    the end of the file may come too early. *)
Definition before_or_append (len : nat) (a b : Replacement) : Prop :=
  before a b ∨ (rep_start a = len ∧ rep_len a = 0).

Lemma insert_by_start_Forall (P : Replacement → Prop) r l :
  Forall P (insert_by_start r l) ↔ P r ∧ Forall P l.
Proof.
  induction l as [|x l IH]; simpl; [rewrite Forall_singleton, Forall_nil; naive_solver|].
  destruct (_ <=? _); rewrite ?Forall_cons, ?IH; naive_solver.
Qed.

Lemma insert_by_start_ok len r l :
  StronglySorted before l → Forall (λ x, before_or_append len x r) l →
  Forall (λ x, rep_end x ≤ len) l → rep_end r ≤ len →
  StronglySorted before (insert_by_start r l).
Proof.
  intros Hs. induction Hs as [|x l Hs IH Hx]; intros HR He Hr; simpl.
  - repeat constructor.
  - apply Forall_cons in HR as [HRx HR]. apply Forall_cons in He as [Hex He].
    destruct (Nat.leb_spec (rep_start x) (rep_start r)) as [Hle|Hlt].
    + constructor; [by apply IH|]. apply insert_by_start_Forall. split; [|done].
      destruct HRx as [?|[Hl H0]]; [done|]. unfold before, rep_end in *. lia.
    + assert (rep_start x = len) as Hxl.
      { destruct HRx as [HRx|[? _]]; [|done]. unfold before, rep_end in *. lia. }
      constructor; [by constructor|]. apply Forall_cons. split.
      { unfold before. lia. }
      eapply Forall_impl; [apply Hx|]. unfold before, rep_end in *. intros y Hy. lia.
Qed.

Lemma sort_by_start_snoc l r : sort_by_start (l ++ [r]) = insert_by_start r (sort_by_start l).
Proof. unfold sort_by_start. by rewrite foldl_snoc. Qed.

Lemma sort_by_start_Forall P l : Forall P (sort_by_start l) ↔ Forall P l.
Proof.
  induction l as [|r l IH] using rev_ind; [done|].
  rewrite sort_by_start_snoc, insert_by_start_Forall, Forall_app, Forall_singleton. naive_solver.
Qed.

Lemma StronglySorted_snoc {A} (R : A → A → Prop) l x :
  StronglySorted R (l ++ [x]) ↔ StronglySorted R l ∧ Forall (λ y, R y x) l.
Proof.
  induction l as [|y l IH]; simpl.
  - split; [repeat constructor|]. intros _. repeat constructor.
  - split.
    + inversion 1 as [|? ? Hs Hf]; subst. apply IH in Hs as [? ?].
      apply Forall_app in Hf as [? Hf]. apply Forall_cons in Hf as [? _].
      split; constructor; auto.
    + intros [Hs Hf]. inversion Hs; subst. apply Forall_cons in Hf as [? ?].
      constructor; [by apply IH|]. apply Forall_app. split; [done|]. by apply Forall_singleton.
Qed.

Lemma sort_by_start_ok len l :
  StronglySorted (before_or_append len) l → Forall (λ r, rep_end r ≤ len) l →
  replacements_ok len (sort_by_start l).
Proof.
  intros Hs Hf. split; [|by apply sort_by_start_Forall].
  induction l as [|r l IH] using rev_ind; [constructor|].
  apply StronglySorted_snoc in Hs as [Hs HR]. apply Forall_app in Hf as [Hf Hr].
  apply Forall_cons in Hr as [Hr _].
  rewrite sort_by_start_snoc. apply (insert_by_start_ok len); auto.
  all: by apply sort_by_start_Forall.
Qed.

(** The replacements of one chunk cover [lo, hi) in order. *)
Definition chain (lo hi : nat) (reps : list Replacement) : Prop :=
  StronglySorted before reps ∧ Forall (λ r, lo ≤ rep_start r ∧ rep_end r ≤ hi) reps.

Lemma chain_cons lo mid hi r reps :
  lo ≤ rep_start r → rep_end r ≤ mid → mid ≤ hi → chain mid hi reps → chain lo hi (r :: reps).
Proof.
  intros Hr Hm Hh [Hs Hf]. split; constructor; [done| |lia|];
    (eapply Forall_impl; [exact Hf|]); intros x; unfold before, rep_end in *; simpl; lia.
Qed.

Lemma chain_weaken lo lo' hi reps : lo' ≤ lo → chain lo hi reps → chain lo' hi reps.
Proof.
  intros Hl [Hs Hf]. split; [done|]. eapply Forall_impl; [done|]. simpl. lia.
Qed.

Lemma chain_nil lo hi : chain lo hi [].
Proof. by split; constructor. Qed.

Lemma chain_one lo hi r : lo ≤ rep_start r → rep_end r ≤ hi → chain lo hi [r].
Proof. intros. split; repeat constructor; auto. Qed.

(** The context indices a parsed chunk carries increase on both sides. *)
Fixpoint increasing (o n : nat) (indices : list (nat * nat)) : Prop :=
  match indices with
  | [] => True
  | (o', n') :: indices' => o ≤ o' ∧ n ≤ n' ∧ increasing (S o') (S n') indices'
  end.

Lemma increasing_weaken o n o' n' indices :
  o ≤ o' → n ≤ n' → increasing o' n' indices → increasing o n indices.
Proof. destruct indices as [|[] ?]; simpl; [done|]. intros ?? (? & ? & ?). split_and!; [lia|lia|done]. Qed.

Lemma ctx_indices_increasing o n ls : increasing o n (ctx_indices o n ls).
Proof.
  revert o n; induction ls as [|[] ls IH]; intros o n; simpl; auto.
  - eapply increasing_weaken; [| |apply IH]; lia.
  - eapply increasing_weaken; [| |apply IH]; lia.
Qed.

Lemma context_replacements_chain start_idx plen new_slice o n indices :
  increasing o n indices → o ≤ plen → n ≤ length new_slice →
  chain (start_idx + o) (start_idx + plen)
    (context_replacements start_idx plen new_slice o n indices).
Proof.
  revert o n; induction indices as [|[oc nc] indices IH]; intros o n Hi Ho Hn; simpl.
  - case_match; [|apply chain_nil]. apply chain_one; unfold rep_end, rep_start, rep_len; simpl; lia.
  - destruct Hi as (Hoc & Hnc & Hi).
    destruct (Nat.leb_spec plen oc); simpl.
    { case_match; [|apply chain_nil]. apply chain_one; unfold rep_end, rep_start, rep_len; simpl; lia. }
    destruct (Nat.leb_spec (length new_slice) nc); simpl.
    { case_match; [|apply chain_nil]. apply chain_one; unfold rep_end, rep_start, rep_len; simpl; lia. }
    specialize (IH (S oc) (S nc) Hi ltac:(lia) ltac:(lia)).
    case_match; simpl; [|eapply chain_weaken; [|exact IH]; lia].
    eapply chain_cons; [| | |exact IH]; unfold rep_end, rep_start, rep_len; simpl; lia.
Qed.

Lemma locate_chunk_Some ls chunk li m i pattern new_slice :
  locate_chunk ls chunk li m = (Some i, pattern, new_slice) →
  seek_sequence ls pattern li (is_end_of_file chunk) m = Some i.
Proof.
  unfold locate_chunk. destruct (seek_sequence _ _ _ _ _) eqn:E; [by intros [= <- <- <-]|].
  case_match; [|done]. by intros [= E' <- <-].
Qed.

(** In [PreserveLineEndings] mode, one chunk: the replacements and the next
    [line_index]. *)
Lemma chunk_replacements_preserve ls path li chunk reps li' :
  chunk_built chunk → li ≤ length ls →
  chunk_replacements ls path PreserveLineEndings li chunk = Ok (reps, li') →
  li ≤ li' ≤ length ls ∧ Forall (λ r, rep_end r ≤ length ls) reps ∧
  (chain li li' reps ∨ ∃ new, reps = [(length ls, 0, new)]).
Proof.
  intros (cl & Ho & Hn & Hi) Hli (li1 & Hctx & H)%result_bind_Ok.
  assert (li ≤ li1 ≤ length ls) as Hli1.
  { destruct (change_context chunk); [|by simplify_eq].
    destruct (seek_sequence _ _ _ _ _) eqn:E; [|done]. simplify_eq.
    apply seek_sequence_bounds in E as [[? _]|(_ & E1 & E2)]; [done|].
    unfold seek_start in E1. simpl in *. lia. }
  destruct (is_empty (old_lines chunk)).
  - injection H as <- <-. split; [done|]. split; [|by right; eexists].
    apply Forall_singleton. unfold rep_end, rep_start, rep_len. simpl. lia.
  - destruct (locate_chunk _ _ _ _) as [[[i|] pattern] new_slice] eqn:El; [|done].
    injection H as <- <-. apply locate_chunk_Some in El.
    assert (li1 ≤ i ∧ i + length pattern ≤ length ls) as [Hi1 Hi2].
    { apply seek_sequence_bounds in El as [[-> ->]|(_ & E1 & E2)]; [simpl; lia|].
      split; [|done]. etrans; [|exact E1]. unfold seek_start. destruct (_ && _); lia. }
    assert (chain li1 (i + length pattern) (context_replacements i (length pattern) new_slice 0 0
      (context_line_indices chunk))) as Hc.
    { eapply chain_weaken; [|apply context_replacements_chain; [|lia..]]; [lia|].
      rewrite Hi. apply ctx_indices_increasing. }
    split; [lia|]. split.
    + eapply Forall_impl; [apply Hc|]. simpl. lia.
    + left. eapply chain_weaken; [|exact Hc]. lia.
Qed.

Lemma StronglySorted_weaken {A} (R S : A → A → Prop) l :
  (∀ x y, R x y → S x y) → StronglySorted R l → StronglySorted S l.
Proof.
  intros HRS. induction 1 as [|x l _ IH Hx]; constructor; [done|].
  eapply Forall_impl; [exact Hx|]. auto.
Qed.

Lemma StronglySorted_app_2 {A} (R : A → A → Prop) l k :
  StronglySorted R l → StronglySorted R k → Forall (λ x, Forall (R x) k) l →
  StronglySorted R (l ++ k).
Proof.
  intros Hl Hk. induction Hl as [|x l Hl IH Hx]; simpl; [done|].
  intros [H1 H2]%Forall_cons. constructor; [auto|]. apply Forall_app. auto.
Qed.

Lemma replacements_loop_preserve ls path li chunks reps :
  Forall chunk_built chunks → li ≤ length ls →
  replacements_loop ls path PreserveLineEndings li chunks = Ok reps →
  StronglySorted (before_or_append (length ls)) reps ∧
  Forall (λ r, li ≤ rep_start r ∧ rep_end r ≤ length ls) reps.
Proof.
  intros Hb. revert li reps. induction Hb as [|chunk chunks Hc _ IH]; intros li reps Hli; simpl.
  { intros [= <-]. split; constructor. }
  intros ([reps1 li1] & H1 & H)%result_bind_Ok.
  apply result_bind_Ok in H as (rest & H2 & H). injection H as <-.
  apply chunk_replacements_preserve in H1 as (Hr & Hf & Hk); [|done|done].
  apply IH in H2 as [Hs2 Hf2]; [|lia]. split.
  - apply StronglySorted_app_2; [|done|].
    + destruct Hk as [[Hk _]|[new ->]]; [|repeat constructor].
      eapply StronglySorted_weaken; [|exact Hk]. by left.
    + destruct Hk as [[_ Hk]|[new ->]].
      * eapply Forall_impl; [exact Hk|]. simpl. intros r Hr'.
        eapply Forall_impl; [exact Hf2|]. simpl. intros x Hx. left. unfold before. lia.
      * apply Forall_singleton, Forall_true. intros x. by right.
  - apply Forall_app. split.
    + destruct Hk as [[_ Hk]|[new ->]].
      * eapply Forall_impl; [exact Hk|]. simpl. lia.
      * apply Forall_singleton. unfold rep_end, rep_start, rep_len; simpl. lia.
    + eapply Forall_impl; [exact Hf2|]. simpl. lia.
Qed.

Lemma compute_replacements_preserve ls path chunks reps :
  Forall chunk_built chunks →
  compute_replacements ls path chunks PreserveLineEndings = Ok reps →
  replacements_ok (length ls) reps.
Proof.
  intros Hb (reps0 & H & [= <-])%result_bind_Ok.
  apply replacements_loop_preserve in H as [Hs Hf]; [|done|lia].
  apply sort_by_start_ok; [done|]. eapply Forall_impl; [done|]. simpl. lia.
Qed.

(** In line-ending preserving mode, the replacements computed for a patch the
    parser accepts are source-ordered, do not overlap and stay inside the file,
    which is the precondition [SourceFile::apply_replacements] asserts. *)
Theorem compute_replacements_ordered (patch path : rstr) (args : ApplyPatchArgs)
    (p : rstr) (mv : option rstr) (chunks : list UpdateFileChunk)
    (ls : list rstr) (reps : list Replacement) :
  parse_patch patch = Ok args →
  UpdateFile p mv chunks ∈ args_hunks args →
  compute_replacements ls path chunks PreserveLineEndings = Ok reps →
  replacements_ok (length ls) reps.
Proof.
  intros Hp Hin. apply compute_replacements_preserve.
  apply parse_patch_hunks_wf in Hp. rewrite Forall_forall in Hp.
  destruct (Hp _ Hin) as [_ Hc]. eapply Forall_impl; [exact Hc|]. by intros c [? _].
Qed.
