(* ===== verification/SpliceProps.v ===== *)
(** What applying the replacements does to a file: both implementations of
    [apply_replacements] against one declarative splice, and the effect of a
    chunk on the lines it matched. *)

From S2P Require Import Prelude PatchParser PatchParserProps FileUpdate FileUpdateProps.

#[local] Opaque str.

(** ** The reference: copy the gaps, emit the new segments *)

(** [ls] is the file from line [pos] on; [f] makes a line from its text. *)
Fixpoint splice {A} (f : rstr → A) (pos : nat) (ls : list A) (reps : list Replacement) : list A :=
  match reps with
  | [] => ls
  | (start_idx, old_len, new_segment) :: reps' =>
      take (start_idx - pos) ls ++ (f <$> new_segment)
      ++ splice f (start_idx + old_len) (drop (start_idx - pos + old_len) ls) reps'
  end.

(** Ordered and disjoint from [pos] on. *)
Fixpoint ordered_from (pos len : nat) (reps : list Replacement) : Prop :=
  match reps with
  | [] => pos ≤ len
  | r :: reps' => pos ≤ rep_start r ∧ ordered_from (rep_end r) len reps'
  end.

Lemma ordered_from_le pos len reps : ordered_from pos len reps → pos ≤ len.
Proof.
  revert pos; induction reps as [|r reps IH]; intros pos; simpl; [done|].
  intros [? ?%IH]. unfold rep_end in *. lia.
Qed.

Lemma replacements_ok_ordered len reps : replacements_ok len reps → ordered_from 0 len reps.
Proof.
  intros [Hs Hf]. assert (∀ pos, pos ≤ len → Forall (λ r, pos ≤ rep_start r) reps →
    ordered_from pos len reps) as H; [|apply H; [lia|apply Forall_true; lia]].
  induction Hs as [|r reps Hs IH Hr]; intros pos Hpos Hlo; simpl; [done|].
  apply Forall_cons in Hf as [Hf1 Hf]. apply Forall_cons in Hlo as [Hlo1 _].
  split; [done|]. by apply IH.
Qed.

Lemma splice_fmap {A B} (f : rstr → A) (g : A → B) pos ls reps :
  g <$> splice f pos ls reps = splice (g ∘ f) pos (g <$> ls) reps.
Proof.
  revert pos ls; induction reps as [|[[s o] new] reps IH]; intros pos ls; simpl; [done|].
  rewrite !fmap_app, IH, <- list_fmap_compose, fmap_take, fmap_drop. done.
Qed.

(** *** The forward pass of [SourceFile::apply_replacements] *)

Lemma apply_loop_splice pref src out pos reps :
  ordered_from pos (pos + length src) reps →
  apply_loop pref src out pos reps =
  Some (out ++ splice (λ t, mkLine t (Some pref)) pos src reps).
Proof.
  revert src out pos; induction reps as [|[[s o] new] reps IH]; intros src out pos; simpl; [done|].
  unfold rep_end, rep_start, rep_len. simpl. intros [Hs Ho].
  destruct (Nat.ltb_spec s pos); [lia|].
  pose proof (ordered_from_le _ _ _ Ho) as Hle.
  rewrite drop_drop. rewrite IH.
  - by rewrite <- !(assoc_L app).
  - rewrite length_drop. by replace (s + o + (length src - (s - pos + o))) with (pos + length src) by lia.
Qed.

(** *** The backward pass of [file_update::apply_replacements] *)

Lemma remove_lines_drop start n ls :
  start + n ≤ length ls →
  remove_lines start n ls = take start ls ++ drop (start + n) ls.
Proof.
  revert ls; induction n as [|n IH]; intros ls Hl; simpl.
  - by rewrite Nat.add_0_r, take_drop.
  - destruct (Nat.ltb_spec start (length ls)); [|lia].
    rewrite IH by (rewrite length_delete; [lia|by apply lookup_lt_is_Some_2]).
    rewrite delete_take_drop, take_app_le by (rewrite length_take; lia).
    rewrite take_take, Nat.min_id. f_equal.
    rewrite drop_app_ge by (rewrite length_take; lia).
    rewrite drop_drop, length_take. f_equal. lia.
Qed.

Lemma insert_lines_app idx seg ls :
  idx ≤ length ls → insert_lines idx seg ls = Some (take idx ls ++ seg ++ drop idx ls).
Proof.
  revert idx ls; induction seg as [|l seg IH]; intros idx ls Hl; simpl.
  - by rewrite take_drop.
  - unfold vec_insert. destruct (Nat.leb_spec idx (length ls)); [|lia]. simpl.
    rewrite IH by (rewrite length_app, length_take, length_cons, length_drop; lia).
    rewrite take_app_ge, drop_app_ge by (rewrite length_take; lia).
    rewrite length_take. replace (S idx - idx `min` length ls) with 1 by lia. simpl.
    by rewrite take_0, drop_0, <- (assoc_L app).
Qed.

Lemma apply_line_replacements_splice pos ls reps :
  ordered_from pos (length ls) reps →
  ∃ tail, apply_line_replacements ls reps = Some (take pos ls ++ tail) ∧
          tail = splice id pos (drop pos ls) reps.
Proof.
  revert pos; induction reps as [|[[s o] new] reps IH]; intros pos; simpl.
  { intros Hp. eexists; split; [|done]. by rewrite take_drop. }
  unfold rep_end, rep_start, rep_len. simpl. intros [Hs Ho].
  pose proof (ordered_from_le _ _ _ Ho) as Hle.
  destruct (IH _ Ho) as (tail & -> & Et). simpl. eexists; split; [|done].
  assert (length (take s ls) = s) as Ls by (rewrite length_take; lia).
  assert (length (take (s + o) ls) = s + o) as Lso by (rewrite length_take; lia).
  rewrite remove_lines_drop by (rewrite length_app; lia).
  rewrite (drop_app_length' _ _ (s + o)), take_app_le, take_take by lia.
  replace (s `min` (s + o)) with s by lia.
  rewrite insert_lines_app by (rewrite length_app; lia).
  rewrite take_app_length', drop_app_length', list_fmap_id by done.
  rewrite drop_drop. replace (pos + (s - pos + o)) with (s + o) by lia. rewrite <- Et.
  rewrite !(assoc_L app). f_equal. f_equal.
  rewrite take_drop_commute. replace (pos + (s - pos)) with s by lia.
  rewrite <- (take_drop pos (take s ls)) at 1. rewrite take_take.
  by replace (pos `min` s) with pos by lia.
Qed.

Lemma apply_line_replacements_ok ls reps :
  replacements_ok (length ls) reps →
  apply_line_replacements ls reps = Some (splice id 0 ls reps).
Proof.
  intros H%replacements_ok_ordered.
  destruct (apply_line_replacements_splice 0 ls reps H) as (tail & -> & ->).
  by rewrite take_0, drop_0.
Qed.

Lemma apply_replacements_ok f reps :
  replacements_ok (length (sf_lines f)) reps →
  apply_replacements f reps =
  Some (mkSource (terminate_line (preferred_ending f) <$>
          splice (λ t, mkLine t (Some (preferred_ending f))) 0 (sf_lines f) reps)
        (preferred_ending f)).
Proof.
  intros H%replacements_ok_ordered. unfold apply_replacements.
  by rewrite apply_loop_splice.
Qed.

(** The two implementations of [apply_replacements] agree: on ordered, disjoint
    replacements the line-ending preserving forward pass never underflows, the
    remove-and-insert backward pass never panics, and they produce the same line
    texts, those of the declarative splice. *)
Theorem apply_replacements_agree (f : SourceFile) (reps : list Replacement) :
  replacements_ok (length (line_texts f)) reps →
  ∃ f', apply_replacements f reps = Some f' ∧
        apply_line_replacements (line_texts f) reps = Some (line_texts f') ∧
        line_texts f' = splice id 0 (line_texts f) reps.
Proof.
  intros H. assert (H' := H). unfold line_texts in H'. rewrite length_fmap in H'.
  rewrite (apply_replacements_ok _ _ H'), (apply_line_replacements_ok _ _ H).
  eexists. split_and!; [done|f_equal; symmetry|]; unfold line_texts; simpl;
    rewrite <- list_fmap_compose;
    change (text ∘ terminate_line (preferred_ending f)) with text; by rewrite splice_fmap.
Qed.

Lemma apply_replacements_agree_witness :
  replacements_ok 3 [(0, 1, [str "x"]); (2, 0, [str "y"; str "z"])] ∧
  apply_line_replacements (line_texts (parse (nl ["a"; "b"; "c"]%string)))
    [(0, 1, [str "x"]); (2, 0, [str "y"; str "z"])] = Some [str "x"; str "b"; str "y"; str "z"; str "c"].
Proof.
  assert (replacements_ok 3 [(0, 1, [str "x"]); (2, 0, [str "y"; str "z"])]) as H.
  { split; repeat constructor; unfold before, rep_end, rep_start, rep_len; simpl; lia. }
  split; [exact H|].
  destruct (apply_replacements_agree (parse (nl ["a"; "b"; "c"]%string)) _ H) as (f' & E & -> & ->).
  vm_compute. reflexivity.
Defined.

(** ** The effect of one chunk in [PreserveLineEndings] mode *)

(** Read the change lines against the file: a context line keeps the line of
    the file, a removed line drops it, an added line is inserted. *)
Fixpoint merge {A} (f : rstr → A) (ls : list A) (cl : list change_line) : list A :=
  match cl with
  | [] => ls
  | CContext _ :: cl' => take 1 ls ++ merge f (drop 1 ls) cl'
  | CDel _ :: cl' => merge f (drop 1 ls) cl'
  | CAdd l :: cl' => f l :: merge f ls cl'
  end.

Definition is_context (cl : change_line) : bool :=
  match cl with CContext _ => true | _ => false end.
Definition no_context (cl : list change_line) : Prop := Forall (λ c, is_context c = false) cl.

Lemma merge_no_context {A} (f : rstr → A) ls pre rest :
  no_context pre →
  merge f ls (pre ++ rest) = (f <$> news pre) ++ merge f (drop (length (olds pre)) ls) rest.
Proof.
  intros H. revert ls. induction H as [|c pre Hc _ IH]; intros ls; simpl.
  - by rewrite drop_0.
  - destruct c; simpl in *; [done|by rewrite IH|]. rewrite IH. by rewrite drop_drop.
Qed.

Lemma no_context_nil pre : no_context pre → olds pre = [] → news pre = [] → pre = [].
Proof. destruct 1 as [|[] ? ? ?]; simpl in *; done. Qed.

Lemma chain_ordered lo hi len reps : chain lo hi reps → lo ≤ len → hi ≤ len → ordered_from lo len reps.
Proof.
  intros [Hs Hf] Hlo Hhi. revert lo Hlo Hf. induction Hs as [|r reps Hs IH Hr]; intros lo Hlo Hf; simpl; [done|].
  apply Forall_cons in Hf as [[? ?] Hf]. split; [done|]. apply IH; [lia|].
  rewrite !Forall_forall in *. intros x Hx. split; [by apply Hr|by apply Hf].
Qed.

Lemma splice_advance {A} (f : rstr → A) pos pos' len ls reps :
  pos ≤ pos' → ordered_from pos' len reps →
  splice f pos (drop pos ls) reps =
  take (pos' - pos) (drop pos ls) ++ splice f pos' (drop pos' ls) reps.
Proof.
  intros Hp. destruct reps as [|[[s o] new] reps]; simpl.
  - intros _. replace (drop pos' ls) with (drop (pos' - pos) (drop pos ls)); [by rewrite take_drop|].
    rewrite drop_drop. f_equal. lia.
  - unfold rep_end, rep_start, rep_len. simpl. intros [Hs _].
    rewrite !drop_drop. replace (pos + (s - pos + o)) with (s + o) by lia.
    replace (pos' + (s - pos' + o)) with (s + o) by lia.
    rewrite !(assoc_L app). f_equal. f_equal.
    replace (s - pos) with ((pos' - pos) + (s - pos')) by lia.
    rewrite <- take_take_drop, drop_drop. do 2 f_equal. f_equal. lia.
Qed.

(** Emitting the changes [pre] made since the last context line. *)
Lemma splice_emit {A} (f : rstr → A) (ls : list A) i o n pre seg reps :
  no_context pre → seg = news pre →
  splice f (i + o) (drop (i + o) ls)
    ((if negb (o =? o + length (olds pre)) || negb (n =? n + length (news pre))
      then [(i + o, length (olds pre), seg)] else []) ++ reps) =
  (f <$> news pre)
  ++ splice f (i + (o + length (olds pre))) (drop (i + (o + length (olds pre))) ls) reps.
Proof.
  intros Hpre ->.
  destruct (Nat.eqb_spec o (o + length (olds pre))) as [E1|E1],
    (Nat.eqb_spec n (n + length (news pre))) as [E2|E2]; cbn [negb orb app splice].
  1: { assert (pre = []) as -> by (apply no_context_nil; [done|apply nil_length_inv; lia..]).
       simpl. by rewrite Nat.add_0_r. }
  all: rewrite Nat.sub_diag, take_0, drop_drop; simpl; by rewrite Nat.add_assoc.
Qed.

(** The statement of [context_replacements_merge] for the lines [rest], and its
    step at a context line. *)
Definition merges {A} (f : rstr → A) (ls : list A) i ns rest : Prop :=
  ∀ pre o n,
  no_context pre → i + (o + length (olds (pre ++ rest))) ≤ length ls →
  drop n ns = news (pre ++ rest) → n ≤ length ns →
  splice f (i + o) (drop (i + o) ls)
    (context_replacements i (o + length (olds (pre ++ rest))) ns o n
      (ctx_indices (o + length (olds pre)) (n + length (news pre)) rest)) =
  merge f (drop (i + o) ls) (pre ++ rest).

Lemma context_step {A} (f : rstr → A) (ls : list A) i ns l rest pre o n :
  merges f ls i ns rest → no_context pre →
  i + (o + length (olds (pre ++ CContext l :: rest))) ≤ length ls →
  drop n ns = news (pre ++ CContext l :: rest) → n ≤ length ns →
  splice f (i + o) (drop (i + o) ls)
    (context_replacements i (o + length (olds (pre ++ CContext l :: rest))) ns o n
      (ctx_indices (o + length (olds pre)) (n + length (news pre)) (CContext l :: rest))) =
  merge f (drop (i + o) ls) (pre ++ CContext l :: rest).
Proof.
  intros IH Hpre Hl Hns Hn.
  assert (length (olds (pre ++ CContext l :: rest)) = length (olds pre) + S (length (olds rest))) as Lo
    by (rewrite olds_app, length_app; done).
  assert (length ns = n + length (news pre) + S (length (news rest))) as Lns.
  { apply (f_equal length) in Hns. rewrite length_drop, news_app, length_app in Hns. simpl in Hns. lia. }
  set (plen := o + length (olds (pre ++ CContext l :: rest))) in *.
  specialize (IH [] (S (o + length (olds pre))) (S (n + length (news pre))) ltac:(constructor)).
  cbn [olds news app length] in IH. rewrite !Nat.add_0_r in IH.
  replace (S (o + length (olds pre)) + length (olds rest)) with plen in IH by lia.
  assert (drop (S (n + length (news pre))) ns = news rest) as Hns'.
  { replace (S (n + length (news pre))) with (n + (length (news pre) + 1)) by lia.
    rewrite <- drop_drop, Hns, news_app, <- drop_drop, drop_app_length. done. }
  specialize (IH ltac:(lia) Hns' ltac:(lia)). cbn [ctx_indices context_replacements].
  destruct (Nat.leb_spec plen (o + length (olds pre))); [lia|].
  destruct (Nat.leb_spec (length ns) (n + length (news pre))); [lia|]. cbn [orb].
  replace (o + length (olds pre) - o) with (length (olds pre)) by lia.
  replace (n + length (news pre) - n) with (length (news pre)) by lia.
  rewrite splice_emit, merge_no_context; [|done..|by rewrite Hns, news_app, take_app_length].
  f_equal. cbn [merge]. rewrite drop_drop, <- Nat.add_assoc.
  rewrite (splice_advance f _ (i + S (o + length (olds pre))) (length ls)); [|lia|].
  - rewrite IH, drop_drop. do 3 f_equal; lia.
  - apply (chain_ordered _ (i + plen)); [|lia..].
    apply context_replacements_chain; [apply ctx_indices_increasing|lia..].
Qed.

Lemma context_replacements_merge {A} (f : rstr → A) (ls : list A) i ns rest :
  ∀ pre o n,
  no_context pre → i + (o + length (olds (pre ++ rest))) ≤ length ls →
  drop n ns = news (pre ++ rest) → n ≤ length ns →
  splice f (i + o) (drop (i + o) ls)
    (context_replacements i (o + length (olds (pre ++ rest))) ns o n
      (ctx_indices (o + length (olds pre)) (n + length (news pre)) rest)) =
  merge f (drop (i + o) ls) (pre ++ rest).
Proof.
  induction rest as [|c rest IH]; intros pre o n Hpre Hl Hns Hn.
  - rewrite app_nil_r in *. cbn [ctx_indices context_replacements].
    assert (length ns = n + length (news pre)) as -> by (rewrite <- Hns, length_drop; lia).
    pose proof (merge_no_context f (drop (i + o) ls) pre [] Hpre) as Hm.
    pose proof (splice_emit f ls i o n pre (drop n ns) [] Hpre Hns) as Hs.
    rewrite app_nil_r in Hm, Hs. rewrite Hm. cbn [splice merge] in *.
    rewrite drop_drop. replace (o + length (olds pre) - o) with (length (olds pre)) by lia.
    by rewrite <- Nat.add_assoc.
  - destruct c as [l|l|l].
    + by apply (context_step f ls i ns l rest pre o n IH).
    + change (CAdd l :: rest) with ([CAdd l] ++ rest) in *. rewrite (assoc_L app) in *.
      specialize (IH (pre ++ [CAdd l]) o n). rewrite <- IH; try done.
      * rewrite !olds_app, !news_app. simpl. rewrite app_nil_r, (length_app (news pre)). simpl.
        by replace (n + (length (news pre) + 1)) with (S (n + length (news pre))) by lia.
      * apply Forall_app. split; [done|]. by apply Forall_singleton.
    + change (CDel l :: rest) with ([CDel l] ++ rest) in *. rewrite (assoc_L app) in *.
      specialize (IH (pre ++ [CDel l]) o n). rewrite <- IH; try done.
      * rewrite !olds_app, !news_app. simpl. rewrite app_nil_r, (length_app (olds pre) [l]). simpl.
        by replace (o + (length (olds pre) + 1)) with (S (o + length (olds pre))) by lia.
      * apply Forall_app. split; [done|]. by apply Forall_singleton.
Qed.

(** ** One-chunk updates, end to end *)

Lemma insert_by_start_last r l :
  Forall (λ x, rep_start x ≤ rep_start r) l → insert_by_start r l = l ++ [r].
Proof.
  induction 1 as [|x l Hx _ IH]; simpl; [done|].
  destruct (Nat.leb_spec (rep_start x) (rep_start r)); [by rewrite IH|lia].
Qed.

Lemma sort_by_start_id l : StronglySorted before l → sort_by_start l = l.
Proof.
  induction l as [|r l IH] using rev_ind; [done|].
  intros [Hs Hf]%StronglySorted_snoc. rewrite sort_by_start_snoc, IH by done.
  apply insert_by_start_last. eapply Forall_impl; [exact Hf|].
  unfold before, rep_end. simpl. lia.
Qed.

Lemma locate_chunk_direct ls chunk li m i :
  seek_sequence ls (old_lines chunk) li (is_end_of_file chunk) m = Some i →
  locate_chunk ls chunk li m = (Some i, old_lines chunk, new_lines chunk).
Proof. unfold locate_chunk. by intros ->. Qed.

(** The effect of a chunk on a file whose line endings are preserved: where its
    old lines are found, context lines stay the lines of the file (text and
    ending), removed lines disappear, added lines appear with the file's
    preferred ending; every other line of the file is kept. *)
Theorem preserve_chunk_effect (f : SourceFile) (path : rstr) (chunk : UpdateFileChunk)
    (cl : list change_line) (i : nat) :
  old_lines chunk = olds cl → new_lines chunk = news cl →
  context_line_indices chunk = ctx_indices 0 0 cl →
  change_context chunk = None → olds cl ≠ [] →
  seek_sequence (line_texts f) (olds cl) 0 (is_end_of_file chunk) PreserveLineEndings = Some i →
  ∃ reps,
    compute_replacements (line_texts f) path [chunk] PreserveLineEndings = Ok reps ∧
    apply_replacements f reps =
    Some (mkSource
      (terminate_line (preferred_ending f) <$>
        take i (sf_lines f)
        ++ merge (λ t, mkLine t (Some (preferred_ending f))) (drop i (sf_lines f)) cl)
      (preferred_ending f)).
Proof.
  intros Ho Hn Hi Hc Hne Hseek.
  assert (i + length (olds cl) ≤ length (sf_lines f)) as Hl.
  { apply seek_sequence_bounds in Hseek as [[? _]|(_ & _ & Hl)]; [done|].
    unfold line_texts in Hl. by rewrite length_fmap in Hl. }
  set (reps := context_replacements i (length (olds cl)) (news cl) 0 0 (ctx_indices 0 0 cl)).
  assert (chain i (i + length (olds cl)) reps) as Hch.
  { rewrite <- (Nat.add_0_r i) at 1. apply context_replacements_chain; [apply ctx_indices_increasing|lia..]. }
  exists reps. split.
  - unfold compute_replacements, replacements_loop, chunk_replacements. rewrite Hc. cbn [mbind result_bind].
    rewrite (locate_chunk_direct _ _ _ _ i) by (by rewrite Ho). rewrite Ho, Hn, Hi.
    destruct (is_empty (olds cl)) eqn:E; [by apply is_empty_true in E|].
    cbn [mbind result_bind]. rewrite app_nil_r. by rewrite sort_by_start_id by apply Hch.
  - rewrite apply_replacements_ok.
    2: { split; [apply Hch|]. eapply Forall_impl; [apply Hch|]. simpl. lia. }
    do 3 f_equal. pose proof (context_replacements_merge
      (λ t, mkLine t (Some (preferred_ending f))) (sf_lines f) i (news cl) cl [] 0 0
      ltac:(constructor) Hl eq_refl ltac:(lia)) as Hm.
    simpl in Hm. rewrite Nat.add_0_r in Hm. rewrite <- Hm.
    rewrite <- (drop_0 (sf_lines f)) at 1.
    rewrite (splice_advance _ 0 i (length (sf_lines f))), drop_0, Nat.sub_0_r; [done|lia|].
    eapply chain_ordered; [exact Hch|lia..].
Qed.

Definition mixed_file : rstr := str "a" ++ [13; 10]%N ++ str "b" ++ [10]%N ++ str " c ".
Definition sample_lines : list change_line :=
  [CDel (str "a"); CContext (str "b"); CAdd (str "new"); CContext (str "c")].
Definition sample_chunk : UpdateFileChunk :=
  mkChunk None (olds sample_lines) (news sample_lines) (ctx_indices 0 0 sample_lines) false.

Lemma preserve_chunk_effect_witness :
  seek_sequence (line_texts (parse mixed_file)) (olds sample_lines) 0 false PreserveLineEndings = Some 0 ∧
  ∃ reps,
    compute_replacements (line_texts (parse mixed_file)) [] [sample_chunk] PreserveLineEndings = Ok reps ∧
    (into_contents <$> apply_replacements (parse mixed_file) reps) =
    Some (str "b" ++ [10]%N ++ str "new" ++ [13; 10]%N ++ str " c " ++ [13; 10]%N).
Proof.
  assert (seek_sequence (line_texts (parse mixed_file)) (olds sample_lines) 0 false PreserveLineEndings = Some 0)
    as H by (vm_compute; reflexivity).
  split; [exact H|].
  destruct (preserve_chunk_effect (parse mixed_file) [] sample_chunk sample_lines 0
              eq_refl eq_refl eq_refl eq_refl ltac:(discriminate) H) as (reps & E1 & E2).
  exists reps. split; [exact E1|]. rewrite E2. vm_compute. reflexivity.
Defined.

(** ** The default mode *)

Lemma normalize_chunk_ok ls path li chunk reps li' :
  li ≤ length ls →
  chunk_replacements ls path NormalizeToLf li chunk = Ok (reps, li') →
  li' ≤ length ls ∧ Forall (λ r, rep_start r ≤ length ls) reps.
Proof.
  intros Hli (li1 & Hctx & H)%result_bind_Ok.
  assert (li1 ≤ length ls) as Hli1.
  { destruct (change_context chunk); [|by simplify_eq].
    destruct (seek_sequence _ _ _ _ _) eqn:E; [|done]. simplify_eq.
    apply seek_sequence_bounds in E as [[? _]|(_ & _ & E2)]; [done|]. simpl in *. lia. }
  destruct (is_empty (old_lines chunk)).
  - injection H as <- <-. split; [done|]. apply Forall_singleton.
    unfold rep_start, insertion_index. cbn [fst snd]. destruct (ends_with_empty ls); lia.
  - destruct (locate_chunk _ _ _ _) as [[[i|] pattern] new_slice] eqn:El; [|done].
    injection H as <- <-. apply locate_chunk_Some, seek_sequence_bounds in El.
    assert (i + length pattern ≤ length ls).
    { destruct El as [[-> ->]|(_ & _ & ?)]; simpl; lia. }
    split; [done|]. apply Forall_singleton. unfold rep_start. simpl. lia.
Qed.

Lemma normalize_loop_ok ls path li chunks reps :
  li ≤ length ls → replacements_loop ls path NormalizeToLf li chunks = Ok reps →
  Forall (λ r, rep_start r ≤ length ls) reps.
Proof.
  revert li reps; induction chunks as [|chunk chunks IH]; intros li reps Hli; simpl; [by intros [= <-]|].
  intros ([reps1 li1] & H1 & H)%result_bind_Ok.
  apply result_bind_Ok in H as (rest & H2 & H). injection H as <-.
  apply normalize_chunk_ok in H1 as [? ?]; [|done]. apply Forall_app. split; [done|]. eauto.
Qed.

Definition start_le (a b : Replacement) : Prop := rep_start a ≤ rep_start b.

Lemma insert_by_start_sorted r l :
  StronglySorted start_le l → StronglySorted start_le (insert_by_start r l).
Proof.
  induction 1 as [|x l Hs IH Hx]; simpl; [repeat constructor|].
  destruct (Nat.leb_spec (rep_start x) (rep_start r)).
  - constructor; [done|]. by apply insert_by_start_Forall.
  - constructor; [by constructor|]. constructor; [unfold start_le; lia|].
    eapply Forall_impl; [exact Hx|]. unfold start_le. lia.
Qed.

Lemma sort_by_start_sorted l : StronglySorted start_le (sort_by_start l).
Proof.
  induction l as [|r l IH] using rev_ind; [constructor|].
  rewrite sort_by_start_snoc. by apply insert_by_start_sorted.
Qed.

Lemma remove_lines_length start n ls : start ≤ length ls → start ≤ length (remove_lines start n ls).
Proof.
  revert ls; induction n as [|n IH]; intros ls Hl; simpl; [done|]. apply IH.
  destruct (Nat.ltb_spec start (length ls)); [|done].
  rewrite length_delete; [lia|by apply lookup_lt_is_Some_2].
Qed.

(** Replacements sorted by their start never make an insertion out of range,
    even when they overlap. *)
Lemma apply_line_replacements_total ls reps b :
  StronglySorted start_le reps → Forall (λ r, rep_start r ≤ length ls) reps →
  b ≤ length ls → Forall (λ r, b ≤ rep_start r) reps →
  ∃ ls', apply_line_replacements ls reps = Some ls' ∧ b ≤ length ls'.
Proof.
  intros Hs. revert b. induction Hs as [|[[s o] new] reps Hs IH Hr]; intros b Hf Hb Hlo; simpl; [eauto|].
  apply Forall_cons in Hf as [Hf1 Hf]. apply Forall_cons in Hlo as [Hlo1 _].
  unfold rep_start in Hf1, Hlo1; simpl in Hf1, Hlo1.
  destruct (IH s Hf Hf1) as (ls1 & -> & H1).
  { eapply Forall_impl; [exact Hr|]. done. }
  simpl. pose proof (remove_lines_length s o ls1 H1).
  rewrite insert_lines_app by done. eexists. split; [done|].
  rewrite !length_app, length_take, length_drop. lia.
Qed.

(** Deriving the new contents of a file never hits an index panic: in either
    mode, for chunks the parser can build, the result is an error value or new
    contents. *)
Lemma derive_new_contents_no_panic path contents chunks m :
  Forall chunk_built chunks →
  (∃ e, derive_new_contents path contents chunks m = Err e) ∨
  (∃ s, derive_new_contents path contents chunks m = Ok (Some s)).
Proof.
  intros Hb.
  unfold derive_new_contents. destruct m.
  - destruct (compute_replacements _ _ _ _) as [reps|e] eqn:E; [|by left; eexists]. right.
    apply result_bind_Ok in E as (reps0 & E & [= <-]). cbn [mbind result_bind option_bind].
    destruct (apply_line_replacements_total (split_original_lines contents) (sort_by_start reps0) 0)
      as (ls' & -> & _).
    + apply sort_by_start_sorted.
    + apply sort_by_start_Forall. eapply normalize_loop_ok; [|exact E]. lia.
    + lia.
    + apply Forall_true. lia.
    + eexists. reflexivity.
  - destruct (compute_replacements _ _ _ _) as [reps|e] eqn:E; [|by left; eexists]. right.
    apply compute_replacements_preserve in E; [|done].
    unfold line_texts in E. rewrite length_fmap in E.
    cbn [mbind result_bind]. rewrite apply_replacements_ok by done. eexists. reflexivity.
Qed.

(** [if !new_lines.last().is_some_and(String::is_empty) { new_lines.push(String::new()) }] *)
Definition with_final_newline (ls : list rstr) : rstr :=
  join [ch_nl] (if ends_with_empty ls then ls else ls ++ [[]]).

(** The effect of a chunk in the default mode: the old lines found at [i] are
    replaced by the new lines, every other line is kept, and the result ends
    with a newline. *)
Theorem normalize_chunk_effect (path contents : rstr) (chunk : UpdateFileChunk) (i : nat) :
  let ls := split_original_lines contents in
  change_context chunk = None → old_lines chunk ≠ [] →
  seek_sequence ls (old_lines chunk) 0 (is_end_of_file chunk) NormalizeToLf = Some i →
  derive_new_contents path contents [chunk] NormalizeToLf =
  Ok (Some (with_final_newline
    (take i ls ++ new_lines chunk ++ drop (i + length (old_lines chunk)) ls))).
Proof.
  intros ls Hc Hne Hseek.
  assert (i + length (old_lines chunk) ≤ length ls) as Hl.
  { by apply seek_sequence_bounds in Hseek as [[? _]|(_ & _ & Hl)]. }
  unfold derive_new_contents, compute_replacements, replacements_loop, chunk_replacements.
  fold ls. rewrite Hc. cbn [mbind result_bind]. rewrite (locate_chunk_direct _ _ _ _ i Hseek).
  destruct (is_empty (old_lines chunk)) eqn:E; [by apply is_empty_true in E|].
  cbn [mbind result_bind]. rewrite app_nil_r.
  rewrite sort_by_start_id by repeat constructor. rewrite apply_line_replacements_ok.
  - cbn [mbind option_bind splice]. by rewrite Nat.sub_0_r, list_fmap_id.
  - split; [repeat constructor|]. by apply Forall_singleton.
Qed.

Lemma normalize_chunk_effect_witness :
  seek_sequence (split_original_lines (nl ["a"; "b"; "c"]%string)) [str "b"] 0 false NormalizeToLf = Some 1 ∧
  derive_new_contents [] (nl ["a"; "b"; "c"]%string) [mkChunk None [str "b"] [str "x"] [] false] NormalizeToLf
  = Ok (Some (nl ["a"; "x"; "c"; ""]%string)).
Proof.
  assert (seek_sequence (split_original_lines (nl ["a"; "b"; "c"]%string)) [str "b"] 0 false NormalizeToLf = Some 1)
    as H by (vm_compute; reflexivity).
  split; [exact H|].
  rewrite (normalize_chunk_effect [] (nl ["a"; "b"; "c"]%string) (mkChunk None [str "b"] [str "x"] [] false) 1
    eq_refl ltac:(discriminate) H).
  vm_compute. reflexivity.
Defined.

(** The patch used by the witnesses of the theorems about accepted patches. *)
Definition sample_patch : rstr :=
  nl ["*** Begin Patch"; "*** Update File: f"; "@@"; "-a"; "+x"; " b"; "*** End Patch"]%string.
Definition sample_chunks : list UpdateFileChunk :=
  [mkChunk None [str "a"; str "b"] [str "x"; str "b"] [(1, 1)] false].
Definition sample_args : ApplyPatchArgs :=
  mkArgs sample_patch [UpdateFile (str "f") None sample_chunks] None None.

Lemma sample_patch_parses : parse_patch sample_patch = Ok sample_args.
Proof. vm_compute. reflexivity. Qed.

Lemma sample_hunk_in : UpdateFile (str "f") None sample_chunks ∈ args_hunks sample_args.
Proof. apply list_elem_of_here. Qed.

Lemma parse_patch_well_formed_witness :
  parse_patch sample_patch = Ok sample_args ∧ Forall hunk_wf (args_hunks sample_args).
Proof.
  split; [exact sample_patch_parses|].
  exact (parse_patch_well_formed sample_patch sample_args sample_patch_parses).
Defined.

Lemma compute_replacements_ordered_witness :
  compute_replacements [str "a"; str "b"] [] sample_chunks PreserveLineEndings
    = Ok [(0, 1, [str "x"])] ∧
  replacements_ok 2 [(0, 1, [str "x"])].
Proof.
  assert (compute_replacements [str "a"; str "b"] [] sample_chunks PreserveLineEndings
    = Ok [(0, 1, [str "x"])]) as H by (vm_compute; reflexivity).
  split; [exact H|].
  exact (compute_replacements_ordered sample_patch [] sample_args _ _ _ [str "a"; str "b"] _
    sample_patch_parses sample_hunk_in H).
Defined.

(** In the default mode a chunk marked end-of-file is searched from the end of
    the file even when an earlier chunk already replaced those lines: both
    chunks are reported as applied, but the later one's new line is lost. The
    line-ending preserving mode refuses the same chunks. *)
Theorem normalize_eof_chunk_lost :
  let chunks := [mkChunk None [str "a"; str "b"] [str "x"] [] false;
                 mkChunk None [str "b"] [str "y"] [] true] in
  derive_new_contents (str "f") (nl ["a"; "b"; ""]%string) chunks NormalizeToLf
    = Ok (Some (nl ["x"; ""]%string)) ∧
  derive_new_contents (str "f") (nl ["a"; "b"; ""]%string) chunks PreserveLineEndings
    = Err (ApComputeReplacements (msg_lines_not_found (str "f") [str "b"])).
Proof. split; vm_compute; reflexivity. Qed.
