(* ===== verification/ApplyPatch.v ===== *)
(** Applying a parsed patch to a file system: [apply-patch/src/lib.rs] and the
    file-reading half of [apply-patch/src/file_update.rs].

    Paths ([PathUri]), the file system ([ExecutorFileSystem]) and the output
    streams ([std::io::Write]) are interfaces here, as they are in the code; the
    sandbox context is fixed by the instance. *)

From S2P Require Import Prelude PatchParser FileUpdate.

#[local] Opaque str.

(** ** Interfaces *)

(** The operations of [codex_utils_path_uri::PathUri] that patches use. *)
Class PathUri (Uri : Type) := {
  uri_eq_dec :: EqDecision Uri;
  uri_countable :: Countable Uri;
  (** [PathUri::join]; the error is the text of a [PathUriParseError]. *)
  uri_join : Uri → rstr → result rstr Uri;
  uri_parent : Uri → option Uri;
  inferred_native_path_string : Uri → rstr;
}.

Record FileMetadata := mkMeta {
  is_directory : bool;
  is_file : bool;
  is_symlink : bool;
}.
Record CreateDirectoryOptions := mkCreate { create_recursive : bool; create_follow : bool }.
Record RemoveOptions := mkRemove {
  remove_recursive : bool; remove_force : bool; remove_follow : bool }.

(** The trait [ExecutorFileSystem], for one sandbox context.  Text is written
    as the UTF-8 encoding of a string and read back through [from_utf8], so the
    file contents are strings; a file that is not UTF-8 is a read error.  The
    last argument of the readers and of [write_file] is [follow_symlinks]. *)
Class ExecutorFileSystem (Uri Fs : Type) := {
  get_metadata : Fs → Uri → bool → result io_error FileMetadata;
  read_file_text : Fs → Uri → bool → result io_error rstr;
  write_file : Fs → Uri → rstr → bool → Fs * result io_error unit;
  create_directory : Fs → Uri → CreateDirectoryOptions → Fs * result io_error unit;
  remove : Fs → Uri → RemoveOptions → Fs * result io_error unit;
}.

(** [std::io::Write] as the [writeln!] macro uses it. *)
Class IoWrite (W : Type) := {
  writeln : W → rstr → W * result io_error unit;
}.

(** ** Data *)

Record ApplyPatchOptions := mkOptions {
  update_file_mode : ApplyPatchFileUpdateMode;
  follow_symlinks : bool;
}.
Definition default_options : ApplyPatchOptions := mkOptions NormalizeToLf true.

Inductive AppliedPatchFileChange (Uri : Type) :=
| ApAdd (content : rstr) (overwritten_content : option rstr)
| ApDelete (content : rstr)
| ApUpdate (move_path : option Uri) (old_content : rstr)
    (overwritten_move_content : option rstr) (new_content : rstr).
Arguments ApAdd {Uri}.
Arguments ApDelete {Uri}.
Arguments ApUpdate {Uri}.

Record AppliedPatchChange (Uri : Type) := mkChange {
  change_path : Uri;
  change_change : AppliedPatchFileChange Uri;
}.
Arguments mkChange {Uri}.
Arguments change_path {Uri}.
Arguments change_change {Uri}.

Record AppliedPatchDelta (Uri : Type) := mkDelta {
  delta_changes : list (AppliedPatchChange Uri);
  delta_exact : bool;
}.
Arguments mkDelta {Uri}.
Arguments delta_changes {Uri}.
Arguments delta_exact {Uri}.

Definition empty_delta {Uri} : AppliedPatchDelta Uri := mkDelta [] true.
(** [AppliedPatchDelta::append] *)
Definition delta_append {Uri} (d other : AppliedPatchDelta Uri) : AppliedPatchDelta Uri :=
  mkDelta (delta_changes d ++ delta_changes other) (delta_exact d && delta_exact other).

Record ApplyPatchFailure (Uri : Type) := mkFailure {
  failure_error : ApplyPatchError;
  failure_delta : AppliedPatchDelta Uri;
}.
Arguments mkFailure {Uri}.
Arguments failure_error {Uri}.
Arguments failure_delta {Uri}.
Definition without_delta {Uri} (e : ApplyPatchError) : ApplyPatchFailure Uri :=
  mkFailure e empty_delta.

Record AffectedPaths := mkAffected {
  added : list rstr;
  modified : list rstr;
  deleted : list rstr;
}.

(** ** Errors *)

(** [anyhow::Error] as [apply_hunks_to_files] builds it: an I/O error with the
    context attached to it, a patch error, a path error or a message. *)
Inductive anyhow_error :=
| AnyIo (context : option rstr) (source : io_error)
| AnyPatch (e : ApplyPatchError)
| AnyPath (message : rstr)
| AnyMsg (message : rstr).

(** [Display] *)
Definition display_parse_error (e : ParseError) : rstr :=
  match e with
  | InvalidPatchError m => str "invalid patch: " ++ m
  | InvalidHunkError m n =>
      str "invalid hunk at line " ++ display_nat n ++ str ", " ++ m
  end.
Definition ch_quote : rchar := 34%N.
Definition msg_implicit : rstr :=
  str "patch detected without explicit call to apply_patch. Rerun as ["
  ++ [ch_quote] ++ str "apply_patch" ++ [ch_quote] ++ str ", "
  ++ [ch_quote] ++ str "<patch>" ++ [ch_quote] ++ str "]".
Definition display_apply_error (e : ApplyPatchError) : rstr :=
  match e with
  | ApParseError p => display_parse_error p
  | ApIoError c s => c ++ str ": " ++ io_message s
  | ApComputeReplacements m => m
  | ApPathUri m => m
  | ApImplicitInvocation => msg_implicit
  end.
(** [error.to_string()]: the outermost context when there is one. *)
Definition display_anyhow (e : anyhow_error) : rstr :=
  match e with
  | AnyIo (Some c) _ => c
  | AnyIo None s => io_message s
  | AnyPatch p => display_apply_error p
  | AnyPath m => m
  | AnyMsg m => m
  end.
(** [error.downcast_ref::<std::io::Error>()], which sees through the context. *)
Definition downcast_io (e : anyhow_error) : option io_error :=
  match e with AnyIo _ s => Some s | _ => None end.
(** [impl From<std::io::Error> for ApplyPatchError] and its [&] variant *)
Definition from_io_error (e : io_error) : ApplyPatchError :=
  ApIoError (str "I/O error") e.

(** [Err(e).with_context(..)] on an [io::Result] *)
Definition with_context {A} (c : rstr) (r : result io_error A) : result anyhow_error A :=
  map_err (AnyIo (Some c)) r.

(** How a run of [apply_hunks_to_files] can stop early. *)
Inductive stop := Failed (e : anyhow_error) | Panicked.

Section apply.
Context {Uri Fs : Type} `{PathUri Uri} `{ExecutorFileSystem Uri Fs}.

(** ** Reading *)

Record AppliedPatch := mkApplied { original_contents : rstr; new_contents : rstr }.

(** [derive_new_contents_from_chunks]; [Ok None] is an index panic. *)
Definition derive_new_contents_from_chunks (fs : Fs) (path : Uri)
    (chunks : list UpdateFileChunk) (m : ApplyPatchFileUpdateMode) (follow : bool)
    : result ApplyPatchError (option AppliedPatch) :=
  let path_text := inferred_native_path_string path in
  original ← map_err (ApIoError (str "Failed to read file to update " ++ path_text))
               (read_file_text fs path follow);
  contents ← derive_new_contents path_text original chunks m;
  Ok (option_map (mkApplied original) contents).

Definition ensure_not_directory (fs : Fs) (path : Uri) (follow : bool)
    : result io_error unit :=
  metadata ← get_metadata fs path follow;
  if is_directory metadata then Err (mkIo InvalidInput (str "path is a directory"))
  else Ok tt.

Definition remove_failure_was_side_effect_free (fs : Fs) (path : Uri)
    (expected_content : option rstr) (follow : bool) : bool :=
  match expected_content with
  | Some expected =>
      match read_file_text fs path follow with
      | Ok content => str_eqb content expected
      | Err _ => false
      end
  | None => false
  end.

(** The new value of [*exact]. *)
Definition note_existing_path_delta_support (fs : Fs) (path : Uri) (follow exact : bool)
    : bool :=
  match get_metadata fs path follow with
  | Ok metadata => if is_file metadata && negb (is_symlink metadata) then exact else false
  | Err source => if bool_decide (io_kind source = NotFound) then exact else false
  end.

Definition read_optional_file_text_for_delta (fs : Fs) (path : Uri) (follow exact : bool)
    : bool * option rstr :=
  let exact := note_existing_path_delta_support fs path follow exact in
  match read_file_text fs path follow with
  | Ok content => (exact, Some content)
  | Err source =>
      if bool_decide (io_kind source = NotFound) then (exact, None) else (false, None)
  end.

(** [Hunk::resolve_path] *)
Definition resolve_path (hunk : Hunk) (cwd : Uri) : result rstr Uri :=
  match hunk with
  | UpdateFile path _ _ => uri_join cwd path
  | _ => uri_join cwd (hunk_path hunk)
  end.

(** ** Writing *)

Definition msg_write (path : Uri) : rstr :=
  str "Failed to write file " ++ inferred_native_path_string path.

Definition write_file_with_missing_parent_retry (fs : Fs) (path : Uri) (contents : rstr)
    (follow : bool) : Fs * result anyhow_error unit :=
  match write_file fs path contents follow with
  | (fs1, Ok _) => (fs1, Ok tt)
  | (fs1, Err err) =>
      if bool_decide (io_kind err = NotFound) then
        let '(fs2, created) :=
          match uri_parent path with
          | Some parent =>
              let '(fs2, r) := create_directory fs1 parent (mkCreate true follow) in
              (fs2, with_context (str "Failed to create parent directories for "
                                  ++ inferred_native_path_string path) r)
          | None => (fs1, Ok tt)
          end in
        match created with
        | Err e => (fs2, Err e)
        | Ok _ =>
            let '(fs3, r) := write_file fs2 path contents follow in
            (fs3, with_context (msg_write path) r)
        end
      else (fs1, Err (AnyIo (Some (msg_write path)) err))
  end.

(** ** The loop over the hunks

    The state is the file system and the accumulated delta ([&mut delta]); an
    early [return Err(..)] keeps both. *)
Record apply_state := mkApply { st_fs : Fs; st_delta : AppliedPatchDelta Uri }.
Definition M (A : Type) : Type := apply_state → apply_state * result stop A.
#[global] Instance M_ret : MRet M := λ A a s, (s, Ok a).
#[global] Instance M_bind : MBind M := λ A B k m s,
  match m s with
  | (s', Ok a) => k a s'
  | (s', Err e) => (s', Err e)
  end.

Definition fail {A} (e : anyhow_error) : M A := λ s, (s, Err (Failed e)).
Definition lift {A} (r : result anyhow_error A) : M A := λ s, (s, map_err Failed r).
Definition get_fs : M Fs := λ s, (s, Ok (st_fs s)).
Definition get_exact : M bool := λ s, (s, Ok (delta_exact (st_delta s))).
Definition set_exact (b : bool) : M unit := λ s,
  (mkApply (st_fs s) (mkDelta (delta_changes (st_delta s)) b), Ok tt).
Definition push_change (c : AppliedPatchChange Uri) : M unit := λ s,
  (mkApply (st_fs s) (mkDelta (delta_changes (st_delta s) ++ [c]) (delta_exact (st_delta s))),
   Ok tt).
(** [delta.changes[i] = c] *)
Definition set_change (i : nat) (c : AppliedPatchChange Uri) : M unit := λ s,
  (mkApply (st_fs s)
     (mkDelta (<[i := c]> (delta_changes (st_delta s))) (delta_exact (st_delta s))), Ok tt).
Definition changes_len : M nat := λ s, (s, Ok (length (delta_changes (st_delta s)))).
(** An operation that changes the file system. *)
Definition run_fs {A} (f : Fs → Fs * A) : M A := λ s,
  let '(fs', a) := f (st_fs s) in (mkApply fs' (st_delta s), Ok a).

(** [try_write!] *)
Definition try_write (f : Fs → Fs * result anyhow_error unit) : M unit :=
  r ← run_fs f;
  match r with
  | Ok _ => mret tt
  | Err error => _ ← set_exact false; fail error
  end.

(** [read_optional_file_text_for_delta(.., &mut delta.exact)] and
    [note_existing_path_delta_support(.., &mut delta.exact)] *)
Definition read_optional (path : Uri) (follow : bool) : M (option rstr) :=
  fs ← get_fs;
  exact ← get_exact;
  let '(exact', content) := read_optional_file_text_for_delta fs path follow exact in
  _ ← set_exact exact';
  mret content.
Definition note_existing (path : Uri) (follow : bool) : M unit :=
  fs ← get_fs;
  exact ← get_exact;
  set_exact (note_existing_path_delta_support fs path follow exact).

(** The guarded removal that a delete and a move share: refuse a directory,
    remove, and on failure keep [exact] only if the content is still there. *)
Definition remove_file (context : rstr) (path : Uri) (expected : option rstr)
    (follow : bool) : M unit :=
  fs ← get_fs;
  _ ← lift (with_context context (ensure_not_directory fs path follow));
  r ← run_fs (λ fs, remove fs path (mkRemove false false follow));
  match with_context context r with
  | Ok _ => mret tt
  | Err error =>
      fs ← get_fs;
      exact ← get_exact;
      _ ← set_exact (exact && remove_failure_was_side_effect_free fs path expected follow);
      fail error
  end.

Inductive affected_kind := KAdded | KModified | KDeleted.

Definition apply_add_file (path : Uri) (contents : rstr) (follow : bool)
    : M affected_kind :=
  overwritten_content ← read_optional path follow;
  _ ← try_write (λ fs, write_file_with_missing_parent_retry fs path contents follow);
  _ ← push_change (mkChange path (ApAdd contents overwritten_content));
  mret KAdded.

Definition apply_delete_file (path : Uri) (follow : bool) : M affected_kind :=
  _ ← note_existing path follow;
  fs ← get_fs;
  let deleted_content := result_ok (read_file_text fs path follow) in
  exact ← get_exact;
  _ ← set_exact (match deleted_content with None => false | Some _ => exact end);
  _ ← remove_file (str "Failed to delete file " ++ inferred_native_path_string path)
        path deleted_content follow;
  _ ← match deleted_content with
      | Some content => push_change (mkChange path (ApDelete content))
      | None => mret tt
      end;
  mret KDeleted.

(** The two ways an update ends: [if let Some(dest) = move_path] and its [else]. *)
Definition move_updated_file (cwd path : Uri) (dest original_contents new_contents : rstr)
    (follow : bool) : M affected_kind :=
  dest_uri ← lift (map_err AnyPath (uri_join cwd dest));
  overwritten_move_content ← read_optional dest_uri follow;
  _ ← try_write (λ fs, write_file_with_missing_parent_retry fs dest_uri new_contents follow);
  dest_write_change_index ← changes_len;
  _ ← push_change (mkChange dest_uri (ApAdd new_contents overwritten_move_content));
  _ ← remove_file (str "Failed to remove original " ++ inferred_native_path_string path)
        path (Some original_contents) follow;
  _ ← set_change dest_write_change_index
        (mkChange path (ApUpdate (Some dest_uri) original_contents
                          overwritten_move_content new_contents));
  mret KModified.

Definition rewrite_updated_file (path : Uri) (original_contents new_contents : rstr)
    (follow : bool) : M affected_kind :=
  _ ← try_write (λ fs,
        let '(fs', r) := write_file fs path new_contents follow in
        (fs', with_context (msg_write path) r));
  _ ← push_change (mkChange path (ApUpdate None original_contents None new_contents));
  mret KModified.

Definition apply_update_file (cwd path : Uri) (move_path : option rstr)
    (chunks : list UpdateFileChunk) (options : ApplyPatchOptions) : M affected_kind :=
  let follow := follow_symlinks options in
  _ ← note_existing path follow;
  fs ← get_fs;
  derived ← lift (map_err AnyPatch
    (derive_new_contents_from_chunks fs path chunks (update_file_mode options) follow));
  match derived, move_path with
  | None, _ => λ s, (s, Err Panicked)
  | Some (mkApplied original_contents new_contents), Some dest =>
      move_updated_file cwd path dest original_contents new_contents follow
  | Some (mkApplied original_contents new_contents), None =>
      rewrite_updated_file path original_contents new_contents follow
  end.

(** One iteration of the loop. *)
Definition apply_hunk (cwd : Uri) (options : ApplyPatchOptions) (hunk : Hunk)
    : M affected_kind :=
  path_uri ← lift (map_err AnyPath (resolve_path hunk cwd));
  match hunk with
  | AddFile _ contents => apply_add_file path_uri contents (follow_symlinks options)
  | DeleteFile _ => apply_delete_file path_uri (follow_symlinks options)
  | UpdateFile _ move_path chunks => apply_update_file cwd path_uri move_path chunks options
  end.

Definition record_affected (a : AffectedPaths) (k : affected_kind) (path : rstr)
    : AffectedPaths :=
  match k with
  | KAdded => mkAffected (added a ++ [path]) (modified a) (deleted a)
  | KModified => mkAffected (added a) (modified a ++ [path]) (deleted a)
  | KDeleted => mkAffected (added a) (modified a) (deleted a ++ [path])
  end.

Fixpoint apply_hunks_loop (cwd : Uri) (options : ApplyPatchOptions) (a : AffectedPaths)
    (hunks : list Hunk) : M AffectedPaths :=
  match hunks with
  | [] => mret a
  | hunk :: hunks' =>
      k ← apply_hunk cwd options hunk;
      apply_hunks_loop cwd options (record_affected a k (hunk_path hunk)) hunks'
  end.

Definition apply_hunks_to_files (hunks : list Hunk) (options : ApplyPatchOptions) (cwd : Uri)
    : M AffectedPaths :=
  if is_empty hunks then fail (AnyMsg (str "No files were modified."))
  else apply_hunks_loop cwd options (mkAffected [] [] []) hunks.

(** ** Entry points *)

Context {W : Type} `{IoWrite W}.

(** [for path in paths { writeln!(out, "{tag} {}", path.display())? }] *)
Fixpoint print_paths (out : W) (tag : rstr) (paths : list rstr)
    : W * result io_error unit :=
  match paths with
  | [] => (out, Ok tt)
  | path :: paths' =>
      match writeln out (tag ++ str " " ++ path) with
      | (out', Ok _) => print_paths out' tag paths'
      | (out', Err e) => (out', Err e)
      end
  end.

Definition print_summary (affected : AffectedPaths) (out : W) : W * result io_error unit :=
  match writeln out (str "Success. Updated the following files:") with
  | (out, Err e) => (out, Err e)
  | (out, Ok _) =>
  match print_paths out (str "A") (added affected) with
  | (out, Err e) => (out, Err e)
  | (out, Ok _) =>
  match print_paths out (str "M") (modified affected) with
  | (out, Err e) => (out, Err e)
  | (out, Ok _) => print_paths out (str "D") (deleted affected)
  end end end.

(** Everything an entry point leaves behind. *)
Record apply_outcome := mkOutcome {
  out_fs : Fs;
  out_stdout : W;
  out_stderr : W;
  (** [None] is a panic. *)
  out_result : option (result (ApplyPatchFailure Uri) (AppliedPatchDelta Uri));
}.

Definition apply_hunks_with_options (hunks : list Hunk) (options : ApplyPatchOptions)
    (cwd : Uri) (stdout stderr : W) (fs : Fs) : apply_outcome :=
  match apply_hunks_to_files hunks options cwd (mkApply fs empty_delta) with
  | (mkApply fs' delta, Ok affected_paths) =>
      match print_summary affected_paths stdout with
      | (stdout', Ok _) => mkOutcome fs' stdout' stderr (Some (Ok delta))
      | (stdout', Err error) =>
          mkOutcome fs' stdout' stderr (Some (Err (mkFailure (from_io_error error) delta)))
      end
  | (mkApply fs' delta, Err (Failed error)) =>
      let msg := display_anyhow error in
      match writeln stderr msg with
      | (stderr', Err werror) =>
          mkOutcome fs' stdout stderr' (Some (Err (mkFailure (from_io_error werror) delta)))
      | (stderr', Ok _) =>
          let error' := match downcast_io error with
                        | Some io => from_io_error io
                        | None => ApIoError msg (mkIo OtherKind msg)
                        end in
          mkOutcome fs' stdout stderr' (Some (Err (mkFailure error' delta)))
      end
  | (mkApply fs' _, Err Panicked) => mkOutcome fs' stdout stderr None
  end.

Definition apply_hunks (hunks : list Hunk) := apply_hunks_with_options hunks default_options.

Definition invalid_patch_report (e : ParseError) : rstr :=
  match e with
  | InvalidPatchError message => str "Invalid patch: " ++ message
  | InvalidHunkError message line_number =>
      str "Invalid patch hunk on line " ++ display_nat line_number ++ str ": " ++ message
  end.

Definition apply_patch_with_options (patch : rstr) (options : ApplyPatchOptions)
    (cwd : Uri) (stdout stderr : W) (fs : Fs) : apply_outcome :=
  match parse_patch patch with
  | Ok source => apply_hunks_with_options (args_hunks source) options cwd stdout stderr fs
  | Err e =>
      let '(stderr', r) := writeln stderr (invalid_patch_report e) in
      let error := match r with
                   | Ok _ => ApParseError e
                   | Err werror => from_io_error werror
                   end in
      mkOutcome fs stdout stderr' (Some (Err (without_delta error)))
  end.

Definition apply_patch (patch : rstr) := apply_patch_with_options patch default_options.

End apply.
