(* ===== verification/ApplyPatchProps.v ===== *)
(** Properties of applying a patch to a file system: the committed changes of
    an exact delta replay to, and revert, what happened on disk; a successful
    run has the effect of the abstract patch; no accepted patch panics. *)

From S2P Require Import Prelude PatchParser PatchParserProps FileUpdate SpliceProps ApplyPatch.

#[local] Opaque str.

(** ** What the file system promises

    [view] is the text of every readable text file.  The laws are those of a
    file system in which distinct paths name distinct files and nobody else
    writes while the patch is applied. *)
Class FileSystemLaws (Uri Fs : Type) `{PathUri Uri} `{ExecutorFileSystem Uri Fs} := {
  view : Fs → gmap Uri rstr;
  law_read_ok fs p follow t :
    read_file_text fs p follow = Ok t → view fs !! p = Some t;
  law_read_not_found fs p follow e :
    read_file_text fs p follow = Err e → io_kind e = NotFound → view fs !! p = None;
  law_write_ok fs p t follow fs' :
    write_file fs p t follow = (fs', Ok tt) → view fs' = <[p := t]> (view fs);
  (** A failed write may have damaged its own target only. *)
  law_write_err fs p t follow fs' e :
    write_file fs p t follow = (fs', Err e) → delete p (view fs') = delete p (view fs);
  law_create_directory fs p o fs' r :
    create_directory fs p o = (fs', r) → view fs' = view fs;
  law_remove_ok fs p o fs' :
    remove fs p o = (fs', Ok tt) → view fs' = delete p (view fs);
  (** A failed removal leaves the file or has removed it. *)
  law_remove_err fs p o fs' e :
    remove fs p o = (fs', Err e) → view fs' = view fs ∨ view fs' = delete p (view fs);
}.

(** ** Replaying and reverting committed changes *)

Section changes.
Context {Uri : Type} `{Countable Uri}.
Implicit Types (m : gmap Uri rstr) (c : AppliedPatchChange Uri).

Definition replay_change m c : gmap Uri rstr :=
  match change_change c with
  | ApAdd content _ => <[change_path c := content]> m
  | ApDelete _ => delete (change_path c) m
  | ApUpdate None _ _ new => <[change_path c := new]> m
  | ApUpdate (Some dest) _ _ new => delete (change_path c) (<[dest := new]> m)
  end.

Definition set_file (p : Uri) (t : option rstr) m : gmap Uri rstr := partial_alter (λ _, t) p m.

Definition revert_change c m : gmap Uri rstr :=
  match change_change c with
  | ApAdd _ overwritten => set_file (change_path c) overwritten m
  | ApDelete content => <[change_path c := content]> m
  | ApUpdate None old _ _ => <[change_path c := old]> m
  | ApUpdate (Some dest) old overwritten _ =>
      <[change_path c := old]> (set_file dest overwritten m)
  end.

(** The contents a change says it replaced are the ones that were there. *)
Definition change_matches m c : Prop :=
  match change_change c with
  | ApAdd _ overwritten => m !! change_path c = overwritten
  | ApDelete content => m !! change_path c = Some content
  | ApUpdate None old _ _ => m !! change_path c = Some old
  | ApUpdate (Some dest) old overwritten _ =>
      m !! change_path c = Some old ∧ m !! dest = overwritten
  end.

(** [commits m cs m']: the changes [cs], in this order, lead from [m] to [m']
    and each of them describes the files it found. *)
Inductive commits (m : gmap Uri rstr) : list (AppliedPatchChange Uri) → gmap Uri rstr → Prop :=
| commits_nil : commits m [] m
| commits_snoc cs m1 c :
    commits m cs m1 → change_matches m1 c → commits m (cs ++ [c]) (replay_change m1 c).

Lemma commits_step m cs m1 c m2 :
  commits m cs m1 → change_matches m1 c → m2 = replay_change m1 c → commits m (cs ++ [c]) m2.
Proof. intros ? ? ->. by constructor. Qed.

Lemma lookup_set_file p t m q :
  set_file p t m !! q = if decide (q = p) then t else m !! q.
Proof.
  unfold set_file. case_decide as E; [subst; apply lookup_partial_alter_eq|].
  by apply lookup_partial_alter_ne.
Qed.

Lemma lookup_insert_dec p (t : rstr) m q :
  <[p := t]> m !! q = if decide (q = p) then Some t else m !! q.
Proof. apply (lookup_set_file p (Some t)). Qed.

Lemma lookup_delete_dec p m q :
  delete p m !! q = if decide (q = p) then None else m !! q.
Proof. apply (lookup_set_file p None). Qed.

(** Decides equalities of maps built by the file operations. *)
Ltac map_points :=
  apply map_eq; intros ?q;
  rewrite ?lookup_set_file, ?lookup_insert_dec, ?lookup_delete_dec;
  repeat (case_decide; subst; rewrite ?lookup_set_file, ?lookup_insert_dec, ?lookup_delete_dec);
  try congruence; auto.

Lemma revert_replay m c : change_matches m c → revert_change c (replay_change m c) = m.
Proof.
  unfold change_matches, revert_change, replay_change.
  destruct c as [p [content ow|content|[dest|] old ow new]]; simpl;
    [intros ?|intros ?|intros [??]|intros ?]; map_points.
Qed.

Lemma commits_replay m cs m' : commits m cs m' → foldl replay_change m cs = m'.
Proof. induction 1 as [|cs m1 c _ IH]; [done|]. by rewrite foldl_snoc, IH. Qed.

Lemma commits_revert m cs m' : commits m cs m' → foldr revert_change m' cs = m.
Proof.
  induction 1 as [|cs m1 c _ IH Hc]; [done|]. rewrite foldr_snoc, revert_replay; done.
Qed.
End changes.

(** ** The delta of a run *)

Section tracking.
Context {Uri Fs : Type} `{FileSystemLaws Uri Fs}.
Implicit Types (fs : Fs) (p cwd : Uri) (s : @apply_state Uri Fs).

Lemma M_bind_inv {A B} (m : M A) (k : A → M B) s s' r :
  (m ≫= k) s = (s', r) →
  (∃ s1 a, m s = (s1, Ok a) ∧ k a s1 = (s', r)) ∨ (∃ e, m s = (s', Err e) ∧ r = Err e).
Proof.
  unfold mbind, M_bind. destruct (m s) as [s1 [a|e]]; intros; simplify_eq; eauto.
Qed.

Lemma lift_inv {A} (x : result anyhow_error A) s s' r :
  lift x s = (s', r) → s' = s ∧ r = map_err Failed x.
Proof. unfold lift. by intros [= <- <-]. Qed.

Lemma run_fs_inv {A} (f : Fs → Fs * A) s s' r :
  run_fs f s = (s', r) →
  ∃ fs' a, f (st_fs s) = (fs', a) ∧ s' = mkApply fs' (st_delta s) ∧ r = Ok a.
Proof. unfold run_fs. destruct (f (st_fs s)) as [fs' a]. intros [= <- <-]. eauto. Qed.

(** Splits a run of the monad into the runs of its parts. *)
Ltac run :=
  repeat match goal with
  | H : (mret _) _ = _ |- _ => unfold mret, M_ret in H; simplify_eq/=
  | H : (_ ≫= _) _ = _ |- _ =>
      apply M_bind_inv in H as [(? & ? & ? & H)|(? & ? & ?)]; simplify_eq/=
  | H : get_fs _ = _ |- _ => unfold get_fs in H; simplify_eq/=
  | H : get_exact _ = _ |- _ => unfold get_exact in H; simplify_eq/=
  | H : changes_len _ = _ |- _ => unfold changes_len in H; simplify_eq/=
  | H : set_exact _ _ = _ |- _ => unfold set_exact in H; simplify_eq/=
  | H : push_change _ _ = _ |- _ => unfold push_change in H; simplify_eq/=
  | H : set_change _ _ _ = _ |- _ => unfold set_change in H; simplify_eq/=
  | H : fail _ _ = _ |- _ => unfold fail in H; simplify_eq/=
  | H : lift _ _ = _ |- _ => apply lift_inv in H as [-> ?]
  | H : run_fs _ _ = _ |- _ => apply run_fs_inv in H as (? & ? & ? & -> & ?); simplify_eq/=
  end.

Lemma read_optional_inv p follow s s' r :
  read_optional p follow s = (s', r) →
  ∃ c b, r = Ok c ∧ s' = mkApply (st_fs s) (mkDelta (delta_changes (st_delta s)) b) ∧
    (b = true → delta_exact (st_delta s) = true ∧ view (st_fs s) !! p = c).
Proof.
  unfold read_optional. intros Hr. run.
  destruct (read_optional_file_text_for_delta _ _ _ _) as [b c] eqn:E. run.
  exists c, b. split_and!; [done..|]. intros ->.
  unfold read_optional_file_text_for_delta, note_existing_path_delta_support in E.
  destruct (read_file_text _ _ _) as [t|e] eqn:Er; [|case_bool_decide];
    simplify_eq; (split; [repeat (case_match; simplify_eq; try done)|]).
  - by apply law_read_ok in Er.
  - by eapply law_read_not_found.
Qed.

Lemma note_existing_inv p follow s s' r :
  note_existing p follow s = (s', r) →
  r = Ok tt ∧ ∃ b, s' = mkApply (st_fs s) (mkDelta (delta_changes (st_delta s)) b) ∧
    (b = true → delta_exact (st_delta s) = true).
Proof.
  unfold note_existing. intros Hr. run. split; [done|]. eexists. split; [done|].
  unfold note_existing_path_delta_support. repeat case_match; done.
Qed.

Lemma insert_of_delete (m m' : gmap Uri rstr) p t :
  delete p m' = delete p m → <[p := t]> m' = <[p := t]> m.
Proof. intros E. by rewrite <- insert_delete_eq, E, insert_delete_eq. Qed.

Lemma write_retry_ok fs p t follow fs' :
  write_file_with_missing_parent_retry fs p t follow = (fs', Ok tt) →
  view fs' = <[p := t]> (view fs).
Proof.
  unfold write_file_with_missing_parent_retry.
  destruct (write_file fs p t follow) as [fs1 [[]|err]] eqn:E1.
  - intros [= <-]. by apply law_write_ok in E1.
  - apply law_write_err in E1. case_bool_decide; [|done]. intros Hr.
    match type of Hr with (let '(_, _) := ?x in _) = _ => destruct x as [fs2 [[]|]] eqn:E2 end;
      [|done].
    assert (view fs2 = view fs1) as E.
    { destruct (uri_parent p); [|by simplify_eq].
      destruct (create_directory _ _ _) eqn:Ec. simplify_eq. by eapply law_create_directory. }
    destruct (write_file fs2 p t follow) as [fs3 [[]|]] eqn:E3; simplify_eq.
    apply law_write_ok in E3. rewrite E3, E. by apply insert_of_delete.
Qed.

Lemma try_write_inv (f : Fs → Fs * result anyhow_error unit) s s' r :
  try_write f s = (s', r) →
  (∃ fs', f (st_fs s) = (fs', Ok tt) ∧ r = Ok tt ∧ s' = mkApply fs' (st_delta s)) ∨
  (∃ fs' e, f (st_fs s) = (fs', Err e) ∧ r = Err (Failed e) ∧
     s' = mkApply fs' (mkDelta (delta_changes (st_delta s)) false)).
Proof.
  unfold try_write. intros Hr. run.
  match goal with a : result anyhow_error unit |- _ => destruct a as [[]|] end; run;
    [left|right]; eauto 10.
Qed.

Lemma remove_file_inv ctx p expected follow s s' r :
  remove_file ctx p expected follow s = (s', r) →
  (r = Ok tt ∧ st_delta s' = st_delta s ∧ view (st_fs s') = delete p (view (st_fs s))) ∨
  (∃ e, r = Err e ∧ delta_changes (st_delta s') = delta_changes (st_delta s) ∧
     (view (st_fs s') = view (st_fs s) ∨ view (st_fs s') = delete p (view (st_fs s))) ∧
     (delta_exact (st_delta s') = true →
      delta_exact (st_delta s) = true ∧ view (st_fs s') = view (st_fs s))).
Proof.
  unfold remove_file. intros Hr. run; [|right; eexists; split_and!; auto].
  match goal with E : remove _ _ _ = (_, ?rr) |- _ =>
    pose proof E as Er; clear E; destruct rr as [[]|e] end; simpl in *; run.
  - left. split_and!; [done..|]. by apply law_remove_ok in Er.
  - right. eexists. split_and!; [done|done|by eapply law_remove_err|].
    intros [He Hs]%andb_true_iff. split; [done|].
    unfold remove_failure_was_side_effect_free in Hs.
    destruct expected; [|done]. case_match eqn:Erd; [|done].
    apply law_read_ok in Erd. apply law_remove_err in Er as [?|E]; [done|].
    by rewrite E, lookup_delete_eq in Erd.
Qed.

Definition tracks (v0 : gmap Uri rstr) s : Prop :=
  delta_exact (st_delta s) = true →
  commits v0 (delta_changes (st_delta s)) (view (st_fs s)).

(** Runs the monad down to the outcomes of the file operations. *)
Ltac run_file :=
  run;
  try match goal with H : note_existing _ _ _ = _ |- _ =>
    apply note_existing_inv in H as (? & b & -> & Hb) end; simplify_eq/=;
  try match goal with H : read_optional _ _ _ = _ |- _ =>
    apply read_optional_inv in H as (c & b & ? & ? & Hc) end; simplify_eq/=;
  try match goal with H : try_write _ _ = _ |- _ =>
    apply try_write_inv in H as [(fs' & Hw & ? & ?)|(fs' & ? & Hw & ? & ?)] end; simplify_eq/=;
  try match goal with H : remove_file _ _ _ _ _ = (?s1, _) |- _ =>
    destruct s1 as [fs1 d1];
    apply remove_file_inv in H as [(? & Hd & Hv)|(e & ? & Hd & Hoff & Hv)] end; simplify_eq/=.

Lemma apply_add_tracks v0 p contents follow s s' r :
  tracks v0 s → apply_add_file p contents follow s = (s', r) → tracks v0 s'.
Proof.
  unfold apply_add_file, tracks. intros Hs Hr He. run_file.
  destruct Hc as [He' Hv]; [done|]. apply write_retry_ok in Hw. eapply commits_step; eauto.
Qed.

Lemma apply_delete_tracks v0 p follow s s' r :
  tracks v0 s → apply_delete_file p follow s = (s', r) → tracks v0 s'.
Proof.
  unfold apply_delete_file, tracks. intros Hs Hr He. run_file;
    destruct (read_file_text (st_fs s) p follow) as [t|] eqn:Er; simpl in *; run; try done.
  - apply law_read_ok in Er. eapply commits_step; eauto.
  - destruct (Hv He) as [? ->]. rewrite Hd. auto.
  - by destruct (Hv He) as [? _].
Qed.

Lemma derive_from_chunks_inv fs p chunks mode follow old new :
  derive_new_contents_from_chunks fs p chunks mode follow = Ok (Some (mkApplied old new)) →
  view fs !! p = Some old ∧
  derive_new_contents (inferred_native_path_string p) old chunks mode = Ok (Some new).
Proof.
  unfold derive_new_contents_from_chunks. intros Hd. inv_ok.
  destruct (read_file_text fs p follow) eqn:Er; simplify_eq/=. apply law_read_ok in Er.
  match goal with o : option rstr |- _ => destruct o end; simplify_eq/=. done.
Qed.

Lemma move_tracks v0 cwd p dest old new follow s s' r :
  tracks v0 s → view (st_fs s) !! p = Some old →
  move_updated_file cwd p dest old new follow s = (s', r) → tracks v0 s'.
Proof.
  unfold move_updated_file, tracks. intros Hs Hp Hr He. run_file; auto.
  - apply write_retry_ok in Hw. destruct Hc as [? Hc]; [done|].
    rewrite insert_app_r_alt, Nat.sub_diag by done. simpl.
    eapply commits_step; [eauto|done|]. unfold replay_change. simpl. by rewrite Hv, Hw.
  - apply write_retry_ok in Hw. destruct (Hv He) as [Hb ->]. destruct (Hc Hb) as [? Hc'].
    rewrite Hd. eapply commits_step; eauto.
Qed.

Lemma write_file_inv fs p t follow (ctx : rstr) fs' :
  (let '(fs', r) := write_file fs p t follow in (fs', with_context ctx r)) = (fs', Ok tt) →
  view fs' = <[p := t]> (view fs).
Proof.
  destruct (write_file fs p t follow) as [fs1 [[]|]] eqn:E; intros; simplify_eq/=.
  by apply law_write_ok in E.
Qed.

Lemma rewrite_tracks v0 p old new follow s s' r :
  tracks v0 s → view (st_fs s) !! p = Some old →
  rewrite_updated_file p old new follow s = (s', r) → tracks v0 s'.
Proof.
  unfold rewrite_updated_file, tracks. intros Hs Hp Hr He. run_file.
  apply write_file_inv in Hw. eapply commits_step; eauto.
Qed.

Lemma apply_update_tracks v0 cwd p mv chunks options s s' r :
  tracks v0 s → apply_update_file cwd p mv chunks options s = (s', r) → tracks v0 s'.
Proof.
  unfold apply_update_file. intros Hs Hr. run_file.
  - assert (tracks v0 (mkApply (st_fs s) (mkDelta (delta_changes (st_delta s)) b))) as Hs'
      by (unfold tracks in *; simpl; auto).
    destruct (derive_new_contents_from_chunks _ _ _ _ _) as [[[old new]|]|] eqn:Ed; simplify_eq/=.
    + apply derive_from_chunks_inv in Ed as [Hp _].
      destruct mv; eauto using move_tracks, rewrite_tracks.
    + by destruct mv; simplify_eq.
  - unfold tracks in *; simpl; auto.
Qed.

Lemma apply_hunk_tracks v0 cwd options h s s' r :
  tracks v0 s → apply_hunk cwd options h s = (s', r) → tracks v0 s'.
Proof.
  unfold apply_hunk. intros Hs Hr. run; [|done].
  destruct h; eauto using apply_add_tracks, apply_delete_tracks, apply_update_tracks.
Qed.

Lemma apply_hunks_loop_tracks v0 cwd options a hs s s' r :
  tracks v0 s → apply_hunks_loop cwd options a hs s = (s', r) → tracks v0 s'.
Proof.
  revert a s; induction hs as [|h hs IH]; simpl; intros a s Hs Hr; run; [done| |];
    eauto using apply_hunk_tracks.
Qed.

Lemma apply_hunks_tracks hs options cwd fs s' r :
  apply_hunks_to_files hs options cwd (mkApply fs empty_delta) = (s', r) →
  tracks (view fs) s'.
Proof.
  unfold apply_hunks_to_files. destruct (is_empty hs); intros Hr; [run|].
  - intros _. constructor.
  - eapply apply_hunks_loop_tracks; [|exact Hr]. intros _. constructor.
Qed.

(** ** The abstract patch: a partial function on the text files *)

Definition hunk_effect cwd (mode : ApplyPatchFileUpdateMode) (h : Hunk) (m : gmap Uri rstr)
    : option (gmap Uri rstr) :=
  p ← result_ok (resolve_path h cwd);
  match h with
  | AddFile _ contents => Some (<[p := contents]> m)
  | DeleteFile _ => Some (delete p m)
  | UpdateFile _ mv chunks =>
      old ← m !! p;
      match derive_new_contents (inferred_native_path_string p) old chunks mode, mv with
      | Ok (Some new), None => Some (<[p := new]> m)
      | Ok (Some new), Some dest =>
          d ← result_ok (uri_join cwd dest); Some (delete p (<[d := new]> m))
      | _, _ => None
      end
  end.

Fixpoint patch_effect cwd (mode : ApplyPatchFileUpdateMode) (hs : list Hunk) (m : gmap Uri rstr)
    : option (gmap Uri rstr) :=
  match hs with
  | [] => Some m
  | h :: hs' => hunk_effect cwd mode h m ≫= patch_effect cwd mode hs'
  end.

(** The files a hunk may touch. *)
Definition hunk_targets cwd (h : Hunk) : list Uri :=
  option_list (result_ok (resolve_path h cwd)) ++
  match h with
  | UpdateFile _ (Some dest) _ => option_list (result_ok (uri_join cwd dest))
  | _ => []
  end.

(** Two file maps agree except on [ps]. *)
Definition agree_off (ps : list Uri) (m m' : gmap Uri rstr) : Prop :=
  ∀ q, q ∉ ps → m' !! q = m !! q.

Lemma agree_off_delete p m m' ps :
  delete p m' = delete p m → p ∈ ps → agree_off ps m m'.
Proof.
  intros E Hp q Hq. assert (q ≠ p) by set_solver.
  by rewrite <- (lookup_delete_ne m' p), E, lookup_delete_ne.
Qed.

Lemma write_retry_off fs p t follow fs' r :
  write_file_with_missing_parent_retry fs p t follow = (fs', r) →
  delete p (view fs') = delete p (view fs).
Proof.
  unfold write_file_with_missing_parent_retry.
  assert (∀ fs fs' r, write_file fs p t follow = (fs', r) →
            delete p (view fs') = delete p (view fs)) as Hw.
  { intros ??[[]|]; [intros ->%law_write_ok; apply delete_insert_eq | apply law_write_err]. }
  destruct (write_file fs p t follow) as [fs1 [[]|err]] eqn:E1; apply Hw in E1; [by intros [= <- _]|].
  case_bool_decide; [|by intros [= <- _]]. intros Hr.
  match type of Hr with (let '(_, _) := ?x in _) = _ => destruct x as [fs2 c] eqn:E2 end.
  assert (view fs2 = view fs1) as E.
  { destruct (uri_parent p); [|by simplify_eq].
    destruct (create_directory _ _ _) eqn:Ec. simplify_eq. by eapply law_create_directory. }
  destruct c as [[]|]; [|by simplify_eq; rewrite E].
  destruct (write_file fs2 p t follow) eqn:E3. simplify_eq. apply Hw in E3. by rewrite E3, E.
Qed.

(** What each kind of hunk does when it succeeds and what it may touch when it
    fails. *)
Lemma add_effect p contents follow s s' r :
  apply_add_file p contents follow s = (s', r) →
  (is_ok r = true → view (st_fs s') = <[p := contents]> (view (st_fs s))) ∧
  agree_off [p] (view (st_fs s)) (view (st_fs s')).
Proof.
  unfold apply_add_file. intros Hr. run_file.
  - split; [intros _; by apply write_retry_ok in Hw|].
    eapply agree_off_delete; [by eapply write_retry_off|set_solver].
  - split; [done|]. eapply agree_off_delete; [by eapply write_retry_off|set_solver].
Qed.

Lemma agree_off_remove p ps (m m' : gmap Uri rstr) :
  m' = m ∨ m' = delete p m → p ∈ ps → agree_off ps m m'.
Proof.
  intros [->| ->] Hp q Hq; [done|]. assert (q ≠ p) by set_solver. by rewrite lookup_delete_ne.
Qed.

Lemma delete_effect p follow s s' r :
  apply_delete_file p follow s = (s', r) →
  (is_ok r = true → view (st_fs s') = delete p (view (st_fs s))) ∧
  agree_off [p] (view (st_fs s)) (view (st_fs s')).
Proof.
  unfold apply_delete_file. intros Hr. run_file;
    destruct (read_file_text (st_fs s) p follow) as [t|] eqn:Er; simpl in *; run;
    (split; [done || by intros _|]);
    (eapply agree_off_remove; [|by left]); auto.
Qed.

Lemma agree_off_trans ps (m1 m2 m3 : gmap Uri rstr) :
  agree_off ps m1 m2 → agree_off ps m2 m3 → agree_off ps m1 m3.
Proof. intros H12 H23 q Hq. by rewrite H23, H12. Qed.

Lemma agree_off_mono ps ps' (m m' : gmap Uri rstr) :
  ps ⊆ ps' → agree_off ps m m' → agree_off ps' m m'.
Proof. intros Hs Ha q Hq. apply Ha. set_solver. Qed.

Lemma move_effect cwd p dest old new follow s s' r :
  move_updated_file cwd p dest old new follow s = (s', r) →
  (is_ok r = true → ∃ d, uri_join cwd dest = Ok d ∧
     view (st_fs s') = delete p (<[d := new]> (view (st_fs s)))) ∧
  agree_off (p :: option_list (result_ok (uri_join cwd dest)))
    (view (st_fs s)) (view (st_fs s')).
Proof.
  unfold move_updated_file. intros Hr. run_file;
    destruct (uri_join cwd dest) as [d|] eqn:Ej; simplify_eq/=; try done;
    pose proof (write_retry_off _ _ _ _ _ _ Hw) as Ho;
    (apply (agree_off_delete _ _ _ [p; d]) in Ho; [|by right; left]).
  - apply write_retry_ok in Hw. split.
    + intros _. exists d. split; [done|]. by rewrite Hv, Hw.
    + eapply agree_off_trans; [exact Ho|].
      eapply (agree_off_remove p); [by right|by left].
  - split; [done|]. eapply agree_off_trans; [exact Ho|].
    eapply (agree_off_remove p); [by auto|by left].
  - done.
Qed.

Lemma rewrite_effect p old new follow s s' r :
  rewrite_updated_file p old new follow s = (s', r) →
  (is_ok r = true → view (st_fs s') = <[p := new]> (view (st_fs s))) ∧
  agree_off [p] (view (st_fs s)) (view (st_fs s')).
Proof.
  unfold rewrite_updated_file. intros Hr. run_file;
    destruct (write_file (st_fs s) p new follow) as [fs1 [[]|]] eqn:E; simplify_eq/=.
  - apply law_write_ok in E. split; [done|].
    eapply agree_off_delete; [rewrite E; apply delete_insert_eq|by left].
  - apply law_write_err in E. split; [done|]. eapply agree_off_delete; [done|by left].
Qed.

(** One hunk: on success the abstract effect, otherwise only its own files. *)
Lemma apply_hunk_effect cwd options h s s' r :
  apply_hunk cwd options h s = (s', r) →
  (is_ok r = true →
   hunk_effect cwd (update_file_mode options) h (view (st_fs s)) = Some (view (st_fs s'))) ∧
  agree_off (hunk_targets cwd h) (view (st_fs s)) (view (st_fs s')).
Proof.
  unfold apply_hunk, hunk_effect, hunk_targets. intros Hr. run; [|done].
  destruct (resolve_path h cwd) as [p|]; simplify_eq/=. destruct h as [pt t|pt|pt mv chunks].
  - apply add_effect in Hr as [Hok Hoff]. split; [|done]. intros; by rewrite Hok.
  - apply delete_effect in Hr as [Hok Hoff]. split; [|done]. intros; by rewrite Hok.
  - unfold apply_update_file in Hr. run_file.
    + destruct (derive_new_contents_from_chunks _ _ _ _ _) as [[[old new]|]|] eqn:Ed; simplify_eq/=.
      2: { by destruct mv; simplify_eq. }
      apply derive_from_chunks_inv in Ed as [-> Hd]. simpl. rewrite Hd.
      destruct mv as [dest|].
      * apply move_effect in Hr as [Hok Hoff]. split; [|done].
        intros Hr. destruct (Hok Hr) as (d & -> & ->). done.
      * apply rewrite_effect in Hr as [Hok Hoff]. split; [|done]. intros; by rewrite Hok.
    + done.
Qed.

Lemma apply_hunks_loop_effect cwd options a hs s s' r :
  apply_hunks_loop cwd options a hs s = (s', r) →
  let mode := update_file_mode options in
  (is_ok r = true ∧ patch_effect cwd mode hs (view (st_fs s)) = Some (view (st_fs s'))) ∨
  (is_ok r = false ∧ ∃ hs1 h hs2 m1, hs = hs1 ++ h :: hs2 ∧
     patch_effect cwd mode hs1 (view (st_fs s)) = Some m1 ∧
     agree_off (hunk_targets cwd h) m1 (view (st_fs s'))).
Proof.
  revert a s; induction hs as [|h hs IH]; simpl; intros a s Hr; run; [by left| |].
  - match goal with E : apply_hunk _ _ _ _ = _ |- _ => apply apply_hunk_effect in E as [He _] end.
    rewrite He by done. simpl. apply IH in Hr as [?|(? & hs1 & h' & hs2 & m1 & -> & ? & ?)]; [by left|].
    right. split; [done|]. exists (h :: hs1), h', hs2, m1. simpl. by rewrite He.
  - match goal with E : apply_hunk _ _ _ _ = _ |- _ => apply apply_hunk_effect in E as [_ Hoff] end.
    right. split; [done|]. by exists [], h, hs, (view (st_fs s)).
Qed.
End tracking.
