(* ===== verification/ApplyPatchSpec.v ===== *)
(** What [apply_patch] promises: the theorems about whole runs, and runs on the
    in-memory file system. *)

From S2P Require Import Prelude PatchParser PatchParserProps FileUpdate SpliceProps ApplyPatch ApplyPatchProps.

#[local] Opaque str.

Definition mem_path : Type := list rstr.
#[global] Instance mem_path_eq_dec : EqDecision mem_path := _.
#[global] Instance mem_path_countable : Countable mem_path := _.

Definition mem_segments (s : rstr) : list rstr :=
  filter (λ c, c ≠ []) (split_char 47%N s).
Definition mem_join (cwd : mem_path) (s : rstr) : result rstr mem_path :=
  if bool_decide (head s = Some 47%N) then Ok (mem_segments s) else Ok (cwd ++ mem_segments s).
Definition mem_parent (p : mem_path) : option mem_path :=
  if is_empty p then None else Some (drop_last p).

#[global] Instance mem_uri : PathUri mem_path := {|
  uri_join := mem_join;
  uri_parent := mem_parent;
  inferred_native_path_string p := str "/" ++ join (str "/") p;
|}.

Record mem_fs := mkMem { mem_files : gmap mem_path rstr; mem_dirs : gset mem_path }.

Definition err_not_found : io_error := mkIo NotFound (str "not found").
Definition err_other : io_error := mkIo OtherKind (str "unsupported").

Definition mem_metadata (fs : mem_fs) (p : mem_path) (_ : bool) : result io_error FileMetadata :=
  if decide (p ∈ mem_dirs fs) then Ok (mkMeta true false false)
  else match mem_files fs !! p with
       | Some _ => Ok (mkMeta false true false)
       | None => Err err_not_found
       end.
Definition mem_read (fs : mem_fs) (p : mem_path) (_ : bool) : result io_error rstr :=
  if decide (p ∈ mem_dirs fs) then Err err_other else ok_or (mem_files fs !! p) err_not_found.
Definition mem_write (fs : mem_fs) (p : mem_path) (t : rstr) (_ : bool)
    : mem_fs * result io_error unit :=
  if decide (p ∈ mem_dirs fs) then (fs, Err err_other)
  else match mem_parent p with
       | None => (fs, Err err_other)
       | Some d =>
           if decide (d ∈ mem_dirs fs)
           then (mkMem (<[p := t]> (mem_files fs)) (mem_dirs fs), Ok tt)
           else (fs, Err err_not_found)
       end.
(** All prefixes of a path, itself included. *)
Definition prefixes (p : mem_path) : list mem_path :=
  (λ n, take n p) <$> seq 0 (S (length p)).
Definition mem_mkdir (fs : mem_fs) (p : mem_path) (o : CreateDirectoryOptions)
    : mem_fs * result io_error unit :=
  let wanted := if create_recursive o then prefixes p else [p] in
  if bool_decide (Forall (λ q, mem_files fs !! q = None) wanted)
  then (mkMem (mem_files fs) (mem_dirs fs ∪ list_to_set wanted), Ok tt)
  else (fs, Err err_other).
Definition mem_remove (fs : mem_fs) (p : mem_path) (o : RemoveOptions)
    : mem_fs * result io_error unit :=
  if decide (p ∈ mem_dirs fs) then (fs, Err err_other)
  else match mem_files fs !! p with
       | Some _ => (mkMem (delete p (mem_files fs)) (mem_dirs fs), Ok tt)
       | None => (fs, Err err_not_found)
       end.

#[global] Instance mem_file_system : ExecutorFileSystem mem_path mem_fs := {|
  get_metadata := mem_metadata;
  read_file_text := mem_read;
  write_file := mem_write;
  create_directory := mem_mkdir;
  remove := mem_remove;
|}.

#[global] Program Instance mem_laws : FileSystemLaws mem_path mem_fs := {|
  view := mem_files;
|}.
Next Obligation.
  intros fs p f t. unfold read_file_text; simpl. unfold mem_read.
  case_decide; [done|]. destruct (mem_files fs !! p); by intros; simplify_eq/=.
Qed.
Next Obligation.
  intros fs p f e. unfold read_file_text; simpl. unfold mem_read.
  case_decide; [by intros [= <-]|]. destruct (mem_files fs !! p); by intros; simplify_eq/=.
Qed.
Next Obligation.
  intros fs p t f fs'. unfold write_file; simpl. unfold mem_write.
  repeat case_match; by intros; simplify_eq/=.
Qed.
Next Obligation.
  intros fs p t f fs' e. unfold write_file; simpl. unfold mem_write.
  repeat case_match; by intros; simplify_eq/=.
Qed.
Next Obligation.
  intros fs p o fs' r. unfold create_directory; simpl. unfold mem_mkdir.
  repeat case_match; by intros; simplify_eq/=.
Qed.
Next Obligation.
  intros fs p o fs'. unfold remove; simpl. unfold mem_remove.
  repeat case_match; by intros; simplify_eq/=.
Qed.
Next Obligation.
  intros fs p o fs' e. unfold remove; simpl. unfold mem_remove.
  repeat case_match; intros; simplify_eq/=; by left.
Qed.

(** An output stream that collects its lines. *)
#[global] Instance mem_output : IoWrite (list rstr) := {|
  writeln out l := (out ++ [l], Ok tt);
|}.

(** ** The reference semantics of a patch *)

(** ** Absence of panics *)

Section no_panic.
Context {Uri Fs : Type} `{PathUri Uri} `{ExecutorFileSystem Uri Fs}.
Implicit Types (s : @apply_state Uri Fs).

(** A computation that never panics. *)
Definition safe {A} (m : M (Uri:=Uri) (Fs:=Fs) A) : Prop := ∀ s, (m s).2 ≠ Err Panicked.

Lemma safe_bind {A B} (m : M A) (k : A → M B) : safe m → (∀ a, safe (k a)) → safe (m ≫= k).
Proof.
  intros Hm Hk s. unfold mbind, M_bind. specialize (Hm s).
  destruct (m s) as [s' [a|[e|]]]; simpl in *; [apply Hk|done..].
Qed.
Lemma safe_ret {A} (a : A) : safe (mret a).
Proof. by intros s. Qed.
Lemma safe_lift {A} (r : result anyhow_error A) : safe (lift r).
Proof. by destruct r; intros s. Qed.
Lemma safe_fail {A} e : safe (fail (A:=A) e).
Proof. by intros s. Qed.
Lemma safe_run_fs {A} (f : Fs → Fs * A) : safe (run_fs f).
Proof. intros s. unfold run_fs. by destruct (f (st_fs s)). Qed.
Lemma safe_prim :
  safe get_fs ∧ safe get_exact ∧ safe changes_len ∧ (∀ b, safe (set_exact b)) ∧
  (∀ c, safe (push_change c)) ∧ (∀ i c, safe (set_change i c)).
Proof. by split_and!. Qed.

Ltac safe :=
  repeat first
    [ apply safe_bind; [|intros ?] | apply safe_ret | apply safe_lift | apply safe_fail
    | apply safe_run_fs | apply safe_prim | case_match ].

Lemma safe_update cwd p mv chunks options :
  Forall chunk_built chunks → safe (apply_update_file cwd p mv chunks options).
Proof.
  intros Hb. unfold apply_update_file. apply safe_bind; [unfold note_existing; safe|].
  intros _. intros s. unfold get_fs. unfold mbind at 1, M_bind at 1.
  unfold lift, derive_new_contents_from_chunks. unfold mbind at 1, M_bind at 1.
  destruct (read_file_text (st_fs s) p _) as [t|e]; simpl; [|done].
  destruct (derive_new_contents_no_panic (inferred_native_path_string p) t chunks
              (update_file_mode options) Hb) as [[e ->]|[new ->]]; simpl; [done|].
  destruct mv as [dest|].
  - revert s. change (safe (move_updated_file cwd p dest t new (follow_symlinks options))).
    unfold move_updated_file, read_optional, try_write, remove_file. safe.
  - revert s. change (safe (rewrite_updated_file p t new (follow_symlinks options))).
    unfold rewrite_updated_file, try_write. safe.
Qed.

Lemma safe_hunk cwd options h : hunk_wf h → safe (apply_hunk cwd options h).
Proof.
  intros Hw. unfold apply_hunk. apply safe_bind; [apply safe_lift|]. intros p.
  destruct h as [pt t|pt|pt mv chunks].
  - unfold apply_add_file, read_optional, try_write. safe.
  - unfold apply_delete_file, note_existing, remove_file. safe.
  - apply safe_update. destruct Hw as [_ Hw]. eapply Forall_impl; [exact Hw|]. by intros c [? _].
Qed.

Lemma safe_loop cwd options a hs : Forall hunk_wf hs → safe (apply_hunks_loop cwd options a hs).
Proof.
  intros Hw. revert a. induction Hw as [|h hs Hh _ IH]; intros a; simpl; [apply safe_ret|].
  apply safe_bind; [by apply safe_hunk|]. intros k. apply IH.
Qed.
End no_panic.

(** ** Whole runs *)

Section runs.
Context {Uri Fs W : Type} `{PathUri Uri} `{ExecutorFileSystem Uri Fs} `{IoWrite W}.
Implicit Types (o : @apply_outcome Uri Fs W).

(** Applying a patch never panics, whatever the patch text, the file system and
    the output streams do: the result is a delta or a reported failure. *)
Theorem apply_patch_never_panics (patch : rstr) (options : ApplyPatchOptions) (cwd : Uri)
    (stdout stderr : W) (fs : Fs) :
  out_result (apply_patch_with_options patch options cwd stdout stderr fs) ≠ None.
Proof.
  unfold apply_patch_with_options. destruct (parse_patch patch) as [args|e] eqn:Ep.
  - apply parse_patch_hunks_wf in Ep. unfold apply_hunks_with_options, apply_hunks_to_files.
    destruct (is_empty _); [by repeat case_match; simplify_eq/=|].
    pose proof (safe_loop cwd options (mkAffected [] [] []) _ Ep (mkApply fs empty_delta)).
    destruct (apply_hunks_loop _ _ _ _ _) as [[fs' d] [a|[e|]]]; simpl in *; [..|done];
      by repeat case_match.
  - by destruct (writeln _ _) as [? []].
Qed.

(** The delta an outcome reports, in success or in failure. *)
Definition outcome_delta o : option (AppliedPatchDelta Uri) :=
  match out_result o with
  | Some (Ok d) => Some d
  | Some (Err f) => Some (failure_delta f)
  | None => None
  end.

Definition outcome_ok o : bool :=
  match out_result o with Some (Ok _) => true | _ => false end.

(** A run is a parse failure or a run of the loop over the hunks. *)
Lemma apply_patch_cases patch options cwd stdout stderr fs o :
  apply_patch_with_options patch options cwd stdout stderr fs = o →
  (is_ok (parse_patch patch) = false ∧ out_fs o = fs ∧
   outcome_delta o = Some empty_delta ∧ outcome_ok o = false) ∨
  ∃ args s r, parse_patch patch = Ok args ∧
    apply_hunks_to_files (args_hunks args) options cwd (mkApply fs empty_delta) = (s, r) ∧
    out_fs o = st_fs s ∧ (∀ d, outcome_delta o = Some d → d = st_delta s) ∧
    (outcome_ok o = true → is_ok r = true).
Proof.
  intros <-. unfold apply_patch_with_options. destruct (parse_patch patch) as [args|e] eqn:Ep.
  - right. exists args.
    destruct (apply_hunks_to_files (args_hunks args) options cwd _) as [s r] eqn:Er.
    exists s, r. unfold apply_hunks_with_options, outcome_delta, outcome_ok. rewrite Er.
    destruct s as [fs' d], r as [a|[e|]]; repeat case_match; naive_solver.
  - left. unfold outcome_delta, outcome_ok.
    by destruct (writeln stderr (invalid_patch_report e)) as [? []].
Qed.

Context `{!FileSystemLaws Uri Fs}.

(** An exact delta is the list of changes that happened. *)
Lemma exact_outcome_commits patch options cwd stdout stderr fs d :
  let o := apply_patch_with_options patch options cwd stdout stderr fs in
  outcome_delta o = Some d → delta_exact d = true →
  commits (view fs) (delta_changes d) (view (out_fs o)).
Proof.
  intros o Hd He. destruct (apply_patch_cases patch options cwd stdout stderr fs o eq_refl)
    as [(_ & -> & Hd' & _)|(args & s & r & _ & Hr & -> & Hd' & _)].
  - simplify_eq. constructor.
  - apply Hd' in Hd as ->. by apply (apply_hunks_tracks _ _ _ _ _ _ Hr).
Qed.

(** C2: an exact delta tells the truth, after a success and after a failure
    alike: replaying its changes on the files as they were gives the files as
    they are, and undoing them in reverse order restores every file. *)
Theorem exact_delta_replays_and_reverts (patch : rstr) (options : ApplyPatchOptions) (cwd : Uri)
    (stdout stderr : W) (fs : Fs) (d : AppliedPatchDelta Uri) :
  let o := apply_patch_with_options patch options cwd stdout stderr fs in
  outcome_delta o = Some d → delta_exact d = true →
  foldl replay_change (view fs) (delta_changes d) = view (out_fs o) ∧
  foldr revert_change (view (out_fs o)) (delta_changes d) = view fs.
Proof.
  intros o Hd He. pose proof (exact_outcome_commits _ _ _ _ _ _ _ Hd He) as Hc.
  split; [by apply commits_replay | by apply commits_revert].
Qed.

(** C1: a successful run implements the abstract patch: the patch parses, and
    the text files afterwards are those before with each hunk's effect applied
    in turn. *)
Theorem apply_patch_refines (patch : rstr) (options : ApplyPatchOptions) (cwd : Uri)
    (stdout stderr : W) (fs : Fs) :
  let o := apply_patch_with_options patch options cwd stdout stderr fs in
  outcome_ok o = true →
  ∃ args, parse_patch patch = Ok args ∧ args_hunks args ≠ [] ∧
    patch_effect cwd (update_file_mode options) (args_hunks args) (view fs)
      = Some (view (out_fs o)).
Proof.
  intros o Ho. destruct (apply_patch_cases patch options cwd stdout stderr fs o eq_refl)
    as [(_ & _ & _ & ?)|(args & s & r & Hp & Hr & -> & _ & Hok)]; [congruence|].
  exists args. unfold apply_hunks_to_files in Hr. specialize (Hok Ho).
  destruct (is_empty (args_hunks args)) eqn:E; [by inversion Hr; subst|].
  split_and!; [done|by intros Hn; rewrite Hn in E|].
  by apply apply_hunks_loop_effect in Hr as [[_ Hr]|[? _]]; [|congruence].
Qed.

(** C19: a failed run stops at one hunk: either nothing was touched, or every
    hunk was applied and only the report failed, or the hunks before some hunk
    took full effect and no file but that hunk's own differs from that. *)
Theorem apply_patch_failure_is_prefix (patch : rstr) (options : ApplyPatchOptions) (cwd : Uri)
    (stdout stderr : W) (fs : Fs) :
  let o := apply_patch_with_options patch options cwd stdout stderr fs in
  let mode := update_file_mode options in
  outcome_ok o = false →
  view (out_fs o) = view fs ∨
  ∃ args, parse_patch patch = Ok args ∧
   (patch_effect cwd mode (args_hunks args) (view fs) = Some (view (out_fs o)) ∨
    ∃ hs1 h hs2 m1, args_hunks args = hs1 ++ h :: hs2 ∧
      patch_effect cwd mode hs1 (view fs) = Some m1 ∧
      agree_off (hunk_targets cwd h) m1 (view (out_fs o))).
Proof.
  intros o mode Ho. destruct (apply_patch_cases patch options cwd stdout stderr fs o eq_refl)
    as [(_ & -> & _)|(args & s & r & Hp & Hr & -> & _ & _)]; [by left|].
  unfold apply_hunks_to_files in Hr.
  destruct (is_empty (args_hunks args)) eqn:E; [inversion Hr; subst; by left|].
  right. exists args. split; [done|].
  apply apply_hunks_loop_effect in Hr as [[_ Hr]|[_ Hr]]; [by left|by right].
Qed.

(** A patch that renames a file to its own path deletes it: the new contents are
    written to the path and then the path is removed, and the run still reports
    success. *)
Theorem move_onto_itself_deletes (path dest : rstr) (chunks : list UpdateFileChunk)
    (options : ApplyPatchOptions) (cwd p : Uri) (s s' : @apply_state Uri Fs) (k : affected_kind) :
  uri_join cwd path = Ok p → uri_join cwd dest = Ok p →
  apply_hunk cwd options (UpdateFile path (Some dest) chunks) s = (s', Ok k) →
  is_Some (view (st_fs s) !! p) ∧ view (st_fs s') = delete p (view (st_fs s)).
Proof.
  intros Hp Hd Hr. apply apply_hunk_effect in Hr as [He _]. specialize (He eq_refl).
  unfold hunk_effect, resolve_path in He. rewrite Hp in He. simpl in He.
  destruct (view (st_fs s) !! p) eqn:Ev; [|done]. simpl in He.
  destruct (derive_new_contents _ _ _ _) as [[new|]|]; [|done..]. rewrite Hd in He. simpl in He.
  split; [by eexists|]. inversion He. by rewrite delete_insert_eq.
Qed.
End runs.

(** ** Runs on the in-memory file system *)

Definition mem_start : mem_fs := mkMem {[ [str "f"] := nl ["a"; "b"; ""]%string ]} {[ [] ]}.
Abbreviation mem_run patch :=
  (apply_patch_with_options patch default_options ([] : mem_path) ([] : list rstr) [] mem_start).

(** Adds a file in a new directory, then moves and edits [f]. *)
Definition move_patch : rstr :=
  nl ["*** Begin Patch"; "*** Add File: d/g"; "+new"; "*** Update File: f"; "*** Move to: d/f";
      "@@"; "-a"; "+x"; " b"; "*** End Patch"]%string.
Definition move_delta : AppliedPatchDelta mem_path :=
  mkDelta
    [mkChange [str "d"; str "g"] (ApAdd (nl ["new"; ""]%string) None);
     mkChange [str "f"] (ApUpdate (Some [str "d"; str "f"]) (nl ["a"; "b"; ""]%string) None
                           (nl ["x"; "b"; ""]%string))] true.

Example move_run_output :
  out_stdout (mem_run move_patch)
  = [str "Success. Updated the following files:"; str "A d/g"; str "M d/f"].
Proof. vm_compute. reflexivity. Qed.

Lemma exact_delta_replays_and_reverts_witness :
  outcome_delta (mem_run move_patch) = Some move_delta ∧ delta_exact move_delta = true ∧
  foldl replay_change (view mem_start) (delta_changes move_delta) = view (out_fs (mem_run move_patch)) ∧
  foldr revert_change (view (out_fs (mem_run move_patch))) (delta_changes move_delta) = view mem_start.
Proof.
  assert (outcome_delta (mem_run move_patch) = Some move_delta) as Hd by (vm_compute; reflexivity).
  split; [exact Hd|]. split; [reflexivity|].
  exact (exact_delta_replays_and_reverts move_patch default_options ([] : mem_path) ([] : list rstr) [] mem_start move_delta
    Hd eq_refl).
Defined.

Lemma apply_patch_refines_witness :
  outcome_ok (mem_run move_patch) = true ∧
  ∃ args, parse_patch move_patch = Ok args ∧ args_hunks args ≠ [] ∧
    patch_effect ([] : mem_path) NormalizeToLf (args_hunks args) (view mem_start)
      = Some (view (out_fs (mem_run move_patch))).
Proof.
  assert (outcome_ok (mem_run move_patch) = true) as Ho by (vm_compute; reflexivity).
  split; [exact Ho|].
  exact (apply_patch_refines move_patch default_options ([] : mem_path) ([] : list rstr) [] mem_start Ho).
Defined.

(** The second hunk of this patch does not match [f]. *)
Definition failing_patch : rstr :=
  nl ["*** Begin Patch"; "*** Add File: g"; "+new"; "*** Update File: f"; "@@"; "-z"; "+x";
      "*** End Patch"]%string.

Lemma apply_patch_failure_is_prefix_witness :
  outcome_ok (mem_run failing_patch) = false ∧
  (view (out_fs (mem_run failing_patch)) = view mem_start ∨
   ∃ args, parse_patch failing_patch = Ok args ∧
    (patch_effect ([] : mem_path) NormalizeToLf (args_hunks args) (view mem_start)
       = Some (view (out_fs (mem_run failing_patch))) ∨
     ∃ hs1 h hs2 m1, args_hunks args = hs1 ++ h :: hs2 ∧
       patch_effect ([] : mem_path) NormalizeToLf hs1 (view mem_start) = Some m1 ∧
       agree_off (hunk_targets [] h) m1 (view (out_fs (mem_run failing_patch))))).
Proof.
  assert (outcome_ok (mem_run failing_patch) = false) as Ho by (vm_compute; reflexivity).
  split; [exact Ho|].
  exact (apply_patch_failure_is_prefix failing_patch default_options ([] : mem_path) ([] : list rstr) [] mem_start Ho).
Defined.

(** [*** Update File: f] with [*** Move to: f]. *)
Definition self_move_state : @apply_state mem_path mem_fs :=
  (apply_hunk [] default_options
     (UpdateFile (str "f") (Some (str "f")) [mkChunk None [str "a"] [str "x"] [] false])
     (mkApply mem_start empty_delta)).1.

Lemma move_onto_itself_deletes_witness :
  apply_hunk [] default_options
    (UpdateFile (str "f") (Some (str "f")) [mkChunk None [str "a"] [str "x"] [] false])
    (mkApply mem_start empty_delta) = (self_move_state, Ok KModified) ∧
  is_Some (view mem_start !! [str "f"]) ∧
  view (st_fs self_move_state) = delete [str "f"] (view mem_start).
Proof.
  assert (apply_hunk [] default_options
    (UpdateFile (str "f") (Some (str "f")) [mkChunk None [str "a"] [str "x"] [] false])
    (mkApply mem_start empty_delta) = (self_move_state, Ok KModified)) as Hr
    by (vm_compute; reflexivity).
  assert (uri_join ([] : mem_path) (str "f") = Ok [str "f"]) as Hj by (vm_compute; reflexivity).
  split; [exact Hr|].
  exact (move_onto_itself_deletes (str "f") (str "f") _ default_options [] [str "f"]
    (mkApply mem_start empty_delta) self_move_state KModified Hj Hj Hr).
Defined.
