(* ===== verification/TurnDiff.v ===== *)
(** The net diff of a turn: [core/src/turn_diff_tracker.rs].

    The tracker follows the deltas of [ApplyPatch] without rereading the disk: its
    two maps are the files before and after the turn, its cache never changes what
    is rendered, and every tracked path is rendered once. *)

From S2P Require Import Prelude PatchParser FileUpdate ApplyPatch ApplyPatchProps ApplyPatchSpec.

#[local] Opaque str.

Definition ZERO_OID : rstr := str "0000000000000000000000000000000000000000".
Definition DEV_NULL : rstr := str "/dev/null".
Definition REGULAR_FILE_MODE : rstr := str "100644".

(** The revision is a [u64] counter of the contents seen in one turn. *)
Record TrackedContent := mkTracked { content : rstr; revision : N }.

(** What the tracker uses of other crates: [PathUri::relative_path_from], the
    unified diff of the crate [similar] (headers, left and right text) and the
    hexadecimal SHA-1 digest of the crate [sha1].  The diff has a deadline
    ([DIFF_TIMEOUT]) after which it falls back to a coarser one, so its text also
    depends on how far it gets: its first argument. *)
Class DiffTools (Uri : Type) := {
  relative_path_from : Uri → Uri → option rstr;
  unified_diff_text : N → rstr → rstr → rstr → rstr → rstr;
  sha1_hex : list N → rstr;
}.

Section tracker.
Context {Uri : Type} `{PathUri Uri} `{DiffTools Uri}.

(** [TrackedPath]: environment id and path *)
Definition TrackedPath : Type := rstr * Uri.
#[global] Instance TrackedPath_eq_dec : EqDecision TrackedPath := _.
#[global] Instance TrackedPath_countable : Countable TrackedPath := _.

(** [DiffCacheKey]: left path and revision, right path and revision *)
Definition DiffCacheKey : Type := TrackedPath * option N * TrackedPath * option N.
#[global] Instance DiffCacheKey_eq_dec : EqDecision DiffCacheKey := _.
#[global] Instance DiffCacheKey_countable : Countable DiffCacheKey := _.
(** How far the diffs that one refresh renders get before their deadlines *)
Definition DiffProgress : Type := DiffCacheKey → N.

Record TurnDiffTracker := mkTracker {
  valid : bool;
  display_roots_by_environment : gmap rstr Uri;
  baseline_by_path : gmap TrackedPath TrackedContent;
  current_by_path : gmap TrackedPath TrackedContent;
  origin_by_current_path : gmap TrackedPath TrackedPath;
  next_revision : N;
  rendered_diffs : gmap DiffCacheKey (option rstr);
  unified_diff : option rstr;
}.

(** [TurnDiffTracker::with_environment_display_roots] *)
Definition with_environment_display_roots (display_roots : list (rstr * Uri)) : TurnDiffTracker :=
  mkTracker true (foldl (λ m r, <[r.1 := r.2]> m) ∅ display_roots) ∅ ∅ ∅ 0%N ∅ None.
Definition new : TurnDiffTracker := with_environment_display_roots [].

(** Field updates *)
Definition set_baseline (t : TurnDiffTracker) b : TurnDiffTracker :=
  mkTracker (valid t) (display_roots_by_environment t) b (current_by_path t)
    (origin_by_current_path t) (next_revision t) (rendered_diffs t) (unified_diff t).
Definition set_current (t : TurnDiffTracker) c : TurnDiffTracker :=
  mkTracker (valid t) (display_roots_by_environment t) (baseline_by_path t) c
    (origin_by_current_path t) (next_revision t) (rendered_diffs t) (unified_diff t).
Definition set_origin (t : TurnDiffTracker) o : TurnDiffTracker :=
  mkTracker (valid t) (display_roots_by_environment t) (baseline_by_path t) (current_by_path t)
    o (next_revision t) (rendered_diffs t) (unified_diff t).

(** [tracked_content]; the counter wraps around, as in a release build. *)
Definition tracked_content (t : TurnDiffTracker) (text : rstr) : TurnDiffTracker * TrackedContent :=
  (mkTracker (valid t) (display_roots_by_environment t) (baseline_by_path t) (current_by_path t)
     (origin_by_current_path t) ((next_revision t + 1) mod 2 ^ 64)%N (rendered_diffs t) (unified_diff t),
   mkTracked text (next_revision t)).

(** [contains_key] on the two maps *)
Definition in_current (t : TurnDiffTracker) (p : TrackedPath) : bool :=
  bool_decide (is_Some (current_by_path t !! p)).
Definition in_baseline (t : TurnDiffTracker) (p : TrackedPath) : bool :=
  bool_decide (is_Some (baseline_by_path t !! p)).

(** [let c = self.tracked_content(text); self.baseline_by_path.insert(path, c)] *)
Definition insert_baseline (t : TurnDiffTracker) (path : TrackedPath) (text : rstr)
    : TurnDiffTracker :=
  let '(t, c) := tracked_content t text in
  set_baseline t (<[path := c]> (baseline_by_path t)).
Definition insert_current (t : TurnDiffTracker) (path : TrackedPath) (text : rstr)
    : TurnDiffTracker :=
  let '(t, c) := tracked_content t text in
  set_current t (<[path := c]> (current_by_path t)).

Definition apply_add (t : TurnDiffTracker) (path : TrackedPath) (text : rstr)
    (overwritten_content : option rstr) : TurnDiffTracker :=
  let t := set_origin t (delete path (origin_by_current_path t)) in
  let t :=
    match overwritten_content with
    | Some overwritten =>
        if negb (in_current t path) && negb (in_baseline t path)
        then insert_baseline t path overwritten else t
    | None => t
    end in
  insert_current t path text.

Definition apply_delete (t : TurnDiffTracker) (path : TrackedPath) (text : rstr)
    : TurnDiffTracker :=
  let was_current := in_current t path in
  let t := set_current t (delete path (current_by_path t)) in
  let t := if negb was_current && negb (in_baseline t path)
           then insert_baseline t path text else t in
  set_origin t (delete path (origin_by_current_path t)).

Definition apply_update (t : TurnDiffTracker) (source_path : TrackedPath)
    (move_path : option TrackedPath) (old_content : rstr)
    (overwritten_move_content : option rstr) (new_content : rstr) : TurnDiffTracker :=
  let t := if negb (in_current t source_path) && negb (in_baseline t source_path)
           then insert_baseline t source_path old_content else t in
  match move_path with
  | Some dest_path =>
      let t :=
        match overwritten_move_content with
        | Some overwritten =>
            if negb (in_current t dest_path) && negb (in_baseline t dest_path)
            then insert_baseline t dest_path overwritten else t
        | None => t
        end in
      let origin := default source_path (origin_by_current_path t !! source_path) in
      let t := set_origin t (delete source_path (origin_by_current_path t)) in
      let t := set_current t (delete source_path (current_by_path t)) in
      let t := insert_current t dest_path new_content in
      let t := set_origin t (delete dest_path (origin_by_current_path t)) in
      if decide (dest_path = origin) then t
      else set_origin t (<[dest_path := origin]> (origin_by_current_path t))
  | None => insert_current t source_path new_content
  end.

Definition apply_change (t : TurnDiffTracker) (environment_id : rstr)
    (change : AppliedPatchChange Uri) : TurnDiffTracker :=
  let source_path := (environment_id, change_path change) in
  match change_change change with
  | ApAdd text overwritten_content => apply_add t source_path text overwritten_content
  | ApDelete text => apply_delete t source_path text
  | ApUpdate move_path old_content overwritten_move_content new_content =>
      apply_update t source_path (pair environment_id <$> move_path) old_content
        overwritten_move_content new_content
  end.

(** ** Rendering *)

Definition display_path (t : TurnDiffTracker) (path : TrackedPath) : rstr :=
  let display := default (inferred_native_path_string path.2)
    (display_roots_by_environment t !! path.1 ≫= relative_path_from path.2) in
  if (1 <? size (display_roots_by_environment t)) && negb (is_empty path.1)
  then path.1 ++ str "/" ++ display else display.

Definition git_blob_oid (data : list N) : rstr :=
  sha1_hex (utf8 (str "blob " ++ display_nat (length data)) ++ [0%N] ++ data).

Definition render_diff (progress : N) (t : TurnDiffTracker) (left_path : TrackedPath) (left_content : option rstr)
    (right_path : TrackedPath) (right_content : option rstr) : option rstr :=
  if bool_decide (left_content = right_content) then None
  else
    let left_display := replace_char 92 47 (display_path t left_path) in
    let right_display := replace_char 92 47 (display_path t right_path) in
    let oid c := match c with None => ZERO_OID | Some text => git_blob_oid (utf8 text) end in
    let header := str "diff --git a/" ++ left_display ++ str " b/" ++ right_display ++ [ch_nl] in
    let mode :=
      match left_content, right_content with
      | None, Some _ => Some (str "new file mode " ++ REGULAR_FILE_MODE ++ [ch_nl])
      | Some _, None => Some (str "deleted file mode " ++ REGULAR_FILE_MODE ++ [ch_nl])
      | Some _, Some _ => Some []
      | None, None => None
      end in
    match mode with
    | None => None
    | Some mode_line =>
        let index := str "index " ++ oid left_content ++ str ".." ++ oid right_content ++ [ch_nl] in
        let old_header := match left_content with
                          | Some _ => str "a/" ++ left_display | None => DEV_NULL end in
        let new_header := match right_content with
                          | Some _ => str "b/" ++ right_display | None => DEV_NULL end in
        Some (header ++ mode_line ++ index
              ++ unified_diff_text progress old_header new_header
                   (default [] left_content) (default [] right_content))
    end.

(** The filter of [rename_pairs] *)
Definition is_rename (t : TurnDiffTracker) (dest_path origin_path : TrackedPath) : bool :=
  negb (bool_decide (dest_path = origin_path)
        || in_current t origin_path || negb (in_current t dest_path)
        || negb (in_baseline t origin_path) || in_baseline t dest_path).
(** [rename_pairs]: a [HashMap] collected from the pairs in iteration order. *)
Definition rename_pairs (t : TurnDiffTracker) : gmap TrackedPath TrackedPath :=
  foldl (λ m d, if is_rename t d.1 d.2 then <[d.2 := d.1]> m else m) ∅
    (map_to_list (origin_by_current_path t)).

(** [aggregated.push_str(diff); if !aggregated.ends_with('\n') { push('\n') }] *)
Definition push_diff (aggregated : rstr) (rendered : option rstr) : rstr :=
  match rendered with
  | Some diff =>
      let aggregated := aggregated ++ diff in
      if ends_with aggregated [ch_nl] then aggregated else aggregated ++ [ch_nl]
  | None => aggregated
  end.

Record refresh_acc := mkAcc {
  handled : gset TrackedPath;
  previous_diffs : gmap DiffCacheKey (option rstr);
  new_diffs : gmap DiffCacheKey (option rstr);
  aggregated : rstr;
}.

Definition cache_key (t : TurnDiffTracker) (left_path right_path : TrackedPath) : DiffCacheKey :=
  (left_path, revision <$> baseline_by_path t !! left_path,
   right_path, revision <$> current_by_path t !! right_path).

Definition render_pair (progress : N) (t : TurnDiffTracker) (left_path right_path : TrackedPath) : option rstr :=
  render_diff progress t left_path (content <$> baseline_by_path t !! left_path)
    right_path (content <$> current_by_path t !! right_path).

(** The body of the loop of [refresh_unified_diff]. *)
Definition refresh_path (progress : DiffProgress) (t : TurnDiffTracker) (pairs : gmap TrackedPath TrackedPath)
    (paired_destinations : gset TrackedPath) (acc : refresh_acc) (path : TrackedPath)
    : refresh_acc :=
  if decide (path ∈ handled acc) then acc
  else
    let handled1 := {[path]} ∪ handled acc in
    if decide (path ∈ paired_destinations)
    then mkAcc handled1 (previous_diffs acc) (new_diffs acc) (aggregated acc)
    else
      let '(right_path, handled2) :=
        match pairs !! path with
        | Some dest => (dest, {[dest]} ∪ handled1)
        | None => (path, handled1)
        end in
      let key := cache_key t path right_path in
      let rendered := match previous_diffs acc !! key with
                      | Some r => r
                      | None => render_pair (progress key) t path right_path
                      end in
      mkAcc handled2 (delete key (previous_diffs acc)) (<[key := rendered]> (new_diffs acc))
        (push_diff (aggregated acc) rendered).

(** [paths], sorted by the displayed path *)
Definition refresh_paths (t : TurnDiffTracker) : list TrackedPath :=
  dedup (sort_by_key (display_path t)
    ((map_to_list (baseline_by_path t)).*1 ++ (map_to_list (current_by_path t)).*1)).

Definition refresh_unified_diff (progress : DiffProgress) (t : TurnDiffTracker) : TurnDiffTracker :=
  let pairs := rename_pairs t in
  let paired_destinations : gset TrackedPath := list_to_set (map_to_list pairs).*2 in
  let acc := foldl (refresh_path progress t pairs paired_destinations)
               (mkAcc ∅ (rendered_diffs t) ∅ []) (refresh_paths t) in
  mkTracker (valid t) (display_roots_by_environment t) (baseline_by_path t) (current_by_path t)
    (origin_by_current_path t) (next_revision t) (new_diffs acc)
    (if is_empty (aggregated acc) then None else Some (aggregated acc)).

Definition invalidate (t : TurnDiffTracker) : TurnDiffTracker :=
  mkTracker false (display_roots_by_environment t) (baseline_by_path t) (current_by_path t)
    (origin_by_current_path t) (next_revision t) ∅ None.

Definition track_delta (progress : DiffProgress) (t : TurnDiffTracker) (environment_id : rstr)
    (delta : AppliedPatchDelta Uri) : TurnDiffTracker :=
  if negb (valid t) then t
  else if negb (delta_exact delta) then invalidate t
  else refresh_unified_diff progress
         (foldl (λ t c, apply_change t environment_id c) t (delta_changes delta)).

Definition get_unified_diff (t : TurnDiffTracker) : option rstr := unified_diff t.
Definition has_unified_diff (t : TurnDiffTracker) : bool := bool_decide (is_Some (unified_diff t)).

(** Applying a change never revalidates or invalidates the tracker. *)
Lemma apply_change_valid t env c : valid (apply_change t env c) = valid t.
Proof.
  unfold apply_change, apply_add, apply_delete, apply_update.
  repeat (case_match; simpl); try done; by destruct (_ && _).
Qed.

Lemma apply_changes_valid t env cs : valid (foldl (λ t c, apply_change t env c) t cs) = valid t.
Proof. revert t; induction cs as [|c cs IH]; intros t; simpl; [done|]. by rewrite IH, apply_change_valid. Qed.

End tracker.

(** ** What the tracker holds and renders *)

Section props.
Context {Uri : Type} `{PathUri Uri} `{DiffTools Uri}.
Implicit Types (t : @TurnDiffTracker Uri _) (p : @TrackedPath Uri) (c : AppliedPatchChange Uri).

(** ** The tracked contents are the files *)

(** A change of one environment as a change of tracked paths. *)
Definition lift_change (env : rstr) c : AppliedPatchChange TrackedPath :=
  mkChange (env, change_path c)
    match change_change c with
    | ApAdd text overwritten => ApAdd text overwritten
    | ApDelete text => ApDelete text
    | ApUpdate mv old overwritten new => ApUpdate (pair env <$> mv) old overwritten new
    end.

(** The change is not a move of a file onto itself. *)
Definition proper_move c : bool :=
  match change_change c with
  | ApUpdate (Some dest) _ _ _ => negb (bool_decide (dest = change_path c))
  | _ => true
  end.

(** An untracked path has not changed; of a tracked one, the baseline is what
    the turn found and the current content is what is there now. *)
Definition tracks_at (init now : gmap TrackedPath rstr) t p : Prop :=
  (baseline_by_path t !! p = None ∧ current_by_path t !! p = None ∧ init !! p = now !! p) ∨
  (content <$> baseline_by_path t !! p = init !! p ∧
   content <$> current_by_path t !! p = now !! p).
Definition tracks_files (init now : gmap TrackedPath rstr) t : Prop := ∀ p, tracks_at init now t p.

(** The first time a path is seen its content is recorded. *)
Definition note_baseline t p (text : option rstr) : TurnDiffTracker :=
  match text with
  | Some text => if negb (in_current t p) && negb (in_baseline t p)
                 then insert_baseline t p text else t
  | None => t
  end.

#[local] Arguments note_baseline : simpl never.

Lemma note_baseline_frame t p text :
  current_by_path (note_baseline t p text) = current_by_path t ∧
  origin_by_current_path (note_baseline t p text) = origin_by_current_path t ∧
  ∀ q, q ≠ p → baseline_by_path (note_baseline t p text) !! q = baseline_by_path t !! q.
Proof.
  unfold note_baseline. destruct text as [x|]; [|done]. case_match; [|done]. simpl.
  split_and!; [done..|]. intros q Hq. by rewrite lookup_insert_ne.
Qed.

Lemma note_baseline_here init now t p text :
  tracks_at init now t p → now !! p = text →
  content <$> baseline_by_path (note_baseline t p text) !! p = init !! p.
Proof.
  intros Ht <-. unfold note_baseline, in_current, in_baseline, tracks_at in *.
  destruct (now !! p) as [x|] eqn:Ex.
  - destruct Ht as [(Hb & Hc & Hi)|[Hb Hc]].
    + rewrite Hb, Hc. rewrite !bool_decide_eq_false_2 by (by intros [? ?]). simpl.
      by rewrite lookup_insert_eq.
    + destruct (current_by_path t !! p); [|done].
      by rewrite bool_decide_eq_true_2 by eauto.
  - destruct Ht as [(Hb & Hc & Hi)|[Hb Hc]]; [by rewrite Hb|done].
Qed.

Lemma tracks_at_ext init now init' now' t t' p :
  baseline_by_path t' !! p = baseline_by_path t !! p →
  current_by_path t' !! p = current_by_path t !! p →
  init' !! p = init !! p → now' !! p = now !! p →
  tracks_at init now t p → tracks_at init' now' t' p.
Proof. unfold tracks_at. by intros -> -> -> ->. Qed.

Lemma apply_add_eq t p text ow :
  apply_add t p text ow =
  insert_current (note_baseline (set_origin t (delete p (origin_by_current_path t))) p ow) p text.
Proof. done. Qed.

Lemma apply_add_tracks_files init now t p text ow :
  tracks_files init now t → now !! p = ow →
  tracks_files init (<[p := text]> now) (apply_add t p text ow).
Proof.
  intros Ht Hp. rewrite apply_add_eq.
  set (t1 := set_origin t _). assert (tracks_files init now t1) as Ht1 by apply Ht.
  destruct (note_baseline_frame t1 p ow) as (Hc & _ & Hb). intros q.
  destruct (decide (q = p)) as [->|Hne].
  - right. simpl. rewrite !lookup_insert_eq. split; [|done].
    by apply (note_baseline_here init now).
  - eapply (tracks_at_ext init now); [..|apply Ht1]; simpl;
      rewrite ?lookup_insert_ne, ?Hb, ?Hc by done; done.
Qed.

Lemma apply_delete_tracks_files init now t p text :
  tracks_files init now t → now !! p = Some text →
  tracks_files init (delete p now) (apply_delete t p text).
Proof.
  intros Ht Hp q. unfold apply_delete. destruct (decide (q = p)) as [->|Hne].
  - right. rewrite lookup_delete_eq. specialize (Ht p). unfold tracks_at in Ht.
    unfold in_current, in_baseline. simpl. destruct Ht as [(Hb & Hc & Hi)|[Hb Hc]].
    + rewrite Hb, Hc. rewrite !bool_decide_eq_false_2 by (by intros [? ?]). simpl.
      rewrite lookup_insert_eq, lookup_delete_eq. simpl. by rewrite Hi, Hp.
    + rewrite Hp in Hc. destruct (current_by_path t !! p); [|done].
      rewrite bool_decide_eq_true_2 by eauto. simpl. by rewrite lookup_delete_eq.
  - eapply (tracks_at_ext init now); [..|apply Ht]; simpl;
      rewrite ?lookup_delete_ne by done; try done; case_match; simpl;
      rewrite ?lookup_insert_ne, ?lookup_delete_ne by done; done.
Qed.

Lemma apply_rewrite_tracks_files init now t p old new :
  tracks_files init now t → now !! p = Some old →
  tracks_files init (<[p := new]> now) (apply_update t p None old None new).
Proof.
  intros Ht Hp. change (apply_update t p None old None new) with
    (insert_current (note_baseline t p (Some old)) p new).
  destruct (note_baseline_frame t p (Some old)) as (Hc & _ & Hb). intros q.
  destruct (decide (q = p)) as [->|Hne].
  - right. simpl. rewrite !lookup_insert_eq. split; [|done].
    by apply (note_baseline_here init now).
  - eapply (tracks_at_ext init now); [..|apply Ht]; simpl;
      rewrite ?lookup_insert_ne, ?Hb, ?Hc by done; done.
Qed.

(** The maps after a move. *)
Lemma apply_move_maps t p d old ow new :
  let t1 := note_baseline (note_baseline t p (Some old)) d ow in
  let t' := apply_update t p (Some d) old ow new in
  baseline_by_path t' = baseline_by_path t1 ∧
  current_by_path t' = <[d := mkTracked new (next_revision t1)]> (delete p (current_by_path t1)).
Proof.
  intros t1 t'. subst t'. unfold apply_update.
  change (if negb (in_current t p) && negb (in_baseline t p) then insert_baseline t p old else t)
    with (note_baseline t p (Some old)).
  fold (note_baseline (note_baseline t p (Some old)) d ow). fold t1.
  by case_decide.
Qed.

Lemma apply_move_tracks_files init now t p d old ow new :
  tracks_files init now t → now !! p = Some old → now !! d = ow → d ≠ p →
  tracks_files init (delete p (<[d := new]> now)) (apply_update t p (Some d) old ow new).
Proof.
  intros Ht Hp Hd Hne q. unfold tracks_at.
  destruct (apply_move_maps t p d old ow new) as [-> ->].
  destruct (note_baseline_frame t p (Some old)) as (Hc1 & _ & Hb1).
  set (t1 := note_baseline t p (Some old)) in *.
  destruct (note_baseline_frame t1 d ow) as (Hc2 & _ & Hb2).
  destruct (decide (q = d)) as [->|Hqd]; [|destruct (decide (q = p)) as [->|Hqp]].
  - right. rewrite lookup_insert_eq, lookup_delete_ne, lookup_insert_eq by done. split; [|done].
    apply (note_baseline_here init now); [|done].
    eapply tracks_at_ext; [..|apply Ht]; rewrite ?Hb1, ?Hc1 by done; done.
  - right. rewrite lookup_insert_ne, !lookup_delete_eq by done. split; [|done].
    rewrite Hb2 by done. by apply (note_baseline_here init now).
  - rewrite Hb2, Hb1, Hc2, Hc1 by done.
    rewrite lookup_insert_ne, !lookup_delete_ne, lookup_insert_ne by done. apply Ht.
Qed.

Lemma apply_change_tracks_files init now t env c :
  proper_move c = true →
  tracks_files init now t → change_matches now (lift_change env c) →
  tracks_files init (replay_change now (lift_change env c)) (apply_change t env c).
Proof.
  destruct c as [p [text ow|text|[d|] old ow new]]; simpl; unfold change_matches, proper_move; simpl.
  - intros _. apply apply_add_tracks_files.
  - intros _. apply apply_delete_tracks_files.
  - intros Hm Ht [Hp Hd]. apply apply_move_tracks_files; try done.
    reflect_bools. by intros [=].
  - intros _ ? ?. change (apply_change t env _) with (apply_update t (env, p) None old ow new).
    by apply (apply_rewrite_tracks_files init now t (env, p) old new).
Qed.

Lemma apply_changes_track_files init now t env cs now' :
  Forall (λ c, proper_move c = true) cs → tracks_files init now t →
  commits now (lift_change env <$> cs) now' →
  tracks_files init now' (foldl (λ t c, apply_change t env c) t cs).
Proof.
  intros Hm Ht. revert now'. induction cs as [|c cs IH] using rev_ind; simpl; intros now' Hc.
  - inversion Hc as [|cs m1 c ? ? Heq]; subst; [done|]. by destruct cs.
  - apply Forall_app in Hm as [Hm [Hmc _]%Forall_cons]. rewrite fmap_app in Hc. simpl in Hc.
    inversion Hc as [Hn|cs1 m1 c1 Hc1 Hm1 Heq]; [by destruct (fmap _ cs)|].
    apply app_inj_tail in Heq as [-> ->]. rewrite foldl_snoc.
    apply apply_change_tracks_files; auto.
Qed.

Lemma track_delta_valid progress t env d :
  valid (track_delta progress t env d) = valid t && delta_exact d.
Proof.
  unfold track_delta. destruct (valid t) eqn:Ev; [|done].
  destruct (delta_exact d); simpl; [|done]. by rewrite apply_changes_valid.
Qed.

Lemma track_delta_files progress init now t env d now' :
  valid (track_delta progress t env d) = true →
  Forall (λ c, proper_move c = true) (delta_changes d) → tracks_files init now t →
  commits now (lift_change env <$> delta_changes d) now' →
  tracks_files init now' (track_delta progress t env d).
Proof.
  rewrite track_delta_valid. intros [Hv He]%andb_true_iff Hm Ht Hc.
  unfold track_delta. rewrite Hv, He. simpl. intros p.
  exact (apply_changes_track_files init now t env _ now' Hm Ht Hc p).
Qed.
End props.

Section session.
Context {Uri Fs W : Type} `{FileSystemLaws Uri Fs} `{DiffTools Uri} `{IoWrite W}.
Implicit Types (env : rstr).

(** The files of one environment, keyed by tracked path. *)
Definition env_files env (m : gmap Uri rstr) : gmap (@TrackedPath Uri) rstr := kmap (pair env) m.

Lemma commits_env env (m m' : gmap Uri rstr) cs :
  commits m cs m' → commits (env_files env m) (lift_change env <$> cs) (env_files env m').
Proof.
  induction 1 as [|cs m1 c _ IH Hc]; [constructor|]. rewrite fmap_app. simpl.
  eapply commits_step; [exact IH|..]; unfold env_files;
    destruct c as [p [text ow|text|[d|] old ow new]];
    unfold change_matches, replay_change in *; simpl in *;
    rewrite ?(lookup_kmap _), ?(kmap_delete _), ?(kmap_insert _); done.
Qed.

(** A turn: patches applied one after the other in one environment, each
    outcome's delta given to the tracker; with each patch, how far the diffs get
    that are rendered after it. *)
Fixpoint run_turn (env : rstr) (options : ApplyPatchOptions) (cwd : Uri) (out : W)
    (fs : Fs) (t : TurnDiffTracker) (patches : list (rstr * DiffProgress))
    : Fs * TurnDiffTracker * list (AppliedPatchDelta Uri) :=
  match patches with
  | [] => (fs, t, [])
  | (patch, progress) :: patches' =>
      let o := apply_patch_with_options patch options cwd out out fs in
      let d := default (mkDelta [] false) (outcome_delta o) in
      let '(fs', t', ds) := run_turn env options cwd out (out_fs o) (track_delta progress t env d) patches' in
      (fs', t', d :: ds)
  end.

Lemma run_turn_valid env options cwd out fs t patches fs' t' ds :
  run_turn env options cwd out fs t patches = (fs', t', ds) → valid t' = true → valid t = true.
Proof.
  revert fs t fs' t' ds. induction patches as [|[p progress] ps IH]; simpl; intros fs t fs' t' ds Hr Hv.
  - by simplify_eq.
  - destruct (run_turn _ _ _ _ _ _ ps) as [[fs1 t1] ds1] eqn:E. simplify_eq.
    apply IH in E; [|done]. rewrite track_delta_valid in E. by apply andb_true_iff in E as [? _].
Qed.

Lemma run_turn_tracks env options cwd out init fs t patches fs' t' ds :
  run_turn env options cwd out fs t patches = (fs', t', ds) → valid t' = true →
  Forall (λ d, Forall (λ c, proper_move c = true) (delta_changes d)) ds →
  tracks_files init (env_files env (view fs)) t →
  tracks_files init (env_files env (view fs')) t'.
Proof.
  revert fs t fs' t' ds. induction patches as [|[p progress] ps IH]; simpl; intros fs t fs' t' ds Hr Hv Hm Ht.
  - by simplify_eq.
  - destruct (run_turn _ _ _ _ _ _ ps) as [[fs1 t1] ds1] eqn:E. simplify_eq.
    apply Forall_cons in Hm as [Hm Hms]. eapply IH; [exact E|done|done|].
    apply run_turn_valid in E; [|done]. eapply track_delta_files; [done|done|exact Ht|].
    rewrite track_delta_valid in E. apply andb_true_iff in E as [_ He].
    destruct (outcome_delta _) as [d|] eqn:Ed; [|done]. simpl in *.
    apply commits_env. by eapply exact_outcome_commits.
Qed.

(** C36: the tracker's picture of a turn is the truth: after any sequence of
    patches, successful or failed, while the tracker is still valid and no file
    was moved onto itself, an untracked path is unchanged on disk, and of a
    tracked path the baseline is the text before the turn and the current
    content is the text on disk now. *)
Theorem turn_diff_matches_disk (env : rstr) (options : ApplyPatchOptions) (cwd : Uri) (out : W)
    (roots : list (rstr * Uri)) (fs fs' : Fs) (t : TurnDiffTracker) (patches : list (rstr * DiffProgress))
    (ds : list (AppliedPatchDelta Uri)) :
  run_turn env options cwd out fs (with_environment_display_roots roots) patches = (fs', t, ds) →
  valid t = true →
  Forall (λ d, Forall (λ c, proper_move c = true) (delta_changes d)) ds →
  ∀ p, tracks_at (env_files env (view fs)) (env_files env (view fs')) t p.
Proof.
  intros Hr Hv Hm. eapply run_turn_tracks; [exact Hr|done|done|]. intros p. by left.
Qed.
End session.

(** ** A turn on the in-memory file system *)

(** Concrete tools: no display roots, a diff that shows both texts. *)
#[global] Instance mem_diff_tools : DiffTools mem_path := {|
  relative_path_from _ _ := None;
  unified_diff_text progress old new l r := old ++ [ch_nl] ++ new ++ [ch_nl] ++ l ++ r;
  sha1_hex data := display_nat (length data);
|}.

Abbreviation mem_turn patches :=
  (run_turn (str "env") default_options ([] : mem_path) ([] : list rstr) mem_start
     (with_environment_display_roots []) patches).

(** Two patches: the second one fails after adding [g]. *)
Definition turn_patches : list (rstr * @DiffProgress mem_path) := [(move_patch, λ _, 0%N); (failing_patch, λ _, 0%N)].

Lemma turn_diff_matches_disk_witness :
  let r := mem_turn turn_patches in
  valid r.1.2 = true ∧ length r.2 = 2 ∧
  ∀ p, tracks_at (env_files (str "env") (view mem_start)) (env_files (str "env") (view r.1.1)) r.1.2 p.
Proof.
  intros r.
  assert (bool_decide (valid r.1.2 = true ∧ length r.2 = 2 ∧
    Forall (λ d, Forall (λ c, proper_move c = true) (delta_changes d)) r.2) = true) as H
    by (vm_compute; reflexivity).
  apply bool_decide_eq_true_1 in H as (Hv & Hl & Hf).
  split; [exact Hv|]. split; [exact Hl|].
  assert (mem_turn turn_patches = (r.1.1, r.1.2, r.2)) as E
    by (fold r; destruct r as [[??]?]; reflexivity).
  exact (turn_diff_matches_disk (str "env") default_options ([] : mem_path) ([] : list rstr) []
    mem_start _ _ turn_patches _ E Hv Hf).
Defined.
