(* ===== verification/TurnDiffRender.v ===== *)
(** What the turn diff tracker renders: the cache is invisible and every tracked
    path is rendered exactly once. *)

From S2P Require Import Prelude ApplyPatch ApplyPatchSpec TurnDiff.

#[local] Opaque str.

Section render.
Context {Uri : Type} `{PathUri Uri} `{DiffTools Uri}.
Implicit Types (t : @TurnDiffTracker Uri _) (p : @TrackedPath Uri).

(** ** The reference rendering *)

Definition paired t : gset TrackedPath := list_to_set (map_to_list (rename_pairs t)).*2.

(** The elements of a list at their first occurrence. *)
Fixpoint first_visits (seen : gset TrackedPath) (l : list TrackedPath) : list TrackedPath :=
  match l with
  | [] => []
  | x :: l' => if decide (x ∈ seen) then first_visits seen l'
               else x :: first_visits ({[x]} ∪ seen) l'
  end.

(** The paths that head a diff: the tracked ones that are not the destination of
    a rename, in the order they are shown. *)
Definition visits t : list TrackedPath :=
  first_visits ∅ (filter (λ p, p ∉ paired t) (refresh_paths t)).
(** The path a diff compares its baseline with. *)
Definition counterpart t p : TrackedPath := default p (rename_pairs t !! p).

(** What one rendering from scratch gives when every diff gets equally far *)
Definition reference_diff (progress : N) t : rstr :=
  foldl (λ agg p, push_diff agg (render_pair progress t p (counterpart t p))) [] (visits t).
(** The published text of the pieces, one for each head *)
Definition published (pieces : list (option rstr)) : option rstr :=
  let aggregated := foldl push_diff [] pieces in
  if is_empty aggregated then None else Some aggregated.

(** Renderings get as far as [P] allows. *)
Context (P : N → Prop).
(** The piece is a rendering of the present contents of the path. *)
Definition rendering t p (piece : option rstr) : Prop :=
  ∃ progress, P progress ∧ piece = render_pair progress t p (counterpart t p).

(** ** The cache *)

(** A cached text is one that can be rendered from the contents that had the
    revisions of its key. *)
Definition entry_ok t (h : N → rstr) (k : DiffCacheKey) (v : option rstr) : Prop :=
  let '(l, lr, r, rr) := k in
  (∀ n, lr = Some n ∨ rr = Some n → (n < next_revision t)%N) ∧
  ∃ progress, P progress ∧ v = render_diff progress t l (h <$> lr) r (h <$> rr).
Definition content_ok t (h : N → rstr) (c : TrackedContent) : Prop :=
  h (revision c) = content c ∧ (revision c < next_revision t)%N.
Definition cache_ok t : Prop := ∃ h,
  map_Forall (λ _ c, content_ok t h c) (baseline_by_path t) ∧
  map_Forall (λ _ c, content_ok t h c) (current_by_path t) ∧
  map_Forall (λ k v, entry_ok t h k v) (rendered_diffs t).

(** [n] more contents can be tracked before the counter wraps around. *)
Definition has_room (n : nat) t : Prop := cache_ok t ∧ (next_revision t + N.of_nat n < 2 ^ 64)%N.

Lemma render_diff_roots progress t t' l lc r rc :
  display_roots_by_environment t' = display_roots_by_environment t →
  render_diff progress t' l lc r rc = render_diff progress t l lc r rc.
Proof. intros E. unfold render_diff, display_path. by rewrite E. Qed.

(** A new content gets a revision no one has used. *)
Lemma fresh_revision t t' h text :
  next_revision t' = (next_revision t + 1)%N →
  display_roots_by_environment t' = display_roots_by_environment t →
  let h' n := if decide (n = next_revision t) then text else h n in
  content_ok t' h' (mkTracked text (next_revision t)) ∧
  (∀ c, content_ok t h c → content_ok t' h' c) ∧
  (∀ k v, entry_ok t h k v → entry_ok t' h' k v).
Proof.
  intros Hn Hr h'. unfold content_ok, entry_ok. split_and!; simpl.
  - unfold h'. by rewrite decide_True.
  - lia.
  - intros c [Hc Hlt]. unfold h'. rewrite decide_False by lia. split; [done|lia].
  - intros [[[l lr] r] rr] v (Hlt & k & Hk & ->). split; [intros n Hn'; specialize (Hlt n Hn'); lia|].
    exists k. split; [done|]. rewrite (render_diff_roots k t t') by done.
    assert (∀ o, (∀ n, o = Some n → (n < next_revision t)%N) → h' <$> o = h <$> o) as Ho.
    { intros [n|] Hlt'; [|done]. simpl. unfold h'. rewrite decide_False; [done|].
      specialize (Hlt' n eq_refl). lia. }
    rewrite !Ho; naive_solver.
Qed.

Lemma tracked_revision n t : has_room (S n) t → ((next_revision t + 1) mod 2 ^ 64 = next_revision t + 1)%N.
Proof. intros [_ Hlt]. apply N.mod_small. lia. Qed.
Lemma has_room_less n t : has_room (S n) t → has_room n t.
Proof. intros [? ?]. split; [done|lia]. Qed.
Lemma has_room_insert_baseline n t p text : has_room (S n) t → has_room n (insert_baseline t p text).
Proof.
  intros Hr. pose proof (tracked_revision _ _ Hr) as Hn. destruct Hr as [(h & Hb & Hc & He) Hlt].
  destruct (fresh_revision t (insert_baseline t p text) h text) as (H1 & H2 & H3); [done..|].
  split; [|simpl; lia]. eexists. split_and!.
  - apply map_Forall_insert_2; [exact H1|]. intros q c Hq. by eapply H2, Hb.
  - intros q c Hq. by eapply H2, Hc.
  - intros k v Hk. by apply H3, He.
Qed.
Lemma has_room_insert_current n t p text : has_room (S n) t → has_room n (insert_current t p text).
Proof.
  intros Hr. pose proof (tracked_revision _ _ Hr) as Hn. destruct Hr as [(h & Hb & Hc & He) Hlt].
  destruct (fresh_revision t (insert_current t p text) h text) as (H1 & H2 & H3); [done..|].
  split; [|simpl; lia]. eexists. split_and!.
  - intros q c Hq. by eapply H2, Hb.
  - apply map_Forall_insert_2; [exact H1|]. intros q c Hq. by eapply H2, Hc.
  - intros k v Hk. by apply H3, He.
Qed.
Lemma has_room_set_origin n t o : has_room n t → has_room n (set_origin t o).
Proof. done. Qed.
Lemma has_room_delete_current n t p :
  has_room n t → has_room n (set_current t (delete p (current_by_path t))).
Proof.
  intros [(h & Hb & Hc & He) Hlt]. split; [|done]. exists h. split_and!; [done| |done].
  by apply map_Forall_delete.
Qed.
(** A change tracks at most three contents. *)
Lemma has_room_apply_change n t env c : has_room (3 + n) t → has_room n (apply_change t env c).
Proof.
  intros Ht. pose proof (has_room_less _ _ Ht) as Ht2. pose proof (has_room_less _ _ Ht2) as Ht1.
  pose proof (has_room_less _ _ Ht1) as Ht0.
  assert (∀ m t p text, has_room (S m) t → has_room m (note_baseline t p text)) as Hnote.
  { intros m t' p [text|] Hr; [|by apply has_room_less]. simpl.
    case_match; [by apply has_room_insert_baseline|by apply has_room_less]. }
  destruct c as [path [text ow|text|move old ow new]]; unfold apply_change; cbn [change_change change_path].
  - rewrite apply_add_eq. apply has_room_insert_current, Hnote. done.
  - unfold apply_delete. apply has_room_set_origin.
    case_match; [by apply has_room_insert_baseline, has_room_delete_current|by apply has_room_delete_current].
  - unfold apply_update.
    change (if negb (in_current t (env, path)) && negb (in_baseline t (env, path))
            then insert_baseline t (env, path) old else t) with (note_baseline t (env, path) (Some old)).
    destruct move as [d|]; cbn [fmap option_fmap option_map]; [|by apply has_room_insert_current, Hnote].
    set (t1 := note_baseline t (env, path) (Some old)). change (match ow with Some _ => _ | None => t1 end)
      with (note_baseline t1 (env, d) ow).
    assert (has_room (S n) (note_baseline t1 (env, d) ow)) as Hr by by apply Hnote, Hnote.
    case_decide; [|apply has_room_set_origin]; by apply has_room_set_origin, has_room_insert_current, has_room_delete_current.
Qed.
Lemma has_room_apply_changes n t env cs :
  has_room (3 * length cs + n) t → has_room n (foldl (λ t c, apply_change t env c) t cs).
Proof.
  revert t. induction cs as [|c cs IH]; intros t Ht; simpl in *; [done|]. apply IH, has_room_apply_change.
  eapply (eq_rect _ (λ m, has_room m t) Ht). lia.
Qed.

(** With a sound cache, one step renders what it would render without. *)
Lemma cached_is_rendered t h l r v :
  map_Forall (λ _ c, content_ok t h c) (baseline_by_path t) →
  map_Forall (λ _ c, content_ok t h c) (current_by_path t) →
  entry_ok t h (cache_key t l r) v ↔ ∃ progress, P progress ∧ v = render_pair progress t l r.
Proof.
  intros Hb Hc. unfold entry_ok, cache_key, render_pair.
  assert (∀ (m : gmap TrackedPath TrackedContent) q, map_Forall (λ _ c, content_ok t h c) m →
    h <$> (revision <$> m !! q) = content <$> m !! q ∧
    ∀ n, revision <$> m !! q = Some n → (n < next_revision t)%N) as Hm.
  { intros m q Hm. destruct (m !! q) as [c|] eqn:Eq; simpl; [|done].
    destruct (Hm q c Eq) as [-> ?]. split; [done|]. by intros n [= <-]. }
  destruct (Hm _ l Hb) as [-> Hl], (Hm _ r Hc) as [-> Hr]. naive_solver.
Qed.

Definition acc_ok t h (acc : refresh_acc) (seen : gset TrackedPath) : Prop :=
  map_Forall (λ k v, entry_ok t h k v) (previous_diffs acc) ∧
  map_Forall (λ k v, entry_ok t h k v) (new_diffs acc) ∧
  (∀ p, p ∉ paired t → p ∈ handled acc ↔ p ∈ seen).

Lemma elem_of_paired t p : p ∈ paired t ↔ ∃ o, rename_pairs t !! o = Some p.
Proof.
  unfold paired. rewrite elem_of_list_to_set, list_elem_of_fmap. split.
  - intros ([o d] & -> & Hd%elem_of_map_to_list). eauto.
  - intros [o Ho]. exists (o, p). split; [done|]. by apply elem_of_map_to_list.
Qed.

Lemma refresh_loop progress t h l acc seen :
  (∀ key, P (progress key)) →
  map_Forall (λ _ c, content_ok t h c) (baseline_by_path t) →
  map_Forall (λ _ c, content_ok t h c) (current_by_path t) →
  acc_ok t h acc seen →
  let acc' := foldl (refresh_path progress t (rename_pairs t) (paired t)) acc l in
  map_Forall (λ k v, entry_ok t h k v) (new_diffs acc') ∧
  ∃ pieces, Forall2 (rendering t) (first_visits seen (filter (λ p, p ∉ paired t) l)) pieces ∧
    aggregated acc' = foldl push_diff (aggregated acc) pieces.
Proof.
  intros HP Hb Hc. revert acc seen. induction l as [|p l IH]; simpl; intros acc seen (Hp & Hn & Hh).
  { split; [done|]. exists []. by split; [constructor|]. }
  rewrite filter_cons. unfold refresh_path at 2 4.
  destruct (decide (p ∈ handled acc)) as [Hin|Hin].
  { destruct (decide (p ∉ paired t)) as [Hnp|Hpd]; [|by apply IH].
    simpl. rewrite decide_True by (by apply Hh). by apply IH. }
  destruct (decide (p ∈ paired t)) as [Hpd|Hpd].
  { rewrite decide_False by (by intros ?). refine (IH (mkAcc _ _ _ _) seen _). split_and!; [done..|].
    intros q Hq. simpl. rewrite <- (Hh q Hq). set_solver. }
  rewrite decide_True by done. simpl. rewrite decide_False by (by rewrite <- Hh).
  assert (∃ hd, (match rename_pairs t !! p with
                 | Some dest => (dest, {[dest]} ∪ ({[p]} ∪ handled acc))
                 | None => (p, {[p]} ∪ handled acc) end) = (counterpart t p, hd) ∧
    ∀ q, q ∉ paired t → q ∈ hd ↔ q ∈ {[p]} ∪ seen) as (hd & -> & Hhd).
  { unfold counterpart. destruct (rename_pairs t !! p) as [d|] eqn:Ed; simpl; eexists; (split; [done|]);
      intros q Hq; specialize (Hh q Hq); [|set_solver].
    assert (q ≠ d); [|set_solver]. intros ->. apply Hq, elem_of_paired. eauto. }
  set (v := match previous_diffs acc !! _ with Some r => r | None => _ end).
  assert (rendering t p v) as Hv.
  { subst v. destruct (previous_diffs acc !! _) eqn:Ev; [|by eexists].
    apply (cached_is_rendered t h); [done..|]. by apply Hp. }
  destruct (IH (mkAcc hd (delete (cache_key t p (counterpart t p)) (previous_diffs acc)) (<[cache_key t p (counterpart t p) := v]> (new_diffs acc))
    (push_diff (aggregated acc) v)) ({[p]} ∪ seen)) as (Hd & pieces & Hpieces & Ha).
  { split_and!; simpl; [by apply map_Forall_delete| |exact Hhd].
    apply map_Forall_insert_2; [|done]. by apply cached_is_rendered. }
  split; [exact Hd|]. exists (v :: pieces). split; [by constructor|exact Ha].
Qed.

Lemma refresh_reference n progress t :
  (∀ key, P (progress key)) → has_room n t →
  has_room n (refresh_unified_diff progress t) ∧
  ∃ pieces, Forall2 (rendering t) (visits t) pieces ∧
    unified_diff (refresh_unified_diff progress t) = published pieces.
Proof.
  intros HP [(h & Hb & Hc & He) Hlt].
  destruct (refresh_loop progress t h (refresh_paths t) (mkAcc ∅ (rendered_diffs t) ∅ []) ∅ HP Hb Hc)
    as (Hn & pieces & Hp & Ha); [split_and!; [done|apply map_Forall_empty|done]|].
  split; [split; [by exists h|done]|]. exists pieces. split; [done|]. simpl. unfold paired in Ha. simpl in Ha.
  unfold published. by rewrite Ha.
Qed.
(** When every diff gets equally far, the pieces are those of one rendering from
    scratch. *)
Lemma equal_progress_pieces progress t l pieces agg :
  (∀ k, P k → k = progress) → Forall2 (rendering t) l pieces →
  foldl push_diff agg pieces = foldl (λ agg p, push_diff agg (render_pair progress t p (counterpart t p))) agg l.
Proof.
  intros HP Hl. revert agg. induction Hl as [|p piece l pieces (k & ->%HP & ->) _ IH]; intros agg; simpl; [done|].
  by rewrite IH.
Qed.

(** The changes of a sequence of deltas *)
Fixpoint change_count (events : list (@DiffProgress Uri * rstr * AppliedPatchDelta Uri)) : nat :=
  match events with
  | [] => 0
  | (_, _, delta) :: events => length (delta_changes delta) + change_count events
  end.
(** C37: the cache of rendered diffs is invisible: after any sequence of deltas
    the published diff of a valid tracker is made of one piece for each changed path
    or rename, each a rendering of the baseline and the current contents of that
    path, by a diff that ran to some point before its deadline; when all of them ran equally
    far, such as to the end, that is the diff rendered from scratch.  An invalid
    tracker publishes nothing.  The deltas do not exhaust the revision counter. *)
Theorem unified_diff_is_reference (roots : list (rstr * Uri))
    (events : list (@DiffProgress Uri * rstr * AppliedPatchDelta Uri)) :
  Forall (λ e, ∀ key, P (e.1.1 key)) events →
  (3 * N.of_nat (change_count events) < 2 ^ 64)%N →
  let t := foldl (λ t e, track_delta e.1.1 t e.1.2 e.2) (with_environment_display_roots roots) events in
  (valid t = true →
   ∃ pieces, Forall2 (rendering t) (visits t) pieces ∧ get_unified_diff t = published pieces
     ∧ ∀ progress, (∀ k, P k → k = progress) → foldl push_diff [] pieces = reference_diff progress t)
  ∧ (valid t = false → get_unified_diff t = None).
Proof.
  intros HP Hroom. simpl. set (Q n t := has_room n t ∧
    if valid t then ∃ pieces, Forall2 (rendering t) (visits t) pieces ∧ get_unified_diff t = published pieces
    else get_unified_diff t = None).
  assert (∀ n t, Q (3 * change_count events + n) t →
    Q n (foldl (λ t e, track_delta e.1.1 t e.1.2 e.2) t events)) as HQ.
  { clear Hroom. induction events as [|[[progress env] d] es IH]; cbn [foldl change_count fst snd]; [done|].
    apply Forall_cons in HP as [HP HPs]. specialize (IH HPs). intros n t [Ht Hu]. apply IH. clear IH.
    assert (has_room (3 * length (delta_changes d) + (3 * change_count es + n)) t) as Hr.
    { eapply (eq_rect _ (λ m, has_room m t) Ht). lia. }
    unfold track_delta. destruct (valid t) eqn:Ev; simpl.
    2: { split; [|by rewrite Ev]. destruct Hr. split; [done|]. lia. }
    destruct (delta_exact d); simpl.
    - apply (has_room_apply_changes _ _ env) in Hr.
      destruct (refresh_reference _ progress _ HP Hr) as (H1 & pieces & H2 & H3). split; [done|].
      cbn [valid refresh_unified_diff]. rewrite apply_changes_valid, Ev. by exists pieces.
    - split; [|done]. destruct Hr as [(h & Hb & Hc & He) Hlt]. split; [|simpl; lia]. exists h. split_and!; [done..|].
      apply map_Forall_empty. }
  destruct (HQ 0 (with_environment_display_roots roots)) as [_ Ht].
  { split; [|by exists []]. split; [|simpl; lia]. exists (λ _, []). split_and!; apply map_Forall_empty. }
  destruct (valid _); (split; [|done]); [|done]. intros _. destruct Ht as (pieces & H1 & H2).
  exists pieces. split_and!; [done..|].
  intros progress Hp. by apply equal_progress_pieces.
Qed.

(** ** Every tracked path is rendered once *)

Lemma first_visits_spec seen l :
  NoDup (first_visits seen l) ∧
  ∀ x, x ∈ first_visits seen l ↔ x ∈ l ∧ x ∉ seen.
Proof.
  revert seen. induction l as [|y l IH]; intros seen; simpl; [split; [constructor|set_solver]|].
  destruct (decide (y ∈ seen)) as [Hy|Hy].
  - destruct (IH seen) as [Hd Hx]. split; [done|]. intros x. rewrite Hx. set_solver.
  - destruct (IH ({[y]} ∪ seen)) as [Hd Hx]. split.
    + constructor; [|done]. rewrite Hx. set_solver.
    + intros x. rewrite elem_of_cons, Hx.
      destruct (decide (x = y)) as [->|]; set_solver.
Qed.

Lemma elem_of_refresh_paths t p :
  p ∈ refresh_paths t ↔ is_Some (baseline_by_path t !! p) ∨ is_Some (current_by_path t !! p).
Proof.
  unfold refresh_paths. rewrite elem_of_dedup, elem_of_sort_by_key, elem_of_app.
  assert (∀ m : gmap TrackedPath TrackedContent, p ∈ (map_to_list m).*1 ↔ is_Some (m !! p)) as Hm.
  { intros m. rewrite list_elem_of_fmap. split.
    - intros ([q c] & -> & Hq%elem_of_map_to_list). simpl. eauto.
    - intros [c Hc]. exists (p, c). split; [done|]. by apply elem_of_map_to_list. }
  by rewrite !Hm.
Qed.

Lemma rename_pairs_Some t o d :
  rename_pairs t !! o = Some d → origin_by_current_path t !! d = Some o ∧ is_rename t d o = true.
Proof.
  unfold rename_pairs. rewrite <- (elem_of_map_to_list (origin_by_current_path t)).
  generalize (map_to_list (origin_by_current_path t)). intros l.
  induction l as [|[d' o'] l IH] using rev_ind; simpl; [by rewrite lookup_empty|].
  rewrite foldl_snoc, elem_of_app, list_elem_of_singleton. simpl.
  destruct (is_rename t d' o') eqn:E; [|naive_solver].
  destruct (decide (o' = o)) as [->|Hne].
  - rewrite lookup_insert_eq. intros [= ->]. auto.
  - rewrite lookup_insert_ne by done. naive_solver.
Qed.

Lemma is_rename_true t d o :
  is_rename t d o = true →
  current_by_path t !! o = None ∧ is_Some (current_by_path t !! d) ∧
  is_Some (baseline_by_path t !! o).
Proof.
  unfold is_rename, in_current, in_baseline. intros Hr. reflect_bools.
  split_and!; [|done..]. by apply eq_None_not_Some.
Qed.

(** Every path the tracker knows is rendered exactly once, on the left or on the
    right of one diff: there is exactly one head of a diff that is the path
    itself or that the path is the rename destination of. *)
Theorem tracked_path_rendered_once (t : @TurnDiffTracker Uri _) (p : TrackedPath) :
  NoDup (visits t) ∧
  (is_Some (baseline_by_path t !! p) ∨ is_Some (current_by_path t !! p) →
   exists! o, o ∈ visits t ∧ (o = p ∨ rename_pairs t !! o = Some p)).
Proof.
  destruct (first_visits_spec ∅ (filter (λ p, p ∉ paired t) (refresh_paths t))) as [Hnd Hv].
  split; [done|]. intros Hp%elem_of_refresh_paths.
  assert (∀ o, o ∈ visits t ↔ o ∉ paired t ∧ o ∈ refresh_paths t) as Hvis.
  { intros o. unfold visits. rewrite Hv, list_elem_of_filter. set_solver. }
  destruct (decide (p ∈ paired t)) as [Hpd|Hpd].
  - pose proof (proj1 (elem_of_paired t p) Hpd) as [o Ho].
    destruct (rename_pairs_Some _ _ _ Ho) as [Horig (Hc & Hd & Hb)%is_rename_true].
    exists o. split; [split; [|by right]|].
    + apply Hvis. split; [|apply elem_of_refresh_paths; auto].
      intros (o' & Ho')%elem_of_paired. apply rename_pairs_Some in Ho' as [_ (_ & [? Hs] & _)%is_rename_true].
      congruence.
    + intros o' [Ho' [->|Hr]].
      * apply Hvis in Ho' as [? _]. done.
      * apply rename_pairs_Some in Hr as [Hr _]. congruence.
  - exists p. split; [split; [by apply Hvis|by left]|].
    intros o' [_ [->|Hr]]; [done|]. destruct Hpd. apply elem_of_paired. eauto.
Qed.
End render.

(** A tracker that has seen a rename. *)
Definition renamed_tracker : @TurnDiffTracker mem_path _ :=
  track_delta (λ _, 0%N) (with_environment_display_roots []) (str "env") move_delta.

Lemma tracked_path_rendered_once_witness :
  let p := (str "env", [str "d"; str "f"]) in
  is_Some (current_by_path renamed_tracker !! p) ∧
  exists! o, o ∈ visits renamed_tracker ∧ (o = p ∨ rename_pairs renamed_tracker !! o = Some p).
Proof.
  intros p. assert (is_Some (current_by_path renamed_tracker !! p)) as H
    by (vm_compute; eexists; reflexivity).
  split; [exact H|]. exact (proj2 (tracked_path_rendered_once renamed_tracker p) (or_intror H)).
Defined.

Example renamed_diff :
  get_unified_diff renamed_tracker = Some (reference_diff 0 renamed_tracker) ∧
  visits renamed_tracker = [(str "env", [str "d"; str "g"]); (str "env", [str "f"])].
Proof. split; vm_compute; reflexivity. Qed.

Lemma unified_diff_is_reference_witness :
  ∃ pieces, Forall2 (rendering (λ k, k = 0%N) renamed_tracker) (visits renamed_tracker) pieces
    ∧ get_unified_diff renamed_tracker = published pieces
    ∧ ∀ progress, (∀ k, k = 0%N → k = progress) → foldl push_diff [] pieces = reference_diff progress renamed_tracker.
Proof.
  apply (unified_diff_is_reference (λ k, k = 0%N) [] [((λ _, 0%N), str "env", move_delta)]);
    [by repeat constructor|vm_compute; reflexivity|vm_compute; reflexivity].
Defined.
