(* ===== verification/Invocation.v ===== *)
(** Recognising and verifying an [apply_patch] invocation:
    [apply-patch/src/invocation.rs].  What is shown for approval is what is
    applied, when the hunks touch different files, and only an explicit call is
    ever accepted. *)

From S2P Require Import Prelude PathUris PatchParser PatchParserProps FileUpdate SpliceProps ApplyPatch ApplyPatchProps ApplyPatchSpec.

#[local] Opaque str.

Definition APPLY_PATCH_COMMANDS : list rstr := [str "apply_patch"; str "applypatch"].

Inductive ApplyPatchShell := Unix | PowerShell | Cmd.

(** The payloads of the grammar and UTF-8 errors are kept as texts. *)
Inductive ExtractHeredocError :=
| CommandDidNotStartWithApplyPatch
| FailedToLoadBashGrammar (e : rstr)
| HeredocNotUtf8 (e : rstr)
| FailedToParsePatchIntoAst
| FailedToFindHeredocBody.

Inductive MaybeApplyPatch :=
| Body (args : ApplyPatchArgs)
| ShellParseError (e : ExtractHeredocError)
| PatchParseError (e : ParseError)
| NotApplyPatch.

(** [ApplyPatchFileChange] and [ApplyPatchAction] of [lib.rs] *)
Inductive ApplyPatchFileChange (Uri : Type) :=
| ChAdd (content : rstr)
| ChDelete (content : rstr)
| ChUpdate (unified_diff : rstr) (move_path : option Uri) (new_content : rstr).
Arguments ChAdd {Uri}.
Arguments ChDelete {Uri}.
Arguments ChUpdate {Uri}.

(** ** Shell command lines *)

(** [name.as_str()] is one of *)
Definition one_of (name : rstr) (names : list rstr) : bool := bool_decide (name ∈ names).

Definition classify_shell_name (shell : rstr) (convention : PathConvention) : option rstr :=
  basename ← last (path_segments convention shell);
  let stem := match rsplit_once 46%N basename with
              | Some (stem, _) => if is_empty stem then basename else stem
              | None => basename
              end in
  Some (to_ascii_lowercase stem).

Definition classify_shell (shell flag : rstr) (convention : PathConvention)
    : option ApplyPatchShell :=
  name ← classify_shell_name shell convention;
  if one_of name [str "bash"; str "zsh"; str "sh"] && one_of flag [str "-lc"; str "-c"]
  then Some Unix
  else if one_of name [str "pwsh"; str "powershell"] && eq_ignore_ascii_case flag (str "-command")
  then Some PowerShell
  else if one_of name [str "cmd"] && eq_ignore_ascii_case flag (str "/c")
  then Some Cmd
  else None.

Definition can_skip_flag (shell flag : rstr) (convention : PathConvention) : bool :=
  match classify_shell_name shell convention with
  | Some name => one_of name [str "pwsh"; str "powershell"]
                 && eq_ignore_ascii_case flag (str "-noprofile")
  | None => false
  end.

(** The captures of the tree-sitter query. *)
Inductive capture_name := CapHeredoc | CapCdPath | CapCdRawString | CapOther.

(** What invocations need of other crates: the path convention of a URI, the
    matches of [APPLY_PATCH_QUERY] in the tree-sitter parse of a script (each a
    list of captures with their text, or the error of [utf8_text]), and the
    unified diff of the crate [similar] with its context radius. *)
Class InvocationTools (Uri : Type) := {
  infer_path_convention : Uri → option PathConvention;
  query_matches :
    rstr → result ExtractHeredocError (list (list (capture_name * result rstr rstr)));
  unified_diff_with_context : nat → rstr → rstr → rstr;
}.

Section invocation.
Context {Uri Fs : Type} `{PathUri Uri} `{ExecutorFileSystem Uri Fs} `{InvocationTools Uri}.

Definition parse_shell_script (argv : list rstr) (cwd : Uri) : option (ApplyPatchShell * rstr) :=
  convention ← infer_path_convention cwd;
  match argv with
  | [shell; flag; script] =>
      shell_type ← classify_shell shell flag convention; Some (shell_type, script)
  | [shell; skip_flag; flag; script] =>
      if negb (can_skip_flag shell skip_flag convention) then None
      else shell_type ← classify_shell shell flag convention; Some (shell_type, script)
  | _ => None
  end.

(** The loop over the captures of a match: [heredoc_text] and [cd_path]. *)
Fixpoint read_captures (captures : list (capture_name * result rstr rstr))
    (heredoc_text cd_path : option rstr)
    : result ExtractHeredocError (option rstr * option rstr) :=
  match captures with
  | [] => Ok (heredoc_text, cd_path)
  | (name, node_text) :: captures' =>
      match name with
      | CapHeredoc =>
          text ← map_err HeredocNotUtf8 node_text;
          read_captures captures' (Some (trim_end_by (N.eqb ch_nl) text)) cd_path
      | CapCdPath =>
          text ← map_err HeredocNotUtf8 node_text;
          read_captures captures' heredoc_text (Some text)
      | CapCdRawString =>
          raw ← map_err HeredocNotUtf8 node_text;
          let trimmed := default raw (strip_prefix (str "'") raw ≫= strip_suffix (str "'")) in
          read_captures captures' heredoc_text (Some trimmed)
      | CapOther => read_captures captures' heredoc_text cd_path
      end
  end.

(** [while let Some(m) = matches.next()] *)
Fixpoint first_heredoc (matches : list (list (capture_name * result rstr rstr)))
    : result ExtractHeredocError (rstr * option rstr) :=
  match matches with
  | [] => Err CommandDidNotStartWithApplyPatch
  | captures :: matches' =>
      '(heredoc_text, cd_path) ← read_captures captures None None;
      match heredoc_text with
      | Some heredoc => Ok (heredoc, cd_path)
      | None => first_heredoc matches'
      end
  end.

Definition extract_apply_patch_from_bash (src : rstr)
    : result ExtractHeredocError (rstr * option rstr) :=
  matches ← query_matches src;
  first_heredoc matches.

Definition extract_apply_patch_from_shell (shell : ApplyPatchShell) (script : rstr)
    : result ExtractHeredocError (rstr * option rstr) :=
  match shell with
  | Unix | PowerShell | Cmd => extract_apply_patch_from_bash script
  end.

Definition maybe_parse_shell (argv : list rstr) (cwd : Uri) : MaybeApplyPatch :=
  match parse_shell_script argv cwd with
  | Some (shell, script) =>
      match extract_apply_patch_from_shell shell script with
      | Ok (body, workdir) =>
          match parse_patch body with
          | Ok source =>
              Body (mkArgs (args_patch source) (args_hunks source) workdir
                      (args_environment_id source))
          | Err e => PatchParseError e
          end
      | Err CommandDidNotStartWithApplyPatch => NotApplyPatch
      | Err e => ShellParseError e
      end
  | None => NotApplyPatch
  end.

Definition maybe_parse_apply_patch (argv : list rstr) (cwd : Uri) : MaybeApplyPatch :=
  match argv with
  | [cmd; body] =>
      if one_of cmd APPLY_PATCH_COMMANDS then
        match parse_patch body with
        | Ok source => Body source
        | Err e => PatchParseError e
        end
      else maybe_parse_shell argv cwd
  | _ => maybe_parse_shell argv cwd
  end.

(** ** Verification *)

Record ApplyPatchAction := mkAction {
  action_changes : gmap Uri (ApplyPatchFileChange Uri);
  action_mode : ApplyPatchFileUpdateMode;
  action_patch : rstr;
  action_cwd : Uri;
}.

Record ApplyPatchFileUpdate := mkUpdate {
  update_unified_diff : rstr;
  update_original_content : rstr;
  update_content : rstr;
}.

(** An error, or an index panic. *)
Inductive verify_stop := VError (e : ApplyPatchError) | VPanic.

Definition unified_diff_from_chunks_with_mode (fs : Fs) (path : Uri)
    (chunks : list UpdateFileChunk) (m : ApplyPatchFileUpdateMode)
    : result verify_stop ApplyPatchFileUpdate :=
  match derive_new_contents_from_chunks fs path chunks m true with
  | Err e => Err (VError e)
  | Ok None => Err VPanic
  | Ok (Some (mkApplied original_contents new_contents)) =>
      Ok (mkUpdate (unified_diff_with_context 1 original_contents new_contents)
            original_contents new_contents)
  end.

Definition msg_multiple (path : Uri) : rstr :=
  str "multiple operations target " ++ inferred_native_path_string path.

(** The change a hunk would make, read from the file system as it is. *)
Definition verify_hunk (fs : Fs) (cwd path : Uri) (m : ApplyPatchFileUpdateMode) (hunk : Hunk)
    : result verify_stop (ApplyPatchFileChange Uri) :=
  match hunk with
  | AddFile _ contents => Ok (ChAdd contents)
  | DeleteFile _ =>
      content ← map_err (λ source, VError (ApIoError
                  (str "Failed to read " ++ inferred_native_path_string path) source))
                (read_file_text fs path true);
      Ok (ChDelete content)
  | UpdateFile _ move_path chunks =>
      update ← unified_diff_from_chunks_with_mode fs path chunks m;
      move_uri ← match move_path with
                 | None => Ok None
                 | Some dest => Some <$> map_err (VError ∘ ApPathUri) (uri_join cwd dest)
                 end;
      Ok (ChUpdate (update_unified_diff update) move_uri (update_content update))
  end.

Fixpoint verify_hunks (fs : Fs) (cwd : Uri) (m : ApplyPatchFileUpdateMode)
    (changes : gmap Uri (ApplyPatchFileChange Uri)) (hunks : list Hunk)
    : result verify_stop (gmap Uri (ApplyPatchFileChange Uri)) :=
  match hunks with
  | [] => Ok changes
  | hunk :: hunks' =>
      path ← map_err (VError ∘ ApPathUri) (resolve_path hunk cwd);
      match changes !! path with
      | Some _ => Err (VError (ApParseError (InvalidPatchError (msg_multiple path))))
      | None =>
          change ← verify_hunk fs cwd path m hunk;
          verify_hunks fs cwd m (<[path := change]> changes) hunks'
      end
  end.

Definition try_verify_apply_patch_args (args : ApplyPatchArgs) (cwd : Uri)
    (m : ApplyPatchFileUpdateMode) (fs : Fs) : result verify_stop ApplyPatchAction :=
  effective_cwd ← match args_workdir args with
                  | None => Ok cwd
                  | Some dir => map_err (VError ∘ ApPathUri) (uri_join cwd dir)
                  end;
  changes ← verify_hunks fs effective_cwd m ∅ (args_hunks args);
  Ok (mkAction changes m (args_patch args) effective_cwd).

Inductive MaybeApplyPatchVerified :=
| VerifiedBody (action : ApplyPatchAction)
| VerifiedShellParseError (e : ExtractHeredocError)
| CorrectnessError (e : ApplyPatchError)
| VerifiedNotApplyPatch
| VerifyPanicked.

Definition verify_apply_patch_args_with_mode (args : ApplyPatchArgs) (cwd : Uri)
    (m : ApplyPatchFileUpdateMode) (fs : Fs) : MaybeApplyPatchVerified :=
  match try_verify_apply_patch_args args cwd m fs with
  | Ok action => VerifiedBody action
  | Err (VError e) => CorrectnessError e
  | Err VPanic => VerifyPanicked
  end.
Definition verify_apply_patch_args (args : ApplyPatchArgs) (cwd : Uri) (fs : Fs) :=
  verify_apply_patch_args_with_mode args cwd NormalizeToLf fs.

(** A raw patch body as the only argument, or as the script of a shell. *)
Definition implicit_body (argv : list rstr) : bool :=
  match argv with [body] => is_ok (parse_patch body) | _ => false end.
Definition implicit_script (argv : list rstr) (cwd : Uri) : bool :=
  match parse_shell_script argv cwd with
  | Some (_, script) => is_ok (parse_patch script)
  | None => false
  end.

Definition maybe_parse_apply_patch_verified_with_mode (argv : list rstr) (cwd : Uri)
    (m : ApplyPatchFileUpdateMode) (fs : Fs) : MaybeApplyPatchVerified :=
  if implicit_body argv then CorrectnessError ApImplicitInvocation
  else if implicit_script argv cwd then CorrectnessError ApImplicitInvocation
  else match maybe_parse_apply_patch argv cwd with
       | Body args => verify_apply_patch_args_with_mode args cwd m fs
       | ShellParseError e => VerifiedShellParseError e
       | PatchParseError e => CorrectnessError (ApParseError e)
       | NotApplyPatch => VerifiedNotApplyPatch
       end.
Definition maybe_parse_apply_patch_verified (argv : list rstr) (cwd : Uri) (fs : Fs) :=
  maybe_parse_apply_patch_verified_with_mode argv cwd NormalizeToLf fs.

End invocation.

(** ** Verified invocations *)

Section verified.
Context {Uri Fs : Type} `{FileSystemLaws Uri Fs} `{InvocationTools Uri}.
Implicit Types (cwd p q : Uri) (fs : Fs) (m : gmap Uri rstr) (ch : ApplyPatchFileChange Uri).

(** What a verified change says about the files before and after. *)
Definition change_holds m m' p ch : Prop :=
  match ch with
  | ChAdd content => m' !! p = Some content
  | ChDelete content => m !! p = Some content ∧ m' !! p = None
  | ChUpdate _ None new => is_Some (m !! p) ∧ m' !! p = Some new
  | ChUpdate _ (Some d) new => is_Some (m !! p) ∧ m' !! p = None ∧ m' !! d = Some new
  end.
(** The files a verified change is about. *)
Definition change_targets p ch : list Uri :=
  p :: match ch with ChUpdate _ (Some d) _ => [d] | _ => [] end.

Lemma change_holds_ext m m1 m' m1' p ch :
  (∀ q, q ∈ change_targets p ch → m1 !! q = m !! q ∧ m1' !! q = m' !! q) →
  change_holds m m' p ch → change_holds m1 m1' p ch.
Proof.
  intros Hq. assert (p ∈ change_targets p ch) as Hp by by left.
  destruct (Hq p Hp) as [E1 E2]. destruct ch as [c|c|u [d|] new]; simpl; rewrite ?E1, ?E2; try done.
  destruct (Hq d) as [_ Ed]; [by right; left|]. by rewrite Ed.
Qed.

Lemma unified_diff_inv fs p chunks mode u :
  unified_diff_from_chunks_with_mode fs p chunks mode = Ok u →
  view fs !! p = Some (update_original_content u) ∧
  derive_new_contents (inferred_native_path_string p) (update_original_content u) chunks mode
    = Ok (Some (update_content u)).
Proof.
  unfold unified_diff_from_chunks_with_mode.
  destruct (derive_new_contents_from_chunks _ _ _ _ _) as [[[old new]|]|] eqn:E; [|done..].
  intros [= <-]. simpl. by apply derive_from_chunks_inv in E.
Qed.

Lemma hunk_effect_off cwd mode h m m' :
  hunk_effect cwd mode h m = Some m' → agree_off (hunk_targets cwd h) m m'.
Proof.
  unfold hunk_effect, hunk_targets. intros He q Hq.
  destruct (resolve_path h cwd) as [p|] eqn:Ep; simplify_eq/=.
  apply not_elem_of_cons in Hq as [Hqp Hq].
  destruct h as [pt t|pt|pt mv chunks]; simplify_eq/=;
    rewrite ?lookup_insert_ne, ?lookup_delete_ne by done; [done..|].
  apply bind_Some in He as (old & _ & He).
  destruct (derive_new_contents _ _ _ _) as [[new|]|]; [|by destruct mv..].
  destruct mv as [dest|]; simplify_eq/=; [|by rewrite lookup_insert_ne].
  destruct (uri_join cwd dest) as [d|]; simplify_eq/=.
  apply not_elem_of_cons in Hq as [Hqd _]. by rewrite lookup_delete_ne, lookup_insert_ne.
Qed.

(** One hunk: the change computed from the disk holds of the effect computed
    from files that agree with the disk on the hunk's own targets. *)
Lemma verify_hunk_holds fs cwd p mode h ch m m' :
  resolve_path h cwd = Ok p → NoDup (hunk_targets cwd h) →
  (∀ q, q ∈ hunk_targets cwd h → m !! q = view fs !! q) →
  verify_hunk fs cwd p mode h = Ok ch → hunk_effect cwd mode h m = Some m' →
  change_holds m m' p ch ∧ change_targets p ch = hunk_targets cwd h.
Proof.
  intros Hp Hnd Hm Hv He. unfold hunk_effect, hunk_targets in *. rewrite Hp in *. simpl in *.
  assert (m !! p = view fs !! p) as Hmp by (apply Hm; by left).
  destruct h as [pt t|pt|pt mv chunks]; simpl in *.
  - simplify_eq/=. by rewrite lookup_insert_eq.
  - destruct (read_file_text fs p true) eqn:Er; simplify_eq/=.
    apply law_read_ok in Er. by rewrite Hmp, lookup_delete_eq.
  - apply result_bind_Ok in Hv as (u & Hu & Hv). apply unified_diff_inv in Hu as [Hold Hnew].
    rewrite Hmp, Hold in He. simpl in He. rewrite Hnew in He.
    destruct mv as [dest|]; simpl in *.
    + destruct (uri_join cwd dest) as [d|]; simplify_eq/=. rewrite Hmp, Hold.
      apply NoDup_cons in Hnd as [Hpd _]. rewrite list_elem_of_singleton in Hpd.
      rewrite lookup_delete_eq, lookup_delete_ne, lookup_insert_eq by done. by eauto.
    + simplify_eq/=. rewrite Hmp, Hold, lookup_insert_eq. by eauto.
Qed.

Definition patch_targets cwd (hs : list Hunk) : list Uri := hs ≫= hunk_targets cwd.

Lemma verify_hunks_holds fs cwd mode hs changes changes' m m' :
  NoDup (patch_targets cwd hs) →
  (∀ q, q ∈ patch_targets cwd hs → m !! q = view fs !! q) →
  verify_hunks fs cwd mode changes hs = Ok changes' →
  patch_effect cwd mode hs m = Some m' →
  agree_off (patch_targets cwd hs) m m' ∧
  ∀ p ch, changes' !! p = Some ch →
    changes !! p = Some ch ∨
    (change_holds m m' p ch ∧ change_targets p ch ⊆ patch_targets cwd hs).
Proof.
  revert changes m. induction hs as [|h hs IH]; intros changes m Hnd Hm Hv He; simpl in *.
  { simplify_eq. split; [done|]. auto. }
  apply NoDup_app in Hnd as (Hnd & Hdis & Hnds).
  apply result_bind_Ok in Hv as (p & Hp & Hv).
  destruct (resolve_path h cwd) as [p'|] eqn:Er; simplify_eq/=.
  destruct (changes !! p) eqn:Ec; [done|]. apply result_bind_Ok in Hv as (ch0 & Hc & Hv).
  apply bind_Some in He as (m1 & Hh & He).
  pose proof (hunk_effect_off _ _ _ _ _ Hh) as Hoff.
  destruct (verify_hunk_holds fs cwd p mode h ch0 m m1 Er Hnd) as [Hch Htg]; [|done..|].
  { intros q Hq. apply Hm. apply elem_of_app. by left. }
  destruct (IH (<[p := ch0]> changes) m1) as [Hoff' Hall]; [done| |done|done|].
  { intros q Hq. rewrite Hoff by (intros ?; by eapply Hdis). apply Hm, elem_of_app. by right. }
  split.
  { intros q [? ?]%not_elem_of_app. by rewrite Hoff', Hoff. }
  intros q ch Hq. destruct (Hall q ch Hq) as [Hin|[Hqh Hqt]].
  - destruct (decide (q = p)) as [->|Hne].
    + rewrite lookup_insert_eq in Hin. simplify_eq. right. rewrite Htg. split; [|set_solver].
      eapply change_holds_ext; [|exact Hch]. rewrite Htg. intros q Hq'. split; [done|].
      apply Hoff'. intros ?. by eapply Hdis.
    + rewrite lookup_insert_ne in Hin by done. by left.
  - right. split; [|set_solver]. eapply change_holds_ext; [|exact Hqh]. intros q' Hq'. split; [|done].
    symmetry. apply Hoff. intros ?. eapply Hdis; [done|]. set_solver.
Qed.

(** A verified action predicts the run: if verification accepts the arguments,
    and no two hunks share a target, then a successful application to the same
    files makes exactly the changes that were shown, and touches no other file.
    *)
Theorem verified_changes_are_applied (args : ApplyPatchArgs) (cwd : Uri) (options : ApplyPatchOptions)
    (fs : Fs) (action : ApplyPatchAction) (s : @apply_state Uri Fs) (affected : AffectedPaths) :
  let mode := update_file_mode options in
  try_verify_apply_patch_args args cwd mode fs = Ok action →
  NoDup (patch_targets (action_cwd action) (args_hunks args)) →
  apply_hunks_to_files (args_hunks args) options (action_cwd action) (mkApply fs empty_delta)
    = (s, Ok affected) →
  (∀ p ch, action_changes action !! p = Some ch → change_holds (view fs) (view (st_fs s)) p ch) ∧
  agree_off (patch_targets (action_cwd action) (args_hunks args)) (view fs) (view (st_fs s)).
Proof.
  intros mode Hv Hnd Ha. unfold apply_hunks_to_files in Ha.
  destruct (is_empty (args_hunks args)); [done|].
  apply apply_hunks_loop_effect in Ha as [[_ Ha]|[? _]]; [|done].
  unfold try_verify_apply_patch_args in Hv. inv_ok. simpl in *.
  match goal with Hh : verify_hunks _ _ _ _ _ = Ok _ |- _ =>
    destruct (verify_hunks_holds _ _ _ _ _ _ _ _ Hnd ltac:(done) Hh Ha) as [Hoff Hall] end.
  split; [|done]. intros p ch Hp. destruct (Hall p ch Hp) as [He|[Hc _]]; [|done].
  by rewrite lookup_empty in He.
Qed.
End verified.

Section explicit.
Context {Uri Fs : Type} `{PathUri Uri} `{ExecutorFileSystem Uri Fs} `{InvocationTools Uri}.

(** Only an explicit call is accepted: a command line yields a verified action
    only if it is [apply_patch <patch>], or a recognised shell running a script
    that is not itself a patch and in which the query found the heredoc; the
    action's text and changes are those of that patch. *)
Theorem verified_body_is_explicit (argv : list rstr) (cwd : Uri) (mode : ApplyPatchFileUpdateMode)
    (fs : Fs) (action : ApplyPatchAction) :
  maybe_parse_apply_patch_verified_with_mode argv cwd mode fs = VerifiedBody action →
  ∃ body workdir args, parse_patch body = Ok args ∧
    action_patch action = args_patch args ∧
    verify_hunks fs (action_cwd action) mode ∅ (args_hunks args) = Ok (action_changes action) ∧
    ((∃ cmd, argv = [cmd; body] ∧ cmd ∈ APPLY_PATCH_COMMANDS ∧ workdir = None) ∨
     (∃ shell script, parse_shell_script argv cwd = Some (shell, script) ∧
        is_ok (parse_patch script) = false ∧
        extract_apply_patch_from_bash script = Ok (body, workdir))).
Proof.
  unfold maybe_parse_apply_patch_verified_with_mode, implicit_script.
  destruct (implicit_body argv); [done|].
  assert (∀ args, verify_apply_patch_args_with_mode args cwd mode fs = VerifiedBody action →
    action_patch action = args_patch args ∧
    verify_hunks fs (action_cwd action) mode ∅ (args_hunks args) = Ok (action_changes action)) as Hv.
  { intros args. unfold verify_apply_patch_args_with_mode.
    destruct (try_verify_apply_patch_args args cwd mode fs) as [a|[]] eqn:E; [|done..].
    intros [= ->]. unfold try_verify_apply_patch_args in E. inv_ok. done. }
  assert (∀ args, maybe_parse_shell argv cwd = Body args →
    ∃ shell script body workdir args0, parse_shell_script argv cwd = Some (shell, script) ∧
      extract_apply_patch_from_bash script = Ok (body, workdir) ∧ parse_patch body = Ok args0 ∧
      args_patch args = args_patch args0 ∧ args_hunks args = args_hunks args0) as Hsh.
  { intros args. unfold maybe_parse_shell.
    destruct (parse_shell_script argv cwd) as [[shell script]|]; [|done].
    assert (extract_apply_patch_from_shell shell script = extract_apply_patch_from_bash script) as ->
      by (by destruct shell).
    destruct (extract_apply_patch_from_bash script) as [[body workdir]|[]] eqn:E; [|done..].
    destruct (parse_patch body) as [a|] eqn:Ep; [|done]. intros [= <-].
    by exists shell, script, body, workdir, a. }
  destruct (match parse_shell_script argv cwd with Some _ => _ | None => _ end) eqn:Ei; [done|].
  destruct (maybe_parse_apply_patch argv cwd) as [args| | |] eqn:Em; [|done..].
  intros [Hp Hc]%Hv.
  assert ((∃ cmd body, argv = [cmd; body] ∧ cmd ∈ APPLY_PATCH_COMMANDS ∧ parse_patch body = Ok args) ∨
          maybe_parse_shell argv cwd = Body args) as [(cmd & body & -> & Hcmd & Hb)|Hm].
  { unfold maybe_parse_apply_patch in Em. destruct argv as [|cmd [|body [|]]]; auto.
    destruct (one_of cmd APPLY_PATCH_COMMANDS) eqn:Ec; [|auto]. left. exists cmd, body.
    unfold one_of in Ec. reflect_bools. destruct (parse_patch body); naive_solver. }
  - exists body, None, args. split_and!; [done..|]. left. by exists cmd.
  - destruct (Hsh _ Hm) as (shell & script & body & workdir & args0 & Hs & Hx & Hb & Ea & Eh).
    rewrite Hs in Ei. exists body, workdir, args0.
    split_and!; [done|congruence|congruence|]. right. by exists shell, script.
Qed.
End explicit.

(** ** On the in-memory file system *)

(** Every script is one heredoc; diffs show both texts. *)
#[global] Instance mem_invocation_tools : InvocationTools mem_path := {|
  infer_path_convention _ := Some Posix;
  query_matches script := Ok [[(CapHeredoc, Ok script)]];
  unified_diff_with_context _ old new := old ++ new;
|}.

Definition move_args : ApplyPatchArgs :=
  match parse_patch move_patch with Ok a => a | Err _ => mkArgs [] [] None None end.
Definition move_action : ApplyPatchAction :=
  match try_verify_apply_patch_args move_args ([] : mem_path) NormalizeToLf mem_start with
  | Ok a => a | Err _ => mkAction ∅ NormalizeToLf [] [] end.
Definition move_run :=
  apply_hunks_to_files (args_hunks move_args) default_options (action_cwd move_action)
    (mkApply mem_start empty_delta).

Lemma verified_changes_are_applied_witness :
  try_verify_apply_patch_args move_args ([] : mem_path) NormalizeToLf mem_start = Ok move_action ∧
  size (action_changes move_action) = 2 ∧
  ∀ p ch, action_changes move_action !! p = Some ch →
    change_holds (view mem_start) (view (st_fs move_run.1)) p ch.
Proof.
  assert (try_verify_apply_patch_args move_args ([] : mem_path) NormalizeToLf mem_start
    = Ok move_action) as Hv by (vm_compute; reflexivity).
  assert (bool_decide (NoDup (patch_targets (action_cwd move_action) (args_hunks move_args))) = true)
    as Hn by (vm_compute; reflexivity).
  apply bool_decide_eq_true_1 in Hn.
  assert (move_run = (move_run.1, Ok (mkAffected [str "d/g"] [str "d/f"] []))) as Hr
    by (vm_compute; reflexivity).
  split; [exact Hv|]. split; [vm_compute; reflexivity|].
  exact (proj1 (verified_changes_are_applied move_args [] default_options mem_start move_action
    move_run.1 _ Hv Hn Hr)).
Defined.

Lemma verified_body_is_explicit_witness :
  let argv := [str "apply_patch"; move_patch] in
  maybe_parse_apply_patch_verified_with_mode argv ([] : mem_path) NormalizeToLf mem_start
    = VerifiedBody move_action ∧
  ∃ body args, parse_patch body = Ok args ∧ action_patch move_action = args_patch args.
Proof.
  intros argv.
  assert (maybe_parse_apply_patch_verified_with_mode argv ([] : mem_path) NormalizeToLf mem_start
    = VerifiedBody move_action) as H by (vm_compute; reflexivity).
  split; [exact H|].
  destruct (verified_body_is_explicit argv ([] : mem_path) NormalizeToLf mem_start move_action H)
    as (body & _ & args & Hp & Ha & _). exists body, args. split; [exact Hp|exact Ha].
Defined.

(** Moves [f] onto [g], then edits [g]. *)
Definition chained_patch : rstr :=
  nl ["*** Begin Patch"; "*** Update File: f"; "*** Move to: g"; "@@"; "-a"; "+q"; " b";
      "*** Update File: g"; "@@"; "-b"; "+y"; "*** End Patch"]%string.
Definition chained_start : mem_fs :=
  mkMem {[ [str "f"] := nl ["a"; "b"; ""]%string; [str "g"] := nl ["p"; "b"; ""]%string ]} {[ [] ]}.

(** Without the condition on the targets the prediction can be wrong: a patch
    that moves one file onto another and then edits the destination is verified
    against the destination as it is on disk, but applied to the moved text: the
    content shown for [g] is not the content written. *)
Theorem verified_changes_can_differ :
  (match maybe_parse_apply_patch_verified_with_mode [str "apply_patch"; chained_patch]
           ([] : mem_path) NormalizeToLf chained_start with
   | VerifiedBody action =>
       match action_changes action !! [str "g"] with
       | Some (ChUpdate _ None new_content) => Some new_content
       | _ => None
       end
   | _ => None
   end) = Some (nl ["p"; "y"; ""]%string) ∧
  let o := apply_patch chained_patch ([] : mem_path) ([] : list rstr) [] chained_start in
  outcome_ok o = true ∧ view (out_fs o) !! [str "g"] = Some (nl ["q"; "y"; ""]%string).
Proof. split; [|split]; vm_compute; reflexivity. Qed.
