(* ===== verification/ExecPolicy.v ===== *)
(** Command rules: [execpolicy/src/decision.rs], [rule.rs], [policy.rs],
    [executable_name.rs] and [error.rs]. *)

From S2P Require Import Prelude.

#[local] Opaque str.

(** ** Decisions *)

Inductive Decision := Allow | Prompt | Forbidden.
#[global] Instance Decision_eq_dec : EqDecision Decision.
Proof. solve_decision. Defined.

(** The derived [Ord]: the order of the constructors. *)
Definition severity (d : Decision) : nat :=
  match d with Allow => 0 | Prompt => 1 | Forbidden => 2 end.
Definition decision_max (a b : Decision) : Decision :=
  if severity a <=? severity b then b else a.

(** [error.rs]: locations count lines and columns from one; a resolved
    [FileSpan] of the evaluator counts from zero. *)
Record TextPosition := mkPos { line : nat; column : nat }.
Record TextRange := mkRange { range_start : TextPosition; range_end : TextPosition }.
Record ErrorLocation := mkLocation { loc_path : rstr; loc_range : TextRange }.
Record FileSpan := mkSpan { filename : rstr; span_begin : TextPosition; span_end : TextPosition }.

Definition error_location_from_file_span (span : FileSpan) : ErrorLocation :=
  mkLocation (filename span)
    (mkRange (mkPos (S (line (span_begin span))) (S (column (span_begin span))))
       (mkPos (S (line (span_end span))) (S (column (span_end span))))).

(** An error of the evaluator has an optional span; its payload is its own text
    or the error of a builtin. *)
Inductive Error :=
| InvalidDecision (m : rstr)
| InvalidPattern (m : rstr)
| InvalidExample (m : rstr)
| InvalidRule (m : rstr)
| ExampleDidNotMatch (rules examples : list rstr) (location : option ErrorLocation)
| ExampleDidMatch (rule example : rstr) (location : option ErrorLocation)
| Starlark (span : option FileSpan) (payload : rstr + Error).

Definition with_location (e : Error) (location : ErrorLocation) : Error :=
  match e with
  | ExampleDidNotMatch rules examples None => ExampleDidNotMatch rules examples (Some location)
  | ExampleDidMatch rule example None => ExampleDidMatch rule example (Some location)
  | other => other
  end.
Definition error_location (e : Error) : option ErrorLocation :=
  match e with
  | ExampleDidNotMatch _ _ location | ExampleDidMatch _ _ location => location
  | Starlark span _ => error_location_from_file_span <$> span
  | _ => None
  end.

Definition decision_parse (raw : rstr) : result Error Decision :=
  if str_eqb raw (str "allow") then Ok Allow
  else if str_eqb raw (str "prompt") then Ok Prompt
  else if str_eqb raw (str "forbidden") then Ok Forbidden
  else Err (InvalidDecision raw).

(** ** Rules *)

Inductive PatternToken := Single (s : rstr) | Alts (l : list rstr).
#[global] Instance PatternToken_eq_dec : EqDecision PatternToken.
Proof. solve_decision. Defined.

Definition token_matches (t : PatternToken) (token : rstr) : bool :=
  match t with
  | Single expected => str_eqb expected token
  | Alts alternatives => existsb (λ alt, str_eqb alt token) alternatives
  end.
Definition alternatives (t : PatternToken) : list rstr :=
  match t with Single expected => [expected] | Alts l => l end.

Record PrefixPattern := mkPattern { pat_first : rstr; pat_rest : list PatternToken }.
#[global] Instance PrefixPattern_eq_dec : EqDecision PrefixPattern.
Proof. solve_decision. Defined.

(** The loop over [self.rest.iter().zip(&cmd[1..pattern_length])] *)
Fixpoint all_match (rest : list PatternToken) (cmd : list rstr) : bool :=
  match rest, cmd with
  | t :: rest', c :: cmd' => token_matches t c && all_match rest' cmd'
  | _, _ => true
  end.

Definition matches_prefix (p : PrefixPattern) (cmd : list rstr) : option (list rstr) :=
  let pattern_length := S (length (pat_rest p)) in
  match cmd with
  | [] => None
  | c0 :: args =>
      if (length cmd <? pattern_length) || negb (str_eqb c0 (pat_first p)) then None
      else if all_match (pat_rest p) (take (length (pat_rest p)) args)
      then Some (take pattern_length cmd)
      else None
  end.

Inductive RuleMatch :=
| PrefixRuleMatch (matched_prefix : list rstr) (decision : Decision)
    (resolved_program : option rstr) (justification : option rstr)
| HeuristicsRuleMatch (command : list rstr) (decision : Decision).

Definition match_decision (m : RuleMatch) : Decision :=
  match m with
  | PrefixRuleMatch _ d _ _ => d
  | HeuristicsRuleMatch _ d => d
  end.
Definition with_resolved_program (m : RuleMatch) (program : rstr) : RuleMatch :=
  match m with
  | PrefixRuleMatch p d _ j => PrefixRuleMatch p d (Some program) j
  | other => other
  end.

(** The only implementation of the trait [Rule] is [PrefixRule]. *)
Record PrefixRule := mkRule {
  rule_pattern : PrefixPattern;
  rule_decision : Decision;
  rule_justification : option rstr;
}.
#[global] Instance PrefixRule_eq_dec : EqDecision PrefixRule.
Proof. solve_decision. Defined.

Definition rule_program (r : PrefixRule) : rstr := pat_first (rule_pattern r).
Definition rule_matches (r : PrefixRule) (cmd : list rstr) : option RuleMatch :=
  match matches_prefix (rule_pattern r) cmd with
  | Some prefix => Some (PrefixRuleMatch prefix (rule_decision r) None (rule_justification r))
  | None => None
  end.

Inductive NetworkRuleProtocol := Http | Https | Socks5Tcp | Socks5Udp.

Definition protocol_parse (raw : rstr) : result Error NetworkRuleProtocol :=
  if str_eqb raw (str "http") then Ok Http
  else if str_eqb raw (str "https") || str_eqb raw (str "https_connect")
          || str_eqb raw (str "http-connect") then Ok Https
  else if str_eqb raw (str "socks5_tcp") then Ok Socks5Tcp
  else if str_eqb raw (str "socks5_udp") then Ok Socks5Udp
  else Err (InvalidRule
    (str "network_rule protocol must be one of http, https, socks5_tcp, socks5_udp (got "
     ++ raw ++ str ")")).
Definition as_policy_string (p : NetworkRuleProtocol) : rstr :=
  match p with
  | Http => str "http"
  | Https => str "https"
  | Socks5Tcp => str "socks5_tcp"
  | Socks5Udp => str "socks5_udp"
  end.

Record NetworkRule := mkNetwork {
  net_host : rstr;
  net_protocol : NetworkRuleProtocol;
  net_decision : Decision;
  net_justification : option rstr;
}.

(** ** [normalize_network_rule_host] *)

(** [host.matches(c).count()] *)
Definition count_char (c : rchar) (s : rstr) : nat := length (filter (λ d, d = c) s).
(** [!port.is_empty() && port.chars().all(is_ascii_digit)] *)
Definition is_port (port : rstr) : bool := negb (is_empty port) && forallb is_ascii_digit port.

(** The host without brackets or port. *)
Definition strip_port (raw host : rstr) : result Error rstr :=
  match strip_prefix (str "[") host with
  | Some stripped =>
      match split_once 93%N stripped with
      | None => Err (InvalidRule (str "network_rule host has an invalid bracketed IPv6 literal"))
      | Some (inside, rest) =>
          let port_ok := match strip_prefix (str ":") rest with
                         | Some port => is_port port | None => false end in
          if negb (is_empty rest) && negb port_ok
          then Err (InvalidRule
                 (str "network_rule host contains an unsupported suffix: " ++ raw))
          else Ok inside
      end
  | None =>
      if count_char 58%N host =? 1 then
        match rsplit_once 58%N host with
        | Some (candidate, port) =>
            if negb (is_empty candidate) && is_port port then Ok candidate else Ok host
        | None => Ok host
        end
      else Ok host
  end.

Definition normalize_network_rule_host (raw : rstr) : result Error rstr :=
  let host := trim raw in
  if is_empty host then Err (InvalidRule (str "network_rule host cannot be empty"))
  else if contains_sub (str "://") host || contains_char 47%N host
          || contains_char 63%N host || contains_char 35%N host
  then Err (InvalidRule
    (str "network_rule host must be a hostname or IP literal (without scheme or path)"))
  else
    host ← strip_port raw host;
    let normalized := to_ascii_lowercase (trim (trim_end_by (N.eqb 46%N) host)) in
    if is_empty normalized then Err (InvalidRule (str "network_rule host cannot be empty"))
    else if contains_char 42%N normalized
    then Err (InvalidRule
      (str "network_rule host must be a specific host; wildcards are not allowed"))
    else if existsb is_whitespace normalized
    then Err (InvalidRule (str "network_rule host cannot contain whitespace"))
    else Ok normalized.

(** ** Policies *)

(** What paths and rendering are used for: [AbsolutePathBuf::try_from] (the text
    of the resulting path, or that of the error), [Path::file_name],
    [Path::is_absolute], the number of [Path::components], the compilation
    target, [shlex] and [Debug] output. *)
Class PolicyTools := {
  absolute_path : rstr → option rstr;
  absolute_path_error : rstr → rstr;
  is_absolute : rstr → bool;
  file_name : rstr → option rstr;
  component_count : rstr → nat;
  target_windows : bool;
  shlex_split : rstr → option (list rstr);
  shlex_join : list rstr → option rstr;
  debug_rule : PrefixRule → rstr;
  debug_match : RuleMatch → rstr;
}.

Record MatchOptions := mkMatchOptions { resolve_host_executables : bool }.
Definition default_match_options : MatchOptions := mkMatchOptions false.

(** [MultiMap<String, RuleRef>]: the rules of a program in insertion order. *)
Abbreviation rule_map := (gmap rstr (list PrefixRule)).
Definition multimap_insert (m : rule_map) (program : rstr) (r : PrefixRule) : rule_map :=
  <[program := default [] (m !! program) ++ [r]]> m.
Definition multimap_extend (m : rule_map) (entries : list (rstr * PrefixRule)) : rule_map :=
  foldl (λ m e, multimap_insert m e.1 e.2) m entries.
(** [iter_all], with the vectors flattened *)
Definition multimap_entries (m : rule_map) : list (rstr * PrefixRule) :=
  map_to_list m ≫= λ pr, (pair pr.1) <$> pr.2.

Record Policy := mkPolicy {
  rules_by_program : rule_map;
  network_rules : list NetworkRule;
  host_executables_by_name : gmap rstr (list rstr);
}.
Definition policy_empty : Policy := mkPolicy ∅ [] ∅.

Definition add_prefix_rule (p : Policy) (prefix : list rstr) (d : Decision) : result Error Policy :=
  match prefix with
  | [] => Err (InvalidPattern (str "prefix cannot be empty"))
  | first_token :: rest =>
      let rule := mkRule (mkPattern first_token (Single <$> rest)) d None in
      Ok (mkPolicy (multimap_insert (rules_by_program p) first_token rule) (network_rules p)
            (host_executables_by_name p))
  end.

(** [justification.as_deref()] is [Some(raw)] with [raw.trim().is_empty()] *)
Definition blank_justification (j : option rstr) : bool :=
  match j with Some raw => is_empty (trim raw) | None => false end.

Definition policy_add_network_rule (p : Policy) (host : rstr) (protocol : NetworkRuleProtocol)
    (d : Decision) (justification : option rstr) : result Error Policy :=
  host ← normalize_network_rule_host host;
  if blank_justification justification
  then Err (InvalidRule (str "justification cannot be empty"))
  else Ok (mkPolicy (rules_by_program p)
             (network_rules p ++ [mkNetwork host protocol d justification])
             (host_executables_by_name p)).

Definition set_host_executable_paths (p : Policy) (name : rstr) (paths : list rstr) : Policy :=
  mkPolicy (rules_by_program p) (network_rules p) (<[name := paths]> (host_executables_by_name p)).

Definition merge_overlay (p overlay : Policy) : Policy :=
  mkPolicy (multimap_extend (rules_by_program p) (multimap_entries (rules_by_program overlay)))
    (network_rules p ++ network_rules overlay)
    (host_executables_by_name overlay ∪ host_executables_by_name p).

(** [entries.retain(|entry| entry != host); entries.push(host)] *)
Definition retain_not (host : rstr) (entries : list rstr) : list rstr :=
  filter (λ e, e ≠ host) entries.
Definition upsert_domain (entries : list rstr) (host : rstr) : list rstr :=
  retain_not host entries ++ [host].

Definition compile_rule (acc : list rstr * list rstr) (r : NetworkRule) : list rstr * list rstr :=
  let '(allowed, denied) := acc in
  match net_decision r with
  | Allow => (upsert_domain allowed (net_host r), retain_not (net_host r) denied)
  | Forbidden => (retain_not (net_host r) allowed, upsert_domain denied (net_host r))
  | Prompt => (allowed, denied)
  end.
Definition compiled_network_domains (p : Policy) : list rstr * list rstr :=
  foldl compile_rule ([], []) (network_rules p).

Section policy.
Context `{PolicyTools}.

Definition windows_suffixes : list rstr := [str ".exe"; str ".cmd"; str ".bat"; str ".com"].
(** [for suffix in .. { if raw.ends_with(suffix) { return .. } } raw] *)
Fixpoint strip_first_suffix (suffixes : list rstr) (raw : rstr) : rstr :=
  match suffixes with
  | [] => raw
  | s :: suffixes' =>
      match strip_suffix s raw with
      | Some stripped => stripped
      | None => strip_first_suffix suffixes' raw
      end
  end.
Definition executable_lookup_key (raw : rstr) : rstr :=
  if target_windows then strip_first_suffix windows_suffixes (to_ascii_lowercase raw) else raw.
Definition executable_path_lookup_key (path : rstr) : option rstr :=
  executable_lookup_key <$> file_name path.

Definition match_exact_rules (p : Policy) (cmd : list rstr) : option (list RuleMatch) :=
  match cmd with
  | [] => None
  | first :: _ =>
      Some (omap (λ r, rule_matches r cmd) (default [] (rules_by_program p !! first)))
  end.

Definition match_host_executable_rules (p : Policy) (cmd : list rstr) : list RuleMatch :=
  match cmd with
  | [] => []
  | first :: args =>
      match absolute_path first with
      | None => []
      | Some program =>
          match executable_path_lookup_key program with
          | None => []
          | Some basename =>
              match rules_by_program p !! basename with
              | None => []
              | Some rules =>
                  if match host_executables_by_name p !! basename with
                     | Some paths => negb (existsb (str_eqb program) paths)
                     | None => false
                     end
                  then []
                  else (λ m, with_resolved_program m program) <$>
                         omap (λ r, rule_matches r (basename :: args)) rules
              end
          end
      end
  end.

(** The rules that match: exact ones, else those of the resolved executable. *)
Definition matched_rules_of (p : Policy) (options : MatchOptions) (cmd : list rstr)
    : list RuleMatch :=
  let exact := default [] (match_exact_rules p cmd) in
  if negb (is_empty exact) then exact
  else if resolve_host_executables options then match_host_executable_rules p cmd
  else [].

Definition matches_for_command_with_options (p : Policy) (cmd : list rstr)
    (heuristics_fallback : option (list rstr → Decision)) (options : MatchOptions)
    : list RuleMatch :=
  let matched_rules := matched_rules_of p options cmd in
  match heuristics_fallback with
  | Some fallback =>
      if is_empty matched_rules then [HeuristicsRuleMatch cmd (fallback cmd)] else matched_rules
  | None => matched_rules
  end.
Definition matches_for_command (p : Policy) (cmd : list rstr)
    (heuristics_fallback : option (list rstr → Decision)) : list RuleMatch :=
  matches_for_command_with_options p cmd heuristics_fallback default_match_options.

Record Evaluation := mkEvaluation { eval_decision : Decision; eval_matched_rules : list RuleMatch }.

(** [iter().max()] *)
Definition max_decision (ds : list Decision) : option Decision :=
  match ds with
  | [] => None
  | d :: ds' => Some (foldl decision_max d ds')
  end.
(** [None] is the panic on an empty vector. *)
Definition from_matches (matched_rules : list RuleMatch) : option Evaluation :=
  (λ d, mkEvaluation d matched_rules) <$> max_decision (match_decision <$> matched_rules).

(** A match of the policy rather than of the heuristics. *)
Definition is_policy_match (m : RuleMatch) : bool :=
  match m with PrefixRuleMatch _ _ _ _ => true | HeuristicsRuleMatch _ _ => false end.
Definition is_match (e : Evaluation) : bool := existsb is_policy_match (eval_matched_rules e).

Definition check_with_options (p : Policy) (cmd : list rstr) (fallback : list rstr → Decision)
    (options : MatchOptions) : option Evaluation :=
  from_matches (matches_for_command_with_options p cmd (Some fallback) options).
Definition check (p : Policy) (cmd : list rstr) (fallback : list rstr → Decision)
    : option Evaluation := check_with_options p cmd fallback default_match_options.
Definition check_multiple_with_options (p : Policy) (commands : list (list rstr))
    (fallback : list rstr → Decision) (options : MatchOptions) : option Evaluation :=
  from_matches (commands ≫= λ cmd, matches_for_command_with_options p cmd (Some fallback) options).
Definition check_multiple (p : Policy) (commands : list (list rstr))
    (fallback : list rstr → Decision) : option Evaluation :=
  check_multiple_with_options p commands fallback default_match_options.

(** [get_allowed_prefixes] *)
Definition render_pattern_token (t : PatternToken) : rstr :=
  match t with
  | Single value => value
  | Alts l => str "[" ++ join (str "|") l ++ str "]"
  end.
Fixpoint strs_leb (a b : list rstr) : bool :=
  match a, b with
  | [], _ => true
  | _ :: _, [] => false
  | x :: a', y :: b' => if str_eqb x y then strs_leb a' b' else str_leb x y
  end.
Fixpoint insert_prefix (x : list rstr) (l : list (list rstr)) : list (list rstr) :=
  match l with
  | [] => [x]
  | y :: l' => if strs_leb y x then y :: insert_prefix x l' else x :: l
  end.
Definition get_allowed_prefixes (p : Policy) : list (list rstr) :=
  dedup (foldl (λ acc x, insert_prefix x acc) []
    (omap (λ e : rstr * PrefixRule,
       if decide (rule_decision e.2 = Allow)
       then Some (pat_first (rule_pattern e.2)
                  :: (render_pattern_token <$> pat_rest (rule_pattern e.2)))
       else None) (multimap_entries (rules_by_program p)))).

End policy.
