(* ===== verification/ExecPolicyProps.v ===== *)
(** Properties of command rules: what a prefix matches, that the strictest match
    wins whatever the order of the rules, what an overlay can change, and what
    the compiled network domains are. *)

From S2P Require Import Prelude ExecPolicy.

#[local] Opaque str.

(** ** Matching a prefix *)

Lemma token_matches_spec t x : token_matches t x = true ↔ x ∈ alternatives t.
Proof.
  destruct t as [s|l]; simpl.
  - unfold str_eqb. rewrite bool_decide_eq_true, list_elem_of_singleton. naive_solver.
  - rewrite existsb_exists. setoid_rewrite bool_decide_eq_true.
    setoid_rewrite <- list_elem_of_In. naive_solver.
Qed.

(** A token sequence fits a pattern. *)
Definition fits (p : PrefixPattern) (prefix : list rstr) : Prop :=
  Forall2 (λ t x, x ∈ alternatives t) (Single (pat_first p) :: pat_rest p) prefix.

Lemma all_match_spec rest cmd :
  length cmd = length rest →
  all_match rest cmd = true ↔ Forall2 (λ t x, x ∈ alternatives t) rest cmd.
Proof.
  revert cmd. induction rest as [|t rest IH]; intros [|c cmd] Hl; simplify_eq/=; [by split|].
  rewrite andb_true_iff, token_matches_spec, IH by done.
  split; [intros [? ?]; by constructor|by inversion 1].
Qed.

Lemma matches_prefix_Some p cmd prefix :
  matches_prefix p cmd = Some prefix ↔
  prefix `prefix_of` cmd ∧ fits p prefix.
Proof.
  unfold matches_prefix, fits. destruct cmd as [|c0 args].
  { split; [done|]. intros [Hp Hf]. apply prefix_nil_inv in Hp as ->. by inversion Hf. }
  destruct (Nat.ltb_spec (length (c0 :: args)) (S (length (pat_rest p)))) as [Hl|Hl]; simpl.
  { split; [done|]. intros [Hp Hf]. apply prefix_length in Hp. apply Forall2_length in Hf.
    simpl in *. lia. }
  simpl in Hl. destruct (str_eqb c0 (pat_first p)) eqn:Ec; simpl.
  - reflect_bools. subst c0. destruct (all_match _ _) eqn:Ea.
    + apply all_match_spec in Ea; [|rewrite length_take; lia]. split.
      * intros [= <-]. split; [apply prefix_cons, prefix_take|].
        constructor; [by left|done].
      * intros [[k Hk] Hf]. inversion Hf as [|? x ? xs Hx Hxs]; subst.
        simpl in Hk. injection Hk as -> ->. f_equal. f_equal. apply Forall2_length in Hxs.
        rewrite Hxs, take_app_le, take_ge by lia. done.
    + split; [done|]. intros [[k Hk] Hf]. inversion Hf as [|? x ? xs Hx Hxs]; subst.
      simpl in Hk. injection Hk as _ ->. pose proof (Forall2_length _ _ _ Hxs) as Hlen.
      rewrite Hlen, take_app_le, take_ge in Ea by lia.
      apply all_match_spec in Hxs; [congruence|done].
  - split; [done|]. intros [[k Hk] Hf]. inversion Hf as [|? x ? xs Hx Hxs]; subst.
    simpl in Hk. injection Hk as -> ->. apply list_elem_of_singleton in Hx as ->.
    by rewrite str_eqb_refl in Ec.
Qed.

(** A prefix rule matches a command exactly when the command starts with tokens
    that fit the pattern, the match reports that prefix, and every longer command
    matches too. *)
Theorem prefix_rule_matches_iff (r : PrefixRule) (cmd : list rstr) :
  (∀ m, rule_matches r cmd = Some m ↔
     ∃ prefix, prefix `prefix_of` cmd ∧ fits (rule_pattern r) prefix ∧
       m = PrefixRuleMatch prefix (rule_decision r) None (rule_justification r)) ∧
  (∀ m args, rule_matches r cmd = Some m → rule_matches r (cmd ++ args) = Some m).
Proof.
  assert (∀ cmd m, rule_matches r cmd = Some m ↔
     ∃ prefix, prefix `prefix_of` cmd ∧ fits (rule_pattern r) prefix ∧
       m = PrefixRuleMatch prefix (rule_decision r) None (rule_justification r)) as Hm.
  { clear cmd. intros cmd m. unfold rule_matches. split.
    - destruct (matches_prefix _ _) as [pre|] eqn:E; [|done].
      apply matches_prefix_Some in E as [? ?]. intros [= <-]. eauto.
    - intros (pre & Hp & Hf & ->). by rewrite (proj2 (matches_prefix_Some _ _ pre)). }
  split; [apply Hm|]. intros m args (pre & Hp & Hf & ->)%Hm. apply Hm. exists pre.
  split_and!; [by apply prefix_app_r|done|done].
Qed.

(** ** The strictest decision *)

#[global] Instance decision_max_comm : Comm (=) decision_max.
Proof. by intros [] []. Qed.
#[global] Instance decision_max_assoc : Assoc (=) decision_max.
Proof. by intros [] [] []. Qed.

(** The strictest of [Allow] and a list of decisions. *)
Definition strictest (ds : list Decision) : Decision := foldr decision_max Allow ds.

Lemma decision_max_allow d : decision_max Allow d = d.
Proof. by destruct d. Qed.

Lemma foldl_decision_max d ds : foldl decision_max d ds = decision_max d (strictest ds).
Proof.
  revert d. induction ds as [|e ds IH]; intros d; simpl; [by destruct d|].
  by rewrite IH, (assoc_L decision_max).
Qed.

Lemma max_decision_strictest ds : ds ≠ [] → max_decision ds = Some (strictest ds).
Proof. destruct ds as [|d ds]; [done|]. intros _. simpl. by rewrite foldl_decision_max. Qed.

Lemma strictest_app l k : strictest (l ++ k) = decision_max (strictest l) (strictest k).
Proof.
  induction l as [|d l IH]; simpl; [by rewrite decision_max_allow|].
  by rewrite IH, (assoc_L decision_max).
Qed.

Lemma severity_max a b : severity (decision_max a b) = severity a `max` severity b.
Proof. by destruct a, b. Qed.

Lemma strictest_upper ds d : d ∈ ds → severity d ≤ severity (strictest ds).
Proof. induction 1 as [d ds|d e ds _ IH]; simpl; rewrite severity_max; lia. Qed.

Lemma strictest_elem ds : ds ≠ [] → strictest ds ∈ ds.
Proof.
  induction ds as [|d ds IH]; [done|]. intros _. simpl.
  destruct (decide (ds = [])) as [->|Hne]; [destruct d; by left|].
  specialize (IH Hne). unfold decision_max. case_match; [by right|by left].
Qed.

#[global] Instance strictest_perm : Proper ((≡ₚ) ==> (=)) strictest.
Proof.
  intros l k. induction 1 as [|d l k _ IH|d e l|l k j _ IH1 _ IH2]; simpl; [done|by rewrite IH| |congruence].
  by rewrite !(assoc_L decision_max), (comm_L decision_max d e).
Qed.

(** ** Evaluation *)

Section evaluation.
Context `{PolicyTools}.

Lemma matches_nonempty p cmd fallback options :
  matches_for_command_with_options p cmd (Some fallback) options ≠ [].
Proof.
  unfold matches_for_command_with_options. by destruct (matched_rules_of p options cmd).
Qed.

Definition segment_matches p (fallback : list rstr → Decision) options cmds : list RuleMatch :=
  cmds ≫= λ cmd, matches_for_command_with_options p cmd (Some fallback) options.

Lemma segment_matches_nonempty p fallback options cmds :
  cmds ≠ [] → segment_matches p fallback options cmds ≠ [].
Proof.
  destruct cmds as [|c cmds]; [done|]. intros _. simpl. intros [E _]%app_nil.
  by apply matches_nonempty in E.
Qed.

Lemma check_multiple_eq p cmds fallback options :
  cmds ≠ [] →
  check_multiple_with_options p cmds fallback options =
  Some (mkEvaluation (strictest (match_decision <$> segment_matches p fallback options cmds))
          (segment_matches p fallback options cmds)).
Proof.
  intros Hne. unfold check_multiple_with_options, from_matches.
  rewrite max_decision_strictest; [done|].
  intros E%fmap_nil_inv. by apply segment_matches_nonempty in E.
Qed.

(** Evaluating a non-empty list of commands never panics, and the strictest
    match wins: the decision is reached by some matching rule or heuristic, and
    no matching rule or heuristic of any segment is stricter. *)
Theorem check_strictest_wins (p : Policy) (cmds : list (list rstr))
    (fallback : list rstr → Decision) (options : MatchOptions) :
  cmds ≠ [] →
  ∃ e, check_multiple_with_options p cmds fallback options = Some e ∧
    (∃ m, m ∈ eval_matched_rules e ∧ match_decision m = eval_decision e) ∧
    ∀ cmd m, cmd ∈ cmds → m ∈ matches_for_command_with_options p cmd (Some fallback) options →
      m ∈ eval_matched_rules e ∧ severity (match_decision m) ≤ severity (eval_decision e).
Proof.
  intros Hne. eexists. split; [by apply check_multiple_eq|]. simpl.
  set (ms := segment_matches p fallback options cmds). split.
  - pose proof (strictest_elem (match_decision <$> ms)) as Hs.
    apply list_elem_of_fmap in Hs as (m & -> & Hm); [by exists m|].
    intros E%fmap_nil_inv. by apply segment_matches_nonempty in E.
  - intros cmd m Hcmd Hm. assert (m ∈ ms) as Hin.
    { apply list_elem_of_bind. by exists cmd. }
    split; [done|]. apply strictest_upper, list_elem_of_fmap. eauto.
Qed.

(** Two policies with the same rules in a different order. *)
Definition same_rules (p p' : Policy) : Prop :=
  (∀ prog, default [] (rules_by_program p !! prog) ≡ₚ default [] (rules_by_program p' !! prog)) ∧
  host_executables_by_name p = host_executables_by_name p'.

Lemma host_rules_default p cmd :
  match_host_executable_rules p cmd =
  match cmd with
  | [] => []
  | first :: args =>
      match absolute_path first ≫= λ program, pair program <$> executable_path_lookup_key program with
      | None => []
      | Some (program, basename) =>
          if match host_executables_by_name p !! basename with
             | Some paths => negb (existsb (str_eqb program) paths)
             | None => false
             end
          then []
          else (λ m, with_resolved_program m program) <$>
                 omap (λ r, rule_matches r (basename :: args))
                   (default [] (rules_by_program p !! basename))
      end
  end.
Proof.
  unfold match_host_executable_rules. destruct cmd as [|first args]; [done|].
  destruct (absolute_path first) as [program|]; [|done]. simpl.
  destruct (executable_path_lookup_key program) as [basename|]; [|done]. simpl.
  destruct (rules_by_program p !! basename) as [rules|]; [done|]. simpl.
  by destruct (match host_executables_by_name p !! basename with Some _ => _ | None => _ end).
Qed.

#[local] Arguments match_host_executable_rules : simpl never.

Lemma matched_rules_perm p p' options cmd :
  same_rules p p' → matched_rules_of p options cmd ≡ₚ matched_rules_of p' options cmd.
Proof.
  intros [Hr Hh]. unfold matched_rules_of. destruct cmd as [|first args]; [done|]. simpl.
  assert (omap (λ r, rule_matches r (first :: args)) (default [] (rules_by_program p !! first)) ≡ₚ
          omap (λ r, rule_matches r (first :: args)) (default [] (rules_by_program p' !! first))) as Hp
    by (by rewrite Hr).
  destruct (omap _ (default [] (rules_by_program p !! first))) as [|m ms] eqn:E1.
  - apply Permutation_nil in Hp as ->. simpl. destruct (resolve_host_executables options); [|done].
    rewrite !host_rules_default, Hh.
    destruct (absolute_path first ≫= _) as [[program basename]|]; [|done].
    case_match; [done|]. by rewrite Hr.
  - destruct (omap _ (default [] (rules_by_program p' !! first))) as [|m' ms'];
      [by apply Permutation_sym, Permutation_nil in Hp|]. done.
Qed.

Lemma matches_perm p p' cmd fallback options :
  same_rules p p' →
  matches_for_command_with_options p cmd (Some fallback) options ≡ₚ
  matches_for_command_with_options p' cmd (Some fallback) options.
Proof.
  intros Hs. unfold matches_for_command_with_options.
  pose proof (matched_rules_perm p p' options cmd Hs) as Hp.
  destruct (matched_rules_of p options cmd).
  - apply Permutation_nil in Hp as ->. done.
  - destruct (matched_rules_of p' options cmd); [by apply Permutation_sym, Permutation_nil in Hp|done].
Qed.

Lemma segment_matches_perm p p' fallback options cmds :
  same_rules p p' →
  segment_matches p fallback options cmds ≡ₚ segment_matches p' fallback options cmds.
Proof.
  intros Hs. induction cmds as [|c cmds IH]; simpl; [done|].
  apply Permutation_app; [by apply matches_perm|exact IH].
Qed.

(** The order of the rules does not matter: two policies with the same rules for
    every program, loaded in any order, reach the same decision on every list of
    commands, so no rule overrides a stricter one. *)
Theorem rule_order_irrelevant (p p' : Policy) (cmds : list (list rstr))
    (fallback : list rstr → Decision) (options : MatchOptions) :
  same_rules p p' →
  eval_decision <$> check_multiple_with_options p cmds fallback options =
  eval_decision <$> check_multiple_with_options p' cmds fallback options.
Proof.
  intros Hs. destruct (decide (cmds = [])) as [->|Hne]; [done|].
  rewrite !check_multiple_eq by done. simpl.
  by rewrite (segment_matches_perm p p') by done.
Qed.

(** ** Overlays *)

Lemma multimap_extend_lookup m entries prog :
  default [] (multimap_extend m entries !! prog) =
  default [] (m !! prog) ++ (filter (λ e, e.1 = prog) entries).*2.
Proof.
  revert m. induction entries as [|[k r] entries IH]; intros m; simpl; [by rewrite app_nil_r|].
  rewrite IH, filter_cons. unfold multimap_insert. simpl. case_decide as Hk.
  - subst k. rewrite lookup_insert_eq. simpl. by rewrite <- (assoc_L app).
  - by rewrite lookup_insert_ne.
Qed.

Lemma multimap_entries_filter (m : rule_map) prog :
  (filter (λ e, e.1 = prog) (multimap_entries m)).*2 = default [] (m !! prog).
Proof.
  assert (∀ k (v : list PrefixRule),
    (filter (λ e : rstr * PrefixRule, e.1 = prog) (pair k <$> v)).*2 = if decide (k = prog) then v else [])
    as Hf.
  { intros k v. induction v as [|r v IH]; simpl; [by case_decide|].
    rewrite filter_cons. simpl. case_decide; simpl; [|done]. by f_equal. }
  unfold multimap_entries.
  assert (∀ l : list (rstr * list PrefixRule), NoDup l.*1 →
    (filter (λ e : rstr * PrefixRule, e.1 = prog) (l ≫= λ pr, pair pr.1 <$> pr.2)).*2
      = default [] (list_to_map (M := rule_map) l !! prog)) as Hl.
  { induction l as [|[k v] l IH]; [done|]. rewrite fmap_cons. intros [Hk Hnd]%NoDup_cons.
    rewrite bind_cons, filter_app, fmap_app. cbn [fst snd]. rewrite Hf, IH by done.
    rewrite list_to_map_cons. case_decide as E; simpl.
    - subst k. rewrite lookup_insert_eq. rewrite not_elem_of_list_to_map_1 by done.
      by rewrite app_nil_r.
    - by rewrite lookup_insert_ne. }
  rewrite Hl by apply NoDup_fst_map_to_list. by rewrite list_to_map_to_list.
Qed.

Lemma merge_overlay_rules p o prog :
  default [] (rules_by_program (merge_overlay p o) !! prog) =
  default [] (rules_by_program p !! prog) ++ default [] (rules_by_program o !! prog).
Proof. simpl. by rewrite multimap_extend_lookup, multimap_entries_filter. Qed.

Lemma exact_merge p o cmd :
  default [] (match_exact_rules (merge_overlay p o) cmd) =
  default [] (match_exact_rules p cmd) ++ default [] (match_exact_rules o cmd).
Proof.
  destruct cmd as [|first args]; [done|]. unfold match_exact_rules.
  rewrite merge_overlay_rules. simpl. apply omap_app.
Qed.

(** An overlay can only tighten what exact rules decide: when some rule of the
    base or of the overlay matches the command by its first token, the merged
    policy is at least as strict as that side alone. *)
Theorem merge_overlay_tightens (p o q : Policy) (cmd : list rstr)
    (fallback : list rstr → Decision) (options : MatchOptions) (e : Evaluation) :
  q = p ∨ q = o →
  default [] (match_exact_rules q cmd) ≠ [] →
  check_with_options q cmd fallback options = Some e →
  ∃ e', check_with_options (merge_overlay p o) cmd fallback options = Some e' ∧
    severity (eval_decision e) ≤ severity (eval_decision e') ∧
    eval_matched_rules e ⊆ eval_matched_rules e'.
Proof.
  intros Hq Hne. unfold check_with_options.
  assert (∀ q, default [] (match_exact_rules q cmd) ≠ [] →
    matches_for_command_with_options q cmd (Some fallback) options
      = default [] (match_exact_rules q cmd)) as Hx.
  { intros q' Hq'. unfold matches_for_command_with_options, matched_rules_of.
    by destruct (default [] (match_exact_rules q' cmd)). }
  rewrite (Hx q Hne). assert (default [] (match_exact_rules (merge_overlay p o) cmd) ≠ []) as Hne'.
  { rewrite exact_merge. intros [E1 E2]%app_nil. by destruct Hq; subst q. }
  rewrite (Hx _ Hne'). unfold from_matches.
  rewrite !max_decision_strictest by (by intros ?%fmap_nil_inv). simpl. intros [= <-].
  eexists. split; [done|]. simpl. rewrite exact_merge, fmap_app, strictest_app, severity_max.
  destruct Hq as [->| ->]; (split; [lia|]); intros x Hx'; apply elem_of_app; auto.
Qed.
End evaluation.

(** *** A Unix host with two rules and an overlay *)

Definition unix_tools : PolicyTools := {|
  absolute_path s := match s with 47%N :: _ => Some s | _ => None end;
  absolute_path_error s := s;
  is_absolute s := match s with 47%N :: _ => true | _ => false end;
  file_name s := match rsplit_once 47%N s with
                 | Some (_, []) => None | Some (_, n) => Some n | None => Some s end;
  component_count s := S (count_char 47%N s);
  target_windows := false;
  shlex_split s := Some (split_char 32%N s);
  shlex_join l := Some (join (str " ") l);
  debug_rule r := rule_program r;
  debug_match m := match m with PrefixRuleMatch p _ _ _ => join (str " ") p
                           | HeuristicsRuleMatch c _ => join (str " ") c end;
|}.

Definition git_rule (d : Decision) (rest : list rstr) : PrefixRule :=
  mkRule (mkPattern (str "git") (Single <$> rest)) d None.
Definition git_policy (rules : list PrefixRule) : Policy :=
  mkPolicy {[ str "git" := rules ]} [] ∅.
Definition allow_git : PrefixRule := git_rule Allow [].
Definition forbid_push : PrefixRule := git_rule Forbidden [str "push"].
Definition git_push : list rstr := [str "git"; str "push"; str "-f"].

Lemma check_strictest_wins_witness :
  let tools := unix_tools in
  let p := git_policy [allow_git; forbid_push] in
  [[str "ls"]; git_push] ≠ [] ∧
  ∃ e, check_multiple_with_options p [[str "ls"]; git_push] (λ _, Prompt) default_match_options
         = Some e ∧
    (∃ m, m ∈ eval_matched_rules e ∧ match_decision m = eval_decision e) ∧
    ∀ cmd m, cmd ∈ [[str "ls"]; git_push] →
      m ∈ matches_for_command_with_options p cmd (Some (λ _, Prompt)) default_match_options →
      m ∈ eval_matched_rules e ∧ severity (match_decision m) ≤ severity (eval_decision e).
Proof.
  intros tools p. split; [done|]. apply (check_strictest_wins (H := tools) p). done.
Defined.

Lemma rule_order_irrelevant_witness :
  let tools := unix_tools in
  same_rules (git_policy [allow_git; forbid_push]) (git_policy [forbid_push; allow_git]) ∧
  eval_decision <$> check_multiple_with_options (git_policy [allow_git; forbid_push]) [git_push]
    (λ _, Prompt) default_match_options =
  eval_decision <$> check_multiple_with_options (git_policy [forbid_push; allow_git]) [git_push]
    (λ _, Prompt) default_match_options.
Proof.
  intros tools.
  assert (same_rules (git_policy [allow_git; forbid_push]) (git_policy [forbid_push; allow_git])) as Hs.
  { split; [|done]. intros prog. unfold git_policy. simpl.
    destruct (decide (prog = str "git")) as [->|Hne].
    - rewrite !lookup_singleton_eq. simpl. apply Permutation_swap.
    - by rewrite !lookup_singleton_ne. }
  split; [done|]. apply (rule_order_irrelevant (H := tools)). done.
Defined.

Lemma merge_overlay_tightens_witness :
  let tools := unix_tools in
  ∃ e, check_with_options (git_policy [allow_git]) git_push (λ _, Prompt) default_match_options
         = Some e ∧
  ∃ e', check_with_options (merge_overlay (git_policy [allow_git]) (git_policy [forbid_push]))
          git_push (λ _, Prompt) default_match_options = Some e' ∧
    severity (eval_decision e) ≤ severity (eval_decision e') ∧
    eval_matched_rules e ⊆ eval_matched_rules e'.
Proof.
  intros tools. eexists. split; [vm_compute; reflexivity|].
  apply (merge_overlay_tightens (H := tools) _ _ (git_policy [allow_git])); [by left|done|].
  vm_compute. reflexivity.
Defined.

(** ** Network domains *)

(** The last decision for a host that allows or forbids it. *)
Definition settled (host : rstr) (r : NetworkRule) : bool :=
  str_eqb (net_host r) host && negb (bool_decide (net_decision r = Prompt)).
Definition last_word (host : rstr) (rules : list NetworkRule) : option Decision :=
  net_decision <$> last (filter (λ r, settled host r = true) rules).

Lemma elem_of_retain_not host l x : x ∈ retain_not host l ↔ x ∈ l ∧ x ≠ host.
Proof. unfold retain_not. rewrite list_elem_of_filter. naive_solver. Qed.

Lemma elem_of_upsert host l x : x ∈ upsert_domain l host ↔ x = host ∨ x ∈ l.
Proof.
  unfold upsert_domain. rewrite elem_of_app, elem_of_retain_not, list_elem_of_singleton.
  destruct (decide (x = host)); naive_solver.
Qed.

Lemma NoDup_retain_not host l : NoDup l → NoDup (retain_not host l).
Proof. apply NoDup_filter. Qed.

Lemma NoDup_upsert host l : NoDup l → NoDup (upsert_domain l host).
Proof.
  intros Hl. unfold upsert_domain. apply NoDup_app. split_and!; [by apply NoDup_retain_not| |].
  - intros x [_ ?]%elem_of_retain_not ?%list_elem_of_singleton. done.
  - apply NoDup_singleton.
Qed.

Lemma last_word_snoc host rules r :
  last_word host (rules ++ [r]) =
  if settled host r then Some (net_decision r) else last_word host rules.
Proof.
  unfold last_word. rewrite filter_app, filter_cons, filter_nil.
  destruct (settled host r) eqn:E.
  - rewrite decide_True by done. by rewrite last_snoc.
  - rewrite decide_False by done. by rewrite app_nil_r.
Qed.

(** The compiled domain lists are disjoint and without duplicates, and a host is
    allowed or denied exactly when the last network rule about it that is not a
    prompt says so. *)
Theorem compiled_domains_last_rule_wins (p : Policy) :
  let '(allowed, denied) := compiled_network_domains p in
  NoDup allowed ∧ NoDup denied ∧
  ∀ host, (host ∈ allowed ↔ last_word host (network_rules p) = Some Allow) ∧
          (host ∈ denied ↔ last_word host (network_rules p) = Some Forbidden).
Proof.
  unfold compiled_network_domains. generalize (network_rules p). intros rules.
  induction rules as [|r rules IH] using rev_ind; simpl.
  { split_and!; [constructor..|]. intros host. split; split; [by intros ?%elem_of_nil|done|by intros ?%elem_of_nil|done]. }
  rewrite foldl_snoc. destruct (foldl compile_rule ([], []) rules) as [al de].
  destruct IH as (Ha & Hd & Hw). unfold compile_rule.
  destruct (net_decision r) eqn:Ed; (split_and!;
    [eauto using NoDup_upsert, NoDup_retain_not..|]); intros host; specialize (Hw host);
    rewrite last_word_snoc, ?elem_of_upsert, ?elem_of_retain_not;
    unfold settled, str_eqb; rewrite Ed; repeat case_bool_decide; simpl; naive_solver.
Qed.

(** *** Hosts *)

Lemma trim_start_by_elem p s x : x ∈ trim_start_by p s → x ∈ s.
Proof. destruct (trim_start_by_suffix p s) as [k Hk]. rewrite Hk at 2. intros. apply elem_of_app. auto. Qed.
Lemma trim_end_by_elem p s x : x ∈ trim_end_by p s → x ∈ s.
Proof. destruct (trim_end_by_prefix p s) as [k Hk]. rewrite Hk at 2. intros. apply elem_of_app. auto. Qed.
Lemma trim_elem s x : x ∈ trim s → x ∈ s.
Proof. intros Hx%trim_end_by_elem. by apply trim_start_by_elem in Hx. Qed.

Lemma split_once_Some c s a b : split_once c s = Some (a, b) → s = a ++ c :: b.
Proof.
  revert a. induction s as [|d s IH]; intros a; simpl; [done|].
  destruct (N.eqb_spec d c) as [->|_]; [by intros [= <- <-]|].
  destruct (split_once c s) as [[a' b']|]; [|done]. intros [= <- <-]. simpl. f_equal. by apply IH.
Qed.

Lemma rsplit_once_Some c s a b : rsplit_once c s = Some (a, b) → s = a ++ c :: b.
Proof.
  unfold rsplit_once. destruct (split_once c (reverse s)) as [[b' a']|] eqn:E; [|done].
  intros [= <- <-]. apply split_once_Some in E. apply (f_equal reverse) in E.
  rewrite reverse_involutive in E. rewrite E, reverse_app, reverse_cons, <- (assoc_L app). done.
Qed.

Lemma strip_port_elem raw host h x : strip_port raw host = Ok h → x ∈ h → x ∈ host.
Proof.
  unfold strip_port. destruct (strip_prefix (str "[") host) as [stripped|] eqn:Es.
  - apply strip_prefix_Some in Es as ->.
    destruct (split_once 93%N stripped) as [[inside rest]|] eqn:E; [|done].
    apply split_once_Some in E as ->. case_match; [done|]. intros [= <-] Hx.
    apply elem_of_app. right. apply elem_of_app. by left.
  - destruct (count_char 58%N host =? 1); [|by intros [= ->]].
    destruct (rsplit_once 58%N host) as [[cand port]|] eqn:E; [|by intros [= ->]].
    apply rsplit_once_Some in E as ->. case_match; [|by intros [= ->]].
    intros [= ->] Hx. apply elem_of_app. by left.
Qed.

Lemma ascii_lower_cases c : ascii_lower c = c ∧ ¬ (65 ≤ c ≤ 90)%N ∨ (97 ≤ ascii_lower c ≤ 122)%N.
Proof. unfold ascii_lower. destruct (N.leb_spec 65 c), (N.leb_spec c 90); simpl; lia. Qed.

(** An accepted network host is a bare host name: not empty, in lower case, and
    without whitespace, wildcard, scheme, path, query or fragment characters. *)
Theorem normalized_host_is_bare (raw host : rstr) :
  normalize_network_rule_host raw = Ok host →
  host ≠ [] ∧
  ∀ c, c ∈ host →
    is_whitespace c = false ∧ c ≠ 42%N ∧ c ≠ 47%N ∧ c ≠ 63%N ∧ c ≠ 35%N ∧ ¬ (65 ≤ c ≤ 90)%N.
Proof.
  unfold normalize_network_rule_host. destruct (is_empty (trim raw)); [done|].
  destruct (_ || _ || _ || _) eqn:Ec; [done|]. intros (h & Hh & Hn)%result_bind_Ok.
  destruct (is_empty _) eqn:Ee; [done|]. destruct (contains_char 42%N _) eqn:E42; [done|].
  destruct (existsb is_whitespace _) eqn:Ew; [done|]. injection Hn as <-.
  unfold contains_char in *. reflect_bools. split; [by intros E; rewrite E in Ee|].
  intros c Hc.
  assert (is_whitespace c = false) as Hws.
  { destruct (is_whitespace c) eqn:E; [|done]. rewrite <- Ew. symmetry. apply existsb_exists.
    exists c. split; [by apply list_elem_of_In|done]. }
  assert (c ≠ 42%N) by (by intros ->).
  apply list_elem_of_fmap in Hc as (d & -> & Hd).
  assert (d ∈ trim raw) as Hdr.
  { eapply strip_port_elem; [exact Hh|]. by apply trim_elem, trim_end_by_elem in Hd. }
  assert (d ≠ 47%N ∧ d ≠ 63%N ∧ d ≠ 35%N) as (? & ? & ?) by (by split_and!; intros ->).
  destruct (ascii_lower_cases d) as [[E ?]|?]; [rewrite E in *|]; split_and!; done || lia.
Qed.

Lemma normalized_host_is_bare_witness :
  normalize_network_rule_host (str " API.Example.com:443 ") = Ok (str "api.example.com") ∧
  ∀ c, c ∈ str "api.example.com" → is_whitespace c = false.
Proof.
  assert (normalize_network_rule_host (str " API.Example.com:443 ")
    = Ok (str "api.example.com")) as E by (vm_compute; reflexivity).
  split; [exact E|]. intros c Hc. by apply (proj2 (normalized_host_is_bare _ _ E)).
Defined.
