(* ===== verification/PolicyFile.v ===== *)
(** Policy files: the builder, the builtins and the example checks of
    [execpolicy/src/parser.rs] and [rule.rs]. *)

From S2P Require Import Prelude ExecPolicy.

#[local] Opaque str.

(** ** Values of the configuration language

    A value is a string, a list, or something else, known by its type name. *)
Inductive Value :=
| VStr (s : rstr)
| VList (content : list Value)
| VOther (type_name : rstr).

Definition unpack_str (v : Value) : option rstr :=
  match v with VStr s => Some s | _ => None end.
Definition get_type (v : Value) : rstr :=
  match v with VStr _ => str "string" | VList _ => str "list" | VOther t => t end.

(** [iter().map(f).collect::<Result<Vec<_>, _>>()]: the first error wins. *)
Fixpoint collect {A B} (f : A → result Error B) (l : list A) : result Error (list B) :=
  match l with
  | [] => Ok []
  | x :: l' => y ← f x; ys ← collect f l'; Ok (y :: ys)
  end.

Definition parse_alternative (v : Value) : result Error rstr :=
  ok_or (unpack_str v)
    (InvalidPattern (str "pattern alternative must be a string (got " ++ get_type v ++ str ")")).

Definition parse_pattern_token (v : Value) : result Error PatternToken :=
  match v with
  | VStr s => Ok (Single s)
  | VList content =>
      tokens ← collect parse_alternative content;
      match tokens with
      | [] => Err (InvalidPattern (str "pattern alternatives cannot be empty"))
      | [single] => Ok (Single single)
      | _ => Ok (Alts tokens)
      end
  | VOther _ =>
      Err (InvalidPattern
        (str "pattern element must be a string or list of strings (got " ++ get_type v ++ str ")"))
  end.

Definition parse_pattern (items : list Value) : result Error (list PatternToken) :=
  tokens ← collect parse_pattern_token items;
  match tokens with
  | [] => Err (InvalidPattern (str "pattern cannot be empty"))
  | _ => Ok tokens
  end.

Definition parse_network_rule_decision (raw : rstr) : result Error Decision :=
  if str_eqb raw (str "deny") then Ok Forbidden else decision_parse raw.

(** The justification of a builtin: refused when blank. *)
Definition parse_justification (justification : option rstr) : result Error (option rstr) :=
  if blank_justification justification
  then Err (InvalidRule (str "justification cannot be empty"))
  else Ok justification.

(** ** The policy builder *)

Record PendingExampleValidation := mkPending {
  pending_rules : list PrefixRule;
  pending_matches : list (list rstr);
  pending_not_matches : list (list rstr);
  pending_location : option ErrorLocation;
}.

Record PolicyBuilder := mkBuilder {
  b_rules_by_program : rule_map;
  b_network_rules : list NetworkRule;
  b_host_executables : gmap rstr (list rstr);
  pending_example_validations : list PendingExampleValidation;
}.
Definition builder_new : PolicyBuilder := mkBuilder ∅ [] ∅ [].

Definition add_rule (b : PolicyBuilder) (r : PrefixRule) : PolicyBuilder :=
  mkBuilder (multimap_insert (b_rules_by_program b) (rule_program r) r) (b_network_rules b)
    (b_host_executables b) (pending_example_validations b).
Definition add_network_rule (b : PolicyBuilder) (r : NetworkRule) : PolicyBuilder :=
  mkBuilder (b_rules_by_program b) (b_network_rules b ++ [r]) (b_host_executables b)
    (pending_example_validations b).
Definition add_host_executable (b : PolicyBuilder) (name : rstr) (paths : list rstr)
    : PolicyBuilder :=
  mkBuilder (b_rules_by_program b) (b_network_rules b) (<[name := paths]> (b_host_executables b))
    (pending_example_validations b).
Definition add_pending_example_validation (b : PolicyBuilder) (v : PendingExampleValidation)
    : PolicyBuilder :=
  mkBuilder (b_rules_by_program b) (b_network_rules b) (b_host_executables b)
    (pending_example_validations b ++ [v]).
Definition build (b : PolicyBuilder) : Policy :=
  mkPolicy (b_rules_by_program b) (b_network_rules b) (b_host_executables b).

(** The builtins of a policy file and what a call of them passes; the location
    is that of the call. *)
Inductive builtin_call :=
| CallPrefixRule (pattern : list Value) (decision : option rstr)
    (matches not_matches : option (list Value)) (justification : option rstr)
    (call_location : option FileSpan)
| CallNetworkRule (host protocol decision : rstr) (justification : option rstr)
| CallHostExecutable (name : rstr) (paths : list Value).

(** The evaluator of the configuration language: a file does not parse, or it
    calls builtins in this order as long as none of them fails, and then ends or
    fails itself.  The language is deterministic, has no exception handling and
    the builtins return nothing a program could depend on.  [failure_span] is
    the span the evaluator attaches to the error of a call. *)
Class Evaluator := {
  parse_module : rstr → rstr → result Error (list builtin_call);
  module_error : rstr → rstr → option Error;
  failure_span : builtin_call → option FileSpan;
}.

Section policy_file.
Context `{PolicyTools}.

(** *** Examples *)

Definition parse_string_example (raw : rstr) : result Error (list rstr) :=
  tokens ← ok_or (shlex_split raw) (InvalidExample (str "example string has invalid shell syntax"));
  match tokens with
  | [] => Err (InvalidExample (str "example cannot be an empty string"))
  | _ => Ok tokens
  end.

Definition parse_list_example (content : list Value) : result Error (list rstr) :=
  tokens ← collect (λ v, ok_or (unpack_str v)
    (InvalidExample (str "example tokens must be strings (got " ++ get_type v ++ str ")"))) content;
  match tokens with
  | [] => Err (InvalidExample (str "example cannot be an empty list"))
  | _ => Ok tokens
  end.

Definition parse_example (v : Value) : result Error (list rstr) :=
  match v with
  | VStr raw => parse_string_example raw
  | VList content => parse_list_example content
  | VOther _ =>
      Err (InvalidExample
        (str "example must be a string or list of strings (got " ++ get_type v ++ str ")"))
  end.
Definition parse_examples (items : list Value) : result Error (list (list rstr)) :=
  collect parse_example items.
(** [option.map(parse_examples).transpose()?.unwrap_or_default()] *)
Definition parse_optional_examples (items : option (list Value)) : result Error (list (list rstr)) :=
  match items with Some l => parse_examples l | None => Ok [] end.

Definition example_options : MatchOptions := mkMatchOptions true.
(** [try_join(..).unwrap_or_else(..)] *)
Definition render_example (example : list rstr) : rstr :=
  default (str "unable to render example") (shlex_join example).

Definition validate_match_examples (p : Policy) (rules : list PrefixRule)
    (matches : list (list rstr)) : result Error () :=
  let unmatched := filter (λ example,
    is_empty (matches_for_command_with_options p example None example_options) = true) matches in
  if is_empty unmatched then Ok ()
  else Err (ExampleDidNotMatch (debug_rule <$> rules) (render_example <$> unmatched) None).

Fixpoint validate_not_match_examples (p : Policy) (not_matches : list (list rstr))
    : result Error () :=
  match not_matches with
  | [] => Ok ()
  | example :: rest =>
      match matches_for_command_with_options p example None example_options with
      | m :: _ => Err (ExampleDidMatch (debug_match m) (render_example example) None)
      | [] => validate_not_match_examples p rest
      end
  end.

Definition attach_validation_location (e : Error) (location : option ErrorLocation) : Error :=
  match location with Some l => with_location e l | None => e end.

(** The policy an example is checked against: the rules of its own call. *)
Definition pending_policy (b : PolicyBuilder) (v : PendingExampleValidation) : Policy :=
  mkPolicy (multimap_extend ∅ ((λ r, (rule_program r, r)) <$> pending_rules v)) []
    (b_host_executables b).
Definition validate_pending (b : PolicyBuilder) (v : PendingExampleValidation) : result Error () :=
  map_err (λ e, attach_validation_location e (pending_location v)) (
    _ ← validate_not_match_examples (pending_policy b v) (pending_not_matches v);
    validate_match_examples (pending_policy b v) (pending_rules v) (pending_matches v)).
Fixpoint validate_all (b : PolicyBuilder) (vs : list PendingExampleValidation) : result Error () :=
  match vs with
  | [] => Ok ()
  | v :: vs' => _ ← validate_pending b v; validate_all b vs'
  end.
Definition validate_pending_examples_from (b : PolicyBuilder) (start : nat) : result Error () :=
  validate_all b (drop start (pending_example_validations b)).

(** *** Builtins *)

Definition prefix_rule (b : PolicyBuilder) (pattern : list Value) (decision : option rstr)
    (matches not_matches : option (list Value)) (justification : option rstr)
    (location : option FileSpan) : result Error PolicyBuilder :=
  decision ← match decision with Some raw => decision_parse raw | None => Ok Allow end;
  justification ← parse_justification justification;
  pattern_tokens ← parse_pattern pattern;
  matches ← parse_optional_examples matches;
  not_matches ← parse_optional_examples not_matches;
  match pattern_tokens with
  | [] => Err (InvalidPattern (str "pattern cannot be empty"))
  | first_token :: rest =>
      let rules := (λ head, mkRule (mkPattern head rest) decision justification)
                     <$> alternatives first_token in
      let b := add_pending_example_validation b (mkPending rules matches not_matches
                 (error_location_from_file_span <$> location)) in
      Ok (foldl add_rule b rules)
  end.

Definition network_rule (b : PolicyBuilder) (host protocol decision : rstr)
    (justification : option rstr) : result Error PolicyBuilder :=
  protocol ← protocol_parse protocol;
  decision ← parse_network_rule_decision decision;
  justification ← parse_justification justification;
  host ← normalize_network_rule_host host;
  Ok (add_network_rule b (mkNetwork host protocol decision justification)).

Definition parse_literal_absolute_path (raw : rstr) : result Error rstr :=
  if negb (is_absolute raw)
  then Err (InvalidRule (str "host_executable paths must be absolute (got " ++ raw ++ str ")"))
  else ok_or (absolute_path raw)
    (InvalidRule (str "invalid absolute path `" ++ raw ++ str "`: " ++ absolute_path_error raw)).

Definition validate_host_executable_name (name : rstr) : result Error () :=
  if is_empty name then Err (InvalidRule (str "host_executable name cannot be empty"))
  else if negb (component_count name =? 1) || negb (bool_decide (file_name name = Some name))
  then Err (InvalidRule
    (str "host_executable name must be a bare executable name (got " ++ name ++ str ")"))
  else Ok ().

Definition parse_host_path (name : rstr) (v : Value) : result Error rstr :=
  raw ← ok_or (unpack_str v)
    (InvalidRule (str "host_executable paths must be strings (got " ++ get_type v ++ str ")"));
  path ← parse_literal_absolute_path raw;
  let bad := InvalidRule (str "host_executable path `" ++ raw ++ str "` must have basename `"
               ++ name ++ str "`") in
  match executable_path_lookup_key path with
  | None => Err bad
  | Some path_name =>
      if negb (str_eqb path_name (executable_lookup_key name)) then Err bad else Ok path
  end.
Fixpoint parse_host_paths (name : rstr) (values : list Value) (parsed : list rstr)
    : result Error (list rstr) :=
  match values with
  | [] => Ok parsed
  | v :: values' =>
      path ← parse_host_path name v;
      parse_host_paths name values'
        (if existsb (str_eqb path) parsed then parsed else parsed ++ [path])
  end.
Definition host_executable (b : PolicyBuilder) (name : rstr) (paths : list Value)
    : result Error PolicyBuilder :=
  _ ← validate_host_executable_name name;
  parsed ← parse_host_paths name paths [];
  Ok (add_host_executable b (executable_lookup_key name) parsed).

Definition run_builtin (b : PolicyBuilder) (c : builtin_call) : result Error PolicyBuilder :=
  match c with
  | CallPrefixRule pattern d ms ns j loc => prefix_rule b pattern d ms ns j loc
  | CallNetworkRule host protocol d j => network_rule b host protocol d j
  | CallHostExecutable name paths => host_executable b name paths
  end.

(** The calls of a module: the builder keeps what the calls before a failing
    one did. *)
Fixpoint run_calls `{Evaluator} (b : PolicyBuilder) (calls : list builtin_call)
    : PolicyBuilder * result Error () :=
  match calls with
  | [] => (b, Ok ())
  | c :: calls' =>
      match run_builtin b c with
      | Ok b' => run_calls b' calls'
      | Err e => (b, Err (Starlark (failure_span c) (inr e)))
      end
  end.

(** [PolicyParser::parse] on the parser's builder *)
Definition parse `{Evaluator} (b : PolicyBuilder) (policy_identifier contents : rstr)
    : PolicyBuilder * result Error () :=
  let pending_validation_count := length (pending_example_validations b) in
  match parse_module policy_identifier contents with
  | Err e => (b, Err e)
  | Ok calls =>
      match run_calls b calls with
      | (b', Err e) => (b', Err e)
      | (b', Ok _) =>
          match module_error policy_identifier contents with
          | Some e => (b', Err e)
          | None => (b', validate_pending_examples_from b' pending_validation_count)
          end
      end
  end.
End policy_file.
