(* ===== verification/PolicyFileProps.v ===== *)
(** Properties of policy files: what a [prefix_rule] call adds to the policy,
    and that the examples of a loaded file hold of the built policy. *)

From S2P Require Import Prelude ExecPolicy ExecPolicyProps PolicyFile.

#[local] Opaque str.

(** The rules of a program. *)
Abbreviation rules_of p prog := (default [] (rules_by_program p !! prog)).
(** A prefix that fits the tokens of a pattern. *)
Definition fits_tokens (tokens : list PatternToken) (prefix : list rstr) : Prop :=
  Forall2 (λ t x, x ∈ alternatives t) tokens prefix.

(** The rules a pattern stands for: one for each alternative of its head. *)
Definition pattern_rules (tokens : list PatternToken) (d : Decision) (j : option rstr)
    : list PrefixRule :=
  match tokens with
  | [] => []
  | first_token :: rest => (λ head, mkRule (mkPattern head rest) d j) <$> alternatives first_token
  end.

Definition by_program (rules : list PrefixRule) : list (rstr * PrefixRule) :=
  (λ r, (rule_program r, r)) <$> rules.

Lemma foldl_add_rule rules b :
  foldl add_rule b rules =
  mkBuilder (multimap_extend (b_rules_by_program b) (by_program rules)) (b_network_rules b)
    (b_host_executables b) (pending_example_validations b).
Proof.
  revert b. induction rules as [|r rules IH]; intros b; simpl; [by destruct b|]. by rewrite IH.
Qed.

Lemma by_program_filter rules prog :
  (filter (λ e : rstr * PrefixRule, e.1 = prog) (by_program rules)).*2
  = filter (λ r, rule_program r = prog) rules.
Proof.
  induction rules as [|r rules IH]; [done|]. unfold by_program. rewrite fmap_cons, !filter_cons.
  simpl. change ((λ r, (rule_program r, r)) <$> rules) with (by_program rules).
  case_decide; [rewrite fmap_cons; by f_equal|done].
Qed.

Lemma extend_rules m rules prog :
  default [] (multimap_extend m (by_program rules) !! prog) =
  default [] (m !! prog) ++ filter (λ r, rule_program r = prog) rules.
Proof. by rewrite multimap_extend_lookup, by_program_filter. Qed.

Section policy_file_props.
Context `{PolicyTools}.

Lemma elem_of_exact p cmd m :
  m ∈ default [] (match_exact_rules p cmd) ↔
  ∃ first args r, cmd = first :: args ∧ r ∈ rules_of p first ∧ rule_matches r cmd = Some m.
Proof.
  destruct cmd as [|first args]; simpl; [set_solver|].
  rewrite list_elem_of_omap. naive_solver.
Qed.

(** The exact matches of the rules of a pattern. *)
Lemma pattern_rules_match tokens d j cmd m :
  (∃ first args r, cmd = first :: args ∧ r ∈ pattern_rules tokens d j ∧
     rule_program r = first ∧ rule_matches r cmd = Some m) ↔
  tokens ≠ [] ∧ ∃ prefix, prefix `prefix_of` cmd ∧ fits_tokens tokens prefix ∧
    m = PrefixRuleMatch prefix d None j.
Proof.
  unfold fits_tokens. split.
  - intros (first & args & r & -> & Hr & Hp & Hm). destruct tokens as [|t rest]; [by apply elem_of_nil in Hr|].
    apply list_elem_of_fmap in Hr as (head & -> & Hh). split; [done|].
    unfold rule_matches in Hm. cbn [rule_pattern rule_decision rule_justification] in Hm. destruct (matches_prefix _ _) as [pre|] eqn:E; [|done].
    apply matches_prefix_Some in E as [? Hf]. injection Hm as <-. exists pre. split_and!; [done| |done].
    inversion Hf as [|? x ? xs Hx Hxs]; subst. apply list_elem_of_singleton in Hx as ->.
    by constructor.
  - intros (Hne & pre & [k Hk] & Hf & ->). destruct tokens as [|t rest]; [done|].
    inversion Hf as [|? x ? xs Hx Hxs]; subst.
    exists x, (xs ++ k), (mkRule (mkPattern x rest) d j). split_and!; [done| |done|].
    + simpl. apply list_elem_of_fmap. eauto.
    + unfold rule_matches. simpl rule_pattern.
      rewrite (proj2 (matches_prefix_Some _ _ (x :: xs))); [done|].
      split; [by exists k|]. constructor; [by left|done].
Qed.

Lemma prefix_rule_Ok b pattern decision ms ns j loc b' :
  prefix_rule b pattern decision ms ns j loc = Ok b' →
  ∃ d tokens mexs nexs,
    match decision with Some raw => decision_parse raw | None => Ok Allow end = Ok d ∧
    parse_pattern pattern = Ok tokens ∧ tokens ≠ [] ∧
    parse_optional_examples ms = Ok mexs ∧ parse_optional_examples ns = Ok nexs ∧
    b' = foldl add_rule (add_pending_example_validation b
           (mkPending (pattern_rules tokens d j) mexs nexs (error_location_from_file_span <$> loc)))
           (pattern_rules tokens d j).
Proof.
  unfold prefix_rule. intros (d & Hd & Hb)%result_bind_Ok.
  apply result_bind_Ok in Hb as (j' & Hj & (tokens & Ht & Hb)%result_bind_Ok).
  apply result_bind_Ok in Hb as (mexs & Hm & (nexs & Hn & Hb)%result_bind_Ok).
  unfold parse_justification in Hj. destruct (blank_justification j); [done|]. injection Hj as <-.
  exists d, tokens, mexs, nexs. destruct tokens as [|t rest]; [done|]. by injection Hb as <-.
Qed.

(** A [prefix_rule] call means its pattern: after it a command matches what it
    matched before, and with the rule's decision and justification every prefix
    of it whose tokens are one alternative each of the pattern's elements, the
    head included. *)
Theorem prefix_rule_adds_pattern (b b' : PolicyBuilder) (pattern : list Value)
    (decision : option rstr) (ms ns : option (list Value)) (j : option rstr)
    (loc : option FileSpan) :
  prefix_rule b pattern decision ms ns j loc = Ok b' →
  ∃ d tokens, parse_pattern pattern = Ok tokens ∧
    match decision with Some raw => decision_parse raw = Ok d | None => d = Allow end ∧
    ∀ cmd m, m ∈ default [] (match_exact_rules (build b') cmd) ↔
      m ∈ default [] (match_exact_rules (build b) cmd) ∨
      ∃ prefix, prefix `prefix_of` cmd ∧ fits_tokens tokens prefix ∧
        m = PrefixRuleMatch prefix d None j.
Proof.
  intros (d & tokens & mexs & nexs & Hd & Ht & Hne & _ & _ & ->)%prefix_rule_Ok.
  exists d, tokens. split_and!; [done|by destruct decision; [|injection Hd]|].
  intros cmd m. rewrite foldl_add_rule, !elem_of_exact. simpl.
  setoid_rewrite extend_rules. setoid_rewrite elem_of_app. setoid_rewrite list_elem_of_filter.
  pose proof (pattern_rules_match tokens d j cmd m) as Hp. naive_solver.
Qed.

(** ** Examples *)

(** Policies with more rules and the same executables match at least as much. *)
Lemma matches_mono p q cmd options :
  (∀ prog, rules_of p prog ⊆ rules_of q prog) →
  host_executables_by_name p = host_executables_by_name q →
  matches_for_command_with_options p cmd None options ≠ [] →
  matches_for_command_with_options q cmd None options ≠ [].
Proof.
  intros Hr Hh. unfold matches_for_command_with_options, matched_rules_of.
  destruct (is_empty (default [] (match_exact_rules q cmd))) eqn:Eq; simpl;
    [|by destruct (default [] (match_exact_rules q cmd))].
  apply is_empty_true in Eq.
  assert (default [] (match_exact_rules p cmd) = []) as ->.
  { apply elem_of_nil_inv. intros m (f & args & r & -> & Hin & Hm)%elem_of_exact.
    assert (m ∈ default [] (match_exact_rules q (f :: args))) as Hm'.
    { apply elem_of_exact. exists f, args, r. split_and!; [done|by apply Hr|done]. }
    rewrite Eq in Hm'. by apply elem_of_nil in Hm'. }
  simpl. destruct (resolve_host_executables options); [|done].
  rewrite !host_rules_default, Hh. destruct cmd as [|first args]; [done|].
  destruct (absolute_path first ≫= _) as [[program basename]|]; [|done].
  case_match; [done|]. intros Hp Hq. apply Hp. apply fmap_nil_inv in Hq.
  apply elem_of_nil_inv. intros m (m' & -> & (r & Hin & Hm)%list_elem_of_omap)%list_elem_of_fmap.
  assert (m' ∈ omap (λ r, rule_matches r (basename :: args)) (rules_of q basename)) as Hm'.
  { apply list_elem_of_omap. exists r. split; [by apply Hr|done]. }
  rewrite Hq in Hm'. by apply elem_of_nil in Hm'.
Qed.

Lemma validate_match_Ok p rules exs ex :
  validate_match_examples p rules exs = Ok () → ex ∈ exs →
  matches_for_command_with_options p ex None example_options ≠ [].
Proof.
  unfold validate_match_examples. destruct (is_empty (filter _ _)) eqn:E; [|done].
  intros _ Hex Hm. apply is_empty_true in E.
  eapply (elem_of_nil ex). rewrite <- E. apply list_elem_of_filter. by rewrite Hm.
Qed.

Lemma validate_not_match_Ok p exs ex :
  validate_not_match_examples p exs = Ok () → ex ∈ exs →
  matches_for_command_with_options p ex None example_options = [].
Proof.
  induction exs as [|e exs IH]; [set_solver|]. cbn [validate_not_match_examples].
  destruct (matches_for_command_with_options p e None example_options) eqn:E; [|done].
  intros Hv [->|Hin]%elem_of_cons; auto.
Qed.

Lemma validate_all_Ok b vs v : validate_all b vs = Ok () → v ∈ vs → validate_pending b v = Ok ().
Proof.
  induction vs as [|w vs IH]; [set_solver|]. simpl.
  intros ([] & Hw & Hv)%result_bind_Ok [->|Hin]%elem_of_cons; auto.
Qed.

Lemma validate_pending_Ok b v :
  validate_pending b v = Ok () →
  (∀ ex, ex ∈ pending_matches v →
     matches_for_command_with_options (pending_policy b v) ex None example_options ≠ []) ∧
  (∀ ex, ex ∈ pending_not_matches v →
     matches_for_command_with_options (pending_policy b v) ex None example_options = []).
Proof.
  intros Hv%map_err_Ok. apply result_bind_Ok in Hv as ([] & Hn & Hm).
  split; intros ex Hex; [by eapply validate_match_Ok|by eapply validate_not_match_Ok].
Qed.

(** What a builtin does to the builder: rules are only added, and examples wait
    for validation. *)
Definition grows (b b' : PolicyBuilder) (vs : list PendingExampleValidation) : Prop :=
  pending_example_validations b' = pending_example_validations b ++ vs ∧
  ∀ prog, rules_of (build b) prog ⊆ rules_of (build b') prog.

Lemma grows_trans b1 b2 b3 vs ws : grows b1 b2 vs → grows b2 b3 ws → grows b1 b3 (vs ++ ws).
Proof. intros [E1 H1] [E2 H2]. split; [by rewrite E2, E1, (assoc_L app)|set_solver]. Qed.

Lemma network_rule_grows b host protocol d j b' :
  network_rule b host protocol d j = Ok b' → grows b b' [].
Proof.
  unfold network_rule. intros (? & _ & Hb)%result_bind_Ok.
  apply result_bind_Ok in Hb as (? & _ & (? & _ & Hb)%result_bind_Ok).
  apply result_bind_Ok in Hb as (? & _ & [= <-]). split; simpl; [by rewrite app_nil_r|done].
Qed.
Lemma host_executable_grows b name paths b' :
  host_executable b name paths = Ok b' → grows b b' [].
Proof.
  unfold host_executable. intros (? & _ & (? & _ & [= <-])%result_bind_Ok)%result_bind_Ok.
  split; simpl; [by rewrite app_nil_r|done].
Qed.

(** The pending validation of a [prefix_rule] call. *)
Definition pending_of (c : builtin_call) (v : PendingExampleValidation) : Prop :=
  match c with
  | CallPrefixRule pattern _ ms ns _ _ =>
      ∃ tokens d j, parse_pattern pattern = Ok tokens ∧ tokens ≠ [] ∧
        pending_rules v = pattern_rules tokens d j ∧
        parse_optional_examples ms = Ok (pending_matches v) ∧
        parse_optional_examples ns = Ok (pending_not_matches v)
  | _ => False
  end.

Lemma run_builtin_grows b c b' :
  run_builtin b c = Ok b' →
  ∃ vs, grows b b' vs ∧
    match c with
    | CallPrefixRule _ _ _ _ _ _ => ∃ v, vs = [v] ∧ pending_of c v ∧
        ∀ prog, filter (λ r, rule_program r = prog) (pending_rules v) ⊆ rules_of (build b') prog
    | _ => True
    end.
Proof.
  destruct c as [pattern d ms ns j loc|host protocol d j|name paths]; simpl.
  - intros (d' & tokens & mexs & nexs & Hd & Ht & Hne & Hm & Hn & ->)%prefix_rule_Ok.
    rewrite foldl_add_rule. eexists. split; [split; [reflexivity|]|].
    + intros prog. simpl. rewrite extend_rules. intros r Hr. apply elem_of_app. by left.
    + eexists. split_and!; [done| |].
      * exists tokens, d', j. done.
      * intros prog. simpl. rewrite extend_rules. intros r Hr. apply elem_of_app. by right.
  - intros Hb%network_rule_grows. eauto.
  - intros Hb%host_executable_grows. eauto.
Qed.

Lemma run_calls_grows `{Evaluator} b calls b' :
  run_calls b calls = (b', Ok ()) →
  ∃ vs, grows b b' vs ∧
    ∀ c, c ∈ calls → match c with
    | CallPrefixRule _ _ _ _ _ _ => ∃ v, v ∈ vs ∧ pending_of c v ∧
        ∀ prog, filter (λ r, rule_program r = prog) (pending_rules v) ⊆ rules_of (build b') prog
    | _ => True
    end.
Proof.
  revert b. induction calls as [|c calls IH]; intros b; simpl.
  { intros [= <-]. exists []. split; [split; [by rewrite app_nil_r|done]|]. intros c Hc. by apply elem_of_nil in Hc. }
  destruct (run_builtin b c) as [b1|] eqn:E; [|done].
  intros (vs & Hg & Hvs)%IH. apply run_builtin_grows in E as (ws & Hw & Hws).
  exists (ws ++ vs). split; [by eapply grows_trans|]. intros c' [->|Hc]%elem_of_cons.
  - destruct c as [pattern d ms ns j loc| |]; [|done..]. destruct Hws as (v & -> & Hv & Hr).
    exists v. split_and!; [set_solver|done|]. destruct Hg as [_ Hg]. set_solver.
  - specialize (Hvs c' Hc). destruct c' as [pattern d ms ns j loc| |]; [|done..].
    destruct Hvs as (v & Hv & ? & ?). exists v. set_solver.
Qed.

(** No prefix of a command without matches fits the pattern. *)
Lemma no_match_no_fit b v tokens d j cmd prefix :
  pending_rules v = pattern_rules tokens d j → tokens ≠ [] →
  matches_for_command_with_options (pending_policy b v) cmd None example_options = [] →
  prefix `prefix_of` cmd → ¬ fits_tokens tokens prefix.
Proof.
  intros Hv Hne Hm Hp Hf.
  destruct (proj2 (pattern_rules_match tokens d j cmd (PrefixRuleMatch prefix d None j)))
    as (first & args & r & -> & Hr & Hprog & Hmr); [eauto 6|].
  assert (PrefixRuleMatch prefix d None j
    ∈ default [] (match_exact_rules (pending_policy b v) (first :: args))) as Hin.
  { apply elem_of_exact. exists first, args, r. split_and!; [done| |done]. simpl.
    rewrite (extend_rules ∅). simpl. apply elem_of_app. right. rewrite Hv.
    by apply list_elem_of_filter. }
  unfold matches_for_command_with_options, matched_rules_of in Hm.
  destruct (default [] (match_exact_rules (pending_policy b v) (first :: args)));
    [by apply elem_of_nil in Hin|done].
Qed.

(** The examples of a loaded file hold of the built policy: after a file is
    parsed without error, every [match] example of each of its [prefix_rule]
    calls is matched by some rule, and no prefix of a [not_match] example fits
    the call's pattern. *)
Theorem loaded_examples_hold `{Evaluator} (b b' : PolicyBuilder) (identifier contents : rstr)
    (calls : list builtin_call) (pattern : list Value) (decision : option rstr)
    (ms ns : option (list Value)) (j : option rstr) (loc : option FileSpan) :
  parse b identifier contents = (b', Ok ()) →
  parse_module identifier contents = Ok calls →
  CallPrefixRule pattern decision ms ns j loc ∈ calls →
  ∃ tokens mexs nexs, parse_pattern pattern = Ok tokens ∧
    parse_optional_examples ms = Ok mexs ∧ parse_optional_examples ns = Ok nexs ∧
    (∀ ex, ex ∈ mexs →
       matches_for_command_with_options (build b') ex None example_options ≠ []) ∧
    (∀ ex prefix, ex ∈ nexs → prefix `prefix_of` ex → ¬ fits_tokens tokens prefix).
Proof.
  unfold parse. intros Hparse Hcalls Hin. rewrite Hcalls in Hparse.
  destruct (run_calls b calls) as [b1 [[]|]] eqn:Er; [|done].
  destruct (module_error identifier contents); [done|].
  injection Hparse as -> Hval. apply run_calls_grows in Er as (vs & [Hp Hg] & Hvs).
  destruct (Hvs _ Hin) as (v & Hv & (tokens & d & j' & Ht & Hne & Hrules & Hm & Hn) & Hsub).
  unfold validate_pending_examples_from in Hval. rewrite Hp, drop_app_length in Hval.
  pose proof (validate_all_Ok _ _ v Hval Hv) as [Hyes Hno]%validate_pending_Ok.
  exists tokens, (pending_matches v), (pending_not_matches v). split_and!; [done..| |].
  - intros ex Hex. eapply (matches_mono (pending_policy b' v)); [|done|by apply Hyes].
    intros prog. simpl. rewrite (extend_rules ∅). simpl. apply Hsub.
  - intros ex prefix Hex. eapply no_match_no_fit; eauto.
Qed.
End policy_file_props.

(** *** A file with one rule *)

Definition git_pattern : list Value := [VStr (str "git"); VList [VStr (str "push"); VStr (str "fetch")]].
Definition git_call : builtin_call :=
  CallPrefixRule git_pattern (Some (str "prompt")) (Some [VStr (str "git push origin")])
    (Some [VList [VStr (str "git"); VStr (str "status")]]) (Some (str "network")) None.
(** An evaluator whose files all make that call. *)
Definition git_evaluator : Evaluator :=
  {| parse_module _ _ := Ok [git_call]; module_error _ _ := None; failure_span _ := None |}.

Lemma prefix_rule_adds_pattern_witness :
  let tools := unix_tools in
  ∃ b', prefix_rule builder_new git_pattern (Some (str "prompt")) None None None None = Ok b' ∧
  ∃ d tokens, parse_pattern git_pattern = Ok tokens ∧ decision_parse (str "prompt") = Ok d ∧
    ∀ cmd m, m ∈ default [] (match_exact_rules (build b') cmd) ↔
      m ∈ default [] (match_exact_rules (build builder_new) cmd) ∨
      ∃ prefix, prefix `prefix_of` cmd ∧ fits_tokens tokens prefix ∧
        m = PrefixRuleMatch prefix d None None.
Proof.
  intros tools. eexists. split; [reflexivity|].
  apply (prefix_rule_adds_pattern (H := tools) builder_new _ git_pattern (Some (str "prompt"))
           None None None None). reflexivity.
Defined.

Lemma loaded_examples_hold_witness :
  let tools := unix_tools in
  let ev := git_evaluator in
  ∃ b', parse builder_new (str "default.rules") [] = (b', Ok ()) ∧
  ∃ tokens mexs nexs, parse_pattern git_pattern = Ok tokens ∧
    parse_optional_examples (Some [VStr (str "git push origin")]) = Ok mexs ∧
    parse_optional_examples (Some [VList [VStr (str "git"); VStr (str "status")]]) = Ok nexs ∧
    (∀ ex, ex ∈ mexs →
       matches_for_command_with_options (build b') ex None example_options ≠ []) ∧
    (∀ ex prefix, ex ∈ nexs → prefix `prefix_of` ex → ¬ fits_tokens tokens prefix).
Proof.
  intros tools ev.
  assert (∃ b', parse (H := tools) (H0 := ev) builder_new (str "default.rules") [] = (b', Ok ()))
    as [b' Hb] by (vm_compute; eauto).
  exists b'. split; [exact Hb|].
  exact (loaded_examples_hold (H := tools) (H0 := ev) builder_new b' (str "default.rules") []
           [git_call] _ _ _ _ _ _ Hb eq_refl (list_elem_of_here _ _)).
Defined.
