(* ===== verification/PolicyAmend.v ===== *)
(** Amending a policy file: [execpolicy/src/amend.rs].  A rule is appended once,
    on a line of its own, and the file keeps everything it had. *)

From S2P Require Import Prelude ExecPolicy PolicyFile.

#[local] Opaque str.

(** Errors of the file system and of the serialiser are texts; for an invalid
    host the source keeps the text of the error. *)
Inductive AmendError :=
| EmptyPrefix
| InvalidNetworkRule (e : Error + rstr)
| MissingParent (path : rstr)
| CreatePolicyDir (dir source : rstr)
| SerializePrefix (source : rstr)
| SerializeNetworkRule (source : rstr)
| OpenPolicyFile (path source : rstr)
| WritePolicyFile (path source : rstr)
| LockPolicyFile (path source : rstr)
| SeekPolicyFile (path source : rstr)
| ReadPolicyFile (path source : rstr).

(** [serde_json::to_string] of a string. *)
Class JsonText := json_string : rstr → result rstr rstr.

(** How the calls to the file system go: [None] is success; creating the
    directory can fail because it is there; a failing write has written some of
    its text. *)
Record PolicyIo := mkIo {
  io_parent : option rstr;
  io_create_dir : option (bool * rstr);
  io_open : option rstr;
  io_lock : option rstr;
  io_seek : option rstr;
  io_read : option rstr;
  io_write_newline : option (nat * rstr);
  io_write_line : option (nat * rstr);
}.

(** [write_all] at the end of a file opened for appending *)
Definition write_all (fault : option (nat * rstr)) (contents text : rstr) : rstr * result rstr () :=
  match fault with
  | None => (contents ++ text, Ok ())
  | Some (n, e) => (contents ++ take n text, Err e)
  end.

(** The file is absent ([None]) or has contents. *)
Definition append_locked_line (io : PolicyIo) (policy_path line : rstr) (file : option rstr)
    : option rstr * result AmendError () :=
  match io_open io with
  | Some source => (file, Err (OpenPolicyFile policy_path source))
  | None =>
      let contents := default [] file in
      match io_lock io, io_seek io, io_read io with
      | Some source, _, _ => (Some contents, Err (LockPolicyFile policy_path source))
      | None, Some source, _ => (Some contents, Err (SeekPolicyFile policy_path source))
      | None, None, Some source => (Some contents, Err (ReadPolicyFile policy_path source))
      | None, None, None =>
          if bool_decide (line ∈ lines contents) then (Some contents, Ok ())
          else
            let '(written, r) :=
              if negb (is_empty contents) && negb (ends_with contents [ch_nl])
              then write_all (io_write_newline io) contents [ch_nl]
              else (contents, Ok ()) in
            match r with
            | Err source => (Some written, Err (WritePolicyFile policy_path source))
            | Ok _ =>
                let '(written, r) := write_all (io_write_line io) written (line ++ [ch_nl]) in
                (Some written, map_err (WritePolicyFile policy_path) r)
            end
      end
  end.

Definition append_rule_line (io : PolicyIo) (policy_path rule : rstr) (file : option rstr)
    : option rstr * result AmendError () :=
  match io_parent io with
  | None => (file, Err (MissingParent policy_path))
  | Some dir =>
      match io_create_dir io with
      | Some (false, source) => (file, Err (CreatePolicyDir dir source))
      | _ => append_locked_line io policy_path rule file
      end
  end.

Section amend.
Context `{JsonText}.

Fixpoint json_strings (tokens : list rstr) : result rstr (list rstr) :=
  match tokens with
  | [] => Ok []
  | t :: tokens' => j ← json_string t; js ← json_strings tokens'; Ok (j :: js)
  end.

(** [format!(r#"prefix_rule(pattern={pattern}, decision="allow")"#)] *)
Definition quote : rstr := [34%N].
Definition allow_rule_line (tokens : list rstr) : rstr :=
  str "prefix_rule(pattern=[" ++ join (str ", ") tokens ++ str "], decision="
  ++ quote ++ str "allow" ++ quote ++ str ")".

Definition blocking_append_allow_prefix_rule (io : PolicyIo) (policy_path : rstr)
    (prefix : list rstr) (file : option rstr) : option rstr * result AmendError () :=
  match prefix with
  | [] => (file, Err EmptyPrefix)
  | _ =>
      match json_strings prefix with
      | Err source => (file, Err (SerializePrefix source))
      | Ok tokens => append_rule_line io policy_path (allow_rule_line tokens) file
      end
  end.

Definition network_decision_text (d : Decision) : rstr :=
  match d with
  | Allow => str "allow" | Prompt => str "prompt" | Forbidden => str "deny"
  end.

Definition network_rule_line (host : rstr) (protocol : NetworkRuleProtocol) (d : Decision)
    (justification : option rstr) : result AmendError rstr :=
  host ← map_err SerializeNetworkRule (json_string host);
  protocol ← map_err SerializeNetworkRule (json_string (as_policy_string protocol));
  decision ← map_err SerializeNetworkRule (json_string (network_decision_text d));
  reason ← match justification with
           | Some j =>
               j ← map_err SerializeNetworkRule (json_string j);
               Ok [str "justification=" ++ j]
           | None => Ok []
           end;
  let args := [str "host=" ++ host; str "protocol=" ++ protocol; str "decision=" ++ decision]
              ++ reason in
  Ok (str "network_rule(" ++ join (str ", ") args ++ str ")").

Definition blocking_append_network_rule (io : PolicyIo) (policy_path host : rstr)
    (protocol : NetworkRuleProtocol) (d : Decision) (justification : option rstr)
    (file : option rstr) : option rstr * result AmendError () :=
  match normalize_network_rule_host host with
  | Err e => (file, Err (InvalidNetworkRule (inl e)))
  | Ok host =>
      if blank_justification justification
      then (file, Err (InvalidNetworkRule (inr (str "justification cannot be empty"))))
      else match network_rule_line host protocol d justification with
           | Err e => (file, Err e)
           | Ok rule => append_rule_line io policy_path rule file
           end
  end.
End amend.

(** ** What an amendment keeps *)

(** ** Lines of an extended text *)

Lemma split_char_app c s t : split_char c (s ++ c :: t) = split_char c s ++ split_char c t.
Proof.
  induction s as [|d s IH]; simpl; [by rewrite N.eqb_refl|].
  rewrite IH. destruct (d =? c)%N; [done|].
  destruct (split_char_cons c s) as (w & ws & ->). done.
Qed.

Lemma lines_of_app a b : b ≠ [] → lines_of (a ++ b) = (strip_cr <$> a) ++ lines_of b.
Proof.
  intros Hb. induction a as [|l a IH]; [done|].
  change (lines_of (l :: (a ++ b)) = strip_cr l :: ((strip_cr <$> a) ++ lines_of b)).
  rewrite <- IH. destruct (a ++ b) eqn:E; [|done]. by apply app_nil in E as [_ ->].
Qed.

Lemma lines_app_nl s t : lines (s ++ ch_nl :: t) = (strip_cr <$> split_char ch_nl s) ++ lines t.
Proof.
  unfold lines. rewrite split_char_app. apply lines_of_app.
  by destruct (split_char_cons ch_nl t) as (w & ws & ->).
Qed.

(** The last piece of a split text. *)
Lemma split_char_last c s :
  ∃ a l, split_char c s = a ++ [l] ∧ l `suffix_of` s ∧
    (l = [] → s = [] ∨ ∃ s0, s = s0 ++ [c]).
Proof.
  induction s as [|d s IH]; simpl; [by exists [], []; auto|].
  destruct IH as (a & l & E & Hl & Hn). rewrite E.
  destruct (N.eqb_spec d c) as [->|Hd].
  - exists ([] :: a), l. split_and!; [done|by apply suffix_cons_r|]. intros Hln.
    right. destruct (Hn Hln) as [->|[s0 ->]]; [by exists []|by exists (c :: s0)].
  - destruct a as [|w a]; simpl.
    + exists [], (d :: l). split_and!; [done| |done].
      assert (s = l) as ->; [|done].
      rewrite <- (join_split c s), E. done.
    + exists ((d :: w) :: a), l. split_and!; [done|by apply suffix_cons_r|]. intros Hln.
      right. destruct (Hn Hln) as [->|[s0 ->]]; [simpl in E; by destruct a|by exists (d :: s0)].
Qed.

(** Ending the last line does not change the lines, unless it turns a final
    carriage return into a part of a line ending. *)
Lemma lines_terminate s :
  s ≠ [] → ends_with s [ch_nl] = false → ends_with s [ch_cr] = false →
  strip_cr <$> split_char ch_nl s = lines s.
Proof.
  intros Hne Hnl Hcr. unfold lines. destruct (split_char_last ch_nl s) as (a & l & -> & Hl & Hn).
  rewrite lines_of_app by done. rewrite fmap_app. simpl.
  assert (is_empty l = false) as ->.
  { destruct l; [|done]. destruct (Hn eq_refl) as [->|Hs]; [done|].
    apply ends_with_true in Hs. congruence. }
  assert (strip_cr l = l) as ->; [|done]. apply strip_cr_id. intros Hlast.
  apply last_Some in Hlast as [l0 ->]. destruct Hl as [k ->].
  rewrite (proj2 (ends_with_true _ [ch_cr])) in Hcr; [done|]. exists (k ++ l0).
  by rewrite (assoc_L app).
Qed.

(** ** Appending a line *)

(** The text with its last line ended. *)
Definition terminated (contents : rstr) : rstr :=
  if negb (is_empty contents) && negb (ends_with contents [ch_nl])
  then contents ++ [ch_nl] else contents.

Lemma lines_line line :
  ch_nl ∉ line → last line ≠ Some ch_cr → lines (line ++ [ch_nl]) = [line].
Proof.
  intros Hline Hlast. rewrite lines_app_nl, split_char_none by done. simpl. by rewrite strip_cr_id.
Qed.

Lemma lines_terminated_app contents line :
  ch_nl ∉ line → last line ≠ Some ch_cr →
  ∃ k, lines (terminated contents ++ line ++ [ch_nl]) = k ++ [line] ∧
    (ends_with contents [ch_cr] = false → k = lines contents).
Proof.
  intros Hline Hlast. pose proof (lines_line line Hline Hlast) as Hl. unfold terminated.
  destruct (decide (contents = [])) as [->|Hne]; [by exists []|].
  assert (is_empty contents = false) as -> by (by destruct contents).
  cbn [negb andb]. destruct (ends_with contents [ch_nl]) eqn:E; cbn [negb].
  - apply ends_with_true in E as [s ->]. exists (lines (s ++ [ch_nl])). split; [|done].
    rewrite <- (assoc_L app). simpl. rewrite lines_app_nl, Hl, lines_app_nl.
    by rewrite app_nil_r.
  - exists (strip_cr <$> split_char ch_nl contents). split.
    + rewrite <- (assoc_L app). simpl. by rewrite lines_app_nl, Hl.
    + intros Hcr. by apply lines_terminate.
Qed.

Lemma append_rule_line_Ok io path rule file file' :
  append_rule_line io path rule file = (file', Ok ()) →
  (∀ f, rule ∈ lines f → append_rule_line io path rule (Some f) = (Some f, Ok ())) ∧
  let contents := default [] file in
  (rule ∈ lines contents ∧ file' = Some contents) ∨
  (rule ∉ lines contents ∧ file' = Some (terminated contents ++ rule ++ [ch_nl])).
Proof.
  unfold append_rule_line. destruct (io_parent io) as [dir|]; [|done].
  assert (∀ file', append_locked_line io path rule file = (file', Ok ()) →
    (∀ f, rule ∈ lines f → append_locked_line io path rule (Some f) = (Some f, Ok ())) ∧
    let contents := default [] file in
    (rule ∈ lines contents ∧ file' = Some contents) ∨
    (rule ∉ lines contents ∧ file' = Some (terminated contents ++ rule ++ [ch_nl]))) as Hlock;
    [|destruct (io_create_dir io) as [[[] src]|]; [apply Hlock|done|apply Hlock]].
  clear file'. intros file'. unfold append_locked_line, terminated, write_all.
  destruct (io_open io); [done|]. destruct (io_lock io), (io_seek io), (io_read io); try done.
  intros Hok. split; [intros f Hf; simpl; by rewrite bool_decide_eq_true_2|]. simpl.
  case_bool_decide as Hin; [left; by injection Hok as <-|right; split; [done|]].
  destruct (negb _ && negb _); [destruct (io_write_newline io) as [[? ?]|]; [done|]|];
    destruct (io_write_line io) as [[? ?]|]; try done; by injection Hok as <-.
Qed.

Lemma elem_of_join c ls l : l ∈ join c ls → l ∈ c ∨ ∃ x, x ∈ ls ∧ l ∈ x.
Proof.
  induction ls as [|x ls IH]; [set_solver|]. destruct (decide (ls = [])) as [->|Hne].
  - simpl. set_solver.
  - rewrite join_cons by done. set_solver.
Qed.

Section amend_props.
Context `{JsonText}.
(** A JSON string escapes the control characters. *)
Definition json_escapes : Prop := ∀ s j, json_string s = Ok j → ch_nl ∉ j.

Lemma json_strings_plain tokens js :
  json_escapes → json_strings tokens = Ok js → Forall (λ j, ch_nl ∉ j) js.
Proof.
  intros Hj. revert js. induction tokens as [|t tokens IH]; simpl; intros js.
  { intros [= <-]. constructor. }
  intros (j & Hjt & (js' & Hjs & [= <-])%result_bind_Ok)%result_bind_Ok.
  constructor; [by eapply Hj|by apply IH].
Qed.

Lemma allow_rule_line_plain tokens :
  Forall (λ j, ch_nl ∉ j) tokens → plain_line (allow_rule_line tokens).
Proof.
  intros Hf. unfold allow_rule_line. split.
  - rewrite !elem_of_app. intros Hx. rewrite Forall_forall in Hf.
    assert (∀ s : string, bool_decide (ch_nl ∈ str s) = false → ch_nl ∉ str s) as Hs
      by (intros s; apply bool_decide_eq_false_1).
    destruct Hx as [Hx|[Hx|[Hx|[Hx|[Hx|[Hx|Hx]]]]]];
      try (revert Hx; apply Hs; vm_compute; reflexivity);
      try (by apply list_elem_of_singleton in Hx).
    apply elem_of_join in Hx as [Hx|(x & Hx & Hn)]; [|by eapply Hf].
    revert Hx. apply Hs. vm_compute. reflexivity.
  - rewrite !(assoc_L app), last_app_ne by (vm_compute; done). vm_compute. done.
Qed.

(** Accepting a prefix appends one rule: after a successful amendment the file
    starts with what it had, has the rule as one of its lines, as the only new
    one if there is any, and amending again changes nothing. *)
Theorem amendment_appends_once (io : PolicyIo) (policy_path : rstr) (prefix : list rstr)
    (file file' : option rstr) :
  json_escapes →
  blocking_append_allow_prefix_rule io policy_path prefix file = (file', Ok ()) →
  ∃ tokens contents', json_strings prefix = Ok tokens ∧ file' = Some contents' ∧
    default [] file `prefix_of` contents' ∧
    allow_rule_line tokens ∈ lines contents' ∧
    (ends_with (default [] file) [ch_cr] = false →
     lines contents' = lines (default [] file) ∨
     lines contents' = lines (default [] file) ++ [allow_rule_line tokens]) ∧
    blocking_append_allow_prefix_rule io policy_path prefix file' = (file', Ok ()).
Proof.
  intros Hj. unfold blocking_append_allow_prefix_rule. destruct prefix as [|t prefix]; [done|].
  destruct (json_strings (t :: prefix)) as [tokens|] eqn:Ej; [|done].
  pose proof (allow_rule_line_plain tokens (json_strings_plain _ _ Hj Ej)) as [Hnl Hcr].
  intros [Hagain Hcase]%append_rule_line_Ok.
  destruct (lines_terminated_app (default [] file) (allow_rule_line tokens)) as (k & Hk & Heq);
    [done..|].
  assert (allow_rule_line tokens ∈ lines (terminated (default [] file) ++ allow_rule_line tokens ++ [ch_nl]))
    by (rewrite Hk; set_solver).
  destruct Hcase as [[Hin ->]|[Hout ->]]; eexists tokens, _; split_and!; try done; auto.
  - unfold terminated. case_match; rewrite <- ?(assoc_L app); by eexists.
  - intros Hc. right. by rewrite Hk, Heq.
Qed.
End amend_props.

(** *** Quoting without escapes *)
Definition quoting_json : JsonText := λ s,
  if bool_decide (ch_nl ∈ s) then Err (str "newline") else Ok ([34%N] ++ s ++ [34%N]).
Definition working_io : PolicyIo :=
  mkIo (Some (str "rules")) (Some (true, str "exists")) None None None None None None.

Lemma amendment_appends_once_witness :
  let json := quoting_json in
  ∃ file', blocking_append_allow_prefix_rule working_io (str "rules/default.rules")
    [str "git"; str "push"] (Some (str "# rules")) = (file', Ok ()) ∧
  ∃ tokens contents', json_strings [str "git"; str "push"] = Ok tokens ∧ file' = Some contents' ∧
    str "# rules" `prefix_of` contents' ∧ allow_rule_line tokens ∈ lines contents'.
Proof.
  intros json.
  assert (∃ file', blocking_append_allow_prefix_rule (H := json) working_io
    (str "rules/default.rules") [str "git"; str "push"] (Some (str "# rules")) = (file', Ok ()))
    as [file' Hok] by (vm_compute; eauto).
  exists file'. split; [exact Hok|].
  destruct (amendment_appends_once (H := json) working_io (str "rules/default.rules")
    [str "git"; str "push"] (Some (str "# rules")) file') as (tokens & contents' & ? & ? & ? & ? & _);
    [|exact Hok|by eauto 10].
  intros s j. unfold json_string, json, quoting_json. case_bool_decide; [done|]. intros [= <-].
  rewrite !elem_of_cons, elem_of_app, list_elem_of_singleton. naive_solver.
Defined.
