(* ===== verification/DangerousCommand.v ===== *)
(** The classification of dangerous commands:
    [shell-command/src/command_safety/is_dangerous_command.rs]. *)

From S2P Require Import Prelude.

#[local] Opaque str.

Inductive DangerousCommandPlatform := PosixPlatform | WindowsPlatform.
#[global] Instance DangerousCommandPlatform_eq_dec : EqDecision DangerousCommandPlatform.
Proof. solve_decision. Defined.

Inductive DangerousCommandMatch := ForcedRm | OtherDanger.
#[global] Instance DangerousCommandMatch_eq_dec : EqDecision DangerousCommandMatch.
Proof. solve_decision. Defined.

Definition MAX_DANGEROUS_COMMAND_WRAPPER_DEPTH : nat := 8.

(** The literal commands of a [sh -c] script ([bash.rs], on the tree-sitter
    grammar) and the checks of [windows_dangerous_commands.rs]. *)
Class ShellTools := {
  parse_shell_lc_literal_commands : list rstr → option (list (list rstr));
  is_dangerous_command_windows : list rstr → bool;
  is_dangerous_powershell_words : list rstr → bool;
}.

(** ** Names and options *)

(** [.rsplit(..).next().filter(|name| !name.is_empty())] *)
Definition last_segment (sep : rchar → bool) (raw : rstr) : option rstr :=
  match last (split_by sep raw) with
  | Some name => if is_empty name then None else Some name
  | None => None
  end.

(** [\[drive, b':', ..\] if drive.is_ascii_alphabetic() => &name\[2..\]] *)
Definition strip_drive (name : rstr) : rstr :=
  match name with
  | drive :: 58%N :: rest => if is_ascii_alphabetic drive then rest else name
  | _ => name
  end.
Definition executable_suffixes : list rstr := [str ".exe"; str ".cmd"; str ".bat"; str ".com"].

Definition executable_name_lookup_key (raw : rstr) (platform : DangerousCommandPlatform)
    : option rstr :=
  match platform with
  | PosixPlatform => last_segment (N.eqb 47%N) raw
  | WindowsPlatform =>
      name ← last_segment (λ c, (c =? 47) || (c =? 92))%N raw;
      let name := to_ascii_lowercase (strip_drive name) in
      match omap (λ suffix, strip_suffix suffix name) executable_suffixes with
      | stripped :: _ => Some stripped
      | [] => if is_empty name then None else Some name
      end
  end.

(** [take_while(|arg| arg != "--")] *)
Fixpoint before_dashes (args : list rstr) : list rstr :=
  match args with
  | [] => []
  | a :: args' => if str_eqb a (str "--") then [] else a :: before_dashes args'
  end.
Definition is_force_option (arg : rstr) : bool :=
  str_eqb arg (str "--force") ||
  match strip_prefix (str "-") arg with
  | Some flags => negb (starts_with flags (str "-")) && contains_char 102%N flags
  | None => false
  end.
Definition rm_args_include_force_option (args : list rstr) : bool :=
  existsb is_force_option (before_dashes args).

(** An argument of [env] that comes before the command. *)
Definition is_env_setting (argument : rstr) : bool :=
  str_eqb argument (str "-i") || str_eqb argument (str "--ignore-environment") ||
  match split_once 61%N argument with
  | Some (name, _) => negb (is_empty name) && negb (starts_with name (str "-"))
  | None => false
  end.
(** The command that [env] runs. *)
Fixpoint env_command (args : list rstr) : list rstr :=
  match args with
  | [] => []
  | a :: args' =>
      if str_eqb a (str "--") then args'
      else if is_env_setting a then env_command args' else args
  end.

(** The action of [trap], which is shell source. *)
Definition trap_action (args : list rstr) : option rstr :=
  let args := match args with
              | a :: args' => if str_eqb a (str "--") then args' else args
              | [] => []
              end in
  match args with
  | action :: _ => if starts_with action (str "-") then None else Some action
  | [] => None
  end.

(** [iter().find_map(f)] *)
Fixpoint find_map {A B} (f : A → option B) (l : list A) : option B :=
  match l with
  | [] => None
  | x :: l' => match f x with Some y => Some y | None => find_map f l' end
  end.

Section classify.
Context `{ShellTools}.

(** [rec] is the classification one wrapper deeper. *)
Definition dangerous_command_match_for_env (rec : list rstr → option DangerousCommandMatch)
    (command : list rstr) : option DangerousCommandMatch :=
  rec (env_command (tail command)).
Definition dangerous_command_match_for_trap (rec : list rstr → option DangerousCommandMatch)
    (command : list rstr) : option DangerousCommandMatch :=
  action ← trap_action (tail command);
  rec [str "sh"; str "-c"; action].

Definition dangerous_command_match_for_exec (rec : list rstr → option DangerousCommandMatch)
    (command : list rstr) (platform : DangerousCommandPlatform) : option DangerousCommandMatch :=
  match head command ≫= λ c, executable_name_lookup_key c platform with
  | Some cmd0 =>
      if str_eqb cmd0 (str "rm") && rm_args_include_force_option (tail command)
      then Some ForcedRm
      else if str_eqb cmd0 (str "sudo") then rec (tail command)
      else if str_eqb cmd0 (str "env") then dangerous_command_match_for_env rec command
      else if str_eqb cmd0 (str "trap") then dangerous_command_match_for_trap rec command
      else None
  | None => None
  end.

(** The body of [dangerous_command_match_with_depth] within the depth limit. *)
Definition dangerous_step (rec : list rstr → option DangerousCommandMatch)
    (command : list rstr) (platform : DangerousCommandPlatform) : option DangerousCommandMatch :=
  match dangerous_command_match_for_exec rec command platform with
  | Some m => Some m
  | None =>
      match parse_shell_lc_literal_commands command ≫= find_map rec with
      | Some m => Some m
      | None =>
          if bool_decide (platform = WindowsPlatform) && is_dangerous_command_windows command
          then Some OtherDanger
          else None
      end
  end.

(** [budget] counts the wrappers that may still be entered: nine minus the
    depth, so it is zero exactly when [wrapper_depth > 8]. *)
Fixpoint dangerous_with_budget (budget : nat) (command : list rstr)
    (platform : DangerousCommandPlatform) : option DangerousCommandMatch :=
  match budget with
  | 0 => Some OtherDanger
  | S budget' => dangerous_step (λ c, dangerous_with_budget budget' c platform) command platform
  end.

Definition dangerous_command_match_with_depth (command : list rstr) (wrapper_depth : nat)
    (platform : DangerousCommandPlatform) : option DangerousCommandMatch :=
  dangerous_with_budget (S MAX_DANGEROUS_COMMAND_WRAPPER_DEPTH - wrapper_depth) command platform.

Definition dangerous_command_match_for_platform (command : list rstr)
    (platform : DangerousCommandPlatform) : option DangerousCommandMatch :=
  dangerous_command_match_with_depth command 0 platform.

Definition dangerous_powershell_words_match (command : list rstr)
    (platform : DangerousCommandPlatform) : option DangerousCommandMatch :=
  match platform with
  | WindowsPlatform => if is_dangerous_powershell_words command then Some OtherDanger else None
  | PosixPlatform => None
  end.

(** The definition satisfies the recursion of the source. *)
Lemma with_depth_unfold command depth platform :
  dangerous_command_match_with_depth command depth platform =
  if MAX_DANGEROUS_COMMAND_WRAPPER_DEPTH <? depth then Some OtherDanger
  else dangerous_step (λ c, dangerous_command_match_with_depth c (S depth) platform) command platform.
Proof.
  unfold dangerous_command_match_with_depth.
  destruct (Nat.ltb_spec MAX_DANGEROUS_COMMAND_WRAPPER_DEPTH depth) as [Hd|Hd].
  - by replace (S MAX_DANGEROUS_COMMAND_WRAPPER_DEPTH - depth) with 0 by lia.
  - by replace (S MAX_DANGEROUS_COMMAND_WRAPPER_DEPTH - depth)
      with (S (S MAX_DANGEROUS_COMMAND_WRAPPER_DEPTH - S depth)) by lia.
Qed.

(** ** Wrappers *)

(** [wraps platform w c]: [w] is a wrapper that the classifier enters, and [c] what
    it looks at next.  The forms are [sudo] before a command; [env] before settings
    ([-i], [--ignore-environment], [NAME=value]), an optional [--] and a command;
    [trap] before an optional [--] and an action; and a shell script with its literal
    commands.  Any other option of [sudo] or [env] counts as the command. *)
Inductive wraps (platform : DangerousCommandPlatform) : list rstr → list rstr → Prop :=
| wrap_sudo exe c :
    executable_name_lookup_key exe platform = Some (str "sudo") → wraps platform (exe :: c) c
| wrap_env exe settings c :
    executable_name_lookup_key exe platform = Some (str "env") →
    Forall (λ a, is_env_setting a = true ∧ a ≠ str "--") settings →
    wraps platform (exe :: settings ++ str "--" :: c) c
| wrap_env_plain exe settings prog args :
    executable_name_lookup_key exe platform = Some (str "env") →
    Forall (λ a, is_env_setting a = true ∧ a ≠ str "--") settings →
    is_env_setting prog = false → prog ≠ str "--" →
    wraps platform (exe :: settings ++ prog :: args) (prog :: args)
| wrap_env_none exe settings :
    executable_name_lookup_key exe platform = Some (str "env") →
    Forall (λ a, is_env_setting a = true ∧ a ≠ str "--") settings →
    wraps platform (exe :: settings) []
| wrap_trap exe action signals :
    executable_name_lookup_key exe platform = Some (str "trap") →
    starts_with action (str "-") = false →
    wraps platform (exe :: action :: signals) [str "sh"; str "-c"; action]
| wrap_trap_dashes exe action signals :
    executable_name_lookup_key exe platform = Some (str "trap") →
    starts_with action (str "-") = false →
    wraps platform (exe :: str "--" :: action :: signals) [str "sh"; str "-c"; action]
| wrap_script w cs c :
    parse_shell_lc_literal_commands w = Some cs → c ∈ cs → wraps platform w c.

Lemma env_command_settings settings c :
  Forall (λ a, is_env_setting a = true ∧ a ≠ str "--") settings →
  env_command (settings ++ c) = env_command c.
Proof.
  induction 1 as [|a settings [Hs Hd] _ IH]; [done|]. simpl.
  unfold str_eqb. rewrite bool_decide_eq_false_2 by done. by rewrite Hs.
Qed.
Lemma env_command_dashes c : env_command (str "--" :: c) = c.
Proof. simpl. by rewrite str_eqb_refl. Qed.
Lemma env_command_plain prog args :
  is_env_setting prog = false → prog ≠ str "--" → env_command (prog :: args) = prog :: args.
Proof. intros Hs Hd. simpl. unfold str_eqb. rewrite bool_decide_eq_false_2 by done. by rewrite Hs. Qed.

(** Where [env] finds its command *)
Lemma env_command_wraps platform exe args :
  executable_name_lookup_key exe platform = Some (str "env") → wraps platform (exe :: args) (env_command args).
Proof.
  intros He.
  assert (∃ settings, Forall (λ a, is_env_setting a = true ∧ a ≠ str "--") settings
    ∧ (args = settings ∧ env_command args = []
       ∨ args = settings ++ str "--" :: env_command args
       ∨ ∃ prog rest, env_command args = prog :: rest ∧ args = settings ++ prog :: rest
           ∧ is_env_setting prog = false ∧ prog ≠ str "--"))
    as (settings & Hs & [[-> ->]|[E|(prog & rest & -> & -> & Hp & Hd)]]).
  { induction args as [|a args (settings & Hs & IH)]; [by exists []; auto|]. simpl.
    destruct (str_eqb a (str "--")) eqn:Ed; reflect_bools; [subst; exists []; auto|].
    destruct (is_env_setting a) eqn:Ea; [|exists []; split; [done|]; right; right; by exists a, args].
    exists (a :: settings). split; [by constructor|].
    destruct IH as [[-> ->]|[E|(prog & rest & E & -> & ? & ?)]]; [by auto|right; left; simpl; congruence|].
    right. right. exists prog, rest. by rewrite E. }
  - by apply wrap_env_none.
  - rewrite E at 1. by apply wrap_env.
  - by apply wrap_env_plain.
Qed.
Lemma trap_action_wraps platform exe args action :
  executable_name_lookup_key exe platform = Some (str "trap") → trap_action args = Some action →
  wraps platform (exe :: args) [str "sh"; str "-c"; action].
Proof.
  intros He. unfold trap_action. destruct args as [|a args]; [done|].
  destruct (str_eqb a (str "--")) eqn:Ed; reflect_bools; [subst; destruct args as [|b args]; [done|]|];
    destruct (starts_with _ _) eqn:Es; try done; intros [= ->]; [by apply wrap_trap_dashes|by apply wrap_trap].
Qed.

Lemma trap_action_plain action signals :
  starts_with action (str "-") = false → trap_action (action :: signals) = Some action.
Proof.
  intros Ha. unfold trap_action. destruct (str_eqb action (str "--")) eqn:E; [|by rewrite Ha].
  reflect_bools. subst. vm_compute in Ha. done.
Qed.

Lemma find_map_is_Some {A B} (f : A → option B) l x :
  x ∈ l → is_Some (f x) → is_Some (find_map f l).
Proof.
  induction 1 as [x l|x z l _ IH]; simpl; [intros [y ->]; eauto|].
  intros Hx. destruct (f z); [eauto|by apply IH].
Qed.
Lemma find_map_Some {A B} (f : A → option B) l y :
  find_map f l = Some y → ∃ x, x ∈ l ∧ f x = Some y.
Proof.
  induction l as [|x l IH]; simpl; [done|]. destruct (f x) eqn:E; [|set_solver].
  intros [= ->]. exists x. set_solver.
Qed.

Lemma str_names : str "sudo" ≠ str "rm" ∧ str "env" ≠ str "rm" ∧ str "env" ≠ str "sudo" ∧
  str "trap" ≠ str "rm" ∧ str "trap" ≠ str "sudo" ∧ str "trap" ≠ str "env".
Proof. split_and!; vm_compute; discriminate. Qed.

Lemma for_exec_key rec exe args platform key :
  executable_name_lookup_key exe platform = Some key →
  dangerous_command_match_for_exec rec (exe :: args) platform =
  if str_eqb key (str "rm") && rm_args_include_force_option args then Some ForcedRm
  else if str_eqb key (str "sudo") then rec args
  else if str_eqb key (str "env") then rec (env_command args)
  else if str_eqb key (str "trap") then (a ← trap_action args; rec [str "sh"; str "-c"; a])
  else None.
Proof. intros He. unfold dangerous_command_match_for_exec. simpl. by rewrite He. Qed.

(** A wrapper is dangerous when what it runs is, one level deeper. *)
Lemma dangerous_step_wraps rec platform w c :
  wraps platform w c → is_Some (rec c) → is_Some (dangerous_step rec w platform).
Proof.
  intros Hw [m Hm]. pose proof str_names as (? & ? & ? & ? & ? & ?).
  assert (∀ a b, a ≠ b → str_eqb a b = false) as Hne
    by (intros; by apply bool_decide_eq_false_2).
  unfold dangerous_step.
  destruct Hw as [exe c He|exe settings c He Hs|exe settings prog args He Hs Hp Hd|exe settings He Hs
                 |exe action signals He Ha|exe action signals He Ha|w cs c Hp Hc];
    try (erewrite for_exec_key by exact He; rewrite ?Hne, ?str_eqb_refl by done; cbn [andb]).
  - by rewrite Hm.
  - by rewrite env_command_settings, env_command_dashes, Hm.
  - by rewrite env_command_settings, env_command_plain, Hm.
  - rewrite <-(app_nil_r settings), env_command_settings by done. simpl. by rewrite Hm.
  - rewrite trap_action_plain by done. simpl. by rewrite Hm.
  - assert (trap_action (str "--" :: action :: signals) = Some action) as ->; [|simpl; by rewrite Hm].
    unfold trap_action. by rewrite str_eqb_refl, Ha.
  - destruct (dangerous_command_match_for_exec rec w platform); [eauto|]. rewrite Hp. simpl.
    destruct (find_map_is_Some rec cs c) as [m' ->]; eauto.
Qed.

(** The commands that are dangerous by themselves *)
Definition directly_dangerous (platform : DangerousCommandPlatform) (c : list rstr) : Prop :=
  (∃ exe args, c = exe :: args ∧ executable_name_lookup_key exe platform = Some (str "rm")
     ∧ rm_args_include_force_option args = true)
  ∨ platform = WindowsPlatform ∧ is_dangerous_command_windows c = true.

(** A command is dangerous for what it is or for what it wraps. *)
Lemma dangerous_step_inv rec platform w :
  is_Some (dangerous_step rec w platform) →
  directly_dangerous platform w ∨ ∃ c, wraps platform w c ∧ is_Some (rec c).
Proof.
  unfold dangerous_step. intros Hd.
  destruct (dangerous_command_match_for_exec rec w platform) as [m|] eqn:E.
  - destruct w as [|exe args]; [done|].
    destruct (executable_name_lookup_key exe platform) as [key|] eqn:He;
      [|unfold dangerous_command_match_for_exec in E; simpl in E; by rewrite He in E].
    erewrite for_exec_key in E by exact He.
    destruct (str_eqb key (str "rm") && _) eqn:Er.
    { apply andb_true_iff in Er as [Er Hf]. reflect_bools. subst. left. left. by exists exe, args. }
    right. repeat (destruct (str_eqb key _) eqn:? in E; reflect_bools; subst).
    + exists args. split; [by apply wrap_sudo|by eexists].
    + exists (env_command args). split; [by apply env_command_wraps|by eexists].
    + apply bind_Some in E as (action & Ha & E). eexists. split; [by eapply trap_action_wraps|by eexists].
    + done.
  - destruct (parse_shell_lc_literal_commands w) as [cs|] eqn:Ep; simpl in Hd.
    + destruct (find_map rec cs) as [m|] eqn:Ef.
      { apply find_map_Some in Ef as (c & Hc & Hm). right. exists c. split; [by eapply wrap_script|by eexists]. }
      left. right. destruct (_ && _) eqn:Ew; [|by destruct Hd]. reflect_bools. tauto.
    + left. right. destruct (_ && _) eqn:Ew; [|by destruct Hd]. reflect_bools. tauto.
Qed.
Lemma directly_dangerous_step rec platform c :
  directly_dangerous platform c → is_Some (dangerous_step rec c platform).
Proof.
  unfold dangerous_step. intros [(exe & args & -> & He & Hf)|[-> Hw]].
  - erewrite for_exec_key by exact He. rewrite str_eqb_refl, Hf. by eexists.
  - destruct (dangerous_command_match_for_exec _ _ _); [by eexists|].
    destruct (_ ≫= _); [by eexists|]. rewrite Hw. by eexists.
Qed.

(** C13: A command is flagged exactly when it is a wrapper, nested at most eight
    deep and in the forms that the classifier enters, of a command that is
    dangerous by itself (a forced [rm], or one that the Windows rules list), or when
    wrappers of those forms are nested more than eight deep, whatever they run. *)
Theorem wrappers_never_hide_danger (platform : DangerousCommandPlatform) (w : list rstr) :
  is_Some (dangerous_command_match_for_platform w platform) ↔
  (∃ n c, n ≤ MAX_DANGEROUS_COMMAND_WRAPPER_DEPTH ∧ nsteps (wraps platform) n w c ∧ directly_dangerous platform c)
  ∨ ∃ c, nsteps (wraps platform) (S MAX_DANGEROUS_COMMAND_WRAPPER_DEPTH) w c.
Proof.
  unfold dangerous_command_match_for_platform, dangerous_command_match_with_depth. rewrite Nat.sub_0_r.
  generalize MAX_DANGEROUS_COMMAND_WRAPPER_DEPTH. intros depth. revert w.
  induction depth as [|depth IH]; intros w;
    [change (dangerous_with_budget 1 w platform) with (dangerous_step (λ c, dangerous_with_budget 0 c platform) w platform)
    |change (dangerous_with_budget (S (S depth)) w platform)
       with (dangerous_step (λ c, dangerous_with_budget (S depth) c platform) w platform)]; split.
  - intros [Hd|(c & Hc & _)]%dangerous_step_inv.
    + left. exists 0, w. split_and!; [done|constructor|done].
    + right. exists c. by apply nsteps_once.
  - intros [(n & c & Hn & Hs & Hd)|(c & Hs)].
    + replace n with 0 in Hs by lia. inversion Hs; subst. by apply directly_dangerous_step.
    + apply nsteps_once_inv in Hs. eapply dangerous_step_wraps; [done|by eexists].
  - intros [Hd|(c & Hc & [(n & c' & Hn & Hs & Hd)|(c' & Hs)]%IH)]%dangerous_step_inv.
    + left. exists 0, w. split_and!; [lia|constructor|done].
    + left. exists (S n), c'. split_and!; [lia|by eapply nsteps_l|done].
    + right. exists c'. by eapply nsteps_l.
  - intros [(n & c & Hn & Hs & Hd)|(c & Hs)].
    + inversion Hs as [|n' x y z Hw Hs']; subst; [by apply directly_dangerous_step|].
      eapply dangerous_step_wraps; [done|]. apply IH. left. exists n', c. split_and!; [lia|done..].
    + inversion Hs as [|n' x y z Hw Hs']; subst. eapply dangerous_step_wraps; [done|]. apply IH. right. by exists c.
Qed.
End classify.

(** *** [sudo env A=1 -- rm -rf x] *)
Definition no_scripts : ShellTools := {|
  parse_shell_lc_literal_commands _ := None;
  is_dangerous_command_windows _ := false;
  is_dangerous_powershell_words _ := false;
|}.

Lemma wrappers_never_hide_danger_witness :
  let tools := no_scripts in
  is_Some (dangerous_command_match_for_platform
    [str "/usr/bin/sudo"; str "env"; str "A=1"; str "--"; str "rm"; str "-rf"; str "x"] PosixPlatform).
Proof.
  intros tools. apply (proj2 (wrappers_never_hide_danger (H := tools) PosixPlatform _)). left.
  exists 2, [str "rm"; str "-rf"; str "x"]. split; [vm_compute; lia|]. split.
  - eapply nsteps_l; [apply wrap_sudo; reflexivity|]. apply nsteps_once.
    apply (wrap_env (H := tools) PosixPlatform (str "env") [str "A=1"]); [reflexivity|].
    repeat constructor. vm_compute. discriminate.
  - left. exists (str "rm"), [str "-rf"; str "x"]. split; [reflexivity|]. split; vm_compute; reflexivity.
Defined.

(** An option of [sudo] or [env] with an argument stops the search: the command
    after it is not looked at.  The [--] of a trap is skipped. *)
Example options_stop_the_search :
  let tools := no_scripts in
  dangerous_command_match_for_platform [str "sudo"; str "-u"; str "root"; str "rm"; str "-rf"; str "x"] PosixPlatform = None
  ∧ dangerous_command_match_for_platform [str "env"; str "-u"; str "X"; str "rm"; str "-rf"; str "x"] PosixPlatform = None
  ∧ trap_action [str "--"; str "rm -rf x"; str "EXIT"] = Some (str "rm -rf x").
Proof. split_and!; vm_compute; reflexivity. Qed.
