(* ===== verification/ExecApproval.v ===== *)
(** Deciding whether a command needs approval: [core/src/exec_policy.rs] with
    [exec_policy/model_policy.rs] and [exec_policy/executable_identity.rs], and
    the sandbox choices of [core/src/tools/sandboxing.rs]. *)

From S2P Require Import Prelude PathUris FsPolicy ExecPolicy PolicyFile PolicyAmend DangerousCommand.

#[local] Opaque str.

(** ** Approval policies and permissions ([protocol]) *)

Record GranularApprovalConfig := mkGranular {
  sandbox_approval : bool;
  granular_rules : bool;
  skill_approval : bool;
  request_permissions : bool;
  mcp_elicitations : bool;
}.
Inductive AskForApproval :=
| UnlessTrusted | OnRequest | Granular (config : GranularApprovalConfig) | Never.

Inductive SandboxPermissions := UseDefault | RequireEscalated | WithAdditionalPermissions.
#[global] Instance SandboxPermissions_eq_dec : EqDecision SandboxPermissions.
Proof. solve_decision. Defined.
Definition requires_escalated_permissions (s : SandboxPermissions) : bool :=
  bool_decide (s = RequireEscalated).
Definition requests_sandbox_override (s : SandboxPermissions) : bool :=
  negb (bool_decide (s = UseDefault)).

Inductive WindowsSandboxLevel := LevelDisabled | RestrictedToken | Elevated.
#[global] Instance WindowsSandboxLevel_eq_dec : EqDecision WindowsSandboxLevel.
Proof. solve_decision. Defined.

(** Of the platform's paths: [Path::parent], [Path] equality, [Path::join] and
    the [SystemRoot] variable. *)
Class ShellPaths := {
  path_parent : rstr → option rstr;
  path_eqb : rstr → rstr → bool;
  path_join : rstr → rstr → rstr;
  system_root : option rstr;
}.

(** [bash.rs] and [powershell.rs]: the plain commands of a wrapper. *)
Class CommandParsers := {
  parse_shell_lc_plain_commands : list rstr → option (list (list rstr));
  parse_powershell_command_into_plain_commands : list rstr → option (list (list rstr));
  extract_powershell_command : list rstr → option (rstr * rstr);
  parse_powershell_script_into_plain_commands : rstr → option (list (list rstr));
}.

Definition profile_has_managed_filesystem_restrictions `{FileUrls} (profile : PermissionProfile) : bool :=
  match profile with
  | Managed _ _ =>
      is_restricted (file_system_sandbox_policy profile)
      && negb (has_full_disk_write_access (file_system_sandbox_policy profile))
  | _ => false
  end.

(** ** Requirements *)

(** [ExecPolicyAmendment] *)
Record ExecPolicyAmendment := mkAmendment { amendment_command : list rstr }.

Inductive ExecApprovalRequirement :=
| Skip (bypass_sandbox : bool) (proposed : option ExecPolicyAmendment)
| NeedsApproval (reason : option rstr) (proposed : option ExecPolicyAmendment)
| ForbiddenBecause (reason : rstr).

Definition proposed_execpolicy_amendment (r : ExecApprovalRequirement)
    : option ExecPolicyAmendment :=
  match r with
  | NeedsApproval _ proposed | Skip _ proposed => proposed
  | ForbiddenBecause _ => None
  end.

Definition default_exec_approval_requirement `{FileUrls} (policy : AskForApproval)
    (fs : FileSystemSandboxPolicy) : ExecApprovalRequirement :=
  let needs_approval :=
    match policy with
    | Never => false
    | OnRequest | Granular _ => bool_decide (fs_kind fs = Restricted)
    | UnlessTrusted => true
    end in
  if needs_approval
     && match policy with Granular config => negb (sandbox_approval config) | _ => false end
  then ForbiddenBecause (str "approval policy disallowed sandbox approval prompt")
  else if needs_approval then NeedsApproval None None
  else Skip false None.

Inductive SandboxOverride := NoOverride | BypassSandboxFirstAttempt.

Definition unsandboxed_execution_allowed `{FileUrls} (fs : FileSystemSandboxPolicy) : bool :=
  negb (has_denied_read_restrictions fs).
Definition sandbox_override_for_first_attempt `{FileUrls}
    (sandbox_permissions : SandboxPermissions) (requirement : ExecApprovalRequirement)
    (fs : FileSystemSandboxPolicy) : SandboxOverride :=
  if negb (unsandboxed_execution_allowed fs) then NoOverride
  else match requirement with
       | Skip true _ => BypassSandboxFirstAttempt
       | _ => if requires_escalated_permissions sandbox_permissions
              then BypassSandboxFirstAttempt else NoOverride
       end.
Definition sandbox_permissions_preserving_denied_reads `{FileUrls}
    (sandbox_permissions : SandboxPermissions) (fs : FileSystemSandboxPolicy)
    : SandboxPermissions :=
  if requires_escalated_permissions sandbox_permissions && negb (unsandboxed_execution_allowed fs)
  then UseDefault else sandbox_permissions.

(** ** Reasons *)

Definition PROMPT_CONFLICT_REASON : rstr :=
  str "approval required by policy, but AskForApproval is set to Never".
Definition REJECT_SANDBOX_APPROVAL_REASON : rstr :=
  str "approval required by policy, but AskForApproval::Granular.sandbox_approval is false".
Definition REJECT_RULES_APPROVAL_REASON : rstr :=
  str "approval required by policy rule, but AskForApproval::Granular.rules is false".
Definition RULES_DIR_NAME : rstr := str "rules".
Definition DEFAULT_POLICY_FILE : rstr := str "default.rules".

Definition prompt_is_rejected_by_policy (approval_policy : AskForApproval) (prompt_is_rule : bool)
    : option rstr :=
  match approval_policy with
  | Never => Some PROMPT_CONFLICT_REASON
  | OnRequest => None
  | UnlessTrusted => None
  | Granular config =>
      if prompt_is_rule then
        if negb (granular_rules config) then Some REJECT_RULES_APPROVAL_REASON else None
      else if negb (sandbox_approval config) then Some REJECT_SANDBOX_APPROVAL_REASON
      else None
  end.

Definition dangerous_command_rejection_reason (m : DangerousCommandMatch) : rstr :=
  match m with
  | ForcedRm => str "rm -f style commands are not permitted. Use a safer approach"
  | OtherDanger => str "blocked by policy"
  end.
Definition derive_rejected_prompt_reason (fallback_reason : rstr)
    (m : option DangerousCommandMatch) : rstr :=
  match m with
  | Some ForcedRm => dangerous_command_rejection_reason ForcedRm
  | Some OtherDanger | None => fallback_reason
  end.

(** [Iterator::max_by_key]: the last of the largest. *)
Fixpoint max_by_len {A} (l : list (list rstr * A)) (best : option (list rstr * A))
    : option (list rstr * A) :=
  match l with
  | [] => best
  | x :: l' =>
      max_by_len l' (match best with
                     | Some b => if length b.1 <=? length x.1 then Some x else Some b
                     | None => Some x
                     end)
  end.

(** The most specific prefix rule with a decision, and its justification. *)
Definition most_specific (d : Decision) (matched_rules : list RuleMatch)
    : option (list rstr * option rstr) :=
  max_by_len (omap (λ m, match m with
                         | PrefixRuleMatch prefix d' _ justification =>
                             if decide (d' = d) then Some (prefix, justification) else None
                         | HeuristicsRuleMatch _ _ => None
                         end) matched_rules) None.

Section reasons.
Context `{PolicyTools}.

Definition render_shlex_command (args : list rstr) : rstr :=
  default (join (str " ") args) (shlex_join args).

Definition derive_prompt_reason (command_args : list rstr) (e : Evaluation) : option rstr :=
  let command := render_shlex_command command_args in
  match most_specific Prompt (eval_matched_rules e) with
  | Some (_, Some justification) =>
      Some (str "`" ++ command ++ str "` requires approval: " ++ justification)
  | Some (_, None) => Some (str "`" ++ command ++ str "` requires approval by policy")
  | None => None
  end.

Definition derive_forbidden_reason (command_args : list rstr) (e : Evaluation)
    (m : option DangerousCommandMatch) : rstr :=
  let command := render_shlex_command command_args in
  match most_specific Forbidden (eval_matched_rules e) with
  | Some (_, Some justification) => str "`" ++ command ++ str "` rejected: " ++ justification
  | Some (prefix, None) =>
      str "`" ++ command ++ str "` rejected: policy forbids commands starting with `"
      ++ render_shlex_command prefix ++ str "`"
  | None =>
      match m with
      | Some m => str "`" ++ command ++ str "` rejected: " ++ dangerous_command_rejection_reason m
      | None => str "`" ++ command ++ str "` rejected: blocked by policy"
      end
  end.
End reasons.

(** ** Amendments *)

(** [is_policy_match(m) && m.decision() == d] *)
Definition policy_match_with (d : Decision) (m : RuleMatch) : bool :=
  is_policy_match m && bool_decide (match_decision m = d).
(** The command of a heuristics match with a decision. *)
Definition heuristics_command (d : Decision) (m : RuleMatch) : option ExecPolicyAmendment :=
  match m with
  | HeuristicsRuleMatch command d' =>
      if decide (d' = d) then Some (mkAmendment command) else None
  | PrefixRuleMatch _ _ _ _ => None
  end.

Definition try_derive_execpolicy_amendment_for_prompt_rules (matched_rules : list RuleMatch)
    : option ExecPolicyAmendment :=
  if existsb (policy_match_with Prompt) matched_rules then None
  else find_map (heuristics_command Prompt) matched_rules.
Definition try_derive_execpolicy_amendment_for_allow_rules (matched_rules : list RuleMatch)
    : option ExecPolicyAmendment :=
  if existsb is_policy_match matched_rules then None
  else find_map (heuristics_command Allow) matched_rules.

Definition words (s : string) : list rstr := split_char 32%N (str s).
(** The prefixes that are never proposed. *)
Definition BANNED_PREFIX_SUGGESTIONS : list (list rstr) := words <$> [
  "/bin/bash"; "/bin/bash -c"; "/bin/bash -lc"; "/bin/sh"; "/bin/sh -c"; "/bin/sh -lc";
  "/bin/zsh"; "/bin/zsh -c"; "/bin/zsh -lc"; "Rscript"; "bash"; "bash -c"; "bash -lc";
  "bun"; "bun -e"; "bun run"; "cmd"; "cmd /c"; "cmd /k"; "cmd.exe"; "cmd.exe /c"; "cmd.exe /k";
  "dash"; "dash -c"; "deno"; "deno eval"; "env"; "fish"; "fish -c"; "git"; "julia"; "julia -e";
  "ksh"; "ksh -c"; "lua"; "lua -e"; "node"; "node -e"; "nodejs"; "nodejs -e"; "npm run";
  "osascript"; "perl"; "perl -e"; "php"; "php -r"; "pnpm run"; "powershell";
  "powershell -Command"; "powershell -EncodedCommand"; "powershell -File"; "powershell -c";
  "powershell.exe"; "powershell.exe -Command"; "powershell.exe -EncodedCommand";
  "powershell.exe -File"; "powershell.exe -c"; "pwsh"; "pwsh -Command"; "pwsh -EncodedCommand";
  "pwsh -File"; "pwsh -c"; "pwsh -e"; "pwsh -ec"; "pwsh -f"; "py"; "py -3"; "pypy"; "pypy3";
  "python"; "python -"; "python -c"; "python3"; "python3 -"; "python3 -c"; "pythonw"; "pyw";
  "rm"; "ruby"; "ruby -e"; "sh"; "sh -c"; "sh -lc"; "sudo"; "yarn run"; "zsh"; "zsh -c";
  "zsh -lc"]%string.

Section amendments.
Context `{PolicyTools}.

(** A panic of [check_with_options] cannot happen; see [matches_nonempty]. *)
Definition approves (p : Policy) (fallback : list rstr → Decision) (options : MatchOptions)
    (command : list rstr) : bool :=
  match check_with_options p command fallback options with
  | Some e => bool_decide (eval_decision e = Allow)
  | None => false
  end.
Definition prefix_rule_would_approve_all_commands (p : Policy) (prefix : list rstr)
    (commands : list (list rstr)) (fallback : list rstr → Decision) (options : MatchOptions)
    : bool :=
  match add_prefix_rule p prefix Allow with
  | Err _ => false
  | Ok p' => forallb (approves p' fallback options) commands
  end.

Definition derive_requested_execpolicy_amendment_from_prefix_rule (prefix_rule : option (list rstr))
    (matched_rules : list RuleMatch) (p : Policy) (commands : list (list rstr))
    (fallback : list rstr → Decision) (options : MatchOptions) : option ExecPolicyAmendment :=
  match prefix_rule with
  | None => None
  | Some prefix =>
      if is_empty prefix then None
      else if bool_decide (prefix ∈ BANNED_PREFIX_SUGGESTIONS) then None
      else if existsb is_policy_match matched_rules then None
      else if prefix_rule_would_approve_all_commands p prefix commands fallback options
      then Some (mkAmendment prefix) else None
  end.
End amendments.

(** ** Evaluating a request *)

Inductive ExecPolicyCommandOrigin := Generic | PowerShellOrigin.
Inductive AllowPrefixRules := Honor | IgnoreForCyberModel.
#[global] Instance AllowPrefixRules_eq_dec : EqDecision AllowPrefixRules.
Proof. solve_decision. Defined.

Record ExecPolicyCommands := mkCommands {
  commands : list (list rstr);
  command_origin : ExecPolicyCommandOrigin;
}.

Section approval.
Context `{PolicyTools, ShellTools, FileUrls, ShellPaths, CommandParsers}.

Record UnmatchedCommandContext := mkContext {
  ctx_approval_policy : AskForApproval;
  ctx_permission_profile : PermissionProfile;
  ctx_windows_sandbox_level : WindowsSandboxLevel;
  ctx_sandbox_permissions : SandboxPermissions;
  ctx_command_origin : ExecPolicyCommandOrigin;
}.

Record ExecApprovalRequest := mkRequest {
  req_command : list rstr;
  req_approval_policy : AskForApproval;
  req_permission_profile : PermissionProfile;
  req_environment_policy : option Policy;
  req_windows_sandbox_level : WindowsSandboxLevel;
  req_sandbox_permissions : SandboxPermissions;
  req_prefix_rule : option (list rstr);
  req_allow_prefix_rules : AllowPrefixRules;
}.

Definition dangerous_command_match_for_origin (command : list rstr)
    (origin : ExecPolicyCommandOrigin) (platform : DangerousCommandPlatform)
    : option DangerousCommandMatch :=
  match origin with
  | Generic => dangerous_command_match_for_platform command platform
  | PowerShellOrigin => dangerous_powershell_words_match command platform
  end.

Definition dangerous_command_match_for_heuristics (e : Evaluation) (d : Decision)
    (origin : ExecPolicyCommandOrigin) (platform : DangerousCommandPlatform)
    : option DangerousCommandMatch :=
  find_map (λ m, match m with
                 | HeuristicsRuleMatch command d' =>
                     if decide (d' = d)
                     then dangerous_command_match_for_origin command origin platform else None
                 | PrefixRuleMatch _ _ _ _ => None
                 end) (eval_matched_rules e).

(** The decision in a restricted or unrestricted environment when prompts are
    possible on request. *)
Definition on_request_decision (kind : FileSystemSandboxKind) (s : SandboxPermissions) : Decision :=
  match kind with
  | Unrestricted | ExternalSandbox => Allow
  | Restricted => if requests_sandbox_override s then Prompt else Allow
  end.

Definition render_decision_for_unmatched_command_for_platform (command : list rstr)
    (ctx : UnmatchedCommandContext) (platform : DangerousCommandPlatform) : Decision :=
  let danger := dangerous_command_match_for_origin command (ctx_command_origin ctx) platform in
  let kind := fs_kind (file_system_sandbox_policy (ctx_permission_profile ctx)) in
  let windows_managed_fs_restrictions_without_sandbox_backend :=
    target_windows && bool_decide (ctx_windows_sandbox_level ctx = LevelDisabled)
    && profile_has_managed_filesystem_restrictions (ctx_permission_profile ctx) in
  if bool_decide (is_Some danger) || windows_managed_fs_restrictions_without_sandbox_backend then
    match ctx_approval_policy ctx with
    | Never => Forbidden
    | OnRequest | UnlessTrusted | Granular _ => Prompt
    end
  else
    match ctx_approval_policy ctx with
    | Never => Allow
    | UnlessTrusted => Prompt
    | OnRequest => on_request_decision kind (ctx_sandbox_permissions ctx)
    | Granular _ => on_request_decision kind (ctx_sandbox_permissions ctx)
    end.

Definition commands_for_exec_policy_for_platform (command : list rstr)
    (platform : DangerousCommandPlatform) : ExecPolicyCommands :=
  match parse_shell_lc_plain_commands command with
  | Some (c :: cs) => mkCommands (c :: cs) Generic
  | _ =>
      match platform, parse_powershell_command_into_plain_commands command with
      | WindowsPlatform, Some (c :: cs) => mkCommands (c :: cs) PowerShellOrigin
      | _, _ => mkCommands [command] Generic
      end
  end.

(** *** [model_policy.rs] *)

Definition current_for_prefix_rules (p : Policy) (allow : AllowPrefixRules) : Policy :=
  match allow with
  | Honor => p
  | IgnoreForCyberModel =>
      mkPolicy
        (multimap_extend ∅
           (filter (λ e, rule_decision e.2 ≠ Allow) (multimap_entries (rules_by_program p))))
        (network_rules p) (host_executables_by_name p)
  end.
Definition current_for_environment (p : Policy) (environment_policy : option Policy)
    (allow : AllowPrefixRules) : Policy :=
  let policy := current_for_prefix_rules p allow in
  match environment_policy with
  | Some environment_policy => merge_overlay policy environment_policy
  | None => policy
  end.

(** *** The requirement *)

Definition request_fallback (req : ExecApprovalRequest) (origin : ExecPolicyCommandOrigin)
    (platform : DangerousCommandPlatform) (cmd : list rstr) : Decision :=
  render_decision_for_unmatched_command_for_platform cmd
    (mkContext (req_approval_policy req) (req_permission_profile req)
       (req_windows_sandbox_level req) (req_sandbox_permissions req) origin) platform.

Definition match_options : MatchOptions := mkMatchOptions true.

(** Every segment is explicitly allowed. *)
Definition bypasses_sandbox (p : Policy) (commands : list (list rstr)) : bool :=
  forallb (λ command,
    existsb (policy_match_with Allow)
      (matches_for_command_with_options p command None match_options)) commands.

(** The requirement for an evaluation; [requested] is the amendment derived from
    the request's prefix. *)
Definition requirement_for_evaluation (req : ExecApprovalRequest) (p : Policy)
    (cmds : ExecPolicyCommands) (platform : DangerousCommandPlatform) (e : Evaluation)
    (requested : option ExecPolicyAmendment) : ExecApprovalRequirement :=
  let auto_amendment_allowed := bool_decide (req_allow_prefix_rules req = Honor) in
  match eval_decision e with
  | Forbidden =>
      ForbiddenBecause (derive_forbidden_reason (req_command req) e
        (dangerous_command_match_for_heuristics e Forbidden (command_origin cmds) platform))
  | Prompt =>
      let prompt_is_rule := existsb (policy_match_with Prompt) (eval_matched_rules e) in
      match prompt_is_rejected_by_policy (req_approval_policy req) prompt_is_rule with
      | Some reason =>
          if prompt_is_rule then ForbiddenBecause reason
          else ForbiddenBecause (derive_rejected_prompt_reason reason
                 (dangerous_command_match_for_heuristics e Prompt (command_origin cmds) platform))
      | None =>
          NeedsApproval (derive_prompt_reason (req_command req) e)
            (match requested with
             | Some a => Some a
             | None => if auto_amendment_allowed
                       then try_derive_execpolicy_amendment_for_prompt_rules (eval_matched_rules e)
                       else None
             end)
      end
  | Allow =>
      Skip (bypasses_sandbox p (commands cmds))
        (if auto_amendment_allowed
         then try_derive_execpolicy_amendment_for_allow_rules (eval_matched_rules e) else None)
  end.

Definition requested_amendment (req : ExecApprovalRequest) (p : Policy)
    (cmds : ExecPolicyCommands) (platform : DangerousCommandPlatform) (e : Evaluation)
    : option ExecPolicyAmendment :=
  if bool_decide (req_allow_prefix_rules req = Honor)
  then derive_requested_execpolicy_amendment_from_prefix_rule (req_prefix_rule req)
         (eval_matched_rules e) p (commands cmds)
         (request_fallback req (command_origin cmds) platform) match_options
  else None.

(** [None] is the panic of an evaluation without commands. *)
Definition create_exec_approval_requirement_for_parsed_commands (policy : Policy)
    (req : ExecApprovalRequest) (cmds : ExecPolicyCommands) (platform : DangerousCommandPlatform)
    : option ExecApprovalRequirement :=
  let p := current_for_environment policy (req_environment_policy req)
             (req_allow_prefix_rules req) in
  e ← check_multiple_with_options p (commands cmds)
        (request_fallback req (command_origin cmds) platform) match_options;
  Some (requirement_for_evaluation req p cmds platform e
          (requested_amendment req p cmds platform e)).

Definition create_exec_approval_requirement_for_command_platform (policy : Policy)
    (req : ExecApprovalRequest) (platform : DangerousCommandPlatform)
    : option ExecApprovalRequirement :=
  create_exec_approval_requirement_for_parsed_commands policy req
    (commands_for_exec_policy_for_platform (req_command req) platform) platform.

(** *** [executable_identity.rs] *)

Inductive UnifiedExecShellMode := Direct | ZshFork.

Definition is_system_shell (executable : rstr) : bool :=
  match path_parent executable with
  | None => false
  | Some parent =>
      if target_windows then
        match system_root with
        | None => false
        | Some root =>
            let system_directory := path_join root (str "System32") in
            let powershell_directory :=
              path_join (path_join system_directory (str "WindowsPowerShell")) (str "v1.0") in
            eq_ignore_ascii_case parent system_directory
            || eq_ignore_ascii_case parent powershell_directory
        end
      else path_eqb parent (str "/bin") || path_eqb parent (str "/usr/bin")
  end.
Definition is_configured_shell (executable shell_path : rstr) : bool :=
  if target_windows then eq_ignore_ascii_case executable shell_path
  else path_eqb executable shell_path.

Definition shell_approval_command (command : list rstr) (shell_path : rstr)
    (mode : UnifiedExecShellMode) : list rstr :=
  match command with
  | [] => command
  | executable :: _ =>
      if is_configured_shell executable shell_path || is_system_shell executable
         || match mode with ZshFork => true | Direct => false end
      then command
      else [executable]
  end.

(** [request.command = executable] *)
Definition with_command (req : ExecApprovalRequest) (command : list rstr) : ExecApprovalRequest :=
  mkRequest command (req_approval_policy req) (req_permission_profile req)
    (req_environment_policy req) (req_windows_sandbox_level req) (req_sandbox_permissions req)
    (req_prefix_rule req) (req_allow_prefix_rules req).

(** The commands checked beside an unfamiliar executable. *)
Definition apparent_commands (command : list rstr) (platform : DangerousCommandPlatform)
    : ExecPolicyCommands :=
  match platform with
  | WindowsPlatform =>
      match extract_powershell_command command with
      | Some (_, script) =>
          mkCommands (default [command] (parse_powershell_script_into_plain_commands script))
            PowerShellOrigin
      | None => commands_for_exec_policy_for_platform command platform
      end
  | PosixPlatform => commands_for_exec_policy_for_platform command platform
  end.

Definition create_exec_approval_requirement_for_shell (policy : Policy)
    (req : ExecApprovalRequest) (shell_path : rstr) (mode : UnifiedExecShellMode)
    (platform : DangerousCommandPlatform) : option ExecApprovalRequirement :=
  let command := req_command req in
  let executable := shell_approval_command command shell_path mode in
  if length executable =? length command
  then create_exec_approval_requirement_for_command_platform policy req platform
  else
    let policy_commands := apparent_commands command platform in
    create_exec_approval_requirement_for_parsed_commands policy (with_command req executable)
      (mkCommands (executable :: commands policy_commands) (command_origin policy_commands))
      platform.

(** ** Updating the policy *)

Inductive ExecPolicyUpdateError :=
| AppendRule (path : rstr) (source : AmendError)
| JoinBlockingTask (source : rstr)
| AddRule (source : Error).

(** The manager's policy, and the user's policy file. *)
Record ExecPolicyManager := mkManager { policy : Policy; policy_file : option rstr }.
(** A failed join leaves the file in some state. *)
Record UpdateIo := mkUpdateIo {
  update_lock_closed : bool;
  join_failure : option (rstr * option rstr);
  file_io : PolicyIo;
}.

Definition default_policy_path (codex_home : rstr) : rstr :=
  path_join (path_join codex_home RULES_DIR_NAME) DEFAULT_POLICY_FILE.

Definition semaphore_closed : ExecPolicyUpdateError :=
  AddRule (InvalidRule (str "exec policy update semaphore closed")).

(** [spawn_blocking(..).await] of a file update *)
Definition run_update (io : UpdateIo) (path : rstr) (file : option rstr)
    (task : option rstr → option rstr * result AmendError ())
    : option rstr * result ExecPolicyUpdateError () :=
  if update_lock_closed io then (file, Err semaphore_closed)
  else match join_failure io with
       | Some (source, file') => (file', Err (JoinBlockingTask source))
       | None => let '(file', r) := task file in (file', map_err (AppendRule path) r)
       end.

(** [already_allowed]; a panic cannot happen on one command. *)
Definition already_allowed (p : Policy) (command : list rstr) : bool :=
  match check_multiple_with_options p [command] (λ _, Forbidden) match_options with
  | Some e => bool_decide (eval_decision e = Allow)
              && existsb (policy_match_with Allow) (eval_matched_rules e)
  | None => false
  end.

Definition append_amendment_and_update `{JsonText} (io : UpdateIo) (m : ExecPolicyManager)
    (codex_home : rstr) (amendment : ExecPolicyAmendment)
    : ExecPolicyManager * result ExecPolicyUpdateError () :=
  let policy_path := default_policy_path codex_home in
  let '(file', r) := run_update io policy_path (policy_file m)
    (blocking_append_allow_prefix_rule (file_io io) policy_path (amendment_command amendment)) in
  match r with
  | Err e => (mkManager (policy m) file', Err e)
  | Ok _ =>
      if already_allowed (policy m) (amendment_command amendment)
      then (mkManager (policy m) file', Ok ())
      else match add_prefix_rule (policy m) (amendment_command amendment) Allow with
           | Err e => (mkManager (policy m) file', Err (AddRule e))
           | Ok p' => (mkManager p' file', Ok ())
           end
  end.

Definition append_network_rule_and_update `{JsonText} (io : UpdateIo) (m : ExecPolicyManager)
    (codex_home host : rstr) (protocol : NetworkRuleProtocol) (d : Decision)
    (justification : option rstr) : ExecPolicyManager * result ExecPolicyUpdateError () :=
  let policy_path := default_policy_path codex_home in
  let '(file', r) := run_update io policy_path (policy_file m)
    (blocking_append_network_rule (file_io io) policy_path host protocol d justification) in
  match r with
  | Err e => (mkManager (policy m) file', Err e)
  | Ok _ =>
      match policy_add_network_rule (policy m) host protocol d justification with
      | Err e => (mkManager (policy m) file', Err (AddRule e))
      | Ok p' => (mkManager p' file', Ok ())
      end
  end.
End approval.
