(* ===== verification/PatchSafety.v ===== *)
(** Whether a patch may be applied without asking: [core/src/safety.rs], on the
    actions of [Invocation.v] and the policies of [FsPolicy.v].  A patch that is
    applied without asking operates on writable paths only, whether it succeeds or
    stops half-way. *)

From stdpp Require Import gmap.
From S2P Require Import Prelude PathUris FsPolicy PatchParser FileUpdate ApplyPatch ApplyPatchProps ApplyPatchSpec Invocation ExecApproval.
#[local] Opaque str.

Definition PATCH_REJECTED_OUTSIDE_PROJECT_REASON : rstr :=
  str "writing outside of the project; rejected by user approval settings".
Definition PATCH_REJECTED_READ_ONLY_REASON : rstr :=
  str "writing is blocked by read-only sandbox; rejected by user approval settings".

Inductive SafetyCheck := AutoApprove | AskUser | Reject (reason : rstr).
Inductive PatchSandboxRoute := ExecutorManaged | Platform (level : WindowsSandboxLevel).

(** [get_platform_sandbox] of [sandboxing/src/manager.rs] *)
Inductive TargetOs := MacOs | Linux | WindowsOs | OtherOs.
Inductive SandboxType := SandboxNone | MacosSeatbelt | LinuxSeccomp | WindowsRestrictedToken.
Definition get_platform_sandbox (os : TargetOs) (windows_sandbox_enabled : bool) : option SandboxType :=
  match os with
  | MacOs => Some MacosSeatbelt
  | Linux => Some LinuxSeccomp
  | WindowsOs => if windows_sandbox_enabled then Some WindowsRestrictedToken else None
  | OtherOs => None
  end.

Section safety.
Context `{FileUrls} `{PathUri Url}.
Implicit Types (p : FileSystemSandboxPolicy) (context : FileSystemSandboxPolicyContext) (action : @ApplyPatchAction Url _).

Definition change_is_writable p context (path : Url) (change : ApplyPatchFileChange Url) : bool :=
  match change with
  | ChAdd _ | ChDelete _ => can_write_path p path context
  | ChUpdate _ move_path _ =>
      can_write_path p path context
      && match move_path with Some dest => can_write_path p dest context | None => true end
  end.
Definition is_write_patch_constrained_to_writable_paths action p context : bool :=
  has_full_disk_write_access_with_context p context
  || forallb (λ c : Url * ApplyPatchFileChange Url, change_is_writable p context c.1 c.2)
       (map_to_list (action_changes action)).
Definition patch_rejection_reason (profile : PermissionProfile) p context : rstr :=
  match profile with
  | Managed _ _ =>
      if negb (has_full_disk_write_access_with_context p context) && negb (has_configured_writable_roots p context)
      then PATCH_REJECTED_READ_ONLY_REASON else PATCH_REJECTED_OUTSIDE_PROJECT_REASON
  | ProfileDisabled | ProfileExternal _ => PATCH_REJECTED_OUTSIDE_PROJECT_REASON
  end.
Definition sandbox_available (os : TargetOs) (route : PatchSandboxRoute) : bool :=
  match route with
  | ExecutorManaged => true
  | Platform level =>
      match get_platform_sandbox os (negb (bool_decide (level = LevelDisabled))) with Some _ => true | None => false end
  end.
Definition has_no_outer_sandbox (profile : PermissionProfile) : bool :=
  match profile with ProfileDisabled | ProfileExternal _ => true | Managed _ _ => false end.
Definition rejects_sandbox_approval (policy : AskForApproval) : bool :=
  match policy with Never => true | Granular config => negb (sandbox_approval config) | _ => false end.
Definition assess_patch_safety (os : TargetOs) action (policy : AskForApproval) (profile : PermissionProfile)
    p context (route : PatchSandboxRoute) : SafetyCheck :=
  if bool_decide (action_changes action = ∅) then Reject (str "empty patch")
  else match policy with
       | UnlessTrusted => AskUser
       | _ =>
           if is_write_patch_constrained_to_writable_paths action p context
              && (has_no_outer_sandbox profile || sandbox_available os route)
           then AutoApprove
           else if rejects_sandbox_approval policy then Reject (patch_rejection_reason profile p context)
           else AskUser
       end.
End safety.

(** ** What an approved patch can change *)

(** *** The operations of a run

    Nothing is assumed of the file system here: paths may be links to other files. *)
Section operations.
Context {Uri Fs : Type} `{PathUri Uri} `{ExecutorFileSystem Uri Fs}.
Implicit Types (path cwd : Uri) (fs : Fs).

(** One call that changes the file system: a write or a removal at a permitted path, or
    the creation of the parent directory of one *)
Inductive operates (permitted : Uri → Prop) : Fs → Fs → Prop :=
| operates_write fs path contents follow :
    permitted path → operates permitted fs (write_file fs path contents follow).1
| operates_remove fs path options :
    permitted path → operates permitted fs (remove fs path options).1
| operates_create fs path parent options :
    permitted path → uri_parent path = Some parent → operates permitted fs (create_directory fs parent options).1.

Context (permitted : Uri → Prop).
(** The step changes the file system by permitted operations only. *)
Definition stays_within {A} (m : M (Uri := Uri) (Fs := Fs) A) : Prop :=
  ∀ s s' r, m s = (s', r) → rtc (operates permitted) (st_fs s) (st_fs s').

Lemma within_bind {A B} (m : M A) (k : A → M B) :
  stays_within m → (∀ a, stays_within (k a)) → stays_within (m ≫= k).
Proof.
  intros Hm Hk s s' r. unfold mbind, M_bind. destruct (m s) as [s1 [a|e]] eqn:E; intros H'; [|by simplify_eq; eapply Hm].
  etrans; [by eapply Hm|by eapply Hk].
Qed.
Lemma within_same {A} (m : M A) : (∀ s, st_fs (m s).1 = st_fs s) → stays_within m.
Proof. intros Hm s s' r E. specialize (Hm s). rewrite E in Hm. simpl in Hm. by rewrite Hm. Qed.
Lemma within_run {A} (f : Fs → Fs * A) :
  (∀ fs, rtc (operates permitted) fs (f fs).1) → stays_within (run_fs f).
Proof. intros Hf s s' r. unfold run_fs. specialize (Hf (st_fs s)). destruct (f (st_fs s)). intros. by simplify_eq. Qed.
Lemma within_try_write (f : Fs → Fs * result anyhow_error unit) :
  (∀ fs, rtc (operates permitted) fs (f fs).1) → stays_within (try_write f).
Proof.
  intros Hf. apply within_bind; [by apply within_run|]. intros [[]|e]; by apply within_same.
Qed.
Lemma retry_operates fs path contents follow :
  permitted path → rtc (operates permitted) fs (write_file_with_missing_parent_retry fs path contents follow).1.
Proof.
  intros Hp. unfold write_file_with_missing_parent_retry.
  pose proof (operates_write permitted fs path contents follow Hp) as Hone.
  destruct (write_file fs path contents follow) as [fs1 [[]|err]]; [by apply rtc_once|].
  case_bool_decide; [|by apply rtc_once]. eapply rtc_l; [exact Hone|].
  assert (∀ fs2, rtc (operates permitted) fs2
    (let '(fs3, r) := write_file fs2 path contents follow in (fs3, with_context (msg_write path) r)).1) as Hwrite.
  { intros fs2. pose proof (operates_write permitted fs2 path contents follow Hp) as Htwo.
    destruct (write_file fs2 path contents follow). by apply rtc_once. }
  destruct (uri_parent path) as [parent|] eqn:Ep; [|apply Hwrite].
  pose proof (operates_create permitted fs1 path parent (mkCreate true follow) Hp Ep) as Hdir. simpl in Hdir.
  destruct (create_directory fs1 parent _) as [fs2 r]. simpl in *. eapply rtc_l; [exact Hdir|].
  destruct (with_context _ r); [apply Hwrite|done].
Qed.
Lemma within_remove_file context path expected follow :
  permitted path → stays_within (remove_file context path expected follow).
Proof.
  intros Hp. apply within_bind; [by apply within_same|]. intros fs.
  apply within_bind; [by apply within_same|]. intros _.
  apply within_bind; [apply within_run; intros fs'; by apply rtc_once, operates_remove|]. intros r.
  destruct (with_context context r); [by apply within_same|].
  repeat (apply within_bind; [by apply within_same|]; intros ?). by apply within_same.
Qed.
Lemma within_read_optional path follow : stays_within (read_optional path follow).
Proof.
  repeat (apply within_bind; [by apply within_same|]; intros ?).
  destruct (read_optional_file_text_for_delta _ _ _ _). apply within_bind; [by apply within_same|]. intros. by apply within_same.
Qed.
Lemma within_note_existing path follow : stays_within (note_existing path follow).
Proof. repeat (apply within_bind; [by apply within_same|]; intros ?). by apply within_same. Qed.
Lemma within_move cwd path dest original new follow :
  permitted path → (∀ d, uri_join cwd dest = Ok d → permitted d) →
  stays_within (move_updated_file cwd path dest original new follow).
Proof.
  intros Hp Hd s s' r E. unfold move_updated_file, mbind, M_bind at 1, lift in E.
  destruct (uri_join cwd dest) as [d|e] eqn:Ej; simpl in E; [|by simplify_eq]. specialize (Hd d eq_refl).
  revert s s' r E. change (stays_within (
    overwritten ← read_optional d follow;
    _ ← try_write (λ fs, write_file_with_missing_parent_retry fs d new follow);
    i ← changes_len;
    _ ← push_change (mkChange d (ApAdd new overwritten));
    _ ← remove_file (str "Failed to remove original " ++ inferred_native_path_string path) path (Some original) follow;
    _ ← set_change i (mkChange path (ApUpdate (Some d) original overwritten new));
    mret KModified)).
  apply within_bind; [apply within_read_optional|]. intros ow.
  apply within_bind; [apply within_try_write; intros; by apply retry_operates|]. intros _.
  apply within_bind; [by apply within_same|]. intros i. apply within_bind; [by apply within_same|]. intros _.
  apply within_bind; [by apply within_remove_file|]. intros _.
  apply within_bind; [by apply within_same|]. intros _. by apply within_same.
Qed.
Lemma within_rewrite path original new follow :
  permitted path → stays_within (rewrite_updated_file path original new follow).
Proof.
  intros Hp. apply within_bind; [|intros _; apply within_bind; [by apply within_same|intros; by apply within_same]].
  apply within_try_write. intros fs. pose proof (operates_write permitted fs path new follow Hp) as Hw.
  destruct (write_file fs path new follow). by apply rtc_once.
Qed.
Lemma within_hunk cwd options hunk :
  (∀ q, q ∈ hunk_targets cwd hunk → permitted q) → stays_within (apply_hunk cwd options hunk).
Proof.
  intros Ht s s' r E. unfold apply_hunk, mbind, M_bind at 1, lift in E. unfold hunk_targets in Ht.
  destruct (resolve_path hunk cwd) as [path|e] eqn:Er; simpl in E; [|by simplify_eq].
  assert (permitted path) as Hp by (apply Ht; destruct hunk; repeat case_match; by left).
  revert s s' r E. change (stays_within (match hunk with
    | AddFile _ contents => apply_add_file path contents (follow_symlinks options)
    | DeleteFile _ => apply_delete_file path (follow_symlinks options)
    | UpdateFile _ move_path chunks => apply_update_file cwd path move_path chunks options
    end)).
  destruct hunk as [pt contents|pt|pt mv chunks].
  - apply within_bind; [apply within_read_optional|]. intros ow.
    apply within_bind; [apply within_try_write; intros; by apply retry_operates|]. intros _.
    apply within_bind; [by apply within_same|]. intros _. by apply within_same.
  - apply within_bind; [apply within_note_existing|]. intros _.
    repeat (apply within_bind; [by apply within_same|]; intros ?).
    apply within_bind; [by apply within_remove_file|]. intros _.
    apply within_bind; [case_match; by apply within_same|]. intros _. by apply within_same.
  - apply within_bind; [apply within_note_existing|]. intros _. apply within_bind; [by apply within_same|]. intros fs.
    apply within_bind; [by apply within_same|]. intros [[original new]|]; [|by apply within_same].
    destruct mv as [dest|]; [|by apply within_rewrite]. apply within_move; [done|]. intros d Hd. apply Ht.
    simpl. rewrite Hd. set_solver.
Qed.
Lemma within_hunks cwd options a hunks :
  (∀ q, q ∈ patch_targets cwd hunks → permitted q) → stays_within (apply_hunks_loop cwd options a hunks).
Proof.
  revert a. induction hunks as [|hunk hunks IH]; intros a Ht; [by apply within_same|].
  apply within_bind; [apply within_hunk; intros; apply Ht; simpl; apply elem_of_app; by left|].
  intros k. apply IH. intros. apply Ht. simpl. apply elem_of_app. by right.
Qed.
Lemma within_run_all cwd options hunks :
  (∀ q, q ∈ patch_targets cwd hunks → permitted q) → stays_within (apply_hunks_to_files hunks options cwd).
Proof. intros. unfold apply_hunks_to_files. case_match; [by apply within_same|by apply within_hunks]. Qed.
End operations.

(** ** The changes of an action are all a run can make *)

Section targets.
Context {Uri Fs : Type} `{FileSystemLaws Uri Fs} `{InvocationTools Uri}.
Implicit Types (cwd p q : Uri) (fs : Fs) (ch : ApplyPatchFileChange Uri).

Lemma verify_hunk_targets fs cwd p mode h ch :
  resolve_path h cwd = Ok p → verify_hunk fs cwd p mode h = Ok ch → change_targets p ch = hunk_targets cwd h.
Proof.
  intros Hp Hv. unfold hunk_targets. rewrite Hp. destruct h as [pt t|pt|pt mv chunks]; simpl in *.
  - by simplify_eq/=.
  - by destruct (read_file_text fs p true); simplify_eq/=.
  - apply result_bind_Ok in Hv as (u & _ & Hv). destruct mv as [dest|]; simpl in *; [|by simplify_eq/=].
    by destruct (uri_join cwd dest) as [d|]; simplify_eq/=.
Qed.
Lemma verify_hunks_targets fs cwd mode hs changes changes' :
  verify_hunks fs cwd mode changes hs = Ok changes' →
  changes ⊆ changes' ∧
  ∀ q, q ∈ patch_targets cwd hs → ∃ p ch, changes' !! p = Some ch ∧ q ∈ change_targets p ch.
Proof.
  revert changes. induction hs as [|h hs IH]; intros changes Hv; simpl in *.
  { injection Hv as ->. split; [done|]. intros q Hq. by apply not_elem_of_nil in Hq. }
  apply result_bind_Ok in Hv as (p & Hp & Hv). destruct (resolve_path h cwd) as [p'|] eqn:Er; simplify_eq/=.
  destruct (changes !! p) eqn:Ec; [done|]. apply result_bind_Ok in Hv as (ch & Hc & Hv).
  destruct (IH _ Hv) as [Hsub Hall]. split; [etrans; [by apply insert_subseteq|done]|].
  intros q Hq. apply elem_of_app in Hq. destruct Hq as [Hq|Hq]; [|by apply Hall].
  exists p, ch. rewrite (verify_hunk_targets fs cwd p mode h ch) by done. split; [|done].
  eapply lookup_weaken; [|done]. apply lookup_insert_eq.
Qed.

Lemma patch_effect_off cwd mode hs m m' :
  patch_effect cwd mode hs m = Some m' → agree_off (patch_targets cwd hs) m m'.
Proof.
  revert m. induction hs as [|h hs IH]; intros m He; simpl in He; [by injection He as ->|].
  apply bind_Some in He as (m1 & Hh & He). eapply (agree_off_trans (hunk_targets cwd h ++ patch_targets cwd hs)); [eapply agree_off_mono; [|by eapply hunk_effect_off]; intros q; rewrite elem_of_app; auto|].
  eapply agree_off_mono; [|by apply IH]; intros q; rewrite elem_of_app; auto.
Qed.
Lemma run_touches_targets hs options cwd (s s' : @apply_state Uri Fs) r :
  apply_hunks_to_files hs options cwd s = (s', r) →
  agree_off (patch_targets cwd hs) (view (st_fs s)) (view (st_fs s')).
Proof.
  unfold apply_hunks_to_files. destruct (is_empty hs); [by intros [= <- _]|].
  intros [[_ He]|(_ & hs1 & h & hs2 & m1 & -> & He & Hoff)]%apply_hunks_loop_effect; [by eapply patch_effect_off|].
  assert (patch_targets cwd (hs1 ++ h :: hs2) = patch_targets cwd hs1 ++ hunk_targets cwd h ++ patch_targets cwd hs2)
    as -> by (unfold patch_targets; by rewrite bind_app).
  eapply agree_off_trans; [eapply agree_off_mono; [|by eapply patch_effect_off]; intros q; rewrite elem_of_app; auto|].
  eapply agree_off_mono; [|done]; intros q; rewrite !elem_of_app; auto.
Qed.
End targets.

Section safety.
Context {Fs : Type} `{FileUrls} `{PathUri Url} `{ExecutorFileSystem Url Fs} `{InvocationTools Url}.
Implicit Types (p : FileSystemSandboxPolicy) (context : FileSystemSandboxPolicyContext).

(** The policy lets the path be written; with full disk access every path may be. *)
Definition write_permitted p context (path : Url) : Prop :=
  has_full_disk_write_access_with_context p context = true ∨ can_write_path p path context = true.

Lemma constrained_targets (action : @ApplyPatchAction Url _) p context (q path : Url) ch :
  is_write_patch_constrained_to_writable_paths action p context = true →
  action_changes action !! path = Some ch → q ∈ change_targets path ch → write_permitted p context q.
Proof.
  unfold is_write_patch_constrained_to_writable_paths, write_permitted. intros [Hf|Hc]%orb_true_iff Hp Hq; [by left|right].
  rewrite forallb_forall in Hc. specialize (Hc (path, ch)). ospecialize (Hc _).
  { apply list_elem_of_In. by apply elem_of_map_to_list. }
  unfold change_targets in Hq. destruct ch as [|?|diff [dest|] new]; simpl in Hc; rewrite ?andb_true_iff in Hc;
    rewrite !elem_of_cons, elem_of_nil in Hq.
  - by destruct Hq as [->|[]].
  - by destruct Hq as [->|[]].
  - destruct Hc as [Hc1 Hc2]. by destruct Hq as [->|[->|[]]].
  - destruct Hc as [Hc _]. by destruct Hq as [->|[]].
Qed.
Lemma auto_approved_targets (args : ApplyPatchArgs) (cwd : Url) mode (fs : Fs) (action : ApplyPatchAction)
    (os : TargetOs) (policy : AskForApproval) (profile : PermissionProfile) p context (route : PatchSandboxRoute) (q : Url) :
  try_verify_apply_patch_args args cwd mode fs = Ok action →
  assess_patch_safety os action policy profile p context route = AutoApprove →
  q ∈ patch_targets (action_cwd action) (args_hunks args) → write_permitted p context q.
Proof.
  intros Hv Ha Hq. unfold try_verify_apply_patch_args in Hv. apply result_bind_Ok in Hv as (effective & _ & Hv).
  apply result_bind_Ok in Hv as (changes & Hh & Hv). injection Hv as <-. simpl in *.
  apply verify_hunks_targets in Hh as [_ Hall]. destruct (Hall q Hq) as (path & ch & Hp & Hin).
  eapply (constrained_targets (mkAction changes mode (args_patch args) effective)); [|done..].
  unfold assess_patch_safety in Ha. destruct (bool_decide _); [done|].
  destruct policy; try done; by destruct (is_write_patch_constrained_to_writable_paths _ p context), (rejects_sandbox_approval _).
Qed.

(** C9: Every call by which a patch that was approved without asking changes the
    file system, whether applying it succeeds or fails, writes or removes a path that
    the policy lets be written, or creates the parent directory of one.  Nothing is
    assumed of the file system, which may have changed since: what a path is a link
    to is left to the sandbox. *)
Theorem auto_approved_patch_stays_writable (args : ApplyPatchArgs) (cwd : Url) (options : ApplyPatchOptions) (fs now : Fs)
    (action : ApplyPatchAction) (os : TargetOs) (policy : AskForApproval) (profile : PermissionProfile)
    p context (route : PatchSandboxRoute) (s : @apply_state Url Fs) r :
  try_verify_apply_patch_args args cwd (update_file_mode options) fs = Ok action →
  assess_patch_safety os action policy profile p context route = AutoApprove →
  apply_hunks_to_files (args_hunks args) options (action_cwd action) (mkApply now empty_delta) = (s, r) →
  rtc (operates (write_permitted p context)) now (st_fs s).
Proof.
  intros Hv Ha Hr. eapply (within_run_all (write_permitted p context)) in Hr; [exact Hr|].
  intros q. by eapply auto_approved_targets.
Qed.
End safety.

(** Where different paths are different files, the files that the policy does not let
    be written stay as they are. *)
Section unlinked.
Context {Fs : Type} `{FileUrls} `{FileSystemLaws Url Fs} `{InvocationTools Url}.
Implicit Types (p : FileSystemSandboxPolicy) (context : FileSystemSandboxPolicyContext).

Theorem auto_approved_patch_keeps_other_files (args : ApplyPatchArgs) (cwd : Url) (options : ApplyPatchOptions) (fs : Fs)
    (action : ApplyPatchAction) (os : TargetOs) (policy : AskForApproval) (profile : PermissionProfile)
    p context (route : PatchSandboxRoute) (s : @apply_state Url Fs) r (q : Url) :
  try_verify_apply_patch_args args cwd (update_file_mode options) fs = Ok action →
  assess_patch_safety os action policy profile p context route = AutoApprove →
  apply_hunks_to_files (args_hunks args) options (action_cwd action) (mkApply fs empty_delta) = (s, r) →
  ¬ write_permitted p context q → view (st_fs s) !! q = view fs !! q.
Proof.
  intros Hv Ha Hr Hw. apply run_touches_targets in Hr. simpl in Hr. apply Hr. intros Hq.
  by eapply Hw, auto_approved_targets.
Qed.
End unlinked.

(** ** On the in-memory file system *)

(** The paths of the in-memory file system as URLs, without escapes *)
Definition mem_urls : FileUrls := {|
  Url := mem_path;
  url_eq_dec := mem_path_eq_dec;
  url_parse s := mem_segments <$> strip_prefix (str "file://") s;
  url_as_str p := str "file:///" ++ join [47%N] p;
  url_scheme _ := str "file";
  url_username _ := [];
  url_password _ := None;
  url_port _ := None;
  url_query _ := None;
  url_fragment _ := None;
  host_str _ := None;
  url_path p := 47%N :: join [47%N] p;
  set_host _ _ := None;
  clear_host p := p;
  set_path s _ := mem_segments s;
  pop_if_empty p := p;
  pop_segment p := drop_last p;
  push_segment s p := p ++ [s];
  clear_segments _ := [];
  from_file_path s := Some (mem_segments s);
  to_file_path p := Some (47%N :: join [47%N] p);
  fallback_url s := mem_segments s;
  decode_binary s := s;
  utf8_lossy s := s;
  utf16_lossy s := s;
  base64_encode s := s;
  base64_decode _ := None;
|}.
#[local] Existing Instance mem_urls.

(** The directory [d] is writable, the rest is read-only. *)
Definition mem_policy : FileSystemSandboxPolicy :=
  fs_restricted [new_entry (SpecialPath SpecialRoot) AccessRead; new_entry (FsPath ([str "d"] : mem_path)) AccessWrite].
Definition mem_context : FileSystemSandboxPolicyContext := mkFsContext ([] : mem_path) [] None None.
Definition d_patch : rstr :=
  nl ["*** Begin Patch"; "*** Add File: d/new"; "+x"; "*** End Patch"]%string.
Definition d_args : ApplyPatchArgs :=
  match parse_patch d_patch with Ok a => a | Err _ => mkArgs [] [] None None end.
Definition d_action : @ApplyPatchAction mem_path _ :=
  match try_verify_apply_patch_args d_args ([] : mem_path) NormalizeToLf mem_start with
  | Ok a => a | Err _ => mkAction ∅ NormalizeToLf [] [] end.
Definition d_run := apply_hunks_to_files (args_hunks d_args) default_options (action_cwd d_action) (mkApply mem_start empty_delta).

Lemma auto_approved_patch_stays_writable_witness :
  assess_patch_safety Linux d_action Never (Managed ManagedUnrestricted NetRestricted) mem_policy mem_context
    (Platform LevelDisabled) = AutoApprove
  ∧ has_full_disk_write_access_with_context mem_policy mem_context = false
  ∧ can_write_path mem_policy ([str "f"] : mem_path) mem_context = false
  ∧ view (st_fs d_run.1) !! ([str "d"; str "new"] : mem_path) ≠ view mem_start !! ([str "d"; str "new"] : mem_path)
  ∧ rtc (operates (write_permitted mem_policy mem_context)) mem_start (st_fs d_run.1).
Proof.
  assert (try_verify_apply_patch_args d_args ([] : mem_path) NormalizeToLf mem_start = Ok d_action) as Hv
    by (vm_compute; reflexivity).
  assert (assess_patch_safety Linux d_action Never (Managed ManagedUnrestricted NetRestricted) mem_policy mem_context
            (Platform LevelDisabled) = AutoApprove) as Ha by (vm_compute; reflexivity).
  assert (d_run = (d_run.1, d_run.2)) as Hr by (destruct d_run; reflexivity).
  split; [exact Ha|]. split; [vm_compute; reflexivity|]. split; [vm_compute; reflexivity|].
  split; [vm_compute; discriminate|].
  exact (auto_approved_patch_stays_writable d_args ([] : mem_path) default_options mem_start mem_start d_action Linux
    Never (Managed ManagedUnrestricted NetRestricted) mem_policy mem_context (Platform LevelDisabled) d_run.1 d_run.2
    Hv Ha Hr).
Defined.
