(* ===== verification/ExecApprovalProps.v ===== *)
(** Properties of the approval decision: what can run without asking, what can
    never run, and which prompts are shown. *)

From S2P Require Import Prelude PathUris FsPolicy ExecPolicy ExecPolicyProps PolicyFile PolicyFileProps PolicyAmend DangerousCommand ExecApproval.

#[local] Opaque str.

(** ** Decisions *)

Lemma strictest_allow ds : strictest ds = Allow ↔ ∀ d, d ∈ ds → d = Allow.
Proof.
  split.
  - intros Hs d Hd. apply strictest_upper in Hd. rewrite Hs in Hd. destruct d; simpl in *; [done|lia..].
  - induction ds as [|d ds IH]; [done|]. intros Hall. simpl.
    rewrite (Hall d) by (by left). rewrite decision_max_allow. apply IH. intros d' Hd'.
    apply Hall. by right.
Qed.

Lemma strictest_forbidden ds : Forbidden ∈ ds → strictest ds = Forbidden.
Proof. intros Hd%strictest_upper. simpl in Hd. destruct (strictest ds); simpl in *; [lia..|done]. Qed.

(** ** The rules that count for a request *)

Lemma filter_entries_rules (m : rule_map) prog r :
  r ∈ default [] (multimap_extend ∅
        (filter (λ e : rstr * PrefixRule, rule_decision e.2 ≠ Allow) (multimap_entries m)) !! prog)
  ↔ r ∈ default [] (m !! prog) ∧ rule_decision r ≠ Allow.
Proof.
  rewrite multimap_extend_lookup, lookup_empty. simpl.
  rewrite <- (multimap_entries_filter m prog), !list_elem_of_fmap.
  setoid_rewrite list_elem_of_filter. setoid_rewrite list_elem_of_filter.
  split; [intros ([k r'] & -> & Hk & Hd & Hin)|intros [([k r'] & -> & Hk & Hin) Hd]];
    simpl in *; [split; [|done]|]; exists (k, r'); auto.
Qed.

(** A rule counts for a request when it is in the environment's policy, or in
    the user's and not an allowing rule that the model is not to be given. *)
Lemma rules_for_environment p env allow prog r :
  r ∈ rules_of (current_for_environment p env allow) prog ↔
  (r ∈ rules_of p prog ∧ (allow = Honor ∨ rule_decision r ≠ Allow)) ∨
  ∃ o, env = Some o ∧ r ∈ rules_of o prog.
Proof.
  assert (r ∈ rules_of (current_for_prefix_rules p allow) prog ↔
          r ∈ rules_of p prog ∧ (allow = Honor ∨ rule_decision r ≠ Allow)) as Hp.
  { destruct allow; simpl; [naive_solver|]. rewrite filter_entries_rules. naive_solver. }
  unfold current_for_environment. destruct env as [o|].
  - rewrite merge_overlay_rules, elem_of_app, Hp. naive_solver.
  - rewrite Hp. naive_solver.
Qed.

Section approval_props.
Context `{PolicyTools, ShellTools, FileUrls, ShellPaths, CommandParsers}.

(** The policy, the heuristics and the evaluation of a request. *)
Abbreviation request_policy pol req :=
  (current_for_environment pol (req_environment_policy req) (req_allow_prefix_rules req)).
Abbreviation request_matches pol req cmds platform :=
  (segment_matches (request_policy pol req) (request_fallback req (command_origin cmds) platform)
     match_options (commands cmds)).

Lemma create_eq pol req cmds platform :
  commands cmds ≠ [] →
  let p := request_policy pol req in
  let e := mkEvaluation (strictest (match_decision <$> request_matches pol req cmds platform))
             (request_matches pol req cmds platform) in
  check_multiple_with_options p (commands cmds)
    (request_fallback req (command_origin cmds) platform) match_options = Some e ∧
  create_exec_approval_requirement_for_parsed_commands pol req cmds platform =
  Some (requirement_for_evaluation req p cmds platform e (requested_amendment req p cmds platform e)).
Proof.
  intros Hne. unfold create_exec_approval_requirement_for_parsed_commands.
  rewrite check_multiple_eq by done. done.
Qed.

Lemma elem_of_request_matches pol req cmds platform m :
  m ∈ request_matches pol req cmds platform ↔
  ∃ cmd, cmd ∈ commands cmds ∧
    m ∈ matches_for_command_with_options (request_policy pol req) cmd
          (Some (request_fallback req (command_origin cmds) platform)) match_options.
Proof. unfold segment_matches. rewrite list_elem_of_bind. naive_solver. Qed.

Lemma matches_with_fallback p cmd fallback options m :
  m ∈ matches_for_command_with_options p cmd (Some fallback) options ↔
  m ∈ matched_rules_of p options cmd ∨
  matched_rules_of p options cmd = [] ∧ m = HeuristicsRuleMatch cmd (fallback cmd).
Proof.
  unfold matches_for_command_with_options.
  destruct (matched_rules_of p options cmd) as [|m' ms]; simpl; [|naive_solver].
  rewrite list_elem_of_singleton. set_solver.
Qed.

(** Rules match as policy matches. *)
Lemma matched_rule_is_policy_match p options cmd m :
  m ∈ matched_rules_of p options cmd → is_policy_match m = true.
Proof.
  assert (∀ r c m, rule_matches r c = Some m → is_policy_match m = true) as Hr.
  { intros r c m'. unfold rule_matches. by destruct (matches_prefix _ _); [intros [= <-]|]. }
  unfold matched_rules_of. case_match.
  - intros (f & args & r & -> & _ & Hm)%elem_of_exact. by eapply Hr.
  - destruct (resolve_host_executables options); [|by intros ?%elem_of_nil].
    rewrite host_rules_default. destruct cmd as [|f args]; [by intros ?%elem_of_nil|].
    destruct (absolute_path f ≫= _) as [[program basename]|]; [|by intros ?%elem_of_nil].
    case_match; [by intros ?%elem_of_nil|].
    intros (m' & -> & (r & _ & Hm)%list_elem_of_omap)%list_elem_of_fmap.
    apply Hr in Hm. by destruct m'.
Qed.

(** A forbidding rule always wins: if a rule of the user's policy or of the
    environment's policy forbids a prefix of some segment of the command, the
    command is forbidden, whatever the other rules, the approval policy, the
    permissions and the model are. *)
Theorem forbidding_rule_wins (pol : Policy) (req : ExecApprovalRequest) (cmds : ExecPolicyCommands)
    (platform : DangerousCommandPlatform) (first : rstr) (args : list rstr) (r : PrefixRule)
    (m : RuleMatch) :
  first :: args ∈ commands cmds →
  r ∈ rules_of pol first ∨ (∃ o, req_environment_policy req = Some o ∧ r ∈ rules_of o first) →
  rule_decision r = Forbidden →
  rule_matches r (first :: args) = Some m →
  ∃ reason, create_exec_approval_requirement_for_parsed_commands pol req cmds platform
            = Some (ForbiddenBecause reason).
Proof.
  intros Hin Hr Hd Hm. destruct (create_eq pol req cmds platform) as [_ ->]; [by intros E; rewrite E in Hin; apply elem_of_nil in Hin|].
  unfold requirement_for_evaluation. cbn [eval_decision]. rewrite strictest_forbidden; [by eexists|].
  apply list_elem_of_fmap. exists m. split.
  { unfold rule_matches in Hm. destruct (matches_prefix _ _); [|done]. by injection Hm as <-. }
  apply elem_of_request_matches. exists (first :: args). split; [done|].
  apply matches_with_fallback. left.
  assert (m ∈ default [] (match_exact_rules (request_policy pol req) (first :: args))) as Hx.
  { apply elem_of_exact. exists first, args, r. split_and!; [done| |done].
    apply rules_for_environment. rewrite Hd. naive_solver. }
  unfold matched_rules_of. by destruct (default [] (match_exact_rules _ _)); [apply elem_of_nil in Hx|].
Qed.

Lemma bypasses_sandbox_true p cmds :
  bypasses_sandbox p cmds = true ↔
  ∀ cmd, cmd ∈ cmds → ∃ m, m ∈ matched_rules_of p match_options cmd ∧ match_decision m = Allow.
Proof.
  unfold bypasses_sandbox. rewrite forallb_forall. setoid_rewrite existsb_exists.
  unfold matches_for_command_with_options, policy_match_with.
  setoid_rewrite <- list_elem_of_In. split; intros Hall cmd Hc.
  - destruct (Hall cmd Hc) as (m & Hm & Hd). reflect_bools. eauto.
  - destruct (Hall cmd Hc) as (m & Hm & Hd). exists m. split; [done|].
    rewrite (matched_rule_is_policy_match _ _ _ _ Hm). by apply bool_decide_eq_true_2.
Qed.

Lemma create_nonempty pol req cmds platform r :
  create_exec_approval_requirement_for_parsed_commands pol req cmds platform = Some r →
  commands cmds ≠ [].
Proof.
  intros Hc E. unfold create_exec_approval_requirement_for_parsed_commands,
    check_multiple_with_options in Hc. by rewrite E in Hc.
Qed.

(** When the requirement is to skip, everything that matched allows. *)
Lemma skip_inv pol req cmds platform b a :
  create_exec_approval_requirement_for_parsed_commands pol req cmds platform = Some (Skip b a) →
  strictest (match_decision <$> request_matches pol req cmds platform) = Allow ∧
  b = bypasses_sandbox (request_policy pol req) (commands cmds).
Proof.
  intros Hc. pose proof (create_nonempty _ _ _ _ _ Hc) as Hne.
  destruct (create_eq pol req cmds platform Hne) as [_ Heq]. rewrite Heq in Hc.
  unfold requirement_for_evaluation in Hc. cbn [eval_decision] in Hc.
  destruct (strictest _) eqn:Es; [|by destruct (prompt_is_rejected_by_policy _ _); [case_match|]|done].
  by injection Hc as <- _.
Qed.

Lemma skip_all_allow pol req cmds platform b a cmd m :
  create_exec_approval_requirement_for_parsed_commands pol req cmds platform = Some (Skip b a) →
  cmd ∈ commands cmds →
  m ∈ matches_for_command_with_options (request_policy pol req) cmd
        (Some (request_fallback req (command_origin cmds) platform)) match_options →
  match_decision m = Allow.
Proof.
  intros [Hs _]%skip_inv Hin Hm. apply (proj1 (strictest_allow _) Hs), list_elem_of_fmap.
  exists m. split; [done|]. apply elem_of_request_matches. eauto.
Qed.

(** C14: what runs without approval was allowed: if the requirement is to skip
    approval, every rule that matches a segment allows it and every segment that
    no rule matches is allowed by the heuristics; and the sandbox is bypassed
    exactly when every segment is matched by a rule. *)
Theorem skip_means_allowed (pol : Policy) (req : ExecApprovalRequest) (cmds : ExecPolicyCommands)
    (platform : DangerousCommandPlatform) (bypass : bool) (a : option ExecPolicyAmendment) :
  create_exec_approval_requirement_for_parsed_commands pol req cmds platform = Some (Skip bypass a) →
  let p := request_policy pol req in
  (∀ cmd m, cmd ∈ commands cmds → m ∈ matched_rules_of p match_options cmd →
     match_decision m = Allow) ∧
  (∀ cmd, cmd ∈ commands cmds → matched_rules_of p match_options cmd = [] →
     request_fallback req (command_origin cmds) platform cmd = Allow) ∧
  (bypass = true ↔ ∀ cmd, cmd ∈ commands cmds → matched_rules_of p match_options cmd ≠ []).
Proof.
  intros Hc. cbv zeta. split_and!.
  - intros cmd m Hin Hm. eapply skip_all_allow; [done..|]. apply matches_with_fallback. by left.
  - intros cmd Hin Hn. eapply (skip_all_allow _ _ _ _ _ _ cmd (HeuristicsRuleMatch cmd _)); [done..|].
    apply matches_with_fallback. by right.
  - pose proof (skip_inv _ _ _ _ _ _ Hc) as [_ ->]. rewrite bypasses_sandbox_true. split.
    + intros Hall cmd Hin Hn. destruct (Hall cmd Hin) as (m & Hm & _). rewrite Hn in Hm.
      by apply elem_of_nil in Hm.
    + intros Hall cmd Hin. destruct (matched_rules_of (request_policy pol req) match_options cmd) as [|m ms'] eqn:E;
        [by apply Hall in E|]. exists m. split; [by left|].
      eapply (skip_all_allow _ _ _ _ _ _ cmd); [done..|]. apply matches_with_fallback. left. rewrite E. by left.
Qed.

(** A dangerous command never runs unasked: if the classifier flags a segment
    and no rule matches it, the command needs approval or is forbidden, and it
    is forbidden when prompts are never shown. *)
Theorem dangerous_never_skips (pol : Policy) (req : ExecApprovalRequest) (cmds : ExecPolicyCommands)
    (platform : DangerousCommandPlatform) (cmd : list rstr) :
  cmd ∈ commands cmds →
  is_Some (dangerous_command_match_for_origin cmd (command_origin cmds) platform) →
  matched_rules_of (request_policy pol req) match_options cmd = [] →
  (∀ bypass a, create_exec_approval_requirement_for_parsed_commands pol req cmds platform
               ≠ Some (Skip bypass a)) ∧
  (req_approval_policy req = Never →
   ∃ reason, create_exec_approval_requirement_for_parsed_commands pol req cmds platform
             = Some (ForbiddenBecause reason)).
Proof.
  intros Hin Hd Hn.
  set (m := HeuristicsRuleMatch cmd (request_fallback req (command_origin cmds) platform cmd)).
  assert (m ∈ matches_for_command_with_options (request_policy pol req) cmd
        (Some (request_fallback req (command_origin cmds) platform)) match_options) as Hm
    by (apply matches_with_fallback; by right).
  assert (match_decision m = match req_approval_policy req with Never => Forbidden | _ => Prompt end) as Ed.
  { simpl. unfold request_fallback, render_decision_for_unmatched_command_for_platform. simpl.
    rewrite bool_decide_eq_true_2 by done. by destruct (req_approval_policy req). }
  split.
  - intros b a Hc. pose proof (skip_all_allow _ _ _ _ _ _ _ _ Hc Hin Hm) as Ha.
    rewrite Ed in Ha. by destruct (req_approval_policy req).
  - intros Hnever. rewrite Hnever in Ed.
    destruct (create_eq pol req cmds platform) as [_ ->]; [by intros E; rewrite E in Hin; apply elem_of_nil in Hin|].
    unfold requirement_for_evaluation. cbn [eval_decision].
    rewrite strictest_forbidden; [by eexists|]. apply list_elem_of_fmap. exists m. split; [done|].
    apply elem_of_request_matches. eauto.
Qed.

(** A user who does not want prompts gets none: when approval is never asked, or
    granular approval rejects both kinds of prompt, no command needs approval,
    and when only one kind is rejected, only the other is shown. *)
Theorem rejected_prompts_never_shown (pol : Policy) (req : ExecApprovalRequest)
    (cmds : ExecPolicyCommands) (platform : DangerousCommandPlatform) (reason : option rstr)
    (a : option ExecPolicyAmendment) :
  create_exec_approval_requirement_for_parsed_commands pol req cmds platform
    = Some (NeedsApproval reason a) →
  req_approval_policy req ≠ Never ∧
  ∀ config, req_approval_policy req = Granular config →
    if existsb (policy_match_with Prompt) (request_matches pol req cmds platform)
    then granular_rules config = true else sandbox_approval config = true.
Proof.
  intros Hc. pose proof (create_nonempty _ _ _ _ _ Hc) as Hne. revert Hc.
  destruct (create_eq pol req cmds platform Hne) as [_ ->].
  unfold requirement_for_evaluation. cbn [eval_decision eval_matched_rules].
  destruct (strictest _); [done| |done].
  destruct (existsb (policy_match_with Prompt) _) eqn:Ep;
    (destruct (req_approval_policy req) as [| |config|] eqn:Ea; simpl; try done; [..|
      destruct (granular_rules config) eqn:Eg, (sandbox_approval config) eqn:Es; simpl; try done]);
    intros _; (split; [done|]); intros config' [= <-]; done.
Qed.
End approval_props.
