(* ===== verification/ApprovalUpdateProps.v ===== *)
(** Properties of approvals over time: an accepted prefix takes effect, a model
    that is not given allowing rules never leaves the sandbox by a rule, and an
    unfamiliar executable is not trusted for what its arguments look like. *)

From S2P Require Import Prelude PathUris FsPolicy ExecPolicy ExecPolicyProps PolicyFile PolicyFileProps PolicyAmend DangerousCommand ExecApproval ExecApprovalProps.

#[local] Opaque str.

(** ** Prefix rules *)

(** The rule that [add_prefix_rule] adds. *)
Definition literal_rule (f : rstr) (rest : list rstr) (d : Decision) : PrefixRule :=
  mkRule (mkPattern f (Single <$> rest)) d None.

Lemma literal_fits rest xs :
  Forall2 (λ t x, x ∈ alternatives t) (Single <$> rest) xs → xs = rest.
Proof.
  revert xs. induction rest as [|y rest IH]; intros xs Hf; inversion Hf as [|? x ? xs' Hx Hxs]; subst; [done|].
  apply list_elem_of_singleton in Hx as ->. f_equal. by apply IH.
Qed.

Lemma literal_rule_matches f rest d cmd m :
  rule_matches (literal_rule f rest d) cmd = Some m → f :: rest `prefix_of` cmd.
Proof.
  unfold rule_matches. destruct (matches_prefix _ _) as [pre|] eqn:E; [|done]. intros _.
  apply matches_prefix_Some in E as [Hp Hf]. inversion Hf as [|? x ? xs Hx Hxs]; subst.
  apply list_elem_of_singleton in Hx as ->. by apply literal_fits in Hxs as ->.
Qed.

Lemma rule_matches_longer r cmd k m :
  rule_matches r cmd = Some m → rule_matches r (cmd ++ k) = Some m.
Proof. apply prefix_rule_matches_iff. Qed.

Lemma add_prefix_rule_Ok p prefix d p' :
  add_prefix_rule p prefix d = Ok p' →
  ∃ f rest, prefix = f :: rest ∧ host_executables_by_name p' = host_executables_by_name p ∧
    ∀ prog, rules_of p' prog = rules_of p prog ++ (if decide (f = prog) then [literal_rule f rest d] else []).
Proof.
  destruct prefix as [|f rest]; [done|]. simpl. intros [= <-]. exists f, rest.
  split_and!; [done..|]. intros prog. simpl. unfold multimap_insert. case_decide as E.
  - subst. by rewrite lookup_insert_eq.
  - rewrite lookup_insert_ne by done. by rewrite app_nil_r.
Qed.

Section coverage.
Context `{PolicyTools}.
(** The lookup key of an executable is a name, not an absolute path. *)
Definition keys_are_names : Prop :=
  ∀ path key, executable_path_lookup_key path = Some key → absolute_path key = None.

Lemma matched_exact p options first args r m :
  r ∈ rules_of p first → rule_matches r (first :: args) = Some m →
  matched_rules_of p options (first :: args) ≠ [].
Proof.
  intros Hr Hm. unfold matched_rules_of.
  assert (m ∈ default [] (match_exact_rules p (first :: args))) as Hx
    by (apply elem_of_exact; by exists first, args, r).
  by destruct (default [] (match_exact_rules p (first :: args))); [apply elem_of_nil in Hx|].
Qed.

(** The host executables allow a path for a name. *)
Definition host_allows (p : Policy) (program basename : rstr) : bool :=
  match host_executables_by_name p !! basename with
  | Some paths => existsb (str_eqb program) paths
  | None => true
  end.

(** A rule matches a resolved executable. *)
Lemma matched_host p first args program basename r m :
  absolute_path first = Some program → executable_path_lookup_key program = Some basename →
  host_allows p program basename = true →
  r ∈ rules_of p basename → rule_matches r (basename :: args) = Some m →
  matched_rules_of p match_options (first :: args) ≠ [].
Proof.
  intros Ha Hk Hh Hr Hm. unfold matched_rules_of.
  destruct (default [] (match_exact_rules p (first :: args))); [|done].
  cbn [is_empty negb]. simpl resolve_host_executables. cbv iota. rewrite host_rules_default, Ha. simpl. rewrite Hk. simpl.
  assert (match host_executables_by_name p !! basename with
          | Some paths => negb (existsb (str_eqb program) paths) | None => false end = false) as ->.
  { unfold host_allows in Hh. destruct (host_executables_by_name p !! basename); [by rewrite Hh|done]. }
  intros En%fmap_nil_inv. eapply (elem_of_nil m). rewrite <- En. apply list_elem_of_omap. eauto.
Qed.

(** What a non-empty match of a command comes from. *)
Lemma matched_cases p cmd :
  matched_rules_of p match_options cmd ≠ [] →
  ∃ first args r m, cmd = first :: args ∧
    ((r ∈ rules_of p first ∧ rule_matches r (first :: args) = Some m) ∨
     (∃ program basename, absolute_path first = Some program ∧
        executable_path_lookup_key program = Some basename ∧
        host_allows p program basename = true ∧
        r ∈ rules_of p basename ∧ rule_matches r (basename :: args) = Some m)).
Proof.
  unfold matched_rules_of. destruct (default [] (match_exact_rules p cmd)) as [|m ms] eqn:E; cbn [is_empty negb].
  - simpl resolve_host_executables. cbv iota. rewrite host_rules_default. destruct cmd as [|first args]; [done|].
    destruct (absolute_path first) as [program|] eqn:Ea; [|done]. simpl.
    destruct (executable_path_lookup_key program) as [basename|] eqn:Ek; [|done]. simpl.
    case_match eqn:Eh; [done|]. intros Hne.
    destruct (omap _ _) as [|m ms] eqn:Eo; [done|]. clear Hne.
    assert (m ∈ omap (λ r, rule_matches r (basename :: args)) (rules_of p basename)) as Hin
      by (rewrite Eo; by left).
    apply list_elem_of_omap in Hin as (r & Hr & Hm). exists first, args, r, m. split; [done|].
    right. exists program, basename. split_and!; try done. unfold host_allows.
    destruct (host_executables_by_name p !! basename); [by apply negb_false_iff in Eh|done].
  - intros _. assert (m ∈ default [] (match_exact_rules p cmd)) as (f & args & r & -> & ? & ?)%elem_of_exact
      by (rewrite E; by left).
    exists f, args, r, m. auto.
Qed.

(** A command that starts with a matched command is matched. *)
Lemma prefix_covers p prefix cmd :
  matched_rules_of p match_options prefix ≠ [] → prefix `prefix_of` cmd →
  matched_rules_of p match_options cmd ≠ [].
Proof.
  intros (f & args & r & m & -> & Hm)%matched_cases [k ->]. simpl.
  destruct Hm as [[Hr Hm]|(prog & base & Ha & Hk & Hh & Hr & Hm)].
  - eapply matched_exact; [done|]. by eapply (rule_matches_longer r (f :: args) k).
  - eapply matched_host; [done..|]. by eapply (rule_matches_longer r (base :: args) k).
Qed.

(** If a prefix is matched already, a rule for it matches nothing new. *)
Lemma covered_rule_adds_nothing p prefix d p' cmd :
  keys_are_names →
  add_prefix_rule p prefix d = Ok p' →
  matched_rules_of p match_options prefix ≠ [] →
  matched_rules_of p match_options cmd = [] → matched_rules_of p' match_options cmd = [].
Proof.
  intros Hkeys (f & rest & -> & Hhost & Hrules)%add_prefix_rule_Ok Hpre Hcmd.
  destruct (decide (matched_rules_of p' match_options cmd = [])) as [|Hne]; [done|exfalso].
  apply matched_cases in Hne as (first & args & r & m & -> & Hm).
  destruct Hm as [[Hr Hm]|(prog & base & Ha & Hk & Hh & Hr & Hm)]; rewrite Hrules in Hr;
    apply elem_of_app in Hr as [Hr|Hr].
  - revert Hcmd. by eapply matched_exact.
  - case_decide; [|by apply elem_of_nil in Hr]. apply list_elem_of_singleton in Hr as ->.
    apply literal_rule_matches in Hm. revert Hcmd. by eapply prefix_covers.
  - unfold host_allows in Hh. rewrite Hhost in Hh. revert Hcmd. by eapply matched_host.
  - case_decide; [|by apply elem_of_nil in Hr]. apply list_elem_of_singleton in Hr as ->. subst base.
    apply literal_rule_matches in Hm. destruct Hm as [k Hk']. injection Hk' as Hk'.
    apply matched_cases in Hpre as (f' & rest' & r & m' & [= <- <-] & Hm).
    destruct Hm as [[Hr Hm]|(prog' & base' & Ha' & _)]; [|by rewrite (Hkeys _ _ Hk) in Ha'].
    unfold host_allows in Hh. rewrite Hhost in Hh. revert Hcmd. subst args.
    eapply matched_host; [done..|]. by eapply (rule_matches_longer r (f :: rest) k).
Qed.

(** A match has the decision of a rule of the policy. *)
Lemma matched_rules_decision p options cmd m :
  m ∈ matched_rules_of p options cmd →
  ∃ rule prog, rule ∈ rules_of p prog ∧ rule_decision rule = match_decision m.
Proof.
  assert (∀ r c m, rule_matches r c = Some m → rule_decision r = match_decision m) as Hr.
  { intros r c m'. unfold rule_matches. by destruct (matches_prefix _ _); [intros [= <-]|]. }
  unfold matched_rules_of. destruct (negb _).
  - intros (f & args & r & -> & Hin & Hm)%elem_of_exact. eauto.
  - destruct (resolve_host_executables options); [|by intros ?%elem_of_nil].
    rewrite host_rules_default. destruct cmd as [|f args]; [by intros ?%elem_of_nil|].
    destruct (absolute_path f ≫= _) as [[program basename]|]; [|by intros ?%elem_of_nil].
    case_match; [by intros ?%elem_of_nil|].
    intros (m' & -> & (r & Hin & Hm)%list_elem_of_omap)%list_elem_of_fmap.
    exists r, basename. split; [done|]. rewrite (Hr _ _ _ Hm). by destruct m'.
Qed.

Lemma approves_eq p fallback options cmd :
  approves p fallback options cmd = true ↔
  strictest (match_decision <$> matches_for_command_with_options p cmd (Some fallback) options) = Allow.
Proof.
  unfold approves, check_with_options, from_matches.
  rewrite max_decision_strictest; [simpl; by rewrite bool_decide_eq_true|].
  intros E%fmap_nil_inv. by apply matches_nonempty in E.
Qed.
End coverage.

(** ** Accepting a proposed prefix *)

Section update_props.
Context `{PolicyTools, ShellTools, FileUrls, ShellPaths, CommandParsers, JsonText}.

Abbreviation request_policy pol req :=
  (current_for_environment pol (req_environment_policy req) (req_allow_prefix_rules req)).

Lemma approves_perm p p' fallback options cmd :
  same_rules p p' → approves p fallback options cmd = true → approves p' fallback options cmd = true.
Proof.
  intros Hs. rewrite !approves_eq. intros Ha. by rewrite <- (matches_perm p p') by done.
Qed.

Lemma approves_unmatched p fallback cmd :
  matched_rules_of p match_options cmd = [] →
  approves p fallback match_options cmd = bool_decide (fallback cmd = Allow).
Proof.
  intros Hm. unfold approves, check_with_options, matches_for_command_with_options.
  rewrite Hm. done.
Qed.

Lemma skip_if_all_approve pol req cmds platform :
  commands cmds ≠ [] →
  (∀ cmd, cmd ∈ commands cmds →
     approves (request_policy pol req) (request_fallback req (command_origin cmds) platform)
       match_options cmd = true) →
  ∃ b a, create_exec_approval_requirement_for_parsed_commands pol req cmds platform = Some (Skip b a).
Proof.
  intros Hne Hall. destruct (create_eq pol req cmds platform Hne) as [_ ->].
  unfold requirement_for_evaluation. cbn [eval_decision].
  rewrite (proj2 (strictest_allow _)); [by eauto|].
  intros d (m & -> & (cmd & Hin & Hm)%elem_of_request_matches)%list_elem_of_fmap.
  specialize (Hall cmd Hin). rewrite approves_eq in Hall.
  apply (proj1 (strictest_allow _) Hall), list_elem_of_fmap. eauto.
Qed.

Lemma requested_amendment_Some req p cmds platform e a :
  requested_amendment req p cmds platform e = Some a →
  req_allow_prefix_rules req = Honor ∧
  existsb is_policy_match (eval_matched_rules e) = false ∧
  ∃ p', add_prefix_rule p (amendment_command a) Allow = Ok p' ∧
    ∀ cmd, cmd ∈ commands cmds →
      approves p' (request_fallback req (command_origin cmds) platform) match_options cmd = true.
Proof.
  unfold requested_amendment. case_bool_decide as Hh; [|done].
  unfold derive_requested_execpolicy_amendment_from_prefix_rule.
  destruct (req_prefix_rule req) as [prefix|]; [|done]. destruct (is_empty prefix); [done|].
  case_bool_decide; [done|]. destruct (existsb _ _) eqn:E; [done|].
  unfold prefix_rule_would_approve_all_commands.
  destruct (add_prefix_rule p prefix Allow) as [p'|] eqn:Ep; [|done].
  destruct (forallb _ _) eqn:Ef; [|done]. intros [= <-]. split_and!; [done..|].
  exists p'. split; [done|]. rewrite forallb_forall in Ef. intros cmd Hin%list_elem_of_In. auto.
Qed.

Lemma append_amendment_Ok io m home a m' :
  append_amendment_and_update io m home a = (m', Ok ()) →
  (already_allowed (policy m) (amendment_command a) = true ∧ policy m' = policy m) ∨
  add_prefix_rule (policy m) (amendment_command a) Allow = Ok (policy m').
Proof.
  unfold append_amendment_and_update. destruct (run_update _ _ _ _) as [file' [[]|]]; [|done].
  destruct (already_allowed _ _) eqn:Ea; [intros [= <-]; by left|].
  destruct (add_prefix_rule _ _ _) as [p'|]; [|done]. intros [= <-]. by right.
Qed.

Lemma already_allowed_matched p command :
  already_allowed p command = true → matched_rules_of p match_options command ≠ [].
Proof.
  unfold already_allowed. rewrite check_multiple_eq by done. cbn [eval_matched_rules].
  intros [_ Hx]%andb_true_iff Hn. apply existsb_exists in Hx as (m & Hin & Hm).
  apply list_elem_of_In in Hin. unfold segment_matches in Hin.
  apply list_elem_of_bind in Hin as (c & Hin & ->%list_elem_of_singleton).
  apply matches_with_fallback in Hin as [Hin|[_ ->]]; [|done].
  rewrite Hn in Hin. by apply elem_of_nil in Hin.
Qed.

Lemma environment_hosts pol env allow :
  (∀ o, env = Some o → host_executables_by_name o = ∅) →
  host_executables_by_name (current_for_environment pol env allow) = host_executables_by_name pol.
Proof.
  intros Ho. unfold current_for_environment. destruct env as [o|].
  - simpl. rewrite (Ho o) by done. rewrite map_empty_union. by destruct allow.
  - by destruct allow.
Qed.

(** Adding a rule commutes with merging the environment's policy. *)
Lemma environment_add_rule pol env prefix d pol' p' :
  add_prefix_rule pol prefix d = Ok pol' →
  add_prefix_rule (current_for_environment pol env Honor) prefix d = Ok p' →
  same_rules p' (current_for_environment pol' env Honor).
Proof.
  destruct prefix as [|f rest]; [done|]. intros Hpol Hp. split.
  - intros prog. apply add_prefix_rule_Ok in Hpol as (f1 & r1 & [= <- <-] & _ & Hpol).
    apply add_prefix_rule_Ok in Hp as (f2 & r2 & [= <- <-] & _ & Hp). rewrite Hp.
    destruct env as [o|]; simpl current_for_environment.
    + rewrite !merge_overlay_rules, Hpol, <- !(assoc_L app). f_equiv. apply Permutation_app_comm.
    + by rewrite Hpol.
  - simpl in Hpol, Hp. injection Hpol as <-. injection Hp as <-. by destruct env.
Qed.

(** Accepting a requested prefix takes effect: when the prefix asked for with a
    command was found to approve all of it, and the amendment is stored, the
    same request is no longer asked about. The environment's policy does not
    redefine host executables. *)
Theorem accepted_prefix_takes_effect (pol : Policy) (file : option rstr)
    (req : ExecApprovalRequest) (cmds : ExecPolicyCommands) (platform : DangerousCommandPlatform)
    (e : Evaluation) (a : ExecPolicyAmendment) (io : UpdateIo) (home : rstr) (m' : ExecPolicyManager) :
  keys_are_names →
  (∀ o, req_environment_policy req = Some o → host_executables_by_name o = ∅) →
  check_multiple_with_options (request_policy pol req) (commands cmds)
    (request_fallback req (command_origin cmds) platform) match_options = Some e →
  requested_amendment req (request_policy pol req) cmds platform e = Some a →
  append_amendment_and_update io (mkManager pol file) home a = (m', Ok ()) →
  ∃ bypass proposed,
    create_exec_approval_requirement_for_parsed_commands (policy m') req cmds platform
    = Some (Skip bypass proposed).
Proof.
  intros Hkeys Henv He (Hhonor & Hnone & p' & Hadd & Hall)%requested_amendment_Some Hupd.
  assert (commands cmds ≠ []) as Hne by (intros E; unfold check_multiple_with_options in He; by rewrite E in He).
  rewrite check_multiple_eq in He by done. injection He as <-. cbn [eval_matched_rules] in Hnone.
  apply skip_if_all_approve; [done|]. intros cmd Hin. specialize (Hall cmd Hin).
  apply append_amendment_Ok in Hupd as [[Hallowed ->]|Hpol]; simpl in *.
  - assert (matched_rules_of (request_policy pol req) match_options (amendment_command a) ≠ []) as Hpre.
    { eapply (matches_mono pol _ (amendment_command a)); [|by rewrite environment_hosts|by apply already_allowed_matched].
      intros prog r Hr. apply rules_for_environment. rewrite Hhonor. auto. }
    assert (matched_rules_of (request_policy pol req) match_options cmd = []) as Hcmd.
    { apply elem_of_nil_inv. intros m Hm. apply not_true_iff_false in Hnone. apply Hnone.
      apply existsb_exists. exists m. split; [|by eapply matched_rule_is_policy_match].
      apply list_elem_of_In, elem_of_request_matches. exists cmd. split; [done|].
      apply matches_with_fallback. by left. }
    pose proof (covered_rule_adds_nothing _ _ _ _ _ Hkeys Hadd Hpre Hcmd) as Hcmd'.
    rewrite approves_unmatched in Hall |- * by done. done.
  - rewrite Hhonor in Hadd |- *. eapply approves_perm; [|exact Hall]. by eapply environment_add_rule.
Qed.

(** ** Models that are not given allowing rules *)

(** A model that is not given allowing rules never leaves the sandbox by one:
    without an environment policy its commands never bypass the sandbox and no
    amendment is proposed, while every rule that prompts or forbids still
    counts. *)
Theorem ignored_allow_rules_never_bypass (pol : Policy) (req : ExecApprovalRequest)
    (cmds : ExecPolicyCommands) (platform : DangerousCommandPlatform) (r : ExecApprovalRequirement) :
  req_allow_prefix_rules req = IgnoreForCyberModel → req_environment_policy req = None →
  create_exec_approval_requirement_for_parsed_commands pol req cmds platform = Some r →
  (∀ a, r ≠ Skip true a) ∧ proposed_execpolicy_amendment r = None ∧
  ∀ prog rule, rule ∈ rules_of (request_policy pol req) prog ↔
    rule ∈ rules_of pol prog ∧ rule_decision rule ≠ Allow.
Proof.
  intros Ha Hn Hc.
  assert (∀ prog rule, rule ∈ rules_of (request_policy pol req) prog ↔
    rule ∈ rules_of pol prog ∧ rule_decision rule ≠ Allow) as Hrules.
  { intros prog rule. rewrite rules_for_environment, Ha, Hn. naive_solver. }
  pose proof (create_nonempty _ _ _ _ _ Hc) as Hne.
  destruct (create_eq pol req cmds platform Hne) as [_ Heq]. split_and!; [| |done].
  - intros a ->. apply skip_inv in Hc as [_ Hb]. symmetry in Hb.
    rewrite bypasses_sandbox_true in Hb. destruct (commands cmds) as [|c0 cs]; [done|].
    destruct (Hb c0) as (m & Hm & Hd); [by left|].
    apply matched_rules_decision in Hm as (rule & prog & Hr & Hdr). apply Hrules in Hr as [_ Hr].
    by rewrite Hdr, Hd in Hr.
  - rewrite Heq in Hc. injection Hc as <-. unfold requirement_for_evaluation.
    unfold requested_amendment. rewrite Ha. rewrite bool_decide_eq_false_2 by done.
    repeat case_match; done.
Qed.

(** ** Unfamiliar executables *)

(** An unfamiliar executable earns no trust by its arguments: when the program
    is not a system or configured shell, the command runs outside the sandbox
    only if a rule allows the program itself, and without approval only if
    nothing that matches the program alone or its apparent commands is stricter.
    *)
Theorem unfamiliar_executable_not_trusted (pol : Policy) (req : ExecApprovalRequest)
    (shell_path : rstr) (mode : UnifiedExecShellMode) (platform : DangerousCommandPlatform)
    (exe : rstr) (args : list rstr) (bypass : bool) (a : option ExecPolicyAmendment) :
  req_command req = exe :: args → args ≠ [] →
  shell_approval_command (exe :: args) shell_path mode = [exe] →
  create_exec_approval_requirement_for_shell pol req shell_path mode platform
    = Some (Skip bypass a) →
  let p := request_policy pol req in
  (bypass = true → ∃ m, m ∈ matched_rules_of p match_options [exe] ∧ match_decision m = Allow) ∧
  ∀ cmd m, cmd ∈ [exe] :: commands (apparent_commands (exe :: args) platform) →
    m ∈ matched_rules_of p match_options cmd → match_decision m = Allow.
Proof.
  intros Hreq Hargs Hshell. unfold create_exec_approval_requirement_for_shell.
  rewrite Hreq, Hshell. destruct args as [|arg args]; [done|]. simpl length. cbn [Nat.eqb].
  set (cmds := mkCommands _ _). intros Hc. cbv zeta.
  change (request_policy pol req) with (request_policy pol (with_command req [exe])).
  assert (∀ cmd, cmd ∈ [exe] :: commands (apparent_commands (exe :: arg :: args) platform) →
            cmd ∈ commands cmds) as Hin by done.
  split.
  - intros ->. apply skip_inv in Hc as [_ Hb]. symmetry in Hb.
    rewrite bypasses_sandbox_true in Hb. apply Hb, Hin. by left.
  - intros cmd m Hcmd Hm. eapply skip_all_allow; [exact Hc|by apply Hin|].
    apply matches_with_fallback. by left.
Qed.
End update_props.
