(* ===== verification/ApprovalExamples.v ===== *)
(** Approval decisions on a small Unix host, where the theorems' hypotheses
    hold. *)

From S2P Require Import Prelude PathUris PathUriExample FsPolicy ExecPolicy ExecPolicyProps PolicyFile PolicyFileProps PolicyAmend DangerousCommand ExecApproval ExecApprovalProps ApprovalUpdateProps.

#[local] Opaque str.

Definition unix_paths : ShellPaths := {|
  path_parent s := match rsplit_once 47%N s with
                   | Some ([], _) => Some (str "/") | Some (p, _) => Some p | None => Some []
                   end;
  path_eqb := str_eqb;
  path_join a b := a ++ str "/" ++ b;
  system_root := None;
|}.
Definition no_wrappers : CommandParsers := {|
  parse_shell_lc_plain_commands _ := None;
  parse_powershell_command_into_plain_commands _ := None;
  extract_powershell_command _ := None;
  parse_powershell_script_into_plain_commands _ := None;
|}.
#[local] Existing Instances unix_tools no_scripts unix_paths no_wrappers quoting_json.

Lemma split_once_None c s : split_once c s = None → c ∉ s.
Proof.
  induction s as [|d s IH]; simpl; [by intros _ ?%elem_of_nil|].
  destruct (N.eqb_spec d c) as [->|Hd]; [done|]. intros Hs%fmap_None [->|Hin]%elem_of_cons; [done|].
  by apply IH.
Qed.
Lemma split_once_head c s a b : split_once c s = Some (a, b) → c ∉ a.
Proof.
  revert a. induction s as [|d s IH]; intros a; simpl; [done|].
  destruct (N.eqb_spec d c) as [->|Hd]; [intros [= <- <-]; by intros ?%elem_of_nil|].
  destruct (split_once c s) as [[a' b']|]; [|done]. simpl. intros [= <- <-].
  apply not_elem_of_cons. split; [done|by apply IH].
Qed.

Lemma unix_keys_are_names : keys_are_names.
Proof.
  assert (∀ n : rstr, 47%N ∉ n → match n with 47%N :: _ => Some n | _ => None end = None) as Hn.
  { intros [|c n] Hc; [done|]. destruct (decide (c = 47%N)) as [->|Hne]; [exfalso; apply Hc; by left|].
    destruct c as [|p]; [done|]. repeat (destruct p as [p|p|]; try done). }
  intros path key. unfold executable_path_lookup_key, executable_lookup_key. simpl.
  unfold rsplit_once. destruct (split_once 47%N (reverse path)) as [[b a]|] eqn:E; simpl.
  - destruct (reverse b) as [|c n] eqn:Eb; [done|]. intros [= <-]. apply (Hn (c :: n)).
    apply split_once_head in E. intros Hin. apply E, elem_of_reverse. by rewrite Eb.
  - intros [= <-]. apply Hn. apply split_once_None in E. by rewrite elem_of_reverse in E.
Qed.

Definition request (command : list rstr) (approval : AskForApproval) (s : SandboxPermissions)
    (prefix : option (list rstr)) (allow : AllowPrefixRules) : ExecApprovalRequest :=
  mkRequest command approval (Managed (ManagedRestricted [] None) NetRestricted) None LevelDisabled
    s prefix allow.
Definition single (command : list rstr) : ExecPolicyCommands := mkCommands [command] Generic.
Definition git_status : list rstr := [str "git"; str "status"].

Lemma forbidding_rule_wins_witness :
  ∃ reason, create_exec_approval_requirement_for_parsed_commands
    (git_policy [allow_git; forbid_push]) (request git_push OnRequest UseDefault None Honor)
    (single git_push) PosixPlatform = Some (ForbiddenBecause reason).
Proof.
  eapply (forbidding_rule_wins (git_policy [allow_git; forbid_push]) _ _ _ (str "git")
    [str "push"; str "-f"] forbid_push).
  - by left.
  - left. unfold git_policy. simpl. rewrite lookup_singleton_eq. simpl. right. by left.
  - reflexivity.
  - vm_compute. reflexivity.
Defined.

Lemma skip_means_allowed_witness :
  let req := request git_status OnRequest UseDefault None Honor in
  create_exec_approval_requirement_for_parsed_commands (git_policy [allow_git]) req
    (single git_status) PosixPlatform = Some (Skip true None) ∧
  matched_rules_of (current_for_environment (git_policy [allow_git]) None Honor)
    match_options git_status ≠ [].
Proof.
  intros req.
  assert (create_exec_approval_requirement_for_parsed_commands (git_policy [allow_git]) req
    (single git_status) PosixPlatform = Some (Skip true None)) as Hc by (vm_compute; reflexivity).
  split; [exact Hc|].
  apply (proj1 (proj2 (proj2 (skip_means_allowed _ _ _ _ _ _ Hc))) eq_refl). by left.
Defined.

Lemma dangerous_never_skips_witness :
  let rm := [str "rm"; str "-rf"; str "x"] in
  ∃ reason, create_exec_approval_requirement_for_parsed_commands policy_empty
    (request rm Never UseDefault None Honor) (single rm) PosixPlatform
    = Some (ForbiddenBecause reason).
Proof.
  intros rm. refine (proj2 (dangerous_never_skips policy_empty _ _ _ rm _ _ _) _).
  - by left.
  - vm_compute. eauto.
  - vm_compute. reflexivity.
  - reflexivity.
Defined.

Lemma rejected_prompts_never_shown_witness :
  let req := request [str "ls"] (Granular (mkGranular true false false false false))
               RequireEscalated None Honor in
  ∃ reason a, create_exec_approval_requirement_for_parsed_commands policy_empty req
    (single [str "ls"]) PosixPlatform = Some (NeedsApproval reason a) ∧
  req_approval_policy req ≠ Never.
Proof.
  intros req. eexists _, _. split; [vm_compute; reflexivity|].
  eapply (proj1 (rejected_prompts_never_shown policy_empty req (single [str "ls"]) PosixPlatform _ _ _)).
  Unshelve. 3: { vm_compute. reflexivity. }
Defined.

Definition cargo_test : list rstr := [str "cargo"; str "test"; str "-q"].
Definition cargo_request : ExecApprovalRequest :=
  request cargo_test OnRequest RequireEscalated (Some [str "cargo"; str "test"]) Honor.

Lemma accepted_prefix_takes_effect_witness :
  ∃ m', append_amendment_and_update (mkUpdateIo false None working_io)
    (mkManager policy_empty None) (str "/home/u/.codex") (mkAmendment [str "cargo"; str "test"])
    = (m', Ok ()) ∧
  ∃ bypass proposed, create_exec_approval_requirement_for_parsed_commands (policy m') cargo_request
    (single cargo_test) PosixPlatform = Some (Skip bypass proposed).
Proof.
  eexists. split; [vm_compute; reflexivity|].
  eapply (accepted_prefix_takes_effect policy_empty None cargo_request (single cargo_test) PosixPlatform
    _ (mkAmendment [str "cargo"; str "test"]) (mkUpdateIo false None working_io) (str "/home/u/.codex")).
  - exact unix_keys_are_names.
  - done.
  - vm_compute. reflexivity.
  - vm_compute. reflexivity.
  - vm_compute. reflexivity.
Defined.

Lemma ignored_allow_rules_never_bypass_witness :
  let req := request git_status OnRequest UseDefault None IgnoreForCyberModel in
  ∃ r, create_exec_approval_requirement_for_parsed_commands (git_policy [allow_git]) req
    (single git_status) PosixPlatform = Some r ∧ (∀ a, r ≠ Skip true a).
Proof.
  intros req. exists (Skip false None).
  assert (create_exec_approval_requirement_for_parsed_commands (git_policy [allow_git]) req
    (single git_status) PosixPlatform = Some (Skip false None)) as Hc by (vm_compute; reflexivity).
  split; [exact Hc|].
  exact (proj1 (ignored_allow_rules_never_bypass _ req _ _ _ eq_refl eq_refl Hc)).
Defined.

Lemma unfamiliar_executable_not_trusted_witness :
  let command := [str "./sh"; str "-c"; str "ls"] in
  let pol := mkPolicy {[ str "./sh" := [mkRule (mkPattern (str "./sh") []) Allow None] ]} [] ∅ in
  let req := request command OnRequest UseDefault None Honor in
  create_exec_approval_requirement_for_shell pol req (str "/bin/zsh") Direct PosixPlatform
    = Some (Skip true None) ∧
  ∃ m, m ∈ matched_rules_of (current_for_environment pol None Honor) match_options [str "./sh"] ∧
    match_decision m = Allow.
Proof.
  intros command pol req.
  assert (create_exec_approval_requirement_for_shell pol req (str "/bin/zsh") Direct PosixPlatform
    = Some (Skip true None)) as Hc by (vm_compute; reflexivity).
  split; [exact Hc|].
  refine (proj1 (unfamiliar_executable_not_trusted pol req (str "/bin/zsh") Direct PosixPlatform
    (str "./sh") [str "-c"; str "ls"] true None eq_refl _ _ Hc) eq_refl).
  - discriminate.
  - vm_compute. reflexivity.
Defined.

(** Without the condition on the environment's executables an accepted prefix
    can be lost: the user's policy allows [git] wherever it is, the
    environment's only knows [/usr/bin/git], so [/opt/git log] is asked about,
    but the amendment finds it allowed already and the question comes back. *)
Definition narrowing_environment : Policy :=
  mkPolicy ∅ [] {[ str "git" := [str "/usr/bin/git"] ]}.
Definition opt_git : list rstr := [str "/opt/git"; str "log"].
Definition opt_git_request : ExecApprovalRequest :=
  mkRequest opt_git OnRequest (Managed (ManagedRestricted [] None) NetRestricted)
    (Some narrowing_environment) LevelDisabled RequireEscalated (Some opt_git) Honor.

Lemma amendment_lost_under_narrowing_environment :
  let ask pol := create_exec_approval_requirement_for_parsed_commands pol opt_git_request
                   (single opt_git) PosixPlatform in
  let pol := git_policy [allow_git] in
  let '(m', r) := append_amendment_and_update (mkUpdateIo false None working_io)
    (mkManager pol None) (str "/home/u/.codex") (mkAmendment opt_git) in
  ask pol = Some (NeedsApproval None (Some (mkAmendment opt_git))) ∧ r = Ok () ∧
  ask (policy m') = Some (NeedsApproval None (Some (mkAmendment opt_git))).
Proof. vm_compute. done. Qed.
