(* ===== verification/PolicyLoad.v ===== *)
(** Loading the policy files of the configuration layers:
    [load_exec_policy] and its helpers in [core/src/exec_policy.rs], with the
    layers of [config/src/config_layer_source.rs] and [config/src/state.rs]. *)

From S2P Require Import Prelude ExecPolicy ExecPolicyProps PolicyFile PolicyFileProps PolicyAmend DangerousCommand ExecApproval ApprovalUpdateProps.

#[local] Opaque str.

(** ** Configuration layers *)

Inductive ConfigLayerSource :=
| PackagedDefaults (file : rstr)
| Mdm (domain key : rstr)
| System (file : rstr)
| EnterpriseManaged (id name : rstr)
| User (file : rstr) (profile : option rstr)
| Project (dot_codex_folder : rstr)
| SessionFlags
| LegacyManagedConfigTomlFromFile (file : rstr)
| LegacyManagedConfigTomlFromMdm.

Record ConfigLayerEntry := mkLayer { layer_name : ConfigLayerSource; layer_disabled : bool }.
Record ConfigLayerStack := mkStack {
  all_layers_low_to_high : list ConfigLayerEntry;
  ignore_user_and_project_exec_policy_rules : bool;
  requirements_exec_policy : option Policy;
}.
Definition layers_low_to_high (s : ConfigLayerStack) : list ConfigLayerEntry :=
  filter (λ l, layer_disabled l = false) (all_layers_low_to_high s).

Definition config_folder `{ShellPaths} (l : ConfigLayerEntry) : option rstr :=
  match layer_name l with
  | PackagedDefaults _ => None
  | Mdm _ _ => None
  | System file => path_parent file
  | EnterpriseManaged _ _ => None
  | User file _ => path_parent file
  | Project dot_codex_folder => Some dot_codex_folder
  | SessionFlags => None
  | LegacyManagedConfigTomlFromFile _ => None
  | LegacyManagedConfigTomlFromMdm => None
  end.

(** ** Policy files *)

Inductive ExecPolicyError :=
| ReadDir (dir source : rstr)
| ReadFile (path source : rstr)
| ParsePolicy (path : rstr) (source : Error).

(** An entry of a directory: its path, and whether its file type is a file. *)
Record DirEntry := mkEntry { entry_path : rstr; entry_is_file : result rstr bool }.

(** The file system: a directory is missing, unreadable, or yields entries, each
    of which can fail; [Path::extension] and the order of paths. *)
Class PolicyDirs := {
  read_dir : rstr → result (bool * rstr) (list (result rstr DirEntry));
  read_to_string : rstr → result rstr rstr;
  path_extension : rstr → option rstr;
  path_leb : rstr → rstr → bool;
}.

Definition RULE_EXTENSION : rstr := str "rules".

Section load.
Context `{PolicyTools, ShellPaths, PolicyDirs, Evaluator}.

(** [sort]: stable insertion *)
Fixpoint insert_path (x : rstr) (l : list rstr) : list rstr :=
  match l with
  | [] => [x]
  | y :: l' => if path_leb y x then y :: insert_path x l' else x :: l
  end.
Definition sort_paths (l : list rstr) : list rstr := foldl (λ acc x, insert_path x acc) [] l.

Fixpoint collect_entries (dir : rstr) (entries : list (result rstr DirEntry))
    : result ExecPolicyError (list rstr) :=
  match entries with
  | [] => Ok []
  | Err source :: _ => Err (ReadDir dir source)
  | Ok entry :: entries' =>
      is_file ← map_err (ReadDir dir) (entry_is_file entry);
      paths ← collect_entries dir entries';
      Ok (if bool_decide (path_extension (entry_path entry) = Some RULE_EXTENSION) && is_file
          then entry_path entry :: paths else paths)
  end.

Definition collect_policy_files (dir : rstr) : result ExecPolicyError (list rstr) :=
  match read_dir dir with
  | Err (true, _) => Ok []
  | Err (false, source) => Err (ReadDir dir source)
  | Ok entries => paths ← collect_entries dir entries; Ok (sort_paths paths)
  end.

(** A user or project layer whose rules are to be ignored. *)
Definition layer_ignored (s : ConfigLayerStack) (l : ConfigLayerEntry) : bool :=
  ignore_user_and_project_exec_policy_rules s &&
  match layer_name l with User _ _ | Project _ => true | _ => false end.

Fixpoint collect_layers (s : ConfigLayerStack) (layers : list ConfigLayerEntry)
    : result ExecPolicyError (list rstr) :=
  match layers with
  | [] => Ok []
  | l :: layers' =>
      paths ← (if layer_ignored s l then Ok []
               else match config_folder l with
                    | Some folder => collect_policy_files (path_join folder RULES_DIR_NAME)
                    | None => Ok []
                    end);
      rest ← collect_layers s layers';
      Ok (paths ++ rest)
  end.

Fixpoint parse_files (b : PolicyBuilder) (paths : list rstr) : result ExecPolicyError PolicyBuilder :=
  match paths with
  | [] => Ok b
  | path :: paths' =>
      contents ← map_err (ReadFile path) (read_to_string path);
      match parse b path contents with
      | (_, Err source) => Err (ParsePolicy path source)
      | (b', Ok _) => parse_files b' paths'
      end
  end.

Definition load_exec_policy (s : ConfigLayerStack) : result ExecPolicyError Policy :=
  policy_paths ← collect_layers s (layers_low_to_high s);
  b ← parse_files builder_new policy_paths;
  match requirements_exec_policy s with
  | None => Ok (build b)
  | Some requirements => Ok (merge_overlay (build b) requirements)
  end.

Definition load_exec_policy_with_warning (s : ConfigLayerStack)
    : result ExecPolicyError (Policy * option ExecPolicyError) :=
  match load_exec_policy s with
  | Ok policy => Ok (policy, None)
  | Err (ParsePolicy path source) =>
      Ok (default policy_empty (requirements_exec_policy s), Some (ParsePolicy path source))
  | Err e => Err e
  end.

(** ** Requirements *)

Lemma load_with_warning_cases s p w :
  load_exec_policy_with_warning s = Ok (p, w) →
  (∃ base, p = match requirements_exec_policy s with
               | Some r => merge_overlay base r | None => base end) ∨
  p = default policy_empty (requirements_exec_policy s).
Proof.
  unfold load_exec_policy_with_warning, load_exec_policy.
  destruct (collect_layers _ _) as [paths|e]; simpl; [|destruct e; [done..|intros [= <- <-]; by right]].
  destruct (parse_files builder_new paths) as [b|e]; simpl;
    [|destruct e; [done..|intros [= <- <-]; by right]].
  intros Hp. left. exists (build b). by destruct (requirements_exec_policy s); injection Hp as <- <-.
Qed.

(** A rule that matches bounds the decision. *)
Lemma matched_rule_bounds p cmd fallback options m :
  m ∈ matched_rules_of p options cmd →
  ∃ e, check_with_options p cmd fallback options = Some e ∧
    severity (match_decision m) ≤ severity (eval_decision e).
Proof.
  intros Hm. unfold check_with_options, from_matches.
  rewrite max_decision_strictest; [|intros E%fmap_nil_inv; by apply matches_nonempty in E].
  eexists. split; [done|]. simpl. apply strictest_upper, list_elem_of_fmap. exists m. split; [done|].
  unfold matches_for_command_with_options. by destruct (matched_rules_of p options cmd); [apply elem_of_nil in Hm|].
Qed.

(** What can take the place of a rule that matches by the base name of the program:
    a rule that names the program as the command does, or, when [r] does not say
    where the program is, a list of [p] that leaves this path out. *)
Definition base_name_overridden (r p : Policy) (cmd : list rstr) : Prop :=
  default [] (match_exact_rules p cmd) ≠ []
  ∨ ∃ first args program basename paths, cmd = first :: args ∧ absolute_path first = Some program
      ∧ executable_path_lookup_key program = Some basename
      ∧ host_executables_by_name r !! basename = None
      ∧ host_executables_by_name p !! basename = Some paths ∧ existsb (str_eqb program) paths = false.

Lemma host_match_kept r p cmd options m :
  (∀ prog, rules_of r prog ⊆ rules_of p prog) →
  (∀ name paths, host_executables_by_name r !! name = Some paths → host_executables_by_name p !! name = Some paths) →
  resolve_host_executables options = true → m ∈ match_host_executable_rules r cmd →
  base_name_overridden r p cmd ∨ m ∈ matched_rules_of p options cmd.
Proof.
  intros Hrules Hhost Ho Hm. rewrite host_rules_default in Hm. destruct cmd as [|first args]; [by apply elem_of_nil in Hm|].
  destruct (absolute_path first) as [program|] eqn:Ea; simpl in Hm; [|by apply elem_of_nil in Hm].
  destruct (executable_path_lookup_key program) as [basename|] eqn:Ek; simpl in Hm; [|by apply elem_of_nil in Hm].
  destruct (match host_executables_by_name r !! basename with Some _ => _ | None => _ end) eqn:Er;
    [by apply elem_of_nil in Hm|].
  destruct (default [] (match_exact_rules p (first :: args))) as [|x l] eqn:Ex; [|left; left; by rewrite Ex].
  destruct (match host_executables_by_name p !! basename with
            | Some paths => negb (existsb (str_eqb program) paths) | None => false end) eqn:Ep.
  - left. right. destruct (host_executables_by_name p !! basename) as [paths|] eqn:Epp; [|done].
    apply negb_true_iff in Ep. exists first, args, program, basename, paths. split_and!; try done.
    destruct (host_executables_by_name r !! basename) as [paths'|] eqn:Erp; [|done].
    rewrite (Hhost _ _ Erp) in Epp. injection Epp as ->. by rewrite Ep in Er.
  - right. unfold matched_rules_of. rewrite Ex. cbn [is_empty negb].
    rewrite Ho, host_rules_default, Ea. simpl. rewrite Ek. simpl. rewrite Ep.
    apply list_elem_of_fmap in Hm as (x & -> & (rule & Hin & Hx)%list_elem_of_omap).
    apply list_elem_of_fmap. exists x. split; [done|]. apply list_elem_of_omap. exists rule. split; [by apply Hrules|done].
Qed.

(** C15: Whatever the policy files of the layers say, and also when one of them
    does not parse, the loaded policy has every rule of the requirements and uses
    their host executables.  A check of a command is at least as strict as each
    rule of the requirements that names the program as the command does.  It is
    also as strict as each of their rules that matches an absolute path by its
    base name, unless a rule of the loaded policy names that path itself, or the
    requirements do not say where the program is and another layer does, without
    this path. *)
Theorem requirements_always_enforced (s : ConfigLayerStack) (r p : Policy)
    (w : option ExecPolicyError) :
  requirements_exec_policy s = Some r →
  load_exec_policy_with_warning s = Ok (p, w) →
  (∀ prog, rules_of r prog ⊆ rules_of p prog) ∧
  (∀ name paths, host_executables_by_name r !! name = Some paths →
     host_executables_by_name p !! name = Some paths) ∧
  ∀ cmd fallback options m, m ∈ matched_rules_of r options cmd →
    m ∉ default [] (match_exact_rules r cmd) ∧ base_name_overridden r p cmd
    ∨ ∃ e, check_with_options p cmd fallback options = Some e ∧
        severity (match_decision m) ≤ severity (eval_decision e).
Proof.
  intros Hr Hp%load_with_warning_cases. rewrite Hr in Hp.
  assert (∀ prog, rules_of r prog ⊆ rules_of p prog) as Hrules.
  { destruct Hp as [[base ->]| ->]; [|done]. intros prog x Hx.
    rewrite merge_overlay_rules. apply elem_of_app. by right. }
  assert (∀ name paths, host_executables_by_name r !! name = Some paths →
            host_executables_by_name p !! name = Some paths) as Hhost.
  { intros name paths Hn. destruct Hp as [[base ->]| ->]; [|done]. by apply lookup_union_Some_l. }
  split_and!; [done..|]. intros cmd fallback options m Hm. unfold matched_rules_of in Hm.
  destruct (default [] (match_exact_rules r cmd)) as [|x l] eqn:Ex; simpl in Hm.
  - destruct (resolve_host_executables options) eqn:Ho; [|by apply elem_of_nil in Hm].
    destruct (host_match_kept r p cmd options m Hrules Hhost Ho Hm) as [Hov|Hin].
    + left. split; [by apply not_elem_of_nil|done].
    + right. by apply matched_rule_bounds.
  - right. apply matched_rule_bounds. rewrite <-Ex in Hm.
    assert (m ∈ default [] (match_exact_rules p cmd)) as Hin.
    { apply elem_of_exact in Hm as (f & args & rule & -> & Hrule & Hm). apply elem_of_exact.
      exists f, args, rule. split_and!; [done|by apply Hrules|done]. }
    unfold matched_rules_of. by destruct (default [] (match_exact_rules p cmd)); [apply elem_of_nil in Hin|].
Qed.
End load.

(** *** A broken project file *)

Definition broken_dirs : PolicyDirs := {|
  read_dir dir := Ok [Ok (mkEntry (dir ++ str "/default.rules") (Ok true))];
  read_to_string _ := Ok (str "prefix_rule(");
  path_extension _ := Some RULE_EXTENSION;
  path_leb _ _ := true;
|}.
Definition broken_evaluator : Evaluator :=
  {| parse_module _ _ := Err (Starlark None (inl (str "unexpected end")));
     module_error _ _ := None; failure_span _ := None |}.
Definition slash_paths : ShellPaths := {|
  path_parent _ := None; path_eqb := str_eqb; path_join a b := a ++ str "/" ++ b;
  system_root := None |}.

Lemma requirements_always_enforced_witness :
  let tools := unix_tools in
  let paths := slash_paths in
  let dirs := broken_dirs in
  let ev := broken_evaluator in
  let r := git_policy [forbid_push] in
  let s := mkStack [mkLayer (Project (str "/p/.codex")) false] false (Some r) in
  ∃ p w, load_exec_policy_with_warning s = Ok (p, w) ∧ is_Some w ∧
    ∀ prog, rules_of r prog ⊆ rules_of p prog.
Proof.
  intros tools paths dirs ev r s.
  assert (∃ p w, load_exec_policy_with_warning (H := tools) (H0 := paths) (H1 := dirs) (H2 := ev) s
    = Ok (p, w) ∧ is_Some w) as (p & w & Hl & Hw) by (vm_compute; eauto).
  exists p, w. split_and!; [exact Hl|exact Hw|].
  exact (proj1 (requirements_always_enforced (H := tools) (H0 := paths) (H1 := dirs) (H2 := ev)
    s r p w eq_refl Hl)).
Defined.

(** A rule for a path takes the place of a requirement for its base name: the
    requirements forbid [git push], and a rule of another layer allows
    [/usr/bin/git]. *)
Definition git_path : rstr := str "/usr/bin/git".
Definition allow_git_path : PrefixRule := mkRule (mkPattern git_path []) Allow None.
Definition user_policy : Policy := mkPolicy {[ git_path := [allow_git_path] ]} [] ∅.
Lemma path_rule_overrides_requirement :
  let tools := unix_tools in
  let options := mkMatchOptions true in
  let push := [git_path; str "push"] in
  let decision p := eval_decision <$> check_with_options p push (λ _, Prompt) options in
  decision (git_policy [forbid_push]) = Some Forbidden
  ∧ decision user_policy = Some Allow
  ∧ decision (merge_overlay user_policy (git_policy [forbid_push])) = Some Allow.
Proof. split_and!; vm_compute; reflexivity. Qed.
