(* ===== verification/InlineTag.v ===== *)
(** Streamed text and hidden inline tags: the chunk type and the parser trait of
    [utils/stream-parser/src/stream_text.rs], with what a parser owes its callers
    (the way a text is cut into chunks does not matter), and
    [utils/stream-parser/src/inline_hidden_tag.rs] and [citation.rs].

    Positions and lengths are counted in characters where the source counts
    bytes: all of them are offsets of one text at character boundaries, and the
    lengths that are compared are those of strings one of which is a prefix or
    a suffix of the other, so that the comparisons come out the same. *)

From S2P Require Import Prelude.

(** ** Chunks *)

Record StreamTextChunk (E : Type) := mkChunk { visible_text : rstr; extracted : list E }.
Arguments mkChunk {E}.
Arguments visible_text {E}.
Arguments extracted {E}.

(** [StreamTextChunk::default] *)
Definition chunk_default {E} : StreamTextChunk E := mkChunk [] [].
Definition chunk_is_empty {E} (c : StreamTextChunk E) : bool :=
  is_empty (visible_text c) && is_empty (extracted c).

(** A chunk followed by another: [visible_text.push_str(..)] and
    [extracted.extend(..)], as every caller collects them. *)
Definition chunk_app {E} (a b : StreamTextChunk E) : StreamTextChunk E :=
  mkChunk (visible_text a ++ visible_text b) (extracted a ++ extracted b).
Declare Scope stream_scope.
Delimit Scope stream_scope with stream.
Open Scope stream_scope.
Infix "⋅" := chunk_app (at level 50, left associativity) : stream_scope.

Definition map_chunk {E F} (f : E → F) (c : StreamTextChunk E) : StreamTextChunk F :=
  mkChunk (visible_text c) (f <$> extracted c).

Section chunks.
Context {E : Type}.
Implicit Types a b c : StreamTextChunk E.

#[global] Instance chunk_app_assoc : Assoc (=) (@chunk_app E).
Proof. intros a b c. unfold chunk_app. simpl. by rewrite !(assoc_L app). Qed.
#[global] Instance chunk_app_left_id : LeftId (=) chunk_default (@chunk_app E).
Proof. by intros []. Qed.
#[global] Instance chunk_app_right_id : RightId (=) chunk_default (@chunk_app E).
Proof. intros []. unfold chunk_app. simpl. by rewrite !app_nil_r. Qed.
End chunks.

Lemma map_chunk_app {E F} (f : E → F) a b : map_chunk f (a ⋅ b) = map_chunk f a ⋅ map_chunk f b.
Proof. unfold map_chunk, chunk_app. simpl. by rewrite fmap_app. Qed.

(** ** Parsers *)

(** The trait [StreamTextParser]. *)
Class StreamTextParser (P E : Type) := {
  push_str : P → rstr → P * StreamTextChunk E;
  finish_text : P → P * StreamTextChunk E;
}.

(** Pushing several chunks, and the whole stream with the final flush. *)
Fixpoint push_all `{StreamTextParser P E} (p : P) (chunks : list rstr) : P * StreamTextChunk E :=
  match chunks with
  | [] => (p, chunk_default)
  | c :: chunks' =>
      let '(p, o) := push_str p c in
      let '(p, o') := push_all p chunks' in
      (p, o ⋅ o')
  end.
Definition collect_chunks `{StreamTextParser P E} (p : P) (chunks : list rstr)
    : StreamTextChunk E :=
  let '(p, o) := push_all p chunks in
  o ⋅ (finish_text p).2.

(** What callers rely on: from a good state a parser has a meaning, what it
    gives for a whole text, and cutting the text anywhere and flushing at the
    end give that meaning, up to an equivalence of outputs that appending
    respects. *)
Class StreamTextLaws (P E : Type) `{StreamTextParser P E} := {
  stream_ok : P → Prop;
  whole : P → rstr → StreamTextChunk E;
  chunk_equiv : relation (StreamTextChunk E);
  #[global] chunk_equivalence :: Equivalence chunk_equiv;
  #[global] chunk_app_proper :: Proper (chunk_equiv ==> chunk_equiv ==> chunk_equiv) chunk_app;
  push_ok p s : stream_ok p → stream_ok (push_str p s).1;
  whole_push p s t : stream_ok p →
    chunk_equiv (whole p (s ++ t)) ((push_str p s).2 ⋅ whole (push_str p s).1 t);
  whole_finish p : stream_ok p → chunk_equiv (whole p []) (finish_text p).2;
}.

Section laws.
Context `{StreamTextLaws P E}.

Lemma push_all_cons (p : P) c cs :
  push_all p (c :: cs) =
  ((push_all (push_str p c).1 cs).1, (push_str p c).2 ⋅ (push_all (push_str p c).1 cs).2).
Proof. simpl. destruct (push_str p c) as [p1 o1]. simpl. by destruct (push_all p1 cs). Qed.

Lemma collect_cons (p : P) c cs :
  collect_chunks p (c :: cs) = (push_str p c).2 ⋅ collect_chunks (push_str p c).1 cs.
Proof.
  unfold collect_chunks. rewrite push_all_cons. destruct (push_all _ cs). simpl.
  by rewrite (assoc_L chunk_app).
Qed.

(** However a text is cut, the collected output is its meaning. *)
Lemma collect_whole (p : P) chunks :
  stream_ok p → chunk_equiv (collect_chunks p chunks) (whole p (concat chunks)).
Proof.
  revert p. induction chunks as [|c cs IH]; intros p Hp; simpl concat.
  - unfold collect_chunks. simpl. rewrite (left_id_L chunk_default _). by rewrite whole_finish.
  - rewrite collect_cons, whole_push by done. by rewrite IH by (by apply push_ok).
Qed.
End laws.

(** ** Hidden inline tags *)

#[local] Opaque str.

Record ExtractedInlineTag (T : Type) := mkExtracted { ex_tag : T; ex_content : rstr }.
Arguments mkExtracted {T}.
Arguments ex_tag {T}.
Arguments ex_content {T}.
Record InlineTagSpec (T : Type) := mkInlineSpec { spec_tag : T; spec_open : rstr; spec_close : rstr }.
Arguments mkInlineSpec {T}.
Arguments spec_tag {T}.
Arguments spec_open {T}.
Arguments spec_close {T}.
Record ActiveTag (T : Type) := mkActive { act_tag : T; act_close : rstr; act_content : rstr }.
Arguments mkActive {T}.
Arguments act_tag {T}.
Arguments act_close {T}.
Arguments act_content {T}.

Record InlineHiddenTagParser (T : Type) := mkInline {
  il_specs : list (InlineTagSpec T);
  il_pending : rstr;
  il_active : option (ActiveTag T);
}.
Arguments mkInline {T}.
Arguments il_specs {T}.
Arguments il_pending {T}.
Arguments il_active {T}.

(** [for k in (1..=max).rev() { if s.ends_with(&needle\[..k\]) { return k } } 0] *)
Fixpoint longest_from (k : nat) (s needle : rstr) : nat :=
  match k with
  | 0 => 0
  | S k' => if ends_with s (take k needle) then k else longest_from k' s needle
  end.
Definition longest_suffix_prefix_len (s needle : rstr) : nat :=
  longest_from (length s `min` (length needle - 1)) s needle.

Section inline.
Context {T : Type}.
Implicit Types (specs : list (InlineTagSpec T)).

(** [InlineHiddenTagParser::new]: [None] is a failed assertion. *)
Definition inline_new specs : option (InlineHiddenTagParser T) :=
  if is_empty specs then None
  else if existsb (λ s, is_empty (spec_open s)) specs then None
  else if existsb (λ s, is_empty (spec_close s)) specs then None
  else Some (mkInline specs [] None).

(** The candidate openers: position, length of the delimiter, index. *)
Definition candidate (text : rstr) (idx : nat) (s : InlineTagSpec T) : option (nat * nat * nat) :=
  (λ pos, (pos, length (spec_open s), idx)) <$> find_sub (spec_open s) text.
Definition candidates specs (text : rstr) : list (nat * nat * nat) :=
  omap id (imap (candidate text) specs).

(** [pos_a.cmp(pos_b).then(len_b.cmp(len_a)).then(idx_a.cmp(idx_b))] is not [Greater] *)
Definition before (a b : nat * nat * nat) : bool :=
  let '(pos_a, len_a, idx_a) := a in
  let '(pos_b, len_b, idx_b) := b in
  (pos_a <? pos_b)
  || (pos_a =? pos_b) && ((len_b <? len_a) || (len_b =? len_a) && (idx_a <=? idx_b)).
(** [Iterator::min_by] *)
Fixpoint min_before (l : list (nat * nat * nat)) : option (nat * nat * nat) :=
  match l with
  | [] => None
  | x :: l' =>
      match min_before l' with
      | None => Some x
      | Some y => if before x y then Some x else Some y
      end
  end.

Definition find_next_open specs (pending : rstr) : option (nat * nat) :=
  (λ '(pos, _, idx), (pos, idx)) <$> min_before (candidates specs pending).

Definition max_open_prefix_suffix_len specs (pending : rstr) : nat :=
  max_list ((λ s, longest_suffix_prefix_len pending (spec_open s)) <$> specs).

Abbreviation out := (StreamTextChunk (ExtractedInlineTag T)).
Definition show (text : rstr) : out := mkChunk text [].
Definition extract (a : ActiveTag T) (more : rstr) : out :=
  mkChunk [] [mkExtracted (act_tag a) (act_content a ++ more)].

(** The loop of [push_str]; every [continue] has consumed a delimiter, so that
    the length of the pending text bounds the number of rounds ([None] would be
    a loop that goes on). *)
Fixpoint push_loop (fuel : nat) specs (pending : rstr) (active : option (ActiveTag T))
    : option (rstr * option (ActiveTag T) * out) :=
  match fuel with
  | 0 => None
  | S fuel =>
      match active with
      | Some a =>
          match find_sub (act_close a) pending with
          | Some close_idx =>
              '(p, act, o) ←
                push_loop fuel specs (drop (close_idx + length (act_close a)) pending) None;
              Some (p, act, extract a (take close_idx pending) ⋅ o)
          | None =>
              let keep := longest_suffix_prefix_len pending (act_close a) in
              let n := length pending - keep in
              Some (drop n pending,
                    Some (mkActive (act_tag a) (act_close a) (act_content a ++ take n pending)),
                    chunk_default)
          end
      | None =>
          match find_next_open specs pending with
          | Some (open_idx, spec_idx) =>
              spec ← specs !! spec_idx;
              '(p, act, o) ←
                push_loop fuel specs (drop (open_idx + length (spec_open spec)) pending)
                  (Some (mkActive (spec_tag spec) (spec_close spec) []));
              Some (p, act, show (take open_idx pending) ⋅ o)
          | None =>
              let n := length pending - max_open_prefix_suffix_len specs pending in
              Some (drop n pending, None, show (take n pending))
          end
      end
  end.

Definition inline_push_str (p : InlineHiddenTagParser T) (chunk : rstr)
    : InlineHiddenTagParser T * out :=
  let pending := il_pending p ++ chunk in
  match push_loop (S (length pending)) (il_specs p) pending (il_active p) with
  | Some (pending, active, o) => (mkInline (il_specs p) pending active, o)
  | None => (p, chunk_default)
  end.

Definition inline_finish (p : InlineHiddenTagParser T) : InlineHiddenTagParser T * out :=
  match il_active p with
  | Some a => (mkInline (il_specs p) [] None, extract a (il_pending p))
  | None => (mkInline (il_specs p) [] None, show (il_pending p))
  end.

#[global] Instance inline_parser : StreamTextParser (InlineHiddenTagParser T) (ExtractedInlineTag T) :=
  {| push_str := inline_push_str; finish_text := inline_finish |}.
End inline.

(** ** Citations *)

Inductive CitationTag := Citation.

Definition CITATION_OPEN : rstr := str "<oai-mem-citation>".
Definition CITATION_CLOSE : rstr := str "</oai-mem-citation>".
Definition citation_specs : list (InlineTagSpec CitationTag) :=
  [mkInlineSpec Citation CITATION_OPEN CITATION_CLOSE].

Record CitationStreamParser := mkCitation { citation_inner : InlineHiddenTagParser CitationTag }.
(** The assertions of the inner [new] hold for these delimiters. *)
Definition citation_new : CitationStreamParser := mkCitation (mkInline citation_specs [] None).

Definition citation_push_str (p : CitationStreamParser) (chunk : rstr)
    : CitationStreamParser * StreamTextChunk rstr :=
  let '(inner, o) := push_str (citation_inner p) chunk in
  (mkCitation inner, map_chunk ex_content o).
Definition citation_finish (p : CitationStreamParser) : CitationStreamParser * StreamTextChunk rstr :=
  let '(inner, o) := finish_text (citation_inner p) in
  (mkCitation inner, map_chunk ex_content o).
#[global] Instance citation_parser : StreamTextParser CitationStreamParser rstr :=
  {| push_str := citation_push_str; finish_text := citation_finish |}.

Definition strip_citations (text : rstr) : rstr * list rstr :=
  let '(p, o) := push_str citation_new text in
  let '(_, tail) := finish_text p in
  (visible_text o ++ visible_text tail, extracted o ++ extracted tail).

Example strip_two :
  strip_citations (str "a<oai-mem-citation>one</oai-mem-citation>b<oai-mem-citation>two")
  = (str "ab", [str "one"; str "two"]).
Proof. vm_compute. reflexivity. Qed.
Example streams_across_boundaries :
  collect_chunks citation_new
    [str "Hello <oai-mem-"; str "citation>source A</oai-mem-"; str "citation> world"]
  = mkChunk (str "Hello  world") [str "source A"].
Proof. vm_compute. reflexivity. Qed.
