(* ===== verification/InlineTagProps.v ===== *)
(** The streaming tag parser against a scan of the whole text. The reference
    [scan] reads the complete text once, from the left, one character at a time;
    the parser sees it in chunks, looks for delimiters with [find] and keeps back
    a suffix that may become one. *)

From S2P Require Import Prelude InlineTag.

(** ** Occurrences of a delimiter *)

Lemma find_sub_Some needle s i :
  find_sub needle s = Some i →
  starts_with (drop i s) needle = true ∧ ∀ j, j < i → starts_with (drop j s) needle = false.
Proof.
  revert i. induction s as [|x s IH]; intros i; simpl find_sub; case_match eqn:Hs; intros [=].
  - subst. split; [done | lia].
  - subst. split; [done | lia].
  - destruct (find_sub needle s) as [k|] eqn:Hk; simplify_eq/=.
    destruct (IH k eq_refl) as [Ha Hb]. split; [done|]. intros [|j] Hj; [done|].
    apply Hb. lia.
Qed.

Lemma find_sub_None needle s :
  find_sub needle s = None → ∀ j, starts_with (drop j s) needle = false.
Proof.
  induction s as [|x s IH]; simpl find_sub; case_match eqn:Hs; intros [=] j.
  - by rewrite drop_nil.
  - destruct (find_sub needle s) eqn:Hk; [done|]. destruct j; [done | by apply IH].
Qed.

Lemma starts_with_app s t n : starts_with s n = true → starts_with (s ++ t) n = true.
Proof. rewrite !starts_with_true. intros [u ->]. exists (u ++ t). by rewrite <- (assoc_L app). Qed.

Lemma starts_with_length s n : starts_with s n = true → length n ≤ length s.
Proof. rewrite starts_with_true. intros [u ->]. rewrite length_app. lia. Qed.

Lemma starts_with_long s t n :
  length n ≤ length s → starts_with (s ++ t) n = true → starts_with s n = true.
Proof.
  intros Hn. rewrite !starts_with_true. intros [u Hu].
  exists (drop (length n) s). rewrite <- (take_drop (length n) s) at 1. f_equal.
  apply (f_equal (take (length n))) in Hu. by rewrite take_app_le, take_app_length in Hu.
Qed.

Lemma longest_from_max m k s needle :
  k ≤ m → ends_with s (take k needle) = true → k ≤ longest_from m s needle.
Proof.
  induction m as [|m IH]; intros Hk He; [simpl; lia|]. cbn [longest_from].
  destruct (decide (k = S m)) as [->|]; [by rewrite He|]. case_match; [lia|]. apply IH; [lia|done].
Qed.

Lemma longest_from_le m s needle : longest_from m s needle ≤ m.
Proof. induction m; cbn [longest_from]; [done|]. case_match; lia. Qed.

(** A delimiter that starts in [p] and is not complete there is one of which
    [p] ends with a proper prefix: what the parser keeps back covers it. *)
Lemma partial_match needle p rest j :
  j < length p → starts_with (drop j (p ++ rest)) needle = true →
  starts_with (drop j p) needle = false → length p - j ≤ longest_suffix_prefix_len p needle.
Proof.
  intros Hj Hs Hp. rewrite drop_app_le in Hs by lia.
  assert (Hlen : length (drop j p) = length p - j) by apply length_drop.
  assert (Hlt : length p - j < length needle).
  { destruct (decide (length needle ≤ length p - j)); [|lia].
    rewrite (starts_with_long _ rest) in Hp; [done | lia | done]. }
  rewrite <- Hlen. apply longest_from_max; [lia|]. apply ends_with_true.
  exists (take j p). rewrite <- (take_drop j p) at 1. f_equal.
  apply starts_with_true in Hs as [u Hu]. apply (f_equal (take (length (drop j p)))) in Hu.
  rewrite take_app_length, take_app_le in Hu; [done | lia].
Qed.

(** ** The reference *)

Section reference.
Context {T : Type}.
Implicit Types (specs : list (InlineTagSpec T)) (a : ActiveTag T).

(** The specification with the longest opener at the head of a text, the first one
    of those that are equally long. *)
Fixpoint opens_at specs (t : rstr) : option (InlineTagSpec T) :=
  match specs with
  | [] => None
  | s :: specs' =>
      match opens_at specs' t with
      | Some s' =>
          if starts_with t (spec_open s) && (length (spec_open s') <=? length (spec_open s)) then Some s else Some s'
      | None => if starts_with t (spec_open s) then Some s else None
      end
  end.

Definition add_content a (x : rstr) : ActiveTag T :=
  mkActive (act_tag a) (act_close a) (act_content a ++ x).

(** [skip] characters of a delimiter that was recognised are still to be read. *)
Fixpoint scan specs (skip : nat) (active : option (ActiveTag T)) (t : rstr)
    : StreamTextChunk (ExtractedInlineTag T) :=
  match t with
  | [] => match active with Some a => extract a [] | None => chunk_default end
  | x :: t' =>
      match skip with
      | S k => scan specs k active t'
      | 0 =>
          match active with
          | Some a =>
              if starts_with t (act_close a)
              then extract a [] ⋅ scan specs (length (act_close a) - 1) None t'
              else scan specs 0 (Some (add_content a [x])) t'
          | None =>
              match opens_at specs t with
              | Some s =>
                  scan specs (length (spec_open s) - 1)
                    (Some (mkActive (spec_tag s) (spec_close s) [])) t'
              | None => show [x] ⋅ scan specs 0 None t'
              end
          end
      end
  end.

(** Delimiters that [new] accepts, no opener inside another one. *)
Definition delims_ok specs : Prop := Forall (λ s, spec_open s ≠ [] ∧ spec_close s ≠ []) specs.
Definition no_nesting specs : Prop :=
  ∀ s s' u v, s ∈ specs → s' ∈ specs → spec_open s' = u ++ spec_open s ++ v → u = [] ∧ v = [].
Definition specs_ok specs : Prop := delims_ok specs ∧ no_nesting specs.
Definition active_ok (active : option (ActiveTag T)) : Prop :=
  ∀ a, active = Some a → act_close a ≠ [].

(** ** Reading several characters at once *)

Lemma scan_skip specs k active t : scan specs k active t = scan specs 0 active (drop k t).
Proof.
  revert k. induction t as [|x t IH]; intros [|k]; try done. cbn [scan drop]. by rewrite IH.
Qed.

Lemma scan_close specs a t u :
  act_close a ≠ [] → t = act_close a ++ u →
  scan specs 0 (Some a) t = extract a [] ⋅ scan specs 0 None u.
Proof.
  intros Hne ->. destruct (act_close a) as [|c cs] eqn:Hc; [done|]. rewrite <- app_comm_cons.
  cbn [scan]. rewrite Hc.
  replace (starts_with _ _) with true by (symmetry; apply starts_with_true; by exists u).
  rewrite scan_skip. simpl length. by rewrite Nat.sub_1_r, Nat.pred_succ, drop_app_length.
Qed.

Lemma scan_content specs a n t :
  n ≤ length t → (∀ j, j < n → starts_with (drop j t) (act_close a) = false) →
  scan specs 0 (Some a) t = scan specs 0 (Some (add_content a (take n t))) (drop n t).
Proof.
  revert a t. induction n as [|n IH]; intros a t Hn Ho.
  { rewrite take_0, drop_0. unfold add_content. rewrite app_nil_r. by destruct a. }
  destruct t as [|x t]; [simpl in Hn; lia|]. cbn [scan].
  specialize (Ho 0 ltac:(lia)) as H0. simpl drop in H0. rewrite H0. rewrite IH.
  - simpl. unfold add_content. simpl. by rewrite <- (assoc_L app).
  - simpl in Hn. lia.
  - intros j Hj. apply (Ho (S j)). lia.
Qed.

Lemma scan_open specs s t u :
  spec_open s ≠ [] → t = spec_open s ++ u → opens_at specs t = Some s →
  scan specs 0 None t = scan specs 0 (Some (mkActive (spec_tag s) (spec_close s) [])) u.
Proof.
  intros Hne -> Ho. destruct (spec_open s) as [|c cs] eqn:Hc; [done|]. rewrite <- app_comm_cons in *.
  cbn [scan]. rewrite Ho, Hc, scan_skip. simpl length.
  by rewrite Nat.sub_1_r, Nat.pred_succ, drop_app_length.
Qed.

Lemma scan_plain specs n t :
  n ≤ length t → (∀ j, j < n → opens_at specs (drop j t) = None) →
  scan specs 0 None t = show (take n t) ⋅ scan specs 0 None (drop n t).
Proof.
  revert t. induction n as [|n IH]; intros t Hn Ho.
  { rewrite take_0, drop_0. by destruct (scan specs 0 None t). }
  destruct t as [|x t]; [simpl in Hn; lia|]. cbn [scan].
  specialize (Ho 0 ltac:(lia)) as H0. simpl drop in H0. rewrite H0. rewrite (IH t).
  - by rewrite (assoc_L chunk_app).
  - simpl in Hn. lia.
  - intros j Hj. apply (Ho (S j)). lia.
Qed.

(** ** The next opener *)

Lemma opens_at_None specs t :
  opens_at specs t = None ↔ ∀ s, s ∈ specs → starts_with t (spec_open s) = false.
Proof.
  induction specs as [|s specs IH]; [split; [set_solver|done]|]. simpl.
  destruct (opens_at specs t) as [s'|].
  - destruct IH as [_ IH]. split; [by case_match|]. intros Ho. discriminate IH. intros x Hx. apply Ho. by right.
  - destruct (starts_with t (spec_open s)) eqn:E.
    + split; [done|]. intros Ho. rewrite (Ho s) in E; [done|left].
    + split; [|done]. intros _ x [->|Hx]%elem_of_cons; [done|]. by apply IH.
Qed.
Lemma opens_at_Some specs t idx s :
  specs !! idx = Some s → starts_with t (spec_open s) = true →
  (∀ idx' s', specs !! idx' = Some s' → starts_with t (spec_open s') = true →
     length (spec_open s') < length (spec_open s) ∨ length (spec_open s') = length (spec_open s) ∧ idx ≤ idx') →
  opens_at specs t = Some s.
Proof.
  revert idx. induction specs as [|x specs IH]; intros [|idx] Hs Ht Hmax; [done..| |]; simpl in *.
  - injection Hs as ->. rewrite Ht. destruct (opens_at specs t) as [s'|] eqn:E; [|done]. simpl.
    assert (s' ∈ specs ∧ starts_with t (spec_open s') = true) as [[idx' Hs']%list_elem_of_lookup Ht'].
    { clear -E. revert s' E. induction specs as [|y specs IH]; [done|]. intros s'. simpl.
      destruct (opens_at specs t) as [z|]; [|destruct (starts_with t (spec_open y)) eqn:Ey; [intros [= ->]; set_solver|done]].
      destruct (starts_with t (spec_open y)) eqn:Ey; simpl; [case_match; [intros [= ->]; set_solver|]|];
        intros [= ->]; destruct (IH _ eq_refl); set_solver. }
    specialize (Hmax (S idx') s' Hs' Ht'). by rewrite leb_correct by lia.
  - rewrite (IH idx); [|done..|].
    + destruct (starts_with t (spec_open x)) eqn:Ex; [|done]. specialize (Hmax 0 x eq_refl Ex).
      simpl. by rewrite leb_correct_conv by lia.
    + intros idx' s' Hs' Ht'. specialize (Hmax (S idx') s' Hs' Ht'). lia.
Qed.

Lemma before_true pa la ia pb lb ib :
  before (pa, la, ia) (pb, lb, ib) = true ↔
  pa < pb ∨ pa = pb ∧ (lb < la ∨ lb = la ∧ ia ≤ ib).
Proof.
  unfold before. by rewrite orb_true_iff, andb_true_iff, orb_true_iff, andb_true_iff,
    !Nat.ltb_lt, !Nat.eqb_eq, Nat.leb_le.
Qed.
Lemma before_total x y : before x y = true ∨ before y x = true.
Proof. destruct x as [[a b] c], y as [[a' b'] c']. rewrite !before_true. lia. Qed.
Lemma before_trans x y z : before x y = true → before y z = true → before x z = true.
Proof.
  destruct x as [[a b] c], y as [[a' b'] c'], z as [[a'' b''] c'']. rewrite !before_true. lia.
Qed.

Lemma min_before_None l : min_before l = None → l = [].
Proof. destruct l as [|x l]; [done|]. simpl. repeat case_match; done. Qed.
Lemma min_before_Some l x :
  min_before l = Some x → x ∈ l ∧ ∀ y, y ∈ l → before x y = true.
Proof.
  revert x. induction l as [|z l IH]; [done|]. intros x. simpl.
  destruct (min_before l) as [m|] eqn:Hm.
  - destruct (IH m eq_refl) as [Hin Hle]. case_match eqn:Hb; intros [= <-].
    + split; [set_solver|]. intros y Hy. apply elem_of_cons in Hy as [Hy|Hy].
      * subst y. by destruct (before_total z z).
      * by eapply before_trans, Hle.
    + split; [set_solver|]. intros y Hy. apply elem_of_cons in Hy as [Hy|Hy]; [|by apply Hle].
      subst y. destruct (before_total z m); congruence.
  - intros [= <-]. apply min_before_None in Hm as ->. split; [set_solver|].
    intros y Hy. apply list_elem_of_singleton in Hy as ->. by destruct (before_total z z).
Qed.

Lemma elem_of_candidates specs text pos len idx :
  (pos, len, idx) ∈ candidates specs text ↔
  ∃ s, specs !! idx = Some s ∧ len = length (spec_open s) ∧ find_sub (spec_open s) text = Some pos.
Proof.
  unfold candidates. rewrite list_elem_of_omap. split.
  - intros (o & Ho & Hid). simpl in Hid. subst o. apply elem_of_lookup_imap in Ho as (i & s & He & Hs).
    symmetry in He. apply fmap_Some in He as (q & Hq & [= -> -> ->]). by exists s.
  - intros (s & Hs & -> & Hf). exists (Some (pos, length (spec_open s), idx)). split; [|done].
    apply elem_of_lookup_imap. exists idx, s. unfold candidate. by rewrite Hf.
Qed.

Lemma find_next_open_None specs p s :
  find_next_open specs p = None → s ∈ specs → find_sub (spec_open s) p = None.
Proof.
  unfold find_next_open. rewrite fmap_None. intros Hm%min_before_None [idx Hs]%list_elem_of_lookup.
  destruct (find_sub _ p) as [pos|] eqn:Hf; [|done].
  assert (H : (pos, length (spec_open s), idx) ∈ candidates specs p)
    by (apply elem_of_candidates; by exists s).
  rewrite Hm in H. by apply not_elem_of_nil in H.
Qed.

Lemma find_next_open_Some specs p i idx :
  find_next_open specs p = Some (i, idx) →
  ∃ s, specs !! idx = Some s ∧ find_sub (spec_open s) p = Some i ∧
    ∀ idx' s' j, specs !! idx' = Some s' → find_sub (spec_open s') p = Some j →
      i < j ∨ i = j ∧ (length (spec_open s') < length (spec_open s) ∨
                       length (spec_open s') = length (spec_open s) ∧ idx ≤ idx').
Proof.
  unfold find_next_open. intros ([[i' len] idx'] & Hm & [= -> ->])%fmap_Some.
  apply min_before_Some in Hm as [Hin Hle].
  apply elem_of_candidates in Hin as (s & Hs & -> & Hf). exists s. split_and!; [done..|].
  intros idx2 s2 j Hs2 Hj. apply before_true, Hle, elem_of_candidates. by exists s2.
Qed.

(** Of two delimiters that begin at positions [j ≤ i] of one text, the first one
    ending later, the second is inside the first. *)
Lemma inside_of (t n n' : rstr) i j :
  j ≤ i → i + length n ≤ j + length n' →
  starts_with (drop i t) n = true → starts_with (drop j t) n' = true →
  ∃ u v, n' = u ++ n ++ v ∧ length u = i - j.
Proof.
  intros Hij Hlen [v Hv]%starts_with_true [w Hw]%starts_with_true.
  replace i with (j + (i - j)) in Hv by lia. rewrite <- drop_drop, Hw, drop_app_le in Hv by lia.
  exists (take (i - j) n'), (drop (length n) (drop (i - j) n')). split; [|rewrite length_take; lia].
  rewrite <- (take_drop (i - j) n') at 1. f_equal.
  rewrite <- (take_drop (length n) (drop (i - j) n')) at 1. f_equal.
  apply (f_equal (take (length n))) in Hv. rewrite take_app_length, take_app_le in Hv; [done|].
  rewrite length_drop. lia.
Qed.

Lemma find_sub_first needle p j :
  starts_with (drop j p) needle = true → ∃ k, find_sub needle p = Some k ∧ k ≤ j.
Proof.
  intros Hj. destruct (find_sub needle p) as [k|] eqn:Hk.
  - exists k. split; [done|]. destruct (find_sub_Some _ _ _ Hk) as [_ Hb].
    destruct (decide (k ≤ j)); [done|]. rewrite Hb in Hj; [done | lia].
  - by rewrite find_sub_None in Hj.
Qed.

Lemma find_sub_fits needle p i : find_sub needle p = Some i → i + length needle ≤ length p.
Proof.
  revert i. induction p as [|x p IH]; intros i; simpl find_sub; case_match eqn:Hs; intros [=];
    try (subst; apply starts_with_length in Hs; simpl in *; lia).
  destruct (find_sub needle p) as [k|]; simplify_eq/=. specialize (IH k eq_refl). lia.
Qed.

(** What is found first in the pending text is what comes first in the whole, when
    nothing is to come or no opener contains another. *)
Lemma next_open_first specs p i idx s rest :
  rest = [] ∨ no_nesting specs → find_next_open specs p = Some (i, idx) → specs !! idx = Some s →
  (∀ j, j < i → opens_at specs (drop j (p ++ rest)) = None) ∧
  opens_at specs (drop i (p ++ rest)) = Some s.
Proof.
  intros Hok Hn Hs. apply find_next_open_Some in Hn as (s0 & Hs0 & Hf & Hmin).
  rewrite Hs in Hs0. injection Hs0 as <-. apply find_sub_fits in Hf as Hfit.
  destruct (find_sub_Some _ _ _ Hf) as [Hat _].
  assert (Hin : s ∈ specs) by (by eapply list_elem_of_lookup_2).
  assert (Hat' : starts_with (drop i (p ++ rest)) (spec_open s) = true)
    by (rewrite drop_app_le by lia; by apply starts_with_app).
  (* an opener that starts no later is complete in the pending text *)
  assert (∀ j s', j ≤ i → s' ∈ specs → starts_with (drop j (p ++ rest)) (spec_open s') = true →
            starts_with (drop j p) (spec_open s') = true) as Hfits.
  { intros j s' Hj Hs' Hm. rewrite drop_app_le in Hm by lia.
    destruct (decide (j + length (spec_open s') ≤ length p));
      [apply starts_with_long in Hm; [done|rewrite length_drop; lia]|].
    destruct Hok as [->|Hok]; [by rewrite app_nil_r in Hm|].
    destruct (inside_of (p ++ rest) (spec_open s) (spec_open s') i j) as (u & v & Huv & Hu);
      [lia | lia | done | by rewrite drop_app_le by lia |].
    apply Hok in Huv as Huv'; [|done..]. destruct Huv' as [-> ->]. rewrite app_nil_r in Huv. simpl in *.
    rewrite Huv in *. lia. }
  split.
  - intros j Hj. apply opens_at_None. intros s' Hs'. apply not_true_is_false. intros Hm.
    apply Hfits in Hm; [|lia|done].
    apply find_sub_first in Hm as (k & Hk & Hkj). apply list_elem_of_lookup in Hs' as [idx' Hs'].
    specialize (Hmin _ _ _ Hs' Hk). lia.
  - apply (opens_at_Some _ _ idx); [done..|]. intros idx' s' Hs' Hm.
    apply Hfits in Hm; [|done|by eapply list_elem_of_lookup_2].
    apply find_sub_first in Hm as (k & Hk & Hkj). specialize (Hmin _ _ _ Hs' Hk). lia.
Qed.

(** ** The loop *)

Lemma max_open_prefix_suffix_le specs p s :
  s ∈ specs → longest_suffix_prefix_len p (spec_open s) ≤ max_open_prefix_suffix_len specs p.
Proof. intros Hs. apply max_list_elem_of_le. apply list_elem_of_fmap. by exists s. Qed.

(** The position of the next opener is in range: [push_loop] never looks up a
    specification that does not exist, and every round shortens the text. *)
Lemma push_loop_total fuel specs p active :
  delims_ok specs → active_ok active → length p < fuel →
  ∃ r, push_loop fuel specs p active = Some r.
Proof.
  intros Hne. revert p active. induction fuel as [|fuel IH]; intros p active Ha Hf; [lia|].
  cbn [push_loop]. destruct active as [a|].
  - destruct (find_sub (act_close a) p) as [i|] eqn:Hi; [|by eexists].
    assert (Hc : act_close a ≠ []) by (by apply Ha). apply find_sub_fits in Hi.
    destruct (IH (drop (i + length (act_close a)) p) None) as [[[p' a'] o] ->]; [done| |by eexists].
    rewrite length_drop. destruct (act_close a); [done|]. simpl in *. lia.
  - destruct (find_next_open specs p) as [[i idx]|] eqn:Hn; [|by eexists].
    apply find_next_open_Some in Hn as (s & Hs & Hi & _). rewrite Hs.
    pose proof (Forall_lookup_1 _ _ _ _ Hne Hs) as [Ho Hc]. apply find_sub_fits in Hi. simpl.
    destruct (IH (drop (i + length (spec_open s)) p)
                (Some (mkActive (spec_tag s) (spec_close s) []))) as [[[p' a'] o] ->];
      [by intros a [= <-] | | by eexists].
    rewrite length_drop. destruct (spec_open s); [done|]. simpl in *. lia.
Qed.

(** A delimiter that begins before the part kept back would have been found. *)
Lemma kept_covers needle p rest j keep :
  find_sub needle p = None → longest_suffix_prefix_len p needle ≤ keep →
  j < length p - keep → starts_with (drop j (p ++ rest)) needle = false.
Proof.
  intros Hf Hk Hj. apply not_true_is_false. intros Hm.
  pose proof (partial_match needle p rest j ltac:(lia) Hm (find_sub_None _ _ Hf j)). lia.
Qed.

(** The four rounds of the loop, as steps of the scan. *)
Lemma scan_found_close specs a p i rest :
  act_close a ≠ [] → find_sub (act_close a) p = Some i →
  scan specs 0 (Some a) (p ++ rest) =
  extract a (take i p) ⋅ scan specs 0 None (drop (i + length (act_close a)) p ++ rest).
Proof.
  intros Hc Hi. apply find_sub_fits in Hi as Hfit. destruct (find_sub_Some _ _ _ Hi) as [Hat Hb].
  rewrite (scan_content specs a i).
  2: { rewrite length_app. lia. }
  2: { intros j Hj. apply not_true_is_false. rewrite drop_app_le by lia. intros Hm.
       apply starts_with_long in Hm; [|rewrite length_drop; lia]. by rewrite Hb in Hm. }
  rewrite take_app_le, drop_app_le by lia. apply starts_with_true in Hat as [u Hu].
  rewrite (scan_close _ _ _ (u ++ rest)); [|done|by rewrite Hu, <- (assoc_L app)].
  rewrite <- drop_drop, Hu, drop_app_length. unfold extract. simpl. by rewrite app_nil_r.
Qed.

Lemma scan_kept_close specs a p rest :
  find_sub (act_close a) p = None →
  let n := length p - longest_suffix_prefix_len p (act_close a) in
  scan specs 0 (Some a) (p ++ rest) =
  scan specs 0 (Some (add_content a (take n p))) (drop n p ++ rest).
Proof.
  intros Hf n. rewrite (scan_content specs a n).
  - by rewrite take_app_le, drop_app_le by (unfold n; lia).
  - rewrite length_app. unfold n. lia.
  - intros j Hj. by eapply kept_covers.
Qed.

Lemma scan_found_open specs p i idx s rest :
  delims_ok specs → rest = [] ∨ no_nesting specs →
  find_next_open specs p = Some (i, idx) → specs !! idx = Some s →
  scan specs 0 None (p ++ rest) =
  show (take i p) ⋅
  scan specs 0 (Some (mkActive (spec_tag s) (spec_close s) []))
    (drop (i + length (spec_open s)) p ++ rest).
Proof.
  intros Hne Hok Hn Hs. pose proof (Forall_lookup_1 _ _ _ _ Hne Hs) as [Ho _].
  destruct (next_open_first _ _ _ _ _ rest Hok Hn Hs) as [Hb Hat].
  apply find_next_open_Some in Hn as (s0 & Hs0 & Hi & _). rewrite Hs in Hs0. injection Hs0 as <-.
  apply find_sub_fits in Hi as Hfit. destruct (find_sub_Some _ _ _ Hi) as [[u Hu]%starts_with_true _].
  rewrite (scan_plain specs i); [|rewrite length_app; lia | done].
  rewrite take_app_le, drop_app_le in * by lia.
  rewrite (scan_open _ s _ (u ++ rest)); [|done|by rewrite Hu, <- (assoc_L app)|done].
  by rewrite <- drop_drop, Hu, drop_app_length.
Qed.

Lemma scan_kept_open specs p rest :
  find_next_open specs p = None →
  let n := length p - max_open_prefix_suffix_len specs p in
  scan specs 0 None (p ++ rest) = show (take n p) ⋅ scan specs 0 None (drop n p ++ rest).
Proof.
  intros Hn n. rewrite (scan_plain specs n).
  - by rewrite take_app_le, drop_app_le by (unfold n; lia).
  - rewrite length_app. unfold n. lia.
  - intros j Hj. apply opens_at_None. intros s Hs.
    eapply kept_covers; [by eapply find_next_open_None | by apply max_open_prefix_suffix_le | done].
Qed.

(** No complete delimiter is pending. *)
Definition quiet specs (active : option (ActiveTag T)) (p : rstr) : Prop :=
  match active with
  | Some a => ∀ j, starts_with (drop j p) (act_close a) = false
  | None => ∀ j, opens_at specs (drop j p) = None
  end.

Lemma quiet_drop specs active n p : quiet specs active p → quiet specs active (drop n p).
Proof. destruct active; simpl; intros H j; rewrite drop_drop; apply H. Qed.

Lemma quiet_open specs p : find_next_open specs p = None → quiet specs None p.
Proof.
  intros Hn j. apply opens_at_None. intros s Hs. apply find_sub_None. by eapply find_next_open_None.
Qed.

(** One run of the loop does a part of the scan. *)
Lemma push_loop_scan fuel specs p active p' active' o rest :
  delims_ok specs → rest = [] ∨ no_nesting specs → active_ok active →
  push_loop fuel specs p active = Some (p', active', o) →
  active_ok active' ∧ quiet specs active' p' ∧
  scan specs 0 active (p ++ rest) = o ⋅ scan specs 0 active' (p' ++ rest).
Proof.
  intros Hne Hok. revert p active o. induction fuel as [|fuel IH]; intros p active o Ha; [done|].
  cbn [push_loop]. destruct active as [a|].
  - destruct (find_sub (act_close a) p) as [i|] eqn:Hi.
    + intros ([[p1 a1] o1] & Hl & [= -> -> <-])%bind_Some. apply IH in Hl as (Hact & Hq & Hscan); [|done].
      split_and!; [done..|]. rewrite (scan_found_close _ _ _ i), Hscan by auto.
      by rewrite (assoc_L chunk_app).
    + intros [= <- <- <-]. split_and!; [intros ? [= <-]; exact (Ha a eq_refl) | |].
      * intros j. rewrite drop_drop. by apply find_sub_None.
      * rewrite scan_kept_close by done. by rewrite (left_id_L chunk_default chunk_app).
  - destruct (find_next_open specs p) as [[i idx]|] eqn:Hn.
    + intros (s & Hs & ([[p1 a1] o1] & Hl & [= -> -> <-])%bind_Some)%bind_Some.
      apply IH in Hl as (Hact & Hq & Hscan).
      * split_and!; [done..|]. erewrite scan_found_open, Hscan by done. by rewrite (assoc_L chunk_app).
      * intros ? [= <-]. apply (Forall_lookup_1 _ _ _ _ Hne Hs).
    + intros [= <- <- <-]. split_and!; [done | by apply quiet_drop, quiet_open |].
      by apply scan_kept_open.
Qed.

(** ** The parser *)

Record inline_ok (p : InlineHiddenTagParser T) : Prop := {
  ok_specs : specs_ok (il_specs p);
  ok_active : active_ok (il_active p);
  ok_quiet : quiet (il_specs p) (il_active p) (il_pending p);
}.

Lemma inline_push_spec p s t :
  inline_ok p →
  inline_ok (inline_push_str p s).1 ∧ il_specs (inline_push_str p s).1 = il_specs p ∧
  scan (il_specs p) 0 (il_active p) (il_pending p ++ s ++ t) =
  (inline_push_str p s).2 ⋅
  scan (il_specs p) 0 (il_active (inline_push_str p s).1) (il_pending (inline_push_str p s).1 ++ t).
Proof.
  intros [[Hne Hinf] Ha Hq]. unfold inline_push_str.
  destruct (push_loop_total (S (length (il_pending p ++ s))) (il_specs p) (il_pending p ++ s)
              (il_active p)) as [[[p' a'] o] Hl]; [done..|lia|]. rewrite Hl. simpl.
  eapply (push_loop_scan _ _ _ _ _ _ _ t) in Hl as (H1 & H2 & H3); [|done|by right|done].
  split_and!; [by constructor | done |]. by rewrite (assoc_L app).
Qed.

Lemma inline_finish_spec p :
  quiet (il_specs p) (il_active p) (il_pending p) → scan (il_specs p) 0 (il_active p) (il_pending p) = (inline_finish p).2.
Proof.
  intros Hq. unfold inline_finish. destruct (il_active p) as [a|]; simpl in *.
  - rewrite (scan_content _ a (length (il_pending p))) by auto.
    rewrite take_ge, drop_all by done. simpl. unfold extract. simpl. by rewrite app_nil_r.
  - rewrite (scan_plain _ (length (il_pending p))) by auto.
    rewrite take_ge, drop_all by done. simpl. by rewrite (right_id_L chunk_default chunk_app).
Qed.

#[export] Program Instance inline_laws :
    StreamTextLaws (InlineHiddenTagParser T) (ExtractedInlineTag T) := {|
  stream_ok := inline_ok;
  whole p t := scan (il_specs p) 0 (il_active p) (il_pending p ++ t);
  chunk_equiv := (=);
|}.
Next Obligation. intros p s Hp. by apply (inline_push_spec p s []). Qed.
Next Obligation.
  intros p s t Hp. simpl. destruct (inline_push_spec p s t Hp) as (_ & -> & H). exact H.
Qed.
Next Obligation. intros p [_ _ Hq]. simpl. rewrite app_nil_r. by apply inline_finish_spec. Qed.

Lemma inline_new_delims specs p : inline_new specs = Some p → p = mkInline specs [] None ∧ delims_ok specs.
Proof.
  unfold inline_new. case_match; [done|]. case_match eqn:Ho; [done|]. case_match eqn:Hc; [done|].
  intros [= <-]. split; [done|]. apply Forall_forall. intros s Hs. apply list_elem_of_In in Hs.
  split; intros He; apply not_true_iff_false in Ho; apply not_true_iff_false in Hc;
    [apply Ho | apply Hc]; apply existsb_exists; exists s; by rewrite He.
Qed.
Lemma inline_new_ok specs p :
  inline_new specs = Some p → no_nesting specs → p = mkInline specs [] None ∧ inline_ok p.
Proof.
  intros [-> Hne]%inline_new_delims Hinf. split; [done|].
  constructor; simpl; [done | done |]. intros j. apply opens_at_None. intros s Hs.
  rewrite drop_nil. apply not_true_is_false. intros [u Hu]%starts_with_true.
  pose proof (proj1 (Forall_forall _ _) Hne s Hs) as [He _]. by destruct (spec_open s).
Qed.
(** One chunk is scanned whatever the openers are. *)
Lemma inline_one_chunk specs t :
  delims_ok specs → collect_chunks (mkInline specs [] None) [t] = scan specs 0 None t.
Proof.
  intros Hne. unfold collect_chunks. cbn [push_all push_str inline_parser]. unfold inline_push_str.
  cbn [il_pending il_specs il_active app].
  destruct (push_loop_total (S (length t)) specs t None) as [[[p' a'] o] Hl]; [done..|lia|]. rewrite Hl.
  eapply (push_loop_scan _ _ _ _ _ _ _ []) in Hl as (_ & Hq & Hscan); [|done|by left|done].
  rewrite !app_nil_r in Hscan. rewrite Hscan, (right_id_L chunk_default chunk_app). f_equal.
  symmetry. exact (inline_finish_spec (mkInline specs p' a') Hq).
Qed.
End reference.

(** The loop of [push_str] ends: the fuel that the model gives it, one round
    more than there are pending characters, is enough from every state the
    parser can be in, and leads to such a state. *)
Theorem inline_push_terminates {T} (p : InlineHiddenTagParser T) chunk :
  inline_ok p →
  ∃ pending active o,
    push_loop (S (length (il_pending p ++ chunk))) (il_specs p) (il_pending p ++ chunk)
      (il_active p) = Some (pending, active, o) ∧
    inline_push_str p chunk = (mkInline (il_specs p) pending active, o) ∧
    inline_ok (mkInline (il_specs p) pending active).
Proof.
  intros Hp. pose proof (inline_push_spec p chunk [] Hp) as (Hok & _).
  destruct Hp as [[Hs _] Ha Hq]. unfold inline_push_str in *.
  destruct (push_loop_total (S (length (il_pending p ++ chunk))) (il_specs p)
              (il_pending p ++ chunk) (il_active p)) as [[[p' a'] o] Hl]; [done..|lia|].
  rewrite Hl in *. by exists p', a', o.
Qed.

(** C18: Fed with a text in one chunk, the parser of hidden tags shows and extracts
    what a single pass over the text does that takes, at each position outside a
    tag, the longest opening delimiter there, and of equal ones the first.  When no
    opening delimiter contains another one, as with citations, the same holds
    however the text is cut into chunks. *)
Theorem inline_stream_is_scan {T} (specs : list (InlineTagSpec T)) p :
  inline_new specs = Some p →
  (∀ text, collect_chunks p [text] = scan specs 0 None text)
  ∧ (no_nesting specs → ∀ chunks, collect_chunks p chunks = scan specs 0 None (concat chunks)).
Proof.
  intros Hn. split.
  - intros text. apply inline_new_delims in Hn as [-> Hne]. by apply inline_one_chunk.
  - intros Hinf chunks. destruct (inline_new_ok specs p Hn Hinf) as [-> Hok].
    exact (collect_whole (mkInline specs [] None) chunks Hok).
Qed.

(** ** Citations *)

Lemma citation_specs_ok : specs_ok citation_specs.
Proof.
  split; [by repeat constructor|]. intros s s' u v ->%list_elem_of_singleton
    ->%list_elem_of_singleton He. apply (f_equal length) in He. rewrite !length_app in He.
  destruct u, v; simpl in He; (done || lia).
Qed.

Definition citation_ok (p : CitationStreamParser) : Prop := inline_ok (citation_inner p).

Lemma citation_new_ok : citation_ok citation_new.
Proof.
  constructor; simpl; [apply citation_specs_ok | done |]. intros j. by rewrite drop_nil.
Qed.

#[export] Program Instance citation_laws : StreamTextLaws CitationStreamParser rstr := {|
  stream_ok := citation_ok;
  whole p t := map_chunk ex_content (whole (citation_inner p) t);
  chunk_equiv := (=);
|}.
Next Obligation.
  intros [p] s Hp. pose proof (push_ok p s Hp) as H. simpl in *. unfold citation_push_str. simpl.
  by destruct (inline_push_str p s).
Qed.
Next Obligation.
  intros [p] s t Hp. pose proof (whole_push p s t Hp) as H. simpl in *.
  unfold citation_push_str. simpl. destruct (inline_push_str p s). simpl in *.
  by rewrite H, map_chunk_app.
Qed.
Next Obligation.
  intros [p] Hp. pose proof (whole_finish p Hp) as H. simpl in *.
  unfold citation_finish. simpl. destruct (inline_finish p). simpl in *. by rewrite H.
Qed.

(** A text in which every citation body follows a piece of plain text. *)
Definition cited_text (pieces : list (rstr * rstr)) (tail : rstr) : rstr :=
  concat ((λ '(t, c), t ++ CITATION_OPEN ++ c ++ CITATION_CLOSE) <$> pieces) ++ tail.
(** The delimiter does not occur in the text, nor across its end. *)
Definition free_of (delim t : rstr) : Prop := find_sub delim (t ++ delim) = Some (length t).

Lemma find_citation_open p : find_next_open citation_specs p = (λ i, (i, 0)) <$> find_sub CITATION_OPEN p.
Proof.
  unfold find_next_open, candidates, candidate. cbn [imap citation_specs spec_open].
  by destruct (find_sub CITATION_OPEN p).
Qed.

Lemma scan_citation t c rest :
  free_of CITATION_OPEN t → free_of CITATION_CLOSE c →
  scan citation_specs 0 None (t ++ CITATION_OPEN ++ c ++ CITATION_CLOSE ++ rest) =
  mkChunk t [mkExtracted Citation c] ⋅ scan citation_specs 0 None rest.
Proof.
  intros Ho Hc. set (s := mkInlineSpec Citation CITATION_OPEN CITATION_CLOSE).
  rewrite (assoc_L app t).
  rewrite (scan_found_open citation_specs _ (length t) 0 s);
    [|apply citation_specs_ok | right; apply citation_specs_ok | by rewrite find_citation_open, Ho | done].
  rewrite take_app_length, drop_ge, app_nil_l by (rewrite length_app; done).
  rewrite (assoc_L app c), (scan_found_close _ _ _ (length c)) by done.
  rewrite take_app_length, drop_ge, app_nil_l by (rewrite length_app; done).
  rewrite (assoc_L chunk_app). f_equal. unfold show, extract, chunk_app. simpl.
  by rewrite app_nil_r.
Qed.

Lemma scan_no_citation t :
  find_sub CITATION_OPEN t = None → scan citation_specs 0 None t = show t.
Proof.
  intros Hf. apply (inline_finish_spec (mkInline citation_specs t None)).
  apply quiet_open. simpl. by rewrite find_citation_open, Hf.
Qed.

Lemma scan_cited_text pieces tail :
  Forall (λ '(t, c), free_of CITATION_OPEN t ∧ free_of CITATION_CLOSE c) pieces →
  find_sub CITATION_OPEN tail = None →
  scan citation_specs 0 None (cited_text pieces tail) =
  mkChunk (concat pieces.*1 ++ tail) (mkExtracted Citation <$> pieces.*2).
Proof.
  intros Hp Ht. induction Hp as [|[t c] pieces [Ho Hc] Hp IH]; [by apply scan_no_citation|].
  unfold cited_text. cbn [fmap list_fmap concat]. rewrite <- !(assoc_L app).
  change (concat _ ++ tail) with (cited_text pieces tail) at 1.
  rewrite scan_citation, IH by done. unfold chunk_app. simpl. by rewrite (assoc_L app).
Qed.

(** A text written with citations comes apart again, however it is streamed: the
    visible text is the plain pieces, the citations are the bodies in order, and
    an unfinished stream hides nothing else. *)
Theorem citations_roundtrip pieces tail chunks :
  Forall (λ '(t, c), free_of CITATION_OPEN t ∧ free_of CITATION_CLOSE c) pieces →
  find_sub CITATION_OPEN tail = None →
  concat chunks = cited_text pieces tail →
  collect_chunks citation_new chunks = mkChunk (concat pieces.*1 ++ tail) pieces.*2.
Proof.
  intros Hp Ht Hc. pose proof (collect_whole citation_new chunks citation_new_ok) as H.
  simpl in H. rewrite H, Hc, scan_cited_text by done. unfold map_chunk. simpl. f_equal.
  rewrite <- list_fmap_compose. by apply list_fmap_id.
Qed.
Lemma citations_roundtrip_witness :
  collect_chunks citation_new [str "see <oai-mem"; str "-citation>a <b></oai-mem-cit"; str "ation>."]
  = mkChunk (str "see .") [str "a <b>"].
Proof.
  apply (citations_roundtrip [(str "see ", str "a <b>")] (str "."));
    [repeat constructor; vm_compute; reflexivity | vm_compute; reflexivity..].
Defined.

Definition demo_specs : list (InlineTagSpec bool) :=
  [mkInlineSpec true (str "<a>") (str "</a>"); mkInlineSpec false (str "<b>") (str "</b>")].
(** One opener is a prefix of the other. *)
Definition nested_specs : list (InlineTagSpec bool) :=
  [mkInlineSpec true (str "<a") (str "/>"); mkInlineSpec false (str "<a>") (str "</a>")].

Lemma inline_stream_is_scan_witness :
  collect_chunks (mkInline demo_specs [] None) [str "1<"; str "b>x</"; str "b>2<a"; str ">y"]
  = mkChunk (str "12") [mkExtracted false (str "x"); mkExtracted true (str "y")]
  ∧ collect_chunks (mkInline nested_specs [] None) [str "1<a>x</a>2"]
    = mkChunk (str "12") [mkExtracted false (str "x")].
Proof.
  split.
  - rewrite (proj2 (inline_stream_is_scan demo_specs (mkInline demo_specs [] None) eq_refl)); [by vm_compute|].
    intros s s' u v Hs Hs' He. apply (f_equal length) in He as Hl. rewrite !length_app in Hl.
    assert (H : ∀ x, x ∈ demo_specs → length (spec_open x) = 3).
    { intros x Hx. unfold demo_specs in Hx. rewrite !elem_of_cons in Hx.
      destruct Hx as [->|[->|Hx]]; [done..|]. by apply not_elem_of_nil in Hx. }
    rewrite !H in Hl by done. destruct u, v; simpl in Hl; (done || lia).
  - rewrite (proj1 (inline_stream_is_scan nested_specs (mkInline nested_specs [] None) eq_refl)). by vm_compute.
Defined.

(** With such openers the cut matters: the shorter one is taken when the text
    stops after it. *)
Example nested_openers_depend_on_cut :
  collect_chunks (mkInline nested_specs [] None) [str "1<a"; str ">x</a>2"]
  = mkChunk (str "1") [mkExtracted true (str ">x</a>2")].
Proof. vm_compute. reflexivity. Qed.

Lemma inline_push_terminates_witness :
  ∃ pending active o,
    push_loop 4 citation_specs (str "a<b") None = Some (pending, active, o).
Proof.
  destruct (inline_push_terminates (citation_inner citation_new) (str "a<b") citation_new_ok)
    as (p & a & o & H & _). exists p, a, o. exact H.
Defined.
