(* ===== verification/Utf8Stream.v ===== *)
(** Streamed bytes: [utils/stream-parser/src/utf8_stream.rs], the wrapper that
    feeds a text parser from byte chunks that may cut a character in two, and
    its theorems, proved for every parser with the laws of [StreamText]. *)

From S2P Require Import Prelude InlineTag Utf8 InlineTagProps.

Inductive Utf8StreamParserError :=
| InvalidUtf8 (valid_up_to error_len : nat)
| IncompleteUtf8AtEof.

Record Utf8StreamParser (P : Type) := mkUtf8Stream { us_inner : P; pending_utf8 : list N }.
Arguments mkUtf8Stream {P}.
Arguments us_inner {P}.
Arguments pending_utf8 {P}.

Section model.
Context `{StreamTextParser P E}.

Definition utf8_new (inner : P) : Utf8StreamParser P := mkUtf8Stream inner [].

(** [pending_utf8.truncate(old_len)] on the early returns *)
Definition rollback (p : Utf8StreamParser P) (pending : list N) : Utf8StreamParser P :=
  mkUtf8Stream (us_inner p) (take (length (pending_utf8 p)) pending).

Definition push_bytes (p : Utf8StreamParser P) (chunk : list N)
    : Utf8StreamParser P * result Utf8StreamParserError (StreamTextChunk E) :=
  let pending := pending_utf8 p ++ chunk in
  match from_utf8 pending with
  | Ok text =>
      let '(inner, out) := push_str (us_inner p) text in
      (mkUtf8Stream inner [], Ok out)
  | Err err =>
      match error_len err with
      | Some n => (rollback p pending, Err (InvalidUtf8 (valid_up_to err) n))
      | None =>
          if valid_up_to err =? 0 then (mkUtf8Stream (us_inner p) pending, Ok chunk_default)
          else
            match from_utf8 (take (valid_up_to err) pending) with
            | Err prefix_err =>
                (rollback p pending,
                 Err (InvalidUtf8 (valid_up_to prefix_err) (default 0 (error_len prefix_err))))
            | Ok text =>
                let '(inner, out) := push_str (us_inner p) text in
                (mkUtf8Stream inner (drop (valid_up_to err) pending), Ok out)
            end
      end
  end.

(** The error of [finish] and of [into_inner] *)
Definition pending_error (err : Utf8Error) : Utf8StreamParserError :=
  match error_len err with
  | Some n => InvalidUtf8 (valid_up_to err) n
  | None => IncompleteUtf8AtEof
  end.

Definition finish_bytes (p : Utf8StreamParser P)
    : Utf8StreamParser P * result Utf8StreamParserError (StreamTextChunk E) :=
  if is_empty (pending_utf8 p) then
    let '(inner, tail) := finish_text (us_inner p) in
    (mkUtf8Stream inner [], Ok (chunk_default ⋅ tail))
  else
    match from_utf8 (pending_utf8 p) with
    | Err err => (p, Err (pending_error err))
    | Ok text =>
        let '(inner, out) := push_str (us_inner p) text in
        let '(inner, tail) := finish_text inner in
        (mkUtf8Stream inner [], Ok (out ⋅ tail))
    end.

Definition into_inner (p : Utf8StreamParser P) : result Utf8StreamParserError P :=
  if is_empty (pending_utf8 p) then Ok (us_inner p)
  else match from_utf8 (pending_utf8 p) with
       | Ok _ => Ok (us_inner p)
       | Err err => Err (pending_error err)
       end.
Definition into_inner_lossy (p : Utf8StreamParser P) : P := us_inner p.

(** A caller that drops the chunks that are refused: the final state, the
    collected output and the chunks that were accepted. *)
Fixpoint push_bytes_all (p : Utf8StreamParser P) (chunks : list (list N))
    : Utf8StreamParser P * StreamTextChunk E * list (list N) :=
  match chunks with
  | [] => (p, chunk_default, [])
  | c :: cs =>
      match push_bytes p c with
      | (p, Err _) => push_bytes_all p cs
      | (p, Ok o) => let '(p, o', acc) := push_bytes_all p cs in (p, o ⋅ o', c :: acc)
      end
  end.
End model.

(** ** What is kept back *)

Lemma from_utf8_scan bs :
  from_utf8 bs = match utf8_scan bs with
                 | (t, None) => Ok t
                 | (t, Some e) => Err (mkUtf8Error (byte_len t) e)
                 end.
Proof. done. Qed.

Lemma take_valid t r : take (byte_len t) (utf8 t ++ r) = utf8 t.
Proof. apply take_app_length. Qed.
Lemma drop_valid t r : drop (byte_len t) (utf8 t ++ r) = r.
Proof. apply drop_app_length. Qed.

Lemma byte_len_0 t : is_text t → byte_len t = 0 → t = [].
Proof.
  intros Ht Hb. destruct Ht as [|c t Hc Ht]; [done|]. unfold byte_len in Hb.
  rewrite utf8_cons_eq, length_app in Hb. by destruct (encoded_complete c Hc); simpl in Hb.
Qed.

Section props.
Context `{StreamTextLaws P E}.
Implicit Types (p : Utf8StreamParser P).

(** The pending bytes are a character cut short, or nothing. *)
Definition bytes_ok p : Prop :=
  stream_ok (us_inner p) ∧
  utf8_scan (pending_utf8 p) = ([], if is_empty (pending_utf8 p) then None else Some None).

(** One push: refused with the state as it was, or a text is decoded, the
    wrapped parser gets exactly that text and the rest is kept. *)
Lemma push_bytes_spec p chunk :
  bytes_ok p →
  (∃ t n, utf8_scan (pending_utf8 p ++ chunk) = (t, Some (Some n)) ∧
     push_bytes p chunk = (p, Err (InvalidUtf8 (byte_len t) n))) ∨
  (∃ t r q o, pending_utf8 p ++ chunk = utf8 t ++ r ∧ is_text t ∧
     push_bytes p chunk = (q, Ok o) ∧ bytes_ok q ∧ pending_utf8 q = r ∧
     ∀ s, chunk_equiv (whole (us_inner p) (t ++ s)) (o ⋅ whole (us_inner q) s)).
Proof.
  intros [Hin Hp]. unfold push_bytes. rewrite from_utf8_scan.
  pose proof (scan_sound (pending_utf8 p ++ chunk)) as Hs.
  destruct (utf8_scan (pending_utf8 p ++ chunk)) as [t [[n|]|]] eqn:Hscan.
  - left. exists t, n. split; [done|]. simpl. unfold rollback. rewrite take_app_length.
    by destruct p.
  - right. destruct Hs as (Ht & r & Hr & Hsr & _). simpl.
    assert (Hne : is_empty r = false) by (by destruct r).
    destruct (Nat.eqb_spec (byte_len t) 0) as [Hz|Hz].
    + apply byte_len_0 in Hz as ->; [|done]. rewrite Hr.
      exists [], r, (mkUtf8Stream (us_inner p) r), chunk_default. split_and!; try done.
      * split; [done|]. simpl. by rewrite Hne.
      * intros s. simpl. by rewrite (left_id_L chunk_default chunk_app).
    + rewrite Hr, take_valid, drop_valid, from_utf8_utf8 by done.
      pose proof (push_ok (us_inner p) t Hin). pose proof (λ s, whole_push (us_inner p) t s Hin).
      destruct (push_str (us_inner p) t) as [q o] eqn:Hq. simpl in *.
      exists t, r, (mkUtf8Stream q r), o. split_and!; try done. split; [done|]. simpl. by rewrite Hne.
  - right. destruct Hs as (Ht & r & Hr & Hsr & Hn). rewrite Hn in Hr by done.
    pose proof (push_ok (us_inner p) t Hin). pose proof (λ s, whole_push (us_inner p) t s Hin).
    destruct (push_str (us_inner p) t) as [q o] eqn:Hq. simpl in *.
    by exists t, [], (mkUtf8Stream q []), o.
Qed.

Lemma push_bytes_all_spec p chunks q o acc :
  bytes_ok p → push_bytes_all p chunks = (q, o, acc) →
  bytes_ok q ∧ ∃ t, is_text t ∧ pending_utf8 p ++ concat acc = utf8 t ++ pending_utf8 q ∧
    ∀ s, chunk_equiv (whole (us_inner p) (t ++ s)) (o ⋅ whole (us_inner q) s).
Proof.
  revert p q o acc. induction chunks as [|c cs IH]; intros p q o acc Hp; simpl push_bytes_all.
  { intros [= -> <- <-]. split; [done|]. exists []. split_and!; [constructor | by rewrite app_nil_r |].
    intros s. by rewrite (left_id_L chunk_default chunk_app). }
  destruct (push_bytes_spec p c Hp) as [(t & n & _ & ->)|(t & r & p1 & o1 & Hr & Ht & -> & Hp1 & <- & Hw)];
    [by apply IH|].
  destruct (push_bytes_all p1 cs) as [[q2 o2] acc2] eqn:Hall. intros [= -> <- <-].
  destruct (IH _ _ _ _ Hp1 Hall) as (Hq & t2 & Ht2 & Hr2 & Hw2). split; [done|].
  exists (t ++ t2). split_and!; [by apply Forall_app | |].
  - simpl concat. by rewrite (assoc_L app), Hr, <- !(assoc_L app), Hr2, utf8_app, <- (assoc_L app).
  - intros s. by rewrite <- (assoc_L app), Hw, Hw2, (assoc_L chunk_app).
Qed.

Lemma finish_bytes_spec p :
  bytes_ok p →
  match (finish_bytes p).2 with
  | Ok tail => pending_utf8 p = [] ∧ chunk_equiv tail (whole (us_inner p) [])
  | Err e => e = IncompleteUtf8AtEof ∧ pending_utf8 p ≠ [] ∧ (finish_bytes p).1 = p
  end.
Proof.
  intros [Hin Hp]. unfold finish_bytes. destruct (pending_utf8 p) as [|b bs] eqn:Hb; simpl is_empty in *.
  - pose proof (whole_finish (us_inner p) Hin) as Hf.
    destruct (finish_text (us_inner p)) as [inner tail]. simpl in *. split; [done|].
    by rewrite (left_id_L chunk_default chunk_app), Hf.
  - unfold from_utf8. by rewrite Hp.
Qed.

Lemma utf8_new_ok (inner : P) : stream_ok inner → bytes_ok (utf8_new inner).
Proof. by split. Qed.

(** No chunk of an encoded text is refused. *)
Lemma push_bytes_valid p chunks t q o acc :
  bytes_ok p → is_text t → pending_utf8 p ++ concat chunks = utf8 t →
  push_bytes_all p chunks = (q, o, acc) → acc = chunks.
Proof.
  revert p t q o acc. induction chunks as [|c cs IH]; intros p t q o acc Hp Ht Heq;
    simpl push_bytes_all; [by intros [= _ _ <-]|].
  simpl concat in Heq. rewrite (assoc_L app) in Heq.
  destruct (scan_prefix _ _ _ Ht Heq) as (t1 & t2 & r & -> & Hp1 & Hr & Hscan).
  apply Forall_app in Ht as [Ht1 Ht2].
  destruct (push_bytes_spec p c Hp) as [(t' & n & Hs & _)|(t' & r' & p1 & o1 & Hr' & Ht' & -> & Hok & Hpend & _)].
  { rewrite Hscan in Hs. by destruct (is_empty r). }
  assert (Hsame : r' = r).
  { destruct Hok as [_ Hok]. rewrite Hpend in Hok. rewrite Hr', scan_utf8_app, Hok in Hscan by done.
    simpl in Hscan. rewrite app_nil_r in Hscan. injection Hscan as -> _.
    rewrite Hr' in Hp1. by apply app_inv_head in Hp1. }
  rewrite Hsame in Hpend. destruct (push_bytes_all p1 cs) as [[q2 o2] acc2] eqn:Hall. intros [= -> <- <-].
  f_equal. eapply (IH p1 t2); [done | done | by rewrite Hpend | done].
Qed.

(** Bytes can be cut anywhere: when the chunks together are the encoding of a
    text, every chunk is accepted and the wrapped parser sees that text. *)
Theorem utf8_stream_is_text (inner : P) chunks t q o acc :
  stream_ok inner → is_text t → concat chunks = utf8 t →
  push_bytes_all (utf8_new inner) chunks = (q, o, acc) →
  acc = chunks ∧
  ∃ tail, (finish_bytes q).2 = Ok tail ∧ chunk_equiv (o ⋅ tail) (whole inner t).
Proof.
  intros Hin Ht Hc Hall. apply utf8_new_ok in Hin as Hok.
  assert (acc = chunks) as -> by (by eapply push_bytes_valid).
  destruct (push_bytes_all_spec _ _ _ _ _ Hok Hall) as (Hq & t' & Ht' & Heq & Hw).
  split; [done|]. simpl in Heq. rewrite Hc in Heq.
  pose proof (scan_utf8_app t' (pending_utf8 q) Ht') as Hs. rewrite <- Heq in Hs.
  pose proof (from_utf8_utf8 t Ht) as Hf. unfold from_utf8 in Hf. rewrite Hs in Hf.
  destruct Hq as [Hq1 Hq2]. rewrite Hq2 in Hf. simpl in Hf. rewrite app_nil_r in Hf.
  pose proof (finish_bytes_spec q (conj Hq1 Hq2)) as Hfin.
  destruct (pending_utf8 q) as [|b bs]; simpl in Hf; [|done]. injection Hf as ->.
  destruct ((finish_bytes q).2) as [tail|e]; [|by destruct Hfin as (_ & ? & _)].
  exists tail. split; [done|]. destruct Hfin as [_ ->]. rewrite <- (app_nil_r t). by rewrite Hw.
Qed.

(** A refused chunk leaves no trace: after any chunks, the output is that of the
    text whose encoding the accepted ones begin with, and only an unfinished
    character at the end is an error. *)
Theorem refused_bytes_leave_no_trace (inner : P) chunks q o acc :
  stream_ok inner → push_bytes_all (utf8_new inner) chunks = (q, o, acc) →
  ∃ t, is_text t ∧ concat acc = utf8 t ++ pending_utf8 q ∧
    match (finish_bytes q).2 with
    | Ok tail => pending_utf8 q = [] ∧ chunk_equiv (o ⋅ tail) (whole inner t)
    | Err e => e = IncompleteUtf8AtEof ∧ pending_utf8 q ≠ [] ∧ (finish_bytes q).1 = q
    end.
Proof.
  intros Hin Hall. apply utf8_new_ok in Hin as Hok.
  destruct (push_bytes_all_spec _ _ _ _ _ Hok Hall) as (Hq & t & Ht & Heq & Hw).
  exists t. split_and!; [done..|]. pose proof (finish_bytes_spec q Hq) as Hfin.
  destruct ((finish_bytes q).2) as [tail|e]; [|done]. destruct Hfin as [-> Hf]. split; [done|].
  rewrite Hf, <- Hw. by rewrite app_nil_r.
Qed.
End props.

(** A citation whose text has an accent, cut inside the character. *)
Definition demo_text : rstr := str "a" ++ [233%N] ++ str "<oai-mem-citation>x".
Definition demo_bytes : list (list N) := [take 2 (utf8 demo_text); drop 2 (utf8 demo_text)].

Lemma utf8_stream_is_text_witness :
  ∃ q o tail,
    push_bytes_all (utf8_new citation_new) demo_bytes = (q, o, demo_bytes) ∧
    (finish_bytes q).2 = Ok tail ∧ o ⋅ tail = mkChunk (str "a" ++ [233%N]) [str "x"].
Proof.
  destruct (push_bytes_all (utf8_new citation_new) demo_bytes) as [[q o] acc] eqn:Hall.
  destruct (utf8_stream_is_text citation_new demo_bytes demo_text q o acc) as (-> & tail & Hf & Ho);
    [apply citation_new_ok | repeat constructor | by vm_compute | done |].
  exists q, o, tail. split; [done|]. split; [done|]. rewrite Ho. by vm_compute.
Defined.

(** A chunk with an invalid byte between two good ones. *)
Lemma refused_bytes_leave_no_trace_witness :
  ∃ t, is_text t ∧ utf8 (str "ab") = utf8 t ++ [].
Proof.
  destruct (refused_bytes_leave_no_trace citation_new [utf8 (str "a"); [120; 255]%N; utf8 (str "b")]
              (utf8_new citation_new) (mkChunk (str "ab") []) [utf8 (str "a"); utf8 (str "b")])
    as (t & Ht & Hc & _); [apply citation_new_ok | by vm_compute |].
  exists t. split; [exact Ht | exact Hc].
Defined.
