(* ===== verification/TaggedLine.v ===== *)
(** Tags that stand alone on a line: [utils/stream-parser/src/tagged_line_parser.rs],
    the plan blocks built on it ([proposed_plan.rs]) and the parser of assistant
    text that strips citations first ([assistant_text.rs]). *)

From S2P Require Import Prelude InlineTag.

#[local] Opaque str.

Record TagSpec (T : Type) := mkTagSpec { tl_open : rstr; tl_close : rstr; tl_tag : T }.
Arguments mkTagSpec {T}.
Arguments tl_open {T}.
Arguments tl_close {T}.
Arguments tl_tag {T}.

Inductive TaggedLineSegment (T : Type) :=
| Normal (text : rstr)
| TagStart (tag : T)
| TagDelta (tag : T) (text : rstr)
| TagEnd (tag : T).
Arguments Normal {T}.
Arguments TagStart {T}.
Arguments TagDelta {T}.
Arguments TagEnd {T}.

Record TaggedLineParser (T : Type) := mkTagged {
  tl_specs : list (TagSpec T);
  active_tag : option T;
  detect_tag : bool;
  line_buffer : rstr;
}.
Arguments mkTagged {T}.
Arguments tl_specs {T}.
Arguments active_tag {T}.
Arguments detect_tag {T}.
Arguments line_buffer {T}.

Section tagged.
Context {T : Type} `{EqDecision T}.
Implicit Types (p : TaggedLineParser T) (segments : list (TaggedLineSegment T)).

Definition tagged_new (specs : list (TagSpec T)) : TaggedLineParser T := mkTagged specs None true [].

(** [push_segment]: adjacent text of one kind is merged. *)
Definition push_segment segments (segment : TaggedLineSegment T) : list (TaggedLineSegment T) :=
  match segment with
  | Normal delta =>
      if is_empty delta then segments
      else match last segments with
           | Some (Normal existing) => removelast segments ++ [Normal (existing ++ delta)]
           | _ => segments ++ [Normal delta]
           end
  | TagDelta tag delta =>
      if is_empty delta then segments
      else match last segments with
           | Some (TagDelta existing_tag existing) =>
               if decide (existing_tag = tag)
               then removelast segments ++ [TagDelta existing_tag (existing ++ delta)]
               else segments ++ [TagDelta tag delta]
           | _ => segments ++ [TagDelta tag delta]
           end
  | _ => segments ++ [segment]
  end.

Definition push_text (active : option T) (text : rstr) segments : list (TaggedLineSegment T) :=
  match active with
  | Some tag => push_segment segments (TagDelta tag text)
  | None => push_segment segments (Normal text)
  end.

Definition is_tag_prefix (specs : list (TagSpec T)) (slug : rstr) : bool :=
  let slug := trim_end slug in
  existsb (λ s, starts_with (tl_open s) slug || starts_with (tl_close s) slug) specs.
Definition match_open (specs : list (TagSpec T)) (slug : rstr) : option T :=
  tl_tag ∘ snd <$> list_find (λ s, tl_open s = slug) specs.
Definition match_close (specs : list (TagSpec T)) (slug : rstr) : option T :=
  tl_tag ∘ snd <$> list_find (λ s, tl_close s = slug) specs.

(** The slug of a buffered line, with or without its newline *)
Definition slug_of (line : rstr) : rstr :=
  trim_end (trim_start (default line (strip_suffix [ch_nl] line))).

(** What the line does to the active tag: the tests that [finish_line] and
    [finish] share. *)
Definition line_segments (specs : list (TagSpec T)) (active : option T) (line : rstr) segments
    : option T * list (TaggedLineSegment T) :=
  match match_open specs (slug_of line), active with
  | Some tag, None => (Some tag, push_segment segments (TagStart tag))
  | _, _ =>
      match match_close specs (slug_of line), active with
      | Some tag, Some current =>
          if decide (current = tag) then (None, push_segment segments (TagEnd tag))
          else (active, push_text active line segments)
      | _, _ => (active, push_text active line segments)
      end
  end.

Definition finish_line p segments : TaggedLineParser T * list (TaggedLineSegment T) :=
  let '(active, segments) := line_segments (tl_specs p) (active_tag p) (line_buffer p) segments in
  (mkTagged (tl_specs p) active true [], segments).

(** One round of the loop of [parse] *)
Definition parse_char p (run : rstr) segments (ch : rchar)
    : TaggedLineParser T * rstr * list (TaggedLineSegment T) :=
  if detect_tag p then
    let segments := if is_empty run then segments else push_text (active_tag p) run segments in
    let buffer := line_buffer p ++ [ch] in
    if (ch =? ch_nl)%N then
      let '(p, segments) :=
        finish_line (mkTagged (tl_specs p) (active_tag p) true buffer) segments in
      (p, [], segments)
    else
      let slug := trim_start buffer in
      if is_empty slug || is_tag_prefix (tl_specs p) slug
      then (mkTagged (tl_specs p) (active_tag p) true buffer, [], segments)
      else (mkTagged (tl_specs p) (active_tag p) false [], [],
            push_text (active_tag p) buffer segments)
  else
    let run := run ++ [ch] in
    if (ch =? ch_nl)%N
    then (mkTagged (tl_specs p) (active_tag p) true (line_buffer p), [],
          push_text (active_tag p) run segments)
    else (p, run, segments).

Fixpoint parse_loop p (run : rstr) segments (delta : rstr)
    : TaggedLineParser T * rstr * list (TaggedLineSegment T) :=
  match delta with
  | [] => (p, run, segments)
  | ch :: delta' =>
      let '(p, run, segments) := parse_char p run segments ch in
      parse_loop p run segments delta'
  end.

Definition tagged_parse p (delta : rstr) : TaggedLineParser T * list (TaggedLineSegment T) :=
  let '(p, run, segments) := parse_loop p [] [] delta in
  (p, if is_empty run then segments else push_text (active_tag p) run segments).

Definition tagged_finish p : TaggedLineParser T * list (TaggedLineSegment T) :=
  let '(active, segments) :=
    if is_empty (line_buffer p) then (active_tag p, [])
    else line_segments (tl_specs p) (active_tag p) (line_buffer p) [] in
  let segments := match active with
                  | Some tag => push_segment segments (TagEnd tag)
                  | None => segments
                  end in
  (mkTagged (tl_specs p) None true [], segments).
End tagged.

(** ** Proposed plans *)

Definition OPEN_TAG : rstr := str "<proposed_plan>".
Definition CLOSE_TAG : rstr := str "</proposed_plan>".

Inductive PlanTag := ProposedPlan.
#[global] Instance plan_tag_eq_dec : EqDecision PlanTag.
Proof. solve_decision. Defined.

Inductive ProposedPlanSegment :=
| PlanNormal (text : rstr)
| ProposedPlanStart
| ProposedPlanDelta (text : rstr)
| ProposedPlanEnd.

Record ProposedPlanParser := mkPlan { plan_parser : TaggedLineParser PlanTag }.
Definition plan_specs : list (TagSpec PlanTag) := [mkTagSpec OPEN_TAG CLOSE_TAG ProposedPlan].
Definition plan_new : ProposedPlanParser := mkPlan (tagged_new plan_specs).

Definition map_segment (s : TaggedLineSegment PlanTag) : ProposedPlanSegment :=
  match s with
  | Normal text => PlanNormal text
  | TagStart _ => ProposedPlanStart
  | TagDelta _ text => ProposedPlanDelta text
  | TagEnd _ => ProposedPlanEnd
  end.
Definition plan_visible (s : ProposedPlanSegment) : rstr :=
  match s with PlanNormal text => text | _ => [] end.
Definition map_segments (segments : list (TaggedLineSegment PlanTag))
    : StreamTextChunk ProposedPlanSegment :=
  mkChunk (concat (plan_visible ∘ map_segment <$> segments)) (map_segment <$> segments).

Definition plan_push_str (p : ProposedPlanParser) (chunk : rstr)
    : ProposedPlanParser * StreamTextChunk ProposedPlanSegment :=
  let '(q, segments) := tagged_parse (plan_parser p) chunk in (mkPlan q, map_segments segments).
Definition plan_finish (p : ProposedPlanParser)
    : ProposedPlanParser * StreamTextChunk ProposedPlanSegment :=
  let '(q, segments) := tagged_finish (plan_parser p) in (mkPlan q, map_segments segments).
#[global] Instance plan_stream_parser : StreamTextParser ProposedPlanParser ProposedPlanSegment :=
  {| push_str := plan_push_str; finish_text := plan_finish |}.

Definition strip_proposed_plan_blocks (text : rstr) : rstr :=
  let '(p, o) := push_str plan_new text in
  visible_text o ++ visible_text (finish_text p).2.

(** The fold of [extract_proposed_plan_text]: whether a block was seen, and the
    text of the last one. *)
Definition plan_text_step (acc : bool * rstr) (s : ProposedPlanSegment) : bool * rstr :=
  let '(saw_plan_block, plan_text) := acc in
  match s with
  | ProposedPlanStart => (true, [])
  | ProposedPlanDelta delta => (saw_plan_block, plan_text ++ delta)
  | _ => acc
  end.
Definition extract_proposed_plan_text (text : rstr) : option rstr :=
  let '(p, o) := push_str plan_new text in
  let '(saw_plan_block, plan_text) :=
    fold_left plan_text_step (extracted o ++ extracted (finish_text p).2) (false, []) in
  if saw_plan_block then Some plan_text else None.

(** ** Assistant text *)

Record AssistantTextChunk := mkAssistantChunk {
  a_visible_text : rstr;
  a_citations : list rstr;
  a_plan_segments : list ProposedPlanSegment;
}.
Definition assistant_chunk_default : AssistantTextChunk := mkAssistantChunk [] [] [].
Definition assistant_chunk_is_empty (c : AssistantTextChunk) : bool :=
  is_empty (a_visible_text c) && is_empty (a_citations c) && is_empty (a_plan_segments c).

Record AssistantTextStreamParser := mkAssistant {
  plan_mode : bool;
  as_citations : CitationStreamParser;
  as_plan : ProposedPlanParser;
}.
Definition assistant_new (plan_mode : bool) : AssistantTextStreamParser :=
  mkAssistant plan_mode citation_new plan_new.

Definition parse_visible_text (plan_mode : bool) (plan : ProposedPlanParser) (visible : rstr)
    : ProposedPlanParser * AssistantTextChunk :=
  if plan_mode then
    let '(plan, plan_chunk) := push_str plan visible in
    (plan, mkAssistantChunk (visible_text plan_chunk) [] (extracted plan_chunk))
  else (plan, mkAssistantChunk visible [] []).

Definition assistant_push_str (p : AssistantTextStreamParser) (chunk : rstr)
    : AssistantTextStreamParser * AssistantTextChunk :=
  let '(citations, citation_chunk) := push_str (as_citations p) chunk in
  let '(plan, out) := parse_visible_text (plan_mode p) (as_plan p) (visible_text citation_chunk) in
  (mkAssistant (plan_mode p) citations plan,
   mkAssistantChunk (a_visible_text out) (extracted citation_chunk) (a_plan_segments out)).

Definition assistant_finish (p : AssistantTextStreamParser)
    : AssistantTextStreamParser * AssistantTextChunk :=
  let '(citations, citation_chunk) := finish_text (as_citations p) in
  let '(plan, out) := parse_visible_text (plan_mode p) (as_plan p) (visible_text citation_chunk) in
  let '(plan, out) :=
    if plan_mode p then
      let '(plan, tail) := finish_text plan in
      if chunk_is_empty tail then (plan, out)
      else (plan, mkAssistantChunk (a_visible_text out ++ visible_text tail) (a_citations out)
                    (a_plan_segments out ++ extracted tail))
    else (plan, out) in
  (mkAssistant (plan_mode p) citations plan,
   mkAssistantChunk (a_visible_text out) (extracted citation_chunk) (a_plan_segments out)).

Definition assistant_app (a b : AssistantTextChunk) : AssistantTextChunk :=
  mkAssistantChunk (a_visible_text a ++ a_visible_text b) (a_citations a ++ a_citations b)
    (a_plan_segments a ++ a_plan_segments b).
Fixpoint assistant_collect (p : AssistantTextStreamParser) (chunks : list rstr) : AssistantTextChunk :=
  match chunks with
  | [] => (assistant_finish p).2
  | c :: cs => let '(p, o) := assistant_push_str p c in assistant_app o (assistant_collect p cs)
  end.

Definition nl : rstr := [ch_nl].
Example plan_segments_after_citations :
  (assistant_push_str (assistant_push_str (assistant_new true) (str "Intro" ++ nl ++ str "<proposed")).1
    (str "_plan>" ++ nl ++ str "- step <oai-mem-citation>doc</oai-mem-citation>" ++ nl)).2
  = mkAssistantChunk [] [str "doc"] [ProposedPlanStart; ProposedPlanDelta (str "- step " ++ nl)].
Proof. vm_compute. reflexivity. Qed.
Example last_plan_wins :
  extract_proposed_plan_text
    (str "<proposed_plan>" ++ nl ++ str "a" ++ nl ++ str "</proposed_plan>" ++ nl ++
     str " <proposed_plan> " ++ nl ++ str "b") = Some (str "b").
Proof. vm_compute. reflexivity. Qed.
