(* ===== verification/TaggedLineProps.v ===== *)
(** The line-tag parser against a reference that reads whole lines, for every
    way to cut the text, and the assistant-text parser against the functions
    that treat a complete message.

    Outputs are compared as sequences of events, one per character and one per
    tag boundary: where a run of text is cut into segments is the one thing that
    depends on the chunks. *)

From S2P Require Import Prelude InlineTag InlineTagProps TaggedLine.

(** ** Trimming and concatenation *)

Lemma trim_start_by_app p s t :
  trim_start_by p s ≠ [] → trim_start_by p (s ++ t) = trim_start_by p s ++ t.
Proof. induction s as [|c s IH]; simpl; [done|]. case_match; [apply IH | done]. Qed.

Lemma trim_end_by_app p s t : trim_end_by p s `prefix_of` trim_end_by p (s ++ t).
Proof.
  unfold trim_end_by. rewrite reverse_app.
  destruct (decide (trim_start_by p (reverse t) = [])) as [Ht|Ht].
  - by rewrite trim_start_by_app_nil.
  - rewrite trim_start_by_app, reverse_app, reverse_involutive by done.
    etrans; [|apply prefix_app_r, reflexivity]. apply trim_end_by_prefix.
Qed.

(** ** Events *)

Inductive event (T : Type) :=
| NormalChar (c : rchar)
| DeltaChar (tag : T) (c : rchar)
| StartOf (tag : T)
| EndOf (tag : T).
Arguments NormalChar {T}.
Arguments DeltaChar {T}.
Arguments StartOf {T}.
Arguments EndOf {T}.

Section events.
Context {T : Type} `{EqDecision T}.
Implicit Types (p : TaggedLineParser T) (segments : list (TaggedLineSegment T)).
Implicit Types (specs : list (TagSpec T)) (active : option T).

Definition seg_events (s : TaggedLineSegment T) : list (event T) :=
  match s with
  | Normal text => NormalChar <$> text
  | TagDelta tag text => DeltaChar tag <$> text
  | TagStart tag => [StartOf tag]
  | TagEnd tag => [EndOf tag]
  end.
Definition events segments : list (event T) := segments ≫= seg_events.
Definition text_events (active : option T) (text : rstr) : list (event T) :=
  match active with Some tag => DeltaChar tag <$> text | None => NormalChar <$> text end.

Lemma events_app a b : events (a ++ b) = events a ++ events b.
Proof. apply bind_app. Qed.
Lemma events_snoc a s : events (a ++ [s]) = events a ++ seg_events s.
Proof. rewrite events_app. unfold events at 2. simpl. by rewrite app_nil_r. Qed.

Lemma last_removelast {A} (l : list A) x : last l = Some x → l = removelast l ++ [x].
Proof. intros [l' ->]%last_Some. by rewrite removelast_last. Qed.

Lemma events_push_segment segments s :
  events (push_segment segments s) = events segments ++ seg_events s.
Proof.
  destruct s as [d|t|t d|t]; simpl push_segment; try apply events_snoc.
  - destruct d as [|c d]; simpl is_empty; [by rewrite app_nil_r|].
    destruct (last segments) as [[]|] eqn:Hl; try apply events_snoc.
    apply last_removelast in Hl. rewrite Hl at 2. rewrite !events_snoc. simpl.
    by rewrite fmap_app, <- (assoc_L app).
  - destruct d as [|c d]; simpl is_empty; [by rewrite app_nil_r|].
    destruct (last segments) as [[]|] eqn:Hl; try apply events_snoc.
    case_decide; [|apply events_snoc]. subst.
    apply last_removelast in Hl. rewrite Hl at 2. rewrite !events_snoc. simpl.
    by rewrite fmap_app, <- (assoc_L app).
Qed.

Lemma events_push_text active text segments :
  events (push_text active text segments) = events segments ++ text_events active text.
Proof. by destruct active; unfold push_text; rewrite events_push_segment. Qed.

Lemma text_events_app active s t :
  text_events active (s ++ t) = text_events active s ++ text_events active t.
Proof. destruct active; simpl; apply fmap_app. Qed.

(** ** The reference *)

(** [str::split_inclusive('\n')] *)
Fixpoint split_inclusive (s : rstr) : list rstr :=
  match s with
  | [] => []
  | c :: s' =>
      if (c =? ch_nl)%N then [c] :: split_inclusive s'
      else match split_inclusive s' with
           | [] => [[c]]
           | l :: ls => (c :: l) :: ls
           end
  end.

(** A line that is a tag opens or closes its block; any other line is text of
    the block it is in. At the end an open block is closed. *)
Definition line_events specs (active : option T) (line : rstr) : option T * list (event T) :=
  let slug := slug_of line in
  match active with
  | None =>
      match match_open specs slug with
      | Some tag => (Some tag, [StartOf tag])
      | None => (active, text_events active line)
      end
  | Some current =>
      if decide (match_close specs slug = Some current) then (None, [EndOf current])
      else (active, text_events active line)
  end.
Fixpoint lines_events specs (active : option T) (ls : list rstr) : list (event T) :=
  match ls with
  | [] => match active with Some tag => [EndOf tag] | None => [] end
  | l :: ls' => let '(active, ev) := line_events specs active l in ev ++ lines_events specs active ls'
  end.

Lemma line_segments_events specs active line segments :
  let '(active', out) := line_segments specs active line segments in
  active' = (line_events specs active line).1 ∧
  events out = events segments ++ (line_events specs active line).2.
Proof.
  unfold line_segments, line_events. destruct active as [cur|].
  - destruct (match_open specs (slug_of line)) as [u|];
      (destruct (match_close specs (slug_of line)) as [t|];
       [destruct (decide (cur = t)) as [->|Hne];
        [rewrite decide_True by done; by rewrite events_push_segment
        |rewrite decide_False by congruence; by rewrite events_push_text]
       |rewrite decide_False by done; by rewrite events_push_text]).
  - destruct (match_open specs (slug_of line)) as [t|]; [by rewrite events_push_segment|].
    destruct (match_close specs (slug_of line)); by rewrite events_push_text.
Qed.

(** The rest of the current line, with its newline, and what follows it. *)
Fixpoint break_line (s : rstr) : rstr * rstr :=
  match s with
  | [] => ([], [])
  | c :: s' => if (c =? ch_nl)%N then ([c], s') else (c :: (break_line s').1, (break_line s').2)
  end.

Lemma split_inclusive_break x s :
  x ≠ [] → ch_nl ∉ x →
  split_inclusive (x ++ s) = (x ++ (break_line s).1) :: split_inclusive (break_line s).2.
Proof.
  induction x as [|c x IH]; [done|]. intros _ [Hc Hx]%not_elem_of_cons. simpl.
  destruct (N.eqb_spec c ch_nl); [done|]. destruct x as [|d x].
  - simpl. clear IH. revert c Hc n. induction s as [|e s IHs]; [done|]. intros c Hc Hn. simpl.
    destruct (N.eqb_spec e ch_nl); [done|]. by rewrite (IHs e).
  - by rewrite IH.
Qed.

Lemma split_inclusive_nl x s :
  ch_nl ∉ x → split_inclusive (x ++ ch_nl :: s) = (x ++ [ch_nl]) :: split_inclusive s.
Proof. intros Hx. destruct x as [|c x]; [done|]. by rewrite split_inclusive_break. Qed.

(** ** Lines that cannot be tags any more *)

Lemma slug_prefix x l :
  trim_start x ≠ [] → ch_nl ∉ x → trim_end (trim_start x) `prefix_of` slug_of (x ++ l).
Proof.
  intros Ht Hx. unfold slug_of.
  assert (∃ l', default (x ++ l) (strip_suffix [ch_nl] (x ++ l)) = x ++ l') as [l' ->].
  { destruct (strip_suffix [ch_nl] (x ++ l)) as [u|] eqn:Hs; simpl; [|by exists l].
    apply strip_suffix_Some in Hs. destruct l as [|c l _] using rev_ind.
    - rewrite app_nil_r in Hs. subst. set_solver.
    - rewrite (assoc_L app) in Hs. apply app_inj_2 in Hs as [<- _]; [by exists l | done]. }
  unfold trim_start in *. rewrite trim_start_by_app by done. apply trim_end_by_app.
Qed.

Lemma not_prefix_no_match specs x l :
  ch_nl ∉ x → is_empty (trim_start x) || is_tag_prefix specs (trim_start x) = false →
  match_open specs (slug_of (x ++ l)) = None ∧ match_close specs (slug_of (x ++ l)) = None.
Proof.
  intros Hx [He Hp]%orb_false_iff.
  assert (Ht : trim_start x ≠ []) by (intros Ht; by rewrite Ht in He).
  pose proof (slug_prefix x l Ht Hx) as [k Hk].
  assert (Hno : ∀ s, s ∈ specs → tl_open s ≠ slug_of (x ++ l) ∧ tl_close s ≠ slug_of (x ++ l)).
  { intros s Hs. apply not_true_iff_false in Hp. split; intros Heq; apply Hp, existsb_exists;
      exists s; (split; [by apply list_elem_of_In|]); apply orb_true_iff; [left | right];
      apply starts_with_true; exists k; by rewrite Heq. }
  unfold match_open, match_close.
  split; apply fmap_None, list_find_None, Forall_forall; intros s Hs; by apply Hno.
Qed.

Lemma not_prefix_text specs active x l :
  ch_nl ∉ x → is_empty (trim_start x) || is_tag_prefix specs (trim_start x) = false →
  line_events specs active (x ++ l) = (active, text_events active (x ++ l)).
Proof.
  intros Hx Hp. destruct (not_prefix_no_match specs x l Hx Hp) as [Ho Hc].
  unfold line_events. rewrite Ho, Hc. by destruct active.
Qed.

(** ** The parser *)

(** What the parser still gives for the rest of the text. *)
Definition meaning p (s : rstr) : list (event T) :=
  if detect_tag p
  then lines_events (tl_specs p) (active_tag p) (split_inclusive (line_buffer p ++ s))
  else text_events (active_tag p) (break_line s).1 ++
       lines_events (tl_specs p) (active_tag p) (split_inclusive (break_line s).2).

Definition tagged_ok p : Prop :=
  if detect_tag p then ch_nl ∉ line_buffer p else line_buffer p = [].

(** While the parser looks for a tag nothing is held back in the run. *)
Definition run_ok p (run : rstr) : Prop := detect_tag p = true → run = [].

Lemma parse_char_step p run segments ch s :
  tagged_ok p → run_ok p run →
  let '(p', run', segments') := parse_char p run segments ch in
  tagged_ok p' ∧ run_ok p' run' ∧
  events segments ++ text_events (active_tag p) run ++ meaning p (ch :: s) =
  events segments' ++ text_events (active_tag p') run' ++ meaning p' s.
Proof.
  destruct p as [specs active detect buf]. unfold tagged_ok, run_ok, parse_char, meaning. simpl.
  intros Hb Hr. assert (Hnil : ∀ a : option T, text_events a [] = []) by (by intros []).
  destruct detect.
  - rewrite Hr by done. simpl is_empty. cbv iota. rewrite Hnil. simpl app at 2. destruct (N.eqb_spec ch ch_nl) as [->|Hch].
    + unfold finish_line. simpl.
      pose proof (line_segments_events specs active (buf ++ [ch_nl]) segments) as Hl.
      destruct (line_segments _ _ _ _) as [active' out]. destruct Hl as [-> Hl]. simpl.
      split_and!; [by apply not_elem_of_nil | done |]. rewrite Hl, <- (assoc_L app). f_equal. rewrite split_inclusive_nl by done. simpl.
      rewrite Hnil. by destruct (line_events specs active (buf ++ [ch_nl])).
    + destruct (is_empty _ || is_tag_prefix _ _) eqn:Hp; simpl.
      * split_and!; [set_solver | done |]. by rewrite Hnil, <- (assoc_L app).
      * split_and!; [done | done |]. rewrite events_push_text, Hnil, <- (assoc_L app). f_equal. simpl.
        change (buf ++ ch :: s) with (buf ++ [ch] ++ s). rewrite (assoc_L app).
        rewrite split_inclusive_break by ((by destruct buf) || set_solver). simpl.
        rewrite not_prefix_text by (done || set_solver).
        by rewrite text_events_app, <- (assoc_L app).
  - subst buf. destruct (N.eqb_spec ch ch_nl) as [->|Hch]; simpl.
    + split_and!; [by apply not_elem_of_nil | done |].
      by rewrite events_push_text, text_events_app, Hnil, <- !(assoc_L app).
    + split_and!; [done | done |]. rewrite text_events_app, <- !(assoc_L app). by destruct active.
Qed.

Lemma parse_loop_step delta p run segments s :
  tagged_ok p → run_ok p run →
  let '(p', run', segments') := parse_loop p run segments delta in
  tagged_ok p' ∧ run_ok p' run' ∧
  events segments ++ text_events (active_tag p) run ++ meaning p (delta ++ s) =
  events segments' ++ text_events (active_tag p') run' ++ meaning p' s.
Proof.
  revert p run segments. induction delta as [|ch delta IH]; intros p run segments Hp Hr; [done|].
  simpl. pose proof (parse_char_step p run segments ch (delta ++ s) Hp Hr) as Hc.
  destruct (parse_char p run segments ch) as [[p' run'] segments']. destruct Hc as (Hp' & Hr' & ->).
  by apply IH.
Qed.

Lemma tagged_parse_spec p delta s :
  tagged_ok p →
  tagged_ok (tagged_parse p delta).1 ∧
  meaning p (delta ++ s) = events (tagged_parse p delta).2 ++ meaning (tagged_parse p delta).1 s.
Proof.
  intros Hp. unfold tagged_parse.
  pose proof (parse_loop_step delta p [] [] s Hp ltac:(done)) as Hl.
  destruct (parse_loop p [] [] delta) as [[p' run] segments]. destruct Hl as (Hp' & _ & Hl).
  simpl in *. split; [done|].
  assert (Hnil : ∀ a : option T, text_events a [] = []) by (by intros []).
  rewrite Hnil in Hl. simpl in Hl. rewrite Hl. destruct run as [|c run]; simpl is_empty; cbv iota.
  - by rewrite Hnil.
  - by rewrite events_push_text, <- (assoc_L app).
Qed.

Lemma tagged_finish_spec p :
  tagged_ok p → meaning p [] = events (tagged_finish p).2.
Proof.
  destruct p as [specs active detect buf]. unfold tagged_ok, meaning, tagged_finish.
  cbn [detect_tag line_buffer active_tag tl_specs].
  assert (Hend : ∀ (a : option T) segments,
    events (match a with Some tag => push_segment segments (TagEnd tag) | None => segments end)
    = events segments ++ lines_events specs a []).
  { intros [t|] segments; simpl; [apply events_snoc | by rewrite app_nil_r]. }
  destruct detect; intros Hb.
  - rewrite app_nil_r. destruct buf as [|c buf]; cbn [is_empty snd]; [by rewrite Hend|].
    rewrite <- (app_nil_r (c :: buf)) at 1. rewrite split_inclusive_break by done.
    rewrite app_nil_r. pose proof (line_segments_events specs active (c :: buf) []) as Hl.
    destruct (line_segments _ _ _ _) as [active' out]. destruct Hl as [-> Hl].
    cbn [snd]. rewrite Hend, Hl. simpl lines_events at 1.
    by destruct (line_events specs active (c :: buf)).
  - subst buf. cbn [is_empty snd]. rewrite Hend. by destruct active.
Qed.

(** A whole run: the pushes and the final flush. *)
Fixpoint tagged_collect p (chunks : list rstr) : list (TaggedLineSegment T) :=
  match chunks with
  | [] => (tagged_finish p).2
  | c :: cs => (tagged_parse p c).2 ++ tagged_collect (tagged_parse p c).1 cs
  end.

Lemma tagged_collect_spec p chunks :
  tagged_ok p → events (tagged_collect p chunks) = meaning p (concat chunks).
Proof.
  revert p. induction chunks as [|c cs IH]; intros p Hp; simpl.
  - symmetry. by apply tagged_finish_spec.
  - destruct (tagged_parse_spec p c (concat cs) Hp) as [Hp' ->].
    by rewrite events_app, IH.
Qed.

(** The parser of tagged lines gives the events of the complete lines of the
    text, however it is streamed. *)
Theorem tagged_stream_reads_lines specs chunks :
  events (tagged_collect (tagged_new specs) chunks) =
  lines_events specs None (split_inclusive (concat chunks)).
Proof. apply tagged_collect_spec. simpl. apply not_elem_of_nil. Qed.
End events.

(** ** Plans *)

Definition unmap_segment (s : ProposedPlanSegment) : TaggedLineSegment PlanTag :=
  match s with
  | PlanNormal text => Normal text
  | ProposedPlanStart => TagStart ProposedPlan
  | ProposedPlanDelta text => TagDelta ProposedPlan text
  | ProposedPlanEnd => TagEnd ProposedPlan
  end.
Definition plan_events (l : list ProposedPlanSegment) : list (event PlanTag) :=
  events (unmap_segment <$> l).
Definition event_visible (e : event PlanTag) : rstr :=
  match e with NormalChar c => [c] | _ => [] end.
Definition event_segment (e : event PlanTag) : ProposedPlanSegment :=
  match e with
  | NormalChar c => PlanNormal [c]
  | DeltaChar _ c => ProposedPlanDelta [c]
  | StartOf _ => ProposedPlanStart
  | EndOf _ => ProposedPlanEnd
  end.
(** The chunk with one segment per event *)
Definition chunk_of (ev : list (event PlanTag)) : StreamTextChunk ProposedPlanSegment :=
  mkChunk (ev ≫= event_visible) (event_segment <$> ev).

(** Equal up to how the text is cut into segments. *)
Definition plan_equiv (c d : StreamTextChunk ProposedPlanSegment) : Prop :=
  visible_text c = visible_text d ∧ plan_events (extracted c) = plan_events (extracted d).

#[export] Instance plan_equiv_equivalence : Equivalence plan_equiv.
Proof. split; unfold plan_equiv; [done | by intros ?? [-> ->] | by intros ??? [-> ->]]. Qed.

Lemma plan_events_app a b : plan_events (a ++ b) = plan_events a ++ plan_events b.
Proof. unfold plan_events. by rewrite fmap_app, events_app. Qed.

#[export] Instance plan_equiv_app : Proper (plan_equiv ==> plan_equiv ==> plan_equiv) chunk_app.
Proof.
  intros a a' [Hv He] b b' [Hv' He']. unfold plan_equiv. simpl.
  by rewrite !plan_events_app, Hv, Hv', He, He'.
Qed.

Lemma chunk_of_app a b : chunk_of (a ++ b) = chunk_of a ⋅ chunk_of b.
Proof. unfold chunk_of, chunk_app. simpl. by rewrite bind_app, fmap_app. Qed.

Lemma plan_events_chunk_of ev : plan_events (event_segment <$> ev) = ev.
Proof.
  induction ev as [|e ev IH]; [done|]. change (plan_events _) with
    (seg_events (unmap_segment (event_segment e)) ++ plan_events (event_segment <$> ev)).
  rewrite IH. by destruct e as [c|[] c|[]|[]].
Qed.

Lemma visible_normal text : (NormalChar <$> text) ≫= event_visible = text.
Proof. induction text as [|c text IH]; [done|]. by rewrite fmap_cons, bind_cons, IH. Qed.
Lemma visible_delta tag text : (DeltaChar tag <$> text) ≫= event_visible = [].
Proof. induction text as [|c text IH]; [done|]. by rewrite fmap_cons, bind_cons, IH. Qed.

Lemma map_segments_equiv segments : plan_equiv (map_segments segments) (chunk_of (events segments)).
Proof.
  unfold plan_equiv, map_segments, chunk_of. cbn [visible_text extracted].
  rewrite plan_events_chunk_of. split.
  - induction segments as [|s segments IH]; [done|]. rewrite fmap_cons. cbn [concat].
    change (events (s :: segments)) with (seg_events s ++ events segments).
    rewrite bind_app, <- IH. f_equal. destruct s as [text|[]|[] text|[]]; try done; symmetry;
      [apply visible_normal | apply visible_delta].
  - unfold plan_events. rewrite <- list_fmap_compose. rewrite (list_fmap_ext _ id);
      [by rewrite list_fmap_id | by intros ? [|[]|[]|[]]].
Qed.

#[export] Program Instance plan_laws : StreamTextLaws ProposedPlanParser ProposedPlanSegment := {|
  stream_ok p := tagged_ok (plan_parser p);
  whole p t := chunk_of (meaning (plan_parser p) t);
  chunk_equiv := plan_equiv;
|}.
Next Obligation.
  intros [p] s Hp. simpl in *. unfold plan_push_str. simpl.
  destruct (tagged_parse_spec p s [] Hp) as [Hq _]. by destruct (tagged_parse p s).
Qed.
Next Obligation.
  intros [p] s t Hp. simpl in *. unfold plan_push_str. simpl.
  destruct (tagged_parse_spec p s t Hp) as [_ ->]. destruct (tagged_parse p s) as [q segments].
  simpl. by rewrite chunk_of_app, map_segments_equiv.
Qed.
Next Obligation.
  intros [p] Hp. simpl in *. unfold plan_finish. simpl. rewrite (tagged_finish_spec p Hp).
  destruct (tagged_finish p) as [q segments]. simpl. by rewrite map_segments_equiv.
Qed.

Lemma plan_new_ok : stream_ok plan_new.
Proof. simpl. apply not_elem_of_nil. Qed.

(** The plan text depends on the events only. *)
Definition event_plan_text (acc : bool * rstr) (e : event PlanTag) : bool * rstr :=
  match e with
  | StartOf _ => (true, [])
  | DeltaChar _ c => (acc.1, acc.2 ++ [c])
  | _ => acc
  end.

Lemma event_plan_text_segment s acc :
  plan_text_step acc s = fold_left event_plan_text (seg_events (unmap_segment s)) acc.
Proof.
  destruct acc as [saw text]. destruct s as [d| |d|]; simpl; try done.
  - induction d as [|c d IH]; [done|]. exact IH.
  - revert text. induction d as [|c d IH]; intros text; simpl; [by rewrite app_nil_r|].
    rewrite <- IH. by rewrite <- (assoc_L app).
Qed.

Lemma plan_text_events l acc :
  fold_left plan_text_step l acc = fold_left event_plan_text (plan_events l) acc.
Proof.
  revert acc. induction l as [|s l IH]; intros acc; [done|].
  change (plan_events (s :: l)) with (seg_events (unmap_segment s) ++ plan_events l).
  rewrite fold_left_app, <- event_plan_text_segment. apply IH.
Qed.

(** The text of the last plan among segments, as [extract_proposed_plan_text]
    computes it. *)
Definition plan_text_of (l : list ProposedPlanSegment) : option rstr :=
  let '(saw, text) := fold_left plan_text_step l (false, []) in if saw then Some text else None.

Lemma strip_plan_collect text :
  strip_proposed_plan_blocks text = visible_text (collect_chunks plan_new [text]).
Proof.
  unfold strip_proposed_plan_blocks. rewrite collect_cons. unfold collect_chunks. simpl.
  by destruct (plan_push_str plan_new text).
Qed.
Lemma extract_plan_collect text :
  extract_proposed_plan_text text = plan_text_of (extracted (collect_chunks plan_new [text])).
Proof.
  unfold extract_proposed_plan_text. rewrite collect_cons. unfold collect_chunks. simpl.
  by destruct (plan_push_str plan_new text).
Qed.
Lemma strip_citations_collect text :
  strip_citations text =
  (visible_text (collect_chunks citation_new [text]), extracted (collect_chunks citation_new [text])).
Proof.
  unfold strip_citations. rewrite collect_cons. unfold collect_chunks. simpl.
  destruct (citation_push_str citation_new text) as [p o]. simpl. by destruct (citation_finish p).
Qed.

(** ** Assistant text *)

(** The visible texts that the citation parser hands on. *)
Fixpoint visible_chunks (p : CitationStreamParser) (chunks : list rstr) : list rstr :=
  match chunks with
  | [] => [visible_text (finish_text p).2]
  | c :: cs => visible_text (push_str p c).2 :: visible_chunks (push_str p c).1 cs
  end.

Lemma visible_chunks_concat p chunks :
  concat (visible_chunks p chunks) = visible_text (collect_chunks p chunks).
Proof.
  revert p. induction chunks as [|c cs IH]; intros p; simpl visible_chunks.
  - unfold collect_chunks. simpl. by rewrite app_nil_r.
  - rewrite collect_cons. cbn [concat]. by rewrite IH.
Qed.

(** The two parsers in sequence, in plan mode and outside of it *)
Lemma plan_mode_stages cit plan chunks :
  let out := assistant_collect (mkAssistant true cit plan) chunks in
  a_citations out = extracted (collect_chunks cit chunks) ∧
  mkChunk (a_visible_text out) (a_plan_segments out) =
  collect_chunks plan (visible_chunks cit chunks).
Proof.
  revert cit plan. induction chunks as [|c cs IH]; intros cit plan; cbn [assistant_collect visible_chunks].
  - unfold assistant_finish, collect_chunks. simpl.
    destruct (citation_finish cit) as [cit' o]. simpl.
    destruct (plan_push_str plan (visible_text o)) as [plan' po]. simpl.
    destruct (plan_finish plan') as [plan'' tail]. simpl. unfold chunk_app. simpl.
    destruct (chunk_is_empty tail) eqn:He; simpl; rewrite ?app_nil_r; split; try done.
    unfold chunk_is_empty in He. apply andb_true_iff in He as [->%is_empty_true ->%is_empty_true].
    by rewrite !app_nil_r.
  - rewrite !collect_cons. unfold assistant_push_str. simpl.
    destruct (citation_push_str cit c) as [cit' o]. simpl.
    destruct (plan_push_str plan (visible_text o)) as [plan' po]. simpl.
    destruct (IH cit' plan') as [Hc Hp]. rewrite Hc. split; [done|].
    rewrite <- Hp. done.
Qed.

Lemma plain_mode_stages cit plan chunks :
  assistant_collect (mkAssistant false cit plan) chunks =
  mkAssistantChunk (visible_text (collect_chunks cit chunks)) (extracted (collect_chunks cit chunks)) [].
Proof.
  revert cit. induction chunks as [|c cs IH]; intros cit; cbn [assistant_collect].
  - unfold assistant_finish, collect_chunks. simpl. by destruct (citation_finish cit).
  - rewrite collect_cons. unfold assistant_push_str. simpl.
    destruct (citation_push_str cit c) as [cit' o]. simpl. by rewrite IH.
Qed.

(** C40: streaming an assistant message gives what the functions on complete
    messages give: the citations, the visible text without plan blocks, and the
    text of the plan. *)
Theorem assistant_stream_is_batch mode chunks :
  let out := assistant_collect (assistant_new mode) chunks in
  let '(text, citations) := strip_citations (concat chunks) in
  a_citations out = citations ∧
  a_visible_text out = (if mode then strip_proposed_plan_blocks text else text) ∧
  plan_text_of (a_plan_segments out) = (if mode then extract_proposed_plan_text text else None).
Proof.
  assert (Hc : collect_chunks citation_new chunks = collect_chunks citation_new [concat chunks]).
  { pose proof (collect_whole citation_new chunks citation_new_ok) as H1.
    pose proof (collect_whole citation_new [concat chunks] citation_new_ok) as H2.
    rewrite H1, H2. cbn [concat]. by rewrite app_nil_r. }
  rewrite strip_citations_collect, <- Hc. destruct mode; unfold assistant_new.
  - destruct (plan_mode_stages citation_new plan_new chunks) as [H1 H2].
    set (out := assistant_collect _ chunks) in *. split; [done|].
    rewrite strip_plan_collect, extract_plan_collect, <- visible_chunks_concat.
    set (vs := visible_chunks citation_new chunks) in *.
    assert (He : plan_equiv (collect_chunks plan_new vs) (collect_chunks plan_new [concat vs])).
    { pose proof (collect_whole plan_new vs plan_new_ok) as P1.
      pose proof (collect_whole plan_new [concat vs] plan_new_ok) as P2.
      cbn [concat] in P2. rewrite app_nil_r in P2. by etrans; [exact P1 | symmetry]. }
    rewrite <- H2 in He. destruct He as [Hv Hp]. cbn [visible_text extracted] in *.
    split; [done|]. unfold plan_text_of. by rewrite !plan_text_events, Hp.
  - by rewrite plain_mode_stages.
Qed.
