(* ===== verification/HeadTailBuffer.v ===== *)
(** The output buffer of long-running commands:
    [core/src/unified_exec/head_tail_buffer.rs]. It keeps a prefix and a suffix
    of everything it has seen and counts what fell out of the middle.  The file
    begins with unsigned machine integers: [usize] and [u64] as [N] below 2^64,
    with the saturating operations that the output buffers use.

    [represents] says what a buffer is a summary of; every operation is shown to
    compute the summary of the concatenated output. *)

From S2P Require Import Prelude.
#[local] Open Scope N_scope.

Definition usize_max : N := 2 ^ 64 - 1.
(** The value of a count at its width: saturation at [usize::MAX]. *)
Definition sat (n : N) : N := N.min n usize_max.
Definition saturating_add (a b : N) : N := sat (a + b).
Definition saturating_sub (a b : N) : N := a - b.
Definition saturating_mul (a b : N) : N := sat (a * b).
Definition checked_sub (a b : N) : option N := if b <=? a then Some (a - b) else None.
(** The length of a slice or a string, which Rust bounds by [isize::MAX]. *)
Definition len {A} (l : list A) : N := N.of_nat (length l).

Create HintDb machine_int.
Lemma sat_le n : sat n ≤ usize_max.
Proof. unfold sat. lia. Qed.
Lemma sat_id n : n ≤ usize_max → sat n = n.
Proof. unfold sat. lia. Qed.
Lemma sat_add_sat a b : saturating_add (sat a) b = sat (a + b).
Proof. unfold saturating_add, sat. lia. Qed.
Lemma sat_add_sat_r a b : saturating_add a (sat b) = sat (a + b).
Proof. unfold saturating_add, sat. lia. Qed.
Lemma sat_sat n : sat (sat n) = sat n.
Proof. unfold sat. lia. Qed.
Lemma sat_add_both a b : saturating_add (sat a) (sat b) = sat (a + b).
Proof. unfold saturating_add, sat. lia. Qed.
Lemma sat_0 n : sat n = 0 → n = 0.
Proof. unfold sat. assert (0 < usize_max) by done. lia. Qed.
#[global] Opaque usize_max.
#[export] Hint Rewrite sat_add_sat sat_sat : machine_int.

Lemma len_app {A} (l k : list A) : len (l ++ k) = len l + len k.
Proof. unfold len. rewrite length_app. lia. Qed.
Lemma len_nil {A} : len ([] : list A) = 0.
Proof. done. Qed.
Lemma len_drop {A} n (l : list A) : len (drop n l) = len l - N.of_nat n.
Proof. unfold len. rewrite length_drop. lia. Qed.
Lemma len_take {A} n (l : list A) : len (take n l) = N.min (N.of_nat n) (len l).
Proof. unfold len. rewrite length_take. lia. Qed.
#[export] Hint Rewrite @len_app @len_nil @len_drop @len_take : machine_int.

#[local] Close Scope N_scope.

(** ** The buffer *)

Record HeadTailBuffer := mkBuffer { head_part : list N; tail_part : list N; omitted_bytes : N }.

(** [format_output_omission_marker] *)
Definition format_output_omission_marker (omitted : N) : rstr :=
  str "... " ++ str (pretty omitted) ++ str " bytes omitted ...".

(** [UNIFIED_EXEC_OUTPUT_MAX_BYTES] *)
Definition UNIFIED_EXEC_OUTPUT_MAX_BYTES : nat := Nat.pow 2 20.

Section buffer.
(** The constant parameter [MAX_BYTES] *)
Context (MAX_BYTES : nat).
Implicit Types (b : HeadTailBuffer) (chunk t : list N).

Definition HEAD_BUDGET : nat := MAX_BYTES / 2.
Definition TAIL_BUDGET : nat := MAX_BYTES - HEAD_BUDGET.

Definition buffer_default : HeadTailBuffer := mkBuffer [] [] 0.

Definition retained_bytes b : N := saturating_add (len (head_part b)) (len (tail_part b)).
Definition total_bytes b : N := saturating_add (retained_bytes b) (omitted_bytes b).

(** The new head and the bytes that did not fit *)
Definition fill_head b chunk : HeadTailBuffer * list N :=
  let remaining_head := HEAD_BUDGET - length (head_part b) in
  let '(chunk_head, chunk_tail) :=
    if remaining_head <=? length chunk then (take remaining_head chunk, drop remaining_head chunk)
    else (chunk, []) in
  (mkBuffer (head_part b ++ chunk_head) (tail_part b) (omitted_bytes b), chunk_tail).

Definition push_tail b chunk : HeadTailBuffer :=
  let remaining_tail := TAIL_BUDGET - length (tail_part b) in
  let excess_tail := length chunk - remaining_tail in
  let omitted := saturating_add (omitted_bytes b) (N.of_nat excess_tail) in
  let '(tail, chunk) :=
    if excess_tail <? length (tail_part b) then (drop excess_tail (tail_part b), chunk)
    else ([], drop (excess_tail - length (tail_part b)) chunk) in
  mkBuffer (head_part b) (tail ++ chunk) omitted.

Definition push_chunk b chunk : HeadTailBuffer :=
  let '(b, chunk) := fill_head b chunk in push_tail b chunk.

Definition to_bytes b : list N := head_part b ++ tail_part b.
Definition to_bytes_with_omission_marker b : list N :=
  if (omitted_bytes b =? 0)%N then to_bytes b
  else head_part b ++ [ch_nl] ++ utf8 (format_output_omission_marker (omitted_bytes b)) ++ [ch_nl]
       ++ tail_part b.

(** [wrap] is where the ring of the source tail wraps around: [as_slices]. *)
Definition push_buffer (wrap : nat) b (buffer : HeadTailBuffer) : HeadTailBuffer :=
  let b := mkBuffer (head_part b) (tail_part b)
             (saturating_add (omitted_bytes b) (omitted_bytes buffer)) in
  let '(b, overflow) :=
    if is_empty (head_part b)
    then (mkBuffer (head_part buffer) (tail_part b) (omitted_bytes b), [])
    else fill_head b (head_part buffer) in
  let tail := tail_part buffer in
  if length tail =? TAIL_BUDGET then
    mkBuffer (head_part b) tail
      (saturating_add (saturating_add (omitted_bytes b) (len (tail_part b))) (len overflow))
  else
    let b := push_tail b overflow in
    if is_empty (tail_part b) then mkBuffer (head_part b) tail (omitted_bytes b)
    else push_tail (push_tail b (take wrap tail)) (drop wrap tail).

(** ** What a buffer stands for *)

Definition lastn (n : nat) t : list N := drop (length t - n) t.

(** The summary of the output [t]. *)
Definition summary t : HeadTailBuffer :=
  mkBuffer (take HEAD_BUDGET t) (lastn TAIL_BUDGET (drop HEAD_BUDGET t))
    (sat (len t - N.of_nat HEAD_BUDGET - N.of_nat TAIL_BUDGET)).

Lemma budgets : HEAD_BUDGET + TAIL_BUDGET = MAX_BYTES.
Proof.
  unfold TAIL_BUDGET, HEAD_BUDGET. pose proof (Nat.Div0.div_le_upper_bound MAX_BYTES 2 MAX_BYTES).
  lia.
Qed.

Lemma length_lastn n t : length (lastn n t) = n `min` length t.
Proof. unfold lastn. rewrite length_drop. lia. Qed.
Lemma lastn_all n t : length t ≤ n → lastn n t = t.
Proof. intros H. unfold lastn. by replace (length t - n) with 0 by lia. Qed.
Lemma lastn_app_long n s t : n ≤ length t → lastn n (s ++ t) = lastn n t.
Proof.
  intros H. unfold lastn. rewrite length_app, drop_app_ge by lia. f_equal. lia.
Qed.
Lemma lastn_lastn_app n s t : lastn n (lastn n s ++ t) = lastn n (s ++ t).
Proof.
  unfold lastn. rewrite !length_app, length_drop.
  destruct (decide (n ≤ length t)).
  - rewrite !drop_app_ge by (rewrite ?length_drop; lia). rewrite length_drop. f_equal. lia.
  - rewrite !drop_app_le by (rewrite ?length_drop; lia). rewrite drop_drop. do 2 f_equal. lia.
Qed.

(** [push_tail] is the last bytes of both, and the drained range is in range. *)
Lemma push_tail_spec b chunk :
  length (tail_part b) ≤ TAIL_BUDGET →
  push_tail b chunk =
  mkBuffer (head_part b) (lastn TAIL_BUDGET (tail_part b ++ chunk))
    (saturating_add (omitted_bytes b) (len (tail_part b ++ chunk) - N.of_nat TAIL_BUDGET)).
Proof.
  intros Ht. unfold push_tail, lastn. rewrite len_app, length_app. unfold len.
  replace (N.of_nat (length (tail_part b)) + N.of_nat (length chunk) - N.of_nat TAIL_BUDGET)%N
    with (N.of_nat (length chunk - (TAIL_BUDGET - length (tail_part b)))) by lia.
  destruct (Nat.ltb_spec (length chunk - (TAIL_BUDGET - length (tail_part b))) (length (tail_part b))).
  - rewrite drop_app_le by lia. do 3 f_equal. lia.
  - rewrite drop_app_ge by lia. cbn [app]. f_equal. f_equal. lia.
Qed.

Lemma fill_head_spec b chunk :
  let r := HEAD_BUDGET - length (head_part b) in
  fill_head b chunk =
  (mkBuffer (head_part b ++ take r chunk) (tail_part b) (omitted_bytes b), drop r chunk).
Proof.
  intros r. unfold fill_head. fold r. destruct (Nat.leb_spec r (length chunk)); [done|].
  by rewrite take_ge, drop_ge by lia.
Qed.

(** Filling the head of a summary leaves what belongs to the tail. *)
Lemma fill_summary t chunk o :
  let r := HEAD_BUDGET - length (take HEAD_BUDGET t) in
  take HEAD_BUDGET t ++ take r chunk = take HEAD_BUDGET (t ++ chunk) ∧
  drop HEAD_BUDGET t ++ drop r chunk = drop HEAD_BUDGET (t ++ chunk) ∧
  fill_head (mkBuffer (take HEAD_BUDGET t) (lastn TAIL_BUDGET (drop HEAD_BUDGET t)) o) chunk =
  (mkBuffer (take HEAD_BUDGET (t ++ chunk)) (lastn TAIL_BUDGET (drop HEAD_BUDGET t)) o, drop r chunk).
Proof.
  intros r. rewrite fill_head_spec. cbn [head_part tail_part omitted_bytes]. fold r.
  assert (Hr : r = HEAD_BUDGET - length t) by (unfold r; rewrite length_take; lia).
  rewrite take_app, drop_app, Hr. done.
Qed.

Lemma tail_within t : length (lastn TAIL_BUDGET (drop HEAD_BUDGET t)) ≤ TAIL_BUDGET.
Proof. rewrite length_lastn. lia. Qed.

Lemma push_chunk_summary t chunk : push_chunk (summary t) chunk = summary (t ++ chunk).
Proof.
  unfold push_chunk, summary at 1.
  destruct (fill_summary t chunk (sat (len t - N.of_nat HEAD_BUDGET - N.of_nat TAIL_BUDGET)))
    as (_ & Hd & ->).
  rewrite push_tail_spec by apply tail_within. unfold summary.
  cbn [head_part tail_part omitted_bytes]. rewrite <- Hd, lastn_lastn_app, sat_add_sat.
  f_equal. f_equal. unfold len. rewrite !length_app, length_lastn, !length_drop, length_take. lia.
Qed.

(** The part of the later buffer's head that the earlier one has no room for. *)
Definition head_overflow t (u : list N) : list N := drop (HEAD_BUDGET - length t) (take HEAD_BUDGET u).

Lemma drop_head_app t u :
  drop HEAD_BUDGET (t ++ u) = drop HEAD_BUDGET t ++ head_overflow t u ++ drop HEAD_BUDGET u.
Proof.
  rewrite drop_app. f_equal. unfold head_overflow.
  rewrite <- (take_drop HEAD_BUDGET u) at 1. rewrite drop_app. f_equal. rewrite length_take.
  destruct (decide (HEAD_BUDGET ≤ length u)).
  - by replace (HEAD_BUDGET - length t - HEAD_BUDGET `min` length u) with 0 by lia.
  - by rewrite (drop_ge u), drop_nil by lia.
Qed.

Lemma merge_heads t u o :
  (if is_empty (take HEAD_BUDGET t)
   then (mkBuffer (take HEAD_BUDGET u) (lastn TAIL_BUDGET (drop HEAD_BUDGET t)) o, [])
   else fill_head (mkBuffer (take HEAD_BUDGET t) (lastn TAIL_BUDGET (drop HEAD_BUDGET t)) o)
          (take HEAD_BUDGET u)) =
  (mkBuffer (take HEAD_BUDGET (t ++ u)) (lastn TAIL_BUDGET (drop HEAD_BUDGET t)) o,
   head_overflow t u).
Proof.
  destruct (take HEAD_BUDGET t) as [|x k] eqn:Ht; simpl is_empty; cbv iota.
  - unfold head_overflow. rewrite take_app, Ht. apply (f_equal length) in Ht as Hl.
    rewrite length_take in Hl. simpl in Hl.
    rewrite (drop_ge (take HEAD_BUDGET u)) by (rewrite length_take; lia).
    replace (HEAD_BUDGET - length t) with HEAD_BUDGET by lia. done.
  - rewrite <- Ht. destruct (fill_summary t (take HEAD_BUDGET u) o) as (_ & _ & ->).
    unfold head_overflow. rewrite length_take, !take_app, take_take.
    replace ((HEAD_BUDGET - length t) `min` HEAD_BUDGET) with (HEAD_BUDGET - length t) by lia.
    by replace (HEAD_BUDGET - HEAD_BUDGET `min` length t) with (HEAD_BUDGET - length t) by lia.
Qed.

(** A later tail that is not full is all there is after the later head. *)
Lemma partial_tail u :
  length (lastn TAIL_BUDGET (drop HEAD_BUDGET u)) ≠ TAIL_BUDGET →
  lastn TAIL_BUDGET (drop HEAD_BUDGET u) = drop HEAD_BUDGET u ∧
  length (drop HEAD_BUDGET u) < TAIL_BUDGET.
Proof. rewrite length_lastn. intros H. split; [apply lastn_all|]; lia. Qed.

Lemma summary_eq t u v o :
  v = drop HEAD_BUDGET t ++ head_overflow t u ++ drop HEAD_BUDGET u →
  o = sat (len t + len u - N.of_nat HEAD_BUDGET - N.of_nat TAIL_BUDGET) →
  mkBuffer (take HEAD_BUDGET (t ++ u)) (lastn TAIL_BUDGET v) o = summary (t ++ u).
Proof. intros -> ->. unfold summary. by rewrite drop_head_app, len_app. Qed.

Ltac buffer_lengths :=
  autorewrite with machine_int; f_equal; unfold head_overflow, len in *;
  repeat first [rewrite length_app in * | rewrite length_lastn in * | rewrite length_drop in *
               | rewrite length_take in *];
  lia.

(** Two pushes are one. *)
Lemma push_tail_app b x y :
  length (tail_part b) ≤ TAIL_BUDGET → push_tail (push_tail b x) y = push_tail b (x ++ y).
Proof.
  intros Hb. rewrite !(push_tail_spec b) by done.
  rewrite push_tail_spec by (cbn [tail_part]; rewrite length_lastn; lia).
  cbn [head_part tail_part omitted_bytes]. rewrite lastn_lastn_app, <- (assoc_L app). f_equal.
  unfold saturating_add, sat, len. rewrite !length_app, length_lastn, length_app. lia.
Qed.

(** Appending a later buffer: each of the three ways it is done gives the
    summary of both outputs. *)
Lemma push_buffer_summary wrap t u :
  push_buffer wrap (summary t) (summary u) = summary (t ++ u).
Proof.
  remember (summary (t ++ u)) as R eqn:HR. unfold push_buffer, summary.
  cbn [head_part tail_part omitted_bytes]. rewrite sat_add_both, merge_heads. subst R. cbn [head_part tail_part omitted_bytes].
  destruct (Nat.eqb_spec (length (lastn TAIL_BUDGET (drop HEAD_BUDGET u))) TAIL_BUDGET) as [Hf|Hf].
  - rewrite length_lastn in Hf.
    rewrite <- (lastn_app_long _ (drop HEAD_BUDGET t ++ head_overflow t u) (drop HEAD_BUDGET u)) by lia.
    apply summary_eq; [by rewrite <- (assoc_L app) | buffer_lengths].
  - apply partial_tail in Hf as [Hall Hlt]. rewrite Hall.
    rewrite !push_tail_app, take_drop
      by (rewrite ?push_tail_spec; cbn [tail_part]; rewrite ?length_lastn; lia).
    rewrite !(push_tail_spec (mkBuffer _ _ _)) by apply tail_within.
    cbn [head_part tail_part omitted_bytes]. rewrite !lastn_lastn_app.
    destruct (lastn TAIL_BUDGET (drop HEAD_BUDGET t ++ head_overflow t u)) as [|x k] eqn:Hx;
      cbn [is_empty]; [|apply summary_eq; [done | buffer_lengths]].
    apply (f_equal length) in Hx. rewrite length_lastn, length_app in Hx. simpl in Hx.
    rewrite <- (lastn_all TAIL_BUDGET (drop HEAD_BUDGET u)) by lia. apply summary_eq.
    + destruct (drop HEAD_BUDGET t), (head_overflow t u); simpl in *; (done || lia).
    + buffer_lengths.
Qed.

(** ** Everything a buffer can be *)

(** [built b t]: the buffer [b] was made by the operations of the module and has
    seen the bytes [t]. *)
Inductive built : HeadTailBuffer → list N → Prop :=
| built_default : built buffer_default []
| built_chunk b t chunk : built b t → built (push_chunk b chunk) (t ++ chunk)
| built_buffer b t buffer u wrap :
    built b t → built buffer u → built (push_buffer wrap b buffer) (t ++ u).

Lemma built_summary b t : built b t → b = summary t.
Proof.
  induction 1 as [|b t chunk _ ->|b t buffer u wrap _ -> _ ->].
  - unfold summary. by rewrite take_nil, drop_nil.
  - apply push_chunk_summary.
  - apply push_buffer_summary.
Qed.

Lemma summary_small t : length t ≤ MAX_BYTES → to_bytes (summary t) = t.
Proof.
  intros Ht. pose proof budgets. unfold to_bytes, summary. cbn [head_part tail_part].
  rewrite lastn_all by (rewrite length_drop; lia). apply take_drop.
Qed.

Lemma summary_omitted t :
  omitted_bytes (summary t) = sat (len t - N.of_nat MAX_BYTES).
Proof. pose proof budgets. unfold summary. cbn [omitted_bytes]. f_equal. lia. Qed.

(** C38: however the output arrives, in chunks or as other buffers, the buffer
    is the summary of the whole output: its first bytes, its last bytes and the
    number of bytes in between. *)
Theorem buffer_is_summary b t :
  built b t →
  head_part b = take HEAD_BUDGET t ∧
  tail_part b = lastn TAIL_BUDGET (drop HEAD_BUDGET t) ∧
  omitted_bytes b = sat (len t - N.of_nat MAX_BYTES).
Proof. intros ->%built_summary. split_and!; [done..|]. apply summary_omitted. Qed.

(** C39: the buffer never holds more than its budget, and what it holds and what
    it counts as omitted add up to the output, saturating at the width of the
    counter; what is shown is the output when it fits, and otherwise its first
    and last bytes around a marker with the number of omitted ones. *)
Theorem buffer_bounds b t :
  (N.of_nat MAX_BYTES ≤ usize_max)%N → built b t →
  (retained_bytes b ≤ N.of_nat MAX_BYTES)%N ∧
  total_bytes b = sat (len t) ∧
  to_bytes_with_omission_marker b =
    if length t <=? MAX_BYTES then t
    else take HEAD_BUDGET t ++ [ch_nl] ++
         utf8 (format_output_omission_marker (sat (len t - N.of_nat MAX_BYTES))) ++ [ch_nl] ++
         lastn TAIL_BUDGET t.
Proof.
  intros Hmax ->%built_summary. pose proof budgets as Hb.
  assert (Hr : retained_bytes (summary t) = N.min (len t) (N.of_nat MAX_BYTES)).
  { unfold retained_bytes, summary, saturating_add, len. cbn [head_part tail_part].
    rewrite sat_id; rewrite length_take, length_lastn, length_drop; lia. }
  split_and!; [lia | |].
  - unfold total_bytes. rewrite Hr, summary_omitted, sat_add_sat_r. f_equal. lia.
  - unfold to_bytes_with_omission_marker. rewrite summary_omitted.
    destruct (Nat.leb_spec (length t) MAX_BYTES) as [Ht|Ht].
    + assert (Hz : (len t - N.of_nat MAX_BYTES = 0)%N) by (unfold len; lia).
      rewrite Hz, sat_id by apply N.le_0_l. rewrite N.eqb_refl. by apply summary_small.
    + destruct (N.eqb_spec (sat (len t - N.of_nat MAX_BYTES)) 0) as [Hz|_];
        [apply sat_0 in Hz; unfold len in Hz; lia|].
      unfold summary. cbn [head_part tail_part]. do 4 f_equal.
      rewrite <- (take_drop HEAD_BUDGET t) at 2. symmetry. apply lastn_app_long.
      rewrite length_drop. lia.
Qed.
End buffer.

Lemma buffer_is_summary_witness :
  let b := push_buffer 4 1 (push_chunk 4 buffer_default [1; 2; 3]%N)
             (push_chunk 4 buffer_default [4; 5; 6]%N) in
  head_part b = [1; 2]%N ∧ tail_part b = [5; 6]%N ∧ omitted_bytes b = 2%N.
Proof.
  apply (buffer_is_summary 4 _ [1; 2; 3; 4; 5; 6]%N).
  apply (built_buffer 4 _ [1; 2; 3]%N _ [4; 5; 6]%N);
    [apply (built_chunk 4 _ []) | apply (built_chunk 4 _ [])]; apply built_default.
Defined.

Lemma buffer_bounds_witness :
  (retained_bytes (push_chunk 4 buffer_default [1; 2; 3; 4; 5; 6]) ≤ 4)%N.
Proof.
  apply (buffer_bounds 4 _ [1; 2; 3; 4; 5; 6]%N); [by vm_compute|].
  apply (built_chunk 4 _ []). apply built_default.
Defined.
