(* ===== verification/Truncation.v ===== *)
(** Truncation of long texts: [utils/string/src/truncate.rs]. The middle is cut
    out at character boundaries and replaced by a marker that counts what is gone.

    Byte offsets and budgets are [usize] values ([N]); slicing a string at a byte
    offset is [split_at_byte], which is [None] where the source would panic. *)

From S2P Require Import Prelude HeadTailBuffer Utf8.
#[local] Open Scope N_scope.
#[local] Opaque str.

(** [char::len_utf8], [str::len] *)
Definition len_utf8 (c : rchar) : N := len (utf8_char c).
Definition str_len (s : rstr) : N := len (utf8 s).

(** [(&s\[..n\], &s\[n..\])] *)
Fixpoint split_at_byte (n : N) (s : rstr) : option (rstr * rstr) :=
  if n =? 0 then Some ([], s)
  else match s with
       | [] => None
       | c :: s' =>
           if len_utf8 c <=? n
           then '(l, r) ← split_at_byte (n - len_utf8 c) s'; Some (c :: l, r)
           else None
       end.

Definition APPROX_BYTES_PER_TOKEN : N := 4.

Definition approx_token_count (text : rstr) : N :=
  saturating_add (str_len text) (saturating_sub APPROX_BYTES_PER_TOKEN 1) / APPROX_BYTES_PER_TOKEN.
Definition approx_bytes_for_tokens (tokens : N) : N := saturating_mul tokens APPROX_BYTES_PER_TOKEN.
Definition approx_tokens_from_byte_count (bytes : N) : N :=
  saturating_add bytes (saturating_sub APPROX_BYTES_PER_TOKEN 1) / APPROX_BYTES_PER_TOKEN.

Definition split_budget (budget : N) : N * N := (budget / 2, budget - budget / 2).

(** The variables of the loop of [split_string]. *)
Record SplitState := mkSplit {
  prefix_end : N;
  suffix_start : N;
  removed_chars : N;
  suffix_started : bool;
}.
Fixpoint split_loop (beginning_bytes tail_start_target idx : N) (s : rstr) (st : SplitState)
    : SplitState :=
  match s with
  | [] => st
  | ch :: s' =>
      let char_end := idx + len_utf8 ch in
      let st :=
        if char_end <=? beginning_bytes
        then mkSplit char_end (suffix_start st) (removed_chars st) (suffix_started st)
        else if tail_start_target <=? idx
        then if suffix_started st then st
             else mkSplit (prefix_end st) idx (removed_chars st) true
        else mkSplit (prefix_end st) (suffix_start st) (saturating_add (removed_chars st) 1)
               (suffix_started st) in
      split_loop beginning_bytes tail_start_target char_end s' st
  end.

(** [None] is a slice off a character boundary. *)
Definition split_string (s : rstr) (beginning_bytes end_bytes : N) : option (N * rstr * rstr) :=
  if is_empty s then Some (0, [], [])
  else
    let tail_start_target := saturating_sub (str_len s) end_bytes in
    let st := split_loop beginning_bytes tail_start_target 0 s (mkSplit 0 (str_len s) 0 false) in
    let suffix_start := if suffix_start st <? prefix_end st then prefix_end st else suffix_start st in
    before ← split_at_byte (prefix_end st) s;
    after ← split_at_byte suffix_start s;
    Some (removed_chars st, before.1, after.2).

Definition ch_ellipsis : rchar := 8230.
Definition format_truncation_marker (use_tokens : bool) (removed_count : N) : rstr :=
  [ch_ellipsis] ++ str (pretty removed_count)
  ++ (if use_tokens then str " tokens truncated" else str " chars truncated") ++ [ch_ellipsis].
Definition removed_units (use_tokens : bool) (removed_bytes removed_chars : N) : N :=
  if use_tokens then approx_tokens_from_byte_count removed_bytes else removed_chars.
Definition assemble_truncated_output (prefix suffix marker : rstr) : rstr := prefix ++ marker ++ suffix.

Definition truncate_with_byte_estimate (s : rstr) (max_bytes : N) (use_tokens : bool) : option rstr :=
  if is_empty s then Some []
  else
    let total_chars := len s in
    if max_bytes =? 0 then
      Some (format_truncation_marker use_tokens (removed_units use_tokens (str_len s) total_chars))
    else if str_len s <=? max_bytes then Some s
    else
      let total_bytes := str_len s in
      let '(left_budget, right_budget) := split_budget max_bytes in
      '(removed_chars, before, after) ← split_string s left_budget right_budget;
      let marker := format_truncation_marker use_tokens
                      (removed_units use_tokens (saturating_sub total_bytes max_bytes) removed_chars) in
      Some (assemble_truncated_output before after marker).

Definition truncate_middle_chars (s : rstr) (max_bytes : N) : option rstr :=
  truncate_with_byte_estimate s max_bytes false.

Definition truncate_middle_with_token_budget (s : rstr) (max_tokens : N) : option (rstr * option N) :=
  if is_empty s then Some ([], None)
  else if (0 <? max_tokens) && (str_len s <=? approx_bytes_for_tokens max_tokens) then Some (s, None)
  else
    truncated ← truncate_with_byte_estimate s (approx_bytes_for_tokens max_tokens) true;
    let total_tokens := approx_token_count s in
    Some (if str_eqb truncated s then (truncated, None) else (truncated, Some total_tokens)).

(** [utils/string/src/lib.rs] *)
Fixpoint take_bytes_loop (maxb i last_ok : N) (s : rstr) : N :=
  match s with
  | [] => last_ok
  | ch :: s' => let nb := i + len_utf8 ch in if maxb <? nb then last_ok else take_bytes_loop maxb nb nb s'
  end.
Definition take_bytes_at_char_boundary (s : rstr) (maxb : N) : option rstr :=
  if str_len s <=? maxb then Some s
  else fst <$> split_at_byte (take_bytes_loop maxb 0 0 s) s.

Example truncates_middle :
  truncate_middle_chars (str "abcdefghij") 5 = Some (str "ab" ++ [ch_ellipsis] ++ str "5 chars truncated" ++ [ch_ellipsis] ++ str "hij").
Proof. vm_compute. reflexivity. Qed.
Example keeps_characters_whole :
  split_string [233; 233; 233; 233] 3 3 = Some (2, [233], [233]).
Proof. vm_compute. reflexivity. Qed.

(** ** Offsets *)

Lemma len_utf8_pos c : 0 < len_utf8 c.
Proof.
  unfold len_utf8, utf8_char, len. repeat case_match; simpl; lia.
Qed.
Lemma str_len_nil : str_len [] = 0.
Proof. done. Qed.
Lemma str_len_cons c s : str_len (c :: s) = len_utf8 c + str_len s.
Proof. unfold str_len. rewrite utf8_cons_eq. apply len_app. Qed.
Lemma str_len_app s t : str_len (s ++ t) = str_len s + str_len t.
Proof. unfold str_len. rewrite utf8_app. apply len_app. Qed.

Lemma split_at_byte_app s t : split_at_byte (str_len s) (s ++ t) = Some (s, t).
Proof.
  induction s as [|c s IH]; [by destruct t|]. rewrite str_len_cons. cbn [split_at_byte app].
  pose proof (len_utf8_pos c). destruct (N.eqb_spec (len_utf8 c + str_len s) 0); [lia|].
  destruct (N.leb_spec (len_utf8 c) (len_utf8 c + str_len s)); [|lia].
  replace (len_utf8 c + str_len s - len_utf8 c) with (str_len s) by lia. by rewrite IH.
Qed.

(** ** The loop *)

(** The longest prefix within a budget, and the suffix from an offset on. *)
Fixpoint fit_prefix (budget : N) (s : rstr) : rstr :=
  match s with
  | [] => []
  | c :: s' => if len_utf8 c <=? budget then c :: fit_prefix (budget - len_utf8 c) s' else []
  end.
Fixpoint skip_bytes (n : N) (s : rstr) : rstr :=
  match s with
  | [] => []
  | c :: s' => if n =? 0 then s else skip_bytes (n - len_utf8 c) s'
  end.

(** [mid] is what [skip_bytes] skipped. *)
Lemma skip_bytes_split n s :
  ∃ mid, s = mid ++ skip_bytes n s ∧ n ≤ str_len mid + (if is_empty (skip_bytes n s) then n else 0) ∧
    ∀ m c, mid = m ++ [c] → str_len m < n.
Proof.
  revert n. induction s as [|c s IH]; intros n; cbn [skip_bytes].
  { exists []. split_and!; [done | simpl; lia | by intros []]. }
  destruct (N.eqb_spec n 0) as [->|Hn].
  { exists []. split_and!; [done | lia | by intros []]. }
  destruct (IH (n - len_utf8 c)) as (mid & Hs & Hle & Hlast). exists (c :: mid). split_and!.
  - by rewrite Hs at 1.
  - rewrite str_len_cons. destruct (is_empty _); lia.
  - intros [|c' m] d [= <- Hm]; [rewrite str_len_nil; lia|].
    rewrite str_len_cons. specialize (Hlast m d Hm). lia.
Qed.

Section loop.
Context (b target : N).

(** Past the prefix: the next character ends beyond the budget. *)
Definition past_prefix (idx : N) (s : rstr) : Prop :=
  match s with [] => True | c :: _ => b < idx + len_utf8 c end.

Lemma past_prefix_tail idx c s : past_prefix idx (c :: s) → past_prefix (idx + len_utf8 c) s.
Proof. intros H. destruct s; simpl in *; [done|lia]. Qed.

Lemma split_loop_suffix idx s st :
  past_prefix idx s → target ≤ idx → suffix_started st = true →
  split_loop b target idx s st = st.
Proof.
  revert idx. induction s as [|c s IH]; intros idx Hp Ht Hst; [done|]. cbn [split_loop].
  apply past_prefix_tail in Hp as Hp'. simpl in Hp.
  destruct (N.leb_spec (idx + len_utf8 c) b); [lia|].
  destruct (N.leb_spec target idx); [|lia]. rewrite Hst. apply IH; [done | lia | done].
Qed.

Lemma split_loop_middle idx s p r :
  past_prefix idx s →
  ∃ mid, s = mid ++ skip_bytes (target - idx) s ∧
    split_loop b target idx s (mkSplit p (idx + str_len s) (sat r) false) =
    mkSplit p (idx + str_len mid) (sat (r + len mid)) (negb (is_empty (skip_bytes (target - idx) s))).
Proof.
  revert idx r. induction s as [|c s IH]; intros idx r Hp.
  { exists []. split; [done|]. cbn [split_loop skip_bytes is_empty negb].
    by rewrite str_len_nil, (@len_nil N), !N.add_0_r. }
  cbn [split_loop skip_bytes]. apply past_prefix_tail in Hp as Hp'. simpl in Hp.
  destruct (N.leb_spec (idx + len_utf8 c) b); [lia|].
  destruct (N.leb_spec target idx).
  - replace (target - idx) with 0 by lia. cbn [N.eqb]. exists []. split; [done|].
    rewrite split_loop_suffix by (done || lia). cbn [prefix_end removed_chars is_empty negb].
    by rewrite str_len_nil, (@len_nil N), !N.add_0_r.
  - destruct (N.eqb_spec (target - idx) 0); [lia|].
    destruct (IH (idx + len_utf8 c) (r + 1)) as (mid & Hs & Hl); [done|].
    replace (target - (idx + len_utf8 c)) with (target - idx - len_utf8 c) in * by lia.
    exists (c :: mid). split; [by rewrite Hs at 1|]. 
    cbn [suffix_start removed_chars prefix_end suffix_started].
    rewrite sat_add_sat, !str_len_cons, !N.add_assoc, Hl. do 2 f_equal. unfold len. simpl length. lia.
Qed.

Lemma split_loop_prefix idx s total :
  idx ≤ b →
  ∃ rest, s = fit_prefix (b - idx) s ++ rest ∧
    past_prefix (idx + str_len (fit_prefix (b - idx) s)) rest ∧
    str_len (fit_prefix (b - idx) s) ≤ b - idx ∧
    split_loop b target idx s (mkSplit idx total 0 false) =
    split_loop b target (idx + str_len (fit_prefix (b - idx) s)) rest
      (mkSplit (idx + str_len (fit_prefix (b - idx) s)) total 0 false).
Proof.
  revert idx. induction s as [|c s IH]; intros idx Hi; cbn [fit_prefix].
  { exists []. split_and!; [done | done | apply N.le_0_l |]. by rewrite N.add_0_r. }
  destruct (N.leb_spec (len_utf8 c) (b - idx)) as [Hc|Hc].
  - destruct (IH (idx + len_utf8 c)) as (rest & Hs & Hp & Hle & Hl); [lia|].
    replace (b - (idx + len_utf8 c)) with (b - idx - len_utf8 c) in * by lia.
    exists rest. rewrite str_len_cons, N.add_assoc.
    split_and!; [by rewrite Hs at 1 | done | lia |]. cbn [split_loop].
    destruct (N.leb_spec (idx + len_utf8 c) b); [|lia]. exact Hl.
  - exists (c :: s). split_and!; [done | rewrite str_len_nil; simpl; lia | apply N.le_0_l |].
    by rewrite str_len_nil, N.add_0_r.
Qed.
End loop.

(** ** What is cut out *)

(** A text is cut in three at character boundaries: the longest prefix and then
    the longest suffix within the budgets; the middle is counted. *)
Record is_split (s : rstr) (beginning_bytes end_bytes removed : N) (before mid after : rstr) : Prop := {
  split_text : s = before ++ mid ++ after;
  split_removed : removed = sat (len mid);
  split_before : str_len before ≤ beginning_bytes;
  split_after : str_len after ≤ end_bytes;
  split_before_max : ∀ c rest, mid ++ after = c :: rest → beginning_bytes < str_len (before ++ [c]);
  split_after_max : ∀ m c, mid = m ++ [c] → end_bytes < str_len (c :: after);
}.

Lemma fit_prefix_max b s c rest :
  s = fit_prefix b s ++ c :: rest → b < str_len (fit_prefix b s ++ [c]).
Proof.
  revert b. induction s as [|d s IH]; intros b Hs; cbn [fit_prefix] in *; [done|].
  destruct (N.leb_spec (len_utf8 d) b) as [Hd|Hd].
  - simpl in Hs. injection Hs as Hs. specialize (IH _ Hs). rewrite <- app_comm_cons, str_len_cons. lia.
  - injection Hs as <- _. rewrite app_nil_l, str_len_cons, str_len_nil. lia.
Qed.

Lemma skip_bytes_len n s : str_len (skip_bytes n s) ≤ str_len s - n.
Proof.
  revert n. induction s as [|c s IH]; intros n; cbn [skip_bytes]; [rewrite str_len_nil; lia|].
  destruct (N.eqb_spec n 0) as [->|Hn]; [lia|]. rewrite str_len_cons. specialize (IH (n - len_utf8 c)).
  destruct (skip_bytes (n - len_utf8 c) s) eqn:He; [rewrite str_len_nil; lia|].
  destruct (skip_bytes_split (n - len_utf8 c) s) as (mid & Hs & Hle & _).
  rewrite He in *. simpl in Hle. rewrite Hs, str_len_app in *. lia.
Qed.

Lemma split_string_spec s b e :
  ∃ removed before mid after,
    split_string s b e = Some (removed, before, after) ∧ is_split s b e removed before mid after.
Proof.
  unfold split_string. destruct (is_empty s) eqn:Hemp.
  { apply is_empty_true in Hemp as ->. exists 0, [], [], []. split; [done|].
    constructor; (done || apply N.le_0_l || by intros []). }
  clear Hemp. set (target := saturating_sub (str_len s) e).
  destruct (split_loop_prefix b target 0 s (str_len s)) as (rest & Hs & Hp & Hle & ->); [apply N.le_0_l|].
  rewrite N.sub_0_r, N.add_0_l in *. set (before := fit_prefix b s) in *.
  assert (Hlen : str_len s = str_len before + str_len rest) by (by rewrite Hs at 1; rewrite str_len_app).
  destruct (split_loop_middle b target (str_len before) rest (str_len before) 0 Hp)
    as (mid & Hmid & Hloop).
  rewrite <- Hlen, (sat_id 0) in Hloop by apply N.le_0_l. rewrite Hloop.
  set (after := skip_bytes (target - str_len before) rest) in *.
  cbn [prefix_end suffix_start removed_chars].
  destruct (N.ltb_spec (str_len before + str_len mid) (str_len before)) as [Hlt|_]; [lia|].
  assert (Htext : s = before ++ mid ++ after) by (by rewrite Hs at 1; rewrite Hmid at 1).
  assert (Hsl : ∀ u v, s = u ++ v → split_at_byte (str_len u) s = Some (u, v))
    by (intros u v ->; apply split_at_byte_app).
  rewrite (Hsl before (mid ++ after)) by done. rewrite <- str_len_app.
  rewrite (Hsl (before ++ mid) after) by (by rewrite <- (assoc_L app)). cbn [mbind option_bind fst snd].
  exists (sat (0 + len mid)), before, mid, after. split; [done|].
  constructor; [done | by rewrite N.add_0_l | done | | |].
  - pose proof (skip_bytes_len (target - str_len before) rest) as Hk. fold after in Hk.
    unfold target, saturating_sub in Hk. lia.
  - intros c k Hk. apply (fit_prefix_max b s c k). fold before. by rewrite <- Hk.
  - intros m c ->. destruct (skip_bytes_split (target - str_len before) rest) as (mid' & Hm' & _ & Hlast).
    fold after in Hm'. rewrite Hmid in Hm' at 1. apply app_inv_tail in Hm'. symmetry in Hm'.
    specialize (Hlast m c Hm'). unfold target, saturating_sub in Hlast.
    rewrite Hmid, !str_len_app, str_len_cons, str_len_nil in Hlen. rewrite str_len_cons. lia.
Qed.

(** What truncation gives, on every branch; it never slices off a boundary. *)
Inductive truncated (use_tokens : bool) (max_bytes : N) (s : rstr) : rstr → Prop :=
| truncated_empty : s = [] → truncated use_tokens max_bytes s []
| truncated_to_nothing :
    s ≠ [] → max_bytes = 0 →
    truncated use_tokens max_bytes s
      (format_truncation_marker use_tokens (removed_units use_tokens (str_len s) (len s)))
| truncated_fits : s ≠ [] → 0 < max_bytes → str_len s ≤ max_bytes → truncated use_tokens max_bytes s s
| truncated_middle before mid after :
    0 < max_bytes < str_len s → mid ≠ [] →
    is_split s (max_bytes / 2) (max_bytes - max_bytes / 2) (sat (len mid)) before mid after →
    str_len before + str_len after ≤ max_bytes →
    truncated use_tokens max_bytes s
      (before ++ format_truncation_marker use_tokens
         (removed_units use_tokens (str_len s - max_bytes) (sat (len mid))) ++ after).

Lemma truncate_with_byte_estimate_spec s max_bytes use_tokens :
  ∃ out, truncate_with_byte_estimate s max_bytes use_tokens = Some out ∧
    truncated use_tokens max_bytes s out.
Proof.
  unfold truncate_with_byte_estimate. destruct (is_empty s) eqn:Hemp.
  { apply is_empty_true in Hemp as ->. exists []. split; [done|]. by constructor. }
  assert (Hne : s ≠ []) by (by intros ->).
  destruct (N.eqb_spec max_bytes 0) as [->|Hmax].
  { eexists. split; [done|]. by constructor 2. }
  destruct (N.leb_spec (str_len s) max_bytes) as [Hle|Hgt].
  { exists s. split; [done|]. constructor 3; (done || lia). }
  cbn [split_budget].
  destruct (split_string_spec s (max_bytes / 2) (max_bytes - max_bytes / 2))
    as (removed & before & mid & after & -> & Hsplit).
  cbn [mbind option_bind]. unfold assemble_truncated_output. eexists. split; [done|].
  destruct Hsplit as [Ht Hr Hb Ha Hbm Ham]. subst removed.
  assert (Hhalf : max_bytes / 2 ≤ max_bytes) by (apply N.Div0.div_le_upper_bound; lia).
  constructor 4 with (mid := mid); [lia | | by constructor | lia].
  intros ->. rewrite Ht, !str_len_app, str_len_nil in Hgt. lia.
Qed.

(** Truncation to a number of bytes always gives a result, the text itself when
    it fits and otherwise a prefix and a suffix within the budget around a
    marker that counts what was removed. *)
Theorem truncate_middle_chars_bounds s max_bytes :
  ∃ out, truncate_middle_chars s max_bytes = Some out ∧ truncated false max_bytes s out.
Proof. apply truncate_with_byte_estimate_spec. Qed.

(** A prefix within a byte budget *)
Lemma take_bytes_loop_spec maxb i s :
  i ≤ maxb → take_bytes_loop maxb i i s = i + str_len (fit_prefix (maxb - i) s).
Proof.
  revert i. induction s as [|c s IH]; intros i Hi; cbn [take_bytes_loop fit_prefix];
    [by rewrite str_len_nil, N.add_0_r|].
  destruct (N.ltb_spec maxb (i + len_utf8 c)), (N.leb_spec (len_utf8 c) (maxb - i)); try lia.
  - by rewrite str_len_nil, N.add_0_r.
  - rewrite IH, str_len_cons by lia.
    replace (maxb - (i + len_utf8 c)) with (maxb - i - len_utf8 c) by lia. lia.
Qed.

Lemma fit_prefix_prefix b s : ∃ rest, s = fit_prefix b s ++ rest ∧ str_len (fit_prefix b s) ≤ b.
Proof.
  revert b. induction s as [|c s IH]; intros b; cbn [fit_prefix]; [exists []; split; [done | apply N.le_0_l]|].
  destruct (N.leb_spec (len_utf8 c) b).
  - destruct (IH (b - len_utf8 c)) as (rest & Hs & Hle). exists rest. rewrite str_len_cons.
    split; [by rewrite Hs at 1 | lia].
  - exists (c :: s). split; [done | apply N.le_0_l].
Qed.

Lemma take_bytes_spec s maxb :
  take_bytes_at_char_boundary s maxb = Some (if str_len s <=? maxb then s else fit_prefix maxb s).
Proof.
  unfold take_bytes_at_char_boundary. destruct (N.leb_spec (str_len s) maxb); [done|].
  rewrite take_bytes_loop_spec, N.sub_0_r, N.add_0_l by apply N.le_0_l.
  destruct (fit_prefix_prefix maxb s) as (rest & Hs & _). rewrite Hs at 2.
  by rewrite split_at_byte_app.
Qed.
