(* ===== verification/OutputTruncation.v ===== *)
(** Truncation of tool output: [utils/output-truncation/src/lib.rs], with the
    budgets of [TruncationPolicy] ([protocol/src/protocol.rs]) and the content
    items of [protocol/src/models.rs], and what it keeps: no panic, every item
    kept, cut or counted, and the kept items within the budget.
    [None] is a panic of the string functions; [estimate_audio_token_count] is
    the caller's function. [with_serialization_allowance] multiplies by a float
    and is left out. *)

From S2P Require Import Prelude Utf8 HeadTailBuffer Truncation.
#[local] Open Scope N_scope.
#[local] Opaque str.

Inductive TruncationPolicy := Bytes (bytes : N) | Tokens (tokens : N).

Definition token_budget (p : TruncationPolicy) : N :=
  match p with
  | Bytes bytes => approx_tokens_from_byte_count bytes
  | Tokens tokens => tokens
  end.
Definition byte_budget (p : TruncationPolicy) : N :=
  match p with
  | Bytes bytes => bytes
  | Tokens tokens => approx_bytes_for_tokens tokens
  end.

Inductive ImageDetail := Auto | Low | High | Original.
Inductive FunctionCallOutputContentItem :=
| InputText (text : rstr)
| InputImage (image_url : rstr) (detail : option ImageDetail)
| InputAudio (audio_url : rstr)
| EncryptedContent (encrypted_content : rstr).
Inductive FunctionCallOutputBody :=
| BodyText (text : rstr)
| ContentItems (items : list FunctionCallOutputContentItem).
Record FunctionCallOutputPayload := mkPayload {
  payload_body : FunctionCallOutputBody;
  payload_success : option bool;
}.

Definition truncate_text (content : rstr) (policy : TruncationPolicy) : option rstr :=
  match policy with
  | Bytes bytes => truncate_middle_chars content bytes
  | Tokens tokens => fst <$> truncate_middle_with_token_budget content tokens
  end.

Definition formatted_truncate_text (content : rstr) (policy : TruncationPolicy) : option rstr :=
  if str_len content <=? byte_budget policy then Some content
  else
    let original_token_count := approx_token_count content in
    let total_lines := len (lines content) in
    result ← truncate_text content policy;
    Some (str "Warning: truncated output (original token count: "
          ++ str (pretty original_token_count) ++ str ")" ++ [ch_nl]
          ++ str "Total output lines: " ++ str (pretty total_lines) ++ [ch_nl; ch_nl] ++ result).

Section items.
Context (estimate_audio_token_count : rstr → N).
Implicit Types (item : FunctionCallOutputContentItem) (items : list FunctionCallOutputContentItem).

(** The variables of the loop of [truncate_function_output_items_with_policy] *)
Record ItemState := mkItems {
  it_out : list FunctionCallOutputContentItem;
  remaining_budget : N;
  omitted_text_items : N;
  omitted_audio_items : N;
}.

Definition text_cost (policy : TruncationPolicy) (text : rstr) : N :=
  match policy with Bytes _ => str_len text | Tokens _ => approx_token_count text end.
Definition audio_cost (policy : TruncationPolicy) (audio_url : rstr) : N :=
  let token_cost := estimate_audio_token_count audio_url in
  match policy with Bytes _ => approx_bytes_for_tokens token_cost | Tokens _ => token_cost end.
Definition snippet_policy (policy : TruncationPolicy) (remaining : N) : TruncationPolicy :=
  match policy with Bytes _ => Bytes remaining | Tokens _ => Tokens remaining end.

Definition items_step (policy : TruncationPolicy) (st : ItemState) item : option ItemState :=
  let '(mkItems out remaining omitted_text omitted_audio) := st in
  match item with
  | InputText text =>
      if is_empty text then Some st
      else if remaining =? 0 then Some (mkItems out remaining (omitted_text + 1) omitted_audio)
      else
        let cost := text_cost policy text in
        if cost <=? remaining
        then Some (mkItems (out ++ [InputText text]) (saturating_sub remaining cost)
                     omitted_text omitted_audio)
        else
          snippet ← truncate_text text (snippet_policy policy remaining);
          Some (if is_empty snippet then mkItems out 0 (omitted_text + 1) omitted_audio
                else mkItems (out ++ [InputText snippet]) 0 omitted_text omitted_audio)
  | InputImage _ _ | EncryptedContent _ =>
      Some (mkItems (out ++ [item]) remaining omitted_text omitted_audio)
  | InputAudio audio_url =>
      let cost := audio_cost policy audio_url in
      Some (if cost <=? remaining
            then mkItems (out ++ [item]) (saturating_sub remaining cost) omitted_text omitted_audio
            else mkItems out remaining omitted_text (omitted_audio + 1))
  end.
Fixpoint items_loop (policy : TruncationPolicy) (st : ItemState) items : option ItemState :=
  match items with
  | [] => Some st
  | item :: items' => st ← items_step policy st item; items_loop policy st items'
  end.

Definition omitted_marker (n : N) (what : rstr) : FunctionCallOutputContentItem :=
  InputText (str "[omitted " ++ str (pretty n) ++ what).
Definition initial_budget (policy : TruncationPolicy) : N :=
  match policy with Bytes _ => byte_budget policy | Tokens _ => token_budget policy end.

Definition truncate_function_output_items_with_policy items (policy : TruncationPolicy)
    : option (list FunctionCallOutputContentItem) :=
  st ← items_loop policy (mkItems [] (initial_budget policy) 0 0) items;
  Some (it_out st
        ++ (if 0 <? omitted_text_items st
            then [omitted_marker (omitted_text_items st) (str " text items ...]")] else [])
        ++ (if 0 <? omitted_audio_items st
            then [omitted_marker (omitted_audio_items st) (str " audio items ...]")] else [])).

Definition truncate_function_output_payload (output : FunctionCallOutputPayload)
    (policy : TruncationPolicy) : option FunctionCallOutputPayload :=
  match payload_body output with
  | BodyText text =>
      text ← truncate_text text policy;
      Some (mkPayload (BodyText text) (payload_success output))
  | ContentItems items =>
      items ← truncate_function_output_items_with_policy items policy;
      Some (mkPayload (ContentItems items) (payload_success output))
  end.

Definition item_text item : option rstr :=
  match item with InputText text => Some text | _ => None end.
Definition is_media item : bool := match item with InputText _ => false | _ => true end.

(** The texts with a newline between them, none before the first non-empty one *)
Definition join_texts (texts : list rstr) : rstr :=
  fold_left (λ combined text, (if is_empty combined then [] else combined ++ [ch_nl]) ++ text) texts [].

Definition formatted_truncate_text_content_items_with_policy items (policy : TruncationPolicy)
    : option (list FunctionCallOutputContentItem * option N) :=
  let text_segments := omap item_text items in
  if is_empty text_segments then Some (items, None)
  else
    let combined := join_texts text_segments in
    if str_len combined <=? byte_budget policy then Some (items, None)
    else
      let original_token_count := approx_token_count combined in
      text ← formatted_truncate_text combined policy;
      Some (InputText text :: filter is_media items, Some original_token_count).
End items.

(** [i64] saturates at 2^63 - 1. *)
Definition approx_tokens_from_byte_count_i64 (bytes : Z) : Z :=
  if (bytes <=? 0)%Z then 0%Z
  else Z.min (Z.of_N (approx_tokens_from_byte_count (Z.to_N bytes))) (2 ^ 63 - 1).

(** ** What truncation keeps *)

#[local] Open Scope N_scope.
#[local] Opaque str.

Lemma truncate_text_total content policy : ∃ out, truncate_text content policy = Some out.
Proof.
  destruct policy as [bytes|tokens]; simpl.
  - destruct (truncate_with_byte_estimate_spec content bytes false) as (out & H & _). by exists out.
  - unfold truncate_middle_with_token_budget. repeat case_match; try by eexists.
    destruct (truncate_with_byte_estimate_spec content (approx_bytes_for_tokens tokens) true)
      as (out & -> & _). by eexists.
Qed.

Section props.
Context (estimate_audio_token_count : rstr → N) (policy : TruncationPolicy).
Abbreviation audio := (audio_cost estimate_audio_token_count policy).
Abbreviation step := (items_step estimate_audio_token_count policy).
Abbreviation loop := (items_loop estimate_audio_token_count policy).

(** An item that is in the output: as it was, or a text cut to a budget. *)
Inductive kept_item :=
| KeptWhole (item : FunctionCallOutputContentItem)
| KeptCut (text : rstr) (budget : N) (snippet : rstr).
Definition original (k : kept_item) : FunctionCallOutputContentItem :=
  match k with KeptWhole item => item | KeptCut text _ _ => InputText text end.
Definition emitted (k : kept_item) : FunctionCallOutputContentItem :=
  match k with KeptWhole item => item | KeptCut _ _ snippet => InputText snippet end.

Definition item_cost (item : FunctionCallOutputContentItem) : N :=
  match item with
  | InputText text => text_cost policy text
  | InputAudio url => audio url
  | _ => 0
  end.
(** What the items kept whole cost, and how many are cut *)
Definition whole_cost (kept : list kept_item) : N :=
  foldr (λ k acc, match k with KeptWhole item => item_cost item + acc | KeptCut _ _ _ => acc end) 0 kept.
Definition cuts (kept : list kept_item) : N :=
  foldr (λ k acc, match k with KeptWhole _ => acc | KeptCut _ _ _ => 1 + acc end) 0 kept.

(** A cut text did not fit in what was left, which is what it was cut to. *)
Definition kept_ok (budget : N) (k : kept_item) : Prop :=
  match k with
  | KeptWhole _ => True
  | KeptCut text n snippet =>
      n ≤ budget ∧ n < text_cost policy text ∧ truncate_text text (snippet_policy policy n) = Some snippet
  end.

Definition is_text_item (item : FunctionCallOutputContentItem) : bool :=
  match item with InputText text => negb (is_empty text) | _ => false end.
Definition is_audio (item : FunctionCallOutputContentItem) : bool :=
  match item with InputAudio _ => true | _ => false end.
Definition is_opaque (item : FunctionCallOutputContentItem) : bool :=
  match item with InputImage _ _ | EncryptedContent _ => true | _ => false end.
Definition count (f : FunctionCallOutputContentItem → bool) (l : list FunctionCallOutputContentItem) : N :=
  foldr (λ x acc, (if f x then 1 else 0) + acc) 0 l.

(** What a part of the loop does to the state. *)
Record loop_ok (items : list FunctionCallOutputContentItem) (st st' : ItemState)
    (kept : list kept_item) : Prop := {
  lo_out : it_out st' = it_out st ++ (emitted <$> kept);
  lo_sub : (original <$> kept) `sublist_of` items;
  lo_kept : Forall (kept_ok (remaining_budget st)) kept;
  lo_budget : whole_cost kept + remaining_budget st' ≤ remaining_budget st;
  lo_cuts : cuts kept ≤ 1 ∧ (cuts kept = 1 → remaining_budget st' = 0) ∧
            (remaining_budget st = 0 → cuts kept = 0);
  lo_text : omitted_text_items st' + count is_text_item (original <$> kept)
            = omitted_text_items st + count is_text_item items;
  lo_audio : omitted_audio_items st' + count is_audio (original <$> kept)
             = omitted_audio_items st + count is_audio items;
  lo_opaque : filter is_opaque (emitted <$> kept) = filter is_opaque items;
}.

Lemma count_app f a b : count f (a ++ b) = count f a + count f b.
Proof. unfold count. induction a as [|x a IH]; cbn [foldr app]; rewrite ?IH; lia. Qed.
Lemma whole_cost_app a b : whole_cost (a ++ b) = whole_cost a + whole_cost b.
Proof. unfold whole_cost. induction a as [|[] a IH]; cbn [foldr app]; rewrite ?IH; lia. Qed.
Lemma cuts_app a b : cuts (a ++ b) = cuts a + cuts b.
Proof. unfold cuts. induction a as [|[] a IH]; cbn [foldr app]; rewrite ?IH; lia. Qed.

Lemma loop_ok_app items1 items2 st1 st2 st3 kept1 kept2 :
  loop_ok items1 st1 st2 kept1 → loop_ok items2 st2 st3 kept2 →
  loop_ok (items1 ++ items2) st1 st3 (kept1 ++ kept2).
Proof.
  intros [O1 S1 K1 B1 (C1 & Ca & Cb) T1 A1 M1] [O2 S2 K2 B2 (C2 & Cc & Cd) T2 A2 M2].
  constructor.
  - by rewrite O2, O1, fmap_app, <- (assoc_L app).
  - rewrite fmap_app. by apply sublist_app.
  - apply Forall_app. split; [done|]. eapply Forall_impl; [exact K2|].
    intros [] Hk; [done|]. destruct Hk as (H1 & H2 & H3). split_and!; [lia | done | done].
  - rewrite whole_cost_app. lia.
  - rewrite cuts_app. split_and!; lia.
  - rewrite fmap_app, !count_app. lia.
  - rewrite fmap_app, !count_app. lia.
  - by rewrite fmap_app, !filter_app, M1, M2.
Qed.

(** One item: dropped without trace or with its count, kept whole, or cut. *)
Lemma loop_ok_drop item st st' :
  it_out st' = it_out st → remaining_budget st' ≤ remaining_budget st →
  omitted_text_items st' = omitted_text_items st + count is_text_item [item] →
  omitted_audio_items st' = omitted_audio_items st + count is_audio [item] →
  is_opaque item = false → loop_ok [item] st st' [].
Proof.
  intros Ho Hb Ht Ha Hm. constructor; cbn [fmap list_fmap].
  - by rewrite app_nil_r.
  - apply sublist_nil_l.
  - constructor.
  - simpl. lia.
  - simpl. lia.
  - rewrite Ht. simpl. lia.
  - rewrite Ha. simpl. lia.
  - rewrite filter_cons_False; [done|]. rewrite Hm. by intros [].
Qed.

Lemma loop_ok_keep item k st st' :
  original k = item → is_opaque (emitted k) = is_opaque item →
  (is_opaque item = true → emitted k = item) → kept_ok (remaining_budget st) k →
  it_out st' = it_out st ++ [emitted k] → whole_cost [k] + remaining_budget st' ≤ remaining_budget st →
  (cuts [k] = 1 → remaining_budget st' = 0 ∧ remaining_budget st ≠ 0) →
  omitted_text_items st' = omitted_text_items st → omitted_audio_items st' = omitted_audio_items st →
  loop_ok [item] st st' [k].
Proof.
  intros <- Hopq Heq Hk Ho Hb Hc Ht Ha. constructor; cbn [fmap list_fmap].
  - done.
  - done.
  - by constructor.
  - done.
  - assert (cuts [k] = 0 ∨ cuts [k] = 1) as [->| H1] by (destruct k; auto); [split_and!; lia|].
    destruct (Hc H1). rewrite H1. split_and!; lia || done.
  - by rewrite Ht.
  - by rewrite Ha.
  - destruct (is_opaque (original k)) eqn:Hop.
    + by rewrite Heq.
    + rewrite !filter_cons_False; [done | rewrite Hop; by intros [] | rewrite Hopq; by intros []].
Qed.

Lemma step_ok st item : ∃ st' kept, step st item = Some st' ∧ loop_ok [item] st st' kept.
Proof.
  destruct st as [out remaining ot oa].
  destruct item as [text|url detail|url|content]; cbn [items_step].
  - destruct (is_empty text) eqn:He; [|destruct (N.eqb_spec remaining 0) as [->|Hr];
      [|destruct (N.leb_spec (text_cost policy text) remaining) as [Hc|Hc]]].
    + eexists _, []. split; [done|]. apply loop_ok_drop; simpl; rewrite ?He; simpl; done || lia.
    + eexists _, []. split; [done|]. apply loop_ok_drop; simpl; rewrite ?He; simpl; done || lia.
    + eexists _, [KeptWhole (InputText text)]. split; [done|].
      apply loop_ok_keep; simpl; unfold saturating_sub; done || lia.
    + destruct (truncate_text_total text (snippet_policy policy remaining)) as [snippet Hs].
      rewrite Hs. cbn [mbind option_bind]. destruct (is_empty snippet).
      * eexists _, []. split; [done|]. apply loop_ok_drop; simpl; rewrite ?He; simpl; done || lia.
      * eexists _, [KeptCut text remaining snippet]. split; [done|].
        apply loop_ok_keep; simpl; done || lia || by split_and!.
  - eexists _, [KeptWhole (InputImage url detail)]. split; [done|]. apply loop_ok_keep; simpl; done || lia.
  - destruct (N.leb_spec (audio url) remaining).
    + eexists _, [KeptWhole (InputAudio url)]. split; [done|].
      apply loop_ok_keep; simpl; unfold saturating_sub; done || lia.
    + eexists _, []. split; [done|]. apply loop_ok_drop; simpl; done || lia.
  - eexists _, [KeptWhole (EncryptedContent content)]. split; [done|].
    apply loop_ok_keep; simpl; done || lia.
Qed.

Lemma items_loop_ok items st : ∃ st' kept, loop st items = Some st' ∧ loop_ok items st st' kept.
Proof.
  revert st. induction items as [|item items IH]; intros st; cbn [items_loop].
  - exists st, []. split; [done|]. constructor; try done. by rewrite app_nil_r.
  - destruct (step_ok st item) as (st1 & k1 & -> & H1). cbn [mbind option_bind].
    destruct (IH st1) as (st2 & k2 & -> & H2). exists st2, (k1 ++ k2). split; [done|].
    exact (loop_ok_app [item] items _ _ _ _ _ H1 H2).
Qed.

(** The lines at the end that count what was left out *)
Definition omission_markers (texts audios : N) : list FunctionCallOutputContentItem :=
  (if 0 <? texts then [omitted_marker texts (str " text items ...]")] else []) ++
  (if 0 <? audios then [omitted_marker audios (str " audio items ...]")] else []).

(** Truncating a list of output items accounts for every item: the kept items
    are a sublist in order, the dropped texts and recordings are counted in the
    markers, images and encrypted items all stay, whole items cost no more than
    the budget, and at most one text is cut, to what was left. *)
Theorem truncated_items_accounted items :
  ∃ kept texts audios,
    truncate_function_output_items_with_policy estimate_audio_token_count items policy
    = Some ((emitted <$> kept) ++ omission_markers texts audios) ∧
    (original <$> kept) `sublist_of` items ∧
    texts + count is_text_item (original <$> kept) = count is_text_item items ∧
    audios + count is_audio (original <$> kept) = count is_audio items ∧
    filter is_opaque (emitted <$> kept) = filter is_opaque items ∧
    whole_cost kept ≤ initial_budget policy ∧ cuts kept ≤ 1 ∧
    Forall (kept_ok (initial_budget policy)) kept.
Proof.
  destruct (items_loop_ok items (mkItems [] (initial_budget policy) 0 0)) as (st & kept & Hl & Hok).
  destruct Hok as [Ho Hs Hk Hb (Hc & _) Ht Ha Hm]. cbn [it_out remaining_budget omitted_text_items omitted_audio_items] in *.
  exists kept, (omitted_text_items st), (omitted_audio_items st).
  unfold truncate_function_output_items_with_policy. rewrite Hl. cbn [mbind option_bind].
  rewrite Ho. split_and!; (done || lia).
Qed.

(** ** Output within the budget *)

Definition total_cost (items : list FunctionCallOutputContentItem) : N :=
  foldr (λ item acc, item_cost item + acc) 0 items.
Definition not_empty_text (item : FunctionCallOutputContentItem) : bool :=
  match item with InputText text => negb (is_empty text) | _ => true end.

Lemma text_cost_pos text : is_empty text = false → 0 < text_cost policy text.
Proof.
  destruct text as [|c text]; [done|]. intros _. pose proof (len_utf8_pos c).
  assert (0 < str_len (c :: text)) by (rewrite str_len_cons; lia).
  destruct policy; simpl; [done|]. unfold approx_token_count, saturating_add, saturating_sub, sat.
  apply N.div_str_pos. assert (APPROX_BYTES_PER_TOKEN ≤ usize_max) by done.
  unfold APPROX_BYTES_PER_TOKEN in *. lia.
Qed.

Lemma items_loop_fits items st :
  total_cost items ≤ remaining_budget st →
  ∃ r, loop st items = Some (mkItems (it_out st ++ filter not_empty_text items) r
                               (omitted_text_items st) (omitted_audio_items st)).
Proof.
  revert st. induction items as [|item items IH]; intros [out remaining ot oa] Hc.
  { exists remaining. by rewrite app_nil_r. }
  cbn [total_cost foldr remaining_budget] in Hc. fold (total_cost items) in Hc.
  cbn [items_loop it_out omitted_text_items omitted_audio_items].
  assert (Hkeep : ∀ r, not_empty_text item = true → total_cost items ≤ r →
    step (mkItems out remaining ot oa) item = Some (mkItems (out ++ [item]) r ot oa) →
    ∃ r', (step (mkItems out remaining ot oa) item ≫= λ st, loop st items) =
      Some (mkItems (out ++ filter not_empty_text (item :: items)) r' ot oa)).
  { intros r Hne Hr ->. cbn [mbind option_bind]. destruct (IH (mkItems (out ++ [item]) r ot oa) Hr) as [r' ->].
    exists r'. rewrite filter_cons_True by (by rewrite Hne). cbn [it_out omitted_text_items omitted_audio_items].
    by rewrite <- (assoc_L app). }
  destruct item as [text|url detail|url|content]; cbn [item_cost] in Hc.
  - destruct (is_empty text) eqn:He.
    + cbn [items_step]. rewrite He. cbn [mbind option_bind].
      rewrite filter_cons_False by (simpl; rewrite He; by intros []).
      apply (IH (mkItems out remaining ot oa)). cbn [remaining_budget]. lia.
    + pose proof (text_cost_pos text He). apply (Hkeep (remaining - text_cost policy text)); [by simpl; rewrite He | lia|].
      cbn [items_step]. rewrite He. destruct (N.eqb_spec remaining 0); [lia|].
      by destruct (N.leb_spec (text_cost policy text) remaining); [|lia].
  - apply (Hkeep remaining); [done | lia | done].
  - apply (Hkeep (remaining - audio url)); [done | lia|]. cbn [items_step].
    by destruct (N.leb_spec (audio url) remaining); [|lia].
  - apply (Hkeep remaining); [done | lia | done].
Qed.

(** Items that fit in the budget together are all kept, apart from empty texts.
    *)
Theorem items_within_budget_kept items :
  total_cost items ≤ initial_budget policy →
  truncate_function_output_items_with_policy estimate_audio_token_count items policy
  = Some (filter not_empty_text items).
Proof.
  intros Hc. unfold truncate_function_output_items_with_policy.
  destruct (items_loop_fits items (mkItems [] (initial_budget policy) 0 0) Hc) as [r ->].
  cbn [mbind option_bind it_out omitted_text_items omitted_audio_items]. simpl. by rewrite !app_nil_r.
Qed.
End props.

Lemma items_within_budget_kept_witness :
  truncate_function_output_items_with_policy (λ _, 2)
    [InputText (str "ab"); InputText []; InputImage (str "u") None; InputAudio (str "v")] (Tokens 3)
  = Some [InputText (str "ab"); InputImage (str "u") None; InputAudio (str "v")].
Proof.
  apply (items_within_budget_kept (λ _, 2) (Tokens 3)
           [InputText (str "ab"); InputText []; InputImage (str "u") None; InputAudio (str "v")]).
  by vm_compute.
Defined.
