(* ===== verification/History.v ===== *)
(** Conversation history: the items of [protocol/src/models.rs], the content
    annotations of [context-fragments/src/annotated_content.rs] and the
    normalisation that every prompt goes through
    ([core/src/context_manager/normalize.rs], [normalize_history] and
    [remove_first_item] of [history.rs]).

    Values that the code only carries along (JSON arguments, shell actions,
    reasoning summaries) are texts of type [Json]. [debug] is [debug_assertions]:
    [error_or_panic] panics in such a build, which is [None] here. [uuid_v5] is
    the name-based UUID of the [uuid] crate in the fixed namespace. *)

From S2P Require Import Prelude OutputTruncation.

#[local] Opaque str.

(** ** Items *)

Definition Json : Type := rstr.

Inductive ContentItem :=
| CInputText (text : rstr)
| CInputImage (image_url : rstr) (detail : option ImageDetail)
| CInputAudio (audio_url : rstr)
| COutputText (text : rstr).
Inductive AgentMessageInputContent :=
| AgentInputText (text : rstr)
| AgentEncryptedContent (encrypted_content : rstr).

(** [InternalChatMessageMetadataPassthrough]; [pt_other] stands for the fields
    that are only carried along. *)
Record Passthrough := mkPassthrough {
  pt_turn_id : option rstr;
  content_item_kinds : option (list rstr);
  pt_other : Json;
}.
Definition passthrough_default : Passthrough := mkPassthrough None None [].

Inductive ResponseItem :=
| AdditionalTools (id : option rstr) (role : rstr) (tools : list Json)
| Message (id : option rstr) (role : rstr) (content : list ContentItem) (phase : option rstr)
    (meta : option Passthrough)
| AgentMessage (id : option rstr) (author recipient : rstr)
    (content : list AgentMessageInputContent) (meta : option Passthrough)
| Reasoning (id : option rstr) (summary : Json) (content : option Json)
    (encrypted_content : option rstr) (meta : option Passthrough)
| LocalShellCall (id call_id : option rstr) (status action : Json) (meta : option Passthrough)
| FunctionCall (id : option rstr) (name : rstr) (namespace : option rstr) (arguments : rstr)
    (encrypted_function_args : option (list rstr)) (call_id : rstr) (meta : option Passthrough)
| ToolSearchCall (id call_id status : option rstr) (execution : rstr) (arguments : Json)
    (meta : option Passthrough)
| FunctionCallOutput (id call_id name namespace : option rstr) (output : FunctionCallOutputPayload)
    (meta : option Passthrough)
| CustomToolCall (id status : option rstr) (call_id name : rstr) (namespace : option rstr)
    (input : rstr) (meta : option Passthrough)
| CustomToolCallOutput (id : option rstr) (call_id : rstr) (name : option rstr)
    (output : FunctionCallOutputPayload) (meta : option Passthrough)
| ToolSearchOutput (id call_id : option rstr) (status execution : rstr) (tools : list Json)
    (meta : option Passthrough)
| WebSearchCall (id status : option rstr) (action : option Json) (meta : option Passthrough)
| ImageGenerationCall (id : option rstr) (status : rstr) (revised_prompt : option rstr)
    (result : rstr) (meta : option Passthrough)
| Compaction (id : option rstr) (encrypted_content : rstr) (meta : option Passthrough)
| ConfigurationUpdate (reasoning : Json)
| CompactionTrigger
| ContextCompaction (id encrypted_content : option rstr) (meta : option Passthrough)
| Other.

Record CodexHarnessMetadata := mkHarness {
  client_authored : bool;
  history_truncation_token_limit : option N;
  harness_authored_configuration : bool;
  compaction_model_hash : option rstr;
  user_input_order : option N;
  inherited_user_message : bool;
}.
Record ResponseItemEnvelope := mkEnvelope {
  item : ResponseItem;
  metadata : option CodexHarnessMetadata;
}.
Definition envelope_new (i : ResponseItem) : ResponseItemEnvelope := mkEnvelope i None.

(** [is_api_message] *)
Definition is_api_message (message : ResponseItem) (meta : option CodexHarnessMetadata) : bool :=
  match message with
  | Message _ role _ _ _ => negb (str_eqb role (str "system"))
  | ConfigurationUpdate _ =>
      match meta with Some m => harness_authored_configuration m | None => false end
  | CompactionTrigger | Other => false
  | _ => true
  end.

(** ** Annotated content *)

Record AnnotatedContent := mkAnnotated { an_content : ContentItem; an_kind : rstr }.

(** The item left behind, with content and kinds taken, and the annotated
    content; missing kinds are "unknown". *)
Fixpoint zip_kinds (content : list ContentItem) (kinds : list rstr) : list AnnotatedContent :=
  match content with
  | [] => []
  | c :: content' =>
      match kinds with
      | [] => mkAnnotated c (str "unknown") :: zip_kinds content' []
      | k :: kinds' => mkAnnotated c k :: zip_kinds content' kinds'
      end
  end.
Definition to_annotated_content (i : ResponseItem) : ResponseItem * option (list AnnotatedContent) :=
  match i with
  | Message id role content phase meta =>
      let kinds := default [] (meta ≫= content_item_kinds) in
      let meta := (λ m, mkPassthrough (pt_turn_id m) None (pt_other m)) <$> meta in
      (Message id role [] phase meta, Some (zip_kinds content kinds))
  | _ => (i, None)
  end.
Definition set_annotated_content (i : ResponseItem) (annotated : list AnnotatedContent) : ResponseItem :=
  match i with
  | Message id role _ phase meta =>
      let m := default passthrough_default meta in
      Message id role (an_content <$> annotated) phase
        (Some (mkPassthrough (pt_turn_id m) (Some (an_kind <$> annotated)) (pt_other m)))
  | _ => i
  end.

(** ** Unsupported media *)

Inductive InputModality := TextModality | ImageModality | AudioModality.
#[global] Instance modality_eq_dec : EqDecision InputModality.
Proof. solve_decision. Defined.

(** [UnsupportedMedia]; its markers are empty, so that it renders as its text. *)
Record UnsupportedMedia := mkUnsupported { um_text : rstr; um_content_kind : rstr }.
Definition UNSUPPORTED_IMAGE : UnsupportedMedia :=
  mkUnsupported (str "image content omitted because you do not support image input")
    (str "images.unsupported").
Definition UNSUPPORTED_AUDIO : UnsupportedMedia :=
  mkUnsupported (str "audio content omitted because you do not support audio input")
    (str "audio.unsupported").
Definition render_annotated (u : UnsupportedMedia) : AnnotatedContent :=
  mkAnnotated (CInputText (um_text u)) (um_content_kind u).

Definition is_content_image (c : ContentItem) : bool :=
  match c with CInputImage _ _ => true | _ => false end.
Definition is_content_audio (c : ContentItem) : bool :=
  match c with CInputAudio _ => true | _ => false end.
Definition is_output_image (c : FunctionCallOutputContentItem) : bool :=
  match c with InputImage _ _ => true | _ => false end.
Definition is_output_audio (c : FunctionCallOutputContentItem) : bool :=
  match c with InputAudio _ => true | _ => false end.

(** The loops over the content of a message and of an output, which the two
    functions below share. *)
Definition replace_in_message (bad : ContentItem → bool) (u : UnsupportedMedia) (i : ResponseItem)
    : ResponseItem :=
  match to_annotated_content i with
  | (i, Some content) =>
      set_annotated_content i
        ((λ c, if bad (an_content c) then render_annotated u else c) <$> content)
  | (i, None) => i
  end.
Definition replace_in_output (bad : FunctionCallOutputContentItem → bool) (u : UnsupportedMedia)
    (output : FunctionCallOutputPayload) : FunctionCallOutputPayload :=
  match payload_body output with
  | BodyText _ => output
  | ContentItems items =>
      mkPayload (ContentItems ((λ c, if bad c then InputText (um_text u) else c) <$> items))
        (payload_success output)
  end.

Definition strip_image_item (i : ResponseItem) : ResponseItem :=
  match i with
  | Message _ _ _ _ _ => replace_in_message is_content_image UNSUPPORTED_IMAGE i
  | FunctionCallOutput id call_id name namespace output meta =>
      FunctionCallOutput id call_id name namespace
        (replace_in_output is_output_image UNSUPPORTED_IMAGE output) meta
  | CustomToolCallOutput id call_id name output meta =>
      CustomToolCallOutput id call_id name
        (replace_in_output is_output_image UNSUPPORTED_IMAGE output) meta
  | ImageGenerationCall id status revised_prompt _ meta =>
      ImageGenerationCall id status revised_prompt [] meta
  | _ => i
  end.
Definition strip_audio_item (i : ResponseItem) : ResponseItem :=
  match i with
  | Message _ _ _ _ _ => replace_in_message is_content_audio UNSUPPORTED_AUDIO i
  | FunctionCallOutput id call_id name namespace output meta =>
      FunctionCallOutput id call_id name namespace
        (replace_in_output is_output_audio UNSUPPORTED_AUDIO output) meta
  | CustomToolCallOutput id call_id name output meta =>
      CustomToolCallOutput id call_id name
        (replace_in_output is_output_audio UNSUPPORTED_AUDIO output) meta
  | _ => i
  end.
Definition on_item (f : ResponseItem → ResponseItem) (e : ResponseItemEnvelope) : ResponseItemEnvelope :=
  mkEnvelope (f (item e)) (metadata e).

Definition strip_images_when_unsupported (input_modalities : list InputModality)
    (items : list ResponseItemEnvelope) : list ResponseItemEnvelope :=
  if bool_decide (ImageModality ∈ input_modalities) then items else on_item strip_image_item <$> items.
Definition strip_audio_when_unsupported (input_modalities : list InputModality)
    (items : list ResponseItemEnvelope) : list ResponseItemEnvelope :=
  if bool_decide (AudioModality ∈ input_modalities) then items else on_item strip_audio_item <$> items.
