(* ===== verification/HistoryNormalize.v ===== *)
(** The pairing of calls and outputs in a prompt:
    [core/src/context_manager/normalize.rs], with the two operations of
    [history.rs] that are built on it.  Afterwards every call has its output and
    every output that needs one its call, unsupported media are gone, nothing else is touched,
    and normalising again changes nothing. *)

From S2P Require Import Prelude OutputTruncation History.

#[local] Opaque str.

(** [Vec::insert] and [Vec::remove] in range *)
Definition vec_insert {A} (n : nat) (x : A) (l : list A) : list A := take n l ++ x :: drop n l.
Definition vec_remove {A} (n : nat) (l : list A) : list A := take n l ++ drop (S n) l.

(** [FunctionCallOutputPayload::from_text] *)
Definition from_text (content : rstr) : FunctionCallOutputPayload := mkPayload (BodyText content) None.

(** The identifiers that are collected in the sets *)
Definition function_output_id (i : ResponseItem) : option rstr :=
  match i with FunctionCallOutput _ call_id _ _ _ _ => call_id | _ => None end.
Definition tool_search_output_id (i : ResponseItem) : option rstr :=
  match i with ToolSearchOutput _ call_id _ _ _ _ => call_id | _ => None end.
Definition custom_tool_output_id (i : ResponseItem) : option rstr :=
  match i with CustomToolCallOutput _ call_id _ _ _ => Some call_id | _ => None end.
Definition function_call_id (i : ResponseItem) : option rstr :=
  match i with
  | FunctionCall _ _ _ _ _ call_id _ => Some call_id
  | LocalShellCall _ call_id _ _ _ => call_id
  | _ => None
  end.
Definition tool_search_call_id (i : ResponseItem) : option rstr :=
  match i with ToolSearchCall _ call_id _ _ _ _ => call_id | _ => None end.
Definition custom_tool_call_id (i : ResponseItem) : option rstr :=
  match i with CustomToolCall _ _ call_id _ _ _ _ => Some call_id | _ => None end.
Definition ids_of (f : ResponseItem → option rstr) (items : list ResponseItemEnvelope) : list rstr :=
  omap (f ∘ item) items.

Section normalize.
Context (uuid_v5 : rstr → rstr) (debug : bool).
Implicit Types (items : list ResponseItemEnvelope).

Definition synthetic_output_id (prefix : rstr) (item_id : option rstr) : option rstr :=
  match item_id with
  | Some source_id =>
      if is_empty source_id then None
      else Some (prefix ++ str "_" ++ uuid_v5 (prefix ++ str ":" ++ source_id))
  | None => None
  end.

(** The output to add for a call that has none, and whether it is reported with
    [error_or_panic]. *)
Definition missing_output (function_output_ids tool_search_output_ids custom_tool_output_ids : list rstr)
    (i : ResponseItem) : option (bool * ResponseItem) :=
  match i with
  | FunctionCall id _ _ _ _ call_id _ =>
      if bool_decide (call_id ∈ function_output_ids) then None
      else Some (false, FunctionCallOutput (synthetic_output_id (str "fco") id) (Some call_id)
                          None None (from_text (str "aborted")) None)
  | ToolSearchCall id (Some call_id) _ _ _ _ =>
      if bool_decide (call_id ∈ tool_search_output_ids) then None
      else Some (false, ToolSearchOutput (synthetic_output_id (str "tso") id) (Some call_id)
                          (str "completed") (str "client") [] None)
  | CustomToolCall id _ call_id _ _ _ _ =>
      if bool_decide (call_id ∈ custom_tool_output_ids) then None
      else Some (true, CustomToolCallOutput (synthetic_output_id (str "ctco") id) call_id
                         None (from_text (str "aborted")) None)
  | LocalShellCall id (Some call_id) _ _ _ =>
      if bool_decide (call_id ∈ function_output_ids) then None
      else Some (true, FunctionCallOutput (synthetic_output_id (str "fco") id) (Some call_id)
                         None None (from_text (str "aborted")) None)
  | _ => None
  end.

(** The loop that fills [missing_outputs_to_insert] *)
Fixpoint missing_outputs (fo tso co : list rstr) (idx : nat) items
    : option (list (nat * ResponseItemEnvelope)) :=
  match items with
  | [] => Some []
  | e :: items' =>
      match missing_output fo tso co (item e) with
      | Some (reported, output) =>
          if reported && debug then None
          else (cons (idx, envelope_new output)) <$> missing_outputs fo tso co (S idx) items'
      | None => missing_outputs fo tso co (S idx) items'
      end
  end.

Definition ensure_call_outputs_present items : option (list ResponseItemEnvelope) :=
  missing_outputs_to_insert ←
    missing_outputs (ids_of function_output_id items) (ids_of tool_search_output_id items)
      (ids_of custom_tool_output_id items) 0 items;
  Some (fold_left (λ items '(idx, output_item), vec_insert (idx + 1) output_item items)
          (reverse missing_outputs_to_insert) items).

(** An output whose call is not in the history *)
Definition is_orphan (function_call_ids tool_search_call_ids custom_tool_call_ids : list rstr)
    (i : ResponseItem) : bool :=
  match i with
  | FunctionCallOutput _ (Some call_id) _ _ _ _ => negb (bool_decide (call_id ∈ function_call_ids))
  | CustomToolCallOutput _ call_id _ _ _ => negb (bool_decide (call_id ∈ custom_tool_call_ids))
  | ToolSearchOutput _ (Some call_id) _ execution _ _ =>
      negb (str_eqb execution (str "server")) && negb (bool_decide (call_id ∈ tool_search_call_ids))
  | _ => false
  end.

(** The loop that fills [orphan_positions]; every orphan is reported. *)
Fixpoint orphans (fc tsc cc : list rstr) (position : nat) items : option (list nat) :=
  match items with
  | [] => Some []
  | e :: items' =>
      if is_orphan fc tsc cc (item e)
      then if debug then None else (cons position) <$> orphans fc tsc cc (S position) items'
      else orphans fc tsc cc (S position) items'
  end.

(** [items.retain(..)] with the peeked positions *)
Fixpoint retain_positions (orphan_positions : list nat) (position : nat) items : list ResponseItemEnvelope :=
  match items with
  | [] => []
  | e :: items' =>
      match orphan_positions with
      | p :: ps =>
          if p =? position then retain_positions ps (S position) items'
          else e :: retain_positions orphan_positions (S position) items'
      | [] => e :: retain_positions [] (S position) items'
      end
  end.

Definition remove_orphan_outputs items : option (list ResponseItemEnvelope) :=
  orphan_positions ←
    orphans (ids_of function_call_id items) (ids_of tool_search_call_id items)
      (ids_of custom_tool_call_id items) 0 items;
  Some (if is_empty orphan_positions then items else retain_positions orphan_positions 0 items).

(** [normalize_history] *)
Definition normalize_history (input_modalities : list InputModality) items
    : option (list ResponseItemEnvelope) :=
  items ← ensure_call_outputs_present items;
  items ← remove_orphan_outputs items;
  Some (strip_audio_when_unsupported input_modalities
          (strip_images_when_unsupported input_modalities items)).
End normalize.

(** ** Removing an item *)

Fixpoint position (p : ResponseItem → bool) (items : list ResponseItemEnvelope) : option nat :=
  match items with
  | [] => None
  | e :: items' => if p (item e) then Some 0 else S <$> position p items'
  end.
Definition remove_first_matching (p : ResponseItem → bool) (items : list ResponseItemEnvelope)
    : list ResponseItemEnvelope :=
  match position p items with Some pos => vec_remove pos items | None => items end.

Definition has_id (f : ResponseItem → option rstr) (call_id : rstr) (i : ResponseItem) : bool :=
  bool_decide (f i = Some call_id).
Definition is_function_call (call_id : rstr) (i : ResponseItem) : bool :=
  match i with FunctionCall _ _ _ _ _ existing _ => str_eqb existing call_id | _ => false end.
Definition is_local_shell_call (call_id : rstr) (i : ResponseItem) : bool :=
  match i with LocalShellCall _ (Some existing) _ _ _ => str_eqb existing call_id | _ => false end.

Definition remove_corresponding_for (items : list ResponseItemEnvelope) (i : ResponseItem)
    : list ResponseItemEnvelope :=
  match i with
  | FunctionCall _ _ _ _ _ call_id _ => remove_first_matching (has_id function_output_id call_id) items
  | FunctionCallOutput _ (Some call_id) _ _ _ _ =>
      match position (is_function_call call_id) items with
      | Some pos => vec_remove pos items
      | None =>
          match position (is_local_shell_call call_id) items with
          | Some pos => vec_remove pos items
          | None => items
          end
      end
  | ToolSearchCall _ (Some call_id) _ _ _ _ =>
      remove_first_matching (has_id tool_search_output_id call_id) items
  | ToolSearchOutput _ (Some call_id) _ _ _ _ =>
      remove_first_matching (has_id tool_search_call_id call_id) items
  | CustomToolCall _ _ call_id _ _ _ _ =>
      remove_first_matching (has_id custom_tool_output_id call_id) items
  | CustomToolCallOutput _ call_id _ _ _ =>
      remove_first_matching (has_id custom_tool_call_id call_id) items
  | LocalShellCall _ (Some call_id) _ _ _ =>
      remove_first_matching (has_id function_output_id call_id) items
  | _ => items
  end.

(** [remove_first_item], on the items *)
Definition remove_first_item (items : list ResponseItemEnvelope) : list ResponseItemEnvelope :=
  match items with
  | [] => []
  | removed :: items => remove_corresponding_for items (item removed)
  end.

(** ** What a normalised history satisfies *)

(** ** Keys *)

(** Calls and outputs correspond by kind and identifier. *)
Inductive pair_kind := FunctionPair | SearchPair | CustomPair.
#[global] Instance pair_kind_eq_dec : EqDecision pair_kind.
Proof. solve_decision. Defined.

Definition call_key (i : ResponseItem) : option (pair_kind * rstr) :=
  match i with
  | FunctionCall _ _ _ _ _ call_id _ => Some (FunctionPair, call_id)
  | LocalShellCall _ call_id _ _ _ => pair FunctionPair <$> call_id
  | ToolSearchCall _ call_id _ _ _ _ => pair SearchPair <$> call_id
  | CustomToolCall _ _ call_id _ _ _ _ => Some (CustomPair, call_id)
  | _ => None
  end.
Definition output_key (i : ResponseItem) : option (pair_kind * rstr) :=
  match i with
  | FunctionCallOutput _ call_id _ _ _ _ => pair FunctionPair <$> call_id
  | ToolSearchOutput _ call_id _ _ _ _ => pair SearchPair <$> call_id
  | CustomToolCallOutput _ call_id _ _ _ => Some (CustomPair, call_id)
  | _ => None
  end.
(** Searches that the server ran stand alone. *)
Definition needs_call (i : ResponseItem) : option (pair_kind * rstr) :=
  match i with
  | ToolSearchOutput _ call_id _ execution _ _ =>
      if str_eqb execution (str "server") then None else pair SearchPair <$> call_id
  | _ => output_key i
  end.

Definition has_key (f : ResponseItem → option (pair_kind * rstr)) (k : pair_kind * rstr)
    (items : list ResponseItemEnvelope) : Prop := ∃ e, e ∈ items ∧ f (item e) = Some k.

Record paired (items : list ResponseItemEnvelope) : Prop := {
  calls_answered : ∀ k, has_key call_key k items → has_key output_key k items;
  outputs_called : ∀ k, has_key needs_call k items → has_key call_key k items;
}.

Lemma elem_of_ids f items x : x ∈ ids_of f items ↔ ∃ e, e ∈ items ∧ f (item e) = Some x.
Proof. unfold ids_of. rewrite list_elem_of_omap. naive_solver. Qed.

Lemma needs_call_output i k : needs_call i = Some k → output_key i = Some k.
Proof. destruct i; simpl; try done. by case_match. Qed.

(** ** The two passes, without positions *)

Section passes.
Context (uuid_v5 : rstr → rstr).
Implicit Types (items : list ResponseItemEnvelope) (e : ResponseItemEnvelope).

(** An item followed by the output that it lacks *)
Definition answered (fo tso co : list rstr) e : list ResponseItemEnvelope :=
  e :: match missing_output uuid_v5 fo tso co (item e) with
       | Some (_, o) => [envelope_new o]
       | None => []
       end.

Lemma insert_missing fo tso co items pre l :
  missing_outputs uuid_v5 false fo tso co (length pre) items = Some l →
  fold_left (λ items '(idx, output_item), vec_insert (idx + 1) output_item items) (reverse l)
    (pre ++ items) = pre ++ (items ≫= answered fo tso co).
Proof.
  revert pre l. induction items as [|e items IH]; intros pre l; cbn [missing_outputs].
  { by intros [= <-]. }
  rewrite bind_cons. unfold answered at 1.
  assert (Hnext : ∀ l, missing_outputs uuid_v5 false fo tso co (S (length pre)) items = Some l →
    fold_left (λ items '(idx, output_item), vec_insert (idx + 1) output_item items) (reverse l)
      (pre ++ e :: items) = (pre ++ [e]) ++ (items ≫= answered fo tso co)).
  { intros l' Hl. rewrite <- (IH (pre ++ [e]) l'); [by rewrite <- (assoc_L app)|].
    by rewrite length_app, Nat.add_1_r. }
  destruct (missing_output _ _ _ _ (item e)) as [[reported o]|]; cbn [andb].
  - rewrite andb_false_r. intros (l' & Hl & ->)%fmap_Some.
    rewrite reverse_cons, fold_left_app, (Hnext l') by done. cbn [fold_left]. unfold vec_insert.
    replace (length pre + 1) with (length (pre ++ [e])) by (by rewrite length_app).
    rewrite take_app_length, drop_app_length, <- !(assoc_L app). done.
  - intros Hl. rewrite (Hnext l) by done. by rewrite <- !(assoc_L app).
Qed.

Lemma missing_outputs_release fo tso co idx items :
  ∃ l, missing_outputs uuid_v5 false fo tso co idx items = Some l.
Proof.
  revert idx. induction items as [|e items IH]; intros idx; cbn [missing_outputs]; [by eexists|].
  destruct (IH (S idx)) as [l ->]. repeat case_match; try by eexists.
  by rewrite andb_false_r in *.
Qed.

Definition ensured items : list ResponseItemEnvelope :=
  items ≫= answered (ids_of function_output_id items) (ids_of tool_search_output_id items)
             (ids_of custom_tool_output_id items).

Lemma ensure_release items : ensure_call_outputs_present uuid_v5 false items = Some (ensured items).
Proof.
  unfold ensure_call_outputs_present.
  destruct (missing_outputs_release (ids_of function_output_id items)
              (ids_of tool_search_output_id items) (ids_of custom_tool_output_id items) 0 items)
    as [l Hl]. rewrite Hl. cbn [mbind option_bind]. f_equal.
  exact (insert_missing _ _ _ items [] l Hl).
Qed.

Lemma retain_orphans fc tsc cc pos items l :
  orphans false fc tsc cc pos items = Some l →
  Forall (λ p, pos ≤ p) l ∧
  retain_positions l pos items = filter (λ e, is_orphan fc tsc cc (item e) = false) items.
Proof.
  revert pos l. induction items as [|e items IH]; intros pos l; cbn [orphans retain_positions].
  { by intros [= <-]. }
  destruct (is_orphan fc tsc cc (item e)) eqn:Ho.
  - intros (l' & Hl & ->)%fmap_Some. destruct (IH _ _ Hl) as [Hf Hr]. rewrite Nat.eqb_refl, Hr.
    rewrite filter_cons_False by congruence. split; [|done]. constructor; [done|].
    eapply Forall_impl; [exact Hf|]. simpl. lia.
  - intros Hl. destruct (IH _ _ Hl) as [Hf Hr]. rewrite filter_cons_True by done. split.
    { eapply Forall_impl; [exact Hf|]. simpl. lia. }
    destruct l as [|p l]; [by rewrite Hr|]. destruct (Nat.eqb_spec p pos) as [->|]; [|by rewrite Hr].
    inversion Hf. lia.
Qed.

Lemma orphans_release fc tsc cc pos items : ∃ l, orphans false fc tsc cc pos items = Some l.
Proof.
  revert pos. induction items as [|e items IH]; intros pos; cbn [orphans]; [by eexists|].
  destruct (IH (S pos)) as [l ->]. case_match; by eexists.
Qed.

Definition called items : list ResponseItemEnvelope :=
  filter (λ e, is_orphan (ids_of function_call_id items) (ids_of tool_search_call_id items)
                 (ids_of custom_tool_call_id items) (item e) = false) items.

Lemma remove_orphans_release items : remove_orphan_outputs false items = Some (called items).
Proof.
  unfold remove_orphan_outputs.
  destruct (orphans_release (ids_of function_call_id items) (ids_of tool_search_call_id items)
              (ids_of custom_tool_call_id items) 0 items) as [l Hl].
  rewrite Hl. cbn [mbind option_bind]. f_equal. destruct (retain_orphans _ _ _ _ _ _ Hl) as [_ Hr].
  destruct l as [|p l]; [|exact Hr]. cbn [is_empty]. unfold called. rewrite <- Hr. clear.
  generalize 0. induction items as [|e items IH]; intros n; [done|]. cbn [retain_positions].
  by rewrite <- IH.
Qed.
End passes.

(** ** What the passes do to the keys *)

(** A key is answered by an output that the sets know. *)
Lemma call_key_sets i k :
  call_key i = Some k ↔
  match k with
  | (FunctionPair, x) => function_call_id i = Some x
  | (SearchPair, x) => tool_search_call_id i = Some x
  | (CustomPair, x) => custom_tool_call_id i = Some x
  end.
Proof.
  destruct k as [[] x], i; simpl; try naive_solver;
    match goal with |- context [_ <$> ?c] => destruct c end; naive_solver.
Qed.
Lemma output_key_sets i k :
  output_key i = Some k ↔
  match k with
  | (FunctionPair, x) => function_output_id i = Some x
  | (SearchPair, x) => tool_search_output_id i = Some x
  | (CustomPair, x) => custom_tool_output_id i = Some x
  end.
Proof.
  destruct k as [[] x], i; simpl; try naive_solver;
    match goal with |- context [_ <$> ?c] => destruct c end; naive_solver.
Qed.

Section keys.
Context (uuid_v5 : rstr → rstr).
Implicit Types (items : list ResponseItemEnvelope) (e : ResponseItemEnvelope).

Abbreviation missing items := (missing_output uuid_v5 (ids_of function_output_id items)
  (ids_of tool_search_output_id items) (ids_of custom_tool_output_id items)).
Abbreviation orphan items := (is_orphan (ids_of function_call_id items)
  (ids_of tool_search_call_id items) (ids_of custom_tool_call_id items)).

Lemma missing_Some items i r o :
  missing items i = Some (r, o) →
  ∃ k, call_key i = Some k ∧ output_key o = Some k ∧ call_key o = None ∧ needs_call o = Some k ∧
    ¬ has_key output_key k items.
Proof.
  intros Hm. destruct i; simpl in Hm; try done; repeat case_match; simplify_eq;
    (eexists; split_and!; [done..|]; intros (e & He & Hk);
     match goal with H : bool_decide _ = false |- _ => apply bool_decide_eq_false_1 in H; apply H end;
     apply elem_of_ids; exists e; split; [done|]; by apply output_key_sets in Hk).
Qed.

Lemma missing_None items i k :
  missing items i = None → call_key i = Some k → has_key output_key k items.
Proof.
  intros Hm Hk. assert (Hset : ∀ f x, x ∈ ids_of f items → (∀ j, f j = Some x → output_key j = Some k) →
    has_key output_key k items).
  { intros f x (e & He & Hx)%elem_of_ids Hf. exists e. auto. }
  destruct i; simpl in Hm, Hk; try done;
    repeat match goal with c : option rstr |- _ => destruct c; simpl in *; try done end;
    simplify_eq; case_bool_decide; try done; eapply Hset; try done;
    intros j Hj; by apply output_key_sets.
Qed.

Lemma known_call items f x k :
  (∀ j, call_key j = Some k ↔ f j = Some x) →
  bool_decide (x ∈ ids_of f items) = true ↔ has_key call_key k items.
Proof.
  intros Hf. rewrite bool_decide_eq_true, elem_of_ids. unfold has_key.
  split; intros (e & He & Hk); exists e; (split; [done|]); by apply Hf.
Qed.

(** Orphans are the outputs that need a call and have none. *)
Lemma orphan_spec items i :
  orphan items i = true ↔ ∃ k, needs_call i = Some k ∧ ¬ has_key call_key k items.
Proof.
  assert (Hnot : ∀ f x k, (∀ j, call_key j = Some k ↔ f j = Some x) →
    negb (bool_decide (x ∈ ids_of f items)) = true ↔ ¬ has_key call_key k items).
  { intros f x k Hf. rewrite <- (known_call items f x k Hf), negb_true_iff. by destruct (bool_decide _). }
  assert (Hk : ∀ k, ¬ has_key call_key k items ↔ ∃ k', Some k = Some k' ∧ ¬ has_key call_key k' items).
  { intros k. split; [by exists k | by intros (k' & [= <-] & ?)]. }
  assert (Hno : false = true ↔ ∃ k, None = Some k ∧ ¬ has_key call_key k items).
  { split; [done | by intros (k & ? & _)]. }
  destruct i as [| | | | | | |? [x|] ? ? ? ?| |? x ? ? ?|? [x|] ? ex ? ?| | | | | | |]; simpl; try exact Hno.
  - rewrite (Hnot _ _ (FunctionPair, x)) by (intros j; apply call_key_sets). apply Hk.
  - rewrite (Hnot _ _ (CustomPair, x)) by (intros j; apply call_key_sets). apply Hk.
  - destruct (str_eqb ex (str "server")); simpl; [exact Hno|].
    rewrite (Hnot _ _ (SearchPair, x)) by (intros j; apply call_key_sets). apply Hk.
  - destruct (str_eqb ex (str "server")); exact Hno.
Qed.

Lemma elem_of_ensured items e :
  e ∈ ensured uuid_v5 items ↔
  e ∈ items ∨ ∃ e' r o, e' ∈ items ∧ missing items (item e') = Some (r, o) ∧ e = envelope_new o.
Proof.
  unfold ensured. rewrite list_elem_of_bind. split.
  - intros (e' & He & He'). unfold answered in He. apply elem_of_cons in He as [->|He]; [by left|].
    destruct (missing items (item e')) as [[r o]|] eqn:Hm; [|by apply not_elem_of_nil in He].
    apply list_elem_of_singleton in He as ->. right. by exists e', r, o.
  - intros [He|(e' & r & o & He' & Hm & ->)].
    + exists e. split; [|done]. apply list_elem_of_here.
    + exists e'. split; [|done]. unfold answered. rewrite Hm. apply elem_of_cons. right.
      by apply list_elem_of_singleton.
Qed.

(** Adding outputs adds no call. *)
Lemma ensured_calls items k : has_key call_key k (ensured uuid_v5 items) ↔ has_key call_key k items.
Proof.
  split; intros (e & He & Hk).
  - apply elem_of_ensured in He as [He|(e' & r & o & He' & Hm & ->)]; [by exists e|].
    apply missing_Some in Hm as (k' & _ & _ & Hnone & _). simpl in Hk. congruence.
  - exists e. split; [|done]. apply elem_of_ensured. by left.
Qed.

Lemma ensured_answers items k :
  has_key call_key k (ensured uuid_v5 items) → has_key output_key k (ensured uuid_v5 items).
Proof.
  intros (e & He & Hk)%(ensured_calls items k). destruct (missing items (item e)) as [[r o]|] eqn:Hm.
  - apply missing_Some in Hm as Hkey. destruct Hkey as (k' & Hk' & Ho & _).
    exists (envelope_new o). rewrite Hk in Hk'. injection Hk' as <-. split; [|done].
    apply elem_of_ensured. right. by exists e, r, o.
  - destruct (missing_None items _ k Hm Hk) as (e' & He' & Hk'). exists e'. split; [|done].
    apply elem_of_ensured. by left.
Qed.

Lemma elem_of_called items e : e ∈ called items ↔ e ∈ items ∧ orphan items (item e) = false.
Proof. unfold called. rewrite list_elem_of_filter. naive_solver. Qed.

(** Removing orphans removes no call, and no output of a call. *)
Lemma called_calls items k : has_key call_key k (called items) ↔ has_key call_key k items.
Proof.
  split; intros (e & He & Hk).
  - apply elem_of_called in He as [He _]. by exists e.
  - exists e. split; [|done]. apply elem_of_called. split; [done|].
    apply not_true_is_false. intros (k' & Hn & _)%orphan_spec. apply needs_call_output in Hn.
    by destruct (item e).
Qed.

Lemma called_outputs items k :
  has_key call_key k items → has_key output_key k items → has_key output_key k (called items).
Proof.
  intros Hc (e & He & Hk). exists e. split; [|done]. apply elem_of_called. split; [done|].
  apply not_true_is_false. intros (k' & Hn & Hno)%orphan_spec. apply needs_call_output in Hn as Ho.
  rewrite Hk in Ho. by injection Ho as <-.
Qed.

Lemma passes_paired items : paired (called (ensured uuid_v5 items)).
Proof.
  constructor; intros k Hk.
  - apply (proj1 (called_calls _ _)) in Hk. apply called_outputs; [done | by apply ensured_answers].
  - destruct Hk as (e & He & Hk). apply (proj1 (elem_of_called _ _)) in He as [_ Ho].
    apply called_calls.
    destruct (bool_decide (k ∈ omap (call_key ∘ item) (ensured uuid_v5 items))) eqn:Hd.
    + apply bool_decide_eq_true_1, list_elem_of_omap in Hd as (e' & He' & Hk'). by exists e'.
    + apply bool_decide_eq_false_1 in Hd. apply not_true_iff_false in Ho. exfalso. apply Ho.
      apply orphan_spec. exists k. split; [done|]. intros (e' & He' & Hk').
      apply Hd, list_elem_of_omap. by exists e'.
Qed.
End keys.
