(* ===== verification/HistoryPromptProps.v ===== *)
(** The whole normalisation: media that the model does not take are replaced,
    and the result is a prompt that normalisation leaves alone. *)

From S2P Require Import Prelude OutputTruncation History HistoryNormalize.

#[local] Opaque str.

(** ** Annotated messages *)

Definition swap (bad : ContentItem → bool) (u : UnsupportedMedia) (c : AnnotatedContent)
    : AnnotatedContent := if bad (an_content c) then render_annotated u else c.
(** A message whose kinds are aligned with its content *)
Definition with_annotated (id : option rstr) (role : rstr) (phase : option rstr)
    (turn_id : option rstr) (other : Json) (l : list AnnotatedContent) : ResponseItem :=
  Message id role (an_content <$> l) phase (Some (mkPassthrough turn_id (Some (an_kind <$> l)) other)).

Lemma zip_unzip l : zip_kinds (an_content <$> l) (an_kind <$> l) = l.
Proof. induction l as [|[c k] l IH]; [done|]. rewrite !fmap_cons. cbn [zip_kinds]. by rewrite IH. Qed.
Lemma zip_content content kinds : an_content <$> zip_kinds content kinds = content.
Proof.
  revert kinds. induction content as [|c content IH]; intros [|k kinds]; [done..| |];
    cbn [zip_kinds]; rewrite fmap_cons, IH; done.
Qed.

Lemma replace_with_annotated bad u id role phase turn_id other l :
  replace_in_message bad u (with_annotated id role phase turn_id other l) =
  with_annotated id role phase turn_id other (swap bad u <$> l).
Proof.
  unfold replace_in_message, with_annotated. cbn [to_annotated_content mbind option_bind content_item_kinds].
  simpl default. rewrite zip_unzip. done.
Qed.

Lemma replace_message bad u id role content phase meta :
  ∃ turn_id other,
    replace_in_message bad u (Message id role content phase meta) =
    with_annotated id role phase turn_id other
      (swap bad u <$> zip_kinds content (default [] (meta ≫= content_item_kinds))).
Proof.
  destruct meta as [[turn_id kinds other]|].
  - by exists turn_id, other.
  - by exists None, [].
Qed.

Lemma swap_content bad u (l : list AnnotatedContent) :
  an_content <$> (swap bad u <$> l) =
  (λ c, if bad c then CInputText (um_text u) else c) <$> (an_content <$> l).
Proof.
  rewrite <- !list_fmap_compose. apply list_fmap_ext. intros _ c _. unfold compose, swap.
  by destruct (bad (an_content c)).
Qed.

(** ** Items that hold no media of a kind *)

Definition payload_free (bad : FunctionCallOutputContentItem → bool)
    (output : FunctionCallOutputPayload) : Prop :=
  match payload_body output with
  | BodyText _ => True
  | ContentItems items => Forall (λ c, bad c = false) items
  end.
Definition no_images (i : ResponseItem) : Prop :=
  match i with
  | Message _ _ content _ _ => Forall (λ c, is_content_image c = false) content
  | FunctionCallOutput _ _ _ _ output _ | CustomToolCallOutput _ _ _ output _ =>
      payload_free is_output_image output
  | ImageGenerationCall _ _ _ result _ => result = []
  | _ => True
  end.
Definition no_audio (i : ResponseItem) : Prop :=
  match i with
  | Message _ _ content _ _ => Forall (λ c, is_content_audio c = false) content
  | FunctionCallOutput _ _ _ _ output _ | CustomToolCallOutput _ _ _ output _ =>
      payload_free is_output_audio output
  | _ => True
  end.

Lemma replace_output_free bad keep u output :
  (∀ t, keep (InputText t) = false) →
  (∀ c, bad c = false → keep c = false) ∨ payload_free keep output →
  payload_free keep (replace_in_output bad u output).
Proof.
  intros Ht Hb. unfold replace_in_output, payload_free in *.
  destruct (payload_body output) as [t|items] eqn:Ho; [by rewrite Ho|]. simpl.
  apply Forall_fmap, Forall_forall. intros c Hc. simpl. destruct (bad c) eqn:Hbc; [apply Ht|].
  destruct Hb as [Hb|Hb]; [by apply Hb|]. rewrite Forall_forall in Hb. by apply Hb.
Qed.
Lemma replace_message_free bad (keep : ContentItem → bool) u id role content phase meta :
  (∀ t, keep (CInputText t) = false) →
  (∀ c, bad c = false → keep c = false) ∨ Forall (λ c, keep c = false) content →
  match replace_in_message bad u (Message id role content phase meta) with
  | Message _ _ content _ _ => Forall (λ c, keep c = false) content
  | _ => False
  end.
Proof.
  intros Ht Hb. destruct (replace_message bad u id role content phase meta) as (t & o & ->).
  simpl. rewrite swap_content, zip_content. apply Forall_fmap, Forall_forall. intros c Hc. simpl.
  destruct (bad c) eqn:Hbc; [apply Ht|]. destruct Hb as [Hb|Hb]; [by apply Hb|].
  rewrite Forall_forall in Hb. by apply Hb.
Qed.

Lemma strip_image_no_images i : no_images (strip_image_item i).
Proof.
  destruct i as [|id role content phase meta| | | | | | | | | | | | | | | |]; simpl; try done.
  - pose proof (replace_message_free is_content_image is_content_image UNSUPPORTED_IMAGE id role
      content phase meta) as H.
    destruct (replace_message is_content_image UNSUPPORTED_IMAGE id role content phase meta)
      as (t & o & E). rewrite E in *. apply H; auto.
  - apply replace_output_free; auto.
  - apply replace_output_free; auto.
Qed.
Lemma strip_audio_no_audio i : no_audio (strip_audio_item i).
Proof.
  destruct i as [|id role content phase meta| | | | | | | | | | | | | | | |]; simpl; try done.
  - pose proof (replace_message_free is_content_audio is_content_audio UNSUPPORTED_AUDIO id role
      content phase meta) as H.
    destruct (replace_message is_content_audio UNSUPPORTED_AUDIO id role content phase meta)
      as (t & o & E). rewrite E in *. apply H; auto.
  - apply replace_output_free; auto.
  - apply replace_output_free; auto.
Qed.
Lemma strip_audio_keeps_no_images i : no_images i → no_images (strip_audio_item i).
Proof.
  destruct i as [|id role content phase meta| | | | | | | | | | | | | | | |]; simpl; try done; intros Hi.
  - pose proof (replace_message_free is_content_audio is_content_image UNSUPPORTED_AUDIO id role
      content phase meta) as H.
    destruct (replace_message is_content_audio UNSUPPORTED_AUDIO id role content phase meta)
      as (t & o & E). rewrite E in *. apply H; auto.
  - apply replace_output_free; auto.
  - apply replace_output_free; auto.
Qed.

(** ** Stripping twice *)

(** A message whose kinds are aligned and an output are left alone when they
    hold nothing to replace. *)
Definition aligned (i : ResponseItem) : Prop :=
  match i with
  | Message _ _ _ _ _ => ∃ id role phase t o l, i = with_annotated id role phase t o l
  | _ => True
  end.

Lemma swap_id bad u l : Forall (λ c, bad c = false) (an_content <$> l) → swap bad u <$> l = l.
Proof.
  induction l as [|c l IH]; [done|]. rewrite !fmap_cons. intros [Hc Hl]%Forall_cons.
  rewrite IH by done. unfold swap. by rewrite Hc.
Qed.
Lemma replace_message_id bad u i :
  aligned i → (match i with Message _ _ content _ _ => Forall (λ c, bad c = false) content | _ => False end) →
  replace_in_message bad u i = i.
Proof.
  destruct i; try done. simpl. intros (id' & role' & phase' & t & o & l & E). rewrite E.
  injection E as -> -> -> -> ->. intros Hf. by rewrite replace_with_annotated, swap_id.
Qed.
Lemma replace_output_id bad u output : payload_free bad output → replace_in_output bad u output = output.
Proof.
  unfold payload_free, replace_in_output. destruct output as [[t|items] success]; [done|]. simpl.
  intros Hf. do 2 f_equal. induction Hf as [|c items Hc Hf IH]; [done|]. rewrite fmap_cons, IH, Hc. done.
Qed.

Lemma strip_image_id i : aligned i → no_images i → strip_image_item i = i.
Proof.
  destruct i as [|id role content phase meta| | | | | | | | | | | | | | | |]; simpl; try done; intros Ha Hn.
  - by apply replace_message_id.
  - by rewrite replace_output_id.
  - by rewrite replace_output_id.
  - by subst.
Qed.
Lemma strip_audio_id i : aligned i → no_audio i → strip_audio_item i = i.
Proof.
  destruct i as [|id role content phase meta| | | | | | | | | | | | | | | |]; simpl; try done; intros Ha Hn.
  - by apply replace_message_id.
  - by rewrite replace_output_id.
  - by rewrite replace_output_id.
Qed.
Lemma strip_image_aligned i : aligned (strip_image_item i).
Proof.
  destruct i as [|id role content phase meta| | | | | | | | | | | | | | | |]; try done.
  cbn [strip_image_item].
  destruct (replace_message is_content_image UNSUPPORTED_IMAGE id role content phase meta) as (t & o & ->).
  by eexists _, _, _, _, _, _.
Qed.
Lemma strip_audio_aligned i : aligned (strip_audio_item i).
Proof.
  destruct i as [|id role content phase meta| | | | | | | | | | | | | | | |]; try done.
  cbn [strip_audio_item].
  destruct (replace_message is_content_audio UNSUPPORTED_AUDIO id role content phase meta) as (t & o & ->).
  by eexists _, _, _, _, _, _.
Qed.

(** ** Both kinds of media *)

Definition strip_item (m : list InputModality) (i : ResponseItem) : ResponseItem :=
  let i := if bool_decide (ImageModality ∈ m) then i else strip_image_item i in
  if bool_decide (AudioModality ∈ m) then i else strip_audio_item i.

Lemma on_item_id (items : list ResponseItemEnvelope) : on_item id <$> items = items.
Proof. induction items as [|[i m] items IH]; [done|]. rewrite fmap_cons, IH. done. Qed.

Lemma strip_items m items :
  strip_audio_when_unsupported m (strip_images_when_unsupported m items) =
  on_item (strip_item m) <$> items.
Proof.
  unfold strip_audio_when_unsupported, strip_images_when_unsupported, strip_item.
  repeat case_bool_decide; rewrite <- ?list_fmap_compose; try done. symmetry. apply on_item_id.
Qed.

Lemma strip_item_keys m i :
  call_key (strip_item m i) = call_key i ∧ output_key (strip_item m i) = output_key i ∧
  needs_call (strip_item m i) = needs_call i.
Proof.
  assert (Hi : ∀ j, call_key (strip_image_item j) = call_key j ∧
    output_key (strip_image_item j) = output_key j ∧ needs_call (strip_image_item j) = needs_call j)
    by (by intros []).
  assert (Ha : ∀ j, call_key (strip_audio_item j) = call_key j ∧
    output_key (strip_audio_item j) = output_key j ∧ needs_call (strip_audio_item j) = needs_call j)
    by (by intros []).
  unfold strip_item. repeat case_bool_decide; [done | apply Hi | apply Ha |].
  destruct (Ha (strip_image_item i)) as (-> & -> & ->). apply Hi.
Qed.

Lemma strip_item_media m i :
  (ImageModality ∉ m → no_images (strip_item m i)) ∧ (AudioModality ∉ m → no_audio (strip_item m i)).
Proof.
  unfold strip_item. split; intros H.
  - rewrite (bool_decide_eq_false_2 (ImageModality ∈ m)) by done.
    case_bool_decide; [apply strip_image_no_images|].
    apply strip_audio_keeps_no_images, strip_image_no_images.
  - rewrite (bool_decide_eq_false_2 (AudioModality ∈ m)) by done. apply strip_audio_no_audio.
Qed.

Lemma strip_item_idem m i : strip_item m (strip_item m i) = strip_item m i.
Proof.
  destruct (strip_item_media m i) as [Him Hau]. unfold strip_item in *.
  destruct (bool_decide_reflect (ImageModality ∈ m)) as [Hi|Hi],
    (bool_decide_reflect (AudioModality ∈ m)) as [Ha|Ha]; [done | | |].
  - apply strip_audio_id; [apply strip_audio_aligned | by apply Hau].
  - apply strip_image_id; [apply strip_image_aligned | by apply Him].
  - rewrite (strip_image_id (strip_audio_item _)); [|apply strip_audio_aligned | by apply Him].
    apply strip_audio_id; [apply strip_audio_aligned | by apply Hau].
Qed.

(** ** Prompts *)

Lemma has_key_strip f m k items :
  (∀ i, f (strip_item m i) = f i) → has_key f k (on_item (strip_item m) <$> items) ↔ has_key f k items.
Proof.
  intros Hf. unfold has_key. setoid_rewrite list_elem_of_fmap. split.
  - intros (e & (e' & -> & He') & Hk). exists e'. simpl in Hk. by rewrite Hf in Hk.
  - intros (e & He & Hk). exists (on_item (strip_item m) e). simpl. rewrite Hf. eauto.
Qed.

Lemma paired_strip m items : paired items → paired (on_item (strip_item m) <$> items).
Proof.
  intros [H1 H2].
  constructor; intros k; rewrite !has_key_strip by (intros i; apply strip_item_keys); auto.
Qed.


Section prompt.
Context (uuid_v5 : rstr → rstr).
Implicit Types (items : list ResponseItemEnvelope).



Lemma normalize_release m items :
  normalize_history uuid_v5 false m items =
  Some (on_item (strip_item m) <$> called (ensured uuid_v5 items)).
Proof.
  unfold normalize_history. rewrite ensure_release. cbn [mbind option_bind].
  rewrite remove_orphans_release. cbn [mbind option_bind]. by rewrite strip_items.
Qed.

(** A paired history needs neither pass, in any build. *)
Lemma normalize_paired debug m items :
  paired items → normalize_history uuid_v5 debug m items = Some (on_item (strip_item m) <$> items).
Proof.
  intros [Hc Ho]. unfold normalize_history, ensure_call_outputs_present, remove_orphan_outputs.
  assert (Hm : ∀ l idx, (∀ e, e ∈ l → e ∈ items) →
    missing_outputs uuid_v5 debug (ids_of function_output_id items) (ids_of tool_search_output_id items)
      (ids_of custom_tool_output_id items) idx l = Some []).
  { induction l as [|e l IH]; intros idx Hl; [done|]. cbn [missing_outputs].
    destruct (missing_output _ _ _ _ (item e)) as [[r o]|] eqn:Hmiss.
    - apply missing_Some in Hmiss as (k & Hk & _ & _ & _ & Hno). destruct Hno. apply Hc.
      exists e. split; [apply Hl; left | done].
    - apply IH. intros e' He'. apply Hl. by right. }
  assert (Hn : ∀ l pos, (∀ e, e ∈ l → e ∈ items) →
    orphans debug (ids_of function_call_id items) (ids_of tool_search_call_id items)
      (ids_of custom_tool_call_id items) pos l = Some []).
  { induction l as [|e l IH]; intros pos Hl; [done|]. cbn [orphans].
    destruct (is_orphan _ _ _ (item e)) eqn:Horph.
    - apply orphan_spec in Horph as (k & Hk & Hno). destruct Hno. apply Ho.
      exists e. split; [apply Hl; left | done].
    - apply IH. intros e' He'. apply Hl. by right. }
  rewrite Hm by done. cbn [mbind option_bind reverse rev_append fold_left].
  rewrite Hn by done. cbn [mbind option_bind is_empty]. by rewrite strip_items.
Qed.


Abbreviation missing_of items := (missing_output uuid_v5 (ids_of function_output_id items)
  (ids_of tool_search_output_id items) (ids_of custom_tool_output_id items)).
Abbreviation orphan_of items := (is_orphan (ids_of function_call_id items)
  (ids_of tool_search_call_id items) (ids_of custom_tool_call_id items)).





(** Normalizing is idempotent: a normalized history is left as it is, also by a
    debug build, which panics on a history that it would repair. *)
Theorem normalization_is_stable debug m items r :
  normalize_history uuid_v5 false m items = Some r → normalize_history uuid_v5 debug m r = Some r.
Proof.
  rewrite normalize_release. intros [= <-]. rewrite normalize_paired by apply paired_strip, passes_paired.
  f_equal. rewrite <- list_fmap_compose. apply list_fmap_ext. intros _ [i meta] _.
  unfold compose, on_item. simpl. by rewrite strip_item_idem.
Qed.
End prompt.

(** ** Dropping the oldest item *)

Record unique_keys (items : list ResponseItemEnvelope) : Prop := {
  unique_calls : NoDup (omap (call_key ∘ item) items);
  unique_outputs : NoDup (omap (output_key ∘ item) items);
}.

(** One item with the key is gone, or there was none. *)
Definition removes (f : ResponseItem → option (pair_kind * rstr)) (k : pair_kind * rstr)
    (items r : list ResponseItemEnvelope) : Prop :=
  (∃ l1 e l2, items = l1 ++ e :: l2 ∧ f (item e) = Some k ∧ r = l1 ++ l2) ∨
  (¬ has_key f k items ∧ r = items).

Lemma position_spec p items :
  match position p items with
  | Some pos => ∃ l1 e l2, items = l1 ++ e :: l2 ∧ p (item e) = true ∧ vec_remove pos items = l1 ++ l2
  | None => ∀ e, e ∈ items → p (item e) = false
  end.
Proof.
  induction items as [|e items IH]; cbn [position]; [by intros e He%not_elem_of_nil|].
  destruct (p (item e)) eqn:Hp; [by exists [], e, items|].
  destruct (position p items) as [pos|]; simpl.
  - destruct IH as (l1 & e' & l2 & E & Hp' & Hr). exists (e :: l1), e', l2.
    split_and!; [by rewrite E | done |]. unfold vec_remove in *. simpl. by rewrite Hr.
  - intros e' [->|He']%elem_of_cons; [done | by apply IH].
Qed.

Lemma remove_first_removes f g k x items :
  (∀ i, g i = Some k ↔ f i = Some x) → removes g k items (remove_first_matching (has_id f x) items).
Proof.
  intros Hfg. unfold remove_first_matching. pose proof (position_spec (has_id f x) items) as Hp.
  destruct (position (has_id f x) items) as [pos|].
  - destruct Hp as (l1 & e & l2 & E & Hp & ->). left. exists l1, e, l2. split_and!; [done| |done].
    apply Hfg. by apply bool_decide_eq_true_1 in Hp.
  - right. split; [|done]. intros (e & He & Hk). apply Hp in He. apply bool_decide_eq_false_1 in He.
    by apply He, Hfg.
Qed.

Lemma remove_corresponding_removes items i :
  match call_key i, output_key i with
  | Some k, _ => removes output_key k items (remove_corresponding_for items i)
  | None, Some k => removes call_key k items (remove_corresponding_for items i)
  | None, None => remove_corresponding_for items i = items
  end.
Proof.
  destruct i as [| | | |? [x|] ? ? ?|? ? ? ? ? x ?|? [x|] ? ? ? ?|? [x|] ? ? ? ?|? ? x ? ? ? ?|? x ? ? ?
    |? [x|] ? ? ? ?| | | | | | |]; cbn -[vec_remove remove_first_matching position]; try done;
    try (apply remove_first_removes; intros j;
         match goal with |- _ = Some ?k ↔ _ => solve [apply (output_key_sets j k) | apply (call_key_sets j k)] end).
  pose proof (position_spec (is_function_call x) items) as H1.
  destruct (position (is_function_call x) items) as [pos|].
  { destruct H1 as (l1 & e & l2 & E & Hp & ->). left. exists l1, e, l2. split_and!; [done| |done].
    destruct (item e); try done. simpl in *. apply bool_decide_eq_true_1 in Hp. by subst. }
  pose proof (position_spec (is_local_shell_call x) items) as H2.
  destruct (position (is_local_shell_call x) items) as [pos|].
  { destruct H2 as (l1 & e & l2 & E & Hp & ->). left. exists l1, e, l2. split_and!; [done| |done].
    destruct (item e) as [| | | |? [y|] ? ? ?| | | | | | | | | | | | |]; try done. simpl in *.
    apply bool_decide_eq_true_1 in Hp. by subst. }
  right. split; [|done]. intros (e & He & Hk). specialize (H1 e He). specialize (H2 e He).
  destruct (item e) as [| | | |? [y|] ? ? ?|? ? ? ? ? y ?|? [y|] ? ? ? ?| | | | | | | | | | |]; try done;
    simpl in *; simplify_eq; unfold str_eqb in *; by case_bool_decide.
Qed.

Lemma elem_of_keys f k items : k ∈ omap (f ∘ item) items ↔ has_key f k items.
Proof. rewrite list_elem_of_omap. done. Qed.

(** The other items keep their keys. *)
Lemma split_has_key f k l1 e l2 :
  has_key f k (l1 ++ e :: l2) ↔ f (item e) = Some k ∨ has_key f k (l1 ++ l2).
Proof.
  unfold has_key. setoid_rewrite elem_of_app. setoid_rewrite elem_of_cons. split.
  - intros (e' & He & Hk). destruct He as [He|[->|He]]; [right | by left | right]; exists e'; auto.
  - intros [Hk|(e' & He & Hk)]; [exists e; auto|]. exists e'. destruct He; auto.
Qed.
Lemma split_unique f l1 e l2 :
  NoDup (omap (f ∘ item) (l1 ++ e :: l2)) →
  NoDup (omap (f ∘ item) (l1 ++ l2)) ∧ ∀ k, f (item e) = Some k → ¬ has_key f k (l1 ++ l2).
Proof.
  rewrite !omap_app. intros Hn.
  assert (Hk : ∀ k, k ∈ omap (f ∘ item) l1 ++ omap (f ∘ item) l2 ↔ has_key f k (l1 ++ l2)).
  { intros k. rewrite <- elem_of_keys, omap_app. done. }
  simpl in Hn. destruct (f (item e)) as [k0|] eqn:He; [|done].
  apply NoDup_app in Hn as (H1 & Hd & [H0 H2]%NoDup_cons). split.
  - apply NoDup_app. split_and!; [done | | done]. intros k Hk1 Hk2. apply (Hd k Hk1). by right.
  - intros k [= <-]. rewrite <- Hk. intros [Hin|Hin]%elem_of_app; [|done]. apply (Hd k0 Hin). by left.
Qed.

(** A call is no output and an output is no call. *)
Lemma key_kinds i k k' : call_key i = Some k → output_key i = Some k' → False.
Proof. by destruct i. Qed.

(** Two items of one key go together. *)
Lemma drop_pair e0 e1 l1 l2 k0 :
  unique_keys (e0 :: l1 ++ e1 :: l2) → paired (e0 :: l1 ++ e1 :: l2) →
  (call_key (item e0) = Some k0 ∧ output_key (item e1) = Some k0) ∨
  (output_key (item e0) = Some k0 ∧ call_key (item e1) = Some k0) →
  unique_keys (l1 ++ l2) ∧ paired (l1 ++ l2).
Proof.
  intros [Uc Uo] [Pa Pb] Hk.
  destruct (split_unique call_key [] e0 (l1 ++ e1 :: l2) Uc) as [Uc1 Hc0].
  destruct (split_unique output_key [] e0 (l1 ++ e1 :: l2) Uo) as [Uo1 Ho0].
  destruct (split_unique call_key l1 e1 l2 Uc1) as [Uc2 Hc1].
  destruct (split_unique output_key l1 e1 l2 Uo1) as [Uo2 Ho1]. simpl app in *.
  split; [by constructor|].
  assert (Hnc : ¬ has_key call_key k0 (l1 ++ l2)).
  { destruct Hk as [[H0 _]|[_ H1]]; [|by apply Hc1]. intros H. apply (Hc0 _ H0), split_has_key. by right. }
  assert (Hno : ¬ has_key output_key k0 (l1 ++ l2)).
  { destruct Hk as [[_ H1]|[H0 _]]; [by apply Ho1|]. intros H. apply (Ho0 _ H0), split_has_key. by right. }
  assert (Hlift : ∀ f k, has_key f k (l1 ++ l2) → has_key f k (e0 :: l1 ++ e1 :: l2)).
  { intros f k H. apply (split_has_key f k [] e0). right. apply split_has_key. by right. }
  assert (Hdown : ∀ f k, has_key f k (e0 :: l1 ++ e1 :: l2) →
    f (item e0) = Some k ∨ f (item e1) = Some k ∨ has_key f k (l1 ++ l2)).
  { intros f k [H|H]%(split_has_key f k [] e0); [by left|]. right. by apply split_has_key in H. }
  constructor; intros k H.
  - destruct (Hdown output_key k (Pa k (Hlift _ _ H))) as [H0|[H1|]]; [| |done]; exfalso;
      destruct Hk as [[Hk0 Hk1]|[Hk0 Hk1]]; simplify_eq; eauto using key_kinds; congruence.
  - assert (Hok : has_key output_key k (l1 ++ l2)).
    { destruct H as (e & He & Hn). exists e. split; [done | by apply needs_call_output]. }
    destruct (Hdown call_key k (Pb k (Hlift _ _ H))) as [H0|[H1|]]; [| |done]; exfalso;
      destruct Hk as [[Hk0 Hk1]|[Hk0 Hk1]]; simplify_eq; eauto using key_kinds; congruence.
Qed.

Lemma drop_alone e0 items :
  unique_keys (e0 :: items) → paired (e0 :: items) → call_key (item e0) = None →
  (∀ k, output_key (item e0) = Some k → ¬ has_key call_key k items) →
  unique_keys items ∧ paired items.
Proof.
  intros [Uc Uo] [Pa Pb] Hc Ho.
  destruct (split_unique call_key [] e0 items Uc) as [Uc1 _].
  destruct (split_unique output_key [] e0 items Uo) as [Uo1 _]. split; [by constructor|].
  constructor; intros k H.
  - destruct (proj1 (split_has_key output_key k [] e0 items) (Pa k ltac:(apply (split_has_key call_key k [] e0); by right)))
      as [H0|]; [|done]. by destruct (Ho k H0).
  - destruct (proj1 (split_has_key call_key k [] e0 items) (Pb k ltac:(apply (split_has_key needs_call k [] e0); by right)))
      as [H0|]; [|done]. congruence.
Qed.

(** Dropping the oldest item keeps calls and outputs paired. *)
Theorem remove_first_keeps_pairs items :
  unique_keys items → paired items →
  unique_keys (remove_first_item items) ∧ paired (remove_first_item items).
Proof.
  destruct items as [|e0 items]; [done|]. intros Hu Hp. cbn [remove_first_item].
  pose proof (remove_corresponding_removes items (item e0)) as Hr.
  destruct (call_key (item e0)) as [k|] eqn:Hc.
  - destruct Hr as [(l1 & e1 & l2 & -> & He & ->)|[Hno _]]; [by eapply drop_pair; eauto|].
    destruct Hp as [Pa _]. destruct (Pa k) as (e & He & Hk); [exists e0; split; [left | done]|].
    apply elem_of_cons in He as [->|He]; [by destruct (key_kinds _ _ _ Hc Hk)|].
    destruct Hno. by exists e.
  - destruct (output_key (item e0)) as [k|] eqn:Ho.
    + destruct Hr as [(l1 & e1 & l2 & -> & He & ->)|[Hno ->]]; [by eapply drop_pair; eauto|].
      apply (drop_alone e0); [done.. |]. intros k'. rewrite Ho. by intros [= <-].
    + rewrite Hr. apply (drop_alone e0); [done.. |]. congruence.
Qed.

(** ** A history to try *)

Definition demo_call (x : rstr) : ResponseItemEnvelope :=
  envelope_new (FunctionCall (Some x) (str "f") None (str "{}") None x None).
Definition demo_image : ResponseItemEnvelope :=
  envelope_new (Message None (str "user") [CInputImage (str "u") None] None None).
Definition demo_output (x : rstr) : ResponseItemEnvelope :=
  envelope_new (FunctionCallOutput None (Some x) None None (from_text (str "ok")) None).

Lemma normalization_is_stable_witness :
  ∃ r, normalize_history (λ s, s) false [TextModality] [demo_call (str "a"); demo_image; demo_output (str "b")]
       = Some r ∧ length r = 3 ∧ normalize_history (λ s, s) true [TextModality] r = Some r.
Proof.
  eexists. split; [vm_compute; reflexivity|]. split; [reflexivity|].
  eapply (normalization_is_stable (λ s, s) true [TextModality]
            [demo_call (str "a"); demo_image; demo_output (str "b")]). vm_compute. reflexivity.
Defined.

Lemma remove_first_keeps_pairs_witness :
  paired (remove_first_item [demo_call (str "a"); demo_image; demo_output (str "a")]).
Proof.
  apply (remove_first_keeps_pairs [demo_call (str "a"); demo_image; demo_output (str "a")]).
  - constructor; apply (bool_decide_unpack _); vm_compute; exact I.
  - constructor; intros k (e & He & Hk); repeat (apply elem_of_cons in He as [->|He]);
      try (by apply not_elem_of_nil in He); simpl in Hk; simplify_eq.
    + exists (demo_output (str "a")). split; [do 2 right; left | done].
    + exists (demo_call (str "a")). split; [left | done].
Defined.
