(* ===== verification/CoreItems.v ===== *)
(** Items and events of the core protocol that a thread's history is built from:
    [protocol/src/items.rs], the event payloads of [protocol/src/protocol.rs],
    [approvals.rs], [dynamic_tools.rs] and [mcp.rs], the display items of
    [ext/items], and the persisted records of [history/src/lib.rs].

    Paths of executors ([PathUri]) have the type [Uri]; host paths, agent paths
    and thread identifiers are their texts; a [Duration] is its number of
    nanoseconds and an [f32] its bit pattern.  JSON values, permission requests
    and the payloads of records that no reader of the history looks into are
    texts of type [Json], as in [History.v].  Of [EventMsg], the variants that
    the history ignores are one constructor. *)

From S2P Require Import Prelude OutputTruncation History.

Abbreviation ThreadId := (list N) (only parsing).
Abbreviation AgentPath := (list N) (only parsing).
Abbreviation HostPath := (list N) (only parsing).
Abbreviation Duration := N (only parsing).
Abbreviation f32 := N (only parsing).
(** [Duration::as_millis] *)
Definition as_millis (d : Duration) : N := (d / 1000000)%N.

(** ** Data shared by items and events *)

Record CoreByteRange := mkCoreByteRange { cbr_start : N; cbr_end : N }.
Record CoreTextElement := mkCoreTextElement {
  cte_byte_range : CoreByteRange;
  cte_placeholder : option rstr;
}.
Inductive CoreUserInput :=
| CoreInputText (text : rstr) (text_elements : list CoreTextElement)
| CoreInputImage (image_url : rstr) (detail : option ImageDetail)
| CoreInputLocalImage (path : HostPath) (detail : option ImageDetail)
| CoreInputAudio (audio_url : rstr)
| CoreInputLocalAudio (path : HostPath)
| CoreInputSkill (name : rstr) (path : HostPath)
| CoreInputMention (name path : rstr).

Inductive MessagePhase := Commentary | FinalAnswer.
Inductive AgentMessageDelivery := Async.
Record AsyncUserInputQuestion := mkQuestion { question_title : rstr; question_options : option (list rstr) }.
Record CoreMemoryCitationEntry := mkCoreCitationEntry {
  cme_path : rstr; cme_line_start : N; cme_line_end : N; cme_note : rstr;
}.
Record CoreMemoryCitation := mkCoreCitation {
  cmc_entries : list CoreMemoryCitationEntry;
  cmc_rollout_ids : list rstr;
}.
Inductive AgentMessageContent := AgentText (text : rstr).
Record CoreHookPromptFragment := mkCoreFragment { chf_text : rstr; chf_hook_run_id : rstr }.
Inductive ReasoningEffort :=
| EffortNone | EffortMinimal | EffortLow | EffortMedium | EffortHigh | EffortXHigh | EffortMax
| EffortUltra | EffortPersistent | EffortCustom (effort : rstr).

Inductive ParsedCommand :=
| ParsedRead (cmd name : rstr) (path : HostPath)
| ParsedListFiles (cmd : rstr) (path : option rstr)
| ParsedSearch (cmd : rstr) (query path : option rstr)
| ParsedUnknown (cmd : rstr).
Inductive FileChange :=
| AddChange (content : rstr)
| DeleteChange (content : rstr)
| UpdateChange (unified_diff : rstr) (move_path : option HostPath).

Inductive ExecCommandSource := SourceAgent | SourceUserShell | SourceUnifiedExecStartup | SourceUnifiedExecInteraction.
Inductive ExecCommandStatus := ExecCompleted | ExecFailed | ExecDeclined.
Inductive CorePatchApplyStatus := CorePatchCompleted | CorePatchFailed | CorePatchDeclined.
Inductive CoreCommandExecutionStatus :=
| CoreCommandInProgress | CoreCommandCompleted | CoreCommandFailed | CoreCommandDeclined.
Inductive CoreDynamicToolCallStatus := CoreDynamicInProgress | CoreDynamicCompleted | CoreDynamicFailed.
Inductive CoreMcpToolCallStatus := CoreMcpInProgress | CoreMcpCompleted | CoreMcpFailed.
Inductive CoreCollabAgentTool :=
| CoreSpawnAgent | CoreSendInput | CoreResumeAgent | CoreWait | CoreCloseAgent | CoreSendMessage
| CoreFollowupTask | CoreInterruptAgent | CoreListAgents.
Inductive CoreCollabAgentToolCallStatus :=
| CoreCollabInProgress | CoreCollabCompleted | CoreCollabFailed | CoreCollabInterrupted.
Inductive CoreSubAgentActivityKind :=
| CoreActivityStarted | CoreActivityInteracted | CoreActivityInterrupted | CoreActivityCompleted.
Inductive AgentStatus :=
| AgentPendingInit | AgentRunning | AgentInterrupted | AgentCompleted (message : option rstr)
| AgentErrored (message : rstr) | AgentShutdown | AgentNotFound.
Record CollabAgentRef := mkAgentRef {
  ref_thread_id : ThreadId; ref_nickname : option rstr; ref_role : option rstr;
}.
Record CollabAgentStatusEntry := mkStatusEntry {
  entry_thread_id : ThreadId; entry_nickname : option rstr; entry_role : option rstr;
  entry_status : AgentStatus;
}.
Inductive CoreDynamicContentItem :=
| CoreDynamicText (text : rstr) | CoreDynamicImage (image_url : rstr) | CoreDynamicAudio (audio_url : rstr).
Record CallToolResult := mkCallToolResult {
  ctr_content : list Json; ctr_structured_content : option Json; ctr_is_error : option bool;
  ctr_meta : option Json;
}.
Inductive CoreWebSearchAction :=
| CoreSearch (query : option rstr) (queries : option (list rstr))
| CoreOpenPage (url : option rstr)
| CoreFindInPage (url pattern : option rstr)
| CoreOtherSearch.

(** ** Reviews *)

Inductive ReviewTarget :=
| UncommittedChanges | BaseBranch (branch : rstr) | CommitTarget (sha : rstr) (title : option rstr)
| CustomTarget (instructions : rstr).
Record ReviewLineRange := mkLineRange { range_start : N; range_end : N }.
Record ReviewCodeLocation := mkCodeLocation {
  absolute_file_path : HostPath; line_range : ReviewLineRange;
}.
Record ReviewFinding := mkFinding {
  finding_title : rstr; finding_body : rstr; finding_confidence : f32; finding_priority : Z;
  code_location : ReviewCodeLocation;
}.
Record ReviewOutputEvent := mkReviewOutput {
  findings : list ReviewFinding; overall_correctness : rstr; overall_explanation : rstr;
  overall_confidence_score : f32;
}.

(** ** Errors of turns *)

Inductive CoreNonSteerableTurnKind := CoreReviewTurn | CoreCompactTurn.
Inductive CoreCodexErrorInfo :=
| CoreContextWindowExceeded | CoreSessionBudgetExceeded | CoreUsageLimitExceeded | CoreRateLimitExceeded
| CoreServerOverloaded | CoreCyberPolicy | CoreMisalignmentPolicyViolation
| CoreHttpConnectionFailed (http_status_code : option N)
| CoreResponseStreamConnectionFailed (http_status_code : option N)
| CoreInternalServerError | CoreUnauthorized | CoreBadRequest | CoreSandboxError
| CoreResponseStreamDisconnected (http_status_code : option N)
| CoreResponseTooManyFailedAttempts (http_status_code : option N)
| CoreActiveTurnNotSteerable (turn_kind : CoreNonSteerableTurnKind)
| CoreThreadRollbackFailed | CoreOtherError.
Definition info_affects_turn_status (i : CoreCodexErrorInfo) : bool :=
  match i with
  | CoreThreadRollbackFailed | CoreActiveTurnNotSteerable _ => false
  | _ => true
  end.
Record CoreMisalignmentSteer := mkCoreSteer { csteer_message : rstr }.
Record CoreMisalignmentErrorDetails := mkCoreMisalignment {
  cmis_error_type : option rstr; cmis_detailed_explanation : option rstr;
  cmis_steer : option CoreMisalignmentSteer;
}.
Record ErrorEvent := mkErrorEvent {
  ee_message : rstr;
  ee_codex_error_info : option CoreCodexErrorInfo;
  ee_misalignment : option CoreMisalignmentErrorDetails;
}.
Definition affects_turn_status (e : ErrorEvent) : bool :=
  match ee_codex_error_info e with None => true | Some i => info_affects_turn_status i end.

(** ** Display items of extensions ([ext/items]) *)

Inductive WebSearchAction :=
| WebSearch_Search (query : option rstr) (queries : option (list rstr))
| WebSearch_OpenPage (url : option rstr)
| WebSearch_FindInPage (url pattern : option rstr)
| WebSearch_Other.
Record WebSearchItem := mkWebSearch {
  ws_id : rstr; ws_query : rstr; ws_action : option WebSearchAction; ws_results : option (list Json);
}.
Record SleepItem := mkSleep { sleep_id : rstr; sleep_duration_ms : N }.
Inductive ImageGenerationFailure := ImageUsageLimitExceeded (limit_id : rstr) (resets_at : option Z).
Record ImageGenerationItem := mkImageGeneration {
  ig_id : rstr; ig_status : rstr; ig_revised_prompt : option rstr; ig_result : rstr;
  ig_transparent_background : option bool; ig_failure : option ImageGenerationFailure;
  ig_saved_path : option HostPath; ig_imagegen_request_id : option rstr; ig_generation_id : option rstr;
}.
Inductive ExtensionItem :=
| ExtImageGeneration (item : ImageGenerationItem)
| ExtSleep (item : SleepItem)
| ExtWebSearch (item : WebSearchItem).
Definition extension_item_id (e : ExtensionItem) : rstr :=
  match e with
  | ExtImageGeneration item => ig_id item
  | ExtSleep item => sleep_id item
  | ExtWebSearch item => ws_id item
  end.

(** ** Turn items ([items.rs]) *)

Section items.
Context {Uri : Type}.

Record UserMessageItem := mkUserMessageItem {
  umi_id : rstr; umi_client_id : option rstr; umi_content : list CoreUserInput;
}.
Record FunctionCallOutputItem := mkFunctionCallOutputItem {
  fco_id : rstr; fco_name : rstr; fco_namespace : option rstr; fco_output : FunctionCallOutputBody;
}.
Record HookPromptItem := mkHookPromptItem { hpi_id : rstr; hpi_fragments : list CoreHookPromptFragment }.
Record AgentMessageItem := mkAgentMessageItem {
  ami_id : rstr; ami_content : list AgentMessageContent; ami_phase : option MessagePhase;
  ami_memory_citation : option CoreMemoryCitation; ami_delivery : option AgentMessageDelivery;
  ami_questions : option (list AsyncUserInputQuestion);
}.
Record PlanItem := mkPlanItem { plan_id : rstr; plan_text : rstr }.
Record ReasoningItem := mkReasoningItem {
  ri_id : rstr; ri_summary_text : list rstr; ri_raw_content : list rstr;
}.
Record CommandExecutionItem := mkCommandExecutionItem {
  cei_id : rstr; cei_plugin_id : option rstr; cei_script_path : option rstr; cei_process_id : option rstr;
  cei_command : list rstr; cei_cwd : Uri; cei_parsed_cmd : list ParsedCommand;
  cei_source : ExecCommandSource; cei_interaction_input : option rstr;
  cei_status : CoreCommandExecutionStatus; cei_stdout : option rstr; cei_stderr : option rstr;
  cei_aggregated_output : option rstr; cei_exit_code : option Z; cei_duration : option Duration;
  cei_formatted_output : option rstr;
}.
Record DynamicToolCallItem := mkDynamicToolCallItem {
  dti_id : rstr; dti_namespace : option rstr; dti_tool : rstr; dti_arguments : Json;
  dti_status : CoreDynamicToolCallStatus; dti_content_items : option (list CoreDynamicContentItem);
  dti_success : option bool; dti_error : option rstr; dti_duration : option Duration;
}.
Record CollabAgentToolCallItem := mkCollabItem {
  cti_id : rstr; cti_tool : CoreCollabAgentTool; cti_status : CoreCollabAgentToolCallStatus;
  cti_sender_thread_id : ThreadId; cti_receiver_thread_ids : list ThreadId;
  cti_receiver_agents : list CollabAgentRef; cti_prompt : option rstr; cti_model : option rstr;
  cti_reasoning_effort : option ReasoningEffort; cti_agents_states : gmap ThreadId AgentStatus;
}.
Record SubAgentActivityItem := mkActivityItem {
  sai_id : rstr; sai_kind : CoreSubAgentActivityKind; sai_agent_thread_id : ThreadId;
  sai_agent_path : AgentPath;
}.
Record CoreWebSearchItem := mkCoreWebSearch {
  cws_id : rstr; cws_query : rstr; cws_action : CoreWebSearchAction; cws_results : option (list Json);
}.
Record ImageViewItem := mkImageView { ivi_id : rstr; ivi_path : Uri }.
Record CoreImageGenerationItem := mkCoreImageGeneration {
  cig_id : rstr; cig_status : rstr; cig_revised_prompt : option rstr; cig_result : rstr;
  cig_saved_path : option HostPath;
}.
Record EnteredReviewModeItem := mkEnteredReview {
  eri_id : rstr; eri_target : ReviewTarget; eri_user_facing_hint : rstr;
}.
Record ExitedReviewModeItem := mkExitedReview { xri_id : rstr; xri_review_output : option ReviewOutputEvent }.
Record FileChangeItem := mkFileChangeItem {
  fci_id : rstr; fci_changes : gmap HostPath FileChange; fci_status : option CorePatchApplyStatus;
  fci_auto_approved : option bool; fci_stdout : option rstr; fci_stderr : option rstr;
}.
Record CoreMcpToolCallError := mkCoreMcpError { cmce_message : rstr }.
Record McpToolCallItem := mkMcpItem {
  mti_id : rstr; mti_server : rstr; mti_tool : rstr; mti_arguments : Json;
  mti_connector_id : option rstr; mti_mcp_app_resource_uri : option rstr; mti_link_id : option rstr;
  mti_app_name : option rstr; mti_action_name : option rstr; mti_plugin_id : option rstr;
  mti_read_only_hint : option bool; mti_status : CoreMcpToolCallStatus;
  mti_result : option CallToolResult; mti_error : option CoreMcpToolCallError;
  mti_duration : option Duration;
}.
Record ContextCompactionItem := mkCompactionItem { cci_id : rstr }.

Inductive TurnItem :=
| TurnUserMessage (item : UserMessageItem)
| TurnFunctionCallOutput (item : FunctionCallOutputItem)
| TurnHookPrompt (item : HookPromptItem)
| TurnAgentMessage (item : AgentMessageItem)
| TurnPlan (item : PlanItem)
| TurnReasoning (item : ReasoningItem)
| TurnCommandExecution (item : CommandExecutionItem)
| TurnDynamicToolCall (item : DynamicToolCallItem)
| TurnCollabAgentToolCall (item : CollabAgentToolCallItem)
| TurnSubAgentActivity (item : SubAgentActivityItem)
| TurnWebSearch (item : CoreWebSearchItem)
| TurnImageView (item : ImageViewItem)
| TurnExtension (item : ExtensionItem)
| TurnImageGeneration (item : CoreImageGenerationItem)
| TurnEnteredReviewMode (item : EnteredReviewModeItem)
| TurnExitedReviewMode (item : ExitedReviewModeItem)
| TurnFileChange (item : FileChangeItem)
| TurnMcpToolCall (item : McpToolCallItem)
| TurnContextCompaction (item : ContextCompactionItem).
Definition turn_item_id (i : TurnItem) : rstr :=
  match i with
  | TurnUserMessage item => umi_id item
  | TurnFunctionCallOutput item => fco_id item
  | TurnHookPrompt item => hpi_id item
  | TurnAgentMessage item => ami_id item
  | TurnPlan item => plan_id item
  | TurnReasoning item => ri_id item
  | TurnCommandExecution item => cei_id item
  | TurnDynamicToolCall item => dti_id item
  | TurnCollabAgentToolCall item => cti_id item
  | TurnSubAgentActivity item => sai_id item
  | TurnWebSearch item => cws_id item
  | TurnImageView item => ivi_id item
  | TurnExtension item => extension_item_id item
  | TurnImageGeneration item => cig_id item
  | TurnEnteredReviewMode item => eri_id item
  | TurnExitedReviewMode item => xri_id item
  | TurnFileChange item => fci_id item
  | TurnMcpToolCall item => mti_id item
  | TurnContextCompaction item => cci_id item
  end.

(** ** Event payloads *)

Record UserMessageEvent := mkUserMessageEvent {
  ume_client_id : option rstr; ume_message : rstr; ume_images : option (list rstr);
  ume_image_details : list (option ImageDetail); ume_local_images : list HostPath;
  ume_local_image_details : list (option ImageDetail); ume_audio : option (list rstr);
  ume_local_audio : list HostPath; ume_text_elements : list CoreTextElement;
}.
Record AgentMessageEvent := mkAgentMessageEvent {
  ame_message : rstr; ame_phase : option MessagePhase; ame_memory_citation : option CoreMemoryCitation;
  ame_delivery : option AgentMessageDelivery; ame_questions : option (list AsyncUserInputQuestion);
}.
Record WebSearchEndEvent := mkWebSearchEnd {
  wse_call_id : rstr; wse_query : rstr; wse_action : CoreWebSearchAction; wse_results : option (list Json);
}.
Record ExecCommandBeginEvent := mkExecBegin {
  xb_call_id : rstr; xb_plugin_id : option rstr; xb_script_path : option rstr; xb_process_id : option rstr;
  xb_turn_id : rstr; xb_started_at_ms : Z; xb_command : list rstr; xb_cwd : Uri;
  xb_parsed_cmd : list ParsedCommand; xb_source : ExecCommandSource; xb_interaction_input : option rstr;
}.
Record ExecCommandEndEvent := mkExecEnd {
  xe_call_id : rstr; xe_plugin_id : option rstr; xe_script_path : option rstr; xe_process_id : option rstr;
  xe_turn_id : rstr; xe_completed_at_ms : Z; xe_command : list rstr; xe_cwd : Uri;
  xe_parsed_cmd : list ParsedCommand; xe_source : ExecCommandSource; xe_interaction_input : option rstr;
  xe_stdout : rstr; xe_stderr : rstr; xe_aggregated_output : rstr; xe_exit_code : Z;
  xe_duration : Duration; xe_formatted_output : rstr; xe_status : ExecCommandStatus;
}.

Inductive GuardianCommandSource := GuardianShell | GuardianUnifiedExec.
Inductive NetworkApprovalProtocol := ApprovalHttp | ApprovalHttps | ApprovalSocks5Tcp | ApprovalSocks5Udp.
Inductive GuardianAssessmentAction :=
| GuardianCommand (source : GuardianCommandSource) (command cwd : rstr)
| GuardianExecve (source : GuardianCommandSource) (program : rstr) (argv : list rstr) (cwd : HostPath)
| GuardianWriteStdin (approval_id process_id stdin : rstr) (cwd : Uri)
| GuardianApplyPatch (cwd : rstr) (files : list rstr)
| GuardianNetworkAccess (target host : rstr) (protocol : NetworkApprovalProtocol) (port : N)
| GuardianMcpToolCall (server tool_name : rstr) (connector_id connector_name tool_title : option rstr)
| GuardianRequestPermissions (reason : option rstr) (permissions : Json).
Inductive GuardianAssessmentStatus :=
| AssessmentInProgress | AssessmentApproved | AssessmentDenied | AssessmentTimedOut | AssessmentAborted.
Inductive CoreGuardianRiskLevel := CoreRiskLow | CoreRiskMedium | CoreRiskHigh | CoreRiskCritical.
Inductive CoreGuardianUserAuthorization :=
| CoreAuthorizationUnknown | CoreAuthorizationLow | CoreAuthorizationMedium | CoreAuthorizationHigh.
Inductive CoreGuardianDecisionSource := CoreDecisionAgent.
Record GuardianAssessmentEvent := mkAssessment {
  ga_review_reason : option Json; ga_id : rstr; ga_target_item_id : option rstr;
  ga_plugin_id : option rstr; ga_script_path : option rstr; ga_turn_id : rstr;
  ga_started_at_ms : Z; ga_completed_at_ms : option Z; ga_status : GuardianAssessmentStatus;
  ga_risk_level : option CoreGuardianRiskLevel;
  ga_user_authorization : option CoreGuardianUserAuthorization; ga_rationale : option rstr;
  ga_decision_source : option CoreGuardianDecisionSource; ga_action : GuardianAssessmentAction;
}.
Record ApplyPatchApprovalRequestEvent := mkPatchApproval {
  apa_call_id : rstr; apa_turn_id : rstr; apa_started_at_ms : Z; apa_changes : gmap HostPath FileChange;
  apa_reason : option rstr; apa_grant_root : option HostPath;
}.
Record PatchApplyBeginEvent := mkPatchBegin {
  pab_call_id : rstr; pab_turn_id : rstr; pab_auto_approved : bool; pab_changes : gmap HostPath FileChange;
}.
Record PatchApplyEndEvent := mkPatchEnd {
  pae_call_id : rstr; pae_turn_id : rstr; pae_stdout : rstr; pae_stderr : rstr; pae_success : bool;
  pae_changes : gmap HostPath FileChange; pae_status : CorePatchApplyStatus;
}.
Record DynamicToolCallRequest := mkDynamicRequest {
  dtr_call_id : rstr; dtr_turn_id : rstr; dtr_started_at_ms : Z; dtr_namespace : option rstr;
  dtr_tool : rstr; dtr_arguments : Json;
}.
Record DynamicToolCallResponseEvent := mkDynamicResponse {
  dtp_call_id : rstr; dtp_turn_id : rstr; dtp_completed_at_ms : Z; dtp_namespace : option rstr;
  dtp_tool : rstr; dtp_arguments : Json; dtp_content_items : list CoreDynamicContentItem;
  dtp_success : bool; dtp_error : option rstr; dtp_duration : Duration;
}.
Record McpInvocation := mkInvocation { inv_server : rstr; inv_tool : rstr; inv_arguments : option Json }.
Record McpToolCallBeginEvent := mkMcpBegin {
  mcb_call_id : rstr; mcb_turn_id : rstr; mcb_invocation : McpInvocation; mcb_connector_id : option rstr;
  mcb_mcp_app_resource_uri : option rstr; mcb_link_id : option rstr; mcb_app_name : option rstr;
  mcb_action_name : option rstr; mcb_plugin_id : option rstr; mcb_read_only_hint : option bool;
}.
Record McpToolCallEndEvent := mkMcpEnd {
  mce_call_id : rstr; mce_turn_id : rstr; mce_invocation : McpInvocation; mce_connector_id : option rstr;
  mce_mcp_app_resource_uri : option rstr; mce_link_id : option rstr; mce_app_name : option rstr;
  mce_action_name : option rstr; mce_plugin_id : option rstr; mce_read_only_hint : option bool;
  mce_duration : Duration; mce_result : result rstr CallToolResult;
}.
Definition mcp_is_success (e : McpToolCallEndEvent) : bool :=
  match mce_result e with
  | Ok r => negb (default false (ctr_is_error r))
  | Err _ => false
  end.
Record ViewImageToolCallEvent := mkViewImage { vi_call_id : rstr; vi_path : Uri }.
Record ImageGenerationEndEvent := mkImageEnd {
  ige_call_id : rstr; ige_status : rstr; ige_revised_prompt : option rstr; ige_result : rstr;
  ige_transparent_background : option bool; ige_failure : option ImageGenerationFailure;
  ige_saved_path : option HostPath;
}.
Record CollabAgentSpawnBeginEvent := mkSpawnBegin {
  csb_call_id : rstr; csb_started_at_ms : Z; csb_sender_thread_id : ThreadId; csb_prompt : rstr;
  csb_model : rstr; csb_reasoning_effort : ReasoningEffort;
}.
Record CollabAgentSpawnEndEvent := mkSpawnEnd {
  cse_call_id : rstr; cse_completed_at_ms : Z; cse_sender_thread_id : ThreadId;
  cse_new_thread_id : option ThreadId; cse_new_agent_nickname : option rstr;
  cse_new_agent_role : option rstr; cse_prompt : rstr; cse_model : rstr;
  cse_reasoning_effort : ReasoningEffort; cse_status : AgentStatus;
}.
Record CollabAgentInteractionBeginEvent := mkInteractionBegin {
  cib_call_id : rstr; cib_started_at_ms : Z; cib_sender_thread_id : ThreadId;
  cib_receiver_thread_id : ThreadId; cib_prompt : rstr;
}.
Record CollabAgentInteractionEndEvent := mkInteractionEnd {
  cie_call_id : rstr; cie_completed_at_ms : Z; cie_sender_thread_id : ThreadId;
  cie_receiver_thread_id : ThreadId; cie_receiver_agent_nickname : option rstr;
  cie_receiver_agent_role : option rstr; cie_prompt : rstr; cie_status : AgentStatus;
}.
Record SubAgentActivityEvent := mkActivity {
  saa_event_id : rstr; saa_occurred_at_ms : Z; saa_agent_thread_id : ThreadId;
  saa_agent_path : AgentPath; saa_kind : CoreSubAgentActivityKind;
}.
Record CollabWaitingBeginEvent := mkWaitingBegin {
  cwb_started_at_ms : Z; cwb_sender_thread_id : ThreadId; cwb_receiver_thread_ids : list ThreadId;
  cwb_receiver_agents : list CollabAgentRef; cwb_call_id : rstr;
}.
Record CollabWaitingEndEvent := mkWaitingEnd {
  cwe_sender_thread_id : ThreadId; cwe_call_id : rstr; cwe_completed_at_ms : Z;
  cwe_agent_statuses : list CollabAgentStatusEntry; cwe_statuses : gmap ThreadId AgentStatus;
}.
Record CollabCloseBeginEvent := mkCloseBegin {
  ccb_call_id : rstr; ccb_started_at_ms : Z; ccb_sender_thread_id : ThreadId;
  ccb_receiver_thread_id : ThreadId;
}.
Record CollabCloseEndEvent := mkCloseEnd {
  cce_call_id : rstr; cce_completed_at_ms : Z; cce_sender_thread_id : ThreadId;
  cce_receiver_thread_id : ThreadId; cce_receiver_agent_nickname : option rstr;
  cce_receiver_agent_role : option rstr; cce_status : AgentStatus;
}.
Record CollabResumeBeginEvent := mkResumeBegin {
  crb_call_id : rstr; crb_started_at_ms : Z; crb_sender_thread_id : ThreadId;
  crb_receiver_thread_id : ThreadId; crb_receiver_agent_nickname : option rstr;
  crb_receiver_agent_role : option rstr;
}.
Record CollabResumeEndEvent := mkResumeEnd {
  cre_call_id : rstr; cre_completed_at_ms : Z; cre_sender_thread_id : ThreadId;
  cre_receiver_thread_id : ThreadId; cre_receiver_agent_nickname : option rstr;
  cre_receiver_agent_role : option rstr; cre_status : AgentStatus;
}.
Record EnteredReviewModeEvent := mkEnteredReviewEvent {
  erm_target : ReviewTarget; erm_user_facing_hint : option rstr; erm_turn_id : option rstr;
  erm_item_id : option rstr;
}.
Record ExitedReviewModeEvent := mkExitedReviewEvent {
  xrm_turn_id : option rstr; xrm_item_id : option rstr; xrm_review_output : option ReviewOutputEvent;
}.
Record ItemStartedEvent := mkItemStarted {
  ise_thread_id : ThreadId; ise_turn_id : rstr; ise_item : TurnItem; ise_started_at_ms : Z;
}.
Record ItemCompletedEvent := mkItemCompleted {
  ice_thread_id : ThreadId; ice_turn_id : rstr; ice_item : TurnItem; ice_started_at_ms : option Z;
  ice_completed_at_ms : Z;
}.
Record ThreadRolledBackEvent := mkRolledBack { num_turns : N }.
Inductive TurnAbortReason := AbortInterrupted | AbortReplaced | AbortReviewEnded | AbortBudgetLimited.
Record TurnAbortedEvent := mkTurnAborted {
  ta_turn_id : option rstr; ta_reason : TurnAbortReason; ta_started_at : option Z;
  ta_completed_at : option Z; ta_duration_ms : option Z;
}.
Inductive ModeKind := PlanMode | DefaultMode.
Record TurnStartedEvent := mkTurnStarted {
  ts_turn_id : rstr; ts_root_turn_id : option rstr; ts_trace_id : option rstr; ts_started_at : option Z;
  ts_model_context_window : option Z; ts_collaboration_mode_kind : ModeKind;
}.
Record TurnCompleteEvent := mkTurnComplete {
  tc_turn_id : rstr; tc_last_agent_message : option rstr; tc_error : option ErrorEvent;
  tc_started_at : option Z; tc_completed_at : option Z; tc_duration_ms : option Z;
  tc_time_to_first_token_ms : option Z;
}.

(** ** Events and records *)

Inductive EventMsg :=
| EvUserMessage (payload : UserMessageEvent)
| EvAgentMessage (payload : AgentMessageEvent)
| EvAgentReasoning (text : rstr)
| EvAgentReasoningRawContent (text : rstr)
| EvWebSearchBegin (call_id : rstr)
| EvWebSearchEnd (payload : WebSearchEndEvent)
| EvExecCommandBegin (payload : ExecCommandBeginEvent)
| EvExecCommandEnd (payload : ExecCommandEndEvent)
| EvGuardianAssessment (payload : GuardianAssessmentEvent)
| EvApplyPatchApprovalRequest (payload : ApplyPatchApprovalRequestEvent)
| EvPatchApplyBegin (payload : PatchApplyBeginEvent)
| EvPatchApplyEnd (payload : PatchApplyEndEvent)
| EvDynamicToolCallRequest (payload : DynamicToolCallRequest)
| EvDynamicToolCallResponse (payload : DynamicToolCallResponseEvent)
| EvMcpToolCallBegin (payload : McpToolCallBeginEvent)
| EvMcpToolCallEnd (payload : McpToolCallEndEvent)
| EvViewImageToolCall (payload : ViewImageToolCallEvent)
| EvImageGenerationBegin (call_id : rstr)
| EvImageGenerationEnd (payload : ImageGenerationEndEvent)
| EvCollabAgentSpawnBegin (payload : CollabAgentSpawnBeginEvent)
| EvCollabAgentSpawnEnd (payload : CollabAgentSpawnEndEvent)
| EvCollabAgentInteractionBegin (payload : CollabAgentInteractionBeginEvent)
| EvCollabAgentInteractionEnd (payload : CollabAgentInteractionEndEvent)
| EvSubAgentActivity (payload : SubAgentActivityEvent)
| EvCollabWaitingBegin (payload : CollabWaitingBeginEvent)
| EvCollabWaitingEnd (payload : CollabWaitingEndEvent)
| EvCollabCloseBegin (payload : CollabCloseBeginEvent)
| EvCollabCloseEnd (payload : CollabCloseEndEvent)
| EvCollabResumeBegin (payload : CollabResumeBeginEvent)
| EvCollabResumeEnd (payload : CollabResumeEndEvent)
| EvContextCompacted
| EvEnteredReviewMode (payload : EnteredReviewModeEvent)
| EvExitedReviewMode (payload : ExitedReviewModeEvent)
| EvItemStarted (payload : ItemStartedEvent)
| EvItemCompleted (payload : ItemCompletedEvent)
| EvHookStarted (payload : Json)
| EvHookCompleted (payload : Json)
| EvError (payload : ErrorEvent)
| EvTokenCount (payload : Json)
| EvThreadRolledBack (payload : ThreadRolledBackEvent)
| EvTurnAborted (payload : TurnAbortedEvent)
| EvTurnStarted (payload : TurnStartedEvent)
| EvTurnComplete (payload : TurnCompleteEvent)
| EvOther (payload : Json).

(** [RealtimeItem]: its identifier, and the rest as JSON *)
Record RealtimeItem := mkRealtime { rt_id : rstr; rt_json : Json }.
(** [SessionMeta], the fields that the projection of a rollout reads: the end of the
    history base and the first ordinal of the subagent's own history *)
Record SessionMeta := mkSessionMeta {
  history_base_end_ordinal : option N;
  subagent_history_start_ordinal : option N;
}.
Inductive RolloutItem :=
| RolloutSessionMeta (line : SessionMeta)
| RolloutResponseItem (item : ResponseItemEnvelope)
| RolloutInterAgentCommunication (communication : Json)
| RolloutInterAgentCommunicationMetadata (trigger_turn : bool)
| RolloutCompacted (item : Json)
| RolloutTurnContext (item : Json)
| RolloutTokenUsageRecord (record : Json)
| RolloutWorldState (item : Json)
| RolloutSecurityRiskScore (score : Json)
| RolloutRetainedContext (event : Json)
| RolloutEventMsg (event : EventMsg)
| RolloutRealtimeItem (item : RealtimeItem).
Record RolloutLine := mkRolloutLine {
  rl_timestamp : rstr; rl_ordinal : option N; rl_item : RolloutItem;
}.
End items.
Arguments TurnItem : clear implicits.
Arguments EventMsg : clear implicits.
Arguments RolloutItem : clear implicits.
Arguments RolloutLine : clear implicits.
Arguments CommandExecutionItem : clear implicits.
Arguments ImageViewItem : clear implicits.
Arguments ExecCommandBeginEvent : clear implicits.
Arguments ExecCommandEndEvent : clear implicits.
Arguments GuardianAssessmentAction : clear implicits.
Arguments GuardianAssessmentEvent : clear implicits.
Arguments ViewImageToolCallEvent : clear implicits.
Arguments ItemStartedEvent : clear implicits.
Arguments ItemCompletedEvent : clear implicits.
