(* ===== verification/ThreadItems.v ===== *)
(** The items that clients see in a thread ([app-server-protocol/src/protocol/v2]):
    [ThreadItem] with its parts, the conversions from the core protocol, and the
    builders of [item_builders.rs] for items that are synthesised from events,
    with the review texts of [protocol/src/review_format.rs] and the hook prompts
    of [protocol/src/items.rs].

    [HistoryTools] is what comes from outside: the redaction of secrets, [shlex],
    the classification of a command line, the XML reader and the UUIDs. *)

From S2P Require Import Prelude AbsolutePath PathUris OutputTruncation History CoreItems.

#[local] Opaque str.

(** ** Data *)

Record ByteRange := mkByteRange { br_start : N; br_end : N }.
Record TextElement := mkTextElement { te_byte_range : ByteRange; te_placeholder : option rstr }.
Inductive UserInput :=
| UserText (text : rstr) (text_elements : list TextElement)
| UserImage (detail : option ImageDetail) (url : rstr)
| UserLocalImage (detail : option ImageDetail) (path : HostPath)
| UserAudio (url : rstr)
| UserLocalAudio (path : HostPath)
| UserSkill (name : rstr) (path : HostPath)
| UserMention (name path : rstr).
Record MemoryCitationEntry := mkCitationEntry {
  me_path : rstr; me_line_start : N; me_line_end : N; me_note : rstr;
}.
Record MemoryCitation := mkCitation { mc_entries : list MemoryCitationEntry; mc_thread_ids : list rstr }.
Record HookPromptFragment := mkFragment { hf_text : rstr; hf_hook_run_id : rstr }.
Inductive CommandAction :=
| ActionRead (command name path : rstr)
| ActionListFiles (command : rstr) (path : option rstr)
| ActionSearch (command : rstr) (query path : option rstr)
| ActionUnknown (command : rstr).
Inductive CommandExecutionSource :=
| CommandAgent | CommandUserShell | CommandUnifiedExecStartup | CommandUnifiedExecInteraction.
Inductive CommandExecutionStatus := CommandInProgress | CommandCompleted | CommandFailed | CommandDeclined.
Inductive PatchChangeKind := KindAdd | KindDelete | KindUpdate (move_path : option HostPath).
Record FileUpdateChange := mkUpdateChange { fuc_path : rstr; fuc_kind : PatchChangeKind; fuc_diff : rstr }.
Inductive PatchApplyStatus := PatchInProgress | PatchCompleted | PatchFailed | PatchDeclined.
Inductive McpToolCallStatus := McpInProgress | McpCompleted | McpFailed.
Record McpToolCallAppContext := mkAppContext {
  ac_connector_id : rstr; ac_link_id : option rstr; ac_resource_uri : option rstr;
  ac_app_name : option rstr; ac_action_name : option rstr;
}.
Record McpToolCallResult := mkMcpResult {
  mr_content : list Json; mr_structured_content : option Json; mr_meta : option Json;
}.
Record McpToolCallError := mkMcpError { mcp_error_message : rstr }.
Inductive DynamicToolCallStatus := DynamicInProgress | DynamicCompleted | DynamicFailed.
Inductive DynamicToolCallOutputContentItem :=
| DynamicInputText (text : rstr) | DynamicInputImage (image_url : rstr) | DynamicInputAudio (audio_url : rstr).
Inductive CollabAgentTool :=
| SpawnAgent | SendInput | ResumeAgent | WaitAgents | CloseAgent | SendMessage | FollowupTask
| InterruptAgent | ListAgents.
Inductive CollabAgentToolCallStatus := CollabInProgress | CollabCompleted | CollabFailed | CollabInterrupted.
Inductive CollabAgentStatus :=
| StatusPendingInit | StatusRunning | StatusInterrupted | StatusCompleted | StatusErrored | StatusShutdown
| StatusNotFound.
Record CollabAgentState := mkAgentState { as_status : CollabAgentStatus; as_message : option rstr }.
Inductive SubAgentActivityKind := ActivityStarted | ActivityInteracted | ActivityInterrupted | ActivityCompleted.

Inductive ThreadItem :=
| ItemUserMessage (id : rstr) (client_id : option rstr) (content : list UserInput)
| ItemHookPrompt (id : rstr) (fragments : list HookPromptFragment)
| ItemAgentMessage (id text : rstr) (phase : option MessagePhase) (memory_citation : option MemoryCitation)
    (delivery : option AgentMessageDelivery) (questions : option (list AsyncUserInputQuestion))
| ItemFunctionCallOutput (id name : rstr) (namespace : option rstr) (output : FunctionCallOutputBody)
| ItemPlan (id text : rstr)
| ItemReasoning (id : rstr) (summary content : list rstr)
| ItemCommandExecution (id : rstr) (plugin_id script_path : option rstr) (command cwd : rstr)
    (process_id : option rstr) (source : CommandExecutionSource) (status : CommandExecutionStatus)
    (command_actions : list CommandAction) (aggregated_output : option rstr) (exit_code : option Z)
    (duration_ms : option Z)
| ItemFileChange (id : rstr) (changes : list FileUpdateChange) (status : PatchApplyStatus)
| ItemMcpToolCall (id server tool : rstr) (status : McpToolCallStatus) (arguments : Json)
    (app_context : option McpToolCallAppContext) (mcp_app_resource_uri plugin_id : option rstr)
    (read_only_hint : option bool) (result : option McpToolCallResult) (error : option McpToolCallError)
    (duration_ms : option Z)
| ItemDynamicToolCall (id : rstr) (namespace : option rstr) (tool : rstr) (arguments : Json)
    (status : DynamicToolCallStatus) (content_items : option (list DynamicToolCallOutputContentItem))
    (success : option bool) (duration_ms : option Z)
| ItemCollabAgentToolCall (id : rstr) (tool : CollabAgentTool) (status : CollabAgentToolCallStatus)
    (sender_thread_id : rstr) (receiver_thread_ids : list rstr) (prompt model : option rstr)
    (reasoning_effort : option ReasoningEffort) (agents_states : gmap rstr CollabAgentState)
| ItemSubAgentActivity (id : rstr) (kind : SubAgentActivityKind) (agent_thread_id agent_path : rstr)
| ItemWebSearch (item : WebSearchItem)
| ItemImageView (id path : rstr)
| ItemSleep (item : SleepItem)
| ItemImageGeneration (item : ImageGenerationItem)
| ItemEnteredReviewMode (id review : rstr)
| ItemExitedReviewMode (id review : rstr)
| ItemContextCompaction (id : rstr).
(** [ThreadItem::id] *)
Definition thread_item_id (i : ThreadItem) : rstr :=
  match i with
  | ItemUserMessage id _ _ | ItemHookPrompt id _ | ItemAgentMessage id _ _ _ _ _
  | ItemFunctionCallOutput id _ _ _ | ItemPlan id _ | ItemReasoning id _ _
  | ItemCommandExecution id _ _ _ _ _ _ _ _ _ _ _ | ItemFileChange id _ _
  | ItemMcpToolCall id _ _ _ _ _ _ _ _ _ _ _ | ItemDynamicToolCall id _ _ _ _ _ _ _
  | ItemCollabAgentToolCall id _ _ _ _ _ _ _ _ | ItemSubAgentActivity id _ _ _ | ItemImageView id _
  | ItemEnteredReviewMode id _ | ItemExitedReviewMode id _ | ItemContextCompaction id => id
  | ItemWebSearch item => ws_id item
  | ItemSleep item => sleep_id item
  | ItemImageGeneration item => ig_id item
  end.

(** ** Errors and turns *)

Inductive NonSteerableTurnKind := ReviewTurn | CompactTurn.
Inductive CodexErrorInfo :=
| ContextWindowExceeded | SessionBudgetExceeded | UsageLimitExceeded | RateLimitExceeded | ServerOverloaded
| CyberPolicy | MisalignmentPolicyViolation
| HttpConnectionFailed (http_status_code : option N)
| ResponseStreamConnectionFailed (http_status_code : option N)
| InternalServerError | Unauthorized | BadRequest | ThreadRollbackFailed | SandboxError
| ResponseStreamDisconnected (http_status_code : option N)
| ResponseTooManyFailedAttempts (http_status_code : option N)
| ActiveTurnNotSteerable (turn_kind : NonSteerableTurnKind)
| OtherError.
Record MisalignmentSteer := mkSteer { steer_message : rstr }.
Record MisalignmentErrorDetails := mkMisalignment {
  mis_error_type : option rstr; mis_detailed_explanation : option rstr; mis_steer : option MisalignmentSteer;
}.
Record TurnError := mkTurnError {
  error_message : rstr; codex_error_info : option CodexErrorInfo; additional_details : option rstr;
  misalignment : option MisalignmentErrorDetails;
}.
Inductive TurnStatus := TurnCompleted | TurnInterrupted | TurnFailed | TurnInProgress.
#[global] Instance turn_status_eq_dec : EqDecision TurnStatus.
Proof. solve_decision. Defined.
Inductive TurnItemsView := ViewNotLoaded | ViewSummary | ViewFull.
Record Turn := mkTurn {
  turn_id : rstr; turn_items : list ThreadItem; turn_items_view : TurnItemsView; turn_status : TurnStatus;
  turn_error : option TurnError; turn_started_at : option Z; turn_completed_at : option Z;
  turn_duration_ms : option Z;
}.

(** ** Conversions from the core protocol *)

Definition byte_range_from (r : CoreByteRange) : ByteRange := mkByteRange (cbr_start r) (cbr_end r).
Definition text_element_from (e : CoreTextElement) : TextElement :=
  mkTextElement (byte_range_from (cte_byte_range e)) (cte_placeholder e).
Definition user_input_from (i : CoreUserInput) : UserInput :=
  match i with
  | CoreInputText text text_elements => UserText text (text_element_from <$> text_elements)
  | CoreInputImage image_url detail => UserImage detail image_url
  | CoreInputLocalImage path detail => UserLocalImage detail path
  | CoreInputAudio audio_url => UserAudio audio_url
  | CoreInputLocalAudio path => UserLocalAudio path
  | CoreInputSkill name path => UserSkill name path
  | CoreInputMention name path => UserMention name path
  end.
Definition citation_entry_from (e : CoreMemoryCitationEntry) : MemoryCitationEntry :=
  mkCitationEntry (cme_path e) (cme_line_start e) (cme_line_end e) (cme_note e).
Definition memory_citation_from (c : CoreMemoryCitation) : MemoryCitation :=
  mkCitation (citation_entry_from <$> cmc_entries c) (cmc_rollout_ids c).
Definition hook_fragment_from (f : CoreHookPromptFragment) : HookPromptFragment :=
  mkFragment (chf_text f) (chf_hook_run_id f).
Definition command_source_from (s : ExecCommandSource) : CommandExecutionSource :=
  match s with
  | SourceAgent => CommandAgent
  | SourceUserShell => CommandUserShell
  | SourceUnifiedExecStartup => CommandUnifiedExecStartup
  | SourceUnifiedExecInteraction => CommandUnifiedExecInteraction
  end.
Definition command_status_from_exec (s : ExecCommandStatus) : CommandExecutionStatus :=
  match s with
  | ExecCompleted => CommandCompleted | ExecFailed => CommandFailed | ExecDeclined => CommandDeclined
  end.
Definition command_status_from_core (s : CoreCommandExecutionStatus) : CommandExecutionStatus :=
  match s with
  | CoreCommandInProgress => CommandInProgress
  | CoreCommandCompleted => CommandCompleted
  | CoreCommandFailed => CommandFailed
  | CoreCommandDeclined => CommandDeclined
  end.
Definition patch_status_from (s : CorePatchApplyStatus) : PatchApplyStatus :=
  match s with
  | CorePatchCompleted => PatchCompleted | CorePatchFailed => PatchFailed | CorePatchDeclined => PatchDeclined
  end.
Definition mcp_status_from (s : CoreMcpToolCallStatus) : McpToolCallStatus :=
  match s with
  | CoreMcpInProgress => McpInProgress | CoreMcpCompleted => McpCompleted | CoreMcpFailed => McpFailed
  end.
Definition dynamic_status_from (s : CoreDynamicToolCallStatus) : DynamicToolCallStatus :=
  match s with
  | CoreDynamicInProgress => DynamicInProgress
  | CoreDynamicCompleted => DynamicCompleted
  | CoreDynamicFailed => DynamicFailed
  end.
Definition collab_tool_from (t : CoreCollabAgentTool) : CollabAgentTool :=
  match t with
  | CoreSpawnAgent => SpawnAgent | CoreSendInput => SendInput | CoreResumeAgent => ResumeAgent
  | CoreWait => WaitAgents | CoreCloseAgent => CloseAgent | CoreSendMessage => SendMessage
  | CoreFollowupTask => FollowupTask | CoreInterruptAgent => InterruptAgent | CoreListAgents => ListAgents
  end.
Definition collab_status_from (s : CoreCollabAgentToolCallStatus) : CollabAgentToolCallStatus :=
  match s with
  | CoreCollabInProgress => CollabInProgress | CoreCollabCompleted => CollabCompleted
  | CoreCollabFailed => CollabFailed | CoreCollabInterrupted => CollabInterrupted
  end.
Definition activity_kind_from (k : CoreSubAgentActivityKind) : SubAgentActivityKind :=
  match k with
  | CoreActivityStarted => ActivityStarted | CoreActivityInteracted => ActivityInteracted
  | CoreActivityInterrupted => ActivityInterrupted | CoreActivityCompleted => ActivityCompleted
  end.
Definition agent_state_from (s : AgentStatus) : CollabAgentState :=
  match s with
  | AgentPendingInit => mkAgentState StatusPendingInit None
  | AgentRunning => mkAgentState StatusRunning None
  | AgentInterrupted => mkAgentState StatusInterrupted None
  | AgentCompleted message => mkAgentState StatusCompleted message
  | AgentErrored message => mkAgentState StatusErrored (Some message)
  | AgentShutdown => mkAgentState StatusShutdown None
  | AgentNotFound => mkAgentState StatusNotFound None
  end.
Definition dynamic_content_from (i : CoreDynamicContentItem) : DynamicToolCallOutputContentItem :=
  match i with
  | CoreDynamicText text => DynamicInputText text
  | CoreDynamicImage image_url => DynamicInputImage image_url
  | CoreDynamicAudio audio_url => DynamicInputAudio audio_url
  end.
Definition convert_dynamic_tool_content_items (items : list CoreDynamicContentItem)
    : list DynamicToolCallOutputContentItem := dynamic_content_from <$> items.
Definition mcp_result_from (r : CallToolResult) : McpToolCallResult :=
  mkMcpResult (ctr_content r) (ctr_structured_content r) (ctr_meta r).
Definition mcp_error_from (e : CoreMcpToolCallError) : McpToolCallError := mkMcpError (cmce_message e).
Definition web_search_action_from_core (a : CoreWebSearchAction) : WebSearchAction :=
  match a with
  | CoreSearch query queries => WebSearch_Search query queries
  | CoreOpenPage url => WebSearch_OpenPage url
  | CoreFindInPage url pattern => WebSearch_FindInPage url pattern
  | CoreOtherSearch => WebSearch_Other
  end.
Definition turn_kind_from (k : CoreNonSteerableTurnKind) : NonSteerableTurnKind :=
  match k with CoreReviewTurn => ReviewTurn | CoreCompactTurn => CompactTurn end.
Definition error_info_from (i : CoreCodexErrorInfo) : CodexErrorInfo :=
  match i with
  | CoreContextWindowExceeded => ContextWindowExceeded
  | CoreSessionBudgetExceeded => SessionBudgetExceeded
  | CoreUsageLimitExceeded => UsageLimitExceeded
  | CoreRateLimitExceeded => RateLimitExceeded
  | CoreServerOverloaded => ServerOverloaded
  | CoreCyberPolicy => CyberPolicy
  | CoreMisalignmentPolicyViolation => MisalignmentPolicyViolation
  | CoreHttpConnectionFailed code => HttpConnectionFailed code
  | CoreResponseStreamConnectionFailed code => ResponseStreamConnectionFailed code
  | CoreInternalServerError => InternalServerError
  | CoreUnauthorized => Unauthorized
  | CoreBadRequest => BadRequest
  | CoreThreadRollbackFailed => ThreadRollbackFailed
  | CoreSandboxError => SandboxError
  | CoreResponseStreamDisconnected code => ResponseStreamDisconnected code
  | CoreResponseTooManyFailedAttempts code => ResponseTooManyFailedAttempts code
  | CoreActiveTurnNotSteerable turn_kind => ActiveTurnNotSteerable (turn_kind_from turn_kind)
  | CoreOtherError => OtherError
  end.
Definition steer_from (s : CoreMisalignmentSteer) : MisalignmentSteer := mkSteer (csteer_message s).
Definition misalignment_from (d : CoreMisalignmentErrorDetails) : MisalignmentErrorDetails :=
  mkMisalignment (cmis_error_type d) (cmis_detailed_explanation d) (steer_from <$> cmis_steer d).
(** The [TurnError] that the history builds from an error event, in
    [handle_error], [handle_turn_complete] and [project_rollout_line] *)
Definition turn_error_of (e : ErrorEvent) : TurnError :=
  mkTurnError (ee_message e) (error_info_from <$> ee_codex_error_info e) None
    (misalignment_from <$> ee_misalignment e).
(** [i64::try_from(duration.as_millis()).ok()] *)
Definition duration_ms_of (d : Duration) : option Z :=
  if (as_millis d <? 2 ^ 63)%N then Some (Z.of_N (as_millis d)) else None.

(** ** Review texts ([review_format.rs]) *)

Definition REVIEW_FALLBACK_MESSAGE : rstr := str "Reviewer failed to output a response.".
Definition format_location (item : ReviewFinding) : rstr :=
  let range := line_range (code_location item) in
  absolute_file_path (code_location item) ++ str ":" ++ str (pretty (range_start range)) ++ str "-"
    ++ str (pretty (range_end range)).
(** The separator between a title and its location is a dash between blanks. *)
Definition dash : rstr := [32%N; 8212%N; 32%N].
Fixpoint finding_lines (idx : nat) (items : list ReviewFinding) (selection : option (list bool)) : list rstr :=
  match items with
  | [] => []
  | item :: items =>
      let entry :=
        match selection with
        | Some flags =>
            str "- " ++ (if default true (flags !! idx) then str "[x]" else str "[ ]") ++ str " "
              ++ finding_title item ++ dash ++ format_location item
        | None => str "- " ++ finding_title item ++ dash ++ format_location item
        end in
      [] :: entry :: ((λ body_line, str "  " ++ body_line) <$> lines (finding_body item))
        ++ finding_lines (S idx) items selection
  end.
Definition format_review_findings_block (items : list ReviewFinding) (selection : option (list bool)) : rstr :=
  let header := if 1 <? length items then str "Full review comments:" else str "Review comment:" in
  join [ch_nl] ([] :: header :: finding_lines 0 items selection).
Definition render_review_output_text (output : ReviewOutputEvent) : rstr :=
  let explanation := trim (overall_explanation output) in
  let sections := if is_empty explanation then [] else [explanation] in
  let sections :=
    if is_empty (findings output) then sections
    else
      let trimmed := trim (format_review_findings_block (findings output) None) in
      if is_empty trimmed then sections else sections ++ [trimmed] in
  if is_empty sections then REVIEW_FALLBACK_MESSAGE else join [ch_nl; ch_nl] sections.
Definition review_output_text (output : option ReviewOutputEvent) : rstr :=
  match output with Some output => render_review_output_text output | None => REVIEW_FALLBACK_MESSAGE end.

(** ** Builders *)

Class HistoryTools := {
  (** [codex_secrets::redact_secrets] *)
  redact_secrets : rstr → rstr;
  (** [shlex::try_join], which fails on a NUL byte *)
  shlex_try_join : list rstr → option rstr;
  (** [codex_shell_command::parse_command::parse_command] *)
  parse_command : list rstr → list ParsedCommand;
  (** [quick_xml] on a hook prompt: the text and the run identifier *)
  from_xml_str : rstr → option (rstr * rstr);
  (** The UUIDs that [Uuid::now_v7] returns, in the order they are drawn *)
  now_v7 : nat → rstr;
}.

Section builders.
Context {FU : FileUrls} {PE : PathEnv} {HT : HistoryTools}.

(** [parse_command::shlex_join] *)
Definition history_shlex_join (tokens : list rstr) : rstr :=
  default (str "<command included NUL byte>") (shlex_try_join tokens).

Definition path_uri_action (cwd : Url) (parsed : ParsedCommand) : option CommandAction :=
  match parsed with
  | ParsedRead cmd name path =>
      match uri_join_path cwd path with
      | Ok path => Some (ActionRead (redact_secrets cmd) name (native_path_string path))
      | Err _ => None
      end
  | ParsedListFiles cmd path => Some (ActionListFiles (redact_secrets cmd) path)
  | ParsedSearch cmd query path => Some (ActionSearch (redact_secrets cmd) (redact_secrets <$> query) path)
  | ParsedUnknown cmd => Some (ActionUnknown (redact_secrets cmd))
  end.
Definition command_actions_for_path_uri (parsed_cmd : list ParsedCommand) (cwd : Url) : list CommandAction :=
  omap (path_uri_action cwd) parsed_cmd.
Record CommandExecutionPresentation := mkPresentation {
  pres_command : rstr; pres_command_actions : list CommandAction;
}.
Definition presentation_from_raw (command : list rstr) (parsed_cmd : list ParsedCommand) (cwd : Url)
    : CommandExecutionPresentation :=
  mkPresentation (redact_secrets (history_shlex_join command)) (command_actions_for_path_uri parsed_cmd cwd).

Definition map_patch_change_kind (change : FileChange) : PatchChangeKind :=
  match change with
  | AddChange _ => KindAdd
  | DeleteChange _ => KindDelete
  | UpdateChange _ move_path => KindUpdate move_path
  end.
Definition format_file_change_diff (change : FileChange) : rstr :=
  match change with
  | AddChange content | DeleteChange content => content
  | UpdateChange unified_diff (Some path) => unified_diff ++ [ch_nl; ch_nl] ++ str "Moved to: " ++ path
  | UpdateChange unified_diff None => unified_diff
  end.
(** The map is read in an unspecified order and the result sorted by path; the
    paths of a map are different. *)
Definition convert_patch_changes (changes : gmap HostPath FileChange) : list FileUpdateChange :=
  sort_by_key fuc_path
    ((λ pc, mkUpdateChange pc.1 (map_patch_change_kind pc.2) (format_file_change_diff pc.2))
       <$> map_to_list changes).

Definition build_file_change_approval_request_item (p : ApplyPatchApprovalRequestEvent) : ThreadItem :=
  ItemFileChange (apa_call_id p) (convert_patch_changes (apa_changes p)) PatchInProgress.
Definition build_file_change_begin_item (p : PatchApplyBeginEvent) : ThreadItem :=
  ItemFileChange (pab_call_id p) (convert_patch_changes (pab_changes p)) PatchInProgress.
Definition build_file_change_end_item (p : PatchApplyEndEvent) : ThreadItem :=
  ItemFileChange (pae_call_id p) (convert_patch_changes (pae_changes p)) (patch_status_from (pae_status p)).
Definition build_command_execution_begin_item (p : ExecCommandBeginEvent Url) : ThreadItem :=
  let presentation := presentation_from_raw (xb_command p) (xb_parsed_cmd p) (xb_cwd p) in
  ItemCommandExecution (xb_call_id p) (xb_plugin_id p) (xb_script_path p) (pres_command presentation)
    (native_path_string (xb_cwd p)) (xb_process_id p) (command_source_from (xb_source p))
    CommandInProgress (pres_command_actions presentation) None None None.
Definition build_command_execution_end_item (p : ExecCommandEndEvent Url) : ThreadItem :=
  let aggregated_output := if is_empty (xe_aggregated_output p) then None else Some (xe_aggregated_output p) in
  let duration_ms := default (2 ^ 63 - 1)%Z (duration_ms_of (xe_duration p)) in
  let presentation := presentation_from_raw (xe_command p) (xe_parsed_cmd p) (xe_cwd p) in
  ItemCommandExecution (xe_call_id p) (xe_plugin_id p) (xe_script_path p) (pres_command presentation)
    (native_path_string (xe_cwd p)) (xe_process_id p) (command_source_from (xe_source p))
    (command_status_from_exec (xe_status p)) (pres_command_actions presentation) aggregated_output
    (Some (xe_exit_code p)) (Some duration_ms).

(** [CommandAction::from_core_with_cwd] *)
Definition from_core_with_cwd (value : ParsedCommand) (cwd : HostPath) : CommandAction :=
  match value with
  | ParsedRead cmd name path => ActionRead cmd name (resolve_path_against_base path cwd)
  | ParsedListFiles cmd path => ActionListFiles cmd path
  | ParsedSearch cmd query path => ActionSearch cmd query path
  | ParsedUnknown cmd => ActionUnknown cmd
  end.
Definition build_item_from_guardian_event (assessment : GuardianAssessmentEvent Url)
    (status : CommandExecutionStatus) : option ThreadItem :=
  let execution id command cwd command_actions :=
    ItemCommandExecution id (ga_plugin_id assessment) (ga_script_path assessment) command cwd None
      CommandAgent status command_actions None None None in
  match ga_action assessment with
  | GuardianCommand _ command cwd =>
      id ← ga_target_item_id assessment;
      Some (execution id command cwd [ActionUnknown command])
  | GuardianExecve _ program argv cwd =>
      id ← ga_target_item_id assessment;
      let argv := if is_empty argv then [program] else program :: drop 1 argv in
      let command := history_shlex_join argv in
      let parsed_cmd := parse_command argv in
      let command_actions :=
        if is_empty parsed_cmd then [ActionUnknown command]
        else (λ parsed, from_core_with_cwd parsed cwd) <$> parsed_cmd in
      Some (execution id command cwd command_actions)
  | GuardianWriteStdin _ _ _ _ | GuardianApplyPatch _ _ | GuardianNetworkAccess _ _ _ _
  | GuardianMcpToolCall _ _ _ _ _ | GuardianRequestPermissions _ _ => None
  end.

(** ** Hook prompts *)

Definition parse_hook_prompt_fragment (text : rstr) : option CoreHookPromptFragment :=
  '(text, hook_run_id) ← from_xml_str (trim text);
  if is_empty (trim hook_run_id) then None else Some (mkCoreFragment text hook_run_id).
(** [HookPromptItem::from_fragments] draws a UUID for a message without an
    identifier; the item is given for the identifier that is drawn. *)
Definition from_fragments (id : option rstr) (fresh : rstr) (fragments : list CoreHookPromptFragment)
    : HookPromptItem := mkHookPromptItem (default fresh id) fragments.
Definition parse_hook_prompt_message (id : option rstr) (fresh : rstr) (content : list ContentItem)
    : option HookPromptItem :=
  fragments ← mapM (λ c, match c with CInputText text => parse_hook_prompt_fragment text | _ => None end) content;
  if is_empty fragments then None else Some (from_fragments id fresh fragments).

(** ** [impl From<TurnItem> for ThreadItem] *)

Definition app_context_of (connector_id link_id resource_uri app_name action_name : option rstr)
    : option McpToolCallAppContext :=
  (λ connector_id, mkAppContext connector_id link_id resource_uri app_name action_name) <$> connector_id.
Definition non_empty_output (output : option rstr) : option rstr :=
  match output with Some output => if is_empty output then None else Some output | None => None end.
Definition agent_message_text (content : list AgentMessageContent) : rstr :=
  concat ((λ entry, match entry with AgentText text => text end) <$> content).
Definition thread_item_from (value : TurnItem Url) : ThreadItem :=
  match value with
  | TurnUserMessage user =>
      ItemUserMessage (umi_id user) (umi_client_id user) (user_input_from <$> umi_content user)
  | TurnHookPrompt hook_prompt =>
      ItemHookPrompt (hpi_id hook_prompt) (hook_fragment_from <$> hpi_fragments hook_prompt)
  | TurnAgentMessage agent =>
      ItemAgentMessage (ami_id agent) (agent_message_text (ami_content agent))
        (ami_phase agent) (memory_citation_from <$> ami_memory_citation agent) (ami_delivery agent)
        (ami_questions agent)
  | TurnFunctionCallOutput output =>
      ItemFunctionCallOutput (fco_id output) (fco_name output) (fco_namespace output) (fco_output output)
  | TurnPlan plan => ItemPlan (plan_id plan) (plan_text plan)
  | TurnReasoning reasoning =>
      ItemReasoning (ri_id reasoning) (ri_summary_text reasoning) (ri_raw_content reasoning)
  | TurnCommandExecution command =>
      let presentation := presentation_from_raw (cei_command command) (cei_parsed_cmd command) (cei_cwd command) in
      ItemCommandExecution (cei_id command) (cei_plugin_id command) (cei_script_path command)
        (pres_command presentation) (native_path_string (cei_cwd command)) (cei_process_id command)
        (command_source_from (cei_source command)) (command_status_from_core (cei_status command))
        (pres_command_actions presentation)
        (non_empty_output (cei_aggregated_output command))
        (cei_exit_code command) (cei_duration command ≫= duration_ms_of)
  | TurnDynamicToolCall call =>
      ItemDynamicToolCall (dti_id call) (dti_namespace call) (dti_tool call) (dti_arguments call)
        (dynamic_status_from (dti_status call)) (convert_dynamic_tool_content_items <$> dti_content_items call)
        (dti_success call) (dti_duration call ≫= duration_ms_of)
  | TurnCollabAgentToolCall call =>
      ItemCollabAgentToolCall (cti_id call) (collab_tool_from (cti_tool call))
        (collab_status_from (cti_status call)) (cti_sender_thread_id call) (cti_receiver_thread_ids call)
        (cti_prompt call) (cti_model call) (cti_reasoning_effort call)
        (agent_state_from <$> cti_agents_states call)
  | TurnSubAgentActivity activity =>
      ItemSubAgentActivity (sai_id activity) (activity_kind_from (sai_kind activity))
        (sai_agent_thread_id activity) (sai_agent_path activity)
  | TurnWebSearch search =>
      ItemWebSearch (mkWebSearch (cws_id search) (cws_query search)
        (Some (web_search_action_from_core (cws_action search))) (cws_results search))
  | TurnImageView image => ItemImageView (ivi_id image) (native_path_string (ivi_path image))
  | TurnExtension (ExtImageGeneration item) => ItemImageGeneration item
  | TurnExtension (ExtSleep item) => ItemSleep item
  | TurnExtension (ExtWebSearch item) => ItemWebSearch item
  | TurnImageGeneration image =>
      ItemImageGeneration (mkImageGeneration (cig_id image) (cig_status image) (cig_revised_prompt image)
        (cig_result image) None None (cig_saved_path image) None None)
  | TurnEnteredReviewMode review => ItemEnteredReviewMode (eri_id review) (eri_user_facing_hint review)
  | TurnExitedReviewMode review => ItemExitedReviewMode (xri_id review) (review_output_text (xri_review_output review))
  | TurnFileChange file_change =>
      ItemFileChange (fci_id file_change) (convert_patch_changes (fci_changes file_change))
        (default PatchInProgress (patch_status_from <$> fci_status file_change))
  | TurnMcpToolCall mcp =>
      ItemMcpToolCall (mti_id mcp) (mti_server mcp) (mti_tool mcp) (mcp_status_from (mti_status mcp))
        (mti_arguments mcp)
        (app_context_of (mti_connector_id mcp) (mti_link_id mcp) (mti_mcp_app_resource_uri mcp)
           (mti_app_name mcp) (mti_action_name mcp))
        (mti_mcp_app_resource_uri mcp) (mti_plugin_id mcp) (mti_read_only_hint mcp)
        (mcp_result_from <$> mti_result mcp) (mcp_error_from <$> mti_error mcp)
        (mti_duration mcp ≫= duration_ms_of)
  | TurnContextCompaction compaction => ItemContextCompaction (cci_id compaction)
  end.

(** ** Properties *)

(** The item shown to a client has the identifier of the core item. *)
Lemma thread_item_from_id value : thread_item_id (thread_item_from value) = turn_item_id value.
Proof. by destruct value as [| | | | | | | | | | | |[]| | | | | |]. Qed.
End builders.
