(* ===== verification/ThreadHistory.v ===== *)
(** Rebuilding the turns of a thread from its events:
    [app-server-protocol/src/protocol/thread_history.rs].

    A builder holds the finished turns, the turn being built and, while changes
    are tracked, the set of changes of the event in hand.  Indexing a vector out
    of range would panic, so the operations return an option and [None] is a
    panic; [next_item_index] is an [i64] that wraps around as in a release build.
    [b_uuids] counts the UUIDs drawn so far: it stands for the clock and the
    random numbers behind [Uuid::now_v7]. *)

From S2P Require Import Prelude AbsolutePath PathUris OutputTruncation History CoreItems ThreadItems.

#[local] Opaque str.

Definition wrap_i64 (z : Z) : Z := (((z + 2 ^ 63) mod 2 ^ 64) - 2 ^ 63)%Z.

(** ** The items of a turn and their index *)

Definition TURN_ITEM_INDEX_THRESHOLD : nat := 32.
Record TurnItemIndex := mkIndex { positions : option (gmap rstr nat) }.
Definition index_default : TurnItemIndex := mkIndex None.
(** [HashMap::entry(k).or_insert(v)] *)
Definition entry_or_insert (m : gmap rstr nat) (k : rstr) (v : nat) : gmap rstr nat :=
  match m !! k with Some _ => m | None => <[k := v]> m end.
Definition index_push (ix : TurnItemIndex) (items : list ThreadItem) (item : ThreadItem)
    : TurnItemIndex * list ThreadItem :=
  (mkIndex ((λ ps, entry_or_insert ps (thread_item_id item) (length items)) <$> positions ix),
   items ++ [item]).
Fixpoint build_positions (start : nat) (items : list ThreadItem) (ps : gmap rstr nat) : gmap rstr nat :=
  match items with
  | [] => ps
  | existing :: items => build_positions (S start) items (entry_or_insert ps (thread_item_id existing) start)
  end.
(** [Iterator::position] of an item with the identifier *)
Definition position_of (id : rstr) (items : list ThreadItem) : option nat :=
  fst <$> list_find (λ existing, thread_item_id existing = id) items.
Definition lazy_index (ix : TurnItemIndex) (items : list ThreadItem) : TurnItemIndex :=
  if bool_decide (positions ix = None) && (TURN_ITEM_INDEX_THRESHOLD <=? length items)
  then mkIndex (Some (build_positions 0 items ∅)) else ix.
(** The index, the items and the item that the returned reference denotes *)
Definition index_upsert (ix : TurnItemIndex) (items : list ThreadItem) (item : ThreadItem)
    : option (TurnItemIndex * list ThreadItem * ThreadItem) :=
  let ix := lazy_index ix items in
  let existing_index :=
    match positions ix with
    | Some positions => positions !! thread_item_id item
    | None => position_of (thread_item_id item) items
    end in
  match existing_index with
  | Some index => if index <? length items then Some (ix, <[index := item]> items, item) else None
  | None => Some (index_push ix items item, item)
  end.

(** ** Turns *)

Record PendingTurn := mkPending {
  pt_id : rstr;
  pt_root_turn_id : option rstr;
  pt_items : list ThreadItem;
  pt_item_index : TurnItemIndex;
  pt_error : option TurnError;
  pt_status : TurnStatus;
  pt_started_at : option Z;
  pt_completed_at : option Z;
  pt_duration_ms : option Z;
  pt_opened_explicitly : bool;
  pt_saw_compaction : bool;
  pt_rollout_start_index : nat;
}.
(** [PendingTurn::opened_explicitly], [with_status] and [with_started_at] *)
Definition opened_explicitly (t : PendingTurn) : PendingTurn :=
  mkPending (pt_id t) (pt_root_turn_id t) (pt_items t) (pt_item_index t) (pt_error t) (pt_status t)
    (pt_started_at t) (pt_completed_at t) (pt_duration_ms t) true (pt_saw_compaction t) (pt_rollout_start_index t).
Definition with_status (t : PendingTurn) (status : TurnStatus) : PendingTurn :=
  mkPending (pt_id t) (pt_root_turn_id t) (pt_items t) (pt_item_index t) (pt_error t) status
    (pt_started_at t) (pt_completed_at t) (pt_duration_ms t) (pt_opened_explicitly t) (pt_saw_compaction t)
    (pt_rollout_start_index t).
Definition with_started_at (t : PendingTurn) (started_at : option Z) : PendingTurn :=
  mkPending (pt_id t) (pt_root_turn_id t) (pt_items t) (pt_item_index t) (pt_error t) (pt_status t)
    started_at (pt_completed_at t) (pt_duration_ms t) (pt_opened_explicitly t) (pt_saw_compaction t)
    (pt_rollout_start_index t).
(** Assignments to fields of a turn *)
Definition set_root_turn_id (t : PendingTurn) (root : option rstr) : PendingTurn :=
  mkPending (pt_id t) root (pt_items t) (pt_item_index t) (pt_error t) (pt_status t)
    (pt_started_at t) (pt_completed_at t) (pt_duration_ms t) (pt_opened_explicitly t) (pt_saw_compaction t)
    (pt_rollout_start_index t).
Definition set_items (t : PendingTurn) (ix : TurnItemIndex) (items : list ThreadItem) : PendingTurn :=
  mkPending (pt_id t) (pt_root_turn_id t) items ix (pt_error t) (pt_status t)
    (pt_started_at t) (pt_completed_at t) (pt_duration_ms t) (pt_opened_explicitly t) (pt_saw_compaction t)
    (pt_rollout_start_index t).
Definition set_error (t : PendingTurn) (error : TurnError) : PendingTurn :=
  mkPending (pt_id t) (pt_root_turn_id t) (pt_items t) (pt_item_index t) (Some error) TurnFailed
    (pt_started_at t) (pt_completed_at t) (pt_duration_ms t) (pt_opened_explicitly t) (pt_saw_compaction t)
    (pt_rollout_start_index t).
Definition set_completion (t : PendingTurn) (completed_at duration_ms : option Z) : PendingTurn :=
  mkPending (pt_id t) (pt_root_turn_id t) (pt_items t) (pt_item_index t) (pt_error t) (pt_status t)
    (pt_started_at t) completed_at duration_ms (pt_opened_explicitly t) (pt_saw_compaction t)
    (pt_rollout_start_index t).
Definition set_saw_compaction (t : PendingTurn) : PendingTurn :=
  mkPending (pt_id t) (pt_root_turn_id t) (pt_items t) (pt_item_index t) (pt_error t) (pt_status t)
    (pt_started_at t) (pt_completed_at t) (pt_duration_ms t) (pt_opened_explicitly t) true
    (pt_rollout_start_index t).

(** [impl From<&PendingTurn> for Turn] *)
Definition turn_from (t : PendingTurn) : Turn :=
  mkTurn (pt_id t) (pt_items t) ViewFull (pt_status t) (pt_error t) (pt_started_at t) (pt_completed_at t)
    (pt_duration_ms t).

(** ** Change sets *)

Record ThreadHistoryItemChange := mkItemChange {
  ic_turn_id : rstr; ic_item : ThreadItem; ic_started_at_ms : option Z; ic_completed_at_ms : option Z;
}.
Record ThreadHistoryTurnChange := mkTurnChange {
  tch_turn_id : rstr; tch_root_turn_id : option rstr; tch_status : TurnStatus; tch_error : option TurnError;
  tch_started_at : option Z; tch_completed_at : option Z; tch_duration_ms : option Z;
}.
Record ThreadHistoryChangeSet := mkChangeSet {
  changed_items : list ThreadHistoryItemChange;
  changed_turns : list ThreadHistoryTurnChange;
  removed_turn_ids : list rstr;
}.
Definition change_set_default : ThreadHistoryChangeSet := mkChangeSet [] [] [].
Definition change_set_is_empty (c : ThreadHistoryChangeSet) : bool :=
  is_empty (changed_items c) && is_empty (changed_turns c) && is_empty (removed_turn_ids c).
Definition from_pending_turn (t : PendingTurn) : ThreadHistoryTurnChange :=
  mkTurnChange (pt_id t) (pt_root_turn_id t) (pt_status t) (pt_error t) (pt_started_at t) (pt_completed_at t)
    (pt_duration_ms t).

(** [ThreadHistoryChangeAccumulator] *)
Record ThreadHistoryChangeAccumulator := mkAccumulator {
  acc_items : list (option ThreadHistoryItemChange);
  acc_item_indexes : gmap (rstr * rstr) nat;
  acc_turns : list (option ThreadHistoryTurnChange);
  acc_turn_indexes : gmap rstr nat;
  acc_removed : list rstr;
  acc_removed_indexes : gmap rstr nat;
}.
Definition accumulator_default : ThreadHistoryChangeAccumulator := mkAccumulator [] ∅ [] ∅ [] ∅.
Definition item_change_key (change : ThreadHistoryItemChange) : rstr * rstr :=
  (ic_turn_id change, thread_item_id (ic_item change)).
(** [v[index] = x], which panics out of range *)
Definition vec_set {A} (v : list A) (index : nat) (x : A) : option (list A) :=
  if index <? length v then Some (<[index := x]> v) else None.

Definition push_item_change (acc : ThreadHistoryChangeAccumulator) (change : ThreadHistoryItemChange)
    : option ThreadHistoryChangeAccumulator :=
  let key := item_change_key change in
  match acc_item_indexes acc !! key with
  | Some index =>
      items ← vec_set (acc_items acc) index (Some change);
      Some (mkAccumulator items (acc_item_indexes acc) (acc_turns acc) (acc_turn_indexes acc)
              (acc_removed acc) (acc_removed_indexes acc))
  | None =>
      Some (mkAccumulator (acc_items acc ++ [Some change])
              (<[key := length (acc_items acc)]> (acc_item_indexes acc)) (acc_turns acc)
              (acc_turn_indexes acc) (acc_removed acc) (acc_removed_indexes acc))
  end.
Definition push_turn_change (acc : ThreadHistoryChangeAccumulator) (change : ThreadHistoryTurnChange)
    : option ThreadHistoryChangeAccumulator :=
  match acc_turn_indexes acc !! tch_turn_id change with
  | Some index =>
      turns ← vec_set (acc_turns acc) index (Some change);
      Some (mkAccumulator (acc_items acc) (acc_item_indexes acc) turns (acc_turn_indexes acc)
              (acc_removed acc) (acc_removed_indexes acc))
  | None =>
      Some (mkAccumulator (acc_items acc) (acc_item_indexes acc) (acc_turns acc ++ [Some change])
              (<[tch_turn_id change := length (acc_turns acc)]> (acc_turn_indexes acc))
              (acc_removed acc) (acc_removed_indexes acc))
  end.
(** The loop over the item keys of a removed turn *)
Fixpoint remove_item_keys (keys : list (rstr * rstr))
    (st : list (option ThreadHistoryItemChange) * gmap (rstr * rstr) nat)
    : option (list (option ThreadHistoryItemChange) * gmap (rstr * rstr) nat) :=
  match keys with
  | [] => Some st
  | key :: keys =>
      match st.2 !! key with
      | Some index => items ← vec_set st.1 index None; remove_item_keys keys (items, delete key st.2)
      | None => remove_item_keys keys st
      end
  end.
Definition push_removed_turn_id (acc : ThreadHistoryChangeAccumulator) (turn_id : rstr)
    : option ThreadHistoryChangeAccumulator :=
  let '(removed, removed_indexes) :=
    match acc_removed_indexes acc !! turn_id with
    | Some _ => (acc_removed acc, acc_removed_indexes acc)
    | None => (acc_removed acc ++ [turn_id], <[turn_id := length (acc_removed acc)]> (acc_removed_indexes acc))
    end in
  turns ← match acc_turn_indexes acc !! turn_id with
          | Some index => vec_set (acc_turns acc) index None
          | None => Some (acc_turns acc)
          end;
  let removed_item_keys :=
    filter (λ key, key.1 = turn_id) (fst <$> map_to_list (acc_item_indexes acc)) in
  '(items, item_indexes) ← remove_item_keys removed_item_keys (acc_items acc, acc_item_indexes acc);
  Some (mkAccumulator items item_indexes turns (delete turn_id (acc_turn_indexes acc)) removed removed_indexes).
Definition accumulator_push (acc : ThreadHistoryChangeAccumulator) (changes : ThreadHistoryChangeSet)
    : option ThreadHistoryChangeAccumulator :=
  acc ← foldl (λ acc x, a ← acc; push_removed_turn_id a x) (Some acc) (removed_turn_ids changes);
  acc ← foldl (λ acc x, a ← acc; push_item_change a x) (Some acc) (changed_items changes);
  foldl (λ acc x, a ← acc; push_turn_change a x) (Some acc) (changed_turns changes).
Definition accumulator_finish (acc : ThreadHistoryChangeAccumulator) : ThreadHistoryChangeSet :=
  mkChangeSet (omap id (acc_items acc)) (omap id (acc_turns acc)) (acc_removed acc).

(** ** The builder *)

Record ThreadHistoryBuilder := mkBuilder {
  turns : list PendingTurn;
  current_turn : option PendingTurn;
  next_item_index : Z;
  current_rollout_index : nat;
  next_rollout_index : nat;
  active_change_set : option ThreadHistoryChangeSet;
  b_uuids : nat;
}.
(** A builder that has drawn [uuids] UUIDs *)
Definition builder_new (uuids : nat) : ThreadHistoryBuilder := mkBuilder [] None 1 0 0 None uuids.
Definition builder_reset (b : ThreadHistoryBuilder) : ThreadHistoryBuilder := builder_new (b_uuids b).

Definition set_turns (b : ThreadHistoryBuilder) (ts : list PendingTurn) : ThreadHistoryBuilder :=
  mkBuilder ts (current_turn b) (next_item_index b) (current_rollout_index b) (next_rollout_index b)
    (active_change_set b) (b_uuids b).
Definition set_current (b : ThreadHistoryBuilder) (t : option PendingTurn) : ThreadHistoryBuilder :=
  mkBuilder (turns b) t (next_item_index b) (current_rollout_index b) (next_rollout_index b)
    (active_change_set b) (b_uuids b).
Definition set_next_item_index (b : ThreadHistoryBuilder) (n : Z) : ThreadHistoryBuilder :=
  mkBuilder (turns b) (current_turn b) n (current_rollout_index b) (next_rollout_index b)
    (active_change_set b) (b_uuids b).
Definition set_changes (b : ThreadHistoryBuilder) (c : option ThreadHistoryChangeSet) : ThreadHistoryBuilder :=
  mkBuilder (turns b) (current_turn b) (next_item_index b) (current_rollout_index b) (next_rollout_index b)
    c (b_uuids b).
Definition draw_uuid (b : ThreadHistoryBuilder) : ThreadHistoryBuilder :=
  mkBuilder (turns b) (current_turn b) (next_item_index b) (current_rollout_index b) (next_rollout_index b)
    (active_change_set b) (S (b_uuids b)).
(** The two assignments at the start of [handle_rollout_item] *)
Definition advance_rollout (b : ThreadHistoryBuilder) : ThreadHistoryBuilder :=
  mkBuilder (turns b) (current_turn b) (next_item_index b) (next_rollout_index b) (S (next_rollout_index b))
    (active_change_set b) (b_uuids b).

(** Queries *)
Definition active_turn_snapshot (b : ThreadHistoryBuilder) : option Turn :=
  match current_turn b with Some t => Some (turn_from t) | None => turn_from <$> last (turns b) end.
Definition active_turn_id (b : ThreadHistoryBuilder) : option rstr :=
  match current_turn b with Some t => Some (pt_id t) | None => pt_id <$> last (turns b) end.
Definition find_turn (ts : list PendingTurn) (id : rstr) : option (nat * PendingTurn) :=
  list_find (λ t, pt_id t = id) ts.
Definition current_with_id (b : ThreadHistoryBuilder) (id : rstr) : option PendingTurn :=
  t ← current_turn b; if bool_decide (pt_id t = id) then Some t else None.
Definition turn_snapshot (b : ThreadHistoryBuilder) (id : rstr) : option Turn :=
  match current_with_id b id with
  | Some t => Some (turn_from t)
  | None => (λ it, turn_from it.2) <$> find_turn (turns b) id
  end.
Definition active_turn_position (b : ThreadHistoryBuilder) : option nat :=
  match current_turn b with
  | Some _ => Some (length (turns b))
  | None => if is_empty (turns b) then None else Some (length (turns b) - 1)
  end.
Definition has_active_turn (b : ThreadHistoryBuilder) : bool :=
  match current_turn b with Some _ => true | None => false end.
Definition active_turn_id_if_explicit (b : ThreadHistoryBuilder) : option rstr :=
  t ← current_turn b; if pt_opened_explicitly t then Some (pt_id t) else None.
Definition active_turn_start_index (b : ThreadHistoryBuilder) : option nat :=
  pt_rollout_start_index <$> current_turn b.

(** Recording of changes *)
Definition is_tracking_changes (b : ThreadHistoryBuilder) : bool :=
  match active_change_set b with Some _ => true | None => false end.
Definition record_changed_item (b : ThreadHistoryBuilder) (turn_id : rstr) (item : ThreadItem)
    : ThreadHistoryBuilder :=
  match active_change_set b with
  | Some c =>
      set_changes b (Some (mkChangeSet (changed_items c ++ [mkItemChange turn_id item None None])
                             (changed_turns c) (removed_turn_ids c)))
  | None => b
  end.
Definition record_changed_turn (b : ThreadHistoryBuilder) (turn : ThreadHistoryTurnChange)
    : ThreadHistoryBuilder :=
  match active_change_set b with
  | Some c =>
      set_changes b (Some (mkChangeSet (changed_items c) (changed_turns c ++ [turn]) (removed_turn_ids c)))
  | None => b
  end.
Definition record_changed_pending_turn (b : ThreadHistoryBuilder) (t : PendingTurn) : ThreadHistoryBuilder :=
  if is_tracking_changes b then record_changed_turn b (from_pending_turn t) else b.
Definition record_removed_turn_ids (b : ThreadHistoryBuilder) (ids : list rstr) : ThreadHistoryBuilder :=
  match active_change_set b with
  | Some c => set_changes b (Some (mkChangeSet (changed_items c) (changed_turns c) (removed_turn_ids c ++ ids)))
  | None => b
  end.

(** ** Operations *)

Section history.
Context {FU : FileUrls} {PE : PathEnv} {HT : HistoryTools}.
Implicit Types (b : ThreadHistoryBuilder).

Definition finish_current_turn b : ThreadHistoryBuilder :=
  match current_turn b with
  | Some t =>
      let b := set_current b None in
      if is_empty (pt_items t) && negb (pt_opened_explicitly t) && negb (pt_saw_compaction t) then b
      else set_turns b (turns b ++ [t])
  | None => b
  end.
Definition new_turn b (id : option rstr) : ThreadHistoryBuilder * PendingTurn :=
  let '(b, id) :=
    match id with
    | Some id => (b, id)
    | None =>
        if next_rollout_index b =? 0 then (draw_uuid b, now_v7 (b_uuids b))
        else (b, str "rollout-" ++ display_nat (current_rollout_index b))
    end in
  (b, mkPending id None [] index_default None TurnCompleted None None None false false (current_rollout_index b)).
(** The builder and the turn that the returned reference denotes *)
Definition ensure_turn b : ThreadHistoryBuilder * PendingTurn :=
  match current_turn b with
  | Some t => (b, t)
  | None =>
      let '(b, t) := new_turn b None in
      (set_current (record_changed_pending_turn b t) (Some t), t)
  end.
Definition next_item_id b : ThreadHistoryBuilder * rstr :=
  (set_next_item_index b (wrap_i64 (next_item_index b + 1)), str "item-" ++ str (pretty (next_item_index b))).
(** An identifier that an event may bring along *)
Definition item_id_or_next b (id : option rstr) : ThreadHistoryBuilder * rstr :=
  match id with Some id => (b, id) | None => next_item_id b end.

Definition push_item_in_current_turn b (item : ThreadItem) : ThreadHistoryBuilder :=
  let '(b, t) := ensure_turn b in
  let '(ix, items) := index_push (pt_item_index t) (pt_items t) item in
  record_changed_item (set_current b (Some (set_items t ix items))) (pt_id t) item.
Definition upsert_item_in_current_turn b (item : ThreadItem) : option ThreadHistoryBuilder :=
  let '(b, t) := ensure_turn b in
  '(ix, items, item) ← index_upsert (pt_item_index t) (pt_items t) item;
  Some (record_changed_item (set_current b (Some (set_items t ix items))) (pt_id t) item).
Definition upsert_item_in_turn_id b (turn_id : rstr) (item : ThreadItem) : option ThreadHistoryBuilder :=
  match current_with_id b turn_id with
  | Some t =>
      '(ix, items, item) ← index_upsert (pt_item_index t) (pt_items t) item;
      Some (record_changed_item (set_current b (Some (set_items t ix items))) (pt_id t) item)
  | None =>
      match find_turn (turns b) turn_id with
      | Some (i, t) =>
          '(ix, items, item) ← index_upsert (pt_item_index t) (pt_items t) item;
          Some (record_changed_item (set_turns b (<[i := set_items t ix items]> (turns b))) (pt_id t) item)
      | None => Some b
      end
  end.
(** The routing of events whose turn identifier may be empty *)
Definition upsert_item_routed b (turn_id : rstr) (item : ThreadItem) : option ThreadHistoryBuilder :=
  if is_empty turn_id then upsert_item_in_current_turn b item else upsert_item_in_turn_id b turn_id item.
Definition upsert_review_mode_item b (turn_id : option rstr) (item : ThreadItem) : option ThreadHistoryBuilder :=
  match turn_id with
  | None => upsert_item_in_current_turn b item
  | Some turn_id =>
      let current_turn_matches := match current_with_id b turn_id with Some _ => true | None => false end in
      let b :=
        if negb current_turn_matches && negb (existsb (λ t, bool_decide (pt_id t = turn_id)) (turns b))
        then
          let b := finish_current_turn b in
          let '(b, t) := new_turn b (Some turn_id) in
          set_current (record_changed_pending_turn b t) (Some t)
        else b in
      upsert_item_in_turn_id b turn_id item
  end.

(** Messages and reasoning *)

Fixpoint zip_details (items : list rstr) (details : list (option ImageDetail))
    : list (rstr * option ImageDetail) :=
  match items with
  | [] => []
  | item :: items => (item, default None (head details)) :: zip_details items (tail details)
  end.
Definition build_user_inputs (p : UserMessageEvent) : list UserInput :=
  (if is_empty (trim (ume_message p)) then []
   else [UserText (ume_message p) (text_element_from <$> ume_text_elements p)])
  ++ ((λ di, UserImage di.2 di.1) <$> zip_details (default [] (ume_images p)) (ume_image_details p))
  ++ ((λ di, UserLocalImage di.2 di.1) <$> zip_details (ume_local_images p) (ume_local_image_details p))
  ++ (UserAudio <$> default [] (ume_audio p))
  ++ (UserLocalAudio <$> ume_local_audio p).
Definition handle_response_item b (item : ResponseItem) : ThreadHistoryBuilder :=
  match item with
  | Message id role content _ _ =>
      if negb (str_eqb role (str "user")) then b
      else
        match parse_hook_prompt_message id (now_v7 (b_uuids b)) content with
        | None => b
        | Some hook_prompt =>
            let b := match id with None => draw_uuid b | Some _ => b end in
            push_item_in_current_turn b
              (ItemHookPrompt (hpi_id hook_prompt) (hook_fragment_from <$> hpi_fragments hook_prompt))
        end
  | _ => b
  end.
Definition handle_user_message b (p : UserMessageEvent) : ThreadHistoryBuilder :=
  let b :=
    match current_turn b with
    | Some t =>
        if negb (pt_opened_explicitly t) && negb (pt_saw_compaction t && is_empty (pt_items t))
        then finish_current_turn b else b
    | None => b
    end in
  let '(b, id) := next_item_id b in
  push_item_in_current_turn b (ItemUserMessage id (ume_client_id p) (build_user_inputs p)).
Definition handle_agent_message b (p : AgentMessageEvent) : ThreadHistoryBuilder :=
  if is_empty (ame_message p) then b
  else
    let '(b, id) := next_item_id b in
    push_item_in_current_turn b
      (ItemAgentMessage id (ame_message p) (ame_phase p) (memory_citation_from <$> ame_memory_citation p)
         (ame_delivery p) (ame_questions p)).
(** [turn.items.last_mut()] replaced by an item with the same identifier *)
Definition replace_last (t : PendingTurn) (item : ThreadItem) : PendingTurn :=
  set_items t (pt_item_index t) (<[length (pt_items t) - 1 := item]> (pt_items t)).
Definition handle_agent_reasoning b (text : rstr) : ThreadHistoryBuilder :=
  if is_empty text then b
  else
    let '(b, t) := ensure_turn b in
    match last (pt_items t) with
    | Some (ItemReasoning id summary content) =>
        let item := ItemReasoning id (summary ++ [text]) content in
        record_changed_item (set_current b (Some (replace_last t item))) (pt_id t) item
    | _ =>
        let '(b, id) := next_item_id b in
        push_item_in_current_turn b (ItemReasoning id [text] [])
    end.
Definition handle_agent_reasoning_raw_content b (text : rstr) : ThreadHistoryBuilder :=
  if is_empty text then b
  else
    let '(b, t) := ensure_turn b in
    match last (pt_items t) with
    | Some (ItemReasoning id summary content) =>
        let item := ItemReasoning id summary (content ++ [text]) in
        record_changed_item (set_current b (Some (replace_last t item))) (pt_id t) item
    | _ =>
        let '(b, id) := next_item_id b in
        push_item_in_current_turn b (ItemReasoning id [] [text])
    end.

(** Item lifecycle events *)

Definition should_upsert (item : TurnItem Url) : bool :=
  match item with
  | TurnPlan plan => negb (is_empty (plan_text plan))
  | TurnHookPrompt _ | TurnFunctionCallOutput _ | TurnCommandExecution _ | TurnDynamicToolCall _
  | TurnCollabAgentToolCall _ | TurnSubAgentActivity _ | TurnExtension _ | TurnEnteredReviewMode _
  | TurnExitedReviewMode _ => true
  | TurnUserMessage _ | TurnAgentMessage _ | TurnReasoning _ | TurnWebSearch _ | TurnImageView _
  | TurnImageGeneration _ | TurnFileChange _ | TurnMcpToolCall _ | TurnContextCompaction _ => false
  end.
Definition is_review_mode_item (item : TurnItem Url) : bool :=
  match item with TurnEnteredReviewMode _ | TurnExitedReviewMode _ => true | _ => false end.
Definition handle_materialized_item_lifecycle b (turn_id : rstr) (item : TurnItem Url)
    : option ThreadHistoryBuilder :=
  if should_upsert item
  then
    if is_review_mode_item item then upsert_review_mode_item b (Some turn_id) (thread_item_from item)
    else upsert_item_in_turn_id b turn_id (thread_item_from item)
  else Some b.
Definition handle_item_started b (p : ItemStartedEvent Url) : option ThreadHistoryBuilder :=
  handle_materialized_item_lifecycle b (ise_turn_id p) (ise_item p).
Definition handle_item_completed b (p : ItemCompletedEvent Url) : option ThreadHistoryBuilder :=
  handle_materialized_item_lifecycle b (ice_turn_id p) (ice_item p).

(** Tool events *)

Definition handle_web_search_begin b (call_id : rstr) : option ThreadHistoryBuilder :=
  upsert_item_in_current_turn b (ItemWebSearch (mkWebSearch call_id [] None None)).
Definition handle_web_search_end b (p : WebSearchEndEvent) : option ThreadHistoryBuilder :=
  upsert_item_in_current_turn b
    (ItemWebSearch (mkWebSearch (wse_call_id p) (wse_query p)
       (Some (web_search_action_from_core (wse_action p))) (wse_results p))).
Definition handle_exec_command_begin b (p : ExecCommandBeginEvent Url) : option ThreadHistoryBuilder :=
  upsert_item_in_turn_id b (xb_turn_id p) (build_command_execution_begin_item p).
Definition handle_exec_command_end b (p : ExecCommandEndEvent Url) : option ThreadHistoryBuilder :=
  upsert_item_in_turn_id b (xe_turn_id p) (build_command_execution_end_item p).
Definition guardian_command_status (s : GuardianAssessmentStatus) : option CommandExecutionStatus :=
  match s with
  | AssessmentInProgress => Some CommandInProgress
  | AssessmentDenied | AssessmentAborted => Some CommandDeclined
  | AssessmentTimedOut => Some CommandFailed
  | AssessmentApproved => None
  end.
Definition handle_guardian_assessment b (p : GuardianAssessmentEvent Url) : option ThreadHistoryBuilder :=
  match guardian_command_status (ga_status p) with
  | None => Some b
  | Some status =>
      match build_item_from_guardian_event p status with
      | None => Some b
      | Some item => upsert_item_routed b (ga_turn_id p) item
      end
  end.
Definition handle_apply_patch_approval_request b (p : ApplyPatchApprovalRequestEvent)
    : option ThreadHistoryBuilder :=
  upsert_item_routed b (apa_turn_id p) (build_file_change_approval_request_item p).
Definition handle_patch_apply_begin b (p : PatchApplyBeginEvent) : option ThreadHistoryBuilder :=
  upsert_item_routed b (pab_turn_id p) (build_file_change_begin_item p).
Definition handle_patch_apply_end b (p : PatchApplyEndEvent) : option ThreadHistoryBuilder :=
  upsert_item_routed b (pae_turn_id p) (build_file_change_end_item p).
Definition handle_dynamic_tool_call_request b (p : DynamicToolCallRequest) : option ThreadHistoryBuilder :=
  upsert_item_routed b (dtr_turn_id p)
    (ItemDynamicToolCall (dtr_call_id p) (dtr_namespace p) (dtr_tool p) (dtr_arguments p) DynamicInProgress
       None None None).
Definition handle_dynamic_tool_call_response b (p : DynamicToolCallResponseEvent)
    : option ThreadHistoryBuilder :=
  upsert_item_routed b (dtp_turn_id p)
    (ItemDynamicToolCall (dtp_call_id p) (dtp_namespace p) (dtp_tool p) (dtp_arguments p)
       (if dtp_success p then DynamicCompleted else DynamicFailed)
       (Some (convert_dynamic_tool_content_items (dtp_content_items p))) (Some (dtp_success p))
       (duration_ms_of (dtp_duration p))).
(** [serde_json::Value::Null] *)
Definition json_null : Json := str "null".
Definition handle_mcp_tool_call_begin b (p : McpToolCallBeginEvent) : option ThreadHistoryBuilder :=
  upsert_item_routed b (mcb_turn_id p)
    (ItemMcpToolCall (mcb_call_id p) (inv_server (mcb_invocation p)) (inv_tool (mcb_invocation p))
       McpInProgress (default json_null (inv_arguments (mcb_invocation p)))
       (app_context_of (mcb_connector_id p) (mcb_link_id p) (mcb_mcp_app_resource_uri p) (mcb_app_name p)
          (mcb_action_name p))
       (mcb_mcp_app_resource_uri p) (mcb_plugin_id p) (mcb_read_only_hint p) None None None).
Definition handle_mcp_tool_call_end b (p : McpToolCallEndEvent) : option ThreadHistoryBuilder :=
  let status := if mcp_is_success p then McpCompleted else McpFailed in
  let '(res, error) :=
    match mce_result p with
    | Ok value => (Some (mkMcpResult (ctr_content value) (ctr_structured_content value) (ctr_meta value)), None)
    | Err message => (None, Some (mkMcpError message))
    end in
  upsert_item_routed b (mce_turn_id p)
    (ItemMcpToolCall (mce_call_id p) (inv_server (mce_invocation p)) (inv_tool (mce_invocation p))
       status (default json_null (inv_arguments (mce_invocation p)))
       (app_context_of (mce_connector_id p) (mce_link_id p) (mce_mcp_app_resource_uri p) (mce_app_name p)
          (mce_action_name p))
       (mce_mcp_app_resource_uri p) (mce_plugin_id p) (mce_read_only_hint p) res error
       (duration_ms_of (mce_duration p))).
Definition handle_view_image_tool_call b (p : ViewImageToolCallEvent Url) : option ThreadHistoryBuilder :=
  upsert_item_in_current_turn b (ItemImageView (vi_call_id p) (native_path_string (vi_path p))).
Definition handle_image_generation_begin b (call_id : rstr) : option ThreadHistoryBuilder :=
  upsert_item_in_current_turn b
    (ItemImageGeneration (mkImageGeneration call_id [] None [] None None None None None)).
Definition handle_image_generation_end b (p : ImageGenerationEndEvent) : option ThreadHistoryBuilder :=
  upsert_item_in_current_turn b
    (ItemImageGeneration (mkImageGeneration (ige_call_id p) (ige_status p) (ige_revised_prompt p)
       (ige_result p) (ige_transparent_background p) (ige_failure p) (ige_saved_path p) None None)).

(** Collaboration events *)

Definition agent_failed (status : AgentStatus) : bool :=
  match status with AgentErrored _ | AgentNotFound => true | _ => false end.
Definition call_status_of (status : AgentStatus) : CollabAgentToolCallStatus :=
  if agent_failed status then CollabFailed else CollabCompleted.
Definition handle_collab_agent_spawn_begin b (p : CollabAgentSpawnBeginEvent) : option ThreadHistoryBuilder :=
  upsert_item_in_current_turn b
    (ItemCollabAgentToolCall (csb_call_id p) SpawnAgent CollabInProgress (csb_sender_thread_id p) []
       (Some (csb_prompt p)) (Some (csb_model p)) (Some (csb_reasoning_effort p)) ∅).
Definition handle_collab_agent_spawn_end b (p : CollabAgentSpawnEndEvent) : option ThreadHistoryBuilder :=
  let has_receiver := match cse_new_thread_id p with Some _ => true | None => false end in
  let status :=
    if agent_failed (cse_status p) then CollabFailed
    else if has_receiver then CollabCompleted else CollabFailed in
  let '(receiver_thread_ids, agents_states) :=
    match cse_new_thread_id p with
    | Some receiver_id => ([receiver_id], {[receiver_id := agent_state_from (cse_status p)]})
    | None => ([], ∅ : gmap rstr CollabAgentState)
    end in
  upsert_item_in_current_turn b
    (ItemCollabAgentToolCall (cse_call_id p) SpawnAgent status (cse_sender_thread_id p) receiver_thread_ids
       (Some (cse_prompt p)) (Some (cse_model p)) (Some (cse_reasoning_effort p)) agents_states).
Definition handle_collab_agent_interaction_begin b (p : CollabAgentInteractionBeginEvent)
    : option ThreadHistoryBuilder :=
  upsert_item_in_current_turn b
    (ItemCollabAgentToolCall (cib_call_id p) SendInput CollabInProgress (cib_sender_thread_id p)
       [cib_receiver_thread_id p] (Some (cib_prompt p)) None None ∅).
Definition handle_collab_agent_interaction_end b (p : CollabAgentInteractionEndEvent)
    : option ThreadHistoryBuilder :=
  upsert_item_in_current_turn b
    (ItemCollabAgentToolCall (cie_call_id p) SendInput (call_status_of (cie_status p)) (cie_sender_thread_id p)
       [cie_receiver_thread_id p] (Some (cie_prompt p)) None None
       {[cie_receiver_thread_id p := agent_state_from (cie_status p)]}).
Definition handle_sub_agent_activity b (p : SubAgentActivityEvent) : option ThreadHistoryBuilder :=
  upsert_item_in_current_turn b
    (ItemSubAgentActivity (saa_event_id p) (activity_kind_from (saa_kind p)) (saa_agent_thread_id p)
       (saa_agent_path p)).
Definition handle_collab_waiting_begin b (p : CollabWaitingBeginEvent) : option ThreadHistoryBuilder :=
  upsert_item_in_current_turn b
    (ItemCollabAgentToolCall (cwb_call_id p) WaitAgents CollabInProgress (cwb_sender_thread_id p)
       (cwb_receiver_thread_ids p) None None None ∅).
Definition handle_collab_waiting_end b (p : CollabWaitingEndEvent) : option ThreadHistoryBuilder :=
  let entries := map_to_list (cwe_statuses p) in
  let status := if existsb (λ e, agent_failed e.2) entries then CollabFailed else CollabCompleted in
  upsert_item_in_current_turn b
    (ItemCollabAgentToolCall (cwe_call_id p) WaitAgents status (cwe_sender_thread_id p)
       (sort_by_key id (fst <$> entries)) None None None (agent_state_from <$> cwe_statuses p)).
Definition handle_collab_close_begin b (p : CollabCloseBeginEvent) : option ThreadHistoryBuilder :=
  upsert_item_in_current_turn b
    (ItemCollabAgentToolCall (ccb_call_id p) CloseAgent CollabInProgress (ccb_sender_thread_id p)
       [ccb_receiver_thread_id p] None None None ∅).
Definition handle_collab_close_end b (p : CollabCloseEndEvent) : option ThreadHistoryBuilder :=
  upsert_item_in_current_turn b
    (ItemCollabAgentToolCall (cce_call_id p) CloseAgent (call_status_of (cce_status p)) (cce_sender_thread_id p)
       [cce_receiver_thread_id p] None None None
       {[cce_receiver_thread_id p := agent_state_from (cce_status p)]}).
Definition handle_collab_resume_begin b (p : CollabResumeBeginEvent) : option ThreadHistoryBuilder :=
  upsert_item_in_current_turn b
    (ItemCollabAgentToolCall (crb_call_id p) ResumeAgent CollabInProgress (crb_sender_thread_id p)
       [crb_receiver_thread_id p] None None None ∅).
Definition handle_collab_resume_end b (p : CollabResumeEndEvent) : option ThreadHistoryBuilder :=
  upsert_item_in_current_turn b
    (ItemCollabAgentToolCall (cre_call_id p) ResumeAgent (call_status_of (cre_status p)) (cre_sender_thread_id p)
       [cre_receiver_thread_id p] None None None
       {[cre_receiver_thread_id p := agent_state_from (cre_status p)]}).

(** Compaction and reviews *)

Definition handle_context_compacted b : ThreadHistoryBuilder :=
  let '(b, id) := next_item_id b in
  push_item_in_current_turn b (ItemContextCompaction id).
Definition handle_entered_review_mode b (p : EnteredReviewModeEvent) : option ThreadHistoryBuilder :=
  let review := default (str "Review requested.") (erm_user_facing_hint p) in
  let '(b, id) := item_id_or_next b (erm_item_id p) in
  upsert_review_mode_item b (erm_turn_id p) (ItemEnteredReviewMode id review).
Definition handle_exited_review_mode b (p : ExitedReviewModeEvent) : option ThreadHistoryBuilder :=
  let review := review_output_text (xrm_review_output p) in
  let '(b, id) := item_id_or_next b (xrm_item_id p) in
  upsert_review_mode_item b (xrm_turn_id p) (ItemExitedReviewMode id review).
Definition handle_compacted b : ThreadHistoryBuilder :=
  let '(b, t) := ensure_turn b in set_current b (Some (set_saw_compaction t)).

(** Turn lifecycle *)

Definition handle_error b (p : ErrorEvent) : ThreadHistoryBuilder :=
  if negb (affects_turn_status p) then b
  else
    match current_turn b with
    | Some t =>
        let t := set_error t (turn_error_of p) in
        record_changed_turn (set_current b (Some t)) (from_pending_turn t)
    | None => b
    end.
Definition apply_abort (p : TurnAbortedEvent) (t : PendingTurn) : PendingTurn :=
  set_completion (with_status t TurnInterrupted) (ta_completed_at p) (ta_duration_ms p).
(** Assigning to the current turn, or to the finished turn at an index, and
    recording its new state *)
Definition update_current b (t : PendingTurn) : ThreadHistoryBuilder :=
  record_changed_turn (set_current b (Some t)) (from_pending_turn t).
Definition update_finished b (i : nat) (t : PendingTurn) : ThreadHistoryBuilder :=
  record_changed_turn (set_turns b (<[i := t]> (turns b))) (from_pending_turn t).
Definition abort_active b (p : TurnAbortedEvent) : ThreadHistoryBuilder :=
  match current_turn b with Some t => update_current b (apply_abort p t) | None => b end.
Definition handle_turn_aborted b (p : TurnAbortedEvent) : ThreadHistoryBuilder :=
  match ta_turn_id p with
  | Some turn_id =>
      match current_with_id b turn_id with
      | Some t => update_current b (apply_abort p t)
      | None =>
          match find_turn (turns b) turn_id with
          | Some (i, t) => update_finished b i (apply_abort p t)
          | None => abort_active b p
          end
      end
  | None => abort_active b p
  end.
Definition handle_turn_started b (p : TurnStartedEvent) : ThreadHistoryBuilder :=
  let b := finish_current_turn b in
  let '(b, t) := new_turn b (Some (ts_turn_id p)) in
  let t := opened_explicitly (with_started_at (with_status t TurnInProgress) (ts_started_at p)) in
  let t := set_root_turn_id t (ts_root_turn_id p) in
  set_current (record_changed_pending_turn b t) (Some t).
Definition apply_completion (p : TurnCompleteEvent) (t : PendingTurn) : PendingTurn :=
  let t :=
    match turn_error_of <$> tc_error p with
    | Some error => set_error t error
    | None =>
        match pt_status t with
        | TurnCompleted | TurnInProgress => with_status t TurnCompleted
        | TurnInterrupted | TurnFailed => t
        end
    end in
  set_completion t (tc_completed_at p) (tc_duration_ms p).
Definition handle_turn_complete b (p : TurnCompleteEvent) : ThreadHistoryBuilder :=
  match current_with_id b (tc_turn_id p) with
  | Some t => finish_current_turn (update_current b (apply_completion p t))
  | None =>
      match find_turn (turns b) (tc_turn_id p) with
      | Some (i, t) => update_finished b i (apply_completion p t)
      | None =>
          match current_turn b with
          | Some t => finish_current_turn (update_current b (apply_completion p t))
          | None => b
          end
      end
  end.
(** [num_turns] is a [u32]; the counts fit in a [usize]. *)
Definition handle_thread_rollback b (p : ThreadRolledBackEvent) : ThreadHistoryBuilder :=
  let b := finish_current_turn b in
  let n := N.to_nat (num_turns p) in
  let len := length (turns b) in
  let removed :=
    if len <=? n then pt_id <$> turns b
    else if n =? 0 then []
    else pt_id <$> drop (len - n) (turns b) in
  let b := record_removed_turn_ids b removed in
  let b := set_turns b (if len <=? n then [] else take (len - n) (turns b)) in
  let item_count := sum_list (length ∘ pt_items <$> turns b) in
  set_next_item_index b (Z.min (Z.of_nat item_count + 1) (2 ^ 63 - 1)).

(** The reducer *)

Definition handle_event b (event : EventMsg Url) : option ThreadHistoryBuilder :=
  match event with
  | EvUserMessage p => Some (handle_user_message b p)
  | EvAgentMessage p => Some (handle_agent_message b p)
  | EvAgentReasoning text => Some (handle_agent_reasoning b text)
  | EvAgentReasoningRawContent text => Some (handle_agent_reasoning_raw_content b text)
  | EvWebSearchBegin call_id => handle_web_search_begin b call_id
  | EvWebSearchEnd p => handle_web_search_end b p
  | EvExecCommandBegin p => handle_exec_command_begin b p
  | EvExecCommandEnd p => handle_exec_command_end b p
  | EvGuardianAssessment p => handle_guardian_assessment b p
  | EvApplyPatchApprovalRequest p => handle_apply_patch_approval_request b p
  | EvPatchApplyBegin p => handle_patch_apply_begin b p
  | EvPatchApplyEnd p => handle_patch_apply_end b p
  | EvDynamicToolCallRequest p => handle_dynamic_tool_call_request b p
  | EvDynamicToolCallResponse p => handle_dynamic_tool_call_response b p
  | EvMcpToolCallBegin p => handle_mcp_tool_call_begin b p
  | EvMcpToolCallEnd p => handle_mcp_tool_call_end b p
  | EvViewImageToolCall p => handle_view_image_tool_call b p
  | EvImageGenerationBegin call_id => handle_image_generation_begin b call_id
  | EvImageGenerationEnd p => handle_image_generation_end b p
  | EvCollabAgentSpawnBegin p => handle_collab_agent_spawn_begin b p
  | EvCollabAgentSpawnEnd p => handle_collab_agent_spawn_end b p
  | EvCollabAgentInteractionBegin p => handle_collab_agent_interaction_begin b p
  | EvCollabAgentInteractionEnd p => handle_collab_agent_interaction_end b p
  | EvSubAgentActivity p => handle_sub_agent_activity b p
  | EvCollabWaitingBegin p => handle_collab_waiting_begin b p
  | EvCollabWaitingEnd p => handle_collab_waiting_end b p
  | EvCollabCloseBegin p => handle_collab_close_begin b p
  | EvCollabCloseEnd p => handle_collab_close_end b p
  | EvCollabResumeBegin p => handle_collab_resume_begin b p
  | EvCollabResumeEnd p => handle_collab_resume_end b p
  | EvContextCompacted => Some (handle_context_compacted b)
  | EvEnteredReviewMode p => handle_entered_review_mode b p
  | EvExitedReviewMode p => handle_exited_review_mode b p
  | EvItemStarted p => handle_item_started b p
  | EvItemCompleted p => handle_item_completed b p
  | EvError p => Some (handle_error b p)
  | EvThreadRolledBack p => Some (handle_thread_rollback b p)
  | EvTurnAborted p => Some (handle_turn_aborted b p)
  | EvTurnStarted p => Some (handle_turn_started b p)
  | EvTurnComplete p => Some (handle_turn_complete b p)
  | EvHookStarted _ | EvHookCompleted _ | EvTokenCount _ | EvOther _ => Some b
  end.
Definition handle_rollout_item b (item : RolloutItem Url) : option ThreadHistoryBuilder :=
  let b := advance_rollout b in
  match item with
  | RolloutEventMsg event => handle_event b event
  | RolloutCompacted _ => Some (handle_compacted b)
  | RolloutResponseItem item => Some (handle_response_item b (History.item item))
  | RolloutInterAgentCommunication _ | RolloutInterAgentCommunicationMetadata _ | RolloutTurnContext _
  | RolloutTokenUsageRecord _ | RolloutWorldState _ | RolloutRealtimeItem _ | RolloutRetainedContext _
  | RolloutSecurityRiskScore _ | RolloutSessionMeta _ => Some b
  end.

(** Handling with changes; [debug_assert!] is not modelled *)
Definition collect_changes b (handle : ThreadHistoryBuilder → option ThreadHistoryBuilder)
    : option (ThreadHistoryBuilder * ThreadHistoryChangeSet) :=
  b ← handle (set_changes b (Some change_set_default));
  Some (set_changes b None, default change_set_default (active_change_set b)).
Definition handle_event_with_changes b (event : EventMsg Url)
    : option (ThreadHistoryBuilder * ThreadHistoryChangeSet) :=
  collect_changes b (λ b, handle_event b event).
Definition handle_rollout_item_with_changes b (item : RolloutItem Url)
    : option (ThreadHistoryBuilder * ThreadHistoryChangeSet) :=
  collect_changes b (λ b, handle_rollout_item b item).
Fixpoint accumulate_rollout_items b (acc : ThreadHistoryChangeAccumulator) (items : list (RolloutItem Url))
    : option (ThreadHistoryBuilder * ThreadHistoryChangeAccumulator) :=
  match items with
  | [] => Some (b, acc)
  | item :: items =>
      '(b, changes) ← handle_rollout_item_with_changes b item;
      acc ← accumulator_push acc changes;
      accumulate_rollout_items b acc items
  end.
Definition handle_rollout_items_with_changes b (items : list (RolloutItem Url))
    : option (ThreadHistoryBuilder * ThreadHistoryChangeSet) :=
  '(b, acc) ← accumulate_rollout_items b accumulator_default items;
  Some (b, accumulator_finish acc).
Fixpoint handle_rollout_items b (items : list (RolloutItem Url)) : option ThreadHistoryBuilder :=
  match items with
  | [] => Some b
  | item :: items => b ← handle_rollout_item b item; handle_rollout_items b items
  end.
Definition builder_finish b : list Turn := turn_from <$> turns (finish_current_turn b).
Definition build_turns_from_rollout_items (uuids : nat) (items : list (RolloutItem Url)) : option (list Turn) :=
  builder_finish <$> handle_rollout_items (builder_new uuids) items.
End history.
