(* ===== verification/ThreadHistoryProps.v ===== *)
(** Properties of the history builder: its item index is a scan for the first
    item with an identifier, no rollout makes it panic, no turn is dropped once
    it was announced, and tracking changes does not affect it. *)

From S2P Require Import Prelude AbsolutePath PathUris OutputTruncation History CoreItems ThreadItems ThreadHistory.

#[local] Opaque str.

Create HintDb history.

(** ** Keyed lists *)

(** The list with the first entry that has the key of [x] replaced by [x], or
    with [x] appended: what an update of an item, of a turn or of a row does. *)
Fixpoint upsert_by {A K} `{EqDecision K} (key : A → K) (x : A) (l : list A) : list A :=
  match l with
  | [] => [x]
  | y :: l => if decide (key y = key x) then x :: l else y :: upsert_by key x l
  end.

Section upsert.
Context {A K : Type} `{EqDecision K} (key : A → K).
Implicit Types (x y : A) (l k : list A).

Lemma upsert_by_new x l : key x ∉ key <$> l → upsert_by key x l = l ++ [x].
Proof.
  induction l as [|y l IH]; [done|]. simpl. rewrite not_elem_of_cons. intros [Hy Hl].
  rewrite decide_False by done. by rewrite IH.
Qed.
Lemma upsert_by_at x l i y :
  l !! i = Some y → key y = key x → key x ∉ key <$> take i l → upsert_by key x l = <[i := x]> l.
Proof.
  revert i. induction l as [|z l IH]; [done|]. intros [|i] Hi Hy Ht; simpl in *.
  - injection Hi as ->. by rewrite decide_True.
  - apply not_elem_of_cons in Ht as [Hz Ht]. rewrite decide_False by done. f_equal. by apply IH.
Qed.
Lemma upsert_by_find x l :
  upsert_by key x l =
    match list_find (λ y, key y = key x) l with Some (i, _) => <[i := x]> l | None => l ++ [x] end.
Proof.
  destruct (list_find _ l) as [[i y]|] eqn:E.
  - apply list_find_Some in E as (Hi & Hy & Hbefore). apply (upsert_by_at x l i y Hi Hy).
    rewrite list_elem_of_fmap. intros (z & Hz & [j [Hj Hlt]]%elem_of_take).
    by apply (Hbefore j z).
  - apply list_find_None in E. apply upsert_by_new. rewrite list_elem_of_fmap.
    intros (y & Hy & Hin). rewrite Forall_forall in E. by apply (E y Hin).
Qed.
Lemma upsert_by_keys x l :
  key <$> upsert_by key x l = if decide (key x ∈ key <$> l) then key <$> l else (key <$> l) ++ [key x].
Proof.
  induction l as [|y l IH]; [done|]. rewrite fmap_cons. cbn [upsert_by].
  destruct (decide (key y = key x)) as [Hy|Hy]; rewrite fmap_cons.
  - rewrite decide_True by (rewrite Hy; left). by rewrite Hy.
  - rewrite IH. destruct (decide (key x ∈ key <$> l)) as [Hin|Hin].
    + rewrite decide_True by by right. done.
    + rewrite decide_False; [done|]. by rewrite not_elem_of_cons.
Qed.
Lemma elem_of_upsert_by x l y : y ∈ upsert_by key x l → y = x ∨ y ∈ l.
Proof.
  induction l as [|z l IH]; simpl; [by intros ->%list_elem_of_singleton; left|].
  destruct (decide _); rewrite !elem_of_cons; naive_solver.
Qed.
Lemma upsert_by_nonempty x l : upsert_by key x l ≠ [].
Proof. destruct l; simpl; [done|]. by case_decide. Qed.
End upsert.

(** ** The item index *)

Abbreviation upsert_items := (λ item items, upsert_by thread_item_id item items).

Lemma upsert_items_position item items :
  upsert_items item items =
    match position_of (thread_item_id item) items with
    | Some i => <[i := item]> items
    | None => items ++ [item]
    end.
Proof.
  cbn beta. rewrite (upsert_by_find thread_item_id item items). unfold position_of. by destruct (list_find _ _) as [[]|].
Qed.
Lemma position_of_cons k x l :
  position_of k (x :: l) = if decide (thread_item_id x = k) then Some 0 else S <$> position_of k l.
Proof.
  unfold position_of. simpl. destruct (decide _); [done|].
  by destruct (list_find _ l) as [[]|].
Qed.
Lemma position_of_snoc k x l :
  position_of k (l ++ [x]) =
    match position_of k l with
    | Some i => Some i
    | None => if decide (thread_item_id x = k) then Some (length l) else None
    end.
Proof.
  induction l as [|y l IH]; simpl.
  - rewrite position_of_cons. by destruct (decide _).
  - rewrite !position_of_cons. destruct (decide (thread_item_id y = k)); [done|].
    rewrite IH. destruct (position_of k l); simpl; [done|]. by destruct (decide _).
Qed.
Lemma position_of_lt k l i : position_of k l = Some i → i < length l.
Proof.
  unfold position_of. destruct (list_find _ l) as [[j y]|] eqn:E; [|done]. intros [= <-].
  apply list_find_Some in E as (H & _). by eapply lookup_lt_Some.
Qed.
(** Replacing an item by one with the same identifier moves nothing. *)
Lemma position_of_same_ids k l l' :
  thread_item_id <$> l = thread_item_id <$> l' → position_of k l = position_of k l'.
Proof.
  revert l'. induction l as [|x l IH]; intros [|y l'] H; try done.
  simpl in H. injection H as Hx Hl. rewrite !position_of_cons, Hx, (IH l' Hl). done.
Qed.

(** The index maps an identifier to the position that a scan finds. *)
Definition index_ok (ix : TurnItemIndex) (items : list ThreadItem) : Prop :=
  ∀ ps, positions ix = Some ps → ∀ k, ps !! k = position_of k items.

Lemma index_default_ok items : index_ok index_default items.
Proof. by intros ps. Qed.
Lemma lookup_entry_or_insert m k v k' :
  entry_or_insert m k v !! k' =
    match m !! k' with Some w => Some w | None => if decide (k = k') then Some v else None end.
Proof.
  unfold entry_or_insert. destruct (decide (k = k')) as [->|Hne].
  - destruct (m !! k') eqn:E; [by rewrite E|]. by rewrite lookup_insert_eq.
  - destruct (m !! k); [by destruct (m !! k')|]. rewrite lookup_insert_ne by done. by destruct (m !! k').
Qed.
Lemma lookup_build_positions start items ps k :
  build_positions start items ps !! k =
    match ps !! k with Some w => Some w | None => (λ i, start + i) <$> position_of k items end.
Proof.
  revert start ps. induction items as [|x items IH]; intros start ps; simpl.
  - by destruct (ps !! k).
  - rewrite IH, lookup_entry_or_insert, position_of_cons. destruct (ps !! k); [done|].
    destruct (decide (thread_item_id x = k)); simpl; [by rewrite Nat.add_0_r|].
    destruct (position_of k items); simpl; [|done]. f_equal. lia.
Qed.
Lemma lazy_index_ok ix items : index_ok ix items → index_ok (lazy_index ix items) items.
Proof.
  intros H. unfold lazy_index. destruct (_ && _); [|done].
  intros ps [= <-] k. rewrite lookup_build_positions, lookup_empty. by destruct (position_of k items).
Qed.
Lemma index_push_ok ix items item :
  index_ok ix items → index_ok (index_push ix items item).1 (items ++ [item]).
Proof.
  intros H ps. simpl. destruct (positions ix) as [qs|] eqn:E; [|done]. intros [= <-] k.
  rewrite lookup_entry_or_insert, (H qs E k), position_of_snoc. done.
Qed.
Lemma index_ok_same_ids ix l l' :
  thread_item_id <$> l = thread_item_id <$> l' → index_ok ix l → index_ok ix l'.
Proof. intros Hids H ps Hps k. rewrite (H ps Hps k). by apply position_of_same_ids. Qed.

(** An indexed update is the update by scanning, and keeps the index right. *)
Lemma index_upsert_spec ix items item :
  index_ok ix items →
  ∃ ix', index_upsert ix items item = Some (ix', upsert_items item items, item)
         ∧ index_ok ix' (upsert_items item items).
Proof.
  intros Hok%lazy_index_ok. unfold index_upsert. set (jx := lazy_index ix items) in *.
  assert (match positions jx with
          | Some ps => ps !! thread_item_id item
          | None => position_of (thread_item_id item) items end = position_of (thread_item_id item) items) as ->.
  { destruct (positions jx) as [ps|] eqn:E; [by apply Hok|done]. }
  rewrite upsert_items_position. destruct (position_of _ items) as [i|] eqn:Hpos.
  - pose proof (position_of_lt _ _ _ Hpos) as Hlt. rewrite (proj2 (Nat.ltb_lt _ _) Hlt).
    exists jx. split; [done|]. eapply index_ok_same_ids, Hok.
    unfold position_of in Hpos. destruct (list_find _ items) as [[j y]|] eqn:E; [|done].
    injection Hpos as <-. apply list_find_Some in E as (Hj & Hy & _).
    rewrite list_fmap_insert. symmetry. apply list_insert_id. by rewrite list_lookup_fmap, Hj, <-Hy.
  - exists (index_push jx items item).1. split; [done|]. by apply index_push_ok.
Qed.

(** ** The invariant of the builder *)

(** All turns, in the order in which [finish] returns them *)
Definition all_turns (b : ThreadHistoryBuilder) : list PendingTurn := turns b ++ option_list (current_turn b).
Definition wf_turn (t : PendingTurn) : Prop := index_ok (pt_item_index t) (pt_items t).
Definition wf (b : ThreadHistoryBuilder) : Prop := Forall wf_turn (all_turns b).
(** A turn that [finish_current_turn] keeps *)
Definition kept (t : PendingTurn) : Prop :=
  pt_items t ≠ [] ∨ pt_opened_explicitly t = true ∨ pt_saw_compaction t = true.
(** Between events the current turn is one that is kept. *)
Definition settled (b : ThreadHistoryBuilder) : Prop := ∀ t, current_turn b = Some t → kept t.
Definition sound (b : ThreadHistoryBuilder) : Prop := wf b ∧ settled b.

Lemma turns_record_item b id item : turns (record_changed_item b id item) = turns b.
Proof. unfold record_changed_item. by destruct (active_change_set b). Qed.
Lemma current_record_item b id item : current_turn (record_changed_item b id item) = current_turn b.
Proof. unfold record_changed_item. by destruct (active_change_set b). Qed.
Lemma turns_record_turn b c : turns (record_changed_turn b c) = turns b.
Proof. unfold record_changed_turn. by destruct (active_change_set b). Qed.
Lemma current_record_turn b c : current_turn (record_changed_turn b c) = current_turn b.
Proof. unfold record_changed_turn. by destruct (active_change_set b). Qed.
Lemma record_pending_eq b t : record_changed_pending_turn b t = record_changed_turn b (from_pending_turn t).
Proof.
  unfold record_changed_pending_turn, is_tracking_changes, record_changed_turn.
  by destruct (active_change_set b).
Qed.
Lemma turns_record_removed b ids : turns (record_removed_turn_ids b ids) = turns b.
Proof. unfold record_removed_turn_ids. by destruct (active_change_set b). Qed.
Lemma current_record_removed b ids : current_turn (record_removed_turn_ids b ids) = current_turn b.
Proof. unfold record_removed_turn_ids. by destruct (active_change_set b). Qed.
#[export] Hint Rewrite turns_record_item current_record_item turns_record_turn current_record_turn
  record_pending_eq turns_record_removed current_record_removed : history.

(** [wf] and [settled] only look at the turns. *)
Lemma wf_split b : wf b ↔ Forall wf_turn (turns b) ∧ (∀ t, current_turn b = Some t → wf_turn t).
Proof.
  unfold wf, all_turns. rewrite Forall_app. destruct (current_turn b) as [t|]; simpl.
  - rewrite Forall_singleton. naive_solver.
  - split; intros [? _]; by split.
Qed.
Lemma wf_parts b :
  Forall wf_turn (turns b) → (∀ t, current_turn b = Some t → wf_turn t) → wf b.
Proof. intros. by apply wf_split. Qed.
Lemma wf_finished b i t : wf b → turns b !! i = Some t → wf_turn t.
Proof. intros [H _]%wf_split Hi. rewrite Forall_lookup in H. by apply (H i). Qed.
Lemma wf_set_current b t : wf b → wf_turn t → wf (set_current b (Some t)).
Proof. intros [H _]%wf_split Ht. apply wf_parts; [done|]. by intros ? [= <-]. Qed.
Lemma wf_set_finished b i t : wf b → wf_turn t → wf (set_turns b (<[i := t]> (turns b))).
Proof. intros [H Hc]%wf_split Ht. apply wf_parts; [|done]. simpl. by apply Forall_insert. Qed.
Lemma wf_same b b' : turns b' = turns b → current_turn b' = current_turn b → wf b → wf b'.
Proof. unfold wf, all_turns. by intros -> ->. Qed.
Lemma settled_same b b' : current_turn b' = current_turn b → settled b → settled b'.
Proof. unfold settled. by intros ->. Qed.
Lemma wf_record_item b id item : wf (record_changed_item b id item) ↔ wf b.
Proof. unfold wf, all_turns. by autorewrite with history. Qed.
Lemma wf_record_turn b c : wf (record_changed_turn b c) ↔ wf b.
Proof. unfold wf, all_turns. by autorewrite with history. Qed.
Lemma settled_record_item b id item : settled (record_changed_item b id item) ↔ settled b.
Proof. unfold settled. by autorewrite with history. Qed.
Lemma settled_record_turn b c : settled (record_changed_turn b c) ↔ settled b.
Proof. unfold settled. by autorewrite with history. Qed.
Lemma sound_same b b' : turns b' = turns b → current_turn b' = current_turn b → sound b → sound b'.
Proof. intros ? ? [? ?]. split; [by eapply wf_same|by eapply settled_same]. Qed.

Lemma kept_items t ix items : items ≠ [] → kept (set_items t ix items).
Proof. by left. Qed.
Lemma kept_false t :
  is_empty (pt_items t) && negb (pt_opened_explicitly t) && negb (pt_saw_compaction t) = false ↔ kept t.
Proof.
  unfold kept. destruct (pt_items t), (pt_opened_explicitly t), (pt_saw_compaction t); simpl; naive_solver.
Qed.

(** ** Primitive operations *)

Section primitives.
Context {FU : FileUrls} {PE : PathEnv} {HT : HistoryTools}.
Implicit Types (b : ThreadHistoryBuilder) (t : PendingTurn).

(** No turn is lost when it is finished. *)
Lemma finish_settled b : settled b → all_turns (finish_current_turn b) = all_turns b.
Proof.
  intros H. unfold finish_current_turn, all_turns. destruct (current_turn b) as [t|] eqn:E.
  - rewrite (proj2 (kept_false t) (H t E)). simpl. by rewrite app_nil_r.
  - by rewrite E.
Qed.
Lemma finish_current b : current_turn (finish_current_turn b) = None.
Proof. unfold finish_current_turn. destruct (current_turn b) eqn:E; [|done]. by case_match. Qed.
Lemma finish_turn_wf b : wf b → wf (finish_current_turn b).
Proof.
  intros [H Hc]%wf_split. unfold finish_current_turn. destruct (current_turn b) as [t|] eqn:E.
  - case_match; apply wf_parts; try done. simpl. apply Forall_app. split; [done|].
    apply Forall_singleton. by apply Hc.
  - apply wf_parts; [done|]. by rewrite E.
Qed.
Lemma finish_sound b : wf b → sound (finish_current_turn b).
Proof. intros H. split; [by apply finish_turn_wf|]. intros t. by rewrite finish_current. Qed.

Lemma new_turn_fields b id :
  let '(b', t) := new_turn b id in
  turns b' = turns b ∧ current_turn b' = current_turn b ∧ active_change_set b' = active_change_set b
  ∧ pt_items t = [] ∧ pt_item_index t = index_default ∧ (∀ i, id = Some i → pt_id t = i ∧ b' = b).
Proof.
  unfold new_turn. destruct id as [i|]; simpl; [naive_solver|].
  destruct (next_rollout_index b =? 0); naive_solver.
Qed.

(** [ensure_turn] leaves the turn it returns as the current one. *)
Lemma ensure_turn_spec b :
  let '(b', t) := ensure_turn b in
  current_turn b' = Some t ∧ turns b' = turns b
  ∧ match current_turn b with
    | Some u => t = u ∧ b' = b
    | None => pt_items t = [] ∧ pt_item_index t = index_default
    end.
Proof.
  unfold ensure_turn. destruct (current_turn b) as [u|] eqn:E; [done|].
  pose proof (new_turn_fields b None) as Hn. destruct (new_turn b None) as [b' t].
  simpl. autorewrite with history. naive_solver.
Qed.
Lemma ensure_turn_wf b b' t : ensure_turn b = (b', t) → wf b → wf b' ∧ wf_turn t.
Proof.
  intros E [H Hc]%wf_split. pose proof (ensure_turn_spec b) as Hs. rewrite E in Hs.
  destruct Hs as (Hcur & Hturns & Hu).
  assert (wf_turn t) as Ht.
  { destruct (current_turn b) as [u|] eqn:Eb; [destruct Hu as [-> _]; by apply Hc|].
    destruct Hu as [_ Hix]. unfold wf_turn. rewrite Hix. apply index_default_ok. }
  split; [|done]. apply wf_parts; [by rewrite Hturns|]. rewrite Hcur. by intros ? [= <-].
Qed.

(** The current turn gets items, which makes it one that is kept. *)
Lemma set_current_items_sound b t ix items id item :
  wf b → index_ok ix items → items ≠ [] →
  sound (record_changed_item (set_current b (Some (set_items t ix items))) id item).
Proof.
  intros Hb Hix Hne. split; [rewrite wf_record_item; by apply wf_set_current|].
  rewrite settled_record_item. intros u [= <-]. by apply kept_items.
Qed.
Lemma push_item_sound b item : wf b → sound (push_item_in_current_turn b item).
Proof.
  intros Hb. unfold push_item_in_current_turn. destruct (ensure_turn b) as [b' t] eqn:E.
  destruct (ensure_turn_wf _ _ _ E Hb) as [Hb' Ht]. simpl.
  apply set_current_items_sound; [done|by apply index_push_ok|]. by destruct (pt_items t).
Qed.
Lemma upsert_current_sound b item : wf b → ∃ b', upsert_item_in_current_turn b item = Some b' ∧ sound b'.
Proof.
  intros Hb. unfold upsert_item_in_current_turn. destruct (ensure_turn b) as [b' t] eqn:E.
  destruct (ensure_turn_wf _ _ _ E Hb) as [Hb' Ht].
  destruct (index_upsert_spec _ _ item Ht) as (ix & -> & Hix). simpl. eexists. split; [done|].
  apply set_current_items_sound; [done|done|apply upsert_by_nonempty].
Qed.
Lemma current_with_id_Some b id t : current_with_id b id = Some t ↔ current_turn b = Some t ∧ pt_id t = id.
Proof.
  unfold current_with_id. destruct (current_turn b) as [u|]; simpl; [|naive_solver].
  case_bool_decide; naive_solver.
Qed.
Lemma find_turn_Some ts id i t :
  find_turn ts id = Some (i, t) → ts !! i = Some t ∧ pt_id t = id.
Proof. intros (H & H' & _)%list_find_Some. done. Qed.
Lemma upsert_in_turn_sound b id item :
  wf b → ∃ b', upsert_item_in_turn_id b id item = Some b' ∧ wf b'
    ∧ (settled b ∨ current_with_id b id ≠ None → settled b').
Proof.
  intros Hb. unfold upsert_item_in_turn_id. destruct (current_with_id b id) as [t|] eqn:E.
  - apply current_with_id_Some in E as [E _].
    destruct (index_upsert_spec (pt_item_index t) (pt_items t) item) as (ix & -> & Hix).
    { apply wf_split in Hb as [_ Hc]. by apply Hc. }
    simpl. eexists. split; [done|].
    destruct (set_current_items_sound b t ix (upsert_items item (pt_items t)) (pt_id t) item Hb Hix
                (upsert_by_nonempty _ _ _)) as [? ?]. done.
  - destruct (find_turn (turns b) id) as [[i t]|] eqn:F; [|exists b; split_and!; naive_solver].
    apply find_turn_Some in F as [F _].
    destruct (index_upsert_spec (pt_item_index t) (pt_items t) item (wf_finished _ _ _ Hb F)) as (ix & -> & Hix).
    simpl. eexists. split; [done|]. rewrite wf_record_item, settled_record_item. split.
    + by apply wf_set_finished.
    + intros [Hs|]; [by apply Hs|done].
Qed.
Lemma upsert_in_turn_sound' b id item : sound b → ∃ b', upsert_item_in_turn_id b id item = Some b' ∧ sound b'.
Proof.
  intros [Hb Hs]. destruct (upsert_in_turn_sound b id item Hb) as (b' & -> & ? & Hs').
  exists b'. split; [done|]. split; [done|]. apply Hs'. by left.
Qed.
Lemma upsert_routed_sound b id item : sound b → ∃ b', upsert_item_routed b id item = Some b' ∧ sound b'.
Proof.
  intros Hb. unfold upsert_item_routed. case_match; [apply upsert_current_sound, Hb|by apply upsert_in_turn_sound'].
Qed.
(** A new turn becomes the current one. *)
Lemma open_turn_wf b t :
  wf b → pt_item_index t = index_default → wf (set_current (record_changed_pending_turn b t) (Some t)).
Proof.
  intros Hb Hix. autorewrite with history. apply wf_set_current; [by apply wf_record_turn|].
  unfold wf_turn. rewrite Hix. apply index_default_ok.
Qed.
Lemma upsert_review_sound b id item : sound b → ∃ b', upsert_review_mode_item b id item = Some b' ∧ sound b'.
Proof.
  intros Hb. destruct id as [id|]; simpl; [|apply upsert_current_sound, Hb].
  case_match; [|by apply upsert_in_turn_sound'].
  match goal with |- context [set_current ?x (Some ?t)] =>
    destruct (upsert_in_turn_sound (set_current x (Some t)) id item) as (b' & -> & ? & Hs) end.
  { apply open_turn_wf; [|done]. by apply finish_turn_wf, Hb. }
  exists b'. split; [done|]. split; [done|]. apply Hs. right.
  unfold current_with_id. simpl. by rewrite bool_decide_eq_true_2.
Qed.

(** ** Handlers *)

Lemma next_item_id_sound b b' id : next_item_id b = (b', id) → sound b → sound b'.
Proof. intros [= <- _]. by apply sound_same. Qed.
Lemma item_id_or_next_sound b b' o id : item_id_or_next b o = (b', id) → sound b → sound b'.
Proof. destruct o; simpl; [by intros [= <- _]|]. apply next_item_id_sound. Qed.
Lemma user_message_sound b p : sound b → sound (handle_user_message b p).
Proof.
  intros [Hb Hs]. unfold handle_user_message. simpl. apply push_item_sound.
  apply (wf_same (match current_turn b with
    | Some t => if negb (pt_opened_explicitly t) && negb (pt_saw_compaction t && is_empty (pt_items t))
                then finish_current_turn b else b
    | None => b end)); [done|done|].
  repeat case_match; [by apply finish_turn_wf|done|done].
Qed.
Lemma response_item_sound b item : sound b → sound (handle_response_item b item).
Proof.
  intros Hb. destruct item; try done. simpl. repeat case_match; try done; apply push_item_sound, Hb.
Qed.
Lemma replace_last_ids t id s c s' c' :
  last (pt_items t) = Some (ItemReasoning id s c) →
  thread_item_id <$> pt_items (replace_last t (ItemReasoning id s' c')) = thread_item_id <$> pt_items t.
Proof.
  intros H. unfold replace_last. simpl. rewrite last_lookup in H.
  rewrite list_fmap_insert. apply list_insert_id. rewrite list_lookup_fmap.
  replace (length (pt_items t) - 1) with (pred (length (pt_items t))) by lia. by rewrite H.
Qed.
Lemma replace_last_sound b b0 t id s c s' c' :
  ensure_turn b0 = (b, t) → wf b0 → last (pt_items t) = Some (ItemReasoning id s c) →
  sound (record_changed_item (set_current b (Some (replace_last t (ItemReasoning id s' c')))) (pt_id t)
           (ItemReasoning id s' c')).
Proof.
  intros E Hb Hlast. destruct (ensure_turn_wf _ _ _ E Hb) as [Hb' Ht].
  pose proof (replace_last_ids t id s c s' c' Hlast) as Hids. apply set_current_items_sound; [done| |].
  - by eapply index_ok_same_ids, Ht.
  - intros Hn. apply (f_equal length) in Hids. rewrite !length_fmap in Hids. unfold replace_last in Hids.
    simpl in Hids. rewrite Hn in Hids. simpl in Hids. by destruct (pt_items t).
Qed.
Lemma reasoning_sound b text : sound b → sound (handle_agent_reasoning b text).
Proof.
  intros Hb. unfold handle_agent_reasoning, next_item_id. destruct (is_empty text); [done|].
  destruct (ensure_turn b) as [b' t] eqn:E. pose proof (ensure_turn_wf _ _ _ E (proj1 Hb)) as [Hb' _].
  destruct (last (pt_items t)) as [[]|] eqn:L; try (by apply push_item_sound, (wf_same b')).
  by eapply replace_last_sound; [|apply Hb|].
Qed.
Lemma raw_content_sound b text : sound b → sound (handle_agent_reasoning_raw_content b text).
Proof.
  intros Hb. unfold handle_agent_reasoning_raw_content, next_item_id. destruct (is_empty text); [done|].
  destruct (ensure_turn b) as [b' t] eqn:E. pose proof (ensure_turn_wf _ _ _ E (proj1 Hb)) as [Hb' _].
  destruct (last (pt_items t)) as [[]|] eqn:L; try (by apply push_item_sound, (wf_same b')).
  by eapply replace_last_sound; [|apply Hb|].
Qed.
Lemma lifecycle_sound b id item :
  sound b → ∃ b', handle_materialized_item_lifecycle b id item = Some b' ∧ sound b'.
Proof.
  intros Hb. unfold handle_materialized_item_lifecycle.
  repeat case_match; [by apply upsert_review_sound|by apply upsert_in_turn_sound'|by eexists].
Qed.

(** Updates of the data of a turn keep its items. *)
Definition same_items t u : Prop :=
  pt_items u = pt_items t ∧ pt_item_index u = pt_item_index t ∧ pt_opened_explicitly u = pt_opened_explicitly t
  ∧ pt_saw_compaction u = pt_saw_compaction t ∧ pt_id u = pt_id t.
Lemma apply_abort_same p t : same_items t (apply_abort p t).
Proof. done. Qed.
Lemma apply_completion_same p t : same_items t (apply_completion p t).
Proof. unfold apply_completion. destruct (tc_error p); simpl; [done|]. by destruct (pt_status t). Qed.
Lemma set_error_same t e : same_items t (set_error t e).
Proof. done. Qed.
Lemma same_items_wf t u : same_items t u → wf_turn t → wf_turn u.
Proof. unfold wf_turn. by intros (-> & -> & _). Qed.
Lemma same_items_kept t u : same_items t u → kept t → kept u.
Proof. unfold kept. by intros (-> & _ & -> & -> & _). Qed.
Lemma update_current_sound b t u :
  sound b → current_turn b = Some t → same_items t u → sound (update_current b u).
Proof.
  intros [Hb Hs] E H. unfold update_current. split.
  - rewrite wf_record_turn. apply wf_set_current; [done|]. apply wf_split in Hb as [_ Hc].
    eapply same_items_wf, Hc, E. done.
  - rewrite settled_record_turn. intros ? [= <-]. by eapply same_items_kept, Hs.
Qed.
Lemma update_finished_sound b i t u :
  sound b → turns b !! i = Some t → same_items t u → sound (update_finished b i u).
Proof.
  intros [Hb Hs] E H. unfold update_finished. split.
  - rewrite wf_record_turn. apply wf_set_finished; [done|]. eapply same_items_wf, wf_finished; done.
  - by rewrite settled_record_turn.
Qed.
Lemma abort_active_sound b p : sound b → sound (abort_active b p).
Proof.
  intros Hb. unfold abort_active. case_match; [|done]. eapply update_current_sound, apply_abort_same; done.
Qed.
Lemma turn_aborted_sound b p : sound b → sound (handle_turn_aborted b p).
Proof.
  intros Hb. unfold handle_turn_aborted.
  destruct (ta_turn_id p) as [id|]; [|by apply abort_active_sound].
  destruct (current_with_id b id) as [t|] eqn:E.
  - apply current_with_id_Some in E as [E _]. by eapply update_current_sound, apply_abort_same.
  - destruct (find_turn (turns b) id) as [[i t]|] eqn:F; [|by apply abort_active_sound].
    apply find_turn_Some in F as [F _]. by eapply update_finished_sound, apply_abort_same.
Qed.
Lemma turn_complete_sound b p : sound b → sound (handle_turn_complete b p).
Proof.
  intros Hb. unfold handle_turn_complete.
  assert (∀ t, current_turn b = Some t → sound (finish_current_turn (update_current b (apply_completion p t)))) as Hc.
  { intros t E. apply finish_sound. by eapply update_current_sound, apply_completion_same. }
  destruct (current_with_id b (tc_turn_id p)) as [t|] eqn:E; [apply Hc; by apply current_with_id_Some in E as [? _]|].
  destruct (find_turn (turns b) (tc_turn_id p)) as [[i t]|] eqn:F.
  - apply find_turn_Some in F as [F _]. by eapply update_finished_sound, apply_completion_same.
  - case_match; [by apply Hc|done].
Qed.
Lemma turn_started_sound b p : sound b → sound (handle_turn_started b p).
Proof.
  intros [Hb Hs]. unfold handle_turn_started. simpl. split; [apply open_turn_wf; [by apply finish_turn_wf|done]|].
  intros t [= <-]. right. by left.
Qed.
Lemma error_sound b p : sound b → sound (handle_error b p).
Proof.
  intros Hb. unfold handle_error. repeat case_match; try done.
  eapply (update_current_sound b); [done|done|apply set_error_same].
Qed.
Lemma compacted_sound b : sound b → sound (handle_compacted b).
Proof.
  intros [Hb Hs]. unfold handle_compacted. destruct (ensure_turn b) as [b' t] eqn:E.
  destruct (ensure_turn_wf _ _ _ E Hb) as [Hb' Ht]. split; [by apply wf_set_current|].
  intros u [= <-]. by right; right.
Qed.
Lemma rollback_turns b p :
  turns (handle_thread_rollback b p) =
    take (length (turns (finish_current_turn b)) - N.to_nat (num_turns p)) (turns (finish_current_turn b)).
Proof.
  unfold handle_thread_rollback. simpl. autorewrite with history. case_match eqn:E; [|done].
  apply Nat.leb_le in E. by replace (_ - _) with 0 by lia.
Qed.
Lemma rollback_current b p : current_turn (handle_thread_rollback b p) = None.
Proof. unfold handle_thread_rollback. simpl. autorewrite with history. apply finish_current. Qed.
Lemma rollback_sound b p : sound b → sound (handle_thread_rollback b p).
Proof.
  intros [Hb _]. split; [|intros t; by rewrite rollback_current].
  apply wf_parts; [|intros t; by rewrite rollback_current]. rewrite rollback_turns.
  apply Forall_take. by destruct (proj1 (wf_split _) (finish_turn_wf b Hb)).
Qed.
#[local] Hint Resolve user_message_sound response_item_sound reasoning_sound raw_content_sound
  turn_aborted_sound turn_complete_sound turn_started_sound error_sound compacted_sound rollback_sound : history.

Lemma handle_event_sound b e : sound b → ∃ b', handle_event b e = Some b' ∧ sound b'.
Proof.
  intros Hb. destruct e; cbn [handle_event];
    try (by eexists; split; [reflexivity|auto with history]);
    try (apply upsert_current_sound, Hb); try (by apply upsert_routed_sound);
    try (by apply upsert_in_turn_sound'); try (by apply lifecycle_sound).
  - eexists. split; [done|]. unfold handle_agent_message. case_match; [done|]. apply push_item_sound, Hb.
  - unfold handle_guardian_assessment. repeat case_match; try (by eexists). by apply upsert_routed_sound.
  - unfold handle_mcp_tool_call_end. case_match; by apply upsert_routed_sound.
  - unfold handle_collab_agent_spawn_end. case_match; apply upsert_current_sound, Hb.
  - eexists. split; [done|]. apply push_item_sound, Hb.
  - unfold handle_entered_review_mode. destruct (item_id_or_next b _) eqn:E.
    eapply upsert_review_sound, item_id_or_next_sound; done.
  - unfold handle_exited_review_mode. destruct (item_id_or_next b _) eqn:E.
    eapply upsert_review_sound, item_id_or_next_sound; done.
Qed.
Lemma handle_rollout_item_sound b item : sound b → ∃ b', handle_rollout_item b item = Some b' ∧ sound b'.
Proof.
  intros Hb. assert (sound (advance_rollout b)) as Ha by (by eapply sound_same).
  unfold handle_rollout_item. destruct item; try (by eexists; split; [reflexivity|auto with history]).
  by apply handle_event_sound.
Qed.
Lemma handle_rollout_items_sound b items : sound b → ∃ b', handle_rollout_items b items = Some b' ∧ sound b'.
Proof.
  revert b. induction items as [|i items IH]; intros b Hb; simpl; [by eexists|].
  destruct (handle_rollout_item_sound b i Hb) as (b' & -> & Hb'). by apply IH.
Qed.
Lemma builder_new_sound n : sound (builder_new n).
Proof. split; [apply Forall_nil; constructor|]. by intros t. Qed.
End primitives.

(** ** Reachable builders *)

Section reachable.
Context {FU : FileUrls} {PE : PathEnv} {HT : HistoryTools}.
Implicit Types (b : ThreadHistoryBuilder) (t : PendingTurn).

Inductive reachable : ThreadHistoryBuilder → Prop :=
| reach_new n : reachable (builder_new n)
| reach_reset b : reachable b → reachable (builder_reset b)
| reach_event b e b' : reachable b → handle_event b e = Some b' → reachable b'
| reach_rollout_item b i b' : reachable b → handle_rollout_item b i = Some b' → reachable b'
| reach_event_changes b e b' c : reachable b → handle_event_with_changes b e = Some (b', c) → reachable b'
| reach_rollout_item_changes b i b' c :
    reachable b → handle_rollout_item_with_changes b i = Some (b', c) → reachable b'.

Lemma collect_changes_sound b f :
  (∀ b, sound b → ∃ b', f b = Some b' ∧ sound b') → sound b → ∃ b' c, collect_changes b f = Some (b', c) ∧ sound b'.
Proof.
  intros Hf Hb. unfold collect_changes.
  destruct (Hf (set_changes b (Some change_set_default))) as (b' & -> & Hb'); [by eapply sound_same|].
  simpl. do 2 eexists. split; [done|]. by eapply sound_same.
Qed.
Lemma reachable_sound b : reachable b → sound b.
Proof.
  induction 1 as [n|b _ _|b e b' _ IH E|b i b' _ IH E|b e b' c _ IH E|b i b' c _ IH E];
    try apply builder_new_sound.
  - destruct (handle_event_sound b e IH) as (? & ? & ?). congruence.
  - destruct (handle_rollout_item_sound b i IH) as (? & ? & ?). congruence.
  - destruct (collect_changes_sound b (λ b, handle_event b e)) as (? & ? & ? & ?); [|done|].
    { intros. by apply handle_event_sound. }
    unfold handle_event_with_changes in E. congruence.
  - destruct (collect_changes_sound b (λ b, handle_rollout_item b i)) as (? & ? & ? & ?); [|done|].
    { intros. by apply handle_rollout_item_sound. }
    unfold handle_rollout_item_with_changes in E. congruence.
Qed.

(** ** Tracking changes *)

(** The builder without its change set *)
Definition plain b : ThreadHistoryBuilder := set_changes b None.

Lemma plain_record_item b id item : plain (record_changed_item b id item) = plain b.
Proof. unfold record_changed_item. by destruct (active_change_set b). Qed.
Lemma plain_record_turn b c : plain (record_changed_turn b c) = plain b.
Proof. unfold record_changed_turn. by destruct (active_change_set b). Qed.
Lemma plain_record_removed b ids : plain (record_removed_turn_ids b ids) = plain b.
Proof. unfold record_removed_turn_ids. by destruct (active_change_set b). Qed.
Lemma record_item_plain b id item : record_changed_item (plain b) id item = plain b.
Proof. done. Qed.
Lemma plain_set_current b o : plain (set_current b o) = set_current (plain b) o.
Proof. done. Qed.
Lemma plain_set_turns b ts : plain (set_turns b ts) = set_turns (plain b) ts.
Proof. done. Qed.
Lemma plain_finish b : plain (finish_current_turn b) = finish_current_turn (plain b).
Proof. unfold finish_current_turn. simpl. destruct (current_turn b); [|done]. by case_match. Qed.
Lemma plain_new_turn b id : new_turn (plain b) id = (plain (new_turn b id).1, (new_turn b id).2).
Proof. unfold new_turn. simpl. destruct id; [done|]. by destruct (next_rollout_index b =? 0). Qed.
Lemma plain_ensure b : ensure_turn (plain b) = (plain (ensure_turn b).1, (ensure_turn b).2).
Proof.
  unfold ensure_turn. simpl. destruct (current_turn b); [done|]. rewrite plain_new_turn.
  destruct (new_turn b None) as [b' t]. cbn [fst snd]. autorewrite with history.
  by rewrite plain_set_current, plain_record_turn.
Qed.
Lemma plain_record_set_current b o id item :
  plain (record_changed_item (set_current b o) id item) = set_current (plain b) o.
Proof. by rewrite plain_record_item. Qed.
Lemma plain_push b item : push_item_in_current_turn (plain b) item = plain (push_item_in_current_turn b item).
Proof.
  unfold push_item_in_current_turn. rewrite plain_ensure. destruct (ensure_turn b) as [b' t]. simpl.
  by rewrite plain_record_set_current.
Qed.
Lemma plain_upsert_current b item :
  upsert_item_in_current_turn (plain b) item = plain <$> upsert_item_in_current_turn b item.
Proof.
  unfold upsert_item_in_current_turn. rewrite plain_ensure. destruct (ensure_turn b) as [b' t]. simpl.
  destruct (index_upsert _ _ item) as [[[ix items] x]|]; [|done]. simpl. by rewrite plain_record_set_current.
Qed.
Lemma plain_upsert_turn b id item :
  upsert_item_in_turn_id (plain b) id item = plain <$> upsert_item_in_turn_id b id item.
Proof.
  unfold upsert_item_in_turn_id. simpl. change (current_with_id (plain b) id) with (current_with_id b id).
  destruct (current_with_id b id) as [t|].
  - destruct (index_upsert _ _ item) as [[[ix items] x]|]; [|done]. simpl. by rewrite plain_record_set_current.
  - destruct (find_turn (turns b) id) as [[i t]|]; [|done].
    destruct (index_upsert _ _ item) as [[[ix items] x]|]; [|done]. simpl. by rewrite plain_record_item.
Qed.
Lemma plain_upsert_routed b id item : upsert_item_routed (plain b) id item = plain <$> upsert_item_routed b id item.
Proof. unfold upsert_item_routed. case_match; [apply plain_upsert_current|apply plain_upsert_turn]. Qed.
Lemma plain_upsert_review b id item :
  upsert_review_mode_item (plain b) id item = plain <$> upsert_review_mode_item b id item.
Proof.
  destruct id as [id|]; [|apply plain_upsert_current]. cbn [upsert_review_mode_item].
  change (current_with_id (plain b) id) with (current_with_id b id). change (turns (plain b)) with (turns b).
  destruct (negb _ && negb _); [|apply plain_upsert_turn].
  rewrite <-plain_finish, plain_new_turn. destruct (new_turn (finish_current_turn b) (Some id)) as [b' t].
  cbn [fst snd]. autorewrite with history. rewrite <-plain_upsert_turn. f_equal.
  by rewrite plain_set_current, plain_record_turn.
Qed.
Lemma plain_next_item_id b : next_item_id (plain b) = (plain (next_item_id b).1, (next_item_id b).2).
Proof. done. Qed.
Lemma plain_item_id_or_next b o : item_id_or_next (plain b) o = (plain (item_id_or_next b o).1, (item_id_or_next b o).2).
Proof. by destruct o. Qed.
Lemma plain_update_current b t : update_current (plain b) t = plain (update_current b t).
Proof. unfold update_current. by rewrite plain_record_turn. Qed.
Lemma plain_update_finished b i t : update_finished (plain b) i t = plain (update_finished b i t).
Proof. unfold update_finished. by rewrite plain_record_turn. Qed.
#[local] Hint Rewrite plain_push plain_upsert_current plain_upsert_turn plain_upsert_routed plain_upsert_review
  plain_update_current plain_update_finished plain_new_turn plain_ensure : plain.

Lemma plain_user_message b p : handle_user_message (plain b) p = plain (handle_user_message b p).
Proof.
  unfold handle_user_message. change (current_turn (plain b)) with (current_turn b).
  set (d := match current_turn b with Some t => _ | None => b end).
  assert ((match current_turn b with
    | Some t => if negb (pt_opened_explicitly t) && negb (pt_saw_compaction t && is_empty (pt_items t))
                then finish_current_turn (plain b) else plain b
    | None => plain b end) = plain d) as ->.
  { subst d. destruct (current_turn b); [|done]. by case_match; rewrite ?plain_finish. }
  rewrite plain_next_item_id. destruct (next_item_id d). simpl. by autorewrite with plain.
Qed.
Lemma plain_reasoning b text : handle_agent_reasoning (plain b) text = plain (handle_agent_reasoning b text).
Proof.
  unfold handle_agent_reasoning. case_match; [done|]. autorewrite with plain.
  destruct (ensure_turn b) as [b' t]. cbn [fst snd].
  repeat case_match; simplify_eq; try (by rewrite plain_record_set_current);
    match goal with H : next_item_id _ = _, H' : next_item_id _ = _ |- _ =>
      rewrite plain_next_item_id, H in H' || rewrite plain_next_item_id, H' in H end; simplify_eq;
    simpl; by autorewrite with plain.
Qed.
Lemma plain_raw_content b text :
  handle_agent_reasoning_raw_content (plain b) text = plain (handle_agent_reasoning_raw_content b text).
Proof.
  unfold handle_agent_reasoning_raw_content. case_match; [done|]. autorewrite with plain.
  destruct (ensure_turn b) as [b' t]. cbn [fst snd].
  repeat case_match; simplify_eq; try (by rewrite plain_record_set_current);
    match goal with H : next_item_id _ = _, H' : next_item_id _ = _ |- _ =>
      rewrite plain_next_item_id, H in H' || rewrite plain_next_item_id, H' in H end; simplify_eq;
    simpl; by autorewrite with plain.
Qed.
Lemma plain_response_item b i : handle_response_item (plain b) i = plain (handle_response_item b i).
Proof.
  destruct i; try done. simpl. case_match; [done|].
  change (b_uuids (plain b)) with (b_uuids b). case_match; [|done].
  rewrite <-plain_push. by case_match.
Qed.
Lemma plain_agent_message b p : handle_agent_message (plain b) p = plain (handle_agent_message b p).
Proof.
  unfold handle_agent_message. case_match; [done|]. rewrite plain_next_item_id.
  destruct (next_item_id b). simpl. by autorewrite with plain.
Qed.
Lemma plain_compacted b : handle_compacted (plain b) = plain (handle_compacted b).
Proof. unfold handle_compacted. rewrite plain_ensure. by destruct (ensure_turn b). Qed.
Lemma plain_error b p : handle_error (plain b) p = plain (handle_error b p).
Proof.
  unfold handle_error. case_match; [done|]. simpl. destruct (current_turn b); [|done].
  apply (plain_update_current b).
Qed.
Lemma plain_abort_active b p : abort_active (plain b) p = plain (abort_active b p).
Proof. unfold abort_active. simpl. destruct (current_turn b); [apply plain_update_current|done]. Qed.
Lemma plain_turn_aborted b p : handle_turn_aborted (plain b) p = plain (handle_turn_aborted b p).
Proof.
  unfold handle_turn_aborted. destruct (ta_turn_id p) as [id|]; [|apply plain_abort_active].
  change (current_with_id (plain b) id) with (current_with_id b id). change (turns (plain b)) with (turns b).
  destruct (current_with_id b id); [apply plain_update_current|].
  destruct (find_turn (turns b) id) as [[i t]|]; [apply plain_update_finished|apply plain_abort_active].
Qed.
Lemma plain_turn_started b p : handle_turn_started (plain b) p = plain (handle_turn_started b p).
Proof.
  unfold handle_turn_started. rewrite <-plain_finish, plain_new_turn.
  destruct (new_turn (finish_current_turn b) _) as [b' t]. simpl. autorewrite with history.
  by rewrite plain_set_current, plain_record_turn.
Qed.
Lemma plain_turn_complete b p : handle_turn_complete (plain b) p = plain (handle_turn_complete b p).
Proof.
  unfold handle_turn_complete. change (turns (plain b)) with (turns b).
  change (current_with_id (plain b) (tc_turn_id p)) with (current_with_id b (tc_turn_id p)).
  change (current_turn (plain b)) with (current_turn b).
  destruct (current_with_id b _); [by rewrite plain_update_current, <-plain_finish|].
  destruct (find_turn (turns b) _) as [[i t]|]; [apply plain_update_finished|].
  destruct (current_turn b); [by rewrite plain_update_current, <-plain_finish|done].
Qed.
Lemma plain_rollback b p : handle_thread_rollback (plain b) p = plain (handle_thread_rollback b p).
Proof.
  unfold handle_thread_rollback. rewrite <-plain_finish. set (f := finish_current_turn b).
  simpl. change (turns (plain f)) with (turns f). unfold record_removed_turn_ids. simpl.
  by destruct (active_change_set f).
Qed.
Lemma plain_lifecycle b id item :
  handle_materialized_item_lifecycle (plain b) id item = plain <$> handle_materialized_item_lifecycle b id item.
Proof. unfold handle_materialized_item_lifecycle. repeat case_match; by autorewrite with plain. Qed.
#[local] Hint Rewrite plain_user_message plain_reasoning plain_raw_content plain_response_item
  plain_agent_message plain_compacted plain_error plain_turn_aborted plain_turn_started plain_turn_complete
  plain_rollback plain_lifecycle : plain.

Lemma plain_event b e : handle_event (plain b) e = plain <$> handle_event b e.
Proof.
  destruct e; cbn [handle_event]; try (by autorewrite with plain);
    try (by apply plain_upsert_current); try (by apply plain_upsert_routed); try (by apply plain_upsert_turn);
    try (by apply plain_lifecycle).
  - unfold handle_guardian_assessment. repeat case_match; try done. apply plain_upsert_routed.
  - unfold handle_mcp_tool_call_end. case_match; apply plain_upsert_routed.
  - unfold handle_collab_agent_spawn_end. case_match; apply plain_upsert_current.
  - unfold handle_context_compacted. rewrite plain_next_item_id. destruct (next_item_id b). simpl.
    by rewrite plain_push.
  - unfold handle_entered_review_mode. rewrite plain_item_id_or_next. destruct (item_id_or_next b _).
    apply plain_upsert_review.
  - unfold handle_exited_review_mode. rewrite plain_item_id_or_next. destruct (item_id_or_next b _).
    apply plain_upsert_review.
Qed.
Lemma plain_rollout_item b i : handle_rollout_item (plain b) i = plain <$> handle_rollout_item b i.
Proof.
  unfold handle_rollout_item. change (advance_rollout (plain b)) with (plain (advance_rollout b)).
  destruct i; autorewrite with plain; try done. apply plain_event.
Qed.

(** A builder between events tracks no changes. *)
Lemma collect_changes_plain b f :
  active_change_set b = None → (∀ b, f (plain b) = plain <$> f b) → fst <$> collect_changes b f = plain <$> f b.
Proof.
  intros Hb Hf. unfold collect_changes. set (s := set_changes b (Some change_set_default)).
  assert (plain s = b) as Hs by (by subst s; destruct b; simpl in *; subst).
  rewrite <-Hs, Hf. destruct (f s) as [b'|]; [|done]. done.
Qed.
Lemma plain_id b : active_change_set b = None → plain b = b.
Proof. by destruct b; simpl; intros ->. Qed.
Lemma handled_untracked b i b' : handle_rollout_item b i = Some b' → active_change_set b = None → active_change_set b' = None.
Proof.
  intros E Hb. pose proof (plain_rollout_item b i) as H. rewrite (plain_id b Hb), E in H.
  injection H as H. by rewrite H.
Qed.
Lemma with_changes_state b i :
  active_change_set b = None →
  fst <$> handle_rollout_item_with_changes b i = handle_rollout_item b i.
Proof.
  intros Hb. unfold handle_rollout_item_with_changes.
  rewrite (collect_changes_plain b (λ b, handle_rollout_item b i) Hb); [|intros; apply plain_rollout_item].
  by rewrite <-plain_rollout_item, (plain_id b Hb).
Qed.
Lemma with_changes_untracked b i b' c : handle_rollout_item_with_changes b i = Some (b', c) → active_change_set b' = None.
Proof. unfold handle_rollout_item_with_changes, collect_changes. by destruct (handle_rollout_item _ i); [intros [= <- _]|]. Qed.
End reachable.
