(* ===== verification/ThreadChangesProps.v ===== *)
(** Change sets: a reader that keeps a table of turns and a table of items can
    follow a builder by applying its change sets, and applying the coalesced
    change set of a batch is the same as applying the sets one by one. *)

From S2P Require Import Prelude AbsolutePath PathUris PathUriExample OutputTruncation History CoreItems ThreadItems ThreadHistory ThreadHistoryProps.

#[local] Opaque str.

(** ** Updates of keyed lists *)

Lemma filter_all {A} (P : A → Prop) `{∀ x, Decision (P x)} (l : list A) : (∀ x, x ∈ l → P x) → filter P l = l.
Proof.
  induction l as [|x l IH]; intros Hl; [done|]. rewrite filter_cons_True by (apply Hl; left).
  f_equal. apply IH. intros y Hy. apply Hl. by right.
Qed.
Lemma filter_none {A} (P : A → Prop) `{∀ x, Decision (P x)} (l : list A) : (∀ x, x ∈ l → ¬ P x) → filter P l = [].
Proof.
  induction l as [|x l IH]; intros Hl; [done|]. rewrite filter_cons_False by (apply Hl; left).
  apply IH. intros y Hy. apply Hl. by right.
Qed.
Lemma filter_ext {A} (P Q : A → Prop) `{∀ x, Decision (P x), ∀ x, Decision (Q x)} (l : list A) :
  (∀ x, x ∈ l → P x ↔ Q x) → filter P l = filter Q l.
Proof.
  induction l as [|x l IH]; intros Hl; [done|]. rewrite !filter_cons.
  rewrite (IH (λ y Hy, Hl y (list_elem_of_further y x l Hy))).
  destruct (decide (P x)) as [p|p], (decide (Q x)) as [q|q]; try done;
    destruct (Hl x (list_elem_of_here x l)); tauto.
Qed.

Section keyed.
Context {A K : Type} `{EqDecision K} (key : A → K).
Implicit Types (x y : A) (l : list A).

Abbreviation up := (upsert_by key).
Definition upsert_all (l xs : list A) : list A := foldl (λ l x, upsert_by key x l) l xs.

Lemma upsert_by_middle x y l1 l2 :
  key y = key x → key x ∉ key <$> l1 → up x (l1 ++ y :: l2) = l1 ++ x :: l2.
Proof.
  intros Hy. induction l1 as [|z l1 IH]; simpl; [by rewrite decide_True|].
  rewrite not_elem_of_cons. intros [Hz Hl]. rewrite decide_False by done. by rewrite IH.
Qed.
Lemma upsert_by_twice x y l : key x = key y → up x (up y l) = up x l.
Proof.
  intros Hk. induction l as [|z l IH]; simpl.
  - by rewrite decide_True.
  - rewrite Hk. destruct (decide (key z = key y)) as [Hz|Hz]; simpl.
    + by rewrite decide_True by congruence.
    + rewrite decide_False by congruence. by rewrite IH.
Qed.
(** Updates of different keys commute when one of them is there already. *)
Lemma upsert_by_comm x y l :
  key x ≠ key y → key x ∈ key <$> l → up x (up y l) = up y (up x l).
Proof.
  intros Hne. induction l as [|z l IH]; simpl; [by intros ?%elem_of_nil|].
  rewrite elem_of_cons. intros Hin.
  destruct (decide (key z = key y)) as [Hzy|Hzy], (decide (key z = key x)) as [Hzx|Hzx]; simpl.
  - congruence.
  - rewrite (decide_False (P := key y = key x)) by congruence. by rewrite (decide_True (P := key z = key y)).
  - rewrite (decide_True (P := key z = key x)) by done. by rewrite decide_False by congruence.
  - rewrite !decide_False by done. rewrite IH; [done|]. destruct Hin; [congruence|done].
Qed.
Lemma upsert_by_in x l : key x ∈ key <$> up x l.
Proof.
  rewrite upsert_by_keys. destruct (decide (key x ∈ key <$> l)); [done|]. apply elem_of_app. right. left.
Qed.
Lemma upsert_by_in_other x k l : k ∈ key <$> l → k ∈ key <$> up x l.
Proof. rewrite upsert_by_keys. destruct (decide _); [done|]. rewrite elem_of_app. by left. Qed.
Lemma upsert_all_snoc l xs x : upsert_all l (xs ++ [x]) = up x (upsert_all l xs).
Proof. unfold upsert_all. by rewrite foldl_app. Qed.
Lemma upsert_all_past x l xs :
  key x ∉ key <$> xs → key x ∈ key <$> l → upsert_all (up x l) xs = up x (upsert_all l xs).
Proof.
  revert l. induction xs as [|y xs IH]; intros l; simpl; [done|].
  rewrite not_elem_of_cons. intros [Hne Hxs] Hin.
  rewrite <-(upsert_by_comm x y l) by done. apply IH; [done|]. by apply upsert_by_in_other.
Qed.
(** Replacing an update in a batch is updating after the batch. *)
Lemma upsert_all_upsert x l xs :
  NoDup (key <$> xs) → upsert_all l (up x xs) = up x (upsert_all l xs).
Proof.
  revert l. induction xs as [|y xs IH]; intros l; simpl; [done|].
  rewrite NoDup_cons. intros [Hy Hnd]. destruct (decide (key y = key x)) as [Hk|Hk]; simpl.
  - rewrite <-(upsert_by_twice x y l) by done. apply upsert_all_past; [by rewrite <-Hk|].
    rewrite <-Hk. apply upsert_by_in.
  - by apply IH.
Qed.

(** Filtering by a property of keys *)
Context (P : A → Prop) `{∀ x, Decision (P x)} (HP : ∀ x y, key x = key y → P x ↔ P y).
Lemma filter_upsert_by x l :
  filter P (up x l) = if decide (P x) then up x (filter P l) else filter P l.
Proof using HP.
  induction l as [|y l IH]; simpl.
  - rewrite filter_cons, filter_nil. by destruct (decide (P x)).
  - destruct (decide (key y = key x)) as [Hk|Hk]; rewrite !filter_cons.
    + destruct (decide (P x)) as [Hx|Hx].
      * rewrite (decide_True (P := P y)) by (by apply (HP y x)). simpl. by rewrite decide_True.
      * rewrite (decide_False (P := P y)) by (by rewrite (HP y x)). done.
    + rewrite IH. destruct (decide (P x)), (decide (P y)); simpl; [by rewrite decide_False|done..].
Qed.
Lemma filter_upsert_all l xs : filter P (upsert_all l xs) = upsert_all (filter P l) (filter P xs).
Proof using HP.
  revert l. induction xs as [|x xs IH]; intros l; simpl; [done|].
  rewrite IH, filter_upsert_by, filter_cons. by destruct (decide (P x)).
Qed.
End keyed.

(** ** Slots *)

(** A vector of optional entries with the positions of the live ones by key, as
    the accumulator keeps for items and for turns. *)
Section slots.
Context {A K : Type} `{Countable K} (key : A → K).
Implicit Types (slots : list (option A)) (idx : gmap K nat) (x : A).

Definition slots_ok slots idx : Prop :=
  ∀ k i, idx !! k = Some i ↔ ∃ x, slots !! i = Some (Some x) ∧ key x = k.
Abbreviation live := (omap id).

Lemma slots_ok_nil : slots_ok [] ∅.
Proof. intros k i. rewrite lookup_empty. split; [done|]. by intros (x & ? & _). Qed.
Lemma slots_unique slots idx i j x y :
  slots_ok slots idx → slots !! i = Some (Some x) → slots !! j = Some (Some y) → key x = key y → i = j.
Proof.
  intros Hok Hi Hj Hk. assert (idx !! key x = Some i) as E by (apply Hok; eauto).
  assert (idx !! key x = Some j) as E' by (apply Hok; eauto). congruence.
Qed.
Lemma elem_of_live slots x : x ∈ live slots ↔ ∃ i, slots !! i = Some (Some x).
Proof.
  rewrite list_elem_of_omap. split.
  - intros (o & Ho & Hx). simpl in Hx. subst. by apply list_elem_of_lookup in Ho.
  - intros (i & Hi). exists (Some x). split; [by eapply list_elem_of_lookup_2|done].
Qed.
Lemma slots_split slots idx i y :
  slots_ok slots idx → slots !! i = Some (Some y) →
  ∃ s1 s2, slots = s1 ++ Some y :: s2 ∧ length s1 = i
    ∧ key y ∉ key <$> live s1 ∧ key y ∉ key <$> live s2.
Proof.
  intros Hok Hi. exists (take i slots), (drop (S i) slots).
  assert (slots = take i slots ++ Some y :: drop (S i) slots) as E by (symmetry; by apply take_drop_middle).
  pose proof (lookup_lt_Some _ _ _ Hi). split; [done|]. split; [rewrite length_take; lia|].
  split; rewrite list_elem_of_fmap; intros (x & Hx & [j Hj]%elem_of_live).
  - rewrite lookup_take_Some in Hj. destruct Hj as [Hj Hlt].
    pose proof (slots_unique slots idx j i x y Hok Hj Hi (eq_sym Hx)). lia.
  - rewrite lookup_drop in Hj. pose proof (slots_unique slots idx _ i x y Hok Hj Hi (eq_sym Hx)). lia.
Qed.
Lemma live_nodup slots idx : slots_ok slots idx → NoDup (key <$> live slots).
Proof.
  intros Hok.
  assert (∀ i j x y, slots !! i = Some (Some x) → slots !! j = Some (Some y) → key x = key y → i = j) as Hu
    by (intros; by eapply slots_unique).
  clear Hok. induction slots as [|[x|] slots IH]; simpl; [constructor| |].
  - apply NoDup_cons. split.
    + rewrite list_elem_of_fmap. intros (y & Hy & [j Hj]%elem_of_live).
      by specialize (Hu 0 (S j) x y eq_refl Hj Hy).
    + apply IH. intros i j y z Hi Hj Hk. by specialize (Hu (S i) (S j) y z Hi Hj Hk) as [= ].
  - apply IH. intros i j y z Hi Hj Hk. by specialize (Hu (S i) (S j) y z Hi Hj Hk) as [= ].
Qed.
Lemma lookup_middle {B} (s1 s2 : list B) a i :
  (s1 ++ a :: s2) !! i = if decide (i < length s1) then s1 !! i
                        else if decide (i = length s1) then Some a else (s1 ++ a :: s2) !! i.
Proof.
  repeat destruct (decide _); [by rewrite lookup_app_l|subst; by rewrite list_lookup_middle|done].
Qed.

(** Replacing the entry of a key *)
Lemma slots_replace slots idx i x :
  slots_ok slots idx → idx !! key x = Some i →
  vec_set slots i (Some x) = Some (<[i := Some x]> slots)
  ∧ slots_ok (<[i := Some x]> slots) idx ∧ live (<[i := Some x]> slots) = upsert_by key x (live slots).
Proof.
  intros Hok Hi. destruct (proj1 (Hok _ _) Hi) as (y & Hy & Hk).
  pose proof (lookup_lt_Some _ _ _ Hy) as Hlt. split; [|split].
  - unfold vec_set. by rewrite (proj2 (Nat.ltb_lt _ _) Hlt).
  - intros k j. rewrite (Hok k j). destruct (decide (i = j)) as [<-|Hne].
    + rewrite list_lookup_insert_eq by done. rewrite Hy. naive_solver.
    + by rewrite list_lookup_insert_ne by done.
  - destruct (slots_split _ _ _ _ Hok Hy) as (s1 & s2 & -> & <- & H1 & H2).
    rewrite insert_app_r_alt, Nat.sub_diag by lia. simpl. rewrite !omap_app. simpl.
    rewrite (upsert_by_middle key x y); [done|done|]. by rewrite <-Hk.
Qed.
Lemma slots_append slots idx x :
  slots_ok slots idx → idx !! key x = None →
  slots_ok (slots ++ [Some x]) (<[key x := length slots]> idx)
  ∧ live (slots ++ [Some x]) = upsert_by key x (live slots).
Proof.
  intros Hok Hnone. split.
  - intros k j. destruct (decide (key x = k)) as [<-|Hne].
    + rewrite lookup_insert_eq. split.
      * intros [= <-]. exists x. by rewrite list_lookup_middle.
      * intros (y & Hj & Hk). destruct (decide (j < length slots)) as [Hlt|Hlt].
        { rewrite lookup_app_l in Hj by done. assert (idx !! key x = Some j) by (apply Hok; eauto). congruence. }
        { apply lookup_lt_Some in Hj. rewrite length_app in Hj. simpl in Hj. f_equal. lia. }
    + rewrite lookup_insert_ne by done. rewrite (Hok k j).
      split; intros (y & Hj & Hk); exists y; (split; [|done]).
      * by apply lookup_app_l_Some.
      * apply lookup_app_Some in Hj as [Hj|[_ Hj]]; [done|].
        apply list_lookup_singleton_Some in Hj as [_ [= ->]]. done.
  - rewrite omap_app. simpl. rewrite upsert_by_new; [done|].
    rewrite list_elem_of_fmap. intros (y & Hy & [j Hj]%elem_of_live).
    assert (idx !! key x = Some j) by (apply Hok; eauto). congruence.
Qed.
(** Dropping the entry of a key *)
Lemma slots_remove slots idx i k :
  slots_ok slots idx → idx !! k = Some i →
  vec_set slots i None = Some (<[i := None]> slots)
  ∧ slots_ok (<[i := None]> slots) (delete k idx)
  ∧ live (<[i := None]> slots) = filter (λ x, key x ≠ k) (live slots).
Proof.
  intros Hok Hi. destruct (proj1 (Hok _ _) Hi) as (y & Hy & <-).
  pose proof (lookup_lt_Some _ _ _ Hy) as Hlt. split; [|split].
  - unfold vec_set. by rewrite (proj2 (Nat.ltb_lt _ _) Hlt).
  - intros k j. destruct (decide (key y = k)) as [<-|Hne].
    + rewrite lookup_delete_eq. split; [done|]. intros (x & Hx & Hk).
      destruct (decide (i = j)) as [<-|Hij].
      * by rewrite list_lookup_insert_eq in Hx.
      * rewrite list_lookup_insert_ne in Hx by done. by destruct Hij; eapply (slots_unique _ _ _ _ y x).
    + rewrite lookup_delete_ne by done. rewrite (Hok k j). destruct (decide (i = j)) as [<-|Hij].
      * rewrite list_lookup_insert_eq by done. rewrite Hy. naive_solver.
      * by rewrite list_lookup_insert_ne by done.
  - destruct (slots_split _ _ _ _ Hok Hy) as (s1 & s2 & -> & <- & H1 & H2).
    rewrite insert_app_r_alt, Nat.sub_diag by lia. simpl. rewrite !omap_app. simpl.
    rewrite filter_app, filter_cons_False by (intros Hn; by apply Hn).
    f_equal; symmetry; apply filter_all; intros x Hx Hk;
      [apply H1|apply H2]; rewrite <-Hk; by apply list_elem_of_fmap_2.
Qed.
End slots.

(** ** A reader of change sets *)

(** The tables of a reader, in the order in which rows were added. *)
Record replica := mkReplica {
  rep_turns : list ThreadHistoryTurnChange;
  rep_items : list ThreadHistoryItemChange;
}.
Definition drop_turn (r : replica) (id : rstr) : replica :=
  mkReplica (filter (λ c, tch_turn_id c ≠ id) (rep_turns r)) (filter (λ c, ic_turn_id c ≠ id) (rep_items r)).
Definition put_item (r : replica) (c : ThreadHistoryItemChange) : replica :=
  mkReplica (rep_turns r) (upsert_by item_change_key c (rep_items r)).
Definition put_turn (r : replica) (c : ThreadHistoryTurnChange) : replica :=
  mkReplica (upsert_by tch_turn_id c (rep_turns r)) (rep_items r).
Definition apply_changes (r : replica) (cs : ThreadHistoryChangeSet) : replica :=
  foldl put_turn (foldl put_item (foldl drop_turn r (removed_turn_ids cs)) (changed_items cs)) (changed_turns cs).

Lemma replica_eq r r' : rep_turns r = rep_turns r' → rep_items r = rep_items r' → r = r'.
Proof. destruct r, r'; simpl. by intros -> ->. Qed.
Lemma foldl_put_turn r cs :
  foldl put_turn r cs = mkReplica (upsert_all tch_turn_id (rep_turns r) cs) (rep_items r).
Proof. revert r. induction cs as [|c cs IH]; intros r; [by destruct r|]. simpl. by rewrite IH. Qed.
Lemma foldl_put_item r cs :
  foldl put_item r cs = mkReplica (rep_turns r) (upsert_all item_change_key (rep_items r) cs).
Proof. revert r. induction cs as [|c cs IH]; intros r; [by destruct r|]. simpl. by rewrite IH. Qed.
Lemma foldl_drop_turn r ids :
  foldl drop_turn r ids =
    mkReplica (filter (λ c, tch_turn_id c ∉ ids) (rep_turns r)) (filter (λ c, ic_turn_id c ∉ ids) (rep_items r)).
Proof.
  revert r. induction ids as [|id ids IH]; intros r; simpl.
  - rewrite !filter_all by (intros; apply not_elem_of_nil). by destruct r.
  - rewrite IH. simpl. f_equal; rewrite list_filter_filter; apply list_filter_iff; intros c;
      rewrite not_elem_of_cons; tauto.
Qed.
Lemma apply_changes_eq r cs :
  apply_changes r cs =
    mkReplica
      (upsert_all tch_turn_id (filter (λ c, tch_turn_id c ∉ removed_turn_ids cs) (rep_turns r)) (changed_turns cs))
      (upsert_all item_change_key (filter (λ c, ic_turn_id c ∉ removed_turn_ids cs) (rep_items r)) (changed_items cs)).
Proof. unfold apply_changes. by rewrite foldl_drop_turn, foldl_put_item, foldl_put_turn. Qed.

(** ** The accumulator *)

Definition accumulator_ok (acc : ThreadHistoryChangeAccumulator) : Prop :=
  slots_ok item_change_key (acc_items acc) (acc_item_indexes acc)
  ∧ slots_ok tch_turn_id (acc_turns acc) (acc_turn_indexes acc)
  ∧ (∀ id, is_Some (acc_removed_indexes acc !! id) ↔ id ∈ acc_removed acc).

Lemma accumulator_default_ok : accumulator_ok accumulator_default.
Proof.
  split; [apply slots_ok_nil|]. split; [apply slots_ok_nil|]. intros id. simpl.
  rewrite lookup_empty, elem_of_nil. split; [by intros [? ?]|done].
Qed.
(** What a pushed change does to a reader that then applies the whole. *)
Definition pushes (acc acc' : ThreadHistoryChangeAccumulator) (f : replica → replica) : Prop :=
  accumulator_ok acc' ∧
  ∀ r, apply_changes r (accumulator_finish acc') = f (apply_changes r (accumulator_finish acc)).

Lemma push_item_change_ok acc c :
  accumulator_ok acc → ∃ acc', push_item_change acc c = Some acc' ∧ pushes acc acc' (λ r, put_item r c).
Proof.
  intros (Hi & Ht & Hr). unfold push_item_change. pose proof (live_nodup _ _ _ Hi) as Hnd.
  destruct (acc_item_indexes acc !! item_change_key c) as [i|] eqn:E.
  - destruct (slots_replace _ _ _ _ c Hi E) as (-> & Hok & Hlive). simpl. eexists. split; [done|].
    split; [done|]. intros r. rewrite !apply_changes_eq. apply replica_eq; [done|]. simpl.
    rewrite Hlive. by apply upsert_all_upsert.
  - destruct (slots_append _ _ _ c Hi E) as (Hok & Hlive). eexists. split; [done|].
    split; [done|]. intros r. rewrite !apply_changes_eq. apply replica_eq; [done|]. simpl.
    rewrite Hlive. by apply upsert_all_upsert.
Qed.
Lemma push_turn_change_ok acc c :
  accumulator_ok acc → ∃ acc', push_turn_change acc c = Some acc' ∧ pushes acc acc' (λ r, put_turn r c).
Proof.
  intros (Hi & Ht & Hr). unfold push_turn_change. pose proof (live_nodup _ _ _ Ht) as Hnd.
  destruct (acc_turn_indexes acc !! tch_turn_id c) as [i|] eqn:E.
  - destruct (slots_replace _ _ _ _ c Ht E) as (-> & Hok & Hlive). simpl. eexists. split; [done|].
    split; [done|]. intros r. rewrite !apply_changes_eq. apply replica_eq; [|done]. simpl.
    rewrite Hlive. by apply upsert_all_upsert.
  - destruct (slots_append _ _ _ c Ht E) as (Hok & Hlive). eexists. split; [done|].
    split; [done|]. intros r. rewrite !apply_changes_eq. apply replica_eq; [|done]. simpl.
    rewrite Hlive. by apply upsert_all_upsert.
Qed.
(** The loop over the items of a removed turn *)
Lemma remove_item_keys_ok keys slots idx :
  slots_ok item_change_key slots idx →
  ∃ slots' idx', remove_item_keys keys (slots, idx) = Some (slots', idx')
    ∧ slots_ok item_change_key slots' idx'
    ∧ omap id slots' = filter (λ c, item_change_key c ∉ keys) (omap id slots).
Proof.
  revert slots idx. induction keys as [|k keys IH]; intros slots idx Hok; simpl.
  - exists slots, idx. split_and!; [done|done|]. rewrite filter_all; [done|]. intros; apply not_elem_of_nil.
  - destruct (idx !! k) as [i|] eqn:E.
    + destruct (slots_remove _ _ _ _ k Hok E) as (-> & Hok' & Hlive). simpl.
      destruct (IH _ _ Hok') as (slots' & idx' & -> & Hok'' & Heq). do 2 eexists. split_and!; [done|done|].
      rewrite Heq, Hlive, list_filter_filter. apply list_filter_iff. intros c. rewrite not_elem_of_cons. tauto.
    + destruct (IH _ _ Hok) as (slots' & idx' & -> & Hok'' & Heq). do 2 eexists. split_and!; [done|done|].
      rewrite Heq. apply filter_ext. intros c Hc. rewrite not_elem_of_cons.
      split; [|naive_solver]. intros Hk. split; [|done]. intros <-.
      apply elem_of_live in Hc as [j Hj]. assert (idx !! item_change_key c = Some j) by (apply Hok; eauto).
      congruence.
Qed.
Lemma removed_items_live slots idx tid :
  slots_ok item_change_key slots idx →
  filter (λ c, item_change_key c ∉ filter (λ key : rstr * rstr, key.1 = tid) (fst <$> map_to_list idx)) (omap id slots)
  = filter (λ c, ic_turn_id c ≠ tid) (omap id slots).
Proof.
  intros Hok. apply filter_ext. intros c Hc.
  apply elem_of_live in Hc as [j Hj]. assert (idx !! item_change_key c = Some j) as E by (apply Hok; eauto).
  rewrite list_elem_of_filter, list_elem_of_fmap. split.
  - intros H Hid. apply H. split; [done|]. exists (item_change_key c, j). split; [done|].
    by apply elem_of_map_to_list.
  - intros H [Hid _]. by apply H.
Qed.
(** The turns without the entry of a removed turn *)
Lemma removed_turn_slots acc tid :
  slots_ok tch_turn_id (acc_turns acc) (acc_turn_indexes acc) →
  ∃ ts, match acc_turn_indexes acc !! tid with
        | Some index => vec_set (acc_turns acc) index None
        | None => Some (acc_turns acc)
        end = Some ts
    ∧ slots_ok tch_turn_id ts (delete tid (acc_turn_indexes acc))
    ∧ omap id ts = filter (λ c, tch_turn_id c ≠ tid) (omap id (acc_turns acc)).
Proof.
  intros Ht. destruct (acc_turn_indexes acc !! tid) as [i|] eqn:E.
  - destruct (slots_remove _ _ _ _ tid Ht E) as (-> & Hok & Hlive). by eexists.
  - exists (acc_turns acc). rewrite delete_id by done. split_and!; [done|done|].
    symmetry. apply filter_all. intros c [j Hj]%elem_of_live Hc.
    assert (acc_turn_indexes acc !! tid = Some j) by (apply Ht; eauto). congruence.
Qed.
Lemma removed_ids_ok acc tid :
  (∀ id, is_Some (acc_removed_indexes acc !! id) ↔ id ∈ acc_removed acc) →
  ∃ removed idx,
    match acc_removed_indexes acc !! tid with
    | Some _ => (acc_removed acc, acc_removed_indexes acc)
    | None => (acc_removed acc ++ [tid], <[tid := length (acc_removed acc)]> (acc_removed_indexes acc))
    end = (removed, idx)
    ∧ (∀ id, is_Some (idx !! id) ↔ id ∈ removed) ∧ (∀ id, id ∈ removed ↔ id ∈ acc_removed acc ∨ id = tid).
Proof.
  intros Hr. destruct (acc_removed_indexes acc !! tid) eqn:E; do 2 eexists; (split; [done|]).
  - split; [done|]. intros id. assert (tid ∈ acc_removed acc) by (apply Hr; by eexists). naive_solver.
  - split.
    + intros id. rewrite elem_of_app, list_elem_of_singleton, <-Hr.
      destruct (decide (tid = id)) as [<-|Hne]; [rewrite lookup_insert_eq|rewrite lookup_insert_ne by done]; naive_solver.
    + intros id. by rewrite elem_of_app, list_elem_of_singleton.
Qed.
Lemma push_removed_ok acc tid :
  accumulator_ok acc → ∃ acc', push_removed_turn_id acc tid = Some acc' ∧ pushes acc acc' (λ r, drop_turn r tid).
Proof.
  intros (Hi & Ht & Hr). unfold push_removed_turn_id.
  destruct (removed_ids_ok acc tid Hr) as (removed & ridx & -> & Hr' & Hin).
  destruct (removed_turn_slots acc tid Ht) as (ts & -> & Ht' & Hturns). simpl.
  destruct (remove_item_keys_ok (filter (λ key, key.1 = tid) (fst <$> map_to_list (acc_item_indexes acc)))
              _ _ Hi) as (its & iidx & E & Hi' & Hitems). rewrite E. simpl.
  rewrite removed_items_live in Hitems by done. eexists. split; [done|]. split; [done|].
  intros r. rewrite !apply_changes_eq. unfold drop_turn. simpl. rewrite Hturns, Hitems.
  apply replica_eq; simpl.
  - rewrite (filter_upsert_all tch_turn_id (λ c, tch_turn_id c ≠ tid)) by (by intros x y ->).
    rewrite list_filter_filter. f_equal. apply list_filter_iff. intros c. rewrite Hin. naive_solver.
  - rewrite (filter_upsert_all item_change_key (λ c, ic_turn_id c ≠ tid)) by (by intros x y [= -> _]).
    rewrite list_filter_filter. f_equal. apply list_filter_iff. intros c. rewrite Hin. naive_solver.
Qed.

(** A loop of pushes is the loop of their effects. *)
Lemma push_loop {X} (push : ThreadHistoryChangeAccumulator → X → option ThreadHistoryChangeAccumulator)
    (f : replica → X → replica) :
  (∀ acc x, accumulator_ok acc → ∃ acc', push acc x = Some acc' ∧ pushes acc acc' (λ r, f r x)) →
  ∀ xs acc, accumulator_ok acc →
  ∃ acc', foldl (λ acc x, a ← acc; push a x) (Some acc) xs = Some acc' ∧ pushes acc acc' (λ r, foldl f r xs).
Proof.
  intros Hpush. induction xs as [|x xs IH]; intros acc Hok; simpl; [by exists acc|].
  destruct (Hpush acc x Hok) as (a & Ea & Ha & Hra). rewrite Ea.
  destruct (IH a Ha) as (a' & -> & Ha' & Hra'). exists a'. split; [done|]. split; [done|].
  intros r. by rewrite Hra', Hra.
Qed.
Lemma accumulator_push_ok acc cs :
  accumulator_ok acc → ∃ acc', accumulator_push acc cs = Some acc' ∧ pushes acc acc' (λ r, apply_changes r cs).
Proof.
  intros Hok. unfold accumulator_push.
  destruct (push_loop _ _ push_removed_ok (removed_turn_ids cs) acc Hok) as (a1 & -> & H1 & R1). simpl.
  destruct (push_loop _ _ push_item_change_ok (changed_items cs) a1 H1) as (a2 & -> & H2 & R2). simpl.
  destruct (push_loop _ _ push_turn_change_ok (changed_turns cs) a2 H2) as (a3 & -> & H3 & R3).
  exists a3. split; [done|]. split; [done|]. intros r. by rewrite R3, R2, R1.
Qed.

(** ** Following a builder *)

(** What a reader of changes can know of a turn: its metadata and its items. *)
Abbreviation turn_view := (ThreadHistoryTurnChange * list ThreadItem)%type.
Definition view_of (t : PendingTurn) : turn_view := (from_pending_turn t, pt_items t).
Definition view (b : ThreadHistoryBuilder) : list turn_view := view_of <$> all_turns b.
Definition view_id (a : turn_view) : rstr := tch_turn_id a.1.
(** The rows of a turn *)
Definition rows_of (r : replica) (id : rstr) : list ThreadItem :=
  ic_item <$> filter (λ c, ic_turn_id c = id) (rep_items r).
(** The tables show exactly the turns and their items. *)
Definition mirrors (v : list turn_view) (r : replica) : Prop :=
  rep_turns r = fst <$> v
  ∧ (∀ a, a ∈ v → rows_of r (view_id a) = a.2)
  ∧ (∀ c, c ∈ rep_items r → ic_turn_id c ∈ view_id <$> v).
(** Identifiers of turns, and of the items of a turn, are different. *)
Definition unique (v : list turn_view) : Prop :=
  NoDup (view_id <$> v) ∧ Forall (λ a, NoDup (thread_item_id <$> a.2)) v.

Lemma rows_of_put_item r c id :
  rows_of (put_item r c) id =
    if decide (ic_turn_id c = id) then upsert_by thread_item_id (ic_item c) (rows_of r id) else rows_of r id.
Proof.
  unfold rows_of, put_item. simpl.
  rewrite (filter_upsert_by item_change_key (λ c, ic_turn_id c = id)) by (by intros x y [= -> _]).
  destruct (decide _) as [<-|]; [|done].
  induction (rep_items r) as [|d l IH]; [done|]. rewrite filter_cons.
  destruct (decide (ic_turn_id d = ic_turn_id c)) as [Hd|Hd]; [|done]. simpl.
  destruct (decide (thread_item_id (ic_item d) = thread_item_id (ic_item c))) as [Hi|Hi].
  - rewrite decide_True by (unfold item_change_key; by rewrite Hd, Hi). done.
  - rewrite decide_False by (unfold item_change_key; congruence). simpl. f_equal. apply IH.
Qed.
Lemma view_ids (v : list turn_view) : view_id <$> v = tch_turn_id <$> (fst <$> v).
Proof. by rewrite <-list_fmap_compose. Qed.
Lemma view_id_insert (v : list turn_view) i a c items :
  v !! i = Some a → tch_turn_id c = view_id a → view_id <$> <[i := (c, items)]> v = view_id <$> v.
Proof.
  intros Hi Hc. rewrite list_fmap_insert. apply list_insert_id. rewrite list_lookup_fmap, Hi. simpl.
  unfold view_id at 2. simpl. by rewrite Hc.
Qed.
Lemma elem_of_insert {A} (l : list A) i x y : y ∈ <[i := x]> l → y = x ∨ ∃ j, j ≠ i ∧ l !! j = Some y.
Proof.
  intros [j Hj]%list_elem_of_lookup. destruct (decide (i = j)) as [<-|Hne].
  - left. destruct (decide (i < length l)); [|rewrite list_insert_ge in Hj by lia; apply lookup_lt_Some in Hj; lia].
    rewrite list_lookup_insert_eq in Hj by done. by injection Hj.
  - rewrite list_lookup_insert_ne in Hj by done. right. by exists j.
Qed.
Lemma unique_id_index (v : list turn_view) i j a b :
  NoDup (view_id <$> v) → v !! i = Some a → v !! j = Some b → view_id a = view_id b → i = j.
Proof.
  intros Hnd Hi Hj Hab. eapply NoDup_lookup; [done| |]; rewrite list_lookup_fmap; [rewrite Hi|rewrite Hj]; simpl; by f_equal.
Qed.

(** A turn is opened, its metadata change, or an item of it changes. *)
Lemma mirrors_open v r c :
  c.(tch_turn_id) ∉ view_id <$> v → mirrors v r → mirrors (v ++ [(c, [])]) (put_turn r c).
Proof.
  intros Hnew (Ht & Hi & Hk). split_and!; simpl.
  - rewrite fmap_app, Ht. apply upsert_by_new. by rewrite <-view_ids.
  - intros a [Ha| ->%list_elem_of_singleton]%elem_of_app; [by apply Hi|]. unfold rows_of. simpl.
    rewrite filter_none; [done|]. intros d Hd Hid. apply Hnew.
    change (tch_turn_id c) with (view_id (c, [])). rewrite <-Hid. by apply Hk.
  - intros d Hd. rewrite fmap_app, elem_of_app. left. by apply Hk.
Qed.
Lemma mirrors_update v r i a c :
  NoDup (view_id <$> v) → v !! i = Some a → tch_turn_id c = view_id a →
  mirrors v r → mirrors (<[i := (c, a.2)]> v) (put_turn r c).
Proof.
  intros Hnd Hi Hc (Ht & Hr & Hk). split_and!; simpl.
  - rewrite list_fmap_insert, Ht. apply (upsert_by_at tch_turn_id c _ i a.1); [by rewrite list_lookup_fmap, Hi|done|].
    rewrite Hc, <-fmap_take, <-view_ids, list_elem_of_fmap. intros (b & Hb & [j [Hj Hlt]]%elem_of_take).
    pose proof (unique_id_index v i j a b Hnd Hi Hj Hb). lia.
  - intros d [->|(j & _ & Hd)]%elem_of_insert; simpl.
    + unfold view_id. simpl. rewrite Hc. apply (Hr a). by eapply list_elem_of_lookup_2.
    + apply (Hr d). by eapply list_elem_of_lookup_2.
  - intros d Hd. rewrite (view_id_insert v i a) by done. by apply Hk.
Qed.
Lemma mirrors_put v r i a x :
  NoDup (view_id <$> v) → v !! i = Some a → mirrors v r →
  mirrors (<[i := (a.1, upsert_by thread_item_id x a.2)]> v)
    (put_item r (mkItemChange (view_id a) x None None)).
Proof.
  intros Hnd Hi (Ht & Hr & Hk). split_and!.
  - simpl. rewrite list_fmap_insert, Ht. symmetry. apply list_insert_id. by rewrite list_lookup_fmap, Hi.
  - intros d Hd. rewrite rows_of_put_item. cbn [ic_turn_id ic_item].
    apply elem_of_insert in Hd as [->|(j & Hne & Hd)].
    + assert (view_id (a.1, upsert_by thread_item_id x a.2) = view_id a) as -> by done.
      rewrite decide_True by done. by rewrite (Hr a (list_elem_of_lookup_2 _ _ _ Hi)).
    + rewrite decide_False; [apply Hr; by eapply list_elem_of_lookup_2|].
      intros Heq. apply Hne. by eapply (unique_id_index v j i).
  - intros c Hc. rewrite (view_id_insert v i a) by done. simpl in Hc.
    apply elem_of_upsert_by in Hc as [->|Hc]; [|by apply Hk]. simpl.
    apply list_elem_of_fmap_2. by eapply list_elem_of_lookup_2.
Qed.
(** The last turns are removed. *)
Lemma mirrors_take v r n :
  NoDup (view_id <$> v) → mirrors v r → mirrors (take n v) (foldl drop_turn r (view_id <$> drop n v)).
Proof.
  intros Hnd (Ht & Hr & Hk). rewrite foldl_drop_turn.
  assert (∀ a, a ∈ take n v → view_id a ∉ view_id <$> drop n v) as Hdis.
  { intros a Ha Hd. rewrite <-(take_drop n v), fmap_app in Hnd. apply NoDup_app in Hnd as (_ & Hnd & _).
    apply (Hnd (view_id a)); [|done]. by apply list_elem_of_fmap_2. }
  split_and!; simpl.
  - rewrite Ht, <-(take_drop n v) at 1. rewrite fmap_app, filter_app.
    rewrite filter_all, filter_none, app_nil_r; [done| |].
    + intros c Hc Hn. apply Hn. rewrite view_ids. by apply list_elem_of_fmap_2.
    + intros c (a & -> & Ha)%list_elem_of_fmap. by apply Hdis.
  - intros a Ha. rewrite <-(Hr a) by (by eapply elem_of_take in Ha as (i & ? & _); eapply list_elem_of_lookup_2).
    unfold rows_of. simpl. f_equal. rewrite list_filter_filter. apply list_filter_iff. intros c.
    split; [naive_solver|]. intros ->. split; [done|]. by apply Hdis.
  - intros c [Hc Hin]%list_elem_of_filter. apply Hk in Hin.
    rewrite <-(take_drop n v), fmap_app in Hin. apply elem_of_app in Hin. naive_solver.
Qed.

(** *** Operations of a tracking builder *)

Section follow.
Context {FU : FileUrls} {PE : PathEnv} {HT : HistoryTools}.
Implicit Types (b : ThreadHistoryBuilder) (t u : PendingTurn).

(** The changes recorded between two states lead a reader from one to the other. *)
Definition evolves b b' : Prop :=
  ∀ cs, active_change_set b = Some cs →
  ∃ cs', active_change_set b' = Some cs'
    ∧ ∀ r, mirrors (view b) (apply_changes r cs) → mirrors (view b') (apply_changes r cs').
(** If identifiers are unique afterwards, they were before, and the changes lead
    from the one state to the other. *)
Definition grows b b' : Prop := unique (view b') → unique (view b) ∧ evolves b b'.

Lemma grows_refl b : grows b b.
Proof. intros Hu. split; [done|]. intros cs Hcs. by exists cs. Qed.
Lemma builder_grows_trans b b' b'' : grows b b' → grows b' b'' → grows b b''.
Proof.
  intros H H' Hu. destruct (H' Hu) as [Hu' E']. destruct (H Hu') as [Hu0 E]. split; [done|].
  intros cs Hcs. destruct (E cs Hcs) as (cs1 & H1 & R1). destruct (E' cs1 H1) as (cs2 & H2 & R2).
  exists cs2. split; [done|]. intros r Hr. by apply R2, R1.
Qed.
Lemma grows_same b b' : view b' = view b → active_change_set b' = active_change_set b → grows b b'.
Proof.
  intros Hv Ha Hu. rewrite Hv in Hu. split; [done|]. intros cs Hcs. exists cs. by rewrite Ha, Hv.
Qed.

Lemma apply_record_turn cs c r :
  apply_changes r (mkChangeSet (changed_items cs) (changed_turns cs ++ [c]) (removed_turn_ids cs))
  = put_turn (apply_changes r cs) c.
Proof. unfold apply_changes. simpl. by rewrite foldl_app. Qed.
Lemma apply_record_item cs c r :
  apply_changes r (mkChangeSet (changed_items cs ++ [c]) (changed_turns cs) (removed_turn_ids cs))
  = put_item (apply_changes r cs) c.
Proof. unfold apply_changes. simpl. rewrite foldl_app. simpl. by rewrite !foldl_put_turn. Qed.

Lemma all_turns_record_item b id x : all_turns (record_changed_item b id x) = all_turns b.
Proof. unfold all_turns. by autorewrite with history. Qed.
Lemma all_turns_record_turn b c : all_turns (record_changed_turn b c) = all_turns b.
Proof. unfold all_turns. by autorewrite with history. Qed.
Lemma all_turns_set_current b t u :
  current_turn b = Some t → all_turns (set_current b (Some u)) = <[length (turns b) := u]> (all_turns b).
Proof. intros E. unfold all_turns. simpl. rewrite E. by rewrite insert_app_r_alt, Nat.sub_diag by lia. Qed.
Lemma all_turns_set_finished b i t u :
  turns b !! i = Some t → all_turns (set_turns b (<[i := u]> (turns b))) = <[i := u]> (all_turns b).
Proof. intros E. unfold all_turns. simpl. by rewrite insert_app_l by (by eapply lookup_lt_Some). Qed.
Lemma lookup_current b t : current_turn b = Some t → all_turns b !! length (turns b) = Some t.
Proof. intros E. unfold all_turns. rewrite E. apply list_lookup_middle. done. Qed.
Lemma lookup_finished b i t : turns b !! i = Some t → all_turns b !! i = Some t.
Proof. intros E. unfold all_turns. by apply lookup_app_l_Some. Qed.

(** Recording a turn or an item that the state change is about *)
Lemma record_turn_grows b b0 c :
  active_change_set b0 = active_change_set b →
  (unique (view b0) → unique (view b)) →
  (∀ r, unique (view b) → unique (view b0) → mirrors (view b) r → mirrors (view b0) (put_turn r c)) →
  grows b (record_changed_turn b0 c).
Proof.
  intros Ha Hu Hm Hu'. unfold view in Hu' |- *. rewrite all_turns_record_turn in Hu'.
  split; [by apply Hu|]. intros cs Hcs. unfold record_changed_turn. rewrite Ha, Hcs.
  eexists. split; [done|]. intros r Hr. rewrite apply_record_turn. by apply Hm; [apply Hu| |].
Qed.
Lemma record_item_grows b b0 id x :
  active_change_set b0 = active_change_set b →
  (unique (view b0) → unique (view b)) →
  (∀ r, unique (view b) → unique (view b0) → mirrors (view b) r →
        mirrors (view b0) (put_item r (mkItemChange id x None None))) →
  grows b (record_changed_item b0 id x).
Proof.
  intros Ha Hu Hm Hu'. unfold view in Hu' |- *. rewrite all_turns_record_item in Hu'.
  split; [by apply Hu|]. intros cs Hcs. unfold record_changed_item. rewrite Ha, Hcs.
  eexists. split; [done|]. intros r Hr. rewrite apply_record_item. by apply Hm; [apply Hu| |].
Qed.

Lemma view_open b t : current_turn b = None → view (set_current b (Some t)) = view b ++ [view_of t].
Proof. intros E. unfold view, all_turns. simpl. rewrite E, app_nil_r. by rewrite fmap_app. Qed.
Lemma unique_app v a : unique (v ++ [a]) → unique v ∧ view_id a ∉ view_id <$> v.
Proof.
  unfold unique. rewrite fmap_app, Forall_app. intros [(? & Hd & _)%NoDup_app [? _]]. split; [done|].
  intros Hin. apply (Hd _ Hin). left.
Qed.
Lemma open_grows b t :
  current_turn b = None → pt_items t = [] → grows b (set_current (record_changed_pending_turn b t) (Some t)).
Proof.
  intros E Hi. rewrite record_pending_eq.
  assert (set_current (record_changed_turn b (from_pending_turn t)) (Some t)
          = record_changed_turn (set_current b (Some t)) (from_pending_turn t)) as ->.
  { unfold record_changed_turn. simpl. by destruct (active_change_set b). }
  apply record_turn_grows; [done| |]; rewrite view_open by done.
  - intros [Hu _]%unique_app. done.
  - intros r _ [_ Hnew]%unique_app Hr. unfold view_of. rewrite Hi. by apply mirrors_open.
Qed.
Lemma new_turn_grows b id : grows b (new_turn b id).1.
Proof.
  pose proof (new_turn_fields b id) as Hn. destruct (new_turn b id) as [b' t]. destruct Hn as (H1 & H2 & H3 & _).
  apply grows_same; [|done]. unfold view, all_turns. simpl. by rewrite H1, H2.
Qed.
Lemma ensure_grows b b' t : ensure_turn b = (b', t) → grows b b'.
Proof.
  unfold ensure_turn. destruct (current_turn b) eqn:E; [intros [= <- _]; apply grows_refl|].
  pose proof (new_turn_fields b None) as Hn. pose proof (new_turn_grows b None) as Hg.
  destruct (new_turn b None) as [b1 t1]. destruct Hn as (_ & Hc & _ & Hi & _). intros [= <- _].
  eapply builder_grows_trans; [done|]. apply open_grows; [by rewrite Hc|done].
Qed.

(** An item of the turn at an index changes: where identifiers stay unique, the
    new list is that of an update by identifier. *)
Definition item_update (x : ThreadItem) (items items' : list ThreadItem) : Prop :=
  NoDup (thread_item_id <$> items') →
  NoDup (thread_item_id <$> items) ∧ items' = upsert_by thread_item_id x items.
Lemma item_update_upsert x items : item_update x items (upsert_by thread_item_id x items).
Proof.
  unfold item_update. rewrite upsert_by_keys. intros H. split; [|done]. destruct (decide _); [done|].
  by apply NoDup_app in H as (? & _).
Qed.
Lemma item_update_push x items : item_update x items (items ++ [x]).
Proof.
  unfold item_update. rewrite fmap_app. intros (? & Hd & _)%NoDup_app. split; [done|].
  symmetry. apply upsert_by_new. intros Hin. apply (Hd _ Hin). left.
Qed.
Lemma item_update_last items id s c s' c' :
  last items = Some (ItemReasoning id s c) →
  item_update (ItemReasoning id s' c') items (<[length items - 1 := ItemReasoning id s' c']> items).
Proof.
  intros Hl Hnd. rewrite last_lookup in Hl. replace (length items - 1) with (pred (length items)) in * by lia.
  assert (thread_item_id <$> <[pred (length items) := ItemReasoning id s' c']> items = thread_item_id <$> items) as E.
  { rewrite list_fmap_insert. apply list_insert_id. by rewrite list_lookup_fmap, Hl. }
  rewrite E in Hnd. split; [done|]. symmetry. eapply upsert_by_at; [done|done|].
  rewrite list_elem_of_fmap. intros (y & Hy & [j [Hj Hlt]]%elem_of_take).
  assert (j = pred (length items)); [|lia]. eapply NoDup_lookup; [done| |]; rewrite list_lookup_fmap; [by rewrite Hj|].
  rewrite Hl. simpl in Hy |- *. by rewrite <-Hy.
Qed.
Lemma unique_insert_items v i a items :
  v !! i = Some a → unique (<[i := (a.1, items)]> v) →
  NoDup (thread_item_id <$> items) ∧ (NoDup (thread_item_id <$> a.2) → unique v).
Proof.
  intros Hi [Hn Hf]. rewrite (view_id_insert v i a) in Hn by done. rewrite Forall_lookup in Hf. split.
  - apply (Hf i (a.1, items)). apply list_lookup_insert_eq. by eapply lookup_lt_Some.
  - intros Ha. split; [done|]. apply Forall_lookup. intros j d Hj. destruct (decide (i = j)) as [<-|Hne].
    + by simplify_eq.
    + apply (Hf j d). by rewrite list_lookup_insert_ne.
Qed.
Lemma set_items_grows b b0 i t ix x items :
  all_turns b !! i = Some t → all_turns b0 = <[i := set_items t ix items]> (all_turns b) →
  active_change_set b0 = active_change_set b → item_update x (pt_items t) items →
  grows b (record_changed_item b0 (pt_id t) x).
Proof.
  intros Hi H0 Ha Hupd.
  assert (view b !! i = Some (view_of t)) as Hv by (unfold view; by rewrite list_lookup_fmap, Hi).
  assert (view b0 = <[i := ((view_of t).1, items)]> (view b)) as Hv0
    by (unfold view; by rewrite H0, list_fmap_insert).
  apply record_item_grows; [done| |]; rewrite Hv0.
  - intros [Hnd Hu]%(unique_insert_items _ _ _ _ Hv). apply Hu, Hupd, Hnd.
  - intros r Hub [Hnd _]%(unique_insert_items _ _ _ _ Hv) Hr. destruct (Hupd Hnd) as [_ ->].
    by apply (mirrors_put (view b) r i (view_of t) x); [apply Hub| |].
Qed.
(** The metadata of the turn at an index change. *)
Lemma update_grows b b0 i t u :
  all_turns b !! i = Some t → all_turns b0 = <[i := u]> (all_turns b) →
  active_change_set b0 = active_change_set b → same_items t u →
  grows b (record_changed_turn b0 (from_pending_turn u)).
Proof.
  intros Hi H0 Ha (Hit & _ & _ & _ & Hid).
  assert (view b !! i = Some (view_of t)) as Hv by (unfold view; by rewrite list_lookup_fmap, Hi).
  assert (view b0 = <[i := (from_pending_turn u, (view_of t).2)]> (view b)) as Hv0.
  { assert (view_of u = (from_pending_turn u, (view_of t).2)) as <- by (unfold view_of; simpl; by rewrite Hit).
    unfold view. by rewrite H0, list_fmap_insert. }
  apply record_turn_grows; [done| |]; rewrite Hv0.
  - intros [Hn Hf]. rewrite (view_id_insert (view b) i (view_of t)) in Hn by (done || by rewrite <-Hid).
    split; [done|]. apply Forall_lookup. intros j d Hj. rewrite Forall_lookup in Hf.
    destruct (decide (i = j)) as [<-|Hne].
    + simplify_eq. apply (Hf i (from_pending_turn u, (view_of t).2)).
      apply list_lookup_insert_eq. by eapply lookup_lt_Some.
    + apply (Hf j d). by rewrite list_lookup_insert_ne.
  - intros r Hub _ Hr. apply (mirrors_update (view b) r i (view_of t)); [apply Hub|done| |done]. done.
Qed.
Lemma update_current_grows b t u : current_turn b = Some t → same_items t u → grows b (update_current b u).
Proof.
  intros E H. apply (update_grows b _ (length (turns b)) t u); [by apply lookup_current|by apply (all_turns_set_current b t)|done|done].
Qed.
Lemma update_finished_grows b i t u : turns b !! i = Some t → same_items t u → grows b (update_finished b i u).
Proof.
  intros E H. apply (update_grows b _ i t u); [by apply lookup_finished|by apply (all_turns_set_finished b i t)|done|done].
Qed.
Lemma finish_grows b : settled b → grows b (finish_current_turn b).
Proof.
  intros Hs. apply grows_same; [unfold view; by rewrite finish_settled|].
  unfold finish_current_turn. destruct (current_turn b); [|done]. by case_match.
Qed.
Lemma next_item_id_grows b : grows b (next_item_id b).1.
Proof. by apply grows_same. Qed.

(** Items of the current turn, and of a turn given by its identifier *)
Lemma set_current_items_grows b t ix x items :
  current_turn b = Some t → item_update x (pt_items t) items →
  grows b (record_changed_item (set_current b (Some (set_items t ix items))) (pt_id t) x).
Proof.
  intros E H. eapply (set_items_grows b _ (length (turns b)) t); [by apply lookup_current| |done|done].
  by apply (all_turns_set_current b t).
Qed.
Lemma push_grows b x : grows b (push_item_in_current_turn b x).
Proof.
  unfold push_item_in_current_turn. destruct (ensure_turn b) as [b' t] eqn:E.
  eapply builder_grows_trans; [by eapply ensure_grows|]. pose proof (ensure_turn_spec b) as Hs. rewrite E in Hs.
  simpl. apply set_current_items_grows; [apply Hs|apply item_update_push].
Qed.
Lemma upsert_current_grows b x b' : wf b → upsert_item_in_current_turn b x = Some b' → grows b b'.
Proof.
  intros Hb. unfold upsert_item_in_current_turn. destruct (ensure_turn b) as [b1 t] eqn:E.
  destruct (ensure_turn_wf _ _ _ E Hb) as [_ Ht]. destruct (index_upsert_spec _ _ x Ht) as (ix & -> & _).
  intros [= <-]. eapply builder_grows_trans; [by eapply ensure_grows|].
  pose proof (ensure_turn_spec b) as Hs. rewrite E in Hs.
  apply set_current_items_grows; [apply Hs|apply item_update_upsert].
Qed.
Lemma upsert_turn_grows b id x b' : wf b → upsert_item_in_turn_id b id x = Some b' → grows b b'.
Proof.
  intros Hb. unfold upsert_item_in_turn_id. destruct (current_with_id b id) as [t|] eqn:E.
  - apply current_with_id_Some in E as [E _]. apply wf_split in Hb as [_ Hc].
    destruct (index_upsert_spec _ _ x (Hc t E)) as (ix & -> & _). intros [= <-].
    apply set_current_items_grows; [done|apply item_update_upsert].
  - destruct (find_turn (turns b) id) as [[i t]|] eqn:F; [|intros [= <-]; apply grows_refl].
    apply find_turn_Some in F as [F _].
    destruct (index_upsert_spec _ _ x (wf_finished _ _ _ Hb F)) as (ix & -> & _). intros [= <-].
    eapply (set_items_grows b _ i t); [by apply lookup_finished| |done|apply item_update_upsert].
    by apply (all_turns_set_finished b i t).
Qed.
Lemma upsert_routed_grows b id x b' : wf b → upsert_item_routed b id x = Some b' → grows b b'.
Proof. intros Hb. unfold upsert_item_routed. case_match; [by apply upsert_current_grows|by apply upsert_turn_grows]. Qed.
Lemma upsert_review_grows b id x b' : sound b → upsert_review_mode_item b id x = Some b' → grows b b'.
Proof.
  intros [Hb Hs]. destruct id as [id|]; simpl; [|by apply upsert_current_grows].
  case_match; [|by apply upsert_turn_grows]. intros E.
  apply upsert_turn_grows in E; [|apply open_turn_wf; [by apply finish_turn_wf|done]].
  eapply builder_grows_trans, E. eapply builder_grows_trans; [by apply finish_grows|]. apply open_grows; [apply finish_current|done].
Qed.
Lemma replace_last_grows b b' t id s c s' c' :
  ensure_turn b = (b', t) → last (pt_items t) = Some (ItemReasoning id s c) →
  grows b (record_changed_item (set_current b' (Some (replace_last t (ItemReasoning id s' c')))) (pt_id t)
             (ItemReasoning id s' c')).
Proof.
  intros E Hl. eapply builder_grows_trans; [by eapply ensure_grows|]. pose proof (ensure_turn_spec b) as Hs. rewrite E in Hs.
  apply set_current_items_grows; [apply Hs|]. by eapply item_update_last.
Qed.

(** *** Handlers *)

Lemma user_message_grows b p : settled b → grows b (handle_user_message b p).
Proof.
  intros Hs. unfold handle_user_message.
  set (d := match current_turn b with Some t => _ | None => b end).
  eapply (builder_grows_trans b d).
  - subst d. repeat case_match; [by apply finish_grows|apply grows_refl..].
  - cbn [next_item_id]. unfold next_item_id. eapply builder_grows_trans; [apply next_item_id_grows|]. apply push_grows.
Qed.
Lemma response_item_grows b i : grows b (handle_response_item b i).
Proof.
  destruct i; try apply grows_refl. simpl. repeat case_match; try apply grows_refl; try apply push_grows.
  eapply builder_grows_trans; [|apply push_grows]. by apply grows_same.
Qed.
Lemma push_next_grows b (f : rstr → ThreadItem) :
  grows b (let '(b, id) := next_item_id b in push_item_in_current_turn b (f id)).
Proof. simpl. eapply builder_grows_trans; [apply next_item_id_grows|apply push_grows]. Qed.
Lemma reasoning_grows b text : grows b (handle_agent_reasoning b text).
Proof.
  unfold handle_agent_reasoning. destruct (is_empty text); [apply grows_refl|].
  destruct (ensure_turn b) as [b' t] eqn:E.
  destruct (last (pt_items t)) as [[]|] eqn:L;
    try (by eapply builder_grows_trans; [by eapply ensure_grows|apply (push_next_grows b' (λ id, ItemReasoning id [text] []))]).
  by eapply replace_last_grows.
Qed.
Lemma raw_content_grows b text : grows b (handle_agent_reasoning_raw_content b text).
Proof.
  unfold handle_agent_reasoning_raw_content. destruct (is_empty text); [apply grows_refl|].
  destruct (ensure_turn b) as [b' t] eqn:E.
  destruct (last (pt_items t)) as [[]|] eqn:L;
    try (by eapply builder_grows_trans; [by eapply ensure_grows|apply (push_next_grows b' (λ id, ItemReasoning id [] [text]))]).
  by eapply replace_last_grows.
Qed.
Lemma lifecycle_grows b id i b' : sound b → handle_materialized_item_lifecycle b id i = Some b' → grows b b'.
Proof.
  intros Hb. unfold handle_materialized_item_lifecycle.
  repeat case_match; [by apply upsert_review_grows|by apply upsert_turn_grows, Hb|intros [= <-]; apply grows_refl].
Qed.
Lemma abort_active_grows b p : grows b (abort_active b p).
Proof.
  unfold abort_active. destruct (current_turn b) eqn:E; [|apply grows_refl].
  by eapply update_current_grows, apply_abort_same.
Qed.
Lemma turn_aborted_grows b p : grows b (handle_turn_aborted b p).
Proof.
  unfold handle_turn_aborted. destruct (ta_turn_id p) as [id|]; [|apply abort_active_grows].
  destruct (current_with_id b id) eqn:E.
  - apply current_with_id_Some in E as [E _]. by eapply update_current_grows, apply_abort_same.
  - destruct (find_turn (turns b) id) as [[i t]|] eqn:F; [|apply abort_active_grows].
    apply find_turn_Some in F as [F _]. by eapply update_finished_grows, apply_abort_same.
Qed.
Lemma complete_current_grows b p t :
  settled b → current_turn b = Some t → grows b (finish_current_turn (update_current b (apply_completion p t))).
Proof.
  intros Hs E. eapply builder_grows_trans; [by eapply update_current_grows, apply_completion_same|].
  apply finish_grows. unfold update_current. rewrite settled_record_turn. intros ? [= <-].
  by eapply same_items_kept, Hs, E; apply apply_completion_same.
Qed.
Lemma turn_complete_grows b p : settled b → grows b (handle_turn_complete b p).
Proof.
  intros Hs. unfold handle_turn_complete. destruct (current_with_id b _) eqn:E.
  - apply current_with_id_Some in E as [E _]. by apply complete_current_grows.
  - destruct (find_turn (turns b) _) as [[i t]|] eqn:F.
    + apply find_turn_Some in F as [F _]. by eapply update_finished_grows, apply_completion_same.
    + destruct (current_turn b) eqn:C; [by apply complete_current_grows|apply grows_refl].
Qed.
Lemma turn_started_grows b p : settled b → grows b (handle_turn_started b p).
Proof.
  intros Hs. unfold handle_turn_started. simpl. eapply builder_grows_trans; [by apply finish_grows|].
  apply open_grows; [apply finish_current|done].
Qed.
Lemma error_grows b p : grows b (handle_error b p).
Proof.
  unfold handle_error. case_match; [apply grows_refl|]. destruct (current_turn b) as [t|] eqn:E; [|apply grows_refl].
  by apply (update_current_grows b t), set_error_same.
Qed.
Lemma compacted_grows b : grows b (handle_compacted b).
Proof.
  unfold handle_compacted. destruct (ensure_turn b) as [b' t] eqn:E.
  eapply builder_grows_trans; [by eapply ensure_grows|]. pose proof (ensure_turn_spec b) as Hs. rewrite E in Hs.
  apply grows_same; [|done]. unfold view. rewrite (all_turns_set_current b' t) by apply Hs.
  rewrite list_fmap_insert. apply list_insert_id. by rewrite list_lookup_fmap, (lookup_current b' t) by apply Hs.
Qed.
#[local] Hint Resolve grows_refl user_message_grows response_item_grows reasoning_grows raw_content_grows
  turn_aborted_grows turn_complete_grows turn_started_grows error_grows compacted_grows push_grows : history.

Definition is_rollback (e : EventMsg Url) : bool := match e with EvThreadRolledBack _ => true | _ => false end.
Lemma handle_event_grows b e b' :
  sound b → is_rollback e = false → handle_event b e = Some b' → grows b b'.
Proof.
  intros Hb. pose proof Hb as [Hw Hs]. destruct e; cbn [handle_event is_rollback]; intros He; try done;
    try (by intros [= <-]; auto with history);
    try (by apply upsert_current_grows); try (by apply upsert_routed_grows); try (by apply upsert_turn_grows);
    try (by apply lifecycle_grows).
  - unfold handle_agent_message. case_match; intros [= <-]; [apply grows_refl|].
    eapply builder_grows_trans; [apply next_item_id_grows|apply push_grows].
  - unfold handle_guardian_assessment. repeat case_match; try (intros [= <-]; apply grows_refl).
    by apply upsert_routed_grows.
  - unfold handle_mcp_tool_call_end. case_match; by apply upsert_routed_grows.
  - unfold handle_collab_agent_spawn_end. case_match; by apply upsert_current_grows.
  - intros [= <-]. eapply builder_grows_trans; [apply next_item_id_grows|apply push_grows].
  - unfold handle_entered_review_mode. destruct (item_id_or_next b _) as [b1 id] eqn:E. intros H.
    eapply builder_grows_trans, upsert_review_grows, H; [|by eapply item_id_or_next_sound].
    unfold item_id_or_next in E. case_match; injection E as <- <-; [apply grows_refl|apply next_item_id_grows].
  - unfold handle_exited_review_mode. destruct (item_id_or_next b _) as [b1 id] eqn:E. intros H.
    eapply builder_grows_trans, upsert_review_grows, H; [|by eapply item_id_or_next_sound].
    unfold item_id_or_next in E. case_match; injection E as <- <-; [apply grows_refl|apply next_item_id_grows].
Qed.

(** A handled event leads a reader along, starting with no recorded changes. *)
Definition leads b b' : Prop :=
  active_change_set b = Some change_set_default → unique (view b) → unique (view b') →
  ∃ cs, active_change_set b' = Some cs ∧ ∀ r, mirrors (view b) r → mirrors (view b') (apply_changes r cs).
Lemma grows_leads b b' : grows b b' → leads b b'.
Proof. intros Hg Ha _ Hu. destruct (Hg Hu) as [_ He]. apply (He change_set_default Ha). Qed.
Lemma rollback_changes b p :
  active_change_set b = Some change_set_default →
  active_change_set (handle_thread_rollback b p) =
    Some (mkChangeSet [] []
      (pt_id <$> drop (length (turns (finish_current_turn b)) - N.to_nat (num_turns p)) (turns (finish_current_turn b)))).
Proof.
  intros Ha. unfold handle_thread_rollback, record_removed_turn_ids. simpl.
  assert (active_change_set (finish_current_turn b) = Some change_set_default) as ->.
  { unfold finish_current_turn. destruct (current_turn b); [|done]. by case_match. }
  simpl. do 2 f_equal. set (f := finish_current_turn b).
  destruct (length (turns f) <=? N.to_nat (num_turns p)) eqn:E.
  - apply Nat.leb_le in E. by replace (length (turns f) - _) with 0 by lia.
  - apply Nat.leb_gt in E. destruct (N.to_nat (num_turns p) =? 0) eqn:E'; [|done].
    apply Nat.eqb_eq in E'. rewrite E', Nat.sub_0_r. by rewrite drop_all.
Qed.
Lemma rollback_leads b p : settled b → leads b (handle_thread_rollback b p).
Proof.
  intros Hs Ha Hu _. rewrite (rollback_changes b p Ha). eexists. split; [done|]. intros r Hr.
  assert (view b = view_of <$> turns (finish_current_turn b)) as Hv.
  { unfold view. rewrite <-(finish_settled b Hs). unfold all_turns. by rewrite finish_current, app_nil_r. }
  assert (view (handle_thread_rollback b p) =
          take (length (turns (finish_current_turn b)) - N.to_nat (num_turns p)) (view b)) as ->.
  { unfold view at 1, all_turns. rewrite rollback_current, app_nil_r, rollback_turns, Hv. by rewrite fmap_take. }
  unfold apply_changes. simpl.
  assert (∀ n, pt_id <$> drop n (turns (finish_current_turn b)) = view_id <$> drop n (view b)) as ->.
  { intros n. rewrite Hv, <-fmap_drop, <-list_fmap_compose. done. }
  apply mirrors_take; [apply Hu|done].
Qed.
Lemma handle_event_leads b e b' : sound b → handle_event b e = Some b' → leads b b'.
Proof.
  intros Hb E. destruct (is_rollback e) eqn:R; [|by eapply grows_leads, handle_event_grows].
  destruct e; try done. injection E as <-. apply rollback_leads, Hb.
Qed.
Lemma handle_rollout_item_leads b i b' : sound b → handle_rollout_item b i = Some b' → leads b b'.
Proof.
  intros Hb E. assert (sound (advance_rollout b)) as Ha by (by eapply sound_same).
  assert (leads (advance_rollout b) b') as H; [|exact H].
  unfold handle_rollout_item in E. destruct i; try (injection E as <-; apply grows_leads; auto with history).
  by eapply handle_event_leads.
Qed.
Lemma with_changes_leads b i b' cs :
  sound b → handle_rollout_item_with_changes b i = Some (b', cs) → unique (view b) → unique (view b') →
  ∀ r, mirrors (view b) r → mirrors (view b') (apply_changes r cs).
Proof.
  intros Hb E Hu Hu' r Hr. unfold handle_rollout_item_with_changes, collect_changes in E.
  destruct (handle_rollout_item (set_changes b (Some change_set_default)) i) as [d|] eqn:Ed; [|done].
  injection E as <- <-. assert (leads (set_changes b (Some change_set_default)) d) as Hl.
  { eapply handle_rollout_item_leads, Ed. by eapply sound_same. }
  destruct (Hl eq_refl Hu Hu') as (c & -> & Hc). by apply Hc.
Qed.
End follow.
