(* ===== verification/ThreadHistorySpec.v ===== *)
(** What the history builder promises: batches of rollout items are handled
    without a panic and with the same result whether or not changes are tracked;
    a reader that applies the coalesced change sets has the turns and items of
    the builder; a rollback removes exactly the last turns; and an event that
    arrives late changes the turn it belongs to and nothing else. *)

From S2P Require Import Prelude AbsolutePath PathUris PathUriExample OutputTruncation History CoreItems ThreadItems ThreadHistory ThreadHistoryProps ThreadChangesProps.

#[local] Opaque str.

Section spec.
Context {FU : FileUrls} {PE : PathEnv} {HT : HistoryTools}.
Implicit Types (b : ThreadHistoryBuilder) (t : PendingTurn).

(** ** Batches *)

Lemma reachable_untracked b : reachable b → active_change_set b = None.
Proof.
  induction 1 as [n|b _ _|b e b' _ IH E|b i b' _ IH E|b e b' c _ IH E|b i b' c _ IH E]; try done.
  - pose proof (plain_event b e) as H. rewrite (plain_id b IH), E in H. injection H as H. by rewrite H.
  - by eapply handled_untracked.
  - unfold handle_event_with_changes, collect_changes in E. by destruct (handle_event _ e); [injection E as <- _|].
  - by eapply with_changes_untracked.
Qed.
Lemma accumulate_total b acc items :
  sound b → active_change_set b = None → accumulator_ok acc →
  ∃ b' acc', accumulate_rollout_items b acc items = Some (b', acc') ∧ handle_rollout_items b items = Some b'.
Proof.
  revert b acc. induction items as [|i items IH]; intros b acc Hb Ha Hacc; simpl; [by do 2 eexists|].
  destruct (collect_changes_sound b (λ b, handle_rollout_item b i)) as (b1 & cs & E & Hb1); [|done|].
  { intros. by apply handle_rollout_item_sound. }
  pose proof (with_changes_state b i Ha) as Hst. unfold handle_rollout_item_with_changes in *. rewrite E in *.
  rewrite <-Hst. simpl. destruct (accumulator_push_ok acc cs Hacc) as (acc1 & -> & Hacc1 & _). simpl.
  apply IH; [done| |done]. by eapply with_changes_untracked.
Qed.

(** From every builder that events can lead to, a batch of rollout items is
    handled without a panic when changes are tracked, and leaves the builder
    that handling the items without tracking leaves. *)
Theorem batch_tracking_transparent b items :
  reachable b →
  ∃ b' cs, handle_rollout_items_with_changes b items = Some (b', cs) ∧ handle_rollout_items b items = Some b'.
Proof.
  intros Hb. unfold handle_rollout_items_with_changes.
  destruct (accumulate_total b accumulator_default items) as (b' & acc & -> & E);
    [by apply reachable_sound|by apply reachable_untracked|apply accumulator_default_ok|].
  simpl. by do 2 eexists.
Qed.

(** C24: Coalescing loses nothing: whatever change sets are pushed, the
    accumulator takes them without a panic, and a reader that applies the
    coalesced set ends with the same tables, rows in the same order, as one that
    applies the sets one by one. *)
Theorem coalescing_is_sequential (css : list ThreadHistoryChangeSet) :
  ∃ acc, foldl (λ acc cs, a ← acc; accumulator_push a cs) (Some accumulator_default) css = Some acc
    ∧ ∀ r, apply_changes r (accumulator_finish acc) = foldl apply_changes r css.
Proof.
  destruct (push_loop accumulator_push apply_changes accumulator_push_ok css accumulator_default
              accumulator_default_ok) as (acc & E & _ & Hr).
  exists acc. split; [done|]. intros r. rewrite Hr. done.
Qed.

(** Identifiers stay unique while the items are handled. *)
Fixpoint unique_run b (items : list (RolloutItem Url)) : Prop :=
  unique (view b) ∧
  match items with
  | [] => True
  | i :: items => match handle_rollout_item b i with Some b' => unique_run b' items | None => False end
  end.
#[export] Instance unique_dec v : Decision (unique v) := _.
#[export] Instance unique_run_dec b items : Decision (unique_run b items).
Proof.
  revert b. induction items as [|i items IH]; intros b; simpl; [apply _|].
  destruct (handle_rollout_item b i) as [b'|]; apply _.
Defined.
Lemma accumulate_leads b acc items b' acc' r0 r :
  sound b → active_change_set b = None → accumulator_ok acc → unique_run b items →
  accumulate_rollout_items b acc items = Some (b', acc') →
  apply_changes r0 (accumulator_finish acc) = r → mirrors (view b) r →
  mirrors (view b') (apply_changes r0 (accumulator_finish acc')).
Proof.
  revert b acc r. induction items as [|i items IH]; intros b acc r Hb Ha Hacc Hu E Er Hr; simpl in E.
  - injection E as <- <-. by rewrite Er.
  - destruct Hu as [Hu Hrun]. destruct (handle_rollout_item_with_changes b i) as [[b1 cs]|] eqn:Ei; [|done].
    simpl in E. destruct (accumulator_push_ok acc cs Hacc) as (acc1 & Ep & Hacc1 & Hr1).
    pose proof (with_changes_state b i Ha) as Hst. rewrite Ei in Hst. simpl in Hst. rewrite <-Hst in Hrun.
    rewrite Ep in E. simpl in E.
    destruct (handle_rollout_item_sound b i Hb) as (b2 & E2 & Hb2). rewrite <-Hst in E2. injection E2 as <-.
    eapply IH; [done|by eapply with_changes_untracked|done|done|done|done|].
    rewrite Hr1, Er. apply (with_changes_leads b i b1 cs); [done|done|done| |done]. by destruct items; apply Hrun.
Qed.

(** C5: A reader that shows the turns and items of a builder and applies the
    change set of a batch shows those of the builder after the batch, as long as
    the identifiers of turns, and of items in a turn, stay unique. *)
Theorem change_set_follows_builder b items r :
  reachable b → unique_run b items → mirrors (view b) r →
  ∃ b' cs, handle_rollout_items_with_changes b items = Some (b', cs)
    ∧ handle_rollout_items b items = Some b' ∧ mirrors (view b') (apply_changes r cs).
Proof.
  intros Hb Hu Hr. unfold handle_rollout_items_with_changes.
  destruct (accumulate_total b accumulator_default items) as (b' & acc & E & E');
    [by apply reachable_sound|by apply reachable_untracked|apply accumulator_default_ok|].
  rewrite E. simpl. do 2 eexists. split_and!; [done|done|].
  eapply accumulate_leads, Hr; [by apply reachable_sound|by apply reachable_untracked|apply accumulator_default_ok|done|done|].
  done.
Qed.

(** ** Turns *)

Lemma reachable_items b items b' : reachable b → handle_rollout_items b items = Some b' → reachable b'.
Proof.
  revert b. induction items as [|i items IH]; intros b Hb; simpl; [by intros [= <-]|].
  destruct (handle_rollout_item b i) as [b1|] eqn:E; [|done]. apply IH. by eapply reach_rollout_item.
Qed.

(** C29: For every turn of a builder that events can lead to, looking an item up
    through the lazily built index is a scan for the first item with its
    identifier: an update replaces that item, or appends, and never panics. *)
Theorem indexed_update_is_scan b t item :
  reachable b → t ∈ all_turns b →
  ∃ ix, index_upsert (pt_item_index t) (pt_items t) item =
    Some (ix, match position_of (thread_item_id item) (pt_items t) with
              | Some i => <[i := item]> (pt_items t)
              | None => pt_items t ++ [item]
              end, item).
Proof.
  intros [Hb _]%reachable_sound Ht. unfold wf in Hb. rewrite Forall_forall in Hb.
  destruct (index_upsert_spec _ _ item (Hb t Ht)) as (ix & -> & _). exists ix.
  by rewrite upsert_items_position.
Qed.

(** C25: A rollback removes exactly the last turns, the open one included; it
    reports exactly their identifiers, and item numbering continues after the
    items that are left. *)
Theorem rollback_removes_last_turns b p cs :
  reachable b →
  let kept_turns := take (length (all_turns b) - N.to_nat (num_turns p)) (all_turns b) in
  let dropped := drop (length (all_turns b) - N.to_nat (num_turns p)) (all_turns b) in
  all_turns (handle_thread_rollback b p) = kept_turns
  ∧ current_turn (handle_thread_rollback b p) = None
  ∧ next_item_index (handle_thread_rollback b p) =
      Z.min (Z.of_nat (sum_list (length ∘ pt_items <$> kept_turns)) + 1) (2 ^ 63 - 1)
  ∧ (handle_event_with_changes b (EvThreadRolledBack p) = Some cs →
     cs.2 = mkChangeSet [] [] (pt_id <$> dropped)).
Proof.
  intros Hb. pose proof (reachable_sound b Hb) as [_ Hs].
  assert (turns (finish_current_turn b) = all_turns b) as Ht.
  { rewrite <-(finish_settled b Hs). unfold all_turns. by rewrite finish_current, app_nil_r. }
  assert (all_turns (handle_thread_rollback b p) = turns (handle_thread_rollback b p)) as Hall.
  { unfold all_turns. by rewrite rollback_current, app_nil_r. }
  rewrite Hall, rollback_turns, Ht. split_and!; [done|apply rollback_current| |].
  - change (next_item_index (handle_thread_rollback b p)) with
      (Z.min (Z.of_nat (sum_list (length ∘ pt_items <$> turns (handle_thread_rollback b p))) + 1) (2 ^ 63 - 1)).
    by rewrite rollback_turns, Ht.
  - set (s := set_changes b (Some change_set_default)). pose proof (rollback_changes s p eq_refl) as Hc.
    unfold handle_event_with_changes, collect_changes. fold s. cbn [handle_event mbind option_bind].
    rewrite Hc. intros [= <-]. simpl.
    assert (turns (finish_current_turn s) = turns (finish_current_turn b)) as ->; [|by rewrite Ht].
    unfold finish_current_turn. simpl. destruct (current_turn b); [|done]. by case_match.
Qed.

(** Updating the turn at an index of all turns, where identifiers are unique *)
Lemma view_set_items b b0 i t ix items j a :
  NoDup (view_id <$> view b) → all_turns b !! i = Some t → all_turns b0 = <[i := set_items t ix items]> (all_turns b) →
  view b !! j = Some a → view_id a = pt_id t → view b0 = <[j := (a.1, items)]> (view b) ∧ a.2 = pt_items t.
Proof.
  intros Hnd Hi H0 Hj Hid.
  assert (view b !! i = Some (view_of t)) as Hv by (unfold view; by rewrite list_lookup_fmap, Hi).
  assert (j = i) as -> by (by eapply unique_id_index).
  assert (a = view_of t) as -> by congruence. split; [|done].
  unfold view at 1. by rewrite H0, list_fmap_insert.
Qed.
Lemma upsert_in_turn_view b id x :
  wf b → NoDup (view_id <$> view b) →
  ∃ b', upsert_item_in_turn_id b id x = Some b' ∧ has_active_turn b' = has_active_turn b
    ∧ (∀ i a, view b !! i = Some a → view_id a = id → view b' = <[i := (a.1, upsert_by thread_item_id x a.2)]> (view b))
    ∧ (id ∉ view_id <$> view b → b' = b).
Proof.
  intros Hb Hnd. unfold upsert_item_in_turn_id. destruct (current_with_id b id) as [t|] eqn:E.
  - apply current_with_id_Some in E as [E <-]. apply wf_split in Hb as [_ Hc].
    destruct (index_upsert_spec _ _ x (Hc t E)) as (ix & -> & _). simpl. eexists. split; [done|]. split_and!.
    + unfold has_active_turn. autorewrite with history. simpl. by rewrite E.
    + intros i a Hi Hid. unfold view at 1. rewrite all_turns_record_item.
      destruct (view_set_items b (set_current b (Some (set_items t ix (upsert_by thread_item_id x (pt_items t)))))
                  (length (turns b)) t ix (upsert_by thread_item_id x (pt_items t)) i a) as [Hv ->]; try done.
      * by apply lookup_current.
      * by apply (all_turns_set_current b t).
    + intros Hn. destruct Hn. apply list_elem_of_fmap. exists (view_of t). split; [done|].
      apply list_elem_of_fmap_2, (list_elem_of_lookup_2 _ (length (turns b))). by apply lookup_current.
  - destruct (find_turn (turns b) id) as [[j t]|] eqn:F.
    + apply find_turn_Some in F as [F <-].
      destruct (index_upsert_spec _ _ x (wf_finished _ _ _ Hb F)) as (ix & -> & _). simpl. eexists. split; [done|]. split_and!.
      * unfold has_active_turn. by autorewrite with history.
      * intros i a Hi Hid. unfold view at 1. rewrite all_turns_record_item.
        destruct (view_set_items b (set_turns b (<[j := set_items t ix (upsert_by thread_item_id x (pt_items t))]> (turns b)))
                    j t ix (upsert_by thread_item_id x (pt_items t)) i a) as [Hv ->]; try done.
        -- by apply lookup_finished.
        -- by apply (all_turns_set_finished b j t).
      * intros Hn. destruct Hn. apply list_elem_of_fmap. exists (view_of t). split; [done|].
        apply list_elem_of_fmap_2, (list_elem_of_lookup_2 _ j). by apply lookup_finished.
    + exists b. split_and!; try done. intros i a Hi Hid. exfalso.
      unfold view in Hi. rewrite list_lookup_fmap in Hi. apply fmap_Some in Hi as (t & Ht & ->).
      unfold all_turns in Ht. apply lookup_app_Some in Ht as [Ht|[_ Ht]].
      * apply list_find_None in F. rewrite Forall_lookup in F. by apply (F i t).
      * destruct (current_turn b) as [u|] eqn:Ec; [|done].
        apply list_lookup_singleton_Some in Ht as [_ ->].
        unfold current_with_id in E. rewrite Ec in E. simpl in E. by rewrite bool_decide_eq_true_2 in E.
Qed.

(** C28: The end of a command changes the turn that the event names, also when
    that turn is finished and another one is open: the command's item is
    replaced, or appended, and all other turns and all metadata stay; if there
    is no such turn, nothing changes. *)
Theorem late_completion_changes_its_turn b p :
  reachable b → NoDup (view_id <$> view b) →
  ∃ b', handle_exec_command_end b p = Some b' ∧ has_active_turn b' = has_active_turn b
    ∧ (∀ i a, view b !! i = Some a → view_id a = xe_turn_id p →
        view b' = <[i := (a.1, upsert_by thread_item_id (build_command_execution_end_item p) a.2)]> (view b))
    ∧ (xe_turn_id p ∉ view_id <$> view b → b' = b).
Proof. intros [Hb _]%reachable_sound. by apply upsert_in_turn_view. Qed.

(** No turn is lost: what [finish] returns are all turns that were opened and
    not rolled back, the open one last. *)
Theorem finish_returns_all_turns b : reachable b → builder_finish b = turn_from <$> all_turns b.
Proof.
  intros [_ Hs]%reachable_sound. unfold builder_finish. rewrite <-(finish_settled b Hs).
  unfold all_turns. by rewrite finish_current, app_nil_r.
Qed.
End spec.

(** ** A concrete thread *)

#[export] Instance example_history_tools : HistoryTools := {|
  redact_secrets := λ s, s;
  shlex_try_join := λ tokens, if existsb (contains_char 0%N) tokens then None else Some (join [32%N] tokens);
  parse_command := λ tokens, [ParsedUnknown (join [32%N] tokens)];
  from_xml_str := λ s, text ← strip_prefix (str "<hook_prompt>") s; Some (text, str "run");
  now_v7 := λ n, str "uuid-" ++ display_nat n;
|}.
#[local] Existing Instance example_env.
Definition example_cwd : Url := from_abs_path (str "/repo").
Definition started (id : string) : RolloutItem Url :=
  RolloutEventMsg (EvTurnStarted (mkTurnStarted (str id) None None (Some 10%Z) None DefaultMode)).
Definition completed (id : string) : RolloutItem Url :=
  RolloutEventMsg (EvTurnComplete (mkTurnComplete (str id) None None None (Some 20%Z) (Some 5%Z) None)).
Definition said (text : string) : RolloutItem Url :=
  RolloutEventMsg (EvUserMessage (mkUserMessageEvent None (str text) None [] [] [] None [] [])).
Definition exec_end_of (turn call : string) : ExecCommandEndEvent Url :=
  mkExecEnd (str call) None None None (str turn) 0 [str "ls"] example_cwd [] SourceAgent None [] [] (str "out")
    0 3000000%N [] ExecCompleted.
Definition example_rollout : list (RolloutItem Url) :=
  [started "t1"; said "hello"; RolloutEventMsg (EvAgentReasoning (str "a"));
   RolloutEventMsg (EvAgentReasoning (str "b")); started "t2"; said "again";
   RolloutEventMsg (EvExecCommandEnd (exec_end_of "t1" "c1")); completed "t2"].
Definition example_builder : ThreadHistoryBuilder :=
  default (builder_new 0) (handle_rollout_items (builder_new 0) example_rollout).
Definition summary (b : ThreadHistoryBuilder) : list (rstr * list rstr) :=
  (λ a, (view_id a, thread_item_id <$> a.2)) <$> view b.

Example example_turns :
  summary example_builder =
    [(str "t1", [str "item-1"; str "item-2"; str "c1"]); (str "t2", [str "item-3"])].
Proof. vm_compute. reflexivity. Qed.

Lemma example_builder_reachable : reachable example_builder.
Proof.
  unfold example_builder. destruct (handle_rollout_items (builder_new 0) example_rollout) as [b|] eqn:E.
  - by eapply reachable_items, E; apply reach_new.
  - apply reach_new.
Qed.

(** [batch_tracking_transparent] on the example *)
Lemma batch_tracking_transparent_witness :
  ∃ b' cs, handle_rollout_items_with_changes (builder_new 0) example_rollout = Some (b', cs)
    ∧ handle_rollout_items (builder_new 0) example_rollout = Some b'.
Proof. apply batch_tracking_transparent, reach_new. Defined.

(** [change_set_follows_builder] on the example, for a reader with empty tables *)
Lemma change_set_follows_builder_witness :
  ∃ b' cs, handle_rollout_items_with_changes (builder_new 0) example_rollout = Some (b', cs)
    ∧ handle_rollout_items (builder_new 0) example_rollout = Some b'
    ∧ mirrors (view b') (apply_changes (mkReplica [] []) cs).
Proof.
  apply change_set_follows_builder; [apply reach_new| |].
  - apply (bool_decide_unpack _). vm_compute. exact I.
  - split_and!; [done|intros a Ha; by apply elem_of_nil in Ha|intros c Hc; by apply elem_of_nil in Hc].
Defined.

(** [indexed_update_is_scan] on the first turn of the example *)
Lemma indexed_update_is_scan_witness :
  ∃ t, head (all_turns example_builder) = Some t ∧
  ∃ ix, index_upsert (pt_item_index t) (pt_items t) (ItemPlan (str "item-2") []) =
    Some (ix, match position_of (str "item-2") (pt_items t) with
              | Some i => <[i := ItemPlan (str "item-2") []]> (pt_items t)
              | None => pt_items t ++ [ItemPlan (str "item-2") []]
              end, ItemPlan (str "item-2") []).
Proof.
  destruct (all_turns example_builder) as [|t ts] eqn:E; [by vm_compute in E|].
  exists t. split; [done|].
  apply (indexed_update_is_scan example_builder t (ItemPlan (str "item-2") [])); [apply example_builder_reachable|].
  rewrite E. left.
Defined.

(** [rollback_removes_last_turns] on the example *)
Lemma rollback_removes_last_turns_witness :
  summary (handle_thread_rollback example_builder (mkRolledBack 1)) =
    [(str "t1", [str "item-1"; str "item-2"; str "c1"])]
  ∧ next_item_index (handle_thread_rollback example_builder (mkRolledBack 1)) = 4%Z.
Proof.
  destruct (rollback_removes_last_turns example_builder (mkRolledBack 1)
              (example_builder, change_set_default) example_builder_reachable) as (Ht & _ & -> & _).
  unfold summary, view. rewrite Ht. vm_compute. done.
Defined.

(** [late_completion_changes_its_turn] on the example: the first turn is finished *)
Lemma late_completion_changes_its_turn_witness :
  ∃ b', handle_exec_command_end example_builder (exec_end_of "t1" "c2") = Some b'
    ∧ summary b' = [(str "t1", [str "item-1"; str "item-2"; str "c1"; str "c2"]); (str "t2", [str "item-3"])].
Proof.
  destruct (late_completion_changes_its_turn example_builder (exec_end_of "t1" "c2") example_builder_reachable)
    as (b' & E & _ & Hv & _).
  - apply (bool_decide_unpack _). vm_compute. exact I.
  - exists b'. split; [done|]. unfold summary.
    rewrite (Hv 0 (default (mkTurnChange [] None TurnFailed None None None None, []) (head (view example_builder))));
      by vm_compute.
Defined.

(** [finish_returns_all_turns] on the example *)
Lemma finish_returns_all_turns_witness :
  turn_id <$> builder_finish example_builder = [str "t1"; str "t2"].
Proof. rewrite (finish_returns_all_turns example_builder example_builder_reachable). vm_compute. done. Defined.
