(* ===== verification/IpAddr.v ===== *)
(** IP addresses of the standard library: parsing as [core::net::parser] does it
    and the classification helpers that the network policy uses. *)

From S2P Require Import Prelude.
#[local] Open Scope N_scope.

(** ** Addresses *)

(** Octets, and 16-bit segments *)
Record Ipv4Addr := V4Addr { oct0 : N; oct1 : N; oct2 : N; oct3 : N }.
Definition Ipv6Addr : Type := list N.
Inductive IpAddr := V4 (ip : Ipv4Addr) | V6 (ip : Ipv6Addr).
#[global] Instance ipv4_eq_dec : EqDecision Ipv4Addr.
Proof. solve_decision. Defined.
#[global] Instance ipaddr_eq_dec : EqDecision IpAddr.
Proof. solve_decision. Defined.

(** [u32::from] *)
Definition u32_of (ip : Ipv4Addr) : N :=
  oct0 ip * 16777216 + oct1 ip * 65536 + oct2 ip * 256 + oct3 ip.
Definition ipv4_ok (ip : Ipv4Addr) : Prop := oct0 ip < 256 ∧ oct1 ip < 256 ∧ oct2 ip < 256 ∧ oct3 ip < 256.
Definition ipv6_ok (ip : Ipv6Addr) : Prop := length ip = 8%nat ∧ Forall (λ s, s < 65536) ip.
Definition ip_ok (ip : IpAddr) : Prop := match ip with V4 ip => ipv4_ok ip | V6 ip => ipv6_ok ip end.

(** ** Parsing *)

(** A parser consumes a prefix or fails without consuming. *)
Definition parser (A : Type) : Type := rstr → option (A * rstr).

(** [char::to_digit(radix)] *)
Definition to_digit (radix : N) (c : rchar) : option N :=
  let d := if (48 <=? c) && (c <=? 57) then Some (c - 48)
           else if (97 <=? c) && (c <=? 122) then Some (c - 87)
           else if (65 <=? c) && (c <=? 90) then Some (c - 55)
           else None in
  d ← d; if d <? radix then Some d else None.

(** The digits, at most [fuel] of them; [None] when there is one more. *)
Fixpoint read_digits (fuel : nat) (radix acc : N) (count : nat) (s : rstr) : option (N * nat * rstr) :=
  match s with
  | c :: s' =>
      match to_digit radix c with
      | Some d =>
          match fuel with
          | 0%nat => None
          | S fuel => read_digits fuel radix (acc * radix + d) (S count) s'
          end
      | None => Some (acc, count, s)
      end
  | [] => Some (acc, count, s)
  end.
(** [read_number(radix, Some(max_digits), allow_zero_prefix)] with the bound of
    the result type *)
Definition read_number (radix : N) (max_digits : nat) (allow_zero_prefix : bool) (bound : N) : parser N :=
  λ s,
    let has_leading_zero := bool_decide (head s = Some 48) in
    '(result, digit_count, rest) ← read_digits max_digits radix 0 0 s;
    if (digit_count =? 0)%nat then None
    else if negb allow_zero_prefix && has_leading_zero && (1 <? digit_count)%nat then None
    else if result <? bound then Some (result, rest) else None.

Definition read_given_char (c : rchar) : parser unit :=
  λ s, match s with x :: s' => if x =? c then Some ((), s') else None | [] => None end.
Definition read_separator {A} (sep : rchar) (index : nat) (inner : parser A) : parser A :=
  λ s, match index with
       | 0%nat => inner s
       | S _ => '(_, s) ← read_given_char sep s; inner s
       end.

Definition read_octet (index : nat) : parser N := read_separator 46 index (read_number 10 3 false 256).
Definition read_ipv4_addr : parser Ipv4Addr :=
  λ s,
    '(a, s) ← read_octet 0 s;
    '(b, s) ← read_octet 1 s;
    '(c, s) ← read_octet 2 s;
    '(d, s) ← read_octet 3 s;
    Some (V4Addr a b c d, s).

(** [read_groups]: [slots] groups are left of [limit], starting with group [i].
    The result is the groups and whether an IPv4 address ended them. *)
Fixpoint read_groups (slots i limit : nat) (s : rstr) : list N * bool * rstr :=
  match slots with
  | 0%nat => ([], false, s)
  | S slots' =>
      let ipv4 := if (i <? limit - 1)%nat then read_separator 58 i read_ipv4_addr s else None in
      match ipv4 with
      | Some (v4, s') => ([oct0 v4 * 256 + oct1 v4; oct2 v4 * 256 + oct3 v4], true, s')
      | None =>
          match read_separator 58 i (read_number 16 4 true 65536) s with
          | Some (group, s') =>
              let '(groups, b, rest) := read_groups slots' (S i) limit s' in (group :: groups, b, rest)
          | None => ([], false, s)
          end
      end
  end.

Definition read_ipv6_addr : parser Ipv6Addr :=
  λ s,
    let '(head, head_ipv4, s) := read_groups 8 0 8 s in
    if (length head =? 8)%nat then Some (head, s)
    else if head_ipv4 then None
    else
      '(_, s) ← read_given_char 58 s;
      '(_, s) ← read_given_char 58 s;
      let limit := (8 - (length head + 1))%nat in
      let '(tail, _, s) := read_groups limit 0 limit s in
      Some (head ++ replicate (8 - length head - length tail) 0 ++ tail, s).

(** [str::parse::<IpAddr>()]: the whole input has to be read. *)
Definition read_ip_addr (s : rstr) : option (IpAddr * rstr) :=
  match read_ipv4_addr s with
  | Some (ip, s) => Some (V4 ip, s)
  | None => '(ip, s) ← read_ipv6_addr s; Some (V6 ip, s)
  end.
Definition parse_ip (s : rstr) : option IpAddr :=
  match read_ip_addr s with Some (ip, []) => Some ip | _ => None end.

(** ** Classification *)

Definition LOCALHOST_V4 : Ipv4Addr := V4Addr 127 0 0 1.
Definition LOCALHOST_V6 : Ipv6Addr := [0; 0; 0; 0; 0; 0; 0; 1].

Definition v4_is_loopback (ip : Ipv4Addr) : bool := oct0 ip =? 127.
Definition v4_is_private (ip : Ipv4Addr) : bool :=
  (oct0 ip =? 10)
  || ((oct0 ip =? 172) && (16 <=? oct1 ip) && (oct1 ip <=? 31))
  || ((oct0 ip =? 192) && (oct1 ip =? 168)).
Definition v4_is_link_local (ip : Ipv4Addr) : bool := (oct0 ip =? 169) && (oct1 ip =? 254).
Definition v4_is_unspecified (ip : Ipv4Addr) : bool := u32_of ip =? 0.
Definition v4_is_multicast (ip : Ipv4Addr) : bool := (224 <=? oct0 ip) && (oct0 ip <=? 239).
Definition v4_is_broadcast (ip : Ipv4Addr) : bool := u32_of ip =? 4294967295.

(** [to_ipv4]: the compatible and the mapped form *)
Definition to_ipv4 (ip : Ipv6Addr) : option Ipv4Addr :=
  match ip with
  | [0; 0; 0; 0; 0; s; ab; cd] =>
      if (s =? 0) || (s =? 65535)
      then Some (V4Addr (ab / 256) (ab mod 256) (cd / 256) (cd mod 256))
      else None
  | _ => None
  end.
Definition segment0 (ip : Ipv6Addr) : N := default 0 (head ip).
Definition v6_is_loopback (ip : Ipv6Addr) : bool := bool_decide (ip = LOCALHOST_V6).
Definition v6_is_unspecified (ip : Ipv6Addr) : bool := bool_decide (ip = replicate 8 0).
Definition v6_is_multicast (ip : Ipv6Addr) : bool := N.land (segment0 ip) 65280 =? 65280.
Definition v6_is_unique_local (ip : Ipv6Addr) : bool := N.land (segment0 ip) 65024 =? 64512.
Definition v6_is_unicast_link_local (ip : Ipv6Addr) : bool := N.land (segment0 ip) 65472 =? 65152.
Definition ip_is_loopback (ip : IpAddr) : bool :=
  match ip with V4 ip => v4_is_loopback ip | V6 ip => v6_is_loopback ip end.

Example parse_v4 : parse_ip (str "192.168.0.1") = Some (V4 (V4Addr 192 168 0 1)).
Proof. vm_compute. reflexivity. Qed.
Example parse_v4_octal : parse_ip (str "192.168.00.1") = None.
Proof. vm_compute. reflexivity. Qed.
Example parse_v4_range : parse_ip (str "256.0.0.1") = None.
Proof. vm_compute. reflexivity. Qed.
Example parse_v6_mapped :
  parse_ip (str "::ffff:10.0.0.1") = Some (V6 [0; 0; 0; 0; 0; 65535; 2560; 1]).
Proof. vm_compute. reflexivity. Qed.
Example parse_v6_middle :
  parse_ip (str "fe80::1:2") = Some (V6 [65152; 0; 0; 0; 0; 0; 1; 2]).
Proof. vm_compute. reflexivity. Qed.
Example parse_v6_full :
  parse_ip (str "1:2:3:4:5:6:7:8") = Some (V6 [1; 2; 3; 4; 5; 6; 7; 8]).
Proof. vm_compute. reflexivity. Qed.
Example parse_v6_nothing_elided : parse_ip (str "1:2:3:4:5:6:7::8") = None.
Proof. vm_compute. reflexivity. Qed.
Example parse_v6_scope : parse_ip (str "fe80::1%eth0") = None.
Proof. vm_compute. reflexivity. Qed.

(** ** An address literal has no [%] *)

#[local] Close Scope N_scope.


(** A parser reads a prefix without [%]. *)
Definition reads (s rest : rstr) : Prop := ∃ pre, s = pre ++ rest ∧ 37%N ∉ pre.
Definition plain_parser {A} (p : parser A) : Prop := ∀ s a rest, p s = Some (a, rest) → reads s rest.

Lemma reads_refl s : reads s s.
Proof. exists []. split; [done|apply not_elem_of_nil]. Qed.
Lemma reads_trans s t u : reads s t → reads t u → reads s u.
Proof.
  intros (p & -> & Hp) (q & -> & Hq). exists (p ++ q). rewrite (assoc_L app). split; [done|].
  by rewrite not_elem_of_app.
Qed.
Lemma reads_cons c s : c ≠ 37%N → reads (c :: s) s.
Proof. intros Hc. exists [c]. split; [done|]. by apply not_elem_of_cons; split; [|apply not_elem_of_nil]. Qed.
#[local] Hint Resolve reads_refl reads_cons : core.

Lemma to_digit_char radix c d : to_digit radix c = Some d → c ≠ 37%N.
Proof. intros E ->. by vm_compute in E. Qed.
Lemma read_digits_reads fuel radix acc n s r m rest :
  read_digits fuel radix acc n s = Some (r, m, rest) → reads s rest.
Proof.
  revert acc n s. induction fuel as [|fuel IH]; intros acc n [|c s]; simpl;
    [by intros [= _ _ <-]| |by intros [= _ _ <-]|].
  - destruct (to_digit radix c); [done|]. by intros [= _ _ <-].
  - destruct (to_digit radix c) eqn:E; [|by intros [= _ _ <-]]. intros Hd%IH.
    eapply reads_trans; [|done]. by apply reads_cons, (to_digit_char radix c n0).
Qed.
Lemma read_number_plain radix n z b : plain_parser (read_number radix n z b).
Proof.
  intros s a rest. unfold read_number. destruct (read_digits _ _ _ _ s) as [[[r m] rest']|] eqn:E; [|done]. simpl.
  repeat case_match; try done. intros [= _ <-]. by eapply read_digits_reads.
Qed.
Lemma read_given_char_plain c : c ≠ 37%N → plain_parser (read_given_char c).
Proof.
  intros Hc [|x s] a rest; simpl; [done|]. destruct (N.eqb_spec x c) as [->|]; [|done].
  intros [= _ <-]. by apply reads_cons.
Qed.
Lemma read_separator_plain {A} c i (p : parser A) : c ≠ 37%N → plain_parser p → plain_parser (read_separator c i p).
Proof.
  intros Hc Hp s a rest. unfold read_separator. destruct i; [apply Hp|].
  destruct (read_given_char c s) as [[u s']|] eqn:E; [|done]. simpl. intros Hr%Hp.
  eapply reads_trans; [|done]. by eapply read_given_char_plain.
Qed.
Lemma read_octet_plain i : plain_parser (read_octet i).
Proof. apply read_separator_plain; [done|]. apply read_number_plain. Qed.
Lemma read_ipv4_plain : plain_parser read_ipv4_addr.
Proof.
  intros s a rest. unfold read_ipv4_addr.
  destruct (read_octet 0 s) as [[o0 s0]|] eqn:E0; [|done]. cbn [mbind option_bind].
  destruct (read_octet 1 s0) as [[o1 s1]|] eqn:E1; [|done]. cbn [mbind option_bind].
  destruct (read_octet 2 s1) as [[o2 s2]|] eqn:E2; [|done]. cbn [mbind option_bind].
  destruct (read_octet 3 s2) as [[o3 s3]|] eqn:E3; [|done]. cbn [mbind option_bind]. intros [= _ <-].
  apply read_octet_plain in E0, E1, E2, E3. eauto using reads_trans.
Qed.
Lemma read_groups_reads slots i limit s gs b rest : read_groups slots i limit s = (gs, b, rest) → reads s rest.
Proof.
  revert i s gs b. induction slots as [|slots IH]; intros i s gs b; simpl; [by intros [= _ _ <-]|].
  destruct (if i <? limit - 1 then _ else _) as [[v4 s']|] eqn:E4.
  - intros [= _ _ <-]. destruct (i <? limit - 1); [|done].
    by apply (read_separator_plain 58 i _ ltac:(done) read_ipv4_plain) in E4.
  - destruct (read_separator 58 i (read_number 16 4 true 65536) s) as [[g s']|] eqn:Eg; [|intros; by simplify_eq].
    destruct (read_groups slots (S i) limit s') as [[gs' b'] rest'] eqn:Er. intros [= _ _ <-].
    apply IH in Er. eapply reads_trans; [|done].
    by apply (read_separator_plain 58 i _ ltac:(done) (read_number_plain 16 4 true 65536)) in Eg.
Qed.
Lemma read_ipv6_plain : plain_parser read_ipv6_addr.
Proof.
  intros s a rest. unfold read_ipv6_addr.
  destruct (read_groups 8 0 8 s) as [[head hb] s0] eqn:E0. apply read_groups_reads in E0.
  case_match; [by intros [= _ <-]|]. case_match; [done|].
  destruct (read_given_char 58 s0) as [[u1 s1]|] eqn:E1; [|done]. simpl.
  destruct (read_given_char 58 s1) as [[u2 s2]|] eqn:E2; [|done]. simpl.
  destruct (read_groups _ 0 _ s2) as [[tail tb] s3] eqn:E3. intros [= _ <-].
  apply read_given_char_plain in E1, E2; [|done..]. apply read_groups_reads in E3. eauto using reads_trans.
Qed.
Lemma parse_ip_plain s ip : parse_ip s = Some ip → 37%N ∉ s.
Proof.
  unfold parse_ip, read_ip_addr. intros Hp.
  assert (reads s []) as (pre & -> & Hpre); [|by rewrite app_nil_r].
  destruct (read_ipv4_addr s) as [[v4 rest]|] eqn:E4.
  - destruct rest; [|done]. by apply read_ipv4_plain in E4.
  - destruct (read_ipv6_addr s) as [[v6 rest]|] eqn:E6; [|done]. simpl in Hp.
    destruct rest; [|done]. by apply read_ipv6_plain in E6.
Qed.
Lemma split_once_plain c s : c ∉ s → split_once c s = None.
Proof.
  induction s as [|x s IH]; [done|]. intros [Hx Hs]%not_elem_of_cons. simpl.
  destruct (N.eqb_spec x c); [congruence|]. by rewrite IH.
Qed.
