(* ===== verification/NetworkPolicy.v ===== *)
(** The network policy of the sandbox proxy: [network-proxy/src/policy.rs].

    Glob sets are those of the crate [globset] and hosts in constraints are parsed
    by the crate [url]: an interface each. *)

From S2P Require Import Prelude IpAddr.
#[local] Opaque str.

(** ** Interfaces *)

(** [GlobBuilder::new(p).case_insensitive(true).build()] and matching, and
    [url::Host::parse] printed back *)
Class HostTools := {
  glob_valid : rstr → bool;
  glob_match : rstr → rstr → bool;
  url_host : rstr → option rstr;
}.

Section policy.
Context `{HostTools}.

(** ** Addresses *)

Definition u32_max : N := 4294967295.
Definition ipv4_in_cidr (ip base : Ipv4Addr) (prefix : N) : bool :=
  let mask := if (prefix =? 0)%N then 0%N
              else N.land (N.shiftl u32_max (32 - prefix)) u32_max in
  (N.land (u32_of ip) mask =? N.land (u32_of base) mask)%N.

Definition is_non_public_ipv4 (ip : Ipv4Addr) : bool :=
  v4_is_loopback ip || v4_is_private ip || v4_is_link_local ip || v4_is_unspecified ip
  || v4_is_multicast ip || v4_is_broadcast ip
  || ipv4_in_cidr ip (V4Addr 0 0 0 0) 8
  || ipv4_in_cidr ip (V4Addr 100 64 0 0) 10
  || ipv4_in_cidr ip (V4Addr 192 0 0 0) 24
  || ipv4_in_cidr ip (V4Addr 192 0 2 0) 24
  || ipv4_in_cidr ip (V4Addr 198 18 0 0) 15
  || ipv4_in_cidr ip (V4Addr 198 51 100 0) 24
  || ipv4_in_cidr ip (V4Addr 203 0 113 0) 24
  || ipv4_in_cidr ip (V4Addr 240 0 0 0) 4.

Definition is_non_public_ipv6 (ip : Ipv6Addr) : bool :=
  match to_ipv4 ip with
  | Some v4 => is_non_public_ipv4 v4 || v6_is_loopback ip
  | None =>
      v6_is_loopback ip || v6_is_unspecified ip || v6_is_multicast ip || v6_is_unique_local ip
      || v6_is_unicast_link_local ip
  end.

Definition is_non_public_ip (ip : IpAddr) : bool :=
  match ip with V4 ip => is_non_public_ipv4 ip | V6 ip => is_non_public_ipv6 ip end.

(** ** Hosts *)

Definition trim_end_dots (s : rstr) : rstr := trim_end_by (λ c, (c =? 46)%N) s.

(** [str::split_once] at a string *)
Definition split_once_str (delim s : rstr) : option (rstr * rstr) :=
  (λ i, (take i s, drop (i + length delim) s)) <$> find_sub delim s.

Definition normalize_ip_literal (host : rstr) : option rstr :=
  let scoped (delim : rstr) :=
    '(ip, scope) ← split_once_str delim host;
    if parse_ip ip then Some (ip ++ str "%" ++ scope) else None in
  if parse_ip host then Some host
  else match scoped (str "%25") with
       | Some h => Some h
       | None => scoped (str "%")
       end.

Definition normalize_dns_host_or_ip_literal (host : rstr) : rstr :=
  let host := trim_end_dots (to_ascii_lowercase host) in
  default host (normalize_ip_literal host).

Definition colons (s : rstr) : nat := length (filter (λ c, c = 58%N) s).

Definition normalize_host (host : rstr) : rstr :=
  let host := trim host in
  match starts_with host (str "["), find_sub (str "]") host with
  | true, Some e => normalize_dns_host_or_ip_literal (take (e - 1) (drop 1 host))
  | _, _ =>
      if colons host =? 1
      then normalize_dns_host_or_ip_literal (default [] (head (split_char 58%N host)))
      else normalize_dns_host_or_ip_literal host
  end.

(** [Host::parse] *)
Definition host_parse (input : rstr) : option rstr :=
  let normalized := normalize_host input in
  if is_empty normalized then None else Some normalized.

Definition unscoped_ip_literal (host : rstr) : option rstr :=
  '(ip, _) ← split_once 37%N host;
  _ ← parse_ip ip;
  Some ip.

Definition is_loopback_host (host : rstr) : bool :=
  let host := default host (unscoped_ip_literal host) in
  if str_eqb host (str "localhost") then true
  else match parse_ip host with Some ip => ip_is_loopback ip | None => false end.

Definition is_default_proxy_bypass_host (host : rstr) : bool :=
  let host := normalize_host host in
  match parse_ip host with
  | Some (V4 ip) => bool_decide (ip = LOCALHOST_V4) || v4_is_private ip
  | Some (V6 ip) => bool_decide (ip = LOCALHOST_V6)
  | None => str_eqb host (str "localhost") || ends_with host (str ".localhost")
  end.

(** ** Domain patterns *)

Inductive DomainPattern :=
| ApexAndSubdomains (domain : rstr)
| SubdomainsOnly (domain : rstr)
| Exact (domain : rstr).

Definition parse_domain (domain : rstr) (build : rstr → DomainPattern) : DomainPattern :=
  let domain := trim domain in if is_empty domain then Exact [] else build domain.

Definition domain_parse (input : rstr) : DomainPattern :=
  let input := trim input in
  if is_empty input then Exact []
  else match strip_prefix (str "**.") input with
       | Some domain => parse_domain domain ApexAndSubdomains
       | None =>
           match strip_prefix (str "*.") input with
           | Some domain => parse_domain domain SubdomainsOnly
           | None => Exact input
           end
       end.

Definition parse_domain_for_constraints (domain : rstr) : rstr :=
  let domain := trim_end_dots (trim domain) in
  if is_empty domain then []
  else
    let host := if starts_with domain (str "[") && ends_with domain (str "]")
                then take (length domain - 1 - 1) (drop 1 domain) else domain in
    if contains_char 42%N host || contains_char 63%N host || contains_char 37%N host then domain
    else default [] (url_host host).

Definition parse_for_constraints (input : rstr) : DomainPattern :=
  let input := trim input in
  if is_empty input then Exact []
  else match strip_prefix (str "**.") input with
       | Some domain => ApexAndSubdomains (parse_domain_for_constraints domain)
       | None =>
           match strip_prefix (str "*.") input with
           | Some domain => SubdomainsOnly (parse_domain_for_constraints domain)
           | None => Exact (parse_domain_for_constraints input)
           end
       end.

Definition normalize_domain (domain : rstr) : rstr := to_ascii_lowercase (trim_end_dots domain).
Definition domain_eq (l r : rstr) : bool := str_eqb (normalize_domain l) (normalize_domain r).
Definition is_subdomain_or_equal (child parent : rstr) : bool :=
  let child := normalize_domain child in
  let parent := normalize_domain parent in
  if str_eqb child parent then true else ends_with child (str "." ++ parent).
Definition is_strict_subdomain (child parent : rstr) : bool :=
  let child := normalize_domain child in
  let parent := normalize_domain parent in
  negb (str_eqb child parent) && ends_with child (str "." ++ parent).

Definition allows (self candidate : DomainPattern) : bool :=
  match self, candidate with
  | Exact domain, Exact candidate => domain_eq candidate domain
  | Exact _, _ => false
  | SubdomainsOnly domain, Exact candidate => is_strict_subdomain candidate domain
  | SubdomainsOnly domain, SubdomainsOnly candidate => is_subdomain_or_equal candidate domain
  | SubdomainsOnly domain, ApexAndSubdomains candidate => is_strict_subdomain candidate domain
  | ApexAndSubdomains domain, (Exact candidate | SubdomainsOnly candidate | ApexAndSubdomains candidate) =>
      is_subdomain_or_equal candidate domain
  end.

Definition expand_domain_pattern (pattern : rstr) : list rstr :=
  match domain_parse pattern with
  | Exact domain => [domain]
  | SubdomainsOnly domain => [str "?*." ++ domain]
  | ApexAndSubdomains domain => [domain; str "?*." ++ domain]
  end.

Definition normalize_pattern (pattern : rstr) : rstr :=
  let pattern := trim pattern in
  if str_eqb pattern (str "*") then str "*"
  else match strip_prefix (str "**.") pattern with
       | Some domain => str "**." ++ normalize_host domain
       | None =>
           match strip_prefix (str "*.") pattern with
           | Some domain => str "*." ++ normalize_host domain
           | None => normalize_host pattern
           end
       end.

Definition is_global_wildcard_domain_pattern (pattern : rstr) : bool :=
  existsb (λ candidate, str_eqb candidate (str "*")) (expand_domain_pattern (normalize_pattern pattern)).

Inductive GlobalWildcard := AllowWildcard | RejectWildcard.
Inductive GlobSetError := UnsupportedGlobalWildcard | InvalidGlob (candidate : rstr).

(** The candidates of one pattern: those not seen before, when they are valid *)
Fixpoint add_candidates (seen : list rstr) (candidates : list rstr) : result GlobSetError (list rstr) :=
  match candidates with
  | [] => Ok seen
  | c :: cs =>
      if bool_decide (c ∈ seen) then add_candidates seen cs
      else if glob_valid c then add_candidates (seen ++ [c]) cs
      else Err (InvalidGlob c)
  end.
Fixpoint compile_patterns (wildcard : GlobalWildcard) (seen : list rstr) (patterns : list rstr)
    : result GlobSetError (list rstr) :=
  match patterns with
  | [] => Ok seen
  | p :: ps =>
      if match wildcard with RejectWildcard => is_global_wildcard_domain_pattern p | AllowWildcard => false end
      then Err UnsupportedGlobalWildcard
      else seen ← add_candidates seen (expand_domain_pattern (normalize_pattern p));
           compile_patterns wildcard seen ps
  end.
Definition compile_allowlist_globset (patterns : list rstr) := compile_patterns AllowWildcard [] patterns.
Definition compile_denylist_globset (patterns : list rstr) := compile_patterns RejectWildcard [] patterns.

(** [GlobSet::is_match] *)
Definition is_match (set : list rstr) (host : rstr) : bool := existsb (λ g, glob_match g host) set.
End policy.
