(* ===== verification/AuthorizationPath.v ===== *)
(** Paths that mean the same before and after decoding:
    [network-proxy/src/authorization_path.rs]. *)

From S2P Require Import Prelude Utf8.
#[local] Opaque str.

(** ** The code *)

Definition decode_hex_digit (byte : N) : option N :=
  (if (48 <=? byte) && (byte <=? 57) then Some (byte - 48)
   else if (97 <=? byte) && (byte <=? 102) then Some (byte - 97 + 10)
   else if (65 <=? byte) && (byte <=? 70) then Some (byte - 65 + 10)
   else None)%N.
Definition decoded_byte (high low : N) : N := N.lor (N.shiftl high 4) low.

Fixpoint segment_loop (bytes : list N) (decoded_dots : nat) (has_non_dot : bool) : bool :=
  match bytes with
  | [] => has_non_dot || negb ((decoded_dots =? 1) || (decoded_dots =? 2))
  | b :: rest =>
      if (b =? 46)%N then segment_loop rest (S decoded_dots) has_non_dot
      else if (b =? 92)%N then false
      else if (b =? 37)%N then
        match rest with
        | h :: l :: rest =>
            match decode_hex_digit h, decode_hex_digit l with
            | Some high, Some low =>
                let decoded := decoded_byte high low in
                if ((decoded =? 37) || (decoded =? 47) || (decoded =? 92))%N then false
                else if (decoded =? 46)%N then segment_loop rest (S decoded_dots) has_non_dot
                else segment_loop rest decoded_dots true
            | _, _ => false
            end
        | _ => false
        end
      else segment_loop rest decoded_dots true
  end.
Definition is_safe_segment_for_authorization (segment : rstr) : bool :=
  segment_loop (utf8 segment) 0 false.
Definition is_safe_for_authorization (path : rstr) : bool :=
  forallb is_safe_segment_for_authorization (split_char 47%N path).

(** ** What an upstream server may do with the path *)

(** Percent decoding; [None] when a [%] is not followed by two hexadecimal digits *)
Fixpoint percent_decode (bytes : list N) : option (list N) :=
  match bytes with
  | [] => Some []
  | b :: rest =>
      if (b =? 37)%N then
        match rest with
        | h :: l :: rest =>
            high ← decode_hex_digit h; low ← decode_hex_digit l;
            cons (decoded_byte high low) <$> percent_decode rest
        | _ => None
        end
      else cons b <$> percent_decode rest
  end.

(** Induction along an encoded text *)
Lemma percent_ind (P : list N → Prop) :
  P [] → (∀ b rest, b ≠ 37%N → P rest → P (b :: rest)) →
  (∀ h l rest, P rest → P (37 :: h :: l :: rest)%N) → (∀ rest, length rest < 2 → P (37 :: rest)%N) →
  ∀ bytes, P bytes.
Proof.
  intros H0 H1 H2 H3 bytes. remember (length bytes) as n eqn:Hn. revert bytes Hn.
  induction (lt_wf n) as [n _ IH]. intros [|b rest] ->; [done|].
  destruct (decide (b = 37%N)) as [->|Hb]; [|by apply H1, (IH (length rest)); [done|simpl; lia|]].
  destruct rest as [|h [|l rest]]; [apply H3; simpl; lia..|].
  apply H2, (IH (length rest)); [simpl; lia|done].
Qed.

(** ** Splitting *)

Lemma split_char_prefix c l s w ws :
  c ∉ l → split_char c s = w :: ws → split_char c (l ++ s) = (l ++ w) :: ws.
Proof.
  induction l as [|x l IH]; intros Hc Hs; simpl; [done|].
  apply not_elem_of_cons in Hc as [Hx Hc]. rewrite IH by done.
  destruct (N.eqb_spec x c); [congruence|done].
Qed.
Lemma utf8_char_ascii c d : (c < 128)%N → c ∈ utf8_char d → d = c.
Proof.
  intros Hc. unfold utf8_char.
  assert (∀ x, ¬ (128 + x < 128)%N ∧ ¬ (192 + x < 128)%N ∧ ¬ (224 + x < 128)%N ∧ ¬ (240 + x < 128)%N) as Hhigh
    by lia.
  repeat case_match; rewrite !elem_of_cons, ?elem_of_nil; intros Hin; naive_solver.
Qed.
(** Splitting at an ASCII character and encoding commute. *)
Lemma utf8_split c s : (c < 128)%N → utf8 <$> split_char c s = split_char c (utf8 s).
Proof.
  intros Hc. induction s as [|x s IH]; [done|]. rewrite utf8_cons_eq. simpl.
  destruct (split_char_cons c s) as (w & ws & E). rewrite E in *.
  destruct (N.eqb_spec x c) as [->|Hx].
  - assert (utf8_char c = [c]) as ->. { unfold utf8_char. by apply N.ltb_lt in Hc as ->. }
    simpl. rewrite N.eqb_refl. by rewrite <-IH.
  - symmetry. rewrite (split_char_prefix c (utf8_char x) (utf8 s) (utf8 w) (utf8 <$> ws)).
    + by rewrite fmap_cons, utf8_cons_eq.
    + intros Hin%utf8_char_ascii; done.
    + by rewrite <-IH.
Qed.

Definition count (c : N) (s : list N) : nat := length (filter (λ x, x = c) s).
Lemma occurrences_app c s t : count c (s ++ t) = count c s + count c t.
Proof. unfold count. by rewrite filter_app, length_app. Qed.
Lemma count_0 c s : count c s = 0 ↔ c ∉ s.
Proof.
  unfold count. induction s as [|x s IH]; [split; [intros _; apply not_elem_of_nil|done]|].
  rewrite filter_cons, not_elem_of_cons. case_decide as E; simpl; [naive_solver|].
  rewrite IH. naive_solver.
Qed.
Lemma split_char_length c s : length (split_char c s) = S (count c s).
Proof.
  induction s as [|x s IH]; [done|]. simpl. unfold count in *. rewrite filter_cons.
  destruct (split_char_cons c s) as (w & ws & E). rewrite E in *.
  destruct (N.eqb_spec x c); [rewrite decide_True by done|rewrite decide_False by done]; simpl in *; lia.
Qed.
Lemma count_join c ls : ls ≠ [] → S (count c (join [c] ls)) = length ls + sum_list (count c <$> ls).
Proof.
  induction ls as [|l [|l' ls] IH]; [done|simpl; lia|]. intros _.
  rewrite join_cons, !occurrences_app by done. specialize (IH ltac:(done)).
  assert (count c [c] = 1) as -> by (unfold count; by rewrite filter_cons_True).
  rewrite !fmap_cons in *. simpl in *. lia.
Qed.
Lemma sum_counts_0 c ls : sum_list (count c <$> ls) = 0 ↔ Forall (λ l, c ∉ l) ls.
Proof.
  induction ls as [|l ls IH]; [done|]. rewrite fmap_cons, Forall_cons, <-IH, <-count_0. simpl. lia.
Qed.
Lemma join_split_length c ls :
  ls ≠ [] → length (split_char c (join [c] ls)) = length ls ↔ Forall (λ l, c ∉ l) ls.
Proof. intros Hne. rewrite split_char_length, count_join, <-sum_counts_0 by done. lia. Qed.

(** ** Decoding *)

(** A slash ends an encoded segment. *)
Lemma percent_decode_slash a b :
  47%N ∉ a → percent_decode (a ++ 47%N :: b) = da ← percent_decode a; (λ db, da ++ 47%N :: db) <$> percent_decode b.
Proof.
  induction a as [|x a Hx IH|h l a IH|a Ha] using percent_ind; intros Hin.
  - simpl. by destruct (percent_decode b).
  - apply not_elem_of_cons in Hin as [_ Hin]. simpl. apply N.eqb_neq in Hx as ->. rewrite IH by done.
    destruct (percent_decode a); [|done]. simpl. by destruct (percent_decode b).
  - rewrite !not_elem_of_cons in Hin. destruct Hin as (_ & _ & _ & Hin). simpl.
    destruct (decode_hex_digit h); [|done]. destruct (decode_hex_digit l); [|done]. simpl.
    rewrite IH by done. destruct (percent_decode a); [|done]. simpl. by destruct (percent_decode b).
  - destruct a as [|y [|z a]]; [| |simpl in Ha; lia]; simpl.
    + by destruct b as [|? ?].
    + by destruct (decode_hex_digit y).
Qed.
Lemma percent_decode_join segs :
  segs ≠ [] → Forall (λ s, 47%N ∉ s) segs →
  percent_decode (join [47%N] segs) = join [47%N] <$> mapM percent_decode segs.
Proof.
  induction segs as [|s [|s' segs] IH]; [done| |].
  - intros _ _. simpl. by destruct (percent_decode s).
  - intros _ [Hs Hf]%Forall_cons. rewrite join_cons by done. cbn [app]. rewrite percent_decode_slash by done.
    rewrite IH by done. cbn [mapM]. destruct (percent_decode s) as [ds|]; [|done]. simpl.
    destruct (percent_decode s') as [ds'|]; [|done]. simpl.
    destruct (mapM percent_decode segs) as [dss|]; [|done]. done.
Qed.

(** ** Segments *)

(** A decoded segment that no server reads differently *)
Definition plain_segment (d : list N) : Prop :=
  37%N ∉ d ∧ 92%N ∉ d ∧ 47%N ∉ d ∧ d ≠ [46%N] ∧ d ≠ [46%N; 46%N].

(** The rest [d] of a decoded segment after [dots] dots, [nd] when something else
    than dots came before *)
Definition plain_rest (dots : nat) (nd : bool) (d : list N) : Prop :=
  37%N ∉ d ∧ 92%N ∉ d ∧ 47%N ∉ d
  ∧ (nd = true ∨ (∃ x, x ∈ d ∧ x ≠ 46%N) ∨ (dots + length d ≠ 1 ∧ dots + length d ≠ 2)).
Lemma plain_rest_cons x dots nd d :
  plain_rest dots nd (x :: d)
  ↔ x ≠ 37%N ∧ x ≠ 92%N ∧ x ≠ 47%N ∧ (if decide (x = 46%N) then plain_rest (S dots) nd d else plain_rest dots true d).
Proof.
  unfold plain_rest. rewrite !not_elem_of_cons.
  assert ((∃ y, y ∈ x :: d ∧ y ≠ 46%N) ↔ x ≠ 46%N ∨ ∃ y, y ∈ d ∧ y ≠ 46%N) as ->.
  { setoid_rewrite elem_of_cons. naive_solver. }
  simpl. rewrite Nat.add_succ_r. case_decide; naive_solver.
Qed.
Lemma plain_rest_nil dots nd :
  plain_rest dots nd [] ↔ nd || negb ((dots =? 1) || (dots =? 2)) = true.
Proof.
  unfold plain_rest. simpl. rewrite Nat.add_0_r, orb_true_iff, negb_true_iff, orb_false_iff, !Nat.eqb_neq.
  split; [|intros Hd; repeat split; try apply not_elem_of_nil; naive_solver].
  intros (_ & _ & _ & [?|[(x & []%elem_of_nil & _)|?]]); auto.
Qed.
Lemma plain_segment_rest d : plain_segment d ↔ plain_rest 0 false d.
Proof.
  unfold plain_segment, plain_rest. simpl.
  assert (d ≠ [46%N] ∧ d ≠ [46%N; 46%N] ↔ (∃ x, x ∈ d ∧ x ≠ 46%N) ∨ length d ≠ 1 ∧ length d ≠ 2) as Hd; [|naive_solver].
  destruct (decide (Forall (λ x, x = 46%N) d)) as [Hf|Hf].
  - assert (d = replicate (length d) 46%N) as Hd.
    { symmetry. apply replicate_as_elem_of. split; [done|]. by apply Forall_forall. }
    rewrite Forall_forall in Hf.
    transitivity (length d ≠ 1 ∧ length d ≠ 2); [|naive_solver].
    destruct d as [|x [|y [|z d]]]; simpl in *; naive_solver.
  - apply not_Forall_Exists, Exists_exists in Hf as (x & Hx & Hne); [|apply _].
    split; [intros _; left; by exists x|]. intros _. split; intros ->; set_solver.
Qed.

Definition decodes_plain (dots : nat) (nd : bool) (m : option (list N)) : Prop :=
  ∃ d, m = Some d ∧ plain_rest dots nd d.
Lemma decodes_plain_cons x dots nd m :
  decodes_plain dots nd (cons x <$> m)
  ↔ x ≠ 37%N ∧ x ≠ 92%N ∧ x ≠ 47%N
    ∧ (if decide (x = 46%N) then decodes_plain (S dots) nd m else decodes_plain dots true m).
Proof.
  unfold decodes_plain. destruct m as [d|]; simpl.
  - split.
    + intros (? & [= <-] & Hp). apply plain_rest_cons in Hp. case_decide; naive_solver.
    + intros Hp. exists (x :: d). split; [done|]. apply plain_rest_cons. case_decide; naive_solver.
  - split; [naive_solver|]. case_decide; naive_solver.
Qed.

Lemma segment_loop_spec bytes dots nd :
  47%N ∉ bytes → segment_loop bytes dots nd = true ↔ decodes_plain dots nd (percent_decode bytes).
Proof.
  revert dots nd. induction bytes as [|x bytes Hx IH|h l bytes IH|bytes Hb] using percent_ind; intros dots nd Hin.
  - simpl. rewrite <-plain_rest_nil. unfold decodes_plain. naive_solver.
  - apply not_elem_of_cons in Hin as [Hs Hin]. cbn [segment_loop percent_decode].
    destruct (N.eqb_spec x 37); [done|]. rewrite decodes_plain_cons.
    destruct (N.eqb_spec x 46), (N.eqb_spec x 92), (decide (x = 46%N)); subst; naive_solver.
  - rewrite !not_elem_of_cons in Hin. destruct Hin as (_ & _ & _ & Hin). cbn [segment_loop percent_decode].
    change (37 =? 37)%N with true. change (37 =? 46)%N with false. change (37 =? 92)%N with false. cbv iota.
    destruct (decode_hex_digit h) as [high|]; [|unfold decodes_plain; naive_solver].
    destruct (decode_hex_digit l) as [low|]; [|unfold decodes_plain; naive_solver].
    cbn [mbind option_bind]. rewrite decodes_plain_cons. generalize (decoded_byte high low). intros x.
    destruct (N.eqb_spec x 37), (N.eqb_spec x 47), (N.eqb_spec x 92), (N.eqb_spec x 46), (decide (x = 46%N));
      subst; simpl; naive_solver.
  - unfold decodes_plain. destruct bytes as [|y [|z bytes]]; [| |simpl in Hb; lia]; simpl; naive_solver.
Qed.

Lemma safe_segment_spec segment :
  47%N ∉ utf8 segment →
  is_safe_segment_for_authorization segment = true
  ↔ ∃ d, percent_decode (utf8 segment) = Some d ∧ plain_segment d.
Proof.
  intros Hs. unfold is_safe_segment_for_authorization. rewrite segment_loop_spec by done.
  unfold decodes_plain. by setoid_rewrite plain_segment_rest.
Qed.

(** A path is safe when its segments decode to plain segments. *)
Lemma safe_path_segments path :
  is_safe_for_authorization path = true
  ↔ ∃ ds, mapM percent_decode (split_char 47%N (utf8 path)) = Some ds ∧ Forall plain_segment ds.
Proof.
  unfold is_safe_for_authorization. rewrite <-Is_true_true, forallb_True, <-utf8_split by done.
  assert (Forall (λ p, 47%N ∉ utf8 p) (split_char 47%N path)) as Hp.
  { apply (Forall_fmap utf8 (λ s, 47%N ∉ s)). rewrite utf8_split by done. apply split_char_pieces. }
  induction Hp as [|p ps Hp _ IH]; [by split; [exists []|constructor]|].
  rewrite Forall_cons, IH, Is_true_true, safe_segment_spec by done. rewrite fmap_cons. cbn [mapM].
  destruct (percent_decode (utf8 p)) as [d|]; [|naive_solver]. simpl.
  destruct (mapM percent_decode (utf8 <$> ps)) as [ds|]; [|naive_solver]. simpl.
  split.
  - intros [(? & ? & ?) (? & ? & ?)]. simplify_eq. eexists. split; [done|]. by constructor.
  - intros (? & [= <-] & [? ?]%Forall_cons). split; eauto.
Qed.
Lemma not_elem_of_join x c ls : x ≠ c → x ∉ join [c] ls ↔ Forall (λ l, x ∉ l) ls.
Proof.
  intros Hx. induction ls as [|l [|l' ls] IH].
  - split; [by constructor|intros _; apply not_elem_of_nil].
  - by rewrite Forall_singleton.
  - rewrite join_cons, !not_elem_of_app, IH, (Forall_cons _ l) by done.
    assert (x ∉ [c]) by (by apply not_elem_of_cons; split; [|apply not_elem_of_nil]). naive_solver.
Qed.

(** A path is accepted for authorization exactly when it is unambiguous: its
    escapes decode, the decoded path has no percent sign or backslash left, it
    has as many segments as the path as written, and none of them is [.] or
    [..]. *)
Theorem safe_path_is_unambiguous path :
  is_safe_for_authorization path = true
  ↔ ∃ decoded,
      percent_decode (utf8 path) = Some decoded
      ∧ 37%N ∉ decoded ∧ 92%N ∉ decoded
      ∧ length (split_char 47%N decoded) = length (split_char 47%N (utf8 path))
      ∧ Forall (λ s, s ≠ [46%N] ∧ s ≠ [46%N; 46%N]) (split_char 47%N decoded).
Proof.
  rewrite safe_path_segments. set (raw := split_char 47%N (utf8 path)).
  assert (raw ≠ [] ∧ Forall (λ s, 47%N ∉ s) raw) as [Hne Hraw].
  { destruct (split_char_cons 47 (utf8 path)) as (w & ws & E). split; [unfold raw; by rewrite E|].
    apply split_char_pieces. }
  assert (percent_decode (utf8 path) = join [47%N] <$> mapM percent_decode raw) as ->.
  { rewrite <-percent_decode_join by done. unfold raw. by rewrite join_split. }
  destruct (mapM percent_decode raw) as [ds|] eqn:Eds; [|naive_solver]. simpl.
  assert (length ds = length raw) as Hlen by by apply length_mapM in Eds.
  assert (ds ≠ []) as Hds by by destruct ds, raw.
  split.
  - intros (? & [= <-] & Hp). exists (join [47%N] ds). split; [done|].
    rewrite split_join; [|done|eapply Forall_impl; [done|by intros ? (?&?&?&?)]].
    split_and!; [| |done|eapply Forall_impl; [done|by intros ? (?&?&?&?)]];
      (apply not_elem_of_join; [done|]); (eapply Forall_impl; [done|by intros ? (?&?&?&?)]).
  - intros (? & [= <-] & H37 & H92 & Hl & Hdots). exists ds. split; [done|].
    rewrite <-Hlen, join_split_length in Hl by done.
    rewrite split_join in Hdots by done.
    apply not_elem_of_join in H37, H92; [|done..].
    rewrite Forall_forall in *. intros d Hd. destruct (Hdots d Hd). split_and!; auto.
Qed.

Example safe_paths :
  is_safe_for_authorization (str "/openai/openai/%2e%2e%2e") = true
  ∧ is_safe_for_authorization (str "/openai/openai/%2e%2e/codex") = false
  ∧ is_safe_for_authorization (str "/openai/openai/%252e%252e/codex") = false
  ∧ is_safe_for_authorization (str "/openai/openai/%2") = false.
Proof. repeat split; vm_compute; reflexivity. Qed.
