(* ===== verification/MitmHook.v ===== *)
(** The hooks on intercepted requests: [network-proxy/src/mitm_hook.rs].

    Header names and values, globs and form decoding are those of the crates
    [http], [globset] and [url]; secrets come from the environment and from files. *)

From S2P Require Import Prelude NetworkPolicy AbsolutePath AuthorizationPath.
#[local] Opaque str.

(** ** Interfaces *)

(** [HeaderName::from_bytes] (the name in lower case), [HeaderValue::from_str] and
    [to_str], [GlobBuilder::backslash_escape(true).literal_separator(b)] and
    [form_urlencoded::parse] *)
Class HookTools := {
  header_name : rstr → option rstr;
  header_value : rstr → option (list N);
  header_text : list N → option rstr;
  hook_glob_valid : bool → rstr → bool;
  hook_glob_match : bool → rstr → rstr → bool;
  form_parse : rstr → list (rstr * rstr);
}.

(** ** Configuration *)

(** Maps are in the order of their keys; the body is the text of a JSON value. *)
Record MitmHookMatchConfig := mkHookMatchConfig {
  methods : list rstr;
  path_prefixes : list rstr;
  query : list (rstr * list rstr);
  headers : list (rstr * list rstr);
  body : option rstr;
}.
Record InjectedHeaderConfig := mkInjectedConfig {
  injected_name : rstr;
  secret_env_var : option rstr;
  secret_file : option rstr;
  prefix : option rstr;
}.
Record MitmHookActionsConfig := mkHookActionsConfig {
  strip_request_headers : list rstr;
  inject_request_headers : list InjectedHeaderConfig;
}.
Record MitmHookConfig := mkHookConfig {
  hook_host : rstr;
  hook_match : MitmHookMatchConfig;
  hook_actions : MitmHookActionsConfig;
}.
#[global] Instance hook_match_config_eq_dec : EqDecision MitmHookMatchConfig.
Proof. solve_decision. Defined.
#[global] Instance injected_config_eq_dec : EqDecision InjectedHeaderConfig.
Proof. solve_decision. Defined.
#[global] Instance hook_actions_config_eq_dec : EqDecision MitmHookActionsConfig.
Proof. solve_decision. Defined.
#[global] Instance hook_config_eq_dec : EqDecision MitmHookConfig.
Proof. solve_decision. Defined.

(** ** Compiled hooks *)

Record CompiledGlobMatcher := mkGlob { glob_pattern : rstr; literal_separator : bool }.
Inductive PathMatcher := PathPrefix (prefix : rstr) | PathGlob (glob : CompiledGlobMatcher).
Inductive ValueMatcher := ValueExact (value : rstr) | ValueGlob (glob : CompiledGlobMatcher).
Record QueryConstraint := mkQuery { query_name : rstr; query_allowed : list ValueMatcher }.
Record HeaderConstraint := mkHeader { header_constraint_name : rstr; header_allowed : list ValueMatcher }.
Inductive SecretSource := EnvVar (name : rstr) | SecretFile (path : rstr).
Record ResolvedInjectedHeader := mkInjected {
  resolved_name : rstr;
  resolved_value : list N;
  resolved_source : SecretSource;
}.
Record MitmHookActions := mkActions {
  stripped : list rstr;
  injected : list ResolvedInjectedHeader;
}.
Record MitmHookMatcher := mkMatcher {
  matcher_methods : list rstr;
  matcher_paths : list PathMatcher;
  matcher_query : list QueryConstraint;
  matcher_headers : list HeaderConstraint;
}.
Record MitmHook := mkHook { host : rstr; matcher : MitmHookMatcher; actions : MitmHookActions }.
Definition MitmHooksByHost : Type := gmap rstr (list MitmHook).
Inductive HookEvaluation := NoHooksForHost | Matched (actions : MitmHookActions) | HookedHostNoMatch.
Inductive MatcherPattern := PatternLiteral (text : rstr) | PatternGlob (text : rstr).

(** ** Errors *)

Inductive HookCause :=
| EmptyHost | WildcardHost | EmptyMethod | EmptyPath | EmptyGlob | BadGlob (pattern : rstr)
| EmptyQueryKey | QueryWithoutValues (name : rstr) | BadHeaderName (name : rstr) | BadHeaderValue (name : rstr)
| EmptySecretEnvVar | MissingEnvVar (name : rstr)
| EmptySecretFile | RelativeSecretFile (path : rstr) | UnreadableSecretFile (path : rstr)
| NotOneSecretSource.
Inductive HookField := FieldHost | FieldMethods | FieldPaths | FieldQuery | FieldHeaders | FieldStrip | FieldInject.
Inductive HookError :=
| RequiresMitm
| InvalidField (hook_index : nat) (field : HookField) (cause : HookCause)
| NoMethods (hook_index : nat)
| NoPaths (hook_index : nat)
| BodyReserved (hook_index : nat)
| NoHost (hook_index : nat)
| CompileFailed (cause : HookCause).

(** ** Requests *)

Record Request := mkRequest {
  req_method : rstr;
  req_path : rstr;
  req_query : option rstr;
  req_headers : list (rstr * list N);
}.

Definition ascii_upper (c : rchar) : rchar := (if (97 <=? c) && (c <=? 122) then c - 32 else c)%N.
Definition to_ascii_uppercase (s : rstr) : rstr := ascii_upper <$> s.

(** [iter().map(f).collect::<Result<Vec<_>>>()] *)
Fixpoint try_map {E A B} (f : A → result E B) (l : list A) : result E (list B) :=
  match l with
  | [] => Ok []
  | x :: l => y ← f x; ys ← try_map f l; Ok (y :: ys)
  end.
(** [for x in l { f(x)?; }] *)
Fixpoint try_all {E A} (f : A → result E unit) (l : list A) : result E unit :=
  match l with
  | [] => Ok ()
  | x :: l => _ ← f x; try_all f l
  end.

Section hooks.
Context `{HookTools, PathEnv}.

(** ** Parts of a hook *)

Definition PATTERN_PREFIX : rstr := str "pattern:".
Definition LITERAL_PREFIX : rstr := str "literal:".

Definition parse_matcher_pattern (pattern : rstr) : result HookCause MatcherPattern :=
  match strip_prefix LITERAL_PREFIX pattern with
  | Some literal => Ok (PatternLiteral literal)
  | None =>
      match strip_prefix PATTERN_PREFIX pattern with
      | None => Ok (PatternLiteral pattern)
      | Some glob => if is_empty glob then Err EmptyGlob else Ok (PatternGlob glob)
      end
  end.
Definition compile_glob_matcher (pattern : rstr) (separator : bool) : result HookCause CompiledGlobMatcher :=
  if hook_glob_valid separator pattern then Ok (mkGlob pattern separator) else Err (BadGlob pattern).
Definition compile_path_matchers : list rstr → result HookCause (list PathMatcher) :=
  try_map (λ prefix,
    p ← parse_matcher_pattern prefix;
    match p with
    | PatternLiteral prefix => if is_empty prefix then Err EmptyPath else Ok (PathPrefix prefix)
    | PatternGlob glob => PathGlob <$> compile_glob_matcher glob true
    end).
Definition compile_value_matchers : list rstr → result HookCause (list ValueMatcher) :=
  try_map (λ value,
    p ← parse_matcher_pattern value;
    match p with
    | PatternLiteral value => Ok (ValueExact value)
    | PatternGlob glob => ValueGlob <$> compile_glob_matcher glob false
    end).
Definition normalize_hook_host (host : rstr) : result HookCause rstr :=
  let normalized := normalize_host host in
  if is_empty normalized then Err EmptyHost
  else if contains_char 42%N normalized then Err WildcardHost
  else Ok normalized.
Definition normalize_methods : list rstr → result HookCause (list rstr) :=
  try_map (λ method,
    let normalized := to_ascii_uppercase (trim method) in
    if is_empty normalized then Err EmptyMethod else Ok normalized).
Definition normalize_query_name (name : rstr) : result HookCause rstr :=
  if is_empty name then Err EmptyQueryKey else Ok name.
Definition parse_header_name (name : rstr) : result HookCause rstr :=
  ok_or (header_name name) (BadHeaderName name).
Definition parse_secret_file (path : rstr) : result HookCause rstr :=
  if is_empty (trim path) then Err EmptySecretFile
  else if negb (path_is_absolute path) then Err (RelativeSecretFile path)
  else ok_or (from_absolute_path path) (RelativeSecretFile path).

Definition validate_query_constraints : list (rstr * list rstr) → result HookCause unit :=
  try_all (λ '(name, values),
    normalized ← normalize_query_name name;
    if is_empty normalized then Err EmptyQueryKey
    else if is_empty values then Err (QueryWithoutValues name)
    else _ ← compile_value_matchers values; Ok ()).
Definition validate_header_constraints : list (rstr * list rstr) → result HookCause unit :=
  try_all (λ '(name, values), _ ← parse_header_name name; _ ← compile_value_matchers values; Ok ()).
Definition validate_strip_request_headers : list rstr → result HookCause unit :=
  try_all (λ name, _ ← parse_header_name name; Ok ()).
Definition validate_injected_headers : list InjectedHeaderConfig → result HookCause unit :=
  try_all (λ header,
    _ ← parse_header_name (injected_name header);
    match secret_env_var header, secret_file header with
    | Some var, None => if is_empty (trim var) then Err EmptySecretEnvVar else Ok ()
    | None, Some file => _ ← parse_secret_file file; Ok ()
    | _, _ => Err NotOneSecretSource
    end).

(** ** Validation *)

Definition validate_hook (hook_index : nat) (hook : MitmHookConfig) : result HookError unit :=
  let at_field {A} (field : HookField) (m : result HookCause A) := map_err (InvalidField hook_index field) m in
  let m := hook_match hook in
  host ← at_field FieldHost (normalize_hook_host (hook_host hook));
  methods ← at_field FieldMethods (normalize_methods (methods m));
  if is_empty methods then Err (NoMethods hook_index) else
  paths ← at_field FieldPaths (compile_path_matchers (path_prefixes m));
  if is_empty paths then Err (NoPaths hook_index) else
  if body m then Err (BodyReserved hook_index) else
  _ ← at_field FieldQuery (validate_query_constraints (query m));
  _ ← at_field FieldHeaders (validate_header_constraints (headers m));
  _ ← at_field FieldStrip (validate_strip_request_headers (strip_request_headers (hook_actions hook)));
  _ ← at_field FieldInject (validate_injected_headers (inject_request_headers (hook_actions hook)));
  if is_empty host then Err (NoHost hook_index) else Ok ().
Fixpoint validate_hooks (hook_index : nat) (hooks : list MitmHookConfig) : result HookError unit :=
  match hooks with
  | [] => Ok ()
  | hook :: hooks => _ ← validate_hook hook_index hook; validate_hooks (S hook_index) hooks
  end.
(** The two settings of the proxy configuration that it reads *)
Definition validate_mitm_hook_config (mitm : bool) (hooks : list MitmHookConfig) : result HookError unit :=
  if is_empty hooks then Ok ()
  else if negb mitm then Err RequiresMitm
  else validate_hooks 0 hooks.

(** ** Compilation *)

Definition compile_injected_header (resolve_env_var : rstr → option rstr)
    (read_secret_file : rstr → option rstr) (header : InjectedHeaderConfig)
    : result HookCause ResolvedInjectedHeader :=
  name ← parse_header_name (injected_name header);
  '(secret, source) ←
    match secret_env_var header, secret_file header with
    | Some var, None =>
        value ← ok_or (resolve_env_var var) (MissingEnvVar var);
        Ok (value, EnvVar var)
    | None, Some file =>
        path ← parse_secret_file file;
        value ← ok_or (read_secret_file path) (UnreadableSecretFile path);
        Ok (value, SecretFile path)
    | _, _ => Err NotOneSecretSource
    end;
  value ← ok_or (header_value (default [] (prefix header) ++ secret)) (BadHeaderValue (injected_name header));
  Ok (mkInjected name value source).

Definition compile_hook (resolve_env_var read_secret_file : rstr → option rstr) (hook : MitmHookConfig)
    : result HookCause MitmHook :=
  let m := hook_match hook in
  host ← normalize_hook_host (hook_host hook);
  methods ← normalize_methods (methods m);
  paths ← compile_path_matchers (path_prefixes m);
  query ← try_map (λ '(name, values),
            name ← normalize_query_name name;
            values ← compile_value_matchers values;
            Ok (mkQuery name values)) (query m);
  headers ← try_map (λ '(name, values),
              name ← parse_header_name name;
              values ← compile_value_matchers values;
              Ok (mkHeader name values)) (headers m);
  stripped ← try_map parse_header_name (strip_request_headers (hook_actions hook));
  injected ← try_map (compile_injected_header resolve_env_var read_secret_file)
               (inject_request_headers (hook_actions hook));
  Ok (mkHook host (mkMatcher methods paths query headers) (mkActions stripped injected)).

Definition push_hook (hooks : MitmHooksByHost) (hook : MitmHook) : MitmHooksByHost :=
  <[host hook := default [] (hooks !! host hook) ++ [hook]]> hooks.
Definition compile_mitm_hooks_with_resolvers (resolve_env_var read_secret_file : rstr → option rstr)
    (mitm : bool) (hooks : list MitmHookConfig) : result HookError MitmHooksByHost :=
  _ ← validate_mitm_hook_config mitm hooks;
  compiled ← map_err CompileFailed (try_map (compile_hook resolve_env_var read_secret_file) hooks);
  Ok (foldl push_hook ∅ compiled).

(** ** Evaluation *)

Definition glob_is_match (g : CompiledGlobMatcher) (candidate : rstr) : bool :=
  hook_glob_match (literal_separator g) (glob_pattern g) candidate.
Definition path_matcher_matches (p : PathMatcher) (candidate : rstr) : bool :=
  match p with
  | PathPrefix prefix => starts_with candidate prefix
  | PathGlob glob => glob_is_match glob candidate
  end.
Definition value_matches (v : ValueMatcher) (candidate : rstr) : bool :=
  match v with
  | ValueExact value => str_eqb value candidate
  | ValueGlob glob => glob_is_match glob candidate
  end.
Definition path_matches (paths : list PathMatcher) (path : rstr) : bool :=
  existsb (λ p, path_matcher_matches p path) paths.

(** The map of names to values, as the values of each name *)
Definition actual_values (actual_query : rstr) (name : rstr) : list rstr :=
  (filter (λ '(n, _), n = name) (form_parse actual_query)).*2.
Definition query_matches (constraints : list QueryConstraint) (req : Request) : bool :=
  if is_empty constraints then true
  else forallb (λ constraint,
         existsb (λ candidate, existsb (λ allowed, value_matches allowed candidate) (query_allowed constraint))
           (actual_values (default [] (req_query req)) (query_name constraint))) constraints.
Definition get_all (name : rstr) (req : Request) : list (list N) :=
  (filter (λ '(n, _), n = name) (req_headers req)).*2.
Definition headers_match (constraints : list HeaderConstraint) (req : Request) : bool :=
  forallb (λ constraint,
    let actual := get_all (header_constraint_name constraint) req in
    if is_empty actual then false
    else if is_empty (header_allowed constraint) then true
    else existsb (λ value,
           match header_text value with
           | Some candidate => existsb (λ allowed, value_matches allowed candidate) (header_allowed constraint)
           | None => false
           end) actual) constraints.

Definition hook_matches (hook : MitmHook) (req : Request) : bool :=
  let method := to_ascii_uppercase (req_method req) in
  let m := matcher hook in
  if negb (existsb (λ allowed, str_eqb allowed method) (matcher_methods m)) then false
  else if negb (is_safe_for_authorization (req_path req)) || negb (path_matches (matcher_paths m) (req_path req))
  then false
  else if negb (query_matches (matcher_query m) req) then false
  else headers_match (matcher_headers m) req.

Definition evaluate_mitm_hooks (hooks_by_host : MitmHooksByHost) (host : rstr) (req : Request) : HookEvaluation :=
  match hooks_by_host !! normalize_host host with
  | None => NoHooksForHost
  | Some hooks =>
      match find (λ hook, hook_matches hook req) hooks with
      | Some hook => Matched (actions hook)
      | None => HookedHostNoMatch
      end
  end.
End hooks.
