(* ===== verification/NetworkConfig.v ===== *)
(** The configuration of the network proxy and the constraints that a managed
    configuration puts on it: [network-proxy/src/config.rs] and
    [network-proxy/src/state.rs]. *)

From stdpp Require Import gmap.
From S2P Require Import Prelude IpAddr NetworkPolicy AbsolutePath MitmHook.
#[local] Opaque str.

(** ** Domain permissions *)

Inductive NetworkDomainPermission := PermNone | PermAllow | PermDeny.
#[global] Instance domain_permission_eq_dec : EqDecision NetworkDomainPermission.
Proof. solve_decision. Defined.
(** The derived order *)
Definition permission_rank (p : NetworkDomainPermission) : nat :=
  match p with PermNone => 0 | PermAllow => 1 | PermDeny => 2 end.

Record NetworkDomainPermissionEntry := mkEntry { pattern : rstr; permission : NetworkDomainPermission }.
#[global] Instance domain_entry_eq_dec : EqDecision NetworkDomainPermissionEntry.
Proof. solve_decision. Defined.

(** The loop of [effective_entries]: the patterns in the order of their first
    entries, with the highest permission so far *)
Fixpoint raise_entry (effective : list NetworkDomainPermissionEntry) (entry : NetworkDomainPermissionEntry)
    : list NetworkDomainPermissionEntry :=
  match effective with
  | [] => [entry]
  | e :: effective =>
      if str_eqb (pattern e) (pattern entry)
      then (if permission_rank (permission e) <? permission_rank (permission entry) then entry else e) :: effective
      else e :: raise_entry effective entry
  end.
Definition effective_entries (entries : list NetworkDomainPermissionEntry) : list NetworkDomainPermissionEntry :=
  foldl raise_entry [] entries.

(** ** Unix sockets *)

Inductive NetworkUnixSocketPermission := SocketAllow | SocketDeny.
#[global] Instance socket_permission_eq_dec : EqDecision NetworkUnixSocketPermission.
Proof. solve_decision. Defined.

(** ** The configuration *)

Inductive NetworkMode := Limited | Full.
#[global] Instance network_mode_eq_dec : EqDecision NetworkMode.
Proof. solve_decision. Defined.
Definition allows_method (mode : NetworkMode) (method : rstr) : bool :=
  match mode with
  | Full => true
  | Limited => bool_decide (method ∈ [str "GET"; str "HEAD"; str "OPTIONS"])
  end.

(** Without the tables of the credential broker, which the operations here copy *)
Record NetworkProxyConfig := mkProxyConfig {
  enabled : bool;
  proxy_url : rstr;
  enable_socks5 : bool;
  socks_url : rstr;
  enable_socks5_udp : bool;
  allow_upstream_proxy : bool;
  dangerously_allow_non_loopback_proxy : bool;
  dangerously_allow_all_unix_sockets : bool;
  mode : NetworkMode;
  domains : option (list NetworkDomainPermissionEntry);
  unix_sockets : option (gmap rstr NetworkUnixSocketPermission);
  allow_local_binding : bool;
  mitm : bool;
  credential_broker : bool;
  credential_broker_enabled_mitm : bool;
  dangerously_allow_plaintext_credential_injection : bool;
  mitm_hooks : list MitmHookConfig;
}.
#[global] Instance proxy_config_eq_dec : EqDecision NetworkProxyConfig.
Proof. solve_decision. Defined.

Definition config_default : NetworkProxyConfig := {|
  enabled := false; proxy_url := str "http://127.0.0.1:3128"; enable_socks5 := true;
  socks_url := str "http://127.0.0.1:8081"; enable_socks5_udp := true; allow_upstream_proxy := true;
  dangerously_allow_non_loopback_proxy := false; dangerously_allow_all_unix_sockets := false;
  mode := Full; domains := None; unix_sockets := None; allow_local_binding := false; mitm := false;
  credential_broker := false; credential_broker_enabled_mitm := false;
  dangerously_allow_plaintext_credential_injection := false; mitm_hooks := [] |}.

Definition with_enabled (b : bool) (c : NetworkProxyConfig) : NetworkProxyConfig :=
  mkProxyConfig b (proxy_url c) (enable_socks5 c) (socks_url c) (enable_socks5_udp c) (allow_upstream_proxy c)
    (dangerously_allow_non_loopback_proxy c) (dangerously_allow_all_unix_sockets c) (mode c) (domains c)
    (unix_sockets c) (allow_local_binding c) (mitm c) (credential_broker c) (credential_broker_enabled_mitm c)
    (dangerously_allow_plaintext_credential_injection c) (mitm_hooks c).
Definition with_mode (m : NetworkMode) (c : NetworkProxyConfig) : NetworkProxyConfig :=
  mkProxyConfig (enabled c) (proxy_url c) (enable_socks5 c) (socks_url c) (enable_socks5_udp c)
    (allow_upstream_proxy c) (dangerously_allow_non_loopback_proxy c) (dangerously_allow_all_unix_sockets c) m
    (domains c) (unix_sockets c) (allow_local_binding c) (mitm c) (credential_broker c)
    (credential_broker_enabled_mitm c) (dangerously_allow_plaintext_credential_injection c) (mitm_hooks c).
Definition with_domains (d : option (list NetworkDomainPermissionEntry)) (c : NetworkProxyConfig)
    : NetworkProxyConfig :=
  mkProxyConfig (enabled c) (proxy_url c) (enable_socks5 c) (socks_url c) (enable_socks5_udp c)
    (allow_upstream_proxy c) (dangerously_allow_non_loopback_proxy c) (dangerously_allow_all_unix_sockets c)
    (mode c) d (unix_sockets c) (allow_local_binding c) (mitm c) (credential_broker c)
    (credential_broker_enabled_mitm c) (dangerously_allow_plaintext_credential_injection c) (mitm_hooks c).
Definition with_unix_sockets (u : option (gmap rstr NetworkUnixSocketPermission)) (c : NetworkProxyConfig)
    : NetworkProxyConfig :=
  mkProxyConfig (enabled c) (proxy_url c) (enable_socks5 c) (socks_url c) (enable_socks5_udp c)
    (allow_upstream_proxy c) (dangerously_allow_non_loopback_proxy c) (dangerously_allow_all_unix_sockets c)
    (mode c) (domains c) u (allow_local_binding c) (mitm c) (credential_broker c)
    (credential_broker_enabled_mitm c) (dangerously_allow_plaintext_credential_injection c) (mitm_hooks c).
Definition with_broker (broker broker_mitm m : bool) (c : NetworkProxyConfig) : NetworkProxyConfig :=
  mkProxyConfig (enabled c) (proxy_url c) (enable_socks5 c) (socks_url c) (enable_socks5_udp c)
    (allow_upstream_proxy c) (dangerously_allow_non_loopback_proxy c) (dangerously_allow_all_unix_sockets c)
    (mode c) (domains c) (unix_sockets c) (allow_local_binding c) m broker broker_mitm
    (dangerously_allow_plaintext_credential_injection c) (mitm_hooks c).

Definition with_proxy_url (url : rstr) (c : NetworkProxyConfig) : NetworkProxyConfig :=
  mkProxyConfig (enabled c) url (enable_socks5 c) (socks_url c) (enable_socks5_udp c) (allow_upstream_proxy c)
    (dangerously_allow_non_loopback_proxy c) (dangerously_allow_all_unix_sockets c) (mode c) (domains c)
    (unix_sockets c) (allow_local_binding c) (mitm c) (credential_broker c) (credential_broker_enabled_mitm c)
    (dangerously_allow_plaintext_credential_injection c) (mitm_hooks c).
Definition with_socks_url (url : rstr) (c : NetworkProxyConfig) : NetworkProxyConfig :=
  mkProxyConfig (enabled c) (proxy_url c) (enable_socks5 c) url (enable_socks5_udp c) (allow_upstream_proxy c)
    (dangerously_allow_non_loopback_proxy c) (dangerously_allow_all_unix_sockets c) (mode c) (domains c)
    (unix_sockets c) (allow_local_binding c) (mitm c) (credential_broker c) (credential_broker_enabled_mitm c)
    (dangerously_allow_plaintext_credential_injection c) (mitm_hooks c).
Definition with_upstream_proxy (b : bool) (c : NetworkProxyConfig) : NetworkProxyConfig :=
  mkProxyConfig (enabled c) (proxy_url c) (enable_socks5 c) (socks_url c) (enable_socks5_udp c) b
    (dangerously_allow_non_loopback_proxy c) (dangerously_allow_all_unix_sockets c) (mode c) (domains c)
    (unix_sockets c) (allow_local_binding c) (mitm c) (credential_broker c) (credential_broker_enabled_mitm c)
    (dangerously_allow_plaintext_credential_injection c) (mitm_hooks c).
Definition with_non_loopback_proxy (b : bool) (c : NetworkProxyConfig) : NetworkProxyConfig :=
  mkProxyConfig (enabled c) (proxy_url c) (enable_socks5 c) (socks_url c) (enable_socks5_udp c)
    (allow_upstream_proxy c) b (dangerously_allow_all_unix_sockets c) (mode c) (domains c) (unix_sockets c)
    (allow_local_binding c) (mitm c) (credential_broker c) (credential_broker_enabled_mitm c)
    (dangerously_allow_plaintext_credential_injection c) (mitm_hooks c).
Definition with_all_unix_sockets (b : bool) (c : NetworkProxyConfig) : NetworkProxyConfig :=
  mkProxyConfig (enabled c) (proxy_url c) (enable_socks5 c) (socks_url c) (enable_socks5_udp c)
    (allow_upstream_proxy c) (dangerously_allow_non_loopback_proxy c) b (mode c) (domains c) (unix_sockets c)
    (allow_local_binding c) (mitm c) (credential_broker c) (credential_broker_enabled_mitm c)
    (dangerously_allow_plaintext_credential_injection c) (mitm_hooks c).
Definition with_local_binding (b : bool) (c : NetworkProxyConfig) : NetworkProxyConfig :=
  mkProxyConfig (enabled c) (proxy_url c) (enable_socks5 c) (socks_url c) (enable_socks5_udp c)
    (allow_upstream_proxy c) (dangerously_allow_non_loopback_proxy c) (dangerously_allow_all_unix_sockets c)
    (mode c) (domains c) (unix_sockets c) b (mitm c) (credential_broker c) (credential_broker_enabled_mitm c)
    (dangerously_allow_plaintext_credential_injection c) (mitm_hooks c).

Definition set_credential_broker_enabled (b : bool) (c : NetworkProxyConfig) : NetworkProxyConfig :=
  if b then with_broker true (credential_broker_enabled_mitm c || negb (mitm c)) true c
  else if credential_broker_enabled_mitm c
  then with_broker false false (negb (is_empty (mitm_hooks c))) c
  else with_broker false false (mitm c) c.

Definition domain_entries (p : NetworkDomainPermission) (c : NetworkProxyConfig) : option (list rstr) :=
  entries ← domains c;
  let selected := pattern <$> filter (λ e, permission e = p) (effective_entries entries) in
  if is_empty selected then None else Some selected.
Definition allowed_domains : NetworkProxyConfig → option (list rstr) := domain_entries PermAllow.
Definition denied_domains : NetworkProxyConfig → option (list rstr) := domain_entries PermDeny.

Definition allow_unix_sockets (c : NetworkProxyConfig) : list rstr :=
  match unix_sockets c with
  | Some entries => sort_by_key id (map_to_list (filter (λ '(_, p), p = SocketAllow) entries)).*1
  | None => []
  end.

(** [domains = (!entries.is_empty()).then_some(..)] *)
Definition some_entries (entries : list NetworkDomainPermissionEntry) : option (list NetworkDomainPermissionEntry) :=
  if is_empty entries then None else Some entries.
Definition push_entry (p : NetworkDomainPermission) (entries : list NetworkDomainPermissionEntry) (entry : rstr)
    : list NetworkDomainPermissionEntry :=
  if existsb (λ e, str_eqb (pattern e) entry && bool_decide (permission e = p)) entries
  then entries else entries ++ [mkEntry entry p].
Definition set_domain_entries (entries : list rstr) (p : NetworkDomainPermission) (c : NetworkProxyConfig)
    : NetworkProxyConfig :=
  let kept := filter (λ e, permission e ≠ p) (default [] (domains c)) in
  with_domains (some_entries (foldl (push_entry p) kept entries)) c.
Definition set_allowed_domains (entries : list rstr) := set_domain_entries entries PermAllow.
Definition set_denied_domains (entries : list rstr) := set_domain_entries entries PermDeny.

Definition upsert_domain_permission (host : rstr) (p : NetworkDomainPermission) (normalize : rstr → rstr)
    (c : NetworkProxyConfig) : NetworkProxyConfig :=
  let kept := filter (λ e, normalize (pattern e) ≠ normalize host) (default [] (domains c)) in
  with_domains (some_entries (kept ++ [mkEntry host p])) c.

Definition set_unix_socket_entries (entries : list rstr) (p : NetworkUnixSocketPermission) (c : NetworkProxyConfig)
    : NetworkProxyConfig :=
  let kept := filter (λ '(_, existing), existing ≠ p) (default ∅ (unix_sockets c)) in
  let m := foldl (λ m entry, <[entry := p]> m) kept entries in
  with_unix_sockets (if decide (m = ∅) then None else Some m) c.
Definition set_allow_unix_sockets (entries : list rstr) := set_unix_socket_entries entries SocketAllow.

(** ** Unix socket paths *)

Inductive ValidatedUnixSocketPath := Native (path : rstr) | UnixStyleAbsolute (path : rstr).

Section config.
Context `{PathEnv}.

Definition parse_unix_socket_path (socket_path : rstr) : option ValidatedUnixSocketPath :=
  if path_is_absolute socket_path then Native <$> from_absolute_path socket_path
  else if starts_with socket_path [ch_slash] then Some (UnixStyleAbsolute socket_path)
  else None.
(** The index of the first invalid path, if any *)
Fixpoint validate_socket_paths (index : nat) (paths : list rstr) : result nat unit :=
  match paths with
  | [] => Ok ()
  | p :: paths =>
      match parse_unix_socket_path p with
      | Some _ => validate_socket_paths (S index) paths
      | None => Err index
      end
  end.
Definition validate_unix_socket_allowlist_paths (c : NetworkProxyConfig) : result nat unit :=
  validate_socket_paths 0 (allow_unix_sockets c).
End config.

(** ** Listener addresses *)

Record SocketAddr := mkSocket { sock_ip : IpAddr; sock_port : N }.
Definition loopback_addr (port : N) : SocketAddr := mkSocket (V4 LOCALHOST_V4) port.
Definition clamp_non_loopback (addr : SocketAddr) (allow_non_loopback : bool) : SocketAddr :=
  if ip_is_loopback (sock_ip addr) then addr
  else if allow_non_loopback then addr
  else loopback_addr (sock_port addr).
Definition clamp_bind_addrs (http_addr socks_addr : SocketAddr) (c : NetworkProxyConfig) : SocketAddr * SocketAddr :=
  let http_addr := clamp_non_loopback http_addr (dangerously_allow_non_loopback_proxy c) in
  let socks_addr := clamp_non_loopback socks_addr (dangerously_allow_non_loopback_proxy c) in
  if is_empty (allow_unix_sockets c) && negb (dangerously_allow_all_unix_sockets c)
  then (http_addr, socks_addr)
  else (loopback_addr (sock_port http_addr), loopback_addr (sock_port socks_addr)).

Record SocketAddressParts := mkParts { part_host : rstr; part_port : N }.

(** [str::parse::<u16>()]: an optional sign and digits *)
Definition digit_step (acc : option N) (c : rchar) : option N :=
  n ← acc; if is_ascii_digit c then (let m := n * 10 + (c - 48) in if m <? 65536 then Some m else None)%N else None.
Definition parse_u16 (s : rstr) : option N :=
  let digits := match s with 43%N :: rest => rest | _ => s end in
  if is_empty digits then None else foldl digit_step (Some 0%N) digits.

Definition parse_host_port_fallback (input : rstr) (default_port : N) : option SocketAddressParts :=
  let without_scheme := match split_once_str (str "://") input with Some (_, rest) => rest | None => input end in
  let host_port := default without_scheme (head (split_char ch_slash without_scheme)) in
  let host_port := match rsplit_once 64%N host_port with Some (_, rest) => rest | None => host_port end in
  let single :=
    if colons host_port =? 1
    then match rsplit_once 58%N host_port with
         | Some (host, port) =>
             Some (if is_empty host then None
                   else Some (mkParts host (default default_port (parse_u16 port))))
         | None => None
         end
    else None in
  match starts_with host_port (str "["), find_sub (str "]") host_port with
  | true, Some e =>
      let host := take (e - 1) (drop 1 host_port) in
      let port := default default_port (strip_prefix (str ":") (drop (e + 1) host_port) ≫= parse_u16) in
      if is_empty host then None else Some (mkParts host port)
  | _, _ =>
      match single with
      | Some parts => parts
      | None => if is_empty host_port then None else Some (mkParts host_port default_port)
      end
  end.

(** [Url::parse], then [host_str] and [port] *)
Class UrlTools := { url_host_port : rstr → option (option rstr * option N) }.

Section listeners.
Context `{PathEnv, UrlTools}.

Definition trim_matches_brackets (s : rstr) : rstr :=
  let p := λ c, ((c =? 91) || (c =? 93))%N in trim_end_by p (trim_start_by p s).
Definition parse_host_port (url : rstr) (default_port : N) : option SocketAddressParts :=
  let trimmed := trim url in
  if is_empty trimmed then None
  else if match parse_ip trimmed with Some (V6 _) => true | _ => false end && negb (starts_with trimmed (str "["))
  then Some (mkParts trimmed default_port)
  else
    let candidate := if contains_sub (str "://") trimmed then trimmed else str "http://" ++ trimmed in
    match url_host_port candidate with
    | Some (Some host, port) =>
        let host := trim_matches_brackets host in
        if is_empty host then None else Some (mkParts host (default default_port port))
    | _ => parse_host_port_fallback trimmed default_port
    end.
Definition format_host_and_port (host : rstr) (port : N) : rstr :=
  if contains_char 58%N host then str "[" ++ host ++ str "]:" ++ str (pretty port)
  else host ++ str ":" ++ str (pretty port).
Definition host_and_port_from_network_addr (value : rstr) (default_port : N) : rstr :=
  let trimmed := trim value in
  if is_empty trimmed then str "<missing>"
  else match parse_host_port trimmed default_port with
       | None => format_host_and_port trimmed default_port
       | Some parts => format_host_and_port (part_host parts) (part_port parts)
       end.
Definition resolve_addr (url : rstr) (default_port : N) : option SocketAddr :=
  parts ← parse_host_port url default_port;
  let host := if eq_ignore_ascii_case (part_host parts) (str "localhost") then str "127.0.0.1" else part_host parts in
  Some (match parse_ip host with
        | Some ip => mkSocket ip (part_port parts)
        | None => loopback_addr (part_port parts)
        end).

Inductive ListenerError :=
| BadSocketPath (index : nat) | BadProxyUrl | BadSocksUrl | ProxyPortZero | SocksPortZero.
Record RuntimeConfig := mkRuntime { http_addr : SocketAddr; socks_addr : SocketAddr }.
Definition resolve_runtime (c : NetworkProxyConfig) : result ListenerError RuntimeConfig :=
  _ ← map_err BadSocketPath (validate_unix_socket_allowlist_paths c);
  http ← ok_or (resolve_addr (proxy_url c) 3128) BadProxyUrl;
  socks ← ok_or (resolve_addr (socks_url c) 8081) BadSocksUrl;
  let '(http, socks) := clamp_bind_addrs http socks c in
  Ok (mkRuntime http socks).

(** [sort_unstable] and [dedup] of at most two ports *)
Definition sort_dedup (ports : list N) : list N :=
  match ports with
  | [a; b] => if (a =? b)%N then [a] else if (a <? b)%N then [a; b] else [b; a]
  | _ => ports
  end.
Definition managed_proxy_ports (c : NetworkProxyConfig) : result ListenerError (list N) :=
  runtime ← resolve_runtime c;
  if (sock_port (http_addr runtime) =? 0)%N then Err ProxyPortZero
  else if enable_socks5 c then
    if (sock_port (socks_addr runtime) =? 0)%N then Err SocksPortZero
    else Ok (sort_dedup [sock_port (http_addr runtime); sock_port (socks_addr runtime)])
  else Ok [sock_port (http_addr runtime)].
End listeners.
