(* ===== verification/NetworkState.v ===== *)
(** Managed constraints on the proxy configuration and the state that is compiled
    from it: [network-proxy/src/state.rs]. *)

From stdpp Require Import gmap.
From S2P Require Import Prelude NetworkPolicy AbsolutePath MitmHook NetworkConfig.
#[local] Opaque str.

(** ** Constraints *)

Record NetworkProxyConstraints := mkConstraints {
  c_enabled : option bool;
  c_mode : option NetworkMode;
  c_allow_upstream_proxy : option bool;
  c_dangerously_allow_non_loopback_proxy : option bool;
  c_dangerously_allow_all_unix_sockets : option bool;
  c_allowed_domains : option (list rstr);
  c_allowlist_expansion_enabled : option bool;
  c_denied_domains : option (list rstr);
  c_denylist_expansion_enabled : option bool;
  c_allow_unix_sockets : option (list rstr);
  c_allow_local_binding : option bool;
}.
#[global] Instance constraints_eq_dec : EqDecision NetworkProxyConstraints.
Proof. solve_decision. Defined.

(** The field; the offending and the allowed value are text for the user. *)
Inductive NetworkProxyConstraintError := InvalidValue (field_name : rstr).

Definition network_mode_rank (m : NetworkMode) : nat := match m with Limited => 0 | Full => 1 end.

(** [HashSet] of the entries in lower case *)
Definition lower_set (entries : list rstr) : gset rstr := list_to_set (to_ascii_lowercase <$> entries).

(** [Err] of the field when [bad] holds *)
Definition refuse_when (bad : bool) (field_name : rstr) : result NetworkProxyConstraintError unit :=
  if bad then Err (InvalidValue field_name) else Ok ().
Definition validate_non_global_wildcard_domain_patterns (field_name : rstr) (patterns : list rstr)
    : result NetworkProxyConstraintError unit :=
  refuse_when (existsb is_global_wildcard_domain_pattern patterns) field_name.

Section validation.
Context `{HostTools, HookTools, PathEnv}.

(** The check of the allowlist against the managed one *)
Definition allowed_domains_refused (expansion : option bool) (managed candidate denied : list rstr) : bool :=
  match expansion with
  | Some true =>
      negb (bool_decide (lower_set managed ⊆ lower_set candidate ∪ lower_set denied))
  | Some false =>
      negb (bool_decide (lower_set candidate = lower_set managed ∖ lower_set denied))
  | None =>
      existsb (λ entry,
        negb (existsb (λ m, allows (parse_for_constraints m) (parse_for_constraints entry)) managed)) candidate
  end.
Definition denied_domains_refused (expansion : option bool) (managed candidate : list rstr) : bool :=
  match expansion with
  | Some false => negb (bool_decide (lower_set candidate = lower_set managed))
  | Some true | None => negb (bool_decide (lower_set managed ⊆ lower_set candidate))
  end.

Definition validate_policy_against_constraints (config : NetworkProxyConfig) (constraints : NetworkProxyConstraints)
    : result NetworkProxyConstraintError unit :=
  let config_allowed_domains := default [] (allowed_domains config) in
  let config_denied_domains := default [] (denied_domains config) in
  _ ← map_err (λ _, InvalidValue (str "network.mitm_hooks"))
        (validate_mitm_hook_config (mitm config) (mitm_hooks config));
  _ ← validate_non_global_wildcard_domain_patterns (str "network.denied_domains") config_denied_domains;
  _ ← match c_enabled constraints with
      | Some max_enabled => refuse_when (enabled config && negb max_enabled) (str "network.enabled")
      | None => Ok ()
      end;
  _ ← match c_mode constraints with
      | Some max_mode =>
          refuse_when (network_mode_rank max_mode <? network_mode_rank (mode config)) (str "network.mode")
      | None => Ok ()
      end;
  _ ← match c_allow_upstream_proxy constraints with
      | Some true | None => Ok ()
      | Some false => refuse_when (allow_upstream_proxy config) (str "network.allow_upstream_proxy")
      end;
  _ ← match c_dangerously_allow_non_loopback_proxy constraints with
      | Some true | None => Ok ()
      | Some false =>
          refuse_when (dangerously_allow_non_loopback_proxy config)
            (str "network.dangerously_allow_non_loopback_proxy")
      end;
  let allow_all_unix_sockets :=
    default (match c_allow_unix_sockets constraints with None => true | Some _ => false end)
      (c_dangerously_allow_all_unix_sockets constraints) in
  _ ← refuse_when (dangerously_allow_all_unix_sockets config && negb allow_all_unix_sockets)
        (str "network.dangerously_allow_all_unix_sockets");
  _ ← match c_allow_local_binding constraints with
      | Some allow => refuse_when (allow_local_binding config && negb allow) (str "network.allow_local_binding")
      | None => Ok ()
      end;
  _ ← match c_allowed_domains constraints with
      | Some managed =>
          _ ← validate_non_global_wildcard_domain_patterns (str "network.allowed_domains") managed;
          refuse_when
            (allowed_domains_refused (c_allowlist_expansion_enabled constraints) managed
               config_allowed_domains config_denied_domains)
            (str "network.allowed_domains")
      | None => Ok ()
      end;
  _ ← match c_denied_domains constraints with
      | Some managed =>
          _ ← validate_non_global_wildcard_domain_patterns (str "network.denied_domains") managed;
          refuse_when
            (denied_domains_refused (c_denylist_expansion_enabled constraints) managed config_denied_domains)
            (str "network.denied_domains")
      | None => Ok ()
      end;
  match c_allow_unix_sockets constraints with
  | Some managed =>
      refuse_when
        (existsb (λ entry, negb (bool_decide (to_ascii_lowercase entry ∈ lower_set managed)))
           (allow_unix_sockets config))
        (str "network.allow_unix_sockets")
  | None => Ok ()
  end.
End validation.

(** ** The compiled state *)

Record BlockedRequest := mkBlocked {
  blocked_host : rstr;
  blocked_reason : rstr;
  blocked_client : option rstr;
  blocked_method : option rstr;
  blocked_mode : option NetworkMode;
  blocked_protocol : rstr;
  blocked_execution_id : option rstr;
  blocked_decision : option rstr;
  blocked_source : option rstr;
  blocked_port : option N;
  blocked_timestamp : Z;
}.

(** An intercepting state is known by the setting it is created with. *)
Record ConfigState := mkState {
  config : NetworkProxyConfig;
  brokerage_created_default_allowlist : bool;
  allow_set : list rstr;
  deny_set : list rstr;
  state_mitm : option bool;
  state_mitm_hooks : MitmHooksByHost;
  constraints : NetworkProxyConstraints;
  blocked : list BlockedRequest;
  blocked_total : N;
}.

Inductive BuildError :=
| InvalidSocketPath (index : nat)
| BrokerRequiresMitm
| Constrained (err : NetworkProxyConstraintError)
| BadGlobSet (err : GlobSetError)
| BadHooks (err : HookError)
| MitmUnavailable.

(** Secrets, and whether [MitmState::new] finds or creates its certificates *)
Class SecretEnv := {
  env_var : rstr → option rstr;
  read_file : rstr → option rstr;
  mitm_available : bool → bool;
}.

Section build.
Context `{HostTools, HookTools, PathEnv, SecretEnv}.

Definition compile_mitm_hooks (c : NetworkProxyConfig) : result HookError MitmHooksByHost :=
  compile_mitm_hooks_with_resolvers env_var (λ path, trim <$> read_file path) (mitm c) (mitm_hooks c).

(** The configuration that the state holds: brokerage may turn the proxy on. *)
Definition brokered_default_allowlist (c : NetworkProxyConfig) (k : NetworkProxyConstraints) : bool :=
  credential_broker c && negb (enabled c)
  && match allowed_domains c with None => true | Some _ => false end
  && match c_allowed_domains k with None => true | Some _ => false end.
Definition disable_broker (c : NetworkProxyConfig) (k : NetworkProxyConstraints) : NetworkProxyConfig :=
  if bool_decide (c_enabled k = Some false)
  then with_broker false (credential_broker_enabled_mitm c) (mitm c) c else c.
Definition effective_config (c : NetworkProxyConfig) (k : NetworkProxyConstraints) : NetworkProxyConfig :=
  let c := disable_broker c k in
  let created := credential_broker c && negb (enabled c) in
  let created_allowlist := brokered_default_allowlist c k in
  let c := if created then with_enabled true c else c in
  if created_allowlist then set_allowed_domains [str "*"] c else c.

Definition build_config_state (c : NetworkProxyConfig) (k : NetworkProxyConstraints) : result BuildError ConfigState :=
  let config := effective_config c k in
  _ ← map_err InvalidSocketPath (validate_unix_socket_allowlist_paths config);
  if credential_broker config && negb (mitm config) then Err BrokerRequiresMitm else
  let allowed := default [] (allowed_domains config) in
  let denied := default [] (denied_domains config) in
  _ ← map_err Constrained (validate_non_global_wildcard_domain_patterns (str "network.denied_domains") denied);
  deny_set ← map_err BadGlobSet (compile_denylist_globset denied);
  allow_set ← map_err BadGlobSet (compile_allowlist_globset allowed);
  hooks ← map_err BadHooks (compile_mitm_hooks config);
  if mitm config && negb (mitm_available (allow_upstream_proxy config)) then Err MitmUnavailable else
  Ok (mkState config (brokered_default_allowlist (disable_broker c k) k) allow_set deny_set
        (if mitm config then Some (allow_upstream_proxy config) else None) hooks k [] 0).
End build.
