(* ===== verification/NetworkRuntime.v ===== *)
(** The shared state of the network proxy: its decisions
    ([network-proxy/src/runtime.rs], [connect_policy.rs], [upstream.rs], [network_policy.rs]) and the
    operations that change it while requests are served. *)

From stdpp Require Import gmap.
From S2P Require Import Prelude IpAddr NetworkPolicy AbsolutePath MitmHook NetworkConfig NetworkState.
#[local] Opaque str.

(** ** Hosts *)

Inductive HostBlockReason := Denied | NotAllowed | NotAllowedLocal.
Inductive HostBlockDecision := Allowed | Blocked (reason : HostBlockReason).
#[global] Instance host_block_reason_eq_dec : EqDecision HostBlockReason.
Proof. solve_decision. Defined.
#[global] Instance host_block_decision_eq_dec : EqDecision HostBlockDecision.
Proof. solve_decision. Defined.

Section decision.
Context `{HostTools}.

Definition globset_matches_host_or_unscoped (set : list rstr) (host : rstr) : bool :=
  is_match set host
  || match unscoped_ip_literal host with Some ip => is_match set ip | None => false end.

Definition is_explicit_local_allowlisted (allowed : list rstr) (host : rstr) : bool :=
  let unscoped_host := unscoped_ip_literal host in
  existsb (λ pattern,
    let pattern := trim pattern in
    if str_eqb pattern (str "*") || starts_with pattern (str "*.") || starts_with pattern (str "**.")
    then false
    else if contains_char 42%N pattern || contains_char 63%N pattern then false
    else
      let normalized_pattern := normalize_host pattern in
      str_eqb normalized_pattern host
      || match unscoped_host with Some ip => str_eqb normalized_pattern ip | None => false end) allowed.

(** [lookup] is the outcome of name resolution: [None] is an error or the timeout. *)
Definition host_resolves_to_non_public_ip (lookup : option (list IpAddr)) (host : rstr) : bool :=
  match parse_ip host with
  | Some ip => is_non_public_ip ip
  | None => match lookup with None => true | Some addrs => existsb is_non_public_ip addrs end
  end.

(** A host that names a local address: [localhost] or a non-public literal *)
Definition local_literal (host : rstr) : bool :=
  let host_no_scope := default host (unscoped_ip_literal host) in
  if is_loopback_host host then true
  else match parse_ip host_no_scope with Some ip => is_non_public_ip ip | None => false end.

Definition host_blocked (st : ConfigState) (lookup : rstr → option (list IpAddr)) (host : rstr)
    : HostBlockDecision :=
  match host_parse host with
  | None => Blocked NotAllowed
  | Some host =>
      let allowed_domains_empty := match allowed_domains (config st) with None => true | Some _ => false end in
      let allowed := default [] (allowed_domains (config st)) in
      if globset_matches_host_or_unscoped (deny_set st) host then Blocked Denied
      else
        let is_allowlisted := globset_matches_host_or_unscoped (allow_set st) host in
        let local_block :=
          if allow_local_binding (config st) then false
          else if local_literal host then negb (is_explicit_local_allowlisted allowed host)
          else host_resolves_to_non_public_ip (lookup host) host in
        if local_block then Blocked NotAllowedLocal
        else if allowed_domains_empty || negb is_allowlisted then Blocked NotAllowed
        else Allowed
  end.

(** ** At connection time *)

(** [rama_net::address::Host], with its text *)
Inductive TargetHost := TargetAddress (ip : IpAddr) (text : rstr) | TargetName (name : rstr).
Definition target_text (h : TargetHost) : rstr :=
  match h with TargetAddress _ text => text | TargetName name => name end.

Definition is_localhost_name (name : rstr) : bool :=
  eq_ignore_ascii_case (trim_end_dots name) (str "localhost").
Definition target_matches_non_public_addr (host : TargetHost) (addr : IpAddr) : bool :=
  match host with
  | TargetAddress ip _ => bool_decide (ip = addr)
  | TargetName name => is_localhost_name name && ip_is_loopback addr
  end.
Definition is_non_public_target (host : TargetHost) : bool :=
  match host with
  | TargetAddress ip _ => is_non_public_ip ip
  | TargetName name => is_localhost_name name
  end.

Definition allows_non_public_target (st : ConfigState) (lookup : rstr → option (list IpAddr))
    (target : TargetHost) (addr : IpAddr) : bool :=
  if allow_local_binding (config st) then true
  else if target_matches_non_public_addr target addr
  then bool_decide (host_blocked st lookup (target_text target) = Allowed)
  else false.
(** [connect]: whether the connection is attempted *)
Definition connect_allowed (st : ConfigState) (lookup : rstr → option (list IpAddr))
    (target : TargetHost) (addr : IpAddr) : bool :=
  negb (is_non_public_ip addr && negb (allows_non_public_target st lookup target addr)).

(** ** Where a request is sent *)

(** [upstream.rs].  [ProxyAddress] of the crate [rama_net]: whether its protocol, if it
    has one, is HTTP, and its address *)
Record ProxyAddress := mkProxyAddress { proxy_is_http : option bool; proxy_address : rstr }.
Record ProxyConfig := mkUpstream {
  http_upstream : option ProxyAddress;
  https_upstream : option ProxyAddress;
  all_upstream : option ProxyAddress;
}.
Definition no_upstream : ProxyConfig := mkUpstream None None None.
Definition or_else {A} (a b : option A) : option A := match a with Some _ => a | None => b end.

Section upstream.
(** The environment of the process, and [ProxyAddress::try_from] *)
Context (env : rstr → option rstr) (proxy_from : rstr → option ProxyAddress).

Fixpoint read_proxy_env (keys : list rstr) : option ProxyAddress :=
  match keys with
  | [] => None
  | key :: keys =>
      match env key with
      | None => read_proxy_env keys
      | Some value =>
          let value := trim value in
          if is_empty value then read_proxy_env keys
          else
            match proxy_from value with
            | Some proxy => if default true (proxy_is_http proxy) then Some proxy else read_proxy_env keys
            | None => read_proxy_env keys
            end
      end
  end.
Definition upstream_from_env : ProxyConfig :=
  mkUpstream (read_proxy_env [str "HTTP_PROXY"; str "http_proxy"]) (read_proxy_env [str "HTTPS_PROXY"; str "https_proxy"])
    (read_proxy_env [str "ALL_PROXY"; str "all_proxy"]).
Definition proxy_for_protocol (c : ProxyConfig) (is_secure : bool) : option ProxyAddress :=
  if is_secure then or_else (https_upstream c) (or_else (http_upstream c) (all_upstream c))
  else or_else (http_upstream c) (all_upstream c).
Definition proxy_for_target (c : ProxyConfig) (target : TargetHost) (is_secure : bool) : option ProxyAddress :=
  if is_non_public_target target then None else proxy_for_protocol c is_secure.
Definition proxy_for_connect (target : TargetHost) : option ProxyAddress :=
  proxy_for_target upstream_from_env target true.

(** A CONNECT tunnel ([http_proxy.rs]), or a request forwarded by [UpstreamClient] with
    its target and whether it is secure, if they can be read *)
Inductive UpstreamRequest :=
| ConnectTunnel (target : TargetHost)
| ForwardRequest (context : option (TargetHost * bool)).
Definition request_target (request : UpstreamRequest) : option TargetHost :=
  match request with ConnectTunnel target => Some target | ForwardRequest context => fst <$> context end.
Definition selected_proxy (st : ConfigState) (request : UpstreamRequest) : option ProxyAddress :=
  match request with
  | ConnectTunnel target => if allow_upstream_proxy (config st) then proxy_for_connect target else None
  | ForwardRequest context =>
      let proxy_config := if allow_upstream_proxy (config st) then upstream_from_env else no_upstream in
      match context with
      | None => proxy_for_protocol proxy_config false
      | Some (target, is_secure) => proxy_for_target proxy_config target is_secure
      end
  end.
(** [TargetCheckedTcpConnector::serve]: whose addresses are dialled *)
Inductive Dial := DialProxy (proxy : ProxyAddress) | DialTarget (target : TargetHost) | DialFails.
Definition serve (st : ConfigState) (request : UpstreamRequest) : Dial :=
  match selected_proxy st request with
  | Some proxy => DialProxy proxy
  | None => match request_target request with Some target => DialTarget target | None => DialFails end
  end.
End upstream.
(** Whether a connection to the address is attempted: addresses of an upstream proxy
    are not checked. *)
Definition dial_attempted (st : ConfigState) (lookup : rstr → option (list IpAddr)) (dial : Dial) (addr : IpAddr) : bool :=
  match dial with
  | DialProxy _ => true
  | DialTarget target => connect_allowed st lookup target addr
  | DialFails => false
  end.

(** ** The policy decision, with a decider *)

Inductive NetworkDecisionSource := BaselinePolicy | ModeGuard | ProxyState | Decider.
Inductive NetworkPolicyDecision := DecisionDeny | DecisionAsk.
Inductive NetworkDecision :=
| DecideAllow
| DecideDeny (reason : rstr) (source : NetworkDecisionSource) (decision : NetworkPolicyDecision).

Definition reason_str (r : HostBlockReason) : rstr :=
  match r with
  | Denied => str "denied"
  | NotAllowed => str "not_allowed"
  | NotAllowedLocal => str "not_allowed_local"
  end.
Definition nonempty_reason (reason : rstr) : rstr := if is_empty reason then str "policy_denied" else reason.
Definition deny_with_source (reason : rstr) (source : NetworkDecisionSource) : NetworkDecision :=
  DecideDeny (nonempty_reason reason) source DecisionDeny.
Definition ask_with_source (reason : rstr) (source : NetworkDecisionSource) : NetworkDecision :=
  DecideDeny (nonempty_reason reason) source DecisionAsk.
Definition map_decider_decision (d : NetworkDecision) : NetworkDecision :=
  match d with
  | DecideAllow => DecideAllow
  | DecideDeny reason _ decision => DecideDeny reason Decider decision
  end.
(** [decider] is its answer to the request, and the flag is [policy_override]. *)
Definition evaluate_host_policy (st : ConfigState) (lookup : rstr → option (list IpAddr))
    (decider : option (rstr → NetworkDecision)) (host : rstr) : NetworkDecision * bool :=
  match host_blocked st lookup host with
  | Allowed => (DecideAllow, false)
  | Blocked NotAllowed =>
      match decider with
      | Some decide =>
          let d := map_decider_decision (decide host) in
          (d, match d with DecideAllow => true | DecideDeny _ _ _ => false end)
      | None => (deny_with_source (reason_str NotAllowed) BaselinePolicy, false)
      end
  | Blocked reason => (deny_with_source (reason_str reason) BaselinePolicy, false)
  end.
End decision.

(** ** Operations on the shared state *)

Definition MAX_BLOCKED_EVENTS : nat := 200.
Definition u64_max : N := 18446744073709551615.

Definition with_blocked (b : list BlockedRequest) (total : N) (st : ConfigState) : ConfigState :=
  mkState (config st) (brokerage_created_default_allowlist st) (allow_set st) (deny_set st) (state_mitm st)
    (state_mitm_hooks st) (constraints st) b total.
Definition with_config (c : NetworkProxyConfig) (st : ConfigState) : ConfigState :=
  mkState c (brokerage_created_default_allowlist st) (allow_set st) (deny_set st) (state_mitm st)
    (state_mitm_hooks st) (constraints st) (blocked st) (blocked_total st).

(** [reload_if_needed] and [replace_config_state] with a new state, and [force_reload] *)
Definition replace_state (guard new_state : ConfigState) : ConfigState :=
  with_blocked (blocked guard) (blocked_total guard) new_state.
Definition force_reload (guard new_state : ConfigState) : ConfigState :=
  with_blocked (blocked guard) (blocked_total new_state) new_state.

Definition with_execution_id (id : option rstr) (e : BlockedRequest) : BlockedRequest :=
  mkBlocked (blocked_host e) (blocked_reason e) (blocked_client e) (blocked_method e) (blocked_mode e)
    (blocked_protocol e) id (blocked_decision e) (blocked_source e) (blocked_port e) (blocked_timestamp e).
Definition record_blocked (execution_id : option rstr) (entry : BlockedRequest) (guard : ConfigState) : ConfigState :=
  let b := blocked guard ++ [with_execution_id execution_id entry] in
  with_blocked (drop (length b - MAX_BLOCKED_EVENTS) b) (N.min (blocked_total guard + 1) u64_max) guard.
Definition blocked_snapshot (guard : ConfigState) : list BlockedRequest := blocked guard.
Definition drain_blocked (guard : ConfigState) : list BlockedRequest * ConfigState :=
  (blocked guard, with_blocked [] (blocked_total guard) guard).

Inductive DomainListKind := AllowList | DenyList.
Definition kind_permission (k : DomainListKind) : NetworkDomainPermission :=
  match k with AllowList => PermAllow | DenyList => PermDeny end.
Definition kind_entries (k : DomainListKind) (c : NetworkProxyConfig) : list rstr :=
  default [] (match k with AllowList => allowed_domains c | DenyList => denied_domains c end).
Definition opposite_entries (k : DomainListKind) (c : NetworkProxyConfig) : list rstr :=
  default [] (match k with AllowList => denied_domains c | DenyList => allowed_domains c end).

(** What an operation has computed when it asks for the write lock *)
Inductive Pending :=
| PendingMode (m : NetworkMode) (k : NetworkProxyConstraints)
| PendingUpdate (previous_cfg : NetworkProxyConfig) (k : NetworkProxyConstraints) (new_state : ConfigState).
Inductive UpdateError :=
| InvalidHost
| ConstrainedUpdate (err : NetworkProxyConstraintError)
| BuildFailed (err : BuildError).

Section operations.
Context `{HostTools, HookTools, PathEnv, SecretEnv}.

(** The first half of [set_network_mode] *)
Definition prepare_mode (guard : ConfigState) (m : NetworkMode) : result NetworkProxyConstraintError Pending :=
  _ ← validate_policy_against_constraints (with_mode m (config guard)) (constraints guard);
  Ok (PendingMode m (constraints guard)).
(** The first half of [update_domain_list]; [None] when there is nothing to do *)
Definition prepare_update (guard : ConfigState) (host : rstr) (kind : DomainListKind)
    : result UpdateError (option Pending) :=
  normalized_host ← ok_or (host_parse host) InvalidHost;
  let previous_cfg := config guard in
  let names_host := λ entry, str_eqb (normalize_host entry) normalized_host in
  let target_contains := existsb names_host (kind_entries kind previous_cfg) in
  let opposite_contains := existsb names_host (opposite_entries kind previous_cfg) in
  if target_contains && negb opposite_contains then Ok None
  else
    let candidate := upsert_domain_permission normalized_host (kind_permission kind) normalize_host previous_cfg in
    _ ← map_err ConstrainedUpdate (validate_policy_against_constraints candidate (constraints guard));
    new_state ← map_err BuildFailed (build_config_state candidate (constraints guard));
    Ok (Some (PendingUpdate previous_cfg (constraints guard)
                (with_blocked (blocked guard) (blocked_total guard) new_state))).

(** The second half, under the write lock; [None] is another round of the loop *)
Definition commit (guard : ConfigState) (p : Pending) : option ConfigState :=
  match p with
  | PendingMode m k =>
      if bool_decide (constraints guard = k) then Some (with_config (with_mode m (config guard)) guard) else None
  | PendingUpdate previous_cfg k new_state =>
      if bool_decide (constraints guard = k) && bool_decide (config guard = previous_cfg)
      then Some new_state else None
  end.

(** ** Queries *)

Definition method_allowed (guard : ConfigState) (method : rstr) : bool := allows_method (mode (config guard)) method.
(** [supported] is the platform test and [canonicalize] the file system's. *)
Definition is_unix_socket_allowed (supported : bool) (canonicalize : rstr → option rstr) (guard : ConfigState)
    (path : rstr) : bool :=
  if negb supported then false
  else if negb (path_is_absolute path) then false
  else if dangerously_allow_all_unix_sockets (config guard) then true
  else match from_absolute_path path with
       | None => false
       | Some requested_abs =>
           existsb (λ allowed,
             match parse_unix_socket_path allowed with
             | Some (Native allowed_path) =>
                 str_eqb allowed_path requested_abs
                 || match canonicalize requested_abs, canonicalize allowed_path with
                    | Some requested, Some allowed => str_eqb allowed requested
                    | _, _ => false
                    end
             | _ => false
             end) (allow_unix_sockets (config guard))
       end.
End operations.
