(* ===== verification/NetworkSpec.v ===== *)
(** From requirements and rules to the configuration of the network proxy:
    [core/src/config/network_proxy_spec.rs], with the policy of an execution
    environment ([network-proxy/src/environment_policy.rs]) and the requirements
    of [config/src/config_requirements.rs]. *)

From stdpp Require Import gmap.
From S2P Require Import Prelude PathUris FsPolicy ExecPolicy ExecApproval IpAddr NetworkPolicy AbsolutePath MitmHook NetworkConfig NetworkState NetworkRuntime.
#[local] Opaque str.

(** ** Requirements *)

Inductive NetworkDomainPermissionToml := TomlAllow | TomlDeny.
Inductive NetworkUnixSocketPermissionToml := TomlSocketAllow | TomlSocketDeny.
#[global] Instance domain_permission_toml_eq_dec : EqDecision NetworkDomainPermissionToml.
Proof. solve_decision. Defined.
#[global] Instance socket_permission_toml_eq_dec : EqDecision NetworkUnixSocketPermissionToml.
Proof. solve_decision. Defined.

(** The keys of a [BTreeMap] with the value [p], in order *)
Definition keys_with {A} `{EqDecision A} (p : A) (entries : gmap rstr A) : list rstr :=
  sort_by_key id (map_to_list (filter (λ '(_, q), q = p) entries)).*1.
Definition some_unless_empty (l : list rstr) : option (list rstr) := if is_empty l then None else Some l.
Definition toml_allowed_domains (entries : gmap rstr NetworkDomainPermissionToml) : option (list rstr) :=
  some_unless_empty (keys_with TomlAllow entries).
Definition toml_denied_domains (entries : gmap rstr NetworkDomainPermissionToml) : option (list rstr) :=
  some_unless_empty (keys_with TomlDeny entries).
Definition toml_allow_unix_sockets (entries : gmap rstr NetworkUnixSocketPermissionToml) : list rstr :=
  keys_with TomlSocketAllow entries.

(** Without [header_injections], which the proxy specification does not read *)
Record NetworkConstraints := mkRequirements {
  r_enabled : option bool;
  r_http_port : option N;
  r_socks_port : option N;
  r_allow_upstream_proxy : option bool;
  r_dangerously_allow_non_loopback_proxy : option bool;
  r_dangerously_allow_all_unix_sockets : option bool;
  r_domains : option (gmap rstr NetworkDomainPermissionToml);
  r_managed_allowed_domains_only : option bool;
  r_unix_sockets : option (gmap rstr NetworkUnixSocketPermissionToml);
  r_allow_local_binding : option bool;
}.

(** ** The policy of an execution environment *)

Record EnvironmentNetworkPolicy := mkEnvironment {
  e_domains : option (list NetworkDomainPermissionEntry);
  e_unix_sockets : option (gmap rstr NetworkUnixSocketPermission);
  e_allow_upstream_proxy : bool;
  e_dangerously_allow_all_unix_sockets : bool;
  e_allow_local_binding : bool;
  e_managed_allowed_domains_only : bool;
}.
Definition environment_from_config (c : NetworkProxyConfig) (managed_allowed_domains_only : bool)
    : EnvironmentNetworkPolicy :=
  mkEnvironment (domains c) (unix_sockets c) (allow_upstream_proxy c) (dangerously_allow_all_unix_sockets c)
    (allow_local_binding c) managed_allowed_domains_only.

(** "Allow all" counts only when no socket is denied. *)
Definition permits_all (allow_all : bool) (sockets : gmap rstr NetworkUnixSocketPermission) : bool :=
  allow_all && negb (existsb (λ e, bool_decide (e.2 = SocketDeny)) (map_to_list sockets)).

(** [effective_sockets]: the owner's entries that are kept, and over them those
    of the inherited map that are copied *)
Definition effective_sockets (inherited_permits_all owner_permits_all : bool)
    (inherited owner : gmap rstr NetworkUnixSocketPermission) : gmap rstr NetworkUnixSocketPermission :=
  let retained := filter (λ '(path, permission),
    permission = SocketDeny ∨ inherited_permits_all = true ∨ inherited !! path = Some SocketAllow) owner in
  let copied := filter (λ '(_, permission), owner_permits_all = true ∨ permission = SocketDeny) inherited in
  copied ∪ retained.

Definition apply_to (p : EnvironmentNetworkPolicy) (c : NetworkProxyConfig) : NetworkProxyConfig :=
  let inherited_denials := default [] (denied_domains c) in
  let c := with_domains (e_domains p) c in
  let c := foldl (λ c domain, upsert_domain_permission domain PermDeny normalize_host c) c inherited_denials in
  let inherited_sockets := default ∅ (unix_sockets c) in
  let owner_sockets := default ∅ (e_unix_sockets p) in
  let inherited_permits_all := permits_all (dangerously_allow_all_unix_sockets c) inherited_sockets in
  let owner_permits_all := permits_all (e_dangerously_allow_all_unix_sockets p) owner_sockets in
  let sockets := effective_sockets inherited_permits_all owner_permits_all inherited_sockets owner_sockets in
  let c := with_unix_sockets (if decide (sockets = ∅) then None else Some sockets) c in
  let c := with_all_unix_sockets (inherited_permits_all && owner_permits_all) c in
  let c := with_upstream_proxy (allow_upstream_proxy c && e_allow_upstream_proxy p) c in
  with_local_binding (allow_local_binding c && e_allow_local_binding p) c.

(** ** Rules of the command policy *)

(** [incoming] is the set of the hosts so far. *)
Fixpoint upsert_hosts (p : NetworkDomainPermission) (incoming : list rstr) (hosts : list rstr)
    (c : NetworkProxyConfig) : NetworkProxyConfig :=
  match hosts with
  | [] => c
  | host :: hosts =>
      if bool_decide (host ∈ incoming) then upsert_hosts p incoming hosts c
      else upsert_hosts p (host :: incoming) hosts (upsert_domain_permission host p normalize_host c)
  end.
Definition upsert_network_domains (c : NetworkProxyConfig) (hosts : list rstr) (allow : bool) : NetworkProxyConfig :=
  upsert_hosts (if allow then PermAllow else PermDeny) [] hosts c.

Definition apply_exec_policy_network_rules (c : NetworkProxyConfig) (exec_policy : Policy) : NetworkProxyConfig :=
  let '(allowed, denied) := compiled_network_domains exec_policy in
  upsert_network_domains (upsert_network_domains c allowed true) denied false.

(** ** The specification of a proxy *)

Record NetworkProxySpec := mkSpec {
  base_config : NetworkProxyConfig;
  requirements : option NetworkConstraints;
  spec_config : NetworkProxyConfig;
  spec_constraints : NetworkProxyConstraints;
  hard_deny_allowlist_misses : bool;
}.
Inductive SpecError :=
| ConstraintsInvalid (err : NetworkProxyConstraintError)
| EnvironmentRequiresManaged
| ControllerDisabled
| EnvironmentViolates (err : NetworkProxyConstraintError)
| BuildStateFailed (err : BuildError).

Definition constraints_default : NetworkProxyConstraints :=
  mkConstraints None None None None None None None None None None None.

(** [if let Some(x) = o { .. }] *)
Definition when_some {A B} (o : option A) (f : A → B → B) (b : B) : B :=
  match o with Some a => f a b | None => b end.

Definition merge_domain_lists (managed user_entries : list rstr) : list rstr :=
  foldl (λ managed entry,
    if existsb (λ managed_entry, eq_ignore_ascii_case managed_entry entry) managed
    then managed else managed ++ [entry]) managed user_entries.
Definition managed_allowed_domains_only (r : NetworkConstraints) : bool :=
  default false (r_managed_allowed_domains_only r).

Section spec.
Context `{HostTools, HookTools, PathEnv, SecretEnv, UrlTools, FileUrls}.

Definition managed_sandbox_active (permission_profile : PermissionProfile) : bool :=
  match permission_profile with Managed _ _ => true | _ => false end.
Definition allowlist_expansion_enabled (permission_profile : PermissionProfile) (hard_deny : bool) : bool :=
  managed_sandbox_active permission_profile && negb hard_deny.
Definition denylist_expansion_enabled (permission_profile : PermissionProfile) : bool :=
  managed_sandbox_active permission_profile.

(** The managed lists that the requirements give *)
Definition managed_allowed (r : NetworkConstraints) (hard_deny : bool) : option (list rstr) :=
  let allowed := r_domains r ≫= toml_allowed_domains in
  if hard_deny then Some (default [] allowed) else allowed.
Definition managed_denied (r : NetworkConstraints) : option (list rstr) := r_domains r ≫= toml_denied_domains.
(** A managed list, extended by the user's entries when expansion is on *)
Definition effective_domains (expansion : bool) (managed : list rstr) (user : option (list rstr)) : list rstr :=
  if expansion then merge_domain_lists managed (default [] user) else managed.

Definition local_url (port : N) : rstr := str "http://127.0.0.1:" ++ str (pretty port).
Definition apply_requirements (c : NetworkProxyConfig) (r : NetworkConstraints) (permission_profile : PermissionProfile)
    (hard_deny : bool) : NetworkProxyConfig * NetworkProxyConstraints :=
  let allow_expansion := allowlist_expansion_enabled permission_profile hard_deny in
  let deny_expansion := denylist_expansion_enabled permission_profile in
  let c := when_some (r_enabled r) with_enabled c in
  let c := when_some (r_http_port r) (λ port, with_proxy_url (local_url port)) c in
  let c := when_some (r_socks_port r) (λ port, with_socks_url (local_url port)) c in
  let c := when_some (r_allow_upstream_proxy r) with_upstream_proxy c in
  let c := when_some (r_dangerously_allow_non_loopback_proxy r) with_non_loopback_proxy c in
  let c := when_some (r_dangerously_allow_all_unix_sockets r) with_all_unix_sockets c in
  let c := when_some (managed_allowed r hard_deny) (λ managed c,
             set_allowed_domains (effective_domains allow_expansion managed (allowed_domains c)) c) c in
  let c := when_some (managed_denied r) (λ managed c,
             set_denied_domains (effective_domains deny_expansion managed (denied_domains c)) c) c in
  let c := when_some (r_unix_sockets r) (λ sockets, set_allow_unix_sockets (toml_allow_unix_sockets sockets)) c in
  let c := when_some (r_allow_local_binding r) with_local_binding c in
  (c, {| c_enabled := r_enabled r; c_mode := None;
         c_allow_upstream_proxy := r_allow_upstream_proxy r;
         c_dangerously_allow_non_loopback_proxy := r_dangerously_allow_non_loopback_proxy r;
         c_dangerously_allow_all_unix_sockets := r_dangerously_allow_all_unix_sockets r;
         c_allowed_domains := managed_allowed r hard_deny;
         c_allowlist_expansion_enabled := (λ _, allow_expansion) <$> managed_allowed r hard_deny;
         c_denied_domains := managed_denied r;
         c_denylist_expansion_enabled := (λ _, deny_expansion) <$> managed_denied r;
         c_allow_unix_sockets := toml_allow_unix_sockets <$> r_unix_sockets r;
         c_allow_local_binding := r_allow_local_binding r |}).

Definition from_config_and_constraints (c : NetworkProxyConfig) (reqs : option NetworkConstraints)
    (permission_profile : PermissionProfile) : result SpecError NetworkProxySpec :=
  let hard_deny := match reqs with Some r => managed_allowed_domains_only r | None => false end in
  let '(config, constraints) :=
    match reqs with
    | Some r => apply_requirements c r permission_profile hard_deny
    | None => (c, constraints_default)
    end in
  _ ← map_err ConstraintsInvalid (validate_policy_against_constraints config constraints);
  Ok (mkSpec c reqs config constraints hard_deny).
Definition recompute_for_permission_profile (s : NetworkProxySpec) (permission_profile : PermissionProfile)
    : result SpecError NetworkProxySpec :=
  from_config_and_constraints (base_config s) (requirements s) permission_profile.

Definition with_exec_policy_network_rules (s : NetworkProxySpec) (exec_policy : Policy)
    : result SpecError NetworkProxySpec :=
  let config := apply_exec_policy_network_rules (spec_config s) exec_policy in
  _ ← map_err ConstraintsInvalid (validate_policy_against_constraints config (spec_constraints s));
  Ok (mkSpec (base_config s) (requirements s) config (spec_constraints s) (hard_deny_allowlist_misses s)).

(** What an environment without a controller starts from *)
Definition owner_ceiling : NetworkProxyConfig :=
  with_local_binding true (with_all_unix_sockets true (with_enabled true config_default)).
(** The constraints after the owner's policy: the lists are replaced. *)
Definition environment_constraints (k : NetworkProxyConstraints) (fixed_allowlist allow_owner_grants : bool)
    (allowed : option (list rstr)) (denied : option (list rstr)) : NetworkProxyConstraints :=
  mkConstraints (c_enabled k) (c_mode k) (c_allow_upstream_proxy k) (c_dangerously_allow_non_loopback_proxy k)
    (c_dangerously_allow_all_unix_sockets k)
    (if fixed_allowlist then c_allowed_domains k else Some (default [] allowed))
    (if fixed_allowlist then None else Some allow_owner_grants)
    denied (Some true) (c_allow_unix_sockets k) (c_allow_local_binding k).

Definition for_environment (controller : option NetworkProxySpec) (policy : EnvironmentNetworkPolicy)
    (permission_profile : PermissionProfile) (exec_policy : Policy) : result SpecError NetworkProxySpec :=
  if match permission_profile with ProfileDisabled => true | _ => false end then Err EnvironmentRequiresManaged
  else if match controller with Some s => negb (enabled (spec_config s)) | None => false end
  then Err ControllerDisabled
  else
    spec ← match controller with
           | Some s => recompute_for_permission_profile s permission_profile
           | None => from_config_and_constraints owner_ceiling None permission_profile
           end;
    let config := apply_to policy (spec_config spec) in
    let protected_denials := default [] (denied_domains config) in
    let fixed_allowlist :=
      hard_deny_allowlist_misses spec
      || bool_decide (c_allowlist_expansion_enabled (spec_constraints spec) = Some false) in
    let hard_deny :=
      hard_deny_allowlist_misses spec || e_managed_allowed_domains_only policy
      || negb (managed_sandbox_active permission_profile) in
    let allow_owner_grants := negb hard_deny && negb fixed_allowlist in
    let owner_allowed := allowed_domains config in
    let '(allowed, denied) := compiled_network_domains exec_policy in
    let config := if allow_owner_grants then upsert_network_domains config allowed true else config in
    let config := upsert_network_domains config denied false in
    let config := upsert_network_domains config protected_denials false in
    let constraints :=
      environment_constraints (spec_constraints spec) fixed_allowlist allow_owner_grants owner_allowed
        (denied_domains config) in
    _ ← map_err EnvironmentViolates (validate_policy_against_constraints config constraints);
    Ok (mkSpec (base_config spec) (requirements spec) config constraints hard_deny).

(** ** Running a proxy *)

Definition build_config_state_for_spec (s : NetworkProxySpec) : result SpecError ConfigState :=
  map_err BuildStateFailed (build_config_state (spec_config s) (spec_constraints s)).
(** The decider that [start_proxy] gives the proxy; [NetworkDecision::ask] *)
Definition start_decider (s : NetworkProxySpec) (permission_profile : PermissionProfile)
    (policy_decider : option (rstr → NetworkDecision)) (enable_network_approval_flow : bool)
    : option (rstr → NetworkDecision) :=
  if enable_network_approval_flow && negb (hard_deny_allowlist_misses s) then
    match policy_decider with
    | Some d => Some d
    | None => if managed_sandbox_active permission_profile
              then Some (λ _, ask_with_source (str "not_allowed") Decider) else None
    end
  else None.

Definition spec_enabled (s : NetworkProxySpec) : bool := enabled (spec_config s).
Definition credential_broker_enabled (s : NetworkProxySpec) : bool :=
  credential_broker (spec_config s) && negb (bool_decide (c_enabled (spec_constraints s) = Some false)).
Definition proxy_host_and_port (s : NetworkProxySpec) : rstr :=
  host_and_port_from_network_addr (proxy_url (spec_config s)) 3128.
Definition environment_policy (s : NetworkProxySpec) : EnvironmentNetworkPolicy :=
  environment_from_config (spec_config s) (hard_deny_allowlist_misses s).
End spec.
