(* ===== verification/NetworkStateProps.v ===== *)
(** Properties of the proxy configuration: which permission a domain has, what a
    validated configuration promises and that compiling it keeps the promise. *)

From stdpp Require Import gmap.
From S2P Require Import Prelude NetworkPolicy AbsolutePath MitmHook NetworkConfig NetworkState.
#[local] Opaque str.

(** ** Effective permissions *)

Lemma permission_rank_inj p q : permission_rank p = permission_rank q → p = q.
Proof. by destruct p, q. Qed.
Lemma entry_eq e f : pattern e = pattern f → permission_rank (permission e) = permission_rank (permission f) → e = f.
Proof. destruct e, f. simpl. intros -> ?%permission_rank_inj. by subst. Qed.

(** [e] is the strongest entry for its pattern. *)
Definition strongest (l : list NetworkDomainPermissionEntry) (e : NetworkDomainPermissionEntry) : Prop :=
  e ∈ l ∧ ∀ f, f ∈ l → pattern f = pattern e → permission_rank (permission f) ≤ permission_rank (permission e).

Lemma raise_entry_patterns acc x :
  pattern <$> raise_entry acc x
  = (pattern <$> acc) ++ (if bool_decide (pattern x ∈ pattern <$> acc) then [] else [pattern x]).
Proof.
  induction acc as [|e acc IH]; [done|]. cbn [raise_entry].
  unfold str_eqb. destruct (decide (pattern e = pattern x)) as [E|E].
  - rewrite (bool_decide_eq_true_2 (pattern e = pattern x)) by done.
    rewrite bool_decide_eq_true_2 by (rewrite <-E, fmap_cons; apply list_elem_of_here).
    rewrite app_nil_r, !fmap_cons. destruct (_ <? _); by rewrite ?E.
  - rewrite (bool_decide_eq_false_2 (pattern e = pattern x)) by done.
    rewrite !fmap_cons, IH. simpl. f_equal. f_equal.
    erewrite bool_decide_ext; [done|]. rewrite elem_of_cons. naive_solver.
Qed.
Lemma effective_NoDup l : NoDup (pattern <$> effective_entries l).
Proof.
  unfold effective_entries. induction l as [|x l IH] using rev_ind; [constructor|].
  rewrite foldl_app. simpl. rewrite raise_entry_patterns. case_bool_decide as E; [by rewrite app_nil_r|].
  apply NoDup_app. split; [done|]. split; [set_solver|]. apply NoDup_singleton.
Qed.

Notation rank e := (permission_rank (permission e)).
Lemma raise_entry_elem acc x e :
  NoDup (pattern <$> acc) →
  e ∈ raise_entry acc x
  ↔ (e ∈ acc ∧ (pattern e = pattern x → rank x ≤ rank e))
    ∨ (e = x ∧ ∀ f, f ∈ acc → pattern f = pattern x → rank f < rank x).
Proof.
  induction acc as [|a acc IH]; intros Hd; [set_solver|].
  rewrite fmap_cons in Hd. apply NoDup_cons in Hd as [Ha Hd]. cbn [raise_entry].
  assert (∀ f, f ∈ acc → pattern f ≠ pattern a) as Hacc.
  { intros f Hf Ef. apply Ha. rewrite <-Ef. by apply list_elem_of_fmap_2. }
  unfold str_eqb. case_bool_decide as E.
  - destruct (Nat.ltb_spec (rank a) (rank x)).
    + rewrite !elem_of_cons. split.
      * intros [->|He]; [right|left].
        -- split; [done|]. intros f [->|Hf]%elem_of_cons Ef; [done|]. exfalso. apply (Hacc f); congruence.
        -- split; [by right|]. intros Ee. exfalso. apply (Hacc e); congruence.
      * intros [[[->|He] Hr]|[-> _]]; [|by right|by left]. specialize (Hr E). lia.
    + rewrite !elem_of_cons. split.
      * intros [->|He]; left.
        -- split; [by left|done].
        -- split; [by right|]. intros Ee. exfalso. apply (Hacc e); congruence.
      * intros [[? _]|[-> Hr]]; [done|]. specialize (Hr a ltac:(set_solver) E). lia.
  - rewrite !elem_of_cons, IH by done. set_solver.
Qed.

Lemma strongest_exists l f : f ∈ l → ∃ g, strongest l g ∧ pattern g = pattern f.
Proof.
  intros Hf. induction l as [|a l IH] in f, Hf |- *; [set_solver|].
  assert (∀ g, g ∈ l → ∃ h, strongest (a :: l) h ∧ pattern h = pattern g) as Hl.
  { intros g (h & [Hh Hm] & Eh)%IH. destruct (decide (pattern a = pattern h ∧ rank h ≤ rank a)) as [[Ea Ra]|Hn].
    - exists a. split; [|congruence]. split; [set_solver|]. intros f' [->|Hf']%elem_of_cons Ef; [done|].
      etrans; [apply Hm; congruence|done].
    - exists h. split; [|done]. split; [set_solver|]. intros f' [->|Hf']%elem_of_cons Ef; [|auto].
      destruct (decide (rank h ≤ rank a)); [|lia]. exfalso. auto. }
  apply elem_of_cons in Hf as [->|Hf]; [|by apply Hl].
  destruct (decide (Exists (λ g, pattern g = pattern a) l)) as [(g & Hg & Eg)%Exists_exists|Hn].
  - destruct (Hl g Hg) as (h & ? & ?). exists h. split; [done|congruence].
  - exists a. split; [|done]. split; [set_solver|]. intros g [->|Hg]%elem_of_cons Eg; [done|].
    exfalso. apply Hn, Exists_exists. eauto.
Qed.
Lemma effective_strongest l e : e ∈ effective_entries l ↔ strongest l e.
Proof.
  revert e. induction l as [|x l IH] using rev_ind; intros e; [unfold strongest; set_solver|].
  pose proof (effective_NoDup l) as Hnd. unfold effective_entries in *. rewrite foldl_app. simpl.
  rewrite raise_entry_elem by done. setoid_rewrite IH. unfold strongest at 1 3.
  setoid_rewrite elem_of_app. setoid_rewrite list_elem_of_singleton. split.
  - intros [[[He Hm] Hx]|[-> Hf]].
    + split; [by left|]. intros f [Hf| ->] Ef; auto.
    + split; [by right|]. intros f [Hf'| ->] Ef; [|done].
      destruct (strongest_exists l f Hf') as (g & Hg & Eg).
      pose proof (Hf g Hg ltac:(congruence)). destruct Hg as [_ Hg]. specialize (Hg f Hf' (eq_sym Eg)). lia.
  - intros [He Hm]. destruct (decide (e ∈ l)) as [Hl|Hl]; [left; split; [split; [done|]|]; auto|].
    destruct He as [He| ->]; [done|]. right. split; [done|]. intros f [Hf _] Ef.
    destruct (decide (rank f = rank x)) as [E|E]; [|specialize (Hm f (or_introl Hf) Ef); lia].
    exfalso. apply Hl. by rewrite <-(entry_eq f x).
Qed.

(** The entries of a configuration, and the lists read off them *)
Definition entries_of (c : NetworkProxyConfig) : list NetworkDomainPermissionEntry := default [] (domains c).
Definition allowed_of (c : NetworkProxyConfig) : list rstr := default [] (allowed_domains c).
Definition denied_of (c : NetworkProxyConfig) : list rstr := default [] (denied_domains c).

Lemma elem_of_domain_entries p c x :
  x ∈ default [] (domain_entries p c) ↔ strongest (entries_of c) (mkEntry x p).
Proof.
  rewrite <-effective_strongest. unfold domain_entries, entries_of.
  destruct (domains c) as [l|]; simpl; [|unfold effective_entries; set_solver].
  assert (x ∈ pattern <$> filter (λ e, permission e = p) (effective_entries l) ↔ mkEntry x p ∈ effective_entries l) as Hx.
  { rewrite list_elem_of_fmap. setoid_rewrite list_elem_of_filter. split.
    - intros ([y q] & -> & [Hq Hin]). simpl in *. by subst.
    - intros Hin. by exists (mkEntry x p). }
  rewrite <-Hx. destruct (pattern <$> _); done.
Qed.
Lemma elem_of_denied c x : x ∈ denied_of c ↔ mkEntry x PermDeny ∈ entries_of c.
Proof.
  unfold denied_of, denied_domains. rewrite elem_of_domain_entries. split; [by intros []|].
  intros Hin. split; [done|]. intros [y []] _ _; simpl; lia.
Qed.
Lemma elem_of_allowed c x :
  x ∈ allowed_of c ↔ mkEntry x PermAllow ∈ entries_of c ∧ mkEntry x PermDeny ∉ entries_of c.
Proof.
  unfold allowed_of, allowed_domains. rewrite elem_of_domain_entries. split.
  - intros [Hin Hm]. split; [done|]. intros Hd. specialize (Hm _ Hd eq_refl). simpl in Hm. lia.
  - intros [Hin Hd]. split; [done|]. intros [y []] Hf Ef; simpl in *; subst; [lia|lia|done].
Qed.

(** A domain is denied exactly when some entry denies it, allowed exactly when
    an entry allows and none denies it, and neither list has duplicates. *)
Theorem deny_overrides_allow c :
  (∀ x, x ∈ denied_of c ↔ mkEntry x PermDeny ∈ entries_of c)
  ∧ (∀ x, x ∈ allowed_of c ↔ mkEntry x PermAllow ∈ entries_of c ∧ mkEntry x PermDeny ∉ entries_of c)
  ∧ NoDup (allowed_of c) ∧ NoDup (denied_of c).
Proof.
  split; [apply elem_of_denied|]. split; [apply elem_of_allowed|].
  assert (∀ p, NoDup (default [] (domain_entries p c))) as Hnd; [|split; apply Hnd].
  intros p. unfold domain_entries. destruct (domains c) as [l|]; simpl; [|constructor].
  case_match; [constructor|]. simpl.
  eapply sublist_NoDup; [apply effective_NoDup|]. apply fmap_sublist, sublist_filter.
Qed.

(** ** Updates of the lists *)

Lemma entries_of_some c l : entries_of (with_domains (some_entries l) c) = l.
Proof. unfold entries_of, some_entries. simpl. by destruct l. Qed.

Lemma elem_of_push_entries p l xs e :
  e ∈ foldl (push_entry p) l xs ↔ e ∈ l ∨ (permission e = p ∧ pattern e ∈ xs).
Proof.
  revert l. induction xs as [|x xs IH]; intros l; simpl; [set_solver|].
  rewrite IH. unfold push_entry. destruct (existsb _ l) eqn:E.
  - apply existsb_exists in E as ([y q] & Hin & [Ey Eq]%andb_true_iff).
    apply list_elem_of_In in Hin. apply bool_decide_eq_true in Ey, Eq. simpl in *. subst.
    rewrite elem_of_cons. split; [naive_solver|].
    intros [?|[Ep [Ex|?]]]; [by left| |by right]. left. destruct e; simpl in *; by subst.
  - rewrite elem_of_app, list_elem_of_singleton, elem_of_cons. split.
    + intros [[?| ->]|?]; naive_solver.
    + intros [?|[<- [<-|?]]]; [by left; left| |by right]. left. right. by destruct e.
Qed.
Lemma elem_of_set_domain_entries xs p c e :
  e ∈ entries_of (set_domain_entries xs p c)
  ↔ (e ∈ entries_of c ∧ permission e ≠ p) ∨ (permission e = p ∧ pattern e ∈ xs).
Proof.
  unfold set_domain_entries. rewrite entries_of_some, elem_of_push_entries, list_elem_of_filter.
  unfold entries_of. naive_solver.
Qed.

(** A list that was set is read back, denied domains aside. *)
Lemma set_lists_read_back xs c :
  (∀ x, x ∈ denied_of (set_denied_domains xs c) ↔ x ∈ xs)
  ∧ (∀ x, x ∈ allowed_of (set_allowed_domains xs c) ↔ x ∈ xs ∧ x ∉ denied_of c)
  ∧ (∀ x, x ∈ denied_of (set_allowed_domains xs c) ↔ x ∈ denied_of c).
Proof.
  repeat split; unfold set_denied_domains, set_allowed_domains in *;
    rewrite ?elem_of_denied, ?elem_of_allowed, ?elem_of_set_domain_entries in *; simpl in *; naive_solver.
Qed.

Lemma elem_of_upsert_permission host p n c e :
  e ∈ entries_of (upsert_domain_permission host p n c)
  ↔ (e ∈ entries_of c ∧ n (pattern e) ≠ n host) ∨ e = mkEntry host p.
Proof.
  unfold upsert_domain_permission. rewrite entries_of_some, elem_of_app, list_elem_of_filter, list_elem_of_singleton.
  unfold entries_of. naive_solver.
Qed.

(** ** What the managed constraints ask of a configuration *)

(** Entries are compared in lower case. *)
Definition listed (l : list rstr) (entry : rstr) : Prop := ∃ x, x ∈ l ∧ to_ascii_lowercase x = to_ascii_lowercase entry.

Section within.
Context `{HostTools, HookTools, PathEnv}.

Definition allowlist_within (expansion : option bool) (managed allowed denied : list rstr) : Prop :=
  match expansion with
  | Some true => ∀ m, m ∈ managed → listed allowed m ∨ listed denied m
  | Some false => ∀ x, listed allowed x ↔ listed managed x ∧ ¬ listed denied x
  | None => ∀ x, x ∈ allowed → ∃ m, m ∈ managed ∧ allows (parse_for_constraints m) (parse_for_constraints x) = true
  end.
Definition denylist_within (expansion : option bool) (managed denied : list rstr) : Prop :=
  match expansion with
  | Some false => ∀ x, listed denied x ↔ listed managed x
  | Some true | None => ∀ m, m ∈ managed → listed denied m
  end.
Definition no_global_wildcard (l : list rstr) : Prop := ∀ p, p ∈ l → is_global_wildcard_domain_pattern p = false.

Record within (c : NetworkProxyConfig) (k : NetworkProxyConstraints) : Prop := {
  within_hooks : validate_mitm_hook_config (mitm c) (mitm_hooks c) = Ok ();
  within_no_wildcard : no_global_wildcard (denied_of c);
  within_enabled : c_enabled k = Some false → enabled c = false;
  within_mode : ∀ m, c_mode k = Some m → network_mode_rank (mode c) ≤ network_mode_rank m;
  within_upstream : c_allow_upstream_proxy k = Some false → allow_upstream_proxy c = false;
  within_loopback :
    c_dangerously_allow_non_loopback_proxy k = Some false → dangerously_allow_non_loopback_proxy c = false;
  within_all_sockets :
    dangerously_allow_all_unix_sockets c = true →
    c_dangerously_allow_all_unix_sockets k = Some true
    ∨ (c_dangerously_allow_all_unix_sockets k = None ∧ c_allow_unix_sockets k = None);
  within_local : c_allow_local_binding k = Some false → allow_local_binding c = false;
  within_allowed :
    ∀ m, c_allowed_domains k = Some m →
    no_global_wildcard m ∧ allowlist_within (c_allowlist_expansion_enabled k) m (allowed_of c) (denied_of c);
  within_denied :
    ∀ m, c_denied_domains k = Some m →
    no_global_wildcard m ∧ denylist_within (c_denylist_expansion_enabled k) m (denied_of c);
  within_sockets :
    ∀ m, c_allow_unix_sockets k = Some m → ∀ p, p ∈ allow_unix_sockets c → listed m p;
}.

Lemma elem_of_lower_set l x : to_ascii_lowercase x ∈ lower_set l ↔ listed l x.
Proof.
  unfold lower_set, listed. rewrite elem_of_list_to_set, list_elem_of_fmap. naive_solver.
Qed.
Lemma lower_set_image l y : y ∈ lower_set l → ∃ x, y = to_ascii_lowercase x.
Proof. unfold lower_set. rewrite elem_of_list_to_set, list_elem_of_fmap. naive_solver. Qed.

Lemma refuse_when_Ok b f : refuse_when b f = Ok () ↔ b = false.
Proof. unfold refuse_when. by destruct b. Qed.
Lemma no_wildcard_Ok f l : validate_non_global_wildcard_domain_patterns f l = Ok () ↔ no_global_wildcard l.
Proof.
  unfold validate_non_global_wildcard_domain_patterns. rewrite refuse_when_Ok. unfold no_global_wildcard.
  rewrite <-not_true_iff_false, existsb_exists. setoid_rewrite <-not_true_iff_false.
  setoid_rewrite <-list_elem_of_In. naive_solver.
Qed.
Lemma allowed_refused_within e m a d : allowed_domains_refused e m a d = false ↔ allowlist_within e m a d.
Proof.
  destruct e as [[]|]; simpl.
  - rewrite negb_false_iff, bool_decide_eq_true. split.
    + intros Hs x Hx. rewrite <-!elem_of_lower_set, <-elem_of_union. apply Hs. apply elem_of_lower_set. by exists x.
    + intros Hw y Hy. destruct (lower_set_image _ _ Hy) as [x ->]. apply elem_of_lower_set in Hy as (z & Hz & <-).
      rewrite elem_of_union, !elem_of_lower_set. by apply Hw.
  - rewrite negb_false_iff, bool_decide_eq_true. rewrite set_eq. setoid_rewrite elem_of_difference. split.
    + intros Hs x. by rewrite <-!elem_of_lower_set.
    + intros Hw y. split.
      * intros Hy. destruct (lower_set_image _ _ Hy) as [x ->]. rewrite !elem_of_lower_set in *. by apply Hw.
      * intros [Hy Hn]. destruct (lower_set_image _ _ Hy) as [x ->]. rewrite !elem_of_lower_set in *. by apply Hw.
  - rewrite <-not_true_iff_false, existsb_exists. setoid_rewrite <-list_elem_of_In.
    setoid_rewrite negb_true_iff. setoid_rewrite <-not_true_iff_false. setoid_rewrite existsb_exists.
    setoid_rewrite <-list_elem_of_In. split; [|naive_solver].
    intros Hn x Hx.
    destruct (decide (Exists (λ m', allows (parse_for_constraints m') (parse_for_constraints x) = true) m)) as [E|E].
    + by apply Exists_exists in E.
    + exfalso. apply Hn. exists x. split; [done|]. intros (m' & Hm' & E'). apply E, Exists_exists. eauto.
Qed.
Lemma denied_refused_within e m d : denied_domains_refused e m d = false ↔ denylist_within e m d.
Proof.
  assert (lower_set m ⊆ lower_set d ↔ ∀ x, x ∈ m → listed d x) as Hsub.
  { split.
    - intros Hs x Hx. apply elem_of_lower_set, Hs, elem_of_lower_set. by exists x.
    - intros Hw y Hy. destruct (lower_set_image _ _ Hy) as [x ->]. apply elem_of_lower_set in Hy as (z & Hz & <-).
      apply elem_of_lower_set. by apply Hw. }
  destruct e as [[]|]; simpl; rewrite negb_false_iff, bool_decide_eq_true; [done| |done].
  rewrite set_eq. split.
  - intros Hs x. by rewrite <-!elem_of_lower_set.
  - intros Hw y. split; intros Hy; destruct (lower_set_image _ _ Hy) as [x ->];
      rewrite !elem_of_lower_set in *; by apply Hw.
Qed.

Lemma then_Ok {E A} (m : result E unit) (k : result E A) a : (m ≫= λ _, k) = Ok a ↔ m = Ok () ∧ k = Ok a.
Proof. rewrite result_bind_Ok. split; [intros ([] & ? & ?); done|]. intros [-> ?]. by eexists. Qed.
(** A check that only some constraints ask for *)
Lemma match_Some_Ok {E A} (o : option A) (f : A → result E unit) :
  match o with Some x => f x | None => Ok () end = Ok () ↔ ∀ x, o = Some x → f x = Ok ().
Proof. destruct o; naive_solver. Qed.
Lemma match_false_Ok {E} (o : option bool) (m : result E unit) :
  match o with Some true | None => Ok () | Some false => m end = Ok () ↔ (o = Some false → m = Ok ()).
Proof. destruct o as [[]|]; naive_solver. Qed.

(** Validation accepts exactly what the constraints ask. *)
Lemma validate_within c k : validate_policy_against_constraints c k = Ok () ↔ within c k.
Proof.
  unfold validate_policy_against_constraints. fold (denied_of c) (allowed_of c).
  rewrite !then_Ok, !match_false_Ok, !match_Some_Ok, map_err_Ok. setoid_rewrite then_Ok.
  setoid_rewrite no_wildcard_Ok. setoid_rewrite refuse_when_Ok.
  setoid_rewrite allowed_refused_within. setoid_rewrite denied_refused_within.
  split.
  - intros (Hh & Hw & He & Hm & Hu & Hl & Ha & Hb & Hd & Hn & Hs). constructor; try done.
    + intros E. specialize (He _ E). by rewrite andb_true_r in He.
    + intros m E. apply Nat.ltb_ge. auto.
    + intros E. rewrite E in Ha. simpl in Ha. apply negb_false_iff in Ha.
      destruct (c_dangerously_allow_all_unix_sockets k) as [[]|], (c_allow_unix_sockets k); naive_solver.
    + intros E. specialize (Hb _ E). by rewrite andb_true_r in Hb.
    + intros m E p Hp. specialize (Hs _ E). apply elem_of_lower_set.
      destruct (decide (to_ascii_lowercase p ∈ lower_set m)) as [|Hno]; [done|].
      apply not_true_iff_false in Hs. exfalso. apply Hs, existsb_exists. exists p.
      split; [by apply list_elem_of_In|]. by rewrite bool_decide_eq_false_2.
  - intros []. split_and!; try done.
    + intros [] E; [apply andb_false_r|]. by rewrite within_enabled0.
    + intros m E. apply Nat.ltb_ge. auto.
    + destruct (dangerously_allow_all_unix_sockets c); [|done]. simpl. apply negb_false_iff.
      destruct (within_all_sockets0 eq_refl) as [->|[-> ->]]; done.
    + intros [] E; [apply andb_false_r|]. by rewrite within_local0.
    + intros m E. apply not_true_iff_false. intros (p & Hp & Hn)%existsb_exists.
      apply list_elem_of_In in Hp. apply (within_sockets0 m E), elem_of_lower_set in Hp.
      by rewrite bool_decide_eq_true_2 in Hn.
Qed.

(** ** Compiling keeps the constraints *)

Lemma listed_ext l l' : (∀ x, x ∈ l ↔ x ∈ l') → ∀ y, listed l y ↔ listed l' y.
Proof. unfold listed. naive_solver. Qed.

(** The settings that the constraints read, apart from the lists, the mode and
    whether the proxy is enabled *)
Definition same_settings (c c' : NetworkProxyConfig) : Prop :=
  mitm c' = mitm c ∧ mitm_hooks c' = mitm_hooks c ∧ allow_upstream_proxy c' = allow_upstream_proxy c
  ∧ dangerously_allow_non_loopback_proxy c' = dangerously_allow_non_loopback_proxy c
  ∧ dangerously_allow_all_unix_sockets c' = dangerously_allow_all_unix_sockets c
  ∧ allow_local_binding c' = allow_local_binding c ∧ unix_sockets c' = unix_sockets c.

Lemma within_transfer c c' k :
  within c k → same_settings c c' →
  (c_enabled k = Some false → enabled c' = false) →
  (∀ m, c_mode k = Some m → network_mode_rank (mode c') ≤ network_mode_rank m) →
  (∀ x, x ∈ denied_of c' ↔ x ∈ denied_of c) →
  (c_allowed_domains k = None ∨ ∀ x, x ∈ allowed_of c' ↔ x ∈ allowed_of c) →
  within c' k.
Proof.
  intros [] (Em & Eh & Eu & El & Ea & Eb & Es) Hen Hmode Hd Ha.
  pose proof (listed_ext _ _ Hd) as Hld.
  constructor; rewrite ?Em, ?Eh, ?Eu, ?El, ?Ea, ?Eb; try done.
  - intros p Hp. by apply within_no_wildcard0, Hd.
  - intros m E. destruct Ha as [Ha|Ha]; [congruence|]. pose proof (listed_ext _ _ Ha) as Hla.
    destruct (within_allowed0 m E) as [Hw Hal]. split; [done|].
    destruct (c_allowlist_expansion_enabled k) as [[]|]; simpl in *.
    + intros x Hx. rewrite Hla, Hld. auto.
    + intros x. by rewrite Hla, Hld.
    + intros x Hx%Ha. auto.
  - intros m E. destruct (within_denied0 m E) as [Hw Hde]. split; [done|].
    destruct (c_denylist_expansion_enabled k) as [[]|]; simpl in *; intros x; rewrite Hld; auto.
  - unfold allow_unix_sockets in *. rewrite Es. done.
Qed.

Lemma entries_of_domains c c' : domains c' = domains c → entries_of c' = entries_of c.
Proof. unfold entries_of. by intros ->. Qed.
Lemma same_lists c c' :
  domains c' = domains c → (∀ x, x ∈ denied_of c' ↔ x ∈ denied_of c) ∧ (∀ x, x ∈ allowed_of c' ↔ x ∈ allowed_of c).
Proof.
  intros E. split; intros x; rewrite ?elem_of_denied, ?elem_of_allowed, (entries_of_domains c c' E); done.
Qed.

Lemma within_disable_broker c k : within c k → within (disable_broker c k) k.
Proof.
  intros Hw. unfold disable_broker. case_bool_decide as E; [|done].
  destruct (same_lists c (with_broker false (credential_broker_enabled_mitm c) (mitm c) c) eq_refl).
  eapply within_transfer; [exact Hw|done|apply Hw|apply Hw|done|by right].
Qed.
Lemma disabled_broker c k : c_enabled k = Some false → credential_broker (disable_broker c k) = false.
Proof. intros E. unfold disable_broker. by rewrite bool_decide_eq_true_2. Qed.

(** The configuration that brokerage turns on stays within the constraints. *)
Lemma within_effective c k : within c k → within (effective_config c k) k.
Proof.
  intros Hw%within_disable_broker. unfold effective_config. set (c' := disable_broker c k) in *.
  assert (within (if credential_broker c' && negb (enabled c') then with_enabled true c' else c') k) as Hw'.
  { destruct (credential_broker c' && negb (enabled c')) eqn:E; [|done].
    destruct (same_lists c' (with_enabled true c') eq_refl).
    eapply within_transfer; [exact Hw|done| |apply Hw|done|by right].
    intros Ek. apply (disabled_broker c) in Ek. fold c' in Ek. by rewrite Ek in E. }
  destruct (brokered_default_allowlist c' k) eqn:E; [|done].
  destruct (set_lists_read_back [str "*"] (if credential_broker c' && negb (enabled c') then with_enabled true c' else c'))
    as (_ & _ & Hd).
  eapply within_transfer; [exact Hw'|done|apply Hw'|apply Hw'|done|].
  left. unfold brokered_default_allowlist in E. apply andb_true_iff in E as [_ E].
  by destruct (c_allowed_domains k).
Qed.

(** A compiled state: its sets are those of its lists. *)
Record compiled `{SecretEnv} (st : ConfigState) : Prop := {
  compiled_within : within (config st) (constraints st);
  compiled_deny : compile_denylist_globset (denied_of (config st)) = Ok (deny_set st);
  compiled_allow : compile_allowlist_globset (allowed_of (config st)) = Ok (allow_set st);
  compiled_hooks : compile_mitm_hooks (config st) = Ok (state_mitm_hooks st);
}.

Lemma build_compiled `{SecretEnv} c k st :
  within c k → build_config_state c k = Ok st →
  compiled st ∧ config st = effective_config c k ∧ constraints st = k ∧ blocked st = [] ∧ blocked_total st = 0%N.
Proof.
  intros Hw%within_effective Hb. unfold build_config_state in Hb.
  set (e := effective_config c k) in *. fold (denied_of e) (allowed_of e) in Hb.
  rewrite then_Ok in Hb. destruct Hb as [_ Hb]. case_match; [done|].
  rewrite then_Ok in Hb. destruct Hb as [_ Hb].
  apply result_bind_Ok in Hb as (deny & Hdeny%map_err_Ok & Hb).
  apply result_bind_Ok in Hb as (allow & Hallow%map_err_Ok & Hb).
  apply result_bind_Ok in Hb as (hooks & Hhooks%map_err_Ok & Hb).
  case_match; [done|]. injection Hb as <-. split; [by constructor|done].
Qed.
End within.
