(* ===== verification/NetworkRuntimeProps.v ===== *)
(** The network proxy while requests are served: operations interleave on the
    shared state, and every reachable state keeps the managed constraints. *)

From stdpp Require Import gmap.
From S2P Require Import Prelude IpAddr NetworkPolicy AbsolutePath MitmHook NetworkConfig NetworkState NetworkStateProps NetworkRuntime.
#[local] Opaque str.

(** ** Interleaved operations

    [set_network_mode] and [update_domain_list] read under the read lock, compute,
    and write under the write lock; everything else holds one lock. *)
Record World := mkWorld { shared : ConfigState; in_flight : list Pending }.

Section runtime.
Context `{HostTools, HookTools, PathEnv, SecretEnv}.

(** States come from validated configurations ([NetworkProxySpec]). *)
Definition trusted (st : ConfigState) : Prop :=
  ∃ c k, validate_policy_against_constraints c k = Ok () ∧ build_config_state c k = Ok st.

(** One critical section; the states that reloads and replacements bring in are
    those of [source]. *)
Inductive step_from {source : ConfigState → Prop} : World → World → Prop :=
| step_replace w new : source new → step_from w (mkWorld (replace_state (shared w) new) (in_flight w))
| step_force_reload w new : source new → step_from w (mkWorld (force_reload (shared w) new) (in_flight w))
| step_record w id e : step_from w (mkWorld (record_blocked id e (shared w)) (in_flight w))
| step_drain w : step_from w (mkWorld (drain_blocked (shared w)).2 (in_flight w))
| step_begin_mode w m p :
    prepare_mode (shared w) m = Ok p → step_from w (mkWorld (shared w) (in_flight w ++ [p]))
| step_begin_update w host kind p :
    prepare_update (shared w) host kind = Ok (Some p) → step_from w (mkWorld (shared w) (in_flight w ++ [p]))
| step_commit w i p st :
    in_flight w !! i = Some p → commit (shared w) p = Some st → step_from w (mkWorld st (delete i (in_flight w)))
| step_retry w i p :
    in_flight w !! i = Some p → commit (shared w) p = None → step_from w (mkWorld (shared w) (delete i (in_flight w))).
Definition step : World → World → Prop := step_from (source := trusted).
Definition reachable_from (source : ConfigState → Prop) (st : ConfigState) (w : World) : Prop :=
  rtc (step_from (source := source)) (mkWorld st []) w.
Definition reachable (st : ConfigState) (w : World) : Prop := rtc step (mkWorld st []) w.

(** ** The invariant *)

Record good (st : ConfigState) : Prop := {
  good_compiled : compiled st;
  good_blocked : length (blocked st) ≤ MAX_BLOCKED_EVENTS;
}.
Definition good_pending (p : Pending) : Prop :=
  match p with
  | PendingMode m k => ∀ max, c_mode k = Some max → network_mode_rank m ≤ network_mode_rank max
  | PendingUpdate _ _ new_state => good new_state
  end.
Definition good_world (w : World) : Prop := good (shared w) ∧ Forall good_pending (in_flight w).

Lemma compiled_with_blocked b n st : compiled st → compiled (with_blocked b n st).
Proof. by intros []. Qed.
Lemma good_with_blocked b n st : compiled st → length b ≤ MAX_BLOCKED_EVENTS → good (with_blocked b n st).
Proof. intros Hc Hb. split; [by apply compiled_with_blocked|done]. Qed.
Lemma trusted_compiled st : trusted st → compiled st ∧ blocked st = [].
Proof.
  intros (c & k & Hv%validate_within & Hb). by destruct (build_compiled c k st Hv Hb) as (? & _ & _ & ? & _).
Qed.
Lemma trusted_fresh st : trusted st → blocked st = [] ∧ blocked_total st = 0%N.
Proof.
  intros (c & k & Hv%validate_within & Hb). by destruct (build_compiled c k st Hv Hb) as (_ & _ & _ & ? & ?).
Qed.
Lemma compiled_with_mode m st :
  compiled st → (∀ max, c_mode (constraints st) = Some max → network_mode_rank m ≤ network_mode_rank max) →
  compiled (with_config (with_mode m (config st)) st).
Proof.
  intros [Hw Hd Ha Hh] Hm. constructor; try done. simpl.
  destruct (same_lists (config st) (with_mode m (config st)) eq_refl).
  eapply within_transfer; [exact Hw|done|apply Hw|done|done|by right].
Qed.

Lemma prepare_mode_good st m p : prepare_mode st m = Ok p → good_pending p.
Proof.
  unfold prepare_mode. rewrite then_Ok. intros [Hv%validate_within [= <-]]. simpl.
  intros max E. apply (within_mode _ _ Hv max E).
Qed.
Lemma prepare_update_good st host kind p : good st → prepare_update st host kind = Ok (Some p) → good_pending p.
Proof.
  intros Hg. unfold prepare_update. rewrite result_bind_Ok. intros (h & _ & Hp).
  case_match; [done|]. rewrite then_Ok, map_err_Ok in Hp. destruct Hp as [Hv%validate_within Hp].
  apply result_bind_Ok in Hp as (new & Hb%map_err_Ok & [= <-]). simpl.
  apply good_with_blocked; [|apply Hg]. by apply (build_compiled _ _ _ Hv Hb).
Qed.
Lemma commit_good st p st' : good st → good_pending p → commit st p = Some st' → good st'.
Proof.
  intros [Hc Hb] Hp. destruct p as [m k|prev k new]; simpl in *.
  - case_bool_decide as E; [|done]. intros [= <-]. split; [|done].
    apply compiled_with_mode; [done|]. by rewrite E.
  - case_match; [|done]. by intros [= <-].
Qed.

Lemma step_good w w' : good_world w → step w w' → good_world w'.
Proof.
  intros [Hg Hp] Hs. destruct Hs as [w new Ht|w new Ht|w id e|w|w m p Hm|w h kind p Hu|w i p st Hi Hc|w i p Hi Hc];
    split; simpl; try done.
  - apply trusted_compiled in Ht as [Hc _]. apply good_with_blocked; [done|apply Hg].
  - apply trusted_compiled in Ht as [Hc _]. apply good_with_blocked; [done|apply Hg].
  - apply good_with_blocked; [apply Hg|]. rewrite length_drop. lia.
  - apply good_with_blocked; [apply Hg|]. simpl. lia.
  - apply Forall_app. split; [done|]. apply Forall_singleton. by eapply prepare_mode_good.
  - apply Forall_app. split; [done|]. apply Forall_singleton. by eapply prepare_update_good.
  - eapply commit_good; [done| |done]. by eapply Forall_lookup_1.
  - by apply Forall_delete.
  - by apply Forall_delete.
Qed.
Lemma reachable_good st w : trusted st → reachable st w → good_world w.
Proof.
  intros Ht Hr. unfold reachable in Hr.
  assert (good_world (mkWorld st [])) as Hg.
  { split; [|constructor]. apply trusted_compiled in Ht as [Hc Hb]. split; [done|]. simpl. rewrite Hb. simpl. lia. }
  revert Hg. induction Hr as [|w1 w2 w3 Hs _ IH]; [done|]. intros Hg. apply IH. by eapply step_good.
Qed.

(** ** Where the constraints come from *)

Lemma step_from_mono (P Q : ConfigState → Prop) w w' :
  (∀ st, P st → Q st) → step_from (source := P) w w' → step_from (source := Q) w w'.
Proof.
  intros HPQ [];
    [apply step_replace|apply step_force_reload|apply step_record|apply step_drain|eapply step_begin_mode
    |eapply step_begin_update|eapply step_commit|eapply step_retry]; eauto.
Qed.
Lemma reachable_from_trusted (P : ConfigState → Prop) st w :
  (∀ st, P st → trusted st) → reachable_from P st w → reachable st w.
Proof. intros HP. apply rtc_subrel. intros w1 w2. by apply step_from_mono. Qed.

(** An update that is committed keeps the constraints it was computed for. *)
Definition keeps_constraints (p : Pending) : Prop :=
  match p with PendingMode _ _ => True | PendingUpdate _ k new_state => constraints new_state = k end.
Definition sourced (P : ConfigState → Prop) (w : World) : Prop :=
  (∃ st, P st ∧ constraints (shared w) = constraints st) ∧ Forall keeps_constraints (in_flight w).

Lemma build_constraints c k st : build_config_state c k = Ok st → constraints st = k.
Proof.
  unfold build_config_state. rewrite then_Ok. intros [_ Hb]. case_match; [done|].
  rewrite then_Ok in Hb. destruct Hb as [_ Hb].
  do 3 (apply result_bind_Ok in Hb as (? & _ & Hb)). case_match; [done|]. by injection Hb as <-.
Qed.
Lemma prepare_update_keeps st host kind p : prepare_update st host kind = Ok (Some p) → keeps_constraints p.
Proof.
  unfold prepare_update. rewrite result_bind_Ok. intros (h & _ & Hp).
  case_match; [done|]. rewrite then_Ok in Hp. destruct Hp as [_ Hp].
  apply result_bind_Ok in Hp as (new & Hb%map_err_Ok%build_constraints & [= <-]). done.
Qed.
Lemma commit_keeps st p st' : keeps_constraints p → commit st p = Some st' → constraints st' = constraints st.
Proof.
  destruct p as [m k|prev k new]; simpl.
  - case_bool_decide; [|done]. by intros _ [= <-].
  - intros Hk. case_match eqn:E; [|done]. apply andb_true_iff in E as [E%bool_decide_eq_true _].
    intros [= <-]. congruence.
Qed.
Lemma step_sourced P w w' : sourced P w → step_from (source := P) w w' → sourced P w'.
Proof.
  intros [Hs Hp] Hst.
  destruct Hst as [w new Ht|w new Ht|w id e|w|w m p Hm|w h kind p Hu|w i p st Hi Hc|w i p Hi Hc];
    split; simpl; try done; [by exists new..| | | | |by apply Forall_delete].
  - apply Forall_app. split; [done|]. unfold prepare_mode in Hm. rewrite then_Ok in Hm.
    destruct Hm as [_ [= <-]]. by repeat constructor.
  - apply Forall_app. split; [done|]. apply Forall_singleton. by eapply prepare_update_keeps.
  - rewrite (commit_keeps (shared w) p st); [done| |done]. by eapply Forall_lookup_1.
  - by apply Forall_delete.
Qed.
Lemma reachable_sourced (P : ConfigState → Prop) st w : P st → reachable_from P st w → sourced P w.
Proof.
  intros Hst Hr. assert (sourced P (mkWorld st [])) as Hs; [by split; [exists st|constructor]|].
  revert Hs. induction Hr as [|w1 w2 w3 Hs _ IH]; [done|]. intros Hw. apply IH. by eapply step_sourced.
Qed.

(** C7: managed constraints hold at all times: whatever the interleaving of
    reloads, replaced states, mode changes, list updates and recorded requests,
    the shared state that began as a validated one is within its constraints,
    its glob sets and hooks are those of its current lists, and at most
    [MAX_BLOCKED_EVENTS] blocked requests are kept. *)
Theorem managed_constraints_hold st w :
  trusted st → reachable st w →
  within (config (shared w)) (constraints (shared w))
  ∧ compile_denylist_globset (denied_of (config (shared w))) = Ok (deny_set (shared w))
  ∧ compile_allowlist_globset (allowed_of (config (shared w))) = Ok (allow_set (shared w))
  ∧ compile_mitm_hooks (config (shared w)) = Ok (state_mitm_hooks (shared w))
  ∧ length (blocked (shared w)) ≤ MAX_BLOCKED_EVENTS.
Proof.
  intros Ht Hr. by destruct (reachable_good st w Ht Hr) as [[[Hw Hd Ha Hh] Hb] _].
Qed.

(** A list update can lose telemetry: a blocked request that is recorded between
    the two locks of an update is gone after it, and the count of blocked
    requests goes back. *)
Theorem update_loses_blocked_requests st host kind p id e :
  trusted st → prepare_update st host kind = Ok (Some p) →
  ∃ w1 w2,
    step (mkWorld st []) (mkWorld st [p]) ∧ step (mkWorld st [p]) w1 ∧ step w1 w2
    ∧ blocked (shared w1) = [with_execution_id id e] ∧ blocked_total (shared w1) = 1%N
    ∧ blocked (shared w2) = [] ∧ blocked_total (shared w2) = 0%N.
Proof.
  intros Ht Hp. destruct (trusted_fresh st Ht) as [Hb Hn].
  exists (mkWorld (record_blocked id e st) [p]).
  pose proof Hp as Hp'. unfold prepare_update in Hp'. apply result_bind_Ok in Hp' as (h & _ & Hp').
  case_match; [done|]. rewrite then_Ok in Hp'. destruct Hp' as [_ Hp'].
  apply result_bind_Ok in Hp' as (new & _ & [= Ep]).
  exists (mkWorld (with_blocked (blocked st) (blocked_total st) new) []).
  split; [by apply (step_begin_update (mkWorld st []) host kind)|].
  split; [by apply (step_record (mkWorld st [p]))|].
  split; [|unfold record_blocked; simpl; rewrite Hb, Hn; done].
  refine (step_commit (mkWorld (record_blocked id e st) [p]) 0 p _ eq_refl _).
  rewrite <-Ep. simpl. by rewrite !bool_decide_eq_true_2.
Qed.
End runtime.
