(* ===== verification/NetworkPolicyProps.v ===== *)
(** Properties of the network policy: which addresses are non-public, that the
    order on domain patterns that managed constraints use is inclusion of the
    hosts the patterns stand for, and when a host or a connection passes. *)

From S2P Require Import Prelude IpAddr NetworkPolicy.
#[local] Opaque str.

(** ** CIDR blocks *)

(** The mask of a prefix keeps the high bits. *)
Lemma land_prefix_mask w x k :
  (x < 2 ^ w)%N → (k ≤ w)%N →
  N.land x (N.land (N.shiftl (N.ones w) k) (N.ones w)) = (x / 2 ^ k * 2 ^ k)%N.
Proof.
  intros Hx Hk. rewrite <-N.shiftr_div_pow2, <-N.shiftl_mul_pow2.
  apply N.bits_inj. intros i. rewrite !N.land_spec.
  destruct (decide (w ≤ i)%N) as [Hi|Hi].
  - rewrite (N.ones_spec_high w i) by done. rewrite !andb_false_r. symmetry.
    rewrite N.shiftl_spec_high', N.shiftr_spec' by lia.
    replace (i - k + k)%N with i by lia.
    rewrite <-(N.mod_small x (2 ^ w)) by done. by apply N.mod_pow2_bits_high.
  - rewrite (N.ones_spec_low w i), andb_true_r by lia.
    destruct (decide (i < k)%N) as [Hik|Hik].
    + by rewrite !N.shiftl_spec_low, andb_false_r.
    + rewrite !N.shiftl_spec_high', N.shiftr_spec' by lia.
      rewrite N.ones_spec_low, andb_true_r by lia. f_equal. lia.
Qed.

(** Two numbers have the same quotient when one is in the block of the other. *)
Lemma div_block x b size :
  (0 < size)%N →
  (x / size * size = b / size * size ↔ b / size * size ≤ x ∧ x ≤ b / size * size + (size - 1))%N.
Proof.
  intros Hs. pose proof (N.div_mod x size ltac:(lia)) as Hdiv. rewrite N.mul_comm in Hdiv.
  pose proof (N.mod_lt x size ltac:(lia)) as Hmod. generalize (b / size)%N. intros q. split.
  - intros Heq. rewrite Heq in Hdiv. revert Hdiv Hmod. generalize (x mod size)%N. intros. lia.
  - intros [H1 H2]. f_equal. symmetry. apply (N.div_unique _ _ _ (x - q * size)%N); lia.
Qed.

Lemma u32_of_bound ip : ipv4_ok ip → (u32_of ip < 2 ^ 32)%N.
Proof. intros (?&?&?&?). unfold u32_of. change (2 ^ 32)%N with 4294967296%N. lia. Qed.

Definition between (lo hi n : N) : bool := ((lo <=? n) && (n <=? hi))%N.

(** An address is in a block when it lies between its first and its last address. *)
Lemma ipv4_in_cidr_between ip base prefix :
  ipv4_ok ip → ipv4_ok base → (0 < prefix ≤ 32)%N →
  let size := (2 ^ (32 - prefix))%N in
  let first := (u32_of base / size * size)%N in
  ipv4_in_cidr ip base prefix = between first (first + (size - 1)) (u32_of ip).
Proof.
  intros Hip Hb Hp size first. unfold ipv4_in_cidr, between.
  destruct (prefix =? 0)%N eqn:E; [apply N.eqb_eq in E; lia|].
  change u32_max with (N.ones 32).
  rewrite !land_prefix_mask by (auto using u32_of_bound; lia).
  fold size. fold first. apply eq_bool_prop_intro.
  rewrite !andb_True, !Is_true_true, N.eqb_eq, !N.leb_le.
  apply div_block, N.neq_0_lt_0, N.pow_nonzero. lia.
Qed.

(** The addresses that are not public, by their first and last *)
Definition v4 (a b c d : N) : N := u32_of (V4Addr a b c d).
Definition non_public_ranges : list (N * N) :=
  [ (v4 0 0 0 0, v4 0 255 255 255); (v4 10 0 0 0, v4 10 255 255 255);
    (v4 100 64 0 0, v4 100 127 255 255); (v4 127 0 0 0, v4 127 255 255 255);
    (v4 169 254 0 0, v4 169 254 255 255); (v4 172 16 0 0, v4 172 31 255 255);
    (v4 192 0 0 0, v4 192 0 0 255); (v4 192 0 2 0, v4 192 0 2 255);
    (v4 192 168 0 0, v4 192 168 255 255); (v4 198 18 0 0, v4 198 19 255 255);
    (v4 198 51 100 0, v4 198 51 100 255); (v4 203 0 113 0, v4 203 0 113 255);
    (v4 224 0 0 0, v4 255 255 255 255) ].

Lemma between_true lo hi n : between lo hi n = true ↔ (lo ≤ n ≤ hi)%N.
Proof. unfold between. rewrite andb_true_iff, !N.leb_le. done. Qed.

Lemma ipv4_in_cidr_range ip base prefix lo hi :
  ipv4_ok ip → ipv4_ok base → (0 < prefix ≤ 32)%N →
  (u32_of base / 2 ^ (32 - prefix) * 2 ^ (32 - prefix))%N = lo → (lo + (2 ^ (32 - prefix) - 1))%N = hi →
  ipv4_in_cidr ip base prefix = true ↔ (lo ≤ u32_of ip ≤ hi)%N.
Proof. intros ? ? ? <- <-. rewrite ipv4_in_cidr_between by done. apply between_true. Qed.

Ltac cidr_range lo hi :=
  rewrite (ipv4_in_cidr_range _ _ _ lo hi)
    by (done || (unfold ipv4_ok; simpl; lia) || lia || (vm_compute; reflexivity)).

Lemma non_public_ipv4_ranges ip :
  ipv4_ok ip →
  is_non_public_ipv4 ip = existsb (λ '(first, last), between first last (u32_of ip)) non_public_ranges.
Proof.
  intros Hip. apply eq_true_iff_eq. unfold is_non_public_ipv4.
  rewrite !orb_true_iff.
  cidr_range 0%N 16777215%N. cidr_range 1681915904%N 1686110207%N.
  cidr_range 3221225472%N 3221225727%N. cidr_range 3221225984%N 3221226239%N.
  cidr_range 3323068416%N 3323199487%N. cidr_range 3325256704%N 3325256959%N.
  cidr_range 3405803776%N 3405804031%N. cidr_range 4026531840%N 4294967295%N.
  unfold v4_is_loopback, v4_is_private, v4_is_link_local, v4_is_unspecified, v4_is_multicast, v4_is_broadcast.
  unfold non_public_ranges. cbn [existsb]. rewrite !orb_true_iff, !andb_true_iff, !between_true.
  unfold v4. destruct Hip as (?&?&?&?). destruct ip as [a b c d].
  unfold u32_of in *. cbn [oct0 oct1 oct2 oct3] in *.
  rewrite ?N.eqb_eq, ?N.leb_le. lia.
Qed.

(** The same for the first segment of an IPv6 address *)
Lemma segment_block s base k :
  (s < 2 ^ 16)%N → (k ≤ 16)%N → (base mod 2 ^ k = 0)%N →
  (N.land s (N.land (N.shiftl (N.ones 16) k) (N.ones 16)) =? base)%N
  = between base (base + (2 ^ k - 1)) s.
Proof.
  intros Hs Hk Hb. rewrite land_prefix_mask by done. unfold between. apply eq_bool_prop_intro.
  rewrite !andb_True, !Is_true_true, N.eqb_eq, !N.leb_le.
  assert (0 < 2 ^ k)%N by (apply N.neq_0_lt_0, N.pow_nonzero; lia).
  assert (base = base / 2 ^ k * 2 ^ k)%N as Hbase.
  { pose proof (N.div_mod base (2 ^ k) ltac:(lia)) as Hd. rewrite Hb, N.mul_comm in Hd. lia. }
  rewrite Hbase at 1 2 3. by apply div_block.
Qed.

(** An embedded IPv4 address: the last 32 bits after 80 zero bits and [0] or [ffff] *)
Definition embedded_ipv4 (ip : Ipv6Addr) : option N :=
  match ip with
  | [0; 0; 0; 0; 0; s; ab; cd]%N => if decide (s = 0 ∨ s = 65535)%N then Some (ab * 65536 + cd)%N else None
  | _ => None
  end.

(** What the network policy means by a non-public address *)
Definition non_public (ip : IpAddr) : bool :=
  match ip with
  | V4 ip => existsb (λ '(first, last), between first last (u32_of ip)) non_public_ranges
  | V6 ip =>
      match embedded_ipv4 ip with
      | Some n => existsb (λ '(first, last), between first last n) non_public_ranges
      | None =>
          between 64512 65023 (segment0 ip) || between 65152 65215 (segment0 ip)
          || between 65280 65535 (segment0 ip)
      end
  end.

Lemma to_ipv4_embedded ip :
  ipv6_ok ip →
  match to_ipv4 ip with
  | Some v4 => ipv4_ok v4 ∧ embedded_ipv4 ip = Some (u32_of v4)
  | None => embedded_ipv4 ip = None
  end.
Proof.
  intros [_ Hf]. unfold to_ipv4, embedded_ipv4.
  destruct ip as [|[|] [|[|] [|[|] [|[|] [|[|] [|s [|ab [|cd [|]]]]]]]]]; try done.
  repeat (apply Forall_cons in Hf as [? Hf]).
  destruct (decide (s = 0 ∨ s = 65535)%N) as [Hs|Hs].
  - assert ((s =? 0) || (s =? 65535) = true)%N as -> by (rewrite orb_true_iff, !N.eqb_eq; done).
    pose proof (N.div_mod ab 256 ltac:(done)). pose proof (N.div_mod cd 256 ltac:(done)).
    pose proof (N.mod_lt ab 256 ltac:(done)). pose proof (N.mod_lt cd 256 ltac:(done)).
    pose proof (N.Div0.div_lt_upper_bound ab 256 256 ltac:(lia)).
    pose proof (N.Div0.div_lt_upper_bound cd 256 256 ltac:(lia)).
    split; [done|]. unfold u32_of. cbn [oct0 oct1 oct2 oct3]. f_equal. lia.
  - destruct ((s =? 0) || (s =? 65535))%N eqn:E; [|done].
    rewrite orb_true_iff, !N.eqb_eq in E. done.
Qed.

(** C35: the addresses treated as non-public are exactly the listed ranges: 13
    ranges of IPv4 addresses, the IPv6 addresses that embed one of them, and the
    unique-local, link-local and multicast ranges of IPv6. *)
Theorem non_public_is_ranges ip : ip_ok ip → is_non_public_ip ip = non_public ip.
Proof.
  destruct ip as [ip|ip]; simpl; intros Hok; [by apply non_public_ipv4_ranges|].
  unfold is_non_public_ipv6. pose proof (to_ipv4_embedded ip Hok) as Hv4.
  destruct (to_ipv4 ip) as [v4|] eqn:E4.
  - destruct Hv4 as [Hok4 ->]. rewrite (non_public_ipv4_ranges v4) by done.
    destruct (v6_is_loopback ip) eqn:Hl; [|apply orb_false_r].
    apply bool_decide_eq_true in Hl as ->. injection E4 as <-. vm_compute. reflexivity.
  - rewrite Hv4.
    assert (v6_is_loopback ip = false) as ->.
    { apply bool_decide_eq_false. by intros ->. }
    assert (v6_is_unspecified ip = false) as ->.
    { apply bool_decide_eq_false. by intros ->. }
    simpl. destruct Hok as [Hlen Hf].
    assert (segment0 ip < 2 ^ 16)%N as Hs.
    { destruct Hf; [done|]. done. }
    unfold v6_is_multicast, v6_is_unique_local, v6_is_unicast_link_local.
    rewrite (segment_block _ 65280 8), (segment_block _ 64512 9), (segment_block _ 65152 6) by done.
    rewrite <-orb_assoc, orb_comm. by rewrite <-!orb_assoc.
Qed.
Lemma non_public_is_ranges_witness :
  is_non_public_ip (V6 [0; 0; 0; 0; 0; 65535; 49320; 1]%N) = true ∧ is_non_public_ip (V4 (V4Addr 100 128 0 0)) = false.
Proof.
  split.
  - rewrite non_public_is_ranges; [vm_compute; reflexivity|].
    split; [done|]. repeat constructor.
  - rewrite non_public_is_ranges; [vm_compute; reflexivity|]. done.
Defined.

(** A documentation address and a translated private address pass as public. *)
Example documentation_address_is_public :
  is_non_public_ip (V6 [8193; 3512; 0; 0; 0; 0; 0; 1]%N) = false
  ∧ is_non_public_ip (V6 [100; 65435; 0; 0; 0; 0; 2560; 1]%N) = false.
Proof. split; vm_compute; reflexivity. Qed.

(** ** The order on patterns *)

(** ** Normal forms *)

Definition dot : rstr := [46%N].

Lemma ascii_lower_idemp c : ascii_lower (ascii_lower c) = ascii_lower c.
Proof.
  unfold ascii_lower. destruct ((65 <=? c) && (c <=? 90))%N eqn:E; [|by rewrite E].
  apply andb_true_iff in E as [?%N.leb_le ?%N.leb_le].
  destruct ((65 <=? c + 32) && (c + 32 <=? 90))%N eqn:E'; [|done].
  apply andb_true_iff in E' as [?%N.leb_le ?%N.leb_le]. lia.
Qed.
Lemma ascii_lower_dot c : ascii_lower c = 46%N ↔ c = 46%N.
Proof.
  unfold ascii_lower. destruct ((65 <=? c) && (c <=? 90))%N eqn:E; [|done].
  apply andb_true_iff in E as [?%N.leb_le ?%N.leb_le]. lia.
Qed.
Lemma to_ascii_lowercase_app s t :
  to_ascii_lowercase (s ++ t) = to_ascii_lowercase s ++ to_ascii_lowercase t.
Proof. apply fmap_app. Qed.
Lemma to_ascii_lowercase_idemp s : to_ascii_lowercase (to_ascii_lowercase s) = to_ascii_lowercase s.
Proof.
  unfold to_ascii_lowercase. rewrite <-list_fmap_compose. apply list_fmap_ext. intros _ c _.
  apply ascii_lower_idemp.
Qed.

Lemma trim_end_by_stops p s c : last (trim_end_by p s) = Some c → p c = false.
Proof.
  unfold trim_end_by. rewrite last_reverse.
  induction (reverse s) as [|x l IH]; simpl; [done|].
  destruct (p x) eqn:E; [done|]. by intros [= <-].
Qed.

(** A domain in normal form: lower case, no dot at the end *)
Definition normal (d : rstr) : Prop := to_ascii_lowercase d = d ∧ last d ≠ Some 46%N.

Lemma normal_normalize d : normal d → normalize_domain d = d.
Proof.
  intros [Hl Hd]. unfold normalize_domain, trim_end_dots.
  rewrite trim_end_by_last; [done|]. intros c Hc. apply N.eqb_neq. by intros ->.
Qed.
Lemma normalize_normal d : normal (normalize_domain d).
Proof.
  split; [apply to_ascii_lowercase_idemp|].
  unfold normalize_domain, to_ascii_lowercase, trim_end_dots. rewrite fmap_last.
  destruct (last (trim_end_by _ d)) as [c|] eqn:E; [|done]. simpl.
  intros [= Hc]. apply ascii_lower_dot in Hc as ->.
  by apply trim_end_by_stops in E.
Qed.

(** ** The hosts of a pattern *)

(** [host] is a proper subdomain of [domain], both in normal form. *)
Definition below (domain host : rstr) : Prop := ∃ labels, host = labels ++ dot ++ domain.

(** The texts that a glob matches: a star any text, a question mark one character,
    any other character itself.  A star also matches dots, as in the crate [globset]. *)
Fixpoint wild (glob text : rstr) : Prop :=
  match glob with
  | [] => text = []
  | c :: glob =>
      if (c =? 42)%N then ∃ skipped rest, text = skipped ++ rest ∧ wild glob rest
      else if (c =? 63)%N then ∃ x rest, text = x :: rest ∧ wild glob rest
      else ∃ rest, text = c :: rest ∧ wild glob rest
  end.
(** The hosts a pattern stands for: what its globs ([expand_domain_pattern]) match.
    Domains and hosts are compared in normal form; a domain has no brackets, braces
    or backslashes, which are glob syntax too. *)
Definition covers (p : DomainPattern) (host : rstr) : Prop :=
  match p with
  | Exact domain => wild (normalize_domain domain) host
  | SubdomainsOnly domain => wild (str "?*." ++ normalize_domain domain) host
  | ApexAndSubdomains domain =>
      wild (normalize_domain domain) host ∨ wild (str "?*." ++ normalize_domain domain) host
  end.
Definition domain_of (p : DomainPattern) : rstr :=
  match p with Exact d | SubdomainsOnly d | ApexAndSubdomains d => d end.

Lemma below_length d h : below d h → length d < length h.
Proof. intros [l ->]. rewrite !length_app. simpl. lia. Qed.
Lemma below_ne d h : below d h → h ≠ d.
Proof. intros Hb ->. apply below_length in Hb. lia. Qed.
Lemma below_trans c d h : below c d → below d h → below c h.
Proof. intros [l ->] [k ->]. exists (k ++ dot ++ l). by rewrite !(assoc_L app). Qed.

(** A label in front of [c] is below [d] only when [c] is [d] or below it. *)
Lemma below_cons x c d : x ≠ 46%N → below d (x :: dot ++ c) → c = d ∨ below d c.
Proof.
  intros Hx [[|y [|z labels]] Hl]; simplify_eq/=; [by left|]. right. by exists labels.
Qed.

Lemma normal_label x c : normal c → c ≠ [] → ascii_lower x = x → normal (x :: dot ++ c).
Proof.
  intros [Hl Hd] Hc Hx. split.
  - change (x :: dot ++ c) with ([x] ++ dot ++ c). rewrite !to_ascii_lowercase_app, Hl.
    unfold to_ascii_lowercase at 1. simpl. by rewrite Hx.
  - change (x :: dot ++ c) with ((x :: dot) ++ c). by rewrite last_app_ne.
Qed.

Lemma is_strict_subdomain_below c d :
  is_strict_subdomain c d = true ↔ below (normalize_domain d) (normalize_domain c).
Proof.
  unfold is_strict_subdomain. rewrite andb_true_iff, negb_true_iff, ends_with_true.
  unfold str_eqb. rewrite bool_decide_eq_false. split; [by intros [_ Hb]|].
  intros Hb. split; [by apply below_ne|done].
Qed.
Lemma is_subdomain_or_equal_below c d :
  is_subdomain_or_equal c d = true
  ↔ normalize_domain c = normalize_domain d ∨ below (normalize_domain d) (normalize_domain c).
Proof.
  unfold is_subdomain_or_equal, str_eqb. case_bool_decide as E.
  - split; [by left|done].
  - rewrite ends_with_true. split; [by right|]. by intros [?|?].
Qed.

(** *** Globs *)

Lemma wild_app (g1 g2 text : rstr) :
  wild (g1 ++ g2) text ↔ ∃ t1 t2, text = t1 ++ t2 ∧ wild g1 t1 ∧ wild g2 t2.
Proof.
  revert text; induction g1 as [|c g1 IH]; intros text; simpl.
  { split; [intros; by exists [], text|]. by intros (t1 & t2 & -> & -> & ?). }
  destruct (c =? 42)%N; [|destruct (c =? 63)%N]; setoid_rewrite IH.
  - split.
    + intros (sk & r & -> & t1 & t2 & -> & ? & ?). exists (sk ++ t1), t2. rewrite (assoc_L app). eauto 10.
    + intros (t1 & t2 & -> & (sk & r & -> & ?) & ?). exists sk, (r ++ t2). rewrite (assoc_L app). eauto 10.
  - split.
    + intros (x & r & -> & t1 & t2 & -> & ? & ?). exists (x :: t1), t2. eauto 10.
    + intros (t1 & t2 & -> & (x & r & -> & ?) & ?). exists x, (r ++ t2). eauto 10.
  - split.
    + intros (r & -> & t1 & t2 & -> & ? & ?). exists (c :: t1), t2. eauto 10.
    + intros (t1 & t2 & -> & (r & -> & ?) & ?). exists (r ++ t2). eauto 10.
Qed.
Lemma wild_dot text : wild dot text ↔ text = dot.
Proof. simpl. split; [by intros (r & -> & ->)|]. intros ->. by exists []. Qed.
(** The hosts below the domains that a glob matches *)
Definition wild_below (d h : rstr) : Prop := ∃ labels rest, labels ≠ [] ∧ h = labels ++ dot ++ rest ∧ wild d rest.
Lemma wild_below_glob d h : wild (str "?*." ++ d) h ↔ wild_below d h.
Proof.
  change (str "?*." ++ d) with (63%N :: 42%N :: dot ++ d). cbn [wild N.eqb Pos.eqb].
  unfold wild_below. setoid_rewrite wild_app. setoid_rewrite wild_dot. split.
  - intros (x & r & -> & sk & r' & -> & t1 & t2 & -> & -> & ?). by exists (x :: sk), t2.
  - intros ([|x labels] & rest & Hl & -> & ?); [done|]. exists x, (labels ++ dot ++ rest). split; [done|].
    exists labels, (dot ++ rest). split; [done|]. by exists dot, rest.
Qed.
(** A host does not begin with a dot. *)
Definition host_ok (h : rstr) : Prop := normal h ∧ h ≠ [] ∧ head h ≠ Some 46%N.
Lemma wild_of_below c d h : below d c → host_ok h → wild c h → wild_below d h.
Proof.
  intros [labels ->] (_ & _ & Hh). rewrite wild_app. setoid_rewrite wild_app. setoid_rewrite wild_dot.
  intros (t1 & ? & -> & _ & ? & t2 & -> & -> & ?). exists t1, t2. split; [|done]. by intros ->.
Qed.
Lemma wild_below_mono c d h : c = d ∨ below d c → wild_below c h → wild_below d h.
Proof.
  intros [->|[labels ->]]; [done|]. intros (k & rest & Hk & -> & Hr). rewrite wild_app in Hr.
  setoid_rewrite wild_app in Hr. setoid_rewrite wild_dot in Hr. destruct Hr as (t1 & ? & -> & _ & ? & t2 & -> & -> & Hr).
  exists (k ++ dot ++ t1), t2. split_and!; [by destruct k| |done]. by rewrite !(assoc_L app).
Qed.

(** *** Literal domains *)

Definition literal (d : rstr) : Prop := 42%N ∉ d ∧ 63%N ∉ d.
Lemma wild_literal d h : literal d → wild d h ↔ h = d.
Proof.
  revert h; induction d as [|c d IH]; intros h [Hs Hq]; simpl; [done|].
  destruct (N.eqb_spec c 42) as [->|]; [set_solver|]. destruct (N.eqb_spec c 63) as [->|]; [set_solver|].
  setoid_rewrite IH; [|split; set_solver]. split; [by intros (? & -> & ->)|]. intros ->. by exists d.
Qed.
Lemma wild_below_literal d h : literal d → host_ok h → wild_below d h ↔ below d h.
Proof.
  intros Hd (_ & _ & Hh). unfold wild_below. setoid_rewrite wild_literal; [|done]. split.
  - intros (labels & ? & _ & -> & ->). by exists labels.
  - intros [labels ->]. exists labels, d. split_and!; [|done..]. by intros ->.
Qed.
Lemma literal_normalize d : literal d → literal (normalize_domain d).
Proof.
  assert (∀ x, x = 42%N ∨ x = 63%N → x ∉ d → x ∉ normalize_domain d) as H.
  { intros x Hx Hn (y & E & Hy)%list_elem_of_fmap. apply Hn. destruct (trim_end_by_prefix (λ c, (c =? 46)%N) d) as [tl Htl].
    replace x with y; [rewrite Htl; apply elem_of_app; by left|].
    unfold ascii_lower in E. destruct ((65 <=? y) && (y <=? 90))%N eqn:R; [|done].
    apply andb_true_iff in R as [?%N.leb_le ?%N.leb_le]. lia. }
  intros [Hs Hq]. split; apply H; auto.
Qed.

(** Two hosts below a domain, one label each *)
Definition host_x (c : rstr) : rstr := 120%N :: dot ++ c.
Definition host_y (c : rstr) : rstr := 121%N :: dot ++ c.
Lemma host_x_below c : below c (host_x c).
Proof. by exists [120%N]. Qed.
Lemma host_y_below c : below c (host_y c).
Proof. by exists [121%N]. Qed.
Lemma host_xy_ok c : host_ok c → host_ok (host_x c) ∧ host_ok (host_y c).
Proof. intros (Hc & Hn & _). split; (split; [by apply normal_label|done]). Qed.

(** Every host below [c] is [d] or below it. *)
Definition subdomains_within (c d : rstr) : Prop := ∀ h, host_ok h → below c h → h = d ∨ below d h.

Lemma subdomains_within_inv c d : host_ok c → subdomains_within c d → c = d ∨ below d c.
Proof.
  intros Hc Hw. destruct (host_xy_ok c Hc) as [Hx Hy].
  destruct (Hw _ Hx (host_x_below c)) as [Ex|?%below_cons]; [|done|done].
  destruct (Hw _ Hy (host_y_below c)) as [Ey|?%below_cons]; [|done|done].
  unfold host_x, host_y in *. congruence.
Qed.
Lemma covers_literal p host :
  literal (domain_of p) → host_ok host →
  covers p host ↔ match p with
                  | Exact domain => host = normalize_domain domain
                  | SubdomainsOnly domain => below (normalize_domain domain) host
                  | ApexAndSubdomains domain => host = normalize_domain domain ∨ below (normalize_domain domain) host
                  end.
Proof.
  intros Hl%literal_normalize Hh. destruct p as [d|d|d]; cbn [covers domain_of] in *;
    by rewrite ?wild_below_glob, ?wild_below_literal, ?wild_literal.
Qed.

Lemma allows_sound self candidate host :
  allows self candidate = true → host_ok host → covers candidate host → covers self host.
Proof.
  intros Ha Hh. destruct self as [d|d|d], candidate as [e|e|e]; cbn [allows] in Ha; try done; cbn [covers];
    rewrite ?is_subdomain_or_equal_below, ?is_strict_subdomain_below in Ha; rewrite ?wild_below_glob.
  - intros [Hw|Hw]; [|right; by eapply wild_below_mono]. destruct Ha as [<-|Hb]; [by left|]. right. by eapply wild_of_below.
  - intros Hw. right. by eapply wild_below_mono.
  - intros Hw. destruct Ha as [<-|Hb]; [by left|]. right. by eapply wild_of_below.
  - intros [Hw|Hw]; [by eapply wild_of_below|]. eapply wild_below_mono; [by right|done].
  - by apply wild_below_mono.
  - by apply wild_of_below.
  - unfold domain_eq, str_eqb in Ha. apply bool_decide_eq_true in Ha as <-. done.
Qed.
Lemma allows_complete self candidate :
  literal (domain_of self) → literal (domain_of candidate) → host_ok (normalize_domain (domain_of candidate)) →
  (∀ host, host_ok host → covers candidate host → covers self host) → allows self candidate = true.
Proof.
  intros Hs Hcl Hc Hw. set (c := normalize_domain (domain_of candidate)) in *.
  pose proof (λ h Hh Hcov, proj1 (covers_literal self h Hs Hh) (Hw h Hh (proj2 (covers_literal candidate h Hcl Hh) Hcov)))
    as Hw'. clear Hw.
  destruct (host_xy_ok c Hc) as [Hx Hy]. pose proof (host_x_below c) as Bx. pose proof (host_y_below c) as By.
  destruct self as [d|d|d], candidate as [e|e|e]; cbn [allows domain_of] in *; fold c in Hw';
    rewrite ?is_subdomain_or_equal_below, ?is_strict_subdomain_below; fold c; set (d' := normalize_domain d) in *.
  - apply subdomains_within_inv; [done|]. intros h Hh Hb. auto.
  - apply subdomains_within_inv; [done|]. intros h Hh Hb. auto.
  - auto.
  - auto.
  - apply subdomains_within_inv; [done|]. intros h Hh Hb. right. auto.
  - auto.
  - pose proof (Hw' _ Hx (or_intror Bx)). pose proof (Hw' _ Hc (or_introl eq_refl)). apply below_ne in Bx. congruence.
  - pose proof (Hw' _ Hx Bx). pose proof (Hw' _ Hy By). unfold host_x, host_y in *. congruence.
  - unfold domain_eq, str_eqb. fold c d'. apply bool_decide_eq_true. auto.
Qed.

(** C34: the order on domain patterns is inclusion: when [allows] holds, every host
    that the candidate's globs match is one that the managed pattern's globs match,
    with stars and question marks anywhere in the domains; and for domains without
    them, the candidate's being that of a host, [allows] holds whenever that is so. *)
Theorem allows_is_inclusion self candidate :
  (allows self candidate = true → ∀ host, host_ok host → covers candidate host → covers self host)
  ∧ (literal (domain_of self) → literal (domain_of candidate) → host_ok (normalize_domain (domain_of candidate)) →
     (∀ host, host_ok host → covers candidate host → covers self host) → allows self candidate = true).
Proof. split; [intros; by eapply allows_sound|apply allows_complete]. Qed.
Lemma allows_is_inclusion_witness :
  covers (ApexAndSubdomains (str "example.com")) (str "a.b1.example.com")
  ∧ allows (ApexAndSubdomains (str "example.com")) (SubdomainsOnly (str "B.example.com.")) = true.
Proof.
  split.
  - apply (allows_is_inclusion (ApexAndSubdomains (str "example.com")) (SubdomainsOnly (str "B*.example.com."))).
    + vm_compute. reflexivity.
    + split; [split; vm_compute; done|split; vm_compute; done].
    + apply wild_below_glob. exists (str "a"), (str "b1.example.com"). split_and!; [done|vm_compute; reflexivity|].
      apply (wild_app (str "b*") (str ".example.com")). exists (str "b1"), (str ".example.com").
      split_and!; [vm_compute; reflexivity|exists (str "1"); split; [reflexivity|by exists (str "1"), []]|].
      apply wild_literal; [split; vm_compute; set_solver|reflexivity].
  - apply (allows_is_inclusion (ApexAndSubdomains (str "example.com")) (SubdomainsOnly (str "B.example.com."))).
    + split; vm_compute; set_solver.
    + split; vm_compute; set_solver.
    + split; [split; vm_compute; done|split; vm_compute; done].
    + intros host Hh. apply (allows_sound (ApexAndSubdomains (str "example.com")) (SubdomainsOnly (str "B.example.com.")));
        [vm_compute; reflexivity|done].
Defined.
