(* ===== verification/HostNormalProps.v ===== *)
(** Hosts and patterns are compared without regard to case: the normal form of a
    pattern does not depend on the case of its letters.  Entries are replaced by
    the normal form of their host: for names, addresses and wildcards below a name
    that form is also that of the pattern, so that two entries with the same form
    stand for the same hosts. *)

From S2P Require Import Prelude InlineTagProps IpAddr NetworkPolicy NetworkPolicyProps.
#[local] Opaque str.

Notation lower := to_ascii_lowercase.

(** A character that is no letter *)
Definition caseless (c : rchar) : Prop := ∀ x, ascii_lower x = c ↔ x = c.
Lemma caseless_char c : ((65 <=? c) && (c <=? 90) || (97 <=? c) && (c <=? 122))%N = false → caseless c.
Proof.
  intros Hc x. unfold ascii_lower. apply orb_false_iff in Hc as [H1 H2].
  rewrite andb_false_iff, !N.leb_gt in H1, H2.
  destruct ((65 <=? x) && (x <=? 90))%N eqn:E; [|done].
  apply andb_true_iff in E as [?%N.leb_le ?%N.leb_le]. split; intros; lia.
Qed.

Lemma lower_length s : length (lower s) = length s.
Proof. apply length_fmap. Qed.
Lemma lower_empty s : is_empty (lower s) = is_empty s.
Proof. by destruct s. Qed.

(** Predicates that ignore case commute with trimming. *)
Lemma trim_start_by_lower p s :
  (∀ c, p (ascii_lower c) = p c) → trim_start_by p (lower s) = lower (trim_start_by p s).
Proof. intros Hp. induction s as [|c s IH]; [done|]. simpl. rewrite Hp. by case_match. Qed.
Lemma lower_reverse s : lower (reverse s) = reverse (lower s).
Proof. unfold to_ascii_lowercase. by rewrite fmap_reverse. Qed.
Lemma trim_end_by_lower p s :
  (∀ c, p (ascii_lower c) = p c) → trim_end_by p (lower s) = lower (trim_end_by p s).
Proof. intros Hp. unfold trim_end_by. by rewrite <-lower_reverse, trim_start_by_lower, lower_reverse. Qed.
Lemma whitespace_lower c : is_whitespace (ascii_lower c) = is_whitespace c.
Proof.
  unfold ascii_lower. destruct ((65 <=? c) && (c <=? 90))%N eqn:E; [|done].
  apply andb_true_iff in E as [?%N.leb_le ?%N.leb_le]. apply eq_true_iff_eq. unfold is_whitespace.
  rewrite !orb_true_iff, !andb_true_iff, ?N.eqb_eq, ?N.leb_le. lia.
Qed.
Lemma trim_lower s : trim (lower s) = lower (trim s).
Proof.
  unfold trim, trim_end, trim_start.
  by rewrite trim_start_by_lower, trim_end_by_lower by apply whitespace_lower.
Qed.

(** So do searches for characters that are no letters. *)
Lemma strip_prefix_lower p s :
  Forall caseless p → strip_prefix p (lower s) = lower <$> strip_prefix p s.
Proof.
  intros Hp. revert s. induction Hp as [|c p Hc _ IH]; intros s; [done|].
  destruct s as [|x s]; [done|]. simpl.
  destruct (N.eqb_spec c x) as [<-|Hx].
  - rewrite (proj2 (Hc c) eq_refl), N.eqb_refl. apply IH.
  - destruct (N.eqb_spec c (ascii_lower x)) as [E|]; [|done]. exfalso. by apply Hx, eq_sym, Hc.
Qed.
Lemma starts_with_lower p s : Forall caseless p → starts_with (lower s) p = starts_with s p.
Proof. intros Hp. unfold starts_with. rewrite strip_prefix_lower by done. by destruct (strip_prefix p s). Qed.
Lemma find_sub_lower p s : Forall caseless p → find_sub p (lower s) = find_sub p s.
Proof.
  intros Hp. induction s as [|c s IH]; [done|].
  change (lower (c :: s)) with (ascii_lower c :: lower s). cbn [find_sub].
  change (ascii_lower c :: lower s) with (lower (c :: s)). rewrite starts_with_lower by done. by rewrite IH.
Qed.
Lemma str_eqb_lower p s : Forall caseless p → str_eqb (lower s) p = str_eqb s p.
Proof.
  intros Hp. unfold str_eqb. apply bool_decide_ext. split; [|intros ->].
  - revert s. induction Hp as [|c p Hc _ IH]; intros [|x s]; try done. simpl. intros [= E1 E2].
    apply (proj1 (Hc x)) in E1. f_equal; [done|]. apply IH, E2.
  - induction Hp as [|c p Hc _ IH]; [done|]. simpl. f_equal; [by apply (proj2 (Hc c))|done].
Qed.
Lemma colons_lower s : colons (lower s) = colons s.
Proof.
  unfold colons. induction s as [|c s IH]; [done|]. simpl. rewrite !filter_cons.
  assert (ascii_lower c = 58%N ↔ c = 58%N) by (apply caseless_char; done).
  repeat case_decide; simpl; rewrite ?IH; naive_solver.
Qed.
Lemma split_char_lower c s : caseless c → split_char c (lower s) = lower <$> split_char c s.
Proof.
  intros Hc. induction s as [|x s IH]; [done|]. simpl. rewrite IH.
  destruct (N.eqb_spec x c) as [->|Hx].
  - by rewrite (proj2 (Hc c) eq_refl), N.eqb_refl.
  - destruct (N.eqb_spec (ascii_lower x) c) as [E|]; [by apply (proj1 (Hc x)) in E|].
    by destruct (split_char_cons c s) as (w & ws & ->).
Qed.

Lemma normalize_dns_lower s : normalize_dns_host_or_ip_literal (lower s) = normalize_dns_host_or_ip_literal s.
Proof. unfold normalize_dns_host_or_ip_literal. by rewrite to_ascii_lowercase_idemp. Qed.
Ltac caseless :=
  lazymatch goal with
  | |- Forall caseless (str ?s) => let l := eval vm_compute in (str s) in change (Forall caseless l)
  | _ => idtac
  end;
  repeat first [apply Forall_nil_2 | apply Forall_cons_2]; apply caseless_char; reflexivity.

(** The normal form of a host ignores case. *)
Lemma normalize_host_lower s : normalize_host (lower s) = normalize_host s.
Proof.
  unfold normalize_host. rewrite trim_lower, starts_with_lower by caseless.
  rewrite find_sub_lower by caseless. rewrite colons_lower.
  rewrite split_char_lower by caseless.
  destruct (split_char_cons 58 (trim s)) as (w & ws & ->). simpl.
  assert (∀ e, take (e - 1) (drop 1 (lower (trim s))) = lower (take (e - 1) (drop 1 (trim s)))) as Ht.
  { intros e. unfold to_ascii_lowercase. by rewrite fmap_take, fmap_drop. }
  repeat case_match; rewrite ?Ht, ?normalize_dns_lower; done.
Qed.
Lemma normalize_pattern_lower p : normalize_pattern (lower p) = normalize_pattern p.
Proof.
  unfold normalize_pattern. rewrite trim_lower, str_eqb_lower by caseless.
  rewrite !strip_prefix_lower by caseless.
  destruct (strip_prefix (str "**.") (trim p)); simpl; [by rewrite normalize_host_lower|].
  destruct (strip_prefix (str "*.") (trim p)); simpl; by rewrite normalize_host_lower.
Qed.
Lemma normalize_pattern_case p q : lower p = lower q → normalize_pattern p = normalize_pattern q.
Proof. intros E. by rewrite <-(normalize_pattern_lower p), E, normalize_pattern_lower. Qed.

(** ** Hosts and patterns with the same normal form *)

(** A character that host normalization leaves alone inside a name *)
Definition plain_char (c : rchar) : bool :=
  negb (is_whitespace c || (c =? 58) || (c =? 91) || (c =? 37))%N.
(** A normal form that is a name or a wildcard below a domain *)
Definition plain (n : rstr) : bool :=
  forallb plain_char n && negb (str_eqb n (str "*")) && negb (str_eqb n (str "**")).

Lemma plain_elem n c : plain n = true → c ∈ n → plain_char c = true.
Proof.
  unfold plain. rewrite !andb_true_iff, forallb_forall. intros [[Hn _] _] Hc. by apply Hn, list_elem_of_In.
Qed.

(** ** Trimming *)

Lemma trim_start_by_first p s c : head (trim_start_by p s) = Some c → p c = false.
Proof. induction s as [|d s IH]; simpl; [done|]. destruct (p d) eqn:E; [done|]. simpl. by intros [= <-]. Qed.
Lemma trim_trimmed_end s : trimmed_end (trim s).
Proof.
  intros c. unfold trim, trim_end, trim_end_by. rewrite <-head_reverse, reverse_involutive.
  apply trim_start_by_first.
Qed.
Lemma trim_end_by_app_ne p s t : trim_end_by p t ≠ [] → trim_end_by p (s ++ t) = s ++ trim_end_by p t.
Proof.
  induction s as [|c s IH]; [done|]. intros Ht. simpl. rewrite <-(IH Ht).
  destruct (p c) eqn:E; [|by rewrite trim_end_by_cons].
  assert (trim_end_by p (s ++ t) ≠ []) as Hne; [by rewrite (IH Ht); destruct s|].
  revert Hne. unfold trim_end_by. rewrite reverse_cons. clear.
  generalize (reverse (s ++ t)). intros l. induction l as [|d l IH]; [done|]. simpl.
  destruct (p d) eqn:E; [auto|]. intros _. by rewrite <-reverse_snoc.
Qed.

(** ** Names without a scope *)

Lemma find_sub_percent s rest : 37%N ∉ s → find_sub (37%N :: rest) s = None.
Proof.
  induction s as [|c s IH]; [done|]. intros [Hc Hs]%not_elem_of_cons. cbn [find_sub]. rewrite IH by done.
  unfold starts_with. cbn [strip_prefix]. by destruct (N.eqb_spec 37 c).
Qed.
Lemma ip_literal_unscoped x : 37%N ∉ x → default x (normalize_ip_literal x) = x.
Proof.
  intros Hx. unfold normalize_ip_literal, split_once_str.
  destruct (parse_ip x); [done|].
  change (str "%25") with [37; 50; 53]%N. change (str "%") with [37]%N. by rewrite !find_sub_percent.
Qed.
Lemma ip_literal_scoped x : 37%N ∉ default x (normalize_ip_literal x) → 37%N ∉ x.
Proof.
  unfold normalize_ip_literal, split_once_str. destruct (parse_ip x); [done|].
  change (str "%25") with [37; 50; 53]%N. change (str "%") with [37]%N.
  destruct (find_sub [37; 50; 53]%N x); simpl; [destruct (parse_ip _); simpl; [set_solver|]|];
    (destruct (find_sub [37]%N x); simpl; [destruct (parse_ip _); simpl; [set_solver|done]|done]).
Qed.
Lemma normalize_dns_unscoped x :
  37%N ∉ normalize_dns_host_or_ip_literal x ∨ 37%N ∉ trim_end_dots (lower x) →
  normalize_dns_host_or_ip_literal x = trim_end_dots (lower x).
Proof.
  unfold normalize_dns_host_or_ip_literal. intros [Hx%ip_literal_scoped|Hx]; by apply ip_literal_unscoped.
Qed.

(** ** Wildcards below a domain *)

(** What normalization keeps before a port *)
Definition before_port (s : rstr) : rstr :=
  if colons s =? 1 then default [] (head (split_char 58%N s)) else s.
Lemma before_port_prefix s : before_port s `prefix_of` s.
Proof.
  unfold before_port. case_match; [|done]. clear. induction s as [|c s IH]; [done|]. cbn [split_char].
  destruct (split_char_cons 58 s) as (w & ws & E). rewrite E in *. destruct (N.eqb_spec c 58); [apply prefix_nil|].
  simpl in *. by apply prefix_cons.
Qed.
Lemma normalize_host_unbracketed s :
  head (trim s) ≠ Some 91%N → normalize_host s = normalize_dns_host_or_ip_literal (before_port (trim s)).
Proof.
  intros Hs. unfold normalize_host, before_port.
  assert (starts_with (trim s) (str "[") = false) as ->; [|by case_match].
  change (str "[") with [91]%N. unfold starts_with. destruct (trim s) as [|c t]; [done|].
  cbn [strip_prefix]. destruct (N.eqb_spec 91 c); [by subst|done].
Qed.
Lemma before_port_app w r : 58%N ∉ w → before_port (w ++ r) = w ++ before_port r.
Proof.
  intros Hw. unfold before_port.
  assert (colons (w ++ r) = colons r) as ->.
  { unfold colons. rewrite filter_app, length_app. induction w as [|c w IH]; [done|].
    apply not_elem_of_cons in Hw as [Hc Hw]. rewrite filter_cons_False by congruence. auto. }
  case_match; [|done]. destruct (split_char_cons 58 r) as (x & xs & E). rewrite E. simpl.
  induction w as [|c w IH]; simpl; [by rewrite E|].
  apply not_elem_of_cons in Hw as [Hc Hw]. specialize (IH Hw).
  destruct (split_char_cons 58 (w ++ r)) as (y & ys & E'). rewrite E' in *. simpl in *.
  destruct (N.eqb_spec c 58); [congruence|]. simpl. by rewrite IH.
Qed.

(** The marks of a wildcard; without a domain only [stem] is left of it. *)
Inductive wildcard : rstr → rstr → Prop :=
| wildcard_sub : wildcard (str "*.") (str "*")
| wildcard_apex : wildcard (str "**.") (str "**").
Lemma wildcard_facts w stem :
  wildcard w stem →
  (58%N ∉ w) ∧ head w = Some 42%N ∧ lower w = w ∧ trim_end_dots w = stem ∧ plain stem = false.
Proof.
  intros [].
  - change (str "*.") with [42; 46]%N. split_and!; [|vm_compute; reflexivity..]. rewrite !elem_of_cons, elem_of_nil. naive_solver.
  - change (str "**.") with [42; 42; 46]%N.
    split_and!; [|vm_compute; reflexivity..]. rewrite !elem_of_cons, elem_of_nil. naive_solver.
Qed.

Lemma trim_end_by_app_nil p s t : trim_end_by p t = [] → trim_end_by p (s ++ t) = trim_end_by p s.
Proof.
  unfold trim_end_by. rewrite reverse_app. intros Ht%(f_equal reverse). rewrite reverse_involutive in Ht.
  by rewrite trim_start_by_app_nil.
Qed.

(** A nonempty plain start keeps a text from being trimmed or read as bracketed. *)
Lemma plain_start r t :
  t ≠ [] → t `prefix_of` lower r → Forall (λ c, plain_char c = true) t → trimmed_end r →
  trim r = r ∧ head r ≠ Some 91%N.
Proof.
  intros Hne [k Hk] Ht He. destruct t as [|x t]; [done|]. destruct r as [|c r]; [done|].
  injection Hk as Ex _. apply Forall_cons in Ht as [Hx _]. subst x.
  assert (is_whitespace c = false ∧ c ≠ 91%N) as [Hc H91].
  { unfold plain_char in Hx. rewrite whitespace_lower, negb_true_iff, !orb_false_iff in Hx.
    destruct Hx as [[[Hc _] H91] _]. split; [done|]. intros ->. done. }
  split; [|simpl; congruence]. apply trim_id; [|done]. intros d [= <-]. done.
Qed.

Lemma wildcard_normal w stem r q :
  wildcard w stem → trim q = w ++ r → plain (normalize_host q) = true →
  normalize_host q = w ++ normalize_host r.
Proof.
  intros (Hcol & Hhd & Hlow & Hstem & Hns)%wildcard_facts Ht Hp.
  assert (head (trim q) = Some 42%N) as Hh by (rewrite Ht; by destruct w).
  rewrite normalize_host_unbracketed, Ht, before_port_app in Hp |- * by congruence.
  set (b := before_port r) in *. set (t := trim_end_dots (lower b)).
  assert (normalize_dns_host_or_ip_literal (w ++ b) = trim_end_dots (w ++ lower b)) as En.
  { rewrite normalize_dns_unscoped; [by unfold to_ascii_lowercase in *; rewrite fmap_app, Hlow|].
    left. intros Hin. by apply (plain_elem _ _ Hp) in Hin. }
  rewrite En in Hp |- *. destruct (decide (t = [])) as [Et|Et].
  { unfold trim_end_dots in Hp. rewrite trim_end_by_app_nil in Hp by done. unfold trim_end_dots in Hstem. congruence. }
  unfold trim_end_dots in Hp |- *. rewrite trim_end_by_app_ne in Hp |- * by done. fold (trim_end_dots (lower b)) in *.
  fold t in Hp |- *. f_equal.
  assert (Forall (λ c, plain_char c = true) t) as Hpt.
  { apply Forall_forall. intros c Hc. apply (plain_elem _ _ Hp), elem_of_app. by right. }
  assert (t `prefix_of` lower r) as Hpre.
  { etrans; [apply trim_end_by_prefix|]. destruct (before_port_prefix r) as [k Hk]. fold b in Hk.
    rewrite Hk. unfold to_ascii_lowercase. rewrite fmap_app. by eexists. }
  destruct (plain_start r t) as [Hr H91]; [done..| |].
  { intros c Hc. apply (trim_trimmed_end q). rewrite Ht, last_app, Hc. done. }
  rewrite normalize_host_unbracketed, Hr by congruence. fold b. symmetry. apply normalize_dns_unscoped.
  right. fold t. intros Hin. rewrite Forall_forall in Hpt. by apply Hpt in Hin.
Qed.

Lemma trim_idemp s : trim (trim s) = trim s.
Proof.
  apply trim_id; [|apply trim_trimmed_end]. intros c. unfold trim, trim_end.
  destruct (trim_end_by_prefix is_whitespace (trim_start s)) as [k Hk].
  destruct (trim_end_by is_whitespace (trim_start s)) as [|d t]; [done|]. intros [= <-].
  apply (trim_start_by_first _ s). unfold trim_start in Hk. by rewrite Hk.
Qed.

(** The pattern of an entry is its normal form as a host. *)
Lemma normalize_pattern_plain q : plain (normalize_host q) = true → normalize_pattern q = normalize_host q.
Proof.
  intros Hp. unfold normalize_pattern.
  destruct (str_eqb (trim q) (str "*")) eqn:Es.
  { apply bool_decide_eq_true in Es. unfold normalize_host in Hp. rewrite Es in Hp. vm_compute in Hp. done. }
  destruct (strip_prefix (str "**.") (trim q)) as [r|] eqn:E2.
  { apply strip_prefix_Some in E2. symmetry. by apply (wildcard_normal _ _ _ _ wildcard_apex). }
  destruct (strip_prefix (str "*.") (trim q)) as [r|] eqn:E1.
  { apply strip_prefix_Some in E1. symmetry. by apply (wildcard_normal _ _ _ _ wildcard_sub). }
  unfold normalize_host. by rewrite trim_idemp.
Qed.
(** A text that begins with a star has a normal form that does. *)
Lemma normalize_ip_literal_star t : head (default (42%N :: t) (normalize_ip_literal (42%N :: t))) = Some 42%N.
Proof.
  unfold normalize_ip_literal. destruct (parse_ip (42%N :: t)); [done|].
  assert (∀ delim, head (default (42%N :: t) ('(ip, scope) ← split_once_str delim (42%N :: t);
    if parse_ip ip then Some (ip ++ str "%" ++ scope) else None)) = Some 42%N) as Hscoped.
  { intros delim. unfold split_once_str. destruct (find_sub delim (42%N :: t)) as [i|]; [|done].
    cbn [fmap option_fmap option_map mbind option_bind]. destruct (parse_ip (take i (42%N :: t))) eqn:E; [|done].
    by destruct i. }
  pose proof (Hscoped (str "%25")) as H1. destruct ('(ip, scope) ← split_once_str (str "%25") _; _); [done|apply Hscoped].
Qed.
Lemma normalize_host_star s : head (trim s) = Some 42%N → head (normalize_host s) = Some 42%N.
Proof.
  intros Hs. rewrite normalize_host_unbracketed by congruence. destruct (trim s) as [|c t] eqn:E; [done|].
  injection Hs as ->. change (42%N :: t) with ([42%N] ++ t). rewrite before_port_app by set_solver. simpl.
  unfold normalize_dns_host_or_ip_literal. simpl. unfold trim_end_dots. rewrite trim_end_by_cons by done.
  apply normalize_ip_literal_star.
Qed.

(** A normal form that is that of a pattern too: it has no wildcard in front, or is a
    wildcard below a name *)
Definition regular (n : rstr) : bool := negb (starts_with n (str "*")) || plain n.
Lemma normalize_pattern_regular q : regular (normalize_host q) = true → normalize_pattern q = normalize_host q.
Proof.
  unfold regular. intros [Hn|Hp]%orb_true_iff; [|by apply normalize_pattern_plain].
  assert (head (trim q) ≠ Some 42%N) as Hq.
  { intros Hq%normalize_host_star. destruct (normalize_host q) as [|c n]; [done|]. injection Hq as ->. by vm_compute in Hn. }
  unfold normalize_pattern.
  assert (str_eqb (trim q) (str "*") = false) as ->.
  { apply bool_decide_eq_false. intros E. by rewrite E in Hq. }
  assert (∀ rest, strip_prefix (42%N :: rest) (trim q) = None) as Hstrip.
  { intros rest. destruct (trim q) as [|c t]; [done|]. cbn [strip_prefix].
    destruct (N.eqb_spec 42 c) as [<-|]; [by destruct Hq|done]. }
  change (str "**.") with (42%N :: str "*."). change (str "*.") with (42%N :: str "."). rewrite !Hstrip.
  unfold normalize_host. by rewrite trim_idemp.
Qed.
Lemma same_host_same_pattern p q :
  normalize_host p = normalize_host q → regular (normalize_host q) = true → normalize_pattern p = normalize_pattern q.
Proof. intros E Hq. by rewrite !normalize_pattern_regular by congruence. Qed.

(** Addresses are regular; of wildcards only those below a name are. *)
Example regular_forms :
  regular (normalize_host (str "[2001:DB8::1]:443")) = true ∧ regular (normalize_host (str "fe80::1%lo0")) = true
  ∧ regular (normalize_host (str "*.Example.com.")) = true ∧ regular (normalize_host (str "*.::1")) = false.
Proof. vm_compute. done. Qed.
