(* ===== verification/NetworkDecisionProps.v ===== *)
(** What the decisions of the network proxy guarantee in terms of the configured
    lists: denials, the allowlist, local addresses and connections. *)

From stdpp Require Import gmap.
From S2P Require Import Prelude IpAddr NetworkPolicy AbsolutePath MitmHook NetworkConfig NetworkState NetworkStateProps NetworkRuntime NetworkRuntimeProps NetworkPolicyProps HostNormalProps.
#[local] Opaque str.

Section decisions.
Context `{HostTools, HookTools, PathEnv, SecretEnv}.

(** ** Compiled sets *)

(** The globs of a pattern *)
Definition candidates (p : rstr) : list rstr := expand_domain_pattern (normalize_pattern p).

Lemma add_candidates_elem seen cs set :
  add_candidates seen cs = Ok set → ∀ g, g ∈ set ↔ g ∈ seen ∨ g ∈ cs.
Proof.
  revert seen. induction cs as [|c cs IH]; intros seen; simpl; [intros [= <-]; set_solver|].
  case_bool_decide as E; [intros Hc g; rewrite (IH _ Hc); set_solver|].
  case_match; [|done]. intros Hc g. rewrite (IH _ Hc). set_solver.
Qed.
Lemma compile_patterns_elem w seen ps set :
  compile_patterns w seen ps = Ok set → ∀ g, g ∈ set ↔ g ∈ seen ∨ ∃ p, p ∈ ps ∧ g ∈ candidates p.
Proof.
  revert seen. induction ps as [|p ps IH]; intros seen; simpl; [intros [= <-]; set_solver|].
  case_match; [done|]. rewrite result_bind_Ok. intros (seen' & Hs & Hc) g.
  rewrite (IH _ Hc), (add_candidates_elem _ _ _ Hs). unfold candidates. set_solver.
Qed.
Lemma compiled_set_match w ps set h :
  compile_patterns w [] ps = Ok set →
  is_match set h = true ↔ ∃ p g, p ∈ ps ∧ g ∈ candidates p ∧ glob_match g h = true.
Proof.
  intros Hc. unfold is_match. rewrite existsb_exists. setoid_rewrite <-list_elem_of_In.
  setoid_rewrite (compile_patterns_elem _ _ _ _ Hc). set_solver.
Qed.

(** [p] matches the host, or its address without the scope *)
Definition pattern_matches (p host : rstr) : Prop :=
  ∃ g h, g ∈ candidates p ∧ glob_match g h = true ∧ (h = host ∨ unscoped_ip_literal host = Some h).
Lemma globset_matches_iff w ps set host :
  compile_patterns w [] ps = Ok set →
  globset_matches_host_or_unscoped set host = true ↔ ∃ p, p ∈ ps ∧ pattern_matches p host.
Proof.
  intros Hc. unfold globset_matches_host_or_unscoped. rewrite orb_true_iff, (compiled_set_match _ _ _ _ Hc).
  unfold pattern_matches. destruct (unscoped_ip_literal host) as [ip|].
  - rewrite (compiled_set_match _ _ _ _ Hc). naive_solver.
  - naive_solver.
Qed.

(** ** Denials *)

Lemma listed_pattern_matches l p host : listed l p → pattern_matches p host → ∃ q, q ∈ l ∧ pattern_matches q host.
Proof.
  intros (q & Hq & E) Hm. exists q. split; [done|]. unfold pattern_matches, candidates in *.
  by rewrite (normalize_pattern_case q p E).
Qed.
Lemma denied_blocks st lookup text host p :
  compiled st → host_parse text = Some host → p ∈ denied_of (config st) → pattern_matches p host →
  host_blocked st lookup text = Blocked Denied.
Proof.
  intros Hc Hh Hp Hm. unfold host_blocked. rewrite Hh.
  assert (globset_matches_host_or_unscoped (deny_set st) host = true) as ->; [|done].
  eapply globset_matches_iff; [apply Hc|]. eauto.
Qed.

Lemma managed_denial_blocks st managed p text host lookup decider :
  compiled st → c_denied_domains (constraints st) = Some managed → p ∈ managed →
  host_parse text = Some host → pattern_matches p host →
  evaluate_host_policy st lookup decider text = (deny_with_source (str "denied") BaselinePolicy, false).
Proof.
  intros Hc Hk Hp Hh Hm.
  destruct (within_denied _ _ (compiled_within _ Hc) managed Hk) as [_ Hd].
  assert (listed (denied_of (config st)) p) as Hl.
  { destruct (c_denylist_expansion_enabled _) as [[]|]; simpl in Hd; [auto| |auto]. apply Hd. by exists p. }
  destruct (listed_pattern_matches _ _ _ Hl Hm) as (q & Hq & Hqm).
  unfold evaluate_host_policy. by rewrite (denied_blocks _ lookup text host q).
Qed.

(** A managed denial cannot be evaded: in every reachable state a host that
    a managed deny pattern matches (also by its address without scope, and
    whatever the case of the pattern in the managed list) is denied by the
    baseline policy, and no decider is asked. *)
Theorem managed_denials_enforced st w managed p text host lookup decider :
  trusted st → reachable st w →
  c_denied_domains (constraints (shared w)) = Some managed → p ∈ managed →
  host_parse text = Some host → pattern_matches p host →
  evaluate_host_policy (shared w) lookup decider text = (deny_with_source (str "denied") BaselinePolicy, false).
Proof.
  intros Ht Hr. destruct (reachable_good st w Ht Hr) as [[Hc _] _]. by apply managed_denial_blocks.
Qed.

(** ** Allowed hosts *)

(** An entry that names the host itself, without wildcards *)
Definition names_explicitly (entry host : rstr) : Prop :=
  (42%N ∉ trim entry) ∧ (63%N ∉ trim entry)
  ∧ (normalize_host (trim entry) = host ∨ unscoped_ip_literal host = Some (normalize_host (trim entry))).
Lemma explicit_names allowed host :
  is_explicit_local_allowlisted allowed host = true → ∃ entry, entry ∈ allowed ∧ names_explicitly entry host.
Proof.
  unfold is_explicit_local_allowlisted. rewrite existsb_exists. intros (e & Hin & He).
  apply list_elem_of_In in Hin. exists e. split; [done|].
  case_match; [done|]. case_match eqn:E; [done|]. apply orb_false_iff in E as [E1 E2].
  apply bool_decide_eq_false in E1, E2. split; [done|]. split; [done|].
  apply orb_true_iff in He as [He%bool_decide_eq_true|He]; [by left|]. right.
  destruct (unscoped_ip_literal host); [|done]. apply bool_decide_eq_true in He. by subst.
Qed.

(** Only public addresses are behind the host. *)
Definition resolves_publicly (lookup : rstr → option (list IpAddr)) (host : rstr) : Prop :=
  match parse_ip host with
  | Some ip => is_non_public_ip ip = false
  | None => ∃ addrs, lookup host = Some addrs ∧ Forall (λ ip, is_non_public_ip ip = false) addrs
  end.
Lemma resolves_publicly_iff lookup host :
  host_resolves_to_non_public_ip (lookup host) host = false ↔ resolves_publicly lookup host.
Proof.
  unfold host_resolves_to_non_public_ip, resolves_publicly. destruct (parse_ip host); [done|].
  destruct (lookup host) as [addrs|]; [|naive_solver].
  rewrite <-not_true_iff_false, existsb_exists. setoid_rewrite Forall_forall.
  setoid_rewrite <-not_true_iff_false. setoid_rewrite <-list_elem_of_In. naive_solver.
Qed.

(** Not denied, and not local unless local binding or an explicit entry allows it *)
Definition screened (st : ConfigState) (lookup : rstr → option (list IpAddr)) (host : rstr) : Prop :=
  (∀ p, p ∈ denied_of (config st) → ¬ pattern_matches p host)
  ∧ (allow_local_binding (config st) = false →
     if local_literal host then ∃ e, e ∈ allowed_of (config st) ∧ names_explicitly e host
     else resolves_publicly lookup host).
Definition allowlisted (st : ConfigState) (host : rstr) : Prop :=
  ∃ p, p ∈ allowed_of (config st) ∧ pattern_matches p host.

(** Both the allowed hosts and those left to a decider are screened. *)
Lemma host_blocked_screened st lookup text host d :
  compiled st → host_parse text = Some host → host_blocked st lookup text = d →
  d = Allowed ∨ d = Blocked NotAllowed →
  screened st lookup host ∧ (d = Allowed → allowlisted st host).
Proof.
  intros Hc Hh. unfold host_blocked. rewrite Hh. fold (allowed_of (config st)).
  destruct (globset_matches_host_or_unscoped (deny_set st) host) eqn:Ed; [naive_solver|].
  case_match eqn:El; [naive_solver|]. intros Hd _. split; [split|].
  - intros p Hp Hm. apply not_true_iff_false in Ed. apply Ed. eapply globset_matches_iff; [apply Hc|]. eauto.
  - intros Eb. rewrite Eb in El. destruct (local_literal host).
    + apply negb_false_iff in El. by apply explicit_names.
    + by apply resolves_publicly_iff.
  - intros ->. case_match eqn:Ea; [done|]. apply orb_false_iff in Ea as [_ Ea%negb_false_iff].
    by eapply globset_matches_iff in Ea; [|apply Hc].
Qed.

(** C32: what an allowed request means: no deny pattern matches its host, and
    unless local binding is on, a local literal was listed explicitly and any
    other host resolved, with only public addresses; the host is on the
    allowlist, or a decider allowed it. *)
Theorem allowed_requests_are_screened st w lookup decider text host override :
  trusted st → reachable st w → host_parse text = Some host →
  evaluate_host_policy (shared w) lookup decider text = (DecideAllow, override) →
  screened (shared w) lookup host
  ∧ (if override then ∃ decide, decider = Some decide ∧ decide text = DecideAllow
     else allowlisted (shared w) host).
Proof.
  intros Ht Hr Hh He. destruct (reachable_good st w Ht Hr) as [[Hc _] _].
  unfold evaluate_host_policy in He.
  destruct (host_blocked (shared w) lookup text) as [|[]] eqn:Eb; [|done| |done].
  - injection He as <-. destruct (host_blocked_screened _ _ _ _ _ Hc Hh Eb (or_introl eq_refl)). auto.
  - destruct decider as [decide|]; [|done].
    destruct (host_blocked_screened _ _ _ _ _ Hc Hh Eb (or_intror eq_refl)) as [Hs _].
    destruct (decide text) eqn:Ed; simpl in He; [|done]. injection He as <-. eauto.
Qed.

(** ** Connections *)

Lemma trim_end_by_split p s : ∃ tail, s = trim_end_by p s ++ tail ∧ Forall (λ c, p c = true) tail.
Proof.
  induction s as [|c s (tail & E & Ht)] using rev_ind; [by exists []|].
  destruct (p c) eqn:Ec.
  - exists (tail ++ [c]). unfold trim_end_by in *. rewrite reverse_snoc. simpl. rewrite Ec.
    rewrite (assoc_L app), <-E. split; [done|]. apply Forall_app. by repeat constructor.
  - exists []. rewrite app_nil_r. split; [|constructor]. symmetry. apply trim_end_by_last.
    intros x. rewrite last_snoc. by intros [= <-].
Qed.
Lemma localhost_name_normal name : is_localhost_name name = true → normalize_host name = str "localhost".
Proof.
  unfold is_localhost_name, eq_ignore_ascii_case. intros E%bool_decide_eq_true.
  rewrite <-normalize_host_lower. unfold trim_end_dots in E.
  rewrite <-trim_end_by_lower in E.
  2: { intros c. apply eq_bool_prop_intro. rewrite !Is_true_true, !N.eqb_eq. apply ascii_lower_dot. }
  assert (∃ tail, lower name = str "localhost" ++ tail ∧ Forall (λ c, c = 46%N) tail) as (tail & En & Ht).
  { destruct (trim_end_by_split (λ c, (c =? 46)%N) (lower name)) as (tail & En & Ht). exists tail.
    rewrite E in En. split; [by rewrite En at 1|]. eapply Forall_impl; [done|]. intros c. apply N.eqb_eq. }
  pose proof (to_ascii_lowercase_idemp name) as Hi.
  let l := eval vm_compute in (str "localhost") in change (str "localhost") with l in *.
  assert (trim (lower name) = lower name) as Htrim.
  { rewrite En. apply trim_id.
    - intros c [= <-]. reflexivity.
    - intros c. destruct tail as [|x tail _] using rev_ind; [intros [= <-]; reflexivity|].
      rewrite (assoc_L app), last_snoc. apply Forall_app in Ht as [_ Ht]. apply (Forall_singleton _ x) in Ht.
      intros [= <-]. by rewrite Ht. }
  unfold normalize_host. rewrite Htrim.
  assert (starts_with (lower name) (str "[") = false) as -> by (by rewrite En).
  assert (colons (lower name) = 0) as ->.
  { rewrite En. unfold colons. rewrite filter_app, length_app. simpl. clear -Ht.
    induction Ht as [|c tail Hc _ IH]; [done|]. rewrite filter_cons_False; [done|]. by rewrite Hc. }
  simpl. unfold normalize_dns_host_or_ip_literal. rewrite Hi. unfold trim_end_dots. rewrite E.
  vm_compute. reflexivity.
Qed.

(** The text of an address target reads back as the address. *)
Definition target_reads (target : TargetHost) : Prop :=
  match target with
  | TargetAddress ip text => parse_ip (normalize_host text) = Some ip
  | TargetName _ => True
  end.
Lemma target_is_local target addr :
  target_reads target → is_non_public_ip addr = true → target_matches_non_public_addr target addr = true →
  ∃ host, host_parse (target_text target) = Some host ∧ host = normalize_host (target_text target)
          ∧ local_literal host = true.
Proof.
  intros Hr Hn Hm. destruct target as [ip text|name]; simpl in *.
  - apply bool_decide_eq_true in Hm as ->. exists (normalize_host text).
    unfold host_parse, local_literal, unscoped_ip_literal.
    rewrite (split_once_plain 37 (normalize_host text)) by by eapply parse_ip_plain. simpl. rewrite Hr, Hn.
    split; [by destruct (normalize_host text)|]. split; [done|]. by case_match.
  - apply andb_true_iff in Hm as [Hm _]. apply localhost_name_normal in Hm as En. 
    exists (str "localhost"). unfold host_parse. rewrite En.
    split; [done|]. split; [done|]. vm_compute. reflexivity.
Qed.

Lemma connect_allowed_public st w lookup target addr :
  trusted st → reachable st w → target_reads target → allow_local_binding (config (shared w)) = false →
  connect_allowed (shared w) lookup target addr = true →
  is_non_public_ip addr = false
  ∨ (target_matches_non_public_addr target addr = true
     ∧ ∃ entry, entry ∈ allowed_of (config (shared w))
                ∧ names_explicitly entry (normalize_host (target_text target))).
Proof.
  intros Ht Hr Ht' Hb Hc. destruct (reachable_good st w Ht Hr) as [[Hcomp _] _].
  unfold connect_allowed in Hc. apply negb_true_iff in Hc.
  destruct (is_non_public_ip addr) eqn:En; [right|by left]. simpl in Hc. apply negb_false_iff in Hc.
  unfold allows_non_public_target in Hc. rewrite Hb in Hc.
  destruct (target_matches_non_public_addr target addr) eqn:Em; [|done]. split; [done|].
  apply bool_decide_eq_true in Hc.
  destruct (target_is_local target addr Ht' En Em) as (host & Hh & -> & Hl).
  destruct (host_blocked_screened _ _ _ _ _ Hcomp Hh Hc (or_introl eq_refl)) as [[_ Hs] _].
  specialize (Hs Hb). by rewrite Hl in Hs.
Qed.
(** An upstream proxy comes from the environment and has an HTTP address. *)
Definition from_environment (env : rstr → option rstr) (proxy_from : rstr → option ProxyAddress)
    (proxy : ProxyAddress) : Prop :=
  ∃ key value, env key = Some value ∧ proxy_from (trim value) = Some proxy ∧ proxy_is_http proxy ≠ Some false.
Lemma read_proxy_env_found env proxy_from keys proxy :
  read_proxy_env env proxy_from keys = Some proxy → from_environment env proxy_from proxy.
Proof.
  induction keys as [|key keys IH]; simpl; [done|]. destruct (env key) as [value|] eqn:Ek; [|done].
  destruct (is_empty (trim value)); [done|]. destruct (proxy_from (trim value)) as [found|] eqn:Ef; [|done].
  destruct (default true (proxy_is_http found)) eqn:Eh; [|done]. intros [= <-]. exists key, value.
  split_and!; [done..|]. intros E. by rewrite E in Eh.
Qed.
Lemma proxy_for_protocol_found env proxy_from is_secure proxy :
  proxy_for_protocol (upstream_from_env env proxy_from) is_secure = Some proxy → from_environment env proxy_from proxy.
Proof.
  unfold proxy_for_protocol, upstream_from_env, or_else. cbn [http_upstream https_upstream all_upstream].
  intros Hp. destruct is_secure; repeat case_match; simplify_eq; by eapply read_proxy_env_found.
Qed.
Lemma selected_proxy_found env proxy_from st request proxy :
  selected_proxy env proxy_from st request = Some proxy →
  allow_upstream_proxy (config st) = true ∧ from_environment env proxy_from proxy
  ∧ ∀ target, request_target request = Some target → is_non_public_target target = false.
Proof.
  assert (∀ is_secure, proxy_for_protocol no_upstream is_secure = None) as Hno by by intros [].
  unfold selected_proxy, proxy_for_connect, proxy_for_target.
  destruct (allow_upstream_proxy (config st)), request as [target|[[target is_secure]|]]; rewrite ?Hno; try done;
    cbn [request_target fst fmap option_fmap option_map].
  - destruct (is_non_public_target target) eqn:E; [done|]. intros Hp%proxy_for_protocol_found.
    split_and!; [done..|]. by intros ? [= <-].
  - destruct (is_non_public_target target) eqn:E; [done|]. intros Hp%proxy_for_protocol_found.
    split_and!; [done..|]. by intros ? [= <-].
  - by intros Hp%proxy_for_protocol_found.
  - by case_match.
Qed.

(** C33: connections stay public: without local binding a tunnel or a forwarded
    request dials the addresses of its target only when they are public, or when the
    target itself names the non-public address and is listed explicitly, without
    wildcards.  The addresses of an upstream proxy are not checked: one is dialled
    only when the configuration allows it, the environment names it and the target is
    not itself non-public. *)
Theorem connections_stay_public st w selected env proxy_from request lookup addr :
  trusted st → reachable st w → (∀ target, request_target request = Some target → target_reads target) →
  allow_local_binding (config (shared w)) = false →
  dial_attempted (shared w) lookup (serve env proxy_from selected request) addr = true →
  match serve env proxy_from selected request with
  | DialTarget target =>
      is_non_public_ip addr = false
      ∨ (target_matches_non_public_addr target addr = true
         ∧ ∃ entry, entry ∈ allowed_of (config (shared w))
                    ∧ names_explicitly entry (normalize_host (target_text target)))
  | DialProxy proxy =>
      allow_upstream_proxy (config selected) = true ∧ from_environment env proxy_from proxy
      ∧ ∀ target, request_target request = Some target → is_non_public_target target = false
  | DialFails => False
  end.
Proof.
  intros Ht Hr Hreads Hb Ha. unfold serve in *.
  destruct (selected_proxy env proxy_from selected request) as [proxy|] eqn:Es; [by apply selected_proxy_found|].
  destruct (request_target request) as [target|]; [|done]. eapply connect_allowed_public; [done..|by apply Hreads|done|done].
Qed.
End decisions.
