(* ===== verification/NetworkSpecProps.v ===== *)
(** What the specification of a network proxy promises: requirements, the rules of
    the command policy and the policy of an environment, followed into the
    decisions of the running proxy. *)

From stdpp Require Import gmap.
From S2P Require Import Prelude PathUris FsPolicy ExecPolicy ExecPolicyProps ExecApproval IpAddr NetworkPolicy AbsolutePath MitmHook NetworkConfig NetworkState NetworkStateProps NetworkRuntime NetworkRuntimeProps NetworkSpec HostNormalProps NetworkDecisionProps.
#[local] Opaque str.

(** ** Entries by the normal form of their host *)

(** All entries for the host [n], and there is one, have the permission [p]. *)
Definition decided (p : NetworkDomainPermission) (n : rstr) (c : NetworkProxyConfig) : Prop :=
  (∃ q, mkEntry q p ∈ entries_of c ∧ normalize_host q = n)
  ∧ ∀ e, e ∈ entries_of c → normalize_host (pattern e) = n → permission e = p.

Section upserts.
Implicit Types (c : NetworkProxyConfig) (p : NetworkDomainPermission) (n host : rstr).
Notation upsert host p c := (upsert_domain_permission host p normalize_host c).

Lemma upsert_decides host p c : decided p (normalize_host host) (upsert host p c).
Proof.
  split.
  - exists host. split; [|done]. apply elem_of_upsert_permission. by right.
  - intros e [[_ ?]| ->]%elem_of_upsert_permission ?; done.
Qed.
Lemma upsert_other host p c e :
  normalize_host (pattern e) ≠ normalize_host host → e ∈ entries_of (upsert host p c) ↔ e ∈ entries_of c.
Proof. intros Hn. rewrite elem_of_upsert_permission. split; [intros [[]| ->]; done|by left]. Qed.
Lemma upsert_keeps_decided host p n c : decided p n c → decided p n (upsert host p c).
Proof.
  intros Hd. destruct (decide (n = normalize_host host)) as [->|Hn]; [apply upsert_decides|].
  destruct Hd as [(q & Hq & <-) Ha]. split.
  - exists q. split; [|done]. by apply upsert_other.
  - intros e He En. apply Ha; [|done]. apply upsert_other in He; [done|congruence].
Qed.

(** A sequence of entries with one permission *)
Lemma upserts_decide p hosts c n :
  decided p n c ∨ (∃ host, host ∈ hosts ∧ normalize_host host = n) →
  decided p n (foldl (λ c host, upsert host p c) c hosts).
Proof.
  revert c. induction hosts as [|h hosts IH]; intros c; simpl; [set_solver|].
  intros [Hd|(host & [->|Hin]%elem_of_cons & E)]; apply IH.
  - left. by apply upsert_keeps_decided.
  - left. rewrite <-E. apply upsert_decides.
  - right. eauto.
Qed.
Lemma upsert_hosts_decides p incoming hosts c n :
  (∀ host, host ∈ incoming → decided p (normalize_host host) c) →
  decided p n c ∨ (∃ host, host ∈ hosts ∧ normalize_host host = n) →
  decided p n (upsert_hosts p incoming hosts c).
Proof.
  revert incoming c. induction hosts as [|h hosts IH]; intros incoming c Hi; simpl; [set_solver|].
  intros Hd. case_bool_decide as E.
  - apply IH; [done|]. destruct Hd as [Hd|(host & [->|Hin]%elem_of_cons & <-)]; [by left|left; auto|eauto].
  - apply IH.
    + intros host [->|Hin]%elem_of_cons; [apply upsert_decides|apply upsert_keeps_decided; auto].
    + destruct Hd as [Hd|(host & [->|Hin]%elem_of_cons & <-)];
        [left; by apply upsert_keeps_decided|left; apply upsert_decides|eauto].
Qed.
Lemma upsert_hosts_other p incoming hosts c e :
  (∀ host, host ∈ hosts → normalize_host (pattern e) ≠ normalize_host host) →
  e ∈ entries_of (upsert_hosts p incoming hosts c) ↔ e ∈ entries_of c.
Proof.
  revert incoming c. induction hosts as [|h hosts IH]; intros incoming c Hn; simpl; [done|].
  case_bool_decide; rewrite IH by (intros host Hh; apply Hn; set_solver); [done|].
  apply upsert_other, Hn. set_solver.
Qed.

Lemma upsert_network_decides c hosts (allow : bool) n :
  decided (if allow then PermAllow else PermDeny) n c ∨ (∃ host, host ∈ hosts ∧ normalize_host host = n) →
  decided (if allow then PermAllow else PermDeny) n (upsert_network_domains c hosts allow).
Proof. apply upsert_hosts_decides. set_solver. Qed.
Lemma upsert_network_other_decided c hosts allow p n :
  (∀ host, host ∈ hosts → n ≠ normalize_host host) →
  decided p n c → decided p n (upsert_network_domains c hosts allow).
Proof.
  intros Hn [(q & Hq & <-) Ha]. split.
  - exists q. split; [|done]. by apply upsert_hosts_other.
  - intros e He En. apply Ha; [|done]. apply upsert_hosts_other in He; [done|]. intros h Hh. rewrite En. auto.
Qed.

Lemma decided_denied n c : decided PermDeny n c → ∃ q, q ∈ denied_of c ∧ normalize_host q = n.
Proof. intros [(q & Hq & <-) _]. exists q. split; [|done]. by apply elem_of_denied. Qed.
Lemma decided_allowed n c : decided PermAllow n c → ∃ q, q ∈ allowed_of c ∧ normalize_host q = n.
Proof.
  intros [(q & Hq & <-) Ha]. exists q. split; [|done]. apply elem_of_allowed. split; [done|].
  intros Hd. by apply Ha in Hd.
Qed.
End upserts.

(** ** The policy of an environment *)

Lemma permits_all_true allow_all m :
  permits_all allow_all m = true ↔ allow_all = true ∧ ∀ path, m !! path ≠ Some SocketDeny.
Proof.
  unfold permits_all. rewrite andb_true_iff, negb_true_iff, <-not_true_iff_false, existsb_exists.
  setoid_rewrite <-list_elem_of_In. setoid_rewrite bool_decide_eq_true. split; intros [Ha Hn]; (split; [done|]).
  - intros path Hp. apply Hn. exists (path, SocketDeny). by rewrite elem_of_map_to_list.
  - intros ([path q] & Hin%elem_of_map_to_list & E). simpl in E. subst. by apply (Hn path).
Qed.

Lemma elem_of_allow_unix_sockets c path :
  path ∈ allow_unix_sockets c ↔ default ∅ (unix_sockets c) !! path = Some SocketAllow.
Proof.
  unfold allow_unix_sockets. destruct (unix_sockets c) as [m|]; simpl; [|by rewrite elem_of_nil, lookup_empty].
  rewrite elem_of_sort_by_key, list_elem_of_fmap. setoid_rewrite elem_of_map_to_list'.
  setoid_rewrite map_lookup_filter_Some. split.
  - intros ([k q] & -> & [Hl Hq]). simpl in *. by subst.
  - intros Hl. by exists (path, SocketAllow).
Qed.

(** A socket that one side lists, or that it allows with all others *)
Definition grants (all : bool) (m : gmap rstr NetworkUnixSocketPermission) (path : rstr) : Prop :=
  m !! path = Some SocketAllow ∨ (all = true ∧ m !! path = None).

Lemma effective_sockets_allow iall oall i o path :
  (iall = true → i !! path ≠ Some SocketDeny) → (oall = true → o !! path ≠ Some SocketDeny) →
  effective_sockets iall oall i o !! path = Some SocketAllow
  ↔ grants iall i path ∧ grants oall o path ∧ (i !! path = Some SocketAllow ∨ o !! path = Some SocketAllow).
Proof.
  intros Hi Ho. unfold effective_sockets, grants.
  rewrite lookup_union_Some_raw, !map_lookup_filter_Some, map_lookup_filter_None.
  destruct (i !! path) as [[]|] eqn:Ei, (o !! path) as [[]|] eqn:Eo, iall, oall;
    first [by destruct (Hi eq_refl) | by destruct (Ho eq_refl) | clear Hi Ho; naive_solver].
Qed.

Lemma apply_to_denials p c d : d ∈ denied_of c → decided PermDeny (normalize_host d) (apply_to p c).
Proof.
  intros Hd. change (decided PermDeny (normalize_host d)
    (foldl (λ c domain, upsert_domain_permission domain PermDeny normalize_host c)
       (with_domains (e_domains p) c) (denied_of c))).
  apply upserts_decide. eauto.
Qed.

(** Entries change nothing but the domains. *)
Lemma upserts_settings p hosts c :
  ∃ d, foldl (λ c host, upsert_domain_permission host p normalize_host c) c hosts = with_domains d c.
Proof.
  revert c. induction hosts as [|h hosts IH]; intros c; simpl; [exists (domains c); by destruct c|].
  destruct (IH (upsert_domain_permission h p normalize_host c)) as [d ->]. by exists d.
Qed.
Lemma upsert_hosts_settings p incoming hosts c : ∃ d, upsert_hosts p incoming hosts c = with_domains d c.
Proof.
  revert incoming c. induction hosts as [|h hosts IH]; intros incoming c; simpl; [exists (domains c); by destruct c|].
  case_bool_decide; [apply IH|].
  destruct (IH (h :: incoming) (upsert_domain_permission h p normalize_host c)) as [d ->]. by exists d.
Qed.

Lemma apply_to_settings p c :
  let c' := apply_to p c in
  let inherited := default ∅ (unix_sockets c) in
  let owner := default ∅ (e_unix_sockets p) in
  let inherited_all := permits_all (dangerously_allow_all_unix_sockets c) inherited in
  let owner_all := permits_all (e_dangerously_allow_all_unix_sockets p) owner in
  default ∅ (unix_sockets c') = effective_sockets inherited_all owner_all inherited owner
  ∧ dangerously_allow_all_unix_sockets c' = inherited_all && owner_all
  ∧ allow_upstream_proxy c' = allow_upstream_proxy c && e_allow_upstream_proxy p
  ∧ allow_local_binding c' = allow_local_binding c && e_allow_local_binding p
  ∧ enabled c' = enabled c ∧ proxy_url c' = proxy_url c ∧ mode c' = mode c ∧ mitm c' = mitm c
  ∧ mitm_hooks c' = mitm_hooks c ∧ credential_broker c' = credential_broker c.
Proof.
  unfold apply_to.
  destruct (upserts_settings PermDeny (default [] (denied_domains c)) (with_domains (e_domains p) c)) as [d ->].
  split_and!; try done. simpl. by case_decide as E.
Qed.

(** The owner of an environment can only restrict: a socket is listed afterwards
    exactly when both sides grant it and one of them lists it, all sockets are
    allowed only when both sides allow all and deny none, upstream proxies and
    local binding need both sides, every domain that was denied stays denied in
    all its spellings, and the proxy itself is set up as before. *)
Theorem environment_restricts p c :
  let c' := apply_to p c in
  let inherited := default ∅ (unix_sockets c) in
  let owner := default ∅ (e_unix_sockets p) in
  let inherited_all := permits_all (dangerously_allow_all_unix_sockets c) inherited in
  let owner_all := permits_all (e_dangerously_allow_all_unix_sockets p) owner in
  (∀ path, path ∈ allow_unix_sockets c'
     ↔ grants inherited_all inherited path ∧ grants owner_all owner path
       ∧ (inherited !! path = Some SocketAllow ∨ owner !! path = Some SocketAllow))
  ∧ (dangerously_allow_all_unix_sockets c' = true ↔ inherited_all = true ∧ owner_all = true)
  ∧ (allow_upstream_proxy c' = true ↔ allow_upstream_proxy c = true ∧ e_allow_upstream_proxy p = true)
  ∧ (allow_local_binding c' = true ↔ allow_local_binding c = true ∧ e_allow_local_binding p = true)
  ∧ (∀ d, d ∈ denied_of c → decided PermDeny (normalize_host d) c')
  ∧ enabled c' = enabled c ∧ proxy_url c' = proxy_url c ∧ mode c' = mode c ∧ mitm c' = mitm c
  ∧ mitm_hooks c' = mitm_hooks c ∧ credential_broker c' = credential_broker c.
Proof.
  intros c' inherited owner inherited_all owner_all.
  destruct (apply_to_settings p c) as (Hs & Hall & Hup & Hlocal & Hrest). fold c' in Hs, Hall, Hup, Hlocal, Hrest.
  split_and!; [|by rewrite Hall, andb_true_iff|by rewrite Hup, andb_true_iff|by rewrite Hlocal, andb_true_iff
              |apply apply_to_denials|apply Hrest..].
  intros path. rewrite elem_of_allow_unix_sockets, Hs.
  apply effective_sockets_allow; [intros [_ Hn]%permits_all_true|intros [_ Hn]%permits_all_true]; apply Hn.
Qed.

(** ** Specifications that come from the requirements *)

Section derived.
Context `{HostTools, HookTools, PathEnv, SecretEnv, FileUrls}.

Inductive derived (reqs : option NetworkConstraints) : NetworkProxySpec → Prop :=
| derived_config c profile s : from_config_and_constraints c reqs profile = Ok s → derived reqs s
| derived_recomputed s profile s' :
    derived reqs s → recompute_for_permission_profile s profile = Ok s' → derived reqs s'
| derived_rules s exec_policy s' :
    derived reqs s → with_exec_policy_network_rules s exec_policy = Ok s' → derived reqs s'
| derived_environment s env profile exec_policy s' :
    derived reqs s → for_environment (Some s) env profile exec_policy = Ok s' → derived reqs s'.

(** The states that a session under these requirements gives its proxy *)
Definition session_state (reqs : option NetworkConstraints) (st : ConfigState) : Prop :=
  ∃ s, derived reqs s ∧ build_config_state_for_spec s = Ok st.

Lemma from_config_inv c reqs profile s :
  from_config_and_constraints c reqs profile = Ok s →
  requirements s = reqs ∧ within (spec_config s) (spec_constraints s)
  ∧ (∀ r, reqs = Some r →
       hard_deny_allowlist_misses s = managed_allowed_domains_only r
       ∧ c_denied_domains (spec_constraints s) = managed_denied r
       ∧ c_allowed_domains (spec_constraints s) = managed_allowed r (managed_allowed_domains_only r)
       ∧ (managed_allowed_domains_only r = true → c_allowlist_expansion_enabled (spec_constraints s) = Some false)).
Proof.
  unfold from_config_and_constraints. destruct reqs as [r|]; simpl; rewrite then_Ok, map_err_Ok, validate_within;
    intros [Hw [= <-]]; simpl; split_and!; try done. intros r' [= <-]. split_and!; try done.
  intros Hr. unfold managed_allowed, allowlist_expansion_enabled. rewrite Hr. simpl. by rewrite andb_false_r.
Qed.

(** What an environment's specification keeps of the one it starts from *)
Record environment_of (base s : NetworkProxySpec) (env : EnvironmentNetworkPolicy) (exec_policy : Policy) : Prop := {
  env_requirements : requirements s = requirements base;
  env_within : within (spec_config s) (spec_constraints s);
  env_constrained : c_denied_domains (spec_constraints s) = denied_domains (spec_config s);
  env_denials : ∀ n, decided PermDeny n (apply_to env (spec_config base)) → decided PermDeny n (spec_config s);
  env_rules : ∀ host, host ∈ (compiled_network_domains exec_policy).2 →
    decided PermDeny (normalize_host host) (spec_config s);
  env_hard : hard_deny_allowlist_misses base = true →
    hard_deny_allowlist_misses s = true
    ∧ c_allowed_domains (spec_constraints s) = c_allowed_domains (spec_constraints base)
    ∧ c_allowlist_expansion_enabled (spec_constraints s) = None;
}.
Lemma for_environment_inv controller env profile exec_policy s :
  for_environment controller env profile exec_policy = Ok s →
  ∃ base, match controller with
          | Some s => recompute_for_permission_profile s profile
          | None => from_config_and_constraints owner_ceiling None profile
          end = Ok base ∧ environment_of base s env exec_policy.
Proof.
  unfold for_environment. destruct (match profile with ProfileDisabled => true | _ => false end); [done|].
  destruct (match controller with Some s => negb (enabled (spec_config s)) | None => false end); [done|].
  rewrite result_bind_Ok. intros (base & Hb & Hs). exists base. split; [done|].
  destruct (compiled_network_domains exec_policy) as [al de] eqn:Ec.
  rewrite then_Ok, map_err_Ok, validate_within in Hs. destruct Hs as [Hw [= <-]].
  constructor; simpl; try done.
  - intros n (q & Hq & <-)%decided_denied. apply (upsert_network_decides _ _ false). right. by exists q.
  - rewrite Ec. intros host Hh. apply (upsert_network_decides _ _ false). left.
    apply (upsert_network_decides _ _ false). right. by exists host.
  - intros ->. done.
Qed.

Lemma with_rules_inv s exec_policy s' :
  with_exec_policy_network_rules s exec_policy = Ok s' →
  spec_config s' = apply_exec_policy_network_rules (spec_config s) exec_policy
  ∧ spec_constraints s' = spec_constraints s ∧ requirements s' = requirements s
  ∧ hard_deny_allowlist_misses s' = hard_deny_allowlist_misses s ∧ within (spec_config s') (spec_constraints s').
Proof.
  unfold with_exec_policy_network_rules. rewrite then_Ok, map_err_Ok, validate_within. by intros [Hw [= <-]].
Qed.

Lemma derived_valid reqs s :
  derived reqs s → requirements s = reqs ∧ within (spec_config s) (spec_constraints s).
Proof.
  induction 1 as [c profile s Hs%from_config_inv|s profile s' _ [Hr _] Hs%from_config_inv
                 |s pol s' _ [Hr _] Hs%with_rules_inv|s env profile pol s' _ [Hr _] Hs].
  - by destruct Hs as (? & ? & _).
  - destruct Hs as (? & ? & _). split; [congruence|done].
  - destruct Hs as (_ & _ & ? & _ & ?). split; [congruence|done].
  - apply for_environment_inv in Hs as (base & (Hb & _)%from_config_inv & He). split; [|apply He].
    rewrite (env_requirements _ _ _ _ He). congruence.
Qed.

(** The specification that an environment starts from is made from the same
    requirements. *)
Lemma derived_ind_base reqs (P : NetworkProxySpec → Prop) :
  (∀ c profile s, from_config_and_constraints c reqs profile = Ok s → P s) →
  (∀ s exec_policy s', P s → with_exec_policy_network_rules s exec_policy = Ok s' → P s') →
  (∀ base s env exec_policy, P base → environment_of base s env exec_policy →
     within (spec_config base) (spec_constraints base) → P s) →
  ∀ s, derived reqs s → P s.
Proof.
  intros Hc Hr He s Hd. induction Hd as [c profile s Hs|s profile s' Hd _ Hs|s pol s' _ IH Hs|s env profile pol s' Hd _ Hs].
  - eauto.
  - unfold recompute_for_permission_profile in Hs. rewrite (proj1 (derived_valid _ _ Hd)) in Hs. eauto.
  - eauto.
  - apply for_environment_inv in Hs as (base & Hb & Henv). unfold recompute_for_permission_profile in Hb.
    rewrite (proj1 (derived_valid _ _ Hd)) in Hb. eapply He; [by eapply Hc|done|]. by apply from_config_inv in Hb as (_ & ? & _).
Qed.

Lemma session_trusted reqs st : session_state reqs st → trusted st.
Proof.
  intros (s & [_ Hw]%derived_valid & Hb). unfold build_config_state_for_spec in Hb. rewrite map_err_Ok in Hb.
  exists (spec_config s), (spec_constraints s). by rewrite validate_within.
Qed.
(** The constraints of a running proxy are those of a specification. *)
Lemma session_constraints reqs st w :
  session_state reqs st → reachable_from (session_state reqs) st w →
  ∃ s, derived reqs s ∧ constraints (shared w) = spec_constraints s.
Proof.
  intros Hst Hr. destruct (reachable_sourced _ _ _ Hst Hr) as [(st' & (s & Hd & Hb) & E) _].
  exists s. split; [done|]. unfold build_config_state_for_spec in Hb.
  apply map_err_Ok, build_constraints in Hb. congruence.
Qed.
Lemma session_compiled reqs st w :
  session_state reqs st → reachable_from (session_state reqs) st w → reachable st w ∧ compiled (shared w).
Proof.
  intros Hst Hr. assert (reachable st w) as Hw by (by eapply reachable_from_trusted; [apply session_trusted|]).
  split; [done|]. by apply (reachable_good st w (session_trusted _ _ Hst) Hw).
Qed.

(** ** Required denials *)

Lemma elem_of_keys_with {A} `{EqDecision A} (p : A) m x : x ∈ keys_with p m ↔ m !! x = Some p.
Proof.
  unfold keys_with. rewrite elem_of_sort_by_key, list_elem_of_fmap. setoid_rewrite elem_of_map_to_list'.
  setoid_rewrite map_lookup_filter_Some. split.
  - intros ([k q] & -> & [Hl Hq]). simpl in *. by subst.
  - intros Hl. by exists (x, p).
Qed.
Lemma some_unless_empty_elem l (x : rstr) : x ∈ l → some_unless_empty l = Some l.
Proof. unfold some_unless_empty. destruct l; [by intros ?%elem_of_nil|done]. Qed.
Lemma managed_denied_elem r doms p :
  r_domains r = Some doms → doms !! p = Some TomlDeny → ∃ l, managed_denied r = Some l ∧ p ∈ l.
Proof.
  intros Er Hp%elem_of_keys_with. unfold managed_denied, toml_denied_domains. rewrite Er. simpl.
  rewrite (some_unless_empty_elem _ p) by done. eauto.
Qed.

Lemma denied_domains_some c q : q ∈ denied_of c → denied_domains c = Some (denied_of c).
Proof. unfold denied_of. destruct (denied_domains c); [done|]. by intros ?%elem_of_nil. Qed.
Lemma derived_denials r doms p s :
  r_domains r = Some doms → doms !! p = Some TomlDeny → derived (Some r) s →
  ∃ managed q, c_denied_domains (spec_constraints s) = Some managed ∧ q ∈ managed
               ∧ normalize_host q = normalize_host p.
Proof.
  intros Er Hp. destruct (managed_denied_elem r doms p Er Hp) as (l & El & Hl). revert s.
  apply derived_ind_base.
  - intros c profile s (_ & _ & Hr)%from_config_inv. destruct (Hr r eq_refl) as (_ & -> & _). by exists l, p.
  - intros s pol s' (m & q & Hm & ?) (_ & -> & _)%with_rules_inv. by exists m, q.
  - intros base s env pol (m & q & Hm & Hq & E) He Hw.
    destruct (within_denied _ _ Hw m Hm) as [_ Hd].
    assert (listed (denied_of (spec_config base)) q) as (x & Hx & Ex).
    { destruct (c_denylist_expansion_enabled _) as [[]|]; simpl in Hd; [auto| |auto]. apply Hd. by exists q. }
    apply (apply_to_denials env), (env_denials _ _ _ _ He) in Hx as (q' & Hq' & E')%decided_denied.
    exists (denied_of (spec_config s)), q'. split_and!; [|done|].
    + rewrite (env_constrained _ _ _ _ He). by eapply denied_domains_some.
    + rewrite E', <-normalize_host_lower, Ex, normalize_host_lower. done.
Qed.

Lemma same_host_matches p q host :
  normalize_host q = normalize_host p → regular (normalize_host p) = true →
  pattern_matches p host → pattern_matches q host.
Proof.
  intros E Hp. unfold pattern_matches, candidates. by rewrite (same_host_same_pattern q p).
Qed.

(** C8: a required denial cannot be evaded: whatever user configuration, command
    rules and environment policies a session combines with the requirements, and
    whatever happens to the proxy while it runs, a host that a pattern denied by
    the requirements matches is denied, and no decider is asked. The pattern is a
    host (a name or an address in any notation, with stars inside if at all) or a
    wildcard below a name. *)
Theorem required_denials_enforced r doms p st w text host lookup decider :
  r_domains r = Some doms → doms !! p = Some TomlDeny → regular (normalize_host p) = true →
  session_state (Some r) st → reachable_from (session_state (Some r)) st w →
  host_parse text = Some host → pattern_matches p host →
  evaluate_host_policy (shared w) lookup decider text = (deny_with_source (str "denied") BaselinePolicy, false).
Proof.
  intros Er Hp Hplain Hst Hr Hh Hm. destruct (session_compiled _ _ _ Hst Hr) as [_ Hc].
  destruct (session_constraints _ _ _ Hst Hr) as (s & Hd & Ek).
  destruct (derived_denials r doms p s Er Hp Hd) as (managed & q & Hk & Hq & E).
  rewrite <-Ek in Hk. eapply managed_denial_blocks; [done..|]. by apply (same_host_matches p).
Qed.

(** ** The managed allowlist *)

Lemma derived_hard r s :
  managed_allowed_domains_only r = true → derived (Some r) s →
  hard_deny_allowlist_misses s = true
  ∧ c_allowed_domains (spec_constraints s) = managed_allowed r true
  ∧ c_allowlist_expansion_enabled (spec_constraints s) ≠ Some true.
Proof.
  intros Hr. revert s. apply derived_ind_base.
  - intros c profile s (_ & _ & Hs)%from_config_inv. destruct (Hs r eq_refl) as (-> & _ & -> & He).
    rewrite Hr in *. split_and!; [done..|]. by rewrite He.
  - intros s pol s' Hs (_ & -> & _ & -> & _)%with_rules_inv. done.
  - intros base s env pol (Hb & Ha & _) He _. destruct (env_hard _ _ _ _ He Hb) as (? & E1 & E2).
    split_and!; [done|congruence|congruence].
Qed.
Lemma managed_allowed_elem r m :
  m ∈ default [] (managed_allowed r true) ↔ ∃ doms, r_domains r = Some doms ∧ doms !! m = Some TomlAllow.
Proof.
  unfold managed_allowed, toml_allowed_domains, some_unless_empty. simpl.
  destruct (r_domains r) as [doms|]; simpl; [|set_solver].
  assert (default [] (if is_empty (keys_with TomlAllow doms) then None else Some (keys_with TomlAllow doms))
          = keys_with TomlAllow doms) as -> by (by destruct (keys_with TomlAllow doms)).
  rewrite elem_of_keys_with. naive_solver.
Qed.

(** An allowed entry is a required one, or one that a required one includes. *)
Definition covered_by_required (r : NetworkConstraints) (x : rstr) : Prop :=
  ∃ doms m, r_domains r = Some doms ∧ doms !! m = Some TomlAllow
            ∧ (to_ascii_lowercase m = to_ascii_lowercase x
               ∨ allows (parse_for_constraints m) (parse_for_constraints x) = true).

(** The managed allowlist is a ceiling: when the requirements say that only
    their own allowed domains count, then whatever a session combines with them
    and whatever happens while the proxy runs, every allowed request is for a
    host on the allowlist, by an entry that is required or included in a
    required one, and no decider is ever asked to widen it. *)
Theorem managed_allowlist_is_ceiling r s profile flow decider st w lookup text host override :
  managed_allowed_domains_only r = true →
  session_state (Some r) st → reachable_from (session_state (Some r)) st w → derived (Some r) s →
  host_parse text = Some host →
  evaluate_host_policy (shared w) lookup (start_decider s profile decider flow) text = (DecideAllow, override) →
  override = false
  ∧ ∃ x, x ∈ allowed_of (config (shared w)) ∧ pattern_matches x host ∧ covered_by_required r x.
Proof.
  intros Hr Hst Hw Hs Hh He. destruct (session_compiled _ _ _ Hst Hw) as [_ Hc].
  destruct (derived_hard r s Hr Hs) as (Hhard & _). unfold start_decider in He. rewrite Hhard, andb_false_r in He.
  unfold evaluate_host_policy in He.
  destruct (host_blocked (shared w) lookup text) as [|[]] eqn:Eb; [|done..]. injection He as <-. split; [done|].
  destruct (host_blocked_screened _ _ _ _ _ Hc Hh Eb (or_introl eq_refl)) as [_ Hal].
  destruct (Hal eq_refl) as (x & Hx & Hm). exists x. split_and!; [done..|].
  destruct (session_constraints _ _ _ Hst Hw) as (s' & Hd & Ek).
  destruct (derived_hard r s' Hr Hd) as (_ & Ha & Hexp).
  destruct (within_allowed _ _ (compiled_within _ Hc) (default [] (managed_allowed r true))) as [_ Hal'];
    [by rewrite Ek, Ha|].
  rewrite Ek in Hal'. unfold covered_by_required.
  destruct (c_allowlist_expansion_enabled (spec_constraints s')) as [[]|]; [done| |]; simpl in Hal'.
  - destruct (proj1 (Hal' x) (ex_intro _ x (conj Hx eq_refl))) as [(m & Hin & E) _].
    apply managed_allowed_elem in Hin as (doms & ? & ?). exists doms, m. auto.
  - destruct (Hal' x Hx) as (m & Hin & E). apply managed_allowed_elem in Hin as (doms & ? & ?). exists doms, m. auto.
Qed.

(** ** Rules of the command policy *)

Lemma effective_denied c k x : x ∈ denied_of (effective_config c k) ↔ x ∈ denied_of c.
Proof.
  unfold effective_config. set (c' := disable_broker c k).
  assert (∀ y, y ∈ denied_of c' ↔ y ∈ denied_of c) as Hd.
  { intros y. apply same_lists. unfold c', disable_broker. by case_bool_decide. }
  rewrite <-Hd. set (c2 := if credential_broker c' && negb (enabled c') then with_enabled true c' else c').
  assert (∀ y, y ∈ denied_of c2 ↔ y ∈ denied_of c') as Hd2.
  { intros y. apply same_lists. unfold c2. by case_match. }
  rewrite <-Hd2. case_match; [|done]. apply (set_lists_read_back [str "*"] c2).
Qed.

Lemma rules_forbid c pol host :
  last_word host (network_rules pol) = Some Forbidden →
  decided PermDeny (normalize_host host) (apply_exec_policy_network_rules c pol).
Proof.
  intros Hl. unfold apply_exec_policy_network_rules.
  pose proof (compiled_domains_last_rule_wins pol) as Hc. destruct (compiled_network_domains pol) as [al de].
  destruct Hc as (_ & _ & Hc). apply (upsert_network_decides _ _ false). right. exists host. split; [|done]. by apply Hc.
Qed.
Lemma rules_allow c pol host :
  last_word host (network_rules pol) = Some Allow →
  (∀ other, last_word other (network_rules pol) = Some Forbidden → normalize_host other ≠ normalize_host host) →
  decided PermAllow (normalize_host host) (apply_exec_policy_network_rules c pol).
Proof.
  intros Hl Ho. unfold apply_exec_policy_network_rules.
  pose proof (compiled_domains_last_rule_wins pol) as Hc. destruct (compiled_network_domains pol) as [al de].
  destruct Hc as (_ & _ & Hc). apply upsert_network_other_decided.
  - intros other Hin%Hc E. by apply (Ho other).
  - apply (upsert_network_decides _ _ true). right. exists host. split; [|done]. by apply Hc.
Qed.

(** Network rules of the command policy take effect: the proxy denies what the
    last rule about a host forbids, in all its spellings, and asks no decider; a
    host that the last rule about it allows, and that no rule forbids under
    another spelling, is on the allowlist and not denied; and the entries for
    hosts without such a rule stay as they were. *)
Theorem network_rules_take_effect s pol s' st :
  with_exec_policy_network_rules s pol = Ok s' → build_config_state_for_spec s' = Ok st →
  (∀ host text h lookup decider,
     last_word host (network_rules pol) = Some Forbidden → regular (normalize_host host) = true →
     host_parse text = Some h → pattern_matches host h →
     evaluate_host_policy st lookup decider text = (deny_with_source (str "denied") BaselinePolicy, false))
  ∧ (∀ host, last_word host (network_rules pol) = Some Allow →
     (∀ other, last_word other (network_rules pol) = Some Forbidden → normalize_host other ≠ normalize_host host) →
     decided PermAllow (normalize_host host) (spec_config s'))
  ∧ (∀ e, (∀ host d, last_word host (network_rules pol) = Some d → normalize_host (pattern e) ≠ normalize_host host) →
     e ∈ entries_of (spec_config s') ↔ e ∈ entries_of (spec_config s)).
Proof.
  intros (Ec & _ & _ & _ & Hw)%with_rules_inv Hb. unfold build_config_state_for_spec in Hb. rewrite map_err_Ok in Hb.
  destruct (build_compiled _ _ _ Hw Hb) as (Hc & Est & _). rewrite Ec in *. split_and!.
  - intros host text h lookup decider Hf Hp Hh Hm.
    destruct (decided_denied _ _ (rules_forbid (spec_config s) pol host Hf)) as (q & Hq & E).
    unfold evaluate_host_policy. rewrite (denied_blocks _ lookup text h q); [done..| |].
    + rewrite Est. by apply effective_denied.
    + by apply (same_host_matches host).
  - intros host. apply rules_allow.
  - intros e He. unfold apply_exec_policy_network_rules, upsert_network_domains.
    pose proof (compiled_domains_last_rule_wins pol) as Hd. destruct (compiled_network_domains pol) as [al de].
    destruct Hd as (_ & _ & Hd).
    by rewrite !upsert_hosts_other by (intros host Hin%Hd; eauto).
Qed.
End derived.
