(* ===== verification/NetworkExamples.v ===== *)
(** A proxy with concrete tools and a managed configuration, and a session with
    requirements, a user configuration, command rules and an environment: the
    theorems on the network proxy at concrete inputs. *)

From stdpp Require Import gmap.
From S2P Require Import Prelude AbsolutePath PathUris PathUriExample FsPolicy ExecPolicy ExecPolicyProps ExecApproval ApprovalExamples IpAddr NetworkPolicy MitmHook NetworkConfig NetworkState NetworkRuntime NetworkSpec NetworkStateProps NetworkRuntimeProps HostNormalProps NetworkDecisionProps NetworkSpecProps.

(** Globs of the form [*], [?*.domain] and literal names *)
#[global] Instance example_hosts : HostTools := {|
  glob_valid _ := true;
  glob_match g h :=
    str_eqb g (str "*")
    || match strip_prefix (str "?*.") g with
       | Some domain => ends_with h (str "." ++ domain) && negb (str_eqb h (str "." ++ domain))
       | None => str_eqb g h
       end;
  url_host s := Some (to_ascii_lowercase s) |}.
#[global] Instance example_hook_tools : HookTools := {|
  header_name s := if is_empty s then None else Some (to_ascii_lowercase s);
  header_value s := Some s;
  header_text v := Some v;
  hook_glob_valid _ _ := true;
  hook_glob_match _ g s := str_eqb g s;
  form_parse _ := [] |}.
#[global] Instance example_paths : PathEnv := {| home_directory := None; current_dir := Some (str "/w") |}.
#[global] Instance example_secrets : SecretEnv := {|
  env_var _ := Some (str "secret"); read_file _ := None; mitm_available _ := true |}.

Definition example_config : NetworkProxyConfig :=
  with_domains (Some [mkEntry (str "*.example.com") PermAllow; mkEntry (str "evil.example.com") PermDeny;
                      mkEntry (str "10.0.0.7") PermAllow]) (with_enabled true config_default).
Definition no_constraints : NetworkProxyConstraints :=
  mkConstraints None None None None None None None None None None None.
Definition example_constraints : NetworkProxyConstraints :=
  mkConstraints None None None None None (Some [str "**.example.com"; str "10.0.0.7"]) None
    (Some [str "EVIL.example.com"]) None None (Some false).
Definition example_state : ConfigState :=
  match build_config_state example_config example_constraints with
  | Ok st => st
  | Err _ => mkState config_default false [] [] None ∅ no_constraints [] 0
  end.

Lemma example_trusted : trusted example_state.
Proof.
  exists example_config, example_constraints. split; vm_compute; reflexivity.
Qed.
Definition example_record : BlockedRequest :=
  mkBlocked (str "a.org") (str "not_allowed") None None None (str "http") None None None (Some 80%N) 0%Z.
Definition example_public (h : rstr) : option (list IpAddr) := Some [V4 (V4Addr 93 184 216 34)].

(** ** The theorems at work *)

(** A mode change and a recorded request, interleaved *)
Definition example_world : World :=
  mkWorld (with_config (with_mode Limited example_config) (record_blocked None example_record example_state)) [].
Lemma example_reachable : reachable example_state example_world.
Proof.
  eapply rtc_l; [by apply (step_begin_mode (mkWorld example_state []) Limited)|].
  eapply rtc_l; [by apply (step_record _ None example_record)|].
  eapply rtc_once.
  exact (step_commit (mkWorld (record_blocked None example_record example_state) [PendingMode Limited example_constraints])
           0 _ (shared example_world) eq_refl eq_refl).
Qed.
Lemma managed_constraints_hold_witness :
  within (config (shared example_world)) example_constraints
  ∧ compile_denylist_globset (denied_of (config (shared example_world))) = Ok [str "evil.example.com"].
Proof.
  destruct (managed_constraints_hold example_state example_world example_trusted example_reachable) as (Hw & Hd & _).
  split; [exact Hw|exact Hd].
Defined.

Definition example_update : Pending :=
  match prepare_update example_state (str "New.example.com") AllowList with
  | Ok (Some p) => p
  | _ => PendingMode Full no_constraints
  end.
Lemma update_loses_blocked_requests_witness :
  ∃ w1 w2, step (mkWorld example_state [example_update]) w1 ∧ step w1 w2
           ∧ blocked (shared w1) = [example_record] ∧ blocked (shared w2) = [].
Proof.
  destruct (update_loses_blocked_requests example_state (str "New.example.com") AllowList example_update None
              example_record example_trusted) as (w1 & w2 & _ & H1 & H2 & Hb1 & _ & Hb2 & _);
    [vm_compute; reflexivity|].
  exists w1, w2. done.
Defined.

Lemma managed_denials_enforced_witness :
  evaluate_host_policy (shared example_world) example_public (Some (λ _, DecideAllow)) (str "Evil.Example.com:443")
  = (deny_with_source (str "denied") BaselinePolicy, false).
Proof.
  apply (managed_denials_enforced example_state example_world [str "EVIL.example.com"] (str "EVIL.example.com")
           (str "Evil.Example.com:443") (str "evil.example.com")).
  - apply example_trusted.
  - apply example_reachable.
  - vm_compute. reflexivity.
  - apply list_elem_of_singleton. reflexivity.
  - vm_compute. reflexivity.
  - exists (str "evil.example.com"), (str "evil.example.com"). split; [|split; [vm_compute; reflexivity|by left]].
    vm_compute. constructor.
Defined.

Lemma allowed_requests_are_screened_witness :
  screened (shared example_world) example_public (str "api.example.com")
  ∧ allowlisted (shared example_world) (str "api.example.com").
Proof.
  apply (allowed_requests_are_screened example_state example_world example_public None (str "api.Example.com.")
           (str "api.example.com") false).
  - apply example_trusted.
  - apply example_reachable.
  - vm_compute. reflexivity.
  - vm_compute. reflexivity.
Defined.

(** An environment with an upstream proxy on the loopback interface *)
Definition upstream_env (key : rstr) : option rstr :=
  if str_eqb key (str "https_proxy") then Some (str "127.0.0.1:3128") else None.
Definition upstream_parse (text : rstr) : option ProxyAddress := Some (mkProxyAddress None text).
Lemma connections_stay_public_witness :
  (∃ entry, entry ∈ allowed_of (config (shared example_world)) ∧ names_explicitly entry (str "10.0.0.7"))
  ∧ from_environment upstream_env upstream_parse (mkProxyAddress None (str "127.0.0.1:3128")).
Proof.
  split.
  - destruct (connections_stay_public example_state example_world (shared example_world) upstream_env upstream_parse
                (ConnectTunnel (TargetAddress (V4 (V4Addr 10 0 0 7)) (str "10.0.0.7"))) example_public
                (V4 (V4Addr 10 0 0 7)) example_trusted example_reachable) as [Hn|[_ He]].
    + intros target [= <-]. vm_compute. reflexivity.
    + vm_compute. reflexivity.
    + vm_compute. reflexivity.
    + vm_compute in Hn. discriminate.
    + exact He.
  - apply (connections_stay_public example_state example_world (shared example_world) upstream_env upstream_parse
             (ConnectTunnel (TargetName (str "a.example.com"))) example_public (V4 (V4Addr 127 0 0 1))
             example_trusted example_reachable); [by intros target [= <-]|vm_compute; reflexivity..].
Defined.

(** ** A session with requirements, command rules and an environment *)

Definition required_domains : gmap rstr NetworkDomainPermissionToml :=
  {[ str "**.example.com" := TomlAllow; str "Evil.example.com" := TomlDeny ]}.
Definition example_requirements : NetworkConstraints :=
  mkRequirements (Some true) (Some 4000%N) None None (Some false) None (Some required_domains) (Some true) None (Some false).
Definition managed_profile : PermissionProfile := Managed ManagedUnrestricted NetRestricted.

Definition user_config : NetworkProxyConfig :=
  with_local_binding true (with_domains (Some [mkEntry (str "other.org") PermAllow; mkEntry (str "bad.org") PermDeny])
    config_default).
Definition example_rules : Policy :=
  mkPolicy ∅ [mkNetwork (str "api.example.com") Https Forbidden None; mkNetwork (str "git.example.com") Https Allow None] ∅.
Definition example_environment : EnvironmentNetworkPolicy :=
  mkEnvironment (Some [mkEntry (str "www.example.com") PermAllow; mkEntry (str "evil.example.com.") PermAllow])
    (Some {[ str "/run/a" := SocketAllow; str "/run/b" := SocketAllow ]}) true true true false.

Definition spec_or_default (r : result SpecError NetworkProxySpec) : NetworkProxySpec :=
  match r with Ok s => s | Err _ => mkSpec config_default None config_default constraints_default false end.
Definition controller : NetworkProxySpec :=
  spec_or_default (from_config_and_constraints user_config (Some example_requirements) managed_profile).
Definition environment : NetworkProxySpec :=
  spec_or_default (for_environment (Some controller) example_environment managed_profile example_rules).
Definition state_or_default (r : result SpecError ConfigState) : ConfigState :=
  match r with Ok st => st | Err _ => mkState config_default false [] [] None ∅ constraints_default [] 0 end.
Definition controller_state : ConfigState := state_or_default (build_config_state_for_spec controller).
Definition environment_state : ConfigState := state_or_default (build_config_state_for_spec environment).

(** The requirements pin the lists and the settings of the user. *)
Example controller_config :
  allowed_domains (spec_config controller) = Some [str "**.example.com"]
  ∧ denied_domains (spec_config controller) = Some [str "Evil.example.com"; str "bad.org"]
  ∧ proxy_url (spec_config controller) = str "http://127.0.0.1:4000"
  ∧ allow_local_binding (spec_config controller) = false.
Proof. vm_compute. done. Qed.
(** The owner's spelling of a denied host does not lift the denial. *)
Example environment_config :
  allowed_domains (spec_config environment) = Some [str "www.example.com"]
  ∧ denied_domains (spec_config environment) = Some [str "api.example.com"; str "Evil.example.com"; str "bad.org"].
Proof. vm_compute. done. Qed.

Lemma controller_derived : derived (Some example_requirements) controller.
Proof. eapply (derived_config _ user_config managed_profile). vm_compute. reflexivity. Qed.
Lemma environment_derived : derived (Some example_requirements) environment.
Proof.
  eapply (derived_environment _ controller example_environment managed_profile example_rules);
    [apply controller_derived|vm_compute; reflexivity].
Qed.
Lemma controller_session : session_state (Some example_requirements) controller_state.
Proof. exists controller. split; [apply controller_derived|vm_compute; reflexivity]. Qed.
Lemma environment_session : session_state (Some example_requirements) environment_state.
Proof. exists environment. split; [apply environment_derived|vm_compute; reflexivity]. Qed.

(** The controller's state is replaced by that of the environment. *)
Definition session_world : World := mkWorld (replace_state controller_state environment_state) [].
Lemma session_reachable :
  reachable_from (session_state (Some example_requirements)) controller_state session_world.
Proof. apply rtc_once, (step_replace (mkWorld controller_state [])), environment_session. Qed.

Lemma required_denials_enforced_witness :
  evaluate_host_policy (shared session_world) example_public (Some (λ _, DecideAllow)) (str "EVIL.example.com:443")
  = (deny_with_source (str "denied") BaselinePolicy, false).
Proof.
  apply (required_denials_enforced example_requirements required_domains (str "Evil.example.com") controller_state
           session_world (str "EVIL.example.com:443") (str "evil.example.com")).
  - reflexivity.
  - vm_compute. reflexivity.
  - vm_compute. reflexivity.
  - apply controller_session.
  - apply session_reachable.
  - vm_compute. reflexivity.
  - exists (str "evil.example.com"), (str "evil.example.com"). split; [|split; [vm_compute; reflexivity|by left]].
    vm_compute. constructor.
Defined.

Lemma managed_allowlist_is_ceiling_witness :
  ∃ x, x ∈ allowed_of (config (shared session_world)) ∧ pattern_matches x (str "www.example.com")
       ∧ covered_by_required example_requirements x.
Proof.
  apply (managed_allowlist_is_ceiling example_requirements environment managed_profile true (Some (λ _, DecideAllow))
           controller_state session_world example_public (str "www.example.com") (str "www.example.com") false).
  - reflexivity.
  - apply controller_session.
  - apply session_reachable.
  - apply environment_derived.
  - vm_compute. reflexivity.
  - vm_compute. reflexivity.
Defined.

(** Without a managed allowlist the rules may add to the lists. *)
Definition open_spec : NetworkProxySpec := spec_or_default (from_config_and_constraints user_config None managed_profile).
Definition ruled_spec : NetworkProxySpec := spec_or_default (with_exec_policy_network_rules open_spec example_rules).
Definition ruled_state : ConfigState := state_or_default (build_config_state_for_spec ruled_spec).
Lemma network_rules_take_effect_witness :
  evaluate_host_policy ruled_state example_public None (str "API.example.com.")
  = (deny_with_source (str "denied") BaselinePolicy, false)
  ∧ decided PermAllow (str "git.example.com") (spec_config ruled_spec).
Proof.
  destruct (network_rules_take_effect open_spec example_rules ruled_spec ruled_state) as (Hf & Ha & _);
    [vm_compute; reflexivity..|]. split.
  - apply (Hf (str "api.example.com") _ (str "api.example.com")); [vm_compute; reflexivity..|].
    exists (str "api.example.com"), (str "api.example.com"). split; [|split; [vm_compute; reflexivity|by left]].
    vm_compute. constructor.
  - apply (Ha (str "git.example.com")); [vm_compute; reflexivity|]. intros other Ho E.
    assert (other = str "api.example.com") as ->; [|vm_compute in E; discriminate].
    unfold last_word, settled in Ho. apply fmap_Some in Ho as (rule & Hl & Hd).
    apply last_Some_elem_of, list_elem_of_filter in Hl as [Hs Hin].
    apply andb_true_iff in Hs as [Hs%bool_decide_eq_true _].
    unfold example_rules in Hin. cbn [network_rules] in Hin.
    rewrite !elem_of_cons, elem_of_nil in Hin. destruct Hin as [->|[->|[]]]; [done|]. discriminate.
Defined.

(** A rule that forbids what the requirements already deny in another spelling
    replaces the required entry, and the specification is refused. *)
Definition dotted_requirements : NetworkConstraints :=
  mkRequirements None None None None None None (Some {[ str "api.example.com." := TomlDeny ]}) None None None.
Example redundant_denial_is_refused :
  with_exec_policy_network_rules
    (spec_or_default (from_config_and_constraints config_default (Some dotted_requirements) managed_profile)) example_rules
  = Err (ConstraintsInvalid (InvalidValue (str "network.denied_domains"))).
Proof. vm_compute. reflexivity. Qed.
