(* ===== verification/MitmHookProps.v ===== *)
(** Hooks on intercepted requests: which requests they act on. *)

From stdpp Require Import gmap.
From S2P Require Import Prelude NetworkPolicy AbsolutePath AuthorizationPath MitmHook NetworkExamples.
#[local] Opaque str.

Section hooks.
Context `{HookTools, PathEnv}.

Lemma try_map_Forall2 {E A B} (f : A → result E B) l k :
  try_map f l = Ok k ↔ Forall2 (λ x y, f x = Ok y) l k.
Proof.
  revert k. induction l as [|x l IH]; intros k; simpl.
  - split; [by intros [= <-]|by intros Hf; inversion Hf].
  - rewrite result_bind_Ok. split.
    + intros (y & Hy & Hk). apply result_bind_Ok in Hk as (ys & Hys & [= <-]). constructor; [done|]. by apply IH.
    + intros Hf. inversion Hf as [|? y ? ys Hy Hys]; subst. exists y. split; [done|].
      apply result_bind_Ok. exists ys. split; [by apply IH|done].
Qed.
Lemma try_all_Forall {E A} (f : A → result E unit) l : try_all f l = Ok () ↔ Forall (λ x, f x = Ok ()) l.
Proof.
  induction l as [|x l IH]; simpl; [split; [by constructor|done]|].
  rewrite result_bind_Ok, Forall_cons, <-IH. split; [intros ([] & ? & ?); done|]. intros [-> ?]. by exists ().
Qed.

(** ** The hooks of a host, in the order of the configuration *)

Lemma push_hooks_lookup hs h :
  foldl push_hook ∅ hs !! h
  = let own := filter (λ x, host x = h) hs in if is_empty own then None else Some own.
Proof.
  induction hs as [|x hs IH] using rev_ind; [done|].
  rewrite foldl_app. simpl. unfold push_hook at 1. unfold MitmHooksByHost in *. rewrite filter_app.
  destruct (decide (host x = h)) as [<-|Hne].
  - rewrite lookup_insert_eq, IH. rewrite filter_cons_True by done. simpl.
    destruct (filter _ hs) as [|y ys]; [done|]. done.
  - rewrite lookup_insert_ne by done. rewrite IH, filter_cons_False by done. by rewrite app_nil_r.
Qed.

(** The reference: the first hook of the host that matches *)
Fixpoint scan_hooks (hs : list MitmHook) (h : rstr) (req : Request) (seen : bool) : HookEvaluation :=
  match hs with
  | [] => if seen then HookedHostNoMatch else NoHooksForHost
  | x :: hs =>
      if decide (host x = h)
      then if hook_matches x req then Matched (actions x) else scan_hooks hs h req true
      else scan_hooks hs h req seen
  end.
Lemma scan_hooks_filter hs h req seen :
  scan_hooks hs h req seen
  = match find (λ x, hook_matches x req) (filter (λ x, host x = h) hs) with
    | Some x => Matched (actions x)
    | None => if seen || negb (is_empty (filter (λ x, host x = h) hs)) then HookedHostNoMatch else NoHooksForHost
    end.
Proof.
  revert seen. induction hs as [|x hs IH]; intros seen; simpl; [by rewrite orb_false_r|].
  rewrite filter_cons. destruct (decide (host x = h)); [|apply IH]. simpl.
  destruct (hook_matches x req); [done|]. rewrite IH. simpl. by rewrite orb_true_r.
Qed.
Lemma evaluate_scan hs h req :
  evaluate_mitm_hooks (foldl push_hook ∅ hs) h req = scan_hooks hs (normalize_host h) req false.
Proof.
  unfold evaluate_mitm_hooks. rewrite push_hooks_lookup, scan_hooks_filter. simpl.
  destruct (filter _ hs) as [|x xs]; [done|]. simpl. by case_match.
Qed.
Lemma scan_matched hs h req seen acts :
  scan_hooks hs h req seen = Matched acts →
  ∃ x, x ∈ hs ∧ host x = h ∧ hook_matches x req = true ∧ acts = actions x.
Proof.
  revert seen. induction hs as [|x hs IH]; intros seen; simpl; [by destruct seen|].
  destruct (decide (host x = h)) as [E|].
  - destruct (hook_matches x req) eqn:Em.
    + intros [= <-]. exists x. split; [apply list_elem_of_here|done].
    + intros (y & ? & ?)%IH. exists y. split; [by apply list_elem_of_further|done].
  - intros (y & ? & ?)%IH. exists y. split; [by apply list_elem_of_further|done].
Qed.

Lemma hook_matches_safe x req : hook_matches x req = true → is_safe_for_authorization (req_path req) = true.
Proof.
  unfold hook_matches. repeat case_match; try done.
  match goal with H : _ || _ = false |- _ => apply orb_false_iff in H as [Hs _] end. by apply negb_false_iff in Hs.
Qed.
Lemma compile_hook_host e f c x : compile_hook e f c = Ok x → host x = normalize_host (hook_host c).
Proof.
  unfold compile_hook. intros Hc. repeat (apply result_bind_Ok in Hc as (? & ? & Hc)). injection Hc as <-. simpl.
  match goal with H : normalize_hook_host _ = Ok _ |- _ => unfold normalize_hook_host in H end.
  by repeat case_match; simplify_eq.
Qed.

(** Hooks act on the first match: the table of compiled hooks evaluates a
    request as a scan of the configured hooks in order does, for the normalized
    host, and a hook matches only with interception on and only requests whose
    path is unambiguous. *)
Theorem hooks_act_on_first_match e f mitm configs compiled :
  compile_mitm_hooks_with_resolvers e f mitm configs = Ok compiled →
  ∃ hooks,
    Forall2 (λ c x, compile_hook e f c = Ok x ∧ host x = normalize_host (hook_host c)) configs hooks
    ∧ ∀ h req,
        evaluate_mitm_hooks compiled h req = scan_hooks hooks (normalize_host h) req false
        ∧ (∀ acts, evaluate_mitm_hooks compiled h req = Matched acts →
           mitm = true ∧ is_safe_for_authorization (req_path req) = true).
Proof.
  unfold compile_mitm_hooks_with_resolvers. intros Hc.
  apply result_bind_Ok in Hc as ([] & Hv & Hc). apply result_bind_Ok in Hc as (hooks & Hh & [= <-]).
  assert (try_map (compile_hook e f) configs = Ok hooks) as Hh' by (by destruct (try_map _ configs); simplify_eq/=).
  assert (Forall2 (λ c x, compile_hook e f c = Ok x) configs hooks) as Hf.
  { by apply try_map_Forall2. }
  exists hooks. split.
  { eapply Forall2_impl; [done|]. intros c x Hx. split; [done|]. apply (compile_hook_host e f c x Hx). }
  intros h req. rewrite evaluate_scan. split; [done|]. intros acts (x & Hx & _ & Hm & _)%scan_matched.
  split; [|by eapply hook_matches_safe].
  unfold validate_mitm_hook_config in Hv. destruct configs; [inversion Hf; subst; by apply elem_of_nil in Hx|].
  simpl in Hv. by destruct mitm.
Qed.
End hooks.

(** A hook for one host, matched and not *)
Definition example_hook : MitmHookConfig :=
  mkHookConfig (str "API.github.com") (mkHookMatchConfig [str "post"] [str "/repos/openai/"] [] [] None)
    (mkHookActionsConfig [str "Authorization"] [mkInjectedConfig (str "Authorization") (Some (str "TOKEN")) None None]).
Definition example_request (path : rstr) : Request := mkRequest (str "POST") path None [].
Definition example_compiled : MitmHooksByHost :=
  match compile_mitm_hooks_with_resolvers (λ _, Some (str "s")) (λ _, None) true [example_hook] with
  | Ok m => m
  | Err _ => ∅
  end.
Lemma hooks_act_on_first_match_witness :
  ∃ hooks,
    evaluate_mitm_hooks example_compiled (str "api.github.com:443") (example_request (str "/repos/openai/x"))
    = scan_hooks hooks (normalize_host (str "api.github.com:443")) (example_request (str "/repos/openai/x")) false.
Proof.
  destruct (hooks_act_on_first_match (λ _, Some (str "s")) (λ _, None) true [example_hook] example_compiled)
    as (hooks & _ & Hh); [vm_compute; reflexivity|].
  exists hooks. apply Hh.
Defined.
Example hook_refuses_ambiguous_path :
  evaluate_mitm_hooks example_compiled (str "api.github.com") (example_request (str "/repos/openai/../x"))
  = HookedHostNoMatch.
Proof. vm_compute. reflexivity. Qed.
