(* ===== verification/HistoryStore.v ===== *)
(** The thread history in SQLite: a durable rollout file (JSON lines) is projected
    into tables of turns and items.  [thread_history_projection.rs] of
    [app-server-protocol], and [thread-store/src/local]:
    [thread_history_materialization.rs] and the writes of [thread_history.rs].

    All rows of a statement belong to one thread, so the database maps a thread
    to its tables.  A transaction either commits or leaves the database as it
    was; the unique indexes of [state/thread_history_migrations] are checked by
    the insertions.  Byte offsets and ordinals are [u64] as [N], and the [i64] of
    SQLite as [Z].  [StoreTools] has the JSON and time functions; failures of the
    file system and of SQLite other than constraint violations are outcomes of
    the caller's arguments or not modelled, and metrics are not modelled. *)

From S2P Require Import Prelude Utf8 AbsolutePath PathUris OutputTruncation History CoreItems ThreadItems ThreadHistory.

#[local] Opaque str.

(** ** Projection of one line *)

Section projection.
Context {FU : FileUrls} {PE : PathEnv} {HT : HistoryTools}.

Definition turn_changes (c : ThreadHistoryTurnChange) : ThreadHistoryChangeSet := mkChangeSet [] [c] [].
Definition project_rollout_line (line : RolloutLine Url) : ThreadHistoryChangeSet :=
  match rl_item line with
  | RolloutEventMsg (EvTurnStarted event) =>
      turn_changes (mkTurnChange (ts_turn_id event) (ts_root_turn_id event) TurnInProgress None
                      (ts_started_at event) None None)
  | RolloutEventMsg (EvTurnComplete event) =>
      turn_changes (mkTurnChange (tc_turn_id event) None
                      (match tc_error event with Some _ => TurnFailed | None => TurnCompleted end)
                      (turn_error_of <$> tc_error event) (tc_started_at event) (tc_completed_at event)
                      (tc_duration_ms event))
  | RolloutEventMsg (EvTurnAborted event) =>
      match ta_turn_id event with
      | None => change_set_default
      | Some turn_id =>
          turn_changes (mkTurnChange turn_id None TurnInterrupted None (ta_started_at event)
                          (ta_completed_at event) (ta_duration_ms event))
      end
  | RolloutEventMsg (EvItemCompleted event) =>
      mkChangeSet [mkItemChange (ice_turn_id event) (thread_item_from (ice_item event)) (ice_started_at_ms event)
                     (if (ice_completed_at_ms event =? 0)%Z then None else Some (ice_completed_at_ms event))] [] []
  | _ => change_set_default
  end.
End projection.

(** ** Tables *)

Record turn_row := mkTurnRow {
  tr_rollout_ordinal : Z;
  tr_rollout_byte_offset : Z;
  tr_rollout_end_ordinal : option Z;
  tr_rollout_end_byte_offset : option Z;
  tr_status : rstr;
  tr_error_json : option Json;
  tr_started_at : option Z;
  tr_completed_at : option Z;
  tr_duration_ms : option Z;
  tr_first_user_item_id : option rstr;
  tr_final_agent_item_id : option rstr;
}.
Record item_row := mkItemRow {
  ir_rollout_ordinal : Z;
  ir_updated_at_ordinal : Z;
  ir_created_at_ms : Z;
  ir_item_type : rstr;
  ir_item_json : Json;
}.
Record realtime_row := mkRealtimeRow {
  rr_rollout_ordinal : Z;
  rr_created_at_ms : Z;
  rr_item_type : rstr;
  rr_item_json : Json;
}.
(** The rows of a thread, and with [th_state] its row of
    [thread_history_projection_state] (next byte offset, next ordinal) *)
Record thread_tables := mkTables {
  st_turns : gmap rstr turn_row;
  st_items : gmap (rstr * rstr) item_row;
  st_realtime : gmap rstr realtime_row;
}.
Definition empty_tables : thread_tables := mkTables ∅ ∅ ∅.
Record thread_history := mkThreadHistory { th_tables : thread_tables; th_state : option (Z * Z) }.
Definition empty_history : thread_history := mkThreadHistory empty_tables None.
Definition database : Type := gmap ThreadId thread_history.
Definition history_of (db : database) (thread_id : ThreadId) : thread_history :=
  default empty_history (db !! thread_id).

(** The messages of [ThreadStoreError::Internal] *)
Inductive ThreadStoreError :=
| IoFailed
| InvalidUtf8Line
| InvalidHistoryMode
| NoSessionMetadata
| RolloutIsEmpty
| RolloutShrank
| ByteOffsetOverflow
| NegativeByteOffset
| NegativeOrdinal
| ExceedsSqliteRange
| BehindDurableRollout
| ExpectedOrdinal (expected got : Z)
| EmptySkippedRange
| MissingItemTimestamp
| MissingRealtimeTimestamp
| SerializationFailed
| ConstraintViolated.

Class StoreTools {FU : FileUrls} := {
  (** [serde_json::from_slice] *)
  json_from_slice : list N → option Json;
  (** [codex_rollout::decode_rollout_line] *)
  decode_rollout_line : Json → option (RolloutLine Url);
  (** [DateTime::parse_from_rfc3339] and [timestamp_millis] *)
  rfc3339_millis : rstr → option Z;
  (** [serde_json::to_string] *)
  item_to_json : ThreadItem → option Json;
  error_to_json : TurnError → option Json;
  realtime_to_json : RealtimeItem → option Json;
  (** [json_extract] of SQLite for the keys [type] and [phase]; [None] is NULL *)
  json_type : Json → option rstr;
  json_phase : Json → option rstr;
  (** [Value::get] and [Value::as_str] *)
  json_get : Json → rstr → option Json;
  json_as_str : Json → option rstr;
}.

Inductive RolloutProjectionStep :=
| ProjectedLine (ordinal start_byte_offset end_byte_offset : N) (fallback_created_at_ms : option Z)
    (changes : ThreadHistoryChangeSet) (realtime_item : option RealtimeItem)
| SkippedOrdinalRange (start_ordinal end_ordinal_exclusive : N).

Definition u64_limit : N := (2 ^ 64)%N.
Definition checked_add_u64 (a b : N) : option N := if (a + b <? u64_limit)%N then Some (a + b)%N else None.
Definition sqlite_integer (value : N) : result ThreadStoreError Z :=
  if (value <? 2 ^ 63)%N then Ok (Z.of_N value) else Err ExceedsSqliteRange.
Definition u64_from (value : Z) (e : ThreadStoreError) : result ThreadStoreError N :=
  if (value <? 0)%Z then Err e else Ok (Z.to_N value).

(** ** Reading the file *)

(** [slice::rposition] of a newline, and [split_inclusive] *)
Fixpoint rposition_newline (bytes : list N) : option nat :=
  match bytes with
  | [] => None
  | c :: bytes =>
      match rposition_newline bytes with
      | Some i => Some (S i)
      | None => if (c =? 10)%N then Some 0 else None
      end
  end.
Fixpoint split_inclusive (bytes : list N) : list (list N) :=
  match bytes with
  | [] => []
  | c :: bytes =>
      if (c =? 10)%N then [c] :: split_inclusive bytes
      else match split_inclusive bytes with
           | [] => [[c]]
           | line :: lines => (c :: line) :: lines
           end
  end.
(** [u8::is_ascii_whitespace] *)
Definition is_ascii_whitespace (c : N) : bool :=
  ((c =? 32) || (c =? 9) || (c =? 10) || (c =? 12) || (c =? 13))%N.

Section store.
Context {FU : FileUrls} {PE : PathEnv} {HT : HistoryTools} {ST : StoreTools}.

(** The variables of the loop; [next_offset] and [line_start_offset] have the same
    value between lines. *)
Record read_state := mkReadState {
  rs_projections : list RolloutProjectionStep;
  rs_next_ordinal : N;
  rs_offset : N;
}.
(** [continue] after a line that is skipped *)
Definition skip_line (st : read_state) (line_end : N) : read_state :=
  mkReadState (rs_projections st) (rs_next_ordinal st) line_end.
Definition is_realtime (item : RolloutItem Url) : option RealtimeItem :=
  match item with RolloutRealtimeItem item => Some item | _ => None end.
(** A decoded line with an ordinal that is not behind *)
Definition project_line (subagent_start : option N) (st : read_state) (line : RolloutLine Url)
    (ordinal line_end : N) : result ThreadStoreError read_state :=
  let is_inherited := match subagent_start with Some start => (ordinal <? start)%N | None => false end in
  let changes := if is_inherited then change_set_default else project_rollout_line line in
  let realtime_item := if is_inherited then None else is_realtime (rl_item line) in
  let needs_timestamp :=
    existsb (λ c, match ic_started_at_ms c with None => true | Some _ => false end) (changed_items changes)
    || match realtime_item with Some _ => true | None => false end in
  match (if needs_timestamp then Some <$> rfc3339_millis (rl_timestamp line) else Some None) with
  | None =>
      end_ordinal_exclusive ← ok_or (checked_add_u64 ordinal 1) ExceedsSqliteRange;
      Ok (mkReadState (rs_projections st ++ [SkippedOrdinalRange (rs_next_ordinal st) end_ordinal_exclusive])
            end_ordinal_exclusive line_end)
  | Some fallback_created_at_ms =>
      let gap := if (rs_next_ordinal st <? ordinal)%N
                 then [SkippedOrdinalRange (rs_next_ordinal st) ordinal] else [] in
      next_line_ordinal ← ok_or (checked_add_u64 ordinal 1) ExceedsSqliteRange;
      Ok (mkReadState (rs_projections st ++ gap
            ++ [ProjectedLine ordinal (rs_offset st) line_end fallback_created_at_ms changes realtime_item])
            next_line_ordinal line_end)
  end.
Definition read_line (subagent_start : option N) (st : read_state) (line_bytes : list N)
    : result ThreadStoreError read_state :=
  line_end ← ok_or (checked_add_u64 (rs_offset st) (N.of_nat (length line_bytes))) ByteOffsetOverflow;
  if forallb is_ascii_whitespace line_bytes then Ok (skip_line st line_end)
  else
    match json_from_slice line_bytes with
    | None => Ok (skip_line st line_end)
    | Some value =>
        match decode_rollout_line value with
        | None => Ok (skip_line st line_end)
        | Some line =>
            match rl_ordinal line with
            | None => Ok (skip_line st line_end)
            | Some ordinal =>
                if (ordinal <? rs_next_ordinal st)%N then Ok (skip_line st line_end)
                else project_line subagent_start st line ordinal line_end
            end
        end
    end.
Fixpoint read_lines (subagent_start : option N) (st : read_state) (lines : list (list N))
    : result ThreadStoreError read_state :=
  match lines with
  | [] => Ok st
  | line :: lines => st ← read_line subagent_start st line; read_lines subagent_start st lines
  end.

(** The file as it is opened: not there, unreadable, or its bytes *)
Inductive rollout_file := FileMissing | FileUnreadable | FileBytes (bytes : list N).
Definition read_projection_steps (file : rollout_file) (start_offset expected_ordinal : N)
    (subagent_start : option N) : result ThreadStoreError (list RolloutProjectionStep * N) :=
  match file with
  | FileMissing => if (start_offset =? 0)%N then Ok ([], 0%N) else Err IoFailed
  | FileUnreadable => Err IoFailed
  | FileBytes contents =>
      if (N.of_nat (length contents) <? start_offset)%N then Err RolloutShrank
      else
        let bytes := drop (N.to_nat start_offset) contents in
        let complete_byte_count := match rposition_newline bytes with Some index => index + 1 | None => 0 end in
        st ← read_lines subagent_start (mkReadState [] expected_ordinal start_offset)
               (split_inclusive (take complete_byte_count bytes));
        Ok (rs_projections st, rs_offset st)
  end.

(** ** The session metadata of a file *)

(** [rollout/src]: [recorder.rs], [lib.rs] and [list.rs].  A [ThreadHistoryMode] is
    deserialized from one of two strings. *)
Definition history_mode_known (mode : Json) : bool :=
  match json_as_str mode with
  | Some text => bool_decide (text = str "legacy") || bool_decide (text = str "paginated")
  | None => false
  end.
Definition reject_unknown_thread_history_mode (value : Json) : result ThreadStoreError () :=
  if negb (bool_decide (json_get value (str "type") ≫= json_as_str = Some (str "session_meta"))) then Ok ()
  else
    match json_get value (str "payload") ≫= λ payload, json_get payload (str "history_mode") with
    | None => Ok ()
    | Some history_mode => if history_mode_known history_mode then Ok () else Err InvalidHistoryMode
    end.
Definition parse_rollout_line (line : rstr) : option (RolloutLine Url) :=
  json_from_slice (utf8 line) ≫= decode_rollout_line.
(** [Lines::next_line] drops the newline and a carriage return before it; the last
    line of a file may have none. *)
Definition chomp (line : rstr) : rstr :=
  match strip_suffix [10%N] line with Some line => strip_cr line | None => line end.
Fixpoint session_meta_of_lines (lines : list (list N)) : result ThreadStoreError SessionMeta :=
  match lines with
  | [] => Err RolloutIsEmpty
  | bytes :: lines =>
      match from_utf8 bytes with
      | Err _ => Err InvalidUtf8Line
      | Ok line =>
          let trimmed := trim (chomp line) in
          if is_empty trimmed then session_meta_of_lines lines
          else
            match parse_rollout_line trimmed with
            | None =>
                match json_from_slice (utf8 trimmed) with
                | Some value => _ ← reject_unknown_thread_history_mode value; session_meta_of_lines lines
                | None => session_meta_of_lines lines
                end
            | Some rollout_line =>
                match rl_item rollout_line with
                | RolloutSessionMeta session_meta_line => Ok session_meta_line
                | RolloutResponseItem _ | RolloutInterAgentCommunication _ => Err NoSessionMetadata
                | RolloutInterAgentCommunicationMetadata _ | RolloutCompacted _ | RolloutTurnContext _
                | RolloutTokenUsageRecord _ | RolloutWorldState _ | RolloutRealtimeItem _
                | RolloutRetainedContext _ | RolloutSecurityRiskScore _ | RolloutEventMsg _ =>
                    session_meta_of_lines lines
                end
            end
      end
  end.
Definition read_session_meta_line (file : rollout_file) : result ThreadStoreError SessionMeta :=
  match file with
  | FileBytes bytes => session_meta_of_lines (split_inclusive bytes)
  | FileMissing | FileUnreadable => Err IoFailed
  end.

(** ** Writing the tables *)

Definition turn_status (status : TurnStatus) : rstr :=
  match status with
  | TurnCompleted => str "completed"
  | TurnInterrupted => str "interrupted"
  | TurnFailed => str "failed"
  | TurnInProgress => str "inProgress"
  end.
Definition set_turns (t : thread_tables) (turns : gmap rstr turn_row) : thread_tables :=
  mkTables turns (st_items t) (st_realtime t).
Definition set_items (t : thread_tables) (items : gmap (rstr * rstr) item_row) : thread_tables :=
  mkTables (st_turns t) items (st_realtime t).
Definition set_realtime (t : thread_tables) (rows : gmap rstr realtime_row) : thread_tables :=
  mkTables (st_turns t) (st_items t) rows.
Definition set_summary (row : turn_row) (first_user final_agent : option rstr) : turn_row :=
  mkTurnRow (tr_rollout_ordinal row) (tr_rollout_byte_offset row) (tr_rollout_end_ordinal row)
    (tr_rollout_end_byte_offset row) (tr_status row) (tr_error_json row) (tr_started_at row)
    (tr_completed_at row) (tr_duration_ms row) first_user final_agent.

(** [idx_thread_turns_page], [idx_thread_items_page], [idx_thread_realtime_items_page]:
    the ordinal of a new row is not in use. *)
Definition ordinal_free {K R} `{Countable K} (ordinal_of : R → Z) (rows : gmap K R) (ordinal : Z) : bool :=
  forallb (λ kr, negb (ordinal_of kr.2 =? ordinal)%Z) (map_to_list rows).
Definition insert_unique {K R} `{Countable K} (ordinal_of : R → Z) (rows : gmap K R) (key : K) (row : R)
    : result ThreadStoreError (gmap K R) :=
  if ordinal_free ordinal_of rows (ordinal_of row) then Ok (<[key := row]> rows) else Err ConstraintViolated.

(** [rollout_end_ordinal IS NULL AND status = 'inProgress'] *)
Definition row_open (row : turn_row) : bool :=
  match tr_rollout_end_ordinal row with None => bool_decide (tr_status row = str "inProgress") | Some _ => false end.
(** The columns of the DO UPDATE *)
Definition overwrite_turn (row excluded : turn_row) : turn_row :=
  mkTurnRow (tr_rollout_ordinal row) (tr_rollout_byte_offset row) (tr_rollout_end_ordinal excluded)
    (tr_rollout_end_byte_offset excluded) (tr_status excluded) (tr_error_json excluded)
    (tr_started_at excluded) (tr_completed_at excluded) (tr_duration_ms excluded)
    (tr_first_user_item_id row) (tr_final_agent_item_id row).
Definition upsert_turn_row (t : thread_tables) (turn_id : rstr) (excluded : turn_row)
    : result ThreadStoreError thread_tables :=
  match st_turns t !! turn_id with
  | Some row => Ok (if row_open row then set_turns t (<[turn_id := overwrite_turn row excluded]> (st_turns t)) else t)
  | None => turns ← insert_unique tr_rollout_ordinal (st_turns t) turn_id excluded; Ok (set_turns t turns)
  end.

(** [item_type = ty OR (item_type = '' AND json_extract(item_json, '$.type') = ty)] *)
Definition has_item_type (ty : rstr) (row : item_row) : bool :=
  bool_decide (ir_item_type row = ty)
  || (bool_decide (ir_item_type row = []) && bool_decide (json_type (ir_item_json row) = Some ty)).
(** [SELECT item_id … ORDER BY rollout_ordinal LIMIT 1], descending when [later] says so *)
Definition pick_item (before : Z → Z → bool) (best : option (rstr * Z)) (item : rstr * Z) : option (rstr * Z) :=
  match best with
  | Some (_, ordinal) => if before (item.2) ordinal then Some item else best
  | None => Some item
  end.
Definition turn_items (items : gmap (rstr * rstr) item_row) (turn_id : rstr) (cond : item_row → bool)
    : list (rstr * Z) :=
  omap (λ '((turn, item), row),
    if bool_decide (turn = turn_id) && cond row then Some (item, ir_rollout_ordinal row) else None)
    (map_to_list items).
Definition select_item (before : Z → Z → bool) (items : gmap (rstr * rstr) item_row) (turn_id : rstr)
    (cond : item_row → bool) : option rstr :=
  fst <$> fold_left (pick_item before) (turn_items items turn_id cond) None.

Definition first_user_item (items : gmap (rstr * rstr) item_row) (turn_id : rstr) : option rstr :=
  select_item Z.ltb items turn_id (has_item_type (str "userMessage")).
Definition last_agent_item (items : gmap (rstr * rstr) item_row) (turn_id : rstr) (phase : option rstr) : option rstr :=
  select_item Z.gtb items turn_id (λ row, has_item_type (str "agentMessage") row
    && bool_decide (json_phase (ir_item_json row) = phase)).
Definition is_terminal_status (status : rstr) : bool :=
  bool_decide (status = str "completed") || bool_decide (status = str "interrupted")
  || bool_decide (status = str "failed").
(** The summary columns when a row of [thread_turns] arrives or moves *)
Definition fill_summary (items : gmap (rstr * rstr) item_row) (turn_id : rstr) (row : turn_row) : turn_row :=
  set_summary row
    (match tr_first_user_item_id row with Some id => Some id | None => first_user_item items turn_id end)
    (match last_agent_item items turn_id (Some (str "final_answer")) with
     | Some id => Some id
     | None =>
         match (if is_terminal_status (tr_status row) then last_agent_item items turn_id None else None) with
         | Some id => Some id
         | None => tr_final_agent_item_id row
         end
     end).
Definition update_summary (t : thread_tables) (turn_id : rstr) (rollout_ordinal : Z) : thread_tables :=
  match st_turns t !! turn_id with
  | Some row =>
      if bool_decide (tr_rollout_end_ordinal row = Some rollout_ordinal)
         || bool_decide (tr_status row = str "inProgress")
      then set_turns t (<[turn_id := fill_summary (st_items t) turn_id row]> (st_turns t))
      else t
  | None => t
  end.
Definition apply_turn_change (ordinal start_offset end_offset : Z) (t : thread_tables) (turn : ThreadHistoryTurnChange)
    : result ThreadStoreError thread_tables :=
  error_json ← match tch_error turn with
               | None => Ok None
               | Some error => json ← ok_or (error_to_json error) SerializationFailed; Ok (Some json)
               end;
  let terminal := match tch_status turn with TurnInProgress => false | _ => true end in
  t ← upsert_turn_row t (tch_turn_id turn)
        (mkTurnRow ordinal start_offset (if terminal then Some ordinal else None)
           (if terminal then Some end_offset else None) (turn_status (tch_status turn)) error_json
           (tch_started_at turn) (tch_completed_at turn) (tch_duration_ms turn) None None);
  Ok (update_summary t (tch_turn_id turn) ordinal).

Definition upsert_item_row (t : thread_tables) (key : rstr * rstr) (excluded : item_row)
    : result ThreadStoreError thread_tables :=
  match st_items t !! key with
  | Some row =>
      Ok (set_items t (<[key := mkItemRow (ir_rollout_ordinal row) (ir_updated_at_ordinal excluded)
                                  (ir_created_at_ms row) (ir_item_type excluded) (ir_item_json excluded)]>
                         (st_items t)))
  | None => items ← insert_unique ir_rollout_ordinal (st_items t) key excluded; Ok (set_items t items)
  end.
(** The UPDATE of an open turn after an item *)
Definition update_open_turn (t : thread_tables) (turn_id : rstr) (f : turn_row → turn_row) : thread_tables :=
  match st_turns t !! turn_id with
  | Some row => if row_open row then set_turns t (<[turn_id := f row]> (st_turns t)) else t
  | None => t
  end.
Definition summarize_item (t : thread_tables) (turn_id : rstr) (item : ThreadItem) : thread_tables :=
  match item with
  | ItemUserMessage id _ _ =>
      update_open_turn t turn_id (λ row,
        set_summary row (match tr_first_user_item_id row with Some first => Some first | None => Some id end)
          (tr_final_agent_item_id row))
  | ItemAgentMessage id _ (Some FinalAnswer) _ _ _ =>
      update_open_turn t turn_id (λ row, set_summary row (tr_first_user_item_id row) (Some id))
  | _ => t
  end.
Definition apply_item_change (ordinal : Z) (fallback_created_at_ms : option Z) (t : thread_tables)
    (item : ThreadHistoryItemChange) : result ThreadStoreError thread_tables :=
  created_at_ms ← ok_or (match ic_started_at_ms item with Some ms => Some ms | None => fallback_created_at_ms end)
                    MissingItemTimestamp;
  let item_id := thread_item_id (ic_item item) in
  item_json ← ok_or (item_to_json (ic_item item)) SerializationFailed;
  item_type ← ok_or (json_type item_json) ConstraintViolated;
  t ← upsert_item_row t (ic_turn_id item, item_id) (mkItemRow ordinal ordinal created_at_ms item_type item_json);
  Ok (summarize_item t (ic_turn_id item) (ic_item item)).

Fixpoint apply_turn_changes (ordinal start_offset end_offset : Z) (t : thread_tables)
    (turns : list ThreadHistoryTurnChange) : result ThreadStoreError thread_tables :=
  match turns with
  | [] => Ok t
  | turn :: turns =>
      t ← apply_turn_change ordinal start_offset end_offset t turn;
      apply_turn_changes ordinal start_offset end_offset t turns
  end.
Fixpoint apply_item_changes (ordinal : Z) (fallback_created_at_ms : option Z) (t : thread_tables)
    (items : list ThreadHistoryItemChange) : result ThreadStoreError thread_tables :=
  match items with
  | [] => Ok t
  | item :: items =>
      t ← apply_item_change ordinal fallback_created_at_ms t item;
      apply_item_changes ordinal fallback_created_at_ms t items
  end.
Definition apply_change_set (ordinal start_offset end_offset : Z) (fallback_created_at_ms : option Z)
    (changes : ThreadHistoryChangeSet) (t : thread_tables) : result ThreadStoreError thread_tables :=
  t ← apply_turn_changes ordinal start_offset end_offset t (changed_turns changes);
  apply_item_changes ordinal fallback_created_at_ms t (changed_items changes).

(** [INSERT INTO thread_realtime_items … ON CONFLICT DO NOTHING] *)
Definition insert_realtime_item (ordinal : Z) (fallback_created_at_ms : option Z) (item : RealtimeItem)
    (t : thread_tables) : result ThreadStoreError thread_tables :=
  item_json ← ok_or (realtime_to_json item) SerializationFailed;
  created_at_ms ← ok_or fallback_created_at_ms MissingRealtimeTimestamp;
  item_type ← ok_or (json_type item_json) ConstraintViolated;
  match st_realtime t !! rt_id item with
  | Some _ => Ok t
  | None =>
      rows ← insert_unique rr_rollout_ordinal (st_realtime t) (rt_id item)
               (mkRealtimeRow ordinal created_at_ms item_type item_json);
      Ok (set_realtime t rows)
  end.
(** One step of the loop of [apply_projection]; the pair is the transaction and
    [next_ordinal].  [i64::checked_add] fails at the greatest integer. *)
Definition apply_step (st : thread_tables * Z) (step : RolloutProjectionStep)
    : result ThreadStoreError (thread_tables * Z) :=
  let '(t, next_ordinal) := st in
  match step with
  | ProjectedLine ordinal start_byte_offset end_byte_offset fallback_created_at_ms changes realtime_item =>
      ordinal ← sqlite_integer ordinal;
      if negb (ordinal =? next_ordinal)%Z then Err (ExpectedOrdinal next_ordinal ordinal)
      else
        start_offset ← sqlite_integer start_byte_offset;
        end_offset ← sqlite_integer end_byte_offset;
        t ← apply_change_set ordinal start_offset end_offset fallback_created_at_ms changes t;
        t ← match realtime_item with
            | Some item => insert_realtime_item ordinal fallback_created_at_ms item t
            | None => Ok t
            end;
        if (next_ordinal + 1 <? 2 ^ 63)%Z then Ok (t, (next_ordinal + 1)%Z) else Err ExceedsSqliteRange
  | SkippedOrdinalRange start_ordinal end_ordinal_exclusive =>
      start_ordinal ← sqlite_integer start_ordinal;
      if negb (start_ordinal =? next_ordinal)%Z then Err (ExpectedOrdinal next_ordinal start_ordinal)
      else
        end_ordinal_exclusive ← sqlite_integer end_ordinal_exclusive;
        if (end_ordinal_exclusive <=? start_ordinal)%Z then Err EmptySkippedRange
        else Ok (t, end_ordinal_exclusive)
  end.
Fixpoint apply_steps (st : thread_tables * Z) (steps : list RolloutProjectionStep)
    : result ThreadStoreError (thread_tables * Z) :=
  match steps with
  | [] => Ok st
  | step :: steps => st ← apply_step st step; apply_steps st steps
  end.
(** The whole transaction: on an error nothing is committed. *)
Definition apply_projection (db : database) (thread_id : ThreadId) (start_offset next_offset initial_ordinal : N)
    (projections : list RolloutProjectionStep) : result ThreadStoreError database :=
  let history := history_of db thread_id in
  '(expected_offset, next_ordinal) ← match th_state history with
                                     | Some state => Ok state
                                     | None => initial ← sqlite_integer initial_ordinal; Ok (0%Z, initial)
                                     end;
  start_offset ← sqlite_integer start_offset;
  if negb (expected_offset =? start_offset)%Z then Err BehindDurableRollout
  else
    '(t, next_ordinal) ← apply_steps (th_tables history, next_ordinal) projections;
    next_offset ← sqlite_integer next_offset;
    Ok (<[thread_id := mkThreadHistory t (Some (next_offset, next_ordinal))]> db).
Definition delete_thread (db : database) (thread_id : ThreadId) : database :=
  <[thread_id := empty_history]> db.

(** ** Materialization *)

(** A missing database file has no row of the thread either. *)
Definition projection_state (db : database) (thread_id : ThreadId) : result ThreadStoreError (option (N * N)) :=
  match th_state (history_of db thread_id) with
  | None => Ok None
  | Some (next_byte_offset, next_ordinal) =>
      next_byte_offset ← u64_from next_byte_offset NegativeByteOffset;
      next_ordinal ← u64_from next_ordinal NegativeOrdinal;
      Ok (Some (next_byte_offset, next_ordinal))
  end.
Definition initial_ordinal (meta : SessionMeta) : N := default 0%N (history_base_end_ordinal meta).
Definition materialize_to_sqlite_with_state_db (db : database) (thread_id : ThreadId) (file : rollout_file)
    : result ThreadStoreError database :=
  state ← projection_state db thread_id;
  let start_offset := match state with Some (offset, _) => offset | None => 0%N end in
  match state, file with
  | None, FileMissing => Ok db
  | _, _ =>
      meta ← read_session_meta_line file;
      let expected_ordinal := match state with Some (_, ordinal) => ordinal | None => initial_ordinal meta end in
      '(projections, next_offset) ← read_projection_steps file start_offset expected_ordinal
                                      (subagent_history_start_ordinal meta);
      if is_empty projections && (start_offset =? next_offset)%N then Ok db
      else apply_projection db thread_id start_offset next_offset (initial_ordinal meta) projections
  end.
Definition materialize_to_sqlite (has_state_db : bool) (db : database) (thread_id : ThreadId) (file : rollout_file)
    : result ThreadStoreError database :=
  if has_state_db then materialize_to_sqlite_with_state_db db thread_id file else Ok db.
End store.
