(* ===== verification/HistoryStoreProps.v ===== *)
(** The projection of a rollout file into tables: reading and writing in pieces is
    the same as in one pass, the rows keep their invariants, and no line makes a
    transaction fail. *)

From S2P Require Import Prelude Utf8 AbsolutePath PathUris OutputTruncation History CoreItems ThreadItems ThreadHistory.
From S2P Require Import HistoryStore.

#[local] Opaque str.

(** ** Complete lines *)

(** Nothing, or bytes that end with a newline *)
Definition newline_ended (bytes : list N) : Prop := bytes = [] ∨ ∃ init, bytes = init ++ [10%N].
Definition complete_count (bytes : list N) : nat :=
  match rposition_newline bytes with Some index => index + 1 | None => 0 end.
Definition complete (bytes : list N) : list N := take (complete_count bytes) bytes.

Lemma newline_ended_app (a b : list N) : newline_ended a → newline_ended b → newline_ended (a ++ b).
Proof.
  intros Ha [->|(init & ->)]; [by rewrite app_nil_r|].
  right. exists (a ++ init). by rewrite app_assoc.
Qed.
Lemma rposition_newline_app (a b : list N) :
  rposition_newline (a ++ b)
  = match rposition_newline b with Some i => Some (length a + i) | None => rposition_newline a end.
Proof.
  induction a as [|c a IH]; simpl; [by destruct (rposition_newline b)|].
  rewrite IH. by destruct (rposition_newline b).
Qed.
Lemma complete_count_app (a b : list N) :
  newline_ended a → complete_count (a ++ b) = length a + complete_count b.
Proof.
  unfold complete_count. rewrite rposition_newline_app.
  destruct (rposition_newline b) as [i|]; [intros _; lia|].
  intros [->|(init & ->)]; [done|].
  rewrite rposition_newline_app, length_app. simpl. lia.
Qed.
Lemma complete_app (a b : list N) : newline_ended a → complete (a ++ b) = a ++ complete b.
Proof.
  intros Ha. unfold complete. rewrite complete_count_app by done.
  by rewrite take_app_add.
Qed.
Lemma rposition_newline_split (bytes : list N) (i : nat) :
  rposition_newline bytes = Some i → take (i + 1) bytes = take i bytes ++ [10%N].
Proof.
  revert i; induction bytes as [|c bytes IH]; intros i H; simpl in H; [done|].
  destruct (rposition_newline bytes) as [j|]; simplify_eq/=.
  - by rewrite IH.
  - destruct (N.eqb_spec c 10); simplify_eq/=. by rewrite take_0.
Qed.
Lemma complete_newline_ended (bytes : list N) : newline_ended (complete bytes).
Proof.
  unfold complete, complete_count. destruct (rposition_newline bytes) as [i|] eqn:H; [|by left].
  right. eexists. by apply rposition_newline_split.
Qed.
Lemma complete_prefix (bytes : list N) : complete bytes `prefix_of` bytes.
Proof. exists (drop (complete_count bytes) bytes). unfold complete. by rewrite take_drop. Qed.
Lemma complete_of_ended (bytes : list N) : newline_ended bytes → complete bytes = bytes.
Proof.
  intros H. rewrite <- (app_nil_r bytes) at 1. rewrite complete_app by done. by rewrite app_nil_r.
Qed.

Lemma split_inclusive_app (a b : list N) :
  newline_ended a → split_inclusive (a ++ b) = split_inclusive a ++ split_inclusive b.
Proof.
  intros [->|(init & ->)]; [done|]. induction init as [|c init IH]; simpl in *; [done|].
  destruct (N.eqb_spec c 10); [by rewrite IH|]. rewrite IH.
  destruct (split_inclusive (init ++ [10%N])) eqn:E; [|done].
  by destruct init as [|d init]; simpl in E; repeat case_match.
Qed.
Lemma concat_split_inclusive (bytes : list N) : concat (split_inclusive bytes) = bytes.
Proof.
  induction bytes as [|c bytes IH]; simpl; [done|].
  destruct (N.eqb_spec c 10); simpl; [by rewrite IH|].
  by destruct (split_inclusive bytes); simpl in *; rewrite <- IH.
Qed.

(** ** The steps of a line *)

Section reading.
Context {FU : FileUrls} {PE : PathEnv} {HT : HistoryTools} {ST : StoreTools}.

(** The metadata of the first lines stays that of the file while the file grows. *)
Lemma session_meta_of_lines_app (lines more : list (list N)) (meta : SessionMeta) :
  session_meta_of_lines lines = Ok meta → session_meta_of_lines (lines ++ more) = Ok meta.
Proof.
  induction lines as [|bytes lines IH]; simpl; [done|]. destruct (from_utf8 bytes); [|done].
  case_match; [done|]. destruct (parse_rollout_line _) as [line|]; [by destruct (rl_item line)|].
  destruct (json_from_slice _); [|done]. by destruct (reject_unknown_thread_history_mode _).
Qed.
Lemma read_session_meta_line_app (head more : list N) (meta : SessionMeta) :
  newline_ended head → read_session_meta_line (FileBytes head) = Ok meta →
  read_session_meta_line (FileBytes (head ++ more)) = Ok meta.
Proof. intros He H. simpl in *. rewrite split_inclusive_app by done. by apply session_meta_of_lines_app. Qed.

(** The steps lead from one ordinal to another without a hole. *)
Fixpoint chained (from : N) (steps : list RolloutProjectionStep) (to : N) : Prop :=
  match steps with
  | [] => from = to
  | ProjectedLine ordinal _ _ _ _ _ :: steps => ordinal = from ∧ chained (from + 1)%N steps to
  | SkippedOrdinalRange first last :: steps => first = from ∧ (first < last)%N ∧ chained last steps to
  end.
(** A line changes one turn or one item, and has a timestamp for what it creates. *)
Definition single_change (changes : ThreadHistoryChangeSet) : Prop :=
  changes = change_set_default ∨ (∃ turn, changes = turn_changes turn)
  ∨ (∃ item, changes = mkChangeSet [item] [] []).
Definition step_ok (limit : N) (step : RolloutProjectionStep) : Prop :=
  match step with
  | ProjectedLine _ first last fallback changes realtime =>
      (first <= last)%N ∧ (last <= limit)%N ∧ single_change changes
      ∧ (∀ item, item ∈ changed_items changes → ic_started_at_ms item = None → is_Some fallback)
      ∧ (is_Some realtime → is_Some fallback)
  | SkippedOrdinalRange _ _ => True
  end.
Lemma chained_app (from mid to : N) (a b : list RolloutProjectionStep) :
  chained from a mid → chained mid b to → chained from (a ++ b) to.
Proof. revert from; induction a as [|[] a IH]; intros; simpl in *; [by subst|naive_solver..]. Qed.
Lemma chained_le (from to : N) (steps : list RolloutProjectionStep) : chained from steps to → (from <= to)%N.
Proof.
  revert from; induction steps as [|[] steps IH]; intros from; simpl; [lia|..].
  - intros (-> & H%IH). lia.
  - intros (-> & ? & H%IH). lia.
Qed.
Lemma step_ok_mono (a b : N) (step : RolloutProjectionStep) : (a <= b)%N → step_ok a step → step_ok b step.
Proof. destruct step; simpl; intuition lia. Qed.

Lemma project_rollout_line_single (line : RolloutLine Url) : single_change (project_rollout_line line).
Proof.
  unfold project_rollout_line, single_change. destruct (rl_item line); try (by left).
  destruct event; try (by left); repeat case_match; eauto.
Qed.
Lemma ok_or_checked_add {E} (a b c : N) (e : E) :
  ok_or (checked_add_u64 a b) e = Ok c → c = (a + b)%N ∧ (c < u64_limit)%N.
Proof. unfold checked_add_u64. destruct (N.ltb_spec (a + b) u64_limit); simpl; intros; by simplify_eq. Qed.
Lemma project_line_ok (sub : option N) (st st' : read_state) (line : RolloutLine Url) (ordinal line_end : N) :
  (rs_next_ordinal st <= ordinal)%N → (rs_offset st <= line_end)%N →
  project_line sub st line ordinal line_end = Ok st' →
  rs_offset st' = line_end ∧
  ∃ steps, rs_projections st' = rs_projections st ++ steps
    ∧ chained (rs_next_ordinal st) steps (rs_next_ordinal st') ∧ Forall (step_ok line_end) steps.
Proof.
  intros Ho Hf. unfold project_line. set (inherited := match sub with Some _ => _ | None => _ end).
  set (changes := if inherited then _ else _). set (realtime := if inherited then None else _).
  assert (single_change changes) as Hc.
  { destruct inherited; [by left|apply project_rollout_line_single]. }
  destruct (if existsb _ _ || _ then _ else _) as [fallback|] eqn:Hfb; cbn zeta; intros H; inv_ok;
    match goal with H : ok_or _ _ = Ok _ |- _ => apply ok_or_checked_add in H as (-> & _) end; simpl.
  - split; [done|]. eexists. split; [done|]. split.
    + destruct (N.ltb_spec (rs_next_ordinal st) ordinal); simpl; repeat split; lia || done.
    + apply Forall_app. split; [by destruct (rs_next_ordinal st <? ordinal)%N; repeat constructor|].
      constructor; [|done]. simpl. repeat split; try done; try lia.
      * intros item Hi Hnone. destruct (existsb _ _) eqn:E; simpl in Hfb.
        { destruct (rfc3339_millis _); naive_solver. }
        exfalso. apply not_true_iff_false in E. apply E. apply existsb_exists. exists item.
        rewrite Hnone. split; [by apply list_elem_of_In|done].
      * intros [x Hx]. rewrite Hx, orb_true_r in Hfb. destruct (rfc3339_millis _); naive_solver.
  - split; [done|]. eexists. split; [done|]. simpl. repeat constructor; lia.
Qed.
Lemma read_line_ok (sub : option N) (st st' : read_state) (line : list N) :
  read_line sub st line = Ok st' →
  rs_offset st' = (rs_offset st + N.of_nat (length line))%N ∧
  ∃ steps, rs_projections st' = rs_projections st ++ steps
    ∧ chained (rs_next_ordinal st) steps (rs_next_ordinal st') ∧ Forall (step_ok (rs_offset st')) steps.
Proof.
  unfold read_line. intros H. inv_ok.
  match goal with H : ok_or _ _ = Ok _ |- _ => apply ok_or_checked_add in H as (-> & _) end.
  assert (∀ e, skip_line st e = st' → rs_offset st' = e ∧ ∃ steps, rs_projections st' = rs_projections st ++ steps
    ∧ chained (rs_next_ordinal st) steps (rs_next_ordinal st') ∧ Forall (step_ok (rs_offset st')) steps) as Hskip.
  { intros e <-. split; [done|]. exists []. by rewrite app_nil_r. }
  repeat case_match; try (inv_ok; by apply Hskip).
  match goal with H : (_ <? _)%N = false |- _ => apply N.ltb_ge in H end.
  edestruct project_line_ok as (? & Hs); [| |done|]; [lia..|]. split; [done|].
  match goal with H : rs_offset st' = _ |- _ => by rewrite H end.
Qed.

Definition prepend (steps : list RolloutProjectionStep) (st : read_state) : read_state :=
  mkReadState (steps ++ rs_projections st) (rs_next_ordinal st) (rs_offset st).
Lemma project_line_prepend (sub : option N) (steps : list RolloutProjectionStep) (st : read_state)
    (line : RolloutLine Url) (ordinal line_end : N) :
  project_line sub (prepend steps st) line ordinal line_end
  = prepend steps <$> project_line sub st line ordinal line_end.
Proof.
  unfold project_line. cbn zeta. destruct (if existsb _ _ || _ then _ else _);
    destruct (checked_add_u64 ordinal 1); simpl; unfold prepend; simpl; by rewrite ?app_assoc.
Qed.
Lemma read_line_prepend (sub : option N) (steps : list RolloutProjectionStep) (st : read_state) (line : list N) :
  read_line sub (prepend steps st) line = prepend steps <$> read_line sub st line.
Proof.
  unfold read_line. simpl. destruct (checked_add_u64 _ _); simpl; [|done].
  repeat (case_match; try done). apply project_line_prepend.
Qed.
Lemma read_lines_prepend (sub : option N) (steps : list RolloutProjectionStep) (st : read_state)
    (lines : list (list N)) :
  read_lines sub (prepend steps st) lines = prepend steps <$> read_lines sub st lines.
Proof.
  revert st; induction lines as [|line lines IH]; intros st; simpl; [done|].
  rewrite read_line_prepend. destruct (read_line sub st line); simpl; [apply IH|done].
Qed.
Lemma read_lines_app (sub : option N) (st : read_state) (a b : list (list N)) :
  read_lines sub st (a ++ b) = (st ← read_lines sub st a; read_lines sub st b).
Proof.
  revert st; induction a as [|line a IH]; intros st; simpl; [done|].
  destruct (read_line sub st line); simpl; [apply IH|done].
Qed.
Lemma read_lines_ok (sub : option N) (st st' : read_state) (lines : list (list N)) :
  read_lines sub st lines = Ok st' →
  rs_offset st' = (rs_offset st + N.of_nat (length (concat lines)))%N ∧
  ∃ steps, rs_projections st' = rs_projections st ++ steps
    ∧ chained (rs_next_ordinal st) steps (rs_next_ordinal st') ∧ Forall (step_ok (rs_offset st')) steps.
Proof.
  revert st; induction lines as [|line lines IH]; intros st; simpl; intros H; inv_ok.
  - split; [lia|]. exists []. by rewrite app_nil_r.
  - apply IH in H as (Hf2 & b & Hb & Hcb & Hsb).
    match goal with H : read_line _ _ _ = _ |- _ => apply read_line_ok in H as (Hf1 & a & Ha & Hca & Hsa) end.
    rewrite length_app. split; [lia|]. exists (a ++ b). rewrite Hb, Ha, app_assoc. split; [done|].
    split; [by eapply chained_app|]. apply Forall_app. split; [|done].
    eapply Forall_impl; [done|]. intros step. apply step_ok_mono. lia.
Qed.

(** The ordinal that a line has, when it decodes *)
Definition line_ordinal (line : list N) : option N :=
  value ← json_from_slice line; decoded ← decode_rollout_line value; rl_ordinal decoded.
Definition ordinals_below (limit : N) (lines : list (list N)) : Prop :=
  ∀ line ordinal, line ∈ lines → line_ordinal line = Some ordinal → (ordinal + 1 < limit)%N.
Lemma read_line_total (sub : option N) (st : read_state) (line : list N) (limit : N) :
  (limit <= u64_limit)%N → (rs_offset st + N.of_nat (length line) < u64_limit)%N → (rs_next_ordinal st < limit)%N →
  (∀ ordinal, line_ordinal line = Some ordinal → (ordinal + 1 < limit)%N) →
  ∃ st', read_line sub st line = Ok st' ∧ (rs_next_ordinal st' < limit)%N.
Proof.
  intros Hl Hf Hn Ho. unfold read_line, checked_add_u64.
  destruct (N.ltb_spec (rs_offset st + N.of_nat (length line)) u64_limit); [|lia]. simpl.
  unfold line_ordinal in Ho.
  repeat (case_match; simpl in *; eauto). specialize (Ho _ eq_refl).
  unfold project_line, checked_add_u64. cbn zeta.
  match goal with |- context [(?o + 1 <? u64_limit)%N] => destruct (N.ltb_spec (o + 1) u64_limit); [|lia] end.
  destruct (if existsb _ _ || _ then _ else _); simpl; eauto.
Qed.
Lemma read_lines_total (sub : option N) (st : read_state) (lines : list (list N)) (limit : N) :
  (limit <= u64_limit)%N → (rs_offset st + N.of_nat (length (concat lines)) < u64_limit)%N →
  (rs_next_ordinal st < limit)%N → ordinals_below limit lines →
  ∃ st', read_lines sub st lines = Ok st' ∧ (rs_next_ordinal st' < limit)%N.
Proof.
  intros Hl. revert st; induction lines as [|line lines IH]; intros st Hf Hn Ho; simpl in *; [by eauto|].
  rewrite length_app in Hf.
  edestruct (read_line_total sub st line limit) as (st' & Hr & Hn'); [lia..| |].
  { intros o Ho'. by apply (Ho line o); [left|]. }
  rewrite Hr. simpl. apply IH; [|done|].
  - apply read_line_ok in Hr as (-> & _). lia.
  - intros l o Hin. by apply Ho; right.
Qed.
End reading.

(** ** Rows *)

(** The ordinals of a table are naturals below the next one and name one row each. *)
Definition ordinals_ok {K R} `{Countable K} (ordinal_of : R → Z) (next : Z) (rows : gmap K R) : Prop :=
  (∀ key row, rows !! key = Some row → (0 <= ordinal_of row < next)%Z)
  ∧ (∀ k1 k2 r1 r2, rows !! k1 = Some r1 → rows !! k2 = Some r2 → ordinal_of r1 = ordinal_of r2 → k1 = k2).

Section ordinals.
Context {K R : Type} `{Countable K} (ordinal_of : R → Z).
Implicit Types rows : gmap K R.

Lemma ordinals_ok_mono (a b : Z) rows : (a <= b)%Z → ordinals_ok ordinal_of a rows → ordinals_ok ordinal_of b rows.
Proof. intros ? [Ha Hu]. split; [|done]. intros k r Hk. specialize (Ha k r Hk). lia. Qed.
Lemma ordinals_ok_empty (next : Z) : ordinals_ok ordinal_of next (∅ : gmap K R).
Proof. by split. Qed.
Lemma insert_unique_fresh (next : Z) rows (key : K) (row : R) :
  ordinals_ok ordinal_of next rows → (next <= ordinal_of row)%Z →
  insert_unique ordinal_of rows key row = Ok (<[key := row]> rows).
Proof.
  intros [Hlt _] Hr. unfold insert_unique, ordinal_free.
  replace (forallb _ _) with true; [done|]. symmetry. apply forallb_forall. intros [k r] Hin.
  apply list_elem_of_In, elem_of_map_to_list in Hin. specialize (Hlt _ _ Hin). simpl.
  apply negb_true_iff, Z.eqb_neq. lia.
Qed.
(** A new row has the next ordinal, and an updated one keeps its own. *)
Lemma ordinals_ok_insert (next : Z) rows (key : K) (row : R) :
  ordinals_ok ordinal_of next rows → ordinal_of row = next → (0 <= next)%Z →
  ordinals_ok ordinal_of (next + 1) (<[key := row]> rows).
Proof.
  intros [Hlt Hu] Hr Hn. split.
  - intros k r. rewrite lookup_insert_Some. intros [[<- <-]|[? Hk%Hlt]]; lia.
  - intros k1 k2 r1 r2. rewrite !lookup_insert_Some.
    intros [[<- <-]|[? Ha]] [[<- <-]|[? Hb]] He; [done|..|by eauto];
      [apply Hlt in Hb|apply Hlt in Ha]; lia.
Qed.
Lemma ordinals_ok_update (next : Z) rows (key : K) (old row : R) :
  ordinals_ok ordinal_of next rows → rows !! key = Some old → ordinal_of row = ordinal_of old →
  ordinals_ok ordinal_of next (<[key := row]> rows).
Proof.
  intros [Hlt Hu] Hk Hr. split.
  - intros k r. rewrite lookup_insert_Some. intros [[<- <-]|[? Hk'%Hlt]]; [|done]. rewrite Hr. eauto.
  - intros k1 k2 r1 r2. rewrite !lookup_insert_Some.
    intros [[<- <-]|[? Ha]] [[<- <-]|[? Hb]] He; [done|..|by eauto]; eapply Hu; eauto; congruence.
Qed.
End ordinals.

Section writing.
Context {FU : FileUrls} {PE : PathEnv} {HT : HistoryTools} {ST : StoreTools}.

(** A turn is in progress or has the ordinal of its end; its summary names items
    of the turn. *)
Definition turn_row_ok (next : Z) (items : gmap (rstr * rstr) item_row) (turn_id : rstr) (row : turn_row) : Prop :=
  match tr_rollout_end_ordinal row with
  | None => tr_status row = str "inProgress"
  | Some last => (last < next)%Z ∧ tr_status row ≠ str "inProgress"
  end
  ∧ (∀ id, tr_first_user_item_id row = Some id → is_Some (items !! (turn_id, id)))
  ∧ (∀ id, tr_final_agent_item_id row = Some id → is_Some (items !! (turn_id, id))).
Record rows_ok (next : Z) (t : thread_tables) : Prop := mkRowsOk {
  turns_ordered : ordinals_ok tr_rollout_ordinal next (st_turns t);
  items_ordered : ordinals_ok ir_rollout_ordinal next (st_items t);
  updates_ordered : ordinals_ok ir_updated_at_ordinal next (st_items t);
  turns_summarized : map_Forall (turn_row_ok next (st_items t)) (st_turns t);
}.
Record tables_ok (next : Z) (t : thread_tables) : Prop := mkTablesOk {
  tables_rows : rows_ok next t;
  realtime_ordered : ordinals_ok rr_rollout_ordinal next (st_realtime t);
}.
(** What later lines leave as it is: the position of a turn, all of a finished
    turn, the position and the time of an item, all of a realtime item *)
Record extends (t t' : thread_tables) : Prop := mkExtends {
  turns_kept : ∀ id row, st_turns t !! id = Some row → ∃ row', st_turns t' !! id = Some row'
    ∧ tr_rollout_ordinal row' = tr_rollout_ordinal row ∧ tr_rollout_byte_offset row' = tr_rollout_byte_offset row
    ∧ (tr_rollout_end_ordinal row ≠ None → row' = row);
  items_kept : ∀ key row, st_items t !! key = Some row → ∃ row', st_items t' !! key = Some row'
    ∧ ir_rollout_ordinal row' = ir_rollout_ordinal row ∧ ir_created_at_ms row' = ir_created_at_ms row;
  realtime_kept : st_realtime t ⊆ st_realtime t';
}.
#[export] Instance extends_preorder : PreOrder extends.
Proof.
  split.
  - intros t. split; [..|done]; intros id row H; by exists row.
  - intros a b c [T1 I1 R1] [T2 I2 R2]. split; [| |by etrans].
    + intros id row H. destruct (T1 _ _ H) as (r1 & H1 & E1 & F1 & K1).
      destruct (T2 _ _ H1) as (r2 & H2 & E2 & F2 & K2). exists r2. split; [done|].
      split; [congruence|]. split; [congruence|]. intros Hend. rewrite <- (K1 Hend) at 1. apply K2.
      by rewrite (K1 Hend).
    + intros key row H. destruct (I1 _ _ H) as (r1 & H1 & E1 & F1).
      destruct (I2 _ _ H1) as (r2 & H2 & E2 & F2).
      exists r2. repeat split; congruence.
Qed.

Lemma select_item_in (before : Z → Z → bool) (items : gmap (rstr * rstr) item_row) (turn_id : rstr)
    (cond : item_row → bool) (id : rstr) :
  select_item before items turn_id cond = Some id → is_Some (items !! (turn_id, id)).
Proof.
  assert (∀ l best x, fold_left (pick_item before) l best = Some x → best = Some x ∨ x ∈ l) as Hfold.
  { induction l as [|y l IH]; intros best x H; simpl in *; [by left|].
    apply IH in H as [H|H]; [|by right; right]. destruct best as [[b o]|]; simpl in H; [|right; simplify_eq; by left].
    destruct (before y.2 o); simplify_eq; [right; by left|by left]. }
  unfold select_item. rewrite fmap_Some. intros ([i o] & H & ->).
  apply Hfold in H as [|H]; [done|]. apply list_elem_of_omap in H as ([[turn item] row] & Hin & H).
  apply elem_of_map_to_list in Hin. case_match; reflect_bools; simplify_eq. by eexists.
Qed.

(** Only the row of one turn differs. *)
Lemma extends_turn (t t' : thread_tables) (turn_id : rstr) :
  st_items t' = st_items t → st_realtime t' = st_realtime t →
  (∀ id, id ≠ turn_id → st_turns t' !! id = st_turns t !! id) →
  (∀ row, st_turns t !! turn_id = Some row → ∃ row', st_turns t' !! turn_id = Some row'
    ∧ tr_rollout_ordinal row' = tr_rollout_ordinal row ∧ tr_rollout_byte_offset row' = tr_rollout_byte_offset row
    ∧ (tr_rollout_end_ordinal row ≠ None → row' = row)) →
  extends t t'.
Proof.
  intros Hi Hr Ho Hk. split.
  - intros id row H. destruct (decide (id = turn_id)) as [->|Hne]; [by apply Hk|].
    exists row. by rewrite Ho.
  - intros key row H. exists row. by rewrite Hi.
  - by rewrite Hr.
Qed.
(** A row of an open turn is replaced. *)
Lemma replace_turn (next next' : Z) (t : thread_tables) (turn_id : rstr) (row row' : turn_row) :
  (next <= next')%Z → rows_ok next t → st_turns t !! turn_id = Some row →
  tr_rollout_ordinal row' = tr_rollout_ordinal row → turn_row_ok next' (st_items t) turn_id row' →
  rows_ok next' (set_turns t (<[turn_id := row']> (st_turns t))).
Proof.
  intros Hle [Ht Hi Hup Hs] Hk Ho Hok. split; simpl.
  - eapply ordinals_ok_update; [|done..]. by eapply ordinals_ok_mono.
  - by eapply ordinals_ok_mono.
  - by eapply ordinals_ok_mono.
  - intros id r. rewrite lookup_insert_Some. intros [[<- <-]|[_ H]]; [done|].
    apply Hs in H as (He & ?). split; [|done]. destruct (tr_rollout_end_ordinal r); [|done]. intuition lia.
Qed.
Lemma rows_ok_mono (a b : Z) (t : thread_tables) : (a <= b)%Z → rows_ok a t → rows_ok b t.
Proof.
  intros Hle [Ht Hi Hup Hs]. split; [by eapply ordinals_ok_mono..|]. intros id r H.
  apply Hs in H as (He & ?). split; [|done]. destruct (tr_rollout_end_ordinal r); [|done]. intuition lia.
Qed.
Lemma fill_summary_ok (next : Z) (items : gmap (rstr * rstr) item_row) (turn_id : rstr) (row : turn_row) :
  turn_row_ok next items turn_id row → turn_row_ok next items turn_id (fill_summary items turn_id row).
Proof.
  intros (He & Hf & Ha). split; [done|]. simpl. split; intros id.
  - destruct (tr_first_user_item_id row); [by apply Hf|]. apply select_item_in.
  - destruct (last_agent_item items turn_id (Some _)) eqn:E1; [intros; simplify_eq; by eapply select_item_in|].
    destruct (is_terminal_status _); [|by apply Ha].
    destruct (last_agent_item items turn_id None) eqn:E2; [|by apply Ha].
    intros; simplify_eq; by eapply select_item_in.
Qed.
Lemma update_summary_ok (next : Z) (t : thread_tables) (turn_id : rstr) (ordinal : Z) :
  rows_ok next t → rows_ok next (update_summary t turn_id ordinal).
Proof.
  intros Hok. unfold update_summary. destruct (st_turns t !! turn_id) as [row|] eqn:E; [|done].
  case_match; [|done]. eapply replace_turn; [done..|]. apply fill_summary_ok. by apply (turns_summarized _ _ Hok).
Qed.

Lemma turn_status_open (status : TurnStatus) : turn_status status = str "inProgress" ↔ status = TurnInProgress.
Proof.
  destruct status; simpl; (split; [|done]); try done;
    intros H; exfalso; revert H; apply (bool_decide_eq_false_1 (_ = _)); vm_compute; reflexivity.
Qed.
Lemma upsert_turn_row_ok (next : Z) (t t' : thread_tables) (turn_id : rstr) (excluded : turn_row) :
  rows_ok next t → (0 <= next)%Z → tr_rollout_ordinal excluded = next →
  turn_row_ok (next + 1) (st_items t) turn_id excluded →
  upsert_turn_row t turn_id excluded = Ok t' →
  rows_ok (next + 1) t' ∧ st_items t' = st_items t ∧ st_realtime t' = st_realtime t
  ∧ (∀ id, id ≠ turn_id → st_turns t' !! id = st_turns t !! id)
  ∧ (∀ row, st_turns t !! turn_id = Some row → ∃ row', st_turns t' !! turn_id = Some row'
       ∧ tr_rollout_ordinal row' = tr_rollout_ordinal row ∧ tr_rollout_byte_offset row' = tr_rollout_byte_offset row
       ∧ (tr_rollout_end_ordinal row ≠ None → row' = row)).
Proof.
  intros Hok Hpos Hn Hex. unfold upsert_turn_row. destruct (st_turns t !! turn_id) as [row|] eqn:E.
  - pose proof (turns_summarized _ _ Hok _ _ E) as (Hend & Hfirst & Hfinal). intros H. inv_ok.
    unfold row_open. destruct (tr_rollout_end_ordinal row) as [last|] eqn:Elast; simpl.
    { split; [eapply rows_ok_mono; [|done]; lia|]. do 3 (split; [done|]). intros r Hr. simplify_eq. by exists r. }
    rewrite Hend, bool_decide_eq_true_2 by done. split.
    + eapply replace_turn; [|done..|]; [lia|]. destruct Hex as (He & _). by split.
    + do 2 (split; [done|]). split; [intros id Hne; simpl; by rewrite lookup_insert_ne|].
      intros r Hr. simplify_eq. exists (overwrite_turn r excluded). simpl. by rewrite lookup_insert_eq.
  - rewrite (insert_unique_fresh _ next); [|apply Hok|lia]. intros H. simpl in H. inv_ok. split.
    + destruct Hok as [Ht Hi Hup Hs].
      split; simpl; [by apply ordinals_ok_insert|eapply ordinals_ok_mono; [|done]; lia..|].
      intros id r. rewrite lookup_insert_Some. intros [[<- <-]|[_ H]]; [done|].
      apply Hs in H as (He & ?). split; [|done]. destruct (tr_rollout_end_ordinal r); [|done]. intuition lia.
    + do 2 (split; [done|]). split; [intros id Hne; simpl; by rewrite lookup_insert_ne|done].
Qed.
Lemma update_summary_only (t : thread_tables) (turn_id : rstr) (ordinal : Z) :
  st_items (update_summary t turn_id ordinal) = st_items t
  ∧ st_realtime (update_summary t turn_id ordinal) = st_realtime t
  ∧ ∀ id, id ≠ turn_id → st_turns (update_summary t turn_id ordinal) !! id = st_turns t !! id.
Proof.
  unfold update_summary. repeat case_match; split_and!; try done.
  intros id Hne. simpl. by rewrite lookup_insert_ne.
Qed.
Lemma apply_turn_change_ok (ordinal first last : Z) (t t' : thread_tables) (turn : ThreadHistoryTurnChange) :
  rows_ok ordinal t → (0 <= ordinal)%Z → apply_turn_change ordinal first last t turn = Ok t' →
  rows_ok (ordinal + 1) t' ∧ extends t t' ∧ st_realtime t' = st_realtime t.
Proof.
  intros Hok Hpos. unfold apply_turn_change. intros H. inv_ok. rename x0 into mid.
  match goal with H : upsert_turn_row _ _ _ = _ |- _ =>
    apply (upsert_turn_row_ok ordinal) in H as (Hmid & Hi & Hr & Ho & Hk); [|done..|] end.
  2: { split; [simpl|done]. pose proof (turn_status_open (tch_status turn)) as Hst.
       destruct (tch_status turn); try (split; [lia|]); rewrite ?Hst; done. }
  split; [by apply update_summary_ok|].
  destruct (update_summary_only mid (tch_turn_id turn) ordinal) as (Ei & Er & Et).
  split; [|congruence]. apply (extends_turn _ _ (tch_turn_id turn)); [congruence..| |].
  - intros id Hne. by rewrite Et, Ho.
  - intros row Hrow. destruct (Hk _ Hrow) as (row' & Hrow' & Hpo & Hoff & Hsame).
    unfold update_summary. rewrite Hrow'. destruct (_ || _) eqn:Hc; [|by exists row'].
    simpl. rewrite lookup_insert_eq. eexists. split; [done|]. do 2 (split; [done|]).
    intros Hend. exfalso. specialize (Hsame Hend). subst row'.
    pose proof (turns_summarized _ _ Hok _ _ Hrow) as (Hst & _).
    destruct (tr_rollout_end_ordinal row) as [e|] eqn:He; [|done]. destruct Hst as (Hlt & Hst).
    apply orb_true_iff in Hc as [H|H]; reflect_bools; simplify_eq; lia || done.
Qed.

Lemma update_open_turn_only (t : thread_tables) (turn_id : rstr) (f : turn_row → turn_row) :
  st_items (update_open_turn t turn_id f) = st_items t
  ∧ st_realtime (update_open_turn t turn_id f) = st_realtime t
  ∧ ∀ id, id ≠ turn_id → st_turns (update_open_turn t turn_id f) !! id = st_turns t !! id.
Proof.
  unfold update_open_turn. repeat case_match; split_and!; try done.
  intros id Hne. simpl. by rewrite lookup_insert_ne.
Qed.
Lemma update_open_turn_ok (next : Z) (t : thread_tables) (turn_id : rstr) (f : turn_row → turn_row) :
  (∀ row, tr_rollout_ordinal (f row) = tr_rollout_ordinal row ∧ tr_rollout_byte_offset (f row) = tr_rollout_byte_offset row
    ∧ (turn_row_ok next (st_items t) turn_id row → turn_row_ok next (st_items t) turn_id (f row))) →
  rows_ok next t → rows_ok next (update_open_turn t turn_id f) ∧ extends t (update_open_turn t turn_id f)
    ∧ st_realtime (update_open_turn t turn_id f) = st_realtime t.
Proof.
  intros Hf Hok. destruct (update_open_turn_only t turn_id f) as (Ei & Er & Et). split_and!; [..|done].
  - unfold update_open_turn. destruct (st_turns t !! turn_id) as [row|] eqn:E; [|done].
    destruct (row_open row); [|done]. destruct (Hf row) as (Ho & _ & Hr).
    eapply replace_turn; [done..|]. apply Hr. by apply (turns_summarized _ _ Hok).
  - apply (extends_turn _ _ turn_id); [done..|]. intros row Hrow. unfold update_open_turn. rewrite Hrow.
    unfold row_open. destruct (tr_rollout_end_ordinal row) eqn:Hend; [by exists row|].
    case_match; [|by exists row]. simpl. rewrite lookup_insert_eq. destruct (Hf row) as (Ho & Hb & _). by eexists.
Qed.
Lemma summarize_item_ok (next : Z) (t : thread_tables) (turn_id : rstr) (item : ThreadItem) :
  rows_ok next t → is_Some (st_items t !! (turn_id, thread_item_id item)) →
  rows_ok next (summarize_item t turn_id item) ∧ extends t (summarize_item t turn_id item)
  ∧ st_realtime (summarize_item t turn_id item) = st_realtime t.
Proof.
  intros Hok Hid. destruct item; simpl in *; try (by split_and!); repeat case_match; try (by split_and!);
    (apply update_open_turn_ok; [|done]); intros row; (split_and!; [done..|]); intros (He & Hf & Ha);
    (split_and!; [done|..]); simpl; try done.
  - destruct (tr_first_user_item_id row); [done|]. intros; by simplify_eq.
  - intros; by simplify_eq.
Qed.
Lemma upsert_item_row_ok (next : Z) (t t' : thread_tables) (key : rstr * rstr) (excluded : item_row) :
  rows_ok next t → (0 <= next)%Z → ir_rollout_ordinal excluded = next → ir_updated_at_ordinal excluded = next →
  upsert_item_row t key excluded = Ok t' →
  rows_ok (next + 1) t' ∧ extends t t' ∧ is_Some (st_items t' !! key) ∧ st_realtime t' = st_realtime t.
Proof.
  intros [Ht Hi Hup Hs] Hpos Hn Hu. unfold upsert_item_row.
  assert (∀ row, ir_updated_at_ordinal row = next →
    ordinals_ok ir_rollout_ordinal (next + 1) (<[key := row]> (st_items t)) →
    rows_ok (next + 1) (set_items t (<[key := row]> (st_items t)))) as Hset.
  { intros row Hrow Hok. split; [by eapply ordinals_ok_mono; [|done]; lia|done|by apply ordinals_ok_insert|].
    intros id r H. simpl in *. apply Hs in H as (He & Hf & Ha). split_and!.
    - destruct (tr_rollout_end_ordinal r); [|done]. intuition lia.
    - intros i H%Hf. apply lookup_insert_is_Some'. by right.
    - intros i H%Ha. apply lookup_insert_is_Some'. by right. }
  destruct (st_items t !! key) as [row|] eqn:E; intros H; inv_ok.
  - split_and!; [|split; simpl; [by eauto| |done]|simpl; rewrite lookup_insert_eq; by eexists|done].
    + apply Hset; [done|]. eapply ordinals_ok_update; [|done..]. eapply ordinals_ok_mono; [|done]. lia.
    + intros k r Hk. destruct (decide (k = key)) as [->|]; [rewrite lookup_insert_eq|rewrite lookup_insert_ne by done].
      * simplify_eq. by eexists.
      * by exists r.
  - rewrite (insert_unique_fresh _ _ _ _ _ Hi) in * by lia. inv_ok.
    split_and!; [|split; simpl; [by eauto| |done]|simpl; rewrite lookup_insert_eq; by eexists|done].
    + apply Hset; [done|]. by apply ordinals_ok_insert.
    + intros k r Hk. exists r. rewrite lookup_insert_ne by congruence. done.
Qed.
Lemma apply_item_change_ok (ordinal : Z) (fallback : option Z) (t t' : thread_tables) (item : ThreadHistoryItemChange) :
  rows_ok ordinal t → (0 <= ordinal)%Z → apply_item_change ordinal fallback t item = Ok t' →
  rows_ok (ordinal + 1) t' ∧ extends t t' ∧ st_realtime t' = st_realtime t.
Proof.
  intros Hok Hpos H. unfold apply_item_change in H. inv_ok.
  match goal with H : upsert_item_row _ _ _ = _ |- _ =>
    apply (upsert_item_row_ok ordinal) in H as (Hmid & He & Hid & Hr); [|done..] end.
  destruct (summarize_item_ok _ _ _ _ Hmid Hid) as (? & ? & Hr'). split_and!; [done|by etrans|congruence].
Qed.
Lemma apply_change_set_ok (ordinal first last : Z) (fallback : option Z) (changes : ThreadHistoryChangeSet)
    (t t' : thread_tables) :
  single_change changes → rows_ok ordinal t → (0 <= ordinal)%Z →
  apply_change_set ordinal first last fallback changes t = Ok t' →
  rows_ok (ordinal + 1) t' ∧ extends t t' ∧ st_realtime t' = st_realtime t.
Proof.
  intros [->|[(turn & ->)|(item & ->)]] Hok Hpos H; unfold apply_change_set in H; simpl in H; inv_ok.
  - split_and!; [|done..]. eapply rows_ok_mono; [|done]. lia.
  - by eapply apply_turn_change_ok.
  - by eapply apply_item_change_ok.
Qed.
Lemma insert_realtime_item_ok (ordinal : Z) (fallback : option Z) (item : RealtimeItem) (t t' : thread_tables) :
  ordinals_ok rr_rollout_ordinal ordinal (st_realtime t) → (0 <= ordinal)%Z →
  insert_realtime_item ordinal fallback item t = Ok t' →
  st_turns t' = st_turns t ∧ st_items t' = st_items t ∧ ordinals_ok rr_rollout_ordinal (ordinal + 1) (st_realtime t')
  ∧ st_realtime t ⊆ st_realtime t'.
Proof.
  intros Hr Hpos H. unfold insert_realtime_item in H. inv_ok.
  destruct (st_realtime t !! rt_id item) as [row|] eqn:E; inv_ok.
  - split_and!; try done. eapply ordinals_ok_mono; [|done]. lia.
  - rewrite (insert_unique_fresh _ _ _ _ _ Hr) in * by (simpl; lia). inv_ok. split_and!; try done; simpl.
    + by apply ordinals_ok_insert.
    + by apply insert_subseteq.
Qed.
Lemma sqlite_integer_ok (n : N) (z : Z) : sqlite_integer n = Ok z → z = Z.of_N n ∧ (n < 2 ^ 63)%N.
Proof. unfold sqlite_integer. destruct (N.ltb_spec n (2 ^ 63)); intros; by simplify_eq. Qed.
Lemma apply_step_ok (limit : N) (step : RolloutProjectionStep) (t t' : thread_tables) (next next' : Z) :
  step_ok limit step → tables_ok next t → apply_step (t, next) step = Ok (t', next') →
  tables_ok next' t' ∧ extends t t'.
Proof.
  intros Hs [Hrows Hrt] H. destruct step as [ordinal first last fallback changes realtime|first last]; simpl in H; inv_ok.
  - case_match; [done|]. reflect_bools. match goal with H : (_ =? _)%Z = true |- _ => apply Z.eqb_eq in H; subst end.
    inv_ok. match goal with H : sqlite_integer ordinal = Ok next |- _ => apply sqlite_integer_ok in H as [-> _] end.
    match goal with H : apply_change_set _ _ _ _ _ _ = _ |- _ =>
      apply apply_change_set_ok in H as (Hmid & Hext & Er); [|by apply Hs|done|lia] end.
    destruct (Z.of_N ordinal + 1 <? 2 ^ 63)%Z; inv_ok. destruct realtime as [item|]; inv_ok.
    + match goal with H : insert_realtime_item _ _ _ _ = _ |- _ =>
        apply insert_realtime_item_ok in H as (Et & Ei & Ho & Hsub); [|by rewrite Er|lia] end.
      destruct Hmid as [T I U S]. split.
      * split; [split; by rewrite ?Et, ?Ei|done].
      * etrans; [done|]. split; [rewrite Et|rewrite Ei|done]; eauto.
    + split; [split; [done|]|done]. rewrite Er. eapply ordinals_ok_mono; [|done]. lia.
  - case_match; [done|]. reflect_bools. match goal with H : (_ =? _)%Z = true |- _ => apply Z.eqb_eq in H; subst end.
    inv_ok. case_match; inv_ok. match goal with H : (_ <=? _)%Z = false |- _ => apply Z.leb_gt in H end.
    split; [|done]. split; [eapply rows_ok_mono; [|done]; lia|eapply ordinals_ok_mono; [|done]; lia].
Qed.
Lemma apply_steps_ok (limit : N) (steps : list RolloutProjectionStep) (t t' : thread_tables) (next next' : Z) :
  Forall (step_ok limit) steps → tables_ok next t → apply_steps (t, next) steps = Ok (t', next') →
  tables_ok next' t' ∧ extends t t'.
Proof.
  intros Hs. revert t next; induction Hs as [|step steps Hstep Hs IH]; intros t next Hok H; cbn [apply_steps] in H; inv_ok; [done|].
  destruct x as [mid n]. match goal with H : apply_step _ _ = _ |- _ => eapply apply_step_ok in H as (Hmid & He); [|done..] end.
  apply IH in H as (? & ?); [|done]. split; [done|by etrans].
Qed.
Lemma apply_steps_app (st : thread_tables * Z) (a b : list RolloutProjectionStep) :
  apply_steps st (a ++ b) = (st ← apply_steps st a; apply_steps st b).
Proof.
  revert st; induction a as [|step a IH]; intros st; simpl; [done|].
  destruct (apply_step st step); simpl; [apply IH|done].
Qed.
(** The checkpoint of the tables is the ordinal that the reader reached. *)
Lemma apply_steps_chained (steps : list RolloutProjectionStep) (from to : N) (t t' : thread_tables) (next : Z) :
  chained from steps to → apply_steps (t, Z.of_N from) steps = Ok (t', next) → next = Z.of_N to.
Proof.
  revert from t; induction steps as [|[ordinal first last fallback changes realtime|first last] steps IH];
    intros from t Hc H; simpl in *; inv_ok; [by subst|..].
  - destruct Hc as (-> & Hc). case_match; [done|]. inv_ok. case_match; inv_ok.
    replace (Z.of_N from + 1)%Z with (Z.of_N (from + 1)) in H by lia. by eapply IH.
  - destruct Hc as (-> & _ & Hc). case_match; [done|]. inv_ok. case_match; inv_ok.
    match goal with H : sqlite_integer last = _ |- _ => apply sqlite_integer_ok in H as [-> _] end. by eapply IH.
Qed.

(** ** No line makes the transaction fail *)

(** What the code relies on of [serde_json]: the values serialize, and the JSON of
    an item has its tag. *)
Class SerializerLaws := {
  error_serializes : ∀ error, is_Some (error_to_json error);
  item_serializes : ∀ item, ∃ json ty, item_to_json item = Some json ∧ json_type json = Some ty;
  realtime_serializes : ∀ item, ∃ json ty, realtime_to_json item = Some json ∧ json_type json = Some ty;
}.
Context {SL : SerializerLaws}.

Lemma apply_change_set_total (ordinal first last : Z) (fallback : option Z) (changes : ThreadHistoryChangeSet)
    (t : thread_tables) :
  single_change changes → (∀ item, item ∈ changed_items changes → ic_started_at_ms item = None → is_Some fallback) →
  rows_ok ordinal t → ∃ t', apply_change_set ordinal first last fallback changes t = Ok t'.
Proof.
  intros [->|[(turn & ->)|(item & ->)]] Ht Hok; unfold apply_change_set; simpl; [by eexists|..].
  - unfold apply_turn_change, upsert_turn_row. destruct (tch_error turn) as [error|]; simpl.
    1: destruct (error_serializes error) as [json ->]; simpl.
    all: destruct (st_turns t !! _); simpl; [by eexists|];
      rewrite (insert_unique_fresh _ ordinal); [by eexists|apply Hok|simpl; lia].
  - unfold apply_item_change, upsert_item_row. destruct (item_serializes (ic_item item)) as (json & ty & Hj & Hty).
    rewrite Hj. simpl. rewrite Hty. simpl.
    assert (∃ ms, match ic_started_at_ms item with Some ms => Some ms | None => fallback end = Some ms) as [ms ->].
    { destruct (ic_started_at_ms item) eqn:E; [by eexists|]. apply (Ht item); [by left|done]. }
    simpl. destruct (st_items t !! _); simpl; [by eexists|].
    rewrite (insert_unique_fresh _ ordinal); [by eexists|apply Hok|simpl; lia].
Qed.
Lemma insert_realtime_item_total (ordinal ms : Z) (item : RealtimeItem) (t : thread_tables) :
  ordinals_ok rr_rollout_ordinal ordinal (st_realtime t) →
  ∃ t', insert_realtime_item ordinal (Some ms) item t = Ok t'.
Proof.
  intros Hok. unfold insert_realtime_item. destruct (realtime_serializes item) as (json & ty & Hj & Hty).
  rewrite Hj. simpl. rewrite Hty. simpl. case_match; [by eexists|].
  rewrite (insert_unique_fresh _ ordinal); [by eexists|done|simpl; lia].
Qed.
Lemma sqlite_integer_total (n : N) : (n < 2 ^ 63)%N → sqlite_integer n = Ok (Z.of_N n).
Proof. intros H. unfold sqlite_integer. by rewrite (proj2 (N.ltb_lt _ _) H). Qed.
Lemma apply_steps_total (limit from to : N) (steps : list RolloutProjectionStep) (t : thread_tables) :
  (limit < 2 ^ 63)%N → (to < 2 ^ 63)%N → chained from steps to → Forall (step_ok limit) steps →
  tables_ok (Z.of_N from) t → ∃ t', apply_steps (t, Z.of_N from) steps = Ok (t', Z.of_N to).
Proof.
  intros Hl Hto. revert from t; induction steps as [|step steps IH]; intros from t Hc Hs Hok; [simpl in *; subst; by eauto|].
  apply Forall_cons in Hs as [Hstep Hs].
  assert (∃ mid next, apply_step (t, Z.of_N from) step = Ok (mid, Z.of_N next) ∧ chained next steps to)
    as (mid & next & Hmid & Hc').
  { destruct step as [ordinal first last fallback changes realtime|first last]; simpl in *.
    - destruct Hc as (-> & Hc). pose proof (chained_le _ _ _ Hc). destruct Hstep as (? & ? & Hsingle & Hitems & Hrt).
      rewrite !sqlite_integer_total by lia. simpl. rewrite Z.eqb_refl. simpl.
      destruct (apply_change_set_total (Z.of_N from) (Z.of_N first) (Z.of_N last) fallback changes t)
        as [t1 Happ]; [done..|apply Hok|].
      rewrite Happ. simpl. apply apply_change_set_ok in Happ as (_ & _ & Er); [|done|apply Hok|lia].
      assert (∃ t2, match realtime with
        | Some item => insert_realtime_item (Z.of_N from) fallback item t1 | None => Ok t1 end = Ok t2) as [t2 ->].
      { destruct realtime as [item|]; [|by eexists]. destruct Hrt as [ms ->]; [by eexists|].
        apply insert_realtime_item_total. rewrite Er. apply Hok. }
      simpl. rewrite (proj2 (Z.ltb_lt _ _)) by lia. exists t2, (from + 1)%N. split; [do 2 f_equal; lia|done].
    - destruct Hc as (-> & ? & Hc). pose proof (chained_le _ _ _ Hc). rewrite !sqlite_integer_total by lia. simpl.
      rewrite Z.eqb_refl. simpl. rewrite (proj2 (Z.leb_gt _ _)) by lia. by exists t, last. }
  cbn [apply_steps]. rewrite Hmid. simpl. apply (IH next mid); [done..|]. by eapply apply_step_ok.
Qed.
End writing.
