(* ===== verification/HistoryStoreSpec.v ===== *)
(** What the store of thread histories promises: its tables are the projection of a
    prefix of the rollout file in whole lines, for every interleaving of writers,
    materializing workers and deletions. *)

From S2P Require Import Prelude Utf8 AbsolutePath PathUris OutputTruncation History CoreItems ThreadItems ThreadHistory.
From S2P Require Import HistoryStore HistoryStoreProps PathUriExample ThreadHistorySpec.

#[local] Opaque str.

Section spec.
Context {FU : FileUrls} {PE : PathEnv} {HT : HistoryTools} {ST : StoreTools}.
Context (meta : SessionMeta) (thread_id : ThreadId).

(** The reference: all lines in one pass over empty tables *)
Definition project_file (bytes : list N) : result ThreadStoreError thread_history :=
  if is_empty bytes then Ok empty_history
  else
    initial ← sqlite_integer (initial_ordinal meta);
    st ← read_lines (subagent_history_start_ordinal meta) (mkReadState [] (initial_ordinal meta) 0)
           (split_inclusive bytes);
    '(t, next) ← apply_steps (empty_tables, initial) (rs_projections st);
    offset ← sqlite_integer (rs_offset st);
    Ok (mkThreadHistory t (Some (offset, next))).
(** The checkpoint of a history: the byte offset and the ordinal to go on from *)
Definition checkpoint (h : thread_history) : N * N :=
  match th_state h with
  | Some (offset, ordinal) => (Z.to_N offset, Z.to_N ordinal)
  | None => (0%N, initial_ordinal meta)
  end.
(** The history is the projection of the lines in the first bytes of the file. *)
Definition projects_prefix (file : list N) (h : thread_history) : Prop :=
  ∃ bytes, bytes `prefix_of` file ∧ newline_ended bytes ∧ project_file bytes = Ok h.

Lemma project_file_nil : project_file [] = Ok empty_history.
Proof. done. Qed.
Lemma project_file_inv (bytes : list N) (h : thread_history) :
  project_file bytes = Ok h → bytes ≠ [] →
  ∃ st t, read_lines (subagent_history_start_ordinal meta) (mkReadState [] (initial_ordinal meta) 0)
      (split_inclusive bytes) = Ok st
    ∧ apply_steps (empty_tables, Z.of_N (initial_ordinal meta)) (rs_projections st) = Ok (t, Z.of_N (rs_next_ordinal st))
    ∧ rs_offset st = N.of_nat (length bytes) ∧ (initial_ordinal meta < 2 ^ 63)%N ∧ (rs_offset st < 2 ^ 63)%N
    ∧ h = mkThreadHistory t (Some (Z.of_N (rs_offset st), Z.of_N (rs_next_ordinal st))).
Proof.
  intros H Hne. unfold project_file in H.
  destruct (is_empty bytes) eqn:E; [by apply is_empty_true in E|]. apply result_bind_Ok in H as (i & [-> Hi]%sqlite_integer_ok & H).
  apply result_bind_Ok in H as (st & Hst & H). apply result_bind_Ok in H as ([t next] & Ht & H).
  apply result_bind_Ok in H as (offset & [-> Ho]%sqlite_integer_ok & H). inv_ok.
  pose proof (read_lines_ok _ _ _ _ Hst) as (Hf & steps & Hsteps & Hc & _). simpl in Hf, Hsteps, Hc.
  rewrite concat_split_inclusive in Hf. rewrite <- Hsteps in Hc.
  pose proof (apply_steps_chained _ _ _ _ _ _ Hc Ht) as ->. by exists st, t.
Qed.
Lemma tables_ok_empty (next : Z) : tables_ok next empty_tables.
Proof. split; [split; [apply ordinals_ok_empty..|apply map_Forall_empty]|apply ordinals_ok_empty]. Qed.
Lemma project_file_tables (bytes : list N) (h : thread_history) :
  project_file bytes = Ok h → tables_ok (Z.of_N (checkpoint h).2) (th_tables h).
Proof.
  intros H. destruct (decide (bytes = [])) as [->|Hne].
  { rewrite project_file_nil in H. inv_ok. apply tables_ok_empty. }
  destruct (project_file_inv _ _ H Hne) as (st & t & Hst & Ht & _ & _ & _ & ->). simpl. rewrite N2Z.id.
  pose proof (read_lines_ok _ _ _ _ Hst) as (_ & steps & Hsteps & _ & Hok). simpl in Hsteps. rewrite <- Hsteps in Hok.
  eapply apply_steps_ok; [done|apply tables_ok_empty|done].
Qed.
Lemma project_file_checkpoint (bytes : list N) (h : thread_history) :
  project_file bytes = Ok h → (checkpoint h).1 = N.of_nat (length bytes).
Proof.
  intros H. destruct (decide (bytes = [])) as [->|Hne]; [rewrite project_file_nil in H; by inv_ok|].
  destruct (project_file_inv _ _ H Hne) as (st & t & _ & _ & Hf & _ & _ & ->). simpl. by rewrite N2Z.id.
Qed.

(** Going on from a checkpoint with the bytes that follow *)
Definition resume (h : thread_history) (bytes : list N) : result ThreadStoreError thread_history :=
  let '(offset, ordinal) := checkpoint h in
  st ← read_lines (subagent_history_start_ordinal meta) (mkReadState [] ordinal offset) (split_inclusive bytes);
  '(t, next) ← apply_steps (th_tables h, Z.of_N ordinal) (rs_projections st);
  offset ← sqlite_integer (rs_offset st);
  Ok (mkThreadHistory t (Some (offset, next))).
Lemma resume_projects (before after : list N) (h h' : thread_history) :
  newline_ended before → after ≠ [] → (initial_ordinal meta < 2 ^ 63)%N →
  project_file before = Ok h → resume h after = Ok h' → project_file (before ++ after) = Ok h'.
Proof.
  intros He Hne Hi H Hr. unfold project_file.
  destruct (is_empty (before ++ after)) eqn:E; [by apply is_empty_true, app_nil in E as [_ ?]|clear E].
  rewrite sqlite_integer_total by done. cbn [mbind result_bind].
  destruct (decide (before = [])) as [->|Hb]; [rewrite project_file_nil in H; by inv_ok|].
  destruct (project_file_inv _ _ H Hb) as (st & t & Hst & Ht & Hf & _ & Ho & ->).
  unfold resume in Hr. simpl in Hr. rewrite !N2Z.id in Hr.
  rewrite split_inclusive_app, read_lines_app, Hst by done. simpl.
  assert (st = prepend (rs_projections st) (mkReadState [] (rs_next_ordinal st) (rs_offset st))) as ->
    by (destruct st; unfold prepend; simpl; by rewrite app_nil_r).
  rewrite read_lines_prepend. destruct (read_lines _ _ (split_inclusive after)) as [st'|]; [|done]. simpl in *.
  rewrite apply_steps_app, Ht. exact Hr.
Qed.

(** ** The phases of a materialization *)

Lemma projection_state_checkpoint (db : database) (state : option (N * N)) :
  projection_state db thread_id = Ok state →
  (match state with Some (offset, _) => offset | None => 0%N end) = (checkpoint (history_of db thread_id)).1
  ∧ (match state with Some (_, ordinal) => ordinal | None => initial_ordinal meta end)
    = (checkpoint (history_of db thread_id)).2.
Proof.
  unfold projection_state, checkpoint. destruct (th_state _) as [[offset ordinal]|]; [|intros; by inv_ok].
  unfold u64_from. destruct (offset <? 0)%Z, (ordinal <? 0)%Z; simpl; intros; by inv_ok.
Qed.
Lemma projection_state_total (bytes : list N) (db : database) :
  project_file bytes = Ok (history_of db thread_id) → ∃ state, projection_state db thread_id = Ok state
    ∧ (state = None → history_of db thread_id = empty_history).
Proof.
  intros H. unfold projection_state. destruct (decide (bytes = [])) as [->|Hne].
  { rewrite project_file_nil in H. injection H as <-. by eexists. }
  destruct (project_file_inv _ _ H Hne) as (st & t & _ & _ & _ & _ & _ & ->). simpl. unfold u64_from.
  rewrite !(proj2 (Z.ltb_ge _ _)) by lia. by eexists.
Qed.
Lemma read_projection_steps_split (before rest : list N) (ordinal : N) (steps : list RolloutProjectionStep)
    (next : N) :
  read_projection_steps (FileBytes (before ++ rest)) (N.of_nat (length before)) ordinal
    (subagent_history_start_ordinal meta) = Ok (steps, next) ↔
  ∃ st, read_lines (subagent_history_start_ordinal meta) (mkReadState [] ordinal (N.of_nat (length before)))
          (split_inclusive (complete rest)) = Ok st ∧ steps = rs_projections st ∧ next = rs_offset st.
Proof.
  unfold read_projection_steps. rewrite length_app, Nat2N.id, drop_app_length.
  destruct (N.ltb_spec (N.of_nat (length before + length rest)) (N.of_nat (length before))); [lia|].
  unfold complete, complete_count. split.
  - intros H'. inv_ok. by eexists.
  - intros (st & -> & -> & ->). done.
Qed.
Lemma apply_projection_ok (before : list N) (db db' : database) (start next : N) (steps : list RolloutProjectionStep) :
  project_file before = Ok (history_of db thread_id) →
  apply_projection db thread_id start next (initial_ordinal meta) steps = Ok db' →
  start = N.of_nat (length before) ∧ (initial_ordinal meta < 2 ^ 63)%N
  ∧ ∃ t ordinal, apply_steps (th_tables (history_of db thread_id), Z.of_N (checkpoint (history_of db thread_id)).2)
                   steps = Ok (t, ordinal)
    ∧ (next < 2 ^ 63)%N ∧ db' = <[thread_id := mkThreadHistory t (Some (Z.of_N next, ordinal))]> db.
Proof.
  intros Hp H. pose proof (project_file_checkpoint _ _ Hp) as Hlen. unfold apply_projection in H. cbn zeta in H.
  apply result_bind_Ok in H as ([expected ordinal] & He & H).
  apply result_bind_Ok in H as (s & [-> Hs]%sqlite_integer_ok & H).
  destruct (expected =? Z.of_N start)%Z eqn:Eo; simpl in H; [apply Z.eqb_eq in Eo; subst|done].
  apply result_bind_Ok in H as ([t n] & Ht & H).
  apply result_bind_Ok in H as (o & [-> Ho]%sqlite_integer_ok & H). inv_ok.
  assert (Z.of_N start = Z.of_N (checkpoint (history_of db thread_id)).1
    ∧ ordinal = Z.of_N (checkpoint (history_of db thread_id)).2 ∧ (initial_ordinal meta < 2 ^ 63)%N)
    as (Hstart & -> & Hi); [|split; [lia|]; split; [done|]; by exists t, n].
  destruct (decide (before = [])) as [->|Hne].
  - rewrite project_file_nil in Hp. injection Hp as Hp. rewrite <- Hp in *. simpl in *. inv_ok. match goal with H : sqlite_integer _ = _ |- _ => apply sqlite_integer_ok in H as [-> ?] end.
    done.
  - destruct (project_file_inv _ _ Hp Hne) as (st & t' & _ & _ & _ & Hi & _ & E). rewrite E in *. simpl in *.
    inv_ok. rewrite !N2Z.id. done.
Qed.
Lemma project_file_ordinal (bytes : list N) (h : thread_history) :
  project_file bytes = Ok h → (initial_ordinal meta < 2 ^ 63)%N → ordinals_below (2 ^ 63) (split_inclusive bytes) →
  ((checkpoint h).2 < 2 ^ 63)%N.
Proof.
  intros H Hi Hord. destruct (decide (bytes = [])) as [->|Hne].
  { rewrite project_file_nil in H. by injection H as <-. }
  destruct (project_file_inv _ _ H Hne) as (st & t & Hst & _ & Hf & _ & Hlt & ->). simpl. rewrite N2Z.id.
  edestruct (read_lines_total (subagent_history_start_ordinal meta) (mkReadState [] (initial_ordinal meta) 0)
    (split_inclusive bytes) (2 ^ 63)) as (st' & Hst' & ?); [done| |done..|congruence].
  rewrite concat_split_inclusive. simpl. unfold u64_limit. lia.
Qed.
Lemma apply_projection_total (before : list N) (db : database) (next : N) (steps : list RolloutProjectionStep)
    (t : thread_tables) (n : Z) :
  project_file before = Ok (history_of db thread_id) →
  apply_steps (th_tables (history_of db thread_id), Z.of_N (checkpoint (history_of db thread_id)).2) steps = Ok (t, n) →
  (initial_ordinal meta < 2 ^ 63)%N → (next < 2 ^ 63)%N → (N.of_nat (length before) < 2 ^ 63)%N →
  ∃ db', apply_projection db thread_id (N.of_nat (length before)) next (initial_ordinal meta) steps = Ok db'.
Proof.
  intros Hp Ht Hi Hn Hb. unfold apply_projection. cbn zeta.
  assert (match th_state (history_of db thread_id) with
    | Some state => Ok state | None => initial ← sqlite_integer (initial_ordinal meta); Ok (0%Z, initial) end
    = Ok (Z.of_N (N.of_nat (length before)), Z.of_N (checkpoint (history_of db thread_id)).2)) as ->.
  { destruct (decide (before = [])) as [->|Hne].
    - rewrite project_file_nil in Hp. injection Hp as <-. simpl. by rewrite sqlite_integer_total.
    - destruct (project_file_inv _ _ Hp Hne) as (st & t' & _ & _ & Hf & _ & _ & ->). simpl. by rewrite <- Hf, N2Z.id. }
  simpl. rewrite !sqlite_integer_total by done. simpl. rewrite Z.eqb_refl. simpl. rewrite Ht. by eexists.
Qed.
Lemma history_of_insert (db : database) (h : thread_history) : history_of (<[thread_id := h]> db) thread_id = h.
Proof. unfold history_of. transitivity (default empty_history (Some h)); [f_equal; apply lookup_insert_eq|done]. Qed.
(** A commit of what was read after the prefix that the tables hold *)
Lemma commit_projects (before after : list N) (db db' : database) (start : N) (st : read_state) :
  newline_ended before → after ≠ [] → project_file before = Ok (history_of db thread_id) →
  read_lines (subagent_history_start_ordinal meta)
    (mkReadState [] (checkpoint (history_of db thread_id)).2 (N.of_nat (length before))) (split_inclusive after) = Ok st →
  apply_projection db thread_id start (rs_offset st) (initial_ordinal meta) (rs_projections st) = Ok db' →
  project_file (before ++ after) = Ok (history_of db' thread_id)
  ∧ ∀ other, other ≠ thread_id → db' !! other = db !! other.
Proof.
  intros He Hne Hp Hst H. destruct (apply_projection_ok _ _ _ _ _ _ Hp H) as (_ & Hi & t & n & Ht & Ho & ->).
  split; [rewrite history_of_insert|intros other Hother; by apply lookup_insert_ne]. eapply resume_projects; [done..|].
  unfold resume. pose proof (project_file_checkpoint _ _ Hp) as Hlen.
  destruct (checkpoint (history_of db thread_id)) as [offset ordinal]; simpl in *. rewrite Hlen, Hst. simpl.
  rewrite Ht. simpl. by rewrite sqlite_integer_total.
Qed.

Lemma materialize_phases (bytes file : list N) (db : database) (off ord : N) :
  read_session_meta_line (FileBytes file) = Ok meta →
  project_file bytes = Ok (history_of db thread_id) → checkpoint (history_of db thread_id) = (off, ord) →
  materialize_to_sqlite_with_state_db db thread_id (FileBytes file)
  = ('(steps, next) ← read_projection_steps (FileBytes file) off ord (subagent_history_start_ordinal meta);
     if is_empty steps && (off =? next)%N then Ok db
     else apply_projection db thread_id off next (initial_ordinal meta) steps).
Proof.
  intros Hm H Hc. destruct (projection_state_total _ _ H) as (state & Hs & _).
  apply projection_state_checkpoint in Hs as Hs'. rewrite Hc in Hs'.
  cbn [fst snd] in Hs'. destruct Hs' as [<- <-].
  unfold materialize_to_sqlite_with_state_db. rewrite Hs, Hm. by destruct state as [[]|].
Qed.
Lemma materialize_projects (file : list N) (db db' : database) :
  read_session_meta_line (FileBytes file) = Ok meta →
  projects_prefix file (history_of db thread_id) →
  materialize_to_sqlite_with_state_db db thread_id (FileBytes file) = Ok db' →
  project_file (complete file) = Ok (history_of db' thread_id) ∧ ∀ other, other ≠ thread_id → db' !! other = db !! other.
Proof.
  intros Hm (before & [rest ->] & He & Hp) H. destruct (checkpoint (history_of db thread_id)) as [off ord] eqn:Hc.
  pose proof (project_file_checkpoint _ _ Hp) as Hlen. rewrite Hc in Hlen. simpl in Hlen. subst off.
  rewrite (materialize_phases _ _ _ _ _ Hm Hp Hc) in H.
  apply result_bind_Ok in H as ([steps next] & (st & Hst & -> & ->)%read_projection_steps_split & H).
  rewrite complete_app by done. destruct (decide (complete rest = [])) as [Hrest|Hrest].
  - rewrite Hrest in *. simpl in Hst. inv_ok. simpl in H. rewrite N.eqb_refl in H. inv_ok. by rewrite app_nil_r.
  - pose proof (read_lines_ok _ _ _ _ Hst) as (Hf & _). simpl in Hf. rewrite concat_split_inclusive in Hf.
    assert (length (complete rest) ≠ 0) by (intros ?%nil_length_inv; done).
    replace (N.of_nat (length before) =? rs_offset st)%N with false in H by (symmetry; apply N.eqb_neq; lia).
    rewrite andb_false_r in H. eapply commit_projects; [done..| |done]. by rewrite Hc.
Qed.
Lemma materialize_total `{SL : !SerializerLaws} (file : list N) (db : database) :
  read_session_meta_line (FileBytes file) = Ok meta →
  projects_prefix file (history_of db thread_id) → (N.of_nat (length file) < 2 ^ 63)%N →
  (initial_ordinal meta < 2 ^ 63)%N → ordinals_below (2 ^ 63) (split_inclusive (complete file)) →
  ∃ db', materialize_to_sqlite_with_state_db db thread_id (FileBytes file) = Ok db'.
Proof.
  intros Hm (before & [rest ->] & He & Hp) Hsize Hi Hord.
  destruct (checkpoint (history_of db thread_id)) as [off ord] eqn:Hc.
  pose proof (project_file_checkpoint _ _ Hp) as Hlen. rewrite Hc in Hlen. simpl in Hlen. subst off.
  rewrite (materialize_phases _ _ _ _ _ Hm Hp Hc).
  pose proof (project_file_tables _ _ Hp) as Hok. rewrite Hc in Hok. simpl in Hok.
  rewrite complete_app, split_inclusive_app in Hord by done. rewrite length_app in Hsize.
  pose proof (prefix_length _ _ (complete_prefix rest)) as Hpre.
  assert ((ord < 2 ^ 63)%N) as Hord63.
  { rewrite <- (f_equal snd Hc : _ = ord). eapply project_file_ordinal; [done..|]. intros l o Hin. apply Hord.
    apply elem_of_app. by left. }
  edestruct (read_lines_total (subagent_history_start_ordinal meta)
    (mkReadState [] ord (N.of_nat (length before))) (split_inclusive (complete rest)) (2 ^ 63))
    as (st & Hst & Hnext); [done|rewrite concat_split_inclusive; simpl; unfold u64_limit; lia|done|..].
  { intros l o Hin. apply Hord. apply elem_of_app. by right. }
  rewrite (proj2 (read_projection_steps_split _ _ _ _ _) (ex_intro _ st (conj Hst (conj eq_refl eq_refl)))). simpl.
  case_match; [by eexists|]. pose proof (read_lines_ok _ _ _ _ Hst) as (Hf & steps & Hsteps & Hch & Hok').
  simpl in Hf, Hsteps, Hch. rewrite concat_split_inclusive in Hf. rewrite <- Hsteps in *.
  destruct (apply_steps_total (rs_offset st) ord (rs_next_ordinal st) (rs_projections st)
    (th_tables (history_of db thread_id))) as [t Ht]; [lia|done..|].
  eapply apply_projection_total; [done|by rewrite Hc|done|lia|lia].
Qed.

(** ** Interleaved workers *)

(** The rollout begins with lines that have the session metadata: the recorder writes
    them before everything else. *)
Context (head : list N) (Hended : newline_ended head) (Hmeta : read_session_meta_line (FileBytes head) = Ok meta).
Definition headed (file : list N) : Prop := head `prefix_of` file.
Lemma headed_meta (file : list N) : headed file → read_session_meta_line (FileBytes file) = Ok meta.
Proof. intros [more ->]. by apply read_session_meta_line_app. Qed.

(** A worker has read the checkpoint, then the metadata of the file, then also the
    lines of the file after the checkpoint. *)
Inductive worker :=
| Checkpointed (state : option (N * N))
| Loaded (start_offset expected_ordinal : N) (session_meta : SessionMeta)
| Ready (start_offset next_offset : N) (session_meta : SessionMeta) (projections : list RolloutProjectionStep).
(** The rollout file, the database and the workers of this thread *)
Record store_system := mkSystem { sys_file : list N; sys_db : database; sys_workers : gmap nat worker }.

(** One step: the rollout grows, where the first write has the session metadata; a
    worker reads the checkpoint, the metadata and the file or commits its transaction,
    which may fail; it gives up; the thread's rows are deleted; the rows of other
    threads change.  The phases of a worker are those of
    [materialize_to_sqlite_with_state_db]. *)
Inductive store_step : store_system → store_system → Prop :=
| step_append file db workers bytes :
    headed (file ++ bytes) →
    store_step (mkSystem file db workers) (mkSystem (file ++ bytes) db workers)
| step_state file db workers w state :
    projection_state db thread_id = Ok state →
    store_step (mkSystem file db workers) (mkSystem file db (<[w := Checkpointed state]> workers))
| step_meta file db workers w state session_meta :
    workers !! w = Some (Checkpointed state) →
    read_session_meta_line (FileBytes file) = Ok session_meta →
    store_step (mkSystem file db workers)
      (mkSystem file db (<[w := Loaded (match state with Some (offset, _) => offset | None => 0%N end)
         (match state with Some (_, ordinal) => ordinal | None => initial_ordinal session_meta end)
         session_meta]> workers))
| step_read file db workers w offset ordinal session_meta steps next :
    workers !! w = Some (Loaded offset ordinal session_meta) →
    read_projection_steps (FileBytes file) offset ordinal (subagent_history_start_ordinal session_meta)
      = Ok (steps, next) →
    is_empty steps && (offset =? next)%N = false →
    store_step (mkSystem file db workers) (mkSystem file db (<[w := Ready offset next session_meta steps]> workers))
| step_commit file db db' workers w offset session_meta steps next :
    workers !! w = Some (Ready offset next session_meta steps) →
    apply_projection db thread_id offset next (initial_ordinal session_meta) steps = Ok db' →
    store_step (mkSystem file db workers) (mkSystem file db' (delete w workers))
| step_give_up file db workers w :
    store_step (mkSystem file db workers) (mkSystem file db (delete w workers))
| step_delete file db workers :
    store_step (mkSystem file db workers) (mkSystem file (delete_thread db thread_id) workers)
| step_others file db db' workers :
    history_of db' thread_id = history_of db thread_id →
    store_step (mkSystem file db workers) (mkSystem file db' workers).

(** What a worker holds is about lines of the file, whatever happened since. *)
Definition worker_ok (file : list N) (wk : worker) : Prop :=
  match wk with
  | Checkpointed state =>
      ∃ before h, before `prefix_of` file ∧ newline_ended before ∧ project_file before = Ok h
        ∧ match state with Some (offset, _) => offset | None => 0%N end = N.of_nat (length before)
        ∧ match state with Some (_, ordinal) => ordinal | None => initial_ordinal meta end = (checkpoint h).2
  | Loaded offset ordinal session_meta =>
      session_meta = meta ∧ ∃ before h, before `prefix_of` file ∧ newline_ended before ∧ project_file before = Ok h
        ∧ offset = N.of_nat (length before) ∧ ordinal = (checkpoint h).2
  | Ready offset next session_meta steps =>
      session_meta = meta ∧ ∃ before after h st, before ++ after `prefix_of` file ∧ newline_ended before ∧ newline_ended after
        ∧ after ≠ [] ∧ project_file before = Ok h ∧ offset = N.of_nat (length before)
        ∧ read_lines (subagent_history_start_ordinal meta) (mkReadState [] (checkpoint h).2 offset)
            (split_inclusive after) = Ok st
        ∧ steps = rs_projections st ∧ next = rs_offset st
  end.
Definition system_ok (s : store_system) : Prop :=
  (sys_file s = [] ∨ headed (sys_file s))
  ∧ projects_prefix (sys_file s) (history_of (sys_db s) thread_id)
  ∧ map_Forall (λ _, worker_ok (sys_file s)) (sys_workers s).

Lemma worker_ok_append (file bytes : list N) (wk : worker) : worker_ok file wk → worker_ok (file ++ bytes) wk.
Proof.
  destruct wk; simpl.
  - intros (before & h & Hp & ?). exists before, h. split; [by apply prefix_app_r|done].
  - intros (-> & before & h & Hp & ?). split; [done|]. exists before, h. split; [by apply prefix_app_r|done].
  - intros (-> & before & after & h & st & Hp & ?). split; [done|]. exists before, after, h, st.
    split; [by apply prefix_app_r|done].
Qed.
Lemma same_length_prefix (a b file : list N) :
  a `prefix_of` file → b `prefix_of` file → length a = length b → a = b.
Proof. intros [x ->] [y Hy] Hlen. by apply (app_inj_1 _ _ _ _ Hlen) in Hy as [-> _]. Qed.
Lemma read_step_ok (file : list N) (offset ordinal next : N) (steps : list RolloutProjectionStep) :
  worker_ok file (Loaded offset ordinal meta) →
  read_projection_steps (FileBytes file) offset ordinal (subagent_history_start_ordinal meta) = Ok (steps, next) →
  is_empty steps && (offset =? next)%N = false → worker_ok file (Ready offset next meta steps).
Proof.
  intros (_ & before & h & [rest ->] & He & Hp & -> & ->) H Hne.
  apply read_projection_steps_split in H as (st & Hst & -> & ->).
  split; [done|]. exists before, (complete rest), h, st. split_and!; try done.
  - apply prefix_app, complete_prefix.
  - apply complete_newline_ended.
  - intros Hrest. rewrite Hrest in Hst. simpl in Hst. inv_ok. simpl in Hne. by rewrite N.eqb_refl in Hne.
Qed.
Lemma commit_step_ok (file : list N) (db db' : database) (offset next : N) (steps : list RolloutProjectionStep) :
  projects_prefix file (history_of db thread_id) → worker_ok file (Ready offset next meta steps) →
  apply_projection db thread_id offset next (initial_ordinal meta) steps = Ok db' →
  projects_prefix file (history_of db' thread_id).
Proof.
  intros (held & Hheld & _ & Hproj) (_ & before & after & h & st & Hpre & He & Ha & Hne & Hp & -> & Hst & -> & ->) H.
  pose proof (apply_projection_ok _ _ _ _ _ _ Hproj H) as (Hlen & _).
  assert (held = before) as ->.
  { eapply same_length_prefix; [done| |lia]. by eapply prefix_app_l. }
  rewrite Hproj in Hp. injection Hp as <-.
  exists (before ++ after). split_and!; [done|by apply newline_ended_app|]. by eapply commit_projects.
Qed.
Lemma store_step_ok (s s' : store_system) : store_step s s' → system_ok s → system_ok s'.
Proof.
  intros Hstep (Hs & Hp & Hw). destruct Hstep; unfold system_ok in *; simpl in *.
  - split; [by right|]. split; [|by eapply map_Forall_impl; [done|]; intros; by apply worker_ok_append].
    destruct Hp as (b & Hb & ?). exists b. split; [by apply prefix_app_r|done].
  - split_and!; [done..|]. apply map_Forall_insert_2; [|done]. destruct Hp as (b & Hb & He & Hpf).
    apply projection_state_checkpoint in H as [H1 H2]. exists b, (history_of db thread_id).
    by rewrite <- (project_file_checkpoint _ _ Hpf).
  - split_and!; [done..|]. apply map_Forall_insert_2; [|done].
    assert (session_meta = meta) as -> by (destruct Hs as [->|Hs%headed_meta]; [done|simpl in Hs; congruence]).
    destruct (Hw w _ H) as (b & h & Hb & He & Hpf & -> & ->). split; [done|]. by exists b, h.
  - split_and!; [done..|]. apply map_Forall_insert_2; [|done]. pose proof (Hw w _ H) as Hwk.
    destruct (Hwk) as [-> _]. by eapply read_step_ok.
  - pose proof (Hw w _ H) as Hwk. destruct (Hwk) as [-> _].
    split_and!; [done| |by apply map_Forall_delete]. by eapply commit_step_ok.
  - split_and!; [done..|by apply map_Forall_delete].
  - split_and!; [done| |done]. unfold delete_thread. rewrite history_of_insert. exists [].
    split_and!; [apply prefix_nil|by left|apply project_file_nil].
  - by rewrite H.
Qed.
Lemma store_run_ok (s s' : store_system) : rtc store_step s s' → system_ok s → system_ok s'.
Proof. induction 1; eauto using store_step_ok. Qed.
(** A materialization without interleaving is a run of the system. *)
Lemma materialize_run (file : list N) (db db' : database) :
  read_session_meta_line (FileBytes file) = Ok meta →
  projects_prefix file (history_of db thread_id) →
  materialize_to_sqlite_with_state_db db thread_id (FileBytes file) = Ok db' →
  rtc store_step (mkSystem file db ∅) (mkSystem file db' ∅).
Proof.
  intros Hm (before & _ & _ & Hp) H. destruct (checkpoint (history_of db thread_id)) as [off ord] eqn:Hc.
  rewrite (materialize_phases _ _ _ _ _ Hm Hp Hc) in H. apply result_bind_Ok in H as ([steps next] & Hr & H).
  destruct (is_empty steps && (off =? next)%N) eqn:E; [inv_ok; done|].
  destruct (projection_state_total _ _ Hp) as (state & Hs & _).
  pose proof (projection_state_checkpoint _ _ Hs) as [Ho Hn]. rewrite Hc in Ho, Hn. simpl in Ho, Hn.
  eapply rtc_l; [by apply (step_state _ _ _ 0)|].
  eapply rtc_l; [by eapply (step_meta _ _ _ 0); [apply lookup_insert_eq|]|]. rewrite Ho, Hn, insert_insert_eq.
  eapply rtc_l; [by eapply (step_read _ _ _ 0); [apply lookup_insert_eq|..]|].
  rewrite insert_insert_eq. eapply rtc_l; [by eapply (step_commit _ _ _ _ 0); [apply lookup_insert_eq|]|].
  by rewrite delete_insert_eq.
Qed.

(** The start: no rows of the thread and no worker; the file is empty or begins with
    the session metadata. *)
Definition fresh (s : store_system) : Prop :=
  (sys_file s = [] ∨ headed (sys_file s)) ∧ history_of (sys_db s) thread_id = empty_history ∧ sys_workers s = ∅.
Lemma fresh_ok (s : store_system) : fresh s → system_ok s.
Proof.
  intros (Hs & Hh & Hw). split; [done|]. split; [|rewrite Hw; apply map_Forall_empty]. rewrite Hh. exists [].
  split_and!; [apply prefix_nil|by left|apply project_file_nil].
Qed.

(** C3: However writers, of which the first writes the session metadata,
    materializing workers and deletions interleave, the rows of the thread are those
    that one pass over the whole lines of a prefix of the rollout file writes, and the
    checkpoint is the end of that prefix. *)
Theorem store_is_projection_of_prefix (s s' : store_system) :
  fresh s → rtc store_step s s' →
  ∃ bytes, bytes `prefix_of` sys_file s' ∧ newline_ended bytes
    ∧ project_file bytes = Ok (history_of (sys_db s') thread_id)
    ∧ (checkpoint (history_of (sys_db s') thread_id)).1 = N.of_nat (length bytes).
Proof.
  intros Hf Hr. destruct (store_run_ok _ _ Hr (fresh_ok _ Hf)) as (_ & (bytes & Hp & He & H) & _).
  exists bytes. split_and!; [done..|by apply project_file_checkpoint].
Qed.

(** C4: After every run the thread can be materialized, once the rollout file has
    its session metadata: whatever bytes follow, no line makes the transaction fail,
    and afterwards the tables are the projection of all complete lines. The file and
    the ordinals are within SQLite's integers, and the serializers work as
    documented. Before that, the file being empty, it fails and says so. *)
Theorem materialization_catches_up `{SL : !SerializerLaws} (s s' : store_system) :
  fresh s → rtc store_step s s' →
  (sys_file s' = [] → materialize_to_sqlite true (sys_db s') thread_id (FileBytes (sys_file s')) = Err RolloutIsEmpty)
  ∧ (sys_file s' ≠ [] → (N.of_nat (length (sys_file s')) < 2 ^ 63)%N → (initial_ordinal meta < 2 ^ 63)%N →
     ordinals_below (2 ^ 63) (split_inclusive (complete (sys_file s'))) →
     ∃ db', materialize_to_sqlite true (sys_db s') thread_id (FileBytes (sys_file s')) = Ok db'
       ∧ project_file (complete (sys_file s')) = Ok (history_of db' thread_id)).
Proof.
  intros Hf Hr. destruct (store_run_ok _ _ Hr (fresh_ok _ Hf)) as (Hs & Hp & _). split.
  - intros ->. destruct Hp as (bytes & _ & _ & H). destruct (projection_state_total _ _ H) as (state & Hst & _).
    simpl. unfold materialize_to_sqlite_with_state_db. rewrite Hst. by destruct state as [[]|].
  - intros Hne Hsize Hi Ho. destruct Hs as [?|Hm%headed_meta]; [done|].
    destruct (materialize_total _ _ Hm Hp Hsize Hi Ho) as [db' H]. exists db'. split; [done|].
    by eapply materialize_projects.
Qed.

(** C20: In every run the rows of a thread are well formed: ordinals are below
    the checkpoint and name one turn, one item and one realtime item each; a
    turn is in progress exactly while it has no end; the items that its summary
    names are rows of that turn. *)
Theorem stored_rows_well_formed (s s' : store_system) :
  fresh s → rtc store_step s s' →
  tables_ok (Z.of_N (checkpoint (history_of (sys_db s') thread_id)).2) (th_tables (history_of (sys_db s') thread_id)).
Proof.
  intros Hf Hr. destruct (store_run_ok _ _ Hr (fresh_ok _ Hf)) as (_ & (bytes & _ & _ & H) & _).
  by eapply project_file_tables.
Qed.

Lemma materialize_extends (file : list N) (db db' : database) :
  read_session_meta_line (FileBytes file) = Ok meta →
  projects_prefix file (history_of db thread_id) →
  materialize_to_sqlite_with_state_db db thread_id (FileBytes file) = Ok db' →
  extends (th_tables (history_of db thread_id)) (th_tables (history_of db' thread_id)).
Proof.
  intros Hm (before & [rest ->] & He & Hp) H. destruct (checkpoint (history_of db thread_id)) as [off ord] eqn:Hc.
  pose proof (project_file_checkpoint _ _ Hp) as Hlen. rewrite Hc in Hlen. simpl in Hlen. subst off.
  rewrite (materialize_phases _ _ _ _ _ Hm Hp Hc) in H.
  apply result_bind_Ok in H as ([steps next] & (st & Hst & -> & ->)%read_projection_steps_split & H).
  destruct (is_empty (rs_projections st) && _); [by inv_ok|].
  destruct (apply_projection_ok _ _ _ _ _ _ Hp H) as (_ & _ & t & n & Ht & _ & ->). rewrite history_of_insert. simpl.
  pose proof (read_lines_ok _ _ _ _ Hst) as (_ & steps & Hsteps & _ & Hok). simpl in Hsteps. rewrite <- Hsteps in Hok.
  eapply (apply_steps_ok _ _ _ _ _ _ Hok); [by apply project_file_tables with before|done].
Qed.
(** C21: A materialization keeps what it wrote before: a turn that has ended
    keeps all of its row, an open turn its position, an item its position and
    creation time, a realtime item all of its row. *)
Theorem materialized_rows_persist (s s' : store_system) (db' : database) :
  fresh s → rtc store_step s s' →
  materialize_to_sqlite true (sys_db s') thread_id (FileBytes (sys_file s')) = Ok db' →
  extends (th_tables (history_of (sys_db s') thread_id)) (th_tables (history_of db' thread_id)).
Proof.
  intros Hf Hr H. destruct (store_run_ok _ _ Hr (fresh_ok _ Hf)) as (Hs & Hp & _).
  destruct Hs as [Hs|Hm%headed_meta]; [|by eapply materialize_extends].
  destruct Hp as (bytes & _ & _ & Hp). destruct (projection_state_total _ _ Hp) as (state & Hst & _).
  simpl in H. unfold materialize_to_sqlite_with_state_db in H. rewrite Hst, Hs in H. by destruct state as [[]|].
Qed.

Lemma materialize_fresh (file : list N) (db : database) (h : thread_history) :
  read_session_meta_line (FileBytes file) = Ok meta →
  history_of db thread_id = empty_history → project_file (complete file) = Ok h →
  ∃ db', materialize_to_sqlite_with_state_db db thread_id (FileBytes file) = Ok db'
    ∧ history_of db' thread_id = h.
Proof.
  intros Hm Hdb Hp. assert (project_file [] = Ok (history_of db thread_id)) as Hnil by by rewrite Hdb.
  rewrite (materialize_phases [] file db 0 (initial_ordinal meta) Hm Hnil) by by rewrite Hdb.
  destruct (decide (complete file = [])) as [Hc|Hc].
  - rewrite Hc, project_file_nil in Hp. injection Hp as <-. exists db. split; [|done].
    rewrite (proj2 (read_projection_steps_split [] file _ [] 0)); [done|]. rewrite Hc. simpl. by eexists.
  - destruct (project_file_inv _ _ Hp Hc) as (st & t & Hst & Ht & Hf & Hi & Ho & ->).
    rewrite (proj2 (read_projection_steps_split [] file _ (rs_projections st) (rs_offset st))) by by exists st.
    unfold mbind, result_bind. assert (length (complete file) ≠ 0) by (intros ?%nil_length_inv; done).
    destruct (is_empty _ && _) eqn:E; [apply andb_true_iff in E as [_ E%N.eqb_eq]; lia|].
    edestruct (apply_projection_total [] db (rs_offset st) (rs_projections st)) as [db' Hdb']; [done| |done|done|done|].
    { rewrite Hdb. exact Ht. }
    exists db'. split; [exact Hdb'|].
    destruct (apply_projection_ok _ _ _ _ _ _ Hnil Hdb') as (_ & _ & t' & n & Ht' & _ & ->).
    rewrite history_of_insert. rewrite Hdb in Ht'.
    change (apply_steps (empty_tables, Z.of_N (initial_ordinal meta)) (rs_projections st) = Ok (t', n)) in Ht'.
    rewrite Ht in Ht'. by injection Ht' as <- <-.
Qed.
End spec.

(** ** Files that grow *)

Section pieces.
Context {FU : FileUrls} {PE : PathEnv} {HT : HistoryTools} {ST : StoreTools} (thread_id : ThreadId).

(** C27: Materializing a rollout file in pieces as it grows gives the rows and
    the checkpoint of one materialization of the whole file, whatever byte the
    pieces are cut at, as long as the first piece has the same session metadata. *)
Theorem materialization_in_pieces (first more : list N) (db db1 db2 : database) :
  read_session_meta_line (FileBytes (first ++ more)) = read_session_meta_line (FileBytes first) →
  history_of db thread_id = empty_history →
  materialize_to_sqlite true db thread_id (FileBytes first) = Ok db1 →
  materialize_to_sqlite true db1 thread_id (FileBytes (first ++ more)) = Ok db2 →
  ∃ db3, materialize_to_sqlite true db thread_id (FileBytes (first ++ more)) = Ok db3
    ∧ history_of db3 thread_id = history_of db2 thread_id.
Proof.
  intros Hsame Hdb H1 H2.
  assert (∃ meta, read_session_meta_line (FileBytes first) = Ok meta) as [m Hm].
  { unfold materialize_to_sqlite, materialize_to_sqlite_with_state_db, projection_state in H1. rewrite Hdb in H1.
    apply result_bind_Ok in H1 as (state & [= <-] & H1). apply result_bind_Ok in H1 as (m & Hm & _). by exists m. }
  rewrite Hm in Hsame. apply (materialize_projects m thread_id) in H1 as [Hp1 _]; [|done|].
  2: { rewrite Hdb. exists []. split_and!; [apply prefix_nil|by left|apply project_file_nil]. }
  apply (materialize_projects m thread_id) in H2 as [Hp2 _]; [by apply (materialize_fresh m thread_id)|done|].
  exists (complete first). split_and!; [by apply prefix_app_r, complete_prefix|apply complete_newline_ended|done].
Qed.
End pieces.

(** ** A concrete rollout *)

(** A small encoding of rollout lines: a letter for the event and a digit for the
    ordinal, or a dash for none; items serialize to a letter for their type and phase. *)
#[local] Existing Instance example_env.
Definition example_event (letter : N) : option (RolloutItem Url) :=
  if (letter =? 115)%N then Some (started "t1")
  else if (letter =? 99)%N then Some (completed "t1")
  else if (letter =? 117)%N then
    Some (RolloutEventMsg (EvItemCompleted (mkItemCompleted [] (str "t1")
      (TurnUserMessage (mkUserMessageItem (str "user-1") None [])) None 0)))
  else if (letter =? 97)%N then
    Some (RolloutEventMsg (EvItemCompleted (mkItemCompleted [] (str "t1")
      (TurnAgentMessage (mkAgentMessageItem (str "agent-1") [] (Some FinalAnswer) None None None)) (Some 7%Z) 9)))
  else if (letter =? 114)%N then Some (RolloutRealtimeItem (mkRealtime (str "rt-1") []))
  else if (letter =? 109)%N then Some (RolloutSessionMeta (mkSessionMeta None None))
  else if (letter =? 102)%N then Some (RolloutSessionMeta (mkSessionMeta (Some 5%N) None))
  else None.
#[local] Instance example_store_tools : StoreTools := {|
  json_from_slice := λ bytes, if existsb (N.eqb 33) bytes then None else Some bytes;
  decode_rollout_line := λ json,
    match json with
    | letter :: digit :: _ =>
        mkRolloutLine (str "1970-01-01T00:00:01Z") (if (digit =? 45)%N then None else Some (digit - 48)%N)
          <$> example_event letter
    | _ => None
    end;
  rfc3339_millis := λ text, if str_eqb text (str "1970-01-01T00:00:01Z") then Some 1000%Z else None;
  item_to_json := λ item,
    Some match item with
         | ItemUserMessage _ _ _ => str "u"
         | ItemAgentMessage _ _ (Some FinalAnswer) _ _ _ => str "f"
         | ItemAgentMessage _ _ _ _ _ _ => str "a"
         | _ => str "o"
         end;
  error_to_json := λ error, Some (str "e");
  realtime_to_json := λ item, Some (str "r");
  json_type := λ json,
    Some (if str_eqb json (str "u") then str "userMessage"
          else if str_eqb json (str "f") || str_eqb json (str "a") then str "agentMessage" else str "other");
  json_phase := λ json, if str_eqb json (str "f") then Some (str "final_answer") else None;
  json_get := λ json key, None;
  json_as_str := λ json, None;
|}.
#[local] Instance example_serializer_laws : SerializerLaws.
Proof. split; [by eexists|..]; intros item; do 2 eexists; split; done. Qed.

Definition example_meta : SessionMeta := mkSessionMeta None None.
Definition example_thread : ThreadId := str "thread".
(** The first line has the session metadata.  The last line is not complete yet; the
    third and the sixth are not records, and ordinal 2 is missing. *)
Definition example_head : list N := str "m-" ++ [10%N].
Definition example_first : list N := example_head ++ str "s0" ++ [10%N] ++ str "!" ++ [10%N] ++ str "u1" ++ [10%N] ++ str "a".
Definition example_more : list N := str "3" ++ [10%N] ++ str "zz" ++ [10%N] ++ str "r4" ++ [10%N] ++ str "c5" ++ [10%N] ++ str "s".
Definition example_db (file : list N) (db : database) : database :=
  match materialize_to_sqlite true db example_thread (FileBytes file) with Ok db => db | Err _ => ∅ end.
Definition example_db1 : database := example_db example_first ∅.
Definition example_db2 : database := example_db (example_first ++ example_more) example_db1.

Example example_turn_row :
  st_turns (th_tables (history_of example_db2 example_thread)) !! str "t1" =
    Some (mkTurnRow 0 3 (Some 5%Z) (Some 23%Z) (str "completed") None None (Some 20%Z) (Some 5%Z)
      (Some (str "user-1")) (Some (str "agent-1")))
  ∧ th_state (history_of example_db2 example_thread) = Some (23%Z, 6%Z).
Proof. vm_compute. done. Qed.

(** Two workers load the same checkpoint; one reads before and one after the rollout
    grows, and the second commits. *)
Definition example_read (file : list N) : list RolloutProjectionStep * N :=
  match read_projection_steps (FileBytes file) 0 0 None with Ok read => read | Err _ => ([], 0%N) end.
Definition example_ready (file : list N) : worker := Ready 0 (example_read file).2 example_meta (example_read file).1.
Definition example_whole : list N := example_first ++ example_more.
Definition example_workers : gmap nat worker :=
  <[2 := example_ready example_whole]> (<[1 := example_ready example_first]>
    (<[2 := Loaded 0 0 example_meta]> (<[1 := Loaded 0 0 example_meta]>
      (<[2 := Checkpointed None]> (<[1 := Checkpointed None]> ∅))))).
Definition example_start : store_system := mkSystem [] ∅ ∅.
Definition example_system : store_system :=
  mkSystem example_whole (example_db example_whole ∅) (delete 2 example_workers).
Lemma example_ended : newline_ended example_head.
Proof. right. by exists (str "m-"). Qed.
Lemma example_head_meta : read_session_meta_line (FileBytes example_head) = Ok example_meta.
Proof. vm_compute. done. Qed.
Lemma example_fresh : fresh example_thread example_head example_start.
Proof. split; [by left|done]. Qed.
Lemma example_headed (rest : list N) : headed example_head (example_first ++ rest).
Proof. unfold headed, example_first. by rewrite <- !app_assoc; apply prefix_app_r. Qed.
Lemma example_read_ok (file : list N) :
  file = example_first ∨ file = example_whole →
  read_projection_steps (FileBytes file) 0 0 (subagent_history_start_ordinal example_meta)
    = Ok ((example_read file).1, (example_read file).2)
  ∧ is_empty (example_read file).1 && (0 =? (example_read file).2)%N = false.
Proof. intros [->| ->]; split; vm_compute; reflexivity. Qed.
Lemma example_run : rtc (store_step example_thread example_head) example_start example_system.
Proof.
  eapply rtc_l; [apply (step_append _ _ [] ∅ ∅ example_first), (example_headed [])|]. simpl.
  eapply rtc_l; [by apply (step_state _ _ _ _ _ 1 None)|].
  eapply rtc_l; [by apply (step_state _ _ _ _ _ 2 None)|].
  eapply rtc_l; [by apply (step_meta _ _ _ _ _ 1 None example_meta)|].
  eapply rtc_l; [by apply (step_meta _ _ _ _ _ 2 None example_meta)|].
  eapply rtc_l; [eapply (step_read _ _ _ _ _ 1 0 0); [done|apply (example_read_ok example_first); by left..]|].
  eapply rtc_l; [apply (step_append _ _ _ _ _ example_more), example_headed|].
  eapply rtc_l; [eapply (step_read _ _ _ _ _ 2 0 0); [done|apply (example_read_ok example_whole); by right..]|].
  apply rtc_once. eapply (step_commit _ _ _ _ _ _ 2 0); [apply lookup_insert_eq|vm_compute; reflexivity].
Qed.

Lemma example_ordinals : ordinals_below (2 ^ 63) (split_inclusive (complete example_whole)).
Proof.
  intros line ordinal Hin Ho.
  assert (Forall (λ line, default 0%N (line_ordinal line) < 10)%N (split_inclusive (complete example_whole))) as Hall
    by (apply (bool_decide_unpack _); vm_compute; exact I).
  rewrite Forall_forall in Hall. specialize (Hall _ Hin). rewrite Ho in Hall. simpl in Hall. lia.
Qed.

Lemma store_is_projection_of_prefix_witness :
  ∃ bytes, bytes `prefix_of` example_whole ∧ newline_ended bytes
    ∧ project_file example_meta bytes = Ok (history_of (sys_db example_system) example_thread)
    ∧ (checkpoint example_meta (history_of (sys_db example_system) example_thread)).1 = N.of_nat (length bytes).
Proof.
  apply (store_is_projection_of_prefix example_meta example_thread example_head example_ended example_head_meta
           example_start example_system example_fresh example_run).
Defined.
Lemma materialization_catches_up_witness :
  ∃ db', materialize_to_sqlite true (sys_db example_system) example_thread (FileBytes example_whole) = Ok db'
    ∧ project_file example_meta (complete example_whole) = Ok (history_of db' example_thread).
Proof.
  apply (materialization_catches_up example_meta example_thread example_head example_ended example_head_meta
           example_start example_system example_fresh example_run); [done|vm_compute; reflexivity|vm_compute; reflexivity|apply example_ordinals].
Defined.
Lemma stored_rows_well_formed_witness :
  tables_ok 6 (th_tables (history_of (sys_db example_system) example_thread)).
Proof.
  pose proof (stored_rows_well_formed example_meta example_thread example_head example_ended example_head_meta
                example_start example_system example_fresh example_run) as H.
  replace 6%Z with (Z.of_N (checkpoint example_meta (history_of (sys_db example_system) example_thread)).2); [exact H|].
  vm_compute; reflexivity.
Defined.
Lemma materialized_rows_persist_witness :
  extends (th_tables (history_of example_db1 example_thread)) (th_tables (history_of example_db2 example_thread)).
Proof.
  apply (materialized_rows_persist example_meta example_thread example_head example_ended example_head_meta example_start
           (mkSystem example_whole example_db1 ∅) example_db2 example_fresh).
  - eapply rtc_l; [apply (step_append _ _ [] ∅ ∅ example_first), (example_headed [])|]. eapply rtc_r.
    + eapply (materialize_run example_meta); [vm_compute; reflexivity| |vm_compute; reflexivity].
      exists []. split_and!; [apply prefix_nil|by left|done].
    + apply (step_append _ _ _ _ _ example_more), example_headed.
  - vm_compute; reflexivity.
Defined.
Lemma materialization_in_pieces_witness :
  ∃ db3, materialize_to_sqlite true ∅ example_thread (FileBytes example_whole) = Ok db3
    ∧ history_of db3 example_thread = history_of example_db2 example_thread.
Proof.
  apply (materialization_in_pieces example_thread example_first example_more ∅ example_db1 example_db2);
    vm_compute; reflexivity.
Defined.
