(* ===== verification/HistoryPaging.v ===== *)
(** Reading a stored thread history in pages: [thread-store/src/local]:
    [rollout_lineage.rs] (the chain of rollouts that a forked thread goes back to),
    [thread_history/segment_paging.rs], [thread_history/read.rs] and
    [thread_history/turn_lookup.rs].

    A query filters the rows of the thread [rollout_id], orders them by a column and
    takes a number of them; the unique indexes leave one order.  Files are the
    record [rollouts]: where they are found, their session meta line and their
    size.  [CursorCodec] has the JSON functions.  Of lineage resolution only the
    [Existing] representation is modelled: [PlainForReference], which locks,
    canonicalizes and copies files, is not. *)

From stdpp Require Import sorting.
From S2P Require Import Prelude AbsolutePath PathUris OutputTruncation History CoreItems ThreadItems ThreadHistory.
From S2P Require Import HistoryStore.

#[local] Opaque str.

(** The kinds of [InvalidRequest], [Unsupported] and [Internal] errors of a read *)
Inductive ReadError :=
| InvalidCursor
| PositionOutsideLineage
| NegativeCursorOrdinal
| PageSizeNotPositive
| PageSizeTooLarge
| OrdinalExceedsRange
| IncrementalReplayOfFork
| UpdateSortNeedsWatermark
| UpdateSortNeedsOneSegment
| UnknownTurnStatus
| InvalidStoredOrdinal
| JsonFailed
| TurnNotFound
| UnsupportedOperation
| ThreadArchived
| MetadataUnreadable
| MalformedLineage (detail : rstr)
| RolloutNotLocated
| ForkOutsideLineage
| EmptyLineage.

(** ** Lineage *)

Record HistoryPosition := mkPosition {
  hp_thread_id : ThreadId;
  hp_end_ordinal_exclusive : N;
  hp_end_byte_offset : N;
}.
Record RolloutLineageSegment := mkSegment {
  seg_rollout_id : ThreadId;
  seg_rollout_path : rstr;
  start_ordinal : N;
  seg_end : option HistoryPosition;
}.
Definition end_ordinal (segment : RolloutLineageSegment) : option N := hp_end_ordinal_exclusive <$> seg_end segment.
Abbreviation RolloutLineage := (list RolloutLineageSegment) (only parsing).

Record rollout_meta := mkRolloutMeta {
  rm_id : ThreadId;
  rm_paginated : bool;
  rm_history_base : option HistoryPosition;
}.
(** [ro_current] is the outcome of [resolve_current_including_archived], [ro_paths] of
    [find_rollout_path_by_rollout_id] for the rollouts that it finds or fails to look
    for ([None], an I/O error), [ro_meta] the outcome of
    [read_session_meta_line] and [ro_contains_prefix] of [rollout_contains_prefix]. *)
Record rollouts := mkRollouts {
  ro_current : ThreadId → result ReadError (option (ThreadId * rstr));
  ro_paths : gmap ThreadId (option rstr);
  ro_meta : rstr → option rollout_meta;
  ro_contains_prefix : rstr → N → option bool;
}.

Definition validate_cutoff_bounds (ro : rollouts) (path : rstr) (position : HistoryPosition) : result ReadError () :=
  if (hp_end_ordinal_exclusive position =? 0)%N
  then Err (MalformedLineage (str "cutoff cannot include source session metadata"))
  else
    contains_prefix ← ok_or (ro_contains_prefix ro path (hp_end_byte_offset position)) MetadataUnreadable;
    if contains_prefix : bool then Ok ()
    else Err (MalformedLineage (str "cutoff byte offset is past the source rollout")).
Definition resolve_rollout_path_by_id (ro : rollouts) (rollout_id : ThreadId) : result ReadError (option rstr) :=
  match ro_paths ro !! rollout_id with
  | Some None => Err RolloutNotLocated
  | Some (Some path) => Ok (Some path)
  | None => Ok None
  end.
Definition lineage_source (ro : rollouts) (requested : ThreadId) (seen : gset ThreadId) (source : option ThreadId)
    : result ReadError (ThreadId * rstr) :=
  '(rollout_id, path) ← match source with
                        | Some rollout_id =>
                            path ← resolve_rollout_path_by_id ro rollout_id;
                            path ← ok_or path (MalformedLineage (str "missing source rollout"));
                            Ok (rollout_id, path)
                        | None =>
                            resolved ← ro_current ro requested;
                            ok_or resolved (MalformedLineage (str "missing source rollout"))
                        end;
  if bool_decide (rollout_id ∈ seen) then Err (MalformedLineage (str "cycle detected"))
  else Ok (rollout_id, path).
(** One iteration: the segment, and the base it goes back to.  [source] is
    [next_rollout_id], [None] for the requested thread itself. *)
Definition lineage_segment (ro : rollouts) (requested : ThreadId) (seen : gset ThreadId)
    (source : option ThreadId) (cutoff : option HistoryPosition)
    : result ReadError (RolloutLineageSegment * option HistoryPosition) :=
  '(rollout_id, path) ← lineage_source ro requested seen source;
  meta ← ok_or (ro_meta ro path) MetadataUnreadable;
  if match source with None => negb (bool_decide (rm_id meta = requested)) | Some _ => false end
  then Err (MalformedLineage (str "source rollout belongs to another thread"))
  else if negb (rm_paginated meta) then Err (MalformedLineage (str "source rollout is not paginated"))
  else
    _ ← match cutoff with Some position => validate_cutoff_bounds ro path position | None => Ok () end;
    start ← match rm_history_base meta with
            | Some base => ok_or (checked_add_u64 (hp_end_ordinal_exclusive base) 1)
                             (MalformedLineage (str "source ordinal overflow"))
            | None => Ok 1%N
            end;
    Ok (mkSegment rollout_id path start cutoff, rm_history_base meta).
(** The loop, from the thread back to the first rollout; the result is reversed by
    consing.  [None]: out of fuel. *)
Fixpoint lineage_loop (fuel : nat) (ro : rollouts) (requested : ThreadId) (seen : gset ThreadId)
    (source : option ThreadId) (cutoff : option HistoryPosition) (segments : list RolloutLineageSegment)
    : option (result ReadError RolloutLineage) :=
  match fuel with
  | O => None
  | S fuel =>
      match lineage_segment ro requested seen source cutoff with
      | Err e => Some (Err e)
      | Ok (segment, base) =>
          match base with
          | None => Some (Ok (segment :: segments))
          | Some base =>
              lineage_loop fuel ro requested ({[seg_rollout_id segment]} ∪ seen) (Some (hp_thread_id base)) (Some base)
                (segment :: segments)
          end
      end
  end.
(** Every iteration but the first has a new rollout that is found on disk. *)
Definition resolve_rollout_lineage (ro : rollouts) (requested : ThreadId) : option (result ReadError RolloutLineage) :=
  lineage_loop (2 + size (ro_paths ro)) ro requested ∅ None None [].

(** [Iterator::position] *)
Fixpoint position {A} (p : A → bool) (l : list A) : option nat :=
  match l with
  | [] => None
  | x :: l => if p x then Some 0 else S <$> position p l
  end.
Definition in_segment (segment : RolloutLineageSegment) (ordinal : N) : bool :=
  (start_ordinal segment <=? ordinal)%N
  && match end_ordinal segment with Some last => (ordinal <? last)%N | None => true end.
Definition segment_index_for_ordinal (lineage : RolloutLineage) (ordinal : N) : option nat :=
  position (λ segment, in_segment segment ordinal) lineage.
Definition truncate_at (ro : rollouts) (lineage : RolloutLineage) (cutoff : HistoryPosition)
    : result ReadError RolloutLineage :=
  index ← ok_or (position (λ segment, bool_decide (seg_rollout_id segment = hp_thread_id cutoff)) lineage)
            ForkOutsideLineage;
  let segments := take (index + 1) lineage in
  segment ← ok_or (last segments) EmptyLineage;
  _ ← validate_cutoff_bounds ro (seg_rollout_path segment) cutoff;
  Ok (take (length segments - 1) segments
      ++ [mkSegment (seg_rollout_id segment) (seg_rollout_path segment) (start_ordinal segment) (Some cutoff)]).

(** ** Cursors and pages *)

Inductive SortDirection := Asc | Desc.
Inductive CursorScope := ScopeTurns | ScopeItemsByCreatedAtOrdinal | ScopeItemsByUpdatedAtOrdinal.
#[export] Instance scope_eq_dec : EqDecision CursorScope.
Proof. solve_decision. Defined.
Record HistoryCursor := mkCursor {
  requested_thread_id : ThreadId;
  cursor_ordinal : N;
  include_anchor : bool;
  cursor_scope : CursorScope;
}.
Record StoredTurnError := mkStoredTurnError {
  ste_message : rstr; ste_codex_error_info : option CodexErrorInfo; ste_additional_details : option rstr;
}.
Class CursorCodec := {
  (** [serde_json] for cursors and stored errors *)
  cursor_to_string : HistoryCursor → option rstr;
  cursor_from_str : rstr → option HistoryCursor;
  stored_error_from_json : Json → option StoredTurnError;
}.

Record SegmentPage (T : Type) := mkPage {
  page_rows : list T;
  next_cursor : option rstr;
  backwards_cursor : option rstr;
}.
Arguments mkPage {T}.
Arguments page_rows {T}.
Arguments next_cursor {T}.
Arguments backwards_cursor {T}.

Definition paging_integer (value : N) : result ReadError Z :=
  if (value <? 2 ^ 63)%N then Ok (Z.of_N value) else Err OrdinalExceedsRange.
Definition paging_limit (limit : N) : result ReadError N :=
  if (limit <? 2 ^ 63)%N then Ok limit else Err PageSizeTooLarge.
Definition validate_page_size (page_size : N) : result ReadError () :=
  if (page_size =? 0)%N then Err PageSizeNotPositive
  else limit ← ok_or (checked_add_u64 page_size 1) PageSizeTooLarge; _ ← paging_limit limit; Ok ().
Definition remaining_limit (page_size row_count : N) : result ReadError N :=
  limit ← ok_or (checked_add_u64 page_size 1) PageSizeTooLarge;
  if (limit <? row_count)%N then Err PageSizeTooLarge else paging_limit (limit - row_count)%N.

(** [ORDER BY column direction] *)
Definition ordered (direction : SortDirection) (a b : Z) : bool :=
  match direction with Asc => (a <=? b)%Z | Desc => (b <=? a)%Z end.
Definition order_rel {A} (column : A → Z) (direction : SortDirection) (a b : A) : Prop :=
  ordered direction (column a) (column b) = true.
#[export] Instance order_rel_dec {A} (column : A → Z) direction : RelDecision (order_rel column direction).
Proof. intros a b. unfold order_rel. apply _. Defined.
Definition order_by {A} (column : A → Z) (direction : SortDirection) (rows : list A) : list A :=
  merge_sort (order_rel column direction) rows.
(** The comparator of a cursor *)
Definition past_cursor (direction : SortDirection) (include_anchor : bool) (anchor ordinal : Z) : bool :=
  match direction, include_anchor with
  | Asc, true => (anchor <=? ordinal)%Z
  | Asc, false => (anchor <? ordinal)%Z
  | Desc, true => (ordinal <=? anchor)%Z
  | Desc, false => (ordinal <? anchor)%Z
  end.
Definition cursor_clause (direction : SortDirection) (cursor : option HistoryCursor) : result ReadError (Z → bool) :=
  match cursor with
  | None => Ok (λ _, true)
  | Some cursor =>
      anchor ← paging_integer (cursor_ordinal cursor);
      Ok (past_cursor direction (include_anchor cursor) anchor)
  end.
Definition in_range (range : Z * option Z) (ordinal : Z) : bool :=
  (range.1 <=? ordinal)%Z && match range.2 with Some last => (ordinal <? last)%Z | None => true end.
Definition segment_range (segment : RolloutLineageSegment) : result ReadError (Z * option Z) :=
  start ← paging_integer (start_ordinal segment);
  match end_ordinal segment with
  | None => Ok (start, None)
  | Some last => last ← paging_integer last; Ok (start, Some last)
  end.

Section paging.
Context {CC : CursorCodec}.

Definition parse_cursor (cursor : option rstr) (thread_id : ThreadId) (scope : CursorScope)
    : result ReadError (option HistoryCursor) :=
  match cursor with
  | None => Ok None
  | Some text =>
      value ← ok_or (cursor_from_str text) InvalidCursor;
      if negb (bool_decide (requested_thread_id value = thread_id)) || negb (bool_decide (cursor_scope value = scope))
      then Err InvalidCursor else Ok (Some value)
  end.
Definition serialize_cursor (thread_id : ThreadId) (scope : CursorScope) (ordinal : Z) (include_anchor : bool)
    : result ReadError rstr :=
  if (ordinal <? 0)%Z then Err NegativeCursorOrdinal
  else ok_or (cursor_to_string (mkCursor thread_id (Z.to_N ordinal) include_anchor scope)) JsonFailed.

(** The segments a page goes through: their index, and the cursor in its own segment *)
Definition segments_from_cursor (lineage : RolloutLineage) (direction : SortDirection) (cursor : option HistoryCursor)
    : result ReadError (list (nat * RolloutLineageSegment * option HistoryCursor)) :=
  cursor_index ← match cursor with
                 | None => Ok None
                 | Some cursor =>
                     index ← ok_or (segment_index_for_ordinal lineage (cursor_ordinal cursor)) PositionOutsideLineage;
                     Ok (Some index)
                 end;
  let indexes := match direction with
                 | Asc => let first := default 0 cursor_index in seq first (length lineage - first)
                 | Desc => rev (seq 0 (default (length lineage - 1) cursor_index + 1))
                 end in
  Ok (omap (λ index, segment ← lineage !! index;
    Some (index, segment, if bool_decide (Some index = cursor_index) then cursor else None)) indexes).

(** [transpose] of an optional fallible value *)
Definition transpose {E A} (x : option (result E A)) : result E (option A) :=
  match x with None => Ok None | Some (Ok a) => Ok (Some a) | Some (Err e) => Err e end.
Definition finish_page {T} (position_of : T → Z) (thread_id : ThreadId) (scope : CursorScope) (rows : list T)
    (page_size : N) : result ReadError (SegmentPage T) :=
  let has_more := (page_size <? N.of_nat (length rows))%N in
  let rows := take (N.to_nat page_size) rows in
  backwards ← transpose ((λ row, serialize_cursor thread_id scope (position_of row) true) <$> head rows);
  next ← (if has_more
          then transpose ((λ row, serialize_cursor thread_id scope (position_of row) false) <$> last rows)
          else Ok None);
  Ok (mkPage rows next backwards).

(** The loop over the segments until the page and one row more are there *)
Fixpoint collect_rows {T} (fetch : nat → RolloutLineageSegment → option HistoryCursor → N → result ReadError (list T))
    (page_size : N) (rows : list T) (segments : list (nat * RolloutLineageSegment * option HistoryCursor))
    : result ReadError (list T) :=
  match segments with
  | [] => Ok rows
  | (index, segment, cursor) :: segments =>
      remaining ← remaining_limit page_size (N.of_nat (length rows));
      if (remaining =? 0)%N then Ok rows
      else
        more ← fetch index segment cursor remaining;
        collect_rows fetch page_size (rows ++ more) segments
  end.
(** [collect] of fallible conversions *)
Fixpoint collect_results {E A B} (f : A → result E B) (l : list A) : result E (list B) :=
  match l with
  | [] => Ok []
  | x :: l => y ← f x; ys ← collect_results f l; Ok (y :: ys)
  end.

(** ** Items *)

Record StoredThreadItem := mkStoredItem {
  sti_turn_id : rstr;
  sti_item_id : rstr;
  sti_updated_at_ordinal : N;
  sti_created_at_ms : Z;
  sti_item_json : Json;
}.
Record StoredThreadItemRow := mkStoredItemRow { item_position : Z; sir_item : StoredThreadItem }.
(** A row of [thread_items] with its key *)
Definition keyed_item : Type := (rstr * rstr) * item_row.

Definition stored_thread_item (row : keyed_item) : result ReadError StoredThreadItem :=
  updated_at_ordinal ← (if (ir_updated_at_ordinal row.2 <? 0)%Z then Err InvalidStoredOrdinal
                        else Ok (Z.to_N (ir_updated_at_ordinal row.2)));
  Ok (mkStoredItem row.1.1 row.1.2 updated_at_ordinal (ir_created_at_ms row.2) (ir_item_json row.2)).
(** [column] is what the query selects as [rollout_ordinal]. *)
Definition stored_thread_item_row (column : item_row → Z) (row : keyed_item) : result ReadError StoredThreadItemRow :=
  if (column row.2 <? 0)%Z then Err InvalidStoredOrdinal
  else item ← stored_thread_item row; Ok (mkStoredItemRow (column row.2) item).

Inductive ItemSortKey := CreatedAtOrdinal | UpdatedAtOrdinal.
Record ListItemsParams := mkListItems {
  li_thread_id : ThreadId;
  li_turn_id : option rstr;
  li_include_archived : bool;
  li_cursor : option rstr;
  li_page_size : N;
  li_sort_direction : SortDirection;
  li_sort_key : ItemSortKey;
  li_after_updated_at_ordinal : option N;
}.
Definition items_of (db : database) (rollout_id : ThreadId) : list keyed_item :=
  map_to_list (st_items (th_tables (history_of db rollout_id))).
Definition turn_filter (turn_id : option rstr) (row : keyed_item) : bool :=
  match turn_id with None => true | Some turn_id => bool_decide (row.1.1 = turn_id) end.
Definition after_clause (after : option N) : result ReadError (item_row → bool) :=
  match after with
  | None => Ok (λ _, true)
  | Some after => watermark ← paging_integer after; Ok (λ row, (watermark <? ir_updated_at_ordinal row)%Z)
  end.
Definition fetch_items (db : database) (params : ListItemsParams) (index : nat) (segment : RolloutLineageSegment)
    (cursor : option HistoryCursor) (limit : N) : result ReadError (list StoredThreadItemRow) :=
  range ← segment_range segment;
  updated ← after_clause (li_after_updated_at_ordinal params);
  past ← cursor_clause (li_sort_direction params) cursor;
  collect_results (stored_thread_item_row ir_rollout_ordinal)
    (take (N.to_nat limit) (order_by (λ row, ir_rollout_ordinal row.2) (li_sort_direction params)
      (List.filter (λ row, in_range range (ir_rollout_ordinal row.2) && updated row.2
                           && turn_filter (li_turn_id params) row && past (ir_rollout_ordinal row.2))
         (items_of db (seg_rollout_id segment))))).
Definition page_updated_item_rows (db : database) (rollout_id : ThreadId) (params : ListItemsParams) (after : N)
    : result ReadError (SegmentPage StoredThreadItemRow) :=
  cursor ← parse_cursor (li_cursor params) (li_thread_id params) ScopeItemsByUpdatedAtOrdinal;
  watermark ← paging_integer after;
  past ← cursor_clause (li_sort_direction params) cursor;
  limit ← remaining_limit (li_page_size params) 0;
  rows ← collect_results (stored_thread_item_row ir_updated_at_ordinal)
    (take (N.to_nat limit) (order_by (λ row, ir_updated_at_ordinal row.2) (li_sort_direction params)
      (List.filter (λ row, (watermark <? ir_updated_at_ordinal row.2)%Z
                           && turn_filter (li_turn_id params) row && past (ir_updated_at_ordinal row.2))
         (items_of db rollout_id))));
  finish_page item_position (li_thread_id params) ScopeItemsByUpdatedAtOrdinal rows (li_page_size params).
Definition page_item_rows (db : database) (lineage : RolloutLineage) (params : ListItemsParams)
    : result ReadError (SegmentPage StoredThreadItemRow) :=
  match li_after_updated_at_ordinal params with
  | Some _ => if 1 <? length lineage then Err IncrementalReplayOfFork else Ok ()
  | None => Ok ()
  end ≫= λ _,
  match li_sort_key params with
  | UpdatedAtOrdinal =>
      after ← ok_or (li_after_updated_at_ordinal params) UpdateSortNeedsWatermark;
      match lineage with
      | [segment] => page_updated_item_rows db (seg_rollout_id segment) params after
      | _ => Err UpdateSortNeedsOneSegment
      end
  | CreatedAtOrdinal =>
      cursor ← parse_cursor (li_cursor params) (li_thread_id params) ScopeItemsByCreatedAtOrdinal;
      segments ← segments_from_cursor lineage (li_sort_direction params) cursor;
      rows ← collect_rows (fetch_items db params) (li_page_size params) [] segments;
      finish_page item_position (li_thread_id params) ScopeItemsByCreatedAtOrdinal rows (li_page_size params)
  end.

(** ** Turns *)

Inductive StoredTurnItemsView := NotLoaded | Summary.
Record StoredTurnRow := mkStoredTurnRow {
  turn_position : Z;
  str_turn_id : rstr;
  str_status : TurnStatus;
  str_error : option StoredTurnError;
  str_started_at : option Z;
  str_completed_at : option Z;
  str_duration_ms : option Z;
  str_first_user_item_id : option rstr;
  str_final_agent_item_id : option rstr;
  str_summary_items : list StoredThreadItem;
}.
(** [StoredTurnStatus] has the constructors of [TurnStatus]. *)
Definition stored_turn_status (status : rstr) : result ReadError TurnStatus :=
  if str_eqb status (str "completed") then Ok TurnCompleted
  else if str_eqb status (str "interrupted") then Ok TurnInterrupted
  else if str_eqb status (str "failed") then Ok TurnFailed
  else if str_eqb status (str "inProgress") then Ok TurnInProgress
  else Err UnknownTurnStatus.
Definition stored_turn_row (turn_id : rstr) (row : turn_row) (summary : list StoredThreadItem)
    : result ReadError StoredTurnRow :=
  status ← stored_turn_status (tr_status row);
  error ← transpose ((λ json, ok_or (stored_error_from_json json) JsonFailed) <$> tr_error_json row);
  Ok (mkStoredTurnRow (tr_rollout_ordinal row) turn_id status error (tr_started_at row) (tr_completed_at row)
        (tr_duration_ms row) (tr_first_user_item_id row) (tr_final_agent_item_id row) summary).
Definition turns_of (db : database) (rollout_id : ThreadId) : gmap rstr turn_row :=
  st_turns (th_tables (history_of db rollout_id)).
(** [NOT EXISTS] a row of the turn in the range of a newer segment *)
Definition not_in_segment (db : database) (turn_id : rstr) (segment : RolloutLineageSegment) : result ReadError bool :=
  range ← segment_range segment;
  Ok match turns_of db (seg_rollout_id segment) !! turn_id with
     | Some row => negb (in_range range (tr_rollout_ordinal row))
     | None => true
     end.
(** The query binds the bounds of the newer segments before it runs. *)
Fixpoint newer_ranges (segments : list RolloutLineageSegment) : result ReadError () :=
  match segments with
  | [] => Ok ()
  | segment :: segments => _ ← segment_range segment; newer_ranges segments
  end.
Definition visible_turn (db : database) (newer : list RolloutLineageSegment) (turn_id : rstr) : bool :=
  forallb (λ segment, match not_in_segment db turn_id segment with Ok b => b | Err _ => false end) newer.
(** The LEFT JOIN with [thread_items]; its columns are there together or not at all. *)
Definition joined_item (db : database) (segment : RolloutLineageSegment) (range : Z * option Z) (turn_id : rstr)
    (item_id : option rstr) : option keyed_item :=
  id ← item_id;
  row ← st_items (th_tables (history_of db (seg_rollout_id segment))) !! (turn_id, id);
  if in_range range (ir_rollout_ordinal row) then Some ((turn_id, id), row) else None.
Definition into_stored_items (first_user final_agent : option keyed_item) : result ReadError (list StoredThreadItem) :=
  items ← collect_results (λ row, item ← stored_thread_item row; Ok (ir_rollout_ordinal row.2, item))
            (option_list first_user ++ option_list final_agent);
  Ok (snd <$> order_by fst Asc items).
Definition turn_from_row (db : database) (items_view : StoredTurnItemsView) (segment : RolloutLineageSegment)
    (range : Z * option Z) (turn : rstr * turn_row) : result ReadError StoredTurnRow :=
  let '(turn_id, row) := turn in
  summary ← match items_view with
            | Summary =>
                into_stored_items (joined_item db segment range turn_id (tr_first_user_item_id row))
                  (joined_item db segment range turn_id (tr_final_agent_item_id row))
            | NotLoaded => Ok []
            end;
  stored_turn_row turn_id row summary.
Definition fetch_turns (db : database) (lineage : RolloutLineage) (direction : SortDirection)
    (items_view : StoredTurnItemsView) (index : nat) (segment : RolloutLineageSegment)
    (cursor : option HistoryCursor) (limit : N) : result ReadError (list StoredTurnRow) :=
  range ← segment_range segment;
  _ ← newer_ranges (drop (index + 1) lineage);
  past ← cursor_clause direction cursor;
  collect_results (turn_from_row db items_view segment range)
    (take (N.to_nat limit) (order_by (λ row, tr_rollout_ordinal row.2) direction
      (List.filter (λ row, in_range range (tr_rollout_ordinal row.2)
                           && visible_turn db (drop (index + 1) lineage) row.1
                           && past (tr_rollout_ordinal row.2))
         (map_to_list (turns_of db (seg_rollout_id segment)))))).
Definition page_turn_rows (db : database) (thread_id : ThreadId) (lineage : RolloutLineage) (cursor : option rstr)
    (page_size : N) (direction : SortDirection) (items_view : StoredTurnItemsView)
    : result ReadError (SegmentPage StoredTurnRow) :=
  cursor ← parse_cursor cursor thread_id ScopeTurns;
  segments ← segments_from_cursor lineage direction cursor;
  rows ← collect_rows (fetch_turns db lineage direction items_view) page_size [] segments;
  finish_page turn_position thread_id ScopeTurns rows page_size.

(** ** Lookup of a turn *)

Record TurnRow := mkTurnLookup { lookup_rollout_id : ThreadId; lookup_row : turn_row }.
Definition query_turn_row (db : database) (segment : RolloutLineageSegment) (turn_id : rstr)
    : result ReadError (option TurnRow) :=
  range ← segment_range segment;
  Ok match turns_of db (seg_rollout_id segment) !! turn_id with
     | Some row => if in_range range (tr_rollout_ordinal row) then Some (mkTurnLookup (seg_rollout_id segment) row) else None
     | None => None
     end.
Fixpoint find_turn (db : database) (segments : list RolloutLineageSegment) (turn_id : rstr) : result ReadError TurnRow :=
  match segments with
  | [] => Err TurnNotFound
  | segment :: segments =>
      row ← query_turn_row db segment turn_id;
      match row with Some row => Ok row | None => find_turn db segments turn_id end
  end.
Definition find_source_turn (db : database) (lineage : RolloutLineage) (turn_id : rstr) : result ReadError TurnRow :=
  find_turn db lineage turn_id.
Definition find_visible_turn (db : database) (lineage : RolloutLineage) (turn_id : rstr) : result ReadError TurnRow :=
  find_turn db (rev lineage) turn_id.

(** ** Listing *)

Definition load_inherited_summary_items (db : database) (lineage : RolloutLineage) (turn : StoredTurnRow)
    : result ReadError (list StoredThreadItem) :=
  source ← find_source_turn db lineage (str_turn_id turn);
  match List.find (λ segment, bool_decide (seg_rollout_id segment = lookup_rollout_id source)) lineage with
  | None => Ok []
  | Some segment =>
      range ← segment_range segment;
      collect_results stored_thread_item
        (order_by (λ row, ir_rollout_ordinal row.2) Asc
          (List.filter (λ row, bool_decide (row.1.1 = str_turn_id turn) && in_range range (ir_rollout_ordinal row.2)
              && (bool_decide (Some row.1.2 = tr_first_user_item_id (lookup_row source))
                  || bool_decide (Some row.1.2 = tr_final_agent_item_id (lookup_row source))))
             (items_of db (lookup_rollout_id source))))
  end.
(** What [validate_thread_for_paginated_reads] reads of the state database *)
Record thread_metadata := mkMetadata { md_archived : bool; md_paginated : bool }.
Definition validate_thread_for_paginated_reads (metadata : option thread_metadata) (include_archived : bool)
    : result ReadError () :=
  match metadata with
  | None => Err UnsupportedOperation
  | Some metadata =>
      if md_archived metadata && negb include_archived then Err ThreadArchived
      else if md_paginated metadata then Ok () else Err UnsupportedOperation
  end.
Record StoredTurn := mkStoredTurn { st_row : StoredTurnRow; stored_items : list StoredThreadItem }.
Definition turn_with_items (db : database) (lineage : RolloutLineage) (items_view : StoredTurnItemsView)
    (turn : StoredTurnRow) : result ReadError StoredTurn :=
  items ← match items_view with
          | NotLoaded => Ok []
          | Summary =>
              match str_status turn, str_first_user_item_id turn, str_final_agent_item_id turn with
              | TurnInterrupted, None, None => load_inherited_summary_items db lineage turn
              | _, _, _ => Ok (str_summary_items turn)
              end
          end;
  Ok (mkStoredTurn turn items).
Definition list_turns (db : database) (metadata : option thread_metadata)
    (lineage : result ReadError RolloutLineage) (thread_id : ThreadId) (include_archived : bool) (cursor : option rstr)
    (page_size : N) (direction : SortDirection) (items_view : StoredTurnItemsView)
    : result ReadError (SegmentPage StoredTurn) :=
  _ ← validate_thread_for_paginated_reads metadata include_archived;
  _ ← validate_page_size page_size;
  lineage ← lineage;
  page ← page_turn_rows db thread_id lineage cursor page_size direction items_view;
  turns ← collect_results (turn_with_items db lineage items_view) (page_rows page);
  Ok (mkPage turns (next_cursor page) (backwards_cursor page)).
Definition list_items (db : database) (metadata : option thread_metadata) (lineage : result ReadError RolloutLineage)
    (params : ListItemsParams) : result ReadError (SegmentPage StoredThreadItem) :=
  _ ← validate_thread_for_paginated_reads metadata (li_include_archived params);
  _ ← validate_page_size (li_page_size params);
  lineage ← lineage;
  page ← page_item_rows db lineage params;
  Ok (mkPage (sir_item <$> page_rows page) (next_cursor page) (backwards_cursor page)).
End paging.
