(* ===== verification/HistoryPagingProps.v ===== *)
(** Pages of a stored history: queries are restrictions of one strictly ordered
    listing, a reader that follows the cursors sees that listing once, and a forked
    lineage is a chain of disjoint ranges. *)

From stdpp Require Import sorting.
From S2P Require Import Prelude AbsolutePath PathUris OutputTruncation History CoreItems ThreadItems ThreadHistory.
From S2P Require Import HistoryStore HistoryStoreProps HistoryPaging.

#[local] Opaque str.

(** ** Strictly ordered rows *)

Lemma filter_all_true {A} (p : A → bool) (l : list A) : Forall (λ a, p a = true) l → List.filter p l = l.
Proof. induction 1 as [|a l Ha _ IH]; simpl; [done|]. by rewrite Ha, IH. Qed.
Lemma filter_all_false {A} (p : A → bool) (l : list A) : Forall (λ a, p a = false) l → List.filter p l = [].
Proof. induction 1 as [|a l Ha _ IH]; simpl; [done|]. by rewrite Ha. Qed.
Lemma elem_of_list_filter {A} (p : A → bool) (l : list A) (a : A) : a ∈ List.filter p l ↔ a ∈ l ∧ p a = true.
Proof. rewrite !list_elem_of_In. apply filter_In. Qed.

Section order.
Context {A : Type} (column : A → Z) (direction : SortDirection).
Implicit Types (a b : A) (l : list A).

(** [b] comes after [a] *)
Definition comes_after (a b : A) : Prop := past_cursor direction false (column a) (column b) = true.
Definition listed (l : list A) : Prop := StronglySorted comes_after l.

Lemma comes_after_trans a b c : comes_after a b → comes_after b c → comes_after a c.
Proof. unfold comes_after, past_cursor. destruct direction; rewrite !Z.ltb_lt; lia. Qed.
Lemma comes_after_irrefl a : ¬ comes_after a a.
Proof. unfold comes_after, past_cursor. destruct direction; rewrite Z.ltb_lt; lia. Qed.

Lemma listed_unique l1 l2 : listed l1 → listed l2 → l1 ≡ₚ l2 → l1 = l2.
Proof.
  unfold listed. intros H1. revert l2. induction H1 as [|a l1 Hs IH Ha]; intros l2 H2 Hp.
  - by apply Permutation_nil_l in Hp.
  - destruct H2 as [|b l2 Hs2 Hb]; [by apply Permutation_nil_r in Hp|].
    assert (a = b) as ->.
    { rewrite Forall_forall in Ha, Hb.
      assert (a ∈ b :: l2) as [->|Hal]%elem_of_cons by (rewrite <- Hp; by left); [done|].
      assert (b ∈ a :: l1) as [->|Hbl]%elem_of_cons by (rewrite Hp; by left); [done|].
      exfalso. apply (comes_after_irrefl a). eapply comes_after_trans; [by apply Ha|by apply Hb]. }
    f_equal. apply IH; [done|]. by eapply Permutation_cons_inv.
Qed.
Lemma listed_filter (p : A → bool) l : listed l → listed (List.filter p l).
Proof.
  unfold listed. induction 1 as [|a l Hs IH Ha]; simpl; [constructor|]. destruct (p a); [|done].
  constructor; [done|]. rewrite Forall_forall in *. intros b Hb. apply Ha.
  by apply elem_of_list_filter in Hb as [Hb _].
Qed.

Lemma order_by_perm l : order_by column direction l ≡ₚ l.
Proof. apply merge_sort_Permutation. Qed.
#[local] Instance order_rel_trans : Transitive (order_rel column direction).
Proof. intros a b c. unfold order_rel, ordered. destruct direction; rewrite !Z.leb_le; lia. Qed.
#[local] Instance order_rel_total : Total (order_rel column direction).
Proof. intros a b. unfold order_rel, ordered. destruct direction; rewrite !Z.leb_le; lia. Qed.
Lemma order_by_listed l : NoDup (column <$> l) → listed (order_by column direction l).
Proof.
  intros Hnd. unfold listed. assert (NoDup (column <$> order_by column direction l)) as Hnd'.
  { by rewrite order_by_perm. }
  assert (StronglySorted (order_rel column direction) (order_by column direction l)) as Hs
    by (apply StronglySorted_merge_sort; apply _).
  induction Hs as [|a l' Hs IH Ha]; [constructor|]. simpl in Hnd'. apply NoDup_cons in Hnd' as [Hn Hnd'].
  constructor; [by apply IH|]. rewrite Forall_forall in *. intros b Hb. specialize (Ha b Hb).
  assert (column a ≠ column b) by (intros E; apply Hn; rewrite E; by apply list_elem_of_fmap_2).
  unfold order_rel, ordered in Ha. unfold comes_after, past_cursor.
  destruct direction; rewrite ?Z.leb_le, ?Z.ltb_lt in *; lia.
Qed.
(** Filtering before or after the ordering is the same. *)
Lemma order_by_filter (p : A → bool) l :
  NoDup (column <$> l) → order_by column direction (List.filter p l) = List.filter p (order_by column direction l).
Proof.
  intros Hnd. apply listed_unique.
  - apply order_by_listed. clear -Hnd. induction l as [|a l IH]; simpl in *; [constructor|].
    apply NoDup_cons in Hnd as [Hn Hnd]. destruct (p a); [|by apply IH]. simpl. constructor; [|by apply IH].
    intros (b & E & Hb)%list_elem_of_fmap. apply Hn. rewrite E. apply list_elem_of_fmap_2.
    by apply elem_of_list_filter in Hb as [Hb _].
  - by apply listed_filter, order_by_listed.
  - assert (∀ l1 l2 : list A, l1 ≡ₚ l2 → List.filter p l1 ≡ₚ List.filter p l2) as Hfp.
    { induction 1; simpl; repeat case_match; by econstructor. }
    rewrite order_by_perm. apply Hfp. by rewrite order_by_perm.
Qed.
End order.

(** ** Following the cursors *)

Class CursorLaws `{CC : CursorCodec} := {
  cursor_roundtrip : ∀ cursor, ∃ text, cursor_to_string cursor = Some text ∧ cursor_from_str text = Some cursor;
}.
(** A client that asks for the next page until there is none; [None]: out of fuel *)
Fixpoint read_pages {T} (page : option rstr → result ReadError (SegmentPage T)) (fuel : nat) (cursor : option rstr)
    : option (result ReadError (list T)) :=
  match fuel with
  | O => None
  | S fuel =>
      match page cursor with
      | Err e => Some (Err e)
      | Ok p =>
          match next_cursor p with
          | None => Some (Ok (page_rows p))
          | Some cursor =>
              match read_pages page fuel (Some cursor) with
              | Some (Ok rows) => Some (Ok (page_rows p ++ rows))
              | other => other
              end
          end
      end
  end.

Section pages.
Context `{CL : CursorLaws} {T : Type} (position_of : T → Z) (thread_id : ThreadId) (scope : CursorScope)
  (direction : SortDirection) (page_size : N).
Implicit Types (l : list T).

(** The rows that come after a position *)
Definition rows_after (ordinal : Z) l : list T := List.filter (λ row, past_cursor direction false ordinal (position_of row)) l.
Lemma rows_after_last (l1 l2 : list T) (row : T) :
  listed position_of direction (l1 ++ row :: l2) → rows_after (position_of row) (l1 ++ row :: l2) = l2.
Proof.
  intros Hl. unfold rows_after. rewrite List.filter_app. simpl.
  replace (past_cursor direction false (position_of row) (position_of row)) with false
    by (unfold past_cursor; destruct direction; by rewrite Z.ltb_irrefl).
  assert (listed position_of direction (row :: l2) ∧ Forall (λ a, comes_after position_of direction a row) l1) as [H2 H1].
  { induction l1 as [|a l1 IH]; simpl in *; [done|]. apply StronglySorted_inv in Hl as [Hl Ha].
    destruct (IH Hl) as [??]. split; [done|]. constructor; [|done]. rewrite Forall_forall in Ha.
    apply Ha. apply elem_of_app. right. by left. }
  rewrite filter_all_false, filter_all_true; [done| |].
  - by apply StronglySorted_inv in H2 as [_ H2].
  - eapply Forall_impl; [done|]. intros a Ha. unfold comes_after, past_cursor in *.
    destruct direction; rewrite ?Z.ltb_lt in Ha; apply Z.ltb_ge; lia.
Qed.

Lemma serialize_cursor_ok (ordinal : Z) (anchor : bool) :
  (0 <= ordinal)%Z → ∃ text, serialize_cursor thread_id scope ordinal anchor = Ok text
    ∧ cursor_from_str text = Some (mkCursor thread_id (Z.to_N ordinal) anchor scope).
Proof.
  intros H. unfold serialize_cursor. rewrite (proj2 (Z.ltb_ge _ _)) by done.
  destruct (cursor_roundtrip (mkCursor thread_id (Z.to_N ordinal) anchor scope)) as (text & -> & ?). by exists text.
Qed.
(** The page of a list of which one row more than the page was fetched *)
Lemma finish_page_ok l :
  (0 < page_size)%N → Forall (λ row, (0 <= position_of row)%Z) l →
  ∃ p, finish_page position_of thread_id scope (take (N.to_nat page_size + 1) l) page_size = Ok p
    ∧ page_rows p = take (N.to_nat page_size) l
    ∧ match next_cursor p with
      | None => length l <= N.to_nat page_size
      | Some text => N.to_nat page_size < length l ∧ ∃ init row, take (N.to_nat page_size) l = init ++ [row]
          ∧ cursor_from_str text = Some (mkCursor thread_id (Z.to_N (position_of row)) false scope)
      end.
Proof.
  intros Hn Hpos. unfold finish_page. rewrite take_take, Nat.min_l, length_take by lia.
  assert (Forall (λ row, (0 <= position_of row)%Z) (take (N.to_nat page_size) l)) as Hpos' by by apply Forall_take.
  assert (∃ b, transpose ((λ row, serialize_cursor thread_id scope (position_of row) true)
    <$> head (take (N.to_nat page_size) l)) = Ok b) as [b ->].
  { destruct (take _ l) as [|row rows]; [by eexists|]. apply Forall_cons in Hpos' as [Hr _].
    destruct (serialize_cursor_ok _ true Hr) as (text & E & _). simpl. rewrite E. by eexists. }
  destruct (N.ltb_spec page_size (N.of_nat ((N.to_nat page_size + 1) `min` length l))); cbn [mbind result_bind].
  - assert (length (take (N.to_nat page_size) l) = N.to_nat page_size) as Hlen by (rewrite length_take; lia).
    destruct (take (N.to_nat page_size) l) as [|row rows _] eqn:E using rev_ind; [simpl in Hlen; lia|].
    rewrite last_snoc. apply Forall_app in Hpos' as [_ Hr]. apply Forall_cons in Hr as [Hr _].
    destruct (serialize_cursor_ok _ false Hr) as (text & E' & Hc). simpl. rewrite E'. simpl.
    eexists. split; [done|]. simpl. split; [done|]. split; [lia|]. by exists rows, row.
  - eexists. split; [done|]. simpl. split; [done|]. lia.
Qed.

(** Reading page by page returns the listing, when every page has the rows after its
    cursor. *)
Lemma read_pages_listing (page : option rstr → result ReadError (SegmentPage T)) (listing : list T) :
  (0 < page_size)%N → listed position_of direction listing → Forall (λ row, (0 <= position_of row)%Z) listing →
  page None = finish_page position_of thread_id scope (take (N.to_nat page_size + 1) listing) page_size →
  (∀ text row, row ∈ listing →
    cursor_from_str text = Some (mkCursor thread_id (Z.to_N (position_of row)) false scope) →
    page (Some text) = finish_page position_of thread_id scope
      (take (N.to_nat page_size + 1) (rows_after (position_of row) listing)) page_size) →
  read_pages page (S (length listing)) None = Some (Ok listing).
Proof.
  intros Hn Hl Hpos Hfirst Hnext.
  assert (∀ fuel rest seen cursor, listing = seen ++ rest → length rest < fuel →
    page cursor = finish_page position_of thread_id scope (take (N.to_nat page_size + 1) rest) page_size →
    read_pages page fuel cursor = Some (Ok rest)) as Hloop; [|by apply (Hloop _ listing []); [|lia|]].
  induction fuel as [|fuel IH]; intros rest seen cursor E Hf Hp; [lia|]. simpl. rewrite Hp.
  destruct (finish_page_ok rest Hn) as (p & -> & Hrows & Hcur); [rewrite E in Hpos; by apply Forall_app in Hpos as [_ ?]|].
  destruct (next_cursor p) as [text|]; [|by rewrite Hrows, take_ge].
  destruct Hcur as (Hlen & init & row & Htake & Hc).
  assert (rest = (init ++ [row]) ++ drop (N.to_nat page_size) rest) as Hrest by by rewrite <- Htake, take_drop.
  remember (drop (N.to_nat page_size) rest) as d eqn:Hd. rewrite (IH d (seen ++ init ++ [row])).
  - by rewrite Hrows, Hd, take_drop.
  - by rewrite E, Hrest, <- !app_assoc.
  - rewrite Hd, length_drop. lia.
  - rewrite (Hnext text row); [|rewrite E, Hrest; set_solver|done].
    assert (listing = (seen ++ init) ++ row :: d) as Hs by by rewrite E, Hrest, <- !app_assoc.
    rewrite Hs in *. by rewrite rows_after_last.
Qed.
End pages.

(** ** Pages over the segments of a lineage *)

(** The ranges of the segments follow each other. *)
Definition lineage_ordered (lineage : RolloutLineage) : Prop :=
  StronglySorted (λ s1 s2, ∀ o1 o2, in_segment s1 o1 = true → in_segment s2 o2 = true → (o1 < o2)%N) lineage.
(** The segments with their indexes, in the order that a page goes through them *)
Definition directed {A} (direction : SortDirection) (l : list A) : list A :=
  match direction with Asc => l | Desc => rev l end.
Definition indexed (lineage : RolloutLineage) : list (nat * RolloutLineageSegment) := imap pair lineage.
Definition without_cursor (s : nat * RolloutLineageSegment) : nat * RolloutLineageSegment * option HistoryCursor :=
  (s.1, s.2, None).

Lemma sorted_rev {A} (R : A → A → Prop) (l : list A) : StronglySorted R l → StronglySorted (flip R) (rev l).
Proof.
  induction 1 as [|a l Hs IH Ha]; simpl; [constructor|].
  apply StronglySorted_app_2; [|done|repeat constructor].
  intros b c Hb Hc. apply list_elem_of_singleton in Hc as ->. simpl. rewrite Forall_forall in Ha.
  apply Ha. apply list_elem_of_In. apply in_rev. by apply list_elem_of_In.
Qed.
Lemma sorted_impl {A} (R1 R2 : A → A → Prop) (l : list A) :
  (∀ a b, R1 a b → R2 a b) → StronglySorted R1 l → StronglySorted R2 l.
Proof. intros H. induction 1 as [|a l Hs IH Ha]; constructor; [done|]. by eapply Forall_impl; [|apply H]. Qed.
Lemma omap_rev {A B} (f : A → option B) (l : list A) : omap f (rev l) = rev (omap f l).
Proof.
  induction l as [|a l IH]; simpl; [done|]. rewrite omap_app, IH. simpl.
  destruct (f a); simpl; [done|by rewrite app_nil_r].
Qed.
Lemma indexed_range (lineage : RolloutLineage) (f : nat → option HistoryCursor) (k n : nat) :
  k + n <= length lineage →
  omap (λ index, segment ← lineage !! index; Some (index, segment, f index)) (seq k n)
  = (λ s, (s.1, s.2, f s.1)) <$> take n (drop k (indexed lineage)).
Proof.
  revert k; induction n as [|n IH]; intros k H; [done|].
  destruct (lookup_lt_is_Some_2 lineage k) as [segment Hk]; [lia|].
  rewrite (drop_S (indexed lineage) (k, segment) k) by (unfold indexed; by rewrite list_lookup_imap, Hk).
  cbn [seq omap list_omap take]. rewrite Hk. simpl. f_equal. apply IH. lia.
Qed.
Lemma position_Some {A} (p : A → bool) (l : list A) (k : nat) :
  position p l = Some k → ∃ a, l !! k = Some a ∧ p a = true.
Proof.
  revert k; induction l as [|a l IH]; intros k H; simpl in H; [done|].
  destruct (p a) eqn:E; [simplify_eq; by exists a|].
  apply fmap_Some in H as (j & H & ->). by apply IH.
Qed.
Lemma position_is_Some {A} (p : A → bool) (l : list A) (a : A) : a ∈ l → p a = true → is_Some (position p l).
Proof.
  induction 1 as [a l|a b l Hin IH]; intros Hp; simpl; [by rewrite Hp|].
  destruct (p b); [by eexists|]. destruct (IH Hp) as [k ->]. by eexists.
Qed.
Lemma segments_without_cursor (lineage : RolloutLineage) (direction : SortDirection) :
  lineage ≠ [] →
  segments_from_cursor lineage direction None = Ok (without_cursor <$> directed direction (indexed lineage)).
Proof.
  intros Hne. assert (length lineage ≠ 0) by (by intros ?%nil_length_inv).
  unfold segments_from_cursor. cbn [mbind result_bind]. f_equal.
  transitivity (omap (λ index, segment ← lineage !! index; Some (index, segment, None : option HistoryCursor))
    (directed direction (seq 0 (length lineage)))).
  { destruct direction; simpl; [by rewrite Nat.sub_0_r|]. by replace (length lineage - 1 + 1) with (length lineage) by lia. }
  assert (take (length lineage) (drop 0 (indexed lineage)) = indexed lineage) as Hall
    by (rewrite drop_0; apply take_ge; unfold indexed; by rewrite length_imap).
  destruct direction; simpl; rewrite ?omap_rev, (indexed_range lineage (λ _, None)), Hall by lia; [done|].
  by rewrite <- map_rev.
Qed.
(** A cursor cuts the segments in its own one. *)
Lemma segments_with_cursor (lineage : RolloutLineage) (direction : SortDirection) (cursor : HistoryCursor) (k : nat) :
  segment_index_for_ordinal lineage (cursor_ordinal cursor) = Some k →
  ∃ before segment after, directed direction (indexed lineage) = before ++ (k, segment) :: after
    ∧ in_segment segment (cursor_ordinal cursor) = true
    ∧ segments_from_cursor lineage direction (Some cursor)
      = Ok ((k, segment, Some cursor) :: (without_cursor <$> after)).
Proof.
  intros Hk. destruct (position_Some _ _ _ Hk) as (segment & Hs & Hin).
  pose proof (lookup_lt_Some _ _ _ Hs) as Hlt.
  assert (indexed lineage !! k = Some (k, segment)) as Hidx by (unfold indexed; by rewrite list_lookup_imap, Hs).
  assert (length (indexed lineage) = length lineage) as Hlen by (unfold indexed; apply length_imap).
  set (f := λ index, if bool_decide (Some index = Some k) then Some cursor else None).
  assert (∀ l : list (nat * RolloutLineageSegment), (∀ s, s ∈ l → s.1 ≠ k) →
    (λ s, (s.1, s.2, f s.1)) <$> l = without_cursor <$> l) as Hnone.
  { intros l Hl. apply list_fmap_ext. intros i s Hi. unfold f, without_cursor.
    rewrite bool_decide_eq_false_2; [done|]. intros [= E]. eapply Hl; [by eapply list_elem_of_lookup_2|done]. }
  assert (∀ i s, indexed lineage !! i = Some s → s.1 = i) as Hfst.
  { intros i s Hi. unfold indexed in Hi. rewrite list_lookup_imap in Hi. apply fmap_Some in Hi as (? & _ & ->). done. }
  assert (f k = Some cursor) as Hfk by (unfold f; by rewrite bool_decide_eq_true_2).
  unfold segments_from_cursor. rewrite Hk. cbn [mbind result_bind ok_or default]. destruct direction; simpl.
  - exists (take k (indexed lineage)), segment, (drop (S k) (indexed lineage)). split_and!; [|done|].
    + by rewrite take_drop_middle.
    + f_equal. rewrite (indexed_range lineage f) by lia. rewrite take_ge by (rewrite length_drop; lia).
      rewrite (drop_S _ _ _ Hidx). rewrite fmap_cons, Hnone; [simpl; by rewrite Hfk|].
      intros s (i & Hi)%list_elem_of_lookup. rewrite lookup_drop in Hi. apply Hfst in Hi. lia.
  - exists (rev (drop (S k) (indexed lineage))), segment, (rev (take k (indexed lineage))). split_and!; [|done|].
    + rewrite <- (take_drop_middle _ _ _ Hidx) at 1. rewrite rev_app_distr. simpl. by rewrite <- app_assoc.
    + f_equal. rewrite omap_rev, (indexed_range lineage f), drop_0 by lia.
      rewrite Nat.add_1_r, (take_S_r _ _ _ Hidx), fmap_app, rev_app_distr. simpl. rewrite Hfk. f_equal.
      rewrite Hnone; [by rewrite <- map_rev|].
      intros s (i & Hi)%list_elem_of_lookup. apply lookup_take_Some in Hi as [Hi ?]. apply Hfst in Hi. lia.
Qed.

Section collect.
Context {T : Type} (fetch : nat → RolloutLineageSegment → option HistoryCursor → N → result ReadError (list T))
  (page_size : N).
Lemma remaining_limit_ok (n : N) :
  (page_size + 1 < 2 ^ 63)%N → (n <= page_size + 1)%N → remaining_limit page_size n = Ok (page_size + 1 - n)%N.
Proof.
  intros Hs Hn. unfold remaining_limit, checked_add_u64, paging_limit, u64_limit.
  rewrite (proj2 (N.ltb_lt _ _)) by lia. simpl. rewrite (proj2 (N.ltb_ge _ _)) by lia.
  by rewrite (proj2 (N.ltb_lt _ _)) by lia.
Qed.
Lemma take_app_take {A} (n : nat) (a b c : list A) : take n (a ++ take (n - length a) b ++ c) = take n (a ++ b ++ c).
Proof.
  rewrite !(take_app a). f_equal. generalize (n - length a). intros m.
  destruct (decide (m <= length b)).
  - rewrite (take_app_le b) by done. rewrite take_app_le by (rewrite length_take; lia). rewrite take_take. f_equal. lia.
  - by rewrite (take_ge b) by lia.
Qed.
(** The loop has the first rows of all segments together. *)
Lemma collect_rows_ok (found : nat * RolloutLineageSegment * option HistoryCursor → list T)
    (segments : list (nat * RolloutLineageSegment * option HistoryCursor)) (rows : list T) :
  (page_size + 1 < 2 ^ 63)%N → (N.of_nat (length rows) <= page_size + 1)%N →
  (∀ i s c limit, (i, s, c) ∈ segments → fetch i s c limit = Ok (take (N.to_nat limit) (found (i, s, c)))) →
  collect_rows fetch page_size rows segments
  = Ok (take (N.to_nat page_size + 1) (rows ++ concat (found <$> segments))).
Proof.
  intros Hs. revert rows. induction segments as [|[[i s] c] segments IH]; intros rows Hr Hf; simpl.
  { by rewrite app_nil_r, take_ge by lia. }
  rewrite remaining_limit_ok by lia. simpl.
  destruct (N.eqb_spec (page_size + 1 - N.of_nat (length rows)) 0) as [E|E].
  - rewrite take_app_le by lia. by rewrite take_ge by lia.
  - rewrite Hf by by left. simpl. rewrite IH.
    + f_equal. rewrite <- app_assoc.
      replace (N.to_nat (page_size + 1 - N.of_nat (length rows))) with (N.to_nat page_size + 1 - length rows) by lia.
      apply take_app_take.
    + rewrite length_app, length_take. lia.
    + intros. apply Hf. by right.
Qed.
End collect.

Lemma directed_elem {A} (direction : SortDirection) (l : list A) (a : A) : a ∈ directed direction l ↔ a ∈ l.
Proof. destruct direction; simpl; [done|]. rewrite !list_elem_of_In. symmetry. apply in_rev. Qed.
Section lineage_pages.
Context {T : Type} (position_of : T → Z) (lineage : RolloutLineage) (direction : SortDirection) (page_size : N).
Context (fetch : nat → RolloutLineageSegment → option HistoryCursor → N → result ReadError (list T)).
Context (rows_of : nat * RolloutLineageSegment → list T).
Hypothesis Hfetch : ∀ i s cursor past limit, (i, s) ∈ indexed lineage → cursor_clause direction cursor = Ok past →
  fetch i s cursor limit = Ok (take (N.to_nat limit) (List.filter (λ row, past (position_of row)) (rows_of (i, s)))).
Hypothesis Hrange : ∀ s row, s ∈ indexed lineage → row ∈ rows_of s →
  (0 <= position_of row < 2 ^ 63)%Z ∧ in_segment s.2 (Z.to_N (position_of row)) = true.
Hypothesis Hlisted : ∀ s, s ∈ indexed lineage → listed position_of direction (rows_of s).
Hypothesis Hordered : lineage_ordered lineage.
Hypothesis Hsize : (page_size + 1 < 2 ^ 63)%N.
Hypothesis Hne : lineage ≠ [].

(** All rows in the order of the pages *)
Definition lineage_rows : list T := concat (rows_of <$> directed direction (indexed lineage)).

Lemma lineage_rows_elem (row : T) : row ∈ lineage_rows ↔ ∃ s, s ∈ indexed lineage ∧ row ∈ rows_of s.
Proof.
  unfold lineage_rows. rewrite list_elem_of_In, in_concat. split.
  - intros (l & (s & -> & Hs)%list_elem_of_In%list_elem_of_fmap & Hr%list_elem_of_In). exists s. by rewrite directed_elem in Hs.
  - intros (s & Hs & Hr). exists (rows_of s). rewrite <- !list_elem_of_In. split; [|done].
    apply list_elem_of_fmap_2. by apply directed_elem.
Qed.
(** Rows of an earlier segment come before those of a later one. *)
Definition segment_before (s1 s2 : nat * RolloutLineageSegment) : Prop :=
  ∀ o1 o2, in_segment s1.2 (Z.to_N o1) = true → in_segment s2.2 (Z.to_N o2) = true → (0 <= o1)%Z → (0 <= o2)%Z →
    past_cursor direction false o1 o2 = true.
Lemma directed_sorted : StronglySorted segment_before (directed direction (indexed lineage)).
Proof using Hordered.
  clear Hfetch Hrange Hlisted Hsize Hne.
  assert (∀ l k, lineage_ordered l → StronglySorted (λ s1 s2 : nat * RolloutLineageSegment, ∀ o1 o2,
    in_segment s1.2 o1 = true → in_segment s2.2 o2 = true → (o1 < o2)%N) (imap (λ i s, (k + i, s)) l)) as Hidx.
  { intros l k H. revert k. induction H as [|s l Hs IH Ha]; intros k; simpl; [constructor|]. constructor.
    - specialize (IH (S k)). erewrite imap_ext; [exact IH|]. intros i x _. simpl. f_equal. lia.
    - apply Forall_forall. intros x (i & y & -> & Hy)%elem_of_lookup_imap. simpl. rewrite Forall_forall in Ha.
      apply Ha. by eapply list_elem_of_lookup_2. }
  specialize (Hidx lineage 0 Hordered). simpl in Hidx. fold (indexed lineage) in Hidx.
  unfold segment_before, past_cursor. destruct direction; simpl.
  - eapply sorted_impl; [|done]. simpl. intros s1 s2 H o1 o2 H1 H2 ??. specialize (H _ _ H1 H2).
    apply Z.ltb_lt. lia.
  - apply sorted_rev in Hidx. eapply sorted_impl; [|done]. simpl. intros s1 s2 H o1 o2 H1 H2 ??.
    specialize (H _ _ H2 H1). apply Z.ltb_lt. lia.
Qed.
Lemma lineage_rows_listed : listed position_of direction lineage_rows.
Proof using Hrange Hlisted Hordered.
  clear Hfetch Hsize Hne.
  unfold lineage_rows, listed.
  assert (∀ s, s ∈ directed direction (indexed lineage) → s ∈ indexed lineage) as Hin by (intros; by rewrite <- directed_elem).
  pose proof directed_sorted as H. induction H as [|s l Hs IH Ha]; simpl; [constructor|].
  apply StronglySorted_app_2; [|apply Hlisted, Hin; by left|apply IH; intros; apply Hin; by right].
  intros a b Hb Hc. apply list_elem_of_In, in_concat in Hc as (l' & (s' & -> & Hs')%list_elem_of_In%list_elem_of_fmap & Hc).
  apply list_elem_of_In in Hc. rewrite Forall_forall in Ha.
  destruct (Hrange s a) as [??]; [by apply Hin; left|done|]. destruct (Hrange s' b) as [??]; [by apply Hin; right|done|].
  apply (Ha s'); lia || done.
Qed.
Lemma lineage_rows_positive : Forall (λ row, (0 <= position_of row)%Z) lineage_rows.
Proof using Hrange. apply Forall_forall. intros row (s & Hs & Hr)%lineage_rows_elem. by destruct (Hrange s row) as [[??] _]. Qed.

(** The rows of a page: all of the listing, or what comes after the cursor *)
Lemma collect_first : ∃ segments, segments_from_cursor lineage direction None = Ok segments
  ∧ collect_rows fetch page_size [] segments = Ok (take (N.to_nat page_size + 1) lineage_rows).
Proof.
  eexists. split; [by apply segments_without_cursor|].
  rewrite (collect_rows_ok _ _ (λ s, rows_of s.1)); [|done|simpl; lia|].
  - f_equal. f_equal. simpl. unfold lineage_rows. f_equal. rewrite <- list_fmap_compose. by apply list_fmap_ext; intros ? [].
  - intros i s c limit ([i' s'] & [= -> -> ->] & Hs)%list_elem_of_fmap. rewrite directed_elem in Hs.
    rewrite (Hfetch _ _ None (λ _, true)); [|done|done]. by rewrite filter_all_true by (by apply Forall_true).
Qed.
Lemma collect_after (cursor : HistoryCursor) (row : T) :
  row ∈ lineage_rows → cursor_ordinal cursor = Z.to_N (position_of row) → include_anchor cursor = false →
  ∃ segments, segments_from_cursor lineage direction (Some cursor) = Ok segments
  ∧ collect_rows fetch page_size [] segments
    = Ok (take (N.to_nat page_size + 1) (rows_after position_of direction (position_of row) lineage_rows)).
Proof.
  intros Hrow Ho Hanchor. pose proof Hrow as (s0 & Hs0 & Hr0)%lineage_rows_elem.
  destruct (Hrange s0 row Hs0 Hr0) as [Hpos Hin0].
  destruct (position_is_Some (λ s, in_segment s (cursor_ordinal cursor)) lineage s0.2) as [k Hk].
  { unfold indexed in Hs0. apply elem_of_lookup_imap in Hs0 as (i & y & -> & Hy). by eapply list_elem_of_lookup_2. }
  { by rewrite Ho. }
  destruct (segments_with_cursor lineage direction cursor k Hk) as (before & s & after & Hd & Hin & Hsegs).
  rewrite Hsegs. eexists. split; [done|].
  assert (∀ s', s' ∈ before ++ (k, s) :: after → s' ∈ indexed lineage) as Hall
    by (intros s' Hs'; by rewrite <- directed_elem, Hd).
  assert (cursor_clause direction (Some cursor) = Ok (past_cursor direction false (position_of row))) as Hclause.
  { simpl. unfold paging_integer. rewrite Ho, Hanchor, (proj2 (N.ltb_lt _ _)) by lia. simpl. by rewrite Z2N.id by lia. }
  rewrite (collect_rows_ok _ _ (λ t, match t.2 with
    | Some _ => rows_after position_of direction (position_of row) (rows_of t.1) | None => rows_of t.1 end));
    [|done|simpl; lia|].
  - f_equal. f_equal. simpl. unfold lineage_rows, rows_after. rewrite Hd, fmap_app, concat_app, List.filter_app.
    rewrite fmap_cons. simpl. rewrite List.filter_app.
    pose proof directed_sorted as Hsort. rewrite Hd in Hsort. apply StronglySorted_app in Hsort as (Hbefore & _ & Hafter).
    apply StronglySorted_inv in Hafter as [_ Hafter]. rewrite Forall_forall in Hafter.
    rewrite (filter_all_false _ (concat (rows_of <$> before))), (filter_all_true _ (concat (rows_of <$> after))).
    + simpl. f_equal. rewrite <- list_fmap_compose. f_equal. by apply list_fmap_ext; intros ? [].
    + apply Forall_forall. intros b (l & (s' & -> & Hs')%list_elem_of_In%list_elem_of_fmap & Hb%list_elem_of_In)%list_elem_of_In%in_concat.
      destruct (Hrange s' b) as [[??] ?]; [apply Hall; set_solver|done|].
      apply (Hafter s'); [done|by rewrite <- Ho|done|lia|done].
    + apply Forall_forall. intros b (l & (s' & -> & Hs')%list_elem_of_In%list_elem_of_fmap & Hb%list_elem_of_In)%list_elem_of_In%in_concat.
      destruct (Hrange s' b) as [[??] ?]; [apply Hall; set_solver|done|].
      pose proof (Hbefore s' (k, s) Hs' ltac:(by left) (position_of b) (position_of row)) as H'.
      unfold past_cursor in *. destruct direction; rewrite Z.ltb_lt in H'; apply Z.ltb_ge;
        (rewrite Ho in Hin; specialize (H' ltac:(done) Hin ltac:(lia) ltac:(lia)); lia).
  - intros i s' c limit [[= -> -> ->]|([i' s''] & [= -> -> ->] & Hs')%list_elem_of_fmap]%elem_of_cons.
    + apply Hfetch; [apply Hall; set_solver|done].
    + rewrite (Hfetch _ _ None (λ _, true)); [|apply Hall; set_solver|done].
      by rewrite filter_all_true by (by apply Forall_true).
Qed.
End lineage_pages.

(** ** Items *)

(** Update ordinals name one item each, but 0, which a writer of an older version
    leaves in the items it adds. *)
Definition updates_ok (next : Z) (items : gmap (rstr * rstr) item_row) : Prop :=
  (∀ key row, items !! key = Some row → (0 <= ir_updated_at_ordinal row < next)%Z)
  ∧ (∀ k1 k2 r1 r2, items !! k1 = Some r1 → items !! k2 = Some r2 → (0 < ir_updated_at_ordinal r1)%Z →
       ir_updated_at_ordinal r1 = ir_updated_at_ordinal r2 → k1 = k2).
(** What reading needs of the rows of a rollout; their integers are [i64]. *)
Definition rollout_ok (next : Z) (t : thread_tables) : Prop :=
  ordinals_ok tr_rollout_ordinal next (st_turns t) ∧ ordinals_ok ir_rollout_ordinal next (st_items t)
  ∧ updates_ok next (st_items t).
Definition store_ok (db : database) : Prop :=
  ∀ rollout_id, ∃ next, (next <= 2 ^ 63)%Z ∧ rollout_ok next (th_tables (history_of db rollout_id)).
Lemma tables_ok_rollout (next : Z) (t : thread_tables) : tables_ok next t → rollout_ok next t.
Proof. intros [[Ht Hi [Hb Hu] _] _]. split_and!; [done..|]. split; [done|]. intros ???????. by eapply Hu. Qed.
Definition segment_bounded (segment : RolloutLineageSegment) : Prop :=
  (start_ordinal segment < 2 ^ 63)%N ∧ ∀ last, end_ordinal segment = Some last → (last < 2 ^ 63)%N.
(** The range of a segment as the query binds it *)
Definition range_of (segment : RolloutLineageSegment) : Z * option Z :=
  (Z.of_N (start_ordinal segment), Z.of_N <$> end_ordinal segment).

Lemma segment_range_ok (segment : RolloutLineageSegment) :
  segment_bounded segment → segment_range segment = Ok (range_of segment).
Proof.
  intros [Hs He]. unfold segment_range, paging_integer, range_of. rewrite (proj2 (N.ltb_lt _ _)) by done. simpl.
  destruct (end_ordinal segment) as [last|]; simpl; [|done]. by rewrite (proj2 (N.ltb_lt _ _)) by by apply He.
Qed.
Lemma in_range_segment (segment : RolloutLineageSegment) (ordinal : Z) :
  (0 <= ordinal)%Z → in_range (range_of segment) ordinal = in_segment segment (Z.to_N ordinal).
Proof.
  intros H. unfold in_range, in_segment, range_of. simpl. f_equal.
  - apply eq_true_iff_eq. rewrite Z.leb_le, N.leb_le. lia.
  - destruct (end_ordinal segment) as [last|]; simpl; [|done]. apply eq_true_iff_eq. rewrite Z.ltb_lt, N.ltb_lt. lia.
Qed.
Lemma collect_results_total {E A B} (f : A → result E B) (g : A → B) (l : list A) :
  (∀ a, a ∈ l → f a = Ok (g a)) → collect_results f l = Ok (g <$> l).
Proof.
  induction l as [|a l IH]; intros H; simpl; [done|]. rewrite H by by left. simpl.
  rewrite IH; [done|]. intros. apply H. by right.
Qed.
Lemma map_to_list_column_NoDup {K R} `{Countable K} (column : R → Z) (next : Z) (rows : gmap K R) :
  ordinals_ok column next rows → NoDup ((λ row, column row.2) <$> map_to_list rows).
Proof.
  intros [_ Hu]. apply NoDup_fmap_2_strong; [|apply NoDup_map_to_list].
  intros [k1 r1] [k2 r2] H1%elem_of_map_to_list H2%elem_of_map_to_list E. simpl in E.
  pose proof (Hu _ _ _ _ H1 H2 E) as ->. by simplify_eq.
Qed.
Lemma fmap_filter {A B} (g : A → B) (p : B → bool) (l : list A) :
  List.filter p (g <$> l) = g <$> List.filter (λ a, p (g a)) l.
Proof. induction l as [|a l IH]; simpl; [done|]. destruct (p (g a)); simpl; [f_equal|]; exact IH. Qed.
Lemma filter_filter {A} (p q : A → bool) (l : list A) :
  List.filter q (List.filter p l) = List.filter (λ a, p a && q a) l.
Proof. induction l as [|a l IH]; simpl; [done|]. destruct (p a); simpl; by rewrite IH. Qed.
Lemma NoDup_column_filter {A} (column : A → Z) (p : A → bool) (l : list A) :
  NoDup (column <$> l) → NoDup (column <$> List.filter p l).
Proof.
  induction l as [|a l IH]; simpl; [done|]. intros [Hn Hnd]%NoDup_cons. destruct (p a); [|by apply IH].
  simpl. constructor; [|by apply IH]. intros (b & E & Hb)%list_elem_of_fmap. apply Hn. rewrite E.
  apply list_elem_of_fmap_2. by apply elem_of_list_filter in Hb as [Hb _].
Qed.
Lemma elem_of_take_all {A} (x : A) (n : nat) (l : list A) : x ∈ take n l → x ∈ l.
Proof. intros (i & Hi & _)%elem_of_take. by eapply list_elem_of_lookup_2. Qed.
(** A query with a cursor, ordered and converted, restricts the one without. *)
Lemma query_after {A B} (column : A → Z) (position_of : B → Z) (g : A → B) (direction : SortDirection)
    (base : A → bool) (past : Z → bool) (limit : nat) (l : list A) :
  NoDup (column <$> List.filter base l) → (∀ a, position_of (g a) = column a) →
  g <$> take limit (order_by column direction (List.filter (λ a, base a && past (column a)) l))
  = take limit (List.filter (λ b, past (position_of b)) (g <$> order_by column direction (List.filter base l))).
Proof.
  intros Hnd Hg. rewrite <- filter_filter, order_by_filter by done.
  rewrite fmap_take, fmap_filter. f_equal. f_equal. apply List.filter_ext. intros a. by rewrite Hg.
Qed.
Lemma listed_fmap {A B} (column : A → Z) (position_of : B → Z) (g : A → B) (direction : SortDirection) (l : list A) :
  (∀ a, position_of (g a) = column a) → listed column direction l → listed position_of direction (g <$> l).
Proof.
  intros Hg. unfold listed, comes_after. induction 1 as [|a l Hs IH Ha]; simpl; constructor; [done|].
  apply Forall_fmap. eapply Forall_impl; [done|]. intros b Hb. simpl in *. by rewrite !Hg.
Qed.

Definition item_of (column : item_row → Z) (row : keyed_item) : StoredThreadItemRow :=
  mkStoredItemRow (column row.2)
    (mkStoredItem row.1.1 row.1.2 (Z.to_N (ir_updated_at_ordinal row.2)) (ir_created_at_ms row.2) (ir_item_json row.2)).
Definition with_cursor (params : ListItemsParams) (cursor : option rstr) : ListItemsParams :=
  mkListItems (li_thread_id params) (li_turn_id params) (li_include_archived params) cursor (li_page_size params)
    (li_sort_direction params) (li_sort_key params) (li_after_updated_at_ordinal params).
(** The row is an item in the range of a segment, of the turn asked for. *)
Definition item_in_lineage (db : database) (lineage : RolloutLineage) (turn_id : option rstr)
    (row : StoredThreadItemRow) : Prop :=
  ∃ segment key r, segment ∈ lineage
    ∧ st_items (th_tables (history_of db (seg_rollout_id segment))) !! key = Some r
    ∧ in_segment segment (Z.to_N (ir_rollout_ordinal r)) = true ∧ turn_filter turn_id (key, r) = true
    ∧ row = item_of ir_rollout_ordinal (key, r).

Section items.
Context `{CL : CursorLaws} (db : database) (lineage : RolloutLineage) (params : ListItemsParams).
Hypothesis Hstore : store_ok db.
Hypothesis Hsize : (0 < li_page_size params)%N ∧ (li_page_size params + 1 < 2 ^ 63)%N.

Lemma stored_item (rollout_id : ThreadId) (row : keyed_item) (column : item_row → Z) :
  row ∈ items_of db rollout_id → column = ir_rollout_ordinal ∨ column = ir_updated_at_ordinal →
  (0 <= column row.2 < 2 ^ 63)%Z ∧ stored_thread_item_row column row = Ok (item_of column row).
Proof.
  intros Hrow Hc. destruct row as [key row]. apply elem_of_map_to_list in Hrow.
  destruct (Hstore rollout_id) as (next & Hnext & _ & [Ho _] & [Hu _]).
  specialize (Ho _ _ Hrow). specialize (Hu _ _ Hrow). simpl.
  assert (0 <= column row < 2 ^ 63)%Z as Hcol by (destruct Hc as [->| ->]; lia). split; [done|].
  unfold stored_thread_item_row, stored_thread_item. simpl. rewrite !(proj2 (Z.ltb_ge _ _)) by lia. done.
Qed.
Definition segment_items (s : nat * RolloutLineageSegment) : list StoredThreadItemRow :=
  item_of ir_rollout_ordinal <$> order_by (λ row, ir_rollout_ordinal row.2) (li_sort_direction params)
    (List.filter (λ row, in_range (range_of s.2) (ir_rollout_ordinal row.2) && true && turn_filter (li_turn_id params) row)
       (items_of db (seg_rollout_id s.2))).
Lemma items_NoDup (rollout_id : ThreadId) :
  NoDup ((λ row : keyed_item, ir_rollout_ordinal row.2) <$> items_of db rollout_id).
Proof. destruct (Hstore rollout_id) as (next & _ & _ & Ho & _). by eapply map_to_list_column_NoDup. Qed.
Lemma updates_NoDup (rollout_id : ThreadId) (base : keyed_item → bool) :
  (∀ row, base row = true → (0 < ir_updated_at_ordinal row.2)%Z) →
  NoDup ((λ row : keyed_item, ir_updated_at_ordinal row.2) <$> List.filter base (items_of db rollout_id)).
Proof.
  intros Hbase. destruct (Hstore rollout_id) as (next & _ & _ & _ & _ & Hu). apply NoDup_fmap_2_strong.
  - intros [k1 r1] [k2 r2] [H1%elem_of_map_to_list B1]%elem_of_list_filter [H2%elem_of_map_to_list _]%elem_of_list_filter E.
    simpl in E. pose proof (Hu _ _ _ _ H1 H2 (Hbase _ B1) E) as ->. by simplify_eq.
  - apply NoDup_ListNoDup, List.NoDup_filter, NoDup_ListNoDup, NoDup_map_to_list.
Qed.
Lemma segment_items_elem (s : nat * RolloutLineageSegment) (row : StoredThreadItemRow) :
  row ∈ segment_items s ↔ ∃ key r, st_items (th_tables (history_of db (seg_rollout_id s.2))) !! key = Some r
    ∧ in_segment s.2 (Z.to_N (ir_rollout_ordinal r)) = true ∧ turn_filter (li_turn_id params) (key, r) = true
    ∧ row = item_of ir_rollout_ordinal (key, r).
Proof.
  unfold segment_items. rewrite list_elem_of_fmap. split.
  - intros ([key r] & -> & Hr). rewrite order_by_perm in Hr. apply elem_of_list_filter in Hr as [Hin Hp].
    destruct (stored_item _ _ ir_rollout_ordinal Hin) as [? _]; [by left|]. simpl in *. reflect_bools. exists key, r.
    rewrite <- in_range_segment by lia. split_and!; try done. by apply elem_of_map_to_list in Hin.
  - intros (key & r & Hr & Hin & Ht & ->). exists (key, r). split; [done|]. rewrite order_by_perm.
    apply elem_of_list_filter. apply elem_of_map_to_list in Hr. split; [done|].
    destruct (stored_item (seg_rollout_id s.2) (key, r) ir_rollout_ordinal Hr) as [? _]; [by left|].
    simpl in *. by rewrite in_range_segment, Hin, Ht by lia.
Qed.
Lemma fetch_items_ok (i : nat) (s : RolloutLineageSegment) (cursor : option HistoryCursor) (past : Z → bool) (limit : N) :
  segment_bounded s → li_after_updated_at_ordinal params = None →
  cursor_clause (li_sort_direction params) cursor = Ok past →
  fetch_items db params i s cursor limit
  = Ok (take (N.to_nat limit) (List.filter (λ row, past (item_position row)) (segment_items (i, s)))).
Proof.
  intros Hb Ha Hp. unfold fetch_items. rewrite segment_range_ok, Ha, Hp by done. simpl.
  rewrite (collect_results_total _ (item_of ir_rollout_ordinal)).
  - f_equal. apply (query_after (λ row : keyed_item, ir_rollout_ordinal row.2)); [apply NoDup_column_filter, items_NoDup|done].
  - intros row Hrow. apply (stored_item (seg_rollout_id s)); [|by left].
    apply elem_of_take_all in Hrow. rewrite order_by_perm in Hrow. by apply elem_of_list_filter in Hrow as [? _].
Qed.

Lemma indexed_elem (i : nat) (s : RolloutLineageSegment) : (i, s) ∈ indexed lineage ↔ lineage !! i = Some s.
Proof.
  unfold indexed. rewrite elem_of_lookup_imap. split; [intros (? & ? & [= -> ->] & ?); done|]. intros. by exists i, s.
Qed.
Lemma page_created (cursor : option rstr) :
  li_sort_key params = CreatedAtOrdinal → li_after_updated_at_ordinal params = None →
  page_item_rows db lineage (with_cursor params cursor)
  = (cursor ← parse_cursor cursor (li_thread_id params) ScopeItemsByCreatedAtOrdinal;
     segments ← segments_from_cursor lineage (li_sort_direction params) cursor;
     rows ← collect_rows (fetch_items db params) (li_page_size params) [] segments;
     finish_page item_position (li_thread_id params) ScopeItemsByCreatedAtOrdinal rows (li_page_size params)).
Proof. destruct params. unfold page_item_rows. cbn. by intros -> ->. Qed.
Lemma parse_cursor_ok (text : rstr) (thread_id : ThreadId) (scope : CursorScope) (ordinal : N) (anchor : bool) :
  cursor_from_str text = Some (mkCursor thread_id ordinal anchor scope) →
  parse_cursor (Some text) thread_id scope = Ok (Some (mkCursor thread_id ordinal anchor scope)).
Proof. intros H. unfold parse_cursor. rewrite H. simpl. by rewrite !bool_decide_eq_true_2. Qed.
Lemma items_of_pages :
  li_sort_key params = CreatedAtOrdinal → li_after_updated_at_ordinal params = None →
  lineage ≠ [] → lineage_ordered lineage → Forall segment_bounded lineage →
  ∃ rows, read_pages (λ cursor, page_item_rows db lineage (with_cursor params cursor)) (S (length rows)) None = Some (Ok rows)
    ∧ listed item_position (li_sort_direction params) rows
    ∧ ∀ row, row ∈ rows ↔ item_in_lineage db lineage (li_turn_id params) row.
Proof.
  intros Hkey Hafter Hne Hord Hbound. destruct Hsize as [Hpos Hlt].
  assert (∀ i s cursor past limit, (i, s) ∈ indexed lineage →
    cursor_clause (li_sort_direction params) cursor = Ok past → fetch_items db params i s cursor limit
    = Ok (take (N.to_nat limit) (List.filter (λ row, past (item_position row)) (segment_items (i, s))))) as Hfetch.
  { intros i s cursor past limit Hs%indexed_elem. apply fetch_items_ok; [|done].
    rewrite Forall_forall in Hbound. apply Hbound. by eapply list_elem_of_lookup_2. }
  assert (∀ s row, s ∈ indexed lineage → row ∈ segment_items s →
    (0 <= item_position row < 2 ^ 63)%Z ∧ in_segment s.2 (Z.to_N (item_position row)) = true) as Hrange.
  { intros s row _ (key & r & Hr & Hin & _ & ->)%segment_items_elem. apply elem_of_map_to_list in Hr.
    destruct (stored_item _ (key, r) ir_rollout_ordinal Hr) as [? _]; [by left|]. done. }
  assert (∀ s, s ∈ indexed lineage → listed item_position (li_sort_direction params) (segment_items s)) as Hlist.
  { intros s _. apply (listed_fmap (λ row : keyed_item, ir_rollout_ordinal row.2)); [done|].
    apply order_by_listed, NoDup_column_filter, items_NoDup. }
  exists (lineage_rows lineage (li_sort_direction params) segment_items). split_and!.
  - apply (read_pages_listing item_position (li_thread_id params) ScopeItemsByCreatedAtOrdinal (li_sort_direction params)
      (li_page_size params)); [done|by apply lineage_rows_listed|by eapply lineage_rows_positive| |].
    + rewrite page_created by done. cbn [parse_cursor mbind result_bind].
      edestruct (collect_first item_position lineage (li_sort_direction params) (li_page_size params)
        (fetch_items db params)) as (segments & -> & Hc); [done..|]. cbn [mbind result_bind]. by rewrite Hc.
    + intros text row Hrow Htext. rewrite page_created, (parse_cursor_ok _ _ _ _ _ Htext) by done.
      cbn [mbind result_bind].
      edestruct (collect_after item_position lineage (li_sort_direction params) (li_page_size params)
        (fetch_items db params)) as (segments & -> & Hc); [done..|]. cbn [mbind result_bind]. by rewrite Hc.
  - by apply lineage_rows_listed.
  - intros row. rewrite lineage_rows_elem. split.
    + intros ([i s] & Hs%indexed_elem & (key & r & ?)%segment_items_elem). exists s, key, r.
      split; [by eapply list_elem_of_lookup_2|done].
    + intros (s & key & r & (i & Hs)%list_elem_of_lookup & ?). exists (i, s).
      split; [by apply indexed_elem|]. apply segment_items_elem. by exists key, r.
Qed.

(** The items that changed after a watermark, in the order of their changes *)
Lemma updates_of_pages (segment : RolloutLineageSegment) (watermark : N) :
  li_sort_key params = UpdatedAtOrdinal → li_after_updated_at_ordinal params = Some watermark →
  lineage = [segment] → (watermark < 2 ^ 63)%N →
  ∃ rows, read_pages (λ cursor, page_item_rows db lineage (with_cursor params cursor)) (S (length rows)) None = Some (Ok rows)
    ∧ listed item_position (li_sort_direction params) rows
    ∧ ∀ row, row ∈ rows ↔ ∃ key r,
        st_items (th_tables (history_of db (seg_rollout_id segment))) !! key = Some r
        ∧ (Z.of_N watermark < ir_updated_at_ordinal r)%Z ∧ turn_filter (li_turn_id params) (key, r) = true
        ∧ row = item_of ir_updated_at_ordinal (key, r).
Proof.
  intros Hkey Hafter Hl Hw. destruct Hsize as [Hpos Hlt].
  set (column := λ row : keyed_item, ir_updated_at_ordinal row.2).
  set (base := λ row : keyed_item, (Z.of_N watermark <? ir_updated_at_ordinal row.2)%Z && turn_filter (li_turn_id params) row).
  set (items := items_of db (seg_rollout_id segment)).
  set (rows := item_of ir_updated_at_ordinal <$> order_by column (li_sort_direction params) (List.filter base items)).
  assert (NoDup (column <$> List.filter base items)) as Hnd.
  { apply updates_NoDup. intros row [Hr _]%andb_true_iff. apply Z.ltb_lt in Hr. lia. }
  assert (listed item_position (li_sort_direction params) rows) as Hlist.
  { apply (listed_fmap column); [done|]. by apply order_by_listed. }
  assert (∀ row, row ∈ rows ↔ ∃ r, row = item_of ir_updated_at_ordinal r ∧ r ∈ items ∧ base r = true) as Hrows.
  { intros row. unfold rows. rewrite list_elem_of_fmap. setoid_rewrite order_by_perm.
    by setoid_rewrite elem_of_list_filter. }
  assert (∀ row, row ∈ rows → (0 <= item_position row < 2 ^ 63)%Z) as Hposs.
  { intros row (r & -> & Hr & _)%Hrows. destruct (stored_item _ r ir_updated_at_ordinal Hr) as [? _]; [by right|done]. }
  assert (∀ cursor past text, parse_cursor text (li_thread_id params) ScopeItemsByUpdatedAtOrdinal = Ok cursor →
    cursor_clause (li_sort_direction params) cursor = Ok past →
    page_item_rows db lineage (with_cursor params text) = finish_page item_position (li_thread_id params)
      ScopeItemsByUpdatedAtOrdinal (take (N.to_nat (li_page_size params) + 1)
        (List.filter (λ row, past (item_position row)) rows)) (li_page_size params)) as Hpage.
  { intros cursor past text Hparse Hpast. unfold page_item_rows. cbn [with_cursor li_after_updated_at_ordinal li_sort_key].
    rewrite Hkey, Hafter, Hl. cbn [length Nat.ltb Nat.leb mbind result_bind ok_or].
    unfold page_updated_item_rows. cbn [with_cursor li_cursor li_thread_id li_sort_direction li_page_size li_turn_id].
    rewrite Hparse. cbn [mbind result_bind]. unfold paging_integer at 1. rewrite (proj2 (N.ltb_lt _ _)) by done.
    cbn [mbind result_bind]. rewrite Hpast. cbn [mbind result_bind]. rewrite remaining_limit_ok by lia.
    cbn [mbind result_bind]. rewrite (collect_results_total _ (item_of ir_updated_at_ordinal)).
    - cbn [mbind result_bind]. f_equal. rewrite (query_after column item_position (item_of ir_updated_at_ordinal)).
      + f_equal. lia.
      + done.
      + done.
    - intros row Hrow. apply (stored_item (seg_rollout_id segment)); [|by right].
      apply elem_of_take_all in Hrow. rewrite order_by_perm in Hrow. by apply elem_of_list_filter in Hrow as [? _]. }
  exists rows. split_and!; [|done|].
  - apply (read_pages_listing item_position (li_thread_id params) ScopeItemsByUpdatedAtOrdinal (li_sort_direction params)
      (li_page_size params)); [done|done|by apply Forall_forall; intros row [? _]%Hposs| |].
    + rewrite (Hpage None (λ _, true) None) by done. by rewrite filter_all_true by by apply Forall_true.
    + intros text row Hrow Htext. rewrite (Hpage _ (past_cursor (li_sort_direction params) false (item_position row)) (Some text)
        (parse_cursor_ok _ _ _ _ _ Htext)); [done|]. simpl. unfold paging_integer. specialize (Hposs row Hrow).
      rewrite (proj2 (N.ltb_lt _ _)) by lia. simpl. by rewrite Z2N.id by lia.
  - intros row. rewrite Hrows. split.
    + intros ([key r] & -> & Hr & Hb). unfold base in Hb. simpl in Hb. reflect_bools. exists key, r.
      apply elem_of_map_to_list in Hr. split_and!; try done. by apply Z.ltb_lt.
    + intros (key & r & Hr & Hw' & Ht & ->). exists (key, r). split; [done|].
      apply elem_of_map_to_list in Hr. split; [done|]. unfold base. simpl. by rewrite (proj2 (Z.ltb_lt _ _) Hw'), Ht.
Qed.
End items.

(** ** Turns *)

Section turns.
Context `{CL : CursorLaws} (db : database).

(** Whether a segment has a row of the turn in its range *)
Definition has_turn (segment : RolloutLineageSegment) (turn_id : rstr) (row : turn_row) : Prop :=
  turns_of db (seg_rollout_id segment) !! turn_id = Some row ∧ in_range (range_of segment) (tr_rollout_ordinal row) = true.
(** The row of a turn in the last segment that has one *)
Definition visible_row (lineage : RolloutLineage) (i : nat) (segment : RolloutLineageSegment) (turn_id : rstr)
    (row : turn_row) : Prop :=
  lineage !! i = Some segment ∧ has_turn segment turn_id row
  ∧ ∀ j newer row', i < j → lineage !! j = Some newer → ¬ has_turn newer turn_id row'.

Lemma visible_turn_true (newer : list RolloutLineageSegment) (turn_id : rstr) :
  Forall segment_bounded newer →
  visible_turn db newer turn_id = true ↔ ∀ segment row, segment ∈ newer → ¬ has_turn segment turn_id row.
Proof.
  intros Hb. unfold visible_turn. rewrite forallb_forall. rewrite Forall_forall in Hb. split.
  - intros H segment row Hs [Hrow Hin]. specialize (H segment ltac:(by apply list_elem_of_In)).
    unfold not_in_segment in H. rewrite segment_range_ok in H by by apply Hb. simpl in H. by rewrite Hrow, Hin in H.
  - intros H segment Hs%list_elem_of_In. unfold not_in_segment. rewrite segment_range_ok by by apply Hb. simpl.
    destruct (turns_of db (seg_rollout_id segment) !! turn_id) as [row|] eqn:E; [|done].
    apply negb_true_iff, not_true_iff_false. intros Hin. by apply (H segment row).
Qed.
Lemma visible_row_drop (lineage : RolloutLineage) (i : nat) (segment : RolloutLineageSegment) (turn_id : rstr)
    (row : turn_row) :
  Forall segment_bounded lineage →
  visible_row lineage i segment turn_id row ↔ lineage !! i = Some segment ∧ has_turn segment turn_id row
    ∧ visible_turn db (drop (i + 1) lineage) turn_id = true.
Proof.
  intros Hb. rewrite visible_turn_true by by apply Forall_drop. unfold visible_row. split.
  - intros (? & ? & H). split_and!; [done..|]. intros s r (j & Hj)%list_elem_of_lookup. rewrite lookup_drop in Hj.
    apply (H (i + 1 + j)); [lia|done].
  - intros (? & ? & H). split_and!; [done..|]. intros j s r Hij Hj. apply H. apply list_elem_of_lookup.
    exists (j - (i + 1)). rewrite lookup_drop. by replace (i + 1 + (j - (i + 1))) with j by lia.
Qed.
Lemma visible_row_unique (lineage : RolloutLineage) (i j : nat) (s1 s2 : RolloutLineageSegment) (turn_id : rstr)
    (r1 r2 : turn_row) :
  visible_row lineage i s1 turn_id r1 → visible_row lineage j s2 turn_id r2 → i = j ∧ s1 = s2 ∧ r1 = r2.
Proof.
  intros (Hi & [Ht1 Hr1] & Hn1) (Hj & [Ht2 Hr2] & Hn2).
  assert (i = j) as <-.
  { destruct (lt_eq_lt_dec i j) as [[Hlt| ->]|Hlt]; [|done|].
    - by destruct (Hn1 j s2 r2 Hlt Hj).
    - by destruct (Hn2 i s1 r1 Hlt Hi). }
  by simplify_eq.
Qed.
(** [find_visible_turn] returns the row that is visible. *)
Lemma find_visible_turn_ok (lineage : RolloutLineage) (turn_id : rstr) (found : TurnRow) :
  Forall segment_bounded lineage →
  find_visible_turn db lineage turn_id = Ok found ↔
  ∃ i segment row, visible_row lineage i segment turn_id row ∧ found = mkTurnLookup (seg_rollout_id segment) row.
Proof.
  unfold find_visible_turn. intros Hb. induction lineage as [|segment l IH] using rev_ind; simpl.
  { split; [done|]. intros (i & s & r & (Hi & _) & _). by rewrite lookup_nil in Hi. }
  apply Forall_app in Hb as [Hb Hs]. apply Forall_cons in Hs as [Hs _]. specialize (IH Hb).
  rewrite rev_app_distr. simpl. unfold query_turn_row. rewrite segment_range_ok by done. simpl.
  assert (∀ row, has_turn segment turn_id row → visible_row (l ++ [segment]) (length l) segment turn_id row) as Hlast.
  { intros row H. split_and!; [by rewrite list_lookup_middle|done|]. intros j newer r' Hj Hn.
    apply lookup_lt_Some in Hn. rewrite length_app in Hn. simpl in Hn. lia. }
  assert (∀ found', (∀ row, ¬ has_turn segment turn_id row) →
    (∃ i s row, visible_row l i s turn_id row ∧ found' = mkTurnLookup (seg_rollout_id s) row) ↔
    (∃ i s row, visible_row (l ++ [segment]) i s turn_id row ∧ found' = mkTurnLookup (seg_rollout_id s) row)) as Hskip.
  { intros found' Hnot. split; intros (i & s & row & (Hi & Ht & Hn) & ->); exists i, s, row; split; try done.
    - split_and!; [by apply lookup_app_l_Some|done|]. intros j newer r' Hij Hj.
      apply lookup_app_Some in Hj as [Hj|[? Hj]]; [by eapply Hn|].
      apply list_lookup_singleton_Some in Hj as [_ <-]. apply Hnot.
    - apply lookup_app_Some in Hi as [Hi|[_ Hi]].
      + split_and!; [done..|]. intros j newer r' Hij Hj. eapply Hn; [done|]. by apply lookup_app_l_Some.
      + apply list_lookup_singleton_Some in Hi as [_ <-]. by destruct (Hnot row). }
  destruct (turns_of db (seg_rollout_id segment) !! turn_id) as [row|] eqn:E.
  - destruct (in_range (range_of segment) (tr_rollout_ordinal row)) eqn:Hin.
    + split.
      * intros [= <-]. exists (length l), segment, row. split; [by apply Hlast|done].
      * intros (i & s & r & Hv & ->). assert (has_turn segment turn_id row) as Hh by done.
        by destruct (visible_row_unique _ _ _ _ _ _ _ _ Hv (Hlast row Hh)) as (_ & -> & ->).
    + rewrite <- Hskip; [done|]. intros r [Hr Hr']. congruence.
  - rewrite <- Hskip; [done|]. intros r [Hr Hr']. congruence.
Qed.

Context (lineage : RolloutLineage) (direction : SortDirection) (items_view : StoredTurnItemsView).
Hypothesis Hstore : store_ok db.
Hypothesis Hbound : Forall segment_bounded lineage.
(** Every visible row can be converted: its status is known, its JSON parses. *)
Definition turns_readable : Prop :=
  ∀ i segment turn_id row, visible_row lineage i segment turn_id row →
    ∃ r, turn_from_row db items_view segment (range_of segment) (turn_id, row) = Ok r.
Hypothesis Hread : turns_readable.

(** The conversion, with a value where there is no row *)
Definition turn_of (segment : RolloutLineageSegment) (turn : rstr * turn_row) : StoredTurnRow :=
  match turn_from_row db items_view segment (range_of segment) turn with
  | Ok r => r
  | Err _ => mkStoredTurnRow (tr_rollout_ordinal turn.2) turn.1 TurnInProgress None None None None None None []
  end.
Lemma turn_from_row_position (segment : RolloutLineageSegment) (turn : rstr * turn_row) (r : StoredTurnRow) :
  turn_from_row db items_view segment (range_of segment) turn = Ok r →
  turn_position r = tr_rollout_ordinal turn.2 ∧ str_turn_id r = turn.1.
Proof. destruct turn as [id row]. unfold turn_from_row, stored_turn_row. intros H. by inv_ok. Qed.
Lemma turn_of_position (segment : RolloutLineageSegment) (turn : rstr * turn_row) :
  turn_position (turn_of segment turn) = tr_rollout_ordinal turn.2.
Proof.
  unfold turn_of. destruct (turn_from_row _ _ _ _ _) as [r|] eqn:E; [|done]. by apply turn_from_row_position in E as [-> _].
Qed.
Definition segment_turns (s : nat * RolloutLineageSegment) : list StoredTurnRow :=
  turn_of s.2 <$> order_by (λ row, tr_rollout_ordinal row.2) direction
    (List.filter (λ row, in_range (range_of s.2) (tr_rollout_ordinal row.2)
                         && visible_turn db (drop (s.1 + 1) lineage) row.1)
       (map_to_list (turns_of db (seg_rollout_id s.2)))).
Lemma turns_NoDup (rollout_id : ThreadId) :
  NoDup ((λ row : rstr * turn_row, tr_rollout_ordinal row.2) <$> map_to_list (turns_of db rollout_id)).
Proof.
  destruct (Hstore rollout_id) as (next & _ & Ho & _). by eapply map_to_list_column_NoDup.
Qed.
Lemma segment_turns_elem (i : nat) (s : RolloutLineageSegment) (row : StoredTurnRow) :
  lineage !! i = Some s →
  row ∈ segment_turns (i, s) ↔ ∃ turn_id r, visible_row lineage i s turn_id r
    ∧ turn_from_row db items_view s (range_of s) (turn_id, r) = Ok row.
Proof.
  intros Hi. unfold segment_turns. rewrite list_elem_of_fmap. setoid_rewrite order_by_perm.
  setoid_rewrite elem_of_list_filter. cbn [fst snd].
  setoid_rewrite (visible_row_drop lineage i s _ _ Hbound). split.
  - intros ([id r] & -> & Hin & Hp). apply elem_of_map_to_list in Hin. simpl in Hp. reflect_bools. exists id, r.
    destruct (Hread i s id r) as [row Hrow]; [by apply visible_row_drop|].
    split; [done|]. unfold turn_of. by rewrite Hrow.
  - intros (id & r & (_ & [Ht Hr] & Hv) & Hrow). exists (id, r). unfold turn_of. rewrite Hrow. split; [done|].
    split; [by apply elem_of_map_to_list|]. simpl. by rewrite Hr, Hv.
Qed.
Lemma newer_ranges_ok (segments : list RolloutLineageSegment) :
  Forall segment_bounded segments → newer_ranges segments = Ok ().
Proof. induction 1 as [|s l Hs _ IH]; simpl; [done|]. by rewrite segment_range_ok. Qed.
Lemma fetch_turns_ok (i : nat) (s : RolloutLineageSegment) (cursor : option HistoryCursor) (past : Z → bool) (limit : N) :
  lineage !! i = Some s → cursor_clause direction cursor = Ok past →
  fetch_turns db lineage direction items_view i s cursor limit
  = Ok (take (N.to_nat limit) (List.filter (λ row, past (turn_position row)) (segment_turns (i, s)))).
Proof.
  intros Hi Hp. assert (segment_bounded s) as Hs.
  { rewrite Forall_forall in Hbound. apply Hbound. by eapply list_elem_of_lookup_2. }
  unfold fetch_turns. rewrite segment_range_ok, newer_ranges_ok, Hp by (done || by apply Forall_drop).
  cbn [mbind result_bind]. rewrite (collect_results_total _ (turn_of s)).
  - f_equal. apply (query_after (λ row : rstr * turn_row, tr_rollout_ordinal row.2)); [apply NoDup_column_filter, turns_NoDup|].
    apply turn_of_position.
  - intros [id r] Hrow. apply elem_of_take_all in Hrow. rewrite order_by_perm in Hrow.
    apply elem_of_list_filter in Hrow as [Hin Hb]. simpl in Hb. reflect_bools. apply elem_of_map_to_list in Hin.
    destruct (Hread i s id r) as [row Hrow]; [by apply visible_row_drop|]. unfold turn_of. by rewrite Hrow.
Qed.
Lemma turns_of_pages (thread_id : ThreadId) (page_size : N) :
  (0 < page_size)%N → (page_size + 1 < 2 ^ 63)%N → lineage ≠ [] → lineage_ordered lineage →
  ∃ rows, read_pages (λ cursor, page_turn_rows db thread_id lineage cursor page_size direction items_view)
      (S (length rows)) None = Some (Ok rows)
    ∧ listed turn_position direction rows
    ∧ ∀ row, row ∈ rows ↔ ∃ i s turn_id r, visible_row lineage i s turn_id r
        ∧ turn_from_row db items_view s (range_of s) (turn_id, r) = Ok row.
Proof.
  intros Hpos Hlt Hne Hord.
  assert (∀ i s cursor past limit, (i, s) ∈ indexed lineage →
    cursor_clause direction cursor = Ok past → fetch_turns db lineage direction items_view i s cursor limit
    = Ok (take (N.to_nat limit) (List.filter (λ row, past (turn_position row)) (segment_turns (i, s))))) as Hfetch.
  { intros i s cursor past limit Hs%indexed_elem. by apply fetch_turns_ok. }
  assert (∀ s row, s ∈ indexed lineage → row ∈ segment_turns s →
    (0 <= turn_position row < 2 ^ 63)%Z ∧ in_segment s.2 (Z.to_N (turn_position row)) = true) as Hrange.
  { intros [i s] row Hs%indexed_elem (id & r & (_ & [Ht Hr] & _) & Hrow)%segment_turns_elem; [|done].
    destruct (Hstore (seg_rollout_id s)) as (next & ? & [Ho _] & _). specialize (Ho _ _ Ht).
    apply turn_from_row_position in Hrow as [-> _]. simpl. rewrite <- in_range_segment by lia. split; [lia|done]. }
  assert (∀ s, s ∈ indexed lineage → listed turn_position direction (segment_turns s)) as Hlist.
  { intros s _. apply (listed_fmap (λ row : rstr * turn_row, tr_rollout_ordinal row.2)); [apply turn_of_position|].
    apply order_by_listed, NoDup_column_filter, turns_NoDup. }
  exists (lineage_rows lineage direction segment_turns). split_and!.
  - apply (read_pages_listing turn_position thread_id ScopeTurns direction page_size);
      [done|by apply lineage_rows_listed|by eapply lineage_rows_positive| |].
    + unfold page_turn_rows. cbn [parse_cursor mbind result_bind].
      edestruct (collect_first turn_position lineage direction page_size (fetch_turns db lineage direction items_view))
        as (segments & -> & Hc); [done..|]. cbn [mbind result_bind]. by rewrite Hc.
    + intros text row Hrow Htext. unfold page_turn_rows. rewrite (parse_cursor_ok _ _ _ _ _ Htext).
      cbn [mbind result_bind].
      edestruct (collect_after turn_position lineage direction page_size (fetch_turns db lineage direction items_view))
        as (segments & -> & Hc); [done..|]. cbn [mbind result_bind]. by rewrite Hc.
  - by apply lineage_rows_listed.
  - intros row. rewrite lineage_rows_elem. split.
    + intros ([i s] & Hs%indexed_elem & (id & r & ?)%segment_turns_elem); [|done]. by exists i, s, id, r.
    + intros (i & s & id & r & Hv & ?). exists (i, s). split; [by apply indexed_elem; destruct Hv|].
      apply segment_turns_elem; [by destruct Hv|]. by exists id, r.
Qed.
End turns.
