(* ===== verification/HistoryPagingSpec.v ===== *)
(** What a client of the paged history can rely on: the lineage of a fork is found
    and is a chain of rollouts, following the cursors lists every item and every
    visible turn once and in order, and incremental replay returns exactly the items
    that changed. *)

From stdpp Require Import sorting.
From S2P Require Import Prelude AbsolutePath PathUris PathUriExample OutputTruncation History CoreItems ThreadItems ThreadHistory.
From S2P Require Import ThreadHistorySpec HistoryStore HistoryStoreProps HistoryStoreSpec HistoryPaging HistoryPagingProps.

#[local] Opaque str.

(** ** Lineage *)

(** Every segment but the last ends at the position that the next one starts after;
    the last one has no end. *)
Fixpoint linked (lineage : list RolloutLineageSegment) : Prop :=
  match lineage with
  | [] => True
  | segment :: rest =>
      match rest with
      | [] => seg_end segment = None
      | next :: _ => ∃ cutoff, seg_end segment = Some cutoff ∧ hp_thread_id cutoff = seg_rollout_id segment
          ∧ start_ordinal next = (hp_end_ordinal_exclusive cutoff + 1)%N
      end ∧ linked rest
  end.
Lemma lineage_segment_ok (ro : rollouts) (requested : ThreadId) (seen : gset ThreadId) (source : option ThreadId)
    (cutoff base : option HistoryPosition) (segment : RolloutLineageSegment) :
  lineage_segment ro requested seen source cutoff = Ok (segment, base) →
  seg_rollout_id segment ∉ seen ∧ seg_end segment = cutoff
  ∧ match source with Some id => seg_rollout_id segment = id ∧ id ∈ dom (ro_paths ro) | None => True end
  ∧ start_ordinal segment = match base with Some base => (hp_end_ordinal_exclusive base + 1)%N | None => 1%N end.
Proof.
  unfold lineage_segment. intros H. apply result_bind_Ok in H as ([id path] & Hid & H).
  apply result_bind_Ok in Hid as ([id' path'] & Hid & Hnew).
  destruct (bool_decide (id' ∈ seen)) eqn:Hseen; [done|]. injection Hnew as -> ->. reflect_bools.
  apply result_bind_Ok in H as (meta & _ & H).
  destruct (match source with Some _ => false | None => negb _ end); [done|].
  destruct (negb (rm_paginated meta)); [done|].
  apply result_bind_Ok in H as (_ & _ & H). apply result_bind_Ok in H as (start & Hstart & H).
  injection H as <- <-. simpl. split_and!; [done|done| |].
  - destruct source as [rollout_id|]; [|done]. simpl in Hid. unfold resolve_rollout_path_by_id in Hid.
    destruct (ro_paths ro !! rollout_id) as [[p|]|] eqn:E; simpl in Hid; [|done..]. injection Hid as <- <-.
    split; [done|]. by apply elem_of_dom_2 in E.
  - destruct (rm_history_base meta) as [base|]; [|by injection Hstart]. by apply ok_or_checked_add in Hstart as [-> _].
Qed.

(** The segments found so far, and the position they go back to *)
Definition loop_ok (seen : gset ThreadId) (source : option ThreadId) (cutoff : option HistoryPosition)
    (segments : list RolloutLineageSegment) : Prop :=
  linked segments ∧ NoDup (seg_rollout_id <$> segments) ∧ (∀ s, s ∈ segments → seg_rollout_id s ∈ seen)
  ∧ match segments with
    | [] => source = None ∧ cutoff = None
    | s :: _ => ∃ p, cutoff = Some p ∧ source = Some (hp_thread_id p) ∧ start_ordinal s = (hp_end_ordinal_exclusive p + 1)%N
    end.
Definition lineage_chain (lineage : list RolloutLineageSegment) : Prop :=
  linked lineage ∧ NoDup (seg_rollout_id <$> lineage) ∧ start_ordinal <$> head lineage = Some 1%N.
Lemma loop_step (ro : rollouts) (requested : ThreadId) (seen : gset ThreadId) (source : option ThreadId)
    (cutoff base : option HistoryPosition) (segments : list RolloutLineageSegment) (segment : RolloutLineageSegment) :
  loop_ok seen source cutoff segments → lineage_segment ro requested seen source cutoff = Ok (segment, base) →
  match base with
  | Some p => loop_ok ({[seg_rollout_id segment]} ∪ seen) (Some (hp_thread_id p)) (Some p) (segment :: segments)
  | None => lineage_chain (segment :: segments)
  end.
Proof.
  intros (Hl & Hnd & Hin & Hm) (Hseen & He & Hsrc & Hstart)%lineage_segment_ok.
  assert (linked (segment :: segments)) as Hl'.
  { simpl. split; [|done]. destruct segments as [|s segments]; [by rewrite He; destruct Hm|].
    destruct Hm as (p & -> & -> & Hs). exists p. rewrite He. destruct Hsrc as [<- _]. done. }
  assert (NoDup (seg_rollout_id <$> segment :: segments)) as Hnd'.
  { simpl. constructor; [|done]. intros (s & E & Hs)%list_elem_of_fmap. apply Hseen. rewrite E. by apply Hin. }
  destruct base as [p|]; [|by split_and!; [..|simpl; by rewrite Hstart]].
  split_and!; [done|done| |by exists p]. intros s [->|Hs]%elem_of_cons; set_solver.
Qed.
Lemma lineage_loop_ok (fuel : nat) (ro : rollouts) (requested : ThreadId) (seen : gset ThreadId)
    (source : option ThreadId) (cutoff : option HistoryPosition) (segments lineage : list RolloutLineageSegment) :
  loop_ok seen source cutoff segments →
  lineage_loop fuel ro requested seen source cutoff segments = Some (Ok lineage) → lineage_chain lineage.
Proof.
  revert seen source cutoff segments; induction fuel as [|fuel IH]; intros seen source cutoff segments Hok H; [done|].
  cbn [lineage_loop] in H. destruct (lineage_segment _ _ _ _ _) as [[segment base]|] eqn:E; [|done].
  pose proof (loop_step _ _ _ _ _ _ _ _ Hok E) as Hstep.
  destruct base as [p|]; [by eapply IH|]. by injection H as <-.
Qed.
(** Every further iteration takes a rollout that was not seen. *)
Lemma lineage_loop_total (fuel : nat) (ro : rollouts) (requested : ThreadId) (seen : gset ThreadId)
    (source : option ThreadId) (cutoff : option HistoryPosition) (segments : list RolloutLineageSegment) :
  size (dom (ro_paths ro) ∖ seen) + (if source then 0 else 1) < fuel →
  ∃ outcome, lineage_loop fuel ro requested seen source cutoff segments = Some outcome.
Proof.
  revert seen source cutoff segments; induction fuel as [|fuel IH]; intros seen source cutoff segments Hf; [lia|].
  cbn [lineage_loop]. destruct (lineage_segment _ _ _ _ _) as [[segment base]|] eqn:E; [|by eexists].
  apply lineage_segment_ok in E as (Hseen & _ & Hsrc & _). destruct base as [p|]; [|by eexists].
  apply IH. simpl. destruct source as [id|].
  - destruct Hsrc as [<- Hin].
    assert (size (dom (ro_paths ro) ∖ ({[seg_rollout_id segment]} ∪ seen)) < size (dom (ro_paths ro) ∖ seen)); [|lia].
    apply subset_size. set_solver.
  - assert (size (dom (ro_paths ro) ∖ ({[seg_rollout_id segment]} ∪ seen)) <= size (dom (ro_paths ro) ∖ seen)); [|lia].
    apply subseteq_size. set_solver.
Qed.

(** C22: Resolving the lineage of a thread terminates, whatever the session
    metas say, cycles included; a resolved lineage starts at the first ordinal
    after a session meta, visits no rollout twice, and every segment ends where
    the fork that follows it was taken. *)
Theorem lineage_resolves_to_chain (ro : rollouts) (requested : ThreadId) :
  ∃ outcome, resolve_rollout_lineage ro requested = Some outcome
    ∧ ∀ lineage, outcome = Ok lineage → lineage_chain lineage.
Proof.
  destruct (lineage_loop_total (2 + size (ro_paths ro)) ro requested ∅ None None []) as [outcome H].
  { rewrite difference_empty_L, size_dom. simpl. lia. }
  exists outcome. split; [done|]. intros lineage ->. eapply lineage_loop_ok; [|done].
  split_and!; simpl; try done; [constructor|by intros s ?%elem_of_nil].
Qed.

(** Forks are taken after the start of the segment they cut. *)
Definition forks_in_segments (lineage : list RolloutLineageSegment) : Prop :=
  Forall (λ s, ∀ last, end_ordinal s = Some last → (start_ordinal s <= last)%N) lineage.
Lemma lineage_chain_ordered (lineage : list RolloutLineageSegment) :
  lineage_chain lineage → forks_in_segments lineage → lineage_ordered lineage.
Proof.
  intros (Hl & _ & _) Hf. assert (∀ l s, linked (s :: l) → forks_in_segments (s :: l) →
    Forall (λ s', ∀ last, end_ordinal s = Some last → (last < start_ordinal s')%N) l
    ∧ (l ≠ [] → is_Some (end_ordinal s))) as Hafter.
  { induction l as [|s1 l IH]; intros s [Hs Hl1] [_ Hf1]%Forall_cons; [done|].
    destruct Hs as (p & Hend & _ & Hstart). unfold end_ordinal. rewrite Hend. simpl. split; [|done].
    destruct (IH s1 Hl1 Hf1) as [Ha He]. apply Forall_cons in Hf1 as [Hf1 _]. constructor.
    - intros ? [= <-]. lia.
    - destruct l as [|s2 l]; [constructor|]. destruct (He ltac:(done)) as [last1 Hlast1].
      eapply Forall_impl; [exact Ha|]. simpl. intros s' H' ? [= <-]. specialize (H' _ Hlast1).
      specialize (Hf1 _ Hlast1). lia. }
  unfold lineage_ordered. induction lineage as [|s l IH]; constructor.
  - apply IH; [by destruct Hl|by apply Forall_cons in Hf as [_ ?]].
  - destruct (Hafter l s Hl Hf) as [Ha He]. destruct l as [|s1 l]; [constructor|].
    destruct (He ltac:(done)) as [last Hlast]. eapply Forall_impl; [exact Ha|]. simpl.
    intros s' H' o1 o2 H1 H2. specialize (H' _ Hlast). unfold in_segment in H1, H2. rewrite Hlast in H1.
    apply andb_true_iff in H1 as [_ H1]. apply andb_true_iff in H2 as [H2 _].
    apply N.ltb_lt in H1. apply N.leb_le in H2. lia.
Qed.

(** ** Listing *)

Section listing.
Context `{CL : CursorLaws}.

Definition map_page {A B} (f : A → B) (page : SegmentPage A) : SegmentPage B :=
  mkPage (f <$> page_rows page) (next_cursor page) (backwards_cursor page).
Lemma read_pages_map {A B} (f : A → B) (page : option rstr → result ReadError (SegmentPage A))
    (page' : option rstr → result ReadError (SegmentPage B)) (fuel : nat) (cursor : option rstr) (rows : list A) :
  (∀ cursor, page' cursor = (p ← page cursor; Ok (map_page f p))) →
  read_pages page fuel cursor = Some (Ok rows) → read_pages page' fuel cursor = Some (Ok (f <$> rows)).
Proof.
  intros Hp. revert cursor rows; induction fuel as [|fuel IH]; intros cursor rows H; [done|]. simpl in *.
  rewrite Hp. destruct (page cursor) as [p|]; [|done]. simpl. destruct (next_cursor p) as [next|]; [|by simplify_eq].
  destruct (read_pages page fuel (Some next)) as [[rest|]|] eqn:E; [|done..]. simplify_eq.
  by rewrite (IH _ _ E), fmap_app.
Qed.
(** The thread is listed in pages, and the page size is one that is accepted. *)
Definition listable (metadata : thread_metadata) (include_archived : bool) (page_size : N) : Prop :=
  md_paginated metadata = true ∧ (md_archived metadata = true → include_archived = true)
  ∧ (0 < page_size)%N ∧ (page_size + 1 < 2 ^ 63)%N.
Lemma listable_valid (metadata : thread_metadata) (include_archived : bool) (page_size : N) :
  listable metadata include_archived page_size →
  validate_thread_for_paginated_reads (Some metadata) include_archived = Ok () ∧ validate_page_size page_size = Ok ().
Proof.
  intros (Hm & Ha & Hpos & Hlt). unfold validate_thread_for_paginated_reads, validate_page_size, paging_limit, checked_add_u64.
  rewrite Hm. split.
  - destruct (md_archived metadata), include_archived; simpl; try done. by specialize (Ha eq_refl).
  - rewrite (proj2 (N.eqb_neq _ _)), (proj2 (N.ltb_lt _ u64_limit)) by (unfold u64_limit; lia). simpl.
    by rewrite (proj2 (N.ltb_lt _ _)) by lia.
Qed.
Lemma list_items_pages (db : database) (metadata : thread_metadata) (lineage : RolloutLineage) (params : ListItemsParams)
    (fuel : nat) (rows : list StoredThreadItemRow) :
  listable metadata (li_include_archived params) (li_page_size params) →
  read_pages (λ cursor, page_item_rows db lineage (with_cursor params cursor)) fuel None = Some (Ok rows) →
  read_pages (λ cursor, list_items db (Some metadata) (Ok lineage) (with_cursor params cursor)) fuel None
  = Some (Ok (sir_item <$> rows)).
Proof.
  intros Hl. apply read_pages_map. intros cursor. unfold list_items. cbn [with_cursor li_include_archived li_page_size].
  by destruct (listable_valid _ _ _ Hl) as [-> ->].
Qed.

(** C6: A client that follows the cursors of [list_items] gets every item of the
    lineage once, in the order of the rollout ordinals, whatever the page size
    and direction, and the last page has no cursor. *)
Theorem item_pages_list_lineage (db : database) (metadata : thread_metadata) (ro : rollouts) (lineage : RolloutLineage)
    (params : ListItemsParams) :
  store_ok db → resolve_rollout_lineage ro (li_thread_id params) = Some (Ok lineage) → forks_in_segments lineage →
  Forall segment_bounded lineage → listable metadata (li_include_archived params) (li_page_size params) →
  li_sort_key params = CreatedAtOrdinal → li_after_updated_at_ordinal params = None →
  ∃ rows, read_pages (λ cursor, list_items db (Some metadata) (Ok lineage) (with_cursor params cursor))
      (S (length rows)) None = Some (Ok (sir_item <$> rows))
    ∧ listed item_position (li_sort_direction params) rows
    ∧ ∀ row, row ∈ rows ↔ item_in_lineage db lineage (li_turn_id params) row.
Proof.
  intros Hstore Hres Hforks Hb Hl Hkey Hafter.
  assert (lineage_chain lineage) as Hc.
  { eapply lineage_loop_ok; [|exact Hres]. split_and!; simpl; try done; [constructor|by intros s ?%elem_of_nil]. }
  edestruct (items_of_pages db lineage params) as (rows & Hrows & Hlist & Hin); [done|by destruct Hl as (_ & _ & ?)|done|done| | |done|].
  - intros ->. by destruct Hc as (_ & _ & ?).
  - by apply lineage_chain_ordered.
  - exists rows. split_and!; [|done..]. by apply list_items_pages.
Qed.


(** C23: Following the cursors of the turn pages lists every visible turn once,
    in order, and a turn is listed exactly when [find_visible_turn] finds it,
    with the row that it finds: a fork's own row of a turn hides that of its
    ancestors. *)
Theorem turn_pages_list_visible (db : database) (lineage : RolloutLineage) (thread_id : ThreadId) (page_size : N)
    (direction : SortDirection) (items_view : StoredTurnItemsView) :
  store_ok db → lineage_chain lineage → forks_in_segments lineage → Forall segment_bounded lineage →
  turns_readable db lineage items_view → (0 < page_size)%N → (page_size + 1 < 2 ^ 63)%N →
  ∃ rows, read_pages (λ cursor, page_turn_rows db thread_id lineage cursor page_size direction items_view)
      (S (length rows)) None = Some (Ok rows)
    ∧ listed turn_position direction rows ∧ NoDup (str_turn_id <$> rows)
    ∧ ∀ turn_id position, (∃ row, row ∈ rows ∧ str_turn_id row = turn_id ∧ turn_position row = position) ↔
        ∃ found, find_visible_turn db lineage turn_id = Ok found ∧ tr_rollout_ordinal (lookup_row found) = position.
Proof.
  intros Hstore Hc Hf Hb Hread Hpos Hlt.
  destruct (turns_of_pages db lineage direction items_view Hstore Hb Hread thread_id page_size)
    as (rows & Hrows & Hlist & Hin); [done|done|by intros ->; destruct Hc as (_ & _ & ?)|by apply lineage_chain_ordered|].
  exists rows. split_and!; [done|done| |].
  - apply NoDup_fmap_2_strong.
    + intros a b (i1 & s1 & id1 & r1 & Hv1 & H1)%Hin (i2 & s2 & id2 & r2 & Hv2 & H2)%Hin E.
      pose proof (turn_from_row_position _ _ _ _ _ H1) as [_ E1]. pose proof (turn_from_row_position _ _ _ _ _ H2) as [_ E2].
      simpl in E1, E2. assert (id1 = id2) as <- by congruence.
      destruct (visible_row_unique _ _ _ _ _ _ _ _ _ Hv1 Hv2) as (_ & -> & ->). congruence.
    + clear -Hlist. induction Hlist as [|a l _ IH Ha]; constructor; [|done]. intros Hal.
      rewrite Forall_forall in Ha. by apply (comes_after_irrefl turn_position direction a), Ha.
  - intros turn_id position. split.
    + intros (row & (i & s & id & r & Hv & Hr)%Hin & <- & <-).
      apply turn_from_row_position in Hr as [-> ->]. simpl.
      eexists. split; [apply find_visible_turn_ok; [done|]; by exists i, s, r|done].
    + intros (found & (i & s & r & Hv & ->)%find_visible_turn_ok & <-); [|done].
      destruct (Hread _ _ _ _ Hv) as [row Hrow]. exists row.
      split; [apply Hin; by exists i, s, turn_id, r|].
      by apply turn_from_row_position in Hrow as [-> ->].
Qed.
End listing.

(** ** A concrete fork *)

#[local] Existing Instance example_env.
#[local] Existing Instance example_store_tools.
#[local] Instance example_codec : CursorCodec := {|
  cursor_to_string := λ c,
    Some ((match cursor_scope c with ScopeTurns => 0 | ScopeItemsByCreatedAtOrdinal => 1 | _ => 2 end)%N
          :: (if include_anchor c then 1 else 0)%N :: cursor_ordinal c :: requested_thread_id c);
  cursor_from_str := λ text,
    match text with
    | scope :: anchor :: ordinal :: thread =>
        Some (mkCursor thread ordinal (anchor =? 1)%N
          (if (scope =? 0)%N then ScopeTurns
           else if (scope =? 1)%N then ScopeItemsByCreatedAtOrdinal else ScopeItemsByUpdatedAtOrdinal))
    | _ => None
    end;
  stored_error_from_json := λ json, Some (mkStoredTurnError json None None);
|}.
#[local] Instance example_cursor_laws : CursorLaws.
Proof. split. intros [thread ordinal anchor scope]. eexists. split; [done|]. by destruct anchor, scope. Qed.

Definition parent_id : ThreadId := str "parent".
Definition fork_id : ThreadId := str "fork".
(** The fork was taken after ordinal 4 and has its own row of the turn. *)
Definition fork_position : HistoryPosition := mkPosition parent_id 5 15.
Definition parent_file : list N :=
  str "m-" ++ [10%N] ++ str "s1" ++ [10%N] ++ str "u2" ++ [10%N] ++ str "a3" ++ [10%N] ++ str "c4" ++ [10%N].
Definition fork_file : list N := str "f-" ++ [10%N] ++ str "s6" ++ [10%N] ++ str "u7" ++ [10%N].
Definition parent_meta : SessionMeta := mkSessionMeta None None.
Definition fork_meta : SessionMeta := mkSessionMeta (Some 5%N) None.
Definition materialized (db : database) (thread : ThreadId) (file : list N) : database :=
  match materialize_to_sqlite true db thread (FileBytes file) with Ok db => db | Err _ => ∅ end.
Definition parent_db : database := materialized ∅ parent_id parent_file.
Definition fork_db : database := materialized parent_db fork_id fork_file.
Definition fork_rollouts : rollouts :=
  mkRollouts (λ id, Ok (if str_eqb id fork_id then Some (fork_id, str "/fork.jsonl") else None))
    {[parent_id := Some (str "/parent.jsonl")]}
    (λ path, if str_eqb path (str "/fork.jsonl") then Some (mkRolloutMeta fork_id true (Some fork_position))
             else if str_eqb path (str "/parent.jsonl") then Some (mkRolloutMeta parent_id true None) else None)
    (λ path offset, Some true).
Definition fork_lineage : RolloutLineage :=
  [mkSegment parent_id (str "/parent.jsonl") 1 (Some fork_position); mkSegment fork_id (str "/fork.jsonl") 6 None].
Definition fork_params (key : ItemSortKey) (after : option N) : ListItemsParams :=
  mkListItems fork_id None false None 1 Asc key after.
Definition fork_metadata : thread_metadata := mkMetadata false true.

Definition outcome_map {A B} (f : A → B) (outcome : option (result ReadError (list A))) : list B :=
  match outcome with Some (Ok rows) => f <$> rows | _ => [] end.
Example fork_items :
  outcome_map sti_item_id
    (read_pages (λ cursor, list_items fork_db (Some fork_metadata) (Ok fork_lineage)
                             (with_cursor (fork_params CreatedAtOrdinal None) cursor)) 4 None)
  = [str "user-1"; str "agent-1"; str "user-1"].
Proof. vm_compute. done. Qed.
Example fork_turns :
  outcome_map (λ row, (str_turn_id row, turn_position row))
    (read_pages (λ cursor, page_turn_rows fork_db fork_id fork_lineage cursor 1 Desc Summary) 2 None)
  = [(str "t1", 6%Z)].
Proof. vm_compute. done. Qed.

Lemma fork_resolves : resolve_rollout_lineage fork_rollouts fork_id = Some (Ok fork_lineage).
Proof. vm_compute. done. Qed.
Lemma fork_chain : lineage_chain fork_lineage.
Proof.
  split_and!; [|apply (bool_decide_unpack _); vm_compute; exact I|done].
  split; [|done]. by exists fork_position.
Qed.
Lemma fork_in_segments : forks_in_segments fork_lineage.
Proof.
  apply Forall_cons; split; [|apply Forall_cons; split; [|constructor]]; unfold end_ordinal; simpl; [|done].
  intros ? [= <-]. lia.
Qed.
Lemma fork_bounded : Forall segment_bounded fork_lineage.
Proof.
  apply Forall_cons; split; [|apply Forall_cons; split; [|constructor]];
    (split; [unfold fork_lineage; simpl; lia|unfold end_ordinal; simpl; intros ? [= <-]; lia]).
Qed.
Lemma fork_store : store_ok fork_db.
Proof.
  assert (materialize_to_sqlite_with_state_db ∅ parent_id (FileBytes parent_file) = Ok parent_db) as H1
    by (vm_compute; reflexivity).
  assert (materialize_to_sqlite_with_state_db parent_db fork_id (FileBytes fork_file) = Ok fork_db) as H2
    by (vm_compute; reflexivity).
  assert (∀ file meta, projects_prefix meta file empty_history) as Hempty.
  { intros file meta. exists []. split_and!; [apply prefix_nil|by left|done]. }
  apply (materialize_projects parent_meta) in H1 as [Hp1 Ho1]; [|done|apply Hempty].
  apply (materialize_projects fork_meta) in H2 as [Hp2 Ho2]; [|done|apply (Hempty fork_file fork_meta)].
  intros rollout_id. destruct (decide (rollout_id = fork_id)) as [->|Hf].
  - eexists. split; [|by eapply tables_ok_rollout, project_file_tables]. vm_compute. done.
  - destruct (decide (rollout_id = parent_id)) as [->|Hp].
    + assert (history_of fork_db parent_id = history_of parent_db parent_id) as -> by (unfold history_of; by rewrite Ho2).
      eexists. split; [|by eapply tables_ok_rollout, project_file_tables]. vm_compute. done.
    + assert (history_of fork_db rollout_id = empty_history) as ->
        by (unfold history_of; rewrite Ho2, Ho1 by done; reflexivity).
      exists 0%Z. split; [lia|apply tables_ok_rollout, tables_ok_empty].
Qed.
Lemma fork_listable : listable fork_metadata false 1.
Proof. split_and!; done. Qed.
Definition row_readable (row : turn_row) : bool :=
  match stored_turn_status (tr_status row), tr_error_json row with Ok _, None => true | _, _ => false end.
Lemma fork_readable : turns_readable fork_db fork_lineage NotLoaded.
Proof.
  intros i segment turn_id row (Hi & [Ht _] & _).
  assert (segment = mkSegment parent_id (str "/parent.jsonl") 1 (Some fork_position)
    ∨ segment = mkSegment fork_id (str "/fork.jsonl") 6 None) as Hs.
  { destruct i as [|[|i]]; [left|right|]; [exact (eq_sym (Some_inj _ _ Hi))..|discriminate Hi]. }
  assert (map_Forall (λ _ row, row_readable row = true) (turns_of fork_db (seg_rollout_id segment))) as Hall.
  { destruct Hs as [->| ->]; apply (bool_decide_unpack _); vm_compute; exact I. }
  specialize (Hall _ _ Ht). unfold row_readable in Hall. unfold turn_from_row, stored_turn_row. cbn [mbind result_bind].
  destruct (stored_turn_status (tr_status row)); [|done]. destruct (tr_error_json row); [done|]. by eexists.
Qed.

Lemma item_pages_list_lineage_witness :
  ∃ rows, read_pages (λ cursor, list_items fork_db (Some fork_metadata) (Ok fork_lineage)
                                  (with_cursor (fork_params CreatedAtOrdinal None) cursor)) (S (length rows)) None
      = Some (Ok (sir_item <$> rows))
    ∧ listed item_position Asc rows ∧ ∀ row, row ∈ rows ↔ item_in_lineage fork_db fork_lineage None row.
Proof.
  apply (item_pages_list_lineage fork_db fork_metadata fork_rollouts fork_lineage (fork_params CreatedAtOrdinal None)
           fork_store fork_resolves fork_in_segments fork_bounded fork_listable); reflexivity.
Defined.
Lemma turn_pages_list_visible_witness :
  ∃ rows, read_pages (λ cursor, page_turn_rows fork_db fork_id fork_lineage cursor 1 Desc NotLoaded)
      (S (length rows)) None = Some (Ok rows)
    ∧ listed turn_position Desc rows ∧ NoDup (str_turn_id <$> rows)
    ∧ ∀ turn_id position, (∃ row, row ∈ rows ∧ str_turn_id row = turn_id ∧ turn_position row = position) ↔
        ∃ found, find_visible_turn fork_db fork_lineage turn_id = Ok found ∧ tr_rollout_ordinal (lookup_row found) = position.
Proof.
  apply (turn_pages_list_visible fork_db fork_lineage fork_id 1 Desc NotLoaded fork_store fork_chain fork_in_segments
           fork_bounded fork_readable); reflexivity.
Defined.
